(* ===== verification/_CoqProject ===== *)
-Q . S2P
Prelude.v
Packing.v
Text.v
Doubles.v
DoubleArith.v
Glob.v
Cluster.v
ListData.v
HashData.v
SetData.v
ZSetData.v
Types.v
Keyspace.v
KeyspaceInvariant.v
KeyspaceSpec.v
Shards.v
ShardsSpec.v
ShardsMoves.v
ScanSpec.v
Store.v
StoreSpec.v
Resp.v
RespParser.v
Transaction.v
Acl.v
ScanSelect.v
Lcs.v
CommandArgs.v
StringCommands.v
StringSpec.v
GenericCommands.v
GenericSpec.v
ValueCells.v
HashCommands.v
HashSpec.v
FloatCommands.v
SetCommands.v
SetSpec.v
SetAlgebra.v
ListCommands.v
ListSpec.v
ZSetCommands.v
ZSetSpec.v
BitCommands.v
BitFields.v
BitSpec.v
Tracking.v
StreamIds.v
StreamCommands.v
StreamLogs.v
StreamGroups.v
StreamSpec.v
StreamGroupSpec.v
StreamReads.v
GeoCommands.v
GeoSpec.v
HllCommands.v
HllSpec.v
Monitors.v
LatencySpec.v
Gate.v
Aof.v
AofSpec.v
AofRestore.v
