(* ===== verification/Prelude.v ===== *)
(** * nexrade-cache: a verification library

    nexrade-cache is a Redis-compatible in-memory cache written in Rust.  A
    connection feeds bytes to the RESP parser, the command layer works on a
    keyspace of typed values, and replies go out through a segmented write
    buffer.  The library models the core crate ([src/crates/nexrade-core/src])
    bottom up; every definition carries the name of the Rust item it translates.

    ** Files

    - [Prelude] (this file): bytes, slices that may panic, machine integers, maps
      with an unspecified iteration order, shared lemmas and tactics.
    - [Packing]: little-endian length prefixes and walks over packed records, the
      format the compact encodings share ([set_data.rs], [list_data.rs], ...).
    - [Text], [Doubles]: decimal text, [str::parse], UTF-8 as the standard library
      decodes it; [f64] as 64-bit patterns with the order of [OrderedFloat].
    - [ListData], [HashData], [SetData], [ZSetData]: the four dual-encoded values
      ([list_data.rs], [hash_data.rs], [set_data.rs], [zset_data.rs]): a packed
      buffer while small, a general structure when large, with promotion and
      demotion under run-time thresholds.
    - [Resp], [RespParser]: serialiser, segmented buffer and incremental parser
      ([resp.rs]).
    - [Glob]: [glob_match] of [store.rs].
    - [Types]: [types.rs], the integer cell with its compare-exchange loop, the sum
      of value types, streams, HyperLogLog registers.
    - [Keyspace]: one shard, [Database] of [store.rs], with [expiry.rs] and
      [error.rs].  [KeyspaceInvariant] proves what every operation keeps true,
      [KeyspaceSpec] the refinement of a map with deadlines, expiry and eviction.
    - [Shards]: [ShardedDatabase] of [store.rs], a power-of-two array of shards.
      [ShardsSpec] (RENAME, RENAMENX, COPY, MSET, MSETNX) and [ShardsMoves]
      (LMOVE) refine one map; [ScanSpec] is about the pages of SCAN, [ScanSelect]
      about those of HSCAN, SSCAN and ZSCAN ([scan_select_page] of
      [command/mod.rs]).
    - [Store], [StoreSpec]: the databases together and the memory limit ([Store] of
      [store.rs]).
    - [Cluster]: hash slots ([cluster.rs]).
    - [Transaction]: MULTI, EXEC, WATCH ([transaction.rs], the handlers of
      [nexrade-server/src/connection.rs]).
    - [Acl]: users, rules and permission checks ([acl.rs]).
    - [CommandArgs], [StringCommands], [Lcs]: argument helpers of
      [command/mod.rs] and the handlers of [command/string.rs]; [StringSpec] is the
      meaning of the single-key string commands and the refinement.
    - [GenericCommands], [HashCommands], [SetCommands], [ListCommands]: the handlers
      of [command/generic.rs], [command/hash.rs], [command/set.rs] and
      [command/list.rs]; [GenericSpec], [HashSpec], [SetSpec], [SetAlgebra] (the
      commands on several sets) and [ListSpec] are their meaning and the refinement.
      [ValueCells] is what the last four share: the cell of a key that holds a value
      of one kind, another type, or nothing, and the steps of a handler on it.

    ** Conventions

    A slice out of range, an index out of range or an unsigned underflow is a
    panic and gives [None] of [may_panic]; the theorems that run an operation say
    that it returns [Some].  [&mut self] is state passing, the new state last.  A
    method that hands out [&mut Entry] returns the entry and [write_back] is the
    assignment through it.  Sizes and indices are [nat] where the code cannot
    overflow them and [Z] with explicit wrap-around where it can ([u32] offsets,
    the [usize] byte counter, [u64] versions, hashes).  The wall clock is an
    argument; a handler reads it once.  Third-party code is a class whose fields state its documented
    behaviour, with a concrete instance for the witnesses: [IndexSet]
    ([SetData.vec_index_set]), [OrderedFloat] ([Doubles.ieee_order]), [Itoa]
    ([Text.plain_itoa]), [F64Text] ([Doubles.pattern_text]), SHA-256
    [PasswordText] ([Acl]), Unicode case mapping [UnicodeCase] ([Text.ascii_case]), the iteration order of hash maps, [HashOrder]
    ([canonical_order]), and the order of equal elements of an unstable sort,
    [UnstableSort] ([ShardsSpec.merge_sort_by_fst]).  In [Transaction] the
    dispatcher that runs a queued command is an arbitrary function.

    ** What the theorems show

    - Values: any history of operations on a list, hash, set or sorted set, with
      thresholds changing in between, answers as a plain list, map, set or sorted
      map, without a panic and with exact lengths and payload deltas; the [u32]
      offsets never wrap; snapshots taken under the lock decode to the contents.
    - Protocol: the serialiser writes the protocol grammar, the parser is total,
      looks at no byte past its frame, does not depend on how reads cut the
      stream, and reads back what the serialiser wrote; the write buffer loses
      and repeats nothing however the socket takes it.
    - Keyspace: a shard is a map in which keys stop existing at their deadline;
      the deadline index, the byte counter and the versions stay exact; active
      expiry and eviction do what their policies say; lock-free increments are
      linearizable; HyperLogLog registers depend on the set of elements only.
    - Sharded keyspace: commands on several keys act as on one map whatever shards
      hold the keys, locks are taken in ascending order, SCAN visits every key once,
      and the eviction loop ends at the limit, or never for a volatile policy
      without volatile keys.
    - Sessions: nothing is queued outside MULTI, a visible write to a watched key
      aborts EXEC, a command is let through exactly when the ACL table permits it.
    - String commands: every handler on one key but GETDEL is a function of the cell
      clients see; an error changes nothing; LCS is a longest common subsequence.
    - Key commands: deadlines are set, read and dropped as on cells in which no
      deadline is an infinite one; DEL removes exactly its keys.
    - Commands on values: the hash, set and list commands act on finite maps, finite
      sets and sequences with a deadline, whatever the encoding, and remove a key
      with its last element; SUNION, SINTER, SDIFF and their STORE variants are the
      operations on sets.

    ** Bounds and fuel

    [RespParser.parse_resp] recurses with one unit of fuel per byte of input plus
    one (each nested frame consumes at least one byte); [drain] likewise.
    [Resp.put_i64] makes at most 20 passes, one per digit.  [SegBuf.advance] has
    one unit per segment.  [Glob.glob_loop] has [(|key| + 1) * (|pattern| + 1) + 1]
    passes.  [Database.expire_rounds] has the 16 rounds of the code.
    [Lcs.backtrack] has one unit more than both lengths together.  The eviction loop
    [Store.evict_loop] takes its fuel as an argument; one unit more than there are
    keys is enough for the policies over all keys.  Each bound is proved to be
    enough; no theorem is about a run that ends early.

    ** Not modelled

    Operating-system and network code (sockets, files, TLS, metrics, plugins, the
    command-line client), the Lua interpreter bindings, floating-point arithmetic
    (the estimate of [hll_count], INCRBYFLOAT, HINCRBYFLOAT), the spinning and parking of lock
    acquisition, the waiting of the blocking list commands (the attempt they repeat is
    modelled), serde, and DUMP, RESTORE and SORT.  Next: the handlers of the other value
    types, Pub/Sub, notifications, the slow log, tracking and the replication state. *)

From stdpp Require Export base gmap list strings numbers sorting.
From Stdlib Require Export ZArith Lia.
From Stdlib Require Import Strings.Byte.

(** ** Bytes and byte strings *)

Abbreviation byte := Init.Byte.byte.

(** [Vec<u8>], [&[u8]] and the contents of a [Bytes] / [BytesMut] buffer. *)
Abbreviation bytes := (list byte).

#[export] Instance byte_eq_decision : EqDecision byte := Byte.byte_eq_dec.

#[export] Instance byte_countable : Countable byte :=
  inj_countable Byte.to_N Byte.of_N Byte.of_to_N.

#[export] Instance byte_inhabited : Inhabited byte := populate Byte.x00.

(** The byte string of an ASCII literal of the source. *)
Definition bstr (s : string) : bytes := String.list_byte_of_string s.

(** [b as u64]. *)
Definition byte_val (b : byte) : Z := Z.of_N (Byte.to_N b).

(** [z as u8]. *)
Definition byte_of (z : Z) : byte :=
  default Byte.x00 (Byte.of_N (Z.to_N (z mod 256))).

Lemma byte_val_range b : (0 <= byte_val b < 256)%Z.
Proof. unfold byte_val. pose proof (Byte.to_N_bounded b). lia. Qed.

Lemma byte_of_val b : byte_of (byte_val b) = b.
Proof.
  unfold byte_of. pose proof (byte_val_range b).
  rewrite Z.mod_small by lia. unfold byte_val.
  by rewrite N2Z.id, Byte.of_to_N.
Qed.

Lemma byte_val_of z : byte_val (byte_of z) = (z mod 256)%Z.
Proof.
  unfold byte_of, byte_val.
  pose proof (Z.mod_pos_bound z 256 ltac:(lia)).
  destruct (Byte.of_N (Z.to_N (z mod 256))) as [b|] eqn:E; simpl.
  - apply Byte.to_of_N in E. rewrite E. lia.
  - apply Byte.of_N_None_iff in E. lia.
Qed.

#[export] Instance byte_val_inj : Inj (=) (=) byte_val.
Proof. intros a b E. by rewrite <- (byte_of_val a), E, byte_of_val. Qed.

(** [<[u8] as Ord>::cmp]: lexicographic, a proper prefix first. *)
Fixpoint bytes_cmp (a b : bytes) : comparison :=
  match a, b with
  | [], [] => Eq
  | [], _ :: _ => Lt
  | _ :: _, [] => Gt
  | x :: a, y :: b =>
      match (byte_val x ?= byte_val y)%Z with
      | Eq => bytes_cmp a b
      | c => c
      end
  end.

Lemma bytes_cmp_eq a b : bytes_cmp a b = Eq <-> a = b.
Proof.
  revert b. induction a as [|x a IH]; intros [|y b]; simpl; try done.
  destruct (Z.compare_spec (byte_val x) (byte_val y)) as [E| |].
  - apply (inj byte_val) in E. subst y. rewrite IH. naive_solver.
  - split; [done|]. intros [= -> ->]. lia.
  - split; [done|]. intros [= -> ->]. lia.
Qed.

Lemma bytes_cmp_antisym a b : bytes_cmp b a = CompOpp (bytes_cmp a b).
Proof.
  revert b. induction a as [|x a IH]; intros [|y b]; simpl; try done.
  rewrite Z.compare_antisym. by destruct (byte_val x ?= byte_val y)%Z; simpl.
Qed.

Lemma bytes_cmp_trans a b c : bytes_cmp a b = Lt -> bytes_cmp b c = Lt -> bytes_cmp a c = Lt.
Proof.
  revert b c. induction a as [|x a IH]; intros [|y b] [|z c]; simpl; try done.
  destruct (Z.compare_spec (byte_val x) (byte_val y)), (Z.compare_spec (byte_val y) (byte_val z));
    try done; intros; destruct (Z.compare_spec (byte_val x) (byte_val z)); try done; try lia.
  by eapply IH.
Qed.

(** ** Fallible reads

    A slice [&buf[a..b]] panics when the range is decreasing or ends past the
    buffer, and an unsigned subtraction panics when it underflows.  Code that
    may panic is a value of [option]; [None] is the panic. *)

Abbreviation may_panic A := (option A) (only parsing).

Definition slice {A} (l : list A) (a b : nat) : may_panic (list A) :=
  if bool_decide (a <= b /\ b <= length l) then Some (take (b - a) (drop a l)) else None.

Definition checked_sub (a b : nat) : may_panic nat :=
  if bool_decide (b <= a) then Some (a - b) else None.

(** [dst[a..a + src.len()].copy_from_slice(src)]. *)
Definition overwrite {A} (l : list A) (a : nat) (src : list A) : may_panic (list A) :=
  if bool_decide (a + length src <= length l)
  then Some (take a l ++ src ++ drop (a + length src) l) else None.

Section Slices.
Context {A : Type}.
Implicit Types l pre mid post : list A.

(** The slice that a known decomposition of the buffer delimits. *)
Lemma slice_mid l pre mid post a b :
  l = pre ++ mid ++ post -> a = length pre -> b = a + length mid ->
  slice l a b = Some mid.
Proof.
  intros -> -> ->. unfold slice.
  rewrite bool_decide_eq_true_2 by (rewrite !length_app; lia).
  rewrite drop_app_length. f_equal.
  replace (length pre + length mid - length pre) with (length mid) by lia.
  apply take_app_length.
Qed.

Lemma slice_suffix l a : a <= length l -> slice l a (length l) = Some (drop a l).
Proof.
  intros H. unfold slice. rewrite bool_decide_eq_true_2 by lia.
  f_equal. apply take_ge. rewrite length_drop. lia.
Qed.

Lemma slice_prefix l a : a <= length l -> slice l 0 a = Some (take a l).
Proof.
  intros H. unfold slice. rewrite bool_decide_eq_true_2 by lia.
  by rewrite drop_0, Nat.sub_0_r.
Qed.

Lemma slice_length l a b s : slice l a b = Some s -> length s = b - a /\ a <= b <= length l.
Proof.
  unfold slice. case_bool_decide; intros ?; simplify_eq.
  rewrite length_take, length_drop. lia.
Qed.

Lemma slice_drop l a b s : slice l a b = Some s -> drop a l = s ++ drop b l.
Proof.
  intros Hs. pose proof (slice_length _ _ _ _ Hs) as [_ Hr]. revert Hs.
  unfold slice. case_bool_decide; intros ?; simplify_eq.
  replace (drop b l) with (drop (b - a) (drop a l)) by (rewrite drop_drop; f_equal; lia).
  by rewrite take_drop.
Qed.

(** A successful slice names the middle of a decomposition of the buffer. *)
Lemma slice_decompose l a b s : slice l a b = Some s ->
  l = take a l ++ s ++ drop b l /\ length (take a l) = a.
Proof.
  intros Hs. pose proof (slice_length _ _ _ _ Hs) as [_ Hr].
  rewrite <- (slice_drop _ _ _ _ Hs), take_drop, length_take. split; [done|lia].
Qed.

(** Dropping the first or the last element of a slice. *)
Lemma slice_tail l a n x w :
  slice l a (a + S n) = Some (x :: w) -> slice l (a + 1) (a + 1 + n) = Some w.
Proof.
  intros Hs. pose proof (slice_length _ _ _ _ Hs) as [Hn _]. simpl in Hn.
  destruct (slice_decompose _ _ _ _ Hs) as [Hl Ha].
  apply (slice_mid _ (take a l ++ [x]) w (drop (a + S n) l));
    [by rewrite <- app_assoc|rewrite length_app; simpl; lia|lia].
Qed.

Lemma slice_init l a n w x :
  slice l a (a + n) = Some (w ++ [x]) -> slice (take (a + n - 1) l) a (a + (n - 1)) = Some w.
Proof.
  intros Hs. pose proof (slice_length _ _ _ _ Hs) as [Hn _]. rewrite length_app in Hn. simpl in Hn.
  destruct (slice_decompose _ _ _ _ Hs) as [Hl Ha].
  apply (slice_mid _ (take a l) w []); [|done|lia].
  rewrite Hl at 1. rewrite app_nil_r, <- app_assoc, (app_assoc (take a l)).
  apply take_app_length'. rewrite length_app. lia.
Qed.

Lemma overwrite_mid l pre mid post src a :
  l = pre ++ mid ++ post -> a = length pre -> length src = length mid ->
  overwrite l a src = Some (pre ++ src ++ post).
Proof.
  intros -> -> Hl. unfold overwrite.
  rewrite bool_decide_eq_true_2 by (rewrite !length_app; lia).
  rewrite take_app_length. repeat f_equal.
  rewrite Hl, app_assoc, <- length_app. apply drop_app_length.
Qed.

Lemma drop_split_app l n m : n <= m -> m <= length l ->
  drop n l = take (m - n) (drop n l) ++ drop m l.
Proof.
  intros ??. replace (drop m l) with (drop (m - n) (drop n l))
    by (rewrite drop_drop; f_equal; lia).
  by rewrite take_drop.
Qed.
End Slices.

Lemma checked_sub_ok a b : b <= a -> checked_sub a b = Some (a - b).
Proof. intros. unfold checked_sub. by rewrite bool_decide_eq_true_2. Qed.

(** ** Machine integers *)

(** [u64] and [usize] arithmetic that wraps ([wrapping_add], [fetch_add]). *)
Definition wrap64 (z : Z) : Z := z mod 2 ^ 64.

(** [a.saturating_sub(b)] of unsigned integers. *)
Definition saturating_sub (a b : Z) : Z := Z.max 0 (a - b).

Lemma wrap64_small z : (0 <= z < 2 ^ 64)%Z -> wrap64 z = z.
Proof. apply Z.mod_small. Qed.

Lemma wrap64_range z : (0 <= wrap64 z < 2 ^ 64)%Z.
Proof. by apply Z.mod_pos_bound. Qed.

Lemma wrap64_succ_ne v : (0 <= v < 2 ^ 64)%Z -> wrap64 (v + 1) <> v.
Proof.
  intros Hv E. unfold wrap64 in E. destruct (decide (v + 1 < 2 ^ 64)%Z).
  - rewrite Z.mod_small in E by lia. lia.
  - replace (v + 1)%Z with (2 ^ 64)%Z in E by lia. rewrite Z.mod_same in E by lia. lia.
Qed.

(** ** Payload sums *)

(** Sum of the byte lengths of a sequence of elements. *)
Definition total_len (xs : list bytes) : nat := sum_list_with length xs.
#[global] Arguments total_len : simpl never.

Lemma total_len_app xs ys : total_len (xs ++ ys) = total_len xs + total_len ys.
Proof. apply sum_list_with_app. Qed.

Lemma total_len_nil : total_len [] = 0.
Proof. done. Qed.

Lemma total_len_cons x xs : total_len (x :: xs) = length x + total_len xs.
Proof. done. Qed.

Lemma total_len_take_drop k xs : total_len xs = total_len (take k xs) + total_len (drop k xs).
Proof. by rewrite <- total_len_app, take_drop. Qed.

#[export] Instance sum_list_with_perm {A} (f : A -> nat) :
  Proper ((≡ₚ) ==> (=)) (sum_list_with f).
Proof. induction 1; simpl; lia. Qed.

#[export] Instance total_len_perm : Proper ((≡ₚ) ==> (=)) total_len.
Proof. apply sum_list_with_perm. Qed.

Lemma sum_list_with_ext {A} (f g : A -> nat) l :
  (forall x, x ∈ l -> f x = g x) -> sum_list_with f l = sum_list_with g l.
Proof.
  induction l as [|x l IH]; intros H; simpl; [done|].
  rewrite H, IH by set_solver. done.
Qed.

Lemma list_filter_all {A} (P : A -> Prop) `{forall x, Decision (P x)} l : Forall P l -> filter P l = l.
Proof. induction 1; [done|]. rewrite filter_cons_True by done. by f_equal. Qed.

Lemma list_filter_none {A} (P : A -> Prop) `{forall x, Decision (P x)} l :
  Forall (fun x => ~ P x) l -> filter P l = [].
Proof. induction 1; [done|]. by rewrite filter_cons_False. Qed.

Lemma list_filter_fmap {A B} (f : A -> B) (P : B -> Prop) `{forall x, Decision (P x)} (l : list A) :
  filter P (f <$> l) = f <$> filter (fun x => P (f x)) l.
Proof.
  induction l as [|x l IH]; [done|]. rewrite fmap_cons, !filter_cons, IH. by case_decide.
Qed.

(** ** Hash maps

    A [HashMap<Vec<u8>, V>] is a finite map; the order in which the standard
    library iterates over one is unspecified (and randomly seeded), so code that
    iterates takes that order as a parameter, of which only this is known. *)

Class HashOrder := {
  hm_iter : forall {V : Type}, gmap bytes V -> list (bytes * V);
  hm_iter_perm : forall (V : Type) (m : gmap bytes V), hm_iter m ≡ₚ map_to_list m;
}.

(** One possible order, for running the model. *)
Definition canonical_order : HashOrder :=
  {| hm_iter := fun _ m => map_to_list m; hm_iter_perm := fun _ m => reflexivity _ |}.

(** Inserting pairs with distinct keys one by one. *)
Lemma fold_insert_list_to_map {V} (ps : list (bytes * V)) (m : gmap bytes V) :
  NoDup ps.*1 ->
  fold_left (fun m p => <[p.1 := p.2]> m) ps m = list_to_map ps ∪ m.
Proof.
  revert m. induction ps as [|[k v] ps IH]; intros m Hnd; [by rewrite list_to_map_nil, map_empty_union|].
  apply NoDup_cons in Hnd as [Hk Hnd]. simpl in *. rewrite IH by done.
  rewrite <- insert_union_r; [by rewrite insert_union_l|].
  by apply not_elem_of_list_to_map_1.
Qed.

(** The pair of a key in a list of pairs with distinct keys. *)
Lemma list_to_map_split {V} (kvs : list (bytes * V)) k v :
  NoDup kvs.*1 -> (list_to_map kvs : gmap bytes V) !! k = Some v ->
  exists k1 k2, kvs = k1 ++ (k, v) :: k2 /\ k ∉ k1.*1 /\ k ∉ k2.*1 /\ NoDup (k1 ++ k2).*1.
Proof.
  intros Hnd Hl. apply elem_of_list_to_map in Hl; [|done].
  apply list_elem_of_split in Hl as (k1 & k2 & ->). exists k1, k2.
  rewrite fmap_app, fmap_cons in Hnd. simpl in Hnd.
  rewrite NoDup_app, NoDup_cons in Hnd. destruct Hnd as (H1 & H2 & H3 & H4).
  split_and!; [done| |done|].
  - intros Hk. apply (H2 k Hk). set_solver.
  - rewrite fmap_app, NoDup_app. set_solver.
Qed.

(** Taking one pair out of such a list. *)
Lemma list_to_map_middle {V} (k1 k2 : list (bytes * V)) k v :
  k ∉ k1.*1 ->
  (list_to_map (k1 ++ (k, v) :: k2) : gmap bytes V) = <[k := v]> (list_to_map (k1 ++ k2)).
Proof.
  intros Hk. rewrite !list_to_map_app. simpl. rewrite <- insert_union_r; [done|].
  by apply not_elem_of_list_to_map_1.
Qed.

Lemma NoDup_keys_middle {V} (k1 k2 : list (bytes * V)) k v :
  NoDup (k1 ++ k2).*1 -> k ∉ k1.*1 -> k ∉ k2.*1 -> NoDup (k1 ++ (k, v) :: k2).*1.
Proof.
  intros Hnd H1 H2. rewrite fmap_app, fmap_cons in *. simpl.
  rewrite NoDup_app, NoDup_cons in *. set_solver.
Qed.

Lemma NoDup_keys_remove {V} (k1 k2 : list (bytes * V)) k v :
  NoDup (k1 ++ (k, v) :: k2).*1 -> NoDup (k1 ++ k2).*1 /\ k ∉ k1.*1 /\ k ∉ k2.*1.
Proof.
  rewrite !fmap_app, fmap_cons. simpl. rewrite !NoDup_app, NoDup_cons. set_solver.
Qed.

Lemma NoDup_keys_snoc {V} (kvs : list (bytes * V)) k v :
  NoDup kvs.*1 -> k ∉ kvs.*1 -> NoDup (kvs ++ [(k, v)]).*1.
Proof.
  intros. apply NoDup_keys_middle; [by rewrite app_nil_r|done|set_solver].
Qed.

Lemma list_to_map_middle_None {V} (k1 k2 : list (bytes * V)) k :
  k ∉ k1.*1 -> k ∉ k2.*1 -> (list_to_map (k1 ++ k2) : gmap bytes V) !! k = None.
Proof.
  intros. apply not_elem_of_list_to_map_1. rewrite fmap_app. set_solver.
Qed.

(** The sum of a measure over the pairs of a map. *)
Definition map_total {V} (f : bytes -> V -> nat) (m : gmap bytes V) : nat :=
  sum_list_with (fun kv => f kv.1 kv.2) (map_to_list m).

Section MapTotal.
Context {V : Type} (f : bytes -> V -> nat).
Implicit Types m : gmap bytes V.

Lemma map_total_empty : map_total f ∅ = 0.
Proof. unfold map_total. by rewrite map_to_list_empty. Qed.

Lemma map_total_insert m k v : m !! k = None -> map_total f (<[k := v]> m) = f k v + map_total f m.
Proof. intros Hk. unfold map_total. by rewrite map_to_list_insert by done. Qed.

Lemma map_total_delete m k v : m !! k = Some v -> map_total f m = f k v + map_total f (delete k m).
Proof.
  intros Hk. rewrite <- (insert_delete_id m k v) at 1 by done.
  apply map_total_insert, lookup_delete_eq.
Qed.

(** The measure of what a slot holds. *)
Definition slot_size (k : bytes) (x : option V) : nat := from_option (f k) 0 x.

(** Assigning one slot moves the sum by the difference of the two contents. *)
Lemma map_total_alter m k x :
  map_total f (partial_alter (fun _ => x) k m) + slot_size k (m !! k) = map_total f m + slot_size k x.
Proof.
  assert (E : partial_alter (fun _ => x) k m = partial_alter (fun _ => x) k (delete k m)).
  { apply map_eq. intros j. destruct (decide (k = j)) as [<-|].
    - by rewrite !lookup_partial_alter_eq.
    - by rewrite !lookup_partial_alter_ne, lookup_delete_ne. }
  assert (Hm : map_total f m = slot_size k (m !! k) + map_total f (delete k m)).
  { destruct (m !! k) as [v|] eqn:Hk; simpl; [by apply map_total_delete|]. by rewrite delete_id. }
  rewrite E. destruct x as [v|]; simpl.
  - change (partial_alter (fun _ => Some v) k (delete k m)) with (<[k := v]> (delete k m)).
    rewrite map_total_insert by apply lookup_delete_eq. lia.
  - change (partial_alter (fun _ => None) k (delete k m)) with (delete k (delete k m)).
    rewrite delete_id by apply lookup_delete_eq. lia.
Qed.

Lemma slot_size_le m k : slot_size k (m !! k) <= map_total f m.
Proof. destruct (m !! k) as [v|] eqn:E; simpl; [|lia]. rewrite (map_total_delete m k v) by done. lia. Qed.
End MapTotal.

(** ** Automation *)

Create HintDb nexrade discriminated.
#[export] Hint Constants Transparent : nexrade.
#[export] Hint Resolve byte_val_range checked_sub_ok : nexrade.

Create Rewrite HintDb lengths.
#[export] Hint Rewrite @length_app @length_drop @length_take @length_replicate
  @length_cons @length_nil total_len_app total_len_cons total_len_nil : lengths.

(** Normalises list lengths, then decides the arithmetic that is left. *)
Ltac len := autorewrite with lengths in *; simpl in *; lia.

(** Resolves a decidable test of the model from the hypotheses. *)
Ltac decide_test :=
  match goal with
  | |- context [bool_decide ?P] =>
      first [ rewrite (bool_decide_eq_true_2 P) by (autorewrite with lengths; simpl; lia || done)
            | rewrite (bool_decide_eq_false_2 P) by (autorewrite with lengths; simpl; lia || done) ]
  end.

Lemma bind_some {A B} (x : A) (f : A -> option B) : Some x ≫= f = f x.
Proof. done. Qed.

(** Runs the model past a call whose result is known. *)
Ltac mstep := rewrite ?bind_some; cbv beta iota zeta.

(** Opens a successful monadic bind in a hypothesis. *)
Ltac inv_bind H :=
  let x := fresh "r" in
  let E := fresh "E" in
  match type of H with
  | mbind _ ?m = Some _ => destruct m as [x|] eqn:E; simpl in H; [|discriminate H]
  end.
