(* ===== verification/Packing.v ===== *)
(** * Packing: the length-prefixed encoding of the compact containers

    The compact list, hash, set and sorted set all store their elements in one
    [Vec<u8>], each element behind its length as a little-endian [u32]
    ([(v.len() as u32).to_le_bytes()], read back with [u32::from_le_bytes]).
    This file models those two conversions and the walk over such a buffer,
    with the lemmas the four containers share. *)

From S2P Require Import Prelude.

(** ** Little-endian integers *)

(** [n.to_le_bytes()] of a [k]-byte integer; the value is taken modulo
    [256 ^ k], as the [as u32] cast before it does. *)
Fixpoint le_bytes (k : nat) (n : Z) : bytes :=
  match k with
  | 0 => []
  | S k => byte_of n :: le_bytes k (n / 256)
  end.

(** [from_le_bytes]. *)
Fixpoint le_value (bs : bytes) : Z :=
  match bs with
  | [] => 0
  | b :: bs => byte_val b + 256 * le_value bs
  end.

Lemma length_le_bytes k n : length (le_bytes k n) = k.
Proof. revert n. induction k; intros; simpl; auto. Qed.
#[export] Hint Rewrite length_le_bytes : lengths.

Lemma le_value_range bs : (0 <= le_value bs < 256 ^ Z.of_nat (length bs))%Z.
Proof.
  induction bs as [|b bs IH]; [simpl; lia|].
  pose proof (byte_val_range b). simpl le_value.
  rewrite length_cons, Nat2Z.inj_succ, Z.pow_succ_r by lia. lia.
Qed.

Lemma le_value_bytes k n : le_value (le_bytes k n) = (n mod 256 ^ Z.of_nat k)%Z.
Proof.
  revert n. induction k as [|k IH]; intros n.
  - simpl. symmetry. apply Z.mod_1_r.
  - simpl le_bytes. simpl le_value. rewrite IH, byte_val_of.
    rewrite Nat2Z.inj_succ, Z.pow_succ_r by lia.
    symmetry. apply Z.rem_mul_r; [lia|]. apply Z.pow_pos_nonneg; lia.
Qed.

Lemma le_bytes_value bs : le_bytes (length bs) (le_value bs) = bs.
Proof.
  induction bs as [|b bs IH]; [done|]. simpl.
  pose proof (byte_val_range b). pose proof (le_value_range bs).
  f_equal.
  - apply (inj byte_val). rewrite byte_val_of.
    rewrite Z.mul_comm, Z.mod_add by lia. apply Z.mod_small. lia.
  - replace ((byte_val b + 256 * le_value bs) / 256)%Z with (le_value bs); [done|].
    rewrite Z.mul_comm, Z.div_add by lia. rewrite (Z.div_small (byte_val b)) by lia. lia.
Qed.

#[global] Arguments le_bytes : simpl never.
#[global] Arguments le_value : simpl never.

(** ** Length prefixes *)

(** [(v.len() as u32).to_le_bytes()] followed by the bytes of [v]. *)
Definition frame (v : bytes) : bytes := le_bytes 4 (Z.of_nat (length v)) ++ v.

(** [u32::from_le_bytes(buf[off..off + 4].try_into().unwrap()) as usize]. *)
Definition read_u32 (buf : bytes) (off : nat) : may_panic nat :=
  bs ← slice buf off (off + 4); Some (Z.to_nat (le_value bs)).

(** Elements whose length survives the [as u32] cast. *)
Definition u32_sized (v : bytes) : Prop := (Z.of_nat (length v) < 2 ^ 32)%Z.

#[export] Instance u32_sized_dec v : Decision (u32_sized v).
Proof. unfold u32_sized. apply _. Defined.

Definition frames (xs : list bytes) : bytes := concat (map frame xs).
#[global] Arguments frames : simpl never.

Lemma length_frame v : length (frame v) = 4 + length v.
Proof. unfold frame. by rewrite length_app, length_le_bytes. Qed.
#[export] Hint Rewrite length_frame : lengths.

Lemma frames_app xs ys : frames (xs ++ ys) = frames xs ++ frames ys.
Proof. unfold frames. by rewrite map_app, concat_app. Qed.

Lemma frames_cons x xs : frames (x :: xs) = frame x ++ frames xs.
Proof. done. Qed.

Lemma frames_nil : frames [] = [].
Proof. done. Qed.

Lemma frames_one x : frames [x] = frame x.
Proof. rewrite frames_cons, frames_nil. apply app_nil_r. Qed.

Lemma frame_eq v : frame v = le_bytes 4 (Z.of_nat (length v)) ++ v.
Proof. done. Qed.

Lemma length_frames xs : length (frames xs) = 4 * length xs + total_len xs.
Proof.
  induction xs as [|x xs IH]; [done|].
  rewrite frames_cons, length_app, length_frame, IH, total_len_cons. simpl. lia.
Qed.
#[export] Hint Rewrite length_frames : lengths.

Lemma le_value_len v : u32_sized v ->
  le_value (le_bytes 4 (Z.of_nat (length v))) = Z.of_nat (length v).
Proof.
  intros H. rewrite le_value_bytes. unfold u32_sized in H.
  apply Z.mod_small. simpl Z.of_nat. change (256 ^ 4)%Z with (2 ^ 32)%Z. lia.
Qed.

(** Reading a length prefix at the place an element was packed. *)
Lemma read_u32_frame buf pre v post off :
  buf = pre ++ frame v ++ post -> off = length pre -> u32_sized v ->
  read_u32 buf off = Some (length v).
Proof.
  intros -> -> Hv. unfold read_u32, frame.
  erewrite (slice_mid _ pre (le_bytes 4 (Z.of_nat (length v))) (v ++ post));
    [|by rewrite <- !app_assoc|done|by rewrite length_le_bytes].
  simpl. rewrite le_value_len by done. by rewrite Nat2Z.id.
Qed.

(** Reading the payload behind it. *)
Lemma slice_frame buf pre v post off n :
  buf = pre ++ frame v ++ post -> off = length pre -> n = length v ->
  slice buf (off + 4) (off + 4 + n) = Some v.
Proof.
  intros -> -> ->.
  apply (slice_mid _ (pre ++ le_bytes 4 (Z.of_nat (length v))) v post); len || idtac.
  unfold frame. by rewrite <- !app_assoc.
Qed.

(** The whole element, prefix included. *)
Lemma slice_whole_frame buf pre v post off n :
  buf = pre ++ frame v ++ post -> off = length pre -> n = length v ->
  slice buf off (off + 4 + n) = Some (frame v).
Proof. intros -> -> ->. apply (slice_mid _ pre (frame v) post); len || done. Qed.

(** ** Walking a packed buffer

    The iterators [CompactIter], [CompactRangeIter], [CompactSetIter] and
    [CompactHashBulkIter] are the same walk: read a length, take the payload,
    step over both, [remaining] times. *)

Fixpoint walk (buf : bytes) (off remaining : nat) : may_panic (list bytes) :=
  match remaining with
  | 0 => Some []
  | S r =>
      n ← read_u32 buf off;
      v ← slice buf (off + 4) (off + 4 + n);
      vs ← walk buf (off + 4 + n) r;
      Some (v :: vs)
  end.

Lemma walk_frames xs buf pre post :
  buf = pre ++ frames xs ++ post -> Forall u32_sized xs ->
  walk buf (length pre) (length xs) = Some xs.
Proof.
  revert pre. induction xs as [|x xs IH]; intros pre E Hxs; [done|].
  inversion Hxs as [|?? Hx Hxs']; subst x0 l. simpl.
  rewrite frames_cons, <- app_assoc in E.
  erewrite read_u32_frame by done. simpl.
  erewrite slice_frame by done. simpl.
  replace (length pre + 4 + length x) with (length (pre ++ frame x)) by len.
  rewrite IH; [done| |done]. by rewrite <- app_assoc.
Qed.

(** Client proofs use the lemmas above, never the definitions. *)
#[global] Opaque frame frames.
