(* ===== verification/Text.v ===== *)
(** * Text: the parts of Rust's text handling the code uses

    Decimal integers ([ToString], [str::parse] and the [itoa] crate), UTF-8
    validation ([str::from_utf8]) and replacement ([String::from_utf8_lossy]).
    A [String] or [&str] is its UTF-8 bytes. *)

From S2P Require Import Prelude.

(** ** Decimal integers *)

(** The digit [b'0' + d]. *)
Definition digit (d : Z) : byte := byte_of (48 + d).

Fixpoint dec_loop (fuel : nat) (v : Z) (acc : bytes) : bytes :=
  match fuel with
  | 0 => acc
  | S fuel => if (v =? 0)%Z then acc else dec_loop fuel (v / 10) (digit (v mod 10) :: acc)
  end.

(** The decimal digits of [n >= 0]; a number has no more digits than bits. *)
Definition dec (n : Z) : bytes :=
  if (n =? 0)%Z then [digit 0] else dec_loop (S (Z.to_nat (Z.log2 n))) n [].

(** [n.to_string()]. *)
Definition show_int (n : Z) : bytes := if (n <? 0)%Z then bstr "-" ++ dec (- n) else dec n.

Definition digit_value (b : byte) : option Z :=
  let v := byte_val b in
  if (48 <=? v)%Z && (v <=? 57)%Z then Some (v - 48)%Z else None.

(** A run of digits, most significant first. *)
Fixpoint parse_digits (acc : Z) (bs : bytes) : option Z :=
  match bs with
  | [] => Some acc
  | b :: bs => d ← digit_value b; parse_digits (10 * acc + d) bs
  end.

Definition parse_unsigned (bs : bytes) : option Z :=
  match bs with [] => None | _ => parse_digits 0 bs end.

Definition PLUS : byte := byte_of 43.
Definition MINUS : byte := byte_of 45.

Definition i64_min : Z := - 2 ^ 63.
Definition i64_max : Z := 2 ^ 63 - 1.

Definition in_i64 (n : Z) : Prop := (i64_min <= n <= i64_max)%Z.

#[export] Instance in_i64_dec n : Decision (in_i64 n).
Proof. unfold in_i64. apply _. Defined.

(** [s.parse::<i64>()]: an optional sign, at least one digit, in range. *)
Definition parse_i64 (bs : bytes) : option Z :=
  n ← match bs with
      | [] => None
      | b :: tl =>
          if bool_decide (b = MINUS) then Z.opp <$> parse_unsigned tl
          else if bool_decide (b = PLUS) then parse_unsigned tl
          else parse_unsigned bs
      end;
  if bool_decide (in_i64 n) then Some n else None.

(** [s.parse::<usize>()] on a 64-bit target: a minus sign is an error. *)
Definition parse_usize (bs : bytes) : option Z :=
  n ← match bs with
      | [] => None
      | b :: tl => if bool_decide (b = PLUS) then parse_unsigned tl else parse_unsigned bs
      end;
  if bool_decide (n < 2 ^ 64)%Z then Some n else None.

Lemma parse_digits_nonneg bs : forall acc n, (0 <= acc)%Z -> parse_digits acc bs = Some n -> (0 <= n)%Z.
Proof.
  induction bs as [|b bs IH]; intros acc n Ha; simpl; [by intros [= <-]|]. unfold digit_value.
  destruct ((48 <=? byte_val b)%Z && (byte_val b <=? 57)%Z) eqn:E; [|done]. simpl. apply andb_true_iff in E as [E _].
  apply Z.leb_le in E. apply IH. lia.
Qed.

Lemma parse_usize_nonneg bs n : parse_usize bs = Some n -> (0 <= n)%Z.
Proof.
  assert (U : forall l m, parse_unsigned l = Some m -> (0 <= m)%Z) by (intros [|] m; [done|apply parse_digits_nonneg; lia]).
  unfold parse_usize. destruct (match bs with [] => None | _ => _ end) as [m|] eqn:E; [|done].
  simpl. case_bool_decide; [|done]. intros [= <-]. destruct bs as [|b bs]; [done|]. revert E. case_bool_decide; apply U.
Qed.

(** The [itoa] crate: "fast conversion of integer primitives to decimal
    strings". *)
Class Itoa := {
  itoa_format : Z -> bytes;
  itoa_decimal n : (- 2 ^ 63 <= n < 2 ^ 64)%Z -> itoa_format n = show_int n;
}.

Definition plain_itoa : Itoa := {| itoa_format := show_int; itoa_decimal := fun n _ => eq_refl |}.

(** Digits and their values. *)
Definition is_digit (b : byte) : Prop := exists d, (0 <= d <= 9)%Z /\ b = digit d.

Lemma digit_value_digit d : (0 <= d <= 9)%Z -> digit_value (digit d) = Some d.
Proof.
  intros H. unfold digit_value, digit. rewrite byte_val_of, Z.mod_small by lia.
  rewrite (proj2 (Z.leb_le 48 (48 + d))), (proj2 (Z.leb_le (48 + d) 57)) by lia. simpl. f_equal. lia.
Qed.

Lemma parse_digits_app acc bs bs' n :
  parse_digits acc bs = Some n -> parse_digits acc (bs ++ bs') = parse_digits n bs'.
Proof.
  revert acc. induction bs as [|b bs IH]; intros acc E; simpl in *; [congruence|].
  destruct (digit_value b); [|done]. by apply IH.
Qed.

(** The loop prepends digits whose value is what was divided away. *)
Lemma dec_loop_spec fuel v acc : (0 <= v)%Z -> (v < 2 ^ Z.of_nat fuel)%Z ->
  exists ds, dec_loop fuel v acc = ds ++ acc /\ Forall is_digit ds /\
    (0 < v -> ds <> [])%Z /\ forall bs, parse_digits 0 (ds ++ bs) = parse_digits v bs.
Proof.
  revert v acc. induction fuel as [|fuel IH]; intros v acc H0 H1.
  - change (2 ^ Z.of_nat 0)%Z with 1%Z in H1. exists []. assert (v = 0%Z) as -> by lia. done.
  - simpl. destruct (Z.eqb_spec v 0) as [->|Hv]; [by exists []|].
    assert (0 <= v / 10 < 2 ^ Z.of_nat fuel)%Z as [H2 H3].
    { split; [apply Z.div_pos; lia|].
      rewrite Nat2Z.inj_succ, Z.pow_succ_r in H1 by lia. apply Z.div_lt_upper_bound; lia. }
    pose proof (Z.mod_pos_bound v 10 ltac:(lia)).
    destruct (IH (v / 10)%Z (digit (v mod 10) :: acc) H2 H3) as (ds & -> & Hd & _ & Hp).
    exists (ds ++ [digit (v mod 10)]). rewrite <- app_assoc. split_and!; [done| | |].
    + apply Forall_app. split; [done|]. repeat constructor. exists (v mod 10)%Z. split; [lia|done].
    + intros _. by destruct ds.
    + intros bs. rewrite <- app_assoc, Hp. simpl. rewrite digit_value_digit by lia. mstep.
      f_equal. pose proof (Z.div_mod v 10). lia.
Qed.

Lemma dec_spec n : (0 <= n)%Z ->
  dec n <> [] /\ Forall is_digit (dec n) /\ forall bs, parse_digits 0 (dec n ++ bs) = parse_digits n bs.
Proof.
  intros H. unfold dec. destruct (Z.eqb_spec n 0) as [->|Hn].
  - split_and!; [done| |].
    + repeat constructor. exists 0%Z. split; [lia|done].
    + intros bs. done.
  - destruct (dec_loop_spec (S (Z.to_nat (Z.log2 n))) n []) as (ds & -> & Hd & Hne & Hp); [lia| |].
    + rewrite Nat2Z.inj_succ, Z2Nat.id by apply Z.log2_nonneg. apply Z.log2_spec. lia.
    + rewrite app_nil_r. split_and!; [by apply Hne; lia|done|done].
Qed.

Lemma parse_unsigned_dec n : (0 <= n)%Z -> parse_unsigned (dec n) = Some n.
Proof.
  intros H. destruct (dec_spec n H) as (Hne & _ & Hp). specialize (Hp []).
  rewrite app_nil_r in Hp. unfold parse_unsigned. by destruct (dec n).
Qed.

Lemma is_digit_val b : is_digit b -> (48 <= byte_val b <= 57)%Z.
Proof. intros (d & Hd & ->). unfold digit. rewrite byte_val_of, Z.mod_small; lia. Qed.

Lemma dec_head_not n c : (0 <= n)%Z -> (byte_val c < 48)%Z -> exists b bs, dec n = b :: bs /\ b <> c.
Proof.
  intros H Hc. destruct (dec_spec n H) as (Hne & Hd & _). destruct (dec n) as [|b bs]; [done|].
  exists b, bs. split; [done|]. intros ->. apply Forall_cons in Hd as [Hb _].
  apply is_digit_val in Hb. lia.
Qed.

Lemma parse_i64_show n : in_i64 n -> parse_i64 (show_int n) = Some n.
Proof.
  intros H. unfold parse_i64, show_int. destruct (Z.ltb_spec n 0).
  - change (bstr "-" ++ dec (- n)) with (MINUS :: dec (- n)). cbv iota.
    rewrite (bool_decide_eq_true_2 (MINUS = MINUS)) by done.
    rewrite parse_unsigned_dec by lia. cbn [fmap option_fmap option_map]. mstep. rewrite Z.opp_involutive.
    by rewrite bool_decide_eq_true_2.
  - destruct (dec_head_not n MINUS) as (b & bs & E & Hm); [lia|done|].
    destruct (dec_head_not n PLUS) as (b' & bs' & E' & Hp); [lia|done|].
    rewrite E in E'. injection E' as <- <-. rewrite E.
    rewrite (bool_decide_eq_false_2 (b = MINUS)), (bool_decide_eq_false_2 (b = PLUS)) by done.
    rewrite <- E, parse_unsigned_dec by lia. mstep. by rewrite bool_decide_eq_true_2.
Qed.

Lemma parse_usize_dec n : (0 <= n < 2 ^ 64)%Z -> parse_usize (dec n) = Some n.
Proof.
  intros H. unfold parse_usize. destruct (dec_head_not n PLUS) as (b & bs & E & Hp); [lia|done|].
  rewrite E, bool_decide_eq_false_2, <- E, parse_unsigned_dec by (done || lia). mstep.
  by rewrite bool_decide_eq_true_2 by lia.
Qed.

Lemma show_int_nonneg n : (0 <= n)%Z -> show_int n = dec n.
Proof. intros H. unfold show_int. by rewrite (proj2 (Z.ltb_ge n 0)). Qed.

(** ** UTF-8 *)

Definition in_range (lo hi : Z) (b : byte) : bool := (lo <=? byte_val b)%Z && (byte_val b <=? hi)%Z.

(** The sequence at the front of [bs]: whether it encodes a character, and its
    length; for an ill-formed one, the length of its maximal well-formed part
    (at least one byte), the unit [from_utf8_lossy] replaces. *)
Definition utf8_step (bs : bytes) : bool * nat :=
  match bs with
  | [] => (false, 0)
  | b0 :: t0 =>
      let v := byte_val b0 in
      if (v <? 128)%Z then (true, 1)
      else if in_range 194 223 b0 then
        match t0 with
        | b1 :: _ => if in_range 128 191 b1 then (true, 2) else (false, 1)
        | [] => (false, 1)
        end
      else if in_range 224 239 b0 then
        let lo := if (v =? 224)%Z then 160%Z else 128%Z in
        let hi := if (v =? 237)%Z then 159%Z else 191%Z in
        match t0 with
        | b1 :: t1 =>
            if in_range lo hi b1 then
              match t1 with
              | b2 :: _ => if in_range 128 191 b2 then (true, 3) else (false, 2)
              | [] => (false, 2)
              end
            else (false, 1)
        | [] => (false, 1)
        end
      else if in_range 240 244 b0 then
        let lo := if (v =? 240)%Z then 144%Z else 128%Z in
        let hi := if (v =? 244)%Z then 143%Z else 191%Z in
        match t0 with
        | b1 :: t1 =>
            if in_range lo hi b1 then
              match t1 with
              | b2 :: t2 =>
                  if in_range 128 191 b2 then
                    match t2 with
                    | b3 :: _ => if in_range 128 191 b3 then (true, 4) else (false, 3)
                    | [] => (false, 3)
                    end
                  else (false, 2)
              | [] => (false, 2)
              end
            else (false, 1)
        | [] => (false, 1)
        end
      else (false, 1)
  end.

Fixpoint utf8_valid_from (fuel : nat) (bs : bytes) : bool :=
  match bs, fuel with
  | [], _ => true
  | _, 0 => false
  | _, S fuel => let '(ok, n) := utf8_step bs in ok && utf8_valid_from fuel (drop n bs)
  end.

(** [str::from_utf8(bs).is_ok()]. *)
Definition utf8_valid (bs : bytes) : bool := utf8_valid_from (length bs) bs.

(** [str::from_utf8]. *)
Definition from_utf8 (bs : bytes) : option bytes := if utf8_valid bs then Some bs else None.

(** U+FFFD. *)
Definition REPLACEMENT : bytes := [byte_of 239; byte_of 191; byte_of 189].

Fixpoint lossy_from (fuel : nat) (bs : bytes) : bytes :=
  match bs, fuel with
  | [], _ | _, 0 => []
  | _, S fuel =>
      let '(ok, n) := utf8_step bs in
      (if ok then take n bs else REPLACEMENT) ++ lossy_from fuel (drop n bs)
  end.

(** [String::from_utf8_lossy(bs).to_string()]. *)
Definition from_utf8_lossy (bs : bytes) : bytes := lossy_from (length bs) bs.

Definition ascii (b : byte) : Prop := (byte_val b < 128)%Z.

(** A well-formed sequence is recognised whatever follows it. *)
Lemma utf8_step_ok bs n : utf8_step bs = (true, n) ->
  0 < n <= length bs /\ forall tl, utf8_step (take n bs ++ tl) = (true, n).
Proof.
  unfold utf8_step. intros E. repeat case_match; simplify_eq; simpl; (split; [lia|]);
    intros; repeat case_match; congruence.
Qed.

Lemma utf8_step_bad bs n : bs <> [] -> utf8_step bs = (false, n) -> 0 < n <= length bs.
Proof. unfold utf8_step. intros Hn E. repeat case_match; simplify_eq; simpl; lia. Qed.

Lemma utf8_step_pos bs : bs <> [] -> 0 < (utf8_step bs).2 <= length bs.
Proof.
  intros Hn. destruct (utf8_step bs) as [[] n] eqn:E; simpl; [by apply utf8_step_ok|by apply utf8_step_bad].
Qed.

Lemma utf8_valid_fuel fuel bs : length bs <= fuel -> utf8_valid_from fuel bs = utf8_valid bs.
Proof.
  unfold utf8_valid. assert (forall f1 f2 bs, length bs <= f1 -> length bs <= f2 ->
    utf8_valid_from f1 bs = utf8_valid_from f2 bs) as Hf; [|by intros; apply Hf].
  clear. induction f1 as [|f1 IH]; intros f2 bs H1 H2.
  - destruct bs; [by destruct f2|simpl in H1; lia].
  - destruct bs as [|b bs]; [by destruct f2|]. destruct f2 as [|f2]; [simpl in H2; lia|].
    pose proof (utf8_step_pos (b :: bs) ltac:(done)) as Hp. cbn [utf8_valid_from].
    destruct (utf8_step (b :: bs)) as [ok n]. f_equal. apply IH; rewrite length_drop; simpl in *; lia.
Qed.

Lemma utf8_valid_step bs n : utf8_step bs = (true, n) -> utf8_valid bs = utf8_valid (drop n bs).
Proof.
  intros E. apply utf8_step_ok in E as Hn. destruct Hn as [Hn _]. destruct bs as [|b bs]; [done|].
  unfold utf8_valid at 1. cbn [length utf8_valid_from]. rewrite E. simpl andb.
  apply utf8_valid_fuel. rewrite length_drop. simpl. lia.
Qed.

Lemma utf8_valid_inv bs : bs <> [] -> utf8_valid bs = true -> exists n, utf8_step bs = (true, n).
Proof.
  intros Hn. destruct bs as [|b bs]; [done|]. unfold utf8_valid. cbn [length utf8_valid_from].
  destruct (utf8_step (b :: bs)) as [[] n]; [eauto|done].
Qed.

Lemma utf8_step_ascii b bs : ascii b -> utf8_step (b :: bs) = (true, 1).
Proof. unfold ascii, utf8_step. intros H. by rewrite (proj2 (Z.ltb_lt _ _)). Qed.

Lemma utf8_valid_ascii bs : Forall ascii bs -> utf8_valid bs = true.
Proof.
  induction 1 as [|b bs Hb Hbs IH]; [done|].
  by rewrite (utf8_valid_step _ 1) by (by apply utf8_step_ascii).
Qed.

(** Reading text back is faithful: bytes that are valid UTF-8 survive
    [from_utf8_lossy] unchanged. *)
Lemma lossy_valid bs : utf8_valid bs = true -> from_utf8_lossy bs = bs.
Proof.
  unfold from_utf8_lossy. assert (forall fuel bs, length bs <= fuel -> utf8_valid bs = true ->
    lossy_from fuel bs = bs) as Hf; [|by intros; apply Hf].
  clear. induction fuel as [|fuel IH]; intros bs Hl Hv.
  - destruct bs; [done|simpl in Hl; lia].
  - destruct bs as [|b bs]; [done|]. destruct (utf8_valid_inv (b :: bs) ltac:(done) Hv) as [n E].
    pose proof (utf8_step_ok _ _ E) as [Hn _]. rewrite (utf8_valid_step _ _ E) in Hv.
    cbn [lossy_from]. rewrite E, IH, take_drop; [done| |done]. rewrite length_drop. simpl in *. lia.
Qed.

Lemma utf8_valid_cons_step pre bs tl n : utf8_step pre = (true, n) -> bs = take n pre ->
  utf8_valid (bs ++ tl) = utf8_valid tl.
Proof.
  intros E ->. destruct (utf8_step_ok _ _ E) as [Hn Hs].
  rewrite (utf8_valid_step _ n) by apply Hs. f_equal. apply drop_app_length'. rewrite length_take. lia.
Qed.

(** The result of [from_utf8_lossy] is a [String]: valid UTF-8. *)
Lemma lossy_is_valid bs : utf8_valid (from_utf8_lossy bs) = true.
Proof.
  unfold from_utf8_lossy. assert (forall fuel bs, utf8_valid (lossy_from fuel bs) = true) as Hf; [|by apply Hf].
  clear. induction fuel as [|fuel IH]; intros bs; [by destruct bs|].
  destruct bs as [|b bs]; [done|]. cbn [lossy_from].
  destruct (utf8_step (b :: bs)) as [[] n] eqn:E.
  - by erewrite utf8_valid_cons_step.
  - by rewrite (utf8_valid_cons_step REPLACEMENT _ _ 3).
Qed.

(** ** ASCII case *)

Definition ascii_lower (b : byte) : byte :=
  if bool_decide (65 <= byte_val b <= 90)%Z then byte_of (byte_val b + 32) else b.

Definition to_ascii_lowercase (s : bytes) : bytes := map ascii_lower s.

Definition ascii_upper (b : byte) : byte :=
  if bool_decide (97 <= byte_val b <= 122)%Z then byte_of (byte_val b - 32) else b.

Definition eq_ignore_ascii_case (a b : bytes) : bool := bool_decide (to_ascii_lowercase a = to_ascii_lowercase b).

(** [str::make_ascii_uppercase]. *)
Definition to_ascii_uppercase (s : bytes) : bytes := map ascii_upper s.

(** [str::to_uppercase] and [str::to_lowercase]: Unicode's mappings, which on
    ASCII are the ASCII ones. *)
Class UnicodeCase := {
  to_uppercase : bytes -> bytes;
  to_lowercase : bytes -> bytes;
  to_uppercase_ascii : forall s, Forall ascii s -> to_uppercase s = to_ascii_uppercase s;
  to_lowercase_ascii : forall s, Forall ascii s -> to_lowercase s = to_ascii_lowercase s;
}.

Definition ascii_case : UnicodeCase :=
  {| to_uppercase := to_ascii_uppercase; to_lowercase := to_ascii_lowercase;
     to_uppercase_ascii := fun s _ => eq_refl; to_lowercase_ascii := fun s _ => eq_refl |}.

(** ** White space *)

(** The UTF-8 encodings of Unicode's [White_Space]. *)
Definition WHITE_SPACE : list bytes :=
  map (map byte_of)
    ([[9]; [10]; [11]; [12]; [13]; [32]; [194; 133]; [194; 160]; [225; 154; 128]]
     ++ map (fun b => [226; 128; b]) [128; 129; 130; 131; 132; 133; 134; 135; 136; 137; 138; 168; 169; 175]
     ++ [[226; 129; 159]; [227; 128; 128]])%Z.

Definition starts_with (pre s : bytes) : bool := bool_decide (take (length pre) s = pre).

(** [str::trim_start]: at most one character per byte. *)
Fixpoint trim_start_loop (fuel : nat) (spaces : list bytes) (s : bytes) : bytes :=
  match fuel with
  | 0 => s
  | S fuel =>
      match find (fun w => starts_with w s) spaces with
      | Some w => trim_start_loop fuel spaces (drop (length w) s)
      | None => s
      end
  end.

Definition trim_start (s : bytes) : bytes := trim_start_loop (length s) WHITE_SPACE s.

Definition trim_end (s : bytes) : bytes := rev (trim_start_loop (length s) (map (@rev byte) WHITE_SPACE) (rev s)).

(** [str::trim]. *)
Definition trim (s : bytes) : bytes := trim_end (trim_start s).
