(* ===== verification/Doubles.v ===== *)
(** * Doubles: IEEE 754 binary64 as the code sees it

    An [f64] is its 64-bit pattern ([to_bits]); comparisons are decided on the
    pattern.  [OrderedFloat] (crate [ordered_float]) is known by its documented
    order, and the text form of doubles ([Display], [FromStr]) by its round
    trip. *)

From S2P Require Import Prelude Text.

(** ** Doubles *)

Abbreviation f64 := Z (only parsing).

(** The patterns of the 64-bit format. *)
Definition f64_wf (s : f64) : Prop := (0 <= s < 2 ^ 64)%Z.

#[export] Instance f64_wf_dec s : Decision (f64_wf s).
Proof. unfold f64_wf. apply _. Defined.

Definition F64_INF : f64 := Z.shiftl 2047 52.

Definition f64_magnitude (s : f64) : Z := Z.land s (2 ^ 63 - 1).

(** [f64::is_nan]. *)
Definition is_nan (s : f64) : bool := bool_decide (F64_INF < f64_magnitude s)%Z.

(** The rank of a score: sign and magnitude as an integer, which orders finite
    and infinite doubles as IEEE does; all NaNs above every other score. *)
Definition NAN_KEY : Z := 2 ^ 63.

Definition okey (s : f64) : Z :=
  if is_nan s then NAN_KEY
  else if Z.testbit s 63 then (- f64_magnitude s)%Z else f64_magnitude s.

(** The IEEE comparisons [==], [<] and [<=], false on NaN. *)
Definition f64_eqb (a b : f64) : bool := negb (is_nan a) && negb (is_nan b) && bool_decide (okey a = okey b).
Definition f64_ltb (a b : f64) : bool := negb (is_nan a) && negb (is_nan b) && bool_decide (okey a < okey b)%Z.
Definition f64_leb (a b : f64) : bool := negb (is_nan a) && negb (is_nan b) && bool_decide (okey a <= okey b)%Z.

(** The [OrderedFloat<f64>] wrapper: "NaN is treated as equal to itself and
    greater than any other value"; otherwise the order of the float. *)
Class OrderedFloat := {
  of_cmp : f64 -> f64 -> comparison;
  of_eqb : f64 -> f64 -> bool;
  of_cmp_nan a b : is_nan a = true -> is_nan b = true -> of_cmp a b = Eq;
  of_cmp_nan_l a b : is_nan a = true -> is_nan b = false -> of_cmp a b = Gt;
  of_cmp_nan_r a b : is_nan a = false -> is_nan b = true -> of_cmp a b = Lt;
  of_cmp_float a b : is_nan a = false -> is_nan b = false ->
    of_cmp a b = if f64_ltb a b then Lt else if f64_eqb a b then Eq else Gt;
  of_eqb_cmp a b : of_eqb a b = match of_cmp a b with Eq => true | _ => false end;
}.

(** [f64]'s [Display] and [FromStr]: printing gives ASCII without line breaks,
    and parsing the text gives the double back. *)
Class F64Text := {
  f64_display : f64 -> bytes;
  f64_parse : bytes -> option f64;
  f64_display_ascii d : Forall ascii (f64_display d);
  f64_display_no_cr d : Forall (fun b => b <> byte_of 13) (f64_display d);
  f64_roundtrip d : f64_wf d -> is_nan d = false -> f64_parse (f64_display d) = Some d;
}.

(** ** The order of the wrapper *)

Lemma f64_magnitude_range s : (0 <= f64_magnitude s < 2 ^ 63)%Z.
Proof.
  unfold f64_magnitude. change (2 ^ 63 - 1)%Z with (Z.ones 63).
  rewrite Z.land_ones by lia. apply Z.mod_pos_bound. lia.
Qed.

Lemma okey_nan s : is_nan s = true <-> okey s = NAN_KEY.
Proof.
  unfold okey. pose proof (f64_magnitude_range s). destruct (is_nan s); [done|].
  unfold NAN_KEY. split; [done|]. destruct (Z.testbit s 63); lia.
Qed.

Lemma okey_lt_nan s : is_nan s = false -> (okey s < NAN_KEY)%Z.
Proof.
  unfold okey, NAN_KEY. intros ->. pose proof (f64_magnitude_range s).
  destruct (Z.testbit s 63); lia.
Qed.

Lemma of_cmp_okey `{OrderedFloat} a b : of_cmp a b = (okey a ?= okey b)%Z.
Proof.
  destruct (is_nan a) eqn:Ea, (is_nan b) eqn:Eb.
  - rewrite of_cmp_nan by done. apply okey_nan in Ea, Eb. rewrite Ea, Eb. by rewrite Z.compare_refl.
  - rewrite of_cmp_nan_l by done. apply okey_nan in Ea. apply okey_lt_nan in Eb.
    symmetry. apply Z.compare_gt_iff. lia.
  - rewrite of_cmp_nan_r by done. apply okey_nan in Eb. apply okey_lt_nan in Ea.
    symmetry. apply Z.compare_lt_iff. lia.
  - rewrite of_cmp_float by done. unfold f64_ltb, f64_eqb. rewrite Ea, Eb. simpl.
    repeat case_bool_decide; destruct (Z.compare_spec (okey a) (okey b)); lia || done.
Qed.

Lemma of_eqb_okey `{OrderedFloat} a b : of_eqb a b = bool_decide (okey a = okey b).
Proof.
  rewrite of_eqb_cmp, of_cmp_okey. case_bool_decide as E.
  - by rewrite E, Z.compare_refl.
  - destruct (Z.compare_spec (okey a) (okey b)); done.
Qed.

(** ** Instances to run the model with *)

Definition ieee_cmp (a b : f64) : comparison := (okey a ?= okey b)%Z.

#[refine] Definition ieee_order : OrderedFloat :=
  {| of_cmp := ieee_cmp;
     of_eqb := fun a b => match ieee_cmp a b with Eq => true | _ => false end |}.
Proof.
  - intros a b Ea%okey_nan Eb%okey_nan. unfold ieee_cmp. by rewrite Ea, Eb.
  - intros a b Ea%okey_nan Eb%okey_lt_nan. unfold ieee_cmp. apply Z.compare_gt_iff. lia.
  - intros a b Ea%okey_lt_nan Eb%okey_nan. unfold ieee_cmp. apply Z.compare_lt_iff. lia.
  - intros a b Ea Eb. unfold ieee_cmp, f64_ltb, f64_eqb. rewrite Ea, Eb. simpl.
    repeat case_bool_decide; destruct (Z.compare_spec (okey a) (okey b)); lia || done.
  - done.
Defined.

(** A text form that meets the contract: the pattern in decimal. *)
Lemma is_digit_ascii b : is_digit b -> ascii b /\ b <> byte_of 13.
Proof.
  intros Hb%is_digit_val. split; [unfold ascii; lia|].
  intros ->. rewrite byte_val_of in Hb. change (13 mod 256)%Z with 13%Z in Hb. lia.
Qed.

#[refine] Definition pattern_text : F64Text :=
  {| f64_display := fun d => dec (d mod 2 ^ 64); f64_parse := parse_usize |}.
Proof.
  - intros d. destruct (dec_spec (d mod 2 ^ 64)) as (_ & Hd & _); [apply Z.mod_pos_bound; lia|].
    eapply Forall_impl; [exact Hd|]. intros b Hb. by apply is_digit_ascii.
  - intros d. destruct (dec_spec (d mod 2 ^ 64)) as (_ & Hd & _); [apply Z.mod_pos_bound; lia|].
    eapply Forall_impl; [exact Hd|]. intros b Hb. by apply is_digit_ascii.
  - intros d Hw _. unfold f64_wf in Hw. rewrite Z.mod_small by lia. by apply parse_usize_dec.
Defined.
