(* ===== verification/DoubleArith.v ===== *)
(** * DoubleArith: the arithmetic and the text of scores

    Addition, multiplication, [min] and [max] of [f64], computed on the patterns of
    [Doubles] through the IEEE 754 operations of the library [SpecFloat] (binary64:
    53 bits of precision, round to nearest, ties to even), and [format_float] of
    [command/string.rs]. *)

From S2P Require Import Prelude Text Doubles.
From Stdlib Require Floats.SpecFloat.

Import (notations) SpecFloat.

(** ** Patterns and numbers *)

Definition fraction (b : f64) : Z := Z.land b (Z.ones 52).
Definition exponent (b : f64) : Z := Z.land (Z.shiftr b 52) (Z.ones 11).

Definition to_spec (b : f64) : SpecFloat.spec_float :=
  let s := Z.testbit b 63 in
  if bool_decide (exponent b = 2047)%Z then
    if bool_decide (fraction b = 0)%Z then SpecFloat.S754_infinity s else SpecFloat.S754_nan
  else if bool_decide (exponent b = 0)%Z then
    match fraction b with Zpos m => SpecFloat.S754_finite s m (-1074) | _ => SpecFloat.S754_zero s end
  else
    match (fraction b + 2 ^ 52)%Z with
    | Zpos m => SpecFloat.S754_finite s m (exponent b - 1075)
    | _ => SpecFloat.S754_nan
    end.

Definition sign_bit (s : bool) : Z := if s then 2 ^ 63 else 0.

(** The pattern of a number; the NaN an operation gives is the quiet one. *)
Definition of_spec (x : SpecFloat.spec_float) : f64 :=
  match x with
  | SpecFloat.S754_zero s => sign_bit s
  | SpecFloat.S754_infinity s => (sign_bit s + F64_INF)%Z
  | SpecFloat.S754_nan => (F64_INF + 2 ^ 51)%Z
  | SpecFloat.S754_finite s m e =>
      ((sign_bit s + (if bool_decide (Zpos m < 2 ^ 52)%Z then Zpos m
                      else Z.shiftl (e + 1075) 52 + (Zpos m - 2 ^ 52))) mod 2 ^ 64)%Z
  end.

Definition f64_add (a b : f64) : f64 := of_spec (SpecFloat.SFadd 53 1024 (to_spec a) (to_spec b)).
Definition f64_mul (a b : f64) : f64 := of_spec (SpecFloat.SFmul 53 1024 (to_spec a) (to_spec b)).

(** [f64::min] and [f64::max]: a NaN loses against any number. *)
Definition f64_min (a b : f64) : f64 :=
  if is_nan a then b else if is_nan b then a else if f64_leb a b then a else b.
Definition f64_max (a b : f64) : f64 :=
  if is_nan a then b else if is_nan b then a else if f64_leb b a then a else b.

Definition ZERO : f64 := 0.
Definition ONE : f64 := 4607182418800017408.

(** ** The text of a score *)

(** What is known of [{:.17}] and of the numbers [FromStr] gives. *)
Class F64Format `{F64Text} := {
  f64_fixed17 : f64 -> bytes;
  f64_parse_wf : forall s d, f64_parse s = Some d -> f64_wf d;
}.

(** [trim_end_matches] of one character. *)
Definition trim_end_byte (c : byte) (s : bytes) : bytes :=
  reverse ((fix go (s : bytes) := match s with b :: s' => if bool_decide (b = c) then go s' else s | [] => [] end) (reverse s)).

Definition format_float `{F64Format} (f : f64) : bytes :=
  let s := f64_fixed17 f in
  if bool_decide (byte_of 46 ∈ s) then trim_end_byte (byte_of 46) (trim_end_byte (byte_of 48) s) else s.

(** ** The patterns are numbers *)

Lemma fraction_range b : (0 <= fraction b < 2 ^ 52)%Z.
Proof. unfold fraction. rewrite Z.land_ones by lia. apply Z.mod_pos_bound. lia. Qed.

Lemma exponent_range b : (0 <= exponent b < 2 ^ 11)%Z.
Proof. unfold exponent. rewrite Z.land_ones by lia. apply Z.mod_pos_bound. lia. Qed.

(** Sign, exponent and fraction are the pattern. *)
Lemma pattern_split b : f64_wf b -> b = (sign_bit (Z.testbit b 63) + Z.shiftl (exponent b) 52 + fraction b)%Z.
Proof.
  intros Hb. unfold f64_wf in Hb. unfold exponent, fraction, sign_bit.
  rewrite !Z.land_ones, Z.shiftl_mul_pow2, Z.shiftr_div_pow2 by lia.
  rewrite Z.testbit_odd, Z.shiftr_div_pow2 by lia.
  assert (0 <= b / 2 ^ 63 < 2)%Z as Hs by (split; [apply Z.div_pos|apply Z.div_lt_upper_bound]; lia).
  assert (b / 2 ^ 52 / 2 ^ 11 = b / 2 ^ 63)%Z as Hd by (rewrite Z.div_div by lia; done).
  pose proof (Z.div_mod b (2 ^ 52) ltac:(lia)) as H1. pose proof (Z.div_mod (b / 2 ^ 52) (2 ^ 11) ltac:(lia)) as H2.
  rewrite Hd in H2. clear Hd Hb. assert (b / 2 ^ 63 = 0 \/ b / 2 ^ 63 = 1)%Z as [Ho|Ho] by lia;
    rewrite Ho in *; simpl Z.odd; cbv iota; clear Hs Ho; lia.
Qed.

Lemma of_spec_wf x : f64_wf (of_spec x).
Proof.
  unfold f64_wf. destruct x as [[]|[]| |s m e]; [by vm_compute..|]. apply Z.mod_pos_bound. lia.
Qed.

Lemma f64_add_wf a b : f64_wf (f64_add a b).
Proof. apply of_spec_wf. Qed.

Lemma f64_mul_wf a b : f64_wf (f64_mul a b).
Proof. apply of_spec_wf. Qed.

Lemma f64_min_wf a b : f64_wf a -> f64_wf b -> f64_wf (f64_min a b).
Proof. unfold f64_min. repeat case_match; done. Qed.

Lemma f64_max_wf a b : f64_wf a -> f64_wf b -> f64_wf (f64_max a b).
Proof. unfold f64_max. repeat case_match; done. Qed.

(** Every pattern but the other NaNs comes back. *)
Lemma of_to_spec b : f64_wf b -> is_nan b = false -> of_spec (to_spec b) = b.
Proof.
  intros Hb Hn. pose proof (pattern_split b Hb) as Hp. pose proof (fraction_range b). pose proof (exponent_range b).
  assert (exponent b = 2047 -> fraction b = 0)%Z as Hinf.
  { intros He. unfold is_nan in Hn. apply bool_decide_eq_false in Hn. unfold f64_magnitude, F64_INF in Hn.
    change (2 ^ 63 - 1)%Z with (Z.ones 63) in Hn. rewrite Z.land_ones in Hn by lia.
    rewrite Hp, He in Hn. unfold sign_bit in Hn.
    assert ((if Z.testbit b 63 then 2 ^ 63 else 0) = 0 \/ (if Z.testbit b 63 then 2 ^ 63 else 0) = 2 ^ 63)%Z as [Hs|Hs]
      by (destruct (Z.testbit b 63); auto); rewrite Hs in Hn; clear Hs.
    - rewrite Z.add_0_l, Z.mod_small in Hn; [lia|]. change (Z.shiftl 2047 52) with (2047 * 2 ^ 52)%Z. lia.
    - rewrite <- Z.add_assoc, (Z.add_comm (2 ^ 63)), <- (Z.mul_1_l (2 ^ 63)), Z_mod_plus_full in Hn.
      rewrite Z.mod_small in Hn; [lia|]. change (Z.shiftl 2047 52) with (2047 * 2 ^ 52)%Z. lia. }
  unfold to_spec. rewrite !Z.shiftl_mul_pow2 in * by lia. case_bool_decide as E1.
  - rewrite bool_decide_eq_true_2 by auto. cbn [of_spec]. rewrite Hp at 2. rewrite E1, Hinf by done. unfold F64_INF.
    change (Z.shiftl 2047 52) with (2047 * 2 ^ 52)%Z. lia.
  - case_bool_decide as E2.
    + rewrite E2 in Hp. destruct (fraction b) as [|m|m] eqn:Ef; cbn [of_spec]; [lia| |lia].
      rewrite bool_decide_eq_true_2 by lia. unfold sign_bit in *. rewrite Z.mod_small; [lia|]. destruct (Z.testbit b 63); lia.
    + destruct (fraction b + 2 ^ 52)%Z as [|m|m] eqn:Ef; [lia| |lia]. cbn [of_spec]. rewrite bool_decide_eq_false_2 by lia.
      rewrite Z.shiftl_mul_pow2 by lia. unfold sign_bit in *. rewrite Z.mod_small; destruct (Z.testbit b 63); lia.
Qed.

(** ** An instance to run the model with *)

#[refine] Definition pattern_format : @F64Format pattern_text := {| f64_fixed17 := @f64_display pattern_text |}.
Proof.
  all: try exact pattern_text.
  intros s d E. simpl in E. unfold f64_wf. split; [by eapply parse_usize_nonneg|].
  unfold parse_usize in E. destruct (match s with [] => None | _ => _ end) as [m|]; [|done]. simpl in E.
  case_bool_decide; [|done]. injection E as <-. lia.
Defined.

Lemma adds_one : f64_add ONE ONE = 4611686018427387904%Z /\ f64_mul 4611686018427387904 ONE = 4611686018427387904%Z.
Proof. by vm_compute. Qed.

(** Infinities of both signs add up to no number. *)
Lemma opposite_infinities : is_nan (f64_add F64_INF (2 ^ 63 + F64_INF)) = true.
Proof. by vm_compute. Qed.
