(* ===== verification/Glob.v ===== *)
(** * Glob: the pattern matcher of KEYS, SCAN and PSUBSCRIBE ([store.rs], [glob_match])

    The matcher walks pattern and key with two indices and remembers the last
    star seen together with the position in the key it was tried at; on a
    mismatch it lets that star swallow one more byte.  The relation [glob] says
    what a pattern means; the theorem relates the loop to it. *)

From S2P Require Import Prelude.

Definition STAR : byte := byte_of 42.
Definition QUESTION : byte := byte_of 63.

(** The loop of [glob_match_inner].  [star] is [None] while [star_pi] is
    [usize::MAX] and [Some (star_pi, star_si)] afterwards; the result is [None]
    only when the fuel is used up. *)
Fixpoint glob_loop (fuel : nat) (pat s : bytes) (pi si : nat) (star : option (nat * nat)) : option bool :=
  match fuel with
  | 0 => None
  | S fuel =>
      match s !! si with
      | Some c =>
          if (match pat !! pi with
              | Some p => bool_decide (p = QUESTION) || bool_decide (p = c)
              | None => false end)
          then glob_loop fuel pat s (pi + 1) (si + 1) star
          else if bool_decide (pat !! pi = Some STAR)
          then glob_loop fuel pat s (pi + 1) si (Some (pi, si))
          else match star with
               | Some (star_pi, star_si) =>
                   glob_loop fuel pat s (star_pi + 1) (star_si + 1) (Some (star_pi, star_si + 1))
               | None => Some false
               end
      | None => Some (forallb (fun p => bool_decide (p = STAR)) (drop pi pat))
      end
  end.

(** Passes of the loop: a star is retried at most once per byte of the key and
    the pattern index moves forward in between. *)
Definition glob_fuel (pat s : bytes) : nat := S (S (length s) * S (length pat)).

Definition glob_match_inner (pat s : bytes) : bool :=
  default false (glob_loop (glob_fuel pat s) pat s 0 0 None).

Definition glob_match (pattern s : bytes) : bool := glob_match_inner pattern s.

(** ** What a pattern means *)

Inductive glob : bytes -> bytes -> Prop :=
  | glob_nil : glob [] []
  | glob_skip p s : glob p s -> glob (STAR :: p) s
  | glob_take p c s : glob (STAR :: p) s -> glob (STAR :: p) (c :: s)
  | glob_any p c s : glob p s -> glob (QUESTION :: p) (c :: s)
  | glob_lit p c s : c <> STAR -> c <> QUESTION -> glob p s -> glob (c :: p) (c :: s).

Create HintDb glob.
#[export] Hint Constructors glob : glob.

Lemma STAR_ne_QUESTION : STAR <> QUESTION.
Proof. done. Qed.

(** A star may swallow any prefix. *)
Lemma glob_star_app p t s : glob (STAR :: p) s -> glob (STAR :: p) (t ++ s).
Proof. induction t; simpl; eauto with glob. Qed.

Lemma glob_star_drop p s i j : i <= j -> glob (STAR :: p) (drop j s) -> glob (STAR :: p) (drop i s).
Proof.
  intros Hij H. destruct (decide (j <= length s)).
  - rewrite (drop_split_app s i j) by done. by apply glob_star_app.
  - rewrite (drop_ge s j) in H by lia. pose proof (glob_star_app p (drop i s) [] H) as H'.
    by rewrite app_nil_r in H'.
Qed.

Lemma glob_star_inv p s : glob (STAR :: p) s <-> exists j, j <= length s /\ glob p (drop j s).
Proof.
  split.
  - intros H. remember (STAR :: p) as q eqn:Eq. induction H; simplify_eq.
    + exists 0. rewrite drop_0. split; [lia|done].
    + destruct IHglob as (j & Hj & Hg); [done|]. exists (S j). simpl. split; [lia|done].
  - intros (j & Hj & Hg). rewrite <- (take_drop j s). apply glob_star_app. by constructor.
Qed.

(** A star is done, or it swallows the next byte. *)
Lemma glob_star_cases p s i : glob (STAR :: p) (drop i s) ->
  glob p (drop i s) \/ glob (STAR :: p) (drop (i + 1) s).
Proof.
  rewrite !glob_star_inv. intros ([|j] & Hj & G); [left; by rewrite drop_0 in G|right].
  exists j. rewrite drop_drop in *. rewrite length_drop in *.
  replace (i + 1 + j) with (i + S j) by lia. split; [lia|done].
Qed.

Lemma glob_stars p : glob p [] <-> forallb (fun p => bool_decide (p = STAR)) p = true.
Proof.
  induction p as [|c p IH]; simpl; [split; [done|constructor]|].
  rewrite andb_true_iff, bool_decide_eq_true, <- IH. split.
  - inversion 1; subst; done.
  - intros [-> H]. by constructor.
Qed.

(** A pattern without stars, against a key of the same length. *)
Definition fixed_match (m s : bytes) : Prop :=
  Forall2 (fun p c => p = QUESTION \/ p = c) m s.

Lemma glob_fixed_app m s p t : STAR ∉ m -> fixed_match m s -> glob p t -> glob (m ++ p) (s ++ t).
Proof.
  intros Hm. induction 1 as [|x c m s Hx _ IH]; [done|]. intros Hg. simpl.
  rewrite elem_of_cons in Hm.
  destruct (decide (x = QUESTION)) as [->|Hq]; [constructor; naive_solver|].
  destruct Hx as [|<-]; [done|]. constructor; naive_solver.
Qed.

Lemma glob_fixed_inv m p s : STAR ∉ m -> glob (m ++ p) s -> length m <= length s /\ glob p (drop (length m) s).
Proof.
  intros Hm. revert s. induction m as [|x m IH]; intros s H; simpl in *; [split; [lia|by rewrite drop_0]|].
  rewrite elem_of_cons in Hm.
  inversion H; subst; [naive_solver|naive_solver| |];
    (destruct (IH ltac:(naive_solver) s0) as [??]; [done|]; simpl; split; [lia|done]).
Qed.

(** ** The loop *)

Section Loop.
Context (pat s : bytes).

Definition star_pos (star : option (nat * nat)) : nat :=
  match star with Some (_, ss) => ss | None => 0 end.

(** What is left to do, decreasing at every pass. *)
Definition measure (pi : nat) (star : option (nat * nat)) : nat :=
  (length s - star_pos star) * S (length pat) + (length pat - pi).

(** Everything the loop still accepts is in the language of the pattern. *)
Definition sound_state (pi si : nat) (star : option (nat * nat)) : Prop :=
  pi <= length pat /\ si <= length s /\ star_pos star <= si /\
  (glob (drop pi pat) (drop si s) -> glob pat s) /\
  match star with
  | Some (sp, ss) =>
      sp < pi /\ pat !! sp = Some STAR /\ (glob (drop sp pat) (drop ss s) -> glob pat s)
  | None => True
  end.

(** When the key has no star of its own, nothing the pattern accepts has been
    given up: the segment after the last star matched where it was tried, so any
    later match of it is still covered. *)
Definition complete_state (pi si : nat) (star : option (nat * nat)) : Prop :=
  match star with
  | Some (sp, ss) =>
      exists m, drop (sp + 1) pat = m ++ drop pi pat /\ length m = si - ss /\ STAR ∉ m /\
        pi = sp + 1 + length m /\
        (glob pat s -> glob (drop pi pat) (drop si s) \/ glob (drop sp pat) (drop (ss + 1) s))
  | None => glob pat s -> glob (drop pi pat) (drop si s)
  end.

(** One byte of the key against one byte of the pattern. *)
Lemma step_match pi si p c : pat !! pi = Some p -> s !! si = Some c ->
  bool_decide (p = QUESTION) || bool_decide (p = c) = true ->
  glob (drop (pi + 1) pat) (drop (si + 1) s) -> glob (drop pi pat) (drop si s).
Proof.
  intros Hp Hc Hm Hg. rewrite (drop_S _ _ _ Hp), (drop_S _ _ _ Hc), <- (Nat.add_1_r pi), <- (Nat.add_1_r si).
  rewrite orb_true_iff, !bool_decide_eq_true in Hm.
  destruct (decide (p = QUESTION)) as [->|]; [by constructor|].
  destruct Hm as [|<-]; [done|].
  destruct (decide (p = STAR)) as [->|]; [apply glob_take; by constructor|by constructor].
Qed.

Lemma step_match_inv pi si p c : pat !! pi = Some p -> s !! si = Some c -> p <> STAR ->
  glob (drop pi pat) (drop si s) ->
  bool_decide (p = QUESTION) || bool_decide (p = c) = true /\
  glob (drop (pi + 1) pat) (drop (si + 1) s).
Proof.
  intros Hp Hc Hs. rewrite (drop_S _ _ _ Hp), (drop_S _ _ _ Hc), <- (Nat.add_1_r pi), <- (Nat.add_1_r si).
  rewrite orb_true_iff, !bool_decide_eq_true. inversion 1; subst; naive_solver.
Qed.

Lemma sound_step_match pi si star p c : sound_state pi si star ->
  pat !! pi = Some p -> s !! si = Some c ->
  bool_decide (p = QUESTION) || bool_decide (p = c) = true ->
  sound_state (pi + 1) (si + 1) star.
Proof.
  intros (Hp & Hs & Hss & Hg & Hst) Lp Lc Hm.
  pose proof (lookup_lt_Some _ _ _ Lp). pose proof (lookup_lt_Some _ _ _ Lc).
  split_and!; [lia..| |].
  - intros G. apply Hg. by eapply step_match.
  - destruct star as [[sp ss]|]; [|done]. naive_solver lia.
Qed.

Lemma sound_step_star pi si star : sound_state pi si star -> pat !! pi = Some STAR ->
  si < length s -> sound_state (pi + 1) si (Some (pi, si)).
Proof.
  intros (Hp & Hs & Hss & Hg & Hst) Lp Hlt. pose proof (lookup_lt_Some _ _ _ Lp).
  split_and!; simpl; [lia..| | lia|done|done].
  intros G. apply Hg. rewrite (drop_S _ _ _ Lp), <- (Nat.add_1_r pi). by constructor.
Qed.

Lemma sound_step_retry pi si sp ss : sound_state pi si (Some (sp, ss)) -> si < length s ->
  sound_state (sp + 1) (ss + 1) (Some (sp, ss + 1)).
Proof.
  intros (Hp & Hs & Hss & Hg & Hlt & Lp & Hst) Hsi. simpl in Hss.
  pose proof (lookup_lt_Some _ _ _ Lp).
  assert (K : glob (drop sp pat) (drop (ss + 1) s) -> glob pat s).
  { intros G. apply Hst. rewrite (drop_S _ _ _ Lp) in *. eapply glob_star_drop; [|done]. lia. }
  split_and!; simpl; [lia..| | lia|done|done].
  intros G. apply K. rewrite (drop_S _ _ _ Lp), <- (Nat.add_1_r sp). by constructor.
Qed.

Lemma complete_step_match pi si star p c : star_pos star <= si -> complete_state pi si star ->
  pat !! pi = Some p -> s !! si = Some c -> c <> STAR ->
  bool_decide (p = QUESTION) || bool_decide (p = c) = true ->
  complete_state (pi + 1) (si + 1) star.
Proof.
  intros Hss C Lp Lc Hc Hm. assert (Hp : p <> STAR).
  { rewrite orb_true_iff, !bool_decide_eq_true in Hm. naive_solver. }
  destruct star as [[sp ss]|]; simpl in *.
  - destruct C as (m & Em & Lm & Nm & Epi & Hg). exists (m ++ [p]).
    rewrite (drop_S _ _ _ Lp), <- (Nat.add_1_r pi) in Em.
    split_and!.
    + by rewrite <- app_assoc.
    + rewrite length_app. simpl. lia.
    + set_solver.
    + rewrite length_app. simpl. lia.
    + intros G. destruct (Hg G) as [G'|]; [left|by right]. by eapply step_match_inv.
  - intros G. eapply step_match_inv; eauto.
Qed.

(** A second star makes the first one's other positions redundant. *)
Lemma complete_step_star pi si star c : sound_state pi si star -> complete_state pi si star ->
  pat !! pi = Some STAR -> s !! si = Some c -> complete_state (pi + 1) si (Some (pi, si)).
Proof.
  intros (_ & _ & Hss & _ & Hst) C Lp Lc. exists [].
  split_and!; [done|simpl; lia|set_solver|simpl; lia|]. intros G.
  assert (G' : glob (drop pi pat) (drop si s)).
  { destruct star as [[sp ss]|]; simpl in *; [|by apply C].
    destruct C as (m & Em & Lm & Nm & Epi & Hg), Hst as (_ & Ls & _).
    destruct (Hg G) as [|G']; [done|].
    rewrite (drop_S _ _ _ Ls), <- (Nat.add_1_r sp), Em, glob_star_inv in G'.
    destruct G' as (j & _ & G'). rewrite drop_drop in G'.
    apply glob_fixed_inv in G' as [_ G']; [|done]. rewrite drop_drop in G'.
    rewrite (drop_S _ _ _ Lp) in *. eapply glob_star_drop; [|done]. lia. }
  rewrite (drop_S _ _ _ Lp), <- (Nat.add_1_r pi) in *. by apply glob_star_cases.
Qed.

Lemma complete_step_retry pi si sp ss c : sound_state pi si (Some (sp, ss)) ->
  complete_state pi si (Some (sp, ss)) -> s !! si = Some c ->
  ~ glob (drop pi pat) (drop si s) ->
  complete_state (sp + 1) (ss + 1) (Some (sp, ss + 1)).
Proof.
  intros (_ & _ & Hss & _ & Hlt & Ls & _) (m & Em & Lm & Nm & Epi & Hg) Lc N. simpl in Hss.
  pose proof (lookup_lt_Some _ _ _ Lc).
  exists []. split_and!; [done|simpl; lia|set_solver|simpl; lia|]. intros G.
  destruct (Hg G) as [|G']; [done|].
  rewrite (drop_S _ _ _ Ls), <- (Nat.add_1_r sp) in *. by apply glob_star_cases.
Qed.

(** A byte of the key that neither matches nor meets a star. *)
Lemma mismatch_fails pi si c : s !! si = Some c ->
  (match pat !! pi with
   | Some p => bool_decide (p = QUESTION) || bool_decide (p = c)
   | None => false end) = false ->
  pat !! pi <> Some STAR -> ~ glob (drop pi pat) (drop si s).
Proof.
  intros Lc Hm Hs G. destruct (pat !! pi) as [p|] eqn:Lp.
  - destruct (step_match_inv pi si p c) as [E _]; [done..|naive_solver|done|congruence].
  - apply lookup_ge_None in Lp. rewrite (drop_ge pat) in G by done.
    rewrite (drop_S _ _ _ Lc) in G. inversion G.
Qed.

Lemma glob_loop_correct fuel pi si star :
  measure pi star < fuel -> sound_state pi si star ->
  exists b, glob_loop fuel pat s pi si star = Some b /\
    (b = true -> glob pat s) /\
    (STAR ∉ s -> complete_state pi si star -> glob pat s -> b = true).
Proof.
  revert pi si star. induction fuel as [|fuel IH]; intros pi si star Hf R; [lia|]. simpl.
  destruct (s !! si) as [c|] eqn:Lc.
  - pose proof (lookup_lt_Some _ _ _ Lc) as Hsi.
    destruct (match pat !! pi with Some _ => _ | None => _ end) eqn:Hm.
    + destruct (pat !! pi) as [p|] eqn:Lp; [|done]. pose proof (lookup_lt_Some _ _ _ Lp).
      destruct (IH (pi + 1) (si + 1) star) as (b & E & S & C);
        [unfold measure in *; lia|by eapply sound_step_match|].
      exists b. split_and!; [done..|]. intros Hs Hc. apply C; [done|].
      eapply complete_step_match; eauto; [apply R|]. intros ->.
      apply Hs. by eapply list_elem_of_lookup_2.
    + case_bool_decide as Lp; [pose proof (lookup_lt_Some _ _ _ Lp)|].
      * destruct (IH (pi + 1) si (Some (pi, si))) as (b & E & S & C);
          [|eapply sound_step_star; eauto|].
        { destruct R as (_ & _ & Hss & _). unfold measure in *. simpl.
          pose proof (Nat.mul_le_mono_r (length s - si) (length s - star_pos star) (S (length pat)) ltac:(lia)). lia. }
        exists b. split_and!; [done..|]. intros Hs Hc. apply C; [done|].
        by eapply complete_step_star.
      * pose proof (mismatch_fails pi si c Lc Hm Lp) as N.
        destruct star as [[sp ss]|].
        -- destruct (IH (sp + 1) (ss + 1) (Some (sp, ss + 1))) as (b & E & S & C);
             [|eapply sound_step_retry; eauto|].
           { destruct R as (? & _ & Hss & _ & ? & _). unfold measure in *. simpl in *.
             replace (length s - ss) with (length s - (ss + 1) + 1) in Hf by lia. lia. }
           exists b. split_and!; [done..|]. intros Hs Hc. apply C; [done|].
           by eapply complete_step_retry.
        -- exists false. split_and!; [done..|]. simpl. naive_solver.
  - apply lookup_ge_None in Lc. destruct R as (Hp & Hs & _ & Hg & Hst).
    exists (forallb (fun p => bool_decide (p = STAR)) (drop pi pat)).
    rewrite (drop_ge s si) in * by done. split_and!; [done| |].
    + intros E. apply Hg. by apply glob_stars.
    + intros _ C G. apply glob_stars. destruct star as [[sp ss]|]; simpl in *;
        rewrite (drop_ge s si) in * by done; [|auto].
      destruct C as (m & Em & Lm & Nm & Epi & C). destruct (C G) as [|G']; [done|].
      destruct Hst as (_ & Ls & _). rewrite (drop_S _ _ _ Ls), <- (Nat.add_1_r sp), Em, glob_star_inv in G'.
      destruct G' as (j & Hj & G'). apply glob_fixed_inv in G' as [Hl G']; [|done].
      rewrite !drop_drop in G'. rewrite !length_drop in Hl.
      rewrite (drop_ge s) in G' by lia. done.
Qed.
End Loop.

Lemma glob_initial pat s : measure pat s 0 None < glob_fuel pat s /\ sound_state pat s 0 0 None
  /\ complete_state pat s 0 0 None.
Proof.
  split_and!.
  - unfold measure, glob_fuel. simpl. lia.
  - split_and!; simpl; [lia..|by rewrite !drop_0|done].
  - simpl. by rewrite !drop_0.
Qed.

(** C32: The backtracking matcher always returns within its fuel, accepts only keys
    the pattern describes, and accepts every such key that has no star byte of
    its own. *)
Theorem glob_match_decides pat s :
  is_Some (glob_loop (glob_fuel pat s) pat s 0 0 None) /\
  (glob_match pat s = true -> glob pat s) /\
  (STAR ∉ s -> glob_match pat s = true <-> glob pat s).
Proof.
  destruct (glob_initial pat s) as (Hf & R & C).
  destruct (glob_loop_correct pat s _ 0 0 None Hf R) as (b & E & Sd & Cp).
  unfold glob_match, glob_match_inner. rewrite E. simpl. naive_solver.
Qed.

(** [user:*:name] against a key whose middle contains the separator. *)
Lemma glob_match_decides_witness :
  glob (bstr "user:*:n?me") (bstr "user:a:b:name").
Proof.
  destruct (glob_match_decides (bstr "user:*:n?me") (bstr "user:a:b:name")) as (_ & _ & D).
  apply D; [|vm_compute; reflexivity].
  apply (bool_decide_unpack (STAR ∉ bstr "user:a:b:name")). vm_compute. exact I.
Defined.

(** A star of the pattern is compared literally before it is read as a wildcard,
    so the pattern that should match everything misses keys that begin with a
    star byte and are longer than it. *)
Lemma star_misses_starred_key :
  glob (bstr "*") (bstr "*a") /\ glob_match (bstr "*") (bstr "*a") = false.
Proof. split; [|by vm_compute]. apply (glob_star_app [] (bstr "*a") []). repeat constructor. Qed.
