(* ===== verification/Cluster.v ===== *)
(** * Cluster: hash slots ([cluster.rs])

    The table-driven CRC-16, hash tags and the slot of a key.  The reference is
    the bitwise CRC-16/XMODEM: polynomial 0x1021, initial value 0, one shift per
    bit of the message. *)

From S2P Require Import Prelude Text.

Definition CLUSTER_SLOTS : Z := 16384.

Definition CRC16_TAB : list Z :=
  [
    0x0000; 0x1021; 0x2042; 0x3063; 0x4084; 0x50a5; 0x60c6; 0x70e7; 0x8108; 0x9129; 0xa14a; 0xb16b;
    0xc18c; 0xd1ad; 0xe1ce; 0xf1ef; 0x1231; 0x0210; 0x3273; 0x2252; 0x52b5; 0x4294; 0x72f7; 0x62d6;
    0x9339; 0x8318; 0xb37b; 0xa35a; 0xd3bd; 0xc39c; 0xf3ff; 0xe3de; 0x2462; 0x3443; 0x0420; 0x1401;
    0x64e6; 0x74c7; 0x44a4; 0x5485; 0xa56a; 0xb54b; 0x8528; 0x9509; 0xe5ee; 0xf5cf; 0xc5ac; 0xd58d;
    0x3653; 0x2672; 0x1611; 0x0630; 0x76d7; 0x66f6; 0x5695; 0x46b4; 0xb75b; 0xa77a; 0x9719; 0x8738;
    0xf7df; 0xe7fe; 0xd79d; 0xc7bc; 0x48c4; 0x58e5; 0x6886; 0x78a7; 0x0840; 0x1861; 0x2802; 0x3823;
    0xc9cc; 0xd9ed; 0xe98e; 0xf9af; 0x8948; 0x9969; 0xa90a; 0xb92b; 0x5af5; 0x4ad4; 0x7ab7; 0x6a96;
    0x1a71; 0x0a50; 0x3a33; 0x2a12; 0xdbfd; 0xcbdc; 0xfbbf; 0xeb9e; 0x9b79; 0x8b58; 0xbb3b; 0xab1a;
    0x6ca6; 0x7c87; 0x4ce4; 0x5cc5; 0x2c22; 0x3c03; 0x0c60; 0x1c41; 0xedae; 0xfd8f; 0xcdec; 0xddcd;
    0xad2a; 0xbd0b; 0x8d68; 0x9d49; 0x7e97; 0x6eb6; 0x5ed5; 0x4ef4; 0x3e13; 0x2e32; 0x1e51; 0x0e70;
    0xff9f; 0xefbe; 0xdfdd; 0xcffc; 0xbf1b; 0xaf3a; 0x9f59; 0x8f78; 0x9188; 0x81a9; 0xb1ca; 0xa1eb;
    0xd10c; 0xc12d; 0xf14e; 0xe16f; 0x1080; 0x00a1; 0x30c2; 0x20e3; 0x5004; 0x4025; 0x7046; 0x6067;
    0x83b9; 0x9398; 0xa3fb; 0xb3da; 0xc33d; 0xd31c; 0xe37f; 0xf35e; 0x02b1; 0x1290; 0x22f3; 0x32d2;
    0x4235; 0x5214; 0x6277; 0x7256; 0xb5ea; 0xa5cb; 0x95a8; 0x8589; 0xf56e; 0xe54f; 0xd52c; 0xc50d;
    0x34e2; 0x24c3; 0x14a0; 0x0481; 0x7466; 0x6447; 0x5424; 0x4405; 0xa7db; 0xb7fa; 0x8799; 0x97b8;
    0xe75f; 0xf77e; 0xc71d; 0xd73c; 0x26d3; 0x36f2; 0x0691; 0x16b0; 0x6657; 0x7676; 0x4615; 0x5634;
    0xd94c; 0xc96d; 0xf90e; 0xe92f; 0x99c8; 0x89e9; 0xb98a; 0xa9ab; 0x5844; 0x4865; 0x7806; 0x6827;
    0x18c0; 0x08e1; 0x3882; 0x28a3; 0xcb7d; 0xdb5c; 0xeb3f; 0xfb1e; 0x8bf9; 0x9bd8; 0xabbb; 0xbb9a;
    0x4a75; 0x5a54; 0x6a37; 0x7a16; 0x0af1; 0x1ad0; 0x2ab3; 0x3a92; 0xfd2e; 0xed0f; 0xdd6c; 0xcd4d;
    0xbdaa; 0xad8b; 0x9de8; 0x8dc9; 0x7c26; 0x6c07; 0x5c64; 0x4c45; 0x3ca2; 0x2c83; 0x1ce0; 0x0cc1;
    0xef1f; 0xff3e; 0xcf5d; 0xdf7c; 0xaf9b; 0xbfba; 0x8fd9; 0x9ff8; 0x6e17; 0x7e36; 0x4e55; 0x5e74;
    0x2e93; 0x3eb2; 0x0ed1; 0x1ef0
  ]%Z.

(** One byte of [crc16_hash]; the [u16] shift drops the high byte. *)
Definition crc16_step (crc : Z) (b : byte) : may_panic Z :=
  t ← CRC16_TAB !! Z.to_nat (Z.land (Z.lxor (Z.shiftr crc 8) (byte_val b)) 0xff);
  Some (Z.lxor (Z.shiftl crc 8 mod 2 ^ 16) t).

Fixpoint crc16_loop (crc : Z) (data : bytes) : may_panic Z :=
  match data with
  | [] => Some crc
  | b :: data => crc ← crc16_step crc b; crc16_loop crc data
  end.

Definition crc16_hash (data : bytes) : may_panic Z := crc16_loop 0 data.

(** [iter().position(|&b| b == c)]. *)
Fixpoint find_byte (c : byte) (bs : bytes) : option nat :=
  match bs with
  | [] => None
  | b :: bs => if bool_decide (b = c) then Some 0 else S <$> find_byte c bs
  end.

Definition OPEN : byte := byte_of 123.
Definition CLOSE : byte := byte_of 125.

Definition extract_hash_tag (key : bytes) : may_panic bytes :=
  match find_byte OPEN key with
  | Some open =>
      rest ← slice key (open + 1) (length key);
      match find_byte CLOSE rest with
      | Some close =>
          inner ← slice key (open + 1) (open + 1 + close);
          if bool_decide (inner = []) then Some key else Some inner
      | None => Some key
      end
  | None => Some key
  end.

Definition keyslot (key : bytes) : may_panic Z :=
  tag ← extract_hash_tag key;
  h ← crc16_hash tag;
  Some (h mod CLUSTER_SLOTS)%Z.

(** The first key whose slot differs, with its slot and the expected one: the
    parts of the CROSSSLOT message. *)
Fixpoint cross_slot (base : Z) (keys : list bytes) : may_panic (option (bytes * Z * Z)) :=
  match keys with
  | [] => Some None
  | k :: keys =>
      s ← keyslot k;
      if bool_decide (s = base) then cross_slot base keys else Some (Some (from_utf8_lossy k, s, base))
  end.

Definition check_same_slot (keys : list bytes) : may_panic (option (bytes * Z * Z)) :=
  match keys with
  | k0 :: (_ :: _) => base ← keyslot k0; cross_slot base (tail keys)
  | _ => Some None
  end.

(** ** The bitwise reference *)

Definition crc_shift (crc : Z) : Z :=
  if Z.testbit crc 15 then Z.lxor (Z.shiftl crc 1 mod 2 ^ 16) 0x1021 else Z.shiftl crc 1 mod 2 ^ 16.

Definition xmodem_byte (crc : Z) (b : byte) : Z :=
  Nat.iter 8 crc_shift (Z.lxor crc (Z.shiftl (byte_val b) 8)).

Definition xmodem (data : bytes) : Z := fold_left xmodem_byte data 0%Z.

(** The table entry of the high byte replaces eight shifts. *)
Definition table_agrees (x : Z) : bool :=
  match CRC16_TAB !! Z.to_nat (Z.shiftr x 8) with
  | Some t => (Nat.iter 8 crc_shift x =? Z.lxor (Z.shiftl x 8 mod 2 ^ 16) t)%Z
  | None => false
  end.

Fixpoint all_agree (n : nat) (x : Z) : bool :=
  match n with
  | 0 => true
  | S n => table_agrees x && all_agree n (x + 1)
  end.

Lemma all_agree_spec n x y : all_agree n x = true -> (x <= y < x + Z.of_nat n)%Z -> table_agrees y = true.
Proof.
  revert x. induction n as [|n IH]; intros x; simpl; [lia|]. rewrite andb_true_iff. intros [Hx Hn] Hy.
  destruct (decide (y = x)) as [->|]; [done|]. apply (IH (x + 1)%Z); [done|lia].
Qed.

Lemma table_computed : all_agree (N.to_nat 65536) 0 = true.
Proof. vm_compute. reflexivity. Qed.

Lemma table_lookup x : (0 <= x < 2 ^ 16)%Z ->
  exists t, CRC16_TAB !! Z.to_nat (Z.shiftr x 8) = Some t /\
    Nat.iter 8 crc_shift x = Z.lxor (Z.shiftl x 8 mod 2 ^ 16) t.
Proof.
  intros Hx. pose proof (all_agree_spec _ 0 x table_computed ltac:(lia)) as H. unfold table_agrees in H.
  destruct (CRC16_TAB !! _) as [t|]; [|done]. exists t. split; [done|]. by apply Z.eqb_eq.
Qed.

Lemma lt_pow2_bits z n : (0 <= n)%Z -> (0 <= z)%Z ->
  (z < 2 ^ n)%Z <-> (forall i, (n <= i)%Z -> Z.testbit z i = false).
Proof.
  intros Hn Hz. split.
  - intros Hlt i Hi. destruct (decide (z = 0)%Z) as [->|]; [apply Z.bits_0|].
    apply Z.bits_above_log2; [done|]. apply Z.log2_lt_pow2 in Hlt; lia.
  - intros Hb. destruct (decide (z = 0)%Z) as [->|]; [lia|].
    apply Z.log2_lt_pow2; [lia|]. destruct (decide (Z.log2 z < n)%Z) as [|Hge]; [done|].
    specialize (Hb (Z.log2 z) ltac:(lia)). rewrite Z.bit_log2 in Hb; [done|lia].
Qed.

Lemma lxor_range a b n : (0 <= n)%Z -> (0 <= a < 2 ^ n)%Z -> (0 <= b < 2 ^ n)%Z -> (0 <= Z.lxor a b < 2 ^ n)%Z.
Proof.
  intros Hn Ha Hb. assert (0 <= Z.lxor a b)%Z by (apply Z.lxor_nonneg; lia). split; [done|].
  apply lt_pow2_bits; [done..|]. intros i Hi.
  rewrite Z.lxor_spec, (proj1 (lt_pow2_bits a n Hn ltac:(lia))), (proj1 (lt_pow2_bits b n Hn ltac:(lia))); lia || done.
Qed.

Lemma crc_shift_range x : (0 <= crc_shift x < 2 ^ 16)%Z.
Proof.
  unfold crc_shift. pose proof (Z.mod_pos_bound (Z.shiftl x 1) (2 ^ 16) ltac:(lia)).
  destruct (Z.testbit x 15); [apply lxor_range; lia|lia].
Qed.

Lemma xmodem_byte_range crc b : (0 <= xmodem_byte crc b < 2 ^ 16)%Z.
Proof. unfold xmodem_byte. cbn [Nat.iter nat_rect]. apply crc_shift_range. Qed.

(** One table lookup is eight shifts. *)
Lemma crc16_step_xmodem crc b : (0 <= crc < 2 ^ 16)%Z -> crc16_step crc b = Some (xmodem_byte crc b).
Proof.
  intros Hc. pose proof (byte_val_range b) as Hb. unfold crc16_step, xmodem_byte.
  assert (Hsb : (0 <= Z.shiftl (byte_val b) 8 < 2 ^ 16)%Z) by (rewrite Z.shiftl_mul_pow2; lia).
  set (x := Z.lxor crc (Z.shiftl (byte_val b) 8)).
  assert (Hx : (0 <= x < 2 ^ 16)%Z) by (apply lxor_range; lia).
  destruct (table_lookup x Hx) as (t & Ht & ->).
  assert (Ehi : Z.land (Z.lxor (Z.shiftr crc 8) (byte_val b)) 0xff = Z.shiftr x 8).
  { unfold x. rewrite Z.shiftr_lxor, Z.shiftr_shiftl_l by lia. simpl Z.sub. rewrite Z.shiftl_0_r.
    change 255%Z with (Z.ones 8). rewrite Z.land_ones by lia. apply Z.mod_small.
    apply (lxor_range _ _ 8); [lia| |lia].
    rewrite Z.shiftr_div_pow2 by lia. split; [apply Z.div_pos; lia|apply Z.div_lt_upper_bound; lia]. }
  rewrite Ehi, Ht. simpl. f_equal. f_equal. unfold x.
  rewrite Z.shiftl_lxor, Z.shiftl_shiftl by lia. rewrite <- !Z.land_ones by lia.
  apply Z.bits_inj'. intros i Hi. rewrite !Z.land_spec, Z.lxor_spec.
  destruct (decide (i < 16)%Z).
  - rewrite (Z.shiftl_spec (byte_val b)) by lia. rewrite (Z.testbit_neg_r (byte_val b)) by lia.
    by rewrite xorb_false_r.
  - rewrite Z.ones_spec_high by lia. by rewrite !andb_false_r.
Qed.

Lemma crc16_loop_xmodem data crc : (0 <= crc < 2 ^ 16)%Z ->
  crc16_loop crc data = Some (fold_left xmodem_byte data crc).
Proof.
  revert crc. induction data as [|b data IH]; intros crc Hc; simpl; [done|].
  rewrite crc16_step_xmodem by done. simpl. apply IH, xmodem_byte_range.
Qed.

Lemma crc16_hash_xmodem data : crc16_hash data = Some (xmodem data).
Proof. apply crc16_loop_xmodem. lia. Qed.

(** ** Hash tags *)

Lemma find_byte_first c pre post : c ∉ pre -> find_byte c (pre ++ c :: post) = Some (length pre).
Proof.
  induction pre as [|b pre IH]; intros Hn; simpl.
  - by rewrite bool_decide_eq_true_2.
  - rewrite elem_of_cons in Hn. rewrite bool_decide_eq_false_2 by naive_solver. rewrite IH by naive_solver. done.
Qed.

Lemma find_byte_bound c bs i : find_byte c bs = Some i -> i < length bs.
Proof.
  revert i. induction bs as [|b bs IH]; intros i; simpl; [done|]. case_bool_decide; [intros [= <-]; lia|].
  destruct (find_byte c bs) as [j|]; [|done]. intros [= <-]. specialize (IH j eq_refl). lia.
Qed.

Lemma extract_hash_tag_total key : is_Some (extract_hash_tag key).
Proof.
  unfold extract_hash_tag. destruct (find_byte OPEN key) as [o|] eqn:E; [|done].
  apply find_byte_bound in E. rewrite slice_suffix by lia. simpl.
  destruct (find_byte CLOSE _) as [c|] eqn:E2; [|done]. apply find_byte_bound in E2.
  rewrite length_drop in E2. unfold slice. rewrite bool_decide_eq_true_2 by lia. simpl. by case_bool_decide.
Qed.

Lemma extract_hash_tag_inner pre tag post : OPEN ∉ pre -> CLOSE ∉ tag -> tag <> [] ->
  extract_hash_tag (pre ++ OPEN :: tag ++ CLOSE :: post) = Some tag.
Proof.
  intros Hp Ht Hne. unfold extract_hash_tag. rewrite find_byte_first by done.
  rewrite slice_suffix by (rewrite length_app; simpl; lia). mstep.
  assert (Hd : drop (length pre + 1) (pre ++ OPEN :: tag ++ CLOSE :: post) = tag ++ CLOSE :: post).
  { rewrite drop_app_ge by lia. by replace (length pre + 1 - length pre) with 1 by lia. }
  rewrite Hd, find_byte_first by done.
  rewrite (slice_mid _ (pre ++ [OPEN]) tag (CLOSE :: post)).
  - mstep. by rewrite bool_decide_eq_false_2.
  - by rewrite <- app_assoc.
  - rewrite length_app. simpl. lia.
  - lia.
Qed.

Lemma cross_slot_none base keys : (exists r, cross_slot base keys = Some r /\
  (r = None <-> Forall (fun k => keyslot k = Some base) keys)).
Proof.
  assert (T : forall k, exists s, keyslot k = Some s).
  { intros k. unfold keyslot. destruct (extract_hash_tag_total k) as [t ->]. simpl.
    rewrite crc16_hash_xmodem. simpl. eauto. }
  induction keys as [|k keys (r & E & IH)]; simpl; [by exists None|].
  destruct (T k) as [s Hs]. rewrite Hs. simpl. case_bool_decide as H.
  - subst s. exists r. split; [done|]. rewrite IH, Forall_cons. naive_solver.
  - exists (Some (from_utf8_lossy k, s, base)). split; [done|]. rewrite Forall_cons. naive_solver.
Qed.


