(* ===== verification/ListData.v ===== *)
(** * ListData: the dual-encoded list ([list_data.rs])

    A list value is either [Compact], one contiguous buffer of length-prefixed
    elements with head room in front and an offset table, or [Linked], a
    [VecDeque] with a cached payload total.  Pushes promote Compact to Linked
    when a threshold is exceeded, shrinking operations demote back.

    The abstraction relation [repr] relates either encoding to the plain list
    of its elements.  Every operation is shown not to panic and to commute
    with the operation on plain lists ([list_exec_refines]), for every sequence of
    operations and threshold settings, and the 32-bit offsets never wrap. *)

From S2P Require Import Prelude Packing.

(** ** Thresholds *)

Definition LIST_COMPACT_MAX_ENTRIES : nat := 512.
Definition LIST_COMPACT_MAX_SIZE : nat := N.to_nat 8192.
Definition LIST_COMPACT_MAX_ELEM : nat := 256.
Definition LIST_DEMOTE_ENTRIES : nat := 128.

(** The process-wide atomics, as one snapshot.  An operation reads them at
    most once, so each operation takes the snapshot as an argument and two
    operations may see different ones ([CONFIG SET] in between). *)
Record ListThresholds := mkListThresholds {
  max_entries : nat;
  max_size : nat;
  max_elem : nat;
  demote_entries : nat;
}.

Definition default_thresholds : ListThresholds :=
  {| max_entries := LIST_COMPACT_MAX_ENTRIES;
     max_size := LIST_COMPACT_MAX_SIZE;
     max_elem := LIST_COMPACT_MAX_ELEM;
     demote_entries := LIST_DEMOTE_ENTRIES |}.

(** ** The linked encoding *)

Module LinkedList.

Record t := mk { items : list bytes; nbytes : nat }.

Definition with_capacity (n payload : nat) : t := {| items := []; nbytes := payload |}.

Definition from_deque (items : list bytes) : t :=
  {| items := items; nbytes := sum_list_with length items |}.

Definition len (d : t) : nat := length (items d).

Definition push_front (d : t) (v : bytes) : t :=
  {| items := v :: items d; nbytes := nbytes d + length v |}.

Definition push_back (d : t) (v : bytes) : t :=
  {| items := items d ++ [v]; nbytes := nbytes d + length v |}.

(** The subtraction of the byte total is [saturating_sub], as on [nat]. *)
Definition pop_front (d : t) : option bytes * t :=
  match items d with
  | [] => (None, d)
  | v :: vs => (Some v, {| items := vs; nbytes := nbytes d - length v |})
  end.

Definition pop_back (d : t) : option bytes * t :=
  match last (items d) with
  | None => (None, d)
  | Some v => (Some v, {| items := removelast (items d); nbytes := nbytes d - length v |})
  end.

End LinkedList.

(** ** The compact encoding *)

Module CompactList.

Record t := mk {
  buf : bytes;          (* live data is [buf[head..]] *)
  head : nat;
  len : nat;
  nbytes : nat;         (* sum of the element lengths *)
  offsets : list Z;     (* [u32] each; live entries are [off_head .. off_head + len] *)
  off_head : nat;
}.

Definition FRONT_SPARE : nat := 128.
Definition OFF_SPARE : nat := 16.

Definition new : t :=
  {| buf := replicate FRONT_SPARE Byte.x00; head := FRONT_SPARE; len := 0; nbytes := 0;
     offsets := replicate OFF_SPARE 0%Z; off_head := OFF_SPARE |}.

Definition with_capacity (n_elems payload : nat) : t :=
  {| buf := []; head := 0; len := 0; nbytes := 0; offsets := []; off_head := 0 |}.

(** [n as u32]. *)
Definition as_u32 (n : Z) : Z := n mod 2 ^ 32.

Definition off_at (c : t) (i : nat) : may_panic Z := offsets c !! (off_head c + i).

(** The loop [for o in &mut offsets[a..b]] that rewrites each offset with [f]. *)
Definition update_window (f : Z -> may_panic Z) (offs : list Z) (a b : nat) : may_panic (list Z) :=
  w ← slice offs a b;
  w' ← mapM f w;
  Some (take a offs ++ w' ++ drop b offs).

Definition ensure_front_room (c : t) (need : nat) : may_panic t :=
  if bool_decide (need <= head c) then Some c else
  live ← checked_sub (length (buf c)) (head c);
  let spare := max (max (max (need * 8) (live / 2)) 64) need in
  tail ← slice (buf c) (head c) (length (buf c));
  let delta := (Z.of_nat spare - Z.of_nat (head c))%Z in
  offs ← update_window (fun o => Some (as_u32 (o + delta))) (offsets c)
           (off_head c) (off_head c + len c);
  Some {| buf := replicate spare Byte.x00 ++ tail; head := spare; len := len c;
          nbytes := nbytes c; offsets := offs; off_head := off_head c |}.

Definition ensure_off_front_room (c : t) : may_panic t :=
  if bool_decide (0 < off_head c) then Some c else
  let spare := max (len c) 8 in
  w ← slice (offsets c) (off_head c) (off_head c + len c);
  Some {| buf := buf c; head := head c; len := len c; nbytes := nbytes c;
          offsets := replicate spare 0%Z ++ w; off_head := spare |}.

Definition push_back (c : t) (v : bytes) : t :=
  let off := as_u32 (Z.of_nat (length (buf c))) in
  let e := off_head c + len c in
  let offs := if bool_decide (e < length (offsets c)) then take e (offsets c) else offsets c in
  {| buf := buf c ++ le_bytes 4 (Z.of_nat (length v)) ++ v; head := head c; len := len c + 1;
     nbytes := nbytes c + length v; offsets := offs ++ [off]; off_head := off_head c |}.

Definition push_front (c0 : t) (v : bytes) : may_panic t :=
  let insert := 4 + length v in
  c1 ← ensure_front_room c0 insert;
  c ← ensure_off_front_room c1;
  hd ← checked_sub (head c) insert;
  b1 ← overwrite (buf c) hd (le_bytes 4 (Z.of_nat (length v)));
  b2 ← overwrite b1 (hd + 4) v;
  oh ← checked_sub (off_head c) 1;
  offs ← overwrite (offsets c) oh [as_u32 (Z.of_nat hd)];
  Some {| buf := b2; head := hd; len := len c + 1; nbytes := nbytes c + length v;
          offsets := offs; off_head := oh |}.

(** Reclaims the dead prefix of the buffer after a [pop_front]. *)
Definition reclaim_buf (c : t) : may_panic t :=
  if bool_decide (4096 < head c) then
    live ← checked_sub (length (buf c)) (head c);
    if bool_decide (live < head c) then
      new_buf ← slice (buf c) (head c) (length (buf c));
      offs ← update_window
               (fun o => let d := as_u32 (Z.of_nat (head c)) in
                         if bool_decide (d <= o)%Z then Some (o - d)%Z else None)
               (offsets c) (off_head c) (off_head c + len c);
      Some {| buf := new_buf; head := 0; len := len c; nbytes := nbytes c;
              offsets := offs; off_head := off_head c |}
    else Some c
  else Some c.

(** Drops the dead prefix of the offset table. *)
Definition reclaim_offsets (c : t) : may_panic t :=
  if bool_decide (64 < off_head c /\ len c < off_head c) then
    w ← slice (offsets c) (off_head c) (off_head c + len c);
    Some {| buf := buf c; head := head c; len := len c; nbytes := nbytes c;
            offsets := w; off_head := 0 |}
  else Some c.

Definition pop_front (c : t) : may_panic (option bytes * t) :=
  if bool_decide (len c = 0) then Some (None, c) else
  let off := head c in
  n ← read_u32 (buf c) off;
  val ← slice (buf c) (off + 4) (off + 4 + n);
  let drained := 4 + n in
  len' ← checked_sub (len c) 1;
  nb ← checked_sub (nbytes c) n;
  c1 ← reclaim_buf {| buf := buf c; head := head c + drained; len := len'; nbytes := nb;
                      offsets := offsets c; off_head := off_head c + 1 |};
  c2 ← reclaim_offsets c1;
  Some (Some val, c2).

Definition pop_back (c : t) : may_panic (option bytes * t) :=
  if bool_decide (len c = 0) then Some (None, c) else
  last_off ← off_at c (len c - 1);
  let last_start := Z.to_nat last_off in
  last_n ← read_u32 (buf c) last_start;
  val ← slice (buf c) (last_start + 4) (last_start + 4 + last_n);
  nb ← checked_sub (nbytes c) last_n;
  Some (Some val,
        {| buf := take last_start (buf c); head := head c; len := len c - 1; nbytes := nb;
           offsets := take (off_head c + len c - 1) (offsets c); off_head := off_head c |}).

Definition get (c : t) (i : nat) : may_panic (option bytes) :=
  if bool_decide (len c <= i) then Some None else
  o ← off_at c i;
  let off := Z.to_nat o in
  n ← read_u32 (buf c) off;
  v ← slice (buf c) (off + 4) (off + 4 + n);
  Some (Some v).

(** [range_iter] with its iterator run to the end. *)
Definition range_iter (c : t) (start stop : nat) : may_panic (list bytes) :=
  o ← off_at c start;
  k ← checked_sub stop start;
  walk (buf c) (Z.to_nat o) (k + 1).

Definition range_bytes (c : t) (start stop : nat) : may_panic (list bytes) :=
  range_iter c start stop.

Definition range_region (c : t) (start stop : nat) : may_panic bytes :=
  o1 ← off_at c start;
  o2 ← off_at c stop;
  let begin := Z.to_nat o1 in
  let end_off := Z.to_nat o2 in
  end_n ← read_u32 (buf c) end_off;
  slice (buf c) begin (end_off + 4 + end_n).

Record RangeSnap := mkSnap { s_buf : bytes; s_begin : nat; s_end : nat; s_count : nat; s_need : nat }.

Definition range_snap (c : t) (start stop : nat) : may_panic RangeSnap :=
  o1 ← off_at c start;
  o2 ← off_at c stop;
  let begin := Z.to_nat o1 in
  let end_off := Z.to_nat o2 in
  end_n ← read_u32 (buf c) end_off;
  let e := end_off + 4 + end_n in
  k ← checked_sub stop start;
  let count := k + 1 in
  region_len ← checked_sub e begin;
  let payload := region_len - count * 4 in
  let need := 16 + count * 12 + payload in
  Some {| s_buf := buf c; s_begin := begin; s_end := e; s_count := count; s_need := need |}.

Definition range_resp_need (c : t) (start stop : nat) : may_panic nat :=
  k ← checked_sub stop start;
  let count := k + 1 in
  o1 ← off_at c start;
  o2 ← off_at c stop;
  let begin := Z.to_nat o1 in
  let end_off := Z.to_nat o2 in
  end_n ← read_u32 (buf c) end_off;
  region_len ← checked_sub (end_off + 4 + end_n) begin;
  let payload := region_len - count * 4 in
  Some (16 + count * 12 + payload).

Definition iter_elements (c : t) : may_panic (list bytes) :=
  o ← (if bool_decide (len c = 0) then Some (Z.of_nat (head c)) else off_at c 0);
  walk (buf c) (Z.to_nat o) (len c).

End CompactList.

(** ** The dual encoding *)

Inductive ListData :=
  | Compact (c : CompactList.t)
  | Linked (d : LinkedList.t).

Definition new : ListData := Compact CompactList.new.

Definition from_linked (d : list bytes) : ListData := Linked (LinkedList.from_deque d).

Definition len (l : ListData) : nat :=
  match l with
  | Compact c => CompactList.len c
  | Linked d => LinkedList.len d
  end.

Definition is_empty (l : ListData) : bool := bool_decide (len l = 0).

Definition encoding_name (l : ListData) : string :=
  match l with
  | Compact _ => "listpack"
  | Linked _ => "linkedlist"
  end.

Definition payload_bytes (l : ListData) : nat :=
  match l with
  | Compact c => CompactList.nbytes c
  | Linked d => LinkedList.nbytes d
  end.

Definition ensure_linked (l : ListData) : may_panic LinkedList.t :=
  match l with
  | Linked d => Some d
  | Compact c =>
      es ← CompactList.iter_elements c;
      let d := fold_left LinkedList.push_back es
                 (LinkedList.with_capacity (CompactList.len c + CompactList.len c / 2 + 16) 0) in
      Some {| LinkedList.items := LinkedList.items d; LinkedList.nbytes := CompactList.nbytes c |}
  end.

(** The loop of [maybe_demote] that stops at the first oversized element or
    once the running total passes [max_size]. *)
Fixpoint demote_fits (thr : ListThresholds) (total : nat) (es : list bytes) : option nat :=
  match es with
  | [] => Some total
  | e :: es =>
      if bool_decide (max_elem thr < length e) then None
      else if bool_decide (max_size thr < total + length e) then None
      else demote_fits thr (total + length e) es
  end.

Definition maybe_demote (thr : ListThresholds) (l : ListData) : ListData :=
  match l with
  | Compact _ => l
  | Linked d =>
      if bool_decide (demote_entries thr < LinkedList.len d) then l
      else match demote_fits thr 0 (LinkedList.items d) with
           | None => l
           | Some total =>
               Compact (fold_left CompactList.push_back (LinkedList.items d)
                          (CompactList.with_capacity (LinkedList.len d) total))
           end
  end.

Definition should_promote_after_push (thr : ListThresholds) (l : ListData) (elem_len : nat) : bool :=
  match l with
  | Linked _ => false
  | Compact c =>
      bool_decide (max_elem thr < elem_len)
      || bool_decide (max_entries thr < CompactList.len c + 1)
      || bool_decide (max_size thr < CompactList.nbytes c + elem_len)
  end.

Definition push_front (thr : ListThresholds) (l : ListData) (v : bytes) : may_panic ListData :=
  match l with
  | Linked d => Some (Linked (LinkedList.push_front d v))
  | Compact c =>
      if should_promote_after_push thr l (length v) then
        d ← ensure_linked l;
        Some (Linked (LinkedList.push_front d v))
      else
        c' ← CompactList.push_front c v;
        Some (Compact c')
  end.

Definition push_back (thr : ListThresholds) (l : ListData) (v : bytes) : may_panic ListData :=
  match l with
  | Linked d => Some (Linked (LinkedList.push_back d v))
  | Compact c =>
      if should_promote_after_push thr l (length v) then
        d ← ensure_linked l;
        Some (Linked (LinkedList.push_back d v))
      else Some (Compact (CompactList.push_back c v))
  end.

Definition demote_if_popped (thr : ListThresholds) (v : option bytes) (l : ListData) : ListData :=
  match v with
  | Some _ => maybe_demote thr l
  | None => l
  end.

Definition pop_front (thr : ListThresholds) (l : ListData) : may_panic (option bytes * ListData) :=
  '(v, l') ← match l with
             | Compact c => '(v, c') ← CompactList.pop_front c; Some (v, Compact c')
             | Linked d => let '(v, d') := LinkedList.pop_front d in Some (v, Linked d')
             end;
  Some (v, demote_if_popped thr v l').

Definition pop_back (thr : ListThresholds) (l : ListData) : may_panic (option bytes * ListData) :=
  '(v, l') ← match l with
             | Compact c => '(v, c') ← CompactList.pop_back c; Some (v, Compact c')
             | Linked d => let '(v, d') := LinkedList.pop_back d in Some (v, Linked d')
             end;
  Some (v, demote_if_popped thr v l').

Definition get (l : ListData) (i : nat) : may_panic (option bytes) :=
  match l with
  | Compact c => CompactList.get c i
  | Linked d => Some (LinkedList.items d !! i)
  end.

Definition set (l : ListData) (i : nat) (v : bytes) : may_panic (bool * Z * ListData) :=
  d ← ensure_linked l;
  match LinkedList.items d !! i with
  | Some old =>
      Some (true, (Z.of_nat (length v) - Z.of_nat (length old))%Z,
            Linked {| LinkedList.items := <[i := v]> (LinkedList.items d);
                      LinkedList.nbytes := LinkedList.nbytes d - length old + length v |})
  | None => Some (false, 0%Z, Linked d)
  end.

(** [items.iter().position(|x| x == pivot)]. *)
Definition position (pivot : bytes) (es : list bytes) : option nat :=
  fst <$> list_find (eq pivot) es.

(** [VecDeque::insert(pos, v)]. *)
Definition insert_at (pos : nat) (v : bytes) (es : list bytes) : list bytes :=
  take pos es ++ v :: drop pos es.

Definition insert_rel (shift : nat) (l : ListData) (pivot v : bytes)
  : may_panic (option nat * ListData) :=
  d ← ensure_linked l;
  match position pivot (LinkedList.items d) with
  | Some pos =>
      let d' := {| LinkedList.items := insert_at (pos + shift) v (LinkedList.items d);
                   LinkedList.nbytes := LinkedList.nbytes d + length v |} in
      Some (Some (LinkedList.len d'), Linked d')
  | None => Some (None, Linked d)
  end.

Definition insert_before := insert_rel 0.
Definition insert_after := insert_rel 1.

(** One pass of [rem]: drops up to [left] occurrences (all when [left] is
    [None]); returns the kept elements in visiting order, their byte total and
    the number dropped. *)
Fixpoint rem_pass (left : option Z) (elem : bytes) (es : list bytes) : list bytes * nat * nat :=
  match es with
  | [] => ([], 0, 0)
  | x :: es =>
      let hit := match left with
                 | None => bool_decide (x = elem)
                 | Some n => bool_decide (0 < n)%Z && bool_decide (x = elem)
                 end in
      if hit then
        let '(kept, nb, removed) := rem_pass (Z.pred <$> left) elem es in
        (kept, nb, S removed)
      else
        let '(kept, nb, removed) := rem_pass left elem es in
        (x :: kept, length x + nb, removed)
  end.

(** The three directions of [rem]: all occurrences, head to tail, tail to head. *)
Definition rem_keep (count : Z) (elem : bytes) (es : list bytes) : list bytes * nat * nat :=
  if bool_decide (count = 0)%Z then rem_pass None elem es
  else if bool_decide (0 < count)%Z then rem_pass (Some count) elem es
  else let '(kept, nb, removed) := rem_pass (Some (Z.abs count)) elem (reverse es) in
       (reverse kept, nb, removed).

Definition rem (thr : ListThresholds) (l : ListData) (count : Z) (elem : bytes)
  : may_panic (nat * Z * ListData) :=
  d ← ensure_linked l;
  let '(keep, nb, removed) := rem_keep count elem (LinkedList.items d) in
  let l' := Linked {| LinkedList.items := keep; LinkedList.nbytes := nb |} in
  Some (removed, (- Z.of_nat (removed * length elem))%Z,
        if bool_decide (0 < removed) then maybe_demote thr l' else l').

(** [while d.len() > keep { d.pop_back() }], with the dropped payload; [None]
    when the fuel runs out. *)
Fixpoint trim_tail (fuel : nat) (d : LinkedList.t) (keep : nat) (dropped : nat)
  : option (LinkedList.t * nat) :=
  if bool_decide (keep < LinkedList.len d) then
    match fuel with
    | 0 => None
    | S fuel =>
        let '(v, d') := LinkedList.pop_back d in
        trim_tail fuel d' keep (dropped + match v with Some v => length v | None => 0 end)
    end
  else Some (d, dropped).

(** [for _ in 0..start { d.pop_front() }]. *)
Fixpoint trim_head (start : nat) (d : LinkedList.t) (dropped : nat) : LinkedList.t * nat :=
  match start with
  | 0 => (d, dropped)
  | S n =>
      let '(v, d') := LinkedList.pop_front d in
      trim_head n d' (dropped + match v with Some v => length v | None => 0 end)
  end.

Definition trim (thr : ListThresholds) (l : ListData) (start stop : nat) : may_panic (Z * ListData) :=
  d ← ensure_linked l;
  if bool_decide (LinkedList.len d <= start \/ stop < start) then
    Some ((- Z.of_nat (LinkedList.nbytes d))%Z,
          maybe_demote thr (Linked {| LinkedList.items := []; LinkedList.nbytes := 0 |}))
  else
    let stop := min stop (LinkedList.len d - 1) in
    '(d1, n1) ← trim_tail (LinkedList.len d) d (stop + 1) 0;
    let '(d2, n2) := trim_head start d1 n1 in
    Some ((- Z.of_nat n2)%Z, maybe_demote thr (Linked d2)).

Definition range_bytes (l : ListData) (start stop : nat) : may_panic (list bytes) :=
  if is_empty l || bool_decide (stop < start) then Some [] else
  let stop := min stop (len l - 1) in
  if bool_decide (len l <= start) then Some [] else
  match l with
  | Compact c => CompactList.range_bytes c start stop
  | Linked d => slice (LinkedList.items d) start (stop + 1)
  end.

Definition to_vec_bytes (l : ListData) : may_panic (list bytes) :=
  match l with
  | Compact c => CompactList.iter_elements c
  | Linked d => Some (LinkedList.items d)
  end.

Definition iter_lens (l : ListData) : may_panic (list nat) :=
  match l with
  | Compact c => es ← CompactList.iter_elements c; Some (map length es)
  | Linked d => Some (map length (LinkedList.items d))
  end.

(** ** Abstraction of the compact encoding *)

(** The offsets of consecutive frames, the first at [h]. *)
Fixpoint offs (h : nat) (xs : list bytes) : list Z :=
  match xs with
  | [] => []
  | x :: xs => Z.of_nat h :: offs (h + length (frame x)) xs
  end.

(** Sizes that keep every offset of the table below [2 ^ 32]. *)
Definition LIVE_CAP : Z := 2 ^ 29.
Definition HEAD_CAP : Z := 2 ^ 29 + 32.

(** [hcap] bounds the head room; it is [HEAD_CAP] except inside [pop_front],
    between the removal of the element and the reclaiming of its bytes. *)
Record crepr_at (hcap : Z) (c : CompactList.t) (xs : list bytes) : Prop := mk_crepr {
  cr_head : CompactList.head c <= length (CompactList.buf c);
  cr_live : drop (CompactList.head c) (CompactList.buf c) = frames xs;
  cr_len : CompactList.len c = length xs;
  cr_bytes : CompactList.nbytes c = total_len xs;
  cr_offs : slice (CompactList.offsets c) (CompactList.off_head c)
              (CompactList.off_head c + CompactList.len c)
            = Some (offs (CompactList.head c) xs);
  cr_head_cap : (Z.of_nat (CompactList.head c) <= hcap)%Z;
  cr_live_cap : (Z.of_nat (length (frames xs)) <= LIVE_CAP)%Z;
}.
#[global] Arguments cr_head {_ _ _}.
#[global] Arguments cr_live {_ _ _}.
#[global] Arguments cr_len {_ _ _}.
#[global] Arguments cr_bytes {_ _ _}.
#[global] Arguments cr_offs {_ _ _}.
#[global] Arguments cr_head_cap {_ _ _}.
#[global] Arguments cr_live_cap {_ _ _}.

Abbreviation crepr := (crepr_at HEAD_CAP).

Lemma length_offs h xs : length (offs h xs) = length xs.
Proof. revert h. induction xs; intros; simpl; auto. Qed.
#[export] Hint Rewrite length_offs : lengths.

Lemma offs_lookup h xs i x : xs !! i = Some x ->
  offs h xs !! i = Some (Z.of_nat (h + length (frames (take i xs)))).
Proof.
  revert h i. induction xs as [|y xs IH]; intros h [|i] Hi; simplify_eq/=.
  - by rewrite Nat.add_0_r.
  - rewrite (IH _ _ Hi), frames_cons, length_app. do 2 f_equal. lia.
Qed.

Lemma offs_app h xs ys : offs h (xs ++ ys) = offs h xs ++ offs (h + length (frames xs)) ys.
Proof.
  revert h. induction xs as [|x xs IH]; intros h; simpl; [by rewrite Nat.add_0_r|].
  rewrite IH, frames_cons, length_app. do 3 f_equal. lia.
Qed.

(** Moving the whole window by a constant. *)
Lemma offs_shift h h' xs : map (fun o => (o + (Z.of_nat h' - Z.of_nat h))%Z) (offs h xs) = offs h' xs.
Proof.
  revert h h'. induction xs as [|x xs IH]; intros; simpl; [done|].
  f_equal; [lia|]. rewrite <- (IH (h + length (frame x)) (h' + length (frame x))).
  apply map_ext. intros. lia.
Qed.

Lemma offs_bound h xs o : o ∈ offs h xs ->
  (Z.of_nat h <= o <= Z.of_nat (h + length (frames xs)))%Z.
Proof.
  revert h. induction xs as [|x xs IH]; intros h; simpl; [set_solver|].
  rewrite elem_of_cons, frames_cons, length_app. intros [->|Ho%IH]; lia.
Qed.

Section CompactFacts.
Context {hcap : Z} (c : CompactList.t) (xs : list bytes) (R : crepr_at hcap c xs).

Lemma crepr_buf : CompactList.buf c = take (CompactList.head c) (CompactList.buf c) ++ frames xs.
Proof using R. rewrite <- (cr_live R). by rewrite take_drop. Qed.

Lemma crepr_buf_length :
  length (CompactList.buf c) = CompactList.head c + length (frames xs).
Proof using R. destruct R. rewrite <- cr_live0, length_drop. lia. Qed.

Lemma crepr_sized : Forall u32_sized xs.
Proof using R.
  destruct R. apply Forall_forall. intros x Hx. unfold u32_sized, LIVE_CAP in *.
  apply list_elem_of_split in Hx as (a & b & ->).
  rewrite frames_app, frames_cons in cr_live_cap0. len.
Qed.

(** The buffer around element [i]. *)
Lemma crepr_split i x : xs !! i = Some x ->
  CompactList.buf c =
    (take (CompactList.head c) (CompactList.buf c) ++ frames (take i xs)) ++
    frame x ++ frames (drop (S i) xs).
Proof using R.
  intros Hi. rewrite crepr_buf at 1. rewrite <- app_assoc. f_equal.
  rewrite <- (take_drop_middle xs i x Hi) at 1.
  by rewrite frames_app, frames_cons.
Qed.

Lemma crepr_off_at i x : xs !! i = Some x ->
  CompactList.off_at c i = Some (Z.of_nat (CompactList.head c + length (frames (take i xs)))).
Proof using R.
  intros Hi. unfold CompactList.off_at.
  pose proof (lookup_lt_Some _ _ _ Hi) as Hlt. destruct R.
  pose proof (slice_drop _ _ _ _ cr_offs0) as Hd.
  rewrite <- lookup_drop, Hd, lookup_app_l by len.
  by eapply offs_lookup.
Qed.

(** The prefix of the buffer up to element [i] has the length the table says. *)
Lemma crepr_prefix_length i :
  length (take (CompactList.head c) (CompactList.buf c) ++ frames (take i xs)) =
  CompactList.head c + length (frames (take i xs)).
Proof using R. pose proof (cr_head R). rewrite length_app, length_take. lia. Qed.

Lemma crepr_read i x : xs !! i = Some x ->
  let off := CompactList.head c + length (frames (take i xs)) in
  read_u32 (CompactList.buf c) off = Some (length x) /\
  slice (CompactList.buf c) (off + 4) (off + 4 + length x) = Some x.
Proof using R.
  intros Hi off. unfold off. rewrite <- crepr_prefix_length. split.
  - eapply read_u32_frame; [by apply crepr_split|done|].
    eapply (Forall_lookup_1 _ _ _ _ crepr_sized Hi).
  - eapply slice_frame; [by apply crepr_split|done|done].
Qed.

Lemma compact_get i : CompactList.get c i = Some (xs !! i).
Proof using R.
  unfold CompactList.get. rewrite (cr_len R).
  case_bool_decide; [by rewrite lookup_ge_None_2|].
  destruct (lookup_lt_is_Some_2 xs i) as [x Hi]; [lia|].
  rewrite (crepr_off_at i x Hi). simpl. rewrite Nat2Z.id.
  destruct (crepr_read i x Hi) as [-> E]. simpl. by rewrite E, Hi.
Qed.

Lemma compact_walk_from start n : start + n <= length xs -> 0 < n ->
  (o ← CompactList.off_at c start; walk (CompactList.buf c) (Z.to_nat o) n)
  = Some (take n (drop start xs)).
Proof using R.
  intros Hn Hpos.
  destruct (lookup_lt_is_Some_2 xs start) as [x Hx]; [lia|].
  rewrite (crepr_off_at start x Hx). simpl. rewrite Nat2Z.id, <- crepr_prefix_length.
  replace n with (length (take n (drop start xs))) at 1 by len.
  apply (walk_frames _ _ _ (frames (drop (start + n) xs))).
  - rewrite <- !app_assoc, crepr_buf at 1. f_equal.
    rewrite <- (take_drop start xs) at 1. rewrite frames_app. f_equal.
    rewrite <- (take_drop n (drop start xs)) at 1. by rewrite frames_app, drop_drop.
  - apply Forall_take, Forall_drop, crepr_sized.
Qed.

Lemma compact_iter_elements : CompactList.iter_elements c = Some xs.
Proof using R.
  unfold CompactList.iter_elements. rewrite (cr_len R).
  case_bool_decide as E; [by destruct xs|].
  rewrite (compact_walk_from 0 (length xs)) by lia. by rewrite drop_0, firstn_all.
Qed.

Lemma compact_range_bytes start stop : start <= stop -> stop < length xs ->
  CompactList.range_bytes c start stop = Some (take (stop + 1 - start) (drop start xs)).
Proof using R.
  intros ??. unfold CompactList.range_bytes, CompactList.range_iter.
  rewrite checked_sub_ok by done. simpl.
  rewrite (compact_walk_from start (stop - start + 1)) by lia. do 2 f_equal. lia.
Qed.

End CompactFacts.

(** ** Updates of the compact encoding *)

Lemma list_crepr_new : crepr CompactList.new [].
Proof. split; try done; unfold HEAD_CAP, LIVE_CAP; vm_compute; done. Qed.

Lemma crepr_with_capacity n p : crepr (CompactList.with_capacity n p) [].
Proof. split; try done; unfold HEAD_CAP, LIVE_CAP; vm_compute; done. Qed.

(** The live window of the offset table, as a decomposition of the table. *)
Lemma crepr_offsets {hcap} c xs : crepr_at hcap c xs ->
  CompactList.offsets c =
    take (CompactList.off_head c) (CompactList.offsets c) ++ offs (CompactList.head c) xs ++
    drop (CompactList.off_head c + CompactList.len c) (CompactList.offsets c) /\
  CompactList.off_head c + length xs <= length (CompactList.offsets c).
Proof.
  intros R. pose proof (cr_offs R) as Ho. pose proof (slice_length _ _ _ _ Ho) as [_ Hr].
  rewrite <- (slice_drop _ _ _ _ Ho), take_drop. rewrite (cr_len R) in Hr. split; [done|lia].
Qed.

(** Building the window clause from a decomposition of the table. *)
Lemma window_intro (l pre mid post : list Z) a n :
  l = pre ++ mid ++ post -> a = length pre -> n = length mid -> slice l a (a + n) = Some mid.
Proof. intros. subst n. by eapply slice_mid. Qed.

Lemma as_u32_small n : (0 <= n < 2 ^ 32)%Z -> CompactList.as_u32 n = n.
Proof. intros. by apply Z.mod_small. Qed.

Lemma crepr_push_back c xs v : crepr c xs ->
  (Z.of_nat (length (frames (xs ++ [v]))) <= LIVE_CAP)%Z ->
  crepr (CompactList.push_back c v) (xs ++ [v]).
Proof.
  intros R Hcap. pose proof (crepr_buf_length _ _ R) as Hbl.
  destruct (crepr_offsets _ _ R) as [Ho Hol].
  pose proof R as [Hh Hl Hlen Hb Hw Hhc Hlc]. unfold CompactList.push_back.
  split; simpl; try done.
  - len.
  - rewrite drop_app_le, Hl, frames_app by done. f_equal.
    by rewrite frames_one, frame_eq.
  - rewrite length_app. simpl. lia.
  - rewrite total_len_app, Hb. unfold total_len. simpl. lia.
  - match goal with |- slice (?tbl ++ _) _ _ = _ =>
      assert (tbl = take (CompactList.off_head c) (CompactList.offsets c) ++
                    offs (CompactList.head c) xs) as ->
    end.
    { rewrite Hlen in *. case_bool_decide as E.
      - rewrite Ho at 1. rewrite app_assoc. apply take_app_length'. len.
      - rewrite Ho at 1. rewrite (drop_ge (CompactList.offsets c)) by lia.
        by rewrite app_nil_r. }
    apply (window_intro _ (take (CompactList.off_head c) (CompactList.offsets c)) _ []).
    + rewrite offs_app. simpl. rewrite app_nil_r, <- app_assoc. do 3 f_equal.
      unfold HEAD_CAP, LIVE_CAP in *. rewrite as_u32_small; [f_equal|]; lia.
    + rewrite length_take. lia.
    + len.
Qed.

Lemma mapM_offs_shift (f : Z -> option Z) h h' xs :
  (forall o, o ∈ offs h xs -> f o = Some (o + (Z.of_nat h' - Z.of_nat h))%Z) ->
  mapM f (offs h xs) = Some (offs h' xs).
Proof.
  intros Hf. rewrite <- (offs_shift h h'). apply mapM_Some_2, Forall2_fmap_r.
  apply Forall2_same_length_lookup_2; [done|].
  intros i x y Hx Hy. rewrite Hx in Hy. simplify_eq. apply Hf. by eapply list_elem_of_lookup_2.
Qed.

(** Rewriting the live window of the table for a buffer moved to [h']. *)
Lemma update_window_offs {hcap} (f : Z -> option Z) c xs h' : crepr_at hcap c xs ->
  (forall o, o ∈ offs (CompactList.head c) xs ->
     f o = Some (o + (Z.of_nat h' - Z.of_nat (CompactList.head c)))%Z) ->
  exists tbl,
    CompactList.update_window f (CompactList.offsets c) (CompactList.off_head c)
      (CompactList.off_head c + CompactList.len c) = Some tbl /\
    slice tbl (CompactList.off_head c) (CompactList.off_head c + CompactList.len c)
      = Some (offs h' xs).
Proof.
  intros R Hf. destruct (crepr_offsets _ _ R) as [_ Hol]. pose proof (cr_len R) as Hlen.
  unfold CompactList.update_window. rewrite (cr_offs R). simpl.
  rewrite (mapM_offs_shift f _ h') by done. simpl. eexists. split; [done|].
  eapply window_intro; [done|rewrite length_take; lia|len].
Qed.

Lemma crepr_ensure_front_room c xs need : crepr c xs -> (Z.of_nat need <= 2 ^ 26 + 4)%Z ->
  exists c', CompactList.ensure_front_room c need = Some c' /\ crepr c' xs /\
             need <= CompactList.head c'.
Proof.
  intros R Hneed. unfold CompactList.ensure_front_room.
  case_bool_decide as E; [by eauto|].
  pose proof (crepr_buf_length _ _ R) as Hbl. pose proof (cr_head R).
  rewrite checked_sub_ok by lia. mstep. rewrite slice_suffix by lia. mstep.
  rewrite (cr_live R).
  set (live := length (CompactList.buf c) - CompactList.head c).
  set (spare := max (max (max (need * 8) (live / 2)) 64) need).
  assert (need <= spare /\ (Z.of_nat spare <= HEAD_CAP)%Z) as [Hsp Hsc].
  { pose proof (cr_live_cap R). unfold spare, HEAD_CAP, LIVE_CAP in *.
    assert (live = length (frames xs)) by (unfold live; lia).
    pose proof (Nat.Div0.div_le_upper_bound live 2 live ltac:(lia)). lia. }
  destruct (update_window_offs
    (fun o => Some (CompactList.as_u32 (o + (Z.of_nat spare - Z.of_nat (CompactList.head c)))))
    c xs spare R) as (tbl & -> & Htbl).
  { intros o Ho%offs_bound. f_equal. apply as_u32_small.
    pose proof (cr_live_cap R). unfold HEAD_CAP, LIVE_CAP in *. lia. }
  simpl. eexists. split; [done|]. split; [|simpl; lia].
  pose proof R as [Hh Hl Hlen Hb Hw Hhc Hlc].
  split; simpl; try done.
  - len.
  - rewrite drop_app_length'; [done|]. by rewrite length_replicate.
Qed.

Lemma crepr_ensure_off_front_room c xs : crepr c xs ->
  exists c', CompactList.ensure_off_front_room c = Some c' /\ crepr c' xs /\
             CompactList.head c' = CompactList.head c /\ 0 < CompactList.off_head c'.
Proof.
  intros R. unfold CompactList.ensure_off_front_room.
  case_bool_decide as E; [by eauto|].
  rewrite (cr_offs R). simpl. eexists. split; [done|].
  pose proof R as [Hh Hl Hlen Hb Hw Hhc Hlc].
  split; [|simpl; lia]. split; simpl; try done.
  apply (window_intro _ (replicate (CompactList.len c `max` 8) 0%Z) _ []).
  - by rewrite app_nil_r.
  - by rewrite length_replicate.
  - len.
Qed.

Lemma crepr_push_front c xs v : crepr c xs ->
  (Z.of_nat (length (frames (v :: xs))) <= LIVE_CAP)%Z -> (Z.of_nat (length v) <= 2 ^ 26)%Z ->
  exists c', CompactList.push_front c v = Some c' /\ crepr c' (v :: xs).
Proof.
  intros R0 Hcap Hv. unfold CompactList.push_front.
  destruct (crepr_ensure_front_room c xs (4 + length v) R0) as (c1 & -> & R1 & Hroom); [lia|].
  mstep. destruct (crepr_ensure_off_front_room c1 xs R1) as (c2 & -> & R & Hhd & Hoff).
  mstep. rewrite <- Hhd in Hroom. clear c c1 R0 R1 Hhd. rename c2 into c.
  pose proof (crepr_buf _ _ R) as Hbuf. destruct (crepr_offsets _ _ R) as [Ho Hol].
  pose proof R as [Hh Hl Hlen Hb Hw Hhc Hlc].
  rewrite (checked_sub_ok (CompactList.head c)) by lia. mstep.
  set (hd := CompactList.head c - (4 + length v)).
  (* the buffer splits into what stays, the gap for the new element, and the live data *)
  set (keep := take hd (CompactList.buf c)).
  assert (exists g1 g2, CompactList.buf c = keep ++ g1 ++ g2 ++ frames xs /\
                        length g1 = 4 /\ length g2 = length v) as (g1 & g2 & Hsp & Hg1 & Hg2).
  { exists (take 4 (drop hd (CompactList.buf c))),
           (take (length v) (drop (hd + 4) (CompactList.buf c))).
    assert (hd + 4 + length v = CompactList.head c) by (unfold hd; lia).
    rewrite !length_take, !length_drop. split; [|lia].
    rewrite <- Hl. unfold keep. rewrite <- (take_drop hd (CompactList.buf c)) at 1. f_equal.
    rewrite (drop_split_app _ hd (hd + 4)) at 1 by lia.
    replace (hd + 4 - hd) with 4 by lia. f_equal.
    rewrite (drop_split_app _ (hd + 4) (CompactList.head c)) at 1 by lia.
    do 2 f_equal. lia. }
  assert (length keep = hd) as Hk by (unfold keep, hd; rewrite length_take; lia).
  rewrite (overwrite_mid _ keep g1 (g2 ++ frames xs)); [|done|done|by rewrite length_le_bytes].
  mstep.
  rewrite (overwrite_mid _ (keep ++ le_bytes 4 (Z.of_nat (length v))) g2 (frames xs));
    [|by rewrite <- !app_assoc|len|done].
  mstep. rewrite checked_sub_ok by lia. mstep.
  assert (exists o, CompactList.offsets c = take (CompactList.off_head c - 1) (CompactList.offsets c)
            ++ [o] ++ drop (CompactList.off_head c) (CompactList.offsets c)) as [o Hot].
  { destruct (lookup_lt_is_Some_2 (CompactList.offsets c) (CompactList.off_head c - 1)) as [o Hin];
      [lia|]. exists o. rewrite <- (take_drop_middle _ _ _ Hin) at 1. simpl. do 3 f_equal. lia. }
  rewrite (overwrite_mid _ _ _ _ _ _ Hot); [|rewrite length_take; lia|done].
  mstep. eexists. split; [done|].
  split; simpl; try done.
  - len.
  - rewrite <- !app_assoc, drop_app_length' by done.
    by rewrite frames_cons, frame_eq, <- app_assoc.
  - lia.
  - rewrite total_len_cons. lia.
  - apply (window_intro _ (take (CompactList.off_head c - 1) (CompactList.offsets c)) _
             (drop (CompactList.off_head c + CompactList.len c) (CompactList.offsets c))).
    + f_equal. simpl. rewrite as_u32_small by (unfold HEAD_CAP in *; lia). f_equal.
      rewrite (slice_drop _ _ _ _ Hw). f_equal. f_equal. rewrite length_frame. unfold hd. lia.
    + rewrite length_take. lia.
    + simpl. rewrite length_offs. lia.
  - lia.
Qed.

Lemma crepr_reclaim_buf c xs : crepr_at (2 ^ 31) c xs ->
  exists c', CompactList.reclaim_buf c = Some c' /\ crepr c' xs.
Proof.
  intros R. pose proof (crepr_buf_length _ _ R) as Hbl.
  pose proof R as [Hh Hl Hlen Hb Hw Hhc Hlc]. unfold CompactList.reclaim_buf.
  assert (forall h, (Z.of_nat (CompactList.head c) <= h)%Z -> crepr_at h c xs) as Hkeep.
  { intros h Hhh. by split. }
  case_bool_decide as E1; [|eexists; split; [done|apply Hkeep; unfold HEAD_CAP; lia]].
  rewrite checked_sub_ok by lia. mstep.
  case_bool_decide as E2;
    [|eexists; split; [done|apply Hkeep; unfold HEAD_CAP, LIVE_CAP in *; lia]].
  rewrite slice_suffix by lia. mstep. rewrite Hl.
  match goal with |- context [CompactList.update_window ?f _ _ _] =>
    destruct (update_window_offs f c xs 0 R) as (tbl & -> & Htbl)
  end.
  { intros o Ho%offs_bound. rewrite as_u32_small by lia.
    rewrite bool_decide_eq_true_2 by lia. f_equal; lia. }
  mstep. eexists. split; [done|]. split; simpl; try done; unfold HEAD_CAP; lia.
Qed.

Lemma crepr_reclaim_offsets c xs : crepr c xs ->
  exists c', CompactList.reclaim_offsets c = Some c' /\ crepr c' xs.
Proof.
  intros R. pose proof R as [Hh Hl Hlen Hb Hw Hhc Hlc].
  unfold CompactList.reclaim_offsets. case_bool_decide; [|by eauto].
  rewrite Hw. mstep. eexists. split; [done|]. split; simpl; try done.
  apply (slice_mid _ [] _ []); [by rewrite app_nil_r|done|len].
Qed.

(** The state of [pop_front] before it reclaims space. *)
Lemma crepr_drop_front c x xs : crepr c (x :: xs) ->
  crepr_at (2 ^ 31)
    (CompactList.mk (CompactList.buf c) (CompactList.head c + (4 + length x))
       (CompactList.len c - 1) (CompactList.nbytes c - length x)
       (CompactList.offsets c) (CompactList.off_head c + 1)) xs.
Proof.
  intros R. pose proof (crepr_buf_length _ _ R) as Hbl.
  pose proof R as [Hh Hl Hlen Hb Hw Hhc Hlc]. rewrite length_cons in Hlen.
  rewrite frames_cons in Hlc, Hl, Hbl. rewrite length_app, length_frame in Hlc, Hbl.
  rewrite total_len_cons in Hb. unfold HEAD_CAP, LIVE_CAP in *.
  split; cbn [CompactList.buf CompactList.head CompactList.len CompactList.nbytes
              CompactList.offsets CompactList.off_head];
    [lia| |lia|lia| |lia|unfold LIVE_CAP; lia].
  - rewrite <- drop_drop, Hl. apply drop_app_length'. by rewrite length_frame.
  - apply (slice_tail _ _ _ (Z.of_nat (CompactList.head c))).
    replace (S (CompactList.len c - 1)) with (CompactList.len c) by lia.
    rewrite Hw. cbn [offs]. by rewrite length_frame.
Qed.

Lemma crepr_pop_front c x xs : crepr c (x :: xs) ->
  exists c', CompactList.pop_front c = Some (Some x, c') /\ crepr c' xs.
Proof.
  intros R. pose proof (cr_len R) as Hlen. rewrite length_cons in Hlen.
  pose proof (cr_bytes R) as Hb. rewrite total_len_cons in Hb.
  unfold CompactList.pop_front. rewrite bool_decide_eq_false_2 by lia.
  destruct (crepr_read _ _ R 0 x) as [Hr Hs]; [done|].
  rewrite take_0, frames_nil, length_nil, Nat.add_0_r in Hr, Hs.
  rewrite Hr. mstep. rewrite Hs. mstep.
  rewrite (checked_sub_ok (CompactList.len c)) by lia. mstep.
  rewrite (checked_sub_ok (CompactList.nbytes c)) by lia. mstep.
  destruct (crepr_reclaim_buf _ _ (crepr_drop_front _ _ _ R)) as (c1 & E1 & R1).
  destruct (crepr_reclaim_offsets c1 xs R1) as (c2 & E2 & R2).
  exists c2. split; [|done]. rewrite E1. mstep. rewrite E2. done.
Qed.

Lemma crepr_pop_back c xs x : crepr c (xs ++ [x]) ->
  exists c', CompactList.pop_back c = Some (Some x, c') /\ crepr c' xs.
Proof.
  intros R. pose proof (crepr_buf_length _ _ R) as Hbl.
  pose proof R as [Hh Hl Hlen Hb Hw Hhc Hlc]. rewrite length_app in Hlen. simpl in Hlen.
  rewrite frames_app, frames_one, length_app in Hbl, Hlc.
  rewrite total_len_app in Hb. unfold total_len in Hb. simpl in Hb.
  unfold CompactList.pop_back. rewrite bool_decide_eq_false_2 by lia.
  assert ((xs ++ [x]) !! (CompactList.len c - 1) = Some x) as Hx.
  { apply list_lookup_middle. lia. }
  rewrite (crepr_off_at _ _ R _ _ Hx). mstep. rewrite Nat2Z.id.
  destruct (crepr_read _ _ R _ _ Hx) as [Hr Hs]. rewrite Hr. mstep. rewrite Hs. mstep.
  rewrite checked_sub_ok by lia. mstep. eexists. split; [done|].
  rewrite take_app_length' by lia.
  split; simpl; [rewrite length_take; lia| |lia|unfold total_len; lia| |done|lia].
  - rewrite <- take_drop_commute, Hl, frames_app. apply take_app_length.
  - rewrite offs_app in Hw. by eapply slice_init.
Qed.

(** ** Abstraction of the dual encoding *)

Definition repr (l : ListData) (xs : list bytes) : Prop :=
  match l with
  | Compact c => crepr c xs
  | Linked d => LinkedList.items d = xs /\ LinkedList.nbytes d = total_len xs
  end.

(** Thresholds for which compact offsets fit in 32 bits.  The defaults are far
    below ([default_thresholds_sane]). *)
Definition thr_sane (thr : ListThresholds) : Prop :=
  (Z.of_nat (max_size thr) <= 2 ^ 28)%Z /\ (Z.of_nat (max_entries thr) <= 2 ^ 26)%Z /\
  (Z.of_nat (max_elem thr) <= 2 ^ 26)%Z /\ (Z.of_nat (demote_entries thr) <= 2 ^ 26)%Z.

#[export] Instance thr_sane_dec thr : Decision (thr_sane thr).
Proof. unfold thr_sane. apply _. Defined.

Lemma default_thresholds_sane : thr_sane default_thresholds.
Proof.
  unfold thr_sane, default_thresholds, LIST_COMPACT_MAX_ENTRIES, LIST_COMPACT_MAX_SIZE,
    LIST_COMPACT_MAX_ELEM, LIST_DEMOTE_ENTRIES; simpl max_size; simpl max_entries;
    simpl max_elem; simpl demote_entries. lia.
Qed.
#[export] Hint Resolve default_thresholds_sane : nexrade.

Lemma list_repr_new : repr new [].
Proof. apply list_crepr_new. Qed.

Lemma list_repr_len l xs : repr l xs -> len l = length xs.
Proof. destruct l; simpl; [apply cr_len|by intros [<- _]]. Qed.

Lemma list_repr_payload l xs : repr l xs -> payload_bytes l = total_len xs.
Proof. destruct l; simpl; [apply cr_bytes|by intros [_ ->]]. Qed.

Lemma repr_is_empty l xs : repr l xs -> is_empty l = bool_decide (xs = []).
Proof.
  intros R. unfold is_empty. rewrite (list_repr_len _ _ R). apply bool_decide_ext.
  by rewrite length_zero_iff_nil.
Qed.

(** A linked list that is exactly its items. *)
Definition linked_of (xs : list bytes) : LinkedList.t :=
  {| LinkedList.items := xs; LinkedList.nbytes := total_len xs |}.

Lemma repr_linked_of xs : repr (Linked (linked_of xs)) xs.
Proof. done. Qed.
#[export] Hint Resolve repr_linked_of list_repr_new : nexrade.

Lemma fold_push_back_items es d :
  LinkedList.items (fold_left LinkedList.push_back es d) = LinkedList.items d ++ es.
Proof.
  revert d. induction es as [|e es IH]; intros d; simpl; [by rewrite app_nil_r|].
  rewrite IH. simpl. by rewrite <- app_assoc.
Qed.

Lemma repr_ensure_linked l xs : repr l xs -> ensure_linked l = Some (linked_of xs).
Proof.
  destruct l as [c|[it nb]]; simpl.
  - intros R. rewrite (compact_iter_elements _ _ R). mstep.
    rewrite fold_push_back_items. simpl. by rewrite (cr_bytes R).
  - by intros [-> ->].
Qed.

Lemma demote_fits_total thr es t t' : demote_fits thr t es = Some t' ->
  t' = t + total_len es /\ (es = [] \/ t' <= max_size thr).
Proof.
  revert t. induction es as [|e es IH]; intros t H; simplify_eq/=.
  { rewrite total_len_nil. split; [lia|by left]. }
  do 2 (case_bool_decide; [done|]). apply IH in H as [-> Hor].
  rewrite total_len_cons. split; [lia|]. right.
  destruct Hor as [->|]; [rewrite total_len_nil|]; lia.
Qed.

Lemma crepr_fold_push_back es c xs : crepr c xs ->
  (Z.of_nat (length (frames (xs ++ es))) <= LIVE_CAP)%Z ->
  crepr (fold_left CompactList.push_back es c) (xs ++ es).
Proof.
  revert c xs. induction es as [|e es IH]; intros c xs R Hcap; simpl; [by rewrite app_nil_r|].
  rewrite cons_middle, app_assoc in Hcap |- *. apply IH; [|done].
  apply crepr_push_back; [done|]. rewrite frames_app, length_app in Hcap. lia.
Qed.

Lemma list_repr_maybe_demote thr l xs : thr_sane thr -> repr l xs -> repr (maybe_demote thr l) xs.
Proof.
  intros (Hs & _ & _ & Hd) R. destruct l as [c|d]; [done|]. simpl in R. destruct R as [Hi Hb].
  simpl. case_bool_decide as E; [done|].
  destruct (demote_fits thr 0 (LinkedList.items d)) as [t|] eqn:Hf; [|done].
  apply demote_fits_total in Hf as [-> Hor]. rewrite Hi in *. unfold LinkedList.len in E.
  rewrite Hi in E. apply (crepr_fold_push_back xs _ []); [apply crepr_with_capacity|].
  simpl app. rewrite length_frames. unfold LIVE_CAP.
  destruct Hor as [->|Hor]; [rewrite total_len_nil; simpl|]; lia.
Qed.

(** ** The operations on plain lists *)

Inductive list_op :=
  | PushFront (v : bytes)
  | PushBack (v : bytes)
  | PopFront
  | PopBack
  | Get (i : nat)
  | SetAt (i : nat) (v : bytes)
  | InsertBefore (pivot v : bytes)
  | InsertAfter (pivot v : bytes)
  | Rem (count : Z) (elem : bytes)
  | Trim (start stop : nat)
  | Range (start stop : nat)
  | ToVec.

Inductive list_reply :=
  | RUnit
  | RElem (v : option bytes)
  | RSet (ok : bool) (delta : Z)
  | RPos (len : option nat)
  | RRem (removed : nat) (delta : Z)
  | RTrim (delta : Z)
  | RList (vs : list bytes).

(** Payload change from [xs] to [ys]. *)
Definition delta_of (xs ys : list bytes) : Z := Z.of_nat (total_len ys) - Z.of_nat (total_len xs).

(** Deletes the first occurrence of [elem], [n] times. *)
Fixpoint delete_first (n : nat) (elem : bytes) (xs : list bytes) : list bytes :=
  match n with
  | 0 => xs
  | S n => match position elem xs with
           | Some i => delete_first n elem (delete i xs)
           | None => xs
           end
  end.

(** [LREM]: all occurrences, the first [count], or the last [-count]. *)
Definition spec_rem (count : Z) (elem : bytes) (xs : list bytes) : list bytes :=
  if bool_decide (count = 0)%Z then filter (fun x => x <> elem) xs
  else if bool_decide (0 < count)%Z then delete_first (Z.to_nat count) elem xs
  else reverse (delete_first (Z.to_nat (- count)) elem (reverse xs)).

(** The elements at the indices [start .. stop], both included. *)
Definition spec_range (start stop : nat) (xs : list bytes) : list bytes :=
  take (S stop - start) (drop start xs).

Definition spec_insert (shift : nat) (pivot v : bytes) (xs : list bytes) : option nat * list bytes :=
  match position pivot xs with
  | Some i => (Some (S (length xs)), take (i + shift) xs ++ v :: drop (i + shift) xs)
  | None => (None, xs)
  end.

Definition spec_exec (op : list_op) (xs : list bytes) : list_reply * list bytes :=
  match op with
  | PushFront v => (RUnit, v :: xs)
  | PushBack v => (RUnit, xs ++ [v])
  | PopFront => (RElem (head xs), tail xs)
  | PopBack => (RElem (last xs), removelast xs)
  | Get i => (RElem (xs !! i), xs)
  | SetAt i v =>
      let ys := <[i := v]> xs in (RSet (bool_decide (i < length xs)) (delta_of xs ys), ys)
  | InsertBefore p v => let '(r, ys) := spec_insert 0 p v xs in (RPos r, ys)
  | InsertAfter p v => let '(r, ys) := spec_insert 1 p v xs in (RPos r, ys)
  | Rem count elem =>
      let ys := spec_rem count elem xs in (RRem (length xs - length ys) (delta_of xs ys), ys)
  | Trim start stop => let ys := spec_range start stop xs in (RTrim (delta_of xs ys), ys)
  | Range start stop => (RList (spec_range start stop xs), xs)
  | ToVec => (RList xs, xs)
  end.

(** The same operations on the dual encoding. *)
Definition exec (thr : ListThresholds) (op : list_op) (l : ListData)
  : may_panic (list_reply * ListData) :=
  match op with
  | PushFront v => l' ← push_front thr l v; Some (RUnit, l')
  | PushBack v => l' ← push_back thr l v; Some (RUnit, l')
  | PopFront => '(v, l') ← pop_front thr l; Some (RElem v, l')
  | PopBack => '(v, l') ← pop_back thr l; Some (RElem v, l')
  | Get i => v ← get l i; Some (RElem v, l)
  | SetAt i v => '(ok, d, l') ← set l i v; Some (RSet ok d, l')
  | InsertBefore p v => '(r, l') ← insert_before l p v; Some (RPos r, l')
  | InsertAfter p v => '(r, l') ← insert_after l p v; Some (RPos r, l')
  | Rem count elem => '(n, d, l') ← rem thr l count elem; Some (RRem n d, l')
  | Trim start stop => '(d, l') ← trim thr l start stop; Some (RTrim d, l')
  | Range start stop => vs ← range_bytes l start stop; Some (RList vs, l)
  | ToVec => vs ← to_vec_bytes l; Some (RList vs, l)
  end.

(** ** Each operation refines the one on plain lists *)

Lemma position_cons p x xs :
  position p (x :: xs) = if bool_decide (p = x) then Some 0 else S <$> position p xs.
Proof.
  unfold position. simpl. case_bool_decide; case_decide; try done.
  by destruct (list_find (eq p) xs) as [[i y]|].
Qed.

Lemma delete_first_ne n elem x xs : elem <> x ->
  delete_first n elem (x :: xs) = x :: delete_first n elem xs.
Proof.
  intros Hne. revert xs. induction n as [|n IH]; intros xs; [done|].
  simpl. rewrite position_cons, bool_decide_eq_false_2 by done.
  destruct (position elem xs); simpl; [apply IH|done].
Qed.

(** What every pass of [rem] accounts for. *)
Lemma rem_pass_counts left elem xs :
  let '(kept, nb, removed) := rem_pass left elem xs in
  nb = total_len kept /\ length xs = removed + length kept /\
  total_len xs = total_len kept + removed * length elem.
Proof.
  revert left. induction xs as [|x xs IH]; intros left; simpl; [by rewrite total_len_nil|].
  rewrite total_len_cons.
  match goal with |- context [if ?h then _ else _] => destruct h eqn:Hh end.
  - assert (x = elem) as ->.
    { destruct left; [apply andb_true_iff in Hh as [_ Hh]|]; by apply bool_decide_eq_true_1 in Hh. }
    specialize (IH (Z.pred <$> left)). destruct (rem_pass _ _ xs) as [[k nb] r]. lia.
  - specialize (IH left). destruct (rem_pass _ _ xs) as [[k nb] r].
    rewrite total_len_cons. simpl. lia.
Qed.

Lemma rem_pass_all elem xs : (rem_pass None elem xs).1.1 = filter (fun x => x <> elem) xs.
Proof.
  induction xs as [|x xs IH]; [done|]. simpl. rewrite filter_cons.
  destruct (rem_pass None elem xs) as [[k nb] r]. simpl in IH.
  case_bool_decide; case_decide; try done; simpl; congruence.
Qed.

Lemma rem_pass_first n elem xs :
  (rem_pass (Some (Z.of_nat n)) elem xs).1.1 = delete_first n elem xs.
Proof.
  revert n. induction xs as [|x xs IH]; intros n; [by destruct n|].
  destruct (decide (elem = x)) as [<-|Hne].
  - destruct n as [|n]; simpl.
    + specialize (IH 0). destruct (rem_pass _ _ xs) as [[k nb] r].
      simpl in *. by rewrite IH.
    + rewrite bool_decide_eq_true_2 by done. simpl.
      rewrite position_cons, bool_decide_eq_true_2 by done. simpl.
      replace (Z.pred (Z.of_nat (S n))) with (Z.of_nat n) by lia.
      rewrite <- IH. by destruct (rem_pass _ _ xs) as [[k nb] r].
  - rewrite delete_first_ne by done. simpl.
    rewrite (bool_decide_eq_false_2 (x = elem)), andb_false_r by done. rewrite <- IH.
    by destruct (rem_pass _ _ xs) as [[k nb] r].
Qed.

Lemma total_len_reverse xs : total_len (reverse xs) = total_len xs.
Proof. by rewrite reverse_Permutation. Qed.

Lemma rem_keep_spec count elem xs : exists removed,
  rem_keep count elem xs = (spec_rem count elem xs, total_len (spec_rem count elem xs), removed) /\
  length xs = removed + length (spec_rem count elem xs) /\
  total_len xs = total_len (spec_rem count elem xs) + removed * length elem.
Proof.
  unfold rem_keep, spec_rem. case_bool_decide as E0; [|case_bool_decide as E1].
  - rewrite <- rem_pass_all. pose proof (rem_pass_counts None elem xs) as Hc.
    destruct (rem_pass _ _ _) as [[k nb] r]. simpl. exists r. destruct Hc as (-> & ? & ?). done.
  - rewrite <- rem_pass_first, Z2Nat.id by lia.
    pose proof (rem_pass_counts (Some count) elem xs) as Hc.
    destruct (rem_pass _ _ _) as [[k nb] r]. simpl. exists r. destruct Hc as (-> & ? & ?). done.
  - rewrite <- rem_pass_first, Z2Nat.id by lia. replace (- count)%Z with (Z.abs count) by lia.
    pose proof (rem_pass_counts (Some (Z.abs count)) elem (reverse xs)) as Hc.
    destruct (rem_pass _ _ _) as [[k nb] r]. simpl. exists r.
    rewrite !length_reverse, !total_len_reverse in *. destruct Hc as (-> & ? & ?). done.
Qed.

Lemma trim_tail_spec fuel xs keep n : length xs <= fuel + keep ->
  trim_tail fuel (linked_of xs) keep n =
    Some (linked_of (take keep xs), n + (total_len xs - total_len (take keep xs))).
Proof.
  revert xs n. induction fuel as [|fuel IH]; intros xs n Hf; simpl;
    unfold LinkedList.len; simpl; case_bool_decide as E; try lia.
  - rewrite take_ge by lia. do 2 f_equal. lia.
  - unfold LinkedList.pop_back. simpl. destruct xs as [|x ys _] using rev_ind; [simpl in E; lia|].
    rewrite last_snoc, removelast_last. rewrite length_app in *. simpl in *.
    replace {| LinkedList.items := ys; LinkedList.nbytes := _ |} with (linked_of ys);
      [|unfold linked_of; f_equal; len].
    rewrite IH by lia. rewrite take_app_le by lia. do 2 f_equal.
    pose proof (total_len_take_drop keep ys). len.
  - rewrite take_ge by lia. do 2 f_equal. lia.
Qed.

Lemma trim_head_spec start xs n :
  trim_head start (linked_of xs) n = (linked_of (drop start xs), n + total_len (take start xs)).
Proof.
  revert xs n. induction start as [|start IH]; intros xs n; simpl.
  { rewrite take_0, drop_0, total_len_nil. f_equal. lia. }
  unfold LinkedList.pop_front. simpl. destruct xs as [|x xs].
  - rewrite IH, !drop_nil, !take_nil, !total_len_nil. f_equal. lia.
  - replace {| LinkedList.items := xs; LinkedList.nbytes := _ |} with (linked_of xs);
      [|unfold linked_of; f_equal; len].
    rewrite IH, firstn_cons. f_equal. len.
Qed.

(** A push that does not promote leaves the compact buffer small. *)
Lemma promote_false thr c xs v : thr_sane thr -> crepr c xs ->
  should_promote_after_push thr (Compact c) (length v) = false ->
  (Z.of_nat (length (frames xs) + length (frame v)) <= LIVE_CAP)%Z /\
  (Z.of_nat (length v) <= 2 ^ 26)%Z.
Proof.
  intros (Hs & He & Hm & _) R Hp. simpl in Hp.
  apply orb_false_iff in Hp as [[Hp1 Hp2]%orb_false_iff Hp3].
  apply bool_decide_eq_false_1 in Hp1, Hp2, Hp3.
  rewrite (cr_len R), (cr_bytes R) in *. rewrite length_frames, length_frame. unfold LIVE_CAP. lia.
Qed.

Section Refinement.
Context (thr : ListThresholds) (Hthr : thr_sane thr) (l : ListData) (xs : list bytes) (R : repr l xs).

Lemma push_front_refines v : exists l', push_front thr l v = Some l' /\ repr l' (v :: xs).
Proof using Hthr R.
  unfold push_front. destruct l as [c|d].
  - destruct (should_promote_after_push thr (Compact c) (length v)) eqn:Hp.
    + rewrite (repr_ensure_linked _ _ R). mstep. eexists. split; [done|].
      simpl. split; [done|]. rewrite total_len_cons. lia.
    + destruct (promote_false _ _ _ _ Hthr R Hp) as [Hc Hv].
      destruct (crepr_push_front c xs v R) as (c' & -> & R'); [|done|].
      { rewrite frames_cons, length_app. lia. }
      mstep. eauto.
  - eexists. split; [done|]. destruct R as [<- Hb]. simpl. split; [done|].
    rewrite total_len_cons. lia.
Qed.

Lemma push_back_refines v : exists l', push_back thr l v = Some l' /\ repr l' (xs ++ [v]).
Proof using Hthr R.
  unfold push_back. destruct l as [c|d].
  - destruct (should_promote_after_push thr (Compact c) (length v)) eqn:Hp.
    + rewrite (repr_ensure_linked _ _ R). mstep. eexists. split; [done|].
      simpl. split; [done|]. len.
    + destruct (promote_false _ _ _ _ Hthr R Hp) as [Hc Hv].
      eexists. split; [done|]. apply crepr_push_back; [done|].
      rewrite frames_app, frames_one, length_app. lia.
  - eexists. split; [done|]. destruct R as [<- Hb]. simpl. split; [done|]. len.
Qed.

Lemma pop_front_refines : exists l', pop_front thr l = Some (head xs, l') /\ repr l' (tail xs).
Proof using Hthr R.
  unfold pop_front. destruct l as [c|d].
  - destruct xs as [|x ys].
    + unfold CompactList.pop_front. rewrite bool_decide_eq_true_2 by apply (cr_len R).
      mstep. eauto.
    + destruct (crepr_pop_front c x ys R) as (c' & -> & R'). mstep. eexists. split; [done|].
      by apply list_repr_maybe_demote.
  - unfold LinkedList.pop_front. destruct R as [Hi Hb]. rewrite Hi. destruct xs as [|x ys].
    + mstep. eexists. split; [done|]. done.
    + mstep. eexists. split; [done|]. apply list_repr_maybe_demote; [done|].
      simpl. split; [done|]. rewrite total_len_cons in Hb. lia.
Qed.

Lemma pop_back_refines : exists l', pop_back thr l = Some (last xs, l') /\ repr l' (removelast xs).
Proof using Hthr R.
  unfold pop_back. destruct l as [c|d].
  - destruct xs as [|x ys _] using rev_ind.
    + unfold CompactList.pop_back. rewrite bool_decide_eq_true_2 by apply (cr_len R).
      mstep. eauto.
    + destruct (crepr_pop_back c ys x R) as (c' & -> & R'). mstep.
      rewrite last_snoc, removelast_last. eexists. split; [done|].
      by apply list_repr_maybe_demote.
  - unfold LinkedList.pop_back. destruct R as [Hi Hb]. rewrite Hi.
    destruct xs as [|x ys _] using rev_ind.
    + mstep. eexists. split; [done|]. done.
    + rewrite last_snoc, removelast_last. mstep. eexists. split; [done|].
      apply list_repr_maybe_demote; [done|]. simpl. split; [done|].
      rewrite total_len_app, total_len_cons, total_len_nil in Hb. lia.
Qed.

Lemma list_get_refines i : get l i = Some (xs !! i).
Proof using R. destruct l as [c|d]; simpl; [exact (compact_get _ _ R i)|by destruct R as [-> _]]. Qed.

Lemma to_vec_refines : to_vec_bytes l = Some xs.
Proof using R.
  destruct l as [c|d]; simpl; [exact (compact_iter_elements _ _ R)|by destruct R as [-> _]].
Qed.

Lemma set_refines i v : exists l',
  set l i v = Some (bool_decide (i < length xs), delta_of xs (<[i := v]> xs), l') /\
  repr l' (<[i := v]> xs).
Proof using R.
  unfold set. rewrite (repr_ensure_linked _ _ R). mstep. simpl.
  destruct (xs !! i) as [old|] eqn:Hi.
  - pose proof (lookup_lt_Some _ _ _ Hi) as Hlt. rewrite bool_decide_eq_true_2 by done.
    assert (total_len xs = length old + total_len (delete i xs) /\
            total_len (<[i := v]> xs) = length v + total_len (delete i xs)) as [H1 H2].
    { rewrite (insert_take_drop xs i v) by done.
      rewrite <- (take_drop_middle xs i old Hi) at 1. rewrite delete_take_drop. len. }
    unfold delta_of. rewrite H1, H2.
    replace (Z.of_nat (length v + total_len (delete i xs)) - _)%Z
      with (Z.of_nat (length v) - Z.of_nat (length old))%Z by lia.
    eexists. split; [done|]. simpl. split; [done|lia].
  - apply lookup_ge_None in Hi. rewrite bool_decide_eq_false_2 by lia.
    rewrite list_insert_ge by lia. unfold delta_of. rewrite Z.sub_diag. eauto with nexrade.
Qed.

Lemma list_insert_refines shift p v : exists l',
  insert_rel shift l p v = Some (fst (spec_insert shift p v xs), l') /\
  repr l' (snd (spec_insert shift p v xs)).
Proof using R.
  unfold insert_rel, spec_insert. rewrite (repr_ensure_linked _ _ R). mstep. simpl.
  destruct (position p xs) as [i|]; simpl; [|by eauto with nexrade].
  replace (S (length xs)) with (length (insert_at (i + shift) v xs))
    by (unfold insert_at; rewrite <- (take_drop (i + shift) xs) at 3; len).
  eexists. split; [done|]. simpl. split; [done|].
  pose proof (total_len_take_drop (i + shift) xs). len.
Qed.

Lemma rem_refines count elem : exists l',
  rem thr l count elem =
    Some (length xs - length (spec_rem count elem xs), delta_of xs (spec_rem count elem xs), l') /\
  repr l' (spec_rem count elem xs).
Proof using Hthr R.
  unfold rem. rewrite (repr_ensure_linked _ _ R). mstep. cbn [linked_of LinkedList.items].
  destruct (rem_keep_spec count elem xs) as (r & -> & Hl & Ht).
  unfold delta_of. replace (length xs - length (spec_rem count elem xs)) with r by lia.
  replace (Z.of_nat (total_len (spec_rem count elem xs)) - Z.of_nat (total_len xs))%Z
    with (- Z.of_nat (r * length elem))%Z by lia.
  eexists. split; [done|]. case_bool_decide; [apply list_repr_maybe_demote; [done|]|]; done.
Qed.

Lemma trim_refines start stop : exists l',
  trim thr l start stop = Some (delta_of xs (spec_range start stop xs), l') /\
  repr l' (spec_range start stop xs).
Proof using Hthr R.
  unfold trim, spec_range. rewrite (repr_ensure_linked _ _ R). mstep.
  unfold LinkedList.len. cbn [linked_of LinkedList.items LinkedList.nbytes].
  case_bool_decide as E.
  - assert (take (S stop - start) (drop start xs) = []) as ->.
    { destruct E as [E|E]; [by rewrite drop_ge, take_nil by lia|].
      replace (S stop - start) with 0 by lia. apply take_0. }
    unfold delta_of. rewrite total_len_nil. eexists. split; [done|]. by apply list_repr_maybe_demote.
  - rewrite trim_tail_spec by lia. mstep. rewrite trim_head_spec.
    set (k := stop `min` (length xs - 1) + 1).
    assert (drop start (take k xs) = take (S stop - start) (drop start xs)) as Hd.
    { replace k with (start + (k - start)) by lia. rewrite <- take_drop_commute.
      destruct (decide (stop <= length xs - 1)).
      - f_equal. unfold k. lia.
      - rewrite !take_ge; [done| |]; rewrite length_drop; unfold k; lia. }
    rewrite <- Hd. unfold delta_of.
    pose proof (total_len_take_drop k xs). pose proof (total_len_take_drop start (take k xs)).
    replace (Z.of_nat (total_len (drop start (take k xs))) - Z.of_nat (total_len xs))%Z
      with (- Z.of_nat (0 + (total_len xs - total_len (take k xs)) + total_len (take start (take k xs))))%Z
      by lia.
    eexists. split; [done|]. apply list_repr_maybe_demote; [done|]. apply repr_linked_of.
Qed.

Lemma range_refines start stop : range_bytes l start stop = Some (spec_range start stop xs).
Proof using R.
  unfold range_bytes, spec_range. rewrite (repr_is_empty _ _ R), (list_repr_len _ _ R).
  case_bool_decide as E1; [subst; by rewrite drop_nil, take_nil|]. simpl.
  case_bool_decide as E2; [by replace (S stop - start) with 0 by lia|].
  case_bool_decide as E3; [by rewrite drop_ge, take_nil by lia|].
  assert (forall n, n = S (stop `min` (length xs - 1)) - start ->
          take n (drop start xs) = take (S stop - start) (drop start xs)) as Ht.
  { intros n ->. destruct (decide (stop <= length xs - 1)); [f_equal; lia|].
    rewrite !take_ge; [done| |]; rewrite length_drop; lia. }
  destruct l as [c|d].
  - rewrite (compact_range_bytes c xs R) by lia. rewrite (Ht _); [done|lia].
  - destruct R as [-> _]. unfold slice. rewrite bool_decide_eq_true_2 by lia.
    rewrite (Ht _); [done|lia].
Qed.

End Refinement.

Lemma list_exec_refines thr op l xs : thr_sane thr -> repr l xs ->
  exists l', exec thr op l = Some (fst (spec_exec op xs), l') /\ repr l' (snd (spec_exec op xs)).
Proof.
  intros Ht R. destruct op; unfold exec; simpl spec_exec; cbn [fst snd].
  - destruct (push_front_refines _ Ht _ _ R v) as (l' & -> & ?). mstep. eauto.
  - destruct (push_back_refines _ Ht _ _ R v) as (l' & -> & ?). mstep. eauto.
  - destruct (pop_front_refines _ Ht _ _ R) as (l' & -> & ?). mstep. eauto.
  - destruct (pop_back_refines _ Ht _ _ R) as (l' & -> & ?). mstep. eauto.
  - rewrite (list_get_refines _ _ R). mstep. eauto.
  - destruct (set_refines _ _ R i v) as (l' & -> & ?). mstep. eauto.
  - destruct (list_insert_refines _ _ R 0 pivot v) as (l' & E & ?). unfold insert_before.
    rewrite E. mstep. destruct (spec_insert _ _ _ _). eauto.
  - destruct (list_insert_refines _ _ R 1 pivot v) as (l' & E & ?). unfold insert_after.
    rewrite E. mstep. destruct (spec_insert _ _ _ _). eauto.
  - destruct (rem_refines _ Ht _ _ R count elem) as (l' & -> & ?). mstep. eauto.
  - destruct (trim_refines _ Ht _ _ R start stop) as (l' & -> & ?). mstep. eauto.
  - rewrite (range_refines _ _ R). mstep. eauto.
  - rewrite (to_vec_refines _ _ R). mstep. eauto.
Qed.

(** ** Histories of operations *)

(** A history: each operation with the thresholds it observes. *)
Fixpoint run (h : list (ListThresholds * list_op)) (l : ListData)
  : may_panic (list list_reply * ListData) :=
  match h with
  | [] => Some ([], l)
  | (thr, op) :: h =>
      '(r, l1) ← exec thr op l;
      '(rs, l2) ← run h l1;
      Some (r :: rs, l2)
  end.

Fixpoint spec_run (ops : list list_op) (xs : list bytes) : list list_reply * list bytes :=
  match ops with
  | [] => ([], xs)
  | op :: ops =>
      let '(r, ys) := spec_exec op xs in
      let '(rs, zs) := spec_run ops ys in
      (r :: rs, zs)
  end.

Definition history_sane (h : list (ListThresholds * list_op)) : Prop :=
  Forall (fun p => thr_sane (fst p)) h.

Lemma list_run_refines h l xs : history_sane h -> repr l xs ->
  exists l', run h l = Some (fst (spec_run (map snd h) xs), l') /\
             repr l' (snd (spec_run (map snd h) xs)).
Proof.
  intros Hh. revert l xs. induction Hh as [|[thr op] h Ht Hh IH]; intros l xs R; [by eauto|].
  simpl in Ht. destruct (list_exec_refines thr op l xs Ht R) as (l1 & E & R1).
  simpl run. rewrite E. mstep. simpl spec_run. destruct (spec_exec op xs) as [r ys].
  destruct (IH l1 ys R1) as (l2 & E2 & R2). simpl. rewrite E2. mstep.
  destruct (spec_run (map snd h) ys) as [rs zs]. eauto.
Qed.

(** C23: For every history of list operations on a fresh key, with thresholds
    that may change between operations, no operation of the dual encoding
    panics (no slice out of range, no underflow), every reply - elements,
    lengths and payload deltas - is the one plain lists give, and the final
    value holds exactly the final plain list with the right length and payload
    total. *)
Theorem list_encoding_refines_lists h : history_sane h ->
  exists l, run h new = Some (fst (spec_run (map snd h) []), l) /\
            to_vec_bytes l = Some (snd (spec_run (map snd h) [])) /\
            len l = length (snd (spec_run (map snd h) [])) /\
            payload_bytes l = total_len (snd (spec_run (map snd h) [])).
Proof.
  intros Hh. destruct (list_run_refines h new [] Hh list_repr_new) as (l & E & R).
  exists l. split; [done|].
  by rewrite (to_vec_refines _ _ R), (list_repr_len _ _ R), (list_repr_payload _ _ R).
Qed.

Definition sample_history : list (ListThresholds * list_op) :=
  let small := mkListThresholds 2 100 3 2 in
  [ (default_thresholds, PushBack (bstr "a")); (default_thresholds, PushFront (bstr "bb"));
    (small, PushBack (bstr "a")); (default_thresholds, Rem (-1) (bstr "a"));
    (default_thresholds, InsertAfter (bstr "bb") (bstr "ccc")); (default_thresholds, Range 0 9);
    (small, Trim 1 1); (default_thresholds, PopBack) ].

Lemma list_encoding_refines_lists_witness :
  history_sane sample_history /\
  exists l, run sample_history new =
    Some ([RUnit; RUnit; RUnit; RRem 1 (-1); RPos (Some 3);
           RList [bstr "bb"; bstr "ccc"; bstr "a"]; RTrim (-3); RElem (Some (bstr "ccc"))], l) /\
    len l = 0.
Proof.
  assert (history_sane sample_history) as Hs by (apply (bool_decide_unpack _); vm_compute; done).
  split; [done|].
  destruct (list_encoding_refines_lists sample_history Hs) as (l & E & _ & L & _).
  exists l. split; [etransitivity; [exact E|reflexivity]|].
  etransitivity; [exact L|reflexivity].
Defined.



(** The packed prefix up to [stop] ends with the packed range. *)
Lemma frames_range start stop xs : start <= S stop ->
  frames (take (S stop) xs) = frames (take start xs) ++ frames (spec_range start stop xs).
Proof.
  intros H. rewrite <- frames_app. f_equal. unfold spec_range.
  rewrite <- (take_drop start (take (S stop) xs)), take_take, Nat.min_l by lia. f_equal.
  replace (S stop) with (start + (S stop - start)) at 1 by lia. by rewrite <- take_drop_commute.
Qed.

Lemma length_spec_range start stop xs : start <= stop -> stop < length xs ->
  length (spec_range start stop xs) = stop - start + 1.
Proof. intros. unfold spec_range. rewrite length_take, length_drop. lia. Qed.

(** The snapshot LRANGE takes of a compact list under the read lock (buffer,
    begin, end, count) decodes, outside the lock, to exactly the requested
    elements; its region, which [range_region] also returns, is the packed form
    of those elements and nothing else; and its byte budget is the framing
    allowance plus the payload, the same as [range_resp_need]. *)
Theorem range_snap_decodes c xs start stop : crepr c xs -> start <= stop -> stop < length xs ->
  exists s, CompactList.range_snap c start stop = Some s /\
    walk (CompactList.s_buf s) (CompactList.s_begin s) (CompactList.s_count s)
      = Some (spec_range start stop xs) /\
    slice (CompactList.s_buf s) (CompactList.s_begin s) (CompactList.s_end s)
      = Some (frames (spec_range start stop xs)) /\
    CompactList.range_region c start stop = Some (frames (spec_range start stop xs)) /\
    CompactList.s_need s = 16 + CompactList.s_count s * 12 + total_len (spec_range start stop xs) /\
    CompactList.range_resp_need c start stop = Some (CompactList.s_need s) /\
    CompactList.s_count s = length (spec_range start stop xs).
Proof.
  intros R Hle Hlt.
  destruct (lookup_lt_is_Some_2 xs start) as [x Hx]; [lia|].
  destruct (lookup_lt_is_Some_2 xs stop) as [y Hy]; [lia|].
  pose proof (crepr_off_at _ _ R _ _ Hx) as Ox. pose proof (crepr_off_at _ _ R _ _ Hy) as Oy.
  destruct (crepr_read _ _ R _ _ Hy) as [Ry _].
  pose proof (length_spec_range start stop xs Hle Hlt) as Hn.
  pose proof (frames_range start stop xs ltac:(lia)) as Hfr.
  assert (length (frames (take (S stop) xs)) = length (frames (take stop xs)) + 4 + length y) as Hend.
  { rewrite (take_S_r xs stop y Hy), frames_app, frames_one, length_app, length_frame. lia. }
  pose proof Hend as Hend'. rewrite Hfr, length_app in Hend'.
  pose proof (length_frames (spec_range start stop xs)) as Hlf.
  assert (slice (CompactList.buf c) (CompactList.head c + length (frames (take start xs)))
            (CompactList.head c + length (frames (take stop xs)) + 4 + length y)
          = Some (frames (spec_range start stop xs))) as Hslice.
  { eapply (slice_mid _ (take (CompactList.head c) (CompactList.buf c) ++ frames (take start xs)) _
              (frames (drop (S stop) xs))).
    - rewrite (crepr_buf _ _ R) at 1. rewrite <- app_assoc. f_equal.
      rewrite (app_assoc (frames (take start xs))), <- Hfr, <- frames_app, take_drop. done.
    - symmetry. apply (crepr_prefix_length _ _ R).
    - lia. }
  unfold CompactList.range_snap, CompactList.range_region, CompactList.range_resp_need.
  rewrite Ox, Oy. mstep. rewrite !Nat2Z.id, Ry. mstep.
  rewrite (checked_sub_ok stop) by lia. mstep. rewrite checked_sub_ok by lia. mstep.
  eexists. split; [done|]. cbn [CompactList.s_buf CompactList.s_begin CompactList.s_end
    CompactList.s_count CompactList.s_need].
  pose proof (compact_walk_from _ _ R start (stop - start + 1) ltac:(lia) ltac:(lia)) as Hw.
  rewrite Ox, bind_some, Nat2Z.id in Hw.
  replace (take (stop - start + 1) (drop start xs)) with (spec_range start stop xs) in Hw
    by (unfold spec_range; f_equal; lia).
  rewrite Hw, Hslice. split_and!; [done..|lia| |lia].
  rewrite !Nat2Z.id, Ry. mstep. by rewrite checked_sub_ok by lia.
Qed.

Lemma range_snap_decodes_witness :
  exists c s, crepr c [bstr "a"; bstr "bc"] /\ CompactList.range_snap c 1 1 = Some s /\
    walk (CompactList.s_buf s) (CompactList.s_begin s) (CompactList.s_count s) = Some [bstr "bc"].
Proof.
  set (c := CompactList.push_back (CompactList.push_back CompactList.new (bstr "a")) (bstr "bc")).
  assert (crepr c [bstr "a"; bstr "bc"]) as R.
  { apply (crepr_push_back _ [bstr "a"]); [apply (crepr_push_back _ [])|];
      [apply list_crepr_new| |]; vm_compute; discriminate. }
  destruct (range_snap_decodes c _ 1 1 R ltac:(simpl; lia) ltac:(simpl; lia)) as (s & E & W & _).
  exists c, s. split; [done|]. split; [done|]. exact W.
Defined.
