(* ===== verification/HashData.v ===== *)
(** * HashData: the dual-encoded hash ([hash_data.rs])

    A hash value is either [Compact], one buffer of length-prefixed
    field/value pairs scanned linearly, or [Hashtable], a [HashMap] with a
    cached byte total.  The relation [repr] relates both to a finite map; every
    operation is shown not to panic and to commute with the finite-map
    operation, payload deltas included, whatever the iteration order of the
    hash table. *)

From S2P Require Import Prelude Packing.

Definition HASH_COMPACT_MAX_ENTRIES : nat := 512.
Definition HASH_COMPACT_MAX_SIZE : nat := N.to_nat 8192.
Definition HASH_COMPACT_MAX_VALUE : nat := 64.
Definition HASH_DEMOTE_ENTRIES : nat := 128.

Record HashThresholds := mkHashThresholds {
  max_entries : nat;
  max_size : nat;
  max_value : nat;
  demote_entries : nat;
}.

Definition default_thresholds : HashThresholds :=
  {| max_entries := HASH_COMPACT_MAX_ENTRIES;
     max_size := HASH_COMPACT_MAX_SIZE;
     max_value := HASH_COMPACT_MAX_VALUE;
     demote_entries := HASH_DEMOTE_ENTRIES |}.

(** Bytes a pair contributes to the payload. *)
Definition pair_len (p : bytes * bytes) : nat := length p.1 + length p.2.

(** ** The hash-table encoding *)

Module HashtableHash.

Record t := mk { map : gmap bytes bytes; nbytes : nat }.

Definition with_capacity (n : nat) : t := {| map := ∅; nbytes := 0 |}.

Definition from_map `{HashOrder} (m : gmap bytes bytes) : t :=
  {| map := m; nbytes := sum_list_with pair_len (hm_iter m) |}.

Definition len (h : t) : nat := size (map h).

Definition payload_bytes (h : t) : nat := nbytes h.

Definition insert (h : t) (field val : bytes) : bool * Z * t :=
  let fl := length field in
  let vl := length val in
  let m := <[field := val]> (map h) in
  match map h !! field with
  | None => (true, Z.of_nat (fl + vl), {| map := m; nbytes := nbytes h + (fl + vl) |})
  | Some old =>
      let ol := length old in
      (false, (Z.of_nat vl - Z.of_nat ol)%Z, {| map := m; nbytes := nbytes h - ol + vl |})
  end.

Definition get (h : t) (field : bytes) : option bytes := map h !! field.

Definition contains_key (h : t) (field : bytes) : bool := bool_decide (is_Some (map h !! field)).

Definition remove (h : t) (field : bytes) : option (bytes * Z) * t :=
  match map h !! field with
  | None => (None, h)
  | Some v =>
      (Some (v, (- Z.of_nat (length field + length v))%Z),
       {| map := delete field (map h); nbytes := nbytes h - length field - length v |})
  end.

Definition drain_into_pairs `{HashOrder} (h : t) : list (bytes * bytes) := hm_iter (map h).

End HashtableHash.

(** ** The compact encoding *)

Module CompactHash.

Record t := mk { buf : bytes; len : nat; nbytes : nat }.

Definition new : t := {| buf := []; len := 0; nbytes := 0 |}.

Definition with_capacity (n payload : nat) : t := {| buf := []; len := 0; nbytes := 0 |}.

Definition append_pair (c : t) (field val : bytes) : t :=
  {| buf := buf c ++ le_bytes 4 (Z.of_nat (length field)) ++ field
                  ++ le_bytes 4 (Z.of_nat (length val)) ++ val;
     len := len c + 1;
     nbytes := nbytes c + (length field + length val) |}.

(** The linear scan of [insert] and [get]: where the pair of [field] starts,
    where its value's length prefix is, and that length. *)
Fixpoint find_field (b field : bytes) (off n : nat) : may_panic (option (nat * nat * nat)) :=
  match n with
  | 0 => Some None
  | S n =>
      fl ← read_u32 b off;
      f ← slice b (off + 4) (off + 4 + fl);
      let vo := off + 4 + fl in
      vl ← read_u32 b vo;
      if bool_decide (f = field) then Some (Some (off, vo, vl))
      else find_field b field (vo + 4 + vl) n
  end.

Definition insert (c : t) (field val : bytes) : may_panic (bool * Z * t) :=
  r ← find_field (buf c) field 0 (len c);
  match r with
  | Some (off, vo, vl) =>
      let old_end := vo + 4 + vl in
      if bool_decide (vl = length val) then
        b ← overwrite (buf c) (vo + 4) val;
        Some (false, 0%Z, {| buf := b; len := len c; nbytes := nbytes c |})
      else
        pre ← slice (buf c) 0 off;
        post ← slice (buf c) old_end (length (buf c));
        let new_buf := pre ++ post ++ le_bytes 4 (Z.of_nat (length field)) ++ field
                           ++ le_bytes 4 (Z.of_nat (length val)) ++ val in
        let delta := (Z.of_nat (length val) - Z.of_nat vl)%Z in
        nb ← checked_sub (nbytes c) vl;
        Some (false, delta, {| buf := new_buf; len := len c; nbytes := nb + length val |})
  | None =>
      let delta := Z.of_nat (length field + length val) in
      Some (true, delta, append_pair c field val)
  end.

Definition get (c : t) (field : bytes) : may_panic (option bytes) :=
  r ← find_field (buf c) field 0 (len c);
  match r with
  | Some (_, vo, vl) => v ← slice (buf c) (vo + 4) (vo + 4 + vl); Some (Some v)
  | None => Some None
  end.

Definition contains_key (c : t) (field : bytes) : may_panic bool :=
  r ← get c field; Some (bool_decide (is_Some r)).

(** The rebuilding loop of [remove]: the pair found, the kept bytes, their
    number of pairs and their payload. *)
Fixpoint remove_loop (b field : bytes) (off n : nat) (found : option (bytes * Z))
    (new_buf : bytes) (new_len new_bytes : nat)
  : may_panic (option (bytes * Z) * bytes * nat * nat) :=
  match n with
  | 0 => Some (found, new_buf, new_len, new_bytes)
  | S n =>
      fl ← read_u32 b off;
      f ← slice b (off + 4) (off + 4 + fl);
      let vo := off + 4 + fl in
      vl ← read_u32 b vo;
      v ← slice b (vo + 4) (vo + 4 + vl);
      if bool_decide (f = field /\ found = None) then
        remove_loop b field (vo + 4 + vl) n (Some (v, (- Z.of_nat (fl + vl))%Z))
          new_buf new_len new_bytes
      else
        kept ← slice b off (vo + 4 + vl);
        remove_loop b field (vo + 4 + vl) n found
          (new_buf ++ kept) (new_len + 1) (new_bytes + (fl + vl))
  end.

Definition remove (c : t) (field : bytes) : may_panic (option (bytes * Z) * t) :=
  '(found, new_buf, new_len, new_bytes) ← remove_loop (buf c) field 0 (len c) None [] 0 0;
  match found with
  | Some r => Some (Some r, {| buf := new_buf; len := new_len; nbytes := new_bytes |})
  | None => Some (None, c)
  end.

(** [CompactHashIter] (and its borrowing twin) run to the end. *)
Fixpoint iter_pairs_from (b : bytes) (off remaining : nat) : may_panic (list (bytes * bytes)) :=
  match remaining with
  | 0 => Some []
  | S r =>
      fl ← read_u32 b off;
      f ← slice b (off + 4) (off + 4 + fl);
      let vo := off + 4 + fl in
      vl ← read_u32 b vo;
      v ← slice b (vo + 4) (vo + 4 + vl);
      ps ← iter_pairs_from b (vo + 4 + vl) r;
      Some ((f, v) :: ps)
  end.

Definition iter_pairs (c : t) : may_panic (list (bytes * bytes)) :=
  iter_pairs_from (buf c) 0 (len c).

Definition hgetall_resp_need (c : t) : nat :=
  let n := len c * 2 in 16 + n * 12 + nbytes c.

End CompactHash.

(** ** The dual encoding *)

Inductive HashData :=
  | Compact (c : CompactHash.t)
  | Hashtable (h : HashtableHash.t).

Definition new : HashData := Compact CompactHash.new.

Definition from_map `{HashOrder} (m : gmap bytes bytes) : HashData :=
  Hashtable (HashtableHash.from_map m).

Definition len (h : HashData) : nat :=
  match h with
  | Compact c => CompactHash.len c
  | Hashtable t => HashtableHash.len t
  end.

Definition is_empty (h : HashData) : bool := bool_decide (len h = 0).

Definition encoding_name (h : HashData) : string :=
  match h with
  | Compact _ => "listpack"
  | Hashtable _ => "hashtable"
  end.

Definition payload_bytes (h : HashData) : nat :=
  match h with
  | Compact c => CompactHash.nbytes c
  | Hashtable t => HashtableHash.payload_bytes t
  end.

Definition ensure_hashtable (h : HashData) : may_panic HashtableHash.t :=
  match h with
  | Hashtable t => Some t
  | Compact c =>
      ps ← CompactHash.iter_pairs c;
      let t := fold_left (fun t p => (HashtableHash.insert t p.1 p.2).2) ps
                 (HashtableHash.with_capacity (CompactHash.len c)) in
      Some {| HashtableHash.map := HashtableHash.map t; HashtableHash.nbytes := CompactHash.nbytes c |}
  end.

Fixpoint demote_fits (thr : HashThresholds) (total : nat) (ps : list (bytes * bytes)) : bool :=
  match ps with
  | [] => true
  | (k, v) :: ps =>
      if bool_decide (max_value thr < length v \/ max_value thr < length k) then false
      else if bool_decide (max_size thr < total + (length k + length v)) then false
      else demote_fits thr (total + (length k + length v)) ps
  end.

Definition maybe_demote `{HashOrder} (thr : HashThresholds) (h : HashData) : HashData :=
  match h with
  | Compact _ => h
  | Hashtable t =>
      if bool_decide (demote_entries thr < HashtableHash.len t) then h
      else if demote_fits thr 0 (hm_iter (HashtableHash.map t)) then
        Compact (fold_left (fun c p => CompactHash.append_pair c p.1 p.2)
                   (HashtableHash.drain_into_pairs t)
                   (CompactHash.with_capacity (HashtableHash.len t) (HashtableHash.payload_bytes t)))
      else h
  end.

Definition contains_key (h : HashData) (field : bytes) : may_panic bool :=
  match h with
  | Compact c => CompactHash.contains_key c field
  | Hashtable t => Some (HashtableHash.contains_key t field)
  end.

Definition insert_table (t : HashtableHash.t) (field val : bytes) : bool * Z * HashData :=
  let '(n, d, t') := HashtableHash.insert t field val in (n, d, Hashtable t').

Definition insert (thr : HashThresholds) (h : HashData) (field val : bytes)
  : may_panic (bool * Z * HashData) :=
  match h with
  | Hashtable t => Some (insert_table t field val)
  | Compact c =>
      if bool_decide (max_value thr < length field \/ max_value thr < length val) then
        t ← ensure_hashtable h; Some (insert_table t field val)
      else
        let maybe_need_promote :=
          bool_decide (max_entries thr <= CompactHash.len c \/
                       max_size thr < CompactHash.nbytes c + length field + length val) in
        present ← (if maybe_need_promote then contains_key h field else Some true);
        if negb present then
          t ← ensure_hashtable h; Some (insert_table t field val)
        else
          '(n, d, c') ← CompactHash.insert c field val;
          Some (n, d, Compact c')
  end.

Definition get (h : HashData) (field : bytes) : may_panic (option bytes) :=
  match h with
  | Compact c => CompactHash.get c field
  | Hashtable t => Some (HashtableHash.get t field)
  end.

Definition remove `{HashOrder} (thr : HashThresholds) (h : HashData) (field : bytes)
  : may_panic (option (bytes * Z) * HashData) :=
  '(v, h') ← match h with
             | Compact c => '(v, c') ← CompactHash.remove c field; Some (v, Compact c')
             | Hashtable t => let '(v, t') := HashtableHash.remove t field in Some (v, Hashtable t')
             end;
  Some (v, match v with Some _ => maybe_demote thr h' | None => h' end).

Definition to_pairs `{HashOrder} (h : HashData) : may_panic (list (bytes * bytes)) :=
  match h with
  | Compact c => CompactHash.iter_pairs c
  | Hashtable t => Some (hm_iter (HashtableHash.map t))
  end.

Definition keys `{HashOrder} (h : HashData) : may_panic (list bytes) :=
  match h with
  | Compact c => ps ← CompactHash.iter_pairs c; Some ps.*1
  | Hashtable t => Some (hm_iter (HashtableHash.map t)).*1
  end.

Definition values `{HashOrder} (h : HashData) : may_panic (list bytes) :=
  match h with
  | Compact c => ps ← CompactHash.iter_pairs c; Some ps.*2
  | Hashtable t => Some (hm_iter (HashtableHash.map t)).*2
  end.

Inductive HashGetAllSnap :=
  | SnapCompact (buf : bytes) (count need : nat)
  | SnapHashtable (pairs : list (bytes * bytes)).

Definition hgetall_snap `{HashOrder} (h : HashData) : HashGetAllSnap :=
  match h with
  | Compact c => SnapCompact (CompactHash.buf c) (CompactHash.len c) (CompactHash.hgetall_resp_need c)
  | Hashtable t => SnapHashtable (hm_iter (HashtableHash.map t))
  end.

(** [CompactHashBulkIter::new(buf, count)] run to the end: fields and values
    alternating. *)
Definition bulk_iter (b : bytes) (pairs : nat) : may_panic (list bytes) := walk b 0 (pairs * 2).

(** ** Abstraction of the compact encoding *)

(** Fields and values in the order they are packed. *)
Definition flat (kvs : list (bytes * bytes)) : list bytes := concat (map (fun p => [p.1; p.2]) kvs).

Record crepr (c : CompactHash.t) (kvs : list (bytes * bytes)) : Prop := mk_crepr {
  cr_buf : CompactHash.buf c = frames (flat kvs);
  cr_len : CompactHash.len c = length kvs;
  cr_bytes : CompactHash.nbytes c = sum_list_with pair_len kvs;
  cr_nodup : NoDup kvs.*1;
  cr_sized : Forall u32_sized (flat kvs);
}.

Lemma flat_app k1 k2 : flat (k1 ++ k2) = flat k1 ++ flat k2.
Proof. unfold flat. by rewrite map_app, concat_app. Qed.

Lemma flat_cons f v kvs : flat ((f, v) :: kvs) = f :: v :: flat kvs.
Proof. done. Qed.

Lemma flat_nil : flat [] = [].
Proof. done. Qed.

Lemma length_flat kvs : length (flat kvs) = length kvs * 2.
Proof. induction kvs as [|[f v] kvs IH]; [done|]. rewrite flat_cons. simpl. lia. Qed.

Lemma flat_fmap_keys kvs f : f ∈ kvs.*1 -> f ∈ flat kvs.
Proof.
  induction kvs as [|[g v] kvs IH]; simpl; [done|].
  rewrite flat_cons, !elem_of_cons. naive_solver.
Qed.

#[global] Arguments flat : simpl never.

(** Reading one packed pair. *)
Lemma read_pair b pre f v post :
  b = pre ++ frames (flat [(f, v)]) ++ post -> u32_sized f -> u32_sized v ->
  read_u32 b (length pre) = Some (length f) /\
  slice b (length pre + 4) (length pre + 4 + length f) = Some f /\
  read_u32 b (length pre + 4 + length f) = Some (length v) /\
  slice b (length pre + 4 + length f + 4) (length pre + 4 + length f + 4 + length v) = Some v /\
  slice b (length pre) (length pre + 4 + length f + 4 + length v) = Some (frames (flat [(f, v)])) /\
  length pre + 4 + length f + 4 + length v = length (pre ++ frames (flat [(f, v)])).
Proof.
  rewrite flat_cons, frames_cons, frames_one. intros -> Hf Hv.
  assert (pre ++ (frame f ++ frame v) ++ post = (pre ++ frame f) ++ frame v ++ post) as E
    by (by rewrite <- !app_assoc).
  assert (length pre + 4 + length f = length (pre ++ frame f)) as El by len.
  split_and!.
  - eapply read_u32_frame; [by rewrite <- app_assoc|done..].
  - eapply slice_frame; [by rewrite <- app_assoc|done..].
  - rewrite El. eapply read_u32_frame; [exact E|done..].
  - rewrite El. eapply slice_frame; [exact E|done..].
  - eapply slice_mid; [done|done|]. len.
  - len.
Qed.

(** The pair packed at the front of [kvs]. *)
Lemma read_pair_cons b pre f v kvs post :
  b = pre ++ frames (flat ((f, v) :: kvs)) ++ post -> Forall u32_sized (flat ((f, v) :: kvs)) ->
  b = pre ++ frames (flat [(f, v)]) ++ (frames (flat kvs) ++ post) /\
  b = (pre ++ frames (flat [(f, v)])) ++ frames (flat kvs) ++ post /\
  u32_sized f /\ u32_sized v /\ Forall u32_sized (flat kvs).
Proof.
  rewrite !flat_cons, !Forall_cons. intros -> (? & ? & ?).
  assert (frames (f :: v :: flat kvs) = frames [f; v] ++ frames (flat kvs)) as ->
    by (by rewrite <- frames_app).
  by rewrite <- !app_assoc.
Qed.

(** Opens the scan of one packed pair: reads resolved, [pre] advanced. *)
Ltac scan_pair E Hs :=
  let E1 := fresh "E1" in let E2 := fresh "E2" in
  let Hf := fresh "Hf" in let Hv := fresh "Hv" in
  destruct (read_pair_cons _ _ _ _ _ _ E Hs) as (E1 & E2 & Hf & Hv & Hs');
  destruct (read_pair _ _ _ _ _ E1 Hf Hv) as (Rf & Sf & Rv & Sv & Sp & Lp).

Lemma find_field_none b pre kvs post field :
  b = pre ++ frames (flat kvs) ++ post -> Forall u32_sized (flat kvs) -> field ∉ kvs.*1 ->
  CompactHash.find_field b field (length pre) (length kvs) = Some None.
Proof.
  revert pre. induction kvs as [|[f v] kvs IH]; intros pre E Hs Hn; [done|].
  scan_pair E Hs. simpl. rewrite Rf. mstep. rewrite Sf. mstep. rewrite Rv. mstep.
  simpl in Hn. rewrite bool_decide_eq_false_2 by set_solver.
  rewrite Lp. apply IH; [done|done|set_solver].
Qed.

Lemma find_field_some b pre k1 v k2 post field :
  b = pre ++ frames (flat (k1 ++ (field, v) :: k2)) ++ post ->
  Forall u32_sized (flat (k1 ++ (field, v) :: k2)) -> field ∉ k1.*1 ->
  let off := length pre + length (frames (flat k1)) in
  CompactHash.find_field b field (length pre) (length (k1 ++ (field, v) :: k2))
    = Some (Some (off, off + 4 + length field, length v)).
Proof.
  revert pre. induction k1 as [|[f w] k1 IH]; intros pre E Hs Hn; simpl app in *.
  - scan_pair E Hs. simpl. rewrite Rf. mstep. rewrite Sf. mstep. rewrite Rv. mstep.
    rewrite bool_decide_eq_true_2 by done. unfold flat at 1 2. simpl.
    rewrite frames_nil. simpl. by rewrite Nat.add_0_r.
  - scan_pair E Hs. simpl. rewrite Rf. mstep. rewrite Sf. mstep. rewrite Rv. mstep.
    simpl in Hn. rewrite bool_decide_eq_false_2 by set_solver.
    rewrite Lp, (IH (pre ++ frames (flat [(f, w)]))); [|done|done|set_solver].
    replace (length (pre ++ frames (flat [(f, w)])) + length (frames (flat k1)))
      with (length pre + length (frames (flat ((f, w) :: k1)))); [done|].
    rewrite (flat_app [(f, w)] k1 : flat ((f, w) :: k1) = _), frames_app, !length_app. lia.
Qed.

Lemma iter_pairs_from_spec b pre kvs post :
  b = pre ++ frames (flat kvs) ++ post -> Forall u32_sized (flat kvs) ->
  CompactHash.iter_pairs_from b (length pre) (length kvs) = Some kvs.
Proof.
  revert pre. induction kvs as [|[f v] kvs IH]; intros pre E Hs; [done|].
  scan_pair E Hs. simpl. rewrite Rf. mstep. rewrite Sf. mstep. rewrite Rv. mstep. rewrite Sv. mstep.
  rewrite Lp, IH by done. done.
Qed.

(** Once the field is found, or when it does not occur, [remove] copies. *)
Lemma remove_loop_copy b pre kvs post field found nb nl ny :
  b = pre ++ frames (flat kvs) ++ post -> Forall u32_sized (flat kvs) ->
  (found <> None \/ field ∉ kvs.*1) ->
  CompactHash.remove_loop b field (length pre) (length kvs) found nb nl ny
    = Some (found, nb ++ frames (flat kvs), nl + length kvs, ny + sum_list_with pair_len kvs).
Proof.
  revert pre nb nl ny. induction kvs as [|[f v] kvs IH]; intros pre nb nl ny E Hs Hn.
  - simpl. unfold flat. simpl. rewrite frames_nil, app_nil_r. do 2 f_equal; [f_equal|]; lia.
  - scan_pair E Hs. simpl. rewrite Rf. mstep. rewrite Sf. mstep. rewrite Rv. mstep. rewrite Sv. mstep.
    simpl in Hn. rewrite bool_decide_eq_false_2 by set_solver. rewrite Sp. mstep.
    rewrite Lp, IH; [|done|done|set_solver].
    rewrite (flat_app [(f, v)] kvs : flat ((f, v) :: kvs) = _), frames_app, <- app_assoc.
    unfold pair_len. simpl. do 2 f_equal; [f_equal|]; lia.
Qed.

Lemma hash_remove_loop_hit b pre k1 v k2 post field nb nl ny :
  b = pre ++ frames (flat (k1 ++ (field, v) :: k2)) ++ post ->
  Forall u32_sized (flat (k1 ++ (field, v) :: k2)) -> field ∉ k1.*1 ->
  CompactHash.remove_loop b field (length pre) (length (k1 ++ (field, v) :: k2)) None nb nl ny
    = Some (Some (v, (- Z.of_nat (length field + length v))%Z), nb ++ frames (flat (k1 ++ k2)),
            nl + length (k1 ++ k2), ny + sum_list_with pair_len (k1 ++ k2)).
Proof.
  revert pre nb nl ny. induction k1 as [|[f w] k1 IH]; intros pre nb nl ny E Hs Hn; simpl app in *.
  - scan_pair E Hs. simpl. rewrite Rf. mstep. rewrite Sf. mstep. rewrite Rv. mstep. rewrite Sv. mstep.
    rewrite bool_decide_eq_true_2 by done. rewrite Lp. eapply remove_loop_copy; eauto.
  - scan_pair E Hs. simpl. rewrite Rf. mstep. rewrite Sf. mstep. rewrite Rv. mstep. rewrite Sv. mstep.
    simpl in Hn. rewrite bool_decide_eq_false_2 by set_solver. rewrite Sp. mstep.
    rewrite Lp, IH; [|done|done|set_solver].
    rewrite (flat_app [(f, w)] (k1 ++ k2) : flat ((f, w) :: k1 ++ k2) = _), frames_app, <- app_assoc.
    unfold pair_len. simpl. do 2 f_equal; [f_equal|]; lia.
Qed.

(** ** The compact operations on the packed pairs *)

Lemma hash_crepr_new : crepr CompactHash.new [].
Proof. by split; [rewrite flat_nil, frames_nil| | |constructor|constructor]. Qed.

Lemma hash_crepr_iter c kvs : crepr c kvs -> CompactHash.iter_pairs c = Some kvs.
Proof.
  intros []. unfold CompactHash.iter_pairs. rewrite cr_len0.
  eapply (iter_pairs_from_spec _ []); [by rewrite cr_buf0, app_nil_r|done].
Qed.

Lemma hash_crepr_append c kvs f v : crepr c kvs -> u32_sized f -> u32_sized v -> f ∉ kvs.*1 ->
  crepr (CompactHash.append_pair c f v) (kvs ++ [(f, v)]).
Proof.
  intros [] Hf Hv Hn. split; simpl.
  - rewrite cr_buf0, flat_app, frames_app, flat_cons, frames_cons, frames_one, !frame_eq.
    by rewrite <- !app_assoc.
  - rewrite length_app. simpl. lia.
  - rewrite sum_list_with_app. simpl. unfold pair_len at 2. simpl. lia.
  - by apply NoDup_keys_snoc.
  - rewrite flat_app. apply Forall_app. split; [done|]. by repeat constructor.
Qed.

Lemma crepr_find c kvs f : crepr c kvs ->
  match (list_to_map kvs : gmap bytes bytes) !! f with
  | None => CompactHash.find_field (CompactHash.buf c) f 0 (CompactHash.len c) = Some None
  | Some v => exists k1 k2, kvs = k1 ++ (f, v) :: k2 /\ f ∉ k1.*1 /\ f ∉ k2.*1 /\
      NoDup (k1 ++ k2).*1 /\
      CompactHash.find_field (CompactHash.buf c) f 0 (CompactHash.len c)
        = Some (Some (length (frames (flat k1)), length (frames (flat k1)) + 4 + length f, length v))
  end.
Proof.
  intros []. destruct (list_to_map kvs !! f) as [v|] eqn:E.
  - destruct (list_to_map_split _ _ _ cr_nodup0 E) as (k1 & k2 & -> & H1 & H2 & H3).
    exists k1, k2. split_and!; [done..|]. rewrite cr_len0.
    apply (find_field_some _ [] k1 v k2 []); [by rewrite cr_buf0, app_nil_r|done|done].
  - rewrite cr_len0. apply (find_field_none _ [] kvs []); [by rewrite cr_buf0, app_nil_r|done|].
    by apply not_elem_of_list_to_map_2.
Qed.

Lemma crepr_get c kvs f : crepr c kvs ->
  CompactHash.get c f = Some ((list_to_map kvs : gmap bytes bytes) !! f).
Proof.
  intros Hc. pose proof (crepr_find _ _ f Hc) as Hf. unfold CompactHash.get.
  destruct (list_to_map kvs !! f) as [v|]; [|by rewrite Hf].
  destruct Hf as (k1 & k2 & E & ? & ? & ? & ->). mstep. destruct Hc.
  rewrite (slice_mid _ (frames (flat k1) ++ frame f ++ le_bytes 4 (Z.of_nat (length v))) v (frames (flat k2)));
    [done| |len|lia].
  by rewrite cr_buf0, E, flat_app, frames_app, flat_cons, !frames_cons, frame_eq, <- !app_assoc.
Qed.

(** Cutting one pair out of the packed buffer. *)
Lemma crepr_cut c k1 f v k2 : crepr c (k1 ++ (f, v) :: k2) ->
  CompactHash.buf c = frames (flat k1) ++ frames (flat [(f, v)]) ++ frames (flat k2) /\
  length (frames (flat [(f, v)])) = 4 + length f + 4 + length v /\
  u32_sized f /\ u32_sized v /\ Forall u32_sized (flat (k1 ++ k2)).
Proof.
  intros []. rewrite flat_app, flat_cons, !Forall_app, !Forall_cons in cr_sized0.
  rewrite cr_buf0, flat_app, (flat_app [(f, v)] k2 : flat ((f, v) :: k2) = _), !frames_app.
  rewrite flat_app, Forall_app. destruct cr_sized0 as (? & ? & ? & ?).
  split_and!; try done. rewrite length_frames, flat_cons, flat_nil. len.
Qed.

Lemma hash_crepr_remove c kvs f : crepr c kvs -> exists c' kvs',
  CompactHash.remove c f = Some ((v ← (list_to_map kvs : gmap bytes bytes) !! f;
                                  Some (v, (- Z.of_nat (length f + length v))%Z)), c') /\
  crepr c' kvs' /\
  (list_to_map kvs' : gmap bytes bytes) = delete f (list_to_map kvs).
Proof.
  intros Hc. unfold CompactHash.remove. destruct (list_to_map kvs !! f) as [v|] eqn:E; pose proof Hc as [].
  - destruct (list_to_map_split _ _ _ cr_nodup0 E) as (k1 & k2 & -> & H1 & H2 & H3).
    rewrite cr_len0, (hash_remove_loop_hit _ [] k1 v k2 []); [|by rewrite cr_buf0, app_nil_r|done|done].
    mstep. eexists _, (k1 ++ k2). split_and!; [done| |].
    + split; simpl; try done. by destruct (crepr_cut _ _ _ _ _ Hc) as (_ & _ & _ & _ & ?).
    + rewrite list_to_map_middle, delete_insert_id by
        (done || by apply list_to_map_middle_None). done.
  - rewrite cr_len0, (remove_loop_copy _ [] kvs []); [|by rewrite cr_buf0, app_nil_r|done|].
    + mstep. exists c, kvs. split_and!; [done..|]. by rewrite delete_id.
    + right. by apply not_elem_of_list_to_map_2.
Qed.

(** Overwriting a value of the same length in place. *)
Lemma crepr_replace c k1 f v k2 w : crepr c (k1 ++ (f, v) :: k2) -> length w = length v ->
  exists b, overwrite (CompactHash.buf c) (length (frames (flat k1)) + 4 + length f + 4) w = Some b /\
    crepr {| CompactHash.buf := b; CompactHash.len := CompactHash.len c;
             CompactHash.nbytes := CompactHash.nbytes c |} (k1 ++ (f, w) :: k2).
Proof.
  intros Hc Hw. destruct (crepr_cut _ _ _ _ _ Hc) as (Eb & El & Hsf & Hsv & Hs). destruct Hc.
  erewrite (overwrite_mid _ (frames (flat k1) ++ frame f ++ le_bytes 4 (Z.of_nat (length v))) v (frames (flat k2)));
    [|rewrite Eb, flat_cons, flat_nil, frames_cons, frames_one, (frame_eq v); by rewrite <- !app_assoc|len|lia].
  eexists. split; [done|]. split; simpl.
  - rewrite flat_app, flat_cons, frames_app, !frames_cons, (frame_eq w), <- !app_assoc.
    by rewrite Hw.
  - rewrite cr_len0. len.
  - rewrite cr_bytes0, !sum_list_with_app. simpl. unfold pair_len at 2 5. simpl. lia.
  - by rewrite fmap_app, fmap_cons in *.
  - rewrite flat_app, flat_cons, Forall_app, !Forall_cons in *. unfold u32_sized in *. by rewrite Hw.
Qed.

(** Replacing a value of another length: the pair moves to the end. *)
Lemma crepr_move c k1 f v k2 w : crepr c (k1 ++ (f, v) :: k2) -> u32_sized w ->
  let off := length (frames (flat k1)) in
  exists pre post nb,
    slice (CompactHash.buf c) 0 off = Some pre /\
    slice (CompactHash.buf c) (off + 4 + length f + 4 + length v) (length (CompactHash.buf c)) = Some post /\
    checked_sub (CompactHash.nbytes c) (length v) = Some nb /\
    crepr {| CompactHash.buf := pre ++ post ++ le_bytes 4 (Z.of_nat (length f)) ++ f
                                  ++ le_bytes 4 (Z.of_nat (length w)) ++ w;
             CompactHash.len := CompactHash.len c;
             CompactHash.nbytes := nb + length w |} ((k1 ++ k2) ++ [(f, w)]).
Proof.
  intros Hc Hw off. destruct (crepr_cut _ _ _ _ _ Hc) as (Eb & El & Hsf & Hsv & Hs). destruct Hc.
  rewrite sum_list_with_app in cr_bytes0. simpl in cr_bytes0.
  unfold pair_len at 2 in cr_bytes0. simpl in cr_bytes0.
  exists (frames (flat k1)), (frames (flat k2)), (CompactHash.nbytes c - length v).
  split_and!.
  - apply (slice_mid _ [] _ (frames (flat [(f, v)]) ++ frames (flat k2))); [done|done|lia].
  - apply (slice_mid _ (frames (flat k1) ++ frames (flat [(f, v)])) _ []);
      rewrite ?app_nil_r, <- ?app_assoc; [done| |]; rewrite ?Eb, !length_app, El; lia.
  - apply checked_sub_ok. lia.
  - split; simpl.
    + rewrite !flat_app, !frames_app, flat_cons, flat_nil, frames_cons, frames_one, !frame_eq.
      by rewrite <- !app_assoc.
    + rewrite cr_len0. len.
    + rewrite !sum_list_with_app. simpl. unfold pair_len at 3. simpl. lia.
    + apply NoDup_keys_remove in cr_nodup0 as (? & ? & ?).
      apply NoDup_keys_snoc; [done|]. rewrite fmap_app. set_solver.
    + rewrite flat_app, Forall_app. split; [done|by repeat constructor].
Qed.

Lemma crepr_insert c kvs f w : crepr c kvs -> u32_sized f -> u32_sized w -> exists c' kvs',
  CompactHash.insert c f w
    = Some (match (list_to_map kvs : gmap bytes bytes) !! f with
            | None => (true, Z.of_nat (length f + length w), c')
            | Some v => (false, (Z.of_nat (length w) - Z.of_nat (length v))%Z, c')
            end) /\
  crepr c' kvs' /\ (list_to_map kvs' : gmap bytes bytes) = <[f := w]> (list_to_map kvs).
Proof.
  intros Hc Hf Hw. pose proof (crepr_find _ _ f Hc) as Hfd. unfold CompactHash.insert.
  destruct (list_to_map kvs !! f) as [v|] eqn:E.
  - destruct Hfd as (k1 & k2 & -> & H1 & H2 & H3 & ->). mstep.
    rewrite (list_to_map_middle k1 k2 f v), insert_insert_eq by done.
    case_bool_decide as Hvl.
    + destruct (crepr_replace _ _ _ _ _ w Hc) as (b & Eo & Hr); [done|].
      rewrite Eo. mstep. eexists _, _. split_and!; [|exact Hr|by apply list_to_map_middle].
      do 3 f_equal. lia.
    + destruct (crepr_move _ _ _ _ _ w Hc Hw) as (pre & post & nb & E1 & E2 & E3 & Hr).
      rewrite E1. mstep. rewrite E2. mstep. rewrite E3. mstep.
      eexists _, _. split_and!; [done|exact Hr|].
      apply list_to_map_snoc. rewrite fmap_app. set_solver.
  - rewrite Hfd. mstep. exists (CompactHash.append_pair c f w), (kvs ++ [(f, w)]).
    apply not_elem_of_list_to_map_2 in E as Hn.
    split_and!; [done|by apply hash_crepr_append|by apply list_to_map_snoc].
Qed.

(** ** The two encodings as one finite map *)

(** Payload of a finite map. *)
Definition psize (m : gmap bytes bytes) : nat := sum_list_with pair_len (map_to_list m).

Lemma psize_insert_new m f v : m !! f = None -> psize (<[f := v]> m) = length f + length v + psize m.
Proof. intros H. unfold psize. by rewrite map_to_list_insert. Qed.

Lemma psize_delete m f v : m !! f = Some v -> psize m = length f + length v + psize (delete f m).
Proof.
  intros H. rewrite <- (psize_insert_new (delete f m) f v) by apply lookup_delete_eq.
  by rewrite insert_delete_id.
Qed.

Lemma psize_insert_old m f v w : m !! f = Some v ->
  psize (<[f := w]> m) + length v = psize m + length w.
Proof.
  intros H. rewrite (psize_delete _ _ _ H), <- insert_delete_eq, psize_insert_new
    by apply lookup_delete_eq. lia.
Qed.

Lemma psize_list_to_map kvs : NoDup kvs.*1 -> psize (list_to_map kvs) = sum_list_with pair_len kvs.
Proof. intros H. unfold psize. by rewrite map_to_list_to_map. Qed.

Lemma psize_iter `{HashOrder} m : sum_list_with pair_len (hm_iter m) = psize m.
Proof. unfold psize. by rewrite hm_iter_perm. Qed.

Definition repr (h : HashData) (m : gmap bytes bytes) : Prop :=
  match h with
  | Compact c => exists kvs, crepr c kvs /\ m = list_to_map kvs
  | Hashtable t => HashtableHash.map t = m /\ HashtableHash.nbytes t = psize m
  end.

(** A [max_value] setting that keeps compact lengths in their [u32] prefix. *)
Definition thr_sane (thr : HashThresholds) : Prop := (Z.of_nat (max_value thr) < 2 ^ 32)%Z.

#[export] Instance thr_sane_dec thr : Decision (thr_sane thr).
Proof. unfold thr_sane. apply _. Defined.

Lemma hash_repr_new : repr new ∅.
Proof. exists []. split; [apply hash_crepr_new|done]. Qed.

Lemma hash_repr_payload h m : repr h m -> payload_bytes h = psize m.
Proof.
  destruct h as [c|t]; [intros (kvs & [] & ->)|by intros [? ?]].
  simpl. by rewrite psize_list_to_map.
Qed.

Lemma hash_repr_len h m : repr h m -> len h = size m.
Proof.
  destruct h as [c|t]; [intros (kvs & [] & ->)|by intros [<- ?]].
  simpl. rewrite cr_len0, <- length_map_to_list. by rewrite map_to_list_to_map.
Qed.

(** The table operations on the map they hold. *)
Lemma hash_table_insert t m f w : HashtableHash.map t = m -> HashtableHash.nbytes t = psize m ->
  HashtableHash.insert t f w
    = (bool_decide (m !! f = None), (Z.of_nat (psize (<[f := w]> m)) - Z.of_nat (psize m))%Z,
       {| HashtableHash.map := <[f := w]> m; HashtableHash.nbytes := psize (<[f := w]> m) |}).
Proof.
  intros <- Hb. unfold HashtableHash.insert. destruct (HashtableHash.map t !! f) as [v|] eqn:E.
  - pose proof (psize_insert_old _ _ _ w E). pose proof (psize_delete _ _ _ E).
    rewrite Hb, bool_decide_eq_false_2 by done. f_equal; f_equal; lia.
  - rewrite psize_insert_new, Hb by done.
    rewrite bool_decide_eq_true_2 by done. f_equal; f_equal; lia.
Qed.

Lemma repr_ensure_hashtable h m : repr h m -> exists t,
  ensure_hashtable h = Some t /\ HashtableHash.map t = m /\ HashtableHash.nbytes t = psize m.
Proof.
  destruct h as [c|t]; [intros (kvs & Hc & ->)|intros [? ?]; eauto].
  simpl. rewrite (hash_crepr_iter _ _ Hc). mstep. eexists. split; [done|]. simpl. destruct Hc.
  split; [|by rewrite psize_list_to_map].
  transitivity (fold_left (fun m p => <[p.1 := p.2]> m) kvs (∅ : gmap bytes bytes)).
  - change ∅ with (HashtableHash.map (HashtableHash.with_capacity (CompactHash.len c))).
    generalize (HashtableHash.with_capacity (CompactHash.len c)). clear.
    induction kvs as [|[f v] kvs IH]; intros t; [done|]. simpl. rewrite IH. f_equal.
    unfold HashtableHash.insert. by case_match.
  - by rewrite fold_insert_list_to_map, map_union_empty.
Qed.

Lemma demote_fits_small thr t ps : demote_fits thr t ps = true ->
  Forall (fun p : bytes * bytes => length p.1 <= max_value thr /\ length p.2 <= max_value thr) ps.
Proof.
  revert t. induction ps as [|[k v] ps IH]; intros t; [constructor|].
  simpl. repeat case_bool_decide; try done. intros. constructor; [simpl; lia|eauto].
Qed.

Lemma hash_crepr_fold_append ps c kvs : crepr c kvs -> Forall u32_sized (flat ps) -> NoDup (kvs ++ ps).*1 ->
  crepr (fold_left (fun c p => CompactHash.append_pair c p.1 p.2) ps c) (kvs ++ ps).
Proof.
  revert c kvs. induction ps as [|[f v] ps IH]; intros c kvs Hc Hs Hn; [by rewrite app_nil_r|].
  rewrite flat_cons, !Forall_cons in Hs. destruct Hs as (? & ? & ?). simpl.
  rewrite (app_assoc kvs [(f, v)] ps : kvs ++ (f, v) :: ps = _) in *.
  apply IH; [|done|done]. apply hash_crepr_append; [done..|].
  rewrite <- app_assoc in Hn. by apply NoDup_keys_remove in Hn as (_ & ? & _).
Qed.

Lemma u32_sized_flat thr ps : thr_sane thr ->
  Forall (fun p : bytes * bytes => length p.1 <= max_value thr /\ length p.2 <= max_value thr) ps ->
  Forall u32_sized (flat ps).
Proof.
  intros Ht. induction 1 as [|[f v] ps [? ?] ? IH]; [by rewrite flat_nil|].
  rewrite flat_cons. unfold thr_sane, u32_sized in *. simpl in *. repeat constructor; [lia..|done].
Qed.

Lemma hash_repr_maybe_demote `{HashOrder} thr h m : thr_sane thr -> repr h m -> repr (maybe_demote thr h) m.
Proof.
  intros Ht Hr. destruct h as [c|t]; [done|]. unfold maybe_demote.
  case_bool_decide; [done|]. destruct (demote_fits _ _ _) eqn:E; [|done].
  destruct Hr as [<- Hb]. exists (hm_iter (HashtableHash.map t)).
  assert (NoDup (hm_iter (HashtableHash.map t)).*1) as Hnd
    by (rewrite hm_iter_perm; apply NoDup_fst_map_to_list).
  split.
  - apply (hash_crepr_fold_append _ _ []); [apply hash_crepr_new| |done].
    eapply u32_sized_flat; [done|]. by eapply demote_fits_small.
  - rewrite (list_to_map_proper _ (map_to_list (HashtableHash.map t)));
      [by rewrite list_to_map_to_list|done|apply hm_iter_perm].
Qed.

(** ** Operations, their specification and histories *)

Inductive hash_op :=
  | OpInsert (field val : bytes)
  | OpGet (field : bytes)
  | OpContains (field : bytes)
  | OpRemove (field : bytes)
  | OpToPairs
  | OpKeys
  | OpValues.

Inductive hash_reply :=
  | RInsert (is_new : bool) (delta : Z)
  | RGet (v : option bytes)
  | RContains (b : bool)
  | RRemove (r : option (bytes * Z))
  | RPairs (ps : list (bytes * bytes))
  | RList (xs : list bytes).

(** Replies that enumerate the hash are compared up to order. *)
Inductive reply_equiv : hash_reply -> hash_reply -> Prop :=
  | equiv_refl r : reply_equiv r r
  | equiv_pairs ps qs : ps ≡ₚ qs -> reply_equiv (RPairs ps) (RPairs qs)
  | equiv_list xs ys : xs ≡ₚ ys -> reply_equiv (RList xs) (RList ys).

Definition delta_of (m m' : gmap bytes bytes) : Z := Z.of_nat (psize m') - Z.of_nat (psize m).

Definition spec_exec (op : hash_op) (m : gmap bytes bytes) : hash_reply * gmap bytes bytes :=
  match op with
  | OpInsert f v =>
      let m' := <[f := v]> m in (RInsert (bool_decide (m !! f = None)) (delta_of m m'), m')
  | OpGet f => (RGet (m !! f), m)
  | OpContains f => (RContains (bool_decide (is_Some (m !! f))), m)
  | OpRemove f =>
      let m' := delete f m in (RRemove (v ← m !! f; Some (v, delta_of m m')), m')
  | OpToPairs => (RPairs (map_to_list m), m)
  | OpKeys => (RList (map_to_list m).*1, m)
  | OpValues => (RList (map_to_list m).*2, m)
  end.

Section Exec.
Context `{HashOrder}.

Definition exec (thr : HashThresholds) (op : hash_op) (h : HashData)
  : may_panic (hash_reply * HashData) :=
  match op with
  | OpInsert f v => '(n, d, h') ← insert thr h f v; Some (RInsert n d, h')
  | OpGet f => r ← get h f; Some (RGet r, h)
  | OpContains f => r ← contains_key h f; Some (RContains r, h)
  | OpRemove f => '(r, h') ← remove thr h f; Some (RRemove r, h')
  | OpToPairs => r ← to_pairs h; Some (RPairs r, h)
  | OpKeys => r ← keys h; Some (RList r, h)
  | OpValues => r ← values h; Some (RList r, h)
  end.

Lemma compact_insert_delta c kvs f w : crepr c kvs -> u32_sized f -> u32_sized w -> exists c' m',
  let m := list_to_map kvs : gmap bytes bytes in
  m' = <[f := w]> m /\
  CompactHash.insert c f w = Some (bool_decide (m !! f = None), delta_of m m', c') /\
  repr (Compact c') m'.
Proof.
  intros Hc Hf Hw. destruct (crepr_insert _ _ _ _ Hc Hf Hw) as (c' & kvs' & -> & Hc' & Em).
  exists c', (<[f := w]> (list_to_map kvs)). split_and!; [done| |by exists kvs'].
  unfold delta_of. destruct (list_to_map kvs !! f) as [v|] eqn:E.
  - pose proof (psize_insert_old _ _ _ w E). rewrite bool_decide_eq_false_2 by done.
    do 3 f_equal. lia.
  - rewrite psize_insert_new, bool_decide_eq_true_2 by done. do 3 f_equal. lia.
Qed.

Lemma table_insert_refines t f w m : HashtableHash.map t = m -> HashtableHash.nbytes t = psize m ->
  exists h', insert_table t f w = (bool_decide (m !! f = None), delta_of m (<[f := w]> m), h') /\
    repr h' (<[f := w]> m).
Proof.
  intros E Eb. unfold insert_table. rewrite (hash_table_insert _ _ f w E Eb). eexists. split; [done|done].
Qed.

Lemma contains_refines h m f : repr h m -> contains_key h f = Some (bool_decide (is_Some (m !! f))).
Proof.
  destruct h as [c|t]; [intros (kvs & Hc & ->)|intros [<- _]]; simpl; [|done].
  unfold CompactHash.contains_key. by rewrite (crepr_get _ _ _ Hc).
Qed.

Lemma hash_insert_refines thr h m f w : thr_sane thr -> repr h m -> exists h',
  insert thr h f w = Some (bool_decide (m !! f = None), delta_of m (<[f := w]> m), h') /\
  repr h' (<[f := w]> m).
Proof.
  intros Ht Hr.
  assert (exists h', (t ← ensure_hashtable h; Some (insert_table t f w))
      = Some (bool_decide (m !! f = None), delta_of m (<[f := w]> m), h') /\ repr h' (<[f := w]> m))
    as Hpromote.
  { destruct (repr_ensure_hashtable _ _ Hr) as (t & -> & Em & Eb). mstep.
    destruct (table_insert_refines t f w m Em Eb) as (h' & -> & ?). eauto. }
  destruct h as [c|t]; [|exact Hpromote]. unfold insert.
  destruct (bool_decide (_ \/ _)) eqn:Hv; [exact Hpromote|]. apply bool_decide_eq_false in Hv.
  apply Decidable.not_or in Hv as [Hvf Hvw].
  assert (forall b : bool, exists p, (if b then contains_key (Compact c) f else Some true) = Some p) as Hp.
  { intros []; [rewrite (contains_refines _ m) by done|]; eauto. }
  edestruct Hp as [p ->]. mstep. destruct (negb p); [exact Hpromote|].
  destruct Hr as (kvs & Hc & ->).
  destruct (compact_insert_delta c kvs f w Hc) as (c' & m' & -> & E & Hr');
    [unfold thr_sane, u32_sized in *; lia..|].
  rewrite E. mstep. eauto.
Qed.

Lemma hash_get_refines h m f : repr h m -> get h f = Some (m !! f).
Proof.
  destruct h as [c|t]; [intros (kvs & Hc & ->)|by intros [<- _]]. by apply crepr_get.
Qed.

Lemma remove_refines thr h m f : thr_sane thr -> repr h m -> exists h',
  remove thr h f = Some ((v ← m !! f; Some (v, delta_of m (delete f m))), h') /\
  repr h' (delete f m).
Proof.
  intros Ht Hr.
  assert (forall v, m !! f = Some v ->
    (- Z.of_nat (length f + length v))%Z = delta_of m (delete f m)) as Hd.
  { intros v E. unfold delta_of. rewrite (psize_delete _ _ _ E). lia. }
  assert (exists h', repr h' (delete f m) /\
    match h with
    | Compact c => '(v, c') ← CompactHash.remove c f; Some (v, Compact c')
    | Hashtable t => let '(v, t') := HashtableHash.remove t f in Some (v, Hashtable t')
    end = Some ((v ← m !! f; Some (v, delta_of m (delete f m))), h')) as (h' & Hr' & E).
  { destruct h as [c|t].
    - destruct Hr as (kvs & Hc & ->).
      destruct (hash_crepr_remove _ _ f Hc) as (c' & kvs' & -> & Hc' & Em). exists (Compact c').
      split; [by exists kvs'|]. mstep. destruct (list_to_map kvs !! f) as [v|] eqn:E; [|done].
      mstep. by rewrite (Hd v).
    - destruct Hr as [<- Hb]. unfold HashtableHash.remove.
      destruct (HashtableHash.map t !! f) as [v|] eqn:E.
      + eexists. split; [|mstep; by rewrite (Hd v)]. split; simpl; [done|].
        rewrite Hb, (psize_delete _ _ _ E). lia.
      + exists (Hashtable t). by rewrite delete_id. }
  unfold remove. rewrite E. mstep. eexists. split; [done|].
  destruct (m !! f); [by apply hash_repr_maybe_demote|done].
Qed.

Lemma to_pairs_refines h m : repr h m -> exists ps, to_pairs h = Some ps /\ ps ≡ₚ map_to_list m /\
  keys h = Some ps.*1 /\ values h = Some ps.*2.
Proof.
  destruct h as [c|t]; [intros (kvs & Hc & ->)|intros [<- _]]; simpl.
  - rewrite (hash_crepr_iter _ _ Hc). exists kvs. destruct Hc. split_and!; [done| |done..].
    by rewrite map_to_list_to_map.
  - eexists. split_and!; [done|apply hm_iter_perm|done..].
Qed.

Lemma hash_exec_refines thr op h m : thr_sane thr -> repr h m -> exists r h',
  exec thr op h = Some (r, h') /\ reply_equiv r (spec_exec op m).1 /\ repr h' (spec_exec op m).2.
Proof.
  intros Ht Hr. destruct (to_pairs_refines _ _ Hr) as (ps & E1 & Hps & E2 & E3).
  destruct op as [f v|f|f|f| | |]; unfold exec.
  - destruct (hash_insert_refines _ _ _ f v Ht Hr) as (h' & -> & ?). mstep.
    eexists _, _. split_and!; [done|constructor|done].
  - rewrite (hash_get_refines _ _ _ Hr). mstep. eexists _, _. split_and!; [done|constructor|done].
  - rewrite (contains_refines _ _ _ Hr). mstep. eexists _, _. split_and!; [done|constructor|done].
  - destruct (remove_refines _ _ _ f Ht Hr) as (h' & -> & ?). mstep.
    eexists _, _. split_and!; [done|constructor|done].
  - rewrite E1. mstep. eexists _, _. split_and!; [done|by constructor|done].
  - rewrite E2. mstep. eexists _, _. split_and!; [done|constructor; by rewrite Hps|done].
  - rewrite E3. mstep. eexists _, _. split_and!; [done|constructor; by rewrite Hps|done].
Qed.

(** A history: each operation with the thresholds in force when it runs. *)
Fixpoint run (ops : list (HashThresholds * hash_op)) (h : HashData)
  : may_panic (list hash_reply * HashData) :=
  match ops with
  | [] => Some ([], h)
  | (thr, op) :: ops =>
      '(r, h') ← exec thr op h;
      '(rs, h'') ← run ops h';
      Some (r :: rs, h'')
  end.

End Exec.

Fixpoint spec_run (ops : list hash_op) (m : gmap bytes bytes) : list hash_reply * gmap bytes bytes :=
  match ops with
  | [] => ([], m)
  | op :: ops =>
      let '(r, m') := spec_exec op m in
      let '(rs, m'') := spec_run ops m' in
      (r :: rs, m'')
  end.

Definition history_sane (ops : list (HashThresholds * hash_op)) : Prop :=
  Forall (fun p => thr_sane p.1) ops.

Lemma hash_spec_run_cons op ops m :
  spec_run (op :: ops) m
    = ((spec_exec op m).1 :: (spec_run ops (spec_exec op m).2).1, (spec_run ops (spec_exec op m).2).2).
Proof. simpl. destruct (spec_exec op m) as [r m']. simpl. by destruct (spec_run ops m'). Qed.

Lemma hash_run_refines `{HashOrder} ops h m : history_sane ops -> repr h m -> exists rs h',
  run ops h = Some (rs, h') /\ Forall2 reply_equiv rs (spec_run ops.*2 m).1 /\
  repr h' (spec_run ops.*2 m).2.
Proof.
  intros Ho. revert h m. induction Ho as [|[thr op] ops Ht Ho IH]; intros h m Hr.
  - eexists _, _. split_and!; [done|constructor|done].
  - destruct (hash_exec_refines thr op h m Ht Hr) as (r & h' & E & Hrep & Hr').
    destruct (IH _ _ Hr') as (rs & h'' & E' & Hreps & Hr'').
    rewrite fmap_cons, hash_spec_run_cons. cbn [run]. rewrite E. mstep. rewrite E'. mstep.
    eexists _, _. split_and!; [done|by constructor|done].
Qed.

(** C26: From the empty hash, any sequence of operations under any changing
    (sane) thresholds and any hash-table iteration order runs without a panic,
    and every reply - new-field flags, payload deltas, values, enumerations up
    to order - is that of a plain finite map, whichever encoding was active;
    the cached length and payload agree with the final map. *)
Theorem hash_encoding_refines_maps `{HashOrder} ops : history_sane ops ->
  exists rs h, run ops new = Some (rs, h) /\
    let '(srs, m) := spec_run ops.*2 ∅ in
    Forall2 reply_equiv rs srs /\ repr h m /\
    len h = size m /\ payload_bytes h = psize m.
Proof.
  intros Ho. destruct (hash_run_refines ops new ∅ Ho hash_repr_new) as (rs & h & E & Hf & Hr).
  exists rs, h. split; [done|]. destruct (spec_run ops.*2 ∅) as [srs m].
  split_and!; [done|done|by apply hash_repr_len|by apply hash_repr_payload].
Qed.

(** Promotes on the third field, replaces with another length, demotes on removal. *)
Definition sample_history : list (HashThresholds * hash_op) :=
  let thr := mkHashThresholds 2 64 8 2 in
  (fun op => (thr, op)) <$>
    [OpInsert (bstr "a") (bstr "one"); OpInsert (bstr "b") (bstr "two");
     OpInsert (bstr "a") (bstr "three"); OpInsert (bstr "c") (bstr "four");
     OpGet (bstr "a"); OpRemove (bstr "b"); OpToPairs; OpRemove (bstr "zz")].

Lemma hash_encoding_refines_maps_witness :
  history_sane sample_history /\
  exists rs h, @run canonical_order sample_history new = Some (rs, h) /\
    Forall2 reply_equiv rs (spec_run sample_history.*2 ∅).1 /\
    encoding_name h = "listpack"%string /\ rs !! 4 = Some (RGet (Some (bstr "three"))) /\
    rs !! 5 = Some (RRemove (Some (bstr "two", (-4)%Z))).
Proof.
  assert (history_sane sample_history) as Hs by (repeat constructor; by vm_compute).
  split; [done|].
  destruct (@hash_encoding_refines_maps canonical_order sample_history Hs) as (rs & h & E & Hrest).
  exists rs, h. split; [exact E|]. destruct (spec_run sample_history.*2 ∅) as [srs m].
  split; [exact (proj1 Hrest)|]. vm_compute in E. injection E as <- <-. done.
Defined.

(** The snapshot HGETALL takes under the read lock enumerates exactly the
    hash: a compact snapshot's buffer decodes outside the lock to every field
    followed by its value, a hash-table snapshot is those pairs; the compact
    byte budget is the framing allowance of both halves plus the payload. *)
Theorem hgetall_snap_enumerates `{HashOrder} h m : repr h m ->
  exists ps, ps ≡ₚ map_to_list m /\
    match hgetall_snap h with
    | SnapCompact b n need =>
        bulk_iter b n = Some (flat ps) /\ n = size m /\ need = 16 + 24 * size m + psize m
    | SnapHashtable qs => qs = ps
    end.
Proof.
  destruct h as [c|t]; [intros Hr; pose proof (hash_repr_len _ _ Hr) as Hl; pose proof (hash_repr_payload _ _ Hr) as Hp;
    destruct Hr as (kvs & Hc & ->)|intros [<- _]]; simpl in *.
  - exists kvs. pose proof Hc as []. split; [by rewrite map_to_list_to_map|].
    unfold bulk_iter, CompactHash.hgetall_resp_need. rewrite Hp, Hl. split_and!; [|done|lia].
    rewrite <- Hl, cr_len0, <- length_flat.
    apply (walk_frames _ _ [] []); [by rewrite cr_buf0, app_nil_r|done].
  - eexists. split; [apply hm_iter_perm|done].
Qed.

Lemma hgetall_snap_enumerates_witness :
  exists c, repr (Compact c) {[ bstr "f" := bstr "val" ]} /\
    exists ps, ps ≡ₚ map_to_list ({[ bstr "f" := bstr "val" ]} : gmap bytes bytes) /\
      bulk_iter (CompactHash.buf c) 1 = Some (flat ps).
Proof.
  set (c := CompactHash.append_pair CompactHash.new (bstr "f") (bstr "val")).
  assert (repr (Compact c) {[ bstr "f" := bstr "val" ]}) as Hr.
  { exists [(bstr "f", bstr "val")]. split; [|done].
    apply (hash_crepr_append _ []); [apply hash_crepr_new|by vm_compute|by vm_compute|set_solver]. }
  exists c. split; [exact Hr|].
  destruct (@hgetall_snap_enumerates canonical_order _ _ Hr) as (ps & Hps & Hb & _).
  exists ps. split; [exact Hps|exact Hb].
Defined.
