(* ===== verification/SetData.v ===== *)
(** * SetData: the dual-encoded set ([set_data.rs])

    A set value is either [Compact], one buffer of length-prefixed members, or
    [Hashtable], an [IndexSet] of the [indexmap] crate with a cached byte total.
    The crate is known by its documented contract only (class [IndexSet]); the
    theorems hold for every implementation of it.  The relation [members]
    relates both encodings to the sequence of members they enumerate, [repr] to
    the finite set. *)

From S2P Require Import Prelude Packing.

Definition SET_COMPACT_MAX_ENTRIES : nat := 512.
Definition SET_COMPACT_MAX_SIZE : nat := N.to_nat 8192.
Definition SET_COMPACT_MAX_VALUE : nat := 64.
Definition SET_DEMOTE_ENTRIES : nat := 128.

Record SetThresholds := mkSetThresholds {
  max_entries : nat;
  max_size : nat;
  max_value : nat;
  demote_entries : nat;
}.

Definition default_thresholds : SetThresholds :=
  {| max_entries := SET_COMPACT_MAX_ENTRIES;
     max_size := SET_COMPACT_MAX_SIZE;
     max_value := SET_COMPACT_MAX_VALUE;
     demote_entries := SET_DEMOTE_ENTRIES |}.

(** ** The index set of the [indexmap] crate *)

(** [Vec::swap_remove]: the last element takes the place of the removed one. *)
Definition vec_swap_remove (i : nat) (xs : list bytes) : list bytes :=
  match last xs with
  | Some y => removelast (<[i := y]> xs)
  | None => xs
  end.

(** An [IndexSet<Vec<u8>>] by its members in index order. *)
Class IndexSet := {
  ix : Type;
  ix_items : ix -> list bytes;
  ix_with_capacity : nat -> ix;
  ix_insert : bytes -> ix -> bool * ix;
  ix_contains : bytes -> ix -> bool;
  ix_swap_remove : bytes -> ix -> bool * ix;
  ix_get_index : nat -> ix -> option bytes;
  ix_swap_remove_index : nat -> ix -> option bytes * ix;
  (** A new set is empty. *)
  ix_with_capacity_items n : ix_items (ix_with_capacity n) = [];
  (** "If an equivalent item already exists, returns false and leaves the
      original value; otherwise inserts it at the end and returns true." *)
  ix_insert_ret m s : (ix_insert m s).1 = bool_decide (m ∉ ix_items s);
  ix_insert_items m s : ix_items (ix_insert m s).2
    = if bool_decide (m ∈ ix_items s) then ix_items s else ix_items s ++ [m];
  ix_contains_spec m s : ix_contains m s = bool_decide (m ∈ ix_items s);
  (** "Like [Vec::swap_remove], the value is removed by swapping it with the
      last element of the set and popping it off." *)
  ix_swap_remove_ret m s : (ix_swap_remove m s).1 = bool_decide (m ∈ ix_items s);
  ix_swap_remove_absent m s : m ∉ ix_items s -> ix_items (ix_swap_remove m s).2 = ix_items s;
  ix_swap_remove_present i m s : NoDup (ix_items s) -> ix_items s !! i = Some m ->
    ix_items (ix_swap_remove m s).2 = vec_swap_remove i (ix_items s);
  ix_get_index_spec i s : ix_get_index i s = ix_items s !! i;
  ix_swap_remove_index_ret i s : (ix_swap_remove_index i s).1 = ix_items s !! i;
  ix_swap_remove_index_items i s : i < length (ix_items s) ->
    ix_items (ix_swap_remove_index i s).2 = vec_swap_remove i (ix_items s);
}.

(** [HashSet<T>] is [HashMap<T, ()>]; its iteration order is that of the map. *)
Definition hs_iter `{HashOrder} (s : gset bytes) : list bytes := (hm_iter (gset_to_gmap () s)).*1.

(** ** The hash-table encoding *)

Module HashtableSet.
Section Table.
Context `{IndexSet}.

Record t := mk { set : ix; nbytes : nat }.

Definition with_capacity (n : nat) : t := {| set := ix_with_capacity n; nbytes := 0 |}.

Definition from_index_set (s : ix) : t :=
  {| set := s; nbytes := sum_list_with length (ix_items s) |}.

Definition from_set `{HashOrder} (s : gset bytes) : t :=
  from_index_set (fold_left (fun acc m => (ix_insert m acc).2) (hs_iter s) (ix_with_capacity 0)).

Definition len (s : t) : nat := length (ix_items (set s)).

Definition payload_bytes (s : t) : nat := nbytes s.

Definition insert (s : t) (member : bytes) : bool * Z * t :=
  let n := length member in
  let '(fresh, set') := ix_insert member (set s) in
  if fresh then (true, Z.of_nat n, {| set := set'; nbytes := nbytes s + n |})
  else (false, 0%Z, {| set := set'; nbytes := nbytes s |}).

Definition contains (s : t) (member : bytes) : bool := ix_contains member (set s).

Definition remove (s : t) (member : bytes) : bool * Z * t :=
  let '(removed, set') := ix_swap_remove member (set s) in
  if removed then
    let n := length member in
    (true, (- Z.of_nat n)%Z, {| set := set'; nbytes := nbytes s - n |})
  else (false, 0%Z, {| set := set'; nbytes := nbytes s |}).

Definition get_index (s : t) (idx : nat) : option bytes := ix_get_index idx (set s).

Definition swap_remove_index (s : t) (idx : nat) : option (bytes * Z) * t :=
  let '(r, set') := ix_swap_remove_index idx (set s) in
  match r with
  | Some m =>
      let n := length m in
      (Some (m, (- Z.of_nat n)%Z), {| set := set'; nbytes := nbytes s - n |})
  | None => (None, {| set := set'; nbytes := nbytes s |})
  end.

Definition drain (s : t) : list bytes := ix_items (set s).

End Table.
End HashtableSet.

(** ** The compact encoding *)

Module CompactSet.

Record t := mk { buf : bytes; len : nat; nbytes : nat }.

Definition new : t := {| buf := []; len := 0; nbytes := 0 |}.

Definition with_capacity (n payload : nat) : t := {| buf := []; len := 0; nbytes := 0 |}.

Definition append_member (c : t) (member : bytes) : t :=
  {| buf := buf c ++ le_bytes 4 (Z.of_nat (length member)) ++ member;
     len := len c + 1;
     nbytes := nbytes c + length member |}.

(** The loop of [contains]. *)
Fixpoint contains_from (b member : bytes) (off n : nat) : may_panic bool :=
  match n with
  | 0 => Some false
  | S k =>
      n ← read_u32 b off;
      m ← slice b (off + 4) (off + 4 + n);
      if bool_decide (m = member) then Some true
      else contains_from b member (off + 4 + n) k
  end.

Definition contains (c : t) (member : bytes) : may_panic bool :=
  contains_from (buf c) member 0 (len c).

Definition insert (c : t) (member : bytes) : may_panic (bool * Z * t) :=
  present ← contains c member;
  if (present : bool) then Some (false, 0%Z, c)
  else Some (true, Z.of_nat (length member), append_member c member).

(** The rebuilding loop of [remove]. *)
Fixpoint remove_loop (b member : bytes) (off n : nat) (found : bool)
    (new_buf : bytes) (new_len new_bytes : nat) : may_panic (bool * bytes * nat * nat) :=
  match n with
  | 0 => Some (found, new_buf, new_len, new_bytes)
  | S k =>
      n ← read_u32 b off;
      m ← slice b (off + 4) (off + 4 + n);
      if negb found && bool_decide (m = member) then
        remove_loop b member (off + 4 + n) k true new_buf new_len new_bytes
      else
        kept ← slice b off (off + 4 + n);
        remove_loop b member (off + 4 + n) k found (new_buf ++ kept) (new_len + 1) (new_bytes + n)
  end.

Definition remove (c : t) (member : bytes) : may_panic (bool * Z * t) :=
  '(found, new_buf, new_len, new_bytes) ← remove_loop (buf c) member 0 (len c) false [] 0 0;
  if (found : bool) then
    let delta := (Z.of_nat new_bytes - Z.of_nat (nbytes c))%Z in
    Some (true, delta, {| buf := new_buf; len := new_len; nbytes := new_bytes |})
  else Some (false, 0%Z, c).

(** The loop of [nth_ref], [skip] members from the one wanted. *)
Fixpoint nth_from (b : bytes) (off skip n : nat) {struct n} : may_panic (option bytes) :=
  match n with
  | 0 => Some None
  | S k =>
      n ← read_u32 b off;
      match skip with
      | 0 => m ← slice b (off + 4) (off + 4 + n); Some (Some m)
      | S skip => nth_from b (off + 4 + n) skip k
      end
  end.

Definition nth_ref (c : t) (idx : nat) : may_panic (option bytes) :=
  if bool_decide (len c <= idx) then Some None else nth_from (buf c) 0 idx (len c).

Definition nth (c : t) (idx : nat) : may_panic (option bytes) := nth_ref c idx.

(** [CompactSetIter] and [CompactSetRefIter] run to the end. *)
Definition iter_members (c : t) : may_panic (list bytes) := walk (buf c) 0 (len c).

End CompactSet.

(** ** The dual encoding *)

Section SetData.
Context `{IndexSet}.

Inductive SetData :=
  | Compact (c : CompactSet.t)
  | Hashtable (s : HashtableSet.t).

Definition new : SetData := Compact CompactSet.new.

(** The size checks of [from_hashset]. *)
Fixpoint fits (thr : SetThresholds) (total : nat) (ms : list bytes) : option nat :=
  match ms with
  | [] => Some total
  | m :: ms =>
      if bool_decide (max_value thr < length m) then None
      else if bool_decide (max_size thr < total + length m) then None
      else fits thr (total + length m) ms
  end.

Definition from_hashset `{HashOrder} (thr : SetThresholds) (s : gset bytes) : SetData :=
  if bool_decide (size s <= max_entries thr) then
    match fits thr 0 (hs_iter s) with
    | Some total =>
        Compact (fold_left CompactSet.append_member (hs_iter s)
                   (CompactSet.with_capacity (size s) total))
    | None => Hashtable (HashtableSet.from_set s)
    end
  else Hashtable (HashtableSet.from_set s).

Definition len (s : SetData) : nat :=
  match s with
  | Compact c => CompactSet.len c
  | Hashtable t => HashtableSet.len t
  end.

Definition is_empty (s : SetData) : bool := bool_decide (len s = 0).

Definition encoding_name (s : SetData) : string :=
  match s with
  | Compact _ => "listpack"
  | Hashtable _ => "hashtable"
  end.

Definition payload_bytes (s : SetData) : nat :=
  match s with
  | Compact c => CompactSet.nbytes c
  | Hashtable t => HashtableSet.payload_bytes t
  end.

Definition ensure_hashtable (s : SetData) : may_panic SetData :=
  match s with
  | Hashtable _ => Some s
  | Compact c =>
      ms ← CompactSet.iter_members c;
      let t := fold_left (fun t m => (HashtableSet.insert t m).2) ms
                 (HashtableSet.with_capacity (CompactSet.len c)) in
      Some (Hashtable {| HashtableSet.set := HashtableSet.set t;
                         HashtableSet.nbytes := CompactSet.nbytes c |})
  end.

Definition maybe_demote (thr : SetThresholds) (s : SetData) : SetData :=
  match s with
  | Compact _ => s
  | Hashtable t =>
      if bool_decide (demote_entries thr < HashtableSet.len t) then s
      else if existsb (fun m => bool_decide (max_value thr < length m))
                (ix_items (HashtableSet.set t)) then s
      else if bool_decide (max_size thr < HashtableSet.payload_bytes t) then s
      else
        let total := HashtableSet.payload_bytes t in
        Compact (fold_left CompactSet.append_member (HashtableSet.drain t)
                   (CompactSet.with_capacity (HashtableSet.len t) total))
  end.

Definition should_promote (thr : SetThresholds) (s : SetData) (member_len : nat) (is_new : bool) : bool :=
  match s with
  | Compact c =>
      bool_decide (max_value thr < member_len)
      || (is_new && bool_decide (max_entries thr < CompactSet.len c + 1))
      || bool_decide (max_size thr < CompactSet.nbytes c + member_len)
  | Hashtable _ => false
  end.

Definition contains (s : SetData) (member : bytes) : may_panic bool :=
  match s with
  | Compact c => CompactSet.contains c member
  | Hashtable t => Some (HashtableSet.contains t member)
  end.

Definition insert (thr : SetThresholds) (s : SetData) (member : bytes) : may_panic (bool * Z * SetData) :=
  present ← contains s member;
  let is_new := negb present in
  if negb is_new then Some (false, 0%Z, s)
  else
    s ← (if should_promote thr s (length member) true then ensure_hashtable s else Some s);
    match s with
    | Compact c => '(n, d, c') ← CompactSet.insert c member; Some (n, d, Compact c')
    | Hashtable t => let '(n, d, t') := HashtableSet.insert t member in Some (n, d, Hashtable t')
    end.

Definition remove (thr : SetThresholds) (s : SetData) (member : bytes) : may_panic (bool * Z * SetData) :=
  '(removed, delta, s') ←
    match s with
    | Compact c => '(r, d, c') ← CompactSet.remove c member; Some (r, d, Compact c')
    | Hashtable t => let '(r, d, t') := HashtableSet.remove t member in Some (r, d, Hashtable t')
    end;
  Some (removed, delta, if (removed : bool) then maybe_demote thr s' else s').

Definition to_vec (s : SetData) : may_panic (list bytes) :=
  match s with
  | Compact c => CompactSet.iter_members c
  | Hashtable t => Some (ix_items (HashtableSet.set t))
  end.

Definition to_hashset (s : SetData) : may_panic (gset bytes) :=
  match s with
  | Compact c => ms ← CompactSet.iter_members c; Some (list_to_set ms)
  | Hashtable t => Some (list_to_set (ix_items (HashtableSet.set t)))
  end.

Definition remove_at (thr : SetThresholds) (s : SetData) (idx : nat) : may_panic (option bytes * SetData) :=
  if is_empty s || bool_decide (len s <= idx) then Some (None, s)
  else
    match s with
    | Compact c =>
        r ← CompactSet.nth c idx;
        match r with
        | None => Some (None, s)
        | Some m =>
            '(_, _, c') ← CompactSet.remove c m;
            Some (Some m, maybe_demote thr (Compact c'))
        end
    | Hashtable t =>
        match HashtableSet.swap_remove_index t idx with
        | (None, t') => Some (None, Hashtable t')
        | (Some (m, _), t') => Some (Some m, maybe_demote thr (Hashtable t'))
        end
    end.

Definition get_at (s : SetData) (idx : nat) : may_panic (option bytes) :=
  match s with
  | Compact c => CompactSet.nth_ref c idx
  | Hashtable t => Some (HashtableSet.get_index t idx)
  end.

End SetData.

(** ** The walks over a packed buffer *)

Lemma contains_from_spec b pre xs post member :
  b = pre ++ frames xs ++ post -> Forall u32_sized xs ->
  CompactSet.contains_from b member (length pre) (length xs) = Some (bool_decide (member ∈ xs)).
Proof.
  revert pre. induction xs as [|x xs IH]; intros pre E Hs; [done|].
  apply Forall_cons in Hs as [Hx Hs]. rewrite frames_cons, <- app_assoc in E. simpl.
  erewrite read_u32_frame by done. mstep. erewrite slice_frame by done. mstep.
  destruct (decide (x = member)) as [->|Heq];
    [by rewrite !bool_decide_eq_true_2 by (done || apply list_elem_of_here)|].
  rewrite (bool_decide_eq_false_2 (x = member)) by done.
  replace (length pre + 4 + length x) with (length (pre ++ frame x)) by len.
  rewrite IH; [|by rewrite <- app_assoc|done]. f_equal. apply bool_decide_ext.
  rewrite elem_of_cons. naive_solver.
Qed.

Lemma nth_from_spec b pre xs post i :
  b = pre ++ frames xs ++ post -> Forall u32_sized xs ->
  CompactSet.nth_from b (length pre) i (length xs) = Some (xs !! i).
Proof.
  revert pre i. induction xs as [|x xs IH]; intros pre i E Hs; [by destruct i|].
  apply Forall_cons in Hs as [Hx Hs]. rewrite frames_cons, <- app_assoc in E. simpl.
  erewrite read_u32_frame by done. mstep. destruct i as [|i].
  - by erewrite slice_frame by done.
  - replace (length pre + 4 + length x) with (length (pre ++ frame x)) by len.
    apply IH; [by rewrite <- app_assoc|done].
Qed.

(** [remove] copies what follows the hit, or everything when there is none. *)
Lemma set_remove_loop_copy b pre xs post member found nb nl ny :
  b = pre ++ frames xs ++ post -> Forall u32_sized xs -> (found = true \/ member ∉ xs) ->
  CompactSet.remove_loop b member (length pre) (length xs) found nb nl ny
    = Some (found, nb ++ frames xs, nl + length xs, ny + total_len xs).
Proof.
  revert pre nb nl ny. induction xs as [|x xs IH]; intros pre nb nl ny E Hs Hn.
  - simpl. rewrite frames_nil, app_nil_r, total_len_nil. repeat f_equal; lia.
  - apply Forall_cons in Hs as [Hx Hs]. rewrite frames_cons, <- app_assoc in E. simpl.
    erewrite read_u32_frame by done. mstep. erewrite slice_frame by done. mstep.
    rewrite (bool_decide_decide (x = member)).
    replace (negb found && (if decide (x = member) then true else false)) with false
      by (destruct Hn as [->|Hn]; [done|]; destruct (decide _); [set_solver|by destruct found]).
    erewrite slice_whole_frame by done. mstep.
    replace (length pre + 4 + length x) with (length (pre ++ frame x)) by len.
    rewrite IH; [|by rewrite <- app_assoc|done|set_solver].
    rewrite frames_cons, total_len_cons, <- app_assoc. do 2 f_equal; [f_equal|]; simpl; lia.
Qed.

Lemma set_remove_loop_hit b pre x1 x2 post member nb nl ny :
  b = pre ++ frames (x1 ++ member :: x2) ++ post -> Forall u32_sized (x1 ++ member :: x2) ->
  member ∉ x1 ->
  CompactSet.remove_loop b member (length pre) (length (x1 ++ member :: x2)) false nb nl ny
    = Some (true, nb ++ frames (x1 ++ x2), nl + length (x1 ++ x2), ny + total_len (x1 ++ x2)).
Proof.
  revert pre nb nl ny. induction x1 as [|x x1 IH]; intros pre nb nl ny E Hs Hn; simpl app in *;
    apply Forall_cons in Hs as [Hx Hs]; rewrite frames_cons, <- app_assoc in E; simpl;
    (erewrite read_u32_frame by done); mstep; (erewrite slice_frame by done); mstep.
  - rewrite bool_decide_eq_true_2 by done. simpl.
    replace (length pre + 4 + length member) with (length (pre ++ frame member)) by len.
    eapply set_remove_loop_copy; [by rewrite <- app_assoc|done|by left].
  - rewrite bool_decide_eq_false_2 by set_solver. simpl.
    erewrite slice_whole_frame by done. mstep.
    replace (length pre + 4 + length x) with (length (pre ++ frame x)) by len.
    rewrite IH; [|by rewrite <- app_assoc|done|set_solver].
    rewrite frames_cons, total_len_cons, <- app_assoc. do 2 f_equal; [f_equal|]; simpl; lia.
Qed.

(** ** The members of both encodings *)

Record crepr (c : CompactSet.t) (xs : list bytes) : Prop := mk_crepr {
  cr_buf : CompactSet.buf c = frames xs;
  cr_len : CompactSet.len c = length xs;
  cr_bytes : CompactSet.nbytes c = total_len xs;
  cr_sized : Forall u32_sized xs;
}.

Lemma set_crepr_append c xs m : crepr c xs -> u32_sized m -> crepr (CompactSet.append_member c m) (xs ++ [m]).
Proof.
  intros [] Hm. split; simpl.
  - by rewrite cr_buf0, frames_app, frames_one, frame_eq.
  - rewrite cr_len0. len.
  - rewrite cr_bytes0. len.
  - apply Forall_app. auto.
Qed.

Lemma set_crepr_fold_append ms c xs : crepr c xs -> Forall u32_sized ms ->
  crepr (fold_left CompactSet.append_member ms c) (xs ++ ms).
Proof.
  revert c xs. induction ms as [|m ms IH]; intros c xs Hc Hs; [by rewrite app_nil_r|].
  apply Forall_cons in Hs as [? ?]. simpl. rewrite (app_assoc xs [m] ms : xs ++ m :: ms = _).
  apply IH; [by apply set_crepr_append|done].
Qed.

Lemma set_crepr_empty n p : crepr (CompactSet.with_capacity n p) [].
Proof. by split; [rewrite frames_nil| |rewrite total_len_nil|]. Qed.

Lemma crepr_contains c xs m : crepr c xs -> CompactSet.contains c m = Some (bool_decide (m ∈ xs)).
Proof.
  intros []. unfold CompactSet.contains. rewrite cr_len0.
  apply (contains_from_spec _ [] _ []); [by rewrite cr_buf0, app_nil_r|done].
Qed.

Lemma set_crepr_iter c xs : crepr c xs -> CompactSet.iter_members c = Some xs.
Proof.
  intros []. unfold CompactSet.iter_members. rewrite cr_len0.
  apply (walk_frames _ _ [] []); [by rewrite cr_buf0, app_nil_r|done].
Qed.

Lemma crepr_nth c xs i : crepr c xs -> CompactSet.nth_ref c i = Some (xs !! i).
Proof.
  intros []. unfold CompactSet.nth_ref. rewrite cr_len0. case_bool_decide.
  - by rewrite lookup_ge_None_2.
  - apply (nth_from_spec _ [] _ []); [by rewrite cr_buf0, app_nil_r|done].
Qed.

(** Removing the first occurrence keeps the order of the others. *)
Lemma set_crepr_remove c x1 m x2 : crepr c (x1 ++ m :: x2) -> m ∉ x1 -> exists c',
  CompactSet.remove c m = Some (true, (- Z.of_nat (length m))%Z, c') /\ crepr c' (x1 ++ x2).
Proof.
  intros [] Hm. unfold CompactSet.remove. rewrite cr_len0.
  rewrite (set_remove_loop_hit _ [] x1 x2 []); [|by rewrite cr_buf0, app_nil_r|done|done].
  mstep. eexists. split.
  - rewrite cr_bytes0. do 3 f_equal. len.
  - split; simpl; [done..|]. rewrite Forall_app, Forall_cons in *. tauto.
Qed.

Lemma crepr_remove_absent c xs m : crepr c xs -> m ∉ xs -> CompactSet.remove c m = Some (false, 0%Z, c).
Proof.
  intros [] Hm. unfold CompactSet.remove. rewrite cr_len0.
  by rewrite (set_remove_loop_copy _ [] xs []); [|rewrite cr_buf0, app_nil_r| |right].
Qed.

Lemma vec_swap_remove_perm i xs m : xs !! i = Some m -> m :: vec_swap_remove i xs ≡ₚ xs.
Proof.
  intros Hi. destruct xs as [|y ys _] using rev_ind; [done|].
  unfold vec_swap_remove. rewrite last_snoc. pose proof (lookup_lt_Some _ _ _ Hi) as Hl.
  rewrite length_app in Hl. simpl in Hl. destruct (decide (i = length ys)) as [->|].
  - rewrite list_lookup_middle in Hi by done. injection Hi as ->.
    rewrite list_insert_id by (by rewrite list_lookup_middle).
    rewrite removelast_last. apply Permutation_cons_append.
  - rewrite lookup_app_l in Hi by lia. rewrite insert_app_l by lia. rewrite removelast_last.
    rewrite insert_take_drop by lia.
    rewrite <- (take_drop_middle ys i m Hi) at 3.
    rewrite <- Permutation_cons_append, <- !Permutation_middle. apply perm_swap.
Qed.

(** A [max_value] setting that keeps compact lengths in their [u32] prefix. *)
Definition thr_sane (thr : SetThresholds) : Prop := (Z.of_nat (max_value thr) < 2 ^ 32)%Z.

#[export] Instance thr_sane_dec thr : Decision (thr_sane thr).
Proof. unfold thr_sane. apply _. Defined.

Section Refinement.
Context `{IndexSet}.

(** The value enumerates [xs], in this order. *)
Definition members (s : SetData) (xs : list bytes) : Prop :=
  NoDup xs /\
  match s with
  | Compact c => crepr c xs
  | Hashtable t => ix_items (HashtableSet.set t) = xs /\ HashtableSet.nbytes t = total_len xs
  end.

Lemma members_new : members new [].
Proof. split; [constructor|apply (set_crepr_empty 0 0)]. Qed.

Lemma members_len s xs : members s xs -> len s = length xs.
Proof. destruct s; intros [_ Hs]; [apply Hs|by destruct Hs as [<- _]]. Qed.

Lemma members_payload s xs : members s xs -> payload_bytes s = total_len xs.
Proof. destruct s; intros [_ Hs]; [apply Hs|by destruct Hs]. Qed.

Lemma members_contains s xs m : members s xs -> contains s m = Some (bool_decide (m ∈ xs)).
Proof.
  destruct s; intros [_ Hs]; simpl; [by apply crepr_contains|].
  unfold HashtableSet.contains. rewrite ix_contains_spec. by destruct Hs as [<- _].
Qed.

Lemma members_to_vec s xs : members s xs -> to_vec s = Some xs.
Proof. destruct s; intros [_ Hs]; simpl; [by apply set_crepr_iter|by destruct Hs as [<- _]]. Qed.

Lemma members_get_at s xs i : members s xs -> get_at s i = Some (xs !! i).
Proof.
  destruct s; intros [_ Hs]; simpl; [by apply crepr_nth|].
  unfold HashtableSet.get_index. rewrite ix_get_index_spec. by destruct Hs as [<- _].
Qed.

(** Inserting new members into an index set appends them. *)
Lemma ix_fold_insert (ins : HashtableSet.t -> bytes -> HashtableSet.t) ms t :
  (forall t m, HashtableSet.set (ins t m) = (ix_insert m (HashtableSet.set t)).2) ->
  NoDup (ix_items (HashtableSet.set t) ++ ms) ->
  ix_items (HashtableSet.set (fold_left ins ms t)) = ix_items (HashtableSet.set t) ++ ms.
Proof.
  intros Hins. revert t. induction ms as [|m ms IH]; intros t Hn; [by rewrite app_nil_r|].
  assert (ix_items (HashtableSet.set (ins t m)) = ix_items (HashtableSet.set t) ++ [m]) as E.
  { rewrite Hins, ix_insert_items, bool_decide_eq_false_2; [done|].
    apply NoDup_app in Hn as (_ & Hn & _). intros Hm. apply (Hn m Hm). set_solver. }
  simpl. rewrite IH; rewrite E, <- app_assoc; done.
Qed.

Lemma HashtableSet_insert_set t m :
  HashtableSet.set (HashtableSet.insert t m).2 = (ix_insert m (HashtableSet.set t)).2.
Proof. unfold HashtableSet.insert. by destruct (ix_insert m _) as [[] ?]. Qed.

Lemma members_ensure_hashtable s xs : members s xs -> exists t,
  ensure_hashtable s = Some (Hashtable t) /\ members (Hashtable t) xs.
Proof.
  intros [Hn Hs]. destruct s as [c|t]; simpl; [|by exists t].
  rewrite (set_crepr_iter _ _ Hs). mstep. eexists. split; [done|]. split; [done|]. simpl.
  destruct Hs as [_ _ Hb _]. split; [|done].
  rewrite (ix_fold_insert (fun t m => (HashtableSet.insert t m).2)); simpl;
    rewrite ?ix_with_capacity_items; [done|apply HashtableSet_insert_set|done].
Qed.

Lemma set_small_sized thr ms : thr_sane thr -> Forall (fun m : bytes => length m <= max_value thr) ms ->
  Forall u32_sized ms.
Proof.
  intros Ht Hs. eapply Forall_impl; [exact Hs|]. unfold thr_sane, u32_sized in *. simpl. lia.
Qed.

Lemma members_maybe_demote thr s xs : thr_sane thr -> members s xs -> members (maybe_demote thr s) xs.
Proof.
  intros Ht [Hn Hs]. destruct s as [c|t]; [done|]. destruct Hs as [<- Hb]. unfold maybe_demote.
  case_bool_decide; [done|].
  destruct (existsb _ _) eqn:E; [done|]. case_bool_decide; [done|].
  split; [done|]. apply (set_crepr_fold_append _ _ []); [apply set_crepr_empty|].
  apply (set_small_sized thr); [done|]. apply Forall_forall. intros m Hm.
  destruct (decide (max_value thr < length m)); [|lia].
  apply not_true_iff_false in E. destruct E. apply existsb_exists. exists m.
  split; [by apply list_elem_of_In|by apply bool_decide_eq_true_2].
Qed.

Lemma set_table_insert t xs m : members (Hashtable t) xs -> m ∉ xs -> exists t',
  HashtableSet.insert t m = (true, Z.of_nat (length m), t') /\ members (Hashtable t') (xs ++ [m]).
Proof.
  intros [Hn [<- Hb]] Hm. unfold HashtableSet.insert.
  destruct (ix_insert m (HashtableSet.set t)) as [b s'] eqn:E.
  pose proof (ix_insert_ret m (HashtableSet.set t)) as Hret.
  pose proof (ix_insert_items m (HashtableSet.set t)) as Hit. rewrite E in Hret, Hit. simpl in *.
  rewrite bool_decide_eq_true_2 in Hret by done. rewrite bool_decide_eq_false_2 in Hit by done.
  subst b. eexists. split; [done|]. split; simpl.
  - apply NoDup_app. split_and!; [done|set_solver|apply NoDup_singleton].
  - rewrite Hit, Hb. split; [done|]. len.
Qed.

Lemma members_insert thr s xs m : thr_sane thr -> members s xs -> exists s',
  insert thr s m = Some (bool_decide (m ∉ xs),
    (if bool_decide (m ∈ xs) then 0%Z else Z.of_nat (length m)), s') /\
  members s' (if bool_decide (m ∈ xs) then xs else xs ++ [m]).
Proof.
  intros Ht Hs. unfold insert. rewrite (members_contains _ _ _ Hs). mstep.
  destruct (decide (m ∈ xs)) as [Hm|Hm].
  - rewrite (bool_decide_eq_true_2 (m ∈ xs)), (bool_decide_eq_false_2 (m ∉ xs)) by tauto.
    simpl. eauto.
  - rewrite (bool_decide_eq_false_2 (m ∈ xs)), (bool_decide_eq_true_2 (m ∉ xs)) by tauto.
    cbn [negb]. destruct (should_promote thr s (length m) true) eqn:Hp.
    + destruct (members_ensure_hashtable _ _ Hs) as (t & -> & Ht'). mstep.
      destruct (set_table_insert _ _ _ Ht' Hm) as (t' & -> & ?). eauto.
    + mstep. destruct s as [c|t].
      * destruct Hs as [Hn Hc]. unfold CompactSet.insert. rewrite (crepr_contains _ _ _ Hc). mstep.
        rewrite bool_decide_eq_false_2 by done. mstep. eexists. split; [done|]. split.
        { apply NoDup_app. split_and!; [done|set_solver|apply NoDup_singleton]. }
        apply set_crepr_append; [done|]. simpl in Hp.
        apply orb_false_iff in Hp as [[Hp _]%orb_false_iff _].
        apply bool_decide_eq_false in Hp. unfold thr_sane, u32_sized in *. lia.
      * destruct (set_table_insert _ _ _ Hs Hm) as (t' & -> & ?). eauto.
Qed.

(** What is left of the members when [m] is removed. *)
Definition without (m : bytes) (xs xs' : list bytes) : Prop := m :: xs' ≡ₚ xs.

Lemma without_NoDup m xs xs' : without m xs xs' -> NoDup xs -> NoDup xs'.
Proof. unfold without. intros <- Hn. by apply NoDup_cons in Hn as [_ ?]. Qed.

Lemma without_total m xs xs' : without m xs xs' -> total_len xs = length m + total_len xs'.
Proof. unfold without. by intros <-. Qed.

Lemma set_compact_remove c xs m : members (Compact c) xs -> m ∈ xs -> exists c' xs',
  CompactSet.remove c m = Some (true, (- Z.of_nat (length m))%Z, c') /\
  without m xs xs' /\ members (Compact c') xs'.
Proof.
  intros [Hn Hc] Hm. apply list_elem_of_split_l in Hm as (x1 & x2 & -> & Hm).
  destruct (set_crepr_remove _ _ _ _ Hc Hm) as (c' & E & Hc'). exists c', (x1 ++ x2).
  assert (without m (x1 ++ m :: x2) (x1 ++ x2)) as Hw by apply Permutation_middle.
  split_and!; [done|done|]. split; [by eapply without_NoDup|done].
Qed.

Lemma table_remove_index t xs i m : members (Hashtable t) xs -> xs !! i = Some m -> exists t' xs',
  HashtableSet.swap_remove_index t i = (Some (m, (- Z.of_nat (length m))%Z), t') /\
  without m xs xs' /\ members (Hashtable t') xs'.
Proof.
  intros [Hn [<- Hb]] Hi. unfold HashtableSet.swap_remove_index.
  destruct (ix_swap_remove_index i (HashtableSet.set t)) as [r s'] eqn:E.
  pose proof (ix_swap_remove_index_ret i (HashtableSet.set t)) as Hret.
  pose proof (ix_swap_remove_index_items i (HashtableSet.set t) (lookup_lt_Some _ _ _ Hi)) as Hit.
  rewrite E in Hret, Hit. simpl in *. rewrite Hi in Hret. subst r.
  pose proof (vec_swap_remove_perm _ _ _ Hi) as Hw.
  eexists _, _. split_and!; [done|exact Hw|]. split; [by eapply without_NoDup|].
  split; simpl; [done|]. pose proof (without_total _ _ _ Hw). lia.
Qed.

Lemma table_remove t xs m : members (Hashtable t) xs -> m ∈ xs -> exists t' xs',
  HashtableSet.remove t m = (true, (- Z.of_nat (length m))%Z, t') /\
  without m xs xs' /\ members (Hashtable t') xs'.
Proof.
  intros [Hn [<- Hb]] Hm. unfold HashtableSet.remove.
  destruct (ix_swap_remove m (HashtableSet.set t)) as [r s'] eqn:E.
  apply list_elem_of_lookup in Hm as Hi. destruct Hi as [i Hi].
  pose proof (ix_swap_remove_ret m (HashtableSet.set t)) as Hret.
  pose proof (ix_swap_remove_present i m (HashtableSet.set t) Hn Hi) as Hit.
  rewrite E in Hret, Hit. simpl in *. rewrite bool_decide_eq_true_2 in Hret by done. subst r.
  pose proof (vec_swap_remove_perm _ _ _ Hi) as Hw.
  eexists _, _. split_and!; [done|exact Hw|]. split; [by eapply without_NoDup|].
  split; simpl; [done|]. pose proof (without_total _ _ _ Hw). lia.
Qed.

Lemma members_remove thr s xs m : thr_sane thr -> members s xs -> exists s' xs',
  remove thr s m = Some (bool_decide (m ∈ xs),
    (if bool_decide (m ∈ xs) then - Z.of_nat (length m) else 0)%Z, s') /\
  members s' xs' /\ (if bool_decide (m ∈ xs) then without m xs xs' else xs' = xs).
Proof.
  intros Ht Hs. unfold remove. destruct (decide (m ∈ xs)) as [Hm|Hm].
  - rewrite (bool_decide_eq_true_2 (m ∈ xs)) by done. destruct s as [c|t].
    + destruct (set_compact_remove _ _ _ Hs Hm) as (c' & xs' & -> & ? & ?). mstep.
      eexists _, _. split_and!; [done|by apply members_maybe_demote|done].
    + destruct (table_remove _ _ _ Hs Hm) as (t' & xs' & -> & ? & ?). mstep.
      eexists _, _. split_and!; [done|by apply members_maybe_demote|done].
  - rewrite (bool_decide_eq_false_2 (m ∈ xs)) by done. destruct s as [c|t].
    + rewrite (crepr_remove_absent c xs m) by (done || apply Hs). mstep. eauto.
    + pose proof Hs as [Hn [E Hb]]. unfold HashtableSet.remove.
      destruct (ix_swap_remove m (HashtableSet.set t)) as [r s'] eqn:Er.
      pose proof (ix_swap_remove_ret m (HashtableSet.set t)) as Hret.
      pose proof (ix_swap_remove_absent m (HashtableSet.set t)) as Hit.
      rewrite Er, E in *. simpl in *. rewrite bool_decide_eq_false_2 in Hret by done. subst r.
      mstep. eexists _, xs. split_and!; [done| |done]. split; [done|]. split; [by apply Hit|done].
Qed.

Lemma members_remove_at thr s xs i : thr_sane thr -> members s xs -> exists s' xs',
  remove_at thr s i = Some (xs !! i, s') /\ members s' xs' /\
  match xs !! i with Some m => without m xs xs' | None => xs' = xs end.
Proof.
  intros Ht Hs. unfold remove_at, is_empty. rewrite (members_len _ _ Hs).
  destruct (xs !! i) as [m|] eqn:Hi.
  - pose proof (lookup_lt_Some _ _ _ Hi).
    rewrite !bool_decide_eq_false_2 by lia. cbn [orb]. destruct s as [c|t].
    + unfold CompactSet.nth. rewrite (crepr_nth c xs) by apply Hs. mstep. rewrite Hi.
      destruct (set_compact_remove _ _ m Hs) as (c' & xs' & -> & ? & ?); [by eapply list_elem_of_lookup_2|].
      mstep. eexists _, _. split_and!; [done|by apply members_maybe_demote|done].
    + destruct (table_remove_index _ _ _ _ Hs Hi) as (t' & xs' & -> & ? & ?).
      eexists _, _. split_and!; [done|by apply members_maybe_demote|done].
  - apply lookup_ge_None in Hi. rewrite (bool_decide_eq_true_2 (length xs <= i)) by done.
    rewrite orb_true_r. eauto.
Qed.

End Refinement.

(** ** The set specification *)

Inductive set_op :=
  | OpInsert (m : bytes)
  | OpContains (m : bytes)
  | OpRemove (m : bytes)
  | OpToVec
  | OpGetAt (i : nat)
  | OpRemoveAt (i : nat).

Inductive set_reply :=
  | RDelta (changed : bool) (delta : Z)
  | RBool (b : bool)
  | RVec (ms : list bytes)
  | RMember (m : option bytes).

(** Payload of a finite set. *)
Definition ssize (X : gset bytes) : nat := total_len (elements X).

Definition delta_of (X Y : gset bytes) : Z := Z.of_nat (ssize Y) - Z.of_nat (ssize X).

(** What a finite set answers.  An index names some member when it is below the
    cardinality; which one is the implementation's choice. *)
Inductive set_spec : set_op -> gset bytes -> set_reply -> gset bytes -> Prop :=
  | spec_insert m X :
      set_spec (OpInsert m) X (RDelta (bool_decide (m ∉ X)) (delta_of X ({[m]} ∪ X))) ({[m]} ∪ X)
  | spec_contains m X : set_spec (OpContains m) X (RBool (bool_decide (m ∈ X))) X
  | spec_remove m X :
      set_spec (OpRemove m) X (RDelta (bool_decide (m ∈ X)) (delta_of X (X ∖ {[m]}))) (X ∖ {[m]})
  | spec_to_vec ms X : ms ≡ₚ elements X -> set_spec OpToVec X (RVec ms) X
  | spec_get_at i m X : i < size X -> m ∈ X -> set_spec (OpGetAt i) X (RMember (Some m)) X
  | spec_get_at_none i X : size X <= i -> set_spec (OpGetAt i) X (RMember None) X
  | spec_remove_at i m X : i < size X -> m ∈ X ->
      set_spec (OpRemoveAt i) X (RMember (Some m)) (X ∖ {[m]})
  | spec_remove_at_none i X : size X <= i -> set_spec (OpRemoveAt i) X (RMember None) X.

Inductive set_spec_run : list set_op -> gset bytes -> list set_reply -> gset bytes -> Prop :=
  | spec_run_nil X : set_spec_run [] X [] X
  | spec_run_cons op ops X r X' rs X'' :
      set_spec op X r X' -> set_spec_run ops X' rs X'' -> set_spec_run (op :: ops) X (r :: rs) X''.

Section Histories.
Context `{IndexSet}.

Definition exec (thr : SetThresholds) (op : set_op) (s : SetData) : may_panic (set_reply * SetData) :=
  match op with
  | OpInsert m => '(b, d, s') ← insert thr s m; Some (RDelta b d, s')
  | OpContains m => b ← contains s m; Some (RBool b, s)
  | OpRemove m => '(b, d, s') ← remove thr s m; Some (RDelta b d, s')
  | OpToVec => ms ← to_vec s; Some (RVec ms, s)
  | OpGetAt i => m ← get_at s i; Some (RMember m, s)
  | OpRemoveAt i => '(m, s') ← remove_at thr s i; Some (RMember m, s')
  end.

Fixpoint run (h : list (SetThresholds * set_op)) (s : SetData) : may_panic (list set_reply * SetData) :=
  match h with
  | [] => Some ([], s)
  | (thr, op) :: h =>
      '(r, s') ← exec thr op s;
      '(rs, s'') ← run h s';
      Some (r :: rs, s'')
  end.

Definition repr (s : SetData) (X : gset bytes) : Prop :=
  exists xs, members s xs /\ X = list_to_set xs.

Lemma ssize_list xs : NoDup xs -> ssize (list_to_set xs) = total_len xs.
Proof. intros Hn. unfold ssize. by rewrite elements_list_to_set. Qed.

Lemma size_list xs : NoDup xs -> size (list_to_set xs : gset bytes) = length xs.
Proof. intros Hn. by apply size_list_to_set. Qed.

Lemma without_set m xs xs' : without m xs xs' -> NoDup xs ->
  (list_to_set xs' : gset bytes) = list_to_set xs ∖ {[m]}.
Proof.
  unfold without. intros Hw Hn. assert (m ∉ xs') as Hm.
  { rewrite <- Hw in Hn. by apply NoDup_cons in Hn as [? _]. }
  rewrite <- (list_to_set_perm_L (C := gset bytes) _ _ Hw). set_solver.
Qed.

Lemma insert_delta xs m : NoDup xs ->
  delta_of (list_to_set xs) ({[m]} ∪ list_to_set xs)
    = if bool_decide (m ∈ xs) then 0%Z else Z.of_nat (length m).
Proof.
  intros Hn. unfold delta_of. rewrite (ssize_list xs Hn). case_bool_decide as Hm.
  - rewrite subseteq_union_1_L, (ssize_list xs) by set_solver. lia.
  - replace ({[m]} ∪ list_to_set xs : gset bytes) with (list_to_set (m :: xs) : gset bytes) by done.
    rewrite ssize_list by (by constructor). len.
Qed.

Lemma remove_delta xs m : NoDup xs ->
  delta_of (list_to_set xs) (list_to_set xs ∖ {[m]})
    = (if bool_decide (m ∈ xs) then - Z.of_nat (length m) else 0)%Z.
Proof.
  intros Hn. unfold delta_of. rewrite (ssize_list xs Hn). case_bool_decide as Hm.
  - apply list_elem_of_split in Hm as (x1 & x2 & ->).
    assert (without m (x1 ++ m :: x2) (x1 ++ x2)) as Hw by apply Permutation_middle.
    rewrite <- (without_set _ _ _ Hw Hn), ssize_list by (by eapply without_NoDup).
    rewrite (without_total _ _ _ Hw). lia.
  - rewrite difference_disjoint_L, ssize_list by set_solver. lia.
Qed.

Lemma mem_list_set (xs : list bytes) m :
  bool_decide (m ∈ xs) = bool_decide (m ∈ (list_to_set xs : gset bytes)).
Proof. apply bool_decide_ext. set_solver. Qed.

Lemma notmem_list_set (xs : list bytes) m :
  bool_decide (m ∉ xs) = bool_decide (m ∉ (list_to_set xs : gset bytes)).
Proof. apply bool_decide_ext. set_solver. Qed.

Lemma set_exec_refines thr op s X : thr_sane thr -> repr s X -> exists r s' X',
  exec thr op s = Some (r, s') /\ set_spec op X r X' /\ repr s' X'.
Proof.
  intros Ht (xs & Hs & ->). pose proof Hs as [Hn _]. destruct op as [m|m|m| |i|i]; unfold exec.
  - destruct (members_insert thr s xs m Ht Hs) as (s' & -> & Hs'). mstep.
    eexists _, s', ({[m]} ∪ list_to_set xs). split_and!; [done| |].
    + rewrite <- insert_delta, notmem_list_set by done. constructor.
    + eexists. split; [exact Hs'|]. case_bool_decide; set_solver.
  - rewrite (members_contains _ _ _ Hs). mstep. eexists _, _, _. split_and!; [done| |by exists xs].
    rewrite mem_list_set. constructor.
  - destruct (members_remove thr s xs m Ht Hs) as (s' & xs' & -> & Hs' & Hx). mstep.
    eexists _, s', (list_to_set xs ∖ {[m]}). split_and!; [done| |].
    + rewrite <- remove_delta, mem_list_set by done. constructor.
    + exists xs'. split; [done|]. case_bool_decide as Hm.
      * by rewrite (without_set _ _ _ Hx Hn).
      * subst xs'. apply difference_disjoint_L. set_solver.
  - rewrite (members_to_vec _ _ Hs). mstep. eexists _, _, _. split_and!; [done| |by exists xs].
    constructor. by rewrite elements_list_to_set.
  - rewrite (members_get_at _ _ _ Hs). mstep. eexists _, _, _. split_and!; [done| |by exists xs].
    destruct (xs !! i) as [m|] eqn:Hi; constructor; rewrite ?size_list by done.
    + by apply lookup_lt_Some in Hi.
    + apply elem_of_list_to_set. by eapply list_elem_of_lookup_2.
    + by apply lookup_ge_None.
  - destruct (members_remove_at thr s xs i Ht Hs) as (s' & xs' & -> & Hs' & Hx). mstep.
    eexists _, s', (list_to_set xs'). split_and!; [done| |by exists xs'].
    destruct (xs !! i) as [m|] eqn:Hi.
    + rewrite (without_set _ _ _ Hx Hn). constructor; rewrite ?size_list by done.
      * by apply lookup_lt_Some in Hi.
      * apply elem_of_list_to_set. by eapply list_elem_of_lookup_2.
    + subst xs'. constructor. rewrite size_list by done. by apply lookup_ge_None.
Qed.

Definition history_sane (h : list (SetThresholds * set_op)) : Prop := Forall (fun p => thr_sane p.1) h.

Lemma set_run_refines h s X : history_sane h -> repr s X -> exists rs s' X',
  run h s = Some (rs, s') /\ set_spec_run h.*2 X rs X' /\ repr s' X'.
Proof.
  intros Hh. revert s X. induction Hh as [|[thr op] h Ht Hh IH]; intros s X Hr.
  - eexists _, _, _. split_and!; [done|constructor|done].
  - destruct (set_exec_refines thr op s X Ht Hr) as (r & s' & X' & E & Hst & Hr').
    destruct (IH _ _ Hr') as (rs & s'' & X'' & E' & Hsts & Hr'').
    cbn [run]. rewrite E. mstep. rewrite E'. mstep.
    eexists _, _, _. split_and!; [done|by econstructor|done].
Qed.

Lemma set_repr_new : repr new ∅.
Proof. exists []. split; [apply members_new|done]. Qed.

Lemma repr_sizes s X : repr s X -> len s = size X /\ payload_bytes s = ssize X.
Proof.
  intros (xs & Hs & ->). pose proof Hs as [Hn _].
  by rewrite size_list, ssize_list, (members_len _ _ Hs), (members_payload _ _ Hs).
Qed.

(** Each operation on its own, for the callers of this component. *)
Lemma set_insert_repr thr s X m : thr_sane thr -> repr s X ->
  exists s', insert thr s m = Some (bool_decide (m ∉ X), delta_of X ({[m]} ∪ X), s') /\ repr s' ({[m]} ∪ X).
Proof.
  intros Ht Hr. destruct (set_exec_refines thr (OpInsert m) s X Ht Hr) as (r & s' & X' & E & Sp & R). unfold exec in E.
  destruct (insert thr s m) as [[[b dl] v]|]; [|done]. simpl in E. injection E as <- <-. inversion Sp; subst. eauto.
Qed.

Lemma set_remove_repr thr s X m : thr_sane thr -> repr s X ->
  exists s', remove thr s m = Some (bool_decide (m ∈ X), delta_of X (X ∖ {[m]}), s') /\ repr s' (X ∖ {[m]}).
Proof.
  intros Ht Hr. destruct (set_exec_refines thr (OpRemove m) s X Ht Hr) as (r & s' & X' & E & Sp & R). unfold exec in E.
  destruct (remove thr s m) as [[[b dl] v]|]; [|done]. simpl in E. injection E as <- <-. inversion Sp; subst. eauto.
Qed.

Lemma set_contains_repr s X m : repr s X -> contains s m = Some (bool_decide (m ∈ X)).
Proof. intros (xs & Hs & ->). rewrite (members_contains _ _ _ Hs). by rewrite mem_list_set. Qed.

Lemma set_to_vec_repr s X : repr s X -> exists xs, to_vec s = Some xs /\ NoDup xs /\ X = list_to_set xs.
Proof. intros (xs & Hs & ->). exists xs. split_and!; [by apply members_to_vec|apply Hs|done]. Qed.

Lemma set_to_hashset_repr s X : repr s X -> to_hashset s = Some X.
Proof.
  intros (xs & Hs & ->). pose proof (members_to_vec _ _ Hs) as Hv. destruct s as [c|t]; simpl in *.
  - by rewrite Hv.
  - by injection Hv as ->.
Qed.

Lemma set_get_at_repr s X i : repr s X -> i < size X -> exists m, get_at s i = Some (Some m) /\ m ∈ X.
Proof.
  intros (xs & Hs & ->) Hi. pose proof Hs as [Hn _]. rewrite size_list in Hi by done.
  destruct (lookup_lt_is_Some_2 xs i Hi) as [m Hm]. exists m. rewrite (members_get_at _ _ _ Hs), Hm. split; [done|].
  apply elem_of_list_to_set. by eapply list_elem_of_lookup_2.
Qed.

Lemma set_get_at_empty s i : repr s ∅ -> get_at s i = Some None.
Proof.
  intros (xs & Hs & Hx). rewrite (members_get_at _ _ _ Hs). destruct xs as [|x xs]; [done|].
  exfalso. assert (x ∈ (∅ : gset bytes)) by (rewrite Hx; set_solver). set_solver.
Qed.

Lemma set_remove_at_repr thr s X i : thr_sane thr -> repr s X -> i < size X ->
  exists m s', remove_at thr s i = Some (Some m, s') /\ m ∈ X /\ repr s' (X ∖ {[m]}).
Proof.
  intros Ht Hr Hi. destruct (set_exec_refines thr (OpRemoveAt i) s X Ht Hr) as (r & s' & X' & E & Sp & R). unfold exec in E.
  destruct (remove_at thr s i) as [[m v]|]; [|done]. simpl in E. injection E as <- <-. inversion Sp; subst; [eauto 6|lia].
Qed.

Lemma ssize_mono X Y : Y ⊆ X -> ssize Y <= ssize X.
Proof.
  intros Hs. unfold ssize. rewrite (union_difference_L Y X Hs), elements_disj_union, total_len_app by set_solver. lia.
Qed.

Lemma remove_weight X m : m ∈ X -> delta_of X (X ∖ {[m]}) = (- Z.of_nat (length m))%Z.
Proof.
  intros Hm. rewrite <- (list_to_set_elements_L X). rewrite (remove_delta _ m (NoDup_elements X)).
  rewrite bool_decide_eq_true_2; [done|]. by apply elem_of_elements.
Qed.

(** C27: From the empty set, any sequence of operations under any changing (sane)
    thresholds runs without a panic on any implementation of the index set's
    contract, and every reply - membership, newness and payload deltas,
    enumerations, the member an index names - is one a plain finite set allows,
    whichever encoding was active; the cached length and payload agree with the
    final set. *)
Theorem set_encoding_refines_sets h : history_sane h ->
  exists rs s X, run h new = Some (rs, s) /\ set_spec_run h.*2 ∅ rs X /\ repr s X /\
    len s = size X /\ payload_bytes s = ssize X.
Proof.
  intros Hh. destruct (set_run_refines h new ∅ Hh set_repr_new) as (rs & s & X & E & Hst & Hr).
  exists rs, s, X. by split_and!; [| | |apply repr_sizes..].
Qed.

(** Indexing is a bijection onto the members: [to_vec] lists every member
    exactly once, index [i] below [len] reads its [i]-th entry through [get_at],
    and [remove_at] with that index takes out precisely that member and leaves
    the others, so a random index gives a uniform member. *)
Theorem index_enumerates_members thr s X i : thr_sane thr -> repr s X ->
  exists ms, to_vec s = Some ms /\ NoDup ms /\ length ms = len s /\ list_to_set ms = X /\
    get_at s i = Some (ms !! i) /\
    exists s', remove_at thr s i = Some (ms !! i, s') /\
      repr s' (match ms !! i with Some m => X ∖ {[m]} | None => X end).
Proof.
  intros Ht (xs & Hs & ->). pose proof Hs as [Hn _]. exists xs.
  destruct (members_remove_at thr s xs i Ht Hs) as (s' & xs' & E & Hs' & Hx).
  split_and!; [by apply members_to_vec|done|by rewrite (members_len _ _ Hs)|done|by apply members_get_at|].
  exists s'. split; [done|]. exists xs'. split; [done|].
  destruct (xs !! i); [by rewrite (without_set _ _ _ Hx Hn)|by subst].
Qed.

Section FromHashset.
Context `{HashOrder}.

Lemma hs_iter_perm X : hs_iter X ≡ₚ elements X.
Proof.
  unfold hs_iter. rewrite hm_iter_perm. apply NoDup_Permutation.
  - apply NoDup_fst_map_to_list.
  - apply NoDup_elements.
  - intros m. rewrite elem_of_elements, list_elem_of_fmap. split.
    + intros ([k []] & -> & Hk%elem_of_map_to_list). by apply lookup_gset_to_gmap_Some in Hk as [? _].
    + intros Hm. exists (m, ()). split; [done|]. by apply elem_of_map_to_list, lookup_gset_to_gmap_Some.
Qed.

Lemma fits_small thr t t' ms : fits thr t ms = Some t' ->
  Forall (fun m : bytes => length m <= max_value thr) ms.
Proof.
  revert t. induction ms as [|m ms IH]; intros t; [constructor|].
  simpl. repeat case_bool_decide; try done. intros E. constructor; [lia|eauto].
Qed.

Lemma members_from_set X : members (Hashtable (HashtableSet.from_set X)) (hs_iter X).
Proof.
  assert (NoDup (hs_iter X)) as Hn by (rewrite hs_iter_perm; apply NoDup_elements).
  assert (ix_items (fold_left (fun acc m => (ix_insert m acc).2) (hs_iter X) (ix_with_capacity 0))
    = hs_iter X) as E.
  { set (lift := fun s => {| HashtableSet.set := s; HashtableSet.nbytes := 0 |}).
    assert (forall ms s, HashtableSet.set (fold_left (fun t m => lift (ix_insert m (HashtableSet.set t)).2)
        ms (lift s)) = fold_left (fun acc m => (ix_insert m acc).2) ms s) as Hf
      by (induction ms; intros; simpl; auto).
    rewrite <- Hf, ix_fold_insert; simpl; rewrite ?ix_with_capacity_items; done. }
  split; [done|]. simpl. rewrite E. done.
Qed.

(** Rebuilding a set from a [HashSet] (SINTERSTORE and friends, and restores)
    keeps exactly its members, in either encoding, for every iteration order,
    with the right payload; [to_hashset] reads it back. *)
Theorem from_hashset_roundtrip thr X : thr_sane thr ->
  repr (from_hashset thr X) X /\ to_hashset (from_hashset thr X) = Some X /\
  payload_bytes (from_hashset thr X) = ssize X.
Proof.
  intros Ht.
  assert (members (from_hashset thr X) (hs_iter X)) as Hm.
  { unfold from_hashset. case_bool_decide; [|apply members_from_set].
    destruct (fits thr 0 (hs_iter X)) as [total|] eqn:E; [|apply members_from_set].
    split; [rewrite hs_iter_perm; apply NoDup_elements|].
    apply (set_crepr_fold_append _ _ []); [apply set_crepr_empty|].
    apply (set_small_sized thr); [done|]. by eapply fits_small. }
  assert (list_to_set (hs_iter X) = X) as HX.
  { rewrite (list_to_set_perm_L _ _ (hs_iter_perm X)). apply list_to_set_elements_L. }
  assert (repr (from_hashset thr X) X) as Hr by (by exists (hs_iter X)).
  split_and!; [done| |by apply repr_sizes].
  pose proof (members_to_vec _ _ Hm) as Hv. destruct (from_hashset thr X) as [c|t]; simpl in *.
  - rewrite Hv. mstep. by rewrite HX.
  - injection Hv as ->. by rewrite HX.
Qed.

End FromHashset.
End Histories.

(** ** Running it: a vector of members implements the contract *)

Definition position (m : bytes) (xs : list bytes) : option nat := fst <$> list_find (fun x => x = m) xs.

Lemma position_None m xs : position m xs = None <-> m ∉ xs.
Proof.
  unfold position. rewrite fmap_None, list_find_None, Forall_forall. naive_solver.
Qed.

Lemma position_Some m xs i : NoDup xs -> xs !! i = Some m -> position m xs = Some i.
Proof.
  intros Hn Hi. unfold position. apply fmap_Some. exists (i, m). split; [|done].
  apply list_find_Some. split_and!; [done|done|]. intros j y Hj Hlt ->.
  pose proof (NoDup_lookup _ _ _ _ Hn Hi Hj). lia.
Qed.

Lemma position_member m xs : is_Some (position m xs) <-> m ∈ xs.
Proof. rewrite <- not_eq_None_Some, position_None. destruct (decide (m ∈ xs)); tauto. Qed.

#[refine] Definition vec_index_set : IndexSet :=
  {| ix := list bytes;
     ix_items := fun s => s;
     ix_with_capacity := fun _ => [];
     ix_insert := fun m s => if bool_decide (m ∈ s) then (false, s) else (true, s ++ [m]);
     ix_contains := fun m s => bool_decide (m ∈ s);
     ix_swap_remove := fun m s =>
       match position m s with Some i => (true, vec_swap_remove i s) | None => (false, s) end;
     ix_get_index := fun i s => s !! i;
     ix_swap_remove_index := fun i s =>
       match s !! i with Some m => (Some m, vec_swap_remove i s) | None => (None, s) end |}.
Proof.
  - done.
  - intros. repeat case_bool_decide; tauto.
  - intros. by case_bool_decide.
  - done.
  - intros m s. destruct (position m s) eqn:E; symmetry.
    + apply bool_decide_eq_true_2, position_member. by rewrite E.
    + by apply bool_decide_eq_false_2, position_None.
  - intros m s Hm. by rewrite (proj2 (position_None m s) Hm).
  - intros i m s Hn Hi. by rewrite (position_Some m s i Hn Hi).
  - done.
  - intros i s. by destruct (s !! i).
  - intros i s [m ->]%lookup_lt_is_Some_2. done.
Defined.

(** Promotes on the third member, demotes on a removal. *)
Definition sample_history : list (SetThresholds * set_op) :=
  (fun op => (mkSetThresholds 2 64 8 2, op)) <$>
    [OpInsert (bstr "a"); OpInsert (bstr "bb"); OpInsert (bstr "a"); OpInsert (bstr "ccc");
     OpGetAt 2; OpRemoveAt 0; OpToVec; OpRemove (bstr "zz")].

Lemma set_sample_history_sane : history_sane sample_history.
Proof. repeat constructor. Qed.

Lemma set_encoding_refines_sets_witness :
  history_sane sample_history /\
  exists rs s X, @run vec_index_set sample_history new = Some (rs, s) /\
    set_spec_run sample_history.*2 ∅ rs X /\
    encoding_name s = "listpack"%string /\ rs !! 4 = Some (RMember (Some (bstr "ccc"))) /\
    rs !! 6 = Some (RVec [bstr "ccc"; bstr "bb"]).
Proof.
  split; [exact set_sample_history_sane|].
  destruct (@set_encoding_refines_sets vec_index_set sample_history set_sample_history_sane)
    as (rs & s & X & E & Hst & _).
  exists rs, s, X. split; [exact E|]. split; [exact Hst|].
  assert (('(rs, s) ← @run vec_index_set sample_history new; Some (encoding_name s, rs !! 4, rs !! 6))
    = Some ("listpack"%string, Some (RMember (Some (bstr "ccc"))),
            Some (RVec [bstr "ccc"; bstr "bb"]))) as C by (vm_compute; reflexivity).
  rewrite E, bind_some in C. by injection C.
Defined.

Lemma index_enumerates_members_witness :
  let s := @Compact vec_index_set (CompactSet.append_member CompactSet.new (bstr "m")) in
  thr_sane default_thresholds /\ repr s {[bstr "m"]} /\
  exists ms s', to_vec s = Some ms /\ list_to_set ms = ({[bstr "m"]} : gset bytes) /\
    remove_at default_thresholds s 0 = Some (ms !! 0, s').
Proof.
  set (s := @Compact vec_index_set (CompactSet.append_member CompactSet.new (bstr "m"))).
  assert (thr_sane default_thresholds) as Ht by done.
  assert (repr s {[bstr "m"]}) as Hr.
  { exists [bstr "m"]. split; [|set_solver]. split; [apply NoDup_singleton|].
    apply (set_crepr_append _ []); [apply (set_crepr_empty 0 0)|done]. }
  split; [exact Ht|]. split; [exact Hr|].
  destruct (@index_enumerates_members vec_index_set default_thresholds s _ 0 Ht Hr)
    as (ms & E & _ & _ & HX & _ & s' & E' & _).
  exists ms, s'. split; [exact E|]. split; [exact HX|exact E'].
Defined.

Lemma from_hashset_roundtrip_witness :
  let X := ({[bstr "x"; bstr "yy"]} : gset bytes) in
  thr_sane default_thresholds /\
  to_hashset (@from_hashset vec_index_set canonical_order default_thresholds X) = Some X.
Proof.
  split; [done|].
  exact (proj1 (proj2 (@from_hashset_roundtrip vec_index_set canonical_order
    default_thresholds {[bstr "x"; bstr "yy"]} eq_refl))).
Defined.
