(* ===== verification/ZSetData.v ===== *)
(** * ZSetData: the dual-encoded sorted set ([zset_data.rs])

    A sorted set is either [Compact], one buffer of score/length/member records
    kept sorted by (score, member), or [Skiplist], a [HashMap] from members to
    scores with a [BTreeMap] of (score, member) keys.  Scores are IEEE doubles,
    kept as their 64-bit patterns.

    Scores are ordered by [OrderedFloat] (crate [ordered_float]): numerically,
    with -0.0 equal to 0.0 and every NaN equal and greater than the rest.  The
    abstract state of a sorted set is therefore a finite map from members to
    score ranks ([okey]); [zlist] lists it in (score, member) order. *)

From S2P Require Import Prelude Packing Doubles.

(** ** Thresholds *)

Definition ZSET_COMPACT_MAX_ENTRIES : nat := 128.
Definition ZSET_COMPACT_MAX_SIZE : nat := N.to_nat 8192.
Definition ZSET_COMPACT_MAX_VALUE : nat := 64.
Definition ZSET_DEMOTE_ENTRIES : nat := 64.

Record ZSetThresholds := mkZSetThresholds {
  max_entries : nat;
  max_size : nat;
  max_value : nat;
  demote_entries : nat;
}.

Definition default_thresholds : ZSetThresholds :=
  {| max_entries := ZSET_COMPACT_MAX_ENTRIES;
     max_size := ZSET_COMPACT_MAX_SIZE;
     max_value := ZSET_COMPACT_MAX_VALUE;
     demote_entries := ZSET_DEMOTE_ENTRIES |}.

Abbreviation entry := (f64 * bytes)%type (only parsing).

(** ** The compact encoding *)

Module CompactZSet.

Record t := mk { buf : bytes; len : nat; nbytes : nat }.

Definition new : t := {| buf := []; len := 0; nbytes := 0 |}.

Definition with_capacity (n payload : nat) : t := {| buf := []; len := 0; nbytes := 0 |}.

Definition append_pair (c : t) (score : f64) (member : bytes) : t :=
  {| buf := buf c ++ le_bytes 8 score ++ le_bytes 4 (Z.of_nat (length member)) ++ member;
     len := len c + 1;
     nbytes := nbytes c + length member |}.

(** [CompactZSetIter] (and its borrowing twin) run to the end; the iterator is
    driven by the buffer, not by [len].  [fuel] bounds the number of items. *)
Fixpoint iter_from (b : bytes) (pos : nat) (fuel : nat) : list (bytes * f64) :=
  match fuel with
  | 0 => []
  | S fuel =>
      if bool_decide (length b < pos + 8) then []
      else
        let score := le_value (take 8 (drop pos b)) in
        let pos := pos + 8 in
        if bool_decide (length b < pos + 4) then []
        else
          let mlen := Z.to_nat (le_value (take 4 (drop pos b))) in
          let pos := pos + 4 in
          if bool_decide (length b < pos + mlen) then []
          else (take mlen (drop pos b), score) :: iter_from b (pos + mlen) fuel
  end.

(** Every item takes at least twelve bytes, so the buffer's length is enough. *)
Definition iter_pairs (c : t) : list (bytes * f64) := iter_from (buf c) 0 (S (length (buf c))).

Definition score (c : t) (member : bytes) : option f64 :=
  snd <$> (snd <$> list_find (fun p => p.1 = member) (iter_pairs c)).

(** The record at [off]: score, member and size. *)
Definition read_pair (b : bytes) (off : nat) : may_panic (f64 * bytes * nat) :=
  sb ← slice b off (off + 8);
  let s := le_value sb in
  mlen ← read_u32 b (off + 8);
  m ← slice b (off + 12) (off + 12 + mlen);
  Some (s, m, 12 + mlen).

Section Scan.
Context `{OrderedFloat}.

Definition cmp_score_member (score_a : f64) (mem_a : bytes) (score_b : f64) (mem_b : bytes) : comparison :=
  match of_cmp score_a score_b with
  | Eq => bytes_cmp mem_a mem_b
  | c => c
  end.

Record scan := mkScan {
  off : nat;
  found_off : option (nat * f64 * nat);
  insert_off : nat;
  insert_off_set : bool;
  found_plen : nat;
}.

(** One iteration of the scanning loop of [insert]. *)
Definition scan_step (b member : bytes) (score : f64) (st : scan) : may_panic scan :=
  '(s, m, plen) ← read_pair b (off st);
  if bool_decide (m = member) then
    Some {| off := off st + plen; found_off := Some (off st, s, plen);
            insert_off := insert_off st; insert_off_set := insert_off_set st; found_plen := plen |}
  else if negb (insert_off_set st) &&
          match cmp_score_member score member s m with Lt => true | _ => false end then
    io ← match found_off st with
         | Some _ => checked_sub (off st) (found_plen st)
         | None => Some (off st)
         end;
    Some {| off := off st + plen; found_off := found_off st;
            insert_off := io; insert_off_set := true; found_plen := found_plen st |}
  else
    Some {| off := off st + plen; found_off := found_off st;
            insert_off := insert_off st; insert_off_set := insert_off_set st;
            found_plen := found_plen st |}.

Fixpoint scan_loop (b member : bytes) (score : f64) (n : nat) (st : scan) : may_panic scan :=
  match n with
  | 0 => Some st
  | S n => st' ← scan_step b member score st; scan_loop b member score n st'
  end.

Definition insert (c : t) (member : bytes) (score : f64) : may_panic (bool * t) :=
  let b := buf c in
  st ← scan_loop b member score (len c)
         {| off := 0; found_off := None; insert_off := length b;
            insert_off_set := false; found_plen := 0 |};
  insert_off ← (if insert_off_set st then Some (insert_off st)
                else checked_sub (length b) (found_plen st));
  let new_pair := le_bytes 8 score ++ le_bytes 4 (Z.of_nat (length member)) ++ member in
  match found_off st with
  | Some (old_off, old_score, old_plen) =>
      if f64_eqb old_score score || (is_nan old_score && is_nan score) then Some (false, c)
      else
        p1 ← slice b 0 old_off;
        p2 ← slice b (old_off + old_plen) (length b);
        let without := p1 ++ p2 in
        w1 ← slice without 0 insert_off;
        w2 ← slice without insert_off (length without);
        Some (false, {| buf := w1 ++ new_pair ++ w2; len := len c; nbytes := nbytes c |})
  | None =>
      if bool_decide (insert_off = length b) then Some (true, append_pair c score member)
      else
        p1 ← slice b 0 insert_off;
        p2 ← slice b insert_off (length b);
        Some (true, {| buf := p1 ++ new_pair ++ p2; len := len c + 1;
                       nbytes := nbytes c + length member |})
  end.

End Scan.

Fixpoint remove_loop (c : t) (member : bytes) (off n : nat) : may_panic (option f64 * t) :=
  match n with
  | 0 => Some (None, c)
  | S n =>
      '(s, m, plen) ← read_pair (buf c) off;
      if bool_decide (m = member) then
        p1 ← slice (buf c) 0 off;
        p2 ← slice (buf c) (off + plen) (length (buf c));
        l ← checked_sub (len c) 1;
        nb ← checked_sub (nbytes c) (plen - 12);
        Some (Some s, {| buf := p1 ++ p2; len := l; nbytes := nb |})
      else remove_loop c member (off + plen) n
  end.

Definition remove (c : t) (member : bytes) : may_panic (option f64 * t) :=
  remove_loop c member 0 (len c).

End CompactZSet.

(** ** The skiplist encoding *)

(** [BTreeMap<(OrderedFloat<f64>, Vec<u8>), ()>] by its keys in order. *)
Module ScoreTree.
Section Tree.
Context `{OrderedFloat}.

Definition key_cmp (a b : entry) : comparison := CompactZSet.cmp_score_member a.1 a.2 b.1 b.2.

(** [insert]: an equal key stays as it is. *)
Fixpoint insert (k : entry) (t : list entry) : list entry :=
  match t with
  | [] => [k]
  | e :: t' =>
      match key_cmp k e with
      | Lt => k :: t
      | Eq => t
      | Gt => e :: insert k t'
      end
  end.

Fixpoint remove (k : entry) (t : list entry) : list entry :=
  match t with
  | [] => []
  | e :: t' => match key_cmp k e with Eq => t' | _ => e :: remove k t' end
  end.

End Tree.
End ScoreTree.

Module SkiplistZSet.

Record t := mk { members : gmap bytes f64; by_score : list entry; nbytes : nat }.

Definition new : t := {| members := ∅; by_score := []; nbytes := 0 |}.

Definition with_capacity (n : nat) : t := {| members := ∅; by_score := []; nbytes := 0 |}.

Definition payload_bytes (s : t) : nat := nbytes s.

Definition insert `{OrderedFloat} (s : t) (member : bytes) (score : f64) : bool * t :=
  match members s !! member with
  | Some old_score =>
      (false,
       {| members := <[member := score]> (members s);
          by_score :=
            if negb (of_eqb old_score score) then
              ScoreTree.insert (score, member) (ScoreTree.remove (old_score, member) (by_score s))
            else by_score s;
          nbytes := nbytes s |})
  | None =>
      (true,
       {| members := <[member := score]> (members s);
          by_score := ScoreTree.insert (score, member) (by_score s);
          nbytes := nbytes s + length member |})
  end.

Definition remove `{OrderedFloat} (s : t) (member : bytes) : option f64 * t :=
  match members s !! member with
  | Some score =>
      (Some score,
       {| members := delete member (members s);
          by_score := ScoreTree.remove (score, member) (by_score s);
          nbytes := nbytes s - length member |})
  | None => (None, s)
  end.

Definition score (s : t) (member : bytes) : option f64 := members s !! member.

End SkiplistZSet.

(** ** The dual encoding *)

Inductive ZSetData :=
  | Compact (c : CompactZSet.t)
  | Skiplist (s : SkiplistZSet.t).

Definition new : ZSetData := Compact CompactZSet.new.

Definition len (z : ZSetData) : nat :=
  match z with
  | Compact c => CompactZSet.len c
  | Skiplist s => size (SkiplistZSet.members s)
  end.

Definition is_empty (z : ZSetData) : bool := bool_decide (len z = 0).

Definition encoding_name (z : ZSetData) : string :=
  match z with
  | Compact _ => "listpack"
  | Skiplist _ => "skiplist"
  end.

Definition payload_bytes (z : ZSetData) : nat :=
  match z with
  | Compact c => CompactZSet.nbytes c
  | Skiplist s => SkiplistZSet.payload_bytes s
  end.

Definition score (z : ZSetData) (member : bytes) : option f64 :=
  match z with
  | Compact c => CompactZSet.score c member
  | Skiplist s => SkiplistZSet.score s member
  end.

Definition to_pairs_sorted (z : ZSetData) : list (bytes * f64) :=
  match z with
  | Compact c => CompactZSet.iter_pairs c
  | Skiplist s => (fun e : entry => (e.2, e.1)) <$> SkiplistZSet.by_score s
  end.

(** [rank]: the position, counted from the other end when [rev]. *)
Definition rank (z : ZSetData) (member : bytes) (rev : bool) : may_panic (option nat) :=
  match score z member with
  | None => Some None
  | Some sc =>
      let n := len z in
      match list_find (fun p : bytes * f64 => f64_eqb p.2 sc && bool_decide (p.1 = member) = true)
              (to_pairs_sorted z) with
      | None => Some None
      | Some (pos, _) =>
          if rev then r ← checked_sub n pos; r ← checked_sub r 1; Some (Some r)
          else Some (Some pos)
      end
  end.

Definition first (z : ZSetData) : option (f64 * bytes) :=
  match z with
  | Compact c => (fun p : bytes * f64 => (p.2, p.1)) <$> head (CompactZSet.iter_pairs c)
  | Skiplist s => head (SkiplistZSet.by_score s)
  end.

Definition last (z : ZSetData) : option (f64 * bytes) :=
  match z with
  | Compact c =>
      fold_left (fun _ (p : bytes * f64) => Some (p.2, p.1)) (CompactZSet.iter_pairs c) None
  | Skiplist s => list.last (SkiplistZSet.by_score s)
  end.

Definition to_pairs `{HashOrder} (z : ZSetData) : list (bytes * f64) :=
  match z with
  | Compact c => CompactZSet.iter_pairs c
  | Skiplist s => hm_iter (SkiplistZSet.members s)
  end.

Definition member_keys `{HashOrder} (z : ZSetData) : list bytes :=
  match z with
  | Compact c => (CompactZSet.iter_pairs c).*1
  | Skiplist s => (hm_iter (SkiplistZSet.members s)).*1
  end.

Definition normalize_index (idx len : Z) : nat :=
  if bool_decide (idx < 0)%Z then Z.to_nat (Z.max (len + idx) 0) else Z.to_nat idx.

Definition range_by_rank (z : ZSetData) (start stop : Z) (rev : bool) : may_panic (list (bytes * f64)) :=
  let n := Z.of_nat (len z) in
  let start := Nat.min (normalize_index start n) (Z.to_nat n) in
  let stop := normalize_index stop n in
  let entries := to_pairs_sorted z in
  let entries := if rev then reverse entries else entries in
  if bool_decide (length entries <= start \/ stop < start) then Some []
  else
    let stop := Nat.min stop (length entries - 1) in
    slice entries start (stop + 1).

Definition in_score_range (min : f64) (min_excl : bool) (max : f64) (max_excl : bool) (s : f64) : bool :=
  let ok_min := if min_excl then f64_ltb min s else f64_leb min s in
  let ok_max := if max_excl then f64_ltb s max else f64_leb s max in
  ok_min && ok_max.

Definition range_by_score (z : ZSetData) (min : f64) (min_excl : bool) (max : f64) (max_excl : bool)
    (rev : bool) (offset : nat) (count : option nat) : list (bytes * f64) :=
  let entries := filter (fun p : bytes * f64 => in_score_range min min_excl max max_excl p.2 = true)
                   (to_pairs_sorted z) in
  let entries := if rev then reverse entries else entries in
  let entries := drop offset entries in
  match count with
  | Some n => take n entries
  | None => entries
  end.

Definition bytes_le (a b : bytes) : Prop := bytes_cmp a b <> Gt.

#[export] Instance bytes_le_dec : RelDecision bytes_le.
Proof. unfold RelDecision, bytes_le. apply _. Defined.

Definition in_lex_range (min_b : option bytes) (min_excl : bool) (max_b : option bytes) (max_excl : bool)
    (m : bytes) : bool :=
  let after_min :=
    match min_b with
    | None => true
    | Some b => match bytes_cmp m b with Gt => true | Eq => negb min_excl | Lt => false end
    end in
  let before_max :=
    match max_b with
    | None => true
    | Some b => match bytes_cmp m b with Lt => true | Eq => negb max_excl | Gt => false end
    end in
  after_min && before_max.

(** [sort_unstable] on distinct byte strings. *)
Definition range_by_lex_members `{HashOrder} (z : ZSetData) (min_b : option bytes) (min_excl : bool)
    (max_b : option bytes) (max_excl : bool) : list bytes :=
  filter (fun m => in_lex_range min_b min_excl max_b max_excl m = true)
    (merge_sort bytes_le (member_keys z)).

Section Updates.
Context `{OrderedFloat} `{HashOrder}.

Definition ensure_skiplist (z : ZSetData) : SkiplistZSet.t :=
  match z with
  | Skiplist s => s
  | Compact c =>
      let sk := fold_left (fun sk p => (SkiplistZSet.insert sk p.1 p.2).2) (CompactZSet.iter_pairs c)
                  (SkiplistZSet.with_capacity (CompactZSet.len c)) in
      {| SkiplistZSet.members := SkiplistZSet.members sk;
         SkiplistZSet.by_score := SkiplistZSet.by_score sk;
         SkiplistZSet.nbytes := CompactZSet.nbytes c |}
  end.

Definition maybe_demote (thr : ZSetThresholds) (z : ZSetData) : ZSetData :=
  match z with
  | Compact _ => z
  | Skiplist s =>
      let ks := (hm_iter (SkiplistZSet.members s)).*1 in
      if bool_decide (demote_entries thr < size (SkiplistZSet.members s)) then z
      else if existsb (fun m => bool_decide (max_value thr < length m)) ks then z
      else if bool_decide (max_size thr < sum_list_with (fun m : bytes => length m + 8) ks) then z
      else
        let total := SkiplistZSet.payload_bytes s in
        Compact (fold_left (fun c (e : entry) => CompactZSet.append_pair c e.1 e.2)
                   (SkiplistZSet.by_score s)
                   (CompactZSet.with_capacity (size (SkiplistZSet.members s)) total))
  end.

Definition insert_skiplist (s : SkiplistZSet.t) (member : bytes) (sc : f64) : bool * ZSetData :=
  let '(n, s') := SkiplistZSet.insert s member sc in (n, Skiplist s').

Definition insert (thr : ZSetThresholds) (z : ZSetData) (member : bytes) (sc : f64)
  : may_panic (bool * ZSetData) :=
  match z with
  | Skiplist s => Some (insert_skiplist s member sc)
  | Compact c =>
      if bool_decide (max_value thr < length member) then
        Some (insert_skiplist (ensure_skiplist z) member sc)
      else
        let maybe_need_promote :=
          bool_decide (max_entries thr <= CompactZSet.len c \/
                       max_size thr < CompactZSet.nbytes c + length member + 8) in
        if maybe_need_promote && bool_decide (score z member = None) then
          Some (insert_skiplist (ensure_skiplist z) member sc)
        else
          '(n, c') ← CompactZSet.insert c member sc;
          Some (n, Compact c')
  end.

Definition remove (thr : ZSetThresholds) (z : ZSetData) (member : bytes) : may_panic (option f64 * ZSetData) :=
  '(r, z') ←
    match z with
    | Compact c => '(r, c') ← CompactZSet.remove c member; Some (r, Compact c')
    | Skiplist s => let '(r, s') := SkiplistZSet.remove s member in Some (r, Skiplist s')
    end;
  Some (r, match r with Some _ => maybe_demote thr z' | None => z' end).

Definition pop_extreme (thr : ZSetThresholds) (z : ZSetData) (max : bool)
  : may_panic (option (f64 * bytes) * ZSetData) :=
  match (if max then last z else first z) with
  | None => Some (None, z)
  | Some (sc, member) =>
      '(r, z') ← remove thr z member;
      Some (match r with Some _ => Some (sc, member) | None => None end, z')
  end.

(** The size checks of [from_pairs]. *)
Fixpoint fits (thr : ZSetThresholds) (total : nat) (ms : list bytes) : option nat :=
  match ms with
  | [] => Some total
  | m :: ms =>
      if bool_decide (max_value thr < length m) then None
      else if bool_decide (max_size thr < total + (length m + 8)) then None
      else fits thr (total + (length m + 8)) ms
  end.

Definition entry_le (a b : entry) : Prop := ScoreTree.key_cmp a b <> Gt.

#[export] Instance entry_le_dec : RelDecision entry_le.
Proof. unfold RelDecision, entry_le. apply _. Defined.

Definition from_pairs (thr : ZSetThresholds) (pairs : list (bytes * f64)) : ZSetData :=
  let map : gmap bytes f64 := fold_left (fun m p => <[p.1 := p.2]> m) pairs ∅ in
  let skiplist := Skiplist (fold_left (fun sk p => (SkiplistZSet.insert sk p.1 p.2).2) (hm_iter map)
                              SkiplistZSet.new) in
  if bool_decide (size map <= max_entries thr) then
    match fits thr 0 (hm_iter map).*1 with
    | Some total =>
        let ordered := merge_sort entry_le ((fun p : bytes * f64 => (p.2, p.1)) <$> hm_iter map) in
        Compact (fold_left (fun c (e : entry) => CompactZSet.append_pair c e.1 e.2) ordered
                   (CompactZSet.with_capacity (size map) total))
    | None => skiplist
    end
  else skiplist.

End Updates.

(** ** The order on entries by rank *)

Abbreviation kentry := (Z * bytes)%type (only parsing).

Definition kcmp (a b : kentry) : comparison :=
  match (a.1 ?= b.1)%Z with
  | Eq => bytes_cmp a.2 b.2
  | c => c
  end.

Definition kle (a b : kentry) : Prop := kcmp a b <> Gt.

#[export] Instance kle_dec : RelDecision kle.
Proof. unfold RelDecision, kle. apply _. Defined.

Lemma kcmp_eq a b : kcmp a b = Eq <-> a = b.
Proof.
  destruct a as [k x], b as [l y]. unfold kcmp. simpl.
  destruct (Z.compare_spec k l); [subst; rewrite bytes_cmp_eq; naive_solver|..];
    (split; [done|]; intros [= -> ->]; lia).
Qed.

Lemma kcmp_antisym a b : kcmp b a = CompOpp (kcmp a b).
Proof.
  unfold kcmp. rewrite (Z.compare_antisym a.1 b.1), bytes_cmp_antisym.
  by destruct (a.1 ?= b.1)%Z.
Qed.

Lemma kcmp_trans a b c : kcmp a b = Lt -> kcmp b c = Lt -> kcmp a c = Lt.
Proof.
  unfold kcmp.
  destruct (Z.compare_spec a.1 b.1), (Z.compare_spec b.1 c.1); try done;
    destruct (Z.compare_spec a.1 c.1); try done; try lia. apply bytes_cmp_trans.
Qed.

#[export] Instance kle_trans : Transitive kle.
Proof.
  intros a b c. unfold kle.
  destruct (kcmp a b) eqn:E1; [apply kcmp_eq in E1 as ->; done| |done].
  destruct (kcmp b c) eqn:E2; [apply kcmp_eq in E2 as ->; by rewrite E1| |done].
  by rewrite (kcmp_trans _ _ _ E1 E2).
Qed.

#[export] Instance kle_total : Total kle.
Proof. intros a b. unfold kle. rewrite (kcmp_antisym a b). destruct (kcmp a b); auto. Qed.

#[export] Instance kle_antisymm : AntiSymm (=) kle.
Proof.
  intros a b. unfold kle. rewrite (kcmp_antisym a b). intros H1 H2.
  apply kcmp_eq. by destruct (kcmp a b).
Qed.

(** ** The sorted list of a map from members to ranks *)

Definition swap {A B} (p : A * B) : B * A := (p.2, p.1).

Definition zlist (m : gmap bytes Z) : list kentry := merge_sort kle (swap <$> map_to_list m).

Lemma zlist_perm m : zlist m ≡ₚ swap <$> map_to_list m.
Proof. apply merge_sort_Permutation. Qed.

Lemma zlist_sorted m : StronglySorted kle (zlist m).
Proof. apply StronglySorted_merge_sort; apply _. Qed.

Lemma zlist_unique m l : StronglySorted kle l -> l ≡ₚ swap <$> map_to_list m -> l = zlist m.
Proof.
  intros Hs Hp. apply (StronglySorted_unique kle); [done|apply zlist_sorted|].
  by rewrite zlist_perm.
Qed.

Lemma elem_of_zlist m k x : (k, x) ∈ zlist m <-> m !! x = Some k.
Proof.
  rewrite zlist_perm, list_elem_of_fmap. split.
  - intros ([y l] & [= -> ->] & He). by apply elem_of_map_to_list.
  - intros Hm. exists (x, k). split; [done|]. by apply elem_of_map_to_list.
Qed.

Lemma swap_fmap_snd {A B} (l : list (A * B)) : (swap <$> l).*2 = l.*1.
Proof. rewrite <- list_fmap_compose. by apply list_fmap_ext. Qed.

Lemma swap_fmap_fst {A B} (l : list (A * B)) : (swap <$> l).*1 = l.*2.
Proof. rewrite <- list_fmap_compose. by apply list_fmap_ext. Qed.

Lemma zlist_NoDup m : NoDup (zlist m).*2.
Proof. rewrite zlist_perm, swap_fmap_snd. apply NoDup_fst_map_to_list. Qed.

Lemma length_zlist m : length (zlist m) = size m.
Proof. by rewrite zlist_perm, length_fmap, length_map_to_list. Qed.

Lemma NoDup_fmap_snd_1 {A B} (l : list (A * B)) : NoDup l.*2 -> NoDup l.
Proof. apply NoDup_fmap_1. Qed.

(** A list with the entries of [m], each member once, is a permutation of it. *)
Lemma zlist_perm_intro m (l : list kentry) :
  NoDup l -> (forall k x, (k, x) ∈ l <-> m !! x = Some k) -> l ≡ₚ swap <$> map_to_list m.
Proof.
  intros Hn He. rewrite <- zlist_perm. apply NoDup_Permutation.
  - done.
  - apply NoDup_fmap_snd_1, zlist_NoDup.
  - intros [k x]. by rewrite He, elem_of_zlist.
Qed.

(** Dropping a member, and splicing an entry before the first greater one. *)
Definition drop_member {A} (x : bytes) : list (A * bytes) -> list (A * bytes) :=
  filter (fun e => e.2 <> x).

Fixpoint splice {A} (cmp : A -> A -> comparison) (e : A) (l : list A) : list A :=
  match l with
  | [] => [e]
  | e' :: l' => match cmp e e' with Lt => e :: l | _ => e' :: splice cmp e l' end
  end.

Lemma splice_perm {A} cmp (e : A) l : splice cmp e l ≡ₚ e :: l.
Proof.
  induction l as [|e' l IH]; simpl; [done|].
  destruct (cmp e e'); rewrite ?IH; try done; apply perm_swap.
Qed.

Lemma splice_sorted e l : StronglySorted kle l -> StronglySorted kle (splice kcmp e l).
Proof.
  induction 1 as [|e' l Hl IH Hf]; simpl; [repeat constructor|].
  destruct (kcmp e e') eqn:E.
  - constructor; [done|]. rewrite splice_perm. constructor; [|done].
    unfold kle. by rewrite kcmp_antisym, E.
  - assert (kle e e') by (unfold kle; by rewrite E).
    repeat constructor; try done. eapply Forall_impl; [exact Hf|]. intros. by transitivity e'.
  - constructor; [done|]. rewrite splice_perm. constructor; [|done].
    unfold kle. by rewrite kcmp_antisym, E.
Qed.

Lemma StronglySorted_filter {A} (R : relation A) (P : A -> Prop) `{forall x, Decision (P x)} l :
  StronglySorted R l -> StronglySorted R (filter P l).
Proof.
  induction 1 as [|x l Hl IH Hf]; [constructor|]. rewrite filter_cons.
  case_decide; [|done]. constructor; [done|].
  rewrite Forall_forall in *. intros y [_ Hy]%list_elem_of_filter. auto.
Qed.

Lemma zlist_delete m x : zlist (delete x m) = drop_member x (zlist m).
Proof.
  symmetry. apply zlist_unique; [by apply StronglySorted_filter, zlist_sorted|].
  apply zlist_perm_intro.
  - apply NoDup_filter, NoDup_fmap_snd_1, zlist_NoDup.
  - intros k y. unfold drop_member. rewrite list_elem_of_filter, elem_of_zlist, lookup_delete_Some.
    naive_solver.
Qed.

Lemma zlist_insert m x k : zlist (<[x := k]> m) = splice kcmp (k, x) (drop_member x (zlist m)).
Proof.
  symmetry. apply zlist_unique; [by apply splice_sorted, StronglySorted_filter, zlist_sorted|].
  rewrite splice_perm, <- zlist_delete, zlist_perm, <- insert_delete_eq.
  rewrite map_to_list_insert by apply lookup_delete_eq. done.
Qed.

(** ** The packed records *)

Definition zframe (e : entry) : bytes := le_bytes 8 e.1 ++ frame e.2.

Definition zframes (es : list entry) : bytes := concat (map zframe es).

Definition entry_wf (e : entry) : Prop := f64_wf e.1 /\ u32_sized e.2.

Record crepr (c : CompactZSet.t) (es : list entry) : Prop := mk_crepr {
  cr_buf : CompactZSet.buf c = zframes es;
  cr_len : CompactZSet.len c = length es;
  cr_bytes : CompactZSet.nbytes c = total_len es.*2;
  cr_wf : Forall entry_wf es;
}.

Lemma length_zframe e : length (zframe e) = 12 + length e.2.
Proof. unfold zframe. len. Qed.
#[export] Hint Rewrite length_zframe : lengths.

Lemma zframes_app es es' : zframes (es ++ es') = zframes es ++ zframes es'.
Proof. unfold zframes. by rewrite map_app, concat_app. Qed.

Lemma zframes_cons e es : zframes (e :: es) = zframe e ++ zframes es.
Proof. done. Qed.

Lemma zframes_nil : zframes [] = [].
Proof. done. Qed.

#[global] Arguments zframes : simpl never.
#[global] Opaque zframe.

Lemma zframe_eq s x : zframe (s, x) = le_bytes 8 s ++ le_bytes 4 (Z.of_nat (length x)) ++ x.
Proof. done. Qed.

Lemma le_value_f64 s : f64_wf s -> le_value (le_bytes 8 s) = s.
Proof. intros H. rewrite le_value_bytes. by apply Z.mod_small. Qed.

Lemma read_pair_spec b pre s x post : b = pre ++ zframe (s, x) ++ post -> entry_wf (s, x) ->
  CompactZSet.read_pair b (length pre) = Some (s, x, 12 + length x).
Proof.
  intros -> [Hs Hx]. simpl in *. unfold CompactZSet.read_pair. rewrite zframe_eq.
  rewrite (slice_mid _ pre (le_bytes 8 s) (frame x ++ post));
    [|by rewrite frame_eq, <- !app_assoc|done|len].
  mstep. rewrite le_value_f64 by done.
  rewrite (read_u32_frame _ (pre ++ le_bytes 8 s) x post);
    [|by rewrite frame_eq, <- !app_assoc|len|done]. mstep.
  rewrite (slice_mid _ (pre ++ le_bytes 8 s ++ le_bytes 4 (Z.of_nat (length x))) x post);
    [done|by rewrite <- !app_assoc|len|done].
Qed.

(** One record off the front. *)
Lemma zframes_step b pre e es post : b = pre ++ zframes (e :: es) ++ post ->
  b = pre ++ zframe e ++ zframes es ++ post /\ b = (pre ++ zframe e) ++ zframes es ++ post /\
  length pre + (12 + length e.2) = length (pre ++ zframe e).
Proof. intros ->. rewrite zframes_cons, <- !app_assoc. split_and!; [done|done|len]. Qed.

Lemma iter_from_spec b pre es fuel : b = pre ++ zframes es -> Forall entry_wf es ->
  length es < fuel -> CompactZSet.iter_from b (length pre) fuel = swap <$> es.
Proof.
  revert pre fuel. induction es as [|[s x] es IH]; intros pre fuel E Hw Hf;
    (destruct fuel as [|fuel]; [simpl in Hf; lia|]).
  - simpl. rewrite zframes_nil, app_nil_r in E. subst b.
    by rewrite bool_decide_eq_true_2 by lia.
  - apply Forall_cons in Hw as [[Hs Hx] Hw]. simpl in Hs, Hx.
    rewrite zframes_cons, zframe_eq in E. cbn [CompactZSet.iter_from].
    assert (length b = length pre + 12 + length x + length (zframes es)) as Hb by (subst; len).
    rewrite bool_decide_eq_false_2 by lia.
    assert (take 8 (drop (length pre) b) = le_bytes 8 s) as E1.
    { subst b. rewrite drop_app_length, <- !app_assoc. apply take_app_length'. len. }
    assert (take 4 (drop (length pre + 8) b) = le_bytes 4 (Z.of_nat (length x))) as E2.
    { subst b. rewrite <- !app_assoc, (app_assoc pre), drop_app_length' by len.
      apply take_app_length'. len. }
    assert (take (length x) (drop (length pre + 8 + 4) b) = x) as E3.
    { subst b. rewrite <- !app_assoc, (app_assoc pre), (app_assoc (pre ++ _)), drop_app_length' by len.
      by apply take_app_length'. }
    rewrite E1, le_value_f64 by done. rewrite bool_decide_eq_false_2 by lia.
    rewrite E2, le_value_len, Nat2Z.id by done. rewrite bool_decide_eq_false_2 by lia.
    rewrite E3, fmap_cons. change (swap (s, x)) with (x, s). f_equal.
    rewrite <- (IH (pre ++ zframe (s, x)) fuel);
      [|by rewrite E, zframe_eq, <- !app_assoc|done|simpl in Hf; lia].
    f_equal. len.
Qed.

Lemma length_zframes es : length (zframes es) = 12 * length es + total_len es.*2.
Proof.
  induction es as [|e es IH]; [done|]. rewrite zframes_cons, length_app, IH, fmap_cons. len.
Qed.

Lemma zset_crepr_iter c es : crepr c es -> CompactZSet.iter_pairs c = swap <$> es.
Proof.
  intros []. apply (iter_from_spec _ []); [done|done|]. rewrite cr_buf0, length_zframes. lia.
Qed.

Lemma zset_crepr_append c es s x : crepr c es -> entry_wf (s, x) ->
  crepr (CompactZSet.append_pair c s x) (es ++ [(s, x)]).
Proof.
  intros [] He. split; simpl.
  - by rewrite cr_buf0, zframes_app, zframes_cons, zframes_nil, app_nil_r, zframe_eq.
  - rewrite cr_len0. len.
  - rewrite cr_bytes0, fmap_app. simpl. len.
  - apply Forall_app. auto.
Qed.

Lemma zset_crepr_empty n p : crepr (CompactZSet.with_capacity n p) [].
Proof. by split. Qed.

Lemma zset_crepr_fold_append l c es : crepr c es -> Forall entry_wf l ->
  crepr (fold_left (fun c (e : entry) => CompactZSet.append_pair c e.1 e.2) l c) (es ++ l).
Proof.
  revert c es. induction l as [|[s x] l IH]; intros c es Hc Hw; [by rewrite app_nil_r|].
  apply Forall_cons in Hw as [? ?]. simpl. rewrite (app_assoc es [(s, x)] l : es ++ (s, x) :: l = _).
  apply IH; [by apply zset_crepr_append|done].
Qed.

(** ** The scan of [CompactZSet::insert] *)

Section Scan.
Context `{OrderedFloat}.

(** A state of the scan that has read [pre] and holds no sorted position yet. *)
Definition searching (st : CompactZSet.scan) (pre : bytes) : Prop :=
  CompactZSet.off st = length pre /\ CompactZSet.insert_off_set st = false /\
  CompactZSet.found_plen st <= length pre /\
  (CompactZSet.found_off st = None -> CompactZSet.found_plen st = 0).

(** After a run of records none of which is the member looked for: either the
    position was found among them, or all of them sort before it. *)
Definition position_found (e : entry) (es : list entry) (pre : bytes) (st st' : CompactZSet.scan) : Prop :=
  CompactZSet.insert_off_set st' = true /\
  exists l1 l2, es = l1 ++ l2 /\
    CompactZSet.insert_off st' + CompactZSet.found_plen st = length pre + length (zframes l1) /\
    forall tl, splice ScoreTree.key_cmp e (es ++ tl) = l1 ++ e :: l2 ++ tl.

Definition all_before (e : entry) (es : list entry) (st' : CompactZSet.scan) : Prop :=
  CompactZSet.insert_off_set st' = false /\
  forall tl, splice ScoreTree.key_cmp e (es ++ tl) = es ++ splice ScoreTree.key_cmp e tl.

(** Once set, the position does not change. *)
Lemma scan_set b pre x sc es post st : b = pre ++ zframes es ++ post -> Forall entry_wf es ->
  x ∉ es.*2 -> CompactZSet.off st = length pre -> CompactZSet.insert_off_set st = true ->
  exists st', CompactZSet.scan_loop b x sc (length es) st = Some st' /\
    CompactZSet.off st' = length (pre ++ zframes es) /\
    CompactZSet.found_off st' = CompactZSet.found_off st /\
    CompactZSet.found_plen st' = CompactZSet.found_plen st /\
    CompactZSet.insert_off st' = CompactZSet.insert_off st /\
    CompactZSet.insert_off_set st' = true.
Proof.
  revert pre st. induction es as [|[s y] es IH]; intros pre st E Hw Hn Ho Hset.
  - exists st. rewrite zframes_nil, app_nil_r. done.
  - apply Forall_cons in Hw as [He Hw]. destruct (zframes_step _ _ _ _ _ E) as (E1 & E2 & E3).
    simpl in Hn. cbn [length CompactZSet.scan_loop]. unfold CompactZSet.scan_step at 1.
    rewrite Ho, (read_pair_spec _ _ _ _ _ E1 He). mstep.
    rewrite bool_decide_eq_false_2 by set_solver. rewrite Hset. simpl negb. cbn [andb]. mstep.
    edestruct (IH (pre ++ zframe (s, y))) as (st' & -> & H1 & H2 & H3 & H4 & H5);
      [exact E2|done|set_solver|exact E3|done|].
    exists st'. rewrite zframes_cons, app_assoc. done.
Qed.

Lemma scan_absent b pre x sc es post st : b = pre ++ zframes es ++ post -> Forall entry_wf es ->
  x ∉ es.*2 -> searching st pre ->
  exists st', CompactZSet.scan_loop b x sc (length es) st = Some st' /\
    CompactZSet.off st' = length (pre ++ zframes es) /\
    CompactZSet.found_off st' = CompactZSet.found_off st /\
    CompactZSet.found_plen st' = CompactZSet.found_plen st /\
    (position_found (sc, x) es pre st st' \/ all_before (sc, x) es st').
Proof.
  revert pre st. induction es as [|[s y] es IH]; intros pre st E Hw Hn (Ho & Hset & Hp & Hf).
  - exists st. rewrite zframes_nil, app_nil_r. split_and!; [done..|]. by right.
  - apply Forall_cons in Hw as [He Hw]. destruct (zframes_step _ _ _ _ _ E) as (E1 & E2 & E3).
    simpl in Hn. cbn [length CompactZSet.scan_loop]. unfold CompactZSet.scan_step at 1.
    rewrite Ho, (read_pair_spec _ _ _ _ _ E1 He). mstep.
    rewrite bool_decide_eq_false_2 by set_solver. rewrite Hset. simpl negb. cbn [andb].
    rewrite zframes_cons, app_assoc.
    destruct (match CompactZSet.cmp_score_member sc x s y with Lt => true | _ => false end) eqn:Hc.
    + assert (match CompactZSet.found_off st with
              | Some _ => checked_sub (length pre) (CompactZSet.found_plen st)
              | None => Some (length pre)
              end = Some (length pre - CompactZSet.found_plen st)) as ->.
      { destruct (CompactZSet.found_off st); [by apply checked_sub_ok|]. rewrite Hf by done. f_equal. lia. }
      mstep. edestruct (scan_set b (pre ++ zframe (s, y)) x sc es post) as (st' & -> & H1 & H2 & H3 & H4 & H5);
        [exact E2|done|set_solver|exact E3|done|].
      exists st'. split_and!; [done..|]. left. split; [done|].
      exists [], ((s, y) :: es). split_and!; [done| |].
      * rewrite H4, zframes_nil. simpl. lia.
      * intros tl. simpl. unfold ScoreTree.key_cmp at 1. simpl.
        by destruct (CompactZSet.cmp_score_member sc x s y).
    + mstep. assert (forall tl, splice ScoreTree.key_cmp (sc, x) ((s, y) :: tl)
                       = (s, y) :: splice ScoreTree.key_cmp (sc, x) tl) as Hsp.
      { intros tl. simpl. unfold ScoreTree.key_cmp at 1. simpl.
        by destruct (CompactZSet.cmp_score_member sc x s y). }
      edestruct (IH (pre ++ zframe (s, y))) as (st' & -> & H1 & H2 & H3 & H4);
        [exact E2|done|set_solver|split_and!; [exact E3|done|simpl; len|done]|].
      exists st'. split_and!; [done..|]. simpl in H4. destruct H4 as [(H4 & l1 & l2 & -> & H5 & H6)|[H4 H5]].
      * left. split; [done|]. exists ((s, y) :: l1), l2. split_and!; [done| |].
        -- simpl in H5. rewrite H5, zframes_cons. len.
        -- intros tl. simpl app. rewrite Hsp, H6. done.
      * right. split; [done|]. intros tl. simpl app. by rewrite Hsp, H5.
Qed.

Lemma scan_loop_app b x sc n1 n2 st :
  CompactZSet.scan_loop b x sc (n1 + n2) st
    = st' ← CompactZSet.scan_loop b x sc n1 st; CompactZSet.scan_loop b x sc n2 st'.
Proof.
  revert st. induction n1 as [|n1 IH]; intros st; [done|]. cbn [Nat.add CompactZSet.scan_loop].
  destruct (CompactZSet.scan_step b x sc st); [|done]. mstep. apply IH.
Qed.

(** Where [insert] cuts the buffer. *)
Definition cut_at (b : bytes) (st : CompactZSet.scan) : may_panic nat :=
  if CompactZSet.insert_off_set st then Some (CompactZSet.insert_off st)
  else checked_sub (length b) (CompactZSet.found_plen st).

Definition scan_start (b : bytes) : CompactZSet.scan :=
  {| CompactZSet.off := 0; CompactZSet.found_off := None; CompactZSet.insert_off := length b;
     CompactZSet.insert_off_set := false; CompactZSet.found_plen := 0 |}.

Lemma splice_nil_tail e es : (forall tl, splice ScoreTree.key_cmp e (es ++ tl)
    = es ++ splice ScoreTree.key_cmp e tl) -> splice ScoreTree.key_cmp e es = es ++ [e].
Proof. intros Hs. specialize (Hs []). by rewrite app_nil_r in Hs. Qed.

(** A new member: the cut splits the records at its sorted place. *)
Lemma scan_new x sc es : Forall entry_wf es -> x ∉ es.*2 -> exists st l1 l2,
  CompactZSet.scan_loop (zframes es) x sc (length es) (scan_start (zframes es)) = Some st /\
  CompactZSet.found_off st = None /\ es = l1 ++ l2 /\
  cut_at (zframes es) st = Some (length (zframes l1)) /\
  splice ScoreTree.key_cmp (sc, x) es = l1 ++ (sc, x) :: l2.
Proof.
  intros Hw Hn.
  destruct (scan_absent (zframes es) [] x sc es [] (scan_start (zframes es)))
    as (st & E & Ho & Hf & Hp & Hd); [by rewrite app_nil_r|done|done|done|].
  exists st. unfold cut_at. rewrite E. destruct Hd as [(Hset & l1 & l2 & -> & Hi & Hs)|[Hset Hs]].
  - exists l1, l2. split_and!; [done|done|done| |].
    + rewrite Hset. simpl in Hi. f_equal. lia.
    + specialize (Hs []). by rewrite !app_nil_r in Hs.
  - exists es, []. rewrite app_nil_r. split_and!; [done|done|done| |by apply splice_nil_tail].
    rewrite Hset, Hp. simpl. rewrite checked_sub_ok by lia. f_equal. lia.
Qed.

(** A known member: the cut splits what is left of the records without it. *)
Lemma scan_old x sc s0 e1 e2 : let es := e1 ++ (s0, x) :: e2 in
  Forall entry_wf es -> x ∉ e1.*2 -> x ∉ e2.*2 -> exists st l1 l2,
  CompactZSet.scan_loop (zframes es) x sc (length es) (scan_start (zframes es)) = Some st /\
  CompactZSet.found_off st = Some (length (zframes e1), s0, 12 + length x) /\ e1 ++ e2 = l1 ++ l2 /\
  cut_at (zframes es) st = Some (length (zframes l1)) /\
  splice ScoreTree.key_cmp (sc, x) (e1 ++ e2) = l1 ++ (sc, x) :: l2.
Proof.
  intros es Hw Hn1 Hn2. apply Forall_app in Hw as Hw12. destruct Hw12 as [Hw1 Hw2].
  apply Forall_cons in Hw2 as [He Hw2].
  assert (zframes es = zframes e1 ++ zframe (s0, x) ++ zframes e2) as Eb
    by (unfold es; by rewrite zframes_app, zframes_cons).
  destruct (scan_absent (zframes es) [] x sc e1 (zframe (s0, x) ++ zframes e2) (scan_start (zframes es)))
    as (st1 & E1 & Ho1 & Hf1 & Hp1 & Hd1); [done|done|done|done|].
  simpl in Ho1. unfold es at 2. rewrite length_app, scan_loop_app, E1. mstep.
  cbn [length CompactZSet.scan_loop]. unfold CompactZSet.scan_step at 1.
  rewrite Ho1, (read_pair_spec _ _ _ _ _ Eb He). mstep. rewrite bool_decide_eq_true_2 by done. mstep.
  assert (zframes es = (zframes e1 ++ zframe (s0, x)) ++ zframes e2 ++ []) as Eb2
    by (by rewrite Eb, app_nil_r, <- app_assoc).
  assert (length (zframes es) = length (zframes e1) + (12 + length x) + length (zframes e2)) as Lb
    by (rewrite Eb, !length_app, length_zframe; simpl; lia).
  destruct Hd1 as [(Hset & l1 & l2 & -> & Hi & Hs)|[Hset Hs]].
  - edestruct (scan_set (zframes es) (zframes (l1 ++ l2) ++ zframe (s0, x)) x sc e2 [])
      as (st2 & -> & Ho2 & Hf2 & Hp2 & Hi2 & Hset2); [exact Eb2|done|done|simpl; len|exact Hset|].
    exists st2, l1, (l2 ++ e2). rewrite <- app_assoc in *. split_and!; [done|done|done| |by rewrite app_assoc, Hs].
    unfold cut_at. rewrite Hset2, Hi2. simpl in *. f_equal. lia.
  - edestruct (scan_absent (zframes es) (zframes e1 ++ zframe (s0, x)) x sc e2 [])
      as (st2 & -> & Ho2 & Hf2 & Hp2 & Hd2);
      [exact Eb2|done|done|split_and!; [simpl; len|exact Hset|simpl; len|done]|].
    unfold cut_at. rewrite Hs. destruct Hd2 as [(Hset2 & l1 & l2 & -> & Hi2 & Hs2)|[Hset2 Hs2]].
    + exists st2, (e1 ++ l1), l2. rewrite <- !app_assoc. split_and!; [done|done|done| |].
      * rewrite Hset2, zframes_app. simpl in Hi2. f_equal. rewrite !length_app, length_zframe in *. simpl in *. lia.
      * specialize (Hs2 []). rewrite !app_nil_r in Hs2. by rewrite Hs2.
    + exists st2, (e1 ++ e2), []. rewrite !app_nil_r. split_and!; [done|done|done| |].
      * rewrite Hset2, Hp2. simpl. rewrite Lb, checked_sub_ok by lia. f_equal.
        rewrite zframes_app, length_app. lia.
      * rewrite splice_nil_tail by done. by rewrite <- app_assoc.
Qed.

End Scan.

(** ** Entries by rank *)

Definition keyed (e : entry) : kentry := (okey e.1, e.2).

(** [es] lists the sorted set [m]. *)
Definition lists (es : list entry) (m : gmap bytes Z) : Prop := keyed <$> es = zlist m.

Lemma keyed_snd (es : list entry) : (keyed <$> es).*2 = es.*2.
Proof. rewrite <- list_fmap_compose. by apply list_fmap_ext. Qed.

Lemma lists_NoDup es m : lists es m -> NoDup es.*2.
Proof. intros E. rewrite <- keyed_snd, E. apply zlist_NoDup. Qed.

Lemma lists_lookup es m s x : lists es m -> (s, x) ∈ es -> m !! x = Some (okey s).
Proof.
  intros E He. apply elem_of_zlist. rewrite <- E. apply list_elem_of_fmap. by exists (s, x).
Qed.

Lemma lists_absent es m x : lists es m -> x ∉ es.*2 <-> m !! x = None.
Proof.
  intros E. rewrite <- keyed_snd, E. split.
  - intros Hn. apply eq_None_not_Some. intros [k Hk]. apply Hn.
    apply list_elem_of_fmap. exists (k, x). split; [done|]. by apply elem_of_zlist.
  - intros Hn ([k y] & -> & Hk)%list_elem_of_fmap. apply elem_of_zlist in Hk. simpl in *. congruence.
Qed.

(** The record of a member. *)
Lemma lists_split es m x k : lists es m -> m !! x = Some k -> exists e1 s e2,
  es = e1 ++ (s, x) :: e2 /\ okey s = k /\ x ∉ e1.*2 /\ x ∉ e2.*2.
Proof.
  intros E Hk. pose proof (lists_NoDup _ _ E) as Hn.
  assert (x ∈ es.*2) as Hx.
  { destruct (decide (x ∈ es.*2)) as [|Hx]; [done|]. apply (lists_absent _ _ _ E) in Hx. congruence. }
  apply list_elem_of_fmap in Hx as ([s y] & -> & He). simpl in *.
  pose proof (lists_lookup _ _ _ _ E He) as Hk'. apply list_elem_of_split in He as (e1 & e2 & ->).
  exists e1, s, e2. rewrite fmap_app, fmap_cons in Hn. simpl in Hn.
  rewrite NoDup_app, NoDup_cons in Hn. split_and!; [done|congruence|set_solver|set_solver].
Qed.

Lemma drop_member_absent {A} x (l : list (A * bytes)) : x ∉ l.*2 -> drop_member x l = l.
Proof.
  induction l as [|[s y] l IH]; intros Hn; [done|]. simpl in Hn. unfold drop_member.
  rewrite filter_cons_True by set_solver. f_equal. apply IH. set_solver.
Qed.

Lemma drop_member_split {A} x s (l1 l2 : list (A * bytes)) : x ∉ l1.*2 -> x ∉ l2.*2 ->
  drop_member x (l1 ++ (s, x) :: l2) = l1 ++ l2.
Proof.
  intros H1 H2. pose proof (drop_member_absent x l1 H1) as E1.
  pose proof (drop_member_absent x l2 H2) as E2. unfold drop_member in *.
  by rewrite filter_app, filter_cons_False, E1, E2 by (simpl; tauto).
Qed.

Lemma drop_member_keyed x es : drop_member x (keyed <$> es) = keyed <$> drop_member x es.
Proof.
  induction es as [|[s y] es IH]; [done|]. unfold drop_member in *. rewrite fmap_cons, !filter_cons.
  simpl. rewrite IH. by case_decide.
Qed.

Lemma lists_drop es m x : lists es m -> lists (drop_member x es) (delete x m).
Proof. unfold lists. intros E. by rewrite zlist_delete, <- E, drop_member_keyed. Qed.

Section Refinement.
Context `{OrderedFloat}.

Lemma key_cmp_keyed e e' : ScoreTree.key_cmp e e' = kcmp (keyed e) (keyed e').
Proof.
  unfold ScoreTree.key_cmp, CompactZSet.cmp_score_member, kcmp. simpl. by rewrite of_cmp_okey.
Qed.

Lemma splice_keyed e es :
  keyed <$> splice ScoreTree.key_cmp e es = splice kcmp (keyed e) (keyed <$> es).
Proof.
  induction es as [|e' es IH]; [done|]. rewrite fmap_cons. cbn [splice]. rewrite key_cmp_keyed.
  destruct (kcmp (keyed e) (keyed e')); rewrite ?fmap_cons, ?IH; done.
Qed.

Lemma lists_splice es m s x : lists es m ->
  lists (splice ScoreTree.key_cmp (s, x) (drop_member x es)) (<[x := okey s]> m).
Proof.
  unfold lists. intros E. by rewrite zlist_insert, <- E, splice_keyed, drop_member_keyed.
Qed.

Lemma same_score s0 sc : f64_eqb s0 sc || (is_nan s0 && is_nan sc) = bool_decide (okey s0 = okey sc).
Proof.
  unfold f64_eqb. destruct (is_nan s0) eqn:E0, (is_nan sc) eqn:E1; simpl; rewrite ?orb_false_r; [..|done];
    symmetry.
  - apply okey_nan in E0, E1. apply bool_decide_eq_true_2. congruence.
  - apply okey_nan in E0. apply okey_lt_nan in E1. apply bool_decide_eq_false_2. lia.
  - apply okey_nan in E1. apply okey_lt_nan in E0. apply bool_decide_eq_false_2. lia.
Qed.

(** Cutting the packed records at a boundary. *)
Lemma slice_zframes l1 l2 :
  slice (zframes (l1 ++ l2)) 0 (length (zframes l1)) = Some (zframes l1) /\
  slice (zframes (l1 ++ l2)) (length (zframes l1)) (length (zframes (l1 ++ l2))) = Some (zframes l2).
Proof.
  rewrite zframes_app. split.
  - apply (slice_mid _ [] _ (zframes l2)); [done|done|lia].
  - apply (slice_mid _ (zframes l1) _ []); [by rewrite app_nil_r|done|by rewrite length_app].
Qed.

Lemma slice_zframes_out e1 s x e2 :
  slice (zframes (e1 ++ (s, x) :: e2)) 0 (length (zframes e1)) = Some (zframes e1) /\
  slice (zframes (e1 ++ (s, x) :: e2)) (length (zframes e1) + (12 + length x))
    (length (zframes (e1 ++ (s, x) :: e2))) = Some (zframes e2).
Proof.
  split; [apply slice_zframes|]. rewrite zframes_app, zframes_cons.
  apply (slice_mid _ (zframes e1 ++ zframe (s, x)) _ []);
    [by rewrite app_nil_r, <- app_assoc|len|rewrite !length_app, length_zframe; simpl; lia].
Qed.

Lemma zframes_splice l1 s x l2 :
  zframes l1 ++ (le_bytes 8 s ++ le_bytes 4 (Z.of_nat (length x)) ++ x) ++ zframes l2
    = zframes (l1 ++ (s, x) :: l2).
Proof. by rewrite zframes_app, zframes_cons, zframe_eq. Qed.

Lemma compact_insert_new c es x sc : crepr c es -> entry_wf (sc, x) -> x ∉ es.*2 -> exists c',
  CompactZSet.insert c x sc = Some (true, c') /\ crepr c' (splice ScoreTree.key_cmp (sc, x) es).
Proof.
  intros Hc Hw Hn. pose proof Hc as [Eb El Ey Ew].
  destruct (scan_new x sc es Ew Hn) as (st & l1 & l2 & E & Hf & -> & Hcut & ->).
  unfold CompactZSet.insert. rewrite Eb, El. unfold scan_start in E. rewrite E. mstep.
  unfold cut_at in Hcut. rewrite Hcut. mstep. rewrite Hf. case_bool_decide as Hend.
  - assert (l2 = []) as ->.
    { rewrite zframes_app, length_app in Hend. destruct l2 as [|e l2]; [done|].
      rewrite zframes_cons, length_app, length_zframe in Hend. lia. }
    eexists. split; [done|]. rewrite app_nil_r in Hc. by apply zset_crepr_append.
  - destruct (slice_zframes l1 l2) as [-> ->]. mstep. eexists. split; [done|].
    split; cbn [CompactZSet.buf CompactZSet.len CompactZSet.nbytes].
    + apply zframes_splice.
    + len.
    + rewrite Ey, !fmap_app, fmap_cons. simpl. len.
    + rewrite Forall_app, Forall_cons in *. tauto.
Qed.

Lemma compact_insert_old c e1 s0 x e2 sc : crepr c (e1 ++ (s0, x) :: e2) -> entry_wf (sc, x) ->
  x ∉ e1.*2 -> x ∉ e2.*2 -> exists c',
  CompactZSet.insert c x sc = Some (false, c') /\
  crepr c' (if bool_decide (okey s0 = okey sc) then e1 ++ (s0, x) :: e2
            else splice ScoreTree.key_cmp (sc, x) (e1 ++ e2)).
Proof.
  intros Hc Hw H1 H2. pose proof Hc as [Eb El Ey Ew].
  destruct (scan_old x sc s0 e1 e2 Ew H1 H2) as (st & l1 & l2 & E & Hf & Esp & Hcut & ->).
  unfold CompactZSet.insert. rewrite Eb, El. unfold scan_start in E. rewrite E. mstep.
  unfold cut_at in Hcut. rewrite Hcut. mstep. rewrite Hf, same_score.
  case_bool_decide as Heq; [eauto|].
  destruct (slice_zframes_out e1 s0 x e2) as [-> ->]. mstep.
  rewrite <- zframes_app, Esp. destruct (slice_zframes l1 l2) as [-> ->]. mstep.
  eexists. split; [done|].
  assert (forall P : entry -> Prop, Forall P (e1 ++ e2) <-> Forall P (l1 ++ l2)) as HP
    by (intros P; by rewrite Esp).
  assert (length (e1 ++ e2) = length (l1 ++ l2)) as HL by (by rewrite Esp).
  assert (total_len (e1 ++ e2).*2 = total_len (l1 ++ l2).*2) as HT by (by rewrite Esp).
  split; cbn [CompactZSet.buf CompactZSet.len CompactZSet.nbytes].
  - apply zframes_splice.
  - len.
  - rewrite Ey, !fmap_app, !fmap_cons in *. simpl. len.
  - specialize (HP entry_wf). rewrite !Forall_app, !Forall_cons in *. tauto.
Qed.

Lemma compact_insert c es m x sc : crepr c es -> lists es m -> entry_wf (sc, x) -> exists c' es',
  CompactZSet.insert c x sc = Some (bool_decide (m !! x = None), c') /\
  crepr c' es' /\ lists es' (<[x := okey sc]> m).
Proof.
  intros Hc E Hw. destruct (m !! x) as [k|] eqn:Ek.
  - destruct (lists_split _ _ _ _ E Ek) as (e1 & s0 & e2 & -> & Hk & H1 & H2).
    destruct (compact_insert_old _ _ _ _ _ _ Hc Hw H1 H2) as (c' & Ei & Hc').
    eexists c', _. split_and!; [done|exact Hc'|]. case_bool_decide as Heq.
    + by rewrite insert_id by congruence.
    + rewrite <- (drop_member_split x s0) by done. by apply lists_splice.
  - apply (lists_absent _ _ _ E) in Ek as Hn.
    destruct (compact_insert_new _ _ _ _ Hc Hw Hn) as (c' & Ei & Hc').
    eexists c', _. split_and!; [done|exact Hc'|].
    rewrite <- (drop_member_absent x es Hn). by apply lists_splice.
Qed.

Lemma compact_score c es m x : crepr c es -> lists es m -> okey <$> CompactZSet.score c x = m !! x.
Proof.
  intros Hc E. unfold CompactZSet.score. rewrite (zset_crepr_iter _ _ Hc).
  destruct (list_find _ _) as [[i [y s]]|] eqn:Hf.
  - apply list_find_Some in Hf as (Hi & Hy & _). simpl in Hy. subst y. simpl.
    rewrite list_lookup_fmap in Hi. destruct (es !! i) as [[s' x']|] eqn:Hi'; simpl in Hi; [|done].
    injection Hi as -> ->. symmetry. eapply lists_lookup; [done|]. by eapply list_elem_of_lookup_2.
  - apply list_find_None in Hf. symmetry. apply (lists_absent _ _ _ E).
    intros ([s y] & -> & Hy)%list_elem_of_fmap. rewrite Forall_forall in Hf.
    apply (Hf (y, s)); [|done]. apply list_elem_of_fmap. by exists (s, y).
Qed.

Lemma zset_remove_loop_hit c b x e1 s e2 pre : CompactZSet.buf c = b ->
  b = pre ++ zframes (e1 ++ (s, x) :: e2) -> Forall entry_wf (e1 ++ (s, x) :: e2) -> x ∉ e1.*2 ->
  CompactZSet.remove_loop c x (length pre) (length (e1 ++ (s, x) :: e2))
    = (p1 ← slice b 0 (length (pre ++ zframes e1));
       p2 ← slice b (length (pre ++ zframes e1) + (12 + length x)) (length b);
       l ← checked_sub (CompactZSet.len c) 1;
       nb ← checked_sub (CompactZSet.nbytes c) (length x);
       Some (Some s, {| CompactZSet.buf := p1 ++ p2; CompactZSet.len := l; CompactZSet.nbytes := nb |})).
Proof.
  intros Hcb. revert pre. induction e1 as [|[t y] e1 IH]; intros pre Eb Hw Hn;
    simpl app in *; apply Forall_cons in Hw as [He Hw]; rewrite <- (app_nil_r (zframes _)) in Eb;
    destruct (zframes_step _ _ _ _ _ Eb) as (E1 & E2 & E3); rewrite app_nil_r in *;
    cbn [length CompactZSet.remove_loop]; rewrite Hcb, (read_pair_spec _ _ _ _ _ E1 He); mstep.
  - rewrite bool_decide_eq_true_2 by done.
    by replace (12 + length x - 12) with (length x) by lia.
  - simpl in Hn. rewrite bool_decide_eq_false_2 by set_solver.
    cbn [snd] in E3. rewrite E3, IH; [|done|done|set_solver]. by rewrite zframes_cons, app_assoc.
Qed.

Lemma remove_loop_miss c b x es pre : CompactZSet.buf c = b ->
  b = pre ++ zframes es -> Forall entry_wf es -> x ∉ es.*2 ->
  CompactZSet.remove_loop c x (length pre) (length es) = Some (None, c).
Proof.
  intros Hcb. revert pre. induction es as [|[t y] es IH]; intros pre Eb Hw Hn; [done|].
  apply Forall_cons in Hw as [He Hw]. rewrite <- (app_nil_r (zframes _)) in Eb.
  destruct (zframes_step _ _ _ _ _ Eb) as (E1 & E2 & E3). rewrite app_nil_r in *.
  cbn [length CompactZSet.remove_loop]. rewrite Hcb, (read_pair_spec _ _ _ _ _ E1 He). mstep.
  simpl in Hn. rewrite bool_decide_eq_false_2 by set_solver.
  cbn [snd] in E3. rewrite E3. apply IH; [done|done|set_solver].
Qed.

Lemma zset_compact_remove c es m x : crepr c es -> lists es m -> exists r c' es',
  CompactZSet.remove c x = Some (r, c') /\ okey <$> r = m !! x /\
  crepr c' es' /\ lists es' (delete x m).
Proof.
  intros Hc E. pose proof Hc as [Eb El Ey Ew]. unfold CompactZSet.remove. rewrite El.
  destruct (m !! x) as [k|] eqn:Ek.
  - destruct (lists_split _ _ _ _ E Ek) as (e1 & s0 & e2 & -> & Hk & H1 & H2).
    pose proof (zset_remove_loop_hit c _ x e1 s0 e2 [] Eb eq_refl Ew H1) as Er.
    cbn [length app] in Er. rewrite Er. clear Er.
    destruct (slice_zframes_out e1 s0 x e2) as [E1 E2]. rewrite E1. mstep. rewrite E2. mstep.
    rewrite fmap_app, fmap_cons in Ey. simpl in Ey. rewrite length_app in El. simpl in El.
    rewrite (checked_sub_ok (CompactZSet.len c)) by lia. mstep.
    rewrite checked_sub_ok by len. mstep.
    eexists _, _, (e1 ++ e2). split_and!; [done|simpl; by rewrite Hk| |].
    + split; simpl.
      * by rewrite zframes_app.
      * len.
      * rewrite fmap_app. len.
      * rewrite Forall_app, Forall_cons in *. tauto.
    + rewrite <- (drop_member_split x s0) by done. by apply lists_drop.
  - apply (lists_absent _ _ _ E) in Ek as Hn.
    pose proof (remove_loop_miss c _ x es [] Eb eq_refl Ew Hn) as Er.
    cbn [length app] in Er. rewrite Er.
    eexists _, _, _. split_and!; [done|done|exact Hc|]. by rewrite delete_id.
Qed.

(** ** The skiplist *)

Lemma tree_insert_splice e es : keyed e ∉ keyed <$> es ->
  ScoreTree.insert e es = splice ScoreTree.key_cmp e es.
Proof.
  induction es as [|e' es IH]; intros Hn; [done|]. rewrite fmap_cons, not_elem_of_cons in Hn.
  destruct Hn as [Hne Hn]. simpl. destruct (ScoreTree.key_cmp e e') eqn:Ec; [|done|].
  - rewrite key_cmp_keyed in Ec. by apply kcmp_eq in Ec.
  - by rewrite IH.
Qed.

Lemma tree_remove_drop s x es : NoDup es.*2 -> keyed (s, x) ∈ keyed <$> es ->
  ScoreTree.remove (s, x) es = drop_member x es.
Proof.
  induction es as [|[t y] es IH]; intros Hn He; [by apply not_elem_of_nil in He|].
  rewrite fmap_cons in *. simpl in *. apply NoDup_cons in Hn as [Hy Hn].
  rewrite key_cmp_keyed. apply elem_of_cons in He as [He|He].
  - rewrite (proj2 (kcmp_eq _ _) He). assert (x = y) as -> by (by injection He).
    symmetry. by apply (drop_member_split y t [] es); [apply not_elem_of_nil|].
  - assert (x <> y) as Hxy.
    { intros ->. apply Hy. rewrite <- keyed_snd. apply list_elem_of_fmap. by exists (keyed (s, y)). }
    unfold drop_member. rewrite filter_cons_True by (simpl; congruence).
    destruct (kcmp (keyed (s, x)) (keyed (t, y))) eqn:Ec; [|by rewrite IH..].
    apply kcmp_eq in Ec. injection Ec as _ Ec. done.
Qed.

(** Payload of a sorted set: its members' bytes. *)
Definition zsize (m : gmap bytes Z) : nat := total_len (zlist m).*2.

Record srepr (s : SkiplistZSet.t) (m : gmap bytes Z) : Prop := mk_srepr {
  sr_tree : lists (SkiplistZSet.by_score s) m;
  sr_map : okey <$> SkiplistZSet.members s = m;
  sr_bytes : SkiplistZSet.nbytes s = zsize m;
  sr_wf : Forall (fun e : entry => f64_wf e.1) (SkiplistZSet.by_score s);
}.

Lemma zsize_insert_new m x k : m !! x = None -> zsize (<[x := k]> m) = length x + zsize m.
Proof.
  intros Hm. unfold zsize. rewrite !zlist_perm, !swap_fmap_snd, map_to_list_insert by done. done.
Qed.

Lemma zsize_delete m x k : m !! x = Some k -> zsize m = length x + zsize (delete x m).
Proof.
  intros Hm. rewrite <- (zsize_insert_new (delete x m) x k) by apply lookup_delete_eq.
  by rewrite insert_delete_id.
Qed.

Lemma zsize_insert_old m x k k' : m !! x = Some k -> zsize (<[x := k']> m) = zsize m.
Proof.
  intros Hm. rewrite (zsize_delete _ _ _ Hm), <- insert_delete_eq.
  by rewrite zsize_insert_new by apply lookup_delete_eq.
Qed.

Lemma sr_lookup s m x : srepr s m -> okey <$> SkiplistZSet.members s !! x = m !! x.
Proof. intros []. by rewrite <- sr_map0, lookup_fmap. Qed.

Lemma skiplist_score s m x : srepr s m -> okey <$> SkiplistZSet.score s x = m !! x.
Proof. apply sr_lookup. Qed.

Lemma lists_member_key es m s x : lists es m -> m !! x = Some (okey s) -> keyed (s, x) ∈ keyed <$> es.
Proof. intros E Hm. rewrite E. by apply elem_of_zlist. Qed.

Lemma lists_not_member es m s x : lists es m -> m !! x = None -> keyed (s, x) ∉ keyed <$> es.
Proof. intros E Hm. rewrite E. intros Hk%elem_of_zlist. simpl in *. congruence. Qed.

Lemma Forall_splice (P : entry -> Prop) e es : P e -> Forall P es -> Forall P (splice ScoreTree.key_cmp e es).
Proof. intros He Hs. rewrite splice_perm. by constructor. Qed.

Lemma Forall_drop_member (P : entry -> Prop) x es : Forall P es -> Forall P (drop_member x es).
Proof. rewrite !Forall_forall. intros Hs e [_ He]%list_elem_of_filter. auto. Qed.

Lemma skiplist_insert s m x sc : srepr s m -> f64_wf sc -> exists s',
  SkiplistZSet.insert s x sc = (bool_decide (m !! x = None), s') /\ srepr s' (<[x := okey sc]> m).
Proof.
  intros Hs Hw. pose proof (sr_lookup s m x Hs) as Hx. destruct Hs as [Et Em Eb Ew].
  unfold SkiplistZSet.insert. destruct (SkiplistZSet.members s !! x) as [old|]; simpl in Hx; rewrite <- Hx.
  - eexists. split; [done|]. split; simpl.
    + rewrite of_eqb_okey. case_bool_decide as Heq; simpl.
      * by rewrite insert_id by congruence.
      * rewrite tree_remove_drop, tree_insert_splice by
          (apply lists_drop with (x := x) in Et as Et'; (by eapply lists_NoDup) ||
           (by eapply lists_member_key) || (eapply lists_not_member; [exact Et'|apply lookup_delete_eq])).
        by apply lists_splice.
    + by rewrite fmap_insert, Em.
    + by erewrite zsize_insert_old.
    + case_match; [|done]. rewrite tree_remove_drop by
        ((by eapply lists_NoDup) || (by eapply lists_member_key)).
      apply lists_drop with (x := x) in Et as Et'. rewrite tree_insert_splice by
        (eapply lists_not_member; [exact Et'|apply lookup_delete_eq]).
      by apply Forall_splice, Forall_drop_member.
  - eexists. split; [done|]. rewrite tree_insert_splice by (by eapply lists_not_member).
    split; simpl.
    + rewrite <- (drop_member_absent x (SkiplistZSet.by_score s)) by (by apply (lists_absent _ _ _ Et)).
      by apply lists_splice.
    + by rewrite fmap_insert, Em.
    + rewrite zsize_insert_new by done. lia.
    + by apply Forall_splice.
Qed.

Lemma skiplist_remove s m x : srepr s m -> exists r s',
  SkiplistZSet.remove s x = (r, s') /\ okey <$> r = m !! x /\ srepr s' (delete x m).
Proof.
  intros Hs. pose proof (sr_lookup s m x Hs) as Hx. pose proof Hs as [Et Em Eb Ew].
  unfold SkiplistZSet.remove. destruct (SkiplistZSet.members s !! x) as [old|]; simpl in Hx.
  - eexists _, _. split; [done|]. split; [done|].
    split; simpl.
    + rewrite tree_remove_drop by ((by eapply lists_NoDup) || (by eapply lists_member_key)).
      by apply lists_drop.
    + by rewrite fmap_delete, Em.
    + rewrite Eb, (zsize_delete m x (okey old)) by done. lia.
    + rewrite tree_remove_drop by ((by eapply lists_NoDup) || (by eapply lists_member_key)).
      by apply Forall_drop_member.
  - eexists _, _. split; [done|]. split; [done|]. by rewrite delete_id.
Qed.

(** ** Both encodings *)

Definition repr (z : ZSetData) (m : gmap bytes Z) : Prop :=
  match z with
  | Compact c => exists es, crepr c es /\ lists es m
  | Skiplist s => srepr s m
  end.

Lemma zset_repr_new : repr new ∅.
Proof. exists []. split; [apply (zset_crepr_empty 0 0)|done]. Qed.

Lemma zset_repr_len z m : repr z m -> len z = size m.
Proof.
  destruct z as [c|s]; [intros (es & [] & E)|intros []]; simpl.
  - by rewrite cr_len0, <- length_zlist, <- E, length_fmap.
  - by rewrite <- sr_map0, map_size_fmap.
Qed.

Lemma zset_repr_payload z m : repr z m -> payload_bytes z = zsize m.
Proof.
  destruct z as [c|s]; [intros (es & [] & E)|by intros []]; simpl.
  unfold zsize. by rewrite cr_bytes0, <- E, keyed_snd.
Qed.

Lemma repr_score z m x : repr z m -> okey <$> score z x = m !! x.
Proof.
  destruct z as [c|s]; [intros (es & Hc & E); by eapply compact_score|apply skiplist_score].
Qed.

(** What every ordered read sees. *)
Lemma repr_view z m : repr z m -> exists es, to_pairs_sorted z = swap <$> es /\ lists es m.
Proof.
  destruct z as [c|s]; [intros (es & Hc & E)|intros [Et _ _ _]]; simpl.
  - exists es. split; [by apply zset_crepr_iter|done].
  - eexists. split; [|exact Et]. by apply list_fmap_ext.
Qed.

Lemma srepr_empty n : srepr (SkiplistZSet.with_capacity n) ∅.
Proof. split; [done|apply fmap_empty|done|constructor]. Qed.

Lemma srepr_fold ps s m : srepr s m -> Forall (fun p : bytes * f64 => f64_wf p.2) ps ->
  srepr (fold_left (fun sk p => (SkiplistZSet.insert sk p.1 p.2).2) ps s)
        (fold_left (fun m p => <[p.1 := okey p.2]> m) ps m).
Proof.
  revert s m. induction ps as [|[x sc] ps IH]; intros s m Hs Hw; [done|].
  apply Forall_cons in Hw as [Hw1 Hw]. simpl.
  destruct (skiplist_insert s m x sc Hs Hw1) as (s' & -> & Hs'). by apply IH.
Qed.

Lemma fold_okey (ps : list (bytes * f64)) (m : gmap bytes Z) : NoDup ps.*1 ->
  fold_left (fun m (p : bytes * f64) => <[p.1 := okey p.2]> m) ps m
    = list_to_map (prod_map id okey <$> ps) ∪ m.
Proof.
  intros Hn. rewrite <- fold_insert_list_to_map.
  - revert m. induction ps as [|p ps IH]; intros m; [done|]. rewrite fmap_cons. simpl.
    apply NoDup_cons in Hn as [_ Hn]. by apply IH.
  - by rewrite <- list_fmap_compose.
Qed.

(** Listing a map by its keyed pairs. *)
Lemma lists_to_map es m : lists es m -> list_to_map (prod_map id okey <$> (swap <$> es)) = m.
Proof.
  intros E. rewrite <- list_fmap_compose.
  replace ((prod_map id okey ∘ swap) <$> es) with (swap <$> (keyed <$> es))
    by (rewrite <- list_fmap_compose; by apply list_fmap_ext).
  rewrite E. rewrite (list_to_map_proper _ (map_to_list m)); [apply list_to_map_to_list| |].
  - rewrite swap_fmap_fst. apply zlist_NoDup.
  - rewrite zlist_perm, <- list_fmap_compose.
    rewrite (list_fmap_ext _ id), list_fmap_id; [done|]. by intros ? [].
Qed.

Lemma repr_ensure_skiplist z m : repr z m -> srepr (ensure_skiplist z) m.
Proof.
  destruct z as [c|s]; [|done]. intros Hr. pose proof (zset_repr_payload _ _ Hr) as Hp.
  destruct Hr as (es & Hc & E). simpl. rewrite (zset_crepr_iter _ _ Hc).
  pose proof Hc as [Eb El Ey Ew].
  assert (srepr (fold_left (fun sk p => (SkiplistZSet.insert sk p.1 p.2).2) (swap <$> es)
            (SkiplistZSet.with_capacity (CompactZSet.len c))) m) as Hs.
  { replace m with (fold_left (fun m (p : bytes * f64) => <[p.1 := okey p.2]> m) (swap <$> es)
                      (∅ : gmap bytes Z)).
    - apply srepr_fold; [apply srepr_empty|]. apply Forall_fmap.
      eapply Forall_impl; [exact Ew|]. by intros e [? _].
    - rewrite fold_okey, map_union_empty; [by apply lists_to_map|].
      rewrite swap_fmap_fst. by eapply lists_NoDup. }
  by destruct Hs.
Qed.

(** A [max_value] setting that keeps compact lengths in their [u32] prefix. *)
Definition thr_sane (thr : ZSetThresholds) : Prop := (Z.of_nat (max_value thr) < 2 ^ 32)%Z.

Lemma zset_small_sized thr (x : bytes) : thr_sane thr -> length x <= max_value thr -> u32_sized x.
Proof. unfold thr_sane, u32_sized. lia. Qed.

Lemma repr_insert thr z m x sc : thr_sane thr -> f64_wf sc -> repr z m -> exists z',
  insert thr z x sc = Some (bool_decide (m !! x = None), z') /\ repr z' (<[x := okey sc]> m).
Proof.
  intros Ht Hw Hr.
  assert (forall s, srepr s m -> exists z', Some (insert_skiplist s x sc)
    = Some (bool_decide (m !! x = None), z') /\ repr z' (<[x := okey sc]> m)) as Hsk.
  { intros s Hs. unfold insert_skiplist.
    destruct (skiplist_insert s m x sc Hs Hw) as (s' & -> & ?). by eexists. }
  destruct z as [c|s]; [|by apply Hsk]. unfold insert.
  destruct (bool_decide (max_value thr < length x)) eqn:Hv; [by apply Hsk, repr_ensure_skiplist|].
  apply bool_decide_eq_false in Hv.
  destruct (_ && _); [by apply Hsk, repr_ensure_skiplist|].
  destruct Hr as (es & Hc & E).
  destruct (compact_insert c es m x sc Hc E) as (c' & es' & -> & Hc' & E').
  { split; [done|]. eapply zset_small_sized; [done|]. simpl. lia. }
  mstep. eexists. split; [done|]. by exists es'.
Qed.

Section Order.
Context `{HashOrder}.

Lemma zset_repr_maybe_demote thr z m : thr_sane thr -> repr z m -> repr (maybe_demote thr z) m.
Proof.
  intros Ht Hr. destruct z as [c|s]; [done|]. unfold maybe_demote.
  case_bool_decide; [done|]. destruct (existsb _ _) eqn:Ex; [done|]. case_bool_decide; [done|].
  destruct Hr as [Et Em Eb Ew]. exists (SkiplistZSet.by_score s). split; [|done].
  apply (zset_crepr_fold_append _ _ []); [apply zset_crepr_empty|].
  rewrite Forall_forall in *. intros [sc x] He. split; [by apply (Ew (sc, x))|].
  eapply zset_small_sized; [done|]. simpl. destruct (decide (max_value thr < length x)) as [Hl|]; [|lia].
  apply not_true_iff_false in Ex. destruct Ex. apply existsb_exists. exists x.
  split; [|by apply bool_decide_eq_true_2]. apply list_elem_of_In, list_elem_of_fmap.
  pose proof (lists_lookup _ _ _ _ Et He) as Hm. rewrite <- Em, lookup_fmap in Hm.
  destruct (SkiplistZSet.members s !! x) as [sc'|] eqn:Hx; [|done].
  exists (x, sc'). split; [done|]. rewrite hm_iter_perm. by apply elem_of_map_to_list.
Qed.

Lemma repr_remove thr z m x : thr_sane thr -> repr z m -> exists r z',
  remove thr z x = Some (r, z') /\ okey <$> r = m !! x /\ repr z' (delete x m).
Proof.
  intros Ht Hr. unfold remove.
  assert (exists r z', match z with
    | Compact c => '(r, c') ← CompactZSet.remove c x; Some (r, Compact c')
    | Skiplist s => let '(r, s') := SkiplistZSet.remove s x in Some (r, Skiplist s')
    end = Some (r, z') /\ okey <$> r = m !! x /\ repr z' (delete x m)) as (r & z' & -> & Hk & Hr').
  { destruct z as [c|s].
    - destruct Hr as (es & Hc & E).
      destruct (zset_compact_remove c es m x Hc E) as (r & c' & es' & -> & Hk & Hc' & E'). mstep.
      eexists _, _. split_and!; [done|done|by exists es'].
    - destruct (skiplist_remove s m x Hr) as (r & s' & -> & Hk & Hs'). eauto. }
  mstep. eexists _, _. split_and!; [done|done|].
  destruct r; [by apply zset_repr_maybe_demote|done].
Qed.

End Order.
End Refinement.

(** ** Ordered reads *)

Lemma sorted_around (l1 l2 : list kentry) e : StronglySorted kle (l1 ++ e :: l2) -> NoDup (l1 ++ e :: l2) ->
  filter (fun e' => kcmp e' e = Lt) (l1 ++ e :: l2) = l1 /\
  filter (fun e' => kcmp e' e = Gt) (l1 ++ e :: l2) = l2.
Proof.
  intros Hs Hn. apply NoDup_app in Hn as (_ & Hn1 & Hn2). apply NoDup_cons in Hn2 as [Hn2 _].
  assert (Forall (fun e' => kcmp e' e = Lt) l1) as H1.
  { apply Forall_forall. intros e' He'. assert (e' <> e) by (intros ->; apply (Hn1 e He'); constructor).
    assert (kle e' e) as Hle by (eapply StronglySorted_app_1_elem_of; [exact Hs|done|constructor]).
    unfold kle in Hle. destruct (kcmp e' e) eqn:E; [|done|done]. by apply kcmp_eq in E. }
  assert (Forall (fun e' => kcmp e' e = Gt) l2) as H2.
  { apply StronglySorted_app_1_r, StronglySorted_inv in Hs as [_ Hf].
    rewrite Forall_forall in *. intros e' He'. specialize (Hf e' He'). unfold kle in Hf.
    rewrite kcmp_antisym. destruct (kcmp e e') eqn:E; [|done|done]. apply kcmp_eq in E as ->. done. }
  assert (kcmp e e = Eq) as He by (by apply kcmp_eq).
  split; rewrite filter_app, filter_cons_False by (rewrite He; done).
  - rewrite (list_filter_all _ l1), (list_filter_none _ l2); [by rewrite app_nil_r| |done].
    eapply Forall_impl; [exact H2|]. simpl. congruence.
  - rewrite (list_filter_none _ l1), (list_filter_all _ l2); [done|done|].
    eapply Forall_impl; [exact H1|]. simpl. congruence.
Qed.

(** The rank of a member: how many entries sort before it (after it, from the
    other end); a NaN score compares unequal to itself and has no rank. *)
Definition spec_rank (m : gmap bytes Z) (x : bytes) (rev : bool) : option nat :=
  k ← m !! x;
  if bool_decide (k = NAN_KEY) then None
  else Some (length (filter (fun e => kcmp e (k, x) = if rev then Gt else Lt) (zlist m))).

(** Negative indices count from the end and stop at the first entry. *)
Definition spec_index (i : Z) (n : nat) : nat :=
  if bool_decide (i < 0)%Z then Z.to_nat (Z.max 0 (Z.of_nat n + i)) else Z.to_nat i.

Definition spec_range {A} (l : list A) (start stop : Z) (rev : bool) : list A :=
  let a := spec_index start (length l) in
  let b := spec_index stop (length l) in
  take (S b - a) (drop a (if rev then reverse l else l)).

Definition spec_in_range (min : f64) (min_excl : bool) (max : f64) (max_excl : bool) (k : Z) : bool :=
  negb (is_nan min) && negb (is_nan max) && bool_decide (k <> NAN_KEY) &&
  (if min_excl then bool_decide (okey min < k)%Z else bool_decide (okey min <= k)%Z) &&
  (if max_excl then bool_decide (k < okey max)%Z else bool_decide (k <= okey max)%Z).

Definition spec_range_by_score (m : gmap bytes Z) (min : f64) (min_excl : bool) (max : f64)
    (max_excl : bool) (rev : bool) (offset : nat) (count : option nat) : list kentry :=
  let l := filter (fun e : kentry => spec_in_range min min_excl max max_excl e.1 = true) (zlist m) in
  let l := drop offset (if rev then reverse l else l) in
  match count with Some n => take n l | None => l end.

Definition spec_range_by_lex (m : gmap bytes Z) (min_b : option bytes) (min_excl : bool)
    (max_b : option bytes) (max_excl : bool) : list bytes :=
  filter (fun x => in_lex_range min_b min_excl max_b max_excl x = true)
    (merge_sort bytes_le (map_to_list m).*1).

(** A reply's pairs, by rank. *)
Definition rekey (p : bytes * f64) : kentry := keyed (swap p).

Lemma rekey_swap (es : list entry) : rekey <$> (swap <$> es) = keyed <$> es.
Proof. rewrite <- list_fmap_compose. apply list_fmap_ext. by intros ? [? ?]. Qed.

Lemma repr_sorted `{OrderedFloat} z m : repr z m -> rekey <$> to_pairs_sorted z = zlist m.
Proof. intros (es & -> & E)%repr_view. by rewrite rekey_swap. Qed.

Lemma in_score_range_key min mi max mx s :
  in_score_range min mi max mx s = spec_in_range min mi max mx (okey s).
Proof.
  unfold in_score_range, spec_in_range, f64_ltb, f64_leb.
  destruct (is_nan s) eqn:Es.
  - apply okey_nan in Es as Ek. rewrite Ek.
    destruct mi, mx, (is_nan min), (is_nan max); simpl; done.
  - rewrite (bool_decide_eq_true_2 (okey s <> NAN_KEY)) by (intros ?%okey_nan; congruence).
    destruct mi, mx, (is_nan min), (is_nan max); simpl; rewrite ?andb_false_r; done.
Qed.

Lemma range_by_score_refines `{OrderedFloat} z m min mi max mx rev offset count : repr z m ->
  rekey <$> range_by_score z min mi max mx rev offset count
    = spec_range_by_score m min mi max mx rev offset count.
Proof.
  intros E%repr_sorted. unfold range_by_score, spec_range_by_score. rewrite <- E.
  rewrite list_filter_fmap.
  rewrite (list_filter_iff _ (fun p : bytes * f64 => spec_in_range min mi max mx (rekey p).1 = true));
    [|intros [x s]; by rewrite in_score_range_key].
  destruct rev, count; by rewrite <- ?fmap_reverse, <- ?fmap_drop, <- ?fmap_take.
Qed.

Lemma range_by_rank_refines `{OrderedFloat} z m start stop rev : repr z m ->
  map rekey <$> range_by_rank z start stop rev = Some (spec_range (zlist m) start stop rev).
Proof.
  intros Hr. pose proof (repr_sorted _ _ Hr) as E. unfold range_by_rank, spec_range.
  rewrite (zset_repr_len _ _ Hr), Nat2Z.id, <- length_zlist, <- E, length_fmap.
  set (l := to_pairs_sorted z).
  assert (forall i, normalize_index i (Z.of_nat (length l)) = spec_index i (length l)) as Hi.
  { intros i. unfold normalize_index, spec_index. by rewrite Z.max_comm. }
  rewrite !Hi. set (a := spec_index start (length l)). set (b := spec_index stop (length l)).
  replace (if rev then reverse (rekey <$> l) else rekey <$> l)
    with (rekey <$> (if rev then reverse l else l)) by (destruct rev; [apply fmap_reverse|done]).
  set (l' := if rev then reverse l else l).
  assert (length l' = length l) as Hl by (unfold l'; destruct rev; [apply length_reverse|done]).
  rewrite Hl. case_bool_decide as Hc.
  - simpl. f_equal. symmetry. destruct (decide (length l <= a)).
    + rewrite drop_ge, take_nil; [done|]. rewrite length_fmap. lia.
    + replace (S b - a) with 0 by lia. done.
  - rewrite (Nat.min_l a) in * by lia. unfold slice. rewrite bool_decide_eq_true_2 by lia.
    cbn [fmap option_fmap option_map]. f_equal.
    change (rekey <$> take (Nat.min b (length l - 1) + 1 - a) (drop a l')
      = take (S b - a) (drop a (rekey <$> l'))). rewrite fmap_take, fmap_drop. destruct (decide (b <= length l - 1)).
    + f_equal. lia.
    + rewrite !take_ge; [done|..]; rewrite length_drop, length_fmap; lia.
Qed.

Lemma list_find_middle {A} (P : A -> Prop) `{forall x, Decision (P x)} l1 x l2 :
  Forall (fun y => ~ P y) l1 -> P x -> list_find P (l1 ++ x :: l2) = Some (length l1, x).
Proof.
  intros Hn Hx. apply list_find_Some. split_and!; [by rewrite list_lookup_middle|done|].
  intros j y Hj Hlt. rewrite lookup_app_l in Hj by done. rewrite Forall_forall in Hn.
  apply Hn. by eapply list_elem_of_lookup_2.
Qed.

Lemma rank_refines `{OrderedFloat} z m x rev : repr z m -> rank z x rev = Some (spec_rank m x rev).
Proof.
  intros Hr. unfold rank, spec_rank. pose proof (repr_score _ _ x Hr) as Hs.
  destruct (score z x) as [sc|]; simpl in Hs; rewrite <- Hs; [|done]. mstep. symmetry in Hs.
  destruct (repr_view _ _ Hr) as (es & -> & E).
  destruct (lists_split _ _ _ _ E Hs) as (e1 & s & e2 & -> & Hk & H1 & H2).
  case_bool_decide as Hnan.
  - apply okey_nan in Hnan as Hn'. rewrite (proj2 (list_find_None _ _)); [done|].
    apply Forall_forall. intros p _. unfold f64_eqb. rewrite Hn', andb_false_r. done.
  - assert (is_nan s = false /\ is_nan sc = false) as [Hn1 Hn2].
    { split; apply not_true_iff_false; intros ?%okey_nan; congruence. }
    rewrite fmap_app, fmap_cons, list_find_middle.
    + rewrite length_fmap, (zset_repr_len _ _ Hr), <- length_zlist.
      pose proof (zlist_sorted m) as Hsort. pose proof (NoDup_fmap_snd_1 _ (zlist_NoDup m)) as Hnd.
      assert (zlist m = (keyed <$> e1) ++ (okey sc, x) :: (keyed <$> e2)) as El.
      { rewrite <- E, fmap_app, fmap_cons, <- Hk. done. }
      rewrite El in *.
      destruct (sorted_around _ _ _ Hsort Hnd) as [Hlt Hgt].
      destruct rev; [rewrite Hgt|by rewrite Hlt, length_fmap].
      rewrite length_app, !length_fmap. simpl.
      rewrite checked_sub_ok by lia. mstep. rewrite checked_sub_ok by lia. mstep.
      do 2 f_equal. rewrite length_fmap. lia.
    + apply Forall_fmap, Forall_forall. intros [t y] Hy. simpl.
      rewrite bool_decide_eq_false_2, andb_false_r; [done|]. intros ->.
      apply H1. apply list_elem_of_fmap. by exists (t, x).
    + simpl. unfold f64_eqb. rewrite Hn1, Hn2. simpl. by rewrite !bool_decide_eq_true_2 by congruence.
Qed.

Lemma fmap_head {A B} (f : A -> B) (l : list A) : head (f <$> l) = f <$> head l.
Proof. by destruct l. Qed.

(** The extreme entry, by rank. *)
Definition spec_extreme (m : gmap bytes Z) (max : bool) : option kentry :=
  if max then list.last (zlist m) else head (zlist m).

Lemma fold_last (l : list (bytes * f64)) (acc : option entry) :
  fold_left (fun _ (p : bytes * f64) => Some (p.2, p.1)) l acc
    = match list.last l with Some p => Some (swap p) | None => acc end.
Proof.
  revert acc. induction l as [|p l IH]; intros acc; [done|]. simpl fold_left. rewrite IH.
  destruct l; [done|]. rewrite last_cons_cons. by destruct (list.last _) eqn:E; [|apply last_None in E].
Qed.

Lemma extreme_refines `{OrderedFloat} z m (max : bool) : repr z m ->
  keyed <$> (if max then last z else first z) = spec_extreme m max.
Proof.
  intros Hr. unfold spec_extreme.
  assert (first z = head (swap <$> to_pairs_sorted z) /\ last z = list.last (swap <$> to_pairs_sorted z))
    as [-> ->].
  { destruct z as [c|s]; simpl.
    - rewrite fold_last, fmap_head, fmap_last. split; [done|]. by destruct (list.last _).
    - rewrite <- list_fmap_compose, (list_fmap_ext _ id), list_fmap_id; [done|]. by intros ? [? ?]. }
  rewrite <- (repr_sorted _ _ Hr).
  replace (rekey <$> to_pairs_sorted z) with (keyed <$> (swap <$> to_pairs_sorted z))
    by (rewrite <- list_fmap_compose; done).
  destruct max; [by rewrite (fmap_last keyed)|by rewrite (fmap_head keyed)].
Qed.

Lemma spec_extreme_member m max k x : spec_extreme m max = Some (k, x) -> m !! x = Some k.
Proof.
  unfold spec_extreme. destruct max; intros E; apply elem_of_zlist.
  - apply last_Some in E as [l ->]. apply elem_of_app. right. constructor.
  - apply head_Some in E as [l ->]. constructor.
Qed.

#[export] Instance bytes_le_trans : Transitive bytes_le.
Proof.
  intros a b c. unfold bytes_le.
  destruct (bytes_cmp a b) eqn:E1; [apply bytes_cmp_eq in E1 as ->; done| |done].
  destruct (bytes_cmp b c) eqn:E2; [apply bytes_cmp_eq in E2 as ->; by rewrite E1| |done].
  by rewrite (bytes_cmp_trans _ _ _ E1 E2).
Qed.

#[export] Instance bytes_le_total : Total bytes_le.
Proof. intros a b. unfold bytes_le. rewrite (bytes_cmp_antisym a b). destruct (bytes_cmp a b); auto. Qed.

#[export] Instance bytes_le_antisymm : AntiSymm (=) bytes_le.
Proof.
  intros a b. unfold bytes_le. rewrite (bytes_cmp_antisym a b). intros H1 H2.
  apply bytes_cmp_eq. by destruct (bytes_cmp a b).
Qed.

(** Sorting does not depend on the order the members arrive in. *)
Lemma sort_members_perm (l l' : list bytes) : l ≡ₚ l' -> merge_sort bytes_le l = merge_sort bytes_le l'.
Proof.
  intros Hp. apply (StronglySorted_unique bytes_le); [apply StronglySorted_merge_sort; apply _..|].
  by rewrite !merge_sort_Permutation.
Qed.

Section Reads.
Context `{OrderedFloat} `{HashOrder}.

Lemma member_keys_refines z m : repr z m -> member_keys z ≡ₚ (map_to_list m).*1.
Proof.
  intros Hr. destruct z as [c|s]; simpl.
  - destruct Hr as (es & Hc & E). rewrite (zset_crepr_iter _ _ Hc), swap_fmap_fst, <- keyed_snd, E.
    by rewrite zlist_perm, swap_fmap_snd.
  - destruct Hr as [_ <- _ _]. rewrite hm_iter_perm, map_to_list_fmap.
    rewrite <- list_fmap_compose. erewrite (list_fmap_ext (fst ∘ _) fst); [done|]. by intros ? [? ?].
Qed.

Lemma range_by_lex_refines z m a ai b bi : repr z m ->
  range_by_lex_members z a ai b bi = spec_range_by_lex m a ai b bi.
Proof.
  intros Hr. unfold range_by_lex_members, spec_range_by_lex.
  by rewrite (sort_members_perm _ _ (member_keys_refines _ _ Hr)).
Qed.

Lemma pop_extreme_refines thr z m max : thr_sane thr -> repr z m -> exists r z',
  pop_extreme thr z max = Some (r, z') /\ keyed <$> r = spec_extreme m max /\
  repr z' (match spec_extreme m max with Some e => delete e.2 m | None => m end).
Proof.
  intros Ht Hr. unfold pop_extreme. pose proof (extreme_refines z m max Hr) as He.
  destruct (if max then last z else first z) as [[sc x]|]; simpl in He.
  - destruct (repr_remove thr z m x Ht Hr) as (r & z' & -> & Hk & Hr'). mstep.
    symmetry in He. pose proof (spec_extreme_member _ _ _ _ He) as Hm. simpl in Hm. rewrite Hm in Hk.
    destruct r as [s'|]; [|done]. rewrite He. eexists _, _. split_and!; [done|done|exact Hr'].
  - rewrite <- He. eexists _, _. by split_and!.
Qed.

End Reads.

(** ** Histories *)

Inductive zset_op :=
  | OpInsert (x : bytes) (s : f64)
  | OpRemove (x : bytes)
  | OpScore (x : bytes)
  | OpRank (x : bytes) (rev : bool)
  | OpPop (max : bool)
  | OpRange (start stop : Z) (rev : bool)
  | OpRangeByScore (min : f64) (min_excl : bool) (max : f64) (max_excl : bool)
      (rev : bool) (offset : nat) (count : option nat)
  | OpRangeByLex (min_b : option bytes) (min_excl : bool) (max_b : option bytes) (max_excl : bool).

(** Replies; [S] is [f64] in the code and the score rank in the specification. *)
Inductive zset_reply (S : Type) :=
  | RAdded (b : bool)
  | RScore (s : option S)
  | RRank (r : option nat)
  | REntry (e : option (S * bytes))
  | REntries (es : list (S * bytes))
  | RMembers (xs : list bytes).

#[global] Arguments RAdded {S} b.
#[global] Arguments RScore {S} s.
#[global] Arguments RRank {S} r.
#[global] Arguments REntry {S} e.
#[global] Arguments REntries {S} es.
#[global] Arguments RMembers {S} xs.

Definition by_rank (r : zset_reply f64) : zset_reply Z :=
  match r with
  | RAdded b => RAdded b
  | RScore s => RScore (okey <$> s)
  | RRank r => RRank r
  | REntry e => REntry (keyed <$> e)
  | REntries es => REntries (keyed <$> es)
  | RMembers xs => RMembers xs
  end.

Definition spec_exec (op : zset_op) (m : gmap bytes Z) : zset_reply Z * gmap bytes Z :=
  match op with
  | OpInsert x s => (RAdded (bool_decide (m !! x = None)), <[x := okey s]> m)
  | OpRemove x => (RScore (m !! x), delete x m)
  | OpScore x => (RScore (m !! x), m)
  | OpRank x rev => (RRank (spec_rank m x rev), m)
  | OpPop max =>
      (REntry (spec_extreme m max), match spec_extreme m max with Some e => delete e.2 m | None => m end)
  | OpRange start stop rev => (REntries (spec_range (zlist m) start stop rev), m)
  | OpRangeByScore a ai b bi rev off n => (REntries (spec_range_by_score m a ai b bi rev off n), m)
  | OpRangeByLex a ai b bi => (RMembers (spec_range_by_lex m a ai b bi), m)
  end.

Definition op_wf (op : zset_op) : Prop :=
  match op with OpInsert _ s => f64_wf s | _ => True end.

Section Histories.
Context `{OrderedFloat} `{HashOrder}.

Definition exec (thr : ZSetThresholds) (op : zset_op) (z : ZSetData)
  : may_panic (zset_reply f64 * ZSetData) :=
  match op with
  | OpInsert x s => '(b, z') ← insert thr z x s; Some (RAdded b, z')
  | OpRemove x => '(r, z') ← remove thr z x; Some (RScore r, z')
  | OpScore x => Some (RScore (score z x), z)
  | OpRank x rev => r ← rank z x rev; Some (RRank r, z)
  | OpPop max => '(r, z') ← pop_extreme thr z max; Some (REntry r, z')
  | OpRange start stop rev => r ← range_by_rank z start stop rev; Some (REntries (swap <$> r), z)
  | OpRangeByScore a ai b bi rev off n =>
      Some (REntries (swap <$> range_by_score z a ai b bi rev off n), z)
  | OpRangeByLex a ai b bi => Some (RMembers (range_by_lex_members z a ai b bi), z)
  end.

Fixpoint run (h : list (ZSetThresholds * zset_op)) (z : ZSetData)
  : may_panic (list (zset_reply f64) * ZSetData) :=
  match h with
  | [] => Some ([], z)
  | (thr, op) :: h =>
      '(r, z') ← exec thr op z;
      '(rs, z'') ← run h z';
      Some (r :: rs, z'')
  end.

Lemma zset_exec_refines thr op z m : thr_sane thr -> op_wf op -> repr z m -> exists r z',
  exec thr op z = Some (r, z') /\ by_rank r = (spec_exec op m).1 /\ repr z' (spec_exec op m).2.
Proof.
  intros Ht Hw Hr. destruct op as [x s|x|x|x rev|max|a b rev|a ai b bi rev o n|a ai b bi]; simpl exec.
  - destruct (repr_insert thr z m x s Ht Hw Hr) as (z' & -> & ?). mstep.
    eexists _, _. by split_and!.
  - destruct (repr_remove thr z m x Ht Hr) as (r & z' & -> & Hk & ?). mstep.
    eexists _, _. split_and!; [done|simpl; by rewrite Hk|done].
  - eexists _, _. split_and!; [done|simpl; by rewrite (repr_score _ _ _ Hr)|done].
  - rewrite (rank_refines _ _ _ _ Hr). mstep. eexists _, _. by split_and!.
  - destruct (pop_extreme_refines thr z m max Ht Hr) as (r & z' & -> & Hk & Hr'). mstep.
    eexists _, _. split_and!; [done|simpl; by rewrite Hk|done].
  - pose proof (range_by_rank_refines z m a b rev Hr) as E.
    destruct (range_by_rank z a b rev) as [l|]; [|done]. mstep. injection E as E.
    eexists _, _. split_and!; [done| |done]. cbn [by_rank spec_exec fst]. f_equal.
    rewrite <- E, <- list_fmap_compose. done.
  - eexists _, _. split_and!; [done| |done]. cbn [by_rank spec_exec fst]. f_equal.
    rewrite <- (range_by_score_refines z m a ai b bi rev o n Hr), <- list_fmap_compose. done.
  - eexists _, _. split_and!; [done|simpl; by rewrite (range_by_lex_refines _ _ _ _ _ _ Hr)|done].
Qed.

End Histories.

Fixpoint spec_run (ops : list zset_op) (m : gmap bytes Z) : list (zset_reply Z) * gmap bytes Z :=
  match ops with
  | [] => ([], m)
  | op :: ops =>
      let '(r, m') := spec_exec op m in
      let '(rs, m'') := spec_run ops m' in
      (r :: rs, m'')
  end.

Lemma zset_spec_run_cons op ops m :
  spec_run (op :: ops) m
    = ((spec_exec op m).1 :: (spec_run ops (spec_exec op m).2).1, (spec_run ops (spec_exec op m).2).2).
Proof. simpl. destruct (spec_exec op m) as [r m']. simpl. by destruct (spec_run ops m'). Qed.

Definition history_sane (h : list (ZSetThresholds * zset_op)) : Prop :=
  Forall (fun p => thr_sane p.1 /\ op_wf p.2) h.

Lemma zset_run_refines `{OrderedFloat} `{HashOrder} h z m : history_sane h -> repr z m -> exists rs z',
  run h z = Some (rs, z') /\ by_rank <$> rs = (spec_run h.*2 m).1 /\ repr z' (spec_run h.*2 m).2.
Proof.
  intros Hh. revert z m. induction Hh as [|[thr op] h [Ht Hw] Hh IH]; intros z m Hr.
  - eexists _, _. by split_and!.
  - destruct (zset_exec_refines thr op z m Ht Hw Hr) as (r & z' & E & Hk & Hr').
    destruct (IH _ _ Hr') as (rs & z'' & E' & Hks & Hr'').
    rewrite fmap_cons, zset_spec_run_cons. cbn [run]. rewrite E. mstep. rewrite E'. mstep.
    eexists _, _. split_and!; [done|by rewrite fmap_cons, Hk, Hks|done].
Qed.

(** C25: From the empty sorted set, any sequence of operations under any changing
    (sane) thresholds runs without a panic, for any score wrapper that keeps the
    documented order and any hash iteration order, and every reply - newness,
    scores, ranks (how many entries sort before the member), popped extremes,
    ranges by rank, by score and by member - is, by score rank, that of a finite
    map listed in (score, member) order, whichever encoding was active. *)
Theorem zset_encoding_refines_sorted_maps `{OrderedFloat} `{HashOrder} h : history_sane h ->
  exists rs z, run h new = Some (rs, z) /\
    let '(srs, m) := spec_run h.*2 ∅ in
    by_rank <$> rs = srs /\ repr z m /\ len z = size m /\ payload_bytes z = zsize m /\
    rekey <$> to_pairs_sorted z = zlist m.
Proof.
  intros Hh. destruct (zset_run_refines h new ∅ Hh zset_repr_new) as (rs & z & E & Hk & Hr).
  exists rs, z. split; [done|]. destruct (spec_run h.*2 ∅) as [srs m].
  split_and!; [done|done|by apply zset_repr_len|by apply zset_repr_payload|by apply repr_sorted].
Qed.

(** Listing a map of distinct members in order. *)
Lemma lists_sorted `{OrderedFloat} (es : list entry) (m : gmap bytes f64) :
  es ≡ₚ swap <$> map_to_list m -> lists (merge_sort entry_le es) (okey <$> m).
Proof.
  intros Hp. apply zlist_unique.
  - assert (StronglySorted entry_le (merge_sort entry_le es)) as Hs.
    { apply StronglySorted_merge_sort.
      - intros a b c. unfold entry_le. rewrite !key_cmp_keyed. apply kle_trans.
      - intros a b. unfold entry_le. rewrite !key_cmp_keyed. apply kle_total. }
    induction Hs as [|e l Hs IH Hf]; [constructor|]. rewrite fmap_cons. constructor; [done|].
    apply Forall_fmap. eapply Forall_impl; [exact Hf|]. intros e' He. unfold entry_le in He.
    by rewrite key_cmp_keyed in He.
  - rewrite merge_sort_Permutation, Hp, map_to_list_fmap, <- !list_fmap_compose.
    erewrite (list_fmap_ext (keyed ∘ swap)); [done|]. by intros ? [? ?].
Qed.

Lemma zfits_small thr t t' ms : fits thr t ms = Some t' ->
  Forall (fun x : bytes => length x <= max_value thr) ms.
Proof.
  revert t. induction ms as [|x ms IH]; intros t; [constructor|].
  simpl. repeat case_bool_decide; try done. intros E. constructor; [lia|eauto].
Qed.

(** Building a sorted set from pairs (restores, ZUNIONSTORE and friends) keeps
    each member with its last score, in either encoding and for every hash
    iteration order: the result represents exactly the map of the successive
    insertions, listed in (score, member) order. *)
Theorem from_pairs_refines `{OrderedFloat} `{HashOrder} thr ps : thr_sane thr ->
  Forall (fun p : bytes * f64 => f64_wf p.2) ps ->
  repr (from_pairs thr ps) (okey <$> fold_left (fun m p => <[p.1 := p.2]> m) ps (∅ : gmap bytes f64)).
Proof.
  intros Ht Hw. unfold from_pairs. set (m := fold_left (fun m p => <[p.1 := p.2]> m) ps ∅).
  assert (map_Forall (fun _ s => f64_wf s) m) as Hm.
  { unfold m. assert (map_Forall (fun _ s => f64_wf s) (∅ : gmap bytes f64)) as Hm0 by apply map_Forall_empty.
    revert Hm0. generalize (∅ : gmap bytes f64). induction Hw as [|[x s] ps Hs Hw IH]; intros m0 Hm0; [done|].
    simpl. apply IH. by apply map_Forall_insert_2. }
  assert (Forall (fun p : bytes * f64 => f64_wf p.2) (hm_iter m)) as Hi.
  { rewrite hm_iter_perm. apply Forall_forall. intros [x s] Hx%elem_of_map_to_list. by apply (Hm x). }
  assert (NoDup (hm_iter m).*1) as Hn by (rewrite hm_iter_perm; apply NoDup_fst_map_to_list).
  assert (srepr (fold_left (fun sk p => (SkiplistZSet.insert sk p.1 p.2).2) (hm_iter m)
            SkiplistZSet.new) (okey <$> m)) as Hsk.
  { replace (okey <$> m) with (fold_left (fun m (p : bytes * f64) => <[p.1 := okey p.2]> m) (hm_iter m)
                                 (∅ : gmap bytes Z)); [apply srepr_fold; [apply (srepr_empty 0)|done]|].
    rewrite fold_okey, map_union_empty by done.
    rewrite (list_to_map_proper _ (map_to_list (okey <$> m))); [apply list_to_map_to_list|..].
    - by rewrite <- list_fmap_compose.
    - by rewrite hm_iter_perm, map_to_list_fmap. }
  case_bool_decide; [|done]. destruct (fits thr 0 (hm_iter m).*1) as [total|] eqn:Hf; [|done].
  exists (merge_sort entry_le (swap <$> hm_iter m)).
  split; [|apply lists_sorted; by rewrite hm_iter_perm].
  apply (zset_crepr_fold_append _ _ []); [apply zset_crepr_empty|]. rewrite merge_sort_Permutation.
  assert (Forall (fun x : bytes => length x <= max_value thr) (hm_iter m).*1) as Hv.
  { by eapply zfits_small. }
  apply Forall_fmap, Forall_forall. intros [x s] Hx. 
  split; [by apply (proj1 (Forall_forall _ _) Hi (x, s))|].
  eapply zset_small_sized; [done|]. apply (proj1 (Forall_forall _ _) Hv), list_elem_of_fmap. by exists (x, s).
Qed.

(** ** Running it *)

(** The patterns of 1.0, 2.0, -1.5, -0.0 and a quiet NaN. *)
Definition f_one : f64 := 4607182418800017408.
Definition f_two : f64 := 4611686018427387904.
Definition f_neg : f64 := 13832806255468478464.
Definition f_neg_zero : f64 := 9223372036854775808.
Definition f_nan : f64 := 9221120237041090560.

(** Promotes on the third member, reorders on a score update, demotes on a pop. *)
Definition sample_history : list (ZSetThresholds * zset_op) :=
  (fun op => (mkZSetThresholds 2 64 8 2, op)) <$>
    [OpInsert (bstr "a") f_two; OpInsert (bstr "b") f_one; OpRank (bstr "a") false;
     OpInsert (bstr "a") f_neg; OpInsert (bstr "c") f_one; OpRange 0 (-1) false;
     OpRank (bstr "c") true; OpPop true; OpRangeByScore f_neg true f_two false false 0 None].

Lemma zset_sample_history_sane : history_sane sample_history.
Proof. repeat constructor; simpl; unfold f_one, f_two, f_neg; lia. Qed.

Lemma zset_encoding_refines_sorted_maps_witness :
  history_sane sample_history /\
  exists rs z, @run ieee_order canonical_order sample_history new = Some (rs, z) /\
    by_rank <$> rs = (spec_run sample_history.*2 ∅).1 /\
    Some (encoding_name z, rs !! 2, rs !! 5, rs !! 8)
      = Some ("listpack"%string, Some (RRank (Some 1)),
              Some (REntries [(f_neg, bstr "a"); (f_one, bstr "b"); (f_one, bstr "c")]),
              Some (REntries [(f_one, bstr "b")])).
Proof.
  split; [exact zset_sample_history_sane|].
  destruct (@zset_encoding_refines_sorted_maps ieee_order canonical_order sample_history zset_sample_history_sane)
    as (rs & z & E & Hrest).
  exists rs, z. split; [exact E|]. destruct (spec_run sample_history.*2 ∅) as [srs m].
  split; [exact (proj1 Hrest)|].
  assert (('(rs, z) ← @run ieee_order canonical_order sample_history new;
           Some (encoding_name z, rs !! 2, rs !! 5, rs !! 8))
    = Some ("listpack"%string, Some (RRank (Some 1)),
            Some (REntries [(f_neg, bstr "a"); (f_one, bstr "b"); (f_one, bstr "c")]),
            Some (REntries [(f_one, bstr "b")]))) as C by (vm_compute; reflexivity).
  rewrite E, bind_some in C. exact C.
Defined.

Lemma from_pairs_refines_witness :
  let ps := [(bstr "a", f_two); (bstr "b", f_one); (bstr "a", f_neg)] in
  thr_sane default_thresholds /\ Forall (fun p : bytes * f64 => f64_wf p.2) ps /\
  repr (@from_pairs ieee_order canonical_order default_thresholds ps)
    (okey <$> fold_left (fun m p => <[p.1 := p.2]> m) ps (∅ : gmap bytes f64)).
Proof.
  set (ps := [(bstr "a", f_two); (bstr "b", f_one); (bstr "a", f_neg)]).
  assert (thr_sane default_thresholds) as Ht by done.
  assert (Forall (fun p : bytes * f64 => f64_wf p.2) ps) as Hw by (repeat constructor; discriminate).
  split; [exact Ht|]. split; [exact Hw|].
  exact (@from_pairs_refines ieee_order canonical_order default_thresholds ps Ht Hw).
Defined.

(** ** Corner cases the code does not treat as its callers do *)

(** A stop index before the first entry is clamped to it, so a range that Redis
    answers with nothing returns the lowest entry (which ZREMRANGEBYRANK then
    deletes). *)
Lemma range_before_start_returns_first : exists z,
  @insert ieee_order default_thresholds new (bstr "m") f_one = Some (true, z) /\
  range_by_rank z 0 (-100) false = Some [(bstr "m", f_one)].
Proof. eexists. split; [vm_compute; reflexivity|]. vm_compute. reflexivity. Qed.

(** A member whose score became NaN is in the set but has no rank. *)
Lemma nan_member_has_no_rank : exists z,
  @insert ieee_order default_thresholds new (bstr "m") f_nan = Some (true, z) /\
  score z (bstr "m") = Some f_nan /\ rank z (bstr "m") false = Some None.
Proof.
  eexists. split; [vm_compute; reflexivity|]. split; vm_compute; reflexivity.
Qed.

(** Replacing 0.0 by -0.0 keeps the stored zero in the compact encoding and
    replaces it in the skiplist. *)
Lemma signed_zero_depends_on_encoding :
  (exists z, @insert ieee_order default_thresholds new (bstr "m") 0 = Some (true, z) /\
     exists z', @insert ieee_order default_thresholds z (bstr "m") f_neg_zero = Some (false, z') /\
       score z' (bstr "m") = Some 0%Z) /\
  (let s := (@SkiplistZSet.insert ieee_order SkiplistZSet.new (bstr "m") 0).2 in
   SkiplistZSet.score (@SkiplistZSet.insert ieee_order s (bstr "m") f_neg_zero).2 (bstr "m")
     = Some f_neg_zero).
Proof.
  split; [|vm_compute; reflexivity]. eexists. split; [vm_compute; reflexivity|].
  eexists. split; vm_compute; reflexivity.
Qed.
