(* ===== verification/Types.v ===== *)
(** * Types: the values a key can hold ([types.rs])

    The integer cell with its lock-free increment, the sum of value types with
    their Redis names, stream, geo and HyperLogLog data; the
    estimate of the cardinality ([hll_count]) is in [HllCommands]. *)

From S2P Require Import Prelude Text Doubles.
From S2P Require ListData HashData SetData ZSetData.

(** ** The integer cell *)

(** [i64::checked_add]. *)
Definition checked_add_i64 (a b : Z) : option Z :=
  if bool_decide (in_i64 (a + b)) then Some (a + b)%Z else None.

Module AtomicIntCell.

Record t := mk { value : Z; version : Z }.

Definition new (value : Z) : t := {| value := value; version := 0 |}.

Definition load (c : t) : Z := value c.

Definition store (c : t) (v : Z) : t := {| value := v; version := version c |}.

(** [clone]: a fresh cell with the values of this one. *)
Definition clone (c : t) : t := {| value := value c; version := version c |}.

(** [checked_add] when no other thread interferes. *)
Definition checked_add (c : t) (delta : Z) : option Z * t :=
  match checked_add_i64 (value c) delta with
  | None => (None, c)
  | Some new_val => (Some new_val, {| value := new_val; version := wrap64 (version c + 1) |})
  end.

(** A thread inside [checked_add], between its atomic accesses. *)
Inductive thread :=
  | Start (delta : Z)
  | Loop (delta current : Z)
  | Bump (delta new_val : Z)
  | Done (delta : Z) (result : option Z).

(** One atomic access of a thread: the initial load, one pass of the
    compare-exchange loop (which may fail [spuriously], the exchange is weak), or
    the version bump.  An overflow is seen without an access and ends the call. *)
Definition step (th : thread) (spurious : bool) (c : t) : thread * t :=
  match th with
  | Start delta => (Loop delta (value c), c)
  | Loop delta current =>
      match checked_add_i64 current delta with
      | None => (Done delta None, c)
      | Some new_val =>
          if bool_decide (value c = current) && negb spurious
          then (Bump delta new_val, {| value := new_val; version := version c |})
          else (Loop delta (value c), c)
      end
  | Bump delta new_val =>
      (Done delta (Some new_val), {| value := value c; version := wrap64 (version c + 1) |})
  | Done _ _ => (th, c)
  end.

(** An interleaving: which thread moves next, and whether its exchange fails
    spuriously. *)
Fixpoint run (schedule : list (nat * bool)) (c : t) (ths : list thread) : t * list thread :=
  match schedule with
  | [] => (c, ths)
  | (i, spurious) :: schedule =>
      match ths !! i with
      | Some th => let '(th', c') := step th spurious c in run schedule c' (<[i := th']> ths)
      | None => run schedule c ths
      end
  end.

End AtomicIntCell.

(** ** Streams *)

Record StreamEntry := mkStreamEntry { id : bytes; fields : list (bytes * bytes) }.

Definition payload_bytes (e : StreamEntry) : nat :=
  length (id e) + sum_list_with (fun kv : bytes * bytes => length kv.1 + length kv.2) (fields e).

Record PendingEntry := mkPendingEntry {
  consumer : bytes;
  delivery_time_ms : Z;
  delivery_count : Z;
}.

Record Consumer := mkConsumer { consumer_name : bytes; pending_ids : list bytes }.

Record ConsumerGroup := mkConsumerGroup {
  group_name : bytes;
  last_delivered_id : bytes;
  pending : gmap bytes PendingEntry;
  consumers : gmap bytes Consumer;
}.

(** [ConsumerGroup::new]. *)
Definition ConsumerGroup_new (name last_id : bytes) : ConsumerGroup :=
  {| group_name := name; last_delivered_id := last_id; pending := ∅; consumers := ∅ |}.

Record StreamData := mkStreamData {
  entries : list StreamEntry;
  groups : gmap bytes ConsumerGroup;
  last_id : bytes;
  entries_added : Z;
}.

(** [StreamData::new]. *)
Definition StreamData_new : StreamData :=
  {| entries := []; groups := ∅; last_id := []; entries_added := 0 |}.

Definition last_generated_id (s : StreamData) : bytes :=
  if negb (bool_decide (last_id s = [])) then last_id s
  else match last (entries s) with
       | Some e => id e
       | None => bstr "0-0"
       end.

Definition estimated_size (s : StreamData) : nat := sum_list_with payload_bytes (entries s).

(** ** Geospatial index *)

Record GeoPoint := mkGeoPoint { longitude : f64; latitude : f64 }.
Record GeoData := mkGeoData { geo_members : gmap bytes GeoPoint }.

(** [GeoData::new]. *)
Definition GeoData_new : GeoData := {| geo_members := ∅ |}.

(** ** The value of a key *)

Section DataType.
Context `{SetData.IndexSet}.

Inductive DataType :=
  | TString (v : bytes)
  | TInt (cell : AtomicIntCell.t)
  | TList (v : ListData.ListData)
  | TSet (v : SetData.SetData)
  | TZSet (v : ZSetData.ZSetData)
  | THash (v : HashData.HashData)
  | TBitmap (v : bytes)
  | THyperLogLog (v : bytes)
  | TStream (v : StreamData)
  | TGeo (v : GeoData).

(** [Clone for DataType]: the integer cell is copied, never shared. *)
Definition clone (d : DataType) : DataType :=
  match d with
  | TInt cell => TInt (AtomicIntCell.clone cell)
  | _ => d
  end.

Definition as_string_bytes `{Itoa} (d : DataType) : option bytes :=
  match d with
  | TString v => Some v
  | TInt cell => Some (itoa_format (AtomicIntCell.load cell))
  | TBitmap v => Some v
  | _ => None
  end.

Definition type_name (d : DataType) : string :=
  match d with
  | TString _ | TInt _ | TBitmap _ | THyperLogLog _ => "string"
  | TList _ => "list"
  | TSet _ => "set"
  | TZSet _ => "zset"
  | THash _ => "hash"
  | TStream _ => "stream"
  | TGeo _ => "zset"
  end.

Definition encoding (d : DataType) : string :=
  match d with
  | TString v =>
      if bool_decide (is_Some (s ← from_utf8 v; parse_i64 s)) then "int"
      else if bool_decide (length v <= 44) then "embstr" else "raw"
  | TInt _ => "int"
  | TList l => ListData.encoding_name l
  | TSet s => SetData.encoding_name s
  | TZSet z => ZSetData.encoding_name z
  | THash h => HashData.encoding_name h
  | TBitmap _ | THyperLogLog _ => "raw"
  | TStream _ => "stream"
  | TGeo _ => "skiplist"
  end.

End DataType.

(** ** HyperLogLog *)

Definition HLL_PRECISION : Z := 14.
Definition HLL_REGISTERS : nat := N.to_nat 16384.
Definition HLL_BITS : Z := 6.
Definition HLL_REGISTER_MAX : Z := 2 ^ HLL_BITS - 1.

(** FNV-1a with a finalizer. *)
Definition fnv1a_64 (bs : bytes) : Z :=
  let h := fold_left (fun h b => wrap64 (Z.lxor h (byte_val b) * 0x100000001b3)) bs 0xcbf29ce484222325%Z in
  let h := Z.lxor h (Z.shiftr h 33) in
  let h := wrap64 (h * 0xff51afd7ed558ccd) in
  let h := Z.lxor h (Z.shiftr h 33) in
  let h := wrap64 (h * 0xc4ceb9fe1a85ec53) in
  Z.lxor h (Z.shiftr h 33).

(** [u64::leading_zeros]. *)
Definition leading_zeros (z : Z) : Z := if bool_decide (z = 0)%Z then 64 else 63 - Z.log2 z.

(** The register an element selects, and the rank it reaches there. *)
Definition hll_index (element : bytes) : nat :=
  Z.to_nat (Z.shiftr (fnv1a_64 element) (64 - HLL_PRECISION)).

Definition hll_rank (element : bytes) : Z :=
  let rest := Z.land (fnv1a_64 element) (2 ^ (64 - HLL_PRECISION) - 1) in
  let rank := if bool_decide (rest = 0)%Z then (64 - HLL_PRECISION + 1)%Z else (64 - leading_zeros rest)%Z in
  Z.min rank HLL_REGISTER_MAX.

Definition hll_add (registers : list Z) (element : bytes) : may_panic (bool * list Z) :=
  let idx := hll_index element in
  let rank := hll_rank element in
  r ← registers !! idx;
  if bool_decide (r < rank)%Z then Some (true, <[idx := rank]> registers)
  else Some (false, registers).

Definition hll_merge_into (dest other : list Z) : list Z :=
  zip_with (fun d o => if bool_decide (d < o)%Z then o else d) dest other.

(** PFADD of several elements to an array of registers. *)
Fixpoint hll_add_all (registers : list Z) (elements : list bytes) : may_panic (list Z) :=
  match elements with
  | [] => Some registers
  | e :: es => '(_, registers) ← hll_add registers e; hll_add_all registers es
  end.

Definition hll_empty : list Z := replicate HLL_REGISTERS 0%Z.

(** ** Concurrent increments are linearizable *)

Lemma sum_list_with_insert {A} (f : A -> nat) (l : list A) i x y : l !! i = Some x ->
  sum_list_with f (<[i := y]> l) + f x = sum_list_with f l + f y.
Proof.
  revert i. induction l as [|z l IH]; intros [|i] Hl; simplify_eq/=; [lia|].
  specialize (IH _ Hl). lia.
Qed.

Section Linearizability.
Import AtomicIntCell.
Context (v0 ver0 : Z) (ds : list Z).

(** The counter after the increments of some threads, in order. *)
Fixpoint after (order : list nat) : Z :=
  match order with
  | [] => v0
  | i :: order => (after order + default 0 (ds !! i))%Z
  end.

Definition total_after (order : list nat) : Z := after (reverse order).

Definition delta_of_thread (th : thread) : Z :=
  match th with Start d | Loop d _ | Bump d _ | Done d _ => d end.

(** Threads that have returned a value. *)
Definition answered (th : thread) : nat :=
  match th with Done _ (Some _) => 1 | _ => 0 end.

(** What a thread's state says about its place in the order. *)
Definition thread_ok (order : list nat) (i : nat) (th : thread) : Prop :=
  ds !! i = Some (delta_of_thread th) /\
  match th with
  | Start _ => i ∉ order
  | Loop _ cur => i ∉ order /\ exists k, k <= length order /\ cur = total_after (take k order)
  | Bump _ r | Done _ (Some r) =>
      exists k, order !! k = Some i /\ r = total_after (take (S k) order)
  | Done d None =>
      i ∉ order /\ exists k, k <= length order /\ ~ in_i64 (total_after (take k order) + d)
  end.

Record linear (order : list nat) (c : t) (ths : list thread) : Prop := mk_linear {
  lin_nodup : NoDup order;
  lin_value : value c = total_after order;
  lin_range : in_i64 (value c);
  lin_known : forall i, i ∈ order -> i < length ths;
  lin_threads : forall i th, ths !! i = Some th -> thread_ok order i th;
  lin_version : version c = wrap64 (ver0 + Z.of_nat (sum_list_with answered ths));
}.

Lemma total_after_snoc order i : total_after (order ++ [i]) = (total_after order + default 0 (ds !! i))%Z.
Proof. unfold total_after. by rewrite reverse_snoc. Qed.

Lemma thread_ok_snoc order j i th : i <> j -> thread_ok order i th -> thread_ok (order ++ [j]) i th.
Proof.
  intros Hne [Hd Hth]. split; [done|].
  assert (K : forall k, k <= length order -> take k (order ++ [j]) = take k order).
  { intros. by rewrite take_app_le. }
  destruct th as [|d cur|d r|d [r|]].
  - set_solver.
  - destruct Hth as (Hi & k & Hk & ->). split; [set_solver|].
    exists k. rewrite K, length_app by done. simpl. split; [lia|done].
  - destruct Hth as (k & Hk & ->). pose proof (lookup_lt_Some _ _ _ Hk).
    exists k. rewrite lookup_app_l, K by lia. done.
  - destruct Hth as (k & Hk & ->). pose proof (lookup_lt_Some _ _ _ Hk).
    exists k. rewrite lookup_app_l, K by lia. done.
  - destruct Hth as (Hi & k & Hk & Hr). split; [set_solver|].
    exists k. rewrite K, length_app by done. simpl. split; [lia|done].
Qed.

(** Replacing one thread by another in the same place. *)
Lemma linear_replace order c c' ths i th th' :
  linear order c ths -> ths !! i = Some th -> thread_ok order i th' ->
  value c' = value c -> answered th = 0 ->
  version c' = wrap64 (version c + Z.of_nat (answered th')) ->
  linear order c' (<[i := th']> ths).
Proof.
  intros [N V R K T Ver] Hi Hok Hv H0 Hver.
  split; [done|congruence|congruence|by rewrite length_insert| |].
  - intros j thj. destruct (decide (i = j)) as [<-|Hne].
    + rewrite list_lookup_insert_eq by eauto using lookup_lt_Some. by intros [= <-].
    + rewrite list_lookup_insert_ne by done. auto.
  - pose proof (sum_list_with_insert answered ths i th th' Hi) as E.
    rewrite Hver, Ver. unfold wrap64. rewrite Zplus_mod_idemp_l. f_equal. lia.
Qed.

Lemma linear_step order c ths i sp th : linear order c ths -> ths !! i = Some th ->
  exists order', linear order' (step th sp c).2 (<[i := (step th sp c).1]> ths).
Proof.
  intros L Hi. pose proof (lin_threads _ _ _ L i th Hi) as [Hd Hth].
  assert (W : wrap64 (version c + Z.of_nat 0) = version c).
  { rewrite Z.add_0_r, (lin_version _ _ _ L). unfold wrap64. apply Zmod_mod. }
  assert (Hcur : exists k, k <= length order /\ value c = total_after (take k order)).
  { exists (length order). rewrite firstn_all. split; [done|apply L]. }
  destruct th as [d|d cur|d r|d r]; simpl.
  - exists order. by eapply linear_replace.
  - destruct Hth as (Hni & k & Hk & Ecur).
    destruct (checked_add_i64 cur d) as [new_val|] eqn:E; unfold checked_add_i64 in E; case_bool_decide as Hin; simplify_eq.
    + destruct (bool_decide (value c = total_after (take k order)) && negb sp) eqn:Es.
      * apply andb_true_iff in Es as [Es _]. apply bool_decide_eq_true in Es.
        exists (order ++ [i]). simpl.
        assert (Ev : (total_after (take k order) + d)%Z = total_after (order ++ [i])).
        { rewrite total_after_snoc, <- (lin_value _ _ _ L), Es. simpl in Hd. by rewrite Hd. }
        split; simpl.
        -- apply NoDup_app. split_and!; [apply L|set_solver|apply NoDup_singleton].
        -- done.
        -- done.
        -- intros j. rewrite length_insert, elem_of_app, list_elem_of_singleton. intros [Hj| ->].
           ++ by apply (lin_known _ _ _ L).
           ++ eauto using lookup_lt_Some.
        -- intros j thj. destruct (decide (i = j)) as [<-|Hne].
           ++ rewrite list_lookup_insert_eq by eauto using lookup_lt_Some. intros [= <-].
              split; [done|]. exists (length order).
              rewrite lookup_app_r, Nat.sub_diag by done. split; [done|].
              rewrite (take_ge (order ++ [i])); [done|]. rewrite length_app. simpl. lia.
           ++ rewrite list_lookup_insert_ne by done. intros Hj.
              apply thread_ok_snoc; [done|]. by apply (lin_threads _ _ _ L).
        -- pose proof (sum_list_with_insert answered ths i _ (Bump d (total_after (take k order) + d)) Hi) as E'.
           simpl in E'. rewrite (lin_version _ _ _ L). f_equal. lia.
      * exists order. by eapply linear_replace.
    + exists order. eapply linear_replace; [done..| |done|done|done]. split; [done|]. split; [done|]. by exists k.
  - exists order. by eapply linear_replace.
  - exists order. simpl. by rewrite list_insert_id.
Qed.

Lemma linear_run sched order c ths : linear order c ths ->
  exists order', linear order' (run sched c ths).1 (run sched c ths).2.
Proof.
  revert order c ths. induction sched as [|[i sp] sched IH]; intros order c ths L; simpl; [eauto|].
  destruct (ths !! i) as [th|] eqn:Hi; [|eauto].
  destruct (linear_step _ _ _ i sp th L Hi) as [order' L'].
  destruct (step th sp c) as [th' c']. eauto.
Qed.
End Linearizability.

Lemma linear_init v0 ver0 ds : in_i64 v0 -> (0 <= ver0 < 2 ^ 64)%Z ->
  linear v0 ver0 ds [] {| AtomicIntCell.value := v0; AtomicIntCell.version := ver0 |}
    (AtomicIntCell.Start <$> ds).
Proof.
  intros Hv Hver. split; simpl; [constructor|done|done|set_solver| |].
  - intros i th. rewrite list_lookup_fmap. destruct (ds !! i) eqn:E; [|done].
    intros [= <-]. split; [done|]. set_solver.
  - replace (sum_list_with answered (AtomicIntCell.Start <$> ds)) with 0;
      [|clear; by induction ds]. by rewrite Z.add_0_r, wrap64_small.
Qed.

(** Accesses a thread still needs when it has the cell to itself. *)
Definition accesses_left (th : AtomicIntCell.thread) (c : AtomicIntCell.t) : nat :=
  match th with
  | AtomicIntCell.Start _ => 3
  | AtomicIntCell.Loop _ cur => if bool_decide (AtomicIntCell.value c = cur) then 2 else 3
  | AtomicIntCell.Bump _ _ => 1
  | AtomicIntCell.Done _ _ => 0
  end.

Lemma accesses_left_step th c :
  accesses_left (AtomicIntCell.step th false c).1 (AtomicIntCell.step th false c).2
    <= pred (accesses_left th c) /\
  delta_of_thread (AtomicIntCell.step th false c).1 = delta_of_thread th.
Proof.
  destruct th as [d|d cur|d r|d r]; simpl; [by rewrite bool_decide_eq_true_2| |split; [lia|done]..].
  destruct (checked_add_i64 cur d); simpl; [|split; [lia|done]].
  case_bool_decide; simpl; [split; [lia|done]|]. by rewrite bool_decide_eq_true_2.
Qed.

Lemma alone_returns n c ths i th : ths !! i = Some th -> accesses_left th c <= n ->
  exists r, (AtomicIntCell.run (replicate n (i, false)) c ths).2 !! i
    = Some (AtomicIntCell.Done (delta_of_thread th) r).
Proof.
  revert c ths th. induction n as [|n IH]; intros c ths th Hi Hn.
  - destruct th as [|? cur| |d r]; simpl in Hn; try lia; [case_bool_decide; lia|]. exists r. done.
  - simpl. rewrite Hi. destruct (accesses_left_step th c) as [Hl <-].
    destruct (AtomicIntCell.step th false c) as [th' c']. simpl in *.
    apply IH; [|lia]. apply list_lookup_insert_eq. eauto using lookup_lt_Some.
Qed.

Lemma accesses_left_bound th c : accesses_left th c <= 3.
Proof. destruct th; simpl; try case_bool_decide; lia. Qed.

Lemma run_app s1 s2 c ths :
  AtomicIntCell.run (s1 ++ s2) c ths
    = AtomicIntCell.run s2 (AtomicIntCell.run s1 c ths).1 (AtomicIntCell.run s1 c ths).2.
Proof.
  revert c ths. induction s1 as [|[i sp] s1 IH]; intros; simpl; [done|].
  destruct (ths !! i); [|done]. by destruct (AtomicIntCell.step _ _ _).
Qed.

(** C31: INCR without the write lock is linearizable: for any number of threads
    adding to one cell and any interleaving of their atomic accesses, spurious
    failures of the weak exchange included, there is an order of the threads
    whose addition took effect - each once, and each of them has an answer - such that the cell holds the start
    value plus their deltas and stays an [i64], each answer is the counter right
    after its own addition, an overflow is reported only by a thread whose
    addition would have overflowed the counter at some moment of that order, and
    the version counts exactly the answered additions.  A thread that gets three
    accesses in a row returns. *)
Theorem concurrent_increments_linearizable v0 ver0 ds sched :
  in_i64 v0 -> (0 <= ver0 < 2 ^ 64)%Z ->
  let cell := {| AtomicIntCell.value := v0; AtomicIntCell.version := ver0 |} in
  let '(c, ths) := AtomicIntCell.run sched cell (AtomicIntCell.Start <$> ds) in
  (exists order, NoDup order /\
    AtomicIntCell.value c = total_after v0 ds order /\ in_i64 (AtomicIntCell.value c) /\
    (forall i, i ∈ order -> exists d r,
       ths !! i = Some (AtomicIntCell.Bump d r) \/ ths !! i = Some (AtomicIntCell.Done d (Some r))) /\
    (forall i d r, ths !! i = Some (AtomicIntCell.Done d (Some r)) ->
       exists k, order !! k = Some i /\ r = total_after v0 ds (take (S k) order)) /\
    (forall i d, ths !! i = Some (AtomicIntCell.Done d None) ->
       i ∉ order /\ exists k, k <= length order /\ ~ in_i64 (total_after v0 ds (take k order) + d)) /\
    AtomicIntCell.version c = wrap64 (ver0 + Z.of_nat (sum_list_with answered ths))) /\
  (forall i th, ths !! i = Some th ->
     exists d r, (AtomicIntCell.run (sched ++ replicate 3 (i, false)) cell
                    (AtomicIntCell.Start <$> ds)).2 !! i = Some (AtomicIntCell.Done d r)).
Proof.
  intros Hv Hver cell. pose proof (linear_init v0 ver0 ds Hv Hver) as L.
  destruct (linear_run v0 ver0 ds sched [] _ _ L) as [order L'].
  destruct (AtomicIntCell.run sched cell (AtomicIntCell.Start <$> ds)) as [c ths] eqn:E.
  fold cell in L'. rewrite E in L'. simpl in L'. split.
  - exists order. destruct L' as [N V R K T Ver]. split_and!; [done..| | | |done].
    + intros i Hi. destruct (lookup_lt_is_Some_2 ths i (K i Hi)) as [th Hth].
      destruct (T _ _ Hth) as [_ O]. destruct th as [|d cur|d r|d [r|]]; naive_solver.
    + intros i d r Hi. apply (T _ _ Hi).
    + intros i d Hi. apply (T _ _ Hi).
  - intros i th Hi. rewrite run_app, E.
    destruct (alone_returns 3 c ths i th Hi (accesses_left_bound th c)) as [r Hr]. eauto.
Qed.

(** Two threads race on a cell at 10; the second loses an exchange and retries. *)
Lemma concurrent_increments_linearizable_witness :
  exists c ths, AtomicIntCell.run [(0, false); (1, false); (0, false); (1, false); (1, false); (1, false); (0, false)]
      {| AtomicIntCell.value := 10; AtomicIntCell.version := 7 |}
      (AtomicIntCell.Start <$> [5%Z; (-3)%Z]) = (c, ths) /\
    AtomicIntCell.value c = 12%Z /\ AtomicIntCell.version c = 9%Z /\
    exists order, NoDup order /\ AtomicIntCell.value c = total_after 10 [5%Z; (-3)%Z] order.
Proof.
  eexists _, _. split; [vm_compute; reflexivity|]. split; [done|]. split; [done|].
  pose proof (concurrent_increments_linearizable 10 7 [5%Z; (-3)%Z]
    [(0, false); (1, false); (0, false); (1, false); (1, false); (1, false); (0, false)]
    ltac:(vm_compute; split; discriminate) ltac:(lia)) as W.
  cbn in W. destruct W as [(order & N & V & _) _]. exists order. split; [exact N|exact V].
Defined.

(** ** HyperLogLog sketches *)

Lemma lxor_shiftr_range w : (0 <= w < 2 ^ 64)%Z -> (0 <= Z.lxor w (Z.shiftr w 33) < 2 ^ 64)%Z.
Proof.
  intros Hw. assert (Hs : (0 <= Z.shiftr w 33)%Z) by (apply Z.shiftr_nonneg; lia).
  assert (Hx : (0 <= Z.lxor w (Z.shiftr w 33))%Z) by (apply Z.lxor_nonneg; lia).
  split; [done|].
  destruct (decide (Z.lxor w (Z.shiftr w 33) = 0)%Z) as [->|Hnz]; [done|].
  apply Z.log2_lt_pow2; [lia|].
  eapply Z.le_lt_trans; [apply Z.log2_lxor; lia|].
  assert (Hl : (Z.shiftr w 33 <= w)%Z).
  { rewrite Z.shiftr_div_pow2 by lia. apply Z.div_le_upper_bound; lia. }
  apply Z.log2_le_mono in Hl.
  destruct (decide (w = 0)%Z) as [->|]; [done|].
  pose proof (proj1 (Z.log2_lt_pow2 w 64 ltac:(lia)) ltac:(lia)). lia.
Qed.

Lemma fnv1a_64_range bs : (0 <= fnv1a_64 bs < 2 ^ 64)%Z.
Proof. unfold fnv1a_64. apply lxor_shiftr_range, wrap64_range. Qed.

Lemma hll_index_range e : hll_index e < HLL_REGISTERS.
Proof.
  unfold hll_index, HLL_REGISTERS, HLL_PRECISION. pose proof (fnv1a_64_range e).
  rewrite Z.shiftr_div_pow2 by lia.
  pose proof (Z.div_lt_upper_bound (fnv1a_64 e) (2 ^ (64 - 14)) (2 ^ 14) ltac:(lia) ltac:(lia)).
  pose proof (Z.div_pos (fnv1a_64 e) (2 ^ (64 - 14)) ltac:(lia) ltac:(lia)). lia.
Qed.

(** A rank fits the six bits of a register and is never zero. *)
Lemma hll_rank_range e : (1 <= hll_rank e <= 51)%Z.
Proof.
  unfold hll_rank, HLL_REGISTER_MAX, HLL_BITS, HLL_PRECISION, leading_zeros.
  replace (2 ^ (64 - 14) - 1)%Z with (Z.ones 50) by done. rewrite Z.land_ones by lia.
  pose proof (Z.mod_pos_bound (fnv1a_64 e) (2 ^ 50) ltac:(lia)).
  case_bool_decide; [lia|]. pose proof (Z.log2_nonneg (fnv1a_64 e mod 2 ^ 50)).
  pose proof (proj1 (Z.log2_lt_pow2 (fnv1a_64 e mod 2 ^ 50) 50 ltac:(lia)) ltac:(lia)). lia.
Qed.

#[local] Opaque hll_index hll_rank HLL_REGISTERS.

(** The greatest rank some elements reach in a register. *)
Definition register_of (es : list bytes) (i : nat) : Z :=
  foldr (fun e m => if decide (hll_index e = i) then Z.max (hll_rank e) m else m) 0%Z es.

Lemma register_of_nonneg es i : (0 <= register_of es i)%Z.
Proof. induction es; simpl; [lia|]. case_decide; lia. Qed.

Lemma register_of_app es es' i : register_of (es ++ es') i = Z.max (register_of es i) (register_of es' i).
Proof.
  induction es as [|e es IH]; simpl; [pose proof (register_of_nonneg es' i); lia|].
  rewrite IH. case_decide; lia.
Qed.

Lemma register_of_elem es e : e ∈ es -> (hll_rank e <= register_of es (hll_index e))%Z.
Proof.
  induction 1 as [e es|e e' es _ IH]; simpl; [rewrite decide_True by done; lia|].
  case_decide; lia.
Qed.

Lemma register_of_sub es es' i : (forall e, e ∈ es -> e ∈ es') -> (register_of es i <= register_of es' i)%Z.
Proof.
  intros Hs. induction es as [|e es IH]; simpl; [apply register_of_nonneg|].
  pose proof (IH ltac:(set_solver)). case_decide as Hi; [|lia].
  pose proof (register_of_elem es' e ltac:(set_solver)). subst i. lia.
Qed.

Definition sketch (es : list bytes) : list Z := register_of es <$> seq 0 HLL_REGISTERS.

Lemma sketch_lookup es i : i < HLL_REGISTERS -> sketch es !! i = Some (register_of es i).
Proof. intros. unfold sketch. by rewrite list_lookup_fmap, lookup_seq_lt. Qed.

Lemma sketch_ext es es' : (forall i, register_of es i = register_of es' i) -> sketch es = sketch es'.
Proof. intros E. apply list_fmap_ext. auto. Qed.

Lemma hll_empty_sketch : hll_empty = sketch [].
Proof.
  unfold hll_empty, sketch. generalize 0. induction HLL_REGISTERS as [|n IH]; intros k; [done|].
  simpl. f_equal. apply IH.
Qed.

Lemma hll_add_sketch es e :
  hll_add (sketch es) e
    = Some (bool_decide (register_of es (hll_index e) < hll_rank e)%Z, sketch (es ++ [e])).
Proof.
  unfold hll_add. pose proof (hll_index_range e) as Hi. rewrite sketch_lookup by done. simpl.
  assert (Hsame : sketch (es ++ [e]) = <[hll_index e := register_of (es ++ [e]) (hll_index e)]> (sketch es)).
  { apply list_eq. intros j. destruct (decide (j < HLL_REGISTERS)) as [Hj|Hj].
    - rewrite sketch_lookup by done. destruct (decide (hll_index e = j)) as [<-|Hne].
      + rewrite list_lookup_insert_eq; [done|]. unfold sketch. by rewrite length_fmap, length_seq.
      + rewrite list_lookup_insert_ne, sketch_lookup by done. f_equal.
        rewrite register_of_app. simpl. rewrite decide_False by done.
        pose proof (register_of_nonneg es j). lia.
    - rewrite !lookup_ge_None_2; [done| |]; rewrite ?length_insert; unfold sketch;
        rewrite length_fmap, length_seq; lia. }
  rewrite Hsame, register_of_app. simpl. rewrite decide_True by done.
  pose proof (register_of_nonneg es (hll_index e)). pose proof (hll_rank_range e).
  case_bool_decide.
  - rewrite (Z.max_r (register_of _ _)), Z.max_l by lia. reflexivity.
  - rewrite (Z.max_l (register_of _ _)) by lia. rewrite list_insert_id; [reflexivity|].
    by rewrite sketch_lookup.
Qed.

Lemma hll_add_all_sketch es es' : hll_add_all (sketch es) es' = Some (sketch (es ++ es')).
Proof.
  revert es. induction es' as [|e es' IH]; intros es; simpl; [by rewrite app_nil_r|].
  rewrite hll_add_sketch. mstep. by rewrite IH, <- app_assoc.
Qed.

Lemma hll_merge_sketch es es' : hll_merge_into (sketch es) (sketch es') = sketch (es ++ es').
Proof.
  unfold hll_merge_into, sketch. induction (seq 0 HLL_REGISTERS) as [|i l IH]; [done|].
  rewrite !fmap_cons. simpl. f_equal; [|done]. rewrite register_of_app. case_bool_decide; lia.
Qed.

(** A HyperLogLog sketch is a function of the set of elements added: PFADD in any
    order and with any repetitions gives the same registers, PFMERGE gives the
    registers of the union, adding a member again never reports a change, and no
    register leaves the range of its six bits. *)
Theorem hll_sketch_of_set es es' extra :
  (forall e, e ∈ es <-> e ∈ es') ->
  exists regs, hll_add_all hll_empty es = Some regs /\
    hll_add_all hll_empty es' = Some regs /\
    Forall (fun r => 0 <= r <= HLL_REGISTER_MAX)%Z regs /\
    (forall e, e ∈ es -> hll_add regs e = Some (false, regs)) /\
    exists other, hll_add_all hll_empty extra = Some other /\
      hll_add_all hll_empty (es ++ extra) = Some (hll_merge_into regs other).
Proof.
  intros Hset. rewrite hll_empty_sketch. exists (sketch es).
  rewrite !hll_add_all_sketch. simpl.
  assert (Hreg : forall a b i, (forall e : bytes, e ∈ a <-> e ∈ b) -> register_of a i = register_of b i).
  { intros a b i Hab. apply Z.le_antisymm; apply register_of_sub; naive_solver. }
  split_and!; [done| | | |].
  - f_equal. apply sketch_ext. intros i. apply Hreg. naive_solver.
  - unfold sketch. apply Forall_fmap, Forall_true. intros i. simpl. split; [apply register_of_nonneg|].
    clear. induction es as [|e es IH]; simpl; [done|]. pose proof (hll_rank_range e).
    unfold HLL_REGISTER_MAX, HLL_BITS in *. case_decide; lia.
  - intros e He. rewrite hll_add_sketch. pose proof (register_of_elem _ _ He).
    rewrite bool_decide_eq_false_2 by lia. do 2 f_equal. apply sketch_ext. intros i. apply Hreg. set_solver.
  - exists (sketch extra). split; [done|]. by rewrite hll_merge_sketch.
Qed.

Lemma hll_sketch_of_set_witness :
  exists regs, hll_add_all hll_empty [bstr "a"; bstr "b"; bstr "a"] = Some regs /\
    hll_add_all hll_empty [bstr "b"; bstr "a"] = Some regs.
Proof.
  destruct (hll_sketch_of_set [bstr "a"; bstr "b"; bstr "a"] [bstr "b"; bstr "a"] [])
    as (regs & E1 & E2 & _); [set_solver|]. exists regs. split; [exact E1|exact E2].
Defined.
