(* ===== verification/Keyspace.v ===== *)
(** * Keyspace: one shard of a database ([expiry.rs], [error.rs], [store.rs] up to [Database])

    A shard keeps four things in step: the entries, a write version per key (what
    WATCH compares), an index of the deadlines in expiry order, and a running
    count of the bytes the entries hold.  Every operation takes the wall clock it
    reads as an argument; a method that hands out a mutable reference to an entry
    returns the entry, and [write_back] is the assignment through it. *)

From S2P Require Import Prelude Text Doubles Glob Types.
From S2P Require ListData HashData SetData ZSetData.

(** The errors of the command layer. *)
Inductive NexradeError :=
  | WrongType | NoKey | NotInteger | NotFloat | Overflow | SyntaxError
  | UnknownCommand (name args : bytes) | WrongArity (name : bytes)
  | IndexOutOfRange | BitError | Generic (msg : bytes) | Prefixed (msg : bytes)
  | ExecAbort | ExecWithoutMulti | NestedMulti | DiscardWithoutMulti | Loading
  | ReadOnly | ProtocolError (msg : bytes) | Io (msg : bytes).

(** ** Deadlines *)

Module Expiry.

Record t := mk { expires_at_ms : Z }.

Definition from_duration (now ttl_ms : Z) : t := {| expires_at_ms := now + ttl_ms |}.
Definition from_ms (ms : Z) : t := {| expires_at_ms := ms |}.
Definition from_secs (secs : Z) : t := {| expires_at_ms := secs * 1000 |}.

Definition is_expired (now : Z) (e : t) : bool := bool_decide (expires_at_ms e <= now)%Z.

(** The difference is cast to [u64]. *)
Definition remaining_ms (now : Z) (e : t) : Z :=
  if bool_decide (expires_at_ms e <= now)%Z then 0%Z else wrap64 (expires_at_ms e - now).

(** [div_ceil(1000)]. *)
Definition remaining_secs (now : Z) (e : t) : Z := ((remaining_ms now e + 999) / 1000)%Z.

End Expiry.

(** ** Entries *)

Module Entry.
Section Entry.
Context `{SetData.IndexSet}.

Record t := mk { value : DataType; expiry : option Expiry.t; lru_clock : Z }.

Definition new (value : DataType) : t := {| value := value; expiry := None; lru_clock := 0 |}.

Definition with_expiry (value : DataType) (expiry : Expiry.t) : t :=
  {| value := value; expiry := Some expiry; lru_clock := 0 |}.

Definition is_expired (now : Z) (e : t) : bool :=
  match expiry e with
  | Some x => Expiry.is_expired now x
  | None => false
  end.

(** Assignments to one field. *)
Definition set_value (v : DataType) (e : t) : t := {| value := v; expiry := expiry e; lru_clock := lru_clock e |}.
Definition set_expiry (x : option Expiry.t) (e : t) : t := {| value := value e; expiry := x; lru_clock := lru_clock e |}.
Definition set_lru (now : Z) (e : t) : t := {| value := value e; expiry := expiry e; lru_clock := now |}.

End Entry.
End Entry.

(** Eviction policies ([db.rs]). *)
Inductive MaxMemoryPolicy :=
  | NoEviction | AllKeysRandom | AllKeysLru | VolatileRandom | VolatileLru | VolatileTtl.

#[export] Instance MaxMemoryPolicy_eq_dec : EqDecision MaxMemoryPolicy.
Proof. solve_decision. Defined.

Definition VERSION_PRUNE_INTERVAL : Z := 1024.
Definition VERSION_PRUNE_RATIO : Z := 2.
Definition VERSION_PRUNE_MIN : Z := 4096.

(** ** Ordered sets of deadlines: [BTreeSet<(u128, Vec<u8>)>] *)

Definition deadline_le (a b : Z * bytes) : Prop :=
  (a.1 < b.1)%Z \/ a.1 = b.1 /\ bytes_cmp a.2 b.2 <> Gt.

#[export] Instance deadline_le_dec a b : Decision (deadline_le a b).
Proof. unfold deadline_le. apply _. Defined.

(** Iteration is in ascending order. *)
Definition btree_iter (s : gset (Z * bytes)) : list (Z * bytes) := merge_sort deadline_le (elements s).

(** [Iterator::take_while]. *)
Fixpoint take_while {A} (p : A -> bool) (l : list A) : list A :=
  match l with
  | x :: l => if p x then x :: take_while p l else []
  | [] => []
  end.

(** ** LRU sampling *)

(** [sample_lru_victim] over the entries an iterator yields: the reservoir, then
    the first of the candidates with the smallest score.  [sample[slot]] is in
    range because the branch is taken only when the sample is full. *)
Section Sample.
Context {V : Type} (score : bytes * V -> Z) (keep : bytes * V -> bool) (sample_size : nat).

Fixpoint sample_loop (idx : Z) (sample : list (bytes * V * Z)) (kvs : list (bytes * V)) :
    list (bytes * V * Z) :=
  match kvs with
  | [] => sample
  | kv :: kvs =>
      let idx := (idx + 1)%Z in
      if negb (keep kv) then sample_loop idx sample kvs
      else
        let s := score kv in
        if bool_decide (length sample < sample_size) then sample_loop idx (sample ++ [(kv, s)]) kvs
        else
          let slot := (wrap64 (idx * 2654435761) mod (idx + 1))%Z in
          if bool_decide (slot < Z.of_nat sample_size)%Z
          then sample_loop idx (<[Z.to_nat slot := (kv, s)]> sample) kvs
          else sample_loop idx sample kvs
  end.

(** [Iterator::min_by_key]: the first of the least elements. *)
Fixpoint min_by_score (best : option (bytes * V * Z)) (l : list (bytes * V * Z)) : option (bytes * V * Z) :=
  match l with
  | [] => best
  | x :: l =>
      match best with
      | Some b => min_by_score (if bool_decide (x.2 < b.2)%Z then Some x else best) l
      | None => min_by_score (Some x) l
      end
  end.

Definition sample_lru_victim (kvs : list (bytes * V)) : option (bytes * V) :=
  fst <$> min_by_score None (sample_loop 0 [] kvs).
End Sample.

(** ** One shard *)

Module Database.
Section Database.
Context `{SetData.IndexSet}.

Record t := mk {
  entries : gmap bytes Entry.t;
  key_versions : gmap bytes Z;
  removals_since_prune : Z;
  expiry_index : gset (Z * bytes);
  live_bytes : Z;
  lru_clock : Z;
}.

Definition new : t :=
  {| entries := ∅; key_versions := ∅; removals_since_prune := 0;
     expiry_index := ∅; live_bytes := 0; lru_clock := 0 |}.

(** Assignments to one field. *)
Definition set_entries (m : gmap bytes Entry.t) (d : t) : t :=
  mk m (key_versions d) (removals_since_prune d) (expiry_index d) (live_bytes d) (lru_clock d).
Definition set_versions (m : gmap bytes Z) (d : t) : t :=
  mk (entries d) m (removals_since_prune d) (expiry_index d) (live_bytes d) (lru_clock d).
Definition set_removals (n : Z) (d : t) : t :=
  mk (entries d) (key_versions d) n (expiry_index d) (live_bytes d) (lru_clock d).
Definition set_index (s : gset (Z * bytes)) (d : t) : t :=
  mk (entries d) (key_versions d) (removals_since_prune d) s (live_bytes d) (lru_clock d).
Definition set_live (n : Z) (d : t) : t :=
  mk (entries d) (key_versions d) (removals_since_prune d) (expiry_index d) n (lru_clock d).
Definition set_lru_clock (n : Z) (d : t) : t :=
  mk (entries d) (key_versions d) (removals_since_prune d) (expiry_index d) (live_bytes d) n.

Definition lru_now (d : t) : Z := lru_clock d.

(** The value part of [estimate_entry_size]; [set_plain] and
    [estimated_memory_bytes] repeat the same match. *)
Definition value_size (v : DataType) : nat :=
  match v with
  | TString v => length v
  | TInt _ => 8
  | TList l => ListData.payload_bytes l
  | TSet s => SetData.payload_bytes s
  | THash h => HashData.payload_bytes h
  | TBitmap v => length v
  | THyperLogLog v => length v
  | TZSet z => ZSetData.payload_bytes z
  | TStream s => estimated_size s
  | TGeo g => size (geo_members g) * 24
  end.

Definition estimate_entry_size (key : bytes) (e : Entry.t) : nat :=
  64 + length key + value_size (Entry.value e).

(** [fetch_add] on the counter, which wraps. *)
Definition add_live_bytes (amount : Z) (d : t) : t := set_live (wrap64 (live_bytes d + amount)) d.

Definition sub_live_bytes_atomic (amount : Z) (d : t) : t :=
  if bool_decide (amount = 0)%Z then d else set_live (saturating_sub (live_bytes d) amount) d.

Definition adjust_live_bytes (delta : Z) (d : t) : t :=
  if bool_decide (0 < delta)%Z then add_live_bytes delta d
  else if bool_decide (delta < 0)%Z then sub_live_bytes_atomic (- delta) d
  else d.

(** The counter moves from one size of an entry to another. *)
Definition resize_live_bytes (old_sz new_sz : nat) (d : t) : t :=
  if bool_decide (new_sz = old_sz) then d
  else if bool_decide (old_sz < new_sz) then add_live_bytes (Z.of_nat (new_sz - old_sz)) d
  else sub_live_bytes_atomic (Z.of_nat (old_sz - new_sz)) d.

(** Adding and dropping the deadline of an entry in the index. *)
Definition index_expiry (key : bytes) (x : option Expiry.t) (d : t) : t :=
  match x with
  | Some e => set_index ({[ (Expiry.expires_at_ms e, key) ]} ∪ expiry_index d) d
  | None => d
  end.

Definition unindex_expiry (key : bytes) (x : option Expiry.t) (d : t) : t :=
  match x with
  | Some e => set_index (expiry_index d ∖ {[ (Expiry.expires_at_ms e, key) ]}) d
  | None => d
  end.

Definition bump_version (key : bytes) (d : t) : t :=
  match key_versions d !! key with
  | Some v => set_versions (<[key := wrap64 (v + 1)]> (key_versions d)) d
  | None => set_versions (<[key := 1%Z]> (key_versions d)) d
  end.

Definition bump_version_if_present (key : bytes) (d : t) : t :=
  match key_versions d !! key with
  | Some v => set_versions (<[key := wrap64 (v + 1)]> (key_versions d)) d
  | None => d
  end.

(** [*key_versions.entry(key).or_insert(0) += 1] (release arithmetic). *)
Definition or_insert_bump (key : bytes) (d : t) : t :=
  set_versions (<[key := wrap64 (default 0 (key_versions d !! key) + 1)%Z]> (key_versions d)) d.

Definition maybe_prune_versions (removals : Z) (d : t) : t :=
  let n := Z.min (2 ^ 32 - 1) (removals_since_prune d + removals) in
  if bool_decide (n < VERSION_PRUNE_INTERVAL)%Z then set_removals n d
  else
    let d := set_removals 0 d in
    let cap := Z.max (Z.min (2 ^ 64 - 1) (Z.of_nat (size (entries d)) * VERSION_PRUNE_RATIO))
                 VERSION_PRUNE_MIN in
    if bool_decide (Z.of_nat (size (key_versions d)) <= cap)%Z then d
    else set_versions (filter (fun kv => is_Some (entries d !! kv.1)) (key_versions d)) d.

Definition remove (key : bytes) (d : t) : option Entry.t * t :=
  let removed := entries d !! key in
  let d := set_entries (delete key (entries d)) d in
  let d := match removed with
           | Some e =>
               let d := unindex_expiry key (Entry.expiry e) d in
               let d := bump_version_if_present key d in
               sub_live_bytes_atomic (Z.of_nat (estimate_entry_size key e)) d
           | None => d
           end in
  (removed, maybe_prune_versions 1 d).

Definition remove_empty_key (key : bytes) (d : t) : bool * t :=
  let '(removed, d) := remove key d in (bool_decide (is_Some removed), d).

Definition get (now : Z) (key : bytes) (d : t) : option Entry.t * t :=
  let clock := lru_now d in
  match entries d !! key with
  | Some entry =>
      if Entry.is_expired now entry then (None, (remove key d).2)
      else
        let entry := Entry.set_lru clock entry in
        (Some entry, set_entries (<[key := entry]> (entries d)) d)
  | None => (None, d)
  end.

Definition get_ro (now : Z) (key : bytes) (d : t) : option Entry.t :=
  match entries d !! key with
  | Some entry => if Entry.is_expired now entry then None else Some entry
  | None => None
  end.

Definition get_mut (now : Z) (key : bytes) (d : t) : option Entry.t * t :=
  match entries d !! key with
  | Some entry =>
      if Entry.is_expired now entry then (None, (remove key d).2)
      else (Some entry, bump_version key d)
  | None => (None, d)
  end.

(** The assignment through a reference to an entry. *)
Definition write_back (key : bytes) (entry : Entry.t) (d : t) : t :=
  set_entries (<[key := entry]> (entries d)) d.

Definition key_version (now : Z) (key : bytes) (d : t) : Z :=
  let base := default 0%Z (key_versions d !! key) in
  match entries d !! key with
  | Some e =>
      if Entry.is_expired now e then base
      else match Entry.value e with
           | TInt cell => wrap64 (base + AtomicIntCell.version cell)
           | _ => base
           end
  | None => base
  end.

Definition insert (key : bytes) (entry : Entry.t) (d : t) : t :=
  match entries d !! key with
  | Some old =>
      let d := unindex_expiry key (Entry.expiry old) d in
      let d := resize_live_bytes (estimate_entry_size key old) (estimate_entry_size key entry) d in
      let d := index_expiry key (Entry.expiry entry) d in
      let d := bump_version key d in
      write_back key entry d
  | None =>
      let d := index_expiry key (Entry.expiry entry) d in
      let d := set_versions (<[key := 1%Z]> (key_versions d)) d in
      let d := add_live_bytes (Z.of_nat (estimate_entry_size key entry)) d in
      write_back key entry d
  end.

Definition set_plain (now : Z) (key value : bytes) (d : t) : t :=
  let new_val_sz := length value in
  let clock := lru_now d in
  let vacant := insert key (Entry.new (TString value)) d in
  match entries d !! key with
  | Some entry =>
      if Entry.is_expired now entry then vacant
      else
        let old_val_sz := value_size (Entry.value entry) in
        let d := unindex_expiry key (Entry.expiry entry) d in
        let d := resize_live_bytes old_val_sz new_val_sz d in
        let d := bump_version key d in
        write_back key {| Entry.value := TString value; Entry.expiry := None;
                          Entry.lru_clock := clock |} d
  | None => vacant
  end.

Definition get_or_insert_with (now : Z) (key : bytes) (f : Entry.t) (d : t) : Entry.t * t :=
  let clock := lru_now d in
  match entries d !! key with
  | Some old =>
      if Entry.is_expired now old then
        let d := unindex_expiry key (Entry.expiry old) d in
        let d := sub_live_bytes_atomic (Z.of_nat (estimate_entry_size key old)) d in
        let d := index_expiry key (Entry.expiry f) d in
        let d := add_live_bytes (Z.of_nat (estimate_entry_size key f)) d in
        let d := bump_version key d in
        (f, write_back key f d)
      else
        let entry := Entry.set_lru clock old in
        (entry, bump_version key (write_back key entry d))
  | None =>
      let d := index_expiry key (Entry.expiry f) d in
      let d := bump_version key d in
      let d := add_live_bytes (Z.of_nat (estimate_entry_size key f)) d in
      (f, write_back key f d)
  end.

Definition incr_int (now : Z) (key : bytes) (delta : Z) (d : t) : (NexradeError + Z) * t :=
  let clock := lru_now d in
  match entries d !! key with
  | Some old =>
      if Entry.is_expired now old then
        let d := unindex_expiry key (Entry.expiry old) d in
        let d := sub_live_bytes_atomic (Z.of_nat (estimate_entry_size key old)) d in
        let new_entry := Entry.new (TInt (AtomicIntCell.new delta)) in
        let d := add_live_bytes (Z.of_nat (estimate_entry_size key new_entry)) d in
        let d := or_insert_bump key d in
        (inr delta, write_back key new_entry d)
      else
        match Entry.value old with
        | TInt cell =>
            match checked_add_i64 (AtomicIntCell.load cell) delta with
            | None => (inl Overflow, d)
            | Some new_val =>
                let entry := {| Entry.value := TInt (AtomicIntCell.store cell new_val);
                                Entry.expiry := Entry.expiry old; Entry.lru_clock := clock |} in
                (inr new_val, or_insert_bump key (write_back key entry d))
            end
        | TString v =>
            match s ← from_utf8 v; parse_i64 s with
            | None => (inl NotInteger, d)
            | Some current =>
                match checked_add_i64 current delta with
                | None => (inl Overflow, d)
                | Some new_val =>
                    let entry := {| Entry.value := TInt (AtomicIntCell.new new_val);
                                    Entry.expiry := Entry.expiry old; Entry.lru_clock := clock |} in
                    let d := write_back key entry d in
                    let d := resize_live_bytes (estimate_entry_size key old) (estimate_entry_size key entry) d in
                    (inr new_val, or_insert_bump key d)
                end
            end
        | _ => (inl WrongType, d)
        end
  | None =>
      let entry := Entry.new (TInt (AtomicIntCell.new delta)) in
      let d := add_live_bytes (Z.of_nat (estimate_entry_size key entry)) d in
      let d := or_insert_bump key d in
      (inr delta, write_back key entry d)
  end.

Definition contains_key (now : Z) (key : bytes) (d : t) : bool * t :=
  let '(r, d) := get now key d in (bool_decide (is_Some r), d).

Definition len (d : t) : nat := size (entries d).

Definition is_empty (d : t) : bool := bool_decide (size (entries d) = 0).

(** The deletion loop of [expire_batch]. *)
Fixpoint expire_loop (to_delete : list (Z * bytes)) (deleted : list bytes) (d : t) : list bytes * t :=
  match to_delete with
  | [] => (deleted, d)
  | (exp_ms, key) :: to_delete =>
      let '(deleted, d) :=
        match entries d !! key with
        | Some e =>
            let d := set_entries (delete key (entries d)) d in
            let d := sub_live_bytes_atomic (Z.of_nat (estimate_entry_size key e)) d in
            let d := bump_version_if_present key d in
            (deleted ++ [key], d)
        | None => (deleted, d)
        end in
      expire_loop to_delete deleted (set_index (expiry_index d ∖ {[ (exp_ms, key) ]}) d)
  end.

Definition expire_batch (now : Z) (max : nat) (d : t) : list bytes * t :=
  let to_delete := take max (take_while (fun p => bool_decide (p.1 <= now)%Z) (btree_iter (expiry_index d))) in
  let '(deleted, d) := expire_loop to_delete [] d in
  (deleted, maybe_prune_versions (Z.of_nat (length deleted) mod 2 ^ 32) d).

(** The rounds of [expire_cycle]; round [r] reads the clock [clock r].  The fuel
    is the cap of 16 rounds, which the loop tests itself. *)
Fixpoint expire_rounds (fuel : nat) (clock : nat -> Z) (rounds budget : nat) (total : list bytes) (d : t) :
    list bytes * nat * t :=
  match fuel with
  | 0 => (total, rounds, d)
  | S fuel =>
      let rounds := rounds + 1 in
      let have := size (expiry_index d) in
      if bool_decide (have = 0) || bool_decide (budget = 0) then (total, rounds, d)
      else
        let n := budget `min` have in
        let '(deleted, d) := expire_batch (clock rounds) n d in
        let n_deleted := length deleted in
        let total := total ++ deleted in
        if bool_decide (budget <= n_deleted) && bool_decide (budget < 256) then
          let budget := (budget * 2) `min` 256 in
          if bool_decide (16 <= rounds) then (total, rounds, d)
          else expire_rounds fuel clock rounds budget total d
        else if bool_decide (n_deleted < budget) then (total, rounds, d)
        else if bool_decide (16 <= rounds) then (total, rounds, d)
        else expire_rounds fuel clock rounds budget total d
  end.

Definition expire_cycle (clock : nat -> Z) (d : t) : list bytes * nat * t :=
  expire_rounds 16 clock 0 20 [] d.

Definition set_expiry (key : bytes) (expiry : option Expiry.t) (d : t) : t :=
  match entries d !! key with
  | Some old =>
      let d := unindex_expiry key (Entry.expiry old) d in
      let d := index_expiry key expiry d in
      let d := write_back key (Entry.set_expiry expiry old) d in
      bump_version key d
  | None => d
  end.

End Database.

Section Iteration.
Context `{SetData.IndexSet} `{HashOrder}.

Definition estimated_memory_bytes (d : t) : nat :=
  sum_list_with (fun kv => estimate_entry_size kv.1 kv.2) (hm_iter (entries d)).

(** [if let Some(k) = key { self.remove(&k); Some(k) } else { None }]. *)
Definition evict_key (key : option bytes) (d : t) : option bytes * t :=
  match key with
  | Some k => (Some k, (remove k d).2)
  | None => (None, d)
  end.

(** An entry the volatile policies may pick. *)
Definition volatile (now : Z) (kv : bytes * Entry.t) : bool :=
  bool_decide (is_Some (Entry.expiry kv.2)) && negb (Entry.is_expired now kv.2).

Definition evict_one (now : Z) (policy : MaxMemoryPolicy) (d : t) : option bytes * t :=
  match policy with
  | NoEviction => (None, d)
  | AllKeysRandom => evict_key (head (hm_iter (entries d)).*1) d
  | VolatileRandom => evict_key (fst <$> head (filter (fun kv => volatile now kv) (hm_iter (entries d)))) d
  | AllKeysLru =>
      evict_key (fst <$> sample_lru_victim (fun kv => Entry.lru_clock kv.2) (fun _ => true) 5
                           (hm_iter (entries d))) d
  | VolatileLru =>
      evict_key (fst <$> sample_lru_victim (fun kv => Entry.lru_clock kv.2) (volatile now) 5
                           (hm_iter (entries d))) d
  | VolatileTtl => evict_key (snd <$> head (btree_iter (expiry_index d))) d
  end.

Definition keys_matching (now : Z) (pattern : bytes) (d : t) : list bytes * t :=
  let expired := (filter (fun kv => Entry.is_expired now kv.2) (hm_iter (entries d))).*1 in
  let d := fold_left (fun d k => (remove k d).2) expired d in
  (filter (fun k => glob_match pattern k) (hm_iter (entries d)).*1, d).

End Iteration.
End Database.
