(* ===== verification/KeyspaceInvariant.v ===== *)
(** * KeyspaceInvariant: what every operation of a shard keeps true

    The deadline index lists exactly the deadlines of the entries, the byte
    counter is exactly the sum of the entry sizes, and every entry has a write
    version.  One lemma, [wf_update], covers every operation that touches a
    single key; the history theorem runs any sequence of operations. *)

From S2P Require Import Prelude Text Doubles Glob Types Keyspace.
From S2P Require ListData HashData SetData ZSetData.

Import Database.

#[global] Arguments estimate_entry_size : simpl never.
#[global] Arguments wrap64 : simpl never.
#[global] Arguments sub_live_bytes_atomic : simpl never.
#[global] Arguments resize_live_bytes : simpl never.
#[global] Arguments adjust_live_bytes : simpl never.
#[global] Arguments bump_version : simpl never.
#[global] Arguments bump_version_if_present : simpl never.
#[global] Arguments maybe_prune_versions : simpl never.

Section Fields.
Context `{SetData.IndexSet}.
Implicit Types (d : t) (k : bytes) (e : Entry.t).

(** ** Which fields the helpers touch *)

Lemma entries_index_expiry k x d : entries (index_expiry k x d) = entries d.
Proof. by destruct x. Qed.
Lemma versions_index_expiry k x d : key_versions (index_expiry k x d) = key_versions d.
Proof. by destruct x. Qed.
Lemma live_index_expiry k x d : live_bytes (index_expiry k x d) = live_bytes d.
Proof. by destruct x. Qed.
Lemma lru_index_expiry k x d : lru_clock (index_expiry k x d) = lru_clock d.
Proof. by destruct x. Qed.

Lemma entries_unindex_expiry k x d : entries (unindex_expiry k x d) = entries d.
Proof. by destruct x. Qed.
Lemma versions_unindex_expiry k x d : key_versions (unindex_expiry k x d) = key_versions d.
Proof. by destruct x. Qed.
Lemma live_unindex_expiry k x d : live_bytes (unindex_expiry k x d) = live_bytes d.
Proof. by destruct x. Qed.
Lemma lru_unindex_expiry k x d : lru_clock (unindex_expiry k x d) = lru_clock d.
Proof. by destruct x. Qed.

Lemma sub_live_fields n d :
  entries (sub_live_bytes_atomic n d) = entries d /\
  key_versions (sub_live_bytes_atomic n d) = key_versions d /\
  expiry_index (sub_live_bytes_atomic n d) = expiry_index d /\
  lru_clock (sub_live_bytes_atomic n d) = lru_clock d.
Proof. unfold sub_live_bytes_atomic. by case_bool_decide. Qed.

Lemma entries_sub_live n d : entries (sub_live_bytes_atomic n d) = entries d.
Proof. apply sub_live_fields. Qed.
Lemma versions_sub_live n d : key_versions (sub_live_bytes_atomic n d) = key_versions d.
Proof. apply sub_live_fields. Qed.
Lemma index_sub_live n d : expiry_index (sub_live_bytes_atomic n d) = expiry_index d.
Proof. apply sub_live_fields. Qed.
Lemma lru_sub_live n d : lru_clock (sub_live_bytes_atomic n d) = lru_clock d.
Proof. apply sub_live_fields. Qed.

Lemma resize_fields a b d :
  entries (resize_live_bytes a b d) = entries d /\
  key_versions (resize_live_bytes a b d) = key_versions d /\
  expiry_index (resize_live_bytes a b d) = expiry_index d /\
  lru_clock (resize_live_bytes a b d) = lru_clock d.
Proof.
  unfold resize_live_bytes. repeat case_bool_decide; [done|done|]. apply sub_live_fields.
Qed.

Lemma entries_resize a b d : entries (resize_live_bytes a b d) = entries d.
Proof. apply resize_fields. Qed.
Lemma versions_resize a b d : key_versions (resize_live_bytes a b d) = key_versions d.
Proof. apply resize_fields. Qed.
Lemma index_resize a b d : expiry_index (resize_live_bytes a b d) = expiry_index d.
Proof. apply resize_fields. Qed.
Lemma lru_resize a b d : lru_clock (resize_live_bytes a b d) = lru_clock d.
Proof. apply resize_fields. Qed.

Lemma adjust_fields z d :
  entries (adjust_live_bytes z d) = entries d /\
  key_versions (adjust_live_bytes z d) = key_versions d /\
  expiry_index (adjust_live_bytes z d) = expiry_index d /\
  lru_clock (adjust_live_bytes z d) = lru_clock d.
Proof.
  unfold adjust_live_bytes. repeat case_bool_decide; [done| |done]. apply sub_live_fields.
Qed.

Lemma entries_adjust z d : entries (adjust_live_bytes z d) = entries d.
Proof. apply adjust_fields. Qed.
Lemma versions_adjust z d : key_versions (adjust_live_bytes z d) = key_versions d.
Proof. apply adjust_fields. Qed.
Lemma index_adjust z d : expiry_index (adjust_live_bytes z d) = expiry_index d.
Proof. apply adjust_fields. Qed.
Lemma lru_adjust z d : lru_clock (adjust_live_bytes z d) = lru_clock d.
Proof. apply adjust_fields. Qed.

(** All three ways to bump a version agree on a key that has one. *)
Lemma bump_version_eq k d :
  bump_version k d = set_versions (<[k := wrap64 (default 0 (key_versions d !! k) + 1)%Z]> (key_versions d)) d.
Proof. unfold bump_version. by destruct (key_versions d !! k). Qed.

Lemma or_insert_bump_eq k d : or_insert_bump k d = bump_version k d.
Proof. by rewrite bump_version_eq. Qed.

Lemma bump_if_present_fields k d :
  entries (bump_version_if_present k d) = entries d /\
  expiry_index (bump_version_if_present k d) = expiry_index d /\
  live_bytes (bump_version_if_present k d) = live_bytes d /\
  lru_clock (bump_version_if_present k d) = lru_clock d.
Proof. unfold bump_version_if_present. by destruct (key_versions d !! k). Qed.

Lemma entries_bump_if_present k d : entries (bump_version_if_present k d) = entries d.
Proof. apply bump_if_present_fields. Qed.
Lemma index_bump_if_present k d : expiry_index (bump_version_if_present k d) = expiry_index d.
Proof. apply bump_if_present_fields. Qed.
Lemma live_bump_if_present k d : live_bytes (bump_version_if_present k d) = live_bytes d.
Proof. apply bump_if_present_fields. Qed.
Lemma lru_bump_if_present k d : lru_clock (bump_version_if_present k d) = lru_clock d.
Proof. apply bump_if_present_fields. Qed.

Lemma prune_fields n d :
  entries (maybe_prune_versions n d) = entries d /\
  expiry_index (maybe_prune_versions n d) = expiry_index d /\
  live_bytes (maybe_prune_versions n d) = live_bytes d /\
  lru_clock (maybe_prune_versions n d) = lru_clock d.
Proof. unfold maybe_prune_versions. by repeat case_bool_decide. Qed.

Lemma entries_prune n d : entries (maybe_prune_versions n d) = entries d.
Proof. apply prune_fields. Qed.
Lemma index_prune n d : expiry_index (maybe_prune_versions n d) = expiry_index d.
Proof. apply prune_fields. Qed.
Lemma live_prune n d : live_bytes (maybe_prune_versions n d) = live_bytes d.
Proof. apply prune_fields. Qed.
Lemma lru_prune n d : lru_clock (maybe_prune_versions n d) = lru_clock d.
Proof. apply prune_fields. Qed.

(** Pruning keeps the version of every key that still has an entry. *)
Lemma versions_prune n d k : is_Some (entries d !! k) ->
  key_versions (maybe_prune_versions n d) !! k = key_versions d !! k.
Proof.
  intros Hk. unfold maybe_prune_versions. repeat case_bool_decide; simpl; [done|done|].
  destruct (key_versions d !! k) as [v|] eqn:E; [by apply map_lookup_filter_Some|].
  apply map_lookup_filter_None. by left.
Qed.

Lemma versions_prune_sub n d : key_versions (maybe_prune_versions n d) ⊆ key_versions d.
Proof.
  unfold maybe_prune_versions. repeat case_bool_decide; simpl; [done|done|]. apply map_filter_subseteq.
Qed.

End Fields.

Create Rewrite HintDb fields.
#[export] Hint Rewrite @entries_index_expiry @versions_index_expiry @live_index_expiry @lru_index_expiry
  @entries_unindex_expiry @versions_unindex_expiry @live_unindex_expiry @lru_unindex_expiry
  @entries_sub_live @versions_sub_live @index_sub_live @lru_sub_live
  @entries_resize @versions_resize @index_resize @lru_resize
  @entries_adjust @versions_adjust @index_adjust @lru_adjust
  @or_insert_bump_eq @bump_version_eq
  @entries_bump_if_present @index_bump_if_present @live_bump_if_present @lru_bump_if_present
  @entries_prune @index_prune @live_prune @lru_prune : fields.

(** Reads a field through a chain of updates. *)
Ltac fields := repeat (progress (autorewrite with fields; cbn [
  entries key_versions removals_since_prune expiry_index live_bytes lru_clock
  set_entries set_versions set_removals set_index set_live set_lru_clock write_back add_live_bytes fst snd])).

(** ** The invariant *)

Section Invariant.
Context `{SetData.IndexSet}.
Implicit Types (d : t) (k : bytes) (e : Entry.t) (o : option Entry.t).

(** The deadline an entry contributes to the index. *)
Definition deadline_of k (x : option Expiry.t) : gset (Z * bytes) :=
  match x with
  | Some x => {[ (Expiry.expires_at_ms x, k) ]}
  | None => ∅
  end.

Definition deadlines k o : gset (Z * bytes) := deadline_of k (o ≫= Entry.expiry).

Definition total_bytes d : nat := map_total estimate_entry_size (entries d).

Definition versions_in_range d : Prop := map_Forall (fun _ v => 0 <= v < 2 ^ 64)%Z (key_versions d).

Record wf d : Prop := mk_wf {
  wf_index : forall p, p ∈ expiry_index d <-> exists o, entries d !! p.2 = o /\ p ∈ deadlines p.2 o;
  wf_live : live_bytes d = Z.of_nat (total_bytes d);
  wf_fits : (Z.of_nat (total_bytes d) < 2 ^ 64)%Z;
  wf_versioned : forall k, is_Some (entries d !! k) -> is_Some (key_versions d !! k);
  wf_range : versions_in_range d;
}.

(** What an operation on one key did: the slot now holds [o]. *)
Record changes d d' k o : Prop := mk_changes {
  ch_entries : entries d' = partial_alter (fun _ => o) k (entries d);
  ch_index : deadlines k (entries d !! k) ⊆ expiry_index d ->
    forall p, p ∈ expiry_index d' <-> p ∈ expiry_index d /\ p ∉ deadlines k (entries d !! k) \/ p ∈ deadlines k o;
  ch_live : (Z.of_nat (slot_size estimate_entry_size k (entries d !! k)) <= live_bytes d)%Z ->
    let n := (live_bytes d - Z.of_nat (slot_size estimate_entry_size k (entries d !! k))
              + Z.of_nat (slot_size estimate_entry_size k o))%Z in
    (n < 2 ^ 64)%Z -> live_bytes d' = n;
  ch_versioned : is_Some o -> is_Some (key_versions d !! k) \/ entries d !! k = None ->
    is_Some (key_versions d' !! k);
  ch_others : forall j, j <> k -> is_Some (entries d !! j) -> key_versions d' !! j = key_versions d !! j;
  ch_range : versions_in_range d -> versions_in_range d';
}.

Lemma elem_of_deadlines k o p : p ∈ deadlines k o -> p.2 = k.
Proof. unfold deadlines, deadline_of. destruct (o ≫= Entry.expiry); set_solver. Qed.

(** The one-key lemma: an operation that says what it did keeps the invariant,
    as long as the memory it counts still fits a [usize]. *)
Lemma wf_update d d' k o : wf d -> changes d d' k o ->
  (Z.of_nat (total_bytes d') < 2 ^ 64)%Z -> wf d'.
Proof.
  intros W C Hfit. pose proof (map_total_alter estimate_entry_size (entries d) k o) as Ht.
  rewrite <- (ch_entries _ _ _ _ C) in Ht. fold (total_bytes d') (total_bytes d) in Ht.
  destruct W as [Wi Wl Wf Wv Wr]. split.
  - intros [ms j]. rewrite (ch_index _ _ _ _ C), (ch_entries _ _ _ _ C), Wi; simpl;
      [|intros p Hp; pose proof (elem_of_deadlines _ _ _ Hp) as <-; apply Wi; eauto].
    destruct (decide (k = j)) as [<-|Hne].
    + rewrite lookup_partial_alter_eq. naive_solver.
    + rewrite lookup_partial_alter_ne by done. split.
      * intros [[Hx _]|Hx]; [done|]. apply elem_of_deadlines in Hx. naive_solver.
      * intros Hx. left. split; [done|]. intros Hy. apply elem_of_deadlines in Hy. naive_solver.
  - pose proof (slot_size_le estimate_entry_size (entries d) k) as Hs. fold (total_bytes d) in Hs.
    rewrite (ch_live _ _ _ _ C); rewrite Wl; lia.
  - done.
  - intros j. rewrite (ch_entries _ _ _ _ C). destruct (decide (k = j)) as [<-|Hne].
    + rewrite lookup_partial_alter_eq. intros Ho. apply (ch_versioned _ _ _ _ C Ho).
      destruct (entries d !! k) eqn:E; [left|by right]. apply Wv. rewrite E. done.
    + rewrite lookup_partial_alter_ne by done. intros Hj.
      rewrite (ch_others _ _ _ _ C) by done. by apply Wv.
  - by apply (ch_range _ _ _ _ C).
Qed.

Lemma wf_new : wf new.
Proof.
  split; simpl; [|done|done| |done].
  - intros p. rewrite lookup_empty. split; [set_solver|]. intros (o & <- & Hp).
    unfold deadlines, deadline_of in Hp. simpl in Hp. set_solver.
  - intros k. rewrite lookup_empty. by intros [].
Qed.

(** *** Arithmetic of the counter *)

Lemma live_add n d : (0 <= live_bytes d + n < 2 ^ 64)%Z -> live_bytes (add_live_bytes n d) = (live_bytes d + n)%Z.
Proof. intros. simpl. by apply wrap64_small. Qed.

Lemma live_sub n d : (0 <= n <= live_bytes d)%Z -> live_bytes (sub_live_bytes_atomic n d) = (live_bytes d - n)%Z.
Proof.
  intros. unfold sub_live_bytes_atomic, saturating_sub. case_bool_decide; simpl; lia.
Qed.

Lemma live_resize a b d : (Z.of_nat a <= live_bytes d)%Z -> (live_bytes d - Z.of_nat a + Z.of_nat b < 2 ^ 64)%Z ->
  live_bytes (resize_live_bytes a b d) = (live_bytes d - Z.of_nat a + Z.of_nat b)%Z.
Proof.
  intros. unfold resize_live_bytes. repeat case_bool_decide; [lia| |].
  - rewrite live_add; lia.
  - rewrite live_sub; lia.
Qed.

Lemma live_adjust z d : (0 <= live_bytes d)%Z -> (0 <= live_bytes d + z < 2 ^ 64)%Z ->
  live_bytes (adjust_live_bytes z d) = (live_bytes d + z)%Z.
Proof.
  intros. unfold adjust_live_bytes. repeat case_bool_decide.
  - rewrite live_add; lia.
  - rewrite live_sub; lia.
  - lia.
Qed.

(** *** Versions *)

Lemma range_insert d k v : (0 <= v < 2 ^ 64)%Z -> versions_in_range d ->
  map_Forall (fun _ v => 0 <= v < 2 ^ 64)%Z (<[k := v]> (key_versions d)).
Proof. intros Hv Hr. by apply map_Forall_insert_2. Qed.

Lemma range_sub d m : m ⊆ key_versions d -> versions_in_range d ->
  map_Forall (fun _ v => 0 <= v < 2 ^ 64)%Z m.
Proof. intros Hs Hr j v Hj. apply (Hr j). by eapply lookup_weaken. Qed.

Lemma range_bump_if_present d k : versions_in_range d -> versions_in_range (bump_version_if_present k d).
Proof.
  intros Hr. unfold bump_version_if_present. destruct (key_versions d !! k); [|done].
  apply range_insert; [apply wrap64_range|done].
Qed.

Lemma versions_bump_if_present_ne d k j : j <> k ->
  key_versions (bump_version_if_present k d) !! j = key_versions d !! j.
Proof.
  intros. unfold bump_version_if_present. destruct (key_versions d !! k); [|done].
  simpl. by rewrite lookup_insert_ne.
Qed.

(** *** Deadlines *)

Lemma index_index_expiry k x d p :
  p ∈ expiry_index (index_expiry k x d) <-> p ∈ expiry_index d \/ p ∈ deadline_of k x.
Proof. unfold deadline_of. destruct x; simpl; set_solver. Qed.

Lemma index_unindex_expiry k x d p :
  p ∈ expiry_index (unindex_expiry k x d) <-> p ∈ expiry_index d /\ p ∉ deadline_of k x.
Proof. unfold deadline_of. destruct x; simpl; set_solver. Qed.

(** *** Bookkeeping common to the operations *)

Lemma versions_range_bump d k :
  versions_in_range d -> versions_in_range (bump_version k d).
Proof. intros. rewrite bump_version_eq. apply range_insert; [apply wrap64_range|done]. Qed.

End Invariant.

(** Reads the slot of the key an operation works on. *)
Ltac slot E := rewrite ?E in *; cbn [slot_size from_option fst snd] in *.

(** Opens [changes] for an operation whose branch is known. *)
Ltac changes_tac :=
  split;
  [ fields; try reflexivity
  | intros Hsub p; fields; unfold deadlines;
    repeat (progress (rewrite ?index_index_expiry, ?index_unindex_expiry; fields)); simpl
  | intros Hold n Hn; subst n; fields
  | intros Ho Hv; fields;
    first [by destruct Ho | rewrite lookup_insert_eq; by eauto | idtac]
  | intros j Hj Hsj; fields;
    rewrite ?versions_prune by (fields; rewrite ?lookup_delete_ne by done; done);
    fields; rewrite ?versions_bump_if_present_ne by done; fields;
    rewrite ?lookup_insert_ne by done; try done
  | intros Hr; unfold versions_in_range; fields; try done;
    try (apply range_insert; [first [apply wrap64_range|lia]|done]) ].

Section Operations.
Context `{SetData.IndexSet}.
Implicit Types (d : t) (k : bytes) (e : Entry.t) (o : option Entry.t).

Lemma insert_changes k e d : changes d (insert k e d) k (Some e).
Proof.
  unfold insert. destruct (entries d !! k) as [old|] eqn:E; changes_tac.
  - rewrite E. simpl. tauto.
  - slot E. rewrite live_resize; fields; lia.
  - rewrite E. set_solver.
  - slot E. rewrite wrap64_small; lia.
Qed.

Lemma prune_range n d : versions_in_range d -> versions_in_range (maybe_prune_versions n d).
Proof. apply range_sub, versions_prune_sub. Qed.

Lemma remove_changes k d : changes d (remove k d).2 k None.
Proof.
  unfold remove. destruct (entries d !! k) as [old|] eqn:E; changes_tac.
  - rewrite E. simpl. set_solver.
  - slot E. rewrite live_sub; fields; lia.
  - apply prune_range. unfold versions_in_range. fields.
    apply range_bump_if_present. unfold versions_in_range. by fields.
  - rewrite E. set_solver.
  - slot E. lia.
  - by apply prune_range.
Qed.

(** Nothing happened to the key. *)
Lemma same_changes k d : changes d d k (entries d !! k).
Proof.
  split; try done.
  - symmetry. apply partial_alter_self.
  - intros Hsub p. destruct (decide (p ∈ deadlines k (entries d !! k))); set_solver.
  - intros _ n _. lia.
  - intros [e He] [Hs|Hn]; [done|]. congruence.
Qed.

(** An entry was rewritten without a change of deadline, the counter moved by the
    difference of the sizes, and the version moved or did not. *)
Lemma rewrite_changes k old e d d' : entries d !! k = Some old ->
  Entry.expiry e = Entry.expiry old ->
  entries d' = <[k := e]> (entries d) ->
  expiry_index d' = expiry_index d ->
  ((Z.of_nat (estimate_entry_size k old) <= live_bytes d)%Z ->
   (live_bytes d - Z.of_nat (estimate_entry_size k old) + Z.of_nat (estimate_entry_size k e) < 2 ^ 64)%Z ->
   live_bytes d' = (live_bytes d - Z.of_nat (estimate_entry_size k old) + Z.of_nat (estimate_entry_size k e))%Z) ->
  (key_versions d' = key_versions d \/ key_versions d' = key_versions (bump_version k d)) ->
  changes d d' k (Some e).
Proof.
  intros E Hx He Hi Hl Hv.
  assert (Hd : deadlines k (Some e) = deadlines k (Some old)) by (unfold deadlines; simpl; by rewrite Hx).
  split.
  - done.
  - intros Hsub p. rewrite Hi, E, Hd in *. destruct (decide (p ∈ deadlines k (Some old))); set_solver.
  - slot E. done.
  - intros _ Hs. destruct Hv as [->| ->]; [naive_solver congruence|]. fields. rewrite lookup_insert_eq. eauto.
  - intros j Hj _. destruct Hv as [->| ->]; [done|]. fields. by rewrite lookup_insert_ne.
  - intros Hr. unfold versions_in_range. destruct Hv as [->| ->]; [done|]. by apply versions_range_bump.
Qed.

Lemma get_changes now k d : changes d (get now k d).2 k (get now k d).1.
Proof.
  unfold get. destruct (entries d !! k) as [e|] eqn:E.
  - destruct (Entry.is_expired now e); simpl; [apply remove_changes|].
    apply (rewrite_changes k e); auto. intros _ _. unfold estimate_entry_size. simpl. lia.
  - simpl. rewrite <- E. apply same_changes.
Qed.

Lemma set_plain_changes now k v d :
  exists lru, changes d (set_plain now k v d) k (Some (Entry.mk (TString v) None lru)).
Proof.
  unfold set_plain. destruct (entries d !! k) as [old|] eqn:E; [|eexists; apply insert_changes].
  destruct (Entry.is_expired now old); [eexists; apply insert_changes|].
  exists (lru_now d). changes_tac.
  - rewrite E. simpl. set_solver.
  - slot E. unfold estimate_entry_size in *. simpl in *. rewrite live_resize; fields; lia.
Qed.

Lemma get_or_insert_changes now k f d :
  changes d (get_or_insert_with now k f d).2 k (Some (get_or_insert_with now k f d).1).
Proof.
  unfold get_or_insert_with. destruct (entries d !! k) as [old|] eqn:E; [destruct (Entry.is_expired now old)|].
  - changes_tac.
    + rewrite E. simpl. tauto.
    + slot E. rewrite wrap64_small; rewrite live_sub; fields; lia.
  - apply (rewrite_changes k old); fields; auto. intros _ _. unfold estimate_entry_size. simpl. lia.
  - changes_tac.
    + rewrite E. set_solver.
    + slot E. rewrite wrap64_small; lia.
Qed.

Lemma get_mut_changes now k d : changes d (get_mut now k d).2 k (get_mut now k d).1.
Proof.
  unfold get_mut. destruct (entries d !! k) as [e|] eqn:E.
  - destruct (Entry.is_expired now e); simpl; [apply remove_changes|].
    apply (rewrite_changes k e); fields; auto.
    + by rewrite insert_id.
    + lia.
  - simpl. rewrite <- E. apply same_changes.
Qed.

(** The slot after an increment: an error leaves the entry alone. *)
Lemma incr_int_changes now k delta d :
  match (incr_int now k delta d).1 with
  | inl _ => (incr_int now k delta d).2 = d
  | inr n => exists e, changes d (incr_int now k delta d).2 k (Some e)
  end.
Proof.
  unfold incr_int. destruct (entries d !! k) as [old|] eqn:E; [destruct (Entry.is_expired now old)|]; simpl.
  - eexists. changes_tac.
    + rewrite E. simpl. set_solver.
    + slot E. rewrite wrap64_small; rewrite live_sub; fields; lia.
  - destruct (Entry.value old) as [v|cell| | | | | | | |] eqn:Ev; try done.
    + destruct (_ ≫= _) as [cur|]; [|done]. destruct (checked_add_i64 cur delta) as [n|]; [|done]. simpl.
      exists (Entry.mk (TInt (AtomicIntCell.new n)) (Entry.expiry old) (lru_now d)).
      eapply rewrite_changes; fields; eauto. intros.
      rewrite live_resize; fields; lia.
    + destruct (checked_add_i64 _ delta) as [n|]; [|done]. simpl.
      exists (Entry.mk (TInt (AtomicIntCell.store cell n)) (Entry.expiry old) (lru_now d)).
      eapply rewrite_changes; fields; eauto. intros. unfold estimate_entry_size. rewrite Ev. simpl. lia.
  - eexists. changes_tac.
    + rewrite E. set_solver.
    + slot E. rewrite wrap64_small; lia.
Qed.

Lemma set_expiry_changes k x d :
  changes d (set_expiry k x d) k (Entry.set_expiry x <$> entries d !! k).
Proof.
  unfold set_expiry. destruct (entries d !! k) as [old|] eqn:E.
  - changes_tac.
    + rewrite E. simpl. tauto.
    + slot E. unfold estimate_entry_size. simpl. lia.
  - simpl. rewrite <- E. apply same_changes.
Qed.

(** The write through a reference that [get_mut] or [get_or_insert_with] handed
    out, followed by the adjustment of the counter. *)
Definition modify k e (delta : Z) d : t := adjust_live_bytes delta (write_back k e d).

Lemma modify_changes k old e d : entries d !! k = Some old -> Entry.expiry e = Entry.expiry old ->
  changes d (modify k e (Z.of_nat (estimate_entry_size k e) - Z.of_nat (estimate_entry_size k old)) d) k (Some e).
Proof.
  intros E Hx. unfold modify. apply (rewrite_changes k old); fields; auto.
  intros. rewrite live_adjust; fields; lia.
Qed.
End Operations.

(** ** Active expiry *)

#[export] Instance deadline_le_total : Total deadline_le.
Proof.
  intros [m a] [n b]. unfold deadline_le. simpl.
  destruct (Z.lt_trichotomy m n) as [|[->|]]; [by left; left| |by right; left].
  rewrite (bytes_cmp_antisym a b). destruct (bytes_cmp a b); simpl; naive_solver.
Qed.

#[export] Instance deadline_le_trans : Transitive deadline_le.
Proof.
  intros [m a] [n b] [o c]. unfold deadline_le. simpl.
  intros [?|[-> Hab]] [?|[-> Hbc]]; [left; lia|left; lia|left; lia|right; split; [done|]].
  destruct (bytes_cmp a b) eqn:Ea; [apply bytes_cmp_eq in Ea as ->; done| |done].
  destruct (bytes_cmp b c) eqn:Eb; [apply bytes_cmp_eq in Eb as <-; congruence| |done].
  rewrite (bytes_cmp_trans _ _ _ Ea Eb). done.
Qed.

Lemma btree_iter_sorted s : StronglySorted deadline_le (btree_iter s).
Proof. apply StronglySorted_merge_sort; apply _. Qed.

Lemma btree_iter_perm s : btree_iter s ≡ₚ elements s.
Proof. apply merge_sort_Permutation. Qed.

Lemma elem_of_btree_iter s p : p ∈ btree_iter s <-> p ∈ s.
Proof. by rewrite btree_iter_perm, elem_of_elements. Qed.

Lemma NoDup_btree_iter s : NoDup (btree_iter s).
Proof. rewrite btree_iter_perm. apply NoDup_elements. Qed.

(** The prefix of a sorted list that a downward-closed test delimits. *)
Lemma take_while_split {A} (p : A -> bool) (l : list A) :
  exists r, l = take_while p l ++ r /\ Forall (fun x => p x = true) (take_while p l) /\
    match r with [] => True | x :: _ => p x = false end.
Proof.
  induction l as [|x l (r & E & F & H)]; simpl; [by exists []|].
  destruct (p x) eqn:Ep; [|by exists (x :: l)].
  exists r. split_and!; [simpl; congruence|by constructor|done].
Qed.

Lemma StronglySorted_app_le {A} (R : A -> A -> Prop) l1 l2 x y :
  StronglySorted R (l1 ++ l2) -> x ∈ l1 -> y ∈ l2 -> R x y.
Proof.
  induction l1 as [|z l1 IH]; simpl; [set_solver|]. intros Hs Hx Hy.
  apply StronglySorted_inv in Hs as [Hs Hf]. apply elem_of_cons in Hx as [->|Hx]; [|auto].
  rewrite Forall_forall in Hf. set_solver.
Qed.

(** What a batch picks: the expired deadlines, earliest first. *)
Lemma expire_selection now max s :
  let sel := take max (take_while (fun p => bool_decide (p.1 <= now)%Z) (btree_iter s)) in
  NoDup sel /\ length sel <= max /\
  (forall p, p ∈ sel -> p ∈ s /\ (p.1 <= now)%Z) /\
  (forall p q, p ∈ sel -> q ∈ s -> q ∉ sel -> (p.1 <= q.1)%Z) /\
  (length sel < max -> forall q, q ∈ s -> (q.1 <= now)%Z -> q ∈ sel).
Proof.
  set (p := fun p : Z * bytes => bool_decide (p.1 <= now)%Z). simpl.
  destruct (take_while_split p (btree_iter s)) as (r & E & F & H).
  set (tw := take_while p (btree_iter s)) in *.
  assert (Es : btree_iter s = take max tw ++ (drop max tw ++ r)).
  { by rewrite E, app_assoc, take_drop. }
  pose proof (btree_iter_sorted s) as Hs. pose proof (NoDup_btree_iter s) as Hn.
  rewrite Es in Hs, Hn. rewrite Forall_forall in F.
  split_and!.
  - by apply NoDup_app in Hn as [? _].
  - rewrite length_take. lia.
  - intros x Hx. assert (Hx' : x ∈ tw) by (rewrite <- (take_drop max tw); set_solver).
    split; [|by apply F, bool_decide_eq_true in Hx'].
    apply elem_of_btree_iter. rewrite Es. set_solver.
  - intros x y Hx Hy Hny. rewrite <- elem_of_btree_iter, Es, elem_of_app in Hy.
    destruct Hy as [|Hy]; [done|].
    destruct (StronglySorted_app_le _ _ _ _ _ Hs Hx Hy) as [|[]]; lia.
  - intros Hl y Hy Hle. rewrite length_take in Hl. rewrite take_ge by lia.
    rewrite <- elem_of_btree_iter, E, elem_of_app in Hy. destruct Hy as [|Hy]; [done|].
    destruct r as [|z r]; [set_solver|]. apply bool_decide_eq_false in H.
    exfalso. apply elem_of_cons in Hy as [->|Hy]; [done|].
    pose proof (btree_iter_sorted s) as Hs'. rewrite E, (cons_middle z tw r), app_assoc in Hs'.
    destruct (StronglySorted_app_le _ _ _ z y Hs') as [|[]]; [set_solver|done|lia|lia].
Qed.

Section Expire.
Context `{SetData.IndexSet}.
Implicit Types (d : t) (k : bytes) (e : Entry.t) (o : option Entry.t).

Lemma total_bytes_shrinks d d' k : changes d d' k None -> total_bytes d' <= total_bytes d.
Proof.
  intros C. pose proof (map_total_alter estimate_entry_size (entries d) k None) as Ht.
  unfold total_bytes. rewrite (ch_entries _ _ _ _ C). simpl in Ht. lia.
Qed.

Lemma wf_shrink d d' k : wf d -> changes d d' k None -> wf d'.
Proof.
  intros W C. apply (wf_update d d' k None W C). pose proof (total_bytes_shrinks _ _ _ C).
  pose proof (wf_fits _ W). lia.
Qed.

(** One pass of the deletion loop. *)
Lemma expire_step_changes ms k e d : entries d !! k = Some e -> deadlines k (Some e) = {[ (ms, k) ]} ->
  let d1 := bump_version_if_present k
              (sub_live_bytes_atomic (Z.of_nat (estimate_entry_size k e))
                 (set_entries (delete k (entries d)) d)) in
  changes d (set_index (expiry_index d1 ∖ {[ (ms, k) ]}) d1) k None.
Proof.
  intros E Hd. simpl. split.
  - fields. done.
  - intros _ p. fields. rewrite E, Hd. set_solver.
  - intros Hold n Hn. subst n. fields. slot E. rewrite live_sub; fields; lia.
  - by intros [].
  - intros j Hj _. fields. rewrite versions_bump_if_present_ne by done. by fields.
  - intros Hr. unfold versions_in_range. fields. apply range_bump_if_present.
    unfold versions_in_range. by fields.
Qed.

Lemma index_entry d ms k : wf d -> (ms, k) ∈ expiry_index d ->
  exists e, entries d !! k = Some e /\ deadlines k (Some e) = {[ (ms, k) ]}.
Proof.
  intros W Hp. apply (wf_index _ W) in Hp as (o & E & Hp). simpl in *.
  destruct o as [e|]; [|set_solver]. exists e. split; [done|].
  unfold deadlines, deadline_of in *. simpl in *. destruct (Entry.expiry e); set_solver.
Qed.

Lemma expire_loop_spec ps acc d : wf d -> NoDup ps -> (forall p, p ∈ ps -> p ∈ expiry_index d) ->
  let '(deleted, d') := expire_loop ps acc d in
  wf d' /\ deleted = acc ++ ps.*2 /\
  entries d' = filter (fun kv => kv.1 ∉ ps.*2) (entries d) /\
  expiry_index d' = expiry_index d ∖ list_to_set ps.
Proof.
  revert acc d. induction ps as [|[ms k] ps IH]; intros acc d W Hnd Hin; simpl.
  - rewrite app_nil_r. split_and!; [done|done| |set_solver].
    symmetry. apply map_filter_id. set_solver.
  - apply NoDup_cons in Hnd as [Hk Hnd].
    destruct (index_entry d ms k W ltac:(set_solver)) as (e & E & Hd). rewrite E.
    pose proof (expire_step_changes ms k e d E Hd) as C. simpl in C.
    match type of C with changes _ ?x _ _ => set (d1 := x) in * end.
    assert (Hi : forall p, p ∈ expiry_index d1 <-> p ∈ expiry_index d /\ p <> (ms, k)).
    { intros p. rewrite (ch_index _ _ _ _ C), E, Hd; rewrite ?E, ?Hd; set_solver. }
    specialize (IH (acc ++ [k]) d1 (wf_shrink _ _ _ W C) Hnd).
    destruct (expire_loop ps (acc ++ [k]) d1) as [deleted d'].
    destruct IH as (W' & -> & Ee & Ei).
    { intros p Hp. apply Hi. split; [set_solver|]. intros ->. done. }
    split_and!; [done|by rewrite <- app_assoc| |].
    + rewrite Ee, (ch_entries _ _ _ _ C). apply map_eq. intros j. apply option_eq. intros x.
      change (partial_alter (fun _ => None) k (entries d)) with (delete k (entries d)).
      rewrite !map_lookup_filter_Some, lookup_delete_Some. set_solver.
    + rewrite Ei. apply set_eq. intros p. rewrite elem_of_difference, Hi. set_solver.
Qed.

Lemma wf_prune n d : wf d -> wf (maybe_prune_versions n d).
Proof.
  intros [Wi Wl Wf Wv Wr]. split; unfold total_bytes; fields; try done.
  - intros k Hk. rewrite versions_prune by done. by apply Wv.
  - by apply prune_range.
Qed.

Lemma expired_deadline now d k e : wf d -> entries d !! k = Some e -> Entry.is_expired now e = true ->
  exists ms, (ms, k) ∈ expiry_index d /\ (ms <= now)%Z /\ deadlines k (Some e) = {[ (ms, k) ]}.
Proof.
  intros W E Hx. unfold Entry.is_expired in Hx. destruct (Entry.expiry e) as [x|] eqn:Ex; [|done].
  apply bool_decide_eq_true in Hx.
  assert (Hd : deadlines k (Some e) = {[ (Expiry.expires_at_ms x, k) ]}).
  { unfold deadlines. simpl. by rewrite Ex. }
  exists (Expiry.expires_at_ms x). split_and!; [|done|done].
  apply (wf_index _ W). exists (Some e). simpl. split; [done|]. rewrite Hd. set_solver.
Qed.

Lemma deadline_expired now k e ms : deadlines k (Some e) = {[ (ms, k) ]} -> (ms <= now)%Z ->
  Entry.is_expired now e = true.
Proof.
  unfold deadlines, deadline_of, Entry.is_expired, Expiry.is_expired. simpl.
  destruct (Entry.expiry e) as [x|]; [|set_solver].
  intros Hd Hle. assert (Expiry.expires_at_ms x = ms) as -> by set_solver. by rewrite bool_decide_eq_true_2.
Qed.

(** What a batch does to the shard. *)
Lemma expire_batch_spec now max d : wf d ->
  let '(deleted, d') := expire_batch now max d in
  wf d' /\ NoDup deleted /\ length deleted <= max /\
  entries d' = filter (fun kv => kv.1 ∉ deleted) (entries d) /\
  size (expiry_index d') + length deleted = size (expiry_index d) /\
  (forall k, k ∈ deleted -> exists e, entries d !! k = Some e /\ Entry.is_expired now e = true) /\
  (forall k j e e' ms ms', k ∈ deleted -> entries d !! k = Some e -> deadlines k (Some e) = {[ (ms, k) ]} ->
     entries d' !! j = Some e' -> deadlines j (Some e') = {[ (ms', j) ]} -> (ms <= ms')%Z) /\
  (length deleted < max -> forall k e, entries d' !! k = Some e -> Entry.is_expired now e = false).
Proof.
  intros W. unfold expire_batch.
  pose proof (expire_selection now max (expiry_index d)) as (Hn & Hl & Hin & Hord & Hall).
  set (sel := take max _) in *.
  pose proof (expire_loop_spec sel [] d W Hn (fun p Hp => proj1 (Hin p Hp))) as L.
  destruct (expire_loop sel [] d) as [deleted d']. destruct L as (W' & -> & Ee & Ei). simpl.
  assert (Hone : forall k ms ms', (ms, k) ∈ expiry_index d -> (ms', k) ∈ expiry_index d -> ms = ms').
  { intros k ms ms' H1 H2. destruct (index_entry _ _ _ W H1) as (e & E & D).
    destruct (index_entry _ _ _ W H2) as (e' & E' & D'). simplify_eq. set_solver. }
  assert (Hnk : NoDup sel.*2).
  { apply NoDup_fmap_2_strong; [|done]. intros [m k] [m' k'] H1 H2 E. simpl in E. subst k'.
    f_equal. apply (Hone k); [apply (Hin _ H1)|apply (Hin _ H2)]. }
  fields. split_and!.
  - by apply wf_prune.
  - done.
  - by rewrite length_fmap.
  - done.
  - rewrite Ei, length_fmap. rewrite <- (size_list_to_set (C := gset (Z * bytes)) sel) by done.
    assert (Hs : (list_to_set sel : gset (Z * bytes)) ⊆ expiry_index d).
    { intros p Hp. apply elem_of_list_to_set in Hp. apply (Hin _ Hp). }
    rewrite size_difference by done. pose proof (subseteq_size _ _ Hs). lia.
  - intros k Hk. apply list_elem_of_fmap in Hk as ([ms j] & -> & Hp). simpl.
    destruct (Hin _ Hp) as [Hp1 Hp2]. destruct (index_entry _ _ _ W Hp1) as (e & E & D).
    exists e. split; [done|]. by eapply deadline_expired.
  - intros k j e e' ms ms' Hk E D Ej D'. rewrite Ee in Ej. apply map_lookup_filter_Some in Ej as [Ej Hj].
    apply list_elem_of_fmap in Hk as ([m k'] & -> & Hp). simpl in *.
    destruct (Hin _ Hp) as [Hp1 Hp2].
    assert (m = ms) as ->.
    { destruct (index_entry _ _ _ W Hp1) as (e0 & E0 & D0). simplify_eq. set_solver. }
    apply (Hord (ms, k') (ms', j) Hp).
    + apply (wf_index _ W). exists (Some e'). simpl. split; [done|]. set_solver.
    + intros Hp'. apply Hj. apply list_elem_of_fmap. by exists (ms', j).
  - rewrite length_fmap. intros Hlt k e Ek. rewrite Ee in Ek. apply map_lookup_filter_Some in Ek as [Ek Hk].
    destruct (Entry.is_expired now e) eqn:Hx; [|done]. exfalso. apply Hk.
    destruct (expired_deadline now d k e W Ek Hx) as (ms & Hp & Hle & _).
    apply list_elem_of_fmap. exists (ms, k). split; [done|]. by apply Hall.
Qed.

(** Keys a cycle must have deleted when its rounds run out. *)
Fixpoint quota (rounds budget : nat) : nat :=
  match rounds with
  | 0 => 0
  | S n => budget + quota n ((budget * 2) `min` 256)
  end.

Definition none_expired now d : Prop :=
  forall k e, entries d !! k = Some e -> Entry.is_expired now e = false.

Lemma empty_index_none_expired now d : wf d -> size (expiry_index d) = 0 -> none_expired now d.
Proof.
  intros W Hz k e E. destruct (Entry.is_expired now e) eqn:Hx; [|done].
  destruct (expired_deadline now d k e W E Hx) as (ms & Hp & _).
  apply size_empty_inv in Hz. set_solver.
Qed.

(** The result of a run of rounds, relative to the shard it began with. *)
Record cycled (clock : nat -> Z) (d d' : t) (rounds rounds' : nat) (deleted : list bytes) (q : nat) : Prop := mk_cycled {
  cy_wf : wf d';
  cy_nodup : NoDup deleted;
  cy_entries : entries d' = filter (fun kv => kv.1 ∉ deleted) (entries d);
  cy_expired : forall k, k ∈ deleted -> exists e r, rounds < r <= rounds' /\
    entries d !! k = Some e /\ Entry.is_expired (clock r) e = true;
  cy_done : none_expired (clock rounds') d' \/ q <= length deleted;
}.

Lemma cycled_batch clock d n rounds budget : wf d -> 0 < size (expiry_index d) ->
  n = budget `min` size (expiry_index d) ->
  let '(deleted, d') := expire_batch (clock rounds) n d in
  cycled clock d d' (rounds - 1) rounds deleted budget \/ rounds = 0.
Proof.
  intros W Hpos En. pose proof (expire_batch_spec (clock rounds) n d W) as B.
  destruct (expire_batch (clock rounds) n d) as [deleted d'].
  destruct B as (W' & Hn & Hl & Ee & Es & Hx & _ & Hdone).
  destruct rounds as [|r]; [by right|left]. split; [done|done|done| |].
  - intros k Hk. destruct (Hx k Hk) as (e & E & X). exists e, (S r). split_and!; [lia|lia|done|done].
  - destruct (decide (budget <= length deleted)); [by right|left].
    destruct (decide (length deleted < n)); [exact (Hdone ltac:(lia))|].
    apply empty_index_none_expired; [done|lia].
Qed.

Lemma cycled_trans clock d1 d2 d3 r1 r2 r3 a b q q' : r1 <= r2 -> r2 <= r3 ->
  cycled clock d1 d2 r1 r2 a q -> q <= length a -> cycled clock d2 d3 r2 r3 b q' ->
  cycled clock d1 d3 r1 r3 (a ++ b) (q + q').
Proof.
  intros Hr Hr' A Hq B. split.
  - apply B.
  - apply NoDup_app. split_and!; [apply A| |apply B]. intros k Ha Hb.
    destruct (cy_expired _ _ _ _ _ _ _ B k Hb) as (e & _ & _ & E & _).
    rewrite (cy_entries _ _ _ _ _ _ _ A) in E. apply map_lookup_filter_Some in E as [_ E]. done.
  - rewrite (cy_entries _ _ _ _ _ _ _ B), (cy_entries _ _ _ _ _ _ _ A), map_filter_filter.
    apply map_filter_ext. set_solver.
  - intros k Hk. apply elem_of_app in Hk as [Hk|Hk].
    + destruct (cy_expired _ _ _ _ _ _ _ A k Hk) as (e & r & ? & ? & ?). exists e, r. split_and!; [lia|lia|done|done].
    + destruct (cy_expired _ _ _ _ _ _ _ B k Hk) as (e & r & ? & E & ?).
      rewrite (cy_entries _ _ _ _ _ _ _ A) in E. apply map_lookup_filter_Some in E as [E _].
      exists e, r. split_and!; [lia|lia|done|done].
  - destruct (cy_done _ _ _ _ _ _ _ B); [by left|right]. rewrite length_app. lia.
Qed.

Lemma cycled_refl clock d r r' q : wf d -> none_expired (clock r') d \/ q = 0 -> cycled clock d d r r' [] q.
Proof.
  intros W Hq. split; [done|apply NoDup_nil_2| |set_solver|simpl; destruct Hq; [by left|right; lia]].
  symmetry. apply map_filter_id. set_solver.
Qed.

Lemma cycled_weaken clock d d' r r' deleted q q' :
  cycled clock d d' r r' deleted q -> q' <= q -> cycled clock d d' r r' deleted q'.
Proof. intros [W N E X D] Hq. split; try done. destruct D; [by left|right; lia]. Qed.

Lemma cycled_done clock d d' r r' deleted q q' :
  cycled clock d d' r r' deleted q -> length deleted < q -> cycled clock d d' r r' deleted q'.
Proof. intros [W N E X D] Hq. split; try done. destruct D; [by left|lia]. Qed.

Lemma expire_rounds_spec fuel clock rounds budget total d :
  wf d -> 0 < budget <= 256 -> rounds + fuel = 16 ->
  exists deleted rounds' d', expire_rounds fuel clock rounds budget total d = (total ++ deleted, rounds', d') /\
    rounds <= rounds' <= 16 /\ cycled clock d d' rounds rounds' deleted (quota fuel budget).
Proof.
  revert rounds budget total d. induction fuel as [|fuel IH]; intros rounds budget total d W Hb Hf; simpl.
  - exists [], rounds, d. rewrite app_nil_r. split_and!; [done|lia|lia|].
    apply cycled_refl; [done|by right].
  - destruct (decide (size (expiry_index d) = 0)) as [Hz|Hz].
    { rewrite (bool_decide_eq_true_2 _ Hz). simpl.
      exists [], (rounds + 1), d. rewrite app_nil_r. split_and!; [done|lia|lia|].
      apply cycled_refl; [done|left]. by apply empty_index_none_expired. }
    rewrite (bool_decide_eq_false_2 _ Hz), bool_decide_eq_false_2 by lia. simpl.
    pose proof (cycled_batch clock d _ (rounds + 1) budget W ltac:(lia) eq_refl) as B.
    destruct (expire_batch _ _ d) as [deleted d1].
    destruct B as [B|]; [|lia]. replace (rounds + 1 - 1) with rounds in B by lia.
    assert (Stop : length deleted < budget \/ fuel = 0 ->
      exists del rounds' d', (total ++ deleted, rounds + 1, d1) = (total ++ del, rounds', d') /\
        rounds <= rounds' <= 16 /\
        cycled clock d d' rounds rounds' del (budget + quota fuel ((budget * 2) `min` 256))).
    { intros Hs. exists deleted, (rounds + 1), d1. split_and!; [done|lia|lia|].
      destruct Hs as [Hs| ->]; [by eapply cycled_done|]. eapply cycled_weaken; [done|simpl; lia]. }
    assert (Go : budget <= length deleted ->
      exists del rounds' d', expire_rounds fuel clock (rounds + 1) ((budget * 2) `min` 256) (total ++ deleted) d1
          = (total ++ del, rounds', d') /\
        rounds <= rounds' <= 16 /\
        cycled clock d d' rounds rounds' del (budget + quota fuel ((budget * 2) `min` 256))).
    { intros Hl. destruct (IH (rounds + 1) ((budget * 2) `min` 256) (total ++ deleted) d1
        (cy_wf _ _ _ _ _ _ _ B) ltac:(lia) ltac:(lia)) as (del & r' & d' & E & Hr & Cy).
      exists (deleted ++ del), r', d'. rewrite app_assoc. split_and!; [done|lia|lia|].
      eapply cycled_trans; [| |done|done|done]; lia. }
    destruct (decide (budget <= length deleted)) as [Hl|Hl].
    + rewrite (bool_decide_eq_true_2 _ Hl). simpl. case_bool_decide as H256.
      * case_bool_decide; [apply Stop; right; lia|auto].
      * rewrite bool_decide_eq_false_2 by lia. case_bool_decide; [apply Stop; right; lia|].
        replace ((budget * 2) `min` 256) with budget in * by lia. auto.
    + rewrite (bool_decide_eq_false_2 _ Hl). simpl. rewrite bool_decide_eq_true_2 by lia. apply Stop. lia.
Qed.
End Expire.
