(* ===== verification/KeyspaceSpec.v ===== *)
(** * KeyspaceSpec: a shard is a map with deadlines

    The abstract keyspace maps each key to a value and an optional deadline; a
    key whose deadline has passed is not there.  [spec_exec] says what each
    operation answers and leaves, with no index, no counter, no versions and no
    lazy deletion.  The refinement theorem runs any history on both. *)

From S2P Require Import Prelude Text Doubles Glob Types Keyspace KeyspaceInvariant.
From S2P Require ListData HashData SetData ZSetData.

Import Database.

Section Spec.
Context `{SetData.IndexSet} `{HashOrder}.
Implicit Types (d : t) (k : bytes) (e : Entry.t).

(** ** The abstract keyspace *)

Abbreviation cell := (DataType * option Z)%type (only parsing).

(** What of an entry the clients see. *)
Definition visible e : cell := (Entry.value e, Expiry.expires_at_ms <$> Entry.expiry e).

Definition alive (now : Z) (c : cell) : Prop :=
  match c.2 with Some ms => (now < ms)%Z | None => True end.

#[export] Instance alive_dec now c : Decision (alive now c).
Proof. unfold alive. destruct c as [v [ms|]]; apply _. Defined.

(** The keys still there at a time. *)
Definition at_time (now : Z) (m : gmap bytes cell) : gmap bytes cell := filter (fun kv => alive now kv.2) m.

(** ** Operations *)

Inductive db_op :=
  | OGet k                        (** GET and every read that touches the LRU clock *)
  | OGetRo k                      (** reads under the shared lock *)
  | OExists k
  | OInsert k e                   (** SET with options, RESTORE, stores *)
  | OSetPlain k (v : bytes)       (** plain SET *)
  | OIncr k (delta : Z)
  | ODel k
  | OExpire k (x : option Expiry.t)  (** EXPIRE, PERSIST: a read, then [set_expiry] *)
  | OUpdate k (f : DataType -> DataType)  (** in-place writers on an existing key *)
  | OUpsert k e (f : DataType -> DataType)  (** in-place writers that create the key *)
  | OExpireBatch (max : nat)
  | OKeys (pattern : bytes).

Inductive db_reply :=
  | RUnit
  | RValue (v : option DataType)
  | RBool (b : bool)
  | RNumber (r : NexradeError + Z)
  | RKeys (ks : gset bytes).

(** The code. *)
Definition exec (now : Z) (op : db_op) d : db_reply * t :=
  match op with
  | OGet k => let '(r, d) := get now k d in (RValue (Entry.value <$> r), d)
  | OGetRo k => (RValue (Entry.value <$> get_ro now k d), d)
  | OExists k => let '(r, d) := contains_key now k d in (RBool r, d)
  | OInsert k e => (RUnit, insert k e d)
  | OSetPlain k v => (RUnit, set_plain now k v d)
  | OIncr k delta => let '(r, d) := incr_int now k delta d in (RNumber r, d)
  | ODel k => (RUnit, (remove k d).2)
  | OExpire k x =>
      let '(r, d) := get now k d in
      match r with
      | Some _ => (RBool true, set_expiry k x d)
      | None => (RBool false, d)
      end
  | OUpdate k f =>
      let '(r, d) := get_mut now k d in
      match r with
      | Some e =>
          let e' := Entry.set_value (f (Entry.value e)) e in
          (RBool true, modify k e' (Z.of_nat (estimate_entry_size k e') - Z.of_nat (estimate_entry_size k e)) d)
      | None => (RBool false, d)
      end
  | OUpsert k init f =>
      let '(e, d) := get_or_insert_with now k init d in
      let e' := Entry.set_value (f (Entry.value e)) e in
      (RUnit, modify k e' (Z.of_nat (estimate_entry_size k e') - Z.of_nat (estimate_entry_size k e)) d)
  | OExpireBatch max => let '(_, d) := expire_batch now max d in (RUnit, d)
  | OKeys pattern => let '(ks, d) := keys_matching now pattern d in (RKeys (list_to_set ks), d)
  end.

(** The specification, on the keys that are there. *)
Definition spec_exec (op : db_op) (m : gmap bytes cell) : db_reply * gmap bytes cell :=
  match op with
  | OGet k | OGetRo k => (RValue (fst <$> m !! k), m)
  | OExists k => (RBool (bool_decide (is_Some (m !! k))), m)
  | OInsert k e => (RUnit, <[k := visible e]> m)
  | OSetPlain k v => (RUnit, <[k := (TString v, None)]> m)
  | OIncr k delta =>
      match m !! k with
      | None => (RNumber (inr delta), <[k := (TInt (AtomicIntCell.new delta), None)]> m)
      | Some (TInt c, x) =>
          match checked_add_i64 (AtomicIntCell.load c) delta with
          | Some n => (RNumber (inr n), <[k := (TInt (AtomicIntCell.store c n), x)]> m)
          | None => (RNumber (inl Overflow), m)
          end
      | Some (TString v, x) =>
          match s ← from_utf8 v; parse_i64 s with
          | Some n =>
              match checked_add_i64 n delta with
              | Some n => (RNumber (inr n), <[k := (TInt (AtomicIntCell.new n), x)]> m)
              | None => (RNumber (inl Overflow), m)
              end
          | None => (RNumber (inl NotInteger), m)
          end
      | Some _ => (RNumber (inl WrongType), m)
      end
  | ODel k => (RUnit, delete k m)
  | OExpire k x =>
      match m !! k with
      | Some (v, _) => (RBool true, <[k := (v, Expiry.expires_at_ms <$> x)]> m)
      | None => (RBool false, m)
      end
  | OUpdate k f =>
      match m !! k with
      | Some (v, x) => (RBool true, <[k := (f v, x)]> m)
      | None => (RBool false, m)
      end
  | OUpsert k e f =>
      let '(v, x) := default (visible e) (m !! k) in (RUnit, <[k := (f v, x)]> m)
  | OExpireBatch _ => (RUnit, m)
  | OKeys pattern => (RKeys (filter (fun k => glob_match pattern k) (dom m)), m)
  end.

Fixpoint run (h : list (Z * db_op)) d : list db_reply * t :=
  match h with
  | [] => ([], d)
  | (now, op) :: h =>
      let '(r, d) := exec now op d in
      let '(rs, d) := run h d in (r :: rs, d)
  end.

(** The clock only hides keys; the operation sees the rest. *)
Fixpoint spec_run (h : list (Z * db_op)) (m : gmap bytes cell) : list db_reply * gmap bytes cell :=
  match h with
  | [] => ([], m)
  | (now, op) :: h =>
      let '(r, m) := spec_exec op (at_time now m) in
      let '(rs, m) := spec_run h m in (r :: rs, m)
  end.

Definition fits d : Prop := (Z.of_nat (total_bytes d) < 2 ^ 64)%Z.

(** The shard counts no more bytes than a [usize] holds, before and after the
    write through a reference. *)
Definition op_fits (now : Z) (op : db_op) d : Prop :=
  fits (exec now op d).2 /\
  match op with OUpsert k e _ => fits (get_or_insert_with now k e d).2 | _ => True end.

(** That holds throughout, and the clock does not go back. *)
Fixpoint history_ok (from : Z) (h : list (Z * db_op)) d : Prop :=
  match h with
  | [] => True
  | (now, op) :: h => (from <= now)%Z /\ op_fits now op d /\ history_ok now h (exec now op d).2
  end.

(** ** Refinement *)

(** From a time on, the shard shows the abstract keyspace. *)
Definition shows (from : Z) d (m : gmap bytes cell) : Prop :=
  forall now, (from <= now)%Z -> at_time now (visible <$> entries d) = at_time now m.

Lemma is_expired_alive now e : Entry.is_expired now e = negb (bool_decide (alive now (visible e))).
Proof.
  unfold Entry.is_expired, Expiry.is_expired, alive, visible. simpl.
  destruct (Entry.expiry e) as [x|]; simpl; [|done]. repeat case_bool_decide; simpl; try done; lia.
Qed.

Lemma alive_mono now now' c : (now <= now')%Z -> alive now' c -> alive now c.
Proof. unfold alive. destruct (c.2); [lia|done]. Qed.

Lemma at_time_lookup now m k : at_time now m !! k =
  match m !! k with Some c => if decide (alive now c) then Some c else None | None => None end.
Proof.
  unfold at_time. destruct (m !! k) as [c|] eqn:E.
  - destruct (decide (alive now c)).
    + by apply map_lookup_filter_Some.
    + apply map_lookup_filter_None. naive_solver.
  - apply map_lookup_filter_None. by left.
Qed.

Lemma at_time_at_time now now' m : (now <= now')%Z -> at_time now' (at_time now m) = at_time now' m.
Proof.
  intros Hle. apply map_eq. intros k. rewrite !at_time_lookup. destruct (m !! k) as [c|]; [|done].
  destruct (decide (alive now c)) as [|Hn]; [done|]. rewrite decide_False; [done|].
  intros Ha. by apply Hn, (alive_mono now now').
Qed.

(** The slot of a key, as the two sides show it at the time of an operation. *)
Lemma shows_slot now d m k : shows now d m ->
  at_time now m !! k =
    match entries d !! k with
    | Some e => if Entry.is_expired now e then None else Some (visible e)
    | None => None
    end.
Proof.
  intros S. rewrite <- (S now) by lia. rewrite at_time_lookup, lookup_fmap.
  destruct (entries d !! k) as [e|]; simpl; [|done].
  rewrite is_expired_alive. case_decide; [rewrite bool_decide_eq_true_2|rewrite bool_decide_eq_false_2]; done.
Qed.

(** Assigning one slot on both sides. *)
Lemma shows_assign now d d' m k o o' : shows now d m -> changes d d' k o ->
  (forall t, (now <= t)%Z ->
     (match o with Some e => if decide (alive t (visible e)) then Some (visible e) else None | None => None end)
     = (match o' with Some c => if decide (alive t c) then Some c else None | None => None end)) ->
  shows now d' (partial_alter (fun _ => o') k m).
Proof.
  intros S C Ho t Ht. apply map_eq. intros j. rewrite !at_time_lookup, lookup_fmap, (ch_entries _ _ _ _ C).
  destruct (decide (k = j)) as [<-|Hne].
  - rewrite !lookup_partial_alter_eq. rewrite <- Ho by done. by destruct o.
  - rewrite !lookup_partial_alter_ne by done. pose proof (S t Ht) as E.
    apply (f_equal (lookup j)) in E. rewrite !at_time_lookup, lookup_fmap in E. done.
Qed.

Lemma shows_insert now d d' m k e c : shows now d m -> changes d d' k (Some e) -> visible e = c ->
  shows now d' (<[k := c]> m).
Proof. intros S C <-. by eapply (shows_assign _ _ _ _ _ (Some e) (Some (visible e))). Qed.

Lemma shows_delete now d d' m k : shows now d m -> changes d d' k None -> shows now d' (delete k m).
Proof. intros S C. by eapply (shows_assign _ _ _ _ _ None None). Qed.

(** Nothing visible changed: the slot shows at every later time what it showed. *)
Lemma shows_same now d d' m k o : shows now d m -> changes d d' k o ->
  (forall t, (now <= t)%Z ->
     (match o with Some e => if decide (alive t (visible e)) then Some (visible e) else None | None => None end)
     = at_time t m !! k) ->
  shows now d' m.
Proof.
  intros S C Ho. rewrite <- (partial_alter_self m k). eapply shows_assign; [done..|].
  intros t Ht. rewrite Ho by done. apply at_time_lookup.
Qed.

Lemma shows_at_time now d m : shows now d m -> shows now d (at_time now m).
Proof. intros S t Ht. rewrite at_time_at_time by done. by apply S. Qed.


Lemma shows_reap now d d' m k : shows now d m -> m !! k = None -> changes d d' k None -> shows now d' m.
Proof. intros S Hk C. eapply shows_same; [done..|]. intros. by rewrite at_time_lookup, Hk. Qed.

Lemma shows_touch now d d' m k e : shows now d m -> m !! k = Some (visible e) -> changes d d' k (Some e) ->
  shows now d' m.
Proof. intros S Hk C. rewrite <- (insert_id m k (visible e)) by done. by eapply shows_insert. Qed.

(** Dropping keys that have expired. *)
Lemma shows_drop now d d' m : shows now d m ->
  (forall k, entries d' !! k = entries d !! k \/
     entries d' !! k = None /\ exists e, entries d !! k = Some e /\ Entry.is_expired now e = true) ->
  shows now d' m.
Proof.
  intros S Hk t Ht. rewrite <- (S t Ht). apply map_eq. intros k.
  rewrite !at_time_lookup, !lookup_fmap.
  destruct (Hk k) as [->|(-> & e & -> & Hx)]; simpl; [done|].
  rewrite is_expired_alive in Hx. rewrite decide_False; [done|]. intros Ha.
  rewrite bool_decide_eq_true_2 in Hx; [done|by eapply alive_mono].
Qed.

(** KEYS first reaps what has expired. *)
Lemma reap_all (ks : list bytes) d : wf d ->
  wf (fold_left (fun d k => (remove k d).2) ks d) /\
  entries (fold_left (fun d k => (remove k d).2) ks d) = filter (fun kv => kv.1 ∉ ks) (entries d).
Proof.
  revert d. induction ks as [|k ks IH]; intros d W; cbn [fold_left].
  - split; [done|]. symmetry. apply map_filter_id. set_solver.
  - pose proof (remove_changes k d) as C. destruct (IH _ (wf_shrink _ _ _ W C)) as [W' E].
    split; [done|]. rewrite E, (ch_entries _ _ _ _ C). apply map_eq. intros j. apply option_eq. intros x.
    change (partial_alter (fun _ => None) k (entries d)) with (delete k (entries d)).
    rewrite !map_lookup_filter_Some, lookup_delete_Some. set_solver.
Qed.

Lemma hm_keys {V} (m : gmap bytes V) k : k ∈ (hm_iter m).*1 <-> is_Some (m !! k).
Proof.
  rewrite hm_iter_perm. rewrite list_elem_of_fmap. split.
  - intros ([j v] & -> & Hv). apply elem_of_map_to_list in Hv. eauto.
  - intros [v Hv]. exists (k, v). by rewrite elem_of_map_to_list.
Qed.

(** KEYS reaps every expired key and lists the matching ones that are left. *)
Lemma keys_matching_spec now pattern d : wf d ->
  let '(ks, d') := keys_matching now pattern d in
  wf d' /\ entries d' = filter (fun kv => Entry.is_expired now kv.2 = false) (entries d) /\
  forall k, k ∈ ks <-> glob_match pattern k = true /\ is_Some (entries d' !! k).
Proof.
  intros W. unfold keys_matching.
  set (expired := (filter _ (hm_iter (entries d))).*1).
  destruct (reap_all expired d W) as [W' E].
  set (d' := fold_left _ _ _) in *. split_and!; [done| |].
  - rewrite E. apply map_filter_ext. intros k e Ek. simpl.
    assert (Hx : k ∈ expired <-> Entry.is_expired now e = true).
    { unfold expired. rewrite list_elem_of_fmap. split.
      - intros ([j x] & -> & Hj). apply list_elem_of_filter in Hj as [Hx Hj].
        rewrite hm_iter_perm, elem_of_map_to_list in Hj. simpl in *. destruct (Entry.is_expired now x) eqn:Ex; [|done].
        congruence.
      - intros Hx. exists (k, e). split; [done|]. apply list_elem_of_filter. simpl. rewrite Hx.
        by rewrite hm_iter_perm, elem_of_map_to_list. }
    rewrite Hx. destruct (Entry.is_expired now e); naive_solver.
  - intros k. rewrite list_elem_of_filter, hm_keys. by rewrite Is_true_true.
Qed.

#[local] Arguments at_time : simpl never.
#[local] Arguments remove : simpl never.
#[local] Arguments modify : simpl never.

(** ** Every operation refines its specification *)

Section Step.
Context (now : Z) (d : t) (m : gmap bytes cell) (W : wf d) (S : shows now d (at_time now m)).

Definition refines (op : db_op) : Prop :=
  op_fits now op d ->
  (exec now op d).1 = (spec_exec op (at_time now m)).1 /\
  wf (exec now op d).2 /\ shows now (exec now op d).2 (spec_exec op (at_time now m)).2.

Let Hslot k := shows_slot now d (at_time now m) k S.

Lemma slot_at_time k : at_time now m !! k =
  match entries d !! k with
  | Some e => if Entry.is_expired now e then None else Some (visible e)
  | None => None
  end.
Proof. rewrite <- Hslot. by rewrite at_time_at_time. Qed.

(** A read or a lookup for writing finds what the specification shows, and leaves
    the shard showing the same. *)
Lemma found_keeps k d' r : changes d d' k r -> visible <$> r = at_time now m !! k ->
  shows now d' (at_time now m).
Proof.
  intros C K. destruct r as [e|]; simpl in K.
  - by eapply shows_touch.
  - by eapply shows_reap.
Qed.

Lemma get_ro_visible k : visible <$> get_ro now k d = at_time now m !! k.
Proof.
  rewrite slot_at_time. unfold get_ro. destruct (entries d !! k) as [e|]; [|done].
  by destruct (Entry.is_expired now e).
Qed.

Lemma get_visible k : visible <$> (get now k d).1 = at_time now m !! k.
Proof.
  rewrite slot_at_time. unfold get. destruct (entries d !! k) as [e|]; [|done].
  by destruct (Entry.is_expired now e).
Qed.

Lemma get_mut_visible k : visible <$> (get_mut now k d).1 = at_time now m !! k.
Proof.
  rewrite slot_at_time. unfold get_mut. destruct (entries d !! k) as [e|]; [|done].
  by destruct (Entry.is_expired now e).
Qed.

Lemma get_or_insert_visible k f :
  visible (get_or_insert_with now k f d).1 = default (visible f) (at_time now m !! k).
Proof.
  rewrite slot_at_time. unfold get_or_insert_with. destruct (entries d !! k) as [e|]; [|done].
  by destruct (Entry.is_expired now e).
Qed.

Lemma value_visible (r : option Entry.t) : Entry.value <$> r = fst <$> (visible <$> r).
Proof. by destruct r. Qed.

(** The entry a lookup for writing returns is the one in the map. *)
Lemma changes_slot d' k r : changes d d' k r -> entries d' !! k = r.
Proof. intros C. rewrite (ch_entries _ _ _ _ C). apply lookup_partial_alter_eq. Qed.

Lemma touch_fits k d' r : changes d d' k r ->
  match r, entries d !! k with
  | Some e, Some old => Entry.value e = Entry.value old
  | Some _, None => False
  | None, _ => True
  end -> fits d'.
Proof.
  intros C Hr. pose proof (map_total_alter estimate_entry_size (entries d) k r) as Ht.
  pose proof (wf_fits _ W) as Hf. unfold fits, total_bytes in *. rewrite (ch_entries _ _ _ _ C).
  destruct r as [e|]; simpl in Ht; [|lia]. destruct (entries d !! k) as [old|]; [|done]. simpl in Ht.
  unfold estimate_entry_size in *. rewrite Hr in Ht. lia.
Qed.

Lemma get_fits k : fits (get now k d).2.
Proof.
  eapply touch_fits; [apply get_changes|]. unfold get. destruct (entries d !! k) as [e|]; [|done].
  by destruct (Entry.is_expired now e).
Qed.

Lemma get_mut_fits k : fits (get_mut now k d).2.
Proof.
  eapply touch_fits; [apply get_mut_changes|]. unfold get_mut. destruct (entries d !! k) as [e|]; [|done].
  by destruct (Entry.is_expired now e).
Qed.

(** A read: some lookup, and nothing else. *)
Lemma read_refines k d' r : changes d d' k r -> visible <$> r = at_time now m !! k -> fits d' ->
  wf d' /\ shows now d' (at_time now m).
Proof. intros C K F. split; [by eapply wf_update|by eapply found_keeps]. Qed.

Lemma db_get_refines k : refines (OGet k).
Proof.
  intros [F _]. pose proof (get_changes now k d) as C. pose proof (get_visible k) as K.
  simpl in *. destruct (get now k d) as [r d']. simpl in *.
  split; [by rewrite value_visible, K|]. by eapply read_refines.
Qed.

Lemma db_get_ro_refines k : refines (OGetRo k).
Proof. intros [F _]. simpl. split_and!; [by rewrite value_visible, get_ro_visible|done|done]. Qed.

Lemma db_exists_refines k : refines (OExists k).
Proof.
  intros [F _]. pose proof (get_changes now k d) as C. pose proof (get_visible k) as K.
  simpl in *. unfold contains_key in *. destruct (get now k d) as [r d']. simpl in *.
  split; [|by eapply read_refines]. rewrite <- K. by destruct r.
Qed.

Lemma db_insert_refines k e : refines (OInsert k e).
Proof.
  intros [F _]. pose proof (insert_changes k e d) as C. simpl in *.
  split_and!; [done|by eapply wf_update|by eapply shows_insert].
Qed.

Lemma db_set_plain_refines k v : refines (OSetPlain k v).
Proof.
  intros [F _]. destruct (set_plain_changes now k v d) as [lru C]. simpl in *.
  split_and!; [done|by eapply wf_update|by eapply shows_insert].
Qed.

Lemma db_del_refines k : refines (ODel k).
Proof.
  intros [F _]. pose proof (remove_changes k d) as C. simpl in *.
  split_and!; [done|by eapply wf_update|by eapply shows_delete].
Qed.

Lemma db_expire_refines k x : refines (OExpire k x).
Proof.
  intros [F _]. pose proof (get_changes now k d) as C. pose proof (get_visible k) as K.
  pose proof (get_fits k) as F1. cbn [exec spec_exec] in *. destruct (get now k d) as [r d1]. simpl in *.
  destruct (read_refines _ _ _ C K F1) as [W1 S1]. rewrite <- K.
  destruct r as [e|]; simpl in *; [|done].
  pose proof (set_expiry_changes k x d1) as C2. rewrite (changes_slot _ _ _ C) in C2. simpl in C2.
  split_and!; [done|by eapply wf_update|by eapply shows_insert].
Qed.

Lemma db_update_refines k f : refines (OUpdate k f).
Proof.
  intros [F _]. pose proof (get_mut_changes now k d) as C. pose proof (get_mut_visible k) as K.
  pose proof (get_mut_fits k) as F1. cbn [exec spec_exec] in *. destruct (get_mut now k d) as [r d1]. simpl in *.
  destruct (read_refines _ _ _ C K F1) as [W1 S1]. rewrite <- K.
  destruct r as [e|]; simpl in *; [|done].
  pose proof (modify_changes k e (Entry.set_value (f (Entry.value e)) e) d1 (changes_slot _ _ _ C) eq_refl) as C2.
  split_and!; [done|by eapply wf_update|by eapply shows_insert].
Qed.

Lemma db_upsert_refines k init f : refines (OUpsert k init f).
Proof.
  intros [F F1]. pose proof (get_or_insert_changes now k init d) as C.
  pose proof (get_or_insert_visible k init) as K. cbn [exec spec_exec] in *.
  destruct (get_or_insert_with now k init d) as [e d1]. simpl in *. rewrite <- K. simpl.
  assert (S1 : shows now d1 (<[k := visible e]> (at_time now m))) by by eapply shows_insert.
  pose proof (modify_changes k e (Entry.set_value (f (Entry.value e)) e) d1 (changes_slot _ _ _ C) eq_refl) as C2.
  split_and!; [done|eapply wf_update; [by eapply wf_update|done|done]|].
  rewrite <- (insert_insert_eq (at_time now m) k _ (visible e)). by eapply shows_insert.
Qed.

(** The slot an increment leaves, next to its reply. *)
Lemma incr_int_visible k delta :
  match (incr_int now k delta d).1 with
  | inl err => spec_exec (OIncr k delta) (at_time now m) = (RNumber (inl err), at_time now m)
  | inr n => exists e, changes d (incr_int now k delta d).2 k (Some e) /\
      spec_exec (OIncr k delta) (at_time now m) = (RNumber (inr n), <[k := visible e]> (at_time now m))
  end.
Proof.
  pose proof (incr_int_changes now k delta d) as C. cbn [spec_exec]. rewrite (slot_at_time k).
  destruct (incr_int now k delta d) as [[err|n] d'] eqn:E; simpl in *.
  - unfold incr_int in E. destruct (entries d !! k) as [old|]; [|done].
    destruct (Entry.is_expired now old); [done|]. unfold visible.
    destruct (Entry.value old) as [v|c| | | | | | | |]; simplify_eq; try done.
    + destruct (_ ≫= _) as [cur|]; [|by simplify_eq]. by destruct (checked_add_i64 cur delta); simplify_eq.
    + by destruct (checked_add_i64 _ delta); simplify_eq.
  - destruct C as [e C]. exists e. split; [done|]. pose proof (changes_slot _ _ _ C) as Ee.
    unfold incr_int in E. destruct (entries d !! k) as [old|].
    + destruct (Entry.is_expired now old).
      * injection E as <- <-. fields. autorewrite with fields in Ee. simpl in Ee.
        rewrite lookup_insert_eq in Ee. by simplify_eq.
      * unfold visible. destruct (Entry.value old) as [v|c| | | | | | | |]; simplify_eq; try done.
        -- destruct (_ ≫= _) as [cur|]; [|done]. destruct (checked_add_i64 cur delta); simplify_eq.
           autorewrite with fields in Ee. simpl in Ee. autorewrite with fields in Ee. simpl in Ee.
           rewrite lookup_insert_eq in Ee. by simplify_eq.
        -- destruct (checked_add_i64 _ delta); simplify_eq. autorewrite with fields in Ee. simpl in Ee.
           rewrite lookup_insert_eq in Ee. by simplify_eq.
    + injection E as <- <-. autorewrite with fields in Ee. simpl in Ee.
      rewrite lookup_insert_eq in Ee. by simplify_eq.
Qed.

Lemma db_incr_refines k delta : refines (OIncr k delta).
Proof.
  intros [F _]. pose proof (incr_int_visible k delta) as V. pose proof (incr_int_changes now k delta d) as C0.
  assert (Ex : exec now (OIncr k delta) d = (RNumber (incr_int now k delta d).1, (incr_int now k delta d).2))
    by (simpl; by destruct (incr_int now k delta d)).
  rewrite Ex in *. destruct (incr_int now k delta d) as [[err|n] d']; cbn [fst snd] in *.
  - rewrite V. by subst d'.
  - destruct V as (e & C & ->). split_and!; [done|by eapply wf_update|by eapply shows_insert].
Qed.

Lemma db_expire_batch_refines max : refines (OExpireBatch max).
Proof.
  intros _. pose proof (expire_batch_spec now max d W) as B. simpl.
  destruct (expire_batch now max d) as [deleted d']. destruct B as (W' & _ & _ & Ee & _ & Hx & _). simpl.
  split_and!; [done|done|]. eapply shows_drop; [done|]. intros k. rewrite Ee.
  destruct (decide (k ∈ deleted)) as [Hk|Hk].
  - right. destruct (Hx k Hk) as (e & E & X). split; [|eauto].
    apply map_lookup_filter_None. right. intros x _ Hn. by apply Hn.
  - left. destruct (entries d !! k) as [e|] eqn:E.
    + by apply map_lookup_filter_Some.
    + apply map_lookup_filter_None. by left.
Qed.

Lemma db_keys_refines pattern : refines (OKeys pattern).
Proof.
  intros _. pose proof (keys_matching_spec now pattern d W) as B. cbn [exec spec_exec].
  destruct (keys_matching now pattern d) as [ks d']. destruct B as (W' & Ee & Hks). cbn [fst snd].
  assert (Hd : forall k, is_Some (entries d' !! k) <-> k ∈ dom (at_time now m)).
  { intros k. rewrite elem_of_dom, slot_at_time, Ee. destruct (entries d !! k) as [e|] eqn:E.
    - destruct (Entry.is_expired now e) eqn:X.
      + split; [|by intros []]. intros [x Hx]. apply map_lookup_filter_Some in Hx as [? ?]. simplify_eq/=. congruence.
      + split; [eauto|]. intros _. exists e. by apply map_lookup_filter_Some.
    - split; [|by intros []]. intros [x Hx]. apply map_lookup_filter_Some in Hx as [? ?]. congruence. }
  split_and!; [|done|].
  - f_equal. apply set_eq. intros k. rewrite elem_of_list_to_set, Hks, elem_of_filter, Hd, Is_true_true. done.
  - eapply shows_drop; [done|]. intros k. rewrite Ee. destruct (entries d !! k) as [e|] eqn:E.
    + destruct (Entry.is_expired now e) eqn:X; [right|left].
      * split; [|eauto]. apply map_lookup_filter_None. right. intros x Hx. simplify_eq/=. congruence.
      * by apply map_lookup_filter_Some.
    + left. apply map_lookup_filter_None. by left.
Qed.

Lemma db_exec_refines op : refines op.
Proof.
  destruct op; auto using db_get_refines, db_get_ro_refines, db_exists_refines, db_insert_refines,
    db_set_plain_refines, db_incr_refines, db_del_refines, db_expire_refines, db_update_refines,
    db_upsert_refines, db_expire_batch_refines, db_keys_refines.
Qed.
End Step.

Lemma db_run_refines h from d m : wf d -> shows from d m -> history_ok from h d ->
  (run h d).1 = (spec_run h m).1 /\ wf (run h d).2 /\
  shows (default from (last h.*1)) (run h d).2 (spec_run h m).2.
Proof.
  revert from d m. induction h as [|[now op] h IH]; intros from d m W S Hh; [done|].
  destruct Hh as (Hle & F & Hh). cbn [run spec_run].
  assert (S0 : shows now d (at_time now m)).
  { apply shows_at_time. intros t Ht. apply S. lia. }
  destruct (db_exec_refines now d m W S0 op F) as (R1 & W1 & S1).
  destruct (exec now op d) as [r d1], (spec_exec op (at_time now m)) as [r' m1]. simpl in *. subst r'.
  destruct (IH now d1 m1 W1 S1 Hh) as (R2 & W2 & S2).
  destruct (run h d1), (spec_run h m1). cbn [fst snd] in *. split_and!; [congruence|done|].
  change (list_fmap _ _ fst h) with h.*1. rewrite last_cons. by destruct (last h.*1).
Qed.
End Spec.

Section Claims.
Context `{SetData.IndexSet} `{HashOrder}.


(** Active expiry removes only keys whose deadline has passed, earliest deadlines
    first, never more than asked, keeps index, counter and versions exact, and
    when it removes fewer than asked no expired key is left. *)
Theorem expire_batch_earliest_first now max d : wf d ->
  let '(deleted, d') := expire_batch now max d in
  wf d' /\ NoDup deleted /\ length deleted <= max /\
  entries d' = filter (fun kv => kv.1 ∉ deleted) (entries d) /\
  (forall k, k ∈ deleted -> exists e, entries d !! k = Some e /\ Entry.is_expired now e = true) /\
  (forall k j e e' ms ms', k ∈ deleted -> entries d !! k = Some e -> deadlines k (Some e) = {[ (ms, k) ]} ->
     entries d' !! j = Some e' -> deadlines j (Some e') = {[ (ms', j) ]} -> (ms <= ms')%Z) /\
  (length deleted < max -> none_expired now d').
Proof.
  intros W. pose proof (expire_batch_spec now max d W) as B.
  destruct (expire_batch now max d). naive_solver.
Qed.

(** The adaptive expiry cycle ends within 16 rounds, deletes only keys that had
    expired when their round read the clock, each once, and stops with no expired
    key left unless it has already deleted 3372 keys, the sum of its growing
    budgets. *)
Theorem expire_cycle_clears clock d : wf d ->
  let '(deleted, rounds, d') := expire_cycle clock d in
  wf d' /\ rounds <= 16 /\ NoDup deleted /\
  entries d' = filter (fun kv => kv.1 ∉ deleted) (entries d) /\
  (forall k, k ∈ deleted -> exists e r, 0 < r <= rounds /\
     entries d !! k = Some e /\ Entry.is_expired (clock r) e = true) /\
  (none_expired (clock rounds) d' \/ N.to_nat 3372 <= length deleted).
Proof.
  intros W. unfold expire_cycle.
  destruct (expire_rounds_spec 16 clock 0 20 [] d W ltac:(lia) eq_refl) as (deleted & rounds & d' & E & Hr & Cy).
  rewrite E. simpl app. destruct Cy as [W' N Ee X D]. split_and!; try done.
  lia.
Qed.

(** ** Eviction *)

Lemma sample_loop_elem {V} score keep n idx (sample : list (bytes * V * Z)) kvs x :
  x ∈ sample_loop score keep n idx sample kvs ->
  x ∈ sample \/ x.1 ∈ kvs /\ keep x.1 = true.
Proof.
  revert idx sample. induction kvs as [|kv kvs IH]; intros idx sample; simpl; [by left|].
  destruct (keep kv) eqn:Ek; simpl; [case_bool_decide; [|case_bool_decide]|]; intros Hx;
    apply IH in Hx as [Hx|[]]; try set_solver.
  apply list_elem_of_lookup in Hx as [j Hj]. apply list_lookup_insert_Some in Hj as [(_ & <- & _)|[_ Hj]].
  - set_solver.
  - left. by eapply list_elem_of_lookup_2.
Qed.

Lemma sample_loop_nonempty {V} score keep n idx (sample : list (bytes * V * Z)) kvs :
  0 < n -> sample_loop score keep n idx sample kvs = [] ->
  sample = [] /\ forall kv, kv ∈ kvs -> keep kv = false.
Proof.
  intros Hn. revert idx sample. induction kvs as [|kv kvs IH]; intros idx sample; simpl; [set_solver|].
  destruct (keep kv) eqn:Ek; simpl; [case_bool_decide; [|case_bool_decide]|]; intros Hx;
    apply IH in Hx as [Hs Hk].
  - by destruct sample.
  - apply (f_equal length) in Hs. rewrite length_insert in Hs. simpl in Hs. lia.
  - subst. simpl in *. lia.
  - split; [done|]. intros x [->|Hx]%elem_of_cons; auto.
Qed.

Lemma min_by_score_elem {V} best (l : list (bytes * V * Z)) x :
  min_by_score best l = Some x -> best = Some x \/ x ∈ l.
Proof.
  revert best. induction l as [|y l IH]; intros best; simpl; [by left|].
  destruct best as [b|]; intros Hx; apply IH in Hx as [Hx|]; try set_solver.
  case_bool_decide; simplify_eq; [right; set_solver|by left].
Qed.

Lemma min_by_score_None {V} best (l : list (bytes * V * Z)) :
  min_by_score best l = None -> best = None /\ l = [].
Proof.
  revert best. induction l as [|y l IH]; intros best; simpl; [done|].
  destruct best as [b|]; intros Hx; apply IH in Hx as [Hx _]; [|done]. by case_bool_decide.
Qed.

(** The sampled victim is an entry the filter keeps, and there is one whenever
    some entry passes the filter. *)
Lemma sample_lru_victim_spec {V} score keep n (kvs : list (bytes * V)) : 0 < n ->
  match sample_lru_victim score keep n kvs with
  | Some kv => kv ∈ kvs /\ keep kv = true
  | None => forall kv, kv ∈ kvs -> keep kv = false
  end.
Proof.
  intros Hn. unfold sample_lru_victim. destruct (min_by_score _ _) as [x|] eqn:E; simpl.
  - apply min_by_score_elem in E as [|E]; [done|]. apply sample_loop_elem in E as [|]; [set_solver|done].
  - apply min_by_score_None in E as [_ E]. by apply sample_loop_nonempty in E as [_ E].
Qed.

(** Which entries a policy may evict. *)
Definition evictable (now : Z) (policy : MaxMemoryPolicy) (e : Entry.t) : Prop :=
  match policy with
  | NoEviction => False
  | AllKeysRandom | AllKeysLru => True
  | VolatileRandom | VolatileLru => is_Some (Entry.expiry e) /\ Entry.is_expired now e = false
  | VolatileTtl => is_Some (Entry.expiry e)
  end.

(** The victim each policy chooses. *)
Definition victim (now : Z) (policy : MaxMemoryPolicy) (d : t) : option bytes :=
  match policy with
  | NoEviction => None
  | AllKeysRandom => head (hm_iter (entries d)).*1
  | VolatileRandom => fst <$> head (filter (fun kv => volatile now kv) (hm_iter (entries d)))
  | AllKeysLru => fst <$> sample_lru_victim (fun kv => Entry.lru_clock kv.2) (fun _ => true) 5 (hm_iter (entries d))
  | VolatileLru => fst <$> sample_lru_victim (fun kv => Entry.lru_clock kv.2) (volatile now) 5 (hm_iter (entries d))
  | VolatileTtl => snd <$> head (btree_iter (expiry_index d))
  end.

Lemma evict_one_victim now policy d : evict_one now policy d = evict_key (victim now policy d) d.
Proof. by destruct policy. Qed.

Lemma hm_elem {V} (m : gmap bytes V) kv : kv ∈ hm_iter m <-> m !! kv.1 = Some kv.2.
Proof. rewrite hm_iter_perm. destruct kv. apply elem_of_map_to_list. Qed.

Lemma volatile_spec now kv : volatile now kv = true <->
  is_Some (Entry.expiry kv.2) /\ Entry.is_expired now kv.2 = false.
Proof. unfold volatile. rewrite andb_true_iff, bool_decide_eq_true, negb_true_iff. done. Qed.

Lemma victim_spec now policy d : wf d ->
  match victim now policy d with
  | Some k => exists e, entries d !! k = Some e /\ evictable now policy e
  | None => forall k e, entries d !! k = Some e -> ~ evictable now policy e
  end.
Proof.
  intros W.
  assert (Sampled : forall keep, (forall kv, keep kv = true <-> evictable now policy kv.2) ->
    match fst <$> sample_lru_victim (fun kv => Entry.lru_clock kv.2) keep 5 (hm_iter (entries d)) with
    | Some k => exists e, entries d !! k = Some e /\ evictable now policy e
    | None => forall k e, entries d !! k = Some e -> ~ evictable now policy e
    end).
  { intros keep Hk. pose proof (sample_lru_victim_spec (fun kv => Entry.lru_clock kv.2) keep 5 (hm_iter (entries d)) ltac:(lia)) as V.
    destruct (sample_lru_victim _ _ _ _) as [[k e]|]; simpl.
    - destruct V as [V1 V2]. apply hm_elem in V1. apply Hk in V2. eauto.
    - intros k e E Ha. specialize (V (k, e) (proj2 (hm_elem _ (k, e)) E)).
      apply (Hk (k, e)) in Ha. congruence. }
  destruct policy; simpl; try (intros; tauto).
  - destruct (hm_iter (entries d)) as [|[k e] l] eqn:E; simpl.
    + intros k e Ek _. apply (hm_elem _ (k, e)) in Ek. rewrite E in Ek. set_solver.
    + exists e. split; [|done]. apply (hm_elem _ (k, e)). rewrite E. set_solver.
  - apply Sampled. done.
  - destruct (filter _ (hm_iter (entries d))) as [|[k e] l] eqn:E; simpl.
    + intros k e Ek Ha. apply (hm_elem _ (k, e)) in Ek. apply (volatile_spec now (k, e)) in Ha.
      assert (Hin : (k, e) ∈ filter (fun kv => volatile now kv) (hm_iter (entries d)))
        by (apply list_elem_of_filter; by rewrite Is_true_true).
      rewrite E in Hin. set_solver.
    + assert (Hin : (k, e) ∈ filter (fun kv => volatile now kv) (hm_iter (entries d))) by (rewrite E; set_solver).
      apply list_elem_of_filter in Hin as [Hv Hin]. exists e. apply (hm_elem _ (k, e)) in Hin.
      split; [done|]. by apply (volatile_spec now (k, e)), Is_true_true.
  - apply Sampled. apply volatile_spec.
  - destruct (btree_iter (expiry_index d)) as [|[ms k] l] eqn:E; simpl.
    + intros k e Ek [x Hx]. assert (Hin : (Expiry.expires_at_ms x, k) ∈ btree_iter (expiry_index d)).
      { apply elem_of_btree_iter, (wf_index _ W). exists (Some e). simpl. split; [done|].
        unfold deadlines. simpl. rewrite Hx. set_solver. }
      rewrite E in Hin. set_solver.
    + assert (Hin : (ms, k) ∈ expiry_index d) by (apply elem_of_btree_iter; rewrite E; set_solver).
      destruct (index_entry _ _ _ W Hin) as (e & Ee & Hd). exists e. split; [done|].
      unfold deadlines, deadline_of in Hd. simpl in Hd. destruct (Entry.expiry e); [done|set_solver].
Qed.

(** Eviction follows its policy: it removes exactly one entry that the policy may
    evict - any entry, one with a deadline, or the one with the soonest deadline -
    giving back at least the per-entry overhead, keeps index, counter and versions
    exact, and gives up only when no entry qualifies. *)
Theorem evict_one_follows_policy now policy d : wf d ->
  let '(r, d') := evict_one now policy d in
  wf d' /\
  match r with
  | Some k => exists e, entries d !! k = Some e /\ evictable now policy e /\
      entries d' = delete k (entries d) /\ (live_bytes d' + 64 <= live_bytes d)%Z /\
      (policy = VolatileTtl -> forall p, p ∈ expiry_index d ->
         exists ms, deadlines k (Some e) = {[ (ms, k) ]} /\ (ms <= p.1)%Z)
  | None => d' = d /\ forall k e, entries d !! k = Some e -> ~ evictable now policy e
  end.
Proof.
  intros W. rewrite evict_one_victim. pose proof (victim_spec now policy d W) as V.
  destruct (victim now policy d) as [k|] eqn:Ev; unfold evict_key; [|done].
  destruct V as (e & E & Ha). pose proof (remove_changes k d) as C.
  pose proof (wf_shrink _ _ _ W C) as W'. split; [done|]. exists e. split_and!; [done|done|apply C| |].
  - rewrite (wf_live _ W), (wf_live _ W'). unfold total_bytes. rewrite (ch_entries _ _ _ _ C).
    pose proof (map_total_alter estimate_entry_size (entries d) k None) as Ht. rewrite E in Ht.
    simpl in Ht. unfold estimate_entry_size at 2 in Ht. lia.
  - intros -> [ms' j] Hp. simpl in *. destruct (btree_iter (expiry_index d)) as [|[ms k'] l] eqn:El; simplify_eq/=.
    assert (Hin : (ms, k) ∈ expiry_index d) by (apply elem_of_btree_iter; rewrite El; set_solver).
    destruct (index_entry _ _ _ W Hin) as (e' & Ee & Hd). simplify_eq. exists ms. split; [done|].
    apply elem_of_btree_iter in Hp. rewrite El in Hp. apply elem_of_cons in Hp as [|Hp]; [simplify_eq; lia|].
    pose proof (btree_iter_sorted (expiry_index d)) as Hs. rewrite El in Hs.
    apply StronglySorted_inv in Hs as [_ Hs]. rewrite Forall_forall in Hs.
    destruct (Hs _ Hp) as [|[]]; simpl in *; lia.
Qed.
End Claims.

(** ** A run *)

Section Sample.
#[local] Existing Instance SetData.vec_index_set.
#[local] Existing Instance canonical_order.

(** Three keys, two of them with deadlines, one incremented. *)
Definition sample_history : list (Z * db_op) :=
  [ (100%Z, OSetPlain (bstr "a") (bstr "41"));
    (100%Z, OInsert (bstr "b") (Entry.with_expiry (TString (bstr "x")) (Expiry.from_ms 150)));
    (110%Z, OInsert (bstr "c") (Entry.with_expiry (TString (bstr "yy")) (Expiry.from_ms 140)));
    (120%Z, OIncr (bstr "a") 1);
    (130%Z, OUpdate (bstr "b") (fun _ => TString (bstr "xyz")))].

Lemma sample_history_ok : history_ok 0 (sample_history ++ [(145%Z, OGet (bstr "c")); (145%Z, OGet (bstr "b"))]) new.
Proof. repeat split; vm_compute; congruence. Qed.

Definition sample_db : t := (run sample_history new).2.

Lemma sample_db_wf : wf sample_db.
Proof.
  assert (Hh : history_ok 0 sample_history new) by (repeat split; vm_compute; congruence).
  apply (db_run_refines sample_history 0 new ∅ wf_new); [|exact Hh].
  intros t _. simpl. by rewrite fmap_empty.
Qed.

(** A reply of the sample: a string, a truth value or a number. *)
Inductive plain_reply := PUnit | PText (v : bytes) | PMissing | PBool (b : bool) | PNumber (n : Z) | POther.

Definition plain (r : db_reply) : plain_reply :=
  match r with
  | RUnit => PUnit
  | RValue (Some (TString v)) => PText v
  | RValue None => PMissing
  | RBool b => PBool b
  | RNumber (inr n) => PNumber n
  | _ => POther
  end.


Lemma expire_batch_earliest_first_witness :
  (expire_batch 160 1 sample_db).1 = [bstr "c"] /\ wf (expire_batch 160 1 sample_db).2.
Proof.
  split; [vm_compute; reflexivity|].
  pose proof (expire_batch_earliest_first 160 1 sample_db sample_db_wf) as B.
  destruct (expire_batch 160 1 sample_db) as [deleted d']. exact (proj1 B).
Defined.

Lemma expire_cycle_clears_witness :
  (expire_cycle (fun _ => 160%Z) sample_db).1 = ([bstr "c"; bstr "b"], 1) /\
  wf (expire_cycle (fun _ => 160%Z) sample_db).2.
Proof.
  split; [vm_compute; reflexivity|].
  pose proof (expire_cycle_clears (fun _ => 160%Z) sample_db sample_db_wf) as B.
  destruct (expire_cycle (fun _ => 160%Z) sample_db) as [[deleted rounds] d']. exact (proj1 B).
Defined.

Lemma evict_one_follows_policy_witness :
  (evict_one 120 VolatileTtl sample_db).1 = Some (bstr "c") /\ wf (evict_one 120 VolatileTtl sample_db).2.
Proof.
  split; [vm_compute; reflexivity|].
  pose proof (evict_one_follows_policy 120 VolatileTtl sample_db sample_db_wf) as B.
  destruct (evict_one 120 VolatileTtl sample_db) as [r d']. exact (proj1 B).
Defined.
End Sample.
