(* ===== verification/Shards.v ===== *)
(** * Shards: the sharded keyspace ([store.rs], [ShardedDatabase])

    A logical database is a power-of-two array of shards; FNV-1a of the key picks
    one.  Operations that span two shards hold both locks, so they are one step
    here; shards are addressed by index, which covers the branch where source and
    destination share a shard and the one where they do not.  Lock acquisition
    itself (spinning, parking, ordering) is not modelled. *)

From S2P Require Import Prelude Text Glob Types Keyspace.
From S2P Require ListData SetData.

(** FNV-1a, 64 bits. *)
Definition fnv1a (key : bytes) : Z :=
  fold_left (fun h b => wrap64 (Z.lxor h (byte_val b) * 0x100000001b3)) key 0xcbf29ce484222325%Z.

(** ** Order of SCAN ([command/mod.rs]) *)

Definition scan_cursor_token (key : bytes) : Z :=
  let h := fnv1a key in
  if bool_decide (h < 2 ^ 32)%Z then (h + 2 ^ 32)%Z else h.

(** The low [n] bits in reverse order. *)
Fixpoint rev_bits (n : nat) (z : Z) : Z :=
  match n with
  | 0 => 0
  | S n => Z.lor (Z.shiftl (Z.land z 1) (Z.of_nat n)) (rev_bits n (Z.shiftr z 1))
  end.

(** [u64::reverse_bits]. *)
Definition reverse_bits (z : Z) : Z := rev_bits 64 z.

Definition scan_order_key (key : bytes) : Z := reverse_bits (scan_cursor_token key).

(** [usize::trailing_zeros] of a power of two. *)
Definition trailing_zeros (n : nat) : Z := Z.log2 (Z.of_nat n).

(** The order of a batch: order key, then bytes. *)
Definition scan_le (a b : Z * bytes) : Prop := deadline_le a b.

#[export] Instance scan_le_dec a b : Decision (scan_le a b).
Proof. unfold scan_le. apply _. Defined.

(** [sort_unstable_by_key]: some permutation with ascending keys; the order of
    equal keys is not specified. *)
Class UnstableSort := {
  sort_by_fst : forall {V : Type}, list (nat * V) -> list (nat * V);
  sort_by_fst_perm : forall (V : Type) (l : list (nat * V)), sort_by_fst l ≡ₚ l;
  sort_by_fst_sorted : forall (V : Type) (l : list (nat * V)),
    StronglySorted (fun a b => a.1 <= b.1) (sort_by_fst l);
}.

Module ShardedDatabase.
Section ShardedDatabase.
Context `{SetData.IndexSet}.

Record t := mk { shards : list Database.t; num_shards : nat }.

Definition new (num_shards : nat) : t :=
  {| shards := replicate num_shards Database.new; num_shards := num_shards |}.

Definition shard_idx (s : t) (key : bytes) : nat :=
  Z.to_nat (Z.land (fnv1a key) (Z.of_nat (num_shards s) - 1)).

Definition shard_count (s : t) : nat := num_shards s.

Definition set_shards (ds : list Database.t) (s : t) : t :=
  {| shards := ds; num_shards := num_shards s |}.

(** The body of an operation under the guard of shard [idx]. *)
Definition on_shard {A} (idx : nat) (f : Database.t -> may_panic (A * Database.t)) (s : t) :
    may_panic (A * t) :=
  d ← shards s !! idx;
  '(r, d) ← f d;
  Some (r, set_shards (<[idx := d]> (shards s)) s).

Definition write_for {A} (key : bytes) (f : Database.t -> A * Database.t) (s : t) : may_panic (A * t) :=
  on_shard (shard_idx s key) (fun d => Some (f d)) s.

Definition read_for {A} (key : bytes) (f : Database.t -> A) (s : t) : may_panic A :=
  d ← shards s !! shard_idx s key; Some (f d).

(** The fast path under the read lock, then the slow one. *)
Definition incr_int (now : Z) (key : bytes) (delta : Z) (s : t) : may_panic ((NexradeError + Z) * t) :=
  d ← shards s !! shard_idx s key;
  match Database.get_ro now key d with
  | Some (Entry.mk (TInt cell) x lru) =>
      let '(r, cell) := AtomicIntCell.checked_add cell delta in
      let d := Database.write_back key (Entry.mk (TInt cell) x lru) d in
      Some (match r with Some n => inr n | None => inl Overflow end,
            set_shards (<[shard_idx s key := d]> (shards s)) s)
  | _ => write_for key (Database.incr_int now key delta) s
  end.

Definition set_lru_clock (clock : Z) (s : t) : t :=
  set_shards (Database.set_lru_clock clock <$> shards s) s.

(** The loop body of [flush]; the removal counter is left alone. *)
Definition flush_shard (d : Database.t) : Database.t :=
  Database.set_live 0 (Database.set_versions ∅ (Database.set_index ∅ (Database.set_entries ∅ d))).

Definition flush (s : t) : t := set_shards (flush_shard <$> shards s) s.

Definition len (s : t) : nat := sum_list_with Database.len (shards s).

Definition is_empty (s : t) : bool := forallb Database.is_empty (shards s).

Definition expiry_count (s : t) : nat :=
  sum_list_with (fun d => size (Database.expiry_index d)) (shards s).

(** Runs a step on every shard in turn, appending what each returns. *)
Fixpoint each_shard {A} (f : Database.t -> list A * Database.t) (ds : list Database.t) :
    list A * list Database.t :=
  match ds with
  | [] => ([], [])
  | d :: ds =>
      let '(r, d) := f d in
      let '(rs, ds) := each_shard f ds in
      (r ++ rs, d :: ds)
  end.

(** [max_total / num_shards] panics on an empty array of shards. *)
Definition expire_batch (now : Z) (max_total : nat) (s : t) : may_panic (list bytes * t) :=
  if bool_decide (num_shards s = 0) then None
  else
    let per_shard := (max_total / num_shards s) `max` 1 in
    let '(deleted, ds) := each_shard (Database.expire_batch now per_shard) (shards s) in
    Some (deleted, set_shards ds s).

(** The [u32] total of rounds saturates. *)
Fixpoint expire_cycle_loop (clock : nat -> Z) (rounds : Z) (ds : list Database.t) :
    list bytes * Z * list Database.t :=
  match ds with
  | [] => ([], rounds, [])
  | d :: ds =>
      let '(deleted, r, d) := Database.expire_cycle clock d in
      let rounds := Z.min (2 ^ 32 - 1) (rounds + Z.of_nat r) in
      let '(total, rounds, ds) := expire_cycle_loop clock rounds ds in
      (deleted ++ total, rounds, d :: ds)
  end.

Definition expire_cycle (clock : nat -> Z) (s : t) : list bytes * Z * t :=
  let '(total, rounds, ds) := expire_cycle_loop clock 0 (shards s) in
  (total, rounds, set_shards ds s).

Definition live_bytes (s : t) : Z := fold_left (fun a d => wrap64 (a + Database.live_bytes d)) (shards s) 0%Z.

Definition estimated_memory_bytes (s : t) : Z := live_bytes s.

(** ** Two keys *)

(** Lock order: the lower index first; the flag says that the guards are swapped. *)
Definition lock_two (si di : nat) : nat * option nat * bool :=
  if bool_decide (si = di) then (si, None, false)
  else
    let swapped := bool_decide (di < si) in
    let '(lo, hi) := if swapped then (di, si) else (si, di) in
    (lo, Some hi, swapped).

(** The shards the two guards name, source first. *)
Definition guards (g : nat * option nat * bool) : nat * nat :=
  match g with
  | (lo, Some hi, swapped) => if swapped then (hi, lo) else (lo, hi)
  | (lo, None, _) => (lo, lo)
  end.

Definition rename (src dst : bytes) (s : t) : may_panic (option unit * t) :=
  let '(si, di) := guards (lock_two (shard_idx s src) (shard_idx s dst)) in
  '(removed, s) ← on_shard si (fun d => Some (Database.remove src d)) s;
  match removed with
  | None => Some (None, s)
  | Some entry =>
      '(_, s) ← on_shard di (fun d => Some ((), Database.insert dst entry d)) s;
      Some (Some (), s)
  end.

Definition renamenx (now : Z) (src dst : bytes) (s : t) : may_panic (option Z * t) :=
  let '(si, di) := guards (lock_two (shard_idx s src) (shard_idx s dst)) in
  '(present, s) ← on_shard di (fun d => Some (Database.contains_key now dst d)) s;
  if (present : bool) then Some (Some 0%Z, s)
  else
    '(removed, s) ← on_shard si (fun d => Some (Database.remove src d)) s;
    match removed with
    | None => Some (None, s)
    | Some entry =>
        '(_, s) ← on_shard di (fun d => Some ((), Database.insert dst entry d)) s;
        Some (Some 1%Z, s)
    end.

(** [Entry::clone]: the value is cloned, the rest copied. *)
Definition clone_entry (e : Entry.t) : Entry.t := Entry.set_value (clone (Entry.value e)) e.

Definition copy_entry (now : Z) (src dst : bytes) (replace : bool) (s : t) : may_panic (bool * t) :=
  let '(si, di) := guards (lock_two (shard_idx s src) (shard_idx s dst)) in
  '(present, s) ←
    (if replace then Some (false, s)
     else on_shard di (fun d => Some (Database.contains_key now dst d)) s);
  if (present : bool) then Some (false, s)
  else
    '(found, s) ← on_shard si (fun d => Some (Database.get now src d)) s;
    match found with
    | None => Some (false, s)
    | Some e =>
        '(_, s) ← on_shard di (fun d => Some ((), Database.insert dst (clone_entry e) d)) s;
        Some (true, s)
    end.

(** ** LMOVE *)

Section Lists.
Context (thr : ListData.ListThresholds).

(** [pop_list]: the popped value, the payload delta and whether the list is empty. *)
Definition pop_list (now : Z) (key : bytes) (from_left : bool) (d : Database.t) :
    may_panic ((NexradeError + option (bytes * Z * bool)) * Database.t) :=
  match Database.get_mut now key d with
  | (None, d) => Some (inr None, d)
  | (Some entry, d) =>
      match Entry.value entry with
      | TList l =>
          '(val, l) ← (if from_left then ListData.pop_front thr l else ListData.pop_back thr l);
          let d := Database.write_back key (Entry.set_value (TList l) entry) d in
          match val with
          | Some v => Some (inr (Some (v, (- Z.of_nat (length v))%Z, ListData.is_empty l)), d)
          | None => Some (inr None, d)
          end
      | _ => Some (inl WrongType, d)
      end
  end.

(** [push_list]: returns the payload delta. *)
Definition push_list (now : Z) (key val : bytes) (to_left : bool) (d : Database.t) :
    may_panic (Z * Database.t) :=
  let n := Z.of_nat (length val) in
  let '(entry, d) := Database.get_or_insert_with now key (Entry.new (TList ListData.new)) d in
  d ← match Entry.value entry with
      | TList l =>
          l ← (if to_left then ListData.push_front thr l val else ListData.push_back thr l val);
          Some (Database.write_back key (Entry.set_value (TList l) entry) d)
      | _ => Some d
      end;
  Some (n, Database.bump_version key d).

Definition dst_ok (now : Z) (dst : bytes) (d : Database.t) : bool :=
  match Database.get_ro now dst d with
  | None => true
  | Some e => match Entry.value e with TList _ => true | _ => false end
  end.

(** The pop, the counter and the removal of an emptied list. *)
Definition pop_and_gc (now : Z) (src : bytes) (from_left : bool) (d : Database.t) :
    may_panic ((NexradeError + option bytes) * Database.t) :=
  '(r, d) ← pop_list now src from_left d;
  match r with
  | inl e => Some (inl e, d)
  | inr None => Some (inr None, d)
  | inr (Some (val, src_delta, emptied)) =>
      let d := Database.adjust_live_bytes src_delta d in
      let d := if (emptied : bool) then (Database.remove_empty_key src d).2 else d in
      Some (inr (Some val), d)
  end.

Definition push_and_count (now : Z) (dst val : bytes) (to_left : bool) (d : Database.t) :
    may_panic (unit * Database.t) :=
  '(dst_delta, d) ← push_list now dst val to_left d;
  Some ((), Database.adjust_live_bytes dst_delta d).

Definition lmove_atomic (now : Z) (src dst : bytes) (from_left to_left : bool) (s : t) :
    may_panic ((NexradeError + option bytes) * t) :=
  let '(si, di) := guards (lock_two (shard_idx s src) (shard_idx s dst)) in
  dst_s ← shards s !! di;
  if negb (dst_ok now dst dst_s) then Some (inl WrongType, s)
  else
    '(r, s) ← on_shard si (pop_and_gc now src from_left) s;
    match r with
    | inr (Some val) =>
        '(_, s) ← on_shard di (push_and_count now dst val to_left) s;
        Some (inr (Some val), s)
    | _ => Some (r, s)
    end.
End Lists.

(** ** SMOVE *)

Section Sets.
Context (thr : SetData.SetThresholds).

(** Looks at the map, not at the deadline. *)
Definition dst_is_usable (dst : bytes) (d : Database.t) : bool :=
  match Database.entries d !! dst with
  | None => true
  | Some e => match Entry.value e with TSet _ => true | _ => false end
  end.

(** The removal from the source: whether the member was there. *)
Definition take_member (now : Z) (src member : bytes) (d : Database.t) :
    may_panic ((NexradeError + bool) * Database.t) :=
  match Database.get_mut now src d with
  | (None, d) => Some (inr false, d)
  | (Some e, d) =>
      match Entry.value e with
      | TSet v =>
          '(removed, src_delta, v) ← SetData.remove thr v member;
          let d := Database.write_back src (Entry.set_value (TSet v) e) d in
          if negb removed then Some (inr false, d)
          else
            let d := Database.adjust_live_bytes src_delta d in
            let d := if SetData.is_empty v then (Database.remove_empty_key src d).2 else d in
            Some (inr true, d)
      | _ => Some (inl WrongType, d)
      end
  end.

Definition put_member (now : Z) (dst member : bytes) (d : Database.t) : may_panic (unit * Database.t) :=
  let '(e, d) := Database.get_or_insert_with now dst (Entry.new (TSet SetData.new)) d in
  '(dst_delta, d) ←
    match Entry.value e with
    | TSet v =>
        '(_, delta, v) ← SetData.insert thr v member;
        Some (delta, Database.write_back dst (Entry.set_value (TSet v) e) d)
    | _ => Some (0%Z, d)
    end;
  Some ((), Database.bump_version dst (Database.adjust_live_bytes dst_delta d)).

Definition smove_atomic (now : Z) (src dst member : bytes) (s : t) : may_panic ((NexradeError + Z) * t) :=
  let '(si, di) := guards (lock_two (shard_idx s src) (shard_idx s dst)) in
  dst_s ← shards s !! di;
  if negb (dst_is_usable dst dst_s) then Some (inl WrongType, s)
  else
    '(r, s) ← on_shard si (take_member now src member) s;
    match r with
    | inl e => Some (inl e, s)
    | inr false => Some (inr 0%Z, s)
    | inr true =>
        '(_, s) ← on_shard di (put_member now dst member) s;
        Some (inr 1%Z, s)
    end.
End Sets.

(** ** MSET *)

Definition TaggedPair : Type := nat * (bytes * Entry.t).

(** Distinct neighbours of the sorted tags. *)
Fixpoint shard_indices (last : option nat) (tags : list nat) : list nat :=
  match tags with
  | [] => []
  | i :: tags => if bool_decide (last = Some i) then shard_indices last tags else i :: shard_indices (Some i) tags
  end.

Definition tag_and_sort_pairs `{UnstableSort} (s : t) (pairs : list (bytes * Entry.t)) :
    list TaggedPair * list nat :=
  let tagged := sort_by_fst (map (fun p => (shard_idx s p.1, p)) pairs) in
  (tagged, shard_indices None tagged.*1).

(** [while si[gi] != shard { gi += 1 }]: the rest of [si] from the guard found. *)
Fixpoint seek (shard : nat) (si : list nat) : may_panic (list nat) :=
  match si with
  | [] => None
  | i :: rest => if bool_decide (i = shard) then Some si else seek shard rest
  end.

Fixpoint commit_tagged_mset (si : list nat) (tagged : list TaggedPair) (s : t) : may_panic t :=
  match tagged with
  | [] => Some s
  | (shard, (key, entry)) :: tagged =>
      si ← seek shard si;
      '(_, s) ← on_shard shard (fun d => Some ((), Database.insert key entry d)) s;
      commit_tagged_mset si tagged s
  end.

(** One shard or several: the single-shard path is the same loop under one guard. *)
Definition mset `{UnstableSort} (pairs : list (bytes * Entry.t)) (s : t) : may_panic t :=
  match pairs with
  | [] => Some s
  | _ => let '(tagged, si) := tag_and_sort_pairs s pairs in commit_tagged_mset si tagged s
  end.

(** The check loop of [commit_tagged_msetnx]: no key exists. *)
Fixpoint all_free (now : Z) (si : list nat) (tagged : list TaggedPair) (s : t) : may_panic bool :=
  match tagged with
  | [] => Some true
  | (shard, (key, _)) :: tagged =>
      si ← seek shard si;
      d ← shards s !! shard;
      if bool_decide (is_Some (Database.get_ro now key d)) then Some false
      else all_free now si tagged s
  end.

Definition commit_tagged_msetnx (now : Z) (si : list nat) (tagged : list TaggedPair) (s : t) : may_panic (bool * t) :=
  free ← all_free now si tagged s;
  if (free : bool) then s ← commit_tagged_mset si tagged s; Some (true, s) else Some (false, s).

Definition msetnx `{UnstableSort} (now : Z) (pairs : list (bytes * Entry.t)) (s : t) : may_panic (bool * t) :=
  match pairs with
  | [] => Some (true, s)
  | _ => let '(tagged, si) := tag_and_sort_pairs s pairs in commit_tagged_msetnx now si tagged s
  end.
End ShardedDatabase.

Section Iteration.
Context `{SetData.IndexSet} `{HashOrder}.

Definition keys_matching (now : Z) (pattern : bytes) (s : t) : list bytes * t :=
  let '(keys, ds) := each_shard (Database.keys_matching now pattern) (shards s) in
  (keys, set_shards ds s).

(** The first shard that gives up a key. *)
Fixpoint evict_loop (now : Z) (policy : MaxMemoryPolicy) (ds : list Database.t) : option bytes * list Database.t :=
  match ds with
  | [] => (None, [])
  | d :: ds =>
      match Database.evict_one now policy d with
      | (Some k, d) => (Some k, d :: ds)
      | (None, d) => let '(r, ds) := evict_loop now policy ds in (r, d :: ds)
      end
  end.

Definition evict_one (now : Z) (policy : MaxMemoryPolicy) (s : t) : option bytes * t :=
  let '(r, ds) := evict_loop now policy (shards s) in (r, set_shards ds s).

(** One shard merged into the snapshot; the byte counter stays at zero. *)
Definition snapshot_shard (db d : Database.t) : Database.t :=
  let db := fold_left (fun db kv =>
      Database.write_back kv.1 (clone_entry kv.2) (Database.index_expiry kv.1 (Entry.expiry kv.2) db))
    (hm_iter (Database.entries d)) db in
  Database.set_versions
    (fold_left (fun m kv => <[kv.1 := kv.2]> m) (hm_iter (Database.key_versions d)) (Database.key_versions db)) db.

Definition snapshot (s : t) : Database.t := fold_left snapshot_shard (shards s) Database.new.

Fixpoint first_key (ds : list Database.t) : option bytes :=
  match ds with
  | [] => None
  | d :: ds =>
      match head (hm_iter (Database.entries d)).*1 with
      | Some k => Some k
      | None => first_key ds
      end
  end.

Definition random_key (s : t) : option bytes := first_key (shards s).

(** ** SCAN pages *)

Section Scan.
Context (now : Z) (pattern : bytes) (order_key : bytes -> Z) (keep : bytes -> Entry.t -> bool).

(** Strictly past the cursor, in the shard the cursor came from. *)
Definition after_cursor (within : option Z) (p : Z * bytes) : bool :=
  match within with Some c => bool_decide (c < p.1)%Z | None => true end.

(** The candidates of one shard, in order. *)
Definition scan_batch (within : option Z) (d : Database.t) : list (Z * bytes) :=
  merge_sort scan_le
    (filter (fun p => after_cursor within p)
       (map (fun kv => (order_key kv.1, kv.1))
          (filter (fun kv => negb (Entry.is_expired now kv.2) && glob_match pattern kv.1 && keep kv.1 kv.2)
             (hm_iter (Database.entries d))))).

(** Pushes a batch; [Some c] when the page is full, with the cursor. *)
Fixpoint fill_page (count : nat) (page : list bytes) (batch : list (Z * bytes)) : list bytes * option Z :=
  match batch with
  | [] => (page, None)
  | (ok, k) :: batch =>
      let page := page ++ [k] in
      if bool_decide (length page = count) then (page, Some ok) else fill_page count page batch
  end.

Definition shard_for_step (s : t) (step : nat) : nat :=
  Z.to_nat (Z.shiftr (reverse_bits (Z.of_nat step)) (64 - trailing_zeros (num_shards s))).

Fixpoint scan_steps (s : t) (count : nat) (within : option Z) (page : list bytes) (steps : list nat) :
    may_panic (list bytes * Z) :=
  match steps with
  | [] => Some (page, 0%Z)
  | step :: steps =>
      d ← shards s !! shard_for_step s step;
      match fill_page count page (scan_batch within d) with
      | (page, Some c) => Some (page, c)
      | (page, None) => scan_steps s count None page steps
      end
  end.

(** With one shard the shift by 64 overflows. *)
Definition scan_page (cursor : Z) (count : nat) (s : t) : may_panic (list bytes * Z) :=
  let count := count `max` 1 in
  let shift := trailing_zeros (num_shards s) in
  if bool_decide (shift = 0)%Z then None
  else
    let start_step := if bool_decide (cursor = 0)%Z then 0 else Z.to_nat (Z.shiftr cursor (64 - shift)) in
    scan_steps s count (Some cursor) [] (seq start_step (num_shards s - start_step)).
End Scan.
End Iteration.
End ShardedDatabase.
