(* ===== verification/ShardsSpec.v ===== *)
(** * ShardsSpec: the sharded keyspace is one keyspace

    [swf] says that every shard is well formed and holds only keys that route to
    it; [slot] reads the keyspace as one function of the key.  A step on one key
    is [assigns]; moves between keys are two such steps. *)

From S2P Require Import Prelude Text Glob Types Keyspace KeyspaceInvariant KeyspaceSpec Shards.
From S2P Require ListData SetData.

Import ShardedDatabase.

#[local] Arguments Database.remove : simpl never.
#[local] Arguments Database.insert : simpl never.
#[local] Arguments Database.get : simpl never.

Section Routing.
Context `{SetData.IndexSet}.
Implicit Types (s : t) (k : bytes) (e : Entry.t) (o : option Entry.t).

Record swf s : Prop := mk_swf {
  swf_pow : exists b, 0 < b <= 32 /\ num_shards s = 2 ^ b;
  swf_len : length (shards s) = num_shards s;
  swf_shards : Forall wf (shards s);
  swf_routed : forall i d k, shards s !! i = Some d -> is_Some (Database.entries d !! k) -> shard_idx s k = i;
}.

(** The entry of a key, wherever it is stored. *)
Definition slot s k : option Entry.t := d ← shards s !! shard_idx s k; Database.entries d !! k.

Lemma fnv1a_nonneg k : (0 <= fnv1a k)%Z.
Proof.
  unfold fnv1a. assert (H0 : (0 <= 0xcbf29ce484222325)%Z) by done. revert H0.
  generalize 0xcbf29ce484222325%Z. induction k as [|b k IH]; intros h Hh; simpl; [done|].
  apply IH. apply wrap64_range.
Qed.

(** The mask keeps the index below a power of two. *)
Lemma shard_idx_mod s b k : num_shards s = 2 ^ b ->
  Z.of_nat (shard_idx s k) = (fnv1a k mod 2 ^ Z.of_nat b)%Z.
Proof.
  intros E. unfold shard_idx. rewrite E, Nat2Z.inj_pow.
  replace (Z.of_nat 2 ^ Z.of_nat b - 1)%Z with (Z.ones (Z.of_nat b)).
  - rewrite Z.land_ones by lia. pose proof (Z.mod_pos_bound (fnv1a k) (2 ^ Z.of_nat b)). lia.
  - rewrite Z.ones_equiv. change (Z.of_nat 2) with 2%Z. lia.
Qed.

Lemma shard_idx_lt s k : swf s -> shard_idx s k < length (shards s).
Proof.
  intros W. destruct (swf_pow _ W) as (b & _ & E). rewrite (swf_len _ W), E.
  pose proof (shard_idx_mod s b k E). pose proof (Z.mod_pos_bound (fnv1a k) (2 ^ Z.of_nat b)).
  assert (Z.of_nat (2 ^ b) = 2 ^ Z.of_nat b)%Z by (rewrite Nat2Z.inj_pow; done). lia.
Qed.

Lemma shard_of s k : swf s -> exists d, shards s !! shard_idx s k = Some d /\ wf d /\ slot s k = Database.entries d !! k.
Proof.
  intros W. destruct (lookup_lt_is_Some_2 _ _ (shard_idx_lt s k W)) as [d Hd]. exists d.
  split_and!; [done| |unfold slot; by rewrite Hd].
  eapply Forall_lookup_1; [apply (swf_shards _ W)|done].
Qed.

Lemma slot_found s i d k e : swf s -> shards s !! i = Some d -> Database.entries d !! k = Some e -> slot s k = Some e.
Proof.
  intros W Hd He. unfold slot. rewrite (swf_routed _ W i d k) by eauto. by rewrite Hd.
Qed.

(** One key was assigned, in its own shard; the rest is as it was. *)
Definition assigns s s' k o : Prop :=
  num_shards s' = num_shards s /\ forall j, slot s' j = if decide (j = k) then o else slot s j.

Lemma shard_idx_num s s' k : num_shards s' = num_shards s -> shard_idx s' k = shard_idx s k.
Proof. unfold shard_idx. by intros ->. Qed.

(** The map of a shard changed at one key only. *)
Definition stores d d' k o : Prop := Database.entries d' = partial_alter (fun _ => o) k (Database.entries d).

Definition put_shard s k (d : Database.t) : t := set_shards (<[shard_idx s k := d]> (shards s)) s.

Lemma put_shard_assigns s k d d' o : shards s !! shard_idx s k = Some d -> stores d d' k o ->
  assigns s (put_shard s k d') k o.
Proof.
  intros Hd C. split; [done|]. intros j. unfold slot. simpl.
  rewrite (shard_idx_num s (put_shard s k d')) by done.
  destruct (decide (shard_idx s j = shard_idx s k)) as [E|E].
  - rewrite E, list_lookup_insert_eq by eauto using lookup_lt_Some. simpl. rewrite Hd. simpl.
    rewrite C. case_decide as Hj; [subst; by rewrite lookup_partial_alter_eq|].
    by rewrite lookup_partial_alter_ne.
  - rewrite list_lookup_insert_ne by done. rewrite decide_False; [done|]. naive_solver.
Qed.

(** The one-key step keeps the whole keyspace well formed. *)
Lemma put_shard_wf s k d d' o : swf s -> shards s !! shard_idx s k = Some d -> stores d d' k o -> wf d' ->
  swf (put_shard s k d').
Proof.
  intros W Hd C W'. split; simpl.
  - apply W.
  - by rewrite length_insert, (swf_len _ W).
  - apply Forall_insert; [apply W|done].
  - intros i di j Hi Hj. rewrite (shard_idx_num s (put_shard s k d')) by done.
    destruct (decide (shard_idx s k = i)) as [<-|Hne].
    + rewrite list_lookup_insert_eq in Hi by eauto using lookup_lt_Some. injection Hi as <-.
      destruct (decide (j = k)) as [->|]; [done|].
      rewrite C, lookup_partial_alter_ne in Hj by done.
      by apply (swf_routed _ W _ d).
    + rewrite list_lookup_insert_ne in Hi by done. by apply (swf_routed _ W i di).
Qed.

(** The bytes that still fit next to what a shard counts. *)
Definition room s k (n : nat) : Prop :=
  forall d, shards s !! shard_idx s k = Some d -> (Z.of_nat (total_bytes d + n) < 2 ^ 64)%Z.

Lemma stores_total d d' k o : stores d d' k o ->
  total_bytes d' + slot_size Database.estimate_entry_size k (Database.entries d !! k)
  = total_bytes d + slot_size Database.estimate_entry_size k o.
Proof.
  intros C. unfold total_bytes. rewrite C. apply map_total_alter.
Qed.

Lemma room_wf s k d d' o : wf d -> shards s !! shard_idx s k = Some d -> changes d d' k o ->
  room s k (slot_size Database.estimate_entry_size k o) -> wf d'.
Proof.
  intros W Hd C R. eapply wf_update; [done..|]. pose proof (stores_total _ _ _ _ (ch_entries _ _ _ _ C)). specialize (R d Hd). lia.
Qed.

(** A step of the code on the shard of a key. *)
Lemma on_shard_step {A} s k d (r : A) d' o f : swf s -> shards s !! shard_idx s k = Some d ->
  f d = Some (r, d') -> stores d d' k o -> wf d' ->
  exists s', on_shard (shard_idx s k) f s = Some (r, s') /\ swf s' /\ assigns s s' k o /\
    shards s' = <[shard_idx s k := d']> (shards s).
Proof.
  intros W Hd Hf C W'. exists (put_shard s k d'). unfold on_shard. rewrite Hd. simpl. rewrite Hf. simpl.
  split_and!; [done|by eapply put_shard_wf|by eapply put_shard_assigns|done].
Qed.

Lemma guards_lock_two si di : guards (lock_two si di) = (si, di).
Proof.
  unfold lock_two. case_bool_decide; [by subst|]. by case_bool_decide.
Qed.

(** Locks are always taken in ascending order. *)
Lemma lock_two_ordered si di lo hi swapped : lock_two si di = (lo, Some hi, swapped) -> lo < hi.
Proof.
  unfold lock_two. case_bool_decide; [done|]. case_bool_decide; intros [= <- <- <-]; lia.
Qed.

(** An insertion uses up as much room as it counts. *)
Lemma room_grows s s' k j d d' m n : shards s !! shard_idx s k = Some d -> total_bytes d' <= m + total_bytes d ->
  num_shards s' = num_shards s -> shards s' = <[shard_idx s k := d']> (shards s) ->
  room s j (m + n) -> room s' j n.
Proof.
  intros Hd Ht Hn Hs R x Hx. rewrite (shard_idx_num s s') in Hx by done. rewrite Hs in Hx.
  destruct (decide (shard_idx s k = shard_idx s j)) as [E|E].
  - rewrite E in *. rewrite list_lookup_insert_eq in Hx by eauto using lookup_lt_Some. injection Hx as <-.
    specialize (R d Hd). lia.
  - rewrite list_lookup_insert_ne in Hx by done. specialize (R x Hx). lia.
Qed.

(** A removal leaves room for what was there before. *)
Lemma room_after s s' k j d d' n : shards s !! shard_idx s k = Some d -> total_bytes d' <= total_bytes d ->
  num_shards s' = num_shards s -> shards s' = <[shard_idx s k := d']> (shards s) ->
  room s j n -> room s' j n.
Proof. intros Hd Ht Hn Hs R. by apply (room_grows s s' k j d d' 0). Qed.
End Routing.

(** ** Steps on one key *)

Section Moves.
Context `{SetData.IndexSet}.
Implicit Types (s : t) (k src dst : bytes) (e : Entry.t) (o : option Entry.t).

(** What a client sees of a slot at a time. *)
Definition seen (now : Z) o : option (DataType * option Z) :=
  e ← o; if Entry.is_expired now e then None else Some (visible e).

Lemma is_Some_fmap {A B} (f : A -> B) (o : option A) : bool_decide (is_Some (f <$> o)) = bool_decide (is_Some o).
Proof. by destruct o. Qed.

(** No shard counts more than before. *)
Definition no_bigger s s' : Prop :=
  num_shards s' = num_shards s /\ forall k n, room s k n -> room s' k n.

Lemma remove_step s k : swf s ->
  exists s', on_shard (shard_idx s k) (fun d => Some (Database.remove k d)) s = Some (slot s k, s') /\
    swf s' /\ assigns s s' k None /\ no_bigger s s'.
Proof.
  intros W. destruct (shard_of s k W) as (d & Hd & Wd & Hs). pose proof (remove_changes k d) as C.
  pose proof (wf_shrink _ _ _ Wd C) as Wd'. pose proof (total_bytes_shrinks _ _ _ C) as Ht.
  destruct (on_shard_step s k d (Database.remove k d).1 (Database.remove k d).2 None
    (fun d => Some (Database.remove k d)) W Hd (f_equal Some (surjective_pairing _)) (ch_entries _ _ _ _ C) Wd')
    as (s' & E & W' & A & Es).
  exists s'. rewrite E, Hs. split_and!; [done|done|done|].
  split; [apply A|]. intros j n. apply (room_after s s' k j d _ n Hd Ht (proj1 A) Es).
Qed.

Lemma insert_step s k e : swf s -> room s k (Database.estimate_entry_size k e) ->
  exists s', on_shard (shard_idx s k) (fun d => Some ((), Database.insert k e d)) s = Some ((), s') /\
    swf s' /\ assigns s s' k (Some e) /\
    forall j n, room s j (Database.estimate_entry_size k e + n) -> room s' j n.
Proof.
  intros W R. destruct (shard_of s k W) as (d & Hd & Wd & Hs). pose proof (insert_changes k e d) as C.
  pose proof (room_wf s k d _ (Some e) Wd Hd C R) as Wd'.
  destruct (on_shard_step s k d () (Database.insert k e d) (Some e)
    (fun d => Some ((), Database.insert k e d)) W Hd eq_refl (ch_entries _ _ _ _ C) Wd') as (s' & E & W' & A & Es).
  exists s'. split_and!; [done..|]. intros j n Rj. pose proof (stores_total _ _ _ _ (ch_entries _ _ _ _ C)) as T.
  unfold slot_size in T at 2. simpl in T.
  eapply room_grows; [done| |apply A|done|done]. lia.
Qed.

(** A read may reap the key or touch it; nobody sees a difference. *)
(** A lookup on one shard: the entry is what is seen, and stays so. *)
Lemma get_on_shard now k d : wf d ->
  wf (Database.get now k d).2 /\ stores d (Database.get now k d).2 k (Database.get now k d).1 /\
  visible <$> (Database.get now k d).1 = seen now (Database.entries d !! k) /\
  seen now (Database.get now k d).1 = seen now (Database.entries d !! k) /\
  total_bytes (Database.get now k d).2 <= total_bytes d.
Proof.
  intros Wd. pose proof (get_changes now k d) as C.
  assert (Hv : visible <$> (Database.get now k d).1 = seen now (Database.entries d !! k)).
  { unfold Database.get, seen. destruct (Database.entries d !! k) as [e|]; [|done]. simpl. by destruct (Entry.is_expired now e). }
  assert (Hx : seen now (Database.get now k d).1 = visible <$> (Database.get now k d).1).
  { unfold Database.get, seen. destruct (Database.entries d !! k) as [e|]; [|done].
    destruct (Entry.is_expired now e) eqn:X; [done|]. simpl. unfold Entry.is_expired in *. simpl. by rewrite X. }
  split_and!; [exact (wf_update _ _ _ _ Wd C (get_fits now d Wd k))|apply C|done|by rewrite Hx|].
  pose proof (stores_total _ _ _ _ (ch_entries _ _ _ _ C)) as T. unfold Database.get in *.
  destruct (Database.entries d !! k) as [e|]; [|done].
  destruct (Entry.is_expired now e); cbn [fst snd slot_size from_option] in *; [lia|].
  unfold Database.estimate_entry_size in *. simpl in *. lia.
Qed.

Lemma get_step now s k : swf s ->
  exists r s', on_shard (shard_idx s k) (fun d => Some (Database.get now k d)) s = Some (r, s') /\
    swf s' /\ visible <$> r = seen now (slot s k) /\ assigns s s' k r /\ no_bigger s s' /\
    forall j, seen now (slot s' j) = seen now (slot s j).
Proof.
  intros W. destruct (shard_of s k W) as (d & Hd & Wd & Hs). destruct (get_on_shard now k d Wd) as (Wd' & St & Hv & Hx & Ht).
  destruct (on_shard_step s k d (Database.get now k d).1 (Database.get now k d).2 _
    (fun d => Some (Database.get now k d)) W Hd (f_equal Some (surjective_pairing _)) St Wd')
    as (s' & E & W' & A & Es).
  eexists _, s'. rewrite Hs. split_and!; [done|done|done|done| |].
  - split; [apply A|]. intros j n. apply (room_after s s' k j d _ n Hd Ht (proj1 A) Es).
  - intros j. rewrite (proj2 A). case_decide as Hj; [subst|done]. by rewrite Hx, Hs.
Qed.

Lemma visible_clone e : visible (clone_entry e) = visible e.
Proof. unfold visible, clone_entry, Entry.set_value. simpl. by destruct (Entry.value e) as [|[]| | | | | | | |]. Qed.

Lemma estimate_clone k e : Database.estimate_entry_size k (clone_entry e) = Database.estimate_entry_size k e.
Proof. unfold Database.estimate_entry_size, clone_entry. simpl. by destruct (Entry.value e). Qed.

Lemma seen_clone now e : seen now (Some (clone_entry e)) = seen now (Some e).
Proof. unfold seen. simpl. rewrite visible_clone. done. Qed.

(** ** RENAME, RENAMENX and COPY *)

Lemma rename_spec s src dst : swf s ->
  (forall e, slot s src = Some e -> room s dst (Database.estimate_entry_size dst e)) ->
  exists s', rename src dst s = Some ((fun _ => ()) <$> slot s src, s') /\ swf s' /\
    forall j, slot s' j =
      match slot s src with
      | None => slot s j
      | Some e => if decide (j = dst) then Some e else if decide (j = src) then None else slot s j
      end.
Proof.
  intros W R. unfold rename. rewrite guards_lock_two.
  destruct (remove_step s src W) as (s1 & -> & W1 & A1 & B1). mstep.
  destruct (slot s src) as [e|] eqn:E.
  - rewrite <- (shard_idx_num s s1 dst) by apply A1.
    destruct (insert_step s1 dst e W1) as (s2 & -> & W2 & A2 & _); [by apply B1, R|]. mstep.
    exists s2. split_and!; [done|done|]. intros j. rewrite (proj2 A2), (proj2 A1). done.
  - exists s1. split_and!; [done|done|]. intros j. rewrite (proj2 A1). case_decide; by subst.
Qed.

Lemma renamenx_spec now s src dst : swf s -> slot s src = None \/ is_Some (seen now (slot s src)) ->
  (forall e, slot s src = Some e -> room s dst (Database.estimate_entry_size dst e)) ->
  exists s', renamenx now src dst s
      = Some (if bool_decide (is_Some (seen now (slot s dst))) then Some 0%Z else (fun _ => 1%Z) <$> slot s src, s') /\
    swf s' /\
    forall j, seen now (slot s' j) =
      if bool_decide (is_Some (seen now (slot s dst))) then seen now (slot s j)
      else match slot s src with
           | None => seen now (slot s j)
           | Some e => if decide (j = dst) then seen now (Some e) else if decide (j = src) then None else seen now (slot s j)
           end.
Proof.
  intros W Hne R. unfold renamenx. rewrite guards_lock_two.
  destruct (get_step now s dst W) as (r & s1 & E1 & W1 & Hv & A1 & B1 & S1).
  assert (Ec : on_shard (shard_idx s dst) (fun d => Some (Database.contains_key now dst d)) s
               = Some (bool_decide (is_Some r), s1)).
  { unfold on_shard in *. destruct (shards s !! shard_idx s dst) as [d|]; [|done]. simpl in *.
    unfold Database.contains_key. destruct (Database.get now dst d). simpl in *. by simplify_eq. }
  rewrite Ec. mstep. rewrite <- Hv, is_Some_fmap. case_bool_decide as Hr; [by exists s1|].
  rewrite <- (shard_idx_num s s1 src) by apply A1.
  destruct (remove_step s1 src W1) as (s2 & -> & W2 & A2 & B2). mstep.
  assert (Es : slot s1 src = slot s src).
  { rewrite (proj2 A1). case_decide as Hj; [subst src|done]. destruct Hne as [->|[v Hsv]].
    - destruct r; [|done]. exfalso; eauto.
    - rewrite Hsv in Hv. destruct r; [|done]. exfalso; eauto. }
  rewrite Es in *. destruct (slot s src) as [e|] eqn:E.
  - rewrite <- (shard_idx_num s s2 dst) by (rewrite (proj1 A2); apply A1).
    destruct (insert_step s2 dst e W2) as (s3 & -> & W3 & A3 & _); [by apply B2, B1, R|]. mstep.
    exists s3. split_and!; [done|done|]. intros j. rewrite (proj2 A3), (proj2 A2).
    repeat case_decide; done || apply S1.
  - exists s2. split_and!; [done|done|]. intros j. rewrite (proj2 A2). case_decide as Hj; [|by rewrite S1].
    subst j. by rewrite E.
Qed.

Lemma copy_spec now s src dst replace : swf s ->
  (forall e, slot s src = Some e -> room s dst (Database.estimate_entry_size dst e)) ->
  let copied := bool_decide (is_Some (seen now (slot s src)) /\ (replace = true \/ seen now (slot s dst) = None)) in
  exists s', copy_entry now src dst replace s = Some (copied, s') /\ swf s' /\
    forall j, seen now (slot s' j) = if copied && bool_decide (j = dst) then seen now (slot s src) else seen now (slot s j).
Proof.
  intros W R copied. unfold copy_entry. rewrite guards_lock_two.
  assert (Hfirst : exists s1, (if replace then Some (false, s)
      else on_shard (shard_idx s dst) (fun d => Some (Database.contains_key now dst d)) s)
      = Some (negb replace && bool_decide (is_Some (seen now (slot s dst))), s1) /\
    swf s1 /\ no_bigger s s1 /\ (forall j, seen now (slot s1 j) = seen now (slot s j)) /\
    (forall e, slot s1 src = Some e -> exists e', slot s src = Some e' /\ Entry.value e = Entry.value e')).
  { destruct replace.
    - exists s. split_and!; eauto. by split.
    - destruct (get_step now s dst W) as (r & s1 & E1 & W1 & Hv & A1 & B1 & S1). exists s1.
      split_and!; [|done|done|done|].
      + unfold on_shard in *. destruct (shards s !! shard_idx s dst) as [d|]; [|done]. simpl in *.
        unfold Database.contains_key. destruct (Database.get now dst d). simpl in *. simplify_eq.
        by rewrite <- Hv, is_Some_fmap.
      + intros e He. rewrite (proj2 A1) in He. case_decide as Hj; [|by eauto]. subst src.
        destruct r as [r|]; simplify_eq. unfold seen in Hv. destruct (slot s dst) as [e'|]; [|done]. simpl in Hv.
        destruct (Entry.is_expired now e'); [done|]. unfold visible in Hv. simplify_eq. eauto. }
  destruct Hfirst as (s1 & -> & W1 & B1 & S1 & V1). mstep.
  destruct (negb replace && bool_decide (is_Some (seen now (slot s dst)))) eqn:Hp.
  { apply andb_true_iff in Hp as [Hr Hd]. apply bool_decide_eq_true in Hd. destruct replace; [done|].
    exists s1. assert (copied = false) as ->; [|by split_and!].
    unfold copied. apply bool_decide_eq_false. intros [_ [|Hn]]; [done|]. rewrite Hn in Hd. by destruct Hd. }
  rewrite <- (shard_idx_num s s1 src) by apply B1.
  destruct (get_step now s1 src W1) as (r & s2 & -> & W2 & Hv & A2 & B2 & S2). mstep. rewrite S1 in Hv.
  destruct r as [e|]; simpl in Hv.
  - assert (copied = true) as ->.
    { unfold copied. apply bool_decide_eq_true. split; [rewrite <- Hv; eauto|].
      destruct replace; [by left|right]. simpl in Hp. apply bool_decide_eq_false in Hp.
      destruct (seen now (slot s dst)); [|done]. exfalso. eauto. }
    rewrite <- (shard_idx_num s s2 dst) by (rewrite (proj1 B2); apply B1).
    destruct (insert_step s2 dst (clone_entry e) W2) as (s3 & -> & W3 & A3 & _).
    { rewrite estimate_clone. apply B2, B1. unfold seen in Hv. destruct (slot s src) as [e0|] eqn:E0; [|done].
      simpl in Hv. destruct (Entry.is_expired now e0); [done|]. specialize (R e0 eq_refl).
      unfold Database.estimate_entry_size in *. unfold visible in Hv. simplify_eq. by rewrite H0. }
    mstep. exists s3. split_and!; [done|done|]. intros j. rewrite (proj2 A3). simpl.
    case_decide as Hj; [rewrite bool_decide_eq_true_2 by done|rewrite bool_decide_eq_false_2 by done].
    + rewrite seen_clone. rewrite <- Hv. pose proof (S2 src) as Hs2. rewrite (proj2 A2), decide_True in Hs2 by done.
      by rewrite Hs2, S1, <- Hv.
    + by rewrite S2, S1.
  - assert (copied = false) as ->.
    { unfold copied. apply bool_decide_eq_false. intros [Hs _]. rewrite <- Hv in Hs. by destruct Hs. }
    exists s2. split_and!; [done|done|]. intros j. by rewrite S2, S1.
Qed.

(** ** MSET and MSETNX *)

Lemma seek_last last tags t : 
  seek t (from_option (fun i => i :: shard_indices (Some i) (t :: tags)) (shard_indices None (t :: tags)) last)
  = Some (t :: shard_indices (Some t) tags).
Proof.
  destruct last as [i|]; simpl.
  - case_bool_decide as E; [subst; by rewrite bool_decide_eq_true_2|].
    rewrite bool_decide_eq_false_2 by congruence. simpl. by rewrite bool_decide_eq_true_2.
  - by rewrite bool_decide_eq_true_2.
Qed.

(** The guards found so far, then those of the rest of the batch. *)
Definition guards_from (last : option nat) (tags : list nat) : list nat :=
  from_option (fun i => i :: shard_indices (Some i) tags) (shard_indices None tags) last.

(** The locks of a batch are taken in strictly ascending order. *)
Lemma shard_indices_ascending tags last : StronglySorted le tags ->
  Forall (fun i => forall l, last = Some l -> l <= i) tags ->
  StronglySorted lt (shard_indices last tags) /\
  Forall (fun i => i ∈ tags /\ forall l, last = Some l -> l < i) (shard_indices last tags).
Proof.
  intros S. revert last. induction S as [|i tags S IH F]; intros last Hl; [split; constructor|].
  apply Forall_cons in Hl as [Hi Hl]. simpl. case_bool_decide as E.
  - destruct (IH last Hl) as [IHs IHf]. split; [done|].
    eapply Forall_impl; [done|]. intros x [? ?]; split; [by right|done].
  - destruct (IH (Some i)) as [IHs IHf].
    { eapply Forall_impl; [exact F|]. intros x Hx l [= <-]. done. }
    split.
    + constructor; [done|]. eapply Forall_impl; [exact IHf|]. intros x [_ Hx]. by apply Hx.
    + constructor.
      * split; [by left|]. intros l ->. specialize (Hi l eq_refl). assert (l <> i) by congruence. lia.
      * eapply Forall_impl; [exact IHf|]. intros x [Hx Hlt]; split; [by right|]. intros l ->.
        specialize (Hlt i eq_refl). specialize (Hi l eq_refl). lia.
Qed.

Lemma mset_locks_ascending `{UnstableSort} s pairs : StronglySorted lt (tag_and_sort_pairs s pairs).2.
Proof.
  apply shard_indices_ascending.
  - pose proof (sort_by_fst_sorted _ (map (fun p => (shard_idx s p.1, p)) pairs)) as S. simpl.
    induction S as [|x l S IH F]; simpl; constructor; [done|]. by apply Forall_map.
  - apply Forall_forall. done.
Qed.

Definition batch_bytes (pairs : list (bytes * Entry.t)) : nat :=
  sum_list_with (fun p => Database.estimate_entry_size p.1 p.2) pairs.

Lemma batch_bytes_perm ps qs : ps ≡ₚ qs -> batch_bytes ps = batch_bytes qs.
Proof. unfold batch_bytes. induction 1; cbn [sum_list_with]; lia. Qed.

Definition routed s (tagged : list TaggedPair) : Prop := Forall (fun x => x.1 = shard_idx s x.2.1) tagged.

Lemma commit_spec tagged : forall last s, swf s -> routed s tagged -> NoDup tagged.*2.*1 ->
  (forall k, room s k (batch_bytes tagged.*2)) ->
  exists s', commit_tagged_mset (guards_from last tagged.*1) tagged s = Some s' /\ swf s' /\
    num_shards s' = num_shards s /\
    forall j, slot s' j = match (list_to_map tagged.*2 : gmap bytes Entry.t) !! j with
                          | Some e => Some e | None => slot s j end.
Proof.
  induction tagged as [|[i [k e]] tagged IH]; intros last s W F N R; [exists s; by split_and!|].
  apply Forall_cons in F as [Hi F]. cbn [fst snd] in Hi. subst i. cbn [fmap list_fmap fst snd] in *.
  apply NoDup_cons in N as [Nk N]. cbn [commit_tagged_mset]. unfold guards_from at 1. rewrite seek_last. mstep.
  destruct (insert_step s k e W) as (s1 & -> & W1 & A1 & R1).
  { intros d Hd. specialize (R k d Hd). unfold batch_bytes in R. cbn [sum_list_with fst snd] in R. lia. }
  mstep. destruct (IH (Some (shard_idx s k)) s1) as (s' & E & W' & En & S'); [done| |done| |].
  - eapply Forall_impl; [done|]. intros x ->. symmetry. apply shard_idx_num, A1.
  - intros j. apply R1, R.
  - exists s'. split_and!; [exact E|done|by rewrite En; apply A1|]. intros j. rewrite S'. cbn [list_to_map foldr fst snd].
    destruct (decide (k = j)) as [->|Hj].
    + rewrite lookup_insert_eq. rewrite not_elem_of_list_to_map_1 by done. rewrite (proj2 A1). by rewrite decide_True.
    + rewrite lookup_insert_ne by done. destruct (list_to_map tagged.*2 !! j); [done|]. rewrite (proj2 A1). by rewrite decide_False.
Qed.

Lemma all_free_spec now s tagged : swf s -> routed s tagged -> forall last,
  all_free now (guards_from last tagged.*1) tagged s
  = Some (bool_decide (Forall (fun p => seen now (slot s p.1) = None) tagged.*2)).
Proof.
  intros W. induction tagged as [|[i [k e]] tagged IH]; intros F last; [done|].
  apply Forall_cons in F as [Hi F]. cbn [fst snd] in Hi. subst i. cbn [fmap list_fmap fst snd all_free] in *.
  unfold guards_from at 1. rewrite seek_last. mstep.
  destruct (shard_of s k W) as (d & -> & Wd & Hs). mstep.
  assert (Hg : seen now (slot s k) = visible <$> Database.get_ro now k d).
  { rewrite Hs. unfold seen, Database.get_ro. destruct (Database.entries d !! k) as [x|]; [|done]. simpl.
    by destruct (Entry.is_expired now x). }
  destruct (decide (is_Some (Database.get_ro now k d))) as [Hf|Hf].
  - rewrite bool_decide_eq_true_2, bool_decide_eq_false_2; [done| |done]. intros [Hn _]%Forall_cons. cbn [fst] in Hn. rewrite Hg in Hn.
    destruct Hf as [x Hx]. by rewrite Hx in Hn.
  - rewrite bool_decide_eq_false_2 by done. rewrite (IH F (Some (shard_idx s k)) : all_free _ (_ :: _) _ _ = _). f_equal. apply bool_decide_ext. rewrite Forall_cons. cbn [fst].
    split; [|tauto]. intros ?; split; [|done]. rewrite Hg. destruct (Database.get_ro now k d); [|done].
    exfalso; eauto.
Qed.

(** ** The commands over several keys, as one keyspace *)

Inductive multi_op :=
  | Rename (src dst : bytes)
  | RenameNx (src dst : bytes)
  | Copy (src dst : bytes) (replace : bool)
  | MSet (pairs : list (bytes * Entry.t))
  | MSetNx (pairs : list (bytes * Entry.t)).

Inductive multi_reply := RNoKey | ROk | RInt (z : Z) | RBool (b : bool).

Definition multi_exec `{UnstableSort} (now : Z) (op : multi_op) s : may_panic (multi_reply * t) :=
  match op with
  | Rename src dst => '(r, s) ← rename src dst s; Some (from_option (fun _ => ROk) RNoKey r, s)
  | RenameNx src dst => '(r, s) ← renamenx now src dst s; Some (from_option RInt RNoKey r, s)
  | Copy src dst replace => '(r, s) ← copy_entry now src dst replace s; Some (RBool r, s)
  | MSet pairs => s ← mset pairs s; Some (ROk, s)
  | MSetNx pairs => '(r, s) ← msetnx now pairs s; Some (RBool r, s)
  end.

(** One map from keys to what clients see. *)
Definition view : Type := bytes -> option (DataType * option Z).

Definition assign (m : view) k (v : option (DataType * option Z)) : view := fun j => if decide (j = k) then v else m j.

Definition assign_all (now : Z) (m : view) (pairs : list (bytes * Entry.t)) : view :=
  foldr (fun p m => assign m p.1 (seen now (Some p.2))) m pairs.

Definition multi_spec (now : Z) (op : multi_op) (m : view) : multi_reply * view :=
  match op with
  | Rename src dst =>
      match m src with
      | None => (RNoKey, m)
      | Some v => (ROk, assign (assign m src None) dst (Some v))
      end
  | RenameNx src dst =>
      if bool_decide (is_Some (m dst)) then (RInt 0, m)
      else match m src with
           | None => (RNoKey, m)
           | Some v => (RInt 1, assign (assign m src None) dst (Some v))
           end
  | Copy src dst replace =>
      match m src with
      | Some v => if negb replace && bool_decide (is_Some (m dst)) then (RBool false, m)
                  else (RBool true, assign m dst (Some v))
      | None => (RBool false, m)
      end
  | MSet pairs => (ROk, assign_all now m pairs)
  | MSetNx pairs =>
      if bool_decide (Forall (fun p => m p.1 = None) pairs) then (RBool true, assign_all now m pairs)
      else (RBool false, m)
  end.

(** RENAME does not look at the deadline of its source, and MSET does not order
    two values for one key: neither is refined. *)
Definition multi_ok (now : Z) s (op : multi_op) : Prop :=
  match op with
  | Rename src _ | RenameNx src _ => slot s src = None \/ is_Some (seen now (slot s src))
  | Copy _ _ _ => True
  | MSet pairs | MSetNx pairs => NoDup pairs.*1
  end.

(** The bytes an operation may add to a shard. *)
Definition multi_bytes s (op : multi_op) : nat :=
  match op with
  | Rename src dst | RenameNx src dst | Copy src dst _ => slot_size Database.estimate_entry_size dst (slot s src)
  | MSet pairs | MSetNx pairs => batch_bytes pairs
  end.

Lemma assign_all_lookup now (m : view) pairs j :
  assign_all now m pairs j = match (list_to_map pairs : gmap bytes Entry.t) !! j with
                             | Some e => seen now (Some e) | None => m j end.
Proof.
  induction pairs as [|[k e] pairs IH]; [done|]. cbn [assign_all foldr list_to_map fst snd]. unfold assign at 1.
  case_decide as Hj; [subst; by rewrite lookup_insert_eq|]. by rewrite lookup_insert_ne.
Qed.

Lemma batch_routed `{UnstableSort} s pairs :
  let tagged := (tag_and_sort_pairs s pairs).1 in
  routed s tagged /\ tagged.*2 ≡ₚ pairs.
Proof.
  pose proof (sort_by_fst_perm _ (map (fun p => (shard_idx s p.1, p)) pairs)) as P. simpl. split.
  - unfold routed. rewrite P. apply Forall_map, Forall_true. done.
  - rewrite P. rewrite <- list_fmap_compose. simpl. by rewrite list_fmap_id.
Qed.

Lemma mset_spec `{UnstableSort} s pairs : swf s -> NoDup pairs.*1 -> (forall k, room s k (batch_bytes pairs)) ->
  exists s', mset pairs s = Some s' /\ swf s' /\
    forall j, slot s' j = match (list_to_map pairs : gmap bytes Entry.t) !! j with
                          | Some e => Some e | None => slot s j end.
Proof.
  intros W N R. destruct pairs as [|p pairs]; [by exists s|]. set (ps := p :: pairs) in *.
  destruct (batch_routed s ps) as [F P].
  destruct (commit_spec (tag_and_sort_pairs s ps).1 None s W F) as (s' & E & W' & _ & S').
  - by rewrite P.
  - by rewrite (batch_bytes_perm _ _ P).
  - exists s'. split_and!; [done|done|]. intros j. rewrite S'.
    by rewrite (list_to_map_proper _ ps) by (by rewrite ?P).
Qed.

Lemma msetnx_spec `{UnstableSort} now s pairs : swf s -> NoDup pairs.*1 -> (forall k, room s k (batch_bytes pairs)) ->
  let free := bool_decide (Forall (fun p => seen now (slot s p.1) = None) pairs) in
  exists s', msetnx now pairs s = Some (free, s') /\ swf s' /\
    forall j, slot s' j = match (list_to_map pairs : gmap bytes Entry.t) !! j with
                          | Some e => if free then Some e else slot s j | None => slot s j end.
Proof.
  intros W N R free. destruct pairs as [|p pairs]; [by exists s|]. set (ps := p :: pairs) in *.
  destruct (batch_routed s ps) as [F P].
  assert (Ef : all_free now (tag_and_sort_pairs s ps).2 (tag_and_sort_pairs s ps).1 s = Some free).
  { rewrite (all_free_spec now s _ W F None : all_free _ (tag_and_sort_pairs s ps).2 _ _ = _).
    f_equal. apply bool_decide_ext. by rewrite P. }
  assert (Em : msetnx now ps s = free' ← Some free;
    if (free' : bool) then s ← mset ps s; Some (true, s) else Some (false, s)) by (rewrite <- Ef; done).
  rewrite Em. mstep. destruct free.
  - destruct (mset_spec s ps W N R) as (s' & -> & W' & S'). mstep. by exists s'.
  - exists s. split_and!; [done|done|]. intros j. by destruct (_ !! j).
Qed.

Lemma seen_settled now o : o = None \/ is_Some (seen now o) -> forall e, o = Some e -> seen now o = Some (visible e).
Proof.
  intros [->|[v Hv]] e; [done|]. intros ->. unfold seen in *. simpl in *. by destruct (Entry.is_expired now e).
Qed.

End Moves.

(** ** A keyspace of four shards *)

Definition fst_le {V} (a b : nat * V) : Prop := a.1 <= b.1.

#[export] Instance fst_le_dec {V} (a b : nat * V) : Decision (fst_le a b).
Proof. unfold fst_le. apply _. Defined.

(** A stable sort is one admissible [sort_unstable_by_key]. *)
#[export] Program Instance merge_sort_by_fst : UnstableSort :=
  {| sort_by_fst V l := merge_sort fst_le l |}.
Next Obligation. intros V l. apply merge_sort_Permutation. Qed.
Next Obligation.
  intros V l. change (StronglySorted fst_le (merge_sort fst_le l)). apply StronglySorted_merge_sort; [intros a b c; apply Nat.le_trans|].
  intros a b. destruct (Nat.le_ge_cases a.1 b.1); [by left|by right].
Qed.

Section Fresh.
Context `{SetData.IndexSet}.
Implicit Types (s : t) (k : bytes).

Lemma swf_new b : 0 < b <= 32 -> swf (new (2 ^ b)).
Proof.
  intros Hb. split; cbn [new shards num_shards].
  - by exists b.
  - apply length_replicate.
  - apply Forall_replicate, wf_new.
  - intros i d k Hi Hk. apply lookup_replicate in Hi as [-> _]. cbn in Hk. rewrite lookup_empty in Hk. by destruct Hk.
Qed.

Lemma slot_new n k : slot (new n) k = None.
Proof.
  unfold slot. destruct (shards (new n) !! shard_idx (new n) k) as [d|] eqn:E; [|done].
  cbn in E. apply lookup_replicate in E as [-> _]. done.
Qed.

(** All shards, read off one by one. *)
Lemma room_all s k n : forallb (fun d => (Z.of_nat (total_bytes d + n) <? 2 ^ 64)%Z) (shards s) = true -> room s k n.
Proof.
  intros F d Hd. rewrite forallb_forall in F. apply list_elem_of_lookup_2 in Hd.
  apply list_elem_of_In, F in Hd. by apply Z.ltb_lt in Hd.
Qed.

End Fresh.

Section Sample.
#[local] Existing Instance SetData.vec_index_set.

Definition sample_pairs : list (bytes * Entry.t) :=
  [(bstr "a", Entry.new (TString (bstr "1"))); (bstr "b", Entry.with_expiry (TString (bstr "2")) (Expiry.from_ms 150));
   (bstr "c", Entry.new (TString (bstr "3")))].

Definition sample_keyspace : t := default (new (2 ^ 2)) (mset sample_pairs (new (2 ^ 2))).

Lemma sample_keyspace_wf : swf sample_keyspace.
Proof.
  unfold sample_keyspace. destruct (mset_spec (new (2 ^ 2)) sample_pairs) as (s' & -> & W & _); [|..|done].
  - apply swf_new. lia.
  - by apply (bool_decide_unpack _).
  - intros k. apply room_all. vm_compute. reflexivity.
Qed.

(** A string value with its deadline. *)
Definition text_of (o : option (DataType * option Z)) : option (bytes * option Z) :=
  '(v, x) ← o; match v with TString b => Some (b, x) | _ => None end.

Lemma is_text_seen o x : text_of o = Some x -> is_Some o.
Proof. destruct o; [by eexists|done]. Qed.


(** RENAME of a key past its deadline that no one has touched replies OK and
    destroys the destination. *)
Lemma rename_expired_source_destroys_destination :
  let after := rename (bstr "b") (bstr "c") sample_keyspace in
  fst <$> after = Some (Some ()) /\
  text_of (seen 200 (slot sample_keyspace (bstr "b"))) = None /\
  text_of (seen 200 (slot sample_keyspace (bstr "c"))) = Some (bstr "3", None) /\
  text_of (s' ← snd <$> after; seen 200 (slot s' (bstr "c"))) = None.
Proof. cbv zeta. split_and!; vm_compute; reflexivity. Qed.
End Sample.
