(* ===== verification/ShardsMoves.v ===== *)
(** * ShardsMoves: LMOVE and SMOVE between shards

    The element leaves one container and enters the other under both guards; the
    theorems say what clients see of the two keys afterwards, whichever shards
    hold them, also when they are the same key. *)

From S2P Require Import Prelude Text Types Keyspace KeyspaceInvariant KeyspaceSpec Shards ShardsSpec.
From S2P Require ListData SetData.

Import ShardedDatabase.

#[local] Arguments Database.remove : simpl never.
#[local] Arguments Database.bump_version : simpl never.
#[local] Arguments Database.adjust_live_bytes : simpl never.
#[local] Arguments Database.get_or_insert_with : simpl never.

(** ** One shard *)

Section Shard.
Context `{SetData.IndexSet}.
Implicit Types (d : Database.t) (k : bytes) (e : Entry.t) (o : option Entry.t).

(** A well-formed shard that differs at one key. *)
Definition dstep d d' k o : Prop := wf d' /\ stores d d' k o.

Lemma dstep_trans d d1 d2 k o1 o2 : dstep d d1 k o1 -> dstep d1 d2 k o2 -> dstep d d2 k o2.
Proof.
  intros [_ S1] [W2 S2]. split; [done|]. unfold stores in *. rewrite S2, S1.
  by rewrite partial_alter_partial_alter_eq.
Qed.

Lemma dstep_slot d d' k o : dstep d d' k o -> Database.entries d' !! k = o.
Proof. intros [_ ->]. apply lookup_partial_alter_eq. Qed.

Lemma dstep_total d d' k o : dstep d d' k o ->
  total_bytes d' + slot_size Database.estimate_entry_size k (Database.entries d !! k)
  = total_bytes d + slot_size Database.estimate_entry_size k o.
Proof. intros [_ S]. by apply stores_total. Qed.

Lemma dstep_changes d d' k o : wf d -> changes d d' k o ->
  (Z.of_nat (total_bytes d + slot_size Database.estimate_entry_size k o)
   < 2 ^ 64 + Z.of_nat (slot_size Database.estimate_entry_size k (Database.entries d !! k)))%Z -> dstep d d' k o.
Proof.
  intros W C F. split; [|apply C]. eapply wf_update; [done..|].
  pose proof (stores_total _ _ _ _ (ch_entries _ _ _ _ C)). lia.
Qed.

(** The lookup for writing. *)
Definition live (now : Z) o : option Entry.t := e ← o; if Entry.is_expired now e then None else Some e.

Lemma get_mut_step now k d : wf d -> dstep d (Database.get_mut now k d).2 k (live now (Database.entries d !! k)) /\
  (Database.get_mut now k d).1 = live now (Database.entries d !! k).
Proof.
  intros W. assert (E : (Database.get_mut now k d).1 = live now (Database.entries d !! k)).
  { unfold Database.get_mut, live. destruct (Database.entries d !! k) as [e|]; [|done]. simpl.
    by destruct (Entry.is_expired now e). }
  split; [|done]. rewrite <- E. apply dstep_changes; [done|apply get_mut_changes|]. rewrite E.
  pose proof (wf_fits _ W). unfold live. destruct (Database.entries d !! k) as [e|]; simpl; [|lia].
  destruct (Entry.is_expired now e); simpl; lia.
Qed.

Lemma get_or_insert_step now k f d : wf d -> Entry.is_expired now f = false ->
  (Z.of_nat (total_bytes d + Database.estimate_entry_size k f) < 2 ^ 64)%Z ->
  exists e d', Database.get_or_insert_with now k f d = (e, d') /\ dstep d d' k (Some e) /\
    Entry.value e = from_option Entry.value (Entry.value f) (live now (Database.entries d !! k)) /\
    Entry.expiry e = from_option Entry.expiry (Entry.expiry f) (live now (Database.entries d !! k)).
Proof.
  intros W Hf F. pose proof (get_or_insert_changes now k f d) as C.
  assert (E : let e := (Database.get_or_insert_with now k f d).1 in
    Entry.value e = from_option Entry.value (Entry.value f) (live now (Database.entries d !! k)) /\
    Entry.expiry e = from_option Entry.expiry (Entry.expiry f) (live now (Database.entries d !! k))).
  { unfold Database.get_or_insert_with, live. destruct (Database.entries d !! k) as [e|]; [|done]. simpl.
    by destruct (Entry.is_expired now e). }
  destruct (Database.get_or_insert_with now k f d) as [e d'] eqn:G. exists e, d'. simpl in *. split_and!; try tauto.
  apply dstep_changes; [done..|]. pose proof (wf_fits _ W) as Wf. destruct E as [E _].
  unfold live in E. destruct (Database.entries d !! k) as [x|] eqn:Ex; simpl in *.
  - destruct (Entry.is_expired now x); simpl in E; unfold Database.estimate_entry_size in *; rewrite E; lia.
  - unfold Database.estimate_entry_size in *. rewrite E. lia.
Qed.

(** A write through the reference, counted. *)
Lemma modify_step d k old e delta : wf d -> Database.entries d !! k = Some old -> Entry.expiry e = Entry.expiry old ->
  (delta = Z.of_nat (Database.estimate_entry_size k e) - Z.of_nat (Database.estimate_entry_size k old))%Z ->
  (Z.of_nat (total_bytes d) + delta < 2 ^ 64)%Z ->
  dstep d (Database.adjust_live_bytes delta (Database.write_back k e d)) k (Some e).
Proof.
  intros W E Hx -> F. apply dstep_changes; [done|by apply modify_changes|]. rewrite E. simpl. lia.
Qed.

Lemma remove_step_db d k : wf d -> dstep d (Database.remove k d).2 k None.
Proof. intros W. split; [eapply wf_shrink; [done|]; apply remove_changes|apply remove_changes]. Qed.

Lemma bump_step d k e : wf d -> Database.entries d !! k = Some e -> dstep d (Database.bump_version k d) k (Some e).
Proof.
  intros W E. apply dstep_changes; [done| |rewrite E; pose proof (wf_fits _ W); simpl; lia].
  apply (rewrite_changes k e); fields; auto; [by rewrite insert_id|lia].
Qed.

Lemma bump_write_back k j e d :
  Database.bump_version k (Database.write_back j e d) = Database.write_back j e (Database.bump_version k d).
Proof. unfold Database.bump_version. cbn. by destruct (Database.key_versions d !! k). Qed.
End Shard.

(** ** LMOVE *)

Section Lists.
Context `{SetData.IndexSet} (thr : ListData.ListThresholds) (Hthr : ListData.thr_sane thr).
Implicit Types (s : t) (d : Database.t) (k : bytes) (e : Entry.t) (o : option Entry.t).

(** The element at one end, and the rest. *)
Definition take_end (left : bool) (xs : list bytes) : option (bytes * list bytes) :=
  if left then x ← head xs; Some (x, tail xs) else x ← last xs; Some (x, removelast xs).

Definition put_end (left : bool) (x : bytes) (xs : list bytes) : list bytes := if left then x :: xs else xs ++ [x].

Lemma take_end_put left x xs : take_end left (put_end left x xs) = Some (x, xs).
Proof. destruct left; [done|]. simpl. by rewrite last_snoc, removelast_last. Qed.

Lemma take_end_length left x ys xs : take_end left xs = Some (x, ys) -> total_len xs = length x + total_len ys.
Proof.
  destruct left; simpl.
  - destruct xs; simpl; intros [= <- <-]. apply total_len_cons.
  - destruct xs as [|y xs _] using rev_ind; [done|]. rewrite last_snoc, removelast_last. intros [= <- <-].
    rewrite total_len_app, total_len_cons, total_len_nil. lia.
Qed.

Lemma pop_end_refines (left : bool) l xs : ListData.repr l xs -> exists l',
  (if left then ListData.pop_front thr l else ListData.pop_back thr l) = Some (fst <$> take_end left xs, l') /\
  ListData.repr l' (from_option snd xs (take_end left xs)).
Proof.
  intros R. destruct left; simpl.
  - destruct (ListData.pop_front_refines thr Hthr l xs R) as (l' & -> & R'). exists l'. by destruct xs.
  - destruct (ListData.pop_back_refines thr Hthr l xs R) as (l' & -> & R'). exists l'.
    destruct xs as [|y xs _] using rev_ind; [done|]. by rewrite last_snoc in *.
Qed.

Lemma push_end_refines (left : bool) l xs v : ListData.repr l xs -> exists l',
  (if left then ListData.push_front thr l v else ListData.push_back thr l v) = Some l' /\
  ListData.repr l' (put_end left v xs).
Proof.
  intros R. destruct left; [by apply ListData.push_front_refines|by apply ListData.push_back_refines].
Qed.

Lemma list_size k l xs e : ListData.repr l xs -> Entry.value e = TList l ->
  Database.estimate_entry_size k e = 64 + length k + total_len xs.
Proof.
  intros R E. unfold Database.estimate_entry_size. rewrite E. simpl. by rewrite (ListData.list_repr_payload _ _ R).
Qed.

(** What the code stores for a list that lost an element. *)
Definition shrunk e (l : ListData.ListData) (ys : list bytes) : option Entry.t :=
  if decide (ys = []) then None else Some (Entry.set_value (TList l) e).

Lemma pop_live_list now k left d e l xs x ys : wf d -> live now (Database.entries d !! k) = Some e ->
  Entry.value e = TList l -> ListData.repr l xs -> take_end left xs = Some (x, ys) ->
  exists l' d', pop_and_gc thr now k left d = Some (inr (Some x), d') /\ ListData.repr l' ys /\
    dstep d d' k (shrunk e l' ys).
Proof.
  intros W Hl Ev R T. unfold pop_and_gc, pop_list. destruct (get_mut_step now k d W) as [D1 E1].
  destruct (Database.get_mut now k d) as [r d1]. cbn [fst snd] in *. subst r. rewrite Hl in *. rewrite Ev.
  destruct (pop_end_refines left l xs R) as (l' & -> & R'). rewrite T in *. simpl in R'. mstep.
  exists l'. set (e' := Entry.set_value (TList l') e).
  assert (D2 : dstep d1 (Database.adjust_live_bytes (- Z.of_nat (length x)) (Database.write_back k e' d1)) k (Some e')).
  { pose proof (take_end_length _ _ _ _ T). eapply modify_step; [apply D1|by eapply dstep_slot|done| |].
    - rewrite (list_size k l xs e R Ev), (list_size k l' ys e' R' eq_refl). lia.
    - pose proof (wf_fits _ (proj1 D1)). lia. }
  rewrite (ListData.repr_is_empty _ _ R'). unfold shrunk. case_bool_decide as Hy.
  - rewrite decide_True by done. eexists. split_and!; [done|done|]. unfold Database.remove_empty_key.
    eapply dstep_trans; [exact D1|]. eapply dstep_trans; [exact D2|].
    pose proof (remove_step_db _ k (proj1 D2)) as D3. by destruct (Database.remove k _).
  - rewrite decide_False by done. eexists. split_and!; [done|done|]. by eapply dstep_trans.
Qed.

Lemma pop_no_list now k left d : wf d ->
  match live now (Database.entries d !! k) with
  | Some e => match Entry.value e with TList _ => False | _ => True end
  | None => True
  end ->
  exists d', pop_and_gc thr now k left d
      = Some (match live now (Database.entries d !! k) with Some _ => inl WrongType | None => inr None end, d') /\
    dstep d d' k (live now (Database.entries d !! k)).
Proof.
  intros W Hv. unfold pop_and_gc, pop_list. destruct (get_mut_step now k d W) as [D1 E1].
  destruct (Database.get_mut now k d) as [r d1]. cbn [fst snd] in *. subst r.
  destruct (live now (Database.entries d !! k)) as [e|]; [|mstep; eauto].
  destruct (Entry.value e); done || (mstep; eauto).
Qed.

Definition fresh_list : Entry.t := Entry.new (TList ListData.new).

Lemma push_list_step now k left d l ys v : wf d ->
  from_option Entry.value (TList ListData.new) (live now (Database.entries d !! k)) = TList l -> ListData.repr l ys ->
  (Z.of_nat (total_bytes d + (Database.estimate_entry_size k fresh_list + length v)) < 2 ^ 64)%Z ->
  exists l' e' d', push_and_count thr now k v left d = Some ((), d') /\ ListData.repr l' (put_end left v ys) /\
    dstep d d' k (Some e') /\ Entry.value e' = TList l' /\
    Entry.expiry e' = live now (Database.entries d !! k) ≫= Entry.expiry.
Proof.
  intros W Hl R F. unfold push_and_count, push_list. change (Entry.new (TList ListData.new)) with fresh_list.
  destruct (get_or_insert_step now k fresh_list d W eq_refl) as (e & d1 & -> & D1 & Ev & Ex); [lia|].
  change (Entry.value fresh_list) with (TList ListData.new) in Ev. rewrite Hl in Ev. rewrite Ev.
  destruct (push_end_refines left l ys v R) as (l' & -> & R'). mstep.
  set (e' := Entry.set_value (TList l') e). exists l', e'.
  assert (Hn : total_len (put_end left v ys) = length v + total_len ys).
  { eapply take_end_length, take_end_put. }
  assert (Ht : (Z.of_nat (total_bytes d1 + length v) < 2 ^ 64)%Z).
  { pose proof (dstep_total _ _ _ _ D1) as T. cbn [slot_size from_option] in T.
    unfold Database.estimate_entry_size in *. rewrite Ev in T. rewrite <- Hl in T.
    unfold live in T. destruct (Database.entries d !! k) as [x|]; simpl in T; [|simpl in F; lia].
    unfold Database.estimate_entry_size in T. destruct (Entry.is_expired now x); simpl in T; simpl in F; lia. }
  assert (D2 : dstep d1 (Database.adjust_live_bytes (Z.of_nat (length v))
                           (Database.write_back k e' (Database.bump_version k d1))) k (Some e')).
  { pose proof (bump_step d1 k e (proj1 D1) (dstep_slot _ _ _ _ D1)) as B. eapply dstep_trans; [exact B|].
    eapply modify_step; [apply B|by eapply dstep_slot|done| |].
    - rewrite (list_size k l ys e R Ev), (list_size k l' _ e' R' eq_refl). lia.
    - pose proof (dstep_total _ _ _ _ B) as T. rewrite (dstep_slot _ _ _ _ D1) in T. lia. }
  eexists. split_and!; [|done| |done|].
  - reflexivity.
  - eapply dstep_trans; [exact D1|]. rewrite bump_write_back. exact D2.
  - simpl. rewrite Ex. by destruct (live now _).
Qed.

Definition is_list (v : DataType) : Prop := match v with TList _ => True | _ => False end.

#[local] Instance is_list_dec v : Decision (is_list v).
Proof. unfold is_list. destruct v; apply _. Defined.

(** What clients see: a list by its elements. *)
Inductive lval := AList (xs : list bytes) | AOther (v : DataType).

Definition lval_of (v : DataType) : lval :=
  match v with TList l => AList (default [] (ListData.to_vec_bytes l)) | v => AOther v end.

Definition lview (now : Z) o : option (lval * option Z) :=
  e ← live now o; Some (lval_of (Entry.value e), Expiry.expires_at_ms <$> Entry.expiry e).

(** Stored lists are packed correctly and never empty. *)
Definition list_ok e : Prop :=
  match Entry.value e with TList l => exists xs, ListData.repr l xs /\ xs <> [] | _ => True end.

Definition lists_ok s : Prop := forall k e, slot s k = Some e -> list_ok e.

Definition lassign (m : bytes -> option (lval * option Z)) k v := fun j => if decide (j = k) then v else m j.

Definition is_list_or_none (o : option (lval * option Z)) : bool :=
  match o with Some (AOther _, _) => false | _ => true end.

(** LMOVE on the map: the source loses the element, then the destination gains it. *)
Definition lmove_spec src dst (from_left to_left : bool) (m : bytes -> option (lval * option Z)) :
    (NexradeError + option bytes) * (bytes -> option (lval * option Z)) :=
  if negb (is_list_or_none (m dst)) then (inl WrongType, m)
  else
      match m src with
      | None => (inr None, m)
      | Some (AOther _, _) => (inl WrongType, m)
      | Some (AList xs, x) =>
          match take_end from_left xs with
          | None => (inr None, m)
          | Some (v, ys) =>
              let m := lassign m src (if decide (ys = []) then None else Some (AList ys, x)) in
              (inr (Some v),
               lassign m dst (Some match m dst with
                                   | Some (AList zs, z) => (AList (put_end to_left v zs), z)
                                   | _ => (AList [v], None)
                                   end))
          end
      end.

(** Bytes that may be added: a fresh destination and the element. *)
Definition lmove_bytes now src dst s : nat :=
  Database.estimate_entry_size dst fresh_list +
  match lview now (slot s src) with Some (AList xs, _) => total_len xs | _ => 0 end.

Lemma live_idem now o : live now (live now o) = live now o.
Proof. unfold live. destruct o as [e|]; [|done]. simpl. destruct (Entry.is_expired now e) eqn:X; [done|]. simpl. by rewrite X. Qed.

Lemma lview_live now o : lview now (live now o) = lview now o.
Proof. unfold lview. by rewrite live_idem. Qed.

Lemma lval_list l xs : ListData.repr l xs -> lval_of (TList l) = AList xs.
Proof. intros R. simpl. by rewrite (ListData.to_vec_refines _ _ R). Qed.

Lemma expired_same_deadline now e e' : Entry.expiry e' = Entry.expiry e -> Entry.is_expired now e' = Entry.is_expired now e.
Proof. unfold Entry.is_expired. by intros ->. Qed.

Lemma lview_entry now e l xs : Entry.is_expired now e = false -> Entry.value e = TList l -> ListData.repr l xs ->
  lview now (Some e) = Some (AList xs, Expiry.expires_at_ms <$> Entry.expiry e).
Proof. intros X E R. unfold lview, live. simpl. rewrite X. simpl. by rewrite E, (lval_list _ _ R). Qed.

(** A step on the shard of a key, seen from the keyspace. *)
Lemma on_shard_dstep {A} s k d (r : A) d' o f : swf s -> shards s !! shard_idx s k = Some d ->
  f d = Some (r, d') -> dstep d d' k o ->
  exists s', on_shard (shard_idx s k) f s = Some (r, s') /\ swf s' /\ assigns s s' k o /\
    (total_bytes d' <= total_bytes d -> no_bigger s s').
Proof.
  intros W Hd Hf [W' S]. destruct (on_shard_step s k d r d' o f W Hd Hf S W') as (s' & E & Ws & As & Es).
  exists s'. split_and!; [done..|]. intros Ht. split; [apply As|]. intros j n.
  eapply room_after; [done|done|apply As|done].
Qed.

Lemma lists_ok_assigns s s' k o : lists_ok s -> assigns s s' k o -> (forall e, o = Some e -> list_ok e) -> lists_ok s'.
Proof.
  intros L [_ As] Ho j e He. rewrite As in He. case_decide; [by apply Ho|by apply (L j)].
Qed.

(** The view of a slot follows what is stored there. *)
Lemma lview_assign now s s' k o : assigns s s' k o ->
  forall j, lview now (slot s' j) = lassign (fun i => lview now (slot s i)) k (lview now o) j.
Proof. intros [_ As] j. rewrite As. unfold lassign. by case_decide. Qed.

Lemma dst_ok_view now s k d : shards s !! shard_idx s k = Some d -> slot s k = Database.entries d !! k ->
  dst_ok now k d = is_list_or_none (lview now (slot s k)).
Proof.
  intros Hd ->. unfold dst_ok, Database.get_ro, lview, live.
  destruct (Database.entries d !! k) as [e|]; [|done]. simpl.
  destruct (Entry.is_expired now e); [done|]. simpl. by destruct (Entry.value e).
Qed.

Lemma live_Some now o e : live now o = Some e -> o = Some e /\ Entry.is_expired now e = false.
Proof. unfold live. destruct o as [x|]; [|done]. simpl. destruct (Entry.is_expired now x) eqn:X; by intros [= <-]. Qed.

Lemma take_end_nonempty left xs : xs <> [] -> is_Some (take_end left xs).
Proof.
  intros Hne. destruct left; simpl; [by destruct xs|].
  destruct xs as [|y xs _] using rev_ind; [done|]. by rewrite last_snoc.
Qed.

(** A step that stores no more than was there leaves as much room. *)
Lemma smaller_step s k d d' o : slot s k = Database.entries d !! k -> dstep d d' k o ->
  slot_size Database.estimate_entry_size k o <= slot_size Database.estimate_entry_size k (slot s k) ->
  total_bytes d' <= total_bytes d.
Proof. intros Hs D Hz. pose proof (dstep_total _ _ _ _ D) as T. rewrite <- Hs in T. lia. Qed.

(** The source is a list: the element leaves it, and the key with the last one. *)
Lemma lmove_pop_list now s src from_left e l xs : swf s -> lists_ok s -> live now (slot s src) = Some e ->
  Entry.value e = TList l -> ListData.repr l xs -> xs <> [] ->
  exists v ys s1, take_end from_left xs = Some (v, ys) /\
    on_shard (shard_idx s src) (pop_and_gc thr now src from_left) s = Some (inr (Some v), s1) /\
    swf s1 /\ lists_ok s1 /\ no_bigger s s1 /\
    forall j, lview now (slot s1 j) = lassign (fun i => lview now (slot s i)) src
      (if decide (ys = []) then None else Some (AList ys, Expiry.expires_at_ms <$> Entry.expiry e)) j.
Proof.
  intros W L El Ev R Hne. destruct (shard_of s src W) as (d & Hd & Wd & Hs).
  destruct (live_Some _ _ _ El) as [Es Hx]. destruct (take_end_nonempty from_left xs Hne) as [[v ys] T].
  pose proof (take_end_length _ _ _ _ T) as Hlen.
  destruct (pop_live_list now src from_left d e l xs v ys Wd) as (l' & d' & E & R' & D); [by rewrite <- Hs|done..|].
  destruct (on_shard_dstep s src d _ d' _ _ W Hd E D) as (s1 & E1 & W1 & A1 & B1).
  exists v, ys, s1. split_and!; [done|done|done| | |].
  - eapply lists_ok_assigns; [done..|]. intros x Hx'. unfold shrunk in Hx'. case_decide; [done|]. injection Hx' as <-.
    exists ys. done.
  - apply B1, (smaller_step s src d d' _ Hs D). rewrite Es. unfold shrunk. case_decide; cbn [slot_size from_option]; [lia|].
    rewrite (list_size src l xs e R Ev), (list_size src l' ys (Entry.set_value (TList l') e) R' eq_refl). lia.
  - intros j. rewrite (lview_assign _ _ _ _ _ A1). unfold lassign. case_decide; [|done]. unfold shrunk.
    case_decide; [done|]. by rewrite (lview_entry now (Entry.set_value (TList l') e) l' ys).
Qed.

(** The source is missing or holds something else. *)
Lemma lmove_pop_other now s src from_left : swf s -> lists_ok s ->
  match live now (slot s src) with
  | Some e => match Entry.value e with TList _ => False | _ => True end
  | None => True
  end ->
  exists s1, on_shard (shard_idx s src) (pop_and_gc thr now src from_left) s
      = Some (match live now (slot s src) with Some _ => inl WrongType | None => inr None end, s1) /\
    swf s1 /\ lists_ok s1 /\ forall j, lview now (slot s1 j) = lview now (slot s j).
Proof.
  intros W L Hv. destruct (shard_of s src W) as (d & Hd & Wd & Hs). rewrite Hs in Hv |- *.
  destruct (pop_no_list now src from_left d Wd Hv) as (d' & E & D).
  destruct (on_shard_dstep s src d _ d' _ _ W Hd E D) as (s1 & E1 & W1 & A1 & B1).
  exists s1. split_and!; [done|done| |].
  - eapply lists_ok_assigns; [done..|]. intros x Hx. apply live_Some in Hx as [Hx _]. apply (L src). by rewrite Hs.
  - intros j. rewrite (lview_assign _ _ _ _ _ A1). unfold lassign. rewrite lview_live, <- Hs. case_decide; by subst.
Qed.

(** The destination gains the element. *)
Lemma lmove_push now s dst to_left v : swf s -> lists_ok s ->
  is_list_or_none (lview now (slot s dst)) = true ->
  room s dst (Database.estimate_entry_size dst fresh_list + length v) ->
  exists s1, on_shard (shard_idx s dst) (push_and_count thr now dst v to_left) s = Some ((), s1) /\
    swf s1 /\ lists_ok s1 /\
    forall j, lview now (slot s1 j) = lassign (fun i => lview now (slot s i)) dst
      (Some match lview now (slot s dst) with
            | Some (AList zs, z) => (AList (put_end to_left v zs), z)
            | _ => (AList [v], None)
            end) j.
Proof.
  intros W L Hv F. destruct (shard_of s dst W) as (d & Hd & Wd & Hs). specialize (F d Hd).
  assert (Hl : exists l ys, from_option Entry.value (TList ListData.new) (live now (slot s dst)) = TList l /\
    ListData.repr l ys /\
    match lview now (slot s dst) with
    | Some (AList zs, z) => (AList (put_end to_left v zs), z)
    | _ => (AList [v], None)
    end = (AList (put_end to_left v ys), Expiry.expires_at_ms <$> (live now (slot s dst) ≫= Entry.expiry))).
  { unfold lview in *. destruct (live now (slot s dst)) as [e|] eqn:El; simpl in *.
    - destruct (live_Some _ _ _ El) as [Es _]. specialize (L _ _ Es). unfold list_ok in L.
      destruct (Entry.value e) as [| |l| | | | | | |]; try done. destruct L as (xs & R & _).
      exists l, xs. by rewrite (lval_list _ _ R).
    - exists ListData.new, []. split_and!; [done|apply ListData.list_repr_new|by destruct to_left]. }
  destruct Hl as (l & ys & Ev & R & ->). rewrite Hs in *.
  destruct (push_list_step now dst to_left d l ys v Wd Ev R F) as (l' & e' & d' & E & R' & D & Ev' & Ex').
  destruct (on_shard_dstep s dst d _ d' _ _ W Hd E D) as (s1 & E1 & W1 & A1 & _).
  exists s1. split_and!; [done|done| |].
  - eapply lists_ok_assigns; [done..|]. intros x [= <-]. unfold list_ok. rewrite Ev'. eexists. split; [done|].
    by destruct to_left, ys.
  - intros j. rewrite (lview_assign _ _ _ _ _ A1). unfold lassign. case_decide; [|done].
    assert (Hx : Entry.is_expired now e' = false).
    { unfold Entry.is_expired. rewrite Ex'. destruct (live now _) as [e|] eqn:El; [|done].
      apply live_Some in El as [_ El]. exact El. }
    by rewrite (lview_entry now e' l' _ Hx Ev' R'), Ex'.
Qed.

(** LMOVE between two keys of the keyspace, whichever shards hold them, is the
    pop of one list followed by the push on the other: the reply and what clients
    see afterwards are those of [lmove_spec] on one map.  A wrong type on either
    side changes nothing, an emptied source disappears, a missing destination is
    created, and with equal keys the list rotates. *)
Theorem lmove_moves_one_element now s src dst from_left to_left : swf s -> lists_ok s ->
  room s dst (lmove_bytes now src dst s) ->
  let '(reply, m) := lmove_spec src dst from_left to_left (fun j => lview now (slot s j)) in
  exists s', lmove_atomic thr now src dst from_left to_left s = Some (reply, s') /\ swf s' /\ lists_ok s' /\
    forall j, lview now (slot s' j) = m j.
Proof using Hthr.
  intros W L F. unfold lmove_spec, lmove_atomic. rewrite guards_lock_two.
  destruct (shard_of s dst W) as (dd & Hdd & Wdd & Hsd). rewrite Hdd. mstep. rewrite (dst_ok_view now s dst dd Hdd Hsd).
  destruct (is_list_or_none (lview now (slot s dst))) eqn:Hdst; [|by exists s]. simpl.
  destruct (live now (slot s src)) as [e|] eqn:El; [destruct (decide (is_list (Entry.value e))) as [Hv|Hv]|].
  - destruct (live_Some _ _ _ El) as [Es Hx]. pose proof (L _ _ Es) as Lk. unfold list_ok in Lk.
    destruct (Entry.value e) as [| |l| | | | | | |] eqn:Ev; try done. destruct Lk as (xs & R & Hne).
    assert (V : lview now (slot s src) = Some (AList xs, Expiry.expires_at_ms <$> Entry.expiry e)).
    { rewrite Es. by eapply lview_entry. }
    destruct (lmove_pop_list now s src from_left e l xs W L El Ev R Hne) as (v & ys & s1 & T & E1 & W1 & L1 & B1 & V1).
    rewrite V, T, E1. mstep. rewrite <- (shard_idx_num s s1 dst) by apply B1.
    destruct (lmove_push now s1 dst to_left v W1 L1) as (s2 & -> & W2 & L2 & V2).
    + rewrite V1. unfold lassign. by repeat case_decide.
    + apply B1. intros d Hd. specialize (F d Hd). unfold lmove_bytes in F. rewrite V in F.
      pose proof (take_end_length _ _ _ _ T). lia.
    + mstep. exists s2. split_and!; [done..|]. intros j. rewrite V2. unfold lassign at 1 3. rewrite !V1. done.
  - assert (V : exists x y, lview now (slot s src) = Some (AOther x, y)).
    { rewrite <- lview_live, El. unfold lview, live. simpl. rewrite (proj2 (live_Some _ _ _ El)). simpl.
      destruct (Entry.value e); first [by eauto|by destruct Hv]. }
    destruct V as (x & y & ->).
    destruct (lmove_pop_other now s src from_left W L) as (s1 & -> & W1 & L1 & V1).
    { rewrite El. destruct (Entry.value e); first [done|by destruct Hv]. }
    rewrite El. mstep. by exists s1.
  - rewrite <- (lview_live now (slot s src)), El. simpl.
    destruct (lmove_pop_other now s src from_left W L) as (s1 & -> & W1 & L1 & V1); [by rewrite El|].
    rewrite El. mstep. by exists s1.
Qed.
End Lists.

(** ** A queue of two keys *)

Section Sample.
#[local] Existing Instance SetData.vec_index_set.

(** A pushed list, packed as the code packs it. *)
Definition packed (xs : list bytes) : ListData.ListData :=
  fold_left (fun l x => default l (ListData.push_back ListData.default_thresholds l x)) xs ListData.new.

Lemma packed_repr xs : ListData.repr (packed xs) xs.
Proof.
  unfold packed.
  assert (G : forall ys l zs, ListData.repr l zs ->
    ListData.repr (fold_left (fun l x => default l (ListData.push_back ListData.default_thresholds l x)) ys l) (zs ++ ys)).
  { induction ys as [|y ys IH]; intros l zs R; simpl; [by rewrite app_nil_r|].
    destruct (ListData.push_back_refines _ ListData.default_thresholds_sane l zs R y) as (l' & -> & R').
    simpl. replace (zs ++ y :: ys) with ((zs ++ [y]) ++ ys) by (by rewrite <- app_assoc). by apply IH. }
  apply (G xs ListData.new []), ListData.list_repr_new.
Qed.

Definition queue_pairs : list (bytes * Entry.t) :=
  [(bstr "q", Entry.with_expiry (TList (packed [bstr "a"; bstr "b"])) (Expiry.from_ms 150));
   (bstr "p", Entry.new (TList (packed [bstr "z"])))].

Definition queue_keyspace : t := default (new (2 ^ 2)) (mset queue_pairs (new (2 ^ 2))).

Lemma queue_keyspace_ok : swf queue_keyspace /\ lists_ok queue_keyspace.
Proof.
  unfold queue_keyspace. destruct (mset_spec (new (2 ^ 2)) queue_pairs) as (s' & -> & W & V).
  - apply swf_new. lia.
  - by apply (bool_decide_unpack _).
  - intros k. apply room_all. vm_compute. reflexivity.
  - split; [exact W|]. intros k e He. simpl in He. rewrite V, slot_new in He.
    destruct (list_to_map queue_pairs !! k) as [x|] eqn:Ex; [|done]. injection He as <-.
    apply elem_of_list_to_map_2 in Ex. apply elem_of_cons in Ex as [Ex|Ex]; [|apply list_elem_of_singleton in Ex];
      injection Ex as -> ->; unfold list_ok; cbn [Entry.value Entry.new Entry.with_expiry]; eexists; (split; [apply packed_repr|done]).
Qed.

(** The elements of a list, with its deadline. *)
Definition elements_of (o : option (lval * option Z)) : option (list bytes * option Z) :=
  '(v, x) ← o; match v with AList xs => Some (xs, x) | _ => None end.

(** One element moves to the front of the other list. *)
Lemma lmove_moves_one_element_witness :
  exists reply s', lmove_atomic ListData.default_thresholds 100 (bstr "q") (bstr "p") false true queue_keyspace
      = Some (reply, s') /\ swf s' /\
    elements_of (lview 100 (slot s' (bstr "p"))) = Some ([bstr "b"; bstr "z"], None) /\
    elements_of (lview 100 (slot s' (bstr "q"))) = Some ([bstr "a"], Some 150%Z).
Proof.
  destruct queue_keyspace_ok as [W L].
  assert (F : room queue_keyspace (bstr "p") (lmove_bytes 100 (bstr "q") (bstr "p") queue_keyspace)).
  { apply room_all. vm_compute. reflexivity. }
  assert (P : elements_of (lview 100 (slot queue_keyspace (bstr "p"))) = Some ([bstr "z"], None)) by (vm_compute; reflexivity).
  assert (Q : elements_of (lview 100 (slot queue_keyspace (bstr "q"))) = Some ([bstr "a"; bstr "b"], Some 150%Z))
    by (vm_compute; reflexivity).
  pose proof (lmove_moves_one_element ListData.default_thresholds ListData.default_thresholds_sane 100 queue_keyspace
    (bstr "q") (bstr "p") false true W L F) as B.
  unfold lmove_spec in B.
  destruct (lview 100 (slot queue_keyspace (bstr "p"))) as [[[ps|] px]|]; try discriminate P. injection P as -> ->.
  destruct (lview 100 (slot queue_keyspace (bstr "q"))) as [[[qs|] qx]|]; try discriminate Q. injection Q as -> ->.
  cbn in B. destruct B as (s' & E & W' & _ & V). eexists _, s'.
  split_and!; [exact E|exact W'|rewrite V; reflexivity..].
Defined.
End Sample.
