(* ===== verification/ScanSpec.v ===== *)
(** * ScanSpec: SCAN visits every key exactly once

    The order key of a key is the reversed hash, so that the shard index is its
    top bits: walking the shards in reversed index order walks the keys in
    ascending order.  A page is then the next keys in one order that no shard
    count enters, and a cursor taken from one server can be resumed at another. *)

From S2P Require Import Prelude Glob Types Keyspace KeyspaceInvariant KeyspaceSpec Shards ShardsSpec.
From S2P Require SetData.

Import ShardedDatabase.

(** ** Reversed bits *)

Lemma rev_bits_spec n z i :
  Z.testbit (rev_bits n z) i = bool_decide (0 <= i < Z.of_nat n)%Z && Z.testbit z (Z.of_nat n - 1 - i).
Proof.
  revert z. induction n as [|n IH]; intros z; [simpl; rewrite Z.bits_0; case_bool_decide; lia || done|].
  cbn [rev_bits]. rewrite Z.lor_spec, IH. destruct (decide (0 <= i)%Z) as [Hi|Hi].
  2: { rewrite Z.testbit_neg_r by lia. by rewrite !bool_decide_eq_false_2 by lia. }
  rewrite Z.shiftl_spec, Z.land_spec by lia. change 1%Z with (Z.ones 1) at 1.
  destruct (decide (i = Z.of_nat n)) as [->|Hne].
  - rewrite Z.sub_diag, Z.ones_spec_low by lia. rewrite bool_decide_eq_false_2, bool_decide_eq_true_2 by lia.
    rewrite andb_true_r, andb_false_l, andb_true_l, orb_false_r. f_equal. lia.
  - replace (Z.testbit z _ && Z.testbit (Z.ones 1) (i - Z.of_nat n)) with false.
    + rewrite orb_false_l. destruct (decide (i < Z.of_nat n)%Z).
      * rewrite Z.shiftr_spec, !bool_decide_eq_true_2 by lia. rewrite !andb_true_l. f_equal. lia.
      * by rewrite !bool_decide_eq_false_2 by lia.
    + symmetry. apply andb_false_iff. right. destruct (decide (i < Z.of_nat n)%Z).
      * apply Z.testbit_neg_r. lia.
      * apply Z.ones_spec_high. lia.
Qed.

(** The low [b] bits, reversed. *)
Definition top (b : nat) (z : Z) : Z := Z.shiftr (reverse_bits z) (64 - Z.of_nat b).

Lemma top_spec b z i : b <= 64 ->
  Z.testbit (top b z) i = bool_decide (0 <= i < Z.of_nat b)%Z && Z.testbit z (Z.of_nat b - 1 - i).
Proof.
  intros Hb. unfold top, reverse_bits. destruct (decide (0 <= i)%Z) as [Hi|Hi].
  - rewrite Z.shiftr_spec, rev_bits_spec by lia. change (Z.of_nat 64) with 64%Z.
    destruct (decide (i < Z.of_nat b)%Z).
    + rewrite !bool_decide_eq_true_2 by lia. f_equal. f_equal. lia.
    + by rewrite !bool_decide_eq_false_2 by lia.
  - rewrite Z.testbit_neg_r by lia. by rewrite bool_decide_eq_false_2 by lia.
Qed.

(** Reversal is an involution on [b] bits. *)
Lemma top_top b z : b <= 64 -> top b (top b z) = (z mod 2 ^ Z.of_nat b)%Z.
Proof.
  intros Hb. apply Z.bits_inj'. intros i Hi. rewrite !top_spec by done.
  destruct (decide (i < Z.of_nat b)%Z).
  - rewrite !bool_decide_eq_true_2, Z.mod_pow2_bits_low by lia. simpl. f_equal. lia.
  - rewrite bool_decide_eq_false_2, Z.mod_pow2_bits_high by lia. done.
Qed.

Lemma top_mod b z : b <= 64 -> top b (z mod 2 ^ Z.of_nat b) = top b z.
Proof.
  intros Hb. apply Z.bits_inj'. intros i Hi. rewrite !top_spec by done.
  case_bool_decide; [|done]. simpl. rewrite Z.mod_pow2_bits_low by lia. done.
Qed.

Lemma top_range b z : b <= 64 -> (0 <= top b z < 2 ^ Z.of_nat b)%Z.
Proof.
  intros Hb. replace (top b z) with (top b z mod 2 ^ Z.of_nat b)%Z; [apply Z.mod_pos_bound; lia|].
  apply Z.bits_inj'. intros i Hi. destruct (decide (i < Z.of_nat b)%Z).
  - by rewrite Z.mod_pow2_bits_low by lia.
  - rewrite Z.mod_pow2_bits_high, top_spec by lia. by rewrite bool_decide_eq_false_2 by lia.
Qed.

Lemma token_mod k b : b <= 32 -> (scan_cursor_token k mod 2 ^ Z.of_nat b = fnv1a k mod 2 ^ Z.of_nat b)%Z.
Proof.
  intros Hb. unfold scan_cursor_token. case_bool_decide; [|done].
  replace (2 ^ 32)%Z with (2 ^ (32 - Z.of_nat b) * 2 ^ Z.of_nat b)%Z by (rewrite <- Z.pow_add_r by lia; f_equal; lia).
  apply Z.mod_add. lia.
Qed.

Lemma token_range k : (0 < scan_cursor_token k < 2 ^ 64)%Z.
Proof.
  pose proof (fnv1a_nonneg k). assert (fnv1a k < 2 ^ 64)%Z.
  { unfold fnv1a. assert (H0 : (0xcbf29ce484222325 < 2 ^ 64)%Z) by lia. revert H0.
    generalize 0xcbf29ce484222325%Z. clear. induction k as [|x k IH]; intros h Hh; simpl; [done|].
    apply IH, wrap64_range. }
  unfold scan_cursor_token. case_bool_decide; lia.
Qed.

Lemma order_key_range k : (0 < scan_order_key k < 2 ^ 64)%Z.
Proof.
  unfold scan_order_key. pose proof (token_range k) as Ht. set (z := scan_cursor_token k) in *.
  assert (R : (0 <= reverse_bits z < 2 ^ 64)%Z).
  { replace (reverse_bits z) with (top 64 z) by (unfold top; apply Z.shiftr_0_r). apply (top_range 64). lia. }
  enough (reverse_bits z <> 0%Z) by lia. intros E. enough (z = 0%Z) by lia.
  assert (T : top 64 (top 64 z) = (z mod 2 ^ 64)%Z) by (apply (top_top 64); lia).
  rewrite Z.mod_small in T by lia. rewrite <- T. unfold top at 2. change (64 - Z.of_nat 64)%Z with 0%Z.
  rewrite Z.shiftr_0_r, E. reflexivity.
Qed.

(** ** One order for the whole keyspace *)

#[export] Instance deadline_le_antisym : AntiSymm (=) deadline_le.
Proof.
  intros [m a] [n b]. unfold deadline_le. cbn [fst snd]. intros [?|[-> Hab]] [?|[? Hba]]; try lia.
  f_equal. apply bytes_cmp_eq. rewrite (bytes_cmp_antisym a b) in Hba. by destruct (bytes_cmp a b).
Qed.

Lemma scan_sorted_unique (l1 l2 : list (Z * bytes)) :
  StronglySorted scan_le l1 -> StronglySorted scan_le l2 -> l1 ≡ₚ l2 -> l1 = l2.
Proof. intros S1 S2 P. by apply (StronglySorted_unique deadline_le). Qed.

Lemma scan_sorted (l : list (Z * bytes)) : StronglySorted scan_le (merge_sort scan_le l).
Proof. apply (StronglySorted_merge_sort deadline_le). Qed.

Lemma sorted_filter {A} (R : A -> A -> Prop) (P : A -> Prop) `{!forall x, Decision (P x)} (l : list A) :
  StronglySorted R l -> StronglySorted R (filter P l).
Proof.
  induction 1 as [|x l S IH F]; [constructor|]. rewrite filter_cons. case_decide; [|done].
  constructor; [done|]. rewrite Forall_forall in F |- *. intros y [_ Hy]%list_elem_of_filter. by apply F.
Qed.

Lemma filter_all {A} (P : A -> Prop) `{!forall x, Decision (P x)} (l : list A) : (forall x, x ∈ l -> P x) -> filter P l = l.
Proof.
  induction l as [|x l IH]; intros Hl; [done|]. rewrite filter_cons_True by (apply Hl; left).
  f_equal. apply IH. intros y Hy. apply Hl. by right.
Qed.

(** Ascending, without repetition. *)
Definition scan_lt (p q : Z * bytes) : Prop := scan_le p q /\ p <> q.

Lemma strictly_sorted l : StronglySorted scan_le l -> NoDup l -> StronglySorted scan_lt l.
Proof.
  intros S. induction S as [|x l S IH F]; intros N; constructor; apply NoDup_cons in N as [Nx N]; [by apply IH|].
  rewrite Forall_forall in F |- *. intros y Hy. split; [by apply F|]. by intros ->.
Qed.

Lemma strictly_sorted_NoDup l : StronglySorted scan_lt l -> NoDup l.
Proof.
  induction 1 as [|x l S IH F]; constructor; [|done]. rewrite Forall_forall in F. intros Hx. by destruct (F x Hx).
Qed.

Lemma strictly_sorted_weaken l : StronglySorted scan_lt l -> StronglySorted scan_le l.
Proof.
  induction 1 as [|x l S IH F]; constructor; [done|]. eapply Forall_impl; [exact F|]. by intros y [? _].
Qed.

Lemma strictly_sorted_app l1 l2 : StronglySorted scan_lt l1 -> StronglySorted scan_lt l2 ->
  (forall p q, p ∈ l1 -> q ∈ l2 -> (p.1 < q.1)%Z) -> StronglySorted scan_lt (l1 ++ l2).
Proof.
  intros S1 S2 H. induction S1 as [|x l1 S1 IH F]; [done|]. simpl. constructor.
  - apply IH. intros p q Hp. apply H. by right.
  - apply Forall_app. split; [done|]. apply Forall_forall. intros q Hq.
    pose proof (H x q ltac:(by left) Hq). split; [by left|]. intros ->. lia.
Qed.

(** ** Pages *)

Section Pages.
Context `{SetData.IndexSet} `{HashOrder} (now : Z) (pattern : bytes) (keep : bytes -> Entry.t -> bool).
Implicit Types (s : t) (d : Database.t) (k : bytes) (e : Entry.t).

(** The keys SCAN is after. *)
Definition wanted k e : bool := negb (Entry.is_expired now e) && glob_match pattern k && keep k e.

Definition matching s k : Prop := exists e, slot s k = Some e /\ wanted k e = true.

(** The reference: all of them in the one order. *)
Definition ordered (ks : list bytes) : list (Z * bytes) :=
  merge_sort scan_le (map (fun k => (scan_order_key k, k)) ks).

(** The next page after a cursor, and the cursor to go on with. *)
Definition next_page (cursor : Z) (count : nat) (ks : list bytes) : list bytes * Z :=
  let rest := filter (fun p => (cursor < p.1)%Z) (ordered ks) in
  ((take (count `max` 1) rest).*2, from_option fst 0%Z (rest !! (count `max` 1 - 1))).

Lemma fill_page_app count b1 b2 page :
  fill_page count page (b1 ++ b2)
  = match fill_page count page b1 with (page, Some c) => (page, Some c) | (page, None) => fill_page count page b2 end.
Proof.
  revert page. induction b1 as [|[ok k] b1 IH]; intros page; [done|]. simpl. case_bool_decide; [done|]. apply IH.
Qed.

Lemma fill_page_take count batch page : length page < count ->
  fill_page count page batch
  = (page ++ (take (count - length page) batch).*2, fst <$> batch !! (count - length page - 1)).
Proof.
  revert page. induction batch as [|[ok k] batch IH]; intros page Hp.
  - rewrite take_nil. simpl. by rewrite app_nil_r.
  - cbn [fill_page]. rewrite length_app. cbn [length]. case_bool_decide as E.
    + replace (count - length page) with 1 by lia. done.
    + rewrite IH by (rewrite length_app; simpl; lia). rewrite length_app. cbn [length].
      replace (count - length page) with (S (count - (length page + 1))) by lia. cbn [take fmap list_fmap snd].
      rewrite <- app_assoc. f_equal. replace (S _ - 1) with (S (count - (length page + 1) - 1)) by lia. done.
Qed.

(** The walk is one pass over the batches laid end to end. *)
Definition batch s (within : option Z) (step : nat) : list (Z * bytes) :=
  from_option (scan_batch now pattern scan_order_key keep within) [] (shards s !! shard_for_step s step).

Fixpoint batches s (within : option Z) (steps : list nat) : list (Z * bytes) :=
  match steps with
  | [] => []
  | step :: steps => batch s within step ++ batches s None steps
  end.

Lemma scan_steps_batches s count steps : Forall (fun i => is_Some (shards s !! shard_for_step s i)) steps ->
  forall within page, scan_steps now pattern scan_order_key keep s count within page steps
    = Some (let '(page, c) := fill_page count page (batches s within steps) in (page, default 0%Z c)).
Proof.
  induction 1 as [|i steps [d Hd] F IH]; intros within page; [done|].
  cbn [scan_steps batches]. unfold batch. rewrite fill_page_app, Hd. cbn [from_option mbind option_bind].
  destruct (fill_page count page (scan_batch now pattern scan_order_key keep within d)) as [page' [c|]]; [done|]. apply IH.
Qed.

Lemma elem_of_batch within d p : p ∈ scan_batch now pattern scan_order_key keep within d <->
  exists e, Database.entries d !! p.2 = Some e /\ wanted p.2 e = true /\ p.1 = scan_order_key p.2 /\
    after_cursor within p = true.
Proof.
  unfold scan_batch. rewrite merge_sort_Permutation, list_elem_of_filter, list_elem_of_fmap.
  setoid_rewrite list_elem_of_filter. setoid_rewrite hm_iter_perm. split.
  - intros (Hc & [k e] & -> & Hw & He). apply elem_of_map_to_list in He. exists e.
    split_and!; [done|by apply Is_true_true in Hw|done|by apply Is_true_true in Hc].
  - intros (e & He & Hw & Hp & Hc). split; [by apply Is_true_true|]. exists (p.2, e).
    split; [by destruct p; simpl in *; subst|]. split; [by apply Is_true_true|by apply elem_of_map_to_list].
Qed.

Lemma NoDup_batch within d : NoDup (scan_batch now pattern scan_order_key keep within d).
Proof.
  unfold scan_batch. rewrite merge_sort_Permutation. apply NoDup_filter.
  assert (N : NoDup (filter (fun kv => wanted kv.1 kv.2) (hm_iter (Database.entries d))).*1).
  { apply NoDup_fmap_fst.
    - intros k x y [_ Hx]%list_elem_of_filter [_ Hy]%list_elem_of_filter. rewrite hm_iter_perm in Hx, Hy.
      apply elem_of_map_to_list in Hx, Hy. congruence.
    - apply NoDup_filter. rewrite hm_iter_perm. apply NoDup_map_to_list. }
  unfold wanted in N. apply (NoDup_fmap_1 snd). rewrite <- list_fmap_compose. exact N.
Qed.

Section Walk.
Context (s : t) (b : nat) (W : swf s) (Hb : 0 < b <= 32) (Hn : num_shards s = 2 ^ b).

Lemma step_of_cursor (c : Z) : trailing_zeros (num_shards s) = Z.of_nat b.
Proof. unfold trailing_zeros. rewrite Hn, Nat2Z.inj_pow. apply Z.log2_pow2. lia. Qed.

Lemma shard_for_step_top i : Z.of_nat (shard_for_step s i) = top b (Z.of_nat i).
Proof using Hb Hn.
  unfold shard_for_step. rewrite (step_of_cursor 0). pose proof (top_range b (Z.of_nat i)). unfold top in *. lia.
Qed.

Lemma pow_nat : Z.of_nat (2 ^ b) = (2 ^ Z.of_nat b)%Z.
Proof. by rewrite Nat2Z.inj_pow. Qed.

Lemma step_in_range i : is_Some (shards s !! shard_for_step s i).
Proof using Hb Hn W.
  apply lookup_lt_is_Some_2. rewrite (swf_len _ W), Hn. pose proof (shard_for_step_top i) as E.
  pose proof (top_range b (Z.of_nat i)). pose proof pow_nat. lia.
Qed.

(** The shard of a key is reached at the step its order key starts with. *)
Lemma key_step k : shard_for_step s (Z.to_nat (top b (scan_cursor_token k))) = shard_idx s k.
Proof using Hb Hn.
  apply Nat2Z.inj. rewrite shard_for_step_top, (shard_idx_mod s b k Hn), <- token_mod by lia.
  pose proof (top_range b (scan_cursor_token k)). rewrite Z2Nat.id, top_top by lia. done.
Qed.

Lemma step_key i k : i < 2 ^ b -> shard_idx s k = shard_for_step s i ->
  Z.of_nat i = Z.shiftr (scan_order_key k) (64 - Z.of_nat b).
Proof using Hb Hn.
  intros Hi E. change (Z.shiftr (scan_order_key k) (64 - Z.of_nat b)) with (top b (scan_cursor_token k)).
  rewrite <- top_mod, token_mod, <- (shard_idx_mod s b k Hn), E, shard_for_step_top, top_top by lia.
  pose proof pow_nat. rewrite Z.mod_small; lia.
Qed.

(** A key SCAN is after, with its place in the order. *)
Definition scanned (p : Z * bytes) : Prop := matching s p.2 /\ p.1 = scan_order_key p.2.

Definition step_of (p : Z * bytes) : Z := Z.shiftr p.1 (64 - Z.of_nat b).

Lemma elem_of_step within i p : i < 2 ^ b ->
  p ∈ batch s within i <-> scanned p /\ step_of p = Z.of_nat i /\ after_cursor within p = true.
Proof using Hb Hn W.
  intros Hi. unfold batch. destruct (step_in_range i) as [d Hd]. rewrite Hd. simpl. rewrite elem_of_batch. split.
  - intros (e & He & Hw & Hp & Hc). split; [split; [|done]|split; [|done]].
    + exists e. split; [by eapply slot_found|done].
    + unfold step_of. rewrite Hp. symmetry. apply step_key; [done|]. eapply swf_routed; eauto.
  - intros ([(e & He & Hw) Hp] & Hs & Hc). exists e. split_and!; try done.
    assert (E : shard_for_step s i = shard_idx s p.2).
    { rewrite <- key_step. f_equal. unfold step_of in Hs. rewrite Hp in Hs.
      change (Z.shiftr (scan_order_key p.2) (64 - Z.of_nat b)) with (top b (scan_cursor_token p.2)) in Hs. lia. }
    unfold slot in He. by rewrite <- E, Hd in He.
Qed.

Lemma batches_seq m : forall start within, start + m <= 2 ^ b ->
  StronglySorted scan_lt (batches s within (seq start m)) /\
  forall p, p ∈ batches s within (seq start m) <->
    scanned p /\ (Z.of_nat start <= step_of p < Z.of_nat (start + m))%Z /\
    (step_of p = Z.of_nat start -> after_cursor within p = true).
Proof using Hb Hn W.
  induction m as [|m IH]; intros start within Hm; cbn [seq batches].
  { split; [constructor|]. intros p. rewrite elem_of_nil. split; [done|]. lia. }
  destruct (IH (S start) None ltac:(lia)) as [IHs IHm]. split.
  - apply strictly_sorted_app; [|done|].
    + unfold batch. destruct (shards s !! shard_for_step s start); simpl; [|constructor].
      apply strictly_sorted; [apply scan_sorted|apply NoDup_batch].
    + intros p q Hp Hq. apply elem_of_step in Hp as (_ & Hp & _); [|lia]. apply IHm in Hq as (_ & Hq & _).
      unfold step_of in *. destruct (Z.lt_ge_cases p.1 q.1) as [|Hle]; [done|]. exfalso.
      rewrite !Z.shiftr_div_pow2 in * by lia.
      pose proof (Z.div_le_mono q.1 p.1 (2 ^ (64 - Z.of_nat b))). lia.
  - intros p. rewrite elem_of_app, elem_of_step, IHm by lia. split.
    + intros [(?&?&?)|(?&?&?)]; (split; [done|]; split; [lia|]); [done|lia].
    + intros (? & ? & Hc). destruct (decide (step_of p = Z.of_nat start)); [left; auto|right].
      split_and!; [done|lia|lia|done].
Qed.

Lemma step_bound z : (0 <= z < 2 ^ 64)%Z -> (0 <= z / 2 ^ (64 - Z.of_nat b) < 2 ^ Z.of_nat b)%Z.
Proof using Hb.
  intros Hz. clear -Hb Hz. split; [apply Z.div_pos; lia|]. apply Z.div_lt_upper_bound; [lia|].
  rewrite <- Z.pow_add_r by lia. replace (64 - Z.of_nat b + Z.of_nat b)%Z with 64%Z by lia. lia.
Qed.

(** From the shard of the cursor on, the walk meets the keys past the cursor. *)
Lemma batches_from_cursor ks cursor start : (forall k, k ∈ ks <-> matching s k) -> NoDup ks ->
  Z.of_nat start = (cursor / 2 ^ (64 - Z.of_nat b))%Z -> start < 2 ^ b ->
  batches s (Some cursor) (seq start (2 ^ b - start)) = filter (fun p => (cursor < p.1)%Z) (ordered ks).
Proof using Hb Hn W.
  intros Hk N Hs Hlt. destruct (batches_seq (2 ^ b - start) start (Some cursor)) as [S M]; [lia|].
  apply scan_sorted_unique; [by apply strictly_sorted_weaken|apply sorted_filter, scan_sorted|].
  apply NoDup_Permutation; [by apply strictly_sorted_NoDup| |].
  { apply NoDup_filter. unfold ordered. rewrite merge_sort_Permutation. apply NoDup_fmap_2; [|done].
    by intros x y [= _ ->]. }
  intros [ok k]. rewrite M, list_elem_of_filter. unfold ordered. rewrite merge_sort_Permutation, list_elem_of_fmap.
  unfold scanned, after_cursor, step_of. cbn [fst snd]. rewrite bool_decide_eq_true, Z.shiftr_div_pow2 by lia. split.
  - intros ([Hm ->] & Hr & Hcur). split; [|exists k; split; [done|by apply Hk]].
    destruct (Z.lt_ge_cases cursor (scan_order_key k)) as [|Hle]; [done|].
    pose proof (Z.div_le_mono _ _ (2 ^ (64 - Z.of_nat b)) ltac:(lia) Hle). apply Hcur. lia.
  - intros (Hc & k' & [= -> ->] & Hin). split; [by rewrite <- Hk|]. split; [|done].
    pose proof (Z.div_le_mono cursor (scan_order_key k') (2 ^ (64 - Z.of_nat b))).
    pose proof (step_bound (scan_order_key k')). pose proof (order_key_range k'). pose proof pow_nat. lia.
Qed.

(** A page of the code is a page of the reference order. *)
Lemma scan_page_spec ks cursor count : (forall k, k ∈ ks <-> matching s k) -> NoDup ks ->
  (0 <= cursor < 2 ^ 64)%Z ->
  scan_page now pattern scan_order_key keep cursor count s = Some (next_page cursor count ks).
Proof using Hb Hn W.
  intros Hk N Hc. unfold scan_page. rewrite (step_of_cursor 0), bool_decide_eq_false_2 by lia.
  set (start := if bool_decide (cursor = 0)%Z then 0 else Z.to_nat (Z.shiftr cursor (64 - Z.of_nat b))).
  pose proof (step_bound cursor Hc) as B. pose proof pow_nat as P.
  assert (Hs : Z.of_nat start = (cursor / 2 ^ (64 - Z.of_nat b))%Z).
  { unfold start. rewrite Z.shiftr_div_pow2 by lia. case_bool_decide as Hz; [by subst|lia]. }
  rewrite scan_steps_batches by (apply Forall_true; intros; apply step_in_range).
  rewrite Hn, (batches_from_cursor ks cursor start Hk N Hs), fill_page_take by (simpl; lia).
  unfold next_page. simpl. rewrite Nat.sub_0_r. f_equal. f_equal. by destruct (_ !! _).
Qed.
End Walk.

(** ** A traversal *)

(** A client that pages until the cursor is zero; each page may come from another
    server and ask for another count. *)
Fixpoint drive (servers : list (t * nat)) (cursor : Z) : may_panic (list bytes * Z) :=
  match servers with
  | [] => Some ([], cursor)
  | (s, count) :: servers =>
      '(page, next) ← scan_page now pattern scan_order_key keep cursor count s;
      if bool_decide (next = 0)%Z then Some (page, 0%Z)
      else '(more, last) ← drive servers next; Some (page ++ more, last)
  end.

(** What is left after the last key of a page. *)
Lemma filter_past (l : list (Z * bytes)) (c : Z) i p : StronglySorted (fun a b => (a.1 < b.1)%Z) l ->
  filter (fun q => (c < q.1)%Z) l !! i = Some p ->
  filter (fun q => (p.1 < q.1)%Z) l = drop (S i) (filter (fun q => (c < q.1)%Z) l).
Proof.
  intros S. revert i. induction S as [|x l S IH F]; intros i; [done|]. rewrite !filter_cons.
  rewrite Forall_forall in F. case_decide as Hx.
  - destruct i as [|i]; cbn [lookup list_lookup].
    + intros [= ->]. rewrite decide_False by lia. simpl. rewrite drop_0, !filter_all; [done|..]; intros q Hq; specialize (F q Hq); lia.
    + intros Hp. rewrite decide_False; [by apply IH|].
      apply list_elem_of_lookup_2, list_elem_of_filter in Hp as [_ Hp]. specialize (F p Hp). lia.
  - intros Hp. rewrite decide_False; [by apply IH|].
    apply list_elem_of_lookup_2, list_elem_of_filter in Hp as [Hc Hp]. lia.
Qed.

Lemma ordered_ascending ks : NoDup (map scan_order_key ks) -> StronglySorted (fun a b => (a.1 < b.1)%Z) (ordered ks).
Proof.
  intros N. assert (N' : NoDup (ordered ks).*1).
  { unfold ordered. rewrite merge_sort_Permutation, <- list_fmap_compose. exact N. }
  pose proof (scan_sorted (map (fun k => (scan_order_key k, k)) ks)) as S. fold (ordered ks) in S.
  induction S as [|x l S IH F]; [constructor|]. apply NoDup_cons in N' as [Hx N']. constructor; [by apply IH|].
  rewrite Forall_forall in F |- *. intros y Hy. destruct (F y Hy) as [|[E _]]; [done|].
  destruct Hx. rewrite E. by apply list_elem_of_fmap_2.
Qed.

(** A server that holds these keys, in a power of two of shards. *)
Definition serves (ks : list bytes) s : Prop := swf s /\ forall k, k ∈ ks <-> matching s k.

Lemma drive_spec ks : NoDup (map scan_order_key ks) -> forall servers cursor,
  Forall (fun x => serves ks x.1) servers -> (0 <= cursor < 2 ^ 64)%Z ->
  length (filter (fun p => (cursor < p.1)%Z) (ordered ks)) < length servers ->
  drive servers cursor = Some ((filter (fun p => (cursor < p.1)%Z) (ordered ks)).*2, 0%Z).
Proof.
  intros N servers. induction servers as [|[s count] servers IH]; intros cursor F Hc Hl; [simpl in Hl; lia|].
  apply Forall_cons in F as [[W Hk] F]. cbn [fst] in *. destruct (swf_pow _ W) as (b & Hb & Hn). cbn [drive].
  rewrite (scan_page_spec s b W Hb Hn ks) by (done || by eapply NoDup_fmap_1). unfold next_page. mstep.
  set (rest := filter _ (ordered ks)) in *. set (n := count `max` 1). destruct (rest !! (n - 1)) as [p|] eqn:E; simpl.
  - assert (Hp : (0 < p.1 < 2 ^ 64)%Z).
    { apply list_elem_of_lookup_2, list_elem_of_filter in E as [_ E]. unfold ordered in E.
      rewrite merge_sort_Permutation in E. apply list_elem_of_fmap in E as (k & -> & _). apply order_key_range. }
    rewrite bool_decide_eq_false_2 by lia.
    pose proof (filter_past (ordered ks) cursor (n - 1) p (ordered_ascending ks N) E) as P. fold rest in P.
    replace (S (n - 1)) with n in P by lia. pose proof (lookup_lt_Some _ _ _ E) as Hlen.
    rewrite IH; [|done|lia|rewrite P, length_drop; simpl in Hl; lia]. rewrite P. mstep.
    by rewrite <- fmap_app, take_drop.
  - apply lookup_ge_None in E. rewrite take_ge by lia. done.
Qed.

End Pages.

(** ** Two servers *)

Section Sample.
#[local] Existing Instance SetData.vec_index_set.
#[local] Existing Instance canonical_order.

(** The same three keys, in two shards. *)
Definition small_keyspace : t := default (new (2 ^ 1)) (mset sample_pairs (new (2 ^ 1))).

Lemma mset_serves b : 0 < b <= 32 -> (forall k, room (new (2 ^ b)) k (batch_bytes sample_pairs)) ->
  serves 100 (bstr "*") (fun _ _ => true) [bstr "a"; bstr "b"; bstr "c"]
    (default (new (2 ^ b)) (mset sample_pairs (new (2 ^ b)))).
Proof.
  intros Hb R. destruct (mset_spec (new (2 ^ b)) sample_pairs) as (s' & -> & W & V); [by apply swf_new| |done|].
  { by apply (bool_decide_unpack _). }
  split; [exact W|]. intros k. unfold matching. simpl. setoid_rewrite V.
  change [bstr "a"; bstr "b"; bstr "c"] with (sample_pairs.*1). split.
  - intros ([j e] & -> & He)%list_elem_of_fmap. exists e. cbn [fst].
    rewrite (elem_of_list_to_map_1 sample_pairs j e); [|by apply (bool_decide_unpack _)|done]. split; [done|].
    unfold sample_pairs in He. rewrite !elem_of_cons, elem_of_nil in He.
    destruct He as [[= -> ->]|[[= -> ->]|[[= -> ->]|[]]]]; vm_compute; reflexivity.
  - intros (e & He & _). rewrite slot_new in He. destruct (list_to_map sample_pairs !! k) as [x|] eqn:Ex; [|done].
    apply elem_of_list_to_map_2 in Ex. apply list_elem_of_fmap. by exists (k, x).
Qed.

End Sample.
