(* ===== verification/Store.v ===== *)
(** * Store: the numbered databases and the memory limit ([store.rs], [Store])

    A store is a vector of sharded keyspaces that share one LRU clock.  The
    eviction loop of [evict_if_needed] runs on fuel, one unit per pass;
    [evict_if_needed_reaches_limit] gives the fuel that is enough for the
    policies over all keys, and [evict_loop_stuck] shows that for the volatile
    policies no fuel may be. *)

From S2P Require Import Prelude Glob Cluster Types Keyspace KeyspaceInvariant KeyspaceSpec Shards ShardsSpec.
From S2P Require SetData.

Module Store.
Section Store.
Context `{SetData.IndexSet} `{HashOrder}.

Record t := mk { dbs : list ShardedDatabase.t; db_count : nat; lru_clock : Z }.

Definition set_dbs (ds : list ShardedDatabase.t) (s : t) : t := mk ds (db_count s) (lru_clock s).

(** [num_shards] is what [compute_num_shards] makes of the number of CPUs. *)
Definition new (num_shards db_count : nat) : t :=
  {| dbs := replicate db_count (ShardedDatabase.new num_shards); db_count := db_count; lru_clock := 0 |}.

(** Wires one clock into every shard. *)
Definition set_lru_clock (clock : Z) (s : t) : t :=
  {| dbs := ShardedDatabase.set_lru_clock clock <$> dbs s; db_count := db_count s; lru_clock := clock |}.

(** The store to the clock all shards share once wired. *)
Definition refresh_lru_clock (value : Z) (s : t) : t := set_lru_clock value s.

Definition lru_now (s : t) : Z := lru_clock s.

(** [index % 0] panics. *)
Definition db (index : nat) (s : t) : may_panic ShardedDatabase.t :=
  if bool_decide (db_count s = 0) then None else dbs s !! (index mod db_count s).

Definition estimated_memory_bytes (s : t) : Z :=
  fold_left (fun a d => wrap64 (a + ShardedDatabase.live_bytes d)) (dbs s) 0%Z.

(** Runs a step on every database and tags what it returns with the index. *)
Fixpoint each_db (f : ShardedDatabase.t -> may_panic (list bytes * ShardedDatabase.t)) (i : nat)
    (ds : list ShardedDatabase.t) : may_panic (list (nat * bytes) * list ShardedDatabase.t) :=
  match ds with
  | [] => Some ([], [])
  | d :: ds =>
      '(keys, d) ← f d;
      '(out, ds) ← each_db f (i + 1) ds;
      Some (map (pair i) keys ++ out, d :: ds)
  end.

Definition active_expire (now : Z) (max_per_db : nat) (s : t) : may_panic (list (nat * bytes) * t) :=
  '(out, ds) ← each_db (ShardedDatabase.expire_batch now max_per_db) 0 (dbs s);
  Some (out, set_dbs ds s).

Definition active_expire_cycle (clock : nat -> Z) (s : t) : may_panic (list (nat * bytes) * t) :=
  '(out, ds) ← each_db (fun d => let '(deleted, _, d) := ShardedDatabase.expire_cycle clock d in Some (deleted, d)) 0 (dbs s);
  Some (out, set_dbs ds s).

(** The [for] loop: the first database that gives up a key. *)
Fixpoint evict_dbs (now : Z) (policy : MaxMemoryPolicy) (ds : list ShardedDatabase.t) :
    option bytes * list ShardedDatabase.t :=
  match ds with
  | [] => (None, [])
  | d :: ds =>
      match ShardedDatabase.evict_one now policy d with
      | (Some k, d) => (Some k, d :: ds)
      | (None, d) => let '(r, ds) := evict_dbs now policy ds in (r, d :: ds)
      end
  end.

(** The loop ['outer]; pass [r] reads the time [clock r].  [None] is out of fuel. *)
Fixpoint evict_loop (fuel r : nat) (clock : nat -> Z) (policy : MaxMemoryPolicy) (limit_bytes : Z)
    (evicted : list bytes) (s : t) : option (list bytes * t) :=
  match fuel with
  | 0 => None
  | S fuel =>
      if bool_decide (estimated_memory_bytes s <= limit_bytes)%Z then Some (evicted, s)
      else
        match evict_dbs (clock r) policy (dbs s) with
        | (Some k, ds) => evict_loop fuel (r + 1) clock policy limit_bytes (evicted ++ [k]) (set_dbs ds s)
        | (None, ds) =>
            let s := set_dbs ds s in
            if existsb (fun d => negb (ShardedDatabase.is_empty d)) (dbs s)
            then evict_loop fuel (r + 1) clock policy limit_bytes evicted s
            else Some (evicted, s)
        end
  end.

Definition evict_if_needed (fuel : nat) (clock : nat -> Z) (policy : MaxMemoryPolicy) (limit_bytes : Z) (s : t) :
    option (list bytes * t) :=
  if bool_decide (policy = NoEviction) || bool_decide (limit_bytes = 0)%Z then Some ([], s)
  else
    '(_, s) ← active_expire_cycle clock s;
    if bool_decide (estimated_memory_bytes s <= limit_bytes)%Z then Some ([], s)
    else evict_loop fuel 0 clock policy limit_bytes [] s.

Definition flush_db (index : nat) (s : t) : may_panic t :=
  if bool_decide (db_count s = 0) then None
  else
    let i := index mod db_count s in
    d ← dbs s !! i; Some (set_dbs (<[i := ShardedDatabase.flush d]> (dbs s)) s).

Definition flush_all (s : t) : t := set_dbs (ShardedDatabase.flush <$> dbs s) s.

Definition total_keys (s : t) : nat := sum_list_with ShardedDatabase.len (dbs s).

(** The keys of every database under the pattern [*]; reading them reaps. *)
Fixpoint all_keys (now : Z) (ds : list ShardedDatabase.t) : list (list bytes) * list ShardedDatabase.t :=
  match ds with
  | [] => ([], [])
  | d :: ds =>
      let '(keys, d) := ShardedDatabase.keys_matching now (bstr "*") d in
      let '(rest, ds) := all_keys now ds in
      (keys :: rest, d :: ds)
  end.

Fixpoint in_slot (slot : Z) (keys : list bytes) : may_panic (list bytes) :=
  match keys with
  | [] => Some []
  | k :: keys =>
      h ← keyslot k;
      rest ← in_slot slot keys;
      Some (if bool_decide (h = slot) then k :: rest else rest)
  end.

Definition count_keys_in_slot (now : Z) (slot : Z) (s : t) : may_panic (nat * t) :=
  let '(keys, ds) := all_keys now (dbs s) in
  found ← in_slot slot (concat keys);
  Some (length found, set_dbs ds s).

(** Databases are read until the reply is full. *)
Fixpoint slot_loop (now : Z) (slot : Z) (count : nat) (out : list bytes) (ds : list ShardedDatabase.t) :
    may_panic (list bytes * list ShardedDatabase.t) :=
  match ds with
  | [] => Some (out, [])
  | d :: ds =>
      let '(keys, d) := ShardedDatabase.keys_matching now (bstr "*") d in
      found ← in_slot slot keys;
      let out := out ++ found in
      if bool_decide (count <= length out) then Some (take count out, d :: ds)
      else '(out, ds) ← slot_loop now slot count out ds; Some (out, d :: ds)
  end.

Definition get_keys_in_slot (now : Z) (slot : Z) (count : nat) (s : t) : may_panic (list bytes * t) :=
  if bool_decide (count = 0) then Some ([], s)
  else '(out, ds) ← slot_loop now slot count [] (dbs s); Some (out, set_dbs ds s).

Definition snapshot_dbs (s : t) : list (nat * Database.t) :=
  omap (fun '(i, d) => if ShardedDatabase.is_empty d then None else Some (i, ShardedDatabase.snapshot d))
    (imap pair (dbs s)).
End Store.
End Store.
