(* ===== verification/StoreSpec.v ===== *)
(** * StoreSpec: eviction brings the memory under the limit

    [store_wf] says that every database is a well-formed sharded keyspace and that
    the bytes counted fit a [usize].  Every step of expiry and eviction makes the
    store [smaller]: entries go, none change. *)

From S2P Require Import Prelude Types Keyspace KeyspaceInvariant KeyspaceSpec Shards ShardsSpec Store.
From S2P Require SetData.

#[local] Arguments Database.remove : simpl never.
#[local] Arguments Database.expire_cycle : simpl never.
#[local] Arguments Database.evict_one : simpl never.

Section Smaller.
Context `{SetData.IndexSet} `{HashOrder}.
Implicit Types (d : Database.t) (ds : list Database.t) (sdb : ShardedDatabase.t) (s : Store.t).

(** A well-formed shard with no entries but some of the old ones. *)
Definition smaller d d' : Prop := wf d' /\ Database.entries d' ⊆ Database.entries d.

#[export] Instance smaller_trans : Transitive smaller.
Proof. intros d1 d2 d3 [_ ?] [? ?]. split; [done|]. by etrans. Qed.

Lemma smaller_refl d : wf d -> smaller d d.
Proof. by split. Qed.

Lemma map_total_mono {V} (f : bytes -> V -> nat) (m1 m2 : gmap bytes V) : m1 ⊆ m2 -> map_total f m1 <= map_total f m2.
Proof.
  intros Hs%map_to_list_submseteq. apply submseteq_Permutation in Hs as [l P]. unfold map_total.
  assert (Perm : forall l1 l2 : list (bytes * V), l1 ≡ₚ l2 ->
    sum_list_with (fun kv => f kv.1 kv.2) l1 = sum_list_with (fun kv => f kv.1 kv.2) l2).
  { induction 1; simpl; lia. }
  rewrite (Perm _ _ P), sum_list_with_app. lia.
Qed.

Lemma smaller_bytes d d' : smaller d d' -> total_bytes d' <= total_bytes d /\ Database.len d' <= Database.len d.
Proof. intros [_ Hs]. split; [by apply map_total_mono|by apply map_subseteq_size]. Qed.

(** ** Shards *)

Lemma evict_step now policy d : wf d ->
  let '(r, d') := Database.evict_one now policy d in
  smaller d d' /\
  match r with
  | Some k => S (Database.len d') = Database.len d
  | None => d' = d /\ forall k e, Database.entries d !! k = Some e -> ~ evictable now policy e
  end.
Proof.
  intros W. rewrite evict_one_victim. pose proof (victim_spec now policy d W) as V.
  destruct (victim now policy d) as [k|]; unfold Database.evict_key; [|by split; [apply smaller_refl|]].
  destruct V as (e & E & _). pose proof (remove_changes k d) as C.
  assert (En : Database.entries (Database.remove k d).2 = delete k (Database.entries d)) by apply C.
  split; [split; [by eapply wf_shrink|rewrite En; apply delete_subseteq]|].
  unfold Database.len. rewrite En, map_size_delete, E. assert (size (Database.entries d) <> 0); [|lia].
  rewrite map_size_ne_0_lookup. eauto.
Qed.

Lemma cycle_step clock d : wf d -> smaller d (Database.expire_cycle clock d).2.
Proof.
  intros W. unfold Database.expire_cycle.
  destruct (expire_rounds_spec 16 clock 0 20 [] d W ltac:(lia) eq_refl) as (deleted & rounds & d' & -> & _ & Cy).
  destruct Cy as [W' _ Ee _ _]. split; [done|]. simpl. rewrite Ee. apply map_filter_subseteq.
Qed.

Lemma Forall2_smaller_refl ds : Forall wf ds -> Forall2 smaller ds ds.
Proof. induction 1; constructor; auto using smaller_refl. Qed.

(** What losing entries does to the sums. *)
Lemma smaller_sums ds ds' : Forall2 smaller ds ds' ->
  sum_list_with total_bytes ds' <= sum_list_with total_bytes ds /\
  sum_list_with Database.len ds' <= sum_list_with Database.len ds /\ Forall wf ds'.
Proof.
  induction 1 as [|d d' ds ds' S F IH]; [done|]. pose proof (smaller_bytes _ _ S). simpl.
  split_and!; [lia|lia|]. constructor; [apply S|tauto].
Qed.

(** ** One database *)

(** The same shards, each smaller. *)
Definition shrinks sdb sdb' : Prop :=
  ShardedDatabase.num_shards sdb' = ShardedDatabase.num_shards sdb /\
  Forall2 smaller (ShardedDatabase.shards sdb) (ShardedDatabase.shards sdb').

Lemma shrinks_swf sdb sdb' : swf sdb -> shrinks sdb sdb' -> swf sdb'.
Proof.
  intros W [Hn F]. destruct (smaller_sums _ _ F) as (_ & _ & Fw). split.
  - rewrite Hn. apply W.
  - rewrite Hn, <- (swf_len _ W). symmetry. by eapply Forall2_length.
  - done.
  - intros i d' k Hd' [e He]. rewrite (shard_idx_num sdb) by done.
    destruct (Forall2_lookup_r _ _ _ _ _ F Hd') as (d & Hd & [_ Hs]).
    eapply swf_routed; [done|exact Hd|]. exists e. by eapply lookup_weaken.
Qed.

Definition sdb_bytes sdb : nat := sum_list_with total_bytes (ShardedDatabase.shards sdb).

Lemma wrap_sum {A} (f : A -> Z) (g : A -> nat) (l : list A) (a : nat) :
  Forall (fun x => f x = Z.of_nat (g x)) l -> (Z.of_nat (a + sum_list_with g l) < 2 ^ 64)%Z ->
  fold_left (fun a x => wrap64 (a + f x)) l (Z.of_nat a) = Z.of_nat (a + sum_list_with g l).
Proof.
  intros F. revert a. induction F as [|x l E F IH]; intros a Hl; simpl in *; [f_equal; lia|].
  rewrite E, wrap64_small by lia. rewrite <- Nat2Z.inj_add, IH by lia. f_equal. lia.
Qed.

Lemma live_bytes_exact sdb : swf sdb -> (Z.of_nat (sdb_bytes sdb) < 2 ^ 64)%Z ->
  ShardedDatabase.live_bytes sdb = Z.of_nat (sdb_bytes sdb).
Proof.
  intros W Hl. unfold ShardedDatabase.live_bytes. apply (wrap_sum Database.live_bytes total_bytes _ 0); [|done].
  eapply Forall_impl; [apply (swf_shards _ W)|]. intros d Wd. apply (wf_live _ Wd).
Qed.

Lemma evict_shards now policy ds : Forall wf ds ->
  let '(r, ds') := ShardedDatabase.evict_loop now policy ds in
  Forall2 smaller ds ds' /\
  match r with
  | Some k => S (sum_list_with Database.len ds') = sum_list_with Database.len ds
  | None => ds' = ds /\ Forall (fun d => forall k e, Database.entries d !! k = Some e -> ~ evictable now policy e) ds
  end.
Proof.
  induction 1 as [|d ds W F IH]; [by split|]. simpl. pose proof (evict_step now policy d W) as S.
  destruct (Database.evict_one now policy d) as [[k|] d'].
  - destruct S as [S E]. split; [constructor; [done|by apply Forall2_smaller_refl]|]. simpl. lia.
  - destruct S as (S & -> & E). destruct (ShardedDatabase.evict_loop now policy ds) as [[k|] ds'].
    + destruct IH as [IH E']. split; [by constructor|]. simpl. lia.
    + destruct IH as (IH & -> & E'). split; [by constructor|]. split; [done|]. by constructor.
Qed.

Lemma cycle_shards clock ds : forall rounds, Forall wf ds ->
  Forall2 smaller ds (ShardedDatabase.expire_cycle_loop clock rounds ds).2.
Proof.
  induction ds as [|d ds IH]; intros rounds W; [done|]. apply Forall_cons in W as [Wd W]. simpl.
  pose proof (cycle_step clock d Wd) as S. destruct (Database.expire_cycle clock d) as [[deleted r] d'].
  specialize (IH (Z.min (2 ^ 32 - 1) (rounds + Z.of_nat r)) W).
  destruct (ShardedDatabase.expire_cycle_loop _ _ ds) as [[total rounds'] ds']. by constructor.
Qed.
End Smaller.

(** ** The store *)

Section Eviction.
Context `{SetData.IndexSet} `{HashOrder}.
Implicit Types (sdb : ShardedDatabase.t) (s : Store.t).

Definition store_bytes s : nat := sum_list_with sdb_bytes (Store.dbs s).

Record store_wf s : Prop := mk_store_wf {
  store_dbs : Forall swf (Store.dbs s);
  store_fits : (Z.of_nat (store_bytes s) < 2 ^ 64)%Z;
}.

Definition store_shrinks s s' : Prop :=
  Store.db_count s' = Store.db_count s /\ Forall2 shrinks (Store.dbs s) (Store.dbs s').

Lemma shrinks_refl sdb : swf sdb -> shrinks sdb sdb.
Proof. intros W. split; [done|]. apply Forall2_smaller_refl, W. Qed.

#[export] Instance shrinks_trans : Transitive shrinks.
Proof. intros a b c [E1 F1] [E2 F2]. split; [congruence|]. by etrans. Qed.

#[export] Instance store_shrinks_trans : Transitive store_shrinks.
Proof. intros a b c [E1 F1] [E2 F2]. split; [congruence|]. by etrans. Qed.

Lemma store_shrinks_refl s : store_wf s -> store_shrinks s s.
Proof.
  intros W. split; [done|]. pose proof (store_dbs _ W) as F. induction F; constructor; auto using shrinks_refl.
Qed.

Lemma shrinks_sums l l' : Forall swf l -> Forall2 shrinks l l' ->
  sum_list_with sdb_bytes l' <= sum_list_with sdb_bytes l /\
  sum_list_with ShardedDatabase.len l' <= sum_list_with ShardedDatabase.len l /\ Forall swf l'.
Proof.
  intros W F. induction F as [|x x' l l' S F IH]; [done|]. apply Forall_cons in W as [Wx W].
  destruct (IH W) as (? & ? & ?). destruct (smaller_sums _ _ (proj2 S)) as (? & ? & _).
  cbn [sum_list_with]. unfold sdb_bytes at 1 3. unfold ShardedDatabase.len at 1 3.
  split_and!; [lia|lia|]. constructor; [by eapply shrinks_swf|done].
Qed.

Lemma store_shrinks_wf s s' : store_wf s -> store_shrinks s s' ->
  store_wf s' /\ Store.total_keys s' <= Store.total_keys s.
Proof.
  intros [W Hf] [_ F]. destruct (shrinks_sums _ _ W F) as (? & ? & ?). unfold store_bytes, Store.total_keys in *.
  split; [split; [done|]; unfold store_bytes; lia|lia].
Qed.

Lemma memory_exact s : store_wf s -> Store.estimated_memory_bytes s = Z.of_nat (store_bytes s).
Proof.
  intros [W Hf]. unfold Store.estimated_memory_bytes, store_bytes in *. apply (wrap_sum _ sdb_bytes _ 0); [|done].
  assert (G : Forall (fun sdb => sdb_bytes sdb <= sum_list_with sdb_bytes (Store.dbs s)) (Store.dbs s)).
  { apply Forall_forall. intros x Hx. apply list_elem_of_lookup in Hx as [i Hx].
    apply list_elem_of_lookup_2 in Hx. by apply sum_list_with_in. }
  rewrite Forall_forall in W, G |- *. intros x Hx. apply live_bytes_exact; [by apply W|].
  specialize (G x Hx). lia.
Qed.

Definition no_evictable (now : Z) (policy : MaxMemoryPolicy) sdb : Prop :=
  Forall (fun d => forall k e, Database.entries d !! k = Some e -> ~ evictable now policy e) (ShardedDatabase.shards sdb).

Lemma evict_sdb now policy sdb : swf sdb ->
  let '(r, sdb') := ShardedDatabase.evict_one now policy sdb in
  shrinks sdb sdb' /\
  match r with
  | Some k => S (ShardedDatabase.len sdb') = ShardedDatabase.len sdb
  | None => sdb' = sdb /\ no_evictable now policy sdb
  end.
Proof.
  intros W. unfold ShardedDatabase.evict_one. pose proof (evict_shards now policy _ (swf_shards _ W)) as E.
  destruct (ShardedDatabase.evict_loop now policy (ShardedDatabase.shards sdb)) as [[k|] ds'].
  - destruct E as [S E]. by split; [split|].
  - destruct E as (S & -> & E). split; [by split|]. split; [by destruct sdb|done].
Qed.

Lemma evict_dbs_spec now policy l : Forall swf l ->
  let '(r, l') := Store.evict_dbs now policy l in
  Forall2 shrinks l l' /\
  match r with
  | Some k => S (sum_list_with ShardedDatabase.len l') = sum_list_with ShardedDatabase.len l
  | None => l' = l /\ Forall (no_evictable now policy) l
  end.
Proof.
  assert (R : forall l, Forall swf l -> Forall2 shrinks l l).
  { induction 1; constructor; auto using shrinks_refl. }
  induction 1 as [|x l W F IH]; [by split|]. simpl. pose proof (evict_sdb now policy x W) as S.
  destruct (ShardedDatabase.evict_one now policy x) as [[k|] x'].
  - destruct S as [S E]. split; [constructor; [done|by apply R]|]. simpl. lia.
  - destruct S as (S & -> & E). destruct (Store.evict_dbs now policy l) as [[k|] l'].
    + destruct IH as [IH E']. split; [by constructor|]. simpl. lia.
    + destruct IH as (IH & -> & E'). split; [by constructor|]. split; [done|]. by constructor.
Qed.

Lemma each_db_shrinks f l : (forall x, swf x -> exists keys x', f x = Some (keys, x') /\ shrinks x x') ->
  forall i, Forall swf l -> exists out l', Store.each_db f i l = Some (out, l') /\ Forall2 shrinks l l'.
Proof.
  intros Hf. induction l as [|x l IH]; intros i F; [by eexists _, _|]. apply Forall_cons in F as [Wx F].
  cbn [Store.each_db]. destruct (Hf x Wx) as (keys & x' & -> & S). mstep.
  destruct (IH (i + 1) F) as (out & l' & -> & F'). mstep. eexists _, _. split; [done|]. by constructor.
Qed.

Lemma cycle_store clock s : store_wf s -> exists out s', Store.active_expire_cycle clock s = Some (out, s') /\ store_shrinks s s'.
Proof.
  intros W. unfold Store.active_expire_cycle. set (f := fun d : ShardedDatabase.t => _).
  destruct (each_db_shrinks f (Store.dbs s)) with (i := 0) as (out & l' & -> & F); [|apply W|].
  - intros x Wx. unfold f, ShardedDatabase.expire_cycle.
    pose proof (cycle_shards clock _ 0%Z (swf_shards _ Wx)) as S.
    destruct (ShardedDatabase.expire_cycle_loop clock 0 _) as [[total rounds] ds']. eexists _, _. split; [done|]. by split.
  - mstep. eexists _, _. split; [done|]. by split.
Qed.

(** Every key counts for eviction. *)
Definition all_keys_policy (policy : MaxMemoryPolicy) : Prop := policy = AllKeysLru \/ policy = AllKeysRandom.

Lemma nothing_left now policy s : store_wf s -> all_keys_policy policy ->
  Forall (no_evictable now policy) (Store.dbs s) -> store_bytes s = 0 /\
  existsb (fun d => negb (ShardedDatabase.is_empty d)) (Store.dbs s) = false.
Proof.
  intros W Hp F. unfold store_bytes. induction F as [|x l Hx F IH]; [done|]. simpl.
  assert (E : Forall (fun d => Database.entries d = ∅) (ShardedDatabase.shards x)).
  { eapply Forall_impl; [exact Hx|]. intros d Hd. apply map_empty. intros k.
    destruct (Database.entries d !! k) as [e|] eqn:Ek; [|done]. destruct (Hd _ _ Ek). by destruct Hp as [->| ->]. }
  assert (sdb_bytes x = 0 /\ ShardedDatabase.is_empty x = true) as [-> ->]; [|done].
  unfold sdb_bytes, ShardedDatabase.is_empty. induction E as [|d ds E Es IHd]; [done|]. simpl.
  unfold total_bytes, Database.is_empty. rewrite E, map_total_empty, map_size_empty. simpl. apply IHd.
Qed.

Lemma evict_loop_reaches clock policy limit : all_keys_policy policy -> (0 <= limit)%Z -> forall fuel r evicted s,
  store_wf s -> Store.total_keys s < fuel ->
  exists more s', Store.evict_loop fuel r clock policy limit evicted s = Some (evicted ++ more, s') /\
    store_shrinks s s' /\ (Store.estimated_memory_bytes s' <= limit)%Z /\
    length more + Store.total_keys s' = Store.total_keys s.
Proof.
  intros Hp Hl fuel. induction fuel as [|fuel IH]; intros r evicted s W Hf; [lia|]. cbn [Store.evict_loop].
  case_bool_decide as Hm; [exists [], s; rewrite app_nil_r; auto using store_shrinks_refl|].
  pose proof (evict_dbs_spec (clock r) policy _ (store_dbs _ W)) as E.
  destruct (Store.evict_dbs (clock r) policy (Store.dbs s)) as [[k|] l].
  - destruct E as [F E]. assert (Sh : store_shrinks s (Store.set_dbs l s)) by (by split).
    assert (Ek : S (Store.total_keys (Store.set_dbs l s)) = Store.total_keys s) by exact E.
    destruct (IH (r + 1) (evicted ++ [k]) (Store.set_dbs l s)) as (more & s' & -> & S' & M & T);
      [by eapply store_shrinks_wf|lia|].
    exists (k :: more), s'. rewrite <- app_assoc. split_and!; [done|by etrans|done|simpl; lia].
  - destruct E as (F & -> & N). replace (Store.set_dbs (Store.dbs s) s) with s in * by (by destruct s).
    destruct (nothing_left _ _ _ W Hp N) as [Z0 ->]. rewrite (memory_exact _ W), Z0 in Hm. lia.
Qed.

(** C37: With a policy over all keys, [evict_if_needed] ends, within one pass more
    than there are keys, with the memory counted at or below the limit: expired
    keys go first, then one key per pass; no other entry changes, and no more keys
    are reported than were removed. *)
Theorem evict_if_needed_reaches_limit fuel clock policy limit s : store_wf s -> all_keys_policy policy ->
  (0 < limit)%Z -> Store.total_keys s < fuel ->
  exists evicted s', Store.evict_if_needed fuel clock policy limit s = Some (evicted, s') /\
    store_shrinks s s' /\ store_wf s' /\ (Store.estimated_memory_bytes s' <= limit)%Z /\
    length evicted + Store.total_keys s' <= Store.total_keys s.
Proof.
  intros W Hp Hl Hf. unfold Store.evict_if_needed.
  rewrite (bool_decide_eq_false_2 (policy = NoEviction)) by (by destruct Hp as [->| ->]).
  rewrite bool_decide_eq_false_2 by lia. simpl.
  destruct (cycle_store clock s W) as (out & s1 & -> & S1). mstep. destruct (store_shrinks_wf _ _ W S1) as [W1 T1].
  case_bool_decide as Hm; [by eexists _, _; split_and!; [done..|simpl; lia]|].
  destruct (evict_loop_reaches clock policy limit Hp ltac:(lia) fuel 0 [] s1 W1 ltac:(lia)) as (more & s2 & -> & S2 & M & T).
  destruct (store_shrinks_wf _ _ W1 S2) as [W2 _].
  eexists _, _. split_and!; [done|by etrans|done|done|simpl; lia].
Qed.

(** With a volatile policy and no key with a deadline, eviction finds nothing. *)
Definition no_deadlines s : Prop :=
  Forall (fun sdb => Forall (fun d => forall k e, Database.entries d !! k = Some e -> Entry.expiry e = None)
    (ShardedDatabase.shards sdb)) (Store.dbs s).

Definition volatile_policy (policy : MaxMemoryPolicy) : Prop :=
  policy = VolatileLru \/ policy = VolatileRandom \/ policy = VolatileTtl.

Lemma shard_gives_nothing now policy d : wf d -> volatile_policy policy ->
  (forall k e, Database.entries d !! k = Some e -> Entry.expiry e = None) -> Database.evict_one now policy d = (None, d).
Proof.
  intros W Hp N. rewrite evict_one_victim. pose proof (victim_spec now policy d W) as V.
  destruct (victim now policy d) as [k|]; [|done]. destruct V as (e & E & Hv). specialize (N k e E).
  destruct Hp as [->|[->| ->]]; simpl in Hv; rewrite N in Hv; naive_solver.
Qed.

Lemma evict_finds_nothing now policy s : store_wf s -> volatile_policy policy -> no_deadlines s ->
  Store.evict_dbs now policy (Store.dbs s) = (None, Store.dbs s).
Proof.
  intros [W _] Hp N. unfold no_deadlines in N. induction N as [|x l Nx N IH]; [done|].
  apply Forall_cons in W as [Wx W]. cbn [Store.evict_dbs]. unfold ShardedDatabase.evict_one at 1.
  assert (E : ShardedDatabase.evict_loop now policy (ShardedDatabase.shards x) = (None, ShardedDatabase.shards x)).
  { pose proof (swf_shards _ Wx) as Ws. clear Wx W IH. induction Nx as [|d ds Nd Nds IHd]; [done|].
    apply Forall_cons in Ws as [Wd Ws]. cbn [ShardedDatabase.evict_loop].
    rewrite shard_gives_nothing by done. by rewrite IHd. }
  rewrite E, IH by done. by destruct x.
Qed.

(** With a volatile policy, no key with a deadline and more memory than the
    limit, the eviction loop never ends: it finds no victim, sees that a shard is
    not empty and starts over, whatever the clock says.  No fuel is enough. *)
Theorem evict_loop_stuck fuel r clock policy limit evicted s : store_wf s -> volatile_policy policy ->
  no_deadlines s -> existsb (fun d => negb (ShardedDatabase.is_empty d)) (Store.dbs s) = true ->
  (limit < Store.estimated_memory_bytes s)%Z ->
  Store.evict_loop fuel r clock policy limit evicted s = None.
Proof.
  intros W Hp N E Hm. revert r evicted. induction fuel as [|fuel IH]; intros r evicted; [done|]. cbn [Store.evict_loop].
  rewrite bool_decide_eq_false_2 by lia. rewrite evict_finds_nothing by done.
  replace (Store.set_dbs (Store.dbs s) s) with s by (by destruct s). rewrite E. apply IH.
Qed.
End Eviction.

(** ** A store of one database *)

Section Sample.
#[local] Existing Instance SetData.vec_index_set.
#[local] Existing Instance canonical_order.

Definition sample_store : Store.t := {| Store.dbs := [sample_keyspace]; Store.db_count := 1; Store.lru_clock := 0 |}.

Lemma sample_store_wf : store_wf sample_store.
Proof. split; [by constructor; [apply sample_keyspace_wf|]|]. vm_compute. reflexivity. Qed.

(** The expired key goes by itself; two more go for the limit. *)
Lemma evict_if_needed_reaches_limit_witness :
  exists evicted s', Store.evict_if_needed 4 (fun _ => 200%Z) AllKeysLru 70 sample_store = Some (evicted, s') /\
    store_wf s' /\ (Store.estimated_memory_bytes s' <= 70)%Z.
Proof.
  destruct (evict_if_needed_reaches_limit 4 (fun _ => 200%Z) AllKeysLru 70 sample_store sample_store_wf)
    as (evicted & s' & E & _ & W & M & _); [by left|lia|vm_compute; lia|]. exists evicted, s'.
  split; [exact E|split; [exact W|exact M]].
Defined.

(** The key of [sample_pairs] without a deadline, alone. *)
Definition plain_store : Store.t :=
  {| Store.dbs := [default (ShardedDatabase.new (2 ^ 2)) (ShardedDatabase.mset [(bstr "a", Entry.new (TString (bstr "1")))]
                     (ShardedDatabase.new (2 ^ 2)))];
     Store.db_count := 1; Store.lru_clock := 0 |}.

Lemma plain_store_ok : store_wf plain_store /\ no_deadlines plain_store.
Proof.
  unfold plain_store. set (ps := [(bstr "a", Entry.new (TString (bstr "1")))]).
  assert (Fits : (Z.of_nat (store_bytes plain_store) < 2 ^ 64)%Z) by (vm_compute; reflexivity).
  unfold plain_store in Fits. fold ps in Fits.
  destruct (mset_spec (ShardedDatabase.new (2 ^ 2)) ps) as (s' & E & W & V).
  - apply swf_new. lia.
  - by apply (bool_decide_unpack _).
  - intros k. apply room_all. vm_compute. reflexivity.
  - rewrite E in *. split; [split; [by constructor|exact Fits]|]. constructor; [|constructor]. apply Forall_forall.
    intros d Hd k e He. apply list_elem_of_lookup in Hd as [i Hd]. pose proof (slot_found s' i d k e W Hd He) as Hs.
    rewrite V, slot_new in Hs. destruct (list_to_map ps !! k) as [x|] eqn:Ex; [|done]. injection Hs as <-.
    apply elem_of_list_to_map_2, list_elem_of_singleton in Ex. by injection Ex as -> ->.
Qed.

Lemma evict_loop_stuck_witness :
  Store.evict_loop 1000 0 (fun _ => 200%Z) VolatileLru 50 [] plain_store = None.
Proof.
  destruct plain_store_ok as [W N]. apply evict_loop_stuck; [exact W|by left|exact N|vm_compute; reflexivity|].
  vm_compute. reflexivity.
Defined.
End Sample.
