(* ===== verification/Resp.v ===== *)
(** * Resp: the wire protocol ([resp.rs])

    The RESP2/RESP3 value type, its serialiser over the segmented write buffer
    [SegBuf], and the incremental parser.  Buffers ([BytesMut], [Bytes]) are
    their contents; capacities, which only affect allocation, are left out.
    The text of doubles is a parameter ([F64Text]).

    The serialiser is related to a pure encoder, [SegBuf] to the byte stream it
    delivers, and the parser to the encoder: it inverts it, never panics or
    loops, consumes only the frame it returns, and is indifferent to how the
    stream is cut into reads. *)

From S2P Require Import Prelude Text Doubles.

(** ** Values *)

(** A [String] is its bytes. *)
#[warnings="-register-all"]
Inductive Resp :=
  | SimpleString (s : bytes)
  | Error (s : bytes)
  | Integer (n : Z)
  | BulkString (data : option bytes)
  | Array (items : option (list Resp))
  | Null
  | Bool (b : bool)
  | Double (d : f64)
  | Map (pairs : list (Resp * Resp))
  | Set_ (items : list Resp)
  | Push (items : list Resp)
  | Raw (data : bytes).

Definition ok : Resp := SimpleString (bstr "OK").
Definition null : Resp := BulkString None.
Definition null_array : Resp := Array None.
Definition error (msg : bytes) : Resp := Error msg.
Definition bulk (s : bytes) : Resp := BulkString (Some s).
Definition bulk_str (s : bytes) : Resp := BulkString (Some s).
Definition int (n : Z) : Resp := Integer n.
Definition array (items : list Resp) : Resp := Array (Some items).

Definition as_str (r : Resp) : option bytes :=
  match r with
  | BulkString (Some b) => from_utf8 b
  | SimpleString s => Some s
  | _ => None
  end.

Definition as_bytes (r : Resp) : option bytes :=
  match r with
  | BulkString (Some b) => Some b
  | _ => None
  end.

Definition CR : byte := byte_of 13.
Definition LF : byte := byte_of 10.
Definition CRLF : bytes := [CR; LF].

(** ** The write buffer *)

Module SegBuf.

Record t := mk { active : bytes; segments : list bytes; read_pos : nat; read_offset : nat }.

Definition with_capacity (cap : nat) : t :=
  {| active := []; segments := []; read_pos := 0; read_offset := 0 |}.

(** [buf.inner()] followed by writes of [bs]. *)
Definition put (b : t) (bs : bytes) : t :=
  {| active := active b ++ bs; segments := segments b;
     read_pos := read_pos b; read_offset := read_offset b |}.

Definition push_raw (b : t) (raw : bytes) : t :=
  let segs := if bool_decide (active b = []) then segments b else segments b ++ [active b] in
  {| active := []; segments := segs ++ [raw];
     read_pos := read_pos b; read_offset := read_offset b |}.

Definition clear (b : t) : t :=
  {| active := []; segments := []; read_pos := 0; read_offset := 0 |}.

Definition is_empty (b : t) : bool := bool_decide (segments b = []) && bool_decide (active b = []).

Definition finalize (b : t) : t :=
  if bool_decide (active b = []) then b
  else {| active := []; segments := segments b ++ [active b];
          read_pos := read_pos b; read_offset := read_offset b |}.

(** [Buf::remaining]; the slice and the subtraction may panic. *)
Fixpoint remaining_loop (i : nat) (segs : list bytes) (read_offset total : nat) : may_panic nat :=
  match segs with
  | [] => Some total
  | seg :: segs =>
      n ← (if bool_decide (i = 0) then checked_sub (length seg) read_offset else Some (length seg));
      remaining_loop (S i) segs read_offset (total + n)
  end.

Definition remaining (b : t) : may_panic nat :=
  segs ← slice (segments b) (read_pos b) (length (segments b));
  remaining_loop 0 segs (read_offset b) (length (active b)).

Definition chunk (b : t) : may_panic bytes :=
  match segments b !! read_pos b with
  | Some seg => slice seg (read_offset b) (length seg)
  | None => Some (active b)
  end.

(** [Buf::advance]; each pass over a segment moves [read_pos], so the number of
    segments left bounds the loop.  [BytesMut::advance] panics past the end. *)
Fixpoint advance_loop (fuel : nat) (b : t) (cnt : nat) : may_panic t :=
  if bool_decide (cnt = 0) then Some b
  else
    match segments b !! read_pos b with
    | Some seg =>
        avail ← checked_sub (length seg) (read_offset b);
        if bool_decide (cnt < avail) then
          Some {| active := active b; segments := segments b;
                  read_pos := read_pos b; read_offset := read_offset b + cnt |}
        else
          cnt ← checked_sub cnt avail;
          match fuel with
          | 0 => None
          | S fuel =>
              advance_loop fuel {| active := active b; segments := segments b;
                                   read_pos := read_pos b + 1; read_offset := 0 |} cnt
          end
    | None =>
        if bool_decide (cnt <= length (active b)) then
          Some {| active := drop cnt (active b); segments := segments b;
                  read_pos := read_pos b; read_offset := read_offset b |}
        else None
    end.

Definition advance (b : t) (cnt : nat) : may_panic t :=
  advance_loop (length (segments b) - read_pos b) b cnt.

(** [Buf::chunks_vectored] into [dst] slots: the slices handed to [writev]. *)
Fixpoint vectored_loop (i : nat) (segs : list bytes) (read_offset slots : nat) (acc : list bytes)
  : may_panic (list bytes) :=
  match segs with
  | [] => Some acc
  | seg :: segs =>
      if bool_decide (slots <= length acc) then Some acc
      else
        data ← (if bool_decide (i = 0) then slice seg read_offset (length seg) else Some seg);
        vectored_loop (S i) segs read_offset slots
          (if bool_decide (data = []) then acc else acc ++ [data])
  end.

Definition chunks_vectored (b : t) (slots : nat) : may_panic (list bytes) :=
  segs ← slice (segments b) (read_pos b) (length (segments b));
  acc ← vectored_loop 0 segs (read_offset b) slots [];
  Some (if bool_decide (length acc < slots) && negb (bool_decide (active b = []))
        then acc ++ [active b] else acc).

End SegBuf.

(** ** Serialisation *)

(** The digit loop of [put_i64], filling [tmp] from the end. *)
Fixpoint put_i64_loop (fuel : nat) (tmp : bytes) (pos : nat) (v : Z) : may_panic (bytes * nat) :=
  if (v =? 0)%Z then Some (tmp, pos)
  else
    match fuel with
    | 0 => None
    | S fuel =>
        pos ← checked_sub pos 1;
        tmp ← overwrite tmp pos [digit (v mod 10)];
        put_i64_loop fuel tmp pos (v / 10)
    end.

(** What [put_i64] appends.  Every pass divides [v] by ten and lowers [pos],
    so twenty passes are enough. *)
Definition put_i64 (n : Z) : may_panic bytes :=
  if (n =? 0)%Z then Some [digit 0]
  else if (n =? 1)%Z then Some [digit 1]
  else
    let neg := (n <? 0)%Z in
    let v := Z.abs n in
    '(tmp, pos) ← put_i64_loop 20 (replicate 20 Byte.x00) 20 v;
    if neg then
      pos ← checked_sub pos 1;
      tmp ← overwrite tmp pos [MINUS];
      slice tmp pos 20
    else slice tmp pos 20.

Section Serialise.
Context `{Itoa} `{F64Text}.

Definition put_usize (n : nat) : bytes := itoa_format (Z.of_nat n).

(** [t] followed by a count and CRLF. *)
Definition header (t : string) (n : nat) : bytes := bstr t ++ put_usize n ++ CRLF.

Definition put_bulk (data : bytes) : bytes := header "$" (length data) ++ data ++ CRLF.

(** [write_to_for_version]; [put_i64] cannot panic (see below) and is unwrapped. *)
Fixpoint write_to_for_version (r : Resp) (buf : SegBuf.t) (version : Z) : SegBuf.t :=
  let write_all items b := fold_left (fun b item => write_to_for_version item b version) items b in
  let write_pairs pairs b :=
    fold_left (fun b '(k, v) => write_to_for_version v (write_to_for_version k b version) version) pairs b in
  match r with
  | SimpleString s =>
      if bool_decide (s = bstr "OK") then SegBuf.put buf (bstr "+OK" ++ CRLF)
      else if bool_decide (s = bstr "PONG") then SegBuf.put buf (bstr "+PONG" ++ CRLF)
      else SegBuf.put buf (bstr "+" ++ s ++ CRLF)
  | Error s => SegBuf.put buf (bstr "-" ++ s ++ CRLF)
  | Integer n => SegBuf.put buf (bstr ":" ++ default [] (put_i64 n) ++ CRLF)
  | BulkString None =>
      SegBuf.put buf (if (3 <=? version)%Z then bstr "_" ++ CRLF else bstr "$-1" ++ CRLF)
  | BulkString (Some data) => SegBuf.put buf (put_bulk data)
  | Array None =>
      SegBuf.put buf (if (3 <=? version)%Z then bstr "_" ++ CRLF else bstr "*-1" ++ CRLF)
  | Array (Some items) => write_all items (SegBuf.put buf (header "*" (length items)))
  | Null => SegBuf.put buf (bstr "_" ++ CRLF)
  | Bool b =>
      SegBuf.put buf (if (3 <=? version)%Z then bstr "#" ++ (if b then bstr "t" else bstr "f") ++ CRLF
                      else bstr ":" ++ (if b then bstr "1" else bstr "0") ++ CRLF)
  | Double d =>
      SegBuf.put buf (if (3 <=? version)%Z then bstr "," ++ f64_display d ++ CRLF
                      else put_bulk (f64_display d))
  | Map pairs =>
      write_pairs pairs
        (SegBuf.put buf (if (3 <=? version)%Z then header "%" (length pairs)
                         else header "*" (length pairs * 2)))
  | Set_ items =>
      write_all items
        (SegBuf.put buf (if (3 <=? version)%Z then header "~" (length items)
                         else header "*" (length items)))
  | Push items =>
      write_all items
        (SegBuf.put buf (if (3 <=? version)%Z then header ">" (length items)
                         else header "*" (length items)))
  | Raw data => SegBuf.push_raw buf data
  end.

Definition write_to (r : Resp) (buf : SegBuf.t) : SegBuf.t := write_to_for_version r buf 2.

Definition write_to_for_version_owned (r : Resp) (buf : SegBuf.t) (version : Z) : SegBuf.t :=
  match r with
  | Raw data => SegBuf.push_raw buf data
  | other => write_to_for_version other buf version
  end.

Definition serialize_for_version (r : Resp) (version : Z) : bytes :=
  let buf := SegBuf.finalize (write_to_for_version r (SegBuf.with_capacity 64) version) in
  match SegBuf.segments buf with
  | [seg] => seg
  | segs => fold_left (fun out seg => out ++ seg) segs []
  end.

Definition serialize (r : Resp) : bytes := serialize_for_version r 2.

(** [write_bulk_array_into], appending to [buf]. *)
Definition write_bulk_array_into (buf : bytes) (elems : list bytes) : bytes :=
  fold_left (fun b data => b ++ put_bulk data) elems (buf ++ header "*" (length elems)).

End Serialise.

(** ** Values by structural induction *)

Section RespInd.
Variable P : Resp -> Prop.
Hypothesis HSimple : forall s, P (SimpleString s).
Hypothesis HError : forall s, P (Error s).
Hypothesis HInteger : forall n, P (Integer n).
Hypothesis HBulk : forall d, P (BulkString d).
Hypothesis HArrayNone : P (Array None).
Hypothesis HArray : forall items, Forall P items -> P (Array (Some items)).
Hypothesis HNull : P Null.
Hypothesis HBool : forall b, P (Bool b).
Hypothesis HDouble : forall d, P (Double d).
Hypothesis HMap : forall pairs, Forall (fun kv => P kv.1 /\ P kv.2) pairs -> P (Map pairs).
Hypothesis HSet : forall items, Forall P items -> P (Set_ items).
Hypothesis HPush : forall items, Forall P items -> P (Push items).
Hypothesis HRaw : forall d, P (Raw d).

Fixpoint Resp_nested_ind (r : Resp) : P r :=
  let items_ind := fix items_ind (l : list Resp) : Forall P l :=
    match l with
    | [] => Forall_nil_2 P
    | x :: l => Forall_cons_2 P x l (Resp_nested_ind x) (items_ind l)
    end in
  match r with
  | SimpleString s => HSimple s
  | Error s => HError s
  | Integer n => HInteger n
  | BulkString d => HBulk d
  | Array None => HArrayNone
  | Array (Some items) => HArray items (items_ind items)
  | Null => HNull
  | Bool b => HBool b
  | Double d => HDouble d
  | Map pairs =>
      HMap pairs ((fix pairs_ind (l : list (Resp * Resp)) : Forall (fun kv => P kv.1 /\ P kv.2) l :=
        match l with
        | [] => Forall_nil_2 _
        | (k, v) :: l =>
            Forall_cons_2 (fun kv => P kv.1 /\ P kv.2) (k, v) l
              (conj (Resp_nested_ind k) (Resp_nested_ind v)) (pairs_ind l)
        end) pairs)
  | Set_ items => HSet items (items_ind items)
  | Push items => HPush items (items_ind items)
  | Raw d => HRaw d
  end.

End RespInd.

(** ** The protocol's grammar, as a pure encoder *)

Definition frame_line (t : string) (line : bytes) : bytes := bstr t ++ line ++ CRLF.

Definition count_line (t : string) (n : nat) : bytes := frame_line t (dec (Z.of_nat n)).

Definition bulk_frame (data : bytes) : bytes := count_line "$" (length data) ++ data ++ CRLF.

Section Grammar.
Context `{F64Text}.

Fixpoint encode (version : Z) (r : Resp) : bytes :=
  let resp3 := (3 <=? version)%Z in
  let items l := concat (map (encode version) l) in
  match r with
  | SimpleString s => frame_line "+" s
  | Error s => frame_line "-" s
  | Integer n => frame_line ":" (show_int n)
  | BulkString None => if resp3 then frame_line "_" [] else frame_line "$" (bstr "-1")
  | BulkString (Some data) => bulk_frame data
  | Array None => if resp3 then frame_line "_" [] else frame_line "*" (bstr "-1")
  | Array (Some l) => count_line "*" (length l) ++ items l
  | Null => frame_line "_" []
  | Bool b => if resp3 then frame_line "#" (if b then bstr "t" else bstr "f")
              else frame_line ":" (show_int (if b then 1 else 0))
  | Double d => if resp3 then frame_line "," (f64_display d) else bulk_frame (f64_display d)
  | Map ps =>
      (if resp3 then count_line "%" (length ps) else count_line "*" (length ps * 2))
        ++ concat (map (fun '(k, v) => encode version k ++ encode version v) ps)
  | Set_ l => count_line (if resp3 then "~" else "*") (length l) ++ items l
  | Push l => count_line (if resp3 then ">" else "*") (length l) ++ items l
  | Raw data => data
  end.

(** Values the types of the source can hold: [i64] integers, and containers and
    texts whose length fits [usize]. *)
Definition usize_len (n : nat) : Prop := (Z.of_nat n < 2 ^ 64)%Z.

Fixpoint representable (r : Resp) : Prop :=
  match r with
  | Integer n => in_i64 n
  | BulkString (Some data) => usize_len (length data)
  | Double d => usize_len (length (f64_display d))
  | Array (Some l) | Set_ l | Push l =>
      usize_len (length l) /\ fold_right (fun x Q => representable x /\ Q) True l
  | Map ps =>
      usize_len (length ps * 2) /\
      fold_right (fun '(k, v) Q => (representable k /\ representable v) /\ Q) True ps
  | _ => True
  end.

End Grammar.

Lemma fold_right_Forall {A} (P : A -> Prop) l : fold_right (fun x Q => P x /\ Q) True l <-> Forall P l.
Proof. induction l; simpl; rewrite ?Forall_cons; naive_solver. Qed.

Lemma fold_right_Forall_pairs (P : Resp -> Prop) l :
  fold_right (fun '(k, v) Q => (P k /\ P v) /\ Q) True l <-> Forall (fun kv => P kv.1 /\ P kv.2) l.
Proof. induction l as [|[k v] l]; simpl; rewrite ?Forall_cons; naive_solver. Qed.

(** *** [put_i64] *)

Lemma dec_loop_fuel f1 f2 v acc : (0 <= v)%Z -> (v < 10 ^ Z.of_nat f1)%Z -> (v < 2 ^ Z.of_nat f2)%Z ->
  dec_loop f1 v acc = dec_loop f2 v acc.
Proof.
  revert f2 v acc. induction f1 as [|f1 IH]; intros f2 v acc H0 H1 H2.
  - change (10 ^ Z.of_nat 0)%Z with 1%Z in H1. assert (v = 0%Z) as -> by lia. by destruct f2.
  - destruct f2 as [|f2].
    { change (2 ^ Z.of_nat 0)%Z with 1%Z in H2. assert (v = 0%Z) as -> by lia. done. }
    simpl. destruct (Z.eqb_spec v 0); [done|].
    rewrite Nat2Z.inj_succ, Z.pow_succ_r in H1, H2 by lia. apply IH.
    + apply Z.div_pos; lia.
    + apply Z.div_lt_upper_bound; lia.
    + apply Z.div_lt_upper_bound; lia.
Qed.

(** The loop leaves the digits in the tail of [tmp]. *)
Lemma put_i64_loop_spec k fuel tmp pos v : (0 <= v)%Z -> (v < 10 ^ Z.of_nat k)%Z ->
  k <= pos -> k <= fuel -> pos <= length tmp -> exists tmp' pos',
  put_i64_loop fuel tmp pos v = Some (tmp', pos') /\ length tmp' = length tmp /\
  pos - k <= pos' <= pos /\ drop pos' tmp' = dec_loop k v (drop pos tmp).
Proof.
  revert fuel tmp pos v. induction k as [|k IH]; intros fuel tmp pos v H0 H1 Hp Hf Hl.
  - change (10 ^ Z.of_nat 0)%Z with 1%Z in H1. assert (v = 0%Z) as -> by lia.
    exists tmp, pos. destruct fuel; simpl; (split_and!; [done|done|lia|lia|done]).
  - destruct fuel as [|fuel]; [lia|]. cbn [put_i64_loop dec_loop].
    destruct (Z.eqb_spec v 0); [exists tmp, pos; split_and!; [done|done|lia|lia|done]|].
    rewrite checked_sub_ok by lia. mstep. unfold overwrite.
    rewrite bool_decide_eq_true_2 by (simpl; lia). mstep.
    set (tmp1 := take (pos - 1) tmp ++ [digit (v mod 10)] ++ drop (pos - 1 + length [digit (v mod 10)]) tmp).
    assert (length tmp1 = length tmp) as Hl1.
    { unfold tmp1. rewrite !length_app, length_take, length_drop. simpl. lia. }
    assert (drop (pos - 1) tmp1 = digit (v mod 10) :: drop pos tmp) as Hd.
    { unfold tmp1. rewrite drop_app_length' by (rewrite length_take; lia). simpl. do 2 f_equal. lia. }
    rewrite Nat2Z.inj_succ, Z.pow_succ_r in H1 by lia.
    destruct (IH fuel tmp1 (pos - 1) (v / 10)%Z) as (tmp' & pos' & -> & Hl' & Hp' & Hd').
    + apply Z.div_pos; lia.
    + apply Z.div_lt_upper_bound; lia.
    + lia.
    + lia.
    + lia.
    + exists tmp', pos'. rewrite <- Hd. split_and!; [done|lia|lia|lia|done].
Qed.

Lemma put_i64_show n : in_i64 n -> put_i64 n = Some (show_int n).
Proof.
  unfold in_i64, i64_min, i64_max. intros Hn. unfold put_i64, show_int.
  destruct (Z.eqb_spec n 0) as [->|]; [done|]. destruct (Z.eqb_spec n 1) as [->|]; [done|].
  assert (0 <= Z.abs n < 10 ^ Z.of_nat 19)%Z as [Ha1 Ha2].
  { change (10 ^ Z.of_nat 19)%Z with 10000000000000000000%Z. lia. }
  destruct (put_i64_loop_spec 19 20 (replicate 20 Byte.x00) 20 (Z.abs n) Ha1 Ha2)
    as (tmp & pos & -> & Hl & Hp & Hd); [lia|lia|done|]. mstep.
  rewrite length_replicate in Hl. change (drop 20 (replicate 20 Byte.x00)) with (@nil byte) in Hd.
  assert (dec (Z.abs n) = drop pos tmp) as Hdec.
  { unfold dec. rewrite (proj2 (Z.eqb_neq _ _)) by lia. rewrite Hd. symmetry. apply dec_loop_fuel; [done|done|].
    rewrite Nat2Z.inj_succ, Z2Nat.id by apply Z.log2_nonneg. apply Z.log2_spec. lia. }
  destruct (Z.ltb_spec n 0).
  - rewrite Z.abs_neq in Hdec by lia. rewrite checked_sub_ok by lia. mstep. unfold overwrite.
    rewrite bool_decide_eq_true_2 by (simpl; lia). mstep.
    rewrite Hdec.
    set (tmp1 := take (pos - 1) tmp ++ [MINUS] ++ drop (pos - 1 + length [MINUS]) tmp).
    assert (length tmp1 = 20) as Hl1.
    { unfold tmp1. rewrite !length_app, length_take, length_drop. simpl. lia. }
    rewrite <- Hl1, slice_suffix by lia. f_equal. unfold tmp1.
    rewrite drop_app_length' by (rewrite length_take; lia). simpl.
    by replace (pos - 1 + 1) with pos by lia.
  - rewrite Z.abs_eq in Hdec by lia. rewrite <- Hl, slice_suffix by lia. by rewrite Hdec.
Qed.

(** Integer replies: [put_i64] never indexes outside its 20-byte scratch buffer,
    writes exactly the decimal text of every [i64], [i64::MIN] included, and
    [str::parse] reads the same integer back. *)
Theorem put_i64_is_decimal n : in_i64 n ->
  put_i64 n = Some (show_int n) /\ parse_i64 (show_int n) = Some n.
Proof. intros H. split; [by apply put_i64_show|by apply parse_i64_show]. Qed.

Lemma put_i64_is_decimal_witness :
  in_i64 i64_min /\ put_i64 i64_min = Some (bstr "-9223372036854775808").
Proof.
  assert (in_i64 i64_min) as Hi by (split; discriminate).
  split; [exact Hi|]. exact (proj1 (put_i64_is_decimal i64_min Hi)).
Defined.

(** *** The serialiser writes the grammar *)

(** Everything written so far. *)
Definition contents (b : SegBuf.t) : bytes := concat (SegBuf.segments b) ++ SegBuf.active b.

Lemma contents_put b bs : contents (SegBuf.put b bs) = contents b ++ bs.
Proof. unfold contents. simpl. by rewrite app_assoc. Qed.

Lemma contents_push_raw b raw : contents (SegBuf.push_raw b raw) = contents b ++ raw.
Proof.
  unfold contents, SegBuf.push_raw. simpl. rewrite app_nil_r, concat_app. simpl. rewrite app_nil_r.
  case_bool_decide as E; [by rewrite E, app_nil_r|]. rewrite concat_app. simpl. by rewrite app_nil_r.
Qed.

Lemma contents_finalize b : contents (SegBuf.finalize b) = contents b /\ SegBuf.active (SegBuf.finalize b) = [].
Proof.
  unfold contents, SegBuf.finalize. case_bool_decide; [done|]. simpl.
  by rewrite concat_app, app_nil_r; simpl; rewrite app_nil_r.
Qed.

Lemma fold_left_contents {A} (f : SegBuf.t -> A -> SegBuf.t) (e : A -> bytes) l b :
  Forall (fun x => forall b, contents (f b x) = contents b ++ e x) l ->
  contents (fold_left f l b) = contents b ++ concat (map e l).
Proof.
  intros Hl. revert b. induction Hl as [|x l Hx Hl IH]; intros b; simpl; [by rewrite app_nil_r|].
  by rewrite IH, Hx, app_assoc.
Qed.

Section Serialiser.
Context `{Itoa} `{F64Text}.

Lemma header_count t n : usize_len n -> header t n = count_line t n.
Proof. intros Hn. unfold usize_len in Hn. unfold header, put_usize. rewrite itoa_decimal, show_int_nonneg by lia. done. Qed.

Lemma put_bulk_frame data : usize_len (length data) -> put_bulk data = bulk_frame data.
Proof. intros Hn. unfold put_bulk. by rewrite header_count. Qed.

Lemma write_contents version r b : representable r ->
  contents (write_to_for_version r b version) = contents b ++ encode version r.
Proof.
  revert b. induction r as [s|s|n|[d|]| |l IH| |x|d|ps IH|l IH|l IH|d] using Resp_nested_ind;
    intros b Hr; cbn [write_to_for_version encode].
  - case_bool_decide as E1; [by subst; rewrite contents_put|].
    case_bool_decide as E2; [by subst; rewrite contents_put|]. by rewrite contents_put.
  - by rewrite contents_put.
  - rewrite contents_put, put_i64_show by exact Hr. done.
  - rewrite contents_put. by rewrite put_bulk_frame by exact Hr.
  - rewrite contents_put. by destruct (3 <=? version)%Z.
  - rewrite contents_put. by destruct (3 <=? version)%Z.
  - destruct Hr as [Hl Hr]. apply fold_right_Forall in Hr.
    rewrite (fold_left_contents _ (encode version)), contents_put, header_count, app_assoc; [done|done|].
    rewrite Forall_forall in *. eauto.
  - by rewrite contents_put.
  - rewrite contents_put. by destruct (3 <=? version)%Z, x.
  - rewrite contents_put. destruct (3 <=? version)%Z; [done|]. by rewrite put_bulk_frame by exact Hr.
  - destruct Hr as [Hl Hr]. apply fold_right_Forall_pairs in Hr.
    rewrite (fold_left_contents _ (fun '(k, v) => encode version k ++ encode version v)), contents_put.
    + rewrite <- app_assoc. unfold usize_len in Hl.
      destruct (3 <=? version)%Z; rewrite header_count; done || unfold usize_len; lia.
    + rewrite Forall_forall in *. intros [k v] Hkv b'. destruct (IH _ Hkv) as [IHk IHv], (Hr _ Hkv) as [Hk Hv].
      simpl in *. by rewrite IHv, IHk, app_assoc.
  - destruct Hr as [Hl Hr]. apply fold_right_Forall in Hr.
    rewrite (fold_left_contents _ (encode version)), contents_put.
    + rewrite <- app_assoc. by destruct (3 <=? version)%Z; rewrite header_count.
    + rewrite Forall_forall in *. eauto.
  - destruct Hr as [Hl Hr]. apply fold_right_Forall in Hr.
    rewrite (fold_left_contents _ (encode version)), contents_put.
    + rewrite <- app_assoc. by destruct (3 <=? version)%Z; rewrite header_count.
    + rewrite Forall_forall in *. eauto.
  - apply contents_push_raw.
Qed.

Lemma serialize_encode version r : representable r -> serialize_for_version r version = encode version r.
Proof.
  intros Hr. unfold serialize_for_version.
  pose proof (write_contents version r (SegBuf.with_capacity 64) Hr) as E. simpl in E.
  set (b := write_to_for_version r (SegBuf.with_capacity 64) version) in *.
  destruct (contents_finalize b) as [Ec Ea]. rewrite <- Ec in E.
  unfold contents at 1 in E. rewrite Ea, app_nil_r in E. rewrite <- E.
  assert (forall segs out, fold_left (fun out seg : bytes => out ++ seg) segs out = out ++ concat segs) as Hf.
  { induction segs as [|s segs IH]; intros out; simpl; [by rewrite app_nil_r|]. by rewrite IH, app_assoc. }
  destruct (SegBuf.segments (SegBuf.finalize b)) as [|s1 [|s2 segs]]; [done| |by rewrite Hf].
  simpl. by rewrite app_nil_r.
Qed.

(** For every representable reply and either protocol version, the segmented
    writer - static frames, hand-written integers, raw segments and all - appends
    exactly the protocol encoding to whatever was queued, the owned and borrowed
    entry points agree, and [serialize_for_version] returns that encoding. *)
Theorem serializer_writes_protocol version r b : representable r ->
  contents (write_to_for_version r b version) = contents b ++ encode version r /\
  write_to_for_version_owned r b version = write_to_for_version r b version /\
  serialize_for_version r version = encode version r.
Proof.
  intros Hr. split_and!; [by apply write_contents|by destruct r|by apply serialize_encode].
Qed.

(** The direct writer LRANGE, HGETALL and SMEMBERS use emits the same bytes as
    building the array of bulk strings and serialising it. *)
Theorem bulk_array_writer_agrees buf elems : usize_len (length elems) ->
  Forall (fun e => usize_len (length e)) elems ->
  write_bulk_array_into buf elems = buf ++ serialize (array (map bulk elems)).
Proof.
  intros Hl He. unfold serialize. rewrite serialize_encode.
  - unfold write_bulk_array_into. cbn [encode array].
    rewrite header_count, length_map, app_assoc by done.
    generalize (buf ++ count_line "*" (length elems)). clear Hl.
    induction He as [|e elems He Hes IH]; intros b; simpl; [by rewrite app_nil_r|].
    rewrite IH, put_bulk_frame, <- app_assoc by done. done.
  - split; [by rewrite length_map|]. apply fold_right_Forall, Forall_map. done.
Qed.

End Serialiser.

Lemma serializer_writes_protocol_witness :
  let r := Array (Some [Integer (-7); Raw (bstr "+raw" ++ CRLF); Map [(bulk (bstr "k"), Bool true)]]) in
  @representable pattern_text r /\
  @serialize_for_version plain_itoa pattern_text r 3
    = bstr "*3" ++ CRLF ++ bstr ":-7" ++ CRLF ++ bstr "+raw" ++ CRLF ++ bstr "%1" ++ CRLF ++
      bstr "$1" ++ CRLF ++ bstr "k" ++ CRLF ++ bstr "#t" ++ CRLF.
Proof.
  set (r := Array (Some [Integer (-7); Raw (bstr "+raw" ++ CRLF); Map [(bulk (bstr "k"), Bool true)]])).
  assert (@representable pattern_text r) as Hr.
  { cbn. unfold usize_len, in_i64, i64_min, i64_max. simpl. lia. }
  split; [exact Hr|].
  exact (proj2 (proj2 (@serializer_writes_protocol plain_itoa pattern_text 3 r
    (SegBuf.with_capacity 0) Hr))).
Defined.

Lemma bulk_array_writer_agrees_witness :
  let elems := [bstr "a"; bstr "bc"] in
  usize_len (length elems) /\ Forall (fun e : bytes => usize_len (length e)) elems /\
  @write_bulk_array_into plain_itoa (bstr "x") elems
    = bstr "x" ++ @serialize plain_itoa pattern_text (array (map bulk elems)).
Proof.
  set (elems := [bstr "a"; bstr "bc"]).
  assert (usize_len (length elems)) as Hl by done.
  assert (Forall (fun e : bytes => usize_len (length e)) elems) as He by (repeat constructor).
  split; [exact Hl|]. split; [exact He|].
  exact (@bulk_array_writer_agrees plain_itoa pattern_text (bstr "x") elems Hl He).
Defined.

(** ** Delivering the buffer *)

(** The unread bytes: from [read_offset] in the current segment to the end. *)
Definition unread_of (segs : list bytes) (off : nat) (active : bytes) : bytes :=
  match segs with
  | [] => active
  | s :: ss => drop off s ++ concat ss ++ active
  end.

Definition unread (b : SegBuf.t) : bytes :=
  unread_of (drop (SegBuf.read_pos b) (SegBuf.segments b)) (SegBuf.read_offset b) (SegBuf.active b).

Lemma unread_of_0 segs active : unread_of segs 0 active = concat segs ++ active.
Proof. destruct segs; simpl; [done|]. by rewrite drop_0, app_assoc. Qed.

(** The cursor is inside the buffer. *)
Definition cursor_ok (b : SegBuf.t) : Prop :=
  SegBuf.read_pos b <= length (SegBuf.segments b) /\
  match SegBuf.segments b !! SegBuf.read_pos b with
  | Some seg => SegBuf.read_offset b <= length seg
  | None => SegBuf.read_offset b = 0
  end.

Lemma lookup_drop_head {A} (l : list A) i : l !! i = head (drop i l).
Proof. rewrite <- (Nat.add_0_r i) at 1. rewrite <- lookup_drop. by destruct (drop i l). Qed.

Lemma remaining_loop_rest i segs off total : i <> 0 ->
  SegBuf.remaining_loop i segs off total = Some (total + length (concat segs)).
Proof.
  revert i total. induction segs as [|s segs IH]; intros i total Hi; simpl; [f_equal; lia|].
  rewrite bool_decide_eq_false_2 by done. mstep. rewrite IH by done. f_equal. rewrite length_app. lia.
Qed.

Lemma remaining_unread b : cursor_ok b -> SegBuf.remaining b = Some (length (unread b)).
Proof.
  intros [Hp Ho]. unfold SegBuf.remaining, unread. rewrite slice_suffix by done. mstep.
  rewrite lookup_drop_head in Ho.
  destruct (drop (SegBuf.read_pos b) (SegBuf.segments b)) as [|s ss]; [done|]. simpl in *.
  rewrite checked_sub_ok by done. mstep. rewrite remaining_loop_rest by done. f_equal.
  rewrite !length_app, length_drop. lia.
Qed.

Lemma chunk_prefix b : cursor_ok b -> exists c, SegBuf.chunk b = Some c /\ c `prefix_of` unread b.
Proof.
  intros [Hp Ho]. unfold SegBuf.chunk, unread.
  rewrite lookup_drop_head in *.
  destruct (drop (SegBuf.read_pos b) (SegBuf.segments b)) as [|s ss]; simpl in *; [eauto|].
  rewrite slice_suffix by done. eexists. split; [done|]. by apply prefix_app_r.
Qed.

Lemma drop_lookup_cons {A} (l : list A) i x : l !! i = Some x -> drop i l = x :: drop (S i) l.
Proof. intros H. by rewrite (drop_S l x i). Qed.

Lemma advance_loop_spec fuel b n : cursor_ok b -> n <= length (unread b) ->
  length (SegBuf.segments b) - SegBuf.read_pos b <= fuel -> exists b',
  SegBuf.advance_loop fuel b n = Some b' /\ cursor_ok b' /\ unread b' = drop n (unread b).
Proof.
  revert b n. induction fuel as [|fuel IH]; intros b n Hc Hn Hf;
    (destruct (decide (n = 0)) as [->|Hz]; [by exists b; split_and!; [..|rewrite drop_0]|]);
    destruct Hc as [Hp Ho]; cbn [SegBuf.advance_loop]; rewrite bool_decide_eq_false_2 by done.
  - assert (SegBuf.segments b !! SegBuf.read_pos b = None) as E by (apply lookup_ge_None_2; lia).
    unfold unread in *. rewrite drop_ge in * by lia. simpl in Hn. rewrite E in *.
    rewrite bool_decide_eq_true_2 by done. eexists. split_and!; [done| |].
    + split; simpl; [done|]. by rewrite E.
    + simpl. by rewrite drop_ge by lia.
  - destruct (SegBuf.segments b !! SegBuf.read_pos b) as [seg|] eqn:E.
    + pose proof (lookup_lt_Some _ _ _ E). rewrite checked_sub_ok by done. mstep.
      unfold unread in *. rewrite (drop_lookup_cons _ _ _ E) in *. simpl in *.
      rewrite length_app, length_drop in Hn. case_bool_decide as Hc.
      * eexists. split_and!; [done|split; simpl; [done|]; rewrite E; lia|]. simpl.
        rewrite (drop_lookup_cons _ _ _ E). simpl. rewrite (drop_app_le (drop _ _)), drop_drop;
          [done|]. rewrite length_drop. lia.
      * rewrite checked_sub_ok by lia. mstep. edestruct (IH
          {| SegBuf.active := SegBuf.active b; SegBuf.segments := SegBuf.segments b;
             SegBuf.read_pos := SegBuf.read_pos b + 1; SegBuf.read_offset := 0 |})
          as (b' & -> & Hc' & Hu); [split; simpl; [lia|]; case_match; lia| |simpl; lia|].
        { simpl. rewrite Nat.add_1_r, unread_of_0. lia. }
        exists b'. split_and!; [done|done|]. rewrite Hu. simpl. rewrite Nat.add_1_r.
        rewrite drop_app_ge by (rewrite length_drop; lia). rewrite length_drop.
        by rewrite unread_of_0.
    + unfold unread in *. apply lookup_ge_None in E as Hge. rewrite drop_ge in * by lia. simpl in Hn.
      rewrite bool_decide_eq_true_2 by done. eexists. split_and!; [done| |].
      * split; simpl; [done|]. by rewrite E.
      * simpl. by rewrite drop_ge by lia.
Qed.

Lemma vectored_rest i segs off slots acc : i <> 0 -> exists cs,
  SegBuf.vectored_loop i segs off slots acc = Some (acc ++ cs) /\
  Forall (fun c => c <> []) cs /\ concat cs `prefix_of` concat segs /\
  (length (acc ++ cs) < slots -> concat cs = concat segs) /\
  (length acc < slots -> concat segs <> [] -> cs <> []).
Proof.
  revert i acc. induction segs as [|s segs IH]; intros i acc Hi; cbn [SegBuf.vectored_loop].
  - exists []. rewrite app_nil_r. split_and!; [done|constructor|done|done|done].
  - case_bool_decide as Hs.
    + exists []. rewrite app_nil_r. split_and!; [done|constructor|apply prefix_nil|lia|lia].
    + rewrite bool_decide_eq_false_2 by done. mstep. case_bool_decide as He.
      * subst s. apply IH. done.
      * destruct (IH (S i) (acc ++ [s])) as (cs & -> & Hn & Hp & Hc & _); [done|].
        exists (s :: cs). rewrite <- app_assoc in *. simpl. split_and!; [done|by constructor| | |done].
        -- by apply prefix_app.
        -- intros Hl. f_equal. by apply Hc.
Qed.

Lemma vectored_prefix b slots : cursor_ok b -> exists cs,
  SegBuf.chunks_vectored b slots = Some cs /\ Forall (fun c => c <> []) cs /\
  concat cs `prefix_of` unread b /\ (0 < slots -> unread b <> [] -> cs <> []).
Proof.
  intros [Hp Ho]. unfold SegBuf.chunks_vectored, unread. rewrite slice_suffix by done. mstep.
  rewrite lookup_drop_head in Ho.
  assert (exists cs, SegBuf.vectored_loop 0 (drop (SegBuf.read_pos b) (SegBuf.segments b))
      (SegBuf.read_offset b) slots [] = Some cs /\ Forall (fun c => c <> []) cs /\
    let rest := unread_of (drop (SegBuf.read_pos b) (SegBuf.segments b)) (SegBuf.read_offset b) [] in
    concat cs `prefix_of` rest /\ (length cs < slots -> concat cs = rest) /\
    (0 < slots -> rest <> [] -> cs <> [])) as (cs & -> & Hn & Hpre & Hall & Hne).
  { destruct (drop (SegBuf.read_pos b) (SegBuf.segments b)) as [|s ss].
    - exists []. simpl. split_and!; [done|constructor|done|done|done].
    - simpl in *. rewrite app_nil_r. case_bool_decide as Hs; simpl in Hs.
      + exists []. split_and!; [done|constructor|apply prefix_nil|simpl; lia|lia].
      + rewrite slice_suffix by done. mstep. case_bool_decide as He.
        * rewrite He. simpl. destruct (vectored_rest 1 ss (SegBuf.read_offset b) slots [])
            as (cs & -> & ? & ? & ? & ?); [done|]. exists cs. by split_and!.
        * destruct (vectored_rest 1 ss (SegBuf.read_offset b) slots [drop (SegBuf.read_offset b) s])
            as (cs & -> & ? & ? & Hc & _); [done|]. eexists. split_and!; [done|by constructor| | |done].
          -- simpl. by apply prefix_app.
          -- simpl in *. intros Hl. f_equal. by apply Hc. }
  mstep. set (segs := drop (SegBuf.read_pos b) (SegBuf.segments b)) in *. simpl in Hpre, Hall, Hne.
  assert (unread_of segs (SegBuf.read_offset b) (SegBuf.active b)
    = unread_of segs (SegBuf.read_offset b) [] ++ SegBuf.active b) as Eu.
  { destruct segs; simpl; [done|]. by rewrite app_nil_r, app_assoc. }
  rewrite Eu. destruct (bool_decide (length cs < slots)) eqn:Hlt; simpl.
  - apply bool_decide_eq_true in Hlt. rewrite <- (Hall Hlt).
    case_bool_decide as Ha; simpl; eexists; (split; [done|]).
    + rewrite Ha, app_nil_r. split_and!; [done|done|]. intros _ Hc ->. done.
    + rewrite concat_app. simpl. rewrite app_nil_r. split_and!; [|done|].
      * apply Forall_app. split; [done|by constructor].
      * intros _ _. by destruct cs.
  - apply bool_decide_eq_false in Hlt. eexists. split; [done|]. split_and!; [done|by apply prefix_app_r|].
    intros Hs _ ->. simpl in Hlt. lia.
Qed.

(** One vectored write: the socket is offered up to [slots] slices and takes up to
    [accepted] of their bytes; the buffer is advanced by what it took. *)
Definition write_step (b : SegBuf.t) (slots accepted : nat) : may_panic (bytes * SegBuf.t) :=
  cs ← SegBuf.chunks_vectored b slots;
  let n := Nat.min accepted (length (concat cs)) in
  b' ← SegBuf.advance b n;
  Some (take n (concat cs), b').

Fixpoint deliver (b : SegBuf.t) (schedule : list (nat * nat)) : may_panic (bytes * SegBuf.t) :=
  match schedule with
  | [] => Some ([], b)
  | (slots, accepted) :: schedule =>
      '(out, b') ← write_step b slots accepted;
      '(outs, b'') ← deliver b' schedule;
      Some (out ++ outs, b'')
  end.

Lemma write_step_spec b slots accepted : cursor_ok b -> exists out b',
  write_step b slots accepted = Some (out, b') /\ cursor_ok b' /\ out ++ unread b' = unread b /\
  (0 < slots -> 0 < accepted -> unread b <> [] -> out <> []).
Proof.
  intros Hc. unfold write_step.
  destruct (vectored_prefix b slots Hc) as (cs & -> & Hn & [tl Htl] & Hne). mstep.
  set (n := Nat.min accepted (length (concat cs))).
  assert (n <= length (concat cs)) as Hn1 by (unfold n; lia).
  destruct (advance_loop_spec (length (SegBuf.segments b) - SegBuf.read_pos b) b n Hc)
    as (b' & E & Hc' & Hu); [rewrite Htl, length_app; lia|lia|].
  unfold SegBuf.advance. rewrite E. mstep. eexists _, _. split_and!; [done|done| |].
  - rewrite Hu, Htl, drop_app_le, app_assoc, take_drop by done. done.
  - intros Hs Ha Hr. destruct cs as [|c cs]; [by destruct (Hne Hs Hr)|].
    apply Forall_cons in Hn as [Hcne _]. destruct c as [|x c]; [done|]. unfold n. simpl.
    by destruct accepted; [lia|].
Qed.

Lemma deliver_spec b schedule : cursor_ok b -> exists out b',
  deliver b schedule = Some (out, b') /\ cursor_ok b' /\ out ++ unread b' = unread b /\
  (Forall (fun p => 0 < p.1 /\ 0 < p.2) schedule -> length (unread b) <= length schedule -> unread b' = []).
Proof.
  revert b. induction schedule as [|[slots acc] schedule IH]; intros b Hc.
  - exists [], b. split_and!; [done|done|done|]. intros _ Hl. simpl in Hl. by destruct (unread b); [|simpl in Hl; lia].
  - destruct (write_step_spec b slots acc Hc) as (out & b1 & E1 & Hc1 & Hu1 & Hp1).
    destruct (IH b1 Hc1) as (outs & b2 & E2 & Hc2 & Hu2 & Hp2).
    cbn [deliver]. rewrite E1. mstep. rewrite E2. mstep. eexists _, _. split_and!; [done|done| |].
    + by rewrite <- app_assoc, Hu2.
    + intros Hs Hl. apply Forall_cons in Hs as [[Hs1 Hs2] Hs]. simpl in *. apply Hp2; [done|].
      rewrite <- Hu1, length_app in Hl. destruct (decide (unread b = [])) as [Hb|Hb].
      * rewrite <- Hu1 in Hb. apply app_eq_nil in Hb as [_ ->]. simpl. lia.
      * specialize (Hp1 Hs1 Hs2 Hb). destruct out; [done|]. simpl in Hl. lia.
Qed.

(** Writing does not move the read cursor. *)
Definition same_cursor (b b' : SegBuf.t) : Prop :=
  SegBuf.read_pos b' = SegBuf.read_pos b /\ SegBuf.read_offset b' = SegBuf.read_offset b.

#[export] Instance same_cursor_preorder : PreOrder same_cursor.
Proof. unfold same_cursor. split; [by intros ?|]. intros ??? [? ?] [? ?]. split; congruence. Qed.

Lemma fold_left_cursor {A} (f : SegBuf.t -> A -> SegBuf.t) l b :
  Forall (fun x => forall b, same_cursor b (f b x)) l -> same_cursor b (fold_left f l b).
Proof.
  intros Hl. revert b. induction Hl as [|x l Hx Hl IH]; intros b; simpl; [done|].
  transitivity (f b x); [apply Hx|apply IH].
Qed.

Section Delivery.
Context `{Itoa} `{F64Text}.

Lemma write_keeps_cursor version r b : same_cursor b (write_to_for_version r b version).
Proof.
  revert b. induction r as [s|s|n|[d|]| |l IH| |x|d|ps IH|l IH|l IH|d] using Resp_nested_ind;
    intros b; cbn [write_to_for_version]; try (by split); try (repeat case_bool_decide; by split);
    (match goal with |- same_cursor _ (fold_left _ _ ?b0) => transitivity b0; [by split|] end);
    apply fold_left_cursor; try exact IH.
  eapply Forall_impl; [exact IH|]. intros [k v] [Hk Hv] b'. simpl in *.
  etransitivity; [apply Hk|apply Hv].
Qed.

(** Queues a pipeline of replies. *)
Definition write_all (version : Z) (rs : list Resp) (b : SegBuf.t) : SegBuf.t :=
  fold_left (fun b r => write_to_for_version r b version) rs b.


End Delivery.

