(* ===== verification/RespParser.v ===== *)
(** * RespParser: the incremental protocol parser ([resp.rs], second half)

    [parse_resp] and its helpers over a byte slice, and [RespParser], which
    feeds socket reads into a buffer and takes complete values off its front.
    Shown here: the parser always returns (no panic, bounded recursion), never
    consumes more than it was given, decides on the bytes of the frame alone,
    asks for more data on every proper prefix of a frame, gives the same values
    however the stream is cut, and inverts the serialiser. *)

From S2P Require Import Prelude Text Doubles Resp.

(** ** Parsing *)

Definition MAX_BULK_LEN : Z := 512 * 1024 * 1024.
Definition MAX_ARRAY_LEN : Z := 1024000.

(** The outcome of a parsing function: a value, a [ParseError], or no outcome at
    all - a panic (an out-of-range slice), or the model's recursion bound. *)
Inductive presult (A : Type) :=
  | POk (a : A)
  | PIncomplete
  | PInvalid (msg : bytes)
  | PStuck.

#[global] Arguments POk {A} a.
#[global] Arguments PIncomplete {A}.
#[global] Arguments PInvalid {A} msg.
#[global] Arguments PStuck {A}.

(** The [?] operator. *)
Definition pbind {A B} (m : presult A) (k : A -> presult B) : presult B :=
  match m with
  | POk a => k a
  | PIncomplete => PIncomplete
  | PInvalid msg => PInvalid msg
  | PStuck => PStuck
  end.

Declare Scope parse_scope.
Delimit Scope parse_scope with parse.
Notation "'let*' p ':=' m 'in' k" := (pbind m (fun p => k))
  (at level 200, p strict pattern, m at level 200, k at level 200) : parse_scope.
Open Scope parse_scope.

(** A value of the standard library that is absent on error. *)
Definition or_invalid {A} (o : option A) (msg : bytes) : presult A :=
  match o with Some a => POk a | None => PInvalid msg end.

(** Indexing: absent is a panic. *)
Definition or_panic {A} (o : may_panic A) : presult A :=
  match o with Some a => POk a | None => PStuck end.

(** [buf.windows(2).position(|w| w == b"\r\n")]. *)
Fixpoint find_crlf (buf : bytes) : option nat :=
  match buf with
  | b0 :: tl =>
      match tl with
      | b1 :: _ =>
          if bool_decide (b0 = CR /\ b1 = LF) then Some 0 else S <$> find_crlf tl
      | [] => None
      end
  | [] => None
  end.

Definition parse_line (buf : bytes) : presult (bytes * nat) :=
  match find_crlf buf with
  | Some pos => let* line := or_panic (slice buf 1 pos) in POk (line, pos + 2)
  | None => PIncomplete
  end.

Definition parse_simple_string (buf : bytes) : presult (Resp * nat) :=
  let* (line, consumed) := parse_line buf in
  POk (SimpleString (from_utf8_lossy line), consumed).

Definition parse_error (buf : bytes) : presult (Resp * nat) :=
  let* (line, consumed) := parse_line buf in
  POk (Error (from_utf8_lossy line), consumed).

Definition parse_integer (buf : bytes) : presult (Resp * nat) :=
  let* (line, consumed) := parse_line buf in
  let* s := or_invalid (from_utf8 line) (bstr "invalid integer encoding") in
  let* n := or_invalid (parse_i64 s) (bstr "invalid integer: " ++ s) in
  POk (Integer n, consumed).

Definition parse_bulk_string (buf : bytes) : presult (Resp * nat) :=
  let* (line, header_len) := parse_line buf in
  let* s := or_invalid (from_utf8 line) (bstr "invalid bulk string length") in
  let* len := or_invalid (parse_i64 s) (bstr "invalid bulk length: " ++ s) in
  if (len =? -1)%Z then POk (BulkString None, header_len)
  else if (len <? 0)%Z then PInvalid (bstr "invalid bulk length: " ++ show_int len)
  else if (MAX_BULK_LEN <? len)%Z then PInvalid (bstr "invalid bulk length: " ++ show_int len)
  else if (Z.of_nat (length buf) <? Z.of_nat header_len + len + 2)%Z then PIncomplete
  else
    let len := Z.to_nat len in
    let total := header_len + len + 2 in
    let* data := or_panic (slice buf header_len (header_len + len)) in
    let* trail := or_panic (slice buf (header_len + len) (header_len + len + 2)) in
    if bool_decide (trail = CRLF) then POk (BulkString (Some data), total)
    else PInvalid (bstr "missing CRLF after bulk string").

Definition parse_resp3_null (buf : bytes) : presult (Resp * nat) :=
  if bool_decide (length buf < 3) then PIncomplete
  else
    let* trail := or_panic (slice buf 1 3) in
    if bool_decide (trail = CRLF) then POk (Null, 3)
    else PInvalid (bstr "invalid RESP3 null").

Definition parse_resp3_bool (buf : bytes) : presult (Resp * nat) :=
  if bool_decide (length buf < 4) then PIncomplete
  else
    let* c := or_panic (buf !! 1) in
    let* val := (if bool_decide (c = byte_of 116) then POk true
            else if bool_decide (c = byte_of 102) then POk false
            else PInvalid (bstr "invalid RESP3 boolean")) in
    let* trail := or_panic (slice buf 2 4) in
    if bool_decide (trail = CRLF) then POk (Bool val, 4)
    else PInvalid (bstr "invalid RESP3 boolean").

(** *** Inline commands *)

Definition QUOTE : byte := byte_of 34.
Definition APOSTROPHE : byte := byte_of 39.
Definition BACKSLASH : byte := byte_of 92.
Definition SPACE : byte := byte_of 32.

Definition unescape (c : byte) : byte :=
  if bool_decide (c = byte_of 110) then LF
  else if bool_decide (c = byte_of 114) then CR
  else if bool_decide (c = byte_of 116) then byte_of 9
  else c.

(** The loop over a quoted token: the rest of the line is consumed up to and
    including the closing quote. *)
Fixpoint quoted_loop (quote : byte) (line token : bytes) : presult (bytes * bytes) :=
  match line with
  | [] => PInvalid (bstr "unterminated quoted string in inline command")
  | c :: tl =>
      if bool_decide (c = quote) then POk (token, tl)
      else if bool_decide (quote = QUOTE /\ c = BACKSLASH) then
        match tl with
        | e :: tl' => quoted_loop quote tl' (token ++ [unescape e])
        | [] => quoted_loop quote tl (token ++ [c])
        end
      else quoted_loop quote tl (token ++ [c])
  end.

(** The loop over an unquoted token. *)
Fixpoint unquoted_loop (line token : bytes) : bytes * bytes :=
  match line with
  | [] => (token, [])
  | c :: tl => if bool_decide (c = SPACE) then (token, line) else unquoted_loop tl (token ++ [c])
  end.

Fixpoint skip_spaces (line : bytes) : bytes :=
  match line with
  | c :: tl => if bool_decide (c = SPACE) then skip_spaces tl else line
  | [] => []
  end.

(** The token loop; every pass consumes a byte, so the line's length is enough. *)
Fixpoint tokenize_loop (fuel : nat) (line : bytes) (parts : list Resp) : presult (list Resp) :=
  match skip_spaces line with
  | [] => POk parts
  | c :: tl =>
      match fuel with
      | 0 => PStuck
      | S fuel =>
          if bool_decide (c = QUOTE \/ c = APOSTROPHE) then
            let* (token, rest) := quoted_loop c tl [] in
            tokenize_loop fuel rest (parts ++ [bulk token])
          else
            let '(token, rest) := unquoted_loop (c :: tl) [] in
            tokenize_loop fuel rest (parts ++ [bulk token])
      end
  end.

Definition tokenize_inline (line : bytes) : presult (list Resp) := tokenize_loop (length line) line [].

Definition parse_inline (buf : bytes) : presult (Resp * nat) :=
  match find_crlf buf with
  | None => PIncomplete
  | Some pos =>
      let* line := or_panic (slice buf 0 pos) in
      let* parts := tokenize_inline line in
      if bool_decide (length parts = 0) then PInvalid (bstr "empty inline command")
      else POk (Array (Some parts), pos + 2)
  end.

(** *** Aggregates *)

Section Parser.
Context `{F64Text}.

Definition parse_resp3_double (buf : bytes) : presult (Resp * nat) :=
  let* (line, consumed) := parse_line buf in
  let* s := or_invalid (from_utf8 line) (bstr "invalid RESP3 double") in
  let* d := or_invalid (f64_parse s) (bstr "invalid double: " ++ s) in
  POk (Double d, consumed).

(** The element loops, over the parser [p] of one value. *)
Section Elements.
Variable p : bytes -> presult (Resp * nat).

Fixpoint parse_items (buf : bytes) (n : nat) (items : list Resp) (offset : nat)
  : presult (list Resp * nat) :=
  match n with
  | 0 => POk (items, offset)
  | S n =>
      let* rest := or_panic (slice buf offset (length buf)) in
      let* (item, consumed) := p rest in
      parse_items buf n (items ++ [item]) (offset + consumed)
  end.

Fixpoint parse_pairs (buf : bytes) (n : nat) (pairs : list (Resp * Resp)) (offset : nat)
  : presult (list (Resp * Resp) * nat) :=
  match n with
  | 0 => POk (pairs, offset)
  | S n =>
      let* rest := or_panic (slice buf offset (length buf)) in
      let* (k, klen) := p rest in
      let offset := offset + klen in
      let* rest := or_panic (slice buf offset (length buf)) in
      let* (v, vlen) := p rest in
      parse_pairs buf n (pairs ++ [(k, v)]) (offset + vlen)
  end.

Definition parse_array (buf : bytes) : presult (Resp * nat) :=
  let* (line, header_len) := parse_line buf in
  let* s := or_invalid (from_utf8 line) (bstr "invalid array length") in
  let* len := or_invalid (parse_i64 s) (bstr "invalid array length: " ++ s) in
  if (len =? -1)%Z then POk (Array None, header_len)
  else if (len <? 0)%Z then PInvalid (bstr "invalid array length: " ++ show_int len)
  else if (MAX_ARRAY_LEN <? len)%Z then PInvalid (bstr "invalid multibulk length: " ++ show_int len)
  else
    let* (items, offset) := parse_items buf (Z.to_nat len) [] header_len in
    POk (Array (Some items), offset).

(** The count of a RESP3 aggregate named [what] in the error messages. *)
Definition parse_count (what : string) (line : bytes) : presult nat :=
  let* s := or_invalid (from_utf8 line) (bstr "invalid RESP3 " ++ bstr what ++ bstr " length") in
  let* count := or_invalid (parse_usize s) (bstr "invalid " ++ bstr what ++ bstr " length: " ++ s) in
  if (MAX_ARRAY_LEN <? count)%Z then
    PInvalid (bstr "invalid " ++ bstr what ++ bstr " length: " ++ show_int count)
  else POk (Z.to_nat count).

Definition parse_resp3_map (buf : bytes) : presult (Resp * nat) :=
  let* (line, header_len) := parse_line buf in
  let* count := parse_count "map" line in
  let* (pairs, offset) := parse_pairs buf count [] header_len in
  POk (Map pairs, offset).

Definition parse_resp3_set (buf : bytes) : presult (Resp * nat) :=
  let* (line, header_len) := parse_line buf in
  let* count := parse_count "set" line in
  let* (items, offset) := parse_items buf count [] header_len in
  POk (Set_ items, offset).

Definition parse_resp3_push (buf : bytes) : presult (Resp * nat) :=
  let* (line, header_len) := parse_line buf in
  let* count := parse_count "push" line in
  let* (items, offset) := parse_items buf count [] header_len in
  POk (Push items, offset).

End Elements.

(** The dispatch on the type byte. *)
Definition parse_with (p : bytes -> presult (Resp * nat)) (buf : bytes) : presult (Resp * nat) :=
  match buf with
  | [] => PIncomplete
  | c :: _ =>
      if bool_decide (c = byte_of 43) then parse_simple_string buf
      else if bool_decide (c = byte_of 45) then parse_error buf
      else if bool_decide (c = byte_of 58) then parse_integer buf
      else if bool_decide (c = byte_of 36) then parse_bulk_string buf
      else if bool_decide (c = byte_of 42) then parse_array p buf
      else if bool_decide (c = byte_of 95) then parse_resp3_null buf
      else if bool_decide (c = byte_of 35) then parse_resp3_bool buf
      else if bool_decide (c = byte_of 44) then parse_resp3_double buf
      else if bool_decide (c = byte_of 37) then parse_resp3_map p buf
      else if bool_decide (c = byte_of 126) then parse_resp3_set p buf
      else if bool_decide (c = byte_of 62) then parse_resp3_push p buf
      else parse_inline buf
  end.

(** The recursion, [fuel] levels deep. *)
Fixpoint parse_fuel (fuel : nat) (buf : bytes) : presult (Resp * nat) :=
  match fuel with
  | 0 => PStuck
  | S fuel => parse_with (parse_fuel fuel) buf
  end.

(** Every level of nesting consumes its header, so the buffer bounds the depth. *)
Definition parse_resp (buf : bytes) : presult (Resp * nat) := parse_fuel (S (length buf)) buf.

(** [RespParser]: the state is the input buffer. *)
Definition feed (buf data : bytes) : bytes := buf ++ data.

Definition buffered_len (buf : bytes) : nat := length buf.

(** [parse_one]; the error is [NexradeError::ProtocolError]. *)
Inductive parse_one_result :=
  | ParsedValue (v : Resp)
  | NeedMore
  | ProtocolError (msg : bytes)
  | NoOutcome.

Definition parse_one (buf : bytes) : parse_one_result * bytes :=
  if bool_decide (buf = []) then (NeedMore, buf)
  else
    match parse_resp buf with
    | POk (value, consumed) =>
        if bool_decide (consumed <= length buf) then (ParsedValue value, drop consumed buf)
        else (NoOutcome, buf)
    | PIncomplete => (NeedMore, buf)
    | PInvalid msg => (ProtocolError msg, buf)
    | PStuck => (NoOutcome, buf)
    end.

End Parser.

(** ** What a well-behaved parsing function does on a buffer *)

(** It returns; a value is decided by the bytes it consumes, and any shorter
    prefix asks for more; a rejection is final. *)
Record good {A} (q : bytes -> presult (A * nat)) (b : bytes) : Prop := mk_good {
  good_returns : q b <> PStuck;
  good_bound x n : q b = POk (x, n) -> n <= length b;
  good_local x n b' : q b = POk (x, n) -> take n b' = take n b -> q b' = POk (x, n);
  good_prefix x n k : q b = POk (x, n) -> k < n -> q (take k b) = PIncomplete;
  good_invalid m more : q b = PInvalid m -> q (b ++ more) = PInvalid m;
}.

Lemma take_prefix_eq {A} (l l' : list A) n k : take n l = take n l' -> k <= n -> take k l = take k l'.
Proof. intros E Hk. rewrite <- (Nat.min_l k n Hk), <- !take_take. by rewrite E. Qed.

Lemma take_split_eq {A} (l l' : list A) h c : take (h + c) l = take (h + c) l' ->
  take h l = take h l' /\ take c (drop h l) = take c (drop h l').
Proof.
  intros E. split; [eapply take_prefix_eq; [exact E|lia]|].
  by rewrite !take_drop_commute, E.
Qed.

(** *** Lines *)

Definition at_crlf (b : bytes) (i : nat) : Prop := b !! i = Some CR /\ b !! S i = Some LF.

Lemma find_crlf_first b :
  match find_crlf b with
  | Some pos => at_crlf b pos /\ forall j, j < pos -> ~ at_crlf b j
  | None => forall j, ~ at_crlf b j
  end.
Proof.
  induction b as [|b0 b IH]; simpl; [by intros j [? _]; rewrite lookup_nil in *|].
  destruct b as [|b1 b]; [intros [|j] [_ E]; simpl in E; by rewrite ?lookup_nil in E|].
  case_bool_decide as Hc.
  - destruct Hc as [-> ->]. split; [done|]. lia.
  - destruct (find_crlf (b1 :: b)) as [p|]; simpl.
    + destruct IH as [[H1 H2] H3]. split; [done|]. intros [|j] Hj [E1 E2].
      * simpl in *. naive_solver.
      * apply (H3 j); [lia|done].
    + intros [|j] [E1 E2]; [simpl in *; naive_solver|]. by apply (IH j).
Qed.

Lemma find_crlf_Some b pos : find_crlf b = Some pos <-> at_crlf b pos /\ forall j, j < pos -> ~ at_crlf b j.
Proof.
  pose proof (find_crlf_first b) as H. destruct (find_crlf b) as [p|]; split.
  - by intros [= ->].
  - intros [H1 H2]. destruct H as [H3 H4]. f_equal. destruct (lt_eq_lt_dec p pos) as [[Hl|]|Hl];
      [by destruct (H2 p Hl)|done|by destruct (H4 pos Hl)].
  - done.
  - intros [H1 _]. by destruct (H pos).
Qed.

Lemma find_crlf_None b : find_crlf b = None <-> forall j, ~ at_crlf b j.
Proof.
  pose proof (find_crlf_first b) as H. destruct (find_crlf b) as [p|]; [|done].
  split; [done|]. intros Hn. by destruct H as [[]%Hn _].
Qed.

Lemma at_crlf_bound b i : at_crlf b i -> i + 2 <= length b.
Proof. intros [_ E]. apply lookup_lt_Some in E. lia. Qed.

Lemma at_crlf_take b i k : at_crlf (take k b) i <-> at_crlf b i /\ i + 2 <= k.
Proof.
  unfold at_crlf. split.
  - intros [E1 E2]. pose proof (lookup_lt_Some _ _ _ E2) as Hl. rewrite length_take in Hl.
    rewrite lookup_take_lt in E1, E2 by lia. split; [done|lia].
  - intros [[E1 E2] Hk]. by rewrite !lookup_take_lt by lia.
Qed.

Lemma find_crlf_take b pos k : find_crlf b = Some pos ->
  find_crlf (take k b) = if bool_decide (pos + 2 <= k) then Some pos else None.
Proof.
  rewrite find_crlf_Some. intros [H1 H2]. case_bool_decide as Hk.
  - apply find_crlf_Some. split; [by apply at_crlf_take|]. intros j Hj [? _]%at_crlf_take. by apply (H2 j).
  - apply find_crlf_None. intros j [Hj Hk']%at_crlf_take. apply (H2 j); [lia|done].
Qed.

Lemma find_crlf_local b b' pos : find_crlf b = Some pos -> take (pos + 2) b' = take (pos + 2) b ->
  find_crlf b' = Some pos.
Proof.
  intros E Et. pose proof (find_crlf_take b pos (pos + 2) E) as Hf. rewrite <- Et in Hf.
  rewrite bool_decide_eq_true_2 in Hf by done. apply find_crlf_Some in Hf as [H1 H2].
  apply find_crlf_Some. apply at_crlf_take in H1 as H1'. split; [by destruct H1'|].
  intros j Hj Hc. apply (H2 j Hj). apply at_crlf_take. split; [done|lia].
Qed.

(** The first byte of a typed frame is not a carriage return. *)
Definition typed (b : bytes) : Prop := head b <> Some CR.

Lemma parse_line_typed b pos : typed b -> find_crlf b = Some pos ->
  parse_line b = POk (take (pos - 1) (drop 1 b), pos + 2).
Proof.
  intros Ht E. unfold parse_line. rewrite E.
  apply find_crlf_Some in E as [Hc _]. apply at_crlf_bound in Hc as Hb.
  assert (1 <= pos). { destruct pos; [|lia]. destruct Hc as [E _]. destruct b; [done|]. by destruct Ht. }
  unfold slice. rewrite bool_decide_eq_true_2 by lia. done.
Qed.

Lemma typed_take b b' n : 0 < n -> take n b' = take n b -> typed b -> typed b'.
Proof.
  intros Hn E. unfold typed. destruct n; [lia|]. destruct b, b'; simpl in *; try done. by injection E as -> _.
Qed.

(** A frame that is a line followed by a body the line governs. *)
Definition line_then {A} (g : bytes -> bytes -> presult (A * nat)) (b : bytes) : presult (A * nat) :=
  let* (line, h) := parse_line b in
  let* (x, c) := g line (drop h b) in
  POk (x, h + c).

Lemma line_then_good {A} (g : bytes -> bytes -> presult (A * nat)) b : typed b ->
  (forall line h, parse_line b = POk (line, h) -> good (g line) (drop h b)) -> good (line_then g) b.
Proof.
  intros Ht Hg. destruct (find_crlf b) as [pos|] eqn:Ef.
  - pose proof (parse_line_typed b pos Ht Ef) as El. specialize (Hg _ _ El).
    set (line := take (pos - 1) (drop 1 b)) in *. set (h := pos + 2) in *.
    assert (h <= length b) as Hh by (by apply find_crlf_Some in Ef as [?%at_crlf_bound _]).
    assert (line_then g b = let* (x, c) := g line (drop h b) in POk (x, h + c)) as Eb
      by (unfold line_then; by rewrite El).
    assert (forall b', take h b' = take h b ->
      line_then g b' = let* (x, c) := g line (drop h b') in POk (x, h + c)) as Eb'.
    { intros b' E. unfold line_then. rewrite (parse_line_typed b' pos); [|by eapply (typed_take b b' h); [lia|..]|by eapply find_crlf_local].
      cbn [pbind]. replace (take (pos - 1) (drop 1 b')) with line; [done|]. unfold line.
      apply (take_prefix_eq _ _ _ (1 + (pos - 1))) in E; [|lia]. by apply take_split_eq in E as [_ E]. }
    split; rewrite ?Eb.
    + pose proof (good_returns _ _ Hg). by destruct (g line (drop h b)) as [[? ?]| | |].
    + intros x n. destruct (g line (drop h b)) as [[y c]| | |] eqn:Eg; try done. intros [= -> <-].
      apply (good_bound _ _ Hg) in Eg. rewrite length_drop in Eg. lia.
    + intros x n b'. destruct (g line (drop h b)) as [[y c]| | |] eqn:Eg; try done. intros [= -> <-] E.
      apply take_split_eq in E as [E1 E2]. rewrite Eb' by done.
      by rewrite (good_local _ _ Hg _ _ _ Eg E2).
    + intros x n k. destruct (g line (drop h b)) as [[y c]| | |] eqn:Eg; try done. intros [= -> <-] Hk.
      destruct (decide (h <= k)) as [Hhk|Hhk].
      * rewrite Eb' by (rewrite take_take; f_equal; lia).
        rewrite skipn_firstn_comm, (good_prefix _ _ Hg _ _ (k - h) Eg) by lia. done.
      * unfold line_then, parse_line. rewrite (find_crlf_take _ _ k Ef), bool_decide_eq_false_2; [done|].
        unfold h in Hhk. lia.
    + intros m more. destruct (g line (drop h b)) as [[y c]| | |] eqn:Eg; try done. intros [= ->].
      rewrite Eb' by (apply take_app_le; lia). rewrite drop_app_le by done.
      by rewrite (good_invalid _ _ Hg _ more Eg).
  - split; unfold line_then, parse_line; by rewrite Ef.
Qed.

(** *** Bodies *)

(** A body decided by the line alone. *)
Lemma const_good {A} (r : presult A) b : r <> PIncomplete -> r <> PStuck ->
  good (fun _ => let* x := r in POk (x, 0)) b.
Proof. intros H1 H2. destruct r; try done; split; simpl; intros; simplify_eq; try done; lia. Qed.

(** The payload of a bulk string. *)
Definition bulk_body (n : nat) (rest : bytes) : presult (Resp * nat) :=
  if bool_decide (length rest < n + 2) then PIncomplete
  else if bool_decide (take 2 (drop n rest) = CRLF) then POk (BulkString (Some (take n rest)), n + 2)
  else PInvalid (bstr "missing CRLF after bulk string").

Lemma bulk_body_good n b : good (bulk_body n) b.
Proof.
  unfold bulk_body. destruct (decide (length b < n + 2)) as [Hl|Hl].
  { split; rewrite bool_decide_eq_true_2 by done; done. }
  split; rewrite (bool_decide_eq_false_2 (length b < n + 2)) by done; case_bool_decide as Hc; try done.
  - intros x m [= <- <-]. lia.
  - intros x m b' [= <- <-] E. assert (n + 2 <= length b') as Hb'.
    { apply (f_equal length) in E. rewrite !length_take in E. lia. }
    apply take_split_eq in E as [E1 E2].
    rewrite bool_decide_eq_false_2, E2, bool_decide_eq_true_2, E1 by (done || lia). done.
  - intros x m k [= <- <-] Hk. by rewrite bool_decide_eq_true_2 by (rewrite length_take; lia).
  - intros m more Em. rewrite bool_decide_eq_false_2 by (rewrite length_app; lia).
    rewrite drop_app_le, take_app_le by (rewrite ?length_drop; lia). by rewrite bool_decide_eq_false_2.
Qed.

(** [n] values one after the other. *)
Fixpoint items_of (p : bytes -> presult (Resp * nat)) (n : nat) (rest : bytes)
  : presult (list Resp * nat) :=
  match n with
  | 0 => POk ([], 0)
  | S n =>
      let* (v, c) := p rest in
      let* (vs, c') := items_of p n (drop c rest) in
      POk (v :: vs, c + c')
  end.

Lemma items_of_good p n b : (forall b', length b' <= length b -> good p b') -> good (items_of p n) b.
Proof.
  revert b. induction n as [|n IH]; intros b Hp.
  { split; simpl; intros; simplify_eq; try done; lia. }
  pose proof (Hp b ltac:(lia)) as Hb. cbn [items_of].
  assert (forall c, good (items_of p n) (drop c b)) as Hi.
  { intros c. apply IH. intros b' Hb'. apply Hp. rewrite length_drop in Hb'. lia. }
  split; destruct (p b) as [[v c]| | |] eqn:Eb; try done; cbn [items_of pbind];
    try (pose proof (Hi c) as Hc; pose proof (good_bound _ _ Hb _ _ Eb) as Hcb).
  - pose proof (good_returns _ _ Hc). by destruct (items_of p n (drop c b)) as [[? ?]| | |].
  - by destruct (good_returns _ _ Hb).
  - intros x m. destruct (items_of p n (drop c b)) as [[vs c']| | |] eqn:Ei; try done. intros [= <- <-].
    apply (good_bound _ _ Hc) in Ei. rewrite length_drop in Ei. lia.
  - intros x m b'. destruct (items_of p n (drop c b)) as [[vs c']| | |] eqn:Ei; try done. intros [= <- <-] E.
    apply take_split_eq in E as [E1 E2]. rewrite (good_local _ _ Hb _ _ _ Eb E1). cbn [pbind].
    by rewrite (good_local _ _ Hc _ _ _ Ei E2).
  - intros x m k. destruct (items_of p n (drop c b)) as [[vs c']| | |] eqn:Ei; try done. intros [= <- <-] Hk.
    destruct (decide (c <= k)) as [Hck|Hck].
    + rewrite (good_local _ _ Hb _ _ (take k b) Eb) by (rewrite take_take; f_equal; lia). cbn [pbind].
      rewrite skipn_firstn_comm. by rewrite (good_prefix _ _ Hc _ _ (k - c) Ei) by lia.
    + by rewrite (good_prefix _ _ Hb _ _ k Eb) by lia.
  - intros m more. destruct (items_of p n (drop c b)) as [[vs c']| | |] eqn:Ei; try done. intros [= ->].
    rewrite (good_local _ _ Hb _ _ (b ++ more) Eb) by (by apply take_app_le). cbn [pbind].
    rewrite drop_app_le by done. by rewrite (good_invalid _ _ Hc _ more Ei).
  - intros m more [= ->]. by rewrite (good_invalid _ _ Hb _ more Eb).
Qed.

(** A body followed by a pure step. *)
Lemma map_good {A B} (f : A -> B) q b : good q b -> good (fun r => let* (x, c) := q r in POk (f x, c)) b.
Proof.
  intros Hq. split; destruct (q b) as [[y c]| | |] eqn:E; simpl; try done.
  - by destruct (good_returns _ _ Hq).
  - intros x n [= <- <-]. by apply (good_bound _ _ Hq) in E.
  - intros x n b' [= <- <-] Et. by rewrite (good_local _ _ Hq _ _ _ E Et).
  - intros x n k [= <- <-] Hk. by rewrite (good_prefix _ _ Hq _ _ _ E Hk).
  - intros m more [= ->]. by rewrite (good_invalid _ _ Hq _ more E).
Qed.

Definition bounded {A} (q : bytes -> presult (A * nat)) : Prop :=
  forall b x n, q b = POk (x, n) -> n <= length b.

(** The element loops are [items_of] from the offset on. *)
Lemma parse_items_of p buf n items off : bounded p -> off <= length buf ->
  parse_items p buf n items off
    = let* (vs, c) := items_of p n (drop off buf) in POk (items ++ vs, off + c).
Proof.
  intros Hp. revert items off. induction n as [|n IH]; intros items off Ho; cbn [parse_items items_of].
  { cbn [pbind]. by rewrite app_nil_r, Nat.add_0_r. }
  rewrite slice_suffix by done. cbn [or_panic pbind].
  destruct (p (drop off buf)) as [[v c]| | |] eqn:E; try done. cbn [pbind].
  apply Hp in E. rewrite length_drop in E. rewrite IH, drop_drop by lia.
  destruct (items_of p n (drop (off + c) buf)) as [[vs c']| | |]; try done. cbn [pbind].
  by rewrite <- app_assoc, Nat.add_assoc.
Qed.

Fixpoint pair_up (vs : list Resp) : list (Resp * Resp) :=
  match vs with
  | k :: v :: vs => (k, v) :: pair_up vs
  | _ => []
  end.

Lemma parse_pairs_of p buf n pairs off : bounded p -> off <= length buf ->
  parse_pairs p buf n pairs off
    = let* (vs, c) := items_of p (n * 2) (drop off buf) in POk (pairs ++ pair_up vs, off + c).
Proof.
  intros Hp. revert pairs off. induction n as [|n IH]; intros pairs off Ho; cbn [parse_pairs items_of Nat.mul Nat.add].
  { cbn [pbind]. by rewrite app_nil_r, Nat.add_0_r. }
  rewrite slice_suffix by done. cbn [or_panic pbind].
  destruct (p (drop off buf)) as [[k c]| | |] eqn:E; try done. cbn [pbind].
  apply Hp in E. rewrite length_drop in E. rewrite slice_suffix by lia. cbn [or_panic pbind].
  rewrite drop_drop.
  destruct (p (drop (off + c) buf)) as [[v c2]| | |] eqn:E2; try done. cbn [pbind].
  apply Hp in E2. rewrite length_drop in E2. rewrite IH, drop_drop by lia.
  destruct (items_of p (n * 2) (drop (off + c + c2) buf)) as [[vs c']| | |]; try done. cbn [pbind pair_up].
  rewrite <- app_assoc, !Nat.add_assoc. done.
Qed.

Lemma items_of_bounded p n : bounded p -> bounded (items_of p n).
Proof.
  intros Hp. induction n as [|n IH]; intros b x m; simpl; [intros [= <- <-]; lia|].
  destruct (p b) as [[v c]| | |] eqn:E; try done. cbn [pbind].
  destruct (items_of p n (drop c b)) as [[vs c']| | |] eqn:E'; try done. intros [= <- <-].
  apply Hp in E. apply IH in E'. rewrite length_drop in E'. lia.
Qed.

Lemma items_of_ext p p' n b : bounded p -> (forall b', length b' <= length b -> p b' = p' b') ->
  items_of p n b = items_of p' n b.
Proof.
  intros Hp. revert b. induction n as [|n IH]; intros b He; [done|]. cbn [items_of].
  rewrite He by done. destruct (p' b) as [[v c]| | |]; try done. cbn [pbind].
  rewrite IH; [done|]. intros b' Hb'. apply He. rewrite length_drop in Hb'. lia.
Qed.

(** ** Each parsing function as a line and a body *)

Definition line_only {A} (f : bytes -> presult A) (b : bytes) : presult (A * nat) :=
  line_then (fun line _ => let* x := f line in POk (x, 0)) b.

Definition int_line (line : bytes) : presult Resp :=
  let* s := or_invalid (from_utf8 line) (bstr "invalid integer encoding") in
  let* n := or_invalid (parse_i64 s) (bstr "invalid integer: " ++ s) in
  POk (Integer n).

(** The length line of a bulk string or array: [None] is the null value. *)
Definition length_line (enc bad over : bytes) (max : Z) (line : bytes) : presult (option nat) :=
  let* s := or_invalid (from_utf8 line) enc in
  let* len := or_invalid (parse_i64 s) (bad ++ s) in
  if (len =? -1)%Z then POk None
  else if (len <? 0)%Z then PInvalid (bad ++ show_int len)
  else if (max <? len)%Z then PInvalid (over ++ show_int len)
  else POk (Some (Z.to_nat len)).

Definition bulk_line : bytes -> presult (option nat) :=
  length_line (bstr "invalid bulk string length") (bstr "invalid bulk length: ")
    (bstr "invalid bulk length: ") MAX_BULK_LEN.

Definition array_line : bytes -> presult (option nat) :=
  length_line (bstr "invalid array length") (bstr "invalid array length: ")
    (bstr "invalid multibulk length: ") MAX_ARRAY_LEN.

Definition bulk_gram (line rest : bytes) : presult (Resp * nat) :=
  let* o := bulk_line line in
  match o with
  | None => POk (BulkString None, 0)
  | Some n => bulk_body n rest
  end.

Definition array_gram (p : bytes -> presult (Resp * nat)) (line rest : bytes) : presult (Resp * nat) :=
  let* o := array_line line in
  match o with
  | None => POk (Array None, 0)
  | Some n => let* (vs, c) := items_of p n rest in POk (Array (Some vs), c)
  end.

Definition count_gram (p : bytes -> presult (Resp * nat)) (what : string) (k : nat)
    (mk : list Resp -> Resp) (line rest : bytes) : presult (Resp * nat) :=
  let* n := parse_count what line in
  let* (vs, c) := items_of p (n * k) rest in
  POk (mk vs, c).

Lemma parse_line_bound b line h : parse_line b = POk (line, h) -> 2 <= h <= length b.
Proof.
  unfold parse_line. destruct (find_crlf b) as [pos|] eqn:E; [|done].
  apply find_crlf_Some in E as [Hc%at_crlf_bound _]. unfold slice.
  case_bool_decide; [|done]. cbn [or_panic pbind]. intros [= _ <-]. lia.
Qed.

Lemma parse_bulk_gram b : parse_bulk_string b = line_then bulk_gram b.
Proof.
  unfold parse_bulk_string, line_then, bulk_gram, bulk_line, length_line.
  destruct (parse_line b) as [[line h]| | |] eqn:El; try done. cbn [pbind].
  apply parse_line_bound in El. destruct (or_invalid (from_utf8 line) _); try done. cbn [pbind].
  destruct (or_invalid (parse_i64 _) _) as [len| | |]; try done. cbn [pbind].
  destruct (len =? -1)%Z; [cbn [pbind]; by rewrite Nat.add_0_r|].
  destruct (Z.ltb_spec len 0); [done|]. destruct (MAX_BULK_LEN <? len)%Z; [done|]. cbn [pbind].
  unfold bulk_body. rewrite length_drop. destruct (Z.ltb_spec (Z.of_nat (length b)) (Z.of_nat h + len + 2)).
  - by rewrite bool_decide_eq_true_2 by lia.
  - rewrite bool_decide_eq_false_2 by lia. unfold slice.
    rewrite !bool_decide_eq_true_2 by lia. cbn [or_panic pbind].
    replace (h + Z.to_nat len + 2 - (h + Z.to_nat len)) with 2 by lia. rewrite drop_drop.
    case_bool_decide; [|done]. cbn [pbind]. replace (h + Z.to_nat len - h) with (Z.to_nat len) by lia.
    by rewrite Nat.add_assoc.
Qed.

Section Grammars.
Context `{F64Text}.
Variable p : bytes -> presult (Resp * nat).
Hypothesis p_bounded : bounded p.

Lemma parse_array_gram b : parse_array p b = line_then (array_gram p) b.
Proof using p_bounded.
  unfold parse_array, line_then, array_gram, array_line, length_line.
  destruct (parse_line b) as [[line h]| | |] eqn:El; try done. cbn [pbind].
  apply parse_line_bound in El. destruct (or_invalid (from_utf8 line) _); try done. cbn [pbind].
  destruct (or_invalid (parse_i64 _) _) as [len| | |]; try done. cbn [pbind].
  destruct (len =? -1)%Z; [cbn [pbind]; by rewrite Nat.add_0_r|].
  destruct (len <? 0)%Z; [done|]. destruct (MAX_ARRAY_LEN <? len)%Z; [done|]. cbn [pbind].
  rewrite parse_items_of by (done || lia). by destruct (items_of p _ _) as [[vs c]| | |].
Qed.

Lemma parse_count_items what mk b :
  (let* (line, h) := parse_line b in let* n := parse_count what line in
   let* (items, off) := parse_items p b n [] h in POk (mk items, off))
    = line_then (count_gram p what 1 mk) b.
Proof using p_bounded.
  unfold line_then, count_gram. destruct (parse_line b) as [[line h]| | |] eqn:El; try done. cbn [pbind].
  apply parse_line_bound in El. destruct (parse_count what line) as [n| | |]; try done. cbn [pbind].
  rewrite parse_items_of, Nat.mul_1_r by (done || lia). by destruct (items_of p _ _) as [[vs c]| | |].
Qed.

Lemma parse_map_gram b :
  parse_resp3_map p b = line_then (count_gram p "map" 2 (fun vs => Map (pair_up vs))) b.
Proof using p_bounded.
  unfold parse_resp3_map, line_then, count_gram.
  destruct (parse_line b) as [[line h]| | |] eqn:El; try done. cbn [pbind].
  apply parse_line_bound in El. destruct (parse_count "map" line) as [n| | |]; try done. cbn [pbind].
  rewrite parse_pairs_of by (done || lia). by destruct (items_of p _ _) as [[vs c]| | |].
Qed.

End Grammars.

(** ** The dispatch *)

Lemma good_ext {A} (q q' : bytes -> presult (A * nat)) b : (forall b', q b' = q' b') -> good q' b -> good q b.
Proof.
  intros E [H1 H2 H3 H4 H5]. split; intros *; rewrite ?E; [done|apply H2|apply H3|apply H4|apply H5].
Qed.

Lemma null_good b : good parse_resp3_null b.
Proof.
  apply (good_ext _ (fun b => if bool_decide (length b < 3) then PIncomplete
    else if bool_decide (take 2 (drop 1 b) = CRLF) then POk (Null, 3)
    else PInvalid (bstr "invalid RESP3 null"))).
  { intros b'. unfold parse_resp3_null, slice. case_bool_decide; [done|].
    by rewrite bool_decide_eq_true_2 by lia. }
  destruct (decide (length b < 3)) as [Hl|Hl]; [split; rewrite bool_decide_eq_true_2 by done; done|].
  split; rewrite (bool_decide_eq_false_2 (length b < 3)) by done; case_bool_decide as Hc; try done.
  - intros x n [= <- <-]. lia.
  - intros x n b' [= <- <-] E. rewrite bool_decide_eq_false_2.
    + apply (take_split_eq _ _ 1 2) in E as [_ ->]. by rewrite bool_decide_eq_true_2.
    + apply (f_equal length) in E. rewrite !length_take in E. lia.
  - intros x n k [= <- <-] Hk. by rewrite bool_decide_eq_true_2 by (rewrite length_take; lia).
  - intros m more [= <-]. rewrite bool_decide_eq_false_2 by (rewrite length_app; lia).
    rewrite drop_app_le, take_app_le by (rewrite ?length_drop; lia). by rewrite bool_decide_eq_false_2.
Qed.

Definition bool_tag (c : byte) : presult bool :=
  if bool_decide (c = byte_of 116) then POk true
  else if bool_decide (c = byte_of 102) then POk false
  else PInvalid (bstr "invalid RESP3 boolean").

Definition bool_frame (b : bytes) : presult (Resp * nat) :=
  if bool_decide (length b < 4) then PIncomplete
  else
    let* v := bool_tag (default CR (head (drop 1 b))) in
    if bool_decide (take 2 (drop 2 b) = CRLF) then POk (Bool v, 4)
    else PInvalid (bstr "invalid RESP3 boolean").

Lemma bool_good b : good parse_resp3_bool b.
Proof.
  apply (good_ext _ bool_frame).
  { intros b'. unfold parse_resp3_bool, bool_frame, slice. case_bool_decide as Hl; [done|].
    rewrite bool_decide_eq_true_2 by lia. destruct b' as [|c0 [|c1 b']]; [simpl in Hl; lia..|].
    reflexivity. }
  unfold bool_frame. destruct (decide (length b < 4)) as [Hl|Hl];
    [split; rewrite bool_decide_eq_true_2 by done; done|].
  split; rewrite (bool_decide_eq_false_2 (length b < 4)) by done;
    (destruct (bool_tag (default CR (head (drop 1 b)))) as [v| |m'|] eqn:Et; cbn [pbind]; try done);
    try (case_bool_decide as Hc; try done);
    try (unfold bool_tag in Et; repeat case_bool_decide; done).
  - intros x n [= <- <-]. lia.
  - intros x n b' [= <- <-] E. rewrite bool_decide_eq_false_2.
    + apply (take_split_eq _ _ 2 2) in E as [E1 ->]. apply (take_split_eq _ _ 1 1) in E1 as [_ E1].
      assert (head (drop 1 b') = head (drop 1 b)) as ->.
      { destruct (drop 1 b), (drop 1 b'); simpl in *; congruence. }
      rewrite Et. cbn [pbind]. by rewrite bool_decide_eq_true_2.
    + apply (f_equal length) in E. rewrite !length_take in E. lia.
  - intros x n k [= <- <-] Hk. by rewrite bool_decide_eq_true_2 by (rewrite length_take; lia).
  - intros m more [= <-]. rewrite bool_decide_eq_false_2 by (rewrite length_app; lia).
    destruct b as [|c0 [|c1 b]]; [simpl in Hl; lia..|]. simpl in Et |- *. rewrite Et. cbn [pbind].
    rewrite drop_0, take_app_le by (simpl in Hl; lia). simpl in Hc. rewrite drop_0 in Hc.
    by rewrite bool_decide_eq_false_2.
  - intros m more [= <-]. rewrite bool_decide_eq_false_2 by (rewrite length_app; lia).
    destruct b as [|c0 [|c1 b]]; [simpl in Hl; lia..|]. simpl in Et |- *. by rewrite Et.
Qed.

(** *** Inline commands return *)

Lemma skip_spaces_length line : length (skip_spaces line) <= length line.
Proof. induction line as [|c tl IH]; simpl; [done|]. case_bool_decide; simpl; lia. Qed.

Lemma quoted_loop_total quote n line token : length line <= n ->
  match quoted_loop quote line token with
  | POk (_, rest) => length rest < length line
  | PInvalid _ => True
  | _ => False
  end.
Proof.
  revert line token. induction n as [|n IH]; intros [|c tl] token Hn; simpl in *; try done; try lia.
  case_bool_decide; [simpl; lia|].
  assert (forall tl' tok, length tl' <= length tl -> match quoted_loop quote tl' tok with
    | POk (_, rest) => length rest < S (length tl) | PInvalid _ => True | _ => False end) as Hrec.
  { intros tl' tok Hl. specialize (IH tl' tok ltac:(lia)). destruct (quoted_loop quote tl' tok) as [[? ?]| | |]; lia || done. }
  case_bool_decide; [destruct tl as [|e tl']|]; apply Hrec; simpl; lia.
Qed.

Lemma unquoted_loop_length line token : length (unquoted_loop line token).2 <= length line.
Proof. revert token. induction line as [|c tl IH]; intros; simpl; [done|]. case_bool_decide; simpl; [lia|]. specialize (IH (token ++ [c])). lia. Qed.

Lemma tokenize_loop_total fuel line parts : length line <= fuel ->
  match tokenize_loop fuel line parts with POk _ | PInvalid _ => True | _ => False end.
Proof.
  revert line parts. induction fuel as [|fuel IH]; intros line parts Hf; cbn [tokenize_loop];
    pose proof (skip_spaces_length line) as Hs; destruct (skip_spaces line) as [|c tl] eqn:Es;
    simpl in Hs; try done; try lia.
  case_bool_decide as Hq.
  - pose proof (quoted_loop_total c (length tl) tl [] ltac:(lia)) as Ht.
    destruct (quoted_loop c tl []) as [[t rest]| | |]; try done. cbn [pbind]. apply IH. lia.
  - assert (c <> SPACE) as Hc.
    { intros ->. clear -Es. induction line as [|x l IHl]; simpl in Es; [done|].
      case_bool_decide; [by apply IHl|]. by simplify_eq. }
    cbn [unquoted_loop]. rewrite bool_decide_eq_false_2 by done.
    pose proof (unquoted_loop_length tl ([] ++ [c])) as Ht.
    destruct (unquoted_loop tl ([] ++ [c])) as [t rest]. apply IH. simpl in Ht. lia.
Qed.

Definition inline_line (line : bytes) : presult Resp :=
  let* parts := tokenize_inline line in
  if bool_decide (length parts = 0) then PInvalid (bstr "empty inline command")
  else POk (Array (Some parts)).

Lemma inline_line_total line : inline_line line <> PIncomplete /\ inline_line line <> PStuck.
Proof.
  unfold inline_line, tokenize_inline. pose proof (tokenize_loop_total (length line) line [] ltac:(lia)) as Ht.
  destruct (tokenize_loop _ _ _); try done. cbn [pbind]. by case_bool_decide.
Qed.

Lemma inline_good b : good parse_inline b.
Proof.
  apply (good_ext _ (fun b => match find_crlf b with
    | None => PIncomplete
    | Some pos => let* r := inline_line (take pos b) in POk (r, pos + 2) end)).
  { intros b'. unfold parse_inline, inline_line. destruct (find_crlf b') as [pos|] eqn:E; [|done].
    apply find_crlf_Some in E as [E%at_crlf_bound _]. rewrite slice_prefix by lia. cbn [or_panic pbind].
    destruct (tokenize_inline (take pos b')); try done. cbn [pbind]. by case_bool_decide. }
  destruct (find_crlf b) as [pos|] eqn:E; [|split; by rewrite E].
  assert (forall b', take (pos + 2) b' = take (pos + 2) b -> find_crlf b' = Some pos /\ take pos b' = take pos b)
    as Hloc.
  { intros b' Et. split; [by eapply find_crlf_local|]. eapply take_prefix_eq; [exact Et|lia]. }
  destruct (inline_line_total (take pos b)) as [Hi Hs].
  assert (pos + 2 <= length b) by (by apply find_crlf_Some in E as [?%at_crlf_bound _]).
  split; rewrite ?E; destruct (inline_line (take pos b)) as [r| | |] eqn:Er; try done; cbn [pbind].
  - intros x n [= <- <-]. done.
  - intros x n b' [= <- <-] Et. destruct (Hloc b' Et) as [-> ->]. by rewrite Er.
  - intros x n k [= <- <-] Hk. rewrite (find_crlf_take _ _ k E), bool_decide_eq_false_2 by lia. done.
  - intros m more [= <-]. destruct (Hloc (b ++ more)) as [-> ->]; [by apply take_app_le|]. by rewrite Er.
Qed.

(** *** The parser of a type byte *)

Section Dispatch.
Context `{F64Text}.

Definition type_parser (p : bytes -> presult (Resp * nat)) (c : byte) (buf : bytes) : presult (Resp * nat) :=
  if bool_decide (c = byte_of 43) then parse_simple_string buf
  else if bool_decide (c = byte_of 45) then parse_error buf
  else if bool_decide (c = byte_of 58) then parse_integer buf
  else if bool_decide (c = byte_of 36) then parse_bulk_string buf
  else if bool_decide (c = byte_of 42) then parse_array p buf
  else if bool_decide (c = byte_of 95) then parse_resp3_null buf
  else if bool_decide (c = byte_of 35) then parse_resp3_bool buf
  else if bool_decide (c = byte_of 44) then parse_resp3_double buf
  else if bool_decide (c = byte_of 37) then parse_resp3_map p buf
  else if bool_decide (c = byte_of 126) then parse_resp3_set p buf
  else if bool_decide (c = byte_of 62) then parse_resp3_push p buf
  else parse_inline buf.

Lemma parse_with_type p c t : parse_with p (c :: t) = type_parser p c (c :: t).
Proof. done. Qed.

Definition double_line (line : bytes) : presult Resp :=
  let* s := or_invalid (from_utf8 line) (bstr "invalid RESP3 double") in
  let* d := or_invalid (f64_parse s) (bstr "invalid double: " ++ s) in
  POk (Double d).

(** What the type byte says: a line, a line and a body, or a fixed frame. *)
Inductive shape (p : bytes -> presult (Resp * nat)) : (bytes -> presult (Resp * nat)) -> Prop :=
  | shape_line f : (forall l, f l <> PIncomplete /\ f l <> PStuck) -> shape p (line_only f)
  | shape_bulk : shape p (line_then bulk_gram)
  | shape_array : shape p (line_then (array_gram p))
  | shape_count what k mk : shape p (line_then (count_gram p what k mk))
  | shape_null : shape p parse_resp3_null
  | shape_bool : shape p parse_resp3_bool
  | shape_inline : shape p parse_inline.

Lemma line_only_eq {A} (f : bytes -> presult A) b :
  (let* (line, n) := parse_line b in let* x := f line in POk (x, n)) = line_only f b.
Proof.
  unfold line_only, line_then. destruct (parse_line b) as [[line h]| | |]; try done. cbn [pbind].
  destruct (f line); try done. cbn [pbind]. by rewrite Nat.add_0_r.
Qed.

Lemma or_invalid_total {A} (o : option A) m : or_invalid o m <> PIncomplete /\ or_invalid o m <> PStuck.
Proof. by destruct o. Qed.

Lemma type_parser_shape p c : bounded p -> exists q, shape p q /\ forall b, type_parser p c b = q b.
Proof.
  intros Hp. unfold type_parser.
  repeat (case_bool_decide; [eexists; split; [|intros b]|]).
  1: apply (shape_line _ (fun l => POk (SimpleString (from_utf8_lossy l)))); done.
  1: exact (line_only_eq (fun l => POk (SimpleString (from_utf8_lossy l))) b).
  1: apply (shape_line _ (fun l => POk (Error (from_utf8_lossy l)))); done.
  1: exact (line_only_eq (fun l => POk (Error (from_utf8_lossy l))) b).
  1: apply (shape_line _ int_line); intros l; unfold int_line; by destruct (from_utf8 l) as [s|]; simpl; [destruct (parse_i64 s)|].
  1: { unfold parse_integer, int_line. rewrite <- line_only_eq. destruct (parse_line b) as [[l n]| | |]; try done. cbn [pbind].
       destruct (from_utf8 l) as [s|]; [|done]. cbn [or_invalid pbind]. by destruct (parse_i64 s). }
  1: apply shape_bulk.
  1: apply parse_bulk_gram.
  1: apply shape_array.
  1: by apply parse_array_gram.
  1: apply shape_null.
  1: done.
  1: apply shape_bool.
  1: done.
  1: apply (shape_line _ double_line); intros l; unfold double_line; by destruct (from_utf8 l) as [s|]; simpl; [destruct (f64_parse s)|].
  1: { unfold parse_resp3_double, double_line. rewrite <- line_only_eq. destruct (parse_line b) as [[l n]| | |]; try done. cbn [pbind].
       destruct (from_utf8 l) as [s|]; [|done]. cbn [or_invalid pbind]. by destruct (f64_parse s). }
  1: apply (shape_count _ "map" 2 (fun vs => Map (pair_up vs))).
  1: by apply parse_map_gram.
  1: apply (shape_count _ "set" 1 Set_).
  1: by apply (parse_count_items p Hp "set" Set_).
  1: apply (shape_count _ "push" 1 Push).
  1: by apply (parse_count_items p Hp "push" Push).
  eexists. split; [apply shape_inline|done].
Qed.

Lemma array_gram_good p line b : (forall b', length b' <= length b -> good p b') -> good (array_gram p line) b.
Proof.
  intros Hp. unfold array_gram. destruct (array_line line) as [[n|]| |m|] eqn:E; cbn [pbind].
  - apply (map_good (fun vs => Array (Some vs))). by apply items_of_good.
  - by apply (const_good (POk (Array None))).
  - exfalso. revert E. unfold array_line, length_line. destruct (from_utf8 line); simpl; [|done].
    destruct (parse_i64 _); simpl; [|done]. by repeat case_match.
  - by apply (const_good (PInvalid m)).
  - exfalso. revert E. unfold array_line, length_line. destruct (from_utf8 line); simpl; [|done].
    destruct (parse_i64 _); simpl; [|done]. by repeat case_match.
Qed.

Lemma bulk_gram_good line b : good (bulk_gram line) b.
Proof.
  unfold bulk_gram. destruct (bulk_line line) as [[n|]| |m|] eqn:E; cbn [pbind].
  - apply bulk_body_good.
  - by apply (const_good (POk (BulkString None))).
  - exfalso. revert E. unfold bulk_line, length_line. destruct (from_utf8 line); simpl; [|done].
    destruct (parse_i64 _); simpl; [|done]. by repeat case_match.
  - by apply (const_good (PInvalid m)).
  - exfalso. revert E. unfold bulk_line, length_line. destruct (from_utf8 line); simpl; [|done].
    destruct (parse_i64 _); simpl; [|done]. by repeat case_match.
Qed.

Lemma count_gram_good p what k mk line b : (forall b', length b' <= length b -> good p b') ->
  good (count_gram p what k mk line) b.
Proof.
  intros Hp. unfold count_gram. destruct (parse_count what line) as [n| |m|] eqn:E; cbn [pbind].
  - apply (map_good mk). by apply items_of_good.
  - exfalso. revert E. unfold parse_count. destruct (from_utf8 line); simpl; [|done].
    destruct (parse_usize _); simpl; [|done]. by case_match.
  - by apply (const_good (PInvalid m)).
  - exfalso. revert E. unfold parse_count. destruct (from_utf8 line); simpl; [|done].
    destruct (parse_usize _); simpl; [|done]. by case_match.
Qed.

Lemma shape_good p q b : shape p q -> typed b -> (forall b', length b' < length b -> good p b') -> good q b.
Proof.
  intros Hs Ht Hp.
  assert (forall line h, parse_line b = POk (line, h) -> forall b', length b' <= length (drop h b) -> good p b') as Hr.
  { intros line h El b' Hb'. apply parse_line_bound in El. apply Hp. rewrite length_drop in Hb'. lia. }
  destruct Hs as [f Hf| | |what k mk| | |].
  - apply line_then_good; [done|]. intros line h _. destruct (Hf line). by apply const_good.
  - apply line_then_good; [done|]. intros line h _. apply bulk_gram_good.
  - apply line_then_good; [done|]. intros line h El. by apply array_gram_good, (Hr line).
  - apply line_then_good; [done|]. intros line h El. by apply count_gram_good, (Hr line).
  - apply null_good.
  - apply bool_good.
  - apply inline_good.
Qed.

Lemma type_parser_good p c t : bounded p -> (forall b', length b' < length (c :: t) -> good p b') ->
  good (type_parser p c) (c :: t).
Proof.
  intros Hb Hp. destruct (decide (c = CR)) as [->|Hc].
  - apply (good_ext _ parse_inline); [|apply inline_good].
    intros b'. unfold type_parser. by rewrite !bool_decide_eq_false_2.
  - destruct (type_parser_shape p c Hb) as (q & Hs & E). apply (good_ext _ q _ E).
    apply (shape_good p); [done| |done]. unfold typed. simpl. congruence.
Qed.

(** *** Bounds and the recursion equation *)

Lemma line_then_bounded {A} (g : bytes -> bytes -> presult (A * nat)) :
  (forall line, bounded (g line)) -> bounded (line_then g).
Proof.
  intros Hg b x n. unfold line_then. destruct (parse_line b) as [[line h]| | |] eqn:El; try done. cbn [pbind].
  destruct (g line (drop h b)) as [[y c]| | |] eqn:Eg; try done. intros [= <- <-].
  apply Hg in Eg. apply parse_line_bound in El. rewrite length_drop in Eg. lia.
Qed.

Lemma good_bounded {A} (q : bytes -> presult (A * nat)) : (forall b, good q b) -> bounded q.
Proof. intros Hg b x n. apply good_bound, Hg. Qed.

Lemma map_bounded {A B} (f : A -> B) q : bounded q -> bounded (fun r => let* (x, c) := q r in POk (f x, c)).
Proof. intros Hq b x n. destruct (q b) as [[y c]| | |] eqn:E; try done. intros [= <- <-]. by apply Hq in E. Qed.

Lemma shape_bounded p q : bounded p -> shape p q -> bounded q.
Proof.
  intros Hp Hs. destruct Hs as [f Hf| | |what k mk| | |].
  - apply line_then_bounded. intros line b x n. destruct (f line); try done. intros [= <- <-]. lia.
  - apply line_then_bounded. intros line. apply good_bounded, bulk_gram_good.
  - apply line_then_bounded. intros line b x n. unfold array_gram.
    destruct (array_line line) as [[m|]| | |]; try done; cbn [pbind]; [|intros [= <- <-]; lia].
    apply (map_bounded (fun vs => Array (Some vs)) _ (items_of_bounded p m Hp)).
  - apply line_then_bounded. intros line b x n. unfold count_gram.
    destruct (parse_count what line) as [m| | |]; try done; cbn [pbind].
    apply (map_bounded mk _ (items_of_bounded p (m * k) Hp)).
  - apply good_bounded, null_good.
  - apply good_bounded, bool_good.
  - apply good_bounded, inline_good.
Qed.

Lemma parse_with_bounded p : bounded p -> bounded (parse_with p).
Proof.
  intros Hp b x n. destruct b as [|c t]; [done|]. rewrite parse_with_type.
  destruct (type_parser_shape p c Hp) as (q & Hs & ->). by apply (shape_bounded p).
Qed.

Lemma parse_fuel_bounded fuel : bounded (parse_fuel fuel).
Proof. induction fuel; [done|]. by apply parse_with_bounded. Qed.

Lemma type_parser_ext p p' c b : bounded p -> bounded p' -> (forall b', length b' < length b -> p b' = p' b') ->
  type_parser p c b = type_parser p' c b.
Proof.
  intros Hp Hp' He. unfold type_parser.
  assert (forall line h n, parse_line b = POk (line, h) -> items_of p n (drop h b) = items_of p' n (drop h b)) as Hi.
  { intros line h n El. apply items_of_ext; [done|]. intros b' Hb'. apply He.
    apply parse_line_bound in El. rewrite length_drop in Hb'. lia. }
  rewrite !parse_array_gram, !parse_map_gram by done. unfold parse_resp3_set, parse_resp3_push.
  rewrite !(parse_count_items p), !(parse_count_items p') by done.
  unfold line_then, array_gram, count_gram. destruct (parse_line b) as [[line h]| | |]; try done. cbn [pbind].
  repeat case_bool_decide; try done.
  - destruct (array_line line) as [[n|]| | |]; try done. cbn [pbind]. by rewrite (Hi line h).
  - destruct (parse_count "map" line); try done. cbn [pbind]. by rewrite (Hi line h).
  - destruct (parse_count "set" line); try done. cbn [pbind]. by rewrite (Hi line h).
  - destruct (parse_count "push" line); try done. cbn [pbind]. by rewrite (Hi line h).
Qed.

(** Any fuel above the length gives the same outcome. *)
Lemma parse_fuel_enough f f' b : length b < f -> length b < f' -> parse_fuel f b = parse_fuel f' b.
Proof.
  revert f' b. induction f as [|f IH]; intros [|f'] b Hf Hf'; [lia..|].
  destruct b as [|c t]; [done|]. cbn [parse_fuel]. rewrite !parse_with_type.
  apply type_parser_ext; [apply parse_fuel_bounded..|]. intros b' Hb'. apply IH; lia.
Qed.

(** The recursion the source writes. *)
Lemma parse_resp_eq b : parse_resp b = parse_with parse_resp b.
Proof.
  unfold parse_resp at 1. destruct b as [|c t]; [done|]. cbn [parse_fuel]. rewrite !parse_with_type.
  apply type_parser_ext; [apply parse_fuel_bounded|intros b x n; apply parse_fuel_bounded|].
  intros b' Hb'. apply parse_fuel_enough; simpl in *; lia.
Qed.

Lemma parse_resp_bounded : bounded parse_resp.
Proof. intros b x n. apply parse_fuel_bounded. Qed.

(** Every value takes at least one byte. *)
Lemma shape_positive p q b x n : bounded p -> shape p q -> q b = POk (x, n) -> 0 < n.
Proof.
  intros Hp Hs. assert (forall A (g : bytes -> bytes -> presult (A * nat)) x,
    line_then g b = POk (x, n) -> 0 < n) as Hl.
  { intros A g y. unfold line_then. destruct (parse_line b) as [[line h]| | |] eqn:El; try done. cbn [pbind].
    destruct (g line (drop h b)) as [[z c]| | |]; try done. intros [= <- <-].
    apply parse_line_bound in El. lia. }
  destruct Hs as [f Hf| | |what k mk| | |]; try apply Hl.
  - unfold parse_resp3_null. case_bool_decide; [done|]. destruct (slice b 1 3); [|done]. cbn [or_panic pbind].
    case_bool_decide; [|done]. intros [= <- <-]. lia.
  - unfold parse_resp3_bool. case_bool_decide; [done|]. destruct (b !! 1); [|done]. cbn [or_panic pbind].
    destruct (if bool_decide _ then _ else _); try done. cbn [pbind]. destruct (slice b 2 4); [|done].
    cbn [or_panic pbind]. case_bool_decide; [|done]. intros [= <- <-]. lia.
  - unfold parse_inline. destruct (find_crlf b) as [pos|]; [|done]. destruct (slice b 0 pos); [|done].
    cbn [or_panic pbind]. destruct (tokenize_inline _); try done. cbn [pbind]. case_bool_decide; [done|].
    intros [= <- <-]. lia.
Qed.

Lemma parse_resp_positive b x n : parse_resp b = POk (x, n) -> 0 < n.
Proof.
  rewrite parse_resp_eq. destruct b as [|c t]; [done|]. rewrite parse_with_type.
  destruct (type_parser_shape parse_resp c parse_resp_bounded) as (q & Hs & ->).
  by apply (shape_positive parse_resp); [apply parse_resp_bounded|].
Qed.

Lemma parse_resp_good b : good parse_resp b.
Proof.
  remember (length b) as N eqn:HN. assert (length b <= N) as Hle by lia. clear HN.
  revert b Hle. induction N as [|N IH]; intros b Hle.
  - destruct b; [|simpl in Hle; lia]. split; done.
  - destruct b as [|c t]; [split; done|].
    assert (good (type_parser parse_resp c) (c :: t)) as [H1 H2 H3 H4 H5].
    { apply type_parser_good; [apply parse_resp_bounded|]. intros b' Hb'. apply IH. simpl in *. lia. }
    assert (forall t', parse_resp (c :: t') = type_parser parse_resp c (c :: t')) as E
      by (intros t'; rewrite parse_resp_eq; apply parse_with_type).
    split; intros *; rewrite ?E.
    + done.
    + apply H2.
    + intros Ep Et. pose proof Ep as Ep'. rewrite <- E in Ep'. apply parse_resp_positive in Ep'.
      destruct n; [lia|]. destruct b' as [|c' t']; [done|]. simpl in Et. injection Et as -> Et.
      rewrite E. apply H3; [done|]. simpl. by rewrite Et.
    + intros Ep Hk. destruct k as [|k]; [done|]. simpl. rewrite E.
      by apply (H4 x n (S k)).
    + intros Ep. cbn [app]. rewrite E. by apply (H5 m more).
Qed.


(** An incomplete read is recognised as such: every proper prefix of a frame
    the parser accepts makes it ask for more data, never reject or misread. *)
Theorem proper_prefix_asks_for_more buf v n k : parse_resp buf = POk (v, n) -> k < n ->
  parse_one (take k buf) = (NeedMore, take k buf).
Proof.
  intros E Hk. unfold parse_one. case_bool_decide; [done|].
  by rewrite (good_prefix _ _ (parse_resp_good buf) _ _ _ E Hk).
Qed.

End Dispatch.

(** ** The stream *)

Section Stream.
Context `{F64Text}.

(** [parse_one] until it stops yielding values; each takes a byte, so the length
    bounds the loop. *)
Fixpoint drain (fuel : nat) (buf : bytes) : list Resp * parse_one_result * bytes :=
  match fuel with
  | 0 => ([], NoOutcome, buf)
  | S fuel =>
      match parse_one buf with
      | (ParsedValue v, buf') => let '(vs, st, b) := drain fuel buf' in (v :: vs, st, b)
      | (st, buf') => ([], st, buf')
      end
  end.

Definition drain_all (buf : bytes) : list Resp * parse_one_result * bytes := drain (S (length buf)) buf.

(** Socket reads fed one by one, the buffer drained after each, until an error. *)
Fixpoint receive (buf : bytes) (chunks : list bytes) : list Resp * parse_one_result * bytes :=
  match chunks with
  | [] => ([], NeedMore, buf)
  | chunk :: chunks =>
      let '(vs, st, b) := drain_all (feed buf chunk) in
      match st with
      | NeedMore => let '(vs', st', b') := receive b chunks in (vs ++ vs', st', b')
      | _ => (vs, st, b)
      end
  end.

Lemma parse_one_ok buf v n : parse_resp buf = POk (v, n) -> parse_one buf = (ParsedValue v, drop n buf).
Proof.
  intros E. unfold parse_one. rewrite bool_decide_eq_false_2 by (by intros ->).
  rewrite E, bool_decide_eq_true_2; [done|]. by apply (parse_resp_bounded _ _ _ E).
Qed.

(** What one step does, by the outcome of [parse_resp]. *)
Lemma parse_one_cases buf :
  (exists v n, parse_resp buf = POk (v, n) /\ 0 < n <= length buf /\
    parse_one buf = (ParsedValue v, drop n buf)) \/
  parse_one buf = (NeedMore, buf) \/
  (exists m, parse_resp buf = PInvalid m /\ parse_one buf = (ProtocolError m, buf)).
Proof.
  destruct (parse_resp buf) as [[v n]| |m|] eqn:E.
  - left. exists v, n. split_and!; [done|by eapply parse_resp_positive|by apply (parse_resp_bounded _ _ _ E)|
      by apply parse_one_ok].
  - right; left. unfold parse_one. rewrite E. by case_bool_decide.
  - right; right. exists m. split; [done|]. unfold parse_one.
    rewrite bool_decide_eq_false_2 by (by intros ->). by rewrite E.
  - by destruct (good_returns _ _ (parse_resp_good buf)).
Qed.

Lemma drain_fuel f f' buf : length buf < f -> length buf < f' -> drain f buf = drain f' buf.
Proof.
  revert f' buf. induction f as [|f IH]; intros [|f'] buf Hf Hf'; [lia..|]. cbn [drain].
  destruct (parse_one_cases buf) as [(v & n & _ & Hn & ->)|[->|(m & _ & ->)]]; try done.
  rewrite (IH f'); [done|rewrite length_drop; lia..].
Qed.

Lemma drain_all_step buf v n : parse_resp buf = POk (v, n) -> 0 < n <= length buf ->
  drain_all buf = let '(vs, st, b) := drain_all (drop n buf) in (v :: vs, st, b).
Proof.
  intros E Hn. unfold drain_all. cbn [drain]. rewrite (parse_one_ok _ _ _ E).
  by rewrite (drain_fuel (length buf) (S (length (drop n buf)))) by (rewrite ?length_drop; lia).
Qed.

(** Draining more data resumes where draining stopped. *)
Lemma drain_app b more :
  let '(vs, st, r) := drain_all b in
  drain_all (b ++ more) =
    match st with
    | NeedMore => let '(vs', st', r') := drain_all (r ++ more) in (vs ++ vs', st', r')
    | _ => (vs, st, r ++ more)
    end.
Proof.
  remember (length b) as N eqn:HN. assert (length b <= N) as Hle by lia. clear HN.
  revert b Hle. induction N as [|N IH]; intros b Hle;
    destruct (parse_one_cases b) as [(v & n & E & Hn & E1)|[E1|(m & E & E1)]]; try lia.
  1, 4: unfold drain_all at 1; cbn [drain]; rewrite E1; simpl; by destruct (drain_all (b ++ more)) as [[? ?] ?].
  1, 3: unfold drain_all at 1; cbn [drain]; rewrite E1; simpl; unfold drain_all; cbn [drain];
    pose proof (good_invalid _ _ (parse_resp_good b) _ more E) as E2; unfold parse_one; rewrite E2;
    by rewrite bool_decide_eq_false_2 by (by intros [-> _]%app_eq_nil).
  rewrite (drain_all_step _ _ _ E Hn).
  assert (parse_resp (b ++ more) = POk (v, n)) as E2.
  { apply (good_local _ _ (parse_resp_good b) _ _ _ E). apply take_app_le. lia. }
  rewrite (drain_all_step _ _ _ E2) by (rewrite length_app; lia). rewrite drop_app_le by lia.
  specialize (IH (drop n b) ltac:(rewrite length_drop; lia)).
  destruct (drain_all (drop n b)) as [[vs st] r]. rewrite IH. destruct st; try done.
  by destruct (drain_all (r ++ more)) as [[? ?] ?].
Qed.

Lemma drain_need_more_stable r : (exists vs b, drain_all b = (vs, NeedMore, r)) -> drain_all r = ([], NeedMore, r).
Proof.
  intros (vs & b & E). remember (length b) as N eqn:HN. assert (length b <= N) as Hle by lia. clear HN.
  revert b vs Hle E. induction N as [|N IH]; intros b vs Hle E;
    destruct (parse_one_cases b) as [(v & n & E0 & Hn & E1)|[E1|(m & E0 & E1)]]; try lia.
  1, 4: unfold drain_all in E; cbn [drain] in E; rewrite E1 in E; injection E as <- <-;
    unfold drain_all; cbn [drain]; by rewrite E1.
  1, 3: unfold drain_all in E; cbn [drain] in E; by rewrite E1 in E.
  rewrite (drain_all_step _ _ _ E0 Hn) in E. destruct (drain_all (drop n b)) as [[vs' st'] r'] eqn:Ed.
  injection E as <- -> ->. apply (IH (drop n b) vs'); [rewrite length_drop; lia|done].
Qed.

Lemma receive_spec buf chunks : drain_all buf = ([], NeedMore, buf) ->
  let '(vs, st, r) := receive buf chunks in
  let '(vs', st', r') := drain_all (buf ++ concat chunks) in
  vs = vs' /\ st = st' /\ (st = NeedMore -> r = r').
Proof.
  revert buf. induction chunks as [|chunk chunks IH]; intros buf Hd; cbn [receive concat].
  { rewrite app_nil_r, Hd. done. }
  pose proof (drain_app (feed buf chunk) (concat chunks)) as Ha. unfold feed in *.
  destruct (drain_all (buf ++ chunk)) as [[vs st] b] eqn:Ed. rewrite <- app_assoc in Ha. rewrite Ha.
  destruct st; [done| |done|done].
  specialize (IH b (drain_need_more_stable b (ex_intro _ vs (ex_intro _ _ Ed)))).
  destruct (receive b chunks) as [[vs1 st1] b1]. destruct (drain_all (b ++ concat chunks)) as [[vs2 st2] b2].
  destruct IH as (-> & -> & Hb). done.
Qed.

(** C24: The commands a connection sees do not depend on how TCP cut the stream: for
    any two ways to split the same bytes into reads, feeding them one by one and
    draining the parser after each yields the same values, in the same order,
    and the same final state (waiting with the same buffered bytes, or the same
    protocol error). *)
Theorem chunking_is_irrelevant chunks chunks' : concat chunks = concat chunks' ->
  let '(vs, st, r) := receive [] chunks in
  let '(vs', st', r') := receive [] chunks' in
  vs = vs' /\ st = st' /\ (st = NeedMore -> r = r').
Proof.
  intros Ec. pose proof (receive_spec [] chunks eq_refl) as H1. pose proof (receive_spec [] chunks' eq_refl) as H2.
  simpl app in *. rewrite Ec in H1. destruct (receive [] chunks) as [[vs st] r], (receive [] chunks') as [[vs' st'] r'].
  destruct (drain_all (concat chunks')) as [[vs0 st0] r0].
  destruct H1 as (-> & -> & H1), H2 as (-> & -> & H2). split_and!; [done|done|].
  intros Hst. by rewrite (H1 Hst), (H2 Hst).
Qed.

End Stream.

(** ** Round trip *)

Section RoundTrip.
Context `{F64Text}.

(** The value a client of the given version reads back. *)
Fixpoint degrade (version : Z) (r : Resp) : Resp :=
  let resp3 := (3 <=? version)%Z in
  match r with
  | BulkString None => if resp3 then Null else r
  | Array None => if resp3 then Null else r
  | Array (Some l) => Array (Some (map (degrade version) l))
  | Bool b => if resp3 then r else Integer (if b then 1 else 0)
  | Double d => if resp3 then r else bulk (f64_display d)
  | Map ps =>
      if resp3 then Map (map (fun '(k, v) => (degrade version k, degrade version v)) ps)
      else Array (Some (concat (map (fun '(k, v) => [degrade version k; degrade version v]) ps)))
  | Set_ l => if resp3 then Set_ (map (degrade version) l) else Array (Some (map (degrade version) l))
  | Push l => if resp3 then Push (map (degrade version) l) else Array (Some (map (degrade version) l))
  | _ => r
  end.

(** Texts are single lines of valid UTF-8, numbers and sizes within the limits the
    parser enforces, doubles not NaN; raw bytes are outside the grammar. *)
Definition line_safe (s : bytes) : Prop := utf8_valid s = true /\ forall j, ~ at_crlf s j.

Definition count_safe (n : nat) : Prop := (Z.of_nat n <= MAX_ARRAY_LEN)%Z.

Fixpoint wire_safe (r : Resp) : Prop :=
  match r with
  | SimpleString s | Error s => line_safe s
  | Integer n => in_i64 n
  | BulkString (Some data) => (Z.of_nat (length data) <= MAX_BULK_LEN)%Z
  | Double d =>
      f64_wf d /\ is_nan d = false /\ (Z.of_nat (length (f64_display d)) <= MAX_BULK_LEN)%Z
  | Array (Some l) | Set_ l | Push l => count_safe (length l) /\ fold_right (fun x Q => wire_safe x /\ Q) True l
  | Map ps =>
      count_safe (length ps * 2) /\
      fold_right (fun '(k, v) Q => (wire_safe k /\ wire_safe v) /\ Q) True ps
  | Raw _ => False
  | _ => True
  end.

Lemma no_crlf_line c line rest : c <> CR -> (forall j, ~ at_crlf line j) ->
  parse_line (c :: line ++ CRLF ++ rest) = POk (line, length line + 3).
Proof.
  intros Hc Hl. rewrite (parse_line_typed _ (S (length line))).
  - replace (S (length line) - 1) with (length line) by lia.
    change (drop 1 (c :: line ++ CRLF ++ rest)) with (line ++ CRLF ++ rest).
    rewrite take_app_length. do 2 f_equal. lia.
  - unfold typed. simpl. congruence.
  - apply find_crlf_Some. split.
    + split; simpl; [by rewrite list_lookup_middle|].
      rewrite lookup_app_r by lia. by replace (S (length line) - length line) with 1 by lia.
    + intros [|j] Hj [E1 E2]; simpl in *; [congruence|].
      rewrite lookup_app_l in E1 by lia. destruct (decide (S j = length line)) as [El|].
      * rewrite El, list_lookup_middle in E2 by done. discriminate E2.
      * rewrite lookup_app_l in E2 by lia. by apply (Hl j).
Qed.

Lemma ascii_no_cr_safe s : Forall ascii s -> Forall (fun b => b <> CR) s -> line_safe s.
Proof.
  intros Ha Hc. split; [by apply utf8_valid_ascii|]. intros j [E _].
  rewrite Forall_lookup in Hc. by apply (Hc j CR).
Qed.

Lemma digits_safe s : Forall is_digit s -> line_safe s.
Proof.
  intros Hd. apply ascii_no_cr_safe; (eapply Forall_impl; [exact Hd|]); intros b Hb;
    by apply is_digit_ascii in Hb as [? ?].
Qed.

Lemma dec_safe n : line_safe (dec (Z.of_nat n)).
Proof. apply digits_safe. by destruct (dec_spec (Z.of_nat n)) as (_ & ? & _); [lia|]. Qed.

Lemma show_int_safe n : line_safe (show_int n).
Proof.
  unfold show_int. destruct (Z.ltb_spec n 0).
  - destruct (dec_spec (- n)) as (_ & Hd & _); [lia|]. apply ascii_no_cr_safe; (constructor; [done|]);
      (eapply Forall_impl; [exact Hd|]); intros b Hb; by apply is_digit_ascii in Hb as [? ?].
  - apply digits_safe. by destruct (dec_spec n) as (_ & ? & _); [lia|].
Qed.

Lemma from_utf8_safe s : line_safe s -> from_utf8 s = Some s.
Proof. intros [Hv _]. unfold from_utf8. by rewrite Hv. Qed.

(** The header line of a frame, read back. *)
Lemma line_then_frame {A} (g : bytes -> bytes -> presult (A * nat)) c line rest x n :
  c <> CR -> line_safe line -> g line rest = POk (x, n) ->
  line_then g (c :: line ++ CRLF ++ rest) = POk (x, length line + 3 + n).
Proof.
  intros Hc [_ Hl] Hg. unfold line_then. rewrite no_crlf_line by done. cbn [pbind].
  replace (drop (length line + 3) (c :: line ++ CRLF ++ rest)) with rest; [by rewrite Hg|].
  change (drop (length line + 3) (c :: line ++ CRLF ++ rest)) with (drop (length line + 3) ([c] ++ line ++ CRLF ++ rest)).
  rewrite (app_assoc line), (app_assoc [c]), drop_app_length'; [done|]. rewrite !length_app. simpl. lia.
Qed.

Lemma int_line_show n : in_i64 n -> int_line (show_int n) = POk (Integer n).
Proof.
  intros Hn. unfold int_line. rewrite from_utf8_safe by apply show_int_safe. cbn [or_invalid pbind].
  by rewrite parse_i64_show.
Qed.

Lemma length_line_dec enc bad over max n : (Z.of_nat n <= max)%Z -> (max < 2 ^ 62)%Z ->
  length_line enc bad over max (dec (Z.of_nat n)) = POk (Some n).
Proof.
  intros Hn Hm. unfold length_line. rewrite from_utf8_safe by apply dec_safe. cbn [or_invalid pbind].
  rewrite <- (show_int_nonneg (Z.of_nat n)), parse_i64_show by
    (unfold in_i64, i64_min, i64_max; lia || lia). cbn [or_invalid pbind].
  rewrite (proj2 (Z.eqb_neq _ _)), (proj2 (Z.ltb_ge _ _)), (proj2 (Z.ltb_ge _ _)) by lia.
  by rewrite Nat2Z.id.
Qed.

Lemma parse_count_dec what n : count_safe n -> parse_count what (dec (Z.of_nat n)) = POk n.
Proof.
  unfold count_safe, MAX_ARRAY_LEN. intros Hn. unfold parse_count.
  rewrite from_utf8_safe by apply dec_safe. cbn [or_invalid pbind].
  rewrite parse_usize_dec by lia. cbn [or_invalid pbind]. unfold MAX_ARRAY_LEN.
  rewrite (proj2 (Z.ltb_ge _ _)) by lia. by rewrite Nat2Z.id.
Qed.

Lemma items_of_encodings version l rest : 
  Forall (fun r => forall rest, parse_resp (encode version r ++ rest) = POk (degrade version r, length (encode version r))) l ->
  items_of parse_resp (length l) (concat (map (encode version) l) ++ rest)
    = POk (map (degrade version) l, length (concat (map (encode version) l))).
Proof.
  induction 1 as [|r l Hr Hl IH]; [done|]. cbn [length map concat items_of]. rewrite <- app_assoc, Hr. cbn [pbind].
  rewrite drop_app_length, IH. cbn [pbind]. by rewrite length_app.
Qed.

Lemma length_frame_line t c line : bstr t = [c] -> length (frame_line t line) = length line + 3.
Proof. intros E. unfold frame_line. rewrite E. simpl. rewrite length_app. simpl. lia. Qed.

Lemma frame_line_cons t c line rest : bstr t = [c] -> frame_line t line ++ rest = c :: line ++ CRLF ++ rest.
Proof. intros E. unfold frame_line. rewrite E. simpl. by rewrite <- app_assoc. Qed.

Definition is_type (c : byte) (q : bytes -> presult (Resp * nat)) : Prop :=
  c <> CR /\ forall t, type_parser parse_resp c (c :: t) = q (c :: t).

(** A frame whose first line governs a body. *)
Lemma parse_frame t c g line body rest r :
  bstr t = [c] -> is_type c (line_then g) -> line_safe line ->
  g line (body ++ rest) = POk (r, length body) ->
  parse_resp ((frame_line t line ++ body) ++ rest) = POk (r, length (frame_line t line ++ body)).
Proof.
  intros Et [Hc Hq] Hl Hg. rewrite <- app_assoc, (frame_line_cons t c) by done.
  rewrite parse_resp_eq, parse_with_type, Hq, (line_then_frame _ _ _ _ _ _ Hc Hl Hg).
  by rewrite length_app, (length_frame_line t c).
Qed.

Lemma parse_frame_only t c f line rest r :
  bstr t = [c] -> is_type c (line_only f) -> line_safe line -> f line = POk r ->
  parse_resp (frame_line t line ++ rest) = POk (r, length (frame_line t line)).
Proof.
  intros Et Hq Hl Hf. rewrite <- (app_nil_r (frame_line t line)).
  eapply (parse_frame t c); [done|exact Hq|done|]. simpl. by rewrite Hf.
Qed.

Lemma is_type_shape c q : c <> CR -> (forall b, type_parser parse_resp c b = q b) -> is_type c q.
Proof. done. Qed.

Lemma int_type : is_type (byte_of 58) (line_only int_line).
Proof.
  apply is_type_shape; [done|]. intros b. change (parse_integer b = line_only int_line b).
  unfold parse_integer, int_line. rewrite <- line_only_eq. destruct (parse_line b) as [[l n]| | |]; try done.
  cbn [pbind]. destruct (from_utf8 l) as [s|]; [|done]. cbn [or_invalid pbind]. by destruct (parse_i64 s).
Qed.

Lemma bulk_type : is_type (byte_of 36) (line_then bulk_gram).
Proof. apply is_type_shape; [done|]. intros b. apply parse_bulk_gram. Qed.

Lemma array_type : is_type (byte_of 42) (line_then (array_gram parse_resp)).
Proof. apply is_type_shape; [done|]. intros b. apply (parse_array_gram _ parse_resp_bounded). Qed.

Lemma parse_bulk_frame data rest : (Z.of_nat (length data) <= MAX_BULK_LEN)%Z ->
  parse_resp (bulk_frame data ++ rest) = POk (bulk data, length (bulk_frame data)).
Proof.
  intros Hd. unfold bulk_frame, count_line. eapply (parse_frame "$" (byte_of 36));
    [done|exact bulk_type|apply dec_safe|].
  unfold bulk_gram, bulk_line. rewrite length_line_dec by done. cbn [pbind]. unfold bulk_body.
  rewrite <- !app_assoc, bool_decide_eq_false_2 by (rewrite !length_app; simpl; lia).
  rewrite drop_app_length, bool_decide_eq_true_2, take_app_length by done. by rewrite length_app.
Qed.

Lemma parse_array_frame vs body rest n : count_safe n ->
  items_of parse_resp n (body ++ rest) = POk (vs, length body) ->
  parse_resp ((count_line "*" n ++ body) ++ rest) = POk (Array (Some vs), length (count_line "*" n ++ body)).
Proof.
  intros Hn Hi. eapply (parse_frame "*" (byte_of 42)); [done|exact array_type|apply dec_safe|].
  unfold array_gram, array_line. rewrite length_line_dec by done. cbn [pbind]. by rewrite Hi.
Qed.

Lemma parse_null rest : parse_resp (frame_line "_" [] ++ rest) = POk (Null, 3).
Proof.
  rewrite parse_resp_eq. change (frame_line "_" [] ++ rest) with (byte_of 95 :: CR :: LF :: rest).
  rewrite parse_with_type. change (parse_resp3_null (byte_of 95 :: CR :: LF :: rest) = POk (Null, 3)).
  unfold parse_resp3_null. rewrite bool_decide_eq_false_2 by (simpl; lia).
  by rewrite (slice_mid _ [byte_of 95] CRLF rest).
Qed.

Lemma parse_bool_frame (x : bool) rest :
  parse_resp (frame_line "#" (if x then bstr "t" else bstr "f") ++ rest) = POk (Bool x, 4).
Proof.
  rewrite parse_resp_eq.
  assert (frame_line "#" (if x then bstr "t" else bstr "f") ++ rest
    = byte_of 35 :: (if x then byte_of 116 else byte_of 102) :: CR :: LF :: rest) as -> by (by destruct x).
  rewrite parse_with_type. change (type_parser parse_resp (byte_of 35)) with parse_resp3_bool.
  unfold parse_resp3_bool. rewrite bool_decide_eq_false_2 by (simpl; lia). cbn [or_panic pbind lookup list_lookup].
  rewrite (slice_mid _ [byte_of 35; if x then byte_of 116 else byte_of 102] CRLF rest) by done.
  by destruct x.
Qed.

(** A RESP3 aggregate counted by [what]. *)
Lemma parse_count_frame t c what k mk n vs body rest :
  bstr t = [c] -> is_type c (line_then (count_gram parse_resp what k mk)) -> count_safe n ->
  items_of parse_resp (n * k) (body ++ rest) = POk (vs, length body) ->
  parse_resp ((count_line t n ++ body) ++ rest) = POk (mk vs, length (count_line t n ++ body)).
Proof.
  intros Et Hc Hn Hi. eapply (parse_frame t c); [done|exact Hc|apply dec_safe|].
  unfold count_gram. rewrite parse_count_dec by done. cbn [pbind]. by rewrite Hi.
Qed.

Definition flatten (ps : list (Resp * Resp)) : list Resp := concat (map (fun '(k, v) => [k; v]) ps).

Lemma length_flatten ps : length (flatten ps) = length ps * 2.
Proof. induction ps as [|[k v] ps IH]; [done|]. unfold flatten in *. simpl. lia. Qed.

Lemma pair_up_flatten (f : Resp -> Resp) ps :
  pair_up (map f (flatten ps)) = map (fun '(k, v) => (f k, f v)) ps.
Proof. induction ps as [|[k v] ps IH]; [done|]. unfold flatten in *. simpl. by rewrite IH. Qed.

Lemma map_flatten (f : Resp -> Resp) ps :
  map f (flatten ps) = concat (map (fun '(k, v) => [f k; f v]) ps).
Proof. induction ps as [|[k v] ps IH]; [done|]. unfold flatten in *. simpl. by rewrite IH. Qed.

Lemma encode_flatten version ps :
  concat (map (fun '(k, v) => encode version k ++ encode version v) ps)
    = concat (map (encode version) (flatten ps)).
Proof.
  induction ps as [|[k v] ps IH]; [done|]. unfold flatten in *. simpl. by rewrite IH, <- app_assoc.
Qed.

Lemma Forall_flatten (P : Resp -> Prop) ps : Forall (fun kv => P kv.1 /\ P kv.2) ps -> Forall P (flatten ps).
Proof. induction 1 as [|[k v] ps [? ?] ? IH]; [constructor|]. unfold flatten in *. simpl. by repeat constructor. Qed.

Lemma count_safe_half n : count_safe (n * 2) -> count_safe n.
Proof. unfold count_safe. lia. Qed.

Lemma simple_type : is_type (byte_of 43) (line_only (fun l => POk (SimpleString (from_utf8_lossy l)))).
Proof.
  apply is_type_shape; [done|]. intros b.
  exact (line_only_eq (fun l => POk (SimpleString (from_utf8_lossy l))) b).
Qed.

Lemma error_type : is_type (byte_of 45) (line_only (fun l => POk (Error (from_utf8_lossy l)))).
Proof.
  apply is_type_shape; [done|]. intros b.
  exact (line_only_eq (fun l => POk (Error (from_utf8_lossy l))) b).
Qed.

Lemma double_type : is_type (byte_of 44) (line_only double_line).
Proof.
  apply is_type_shape; [done|]. intros b. change (parse_resp3_double b = line_only double_line b).
  unfold parse_resp3_double, double_line. rewrite <- line_only_eq.
  destruct (parse_line b) as [[ln m]| | |]; try done. cbn [pbind].
  destruct (from_utf8 ln) as [s|]; [|done]. cbn [or_invalid pbind]. by destruct (f64_parse s).
Qed.

Lemma map_type : is_type (byte_of 37) (line_then (count_gram parse_resp "map" 2 (fun vs => Map (pair_up vs)))).
Proof. apply is_type_shape; [done|]. intros b. apply (parse_map_gram _ parse_resp_bounded). Qed.

Lemma set_type : is_type (byte_of 126) (line_then (count_gram parse_resp "set" 1 Set_)).
Proof. apply is_type_shape; [done|]. intros b. apply (parse_count_items _ parse_resp_bounded "set"). Qed.

Lemma push_type : is_type (byte_of 62) (line_then (count_gram parse_resp "push" 1 Push)).
Proof. apply is_type_shape; [done|]. intros b. apply (parse_count_items _ parse_resp_bounded "push"). Qed.

(** Reading one value back, whatever follows. *)
Definition reads_back (version : Z) (r : Resp) : Prop := forall rest,
  parse_resp (encode version r ++ rest) = POk (degrade version r, length (encode version r)).

Lemma reads_null_line version r c t : bstr t = [c] -> (3 <=? version)%Z = false ->
  is_type c (line_then bulk_gram) /\ r = BulkString None \/
  is_type c (line_then (array_gram parse_resp)) /\ r = Array None ->
  encode version r = frame_line t (bstr "-1") -> degrade version r = r -> reads_back version r.
Proof.
  intros Et Hv Hc Ee Ed rest. rewrite Ee, Ed, <- (app_nil_r (frame_line t (bstr "-1"))).
  destruct Hc as [[Hc ->]|[Hc ->]]; (eapply (parse_frame t c); [done|exact Hc|apply (show_int_safe (-1))|done]).
Qed.

Lemma reads_double version d : wire_safe (Double d) -> reads_back version (Double d).
Proof.
  intros (Hwf & Hnan & Hlen) rest. cbn [encode degrade].
  destruct (3 <=? version)%Z; [|by apply parse_bulk_frame].
  assert (line_safe (f64_display d)) as Hl
    by (apply ascii_no_cr_safe; [apply f64_display_ascii|apply f64_display_no_cr]).
  eapply (parse_frame_only ","); [done|exact double_type|exact Hl|].
  unfold double_line. rewrite from_utf8_safe by done. cbn [or_invalid pbind]. by rewrite f64_roundtrip.
Qed.

Lemma reads_map version ps : count_safe (length ps * 2) ->
  Forall (fun kv => reads_back version kv.1 /\ reads_back version kv.2) ps -> reads_back version (Map ps).
Proof.
  intros Hn Hps rest. cbn [encode degrade]. rewrite encode_flatten.
  assert (items_of parse_resp (length ps * 2) (concat (map (encode version) (flatten ps)) ++ rest)
    = POk (map (degrade version) (flatten ps), length (concat (map (encode version) (flatten ps))))) as Hi.
  { rewrite <- length_flatten. by apply items_of_encodings, Forall_flatten. }
  destruct (3 <=? version)%Z.
  - rewrite <- pair_up_flatten.
    apply (parse_count_frame "%" _ "map" 2 (fun vs => Map (pair_up vs)) _ _ _ _ eq_refl map_type); [|done].
    by apply count_safe_half.
  - rewrite <- map_flatten. by apply parse_array_frame.
Qed.

(** [Array], [Set] and [Push], whose elements are encoded alike. *)
Lemma reads_items version l r t c what mk : bstr t = [c] ->
  is_type c (line_then (count_gram parse_resp what 1 mk)) -> r = mk l ->
  degrade version r = (if (3 <=? version)%Z then mk (map (degrade version) l)
                       else Array (Some (map (degrade version) l))) ->
  encode version r = count_line (if (3 <=? version)%Z then t else "*") (length l)
                       ++ concat (map (encode version) l) ->
  count_safe (length l) -> Forall (reads_back version) l -> reads_back version r.
Proof.
  intros Et Hc -> Ed Ee Hn Hl rest. rewrite Ed, Ee.
  pose proof (items_of_encodings version l rest Hl) as Hi.
  destruct (3 <=? version)%Z; [|by apply parse_array_frame].
  apply (parse_count_frame t c what 1 mk); [done|done|done|by rewrite Nat.mul_1_r].
Qed.

Lemma parse_encode version r : wire_safe r -> reads_back version r.
Proof.
  induction r as [s|s|n|[d|]| |l IH| |x|d|ps IH|l IH|l IH|d] using Resp_nested_ind; intros Hw.
  - intros rest. eapply (parse_frame_only "+"); [done|exact simple_type|exact Hw|].
    destruct Hw as [Hv _]. by rewrite lossy_valid.
  - intros rest. eapply (parse_frame_only "-"); [done|exact error_type|exact Hw|].
    destruct Hw as [Hv _]. by rewrite lossy_valid.
  - intros rest. eapply (parse_frame_only ":"); [done|exact int_type|apply show_int_safe|by apply int_line_show].
  - intros rest. by apply parse_bulk_frame.
  - destruct (3 <=? version)%Z eqn:Ev; [intros rest; cbn [encode degrade]; by rewrite Ev, parse_null|].
    apply (reads_null_line _ _ _ "$" eq_refl Ev); [left; split; [exact bulk_type|done]|simpl; by rewrite Ev..].
  - destruct (3 <=? version)%Z eqn:Ev; [intros rest; cbn [encode degrade]; by rewrite Ev, parse_null|].
    apply (reads_null_line _ _ _ "*" eq_refl Ev); [right; split; [exact array_type|done]|simpl; by rewrite Ev..].
  - destruct Hw as [Hn Hw%fold_right_Forall]. intros rest. apply parse_array_frame; [done|].
    apply items_of_encodings. rewrite Forall_forall in *. intros r Hr. by apply IH, Hw.
  - intros rest. apply parse_null.
  - intros rest. cbn [encode degrade]. destruct (3 <=? version)%Z; [by rewrite parse_bool_frame; destruct x|].
    eapply (parse_frame_only ":"); [done|exact int_type|apply show_int_safe|].
    by destruct x; apply int_line_show; split; discriminate.
  - by apply reads_double.
  - destruct Hw as [Hn Hw%fold_right_Forall_pairs]. apply reads_map; [done|].
    rewrite Forall_forall in *. intros kv Hkv. destruct (IH _ Hkv), (Hw _ Hkv). auto.
  - destruct Hw as [Hn Hw%fold_right_Forall].
    apply (reads_items _ l _ "~" _ "set" Set_ eq_refl set_type); [done|done|done|done|].
    rewrite Forall_forall in *. auto.
  - destruct Hw as [Hn Hw%fold_right_Forall].
    apply (reads_items _ l _ ">" _ "push" Push eq_refl push_type); [done|done|done|done|].
    rewrite Forall_forall in *. auto.
  - done.
Qed.

(** Serialising and parsing are inverse: for every value whose texts are single
    UTF-8 lines and whose sizes are within the parser's limits, what the serialiser
    puts on the wire for a RESP2 or RESP3 client parses - with any bytes after it
    left untouched - to that value as the client's protocol version shows it (maps
    flattened and sets, pushes, booleans and doubles degraded for RESP2, nulls
    unified for RESP3), consuming exactly the bytes written. *)
Theorem serialize_parse_roundtrip `{Itoa} version r rest : wire_safe r -> representable r ->
  parse_resp (serialize_for_version r version ++ rest)
    = POk (degrade version r, length (serialize_for_version r version)).
Proof. intros Hw Hr. rewrite serialize_encode by done. by apply parse_encode. Qed.

End RoundTrip.

(** ** Pipelines *)

Section Pipeline.
Context `{F64Text}.

Lemma drain_encodings version rs : Forall wire_safe rs ->
  drain_all (concat (map (encode version) rs)) = (map (degrade version) rs, NeedMore, []).
Proof.
  induction 1 as [|r rs Hr Hrs IH]; [done|]. cbn [map concat].
  pose proof (parse_encode version r Hr (concat (map (encode version) rs))) as E.
  rewrite (drain_all_step _ _ _ E), drop_app_length, IH; [done|].
  split; [by eapply parse_resp_positive|by apply (parse_resp_bounded _ _ _ E)].
Qed.

(** End to end: a pipeline of commands written by a client arrives as exactly
    those commands, in order and with nothing left over, however the network cuts
    the bytes into reads. *)
Theorem pipeline_received_intact version rs chunks : Forall wire_safe rs ->
  concat chunks = concat (map (encode version) rs) ->
  receive [] chunks = (map (degrade version) rs, NeedMore, []).
Proof.
  intros Hrs Hc. pose proof (receive_spec [] chunks eq_refl) as Hs. simpl app in Hs. rewrite Hc in Hs.
  rewrite drain_encodings in Hs by done. destruct (receive [] chunks) as [[vs st] r].
  destruct Hs as (-> & -> & Hr). by rewrite (Hr eq_refl).
Qed.

End Pipeline.

(** ** Inline commands *)

(** A token in double quotes, with quotes, backslashes and line breaks escaped. *)
Definition escape (b : byte) : bytes :=
  if bool_decide (b = QUOTE \/ b = BACKSLASH) then [BACKSLASH; b]
  else if bool_decide (b = LF) then [BACKSLASH; byte_of 110]
  else if bool_decide (b = CR) then [BACKSLASH; byte_of 114]
  else [b].

Definition quote_token (t : bytes) : bytes := [QUOTE] ++ concat (map escape t) ++ [QUOTE].

(** Tokens that may be written bare. *)
Definition bare (t : bytes) : Prop :=
  match t with
  | [] => False
  | c :: _ => c <> QUOTE /\ c <> APOSTROPHE /\ SPACE ∉ t
  end.

(** A way to write each token on the line: bare or quoted. *)
Definition written (t : bytes) (w : bytes) : Prop := w = quote_token t \/ (w = t /\ bare t).

Definition join_line (ws : list bytes) : bytes := concat (map (fun w => w ++ [SPACE]) ws).

Lemma quoted_loop_escape t acc rest :
  quoted_loop QUOTE (concat (map escape t) ++ QUOTE :: rest) acc = POk (acc ++ t, rest).
Proof.
  revert acc. induction t as [|b t IH]; intros acc; cbn [map concat app].
  - cbn [quoted_loop]. rewrite bool_decide_eq_true_2 by done. by rewrite app_nil_r.
  - rewrite <- app_assoc. unfold escape at 1. case_bool_decide as H1; [|case_bool_decide as H2; [|case_bool_decide as H3]].
    + cbn [app quoted_loop]. rewrite bool_decide_eq_false_2, bool_decide_eq_true_2 by done.
      rewrite IH, <- app_assoc. destruct H1 as [->| ->]; done.
    + subst b. cbn [app quoted_loop]. rewrite bool_decide_eq_false_2, bool_decide_eq_true_2 by done.
      by rewrite IH, <- app_assoc.
    + subst b. cbn [app quoted_loop]. rewrite bool_decide_eq_false_2, bool_decide_eq_true_2 by done.
      by rewrite IH, <- app_assoc.
    + cbn [app quoted_loop]. rewrite !bool_decide_eq_false_2 by naive_solver. by rewrite IH, <- app_assoc.
Qed.

Lemma unquoted_loop_bare t acc rest : SPACE ∉ t ->
  unquoted_loop (t ++ SPACE :: rest) acc = (acc ++ t, SPACE :: rest).
Proof.
  revert acc. induction t as [|b t IH]; intros acc Hn; cbn [app unquoted_loop].
  - rewrite bool_decide_eq_true_2 by done. by rewrite app_nil_r.
  - apply not_elem_of_cons in Hn as [Hb Hn]. rewrite bool_decide_eq_false_2 by congruence.
    by rewrite IH, <- app_assoc.
Qed.

Lemma skip_spaces_space l : skip_spaces (SPACE :: l) = skip_spaces l.
Proof. done. Qed.

Lemma skip_spaces_other c l : c <> SPACE -> skip_spaces (c :: l) = c :: l.
Proof. intros Hc. cbn [skip_spaces]. by rewrite bool_decide_eq_false_2. Qed.

(** Leading spaces do not change the outcome. *)
Lemma tokenize_space fuel line parts : tokenize_loop fuel (SPACE :: line) parts = tokenize_loop fuel line parts.
Proof. by destruct fuel. Qed.

Lemma tokenize_written fuel ts ws parts : Forall2 written ts ws -> length (join_line ws) <= fuel ->
  tokenize_loop fuel (join_line ws) parts = POk (parts ++ map bulk ts).
Proof.
  intros Hw. revert fuel parts. induction Hw as [|t w ts ws Ht Hw IH]; intros fuel parts Hf.
  { destruct fuel; cbn; by rewrite app_nil_r. }
  unfold join_line in *. cbn [map concat] in *. rewrite <- !app_assoc in *. cbn [app] in *.
  rewrite !length_app in Hf. simpl in Hf.
  assert (forall fuel, length (concat (map (fun w => w ++ [SPACE]) ws)) <= fuel ->
    tokenize_loop fuel (SPACE :: concat (map (fun w => w ++ [SPACE]) ws)) (parts ++ [bulk t])
      = POk (parts ++ bulk t :: map bulk ts)) as Hrec.
  { intros f Hl. rewrite tokenize_space, IH by done. by rewrite <- app_assoc. }
  destruct Ht as [->|[-> Hb]].
  - unfold quote_token in *. simpl in Hf. destruct fuel as [|fuel]; [lia|]. cbn [app tokenize_loop].
    rewrite skip_spaces_other by done. rewrite bool_decide_eq_true_2 by (by left).
    rewrite <- app_assoc. cbn [app]. rewrite quoted_loop_escape. cbn [pbind]. apply Hrec. lia.
  - destruct t as [|c t]; [done|]. destruct Hb as (H1 & H2 & H3). pose proof H3 as H3'.
    apply not_elem_of_cons in H3 as [Hc Ht]. simpl in Hf. destruct fuel as [|fuel]; [lia|].
    cbn [app tokenize_loop]. rewrite skip_spaces_other by congruence.
    rewrite bool_decide_eq_false_2 by naive_solver.
    rewrite (unquoted_loop_bare (c :: t) [] (concat (map (fun w => w ++ [SPACE]) ws)) H3' : 
      unquoted_loop (c :: t ++ SPACE :: _) [] = _). apply Hrec. lia.
Qed.

(** The inline parser reads back what a user typed: for any tokens, each written
    bare (when it has no space and no leading quote) or in double quotes with
    quotes, backslashes and line breaks escaped, the tokenizer returns exactly those tokens,
    empty and binary ones included. *)
Theorem inline_tokens_roundtrip ts ws : Forall2 written ts ws ->
  tokenize_inline (join_line ws) = POk (map bulk ts).
Proof. intros Hw. unfold tokenize_inline. by apply (tokenize_written _ _ _ []). Qed.

(** ** Examples *)

Definition sample_command : Resp := array [bulk (bstr "SET"); bulk (bstr "k"); bulk (bstr "a b")].

Lemma sample_command_safe : @wire_safe pattern_text sample_command /\ @representable pattern_text sample_command.
Proof. cbn. unfold count_safe, usize_len, MAX_ARRAY_LEN, MAX_BULK_LEN. simpl. lia. Qed.

Lemma proper_prefix_asks_for_more_witness :
  let buf := @encode pattern_text 2 sample_command in
  @parse_resp pattern_text buf = POk (sample_command, 29) /\
  @parse_one pattern_text (take 20 buf) = (NeedMore, take 20 buf).
Proof.
  set (buf := @encode pattern_text 2 sample_command).
  assert (@parse_resp pattern_text buf = POk (sample_command, 29)) as E by (vm_compute; reflexivity).
  split; [exact E|]. apply (@proper_prefix_asks_for_more pattern_text buf sample_command 29 20 E). lia.
Defined.

Lemma chunking_is_irrelevant_witness :
  let bs := @encode pattern_text 2 sample_command in
  concat [take 3 bs; drop 3 bs] = concat [take 9 bs; []; drop 9 bs] /\
  (@receive pattern_text [] [take 3 bs; drop 3 bs]).1
    = (@receive pattern_text [] [take 9 bs; []; drop 9 bs]).1.
Proof.
  set (bs := @encode pattern_text 2 sample_command).
  assert (concat [take 3 bs; drop 3 bs] = concat [take 9 bs; []; drop 9 bs]) as E by (vm_compute; reflexivity).
  split; [exact E|]. pose proof (@chunking_is_irrelevant pattern_text _ _ E) as H.
  destruct (@receive pattern_text [] [take 3 bs; drop 3 bs]) as [[vs st] r].
  destruct (@receive pattern_text [] [take 9 bs; []; drop 9 bs]) as [[vs' st'] r'].
  destruct H as (-> & -> & _). reflexivity.
Defined.

Lemma serialize_parse_roundtrip_witness :
  @wire_safe pattern_text sample_command /\ @representable pattern_text sample_command /\
  @parse_resp pattern_text (@serialize_for_version plain_itoa pattern_text sample_command 3 ++ bstr "+next")
    = POk (sample_command, 29).
Proof.
  destruct sample_command_safe as [Hw Hr]. split; [exact Hw|]. split; [exact Hr|].
  etransitivity; [exact (@serialize_parse_roundtrip pattern_text plain_itoa 3 sample_command (bstr "+next") Hw Hr)|].
  vm_compute. reflexivity.
Defined.

Lemma pipeline_received_intact_witness :
  let rs := [sample_command; sample_command] in
  let bs := concat (map (@encode pattern_text 2) rs) in
  Forall (@wire_safe pattern_text) rs /\
  @receive pattern_text [] [take 31 bs; drop 31 bs] = (rs, NeedMore, []).
Proof.
  set (rs := [sample_command; sample_command]). set (bs := concat (map (@encode pattern_text 2) rs)).
  assert (Forall (@wire_safe pattern_text) rs) as Hw by (repeat constructor; apply sample_command_safe).
  split; [exact Hw|].
  assert (concat [take 31 bs; drop 31 bs] = bs) as E by (vm_compute; reflexivity).
  exact (@pipeline_received_intact pattern_text 2 rs [take 31 bs; drop 31 bs] Hw E).
Defined.

Lemma inline_tokens_roundtrip_witness :
  Forall2 written [bstr "SET"; bstr "a b"; []] [bstr "SET"; quote_token (bstr "a b"); quote_token []] /\
  tokenize_inline (join_line [bstr "SET"; quote_token (bstr "a b"); quote_token []])
    = POk [bulk (bstr "SET"); bulk (bstr "a b"); bulk []].
Proof.
  assert (Forall2 written [bstr "SET"; bstr "a b"; []] [bstr "SET"; quote_token (bstr "a b"); quote_token []]) as Hw.
  { constructor; [right|constructor; [by left|constructor; [by left|constructor]]].
    split; [done|]. split_and!; [done|done|]. apply (bool_decide_unpack _). vm_compute. exact I. }
  split; [exact Hw|]. exact (inline_tokens_roundtrip _ _ Hw).
Defined.
