(* ===== verification/Transaction.v ===== *)
(** * Transaction: MULTI, EXEC and WATCH ([transaction.rs], [connection.rs], [error.rs])

    [Transaction] is the state a connection keeps; [handle_*] are the handlers of
    [connection.rs], on a connection that is past authentication and talks to a
    master.  The commands a transaction queues are run by [dispatch], which stands
    for [dispatch_with_user] and is arbitrary.  Commands of other clients come
    between those of this one; each is one step. *)

From S2P Require Import Prelude Text Glob Doubles Types Keyspace KeyspaceInvariant KeyspaceSpec Shards ShardsSpec Store Resp.
From S2P Require SetData.

(** The [Display] of an error. *)
Definition to_string (e : NexradeError) : bytes :=
  match e with
  | WrongType => bstr "WRONGTYPE Operation against a key holding the wrong kind of value"
  | NoKey => bstr "ERR no such key"
  | NotInteger => bstr "ERR value is not an integer or out of range"
  | NotFloat => bstr "ERR value is not a valid float"
  | Overflow => bstr "ERR out of range value for incr"
  | SyntaxError => bstr "ERR syntax error"
  | UnknownCommand name args => bstr "ERR unknown command '" ++ name ++ bstr "'" ++ args
  | WrongArity name => bstr "ERR wrong number of arguments for '" ++ name ++ bstr "' command"
  | IndexOutOfRange => bstr "ERR index out of range"
  | BitError => bstr "ERR bit offset is not an integer or out of range"
  | Generic msg => bstr "ERR " ++ msg
  | Prefixed msg => msg
  | ExecAbort => bstr "EXECABORT Transaction discarded because of previous errors"
  | ExecWithoutMulti => bstr "ERR EXEC without MULTI"
  | NestedMulti => bstr "ERR MULTI calls can not be nested"
  | DiscardWithoutMulti => bstr "ERR DISCARD without MULTI"
  | Loading => bstr "LOADING Redis is loading the dataset in memory"
  | ReadOnly => bstr "READONLY You can't write against a read only replica"
  | ProtocolError msg => bstr "ERR Protocol error: " ++ msg
  | Io msg => bstr "ERR " ++ msg
  end.

(** ** The state of a client's transaction *)

Module Transaction.

Record t := mk { active : bool; queued : list (list Resp); err : bool; watch_keys : list (bytes * Z) }.

Definition new : t := {| active := false; queued := []; err := false; watch_keys := [] |}.

(** WATCH persists across MULTI. *)
Definition begin (tx : t) : t := {| active := true; queued := []; err := false; watch_keys := watch_keys tx |}.

Definition discard (tx : t) : t := {| active := false; queued := []; err := false; watch_keys := [] |}.

Definition queue (cmd : list Resp) (tx : t) : t :=
  {| active := active tx; queued := queued tx ++ [cmd]; err := err tx; watch_keys := watch_keys tx |}.

Definition mark_error (tx : t) : t :=
  {| active := active tx; queued := queued tx; err := true; watch_keys := watch_keys tx |}.

Definition MAX_WATCH_KEYS : nat := N.to_nat 4096.

Definition watch (key : bytes) (version : Z) (tx : t) : bool * t :=
  if bool_decide (MAX_WATCH_KEYS <= length (watch_keys tx)) then (false, tx)
  else (true, {| active := active tx; queued := queued tx; err := err tx; watch_keys := watch_keys tx ++ [(key, version)] |}).

Definition unwatch (tx : t) : t :=
  {| active := active tx; queued := queued tx; err := err tx; watch_keys := [] |}.
End Transaction.

(** ** The handlers *)

Section Handlers.
Context `{SetData.IndexSet}.

(** Runs one command for the authenticated user in a database. *)
Context (dispatch : nat -> list Resp -> Store.t -> Resp * Store.t).

Record conn := mk_conn { transaction : Transaction.t; db_index : nat }.

Definition set_tx (tx : Transaction.t) (c : conn) : conn := {| transaction := tx; db_index := db_index c |}.

Definition handle_multi (c : conn) : Resp * conn :=
  if Transaction.active (transaction c) then (error (to_string NestedMulti), c)
  else (ok, set_tx (Transaction.begin (transaction c)) c).

(** Some watched key has another version than when it was watched. *)
Fixpoint dirty (now : Z) (sdb : ShardedDatabase.t) (watched : list (bytes * Z)) : may_panic bool :=
  match watched with
  | [] => Some false
  | (key, version) :: watched =>
      v ← ShardedDatabase.read_for key (Database.key_version now key) sdb;
      if bool_decide (v = version) then dirty now sdb watched else Some true
  end.

Fixpoint run_queue (db_index : nat) (cmds : list (list Resp)) (s : Store.t) : list Resp * Store.t :=
  match cmds with
  | [] => ([], s)
  | cmd :: cmds =>
      let '(r, s) := dispatch db_index cmd s in
      let '(rs, s) := run_queue db_index cmds s in
      (r :: rs, s)
  end.

Definition handle_exec (now : Z) (c : conn) (s : Store.t) : may_panic (Resp * conn * Store.t) :=
  let tx := transaction c in
  let gone := set_tx (Transaction.discard tx) c in
  if negb (Transaction.active tx) then Some (error (to_string ExecWithoutMulti), c, s)
  else if Transaction.err tx then Some (error (to_string ExecAbort), gone, s)
  else
    d ← (if bool_decide (Transaction.watch_keys tx = []) then Some false
         else sdb ← Store.db (db_index c) s; dirty now sdb (Transaction.watch_keys tx));
    if (d : bool) then Some (null_array, gone, s)
    else
      let '(results, s) := run_queue (db_index c) (Transaction.queued tx) s in
      Some (array results, gone, s).

Definition handle_discard (c : conn) : Resp * conn :=
  if negb (Transaction.active (transaction c)) then (error (to_string DiscardWithoutMulti), c)
  else (ok, set_tx (Transaction.discard (transaction c)) c).

(** The loop over the arguments after the first; arguments that are not bulk
    strings are skipped. *)
Fixpoint watch_loop (now : Z) (sdb : ShardedDatabase.t) (args : list Resp) (tx : Transaction.t) :
    may_panic (Resp * Transaction.t) :=
  match args with
  | [] => Some (ok, tx)
  | arg :: args =>
      match as_bytes arg with
      | Some key =>
          version ← ShardedDatabase.read_for key (Database.key_version now key) sdb;
          match Transaction.watch key version tx with
          | (true, tx) => watch_loop now sdb args tx
          | (false, tx) => Some (error (bstr "ERR too many watched keys"), tx)
          end
      | None => watch_loop now sdb args tx
      end
  end.

Definition handle_watch (now : Z) (args : list Resp) (c : conn) (s : Store.t) : may_panic (Resp * conn) :=
  if Transaction.active (transaction c) then Some (error (bstr "ERR WATCH inside MULTI is not allowed"), c)
  else if bool_decide (length args < 2) then Some (error (to_string (WrongArity (bstr "watch"))), c)
  else
    sdb ← Store.db (db_index c) s;
    '(r, tx) ← watch_loop now sdb (drop 1 args) (transaction c);
    Some (r, set_tx tx c).

Definition handle_unwatch (c : conn) : Resp * conn := (ok, set_tx (Transaction.unwatch (transaction c)) c).

Definition handle_select (args : list Resp) (c : conn) (s : Store.t) : Resp * conn :=
  match parse_usize (default (bstr "0") (args !! 1 ≫= as_str)) with
  | Some idx =>
      if bool_decide (idx < Z.of_nat (Store.db_count s))%Z
      then (ok, {| transaction := transaction c; db_index := Z.to_nat idx |})
      else (error (bstr "ERR DB index is out of range"), c)
  | None => (error (bstr "ERR value is not an integer or out of range"), c)
  end.

(** The part of RESET that concerns this state. *)
Definition handle_reset (c : conn) : Resp * conn :=
  (SimpleString (bstr "RESET"),
   {| transaction := Transaction.unwatch (Transaction.discard (transaction c)); db_index := 0 |}).

(** The commands the connection loop tells apart; [COther] is any command that
    reaches the last two branches. *)
Inductive command :=
  | CSelect (args : list Resp)
  | CWatch (args : list Resp)
  | CUnwatch
  | CMulti
  | CExec
  | CDiscard
  | CReset
  | COther (args : list Resp).

Definition process (now : Z) (cmd : command) (c : conn) (s : Store.t) : may_panic (Resp * conn * Store.t) :=
  match cmd with
  | CSelect args => let '(r, c) := handle_select args c s in Some (r, c, s)
  | CWatch args => '(r, c) ← handle_watch now args c s; Some (r, c, s)
  | CUnwatch => let '(r, c) := handle_unwatch c in Some (r, c, s)
  | CMulti => let '(r, c) := handle_multi c in Some (r, c, s)
  | CExec => handle_exec now c s
  | CDiscard => let '(r, c) := handle_discard c in Some (r, c, s)
  | CReset => let '(r, c) := handle_reset c in Some (r, c, s)
  | COther args =>
      if Transaction.active (transaction c)
      then Some (SimpleString (bstr "QUEUED"), set_tx (Transaction.queue args (transaction c)) c, s)
      else let '(r, s) := dispatch (db_index c) args s in Some (r, c, s)
  end.
End Handlers.

(** ** What a write does to the version of its key *)

Section Versions.
Context `{SetData.IndexSet} `{HashOrder}.
Implicit Types (d : Database.t) (k : bytes).

(** The counter behind [key_version], without the counter of an integer cell. *)
Definition ver d k : Z := default 0%Z (Database.key_versions d !! k).

Lemma seen_at_time now d k : seen now (Database.entries d !! k) = at_time now (visible <$> Database.entries d) !! k.
Proof.
  rewrite at_time_lookup, lookup_fmap. destruct (Database.entries d !! k) as [e|]; [|done]. simpl.
  rewrite is_expired_alive. destruct (decide (alive now (visible e))) as [A|A];
    [by rewrite bool_decide_eq_true_2|by rewrite bool_decide_eq_false_2].
Qed.

(** The operations that write a key. *)
Definition writes (op : db_op) k : Prop :=
  match op with
  | OInsert j _ | OSetPlain j _ | OIncr j _ | ODel j | OExpire j _ | OUpdate j _ | OUpsert j _ _ => j = k
  | _ => False
  end.

(** Only a write to the key changes what clients see of it. *)
Lemma change_is_write now op d k : wf d -> op_fits now op d ->
  seen now (Database.entries (exec now op d).2 !! k) <> seen now (Database.entries d !! k) -> writes op k.
Proof.
  intros W F Hne. set (m := visible <$> Database.entries d).
  assert (S0 : shows now d (at_time now m)) by (by apply shows_at_time).
  destruct (db_exec_refines now d m W S0 op F) as (_ & _ & S1). rewrite !seen_at_time in Hne.
  rewrite (S1 now) in Hne by done. fold m in Hne.
  assert (K : forall j c, j <> k -> at_time now (<[j := c]> (at_time now m)) !! k = at_time now m !! k).
  { intros j c Hj. rewrite at_time_lookup, lookup_insert_ne by done. rewrite <- at_time_lookup. by rewrite at_time_at_time. }
  assert (K0 : at_time now (at_time now m) !! k = at_time now m !! k) by (by rewrite at_time_at_time).
  destruct op as [j|j|j|j e|j v|j delta|j|j x|j f|j e f| |]; cbn [spec_exec snd writes] in *; try (by destruct Hne);
    destruct (decide (j = k)) as [|Hj]; try done; destruct Hne; repeat (case_match; cbn [snd]); auto.
  by rewrite at_time_lookup, lookup_delete_ne, <- at_time_lookup.
Qed.

(** The counter after a write: one more, or [1] for a key that is created, or
    nothing for a key that is gone and forgotten. *)
Definition bumped d d' k : Prop :=
  ver d' k = wrap64 (ver d k + 1) \/
  (Database.entries d !! k = None /\ ver d' k = 1%Z) \/
  (is_Some (Database.entries d !! k) /\ ver d' k = 0%Z).

Lemma ver_bump d k : ver (Database.bump_version k d) k = wrap64 (ver d k + 1).
Proof. unfold ver. rewrite bump_version_eq. simpl. by rewrite lookup_insert_eq. Qed.

Lemma ver_versions d d' k : Database.key_versions d' = Database.key_versions d -> ver d' k = ver d k.
Proof. unfold ver. by intros ->. Qed.

Lemma insert_bumps k e d : bumped d (Database.insert k e d) k.
Proof.
  unfold Database.insert. destruct (Database.entries d !! k) eqn:E.
  - left. transitivity (ver (Database.bump_version k d) k); [|apply ver_bump].
    apply ver_versions. rewrite !bump_version_eq. by fields.
  - right. left. split; [done|]. unfold ver. fields. by rewrite lookup_insert_eq.
Qed.

(** Removal bumps the counter and may then forget it. *)
Lemma remove_bumps k d : wf d -> is_Some (Database.entries d !! k) -> bumped d (Database.remove k d).2 k.
Proof.
  intros W [e E]. unfold Database.remove. rewrite E. cbn [snd].
  destruct (wf_versioned _ W k) as [v Hv]; [by rewrite E|].
  match goal with |- bumped _ (Database.maybe_prune_versions 1 ?x) _ => set (d1 := x) end.
  assert (V1 : Database.key_versions d1 !! k = Some (wrap64 (v + 1))).
  { unfold d1. fields. unfold Database.bump_version_if_present. fields. rewrite Hv. fields. by rewrite lookup_insert_eq. }
  pose proof (versions_prune_sub 1 d1) as Hs. unfold bumped, ver. rewrite Hv. simpl.
  destruct (Database.key_versions (Database.maybe_prune_versions 1 d1) !! k) as [v'|] eqn:E'.
  - left. apply (lookup_weaken _ _ _ _ E') in Hs. simpl. congruence.
  - right. right. rewrite E. by eauto.
Qed.

Ltac bump_by := left; etransitivity; [|apply ver_bump]; apply ver_versions; rewrite ?or_insert_bump_eq, !bump_version_eq; by fields.

Lemma set_plain_bumps now k v d : bumped d (Database.set_plain now k v d) k.
Proof.
  unfold Database.set_plain. pose proof (insert_bumps k (Entry.new (TString v)) d) as B.
  destruct (Database.entries d !! k) as [e|]; [|done]. destruct (Entry.is_expired now e); [done|]. bump_by.
Qed.

Lemma incr_bumps now k delta d : (Database.incr_int now k delta d).2 = d \/ bumped d (Database.incr_int now k delta d).2 k.
Proof.
  unfold Database.incr_int. destruct (Database.entries d !! k) as [old|] eqn:E; [destruct (Entry.is_expired now old)|].
  - right. cbn [snd]. bump_by.
  - destruct (Entry.value old) as [v|cell| | | | | | | |]; try (by left).
    + destruct (_ ≫= _) as [cur|]; [|by left]. destruct (checked_add_i64 cur delta); [|by left]. right. cbn [snd]. bump_by.
    + destruct (checked_add_i64 _ delta); [|by left]. right. cbn [snd]. bump_by.
  - right. cbn [snd]. bump_by.
Qed.

Lemma get_or_insert_bumps now k f d : ver (Database.get_or_insert_with now k f d).2 k = wrap64 (ver d k + 1).
Proof.
  unfold Database.get_or_insert_with.
  destruct (Database.entries d !! k) as [e|]; [destruct (Entry.is_expired now e)|]; cbn [snd];
    (etransitivity; [|apply ver_bump]; apply ver_versions; rewrite !bump_version_eq; by fields).
Qed.

Lemma ver_modify k e z d : ver (modify k e z d) k = ver d k.
Proof. apply ver_versions. unfold modify. by fields. Qed.

Lemma write_bumps now op d k : wf d -> writes op k ->
  seen now (Database.entries (exec now op d).2 !! k) <> seen now (Database.entries d !! k) ->
  bumped d (exec now op d).2 k.
Proof.
  intros W Hw Hne. destruct op as [j|j|j|j e|j v|j delta|j|j x|j f|j e f| |]; cbn [exec writes] in *; try done; subst j.
  - apply insert_bumps.
  - apply set_plain_bumps.
  - destruct (incr_bumps now k delta d) as [E|B]; destruct (Database.incr_int now k delta d) as [r d']; simpl in *; [|done].
    by subst.
  - destruct (Database.entries d !! k) eqn:E; [apply remove_bumps; [done|by rewrite E]|].
    destruct Hne. cbn [snd]. rewrite (ch_entries _ _ _ _ (remove_changes k d)), lookup_partial_alter_eq. done.
  - unfold Database.get in *. destruct (Database.entries d !! k) as [e|] eqn:E; [|by destruct Hne; cbn [snd]; rewrite E].
    destruct (Entry.is_expired now e) eqn:X; cbn [fst snd] in *.
    + destruct Hne. rewrite (ch_entries _ _ _ _ (remove_changes k d)), lookup_partial_alter_eq. simpl. by rewrite X.
    + unfold Database.set_expiry. fields. rewrite lookup_insert_eq. bump_by.
  - unfold Database.get_mut in *. destruct (Database.entries d !! k) as [e|] eqn:E; [|by destruct Hne; cbn [snd]; rewrite E].
    destruct (Entry.is_expired now e) eqn:X; cbn [fst snd] in *.
    + destruct Hne. rewrite (ch_entries _ _ _ _ (remove_changes k d)), lookup_partial_alter_eq. simpl. by rewrite X.
    + left. rewrite ver_modify. apply ver_bump.
  - pose proof (get_or_insert_bumps now k e d) as B. destruct (Database.get_or_insert_with now k e d) as [e' d'].
    left. cbn [snd] in *. by rewrite ver_modify.
Qed.
End Versions.

(** ** Sessions *)

Section Sessions.
Context `{SetData.IndexSet} `{HashOrder}.
Context (dispatch : nat -> list Resp -> Store.t -> Resp * Store.t).
Implicit Types (c : conn) (s : Store.t) (sdb : ShardedDatabase.t) (d : Database.t) (k : bytes).

(** Connections as a client can drive them, whatever the others do to the store. *)
Inductive reachable : conn -> Prop :=
  | reachable_new : reachable {| transaction := Transaction.new; db_index := 0 |}
  | reachable_step now cmd c s r c' s' : reachable c -> process dispatch now cmd c s = Some (r, c', s') -> reachable c'.

Definition tx_ok (tx : Transaction.t) : Prop :=
  (Transaction.active tx = false -> Transaction.queued tx = []) /\
  Transaction.err tx = false /\
  length (Transaction.watch_keys tx) <= Transaction.MAX_WATCH_KEYS.

Lemma tx_ok_discard tx : tx_ok (Transaction.discard tx).
Proof. split_and!; [done..|]. simpl. lia. Qed.

Lemma watch_loop_ok now sdb args tx r tx' : tx_ok tx -> watch_loop now sdb args tx = Some (r, tx') -> tx_ok tx'.
Proof.
  revert tx. induction args as [|a args IH]; intros tx Ok; cbn [watch_loop]; [by intros [= _ <-]|].
  destruct (as_bytes a) as [key|]; [|by apply IH].
  destruct (ShardedDatabase.read_for key _ sdb) as [v|]; [|done]. mstep. unfold Transaction.watch.
  case_bool_decide; [by intros [= _ <-]|]. apply IH. destruct Ok as (? & ? & ?). split_and!; [done..|].
  cbn [Transaction.watch_keys]. rewrite length_app. simpl. lia.
Qed.

(** The replies of EXEC; all but the first end the transaction. *)
Lemma handle_exec_cases now c s r c' s' : handle_exec dispatch now c s = Some (r, c', s') ->
  (r = error (to_string ExecWithoutMulti) /\ c' = c) \/
  (transaction c' = Transaction.discard (transaction c) /\
   (Transaction.err (transaction c) = true \/ r = null_array \/ exists rs, r = array rs)).
Proof.
  unfold handle_exec. destruct (negb _); [intros [= <- <- <-]; by left|].
  destruct (Transaction.err (transaction c)); [intros [= <- <- <-]; right; auto|].
  destruct (if bool_decide _ then _ else _) as [[|]|]; simpl; [intros [= <- <- <-]; auto| |done].
  destruct (run_queue _ _ _ _) as [rs s2]. intros [= <- <- <-]. right. eauto.
Qed.


(** *** WATCH *)

(** No increments on the cell of the key are pending in the version. *)
Definition cell_quiet (o : option Entry.t) : Prop :=
  match o with
  | Some (Entry.mk (TInt cell) _ _) => AtomicIntCell.version cell = 0%Z
  | _ => True
  end.

(** The counter of a key that exists is at least one, of a key that does not is
    not one. *)
Definition version_sane d k : Prop :=
  match Database.entries d !! k with
  | Some _ => (1 <= ver d k)%Z
  | None => ver d k <> 1%Z
  end.

Lemma ver_range d k : wf d -> (0 <= ver d k < 2 ^ 64)%Z.
Proof.
  intros W. unfold ver. destruct (Database.key_versions d !! k) as [v|] eqn:E; simpl; [|lia].
  apply (wf_range _ W k v E).
Qed.

Lemma key_version_quiet now d k : wf d -> cell_quiet (Database.entries d !! k) -> Database.key_version now k d = ver d k.
Proof.
  intros W Q. pose proof (ver_range d k W). unfold Database.key_version. fold (ver d k).
  destruct (Database.entries d !! k) as [[v x lru]|]; [|done]. destruct (Entry.is_expired now _); [done|]. simpl.
  destruct v; try done. simpl in Q. rewrite Q, Z.add_0_r. by apply wrap64_small.
Qed.

Lemma bumped_differs d d' k : wf d -> version_sane d k -> bumped d d' k -> ver d' k <> ver d k.
Proof.
  intros W V B. pose proof (ver_range d k W) as R. unfold version_sane in V.
  destruct B as [->|[[E ->]|[[e E] ->]]].
  - unfold wrap64. destruct (decide (ver d k + 1 < 2 ^ 64)%Z); [rewrite Z.mod_small by lia; lia|].
    replace (ver d k + 1)%Z with (2 ^ 64)%Z by lia. rewrite Z.mod_same by lia. lia.
  - rewrite E in V. congruence.
  - rewrite E in V. lia.
Qed.

Lemma dirty_true now sdb watched k v :
  (forall j, is_Some (ShardedDatabase.shards sdb !! ShardedDatabase.shard_idx sdb j)) -> (k, v) ∈ watched ->
  ShardedDatabase.read_for k (Database.key_version now k) sdb <> Some v -> dirty now sdb watched = Some true.
Proof.
  intros W Hin Hne. induction watched as [|[j u] watched IH]; [by apply not_elem_of_nil in Hin|]. cbn [dirty].
  destruct (W j) as [d Hd]. unfold ShardedDatabase.read_for at 1. rewrite Hd. mstep.
  case_bool_decide as E; [|done]. apply elem_of_cons in Hin as [Heq|Hin]; [|by apply IH].
  injection Heq as -> ->. destruct Hne. unfold ShardedDatabase.read_for. rewrite Hd. simpl. congruence.
Qed.

Lemma op_keeps_wf now op d : wf d -> op_fits now op d -> wf (exec now op d).2.
Proof.
  intros W F. by apply (db_exec_refines now d (visible <$> Database.entries d) W (shows_at_time _ _ _ (fun _ _ => eq_refl)) op).
Qed.

(** A client's commands one after the other, all at one time. *)
Fixpoint process_all (now : Z) (cmds : list command) c s : may_panic (list Resp * conn * Store.t) :=
  match cmds with
  | [] => Some ([], c, s)
  | cmd :: cmds =>
      '(r, c, s) ← process dispatch now cmd c s;
      '(rs, c, s) ← process_all now cmds c s;
      Some (r :: rs, c, s)
  end.

Lemma process_queue now cmds c s rest : Transaction.active (transaction c) = true ->
  process_all now (map COther cmds ++ rest) c s =
  '(rs, c', s') ← process_all now rest
     (set_tx {| Transaction.active := true; Transaction.queued := Transaction.queued (transaction c) ++ cmds;
                Transaction.err := Transaction.err (transaction c);
                Transaction.watch_keys := Transaction.watch_keys (transaction c) |} c) s;
  Some (replicate (length cmds) (SimpleString (bstr "QUEUED")) ++ rs, c', s').
Proof.
  revert c. induction cmds as [|cmd cmds IH]; intros c A.
  - simpl. rewrite app_nil_r. destruct c as [[? ? ? ?] i]. simpl in *. subst.
    by destruct (process_all now rest _ s) as [[[? ?] ?]|].
  - cbn [map app process_all process]. rewrite A. simpl. rewrite IH by done. simpl.
    rewrite <- app_assoc. unfold set_tx. simpl.
    by destruct (process_all now rest _ s) as [[[? ?] ?]|].
Qed.

(** What the client sends after WATCH. *)
Definition transaction_of (cmds : list (list Resp)) : list command := CMulti :: map COther cmds ++ [CExec].

End Sessions.

(** ** Runs *)

Section Sample.
#[local] Existing Instance SetData.vec_index_set.
#[local] Existing Instance canonical_order.

Definition no_dispatch (i : nat) (args : list Resp) (s : Store.t) : Resp * Store.t := (ok, s).

Definition one_db (sdb : ShardedDatabase.t) : Store.t :=
  {| Store.dbs := [sdb]; Store.db_count := 1; Store.lru_clock := 0 |}.

Definition fresh_conn : conn := {| transaction := Transaction.new; db_index := 0 |}.

(** The shard of [a] in the sample, as the hypotheses of the theorem look at it. *)
Definition watch_ready (d : Database.t) : bool :=
  match Database.entries d !! bstr "a" with
  | Some (Entry.mk (TString _) _ _) => bool_decide (1 <= ver d (bstr "a"))%Z
  | _ => false
  end && bool_decide (Z.of_nat (total_bytes (exec 100 (OSetPlain (bstr "a") (bstr "9")) d).2) < 2 ^ 64)%Z.



(** The version of a key, and its text, after steps on its shard. *)
Definition after_steps (k : bytes) (steps : list (Z * db_op)) (sdb : ShardedDatabase.t) : may_panic ShardedDatabase.t :=
  fold_left (fun o '(now, op) => sdb ← o; snd <$> ShardedDatabase.write_for k (exec now op) sdb) steps (Some sdb).

Definition version_at (now : Z) (k : bytes) (o : may_panic ShardedDatabase.t) : option Z :=
  sdb ← o; ShardedDatabase.read_for k (Database.key_version now k) sdb.

(** Deleting a key and creating it again is not noticed: both SETs leave version 1. *)
Lemma watch_misses_delete_then_set :
  let before := Some sample_keyspace in
  let after := after_steps (bstr "a") [(60%Z, ODel (bstr "a")); (70%Z, OSetPlain (bstr "a") (bstr "9"))] sample_keyspace in
  version_at 80 (bstr "a") before = Some 1%Z /\ version_at 80 (bstr "a") after = Some 1%Z /\
  text_of (sdb ← before; seen 80 (slot sdb (bstr "a"))) = Some (bstr "1", None) /\
  text_of (sdb ← after; seen 80 (slot sdb (bstr "a"))) = Some (bstr "9", None).
Proof. cbv zeta. split_and!; vm_compute; reflexivity. Qed.

(** Nor is a SET over an integer that was incremented once on the fast path: the
    counter of the key gains what the counter of the cell takes with it. *)
Lemma watch_misses_set_over_integer :
  let counter := after_steps (bstr "n") [(60%Z, OIncr (bstr "n") 5)] sample_keyspace in
  let before := sdb ← counter; snd <$> ShardedDatabase.incr_int 65 (bstr "n") 1 sdb in
  let after := before ≫= after_steps (bstr "n") [(70%Z, OSetPlain (bstr "n") (bstr "9"))] in
  version_at 80 (bstr "n") before = Some 2%Z /\ version_at 80 (bstr "n") after = Some 2%Z /\
  text_of (sdb ← after; seen 80 (slot sdb (bstr "n"))) = Some (bstr "9", None).
Proof. cbv zeta. split_and!; vm_compute; reflexivity. Qed.
End Sample.
