(* ===== verification/Acl.v ===== *)
(** * Acl: users, rules and permission checks ([acl.rs])

    A user has a list of command rules and a list of key patterns; [setuser]
    appends to both.  The manager keeps a flag that lets the dispatcher skip the
    table when the only user is an unrestricted [default].  SHA-256 and Unicode
    case mapping are parameters. *)

From S2P Require Import Prelude Text Glob.
From stdpp Require Import strings.

(** [sha2] and [hex]. *)
Class PasswordText := {
  hash_password : bytes -> bytes;
}.

(** ** Text *)

(** [str::strip_prefix] with one character. *)
Definition strip_prefix (c : byte) (s : bytes) : option bytes :=
  match s with
  | b :: rest => if bool_decide (b = c) then Some rest else None
  | [] => None
  end.

Definition AT : byte := byte_of 64.
Definition TILDE : byte := byte_of 126.
Definition GT : byte := byte_of 62.
Definition LT : byte := byte_of 60.
Definition HASH : byte := byte_of 35.
Definition PLUS_SIGN : byte := byte_of 43.
Definition MINUS_SIGN : byte := byte_of 45.

(** ** Command categories *)

Definition COMMAND_CATEGORIES : list (string * list string) :=
  [
    ("keyspace", [
      "DEL"; "UNLINK"; "EXISTS"; "TYPE"; "RENAME"; "RENAMENX"; "COPY"; "MOVE"; "SORT"; "SORT_RO"; "OBJECT";
      "TOUCH"; "EXPIRE"; "PEXPIRE"; "EXPIREAT"; "PEXPIREAT"; "EXPIRETIME"; "PEXPIRETIME"; "TTL"; "PTTL";
      "PERSIST"; "KEYS"; "SCAN"; "RANDOMKEY"; "DUMP"; "RESTORE"]);
    ("read", [
      "GET"; "MGET"; "GETRANGE"; "STRLEN"; "GETBIT"; "BITCOUNT"; "BITPOS"; "BITFIELD_RO"; "HGET"; "HMGET";
      "HKEYS"; "HVALS"; "HGETALL"; "HEXISTS"; "HLEN"; "HRANDFIELD"; "HSCAN"; "LRANGE"; "LINDEX"; "LLEN";
      "LPOS"; "SMEMBERS"; "SISMEMBER"; "SMISMEMBER"; "SCARD"; "SRANDMEMBER"; "SSCAN"; "SINTERCARD"; "ZRANGE";
      "ZRANGEBYSCORE"; "ZRANGEBYLEX"; "ZSCORE"; "ZMSCORE"; "ZCARD"; "ZCOUNT"; "ZLEXCOUNT"; "ZRANK";
      "ZREVRANK"; "ZRANDMEMBER"; "ZSCAN"; "GETRANGE"; "GETEX"; "GETDEL"; "GETSET"; "LCS"; "PFCOUNT";
      "GEOPOS"; "GEODIST"; "GEOHASH"; "GEOSEARCH"; "XLEN"; "XRANGE"; "XREVRANGE"; "XREAD"; "XPENDING";
      "EXISTS"]);
    ("write", [
      "SET"; "MSET"; "MSETNX"; "SETNX"; "SETEX"; "PSETEX"; "SETRANGE"; "SETBIT"; "BITOP"; "BITFIELD"; "INCR";
      "INCRBY"; "INCRBYFLOAT"; "DECR"; "DECRBY"; "APPEND"; "HSET"; "HMSET"; "HDEL"; "HSETNX"; "HINCRBY";
      "HINCRBYFLOAT"; "LPUSH"; "LPUSHX"; "RPUSH"; "RPUSHX"; "LPOP"; "RPOP"; "LINSERT"; "LSET"; "LREM";
      "LTRIM"; "LMOVE"; "LMPOP"; "BLMPOP"; "BLPOP"; "BRPOP"; "BLMOVE"; "SADD"; "SREM"; "SPOP"; "SMOVE";
      "ZADD"; "ZREM"; "ZINCRBY"; "ZPOPMIN"; "ZPOPMAX"; "BZPOPMIN"; "BZPOPMAX"; "ZREMRANGEBYRANK";
      "ZREMRANGEBYSCORE"; "ZUNIONSTORE"; "ZINTERSTORE"; "ZDIFFSTORE"; "ZRANGESTORE"; "ZINTER"; "ZUNION";
      "ZDIFF"; "ZINTERCARD"; "ZMPOP"; "BZMPOP"; "PFADD"; "PFMERGE"; "GEOADD"; "GEOSEARCHSTORE"; "XADD";
      "XTRIM"; "XDEL"; "XACK"; "XSETID"; "COPY"; "RENAME"; "RENAMENX"; "MOVE"]);
    ("set", [
      "SADD"; "SREM"; "SPOP"; "SMOVE"; "SMEMBERS"; "SISMEMBER"; "SMISMEMBER"; "SCARD"; "SRANDMEMBER";
      "SSCAN"; "SINTERCARD"]);
    ("sortedset", [
      "ZADD"; "ZREM"; "ZINCRBY"; "ZPOPMIN"; "ZPOPMAX"; "BZPOPMIN"; "BZPOPMAX"; "ZREMRANGEBYRANK";
      "ZREMRANGEBYSCORE"; "ZRANGE"; "ZRANGEBYSCORE"; "ZRANGEBYLEX"; "ZREVRANGE"; "ZREVRANGEBYSCORE";
      "ZRANGEBYLEX"; "ZSCORE"; "ZMSCORE"; "ZCARD"; "ZCOUNT"; "ZLEXCOUNT"; "ZRANK"; "ZREVRANK"; "ZRANDMEMBER";
      "ZSCAN"; "ZUNIONSTORE"; "ZINTERSTORE"; "ZDIFFSTORE"; "ZRANGESTORE"; "ZINTER"; "ZUNION"; "ZDIFF";
      "ZINTERCARD"; "ZMPOP"; "BZMPOP"]);
    ("list", [
      "LPUSH"; "LPUSHX"; "RPUSH"; "RPUSHX"; "LPOP"; "RPOP"; "LRANGE"; "LINDEX"; "LLEN"; "LINSERT"; "LSET";
      "LREM"; "LTRIM"; "LMOVE"; "LMPOP"; "BLMPOP"; "BLPOP"; "BRPOP"; "BLMOVE"]);
    ("hash", [
      "HSET"; "HMSET"; "HGET"; "HMGET"; "HDEL"; "HEXISTS"; "HGETALL"; "HKEYS"; "HVALS"; "HLEN"; "HSETNX";
      "HINCRBY"; "HINCRBYFLOAT"; "HSCAN"; "HRANDFIELD"]);
    ("string", [
      "SET"; "GET"; "MSET"; "MSETNX"; "SETNX"; "SETEX"; "PSETEX"; "GETSET"; "GETDEL"; "GETEX"; "GETRANGE";
      "SETRANGE"; "STRLEN"; "INCR"; "INCRBY"; "INCRBYFLOAT"; "DECR"; "DECRBY"; "APPEND"]);
    ("bitmap", [
      "SETBIT"; "GETBIT"; "BITCOUNT"; "BITPOS"; "BITOP"; "BITFIELD"]);
    ("hyperloglog", [
      "PFADD"; "PFCOUNT"; "PFMERGE"]);
    ("geo", [
      "GEOADD"; "GEOPOS"; "GEODIST"; "GEOHASH"; "GEORADIUS"; "GEORADIUSBYMEMBER"; "GEOSEARCH";
      "GEOSEARCHSTORE"]);
    ("stream", [
      "XADD"; "XLEN"; "XRANGE"; "XREVRANGE"; "XREAD"; "XREADGROUP"; "XTRIM"; "XDEL"; "XACK"; "XPENDING";
      "XGROUP"]);
    ("pubsub", [
      "SUBSCRIBE"; "UNSUBSCRIBE"; "PSUBSCRIBE"; "PUNSUBSCRIBE"; "PUBLISH"; "PUBSUB"]);
    ("connection", [
      "AUTH"; "PING"; "ECHO"; "QUIT"; "SELECT"; "HELLO"; "CLIENT"; "RESET"; "WAIT"]);
    ("transaction", [
      "MULTI"; "EXEC"; "DISCARD"; "WATCH"; "UNWATCH"]);
    ("scripting", [
      "EVAL"; "EVALSHA"; "SCRIPT"]);
    ("admin", [
      "ACL"; "BGREWRITEAOF"; "BGSAVE"; "COMMAND"; "CONFIG"; "DBSIZE"; "DEBUG"; "FLUSHALL"; "FLUSHDB"; "INFO";
      "LASTSAVE"; "LATENCY"; "MEMORY"; "MODULE"; "MONITOR"; "REPLICAOF"; "REPLCONF"; "PSYNC"; "RESET";
      "SAVE"; "SHUTDOWN"; "SLAVEOF"; "SLOWLOG"; "SWAPDB"; "SYNC"; "TIME"; "WAIT"]);
    ("dangerous", [
      "FLUSHDB"; "FLUSHALL"; "SHUTDOWN"; "BGREWRITEAOF"; "DEBUG"; "CONFIG"; "REPLICAOF"; "SLAVEOF"; "ACL";
      "KEYS"; "MIGRATE"; "RESTORE"; "SORT"; "WAIT"]);
    ("slow", [
      "KEYS"; "SCAN"; "DBSIZE"; "FLUSHDB"; "FLUSHALL"]);
    ("blocking", [
      "BLPOP"; "BRPOP"; "BLMPOP"; "BZPOPMIN"; "BZPOPMAX"; "XREAD"; "XREADGROUP"]);
    ("fast", [
      "GET"; "SET"; "INCR"; "DECR"; "LPUSH"; "RPUSH"; "EXPIRE"])
  ]%string.

(** [command_category_map]: the commands of a category; [all] is the union. *)
Definition command_category (cat : bytes) : option (list bytes) :=
  if bool_decide (cat = bstr "all") then Some (map bstr (concat (COMMAND_CATEGORIES.*2)))
  else map bstr <$> (snd <$> find (fun c => bool_decide (bstr c.1 = cat)) COMMAND_CATEGORIES).

(** The order of [String]. *)
Definition bytes_le (a b : bytes) : Prop := bytes_cmp a b <> Gt.

#[export] Instance bytes_le_dec a b : Decision (bytes_le a b).
Proof. unfold bytes_le. apply _. Defined.

Definition sort_names (names : list bytes) : list bytes := merge_sort bytes_le names.

Definition category_names : list bytes :=
  remove_dups (sort_names (map (fun c => bstr "@" ++ bstr c.1) COMMAND_CATEGORIES ++ [bstr "@all"])).

Inductive AclError :=
  | WrongPass
  | PermissionDenied (msg : bytes)
  | UnknownUser (name : bytes)
  | WrongAclArity
  | Syntax
  | UserExists (name : bytes)
  | NoSuchUser (name : bytes)
  | UnknownCategory (name : bytes).

(** ** Users *)

Module AclUser.
Section AclUser.
Context `{PasswordText} `{UnicodeCase}.

Record t := mk {
  name : bytes;
  password_hash : option bytes;
  enabled : bool;
  all_commands : bool;
  all_keys : bool;
  command_rules : list (bytes * bool);
  key_patterns : list bytes;
}.

Definition new (name : bytes) : t := mk name None true true true [] [].

Definition default_user : t := new (bstr "default").

(** A rule applies to a command. *)
Definition rule_matches (rule cmd : bytes) : bool :=
  match strip_prefix AT rule with
  | Some cat =>
      match command_category cat with
      | Some cmds => bool_decide (cmd ∈ cmds)
      | None => false
      end
  | None => eq_ignore_ascii_case rule cmd
  end.

Fixpoint rules_loop (cmd : bytes) (allowed : bool) (rules : list (bytes * bool)) : bool :=
  match rules with
  | [] => allowed
  | (rule, sign) :: rules => rules_loop cmd (if rule_matches rule cmd then sign else allowed) rules
  end.

Definition command_allowed (u : t) (cmd : bytes) : bool :=
  if all_commands u && bool_decide (command_rules u = []) then true
  else rules_loop cmd false (command_rules u).

Definition pattern_allows (key pattern : bytes) : bool :=
  if bool_decide (pattern = bstr "allkeys") || bool_decide (pattern = bstr "*") then true
  else glob_match (default pattern (strip_prefix TILDE pattern)) key.

Definition key_allowed (u : t) (key : bytes) : bool :=
  if all_keys u && bool_decide (key_patterns u = []) then true
  else existsb (pattern_allows key) (rev (key_patterns u)).

Definition normalize_rule_token (s : bytes) : bytes := to_ascii_lowercase s.

Definition set_enabled (b : bool) (u : t) : t :=
  mk (name u) (password_hash u) b (all_commands u) (all_keys u) (command_rules u) (key_patterns u).
Definition set_password (h : option bytes) (u : t) : t :=
  mk (name u) h (enabled u) (all_commands u) (all_keys u) (command_rules u) (key_patterns u).
Definition push_rule (token : bytes) (sign : bool) (u : t) : t :=
  mk (name u) (password_hash u) (enabled u) false (all_keys u)
    (command_rules u ++ [(normalize_rule_token (to_ascii_lowercase token), sign)]) (key_patterns u).
Definition push_pattern (pat : bytes) (u : t) : t :=
  mk (name u) (password_hash u) (enabled u) (all_commands u) false (command_rules u)
    (filter (fun p => p <> pat) (key_patterns u) ++ [pat]).
Definition reset (u : t) : t := mk (name u) None (enabled u) true true [] [].

(** One token. *)
Definition apply_rule (rule : bytes) (u : t) : AclError + t :=
  if bool_decide (rule = bstr "on") then inr (set_enabled true u)
  else if bool_decide (rule = bstr "off") then inr (set_enabled false u)
  else if bool_decide (rule = bstr "reset") then inr (reset u)
  else if bool_decide (rule = bstr "resetpass") then inr (set_password None u)
  else match strip_prefix GT rule with
  | Some pwd => inr (set_password (Some (hash_password pwd)) u)
  | None =>
  match strip_prefix LT rule with
  | Some _ => inr (set_password None u)
  | None =>
  match strip_prefix HASH rule with
  | Some hash => inr (set_password (Some (to_lowercase hash)) u)
  | None =>
  if bool_decide (rule = bstr "nopass") then inr (set_password None u)
  else match strip_prefix TILDE rule with
  | Some pat => inr (push_pattern pat u)
  | None =>
  match strip_prefix PLUS_SIGN rule with
  | Some rest => inr (push_rule rest true u)
  | None =>
  match strip_prefix MINUS_SIGN rule with
  | Some rest => inr (push_rule rest false u)
  | None =>
  match strip_prefix AT rule with
  | Some _ => inl (UnknownCategory rule)
  | None => inl Syntax
  end end end end end end end.

(** The loop stops at the first bad token; what came before stays applied. *)
Fixpoint apply_rules (rules : list bytes) (u : t) : option AclError * t :=
  match rules with
  | [] => (None, u)
  | rule :: rules =>
      match apply_rule rule u with
      | inr u => apply_rules rules u
      | inl e => (Some e, u)
      end
  end.
End AclUser.
End AclUser.

(** ** The manager *)

Record AclLogEntry := mk_log { timestamp_ms : Z; log_user : bytes; reason : bytes }.

Module AclManager.
Section AclManager.
Context `{PasswordText} `{UnicodeCase}.

Record t := mk { users : gmap bytes AclUser.t; log : list AclLogEntry; open : bool }.

Definition set_users (us : gmap bytes AclUser.t) (m : t) : t := mk us (log m) (open m).

Definition new : t := {| users := {[ bstr "default" := AclUser.default_user ]}; log := []; open := true |}.

Definition is_open (m : t) : bool := open m.

(** The value [recompute_open_locked] stores. *)
Definition unrestricted (us : gmap bytes AclUser.t) : bool :=
  match us !! bstr "default" with
  | Some u =>
      bool_decide (size us = 1) && AclUser.enabled u && AclUser.all_commands u && AclUser.all_keys u
      && bool_decide (AclUser.command_rules u = []) && bool_decide (AclUser.key_patterns u = [])
  | None => false
  end.

Definition recompute_open_locked (m : t) : t := mk (users m) (log m) (unrestricted (users m)).

Definition authenticate (user pass : bytes) (m : t) : option AclError :=
  match users m !! user with
  | None => Some (UnknownUser user)
  | Some u =>
      if negb (AclUser.enabled u) then Some WrongPass
      else match AclUser.password_hash u with
           | Some expected => if bool_decide (expected = hash_password pass) then None else Some WrongPass
           | None => None
           end
  end.

(** The log keeps the last 128 entries. *)
Definition log_denied (now : Z) (user why : bytes) (m : t) : t :=
  let l := log m ++ [mk_log now user why] in
  mk (users m) (if bool_decide (128 < length l) then drop (length l - 128) l else l) (open m).

Fixpoint check_keys (now : Z) (user : bytes) (u : AclUser.t) (keys : list bytes) (m : t) : option AclError * t :=
  match keys with
  | [] => (None, m)
  | k :: keys =>
      if AclUser.key_allowed u k then check_keys now user u keys m
      else (Some (PermissionDenied (bstr "this user has no permissions to access the '" ++ from_utf8_lossy k ++ bstr "' key")),
            log_denied now user (bstr "no permission to access key") m)
  end.

(** The check against the table. *)
Definition check_table (now : Z) (user cmd : bytes) (keys : list bytes) (m : t) : option AclError * t :=
  match users m !! user with
  | None => (Some (UnknownUser user), m)
  | Some u =>
      if negb (AclUser.enabled u) then (Some WrongPass, log_denied now user (bstr "user is disabled") m)
      else if negb (AclUser.command_allowed u cmd) then
        (Some (PermissionDenied (bstr "this user has no permissions to run the '" ++ cmd ++ bstr "' command")),
         log_denied now user (bstr "can't run '" ++ cmd ++ bstr "': no permission") m)
      else check_keys now user u keys m
  end.

Definition check_permission (now : Z) (user cmd : bytes) (keys : list bytes) (m : t) : option AclError * t :=
  if is_open m && bool_decide (user = bstr "default") then (None, m) else check_table now user cmd keys m.

Definition get_user (name : bytes) (m : t) : option AclUser.t := users m !! name.

Definition list_users (m : t) : list bytes := sort_names (elements (dom (users m))).

(** On an error the changed user stays in the table and the flag is not touched. *)
Definition setuser (name : bytes) (rules : list bytes) (m : t) : (AclError + AclUser.t) * t :=
  let user := default (AclUser.new name) (users m !! name) in
  let '(err, user) := AclUser.apply_rules rules user in
  let m := set_users (<[name := user]> (users m)) m in
  match err with
  | Some e => (inl e, m)
  | None => (inr user, recompute_open_locked m)
  end.

Definition deluser (name : bytes) (m : t) : bool * t :=
  if bool_decide (name = bstr "default") then
    (true, recompute_open_locked (set_users (<[bstr "default" := AclUser.default_user]> (delete name (users m))) m))
  else
    let removed := bool_decide (is_Some (users m !! name)) in
    let m := set_users (delete name (users m)) m in
    (removed, if removed then recompute_open_locked m else m).

Definition format_user_line (u : AclUser.t) : bytes :=
  let parts :=
    [bstr "user " ++ AclUser.name u; bstr "on"; bstr "#" ++ default [] (AclUser.password_hash u);
     bstr "~" ++ default (bstr "*") (head (AclUser.key_patterns u))]
    ++ map (fun r => (if r.2 : bool then bstr "+" else bstr "-") ++ r.1) (AclUser.command_rules u) in
  foldr (fun p acc => p ++ (if bool_decide (acc = []) then [] else bstr " " ++ acc)) [] parts.

Definition list_lines (m : t) : list bytes := omap (fun n => format_user_line <$> users m !! n) (list_users m).

Definition acl_log (count : option nat) (m : t) : list AclLogEntry :=
  let n := default (length (log m)) count `min` length (log m) in
  drop (length (log m) - n) (log m).

Definition acl_log_reset (m : t) : t := mk (users m) [] (open m).
End AclManager.
End AclManager.

(** ** Decisions *)

Section Decisions.
Context `{PasswordText} `{UnicodeCase}.
Implicit Types (m : AclManager.t) (u : AclUser.t) (user cmd key : bytes).

(** The last rule that applies to a command. *)
Definition last_rule cmd (rules : list (bytes * bool)) : option bool :=
  snd <$> last (filter (fun r => AclUser.rule_matches r.1 cmd) rules).

Definition may_run u cmd : Prop :=
  last_rule cmd (AclUser.command_rules u) = Some true \/
  (AclUser.all_commands u = true /\ AclUser.command_rules u = []).

Definition may_access u key : Prop :=
  (exists p, p ∈ AclUser.key_patterns u /\ AclUser.pattern_allows key p = true) \/
  (AclUser.all_keys u = true /\ AclUser.key_patterns u = []).

(** What the table says, without the flag. *)
Definition permitted m user cmd (keys : list bytes) : Prop :=
  exists u, AclManager.users m !! user = Some u /\ AclUser.enabled u = true /\ may_run u cmd /\
    forall key, key ∈ keys -> may_access u key.

Lemma rules_loop_last cmd rules : forall allowed,
  AclUser.rules_loop cmd allowed rules = default allowed (last_rule cmd rules).
Proof.
  unfold last_rule. induction rules as [|[rule sign] rules IH]; intros allowed; [done|]. cbn [AclUser.rules_loop].
  rewrite IH, filter_cons. cbn [fst]. destruct (AclUser.rule_matches rule cmd).
  - rewrite decide_True by done. rewrite last_cons. by destruct (last _).
  - rewrite decide_False; [done|]. intros [].
Qed.

Lemma command_allowed_spec u cmd : AclUser.command_allowed u cmd = true <-> may_run u cmd.
Proof.
  unfold AclUser.command_allowed, may_run. rewrite rules_loop_last. case_bool_decide as E.
  - rewrite E. rewrite andb_true_r. destruct (AclUser.all_commands u); naive_solver.
  - rewrite andb_false_r. destruct (last_rule cmd _) as [[]|]; naive_solver.
Qed.

Lemma key_allowed_spec u key : AclUser.key_allowed u key = true <-> may_access u key.
Proof.
  unfold AclUser.key_allowed, may_access. case_bool_decide as E.
  - rewrite E, andb_true_r. destruct (AclUser.all_keys u); simpl; set_solver.
  - rewrite andb_false_r, existsb_exists. setoid_rewrite <- in_rev. setoid_rewrite <- list_elem_of_In. naive_solver.
Qed.

Lemma check_keys_spec now user u keys m :
  (AclManager.check_keys now user u keys m).1 = None <-> forall key, key ∈ keys -> may_access u key.
Proof.
  induction keys as [|k keys IH]; simpl; [set_solver|]. destruct (AclUser.key_allowed u k) eqn:E.
  - apply key_allowed_spec in E. rewrite IH. set_solver.
  - split; [done|]. intros Hk. exfalso. assert (AclUser.key_allowed u k = true); [|congruence].
    apply key_allowed_spec, Hk. by left.
Qed.

Lemma check_table_spec now user cmd keys m :
  (AclManager.check_table now user cmd keys m).1 = None <-> permitted m user cmd keys.
Proof.
  unfold AclManager.check_table, permitted. destruct (AclManager.users m !! user) as [u|]; [|split; [done|by intros (u' & ? & _)]].
  destruct (AclUser.enabled u) eqn:Ee; cbn [negb]; [|split; [done|by intros (u' & [= <-] & ? & _); congruence]].
  destruct (AclUser.command_allowed u cmd) eqn:Ec; simpl.
  - rewrite check_keys_spec. apply command_allowed_spec in Ec. naive_solver.
  - split; [done|]. intros (u' & [= <-] & _ & Hr & _). apply command_allowed_spec in Hr. congruence.
Qed.

(** ** Histories *)

Inductive acl_op :=
  | SetUser (name : bytes) (rules : list bytes)
  | DelUser (name : bytes)
  | CheckPermission (now : Z) (user cmd : bytes) (keys : list bytes)
  | ResetLog.

Definition acl_exec (op : acl_op) m : AclManager.t :=
  match op with
  | SetUser name rules => (AclManager.setuser name rules m).2
  | DelUser name => (AclManager.deluser name m).2
  | CheckPermission now user cmd keys => (AclManager.check_permission now user cmd keys m).2
  | ResetLog => AclManager.acl_log_reset m
  end.

(** Every SETUSER was accepted. *)
Fixpoint accepted (h : list acl_op) m : Prop :=
  match h with
  | [] => True
  | op :: h =>
      match op with SetUser name rules => exists u, (AclManager.setuser name rules m).1 = inr u | _ => True end /\
      accepted h (acl_exec op m)
  end.

Record acl_ok m : Prop := mk_acl_ok {
  acl_flag : AclManager.open m = AclManager.unrestricted (AclManager.users m);
  acl_default : is_Some (AclManager.users m !! bstr "default");
  acl_log_bound : length (AclManager.log m) <= 128;
}.

Lemma log_denied_ok now user why m : acl_ok m -> acl_ok (AclManager.log_denied now user why m).
Proof.
  intros [F D L]. split; [done|done|]. unfold AclManager.log_denied. simpl.
  case_bool_decide; rewrite ?length_drop; lia.
Qed.

Lemma check_keys_ok now user u keys m : acl_ok m -> acl_ok (AclManager.check_keys now user u keys m).2.
Proof.
  intros Ok. induction keys as [|k keys IH]; [done|]. simpl. destruct (AclUser.key_allowed u k); [done|].
  by apply log_denied_ok.
Qed.

Lemma check_permission_ok now user cmd keys m : acl_ok m -> acl_ok (AclManager.check_permission now user cmd keys m).2.
Proof.
  intros Ok. unfold AclManager.check_permission, AclManager.check_table. destruct (_ && _); [done|].
  destruct (AclManager.users m !! user) as [u|]; [|done]. destruct (AclUser.enabled u); simpl; [|by apply log_denied_ok].
  destruct (AclUser.command_allowed u cmd); simpl; [by apply check_keys_ok|by apply log_denied_ok].
Qed.

Lemma acl_run_ok h : forall m, acl_ok m -> accepted h m -> acl_ok (foldl (fun m op => acl_exec op m) m h).
Proof.
  induction h as [|op h IH]; intros m Ok; [done|]. intros [Hop Ha]. simpl. apply IH; [|done].
  destruct op as [name rules|name|now user cmd keys|]; cbn [acl_exec] in *.
  - unfold AclManager.setuser in *. destruct (AclUser.apply_rules rules _) as [[e|] u]; [by destruct Hop|].
    split; [done| |apply Ok]. simpl. destruct (acl_default _ Ok) as [x Hx].
    destruct (decide (name = bstr "default")) as [->|]; [rewrite lookup_insert_eq; eauto|rewrite lookup_insert_ne; eauto].
  - unfold AclManager.deluser. case_bool_decide as E; [split; [done| |apply Ok]; simpl; rewrite lookup_insert_eq; eauto|].
    destruct (AclManager.users m !! name) as [u|] eqn:En; simpl.
    + split; [done| |apply Ok]. simpl. rewrite lookup_delete_ne by done. apply Ok.
    + rewrite delete_id by done. by destruct m.
  - by apply check_permission_ok.
  - destruct Ok. split; [done|done|simpl; lia].
Qed.

Lemma unrestricted_permits m cmd keys : AclManager.unrestricted (AclManager.users m) = true -> permitted m (bstr "default") cmd keys.
Proof.
  unfold AclManager.unrestricted, permitted. destruct (AclManager.users m !! bstr "default") as [u|]; [|done].
  rewrite !andb_true_iff, !bool_decide_eq_true. intros (((((_ & ?) & ?) & ?) & ?) & ?). exists u.
  split_and!; [done|done|by right|]. intros key _. by right.
Qed.

End Decisions.

(** ** Runs *)

Section Sample.
(** Any hash will do to run the checks. *)
#[local] Instance plain_text : PasswordText := {| hash_password := id |}.
#[local] Existing Instance ascii_case.

Definition sample_acl : list acl_op :=
  [SetUser (bstr "alice") [bstr "+@read"; bstr "~user:*"; bstr ">secret"]].


(** A refused SETUSER leaves the changed user behind without the flag: [default]
    is disabled, and still let through. *)
Lemma refused_setuser_leaves_flag_stale :
  let m := (AclManager.setuser (bstr "default") [bstr "off"; bstr "bogus"] AclManager.new).2 in
  (AclManager.setuser (bstr "default") [bstr "off"; bstr "bogus"] AclManager.new).1 = inl Syntax /\
  (AclManager.check_permission 0 (bstr "default") (bstr "FLUSHALL") [] m).1 = None /\
  (AclManager.check_table 0 (bstr "default") (bstr "FLUSHALL") [] m).1 = Some WrongPass.
Proof. split_and!; vm_compute; reflexivity. Qed.

(** [+@all] does not cover commands that are in no category. *)
Lemma all_category_misses_sinter :
  let m := (AclManager.setuser (bstr "bob") [bstr "+@all"] AclManager.new).2 in
  (AclManager.check_permission 0 (bstr "bob") (bstr "SINTER") [] m).1 <> None.
Proof. vm_compute. discriminate. Qed.

(** [reset] gives every command and every key, without a password. *)
Lemma reset_grants_everything u cmd key :
  let u' := AclUser.reset u in
  AclUser.command_allowed u' cmd = true /\ AclUser.key_allowed u' key = true /\ AclUser.password_hash u' = None.
Proof. done. Qed.
End Sample.
