(* ===== verification/ScanSelect.v ===== *)
(** * ScanSelect: pages of HSCAN, SSCAN and ZSCAN ([command/mod.rs])

    [scan_select_page] picks the page with a bounded max-heap in one pass; the
    theorem says that it is the page that sorting the whole collection and
    slicing it gives.  [std]'s [BinaryHeap] is the list of its elements in
    ascending order: the maximum is the last one. *)

From S2P Require Import Prelude Keyspace KeyspaceInvariant Shards ScanSpec.

Definition MAX_SCAN_PAGE : nat := N.to_nat 10000.
Definition MAX_RANDOM_SAMPLE : nat := N.to_nat 100000.

Lemma max_scan_page_pos : 3 < MAX_SCAN_PAGE.
Proof. unfold MAX_SCAN_PAGE. lia. Qed.
#[global] Opaque MAX_SCAN_PAGE.

Record ScanPage (T : Type) := mk_page { items : list T; next_cursor : Z }.
Arguments mk_page {T} _ _.
Arguments items {T} _.
Arguments next_cursor {T} _.

Section Select.
Context {T : Type} (elem : T -> bytes).

(** [Cand]: the comparison key and the item. *)
Definition cand : Type := (Z * bytes) * T.

(** ** The heap *)

Fixpoint heap_push (c : cand) (h : list cand) : list cand :=
  match h with
  | [] => [c]
  | x :: h => if decide (scan_le x.1 c.1) then x :: heap_push c h else c :: x :: h
  end.

Definition heap_peek (h : list cand) : option cand := last h.
Definition heap_pop (h : list cand) : list cand := removelast h.

(** ** The pass *)

Definition cand_of (item : T) : cand := ((scan_cursor_token (elem item), elem item), item).

Definition select_step (cursor : option Z) (limit : nat) (st : list cand * bool) (item : T) : may_panic (list cand * bool) :=
  let '(heap, more) := st in
  let token := scan_cursor_token (elem item) in
  if match cursor with Some c => bool_decide (token <= c)%Z | None => false end then Some st
  else if bool_decide (length heap < limit) then Some (heap_push (cand_of item) heap, more)
  else
    root ← heap_peek heap;
    let worse := bool_decide (root.1.1 < token)%Z
                 || bool_decide (token = root.1.1) && bool_decide (bytes_cmp (elem item) root.1.2 = Gt) in
    if (worse : bool) then Some (heap, true)
    else Some (heap_pop (heap_push (cand_of item) heap), true).

Fixpoint select_loop (cursor : option Z) (limit : nat) (st : list cand * bool) (its : list T) : may_panic (list cand * bool) :=
  match its with
  | [] => Some st
  | item :: its => st ← select_step cursor limit st item; select_loop cursor limit st its
  end.

(** [while let Some(c) = heap.pop()]. *)
Definition pop_all (h : list cand) : list cand := rev h.

Definition scan_select_page (its : list T) (cursor : option Z) (limit : nat) : may_panic (ScanPage T) :=
  let limit := limit `min` MAX_SCAN_PAGE in
  if bool_decide (limit = 0) then Some (mk_page [] 0)
  else
    '(heap, more) ← select_loop cursor limit ([], false) its;
    let ordered := rev (pop_all heap) in
    let next := match last ordered with
                | Some c => if (more : bool) then c.1.1 else 0%Z
                | None => 0%Z
                end in
    Some (mk_page ordered.*2 next).

(** ** The reference: sort, then slice *)

Definition past (cursor : option Z) (p : Z * bytes) : Prop :=
  match cursor with Some c => (c < p.1)%Z | None => True end.

#[local] Instance past_dec cursor p : Decision (past cursor p).
Proof. unfold past. destruct cursor; apply _. Defined.

Definition sorted_keys (its : list T) (cursor : option Z) : list (Z * bytes) :=
  merge_sort scan_le (filter (past cursor) (map (fun x => (cand_of x).1) its)).

(** ** Insertion into a sorted list *)

Fixpoint sinsert (p : Z * bytes) (l : list (Z * bytes)) : list (Z * bytes) :=
  match l with
  | [] => [p]
  | x :: l => if decide (scan_le x p) then x :: sinsert p l else p :: x :: l
  end.

Lemma heap_push_keys c h : (heap_push c h).*1 = sinsert c.1 h.*1.
Proof. induction h as [|x h IH]; [done|]. simpl. case_decide; simpl; [by f_equal|done]. Qed.

Lemma heap_push_perm c h : heap_push c h ≡ₚ c :: h.
Proof.
  induction h as [|x h IH]; [done|]. simpl. case_decide; [|done]. rewrite IH. apply Permutation_swap.
Qed.

Lemma sinsert_perm p l : sinsert p l ≡ₚ p :: l.
Proof. induction l as [|x l IH]; [done|]. simpl. case_decide; [|done]. rewrite IH. apply Permutation_swap. Qed.

Lemma sinsert_sorted p l : StronglySorted scan_le l -> StronglySorted scan_le (sinsert p l).
Proof.
  induction 1 as [|x l S IH F]; [by repeat constructor|]. simpl. case_decide as Hx.
  - constructor; [done|]. rewrite sinsert_perm. by constructor.
  - assert (Hp : scan_le p x) by (destruct (total deadline_le p x); [done|by destruct Hx]).
    constructor; [by constructor|]. constructor; [done|]. eapply Forall_impl; [exact F|]. intros y Hy.
    by apply (deadline_le_trans p x y).
Qed.

Lemma sorted_keys_snoc its item cursor : past cursor (cand_of item).1 ->
  sorted_keys (its ++ [item]) cursor = sinsert (cand_of item).1 (sorted_keys its cursor).
Proof.
  intros Hp. unfold sorted_keys. apply scan_sorted_unique; [apply scan_sorted|apply sinsert_sorted, scan_sorted|].
  rewrite sinsert_perm, !merge_sort_Permutation, map_app, filter_app. simpl. rewrite filter_cons_True by done.
  rewrite filter_nil. by rewrite Permutation_app_comm.
Qed.

Lemma sorted_keys_skip its item cursor : ~ past cursor (cand_of item).1 ->
  sorted_keys (its ++ [item]) cursor = sorted_keys its cursor.
Proof.
  intros Hp. unfold sorted_keys. rewrite map_app, filter_app. simpl. rewrite filter_cons_False by done.
  by rewrite filter_nil, app_nil_r.
Qed.

(** The first [n] of an insertion depend on the first [n] only. *)
Lemma take_sinsert n p l : take n (sinsert p l) = take n (sinsert p (take n l)).
Proof.
  revert l. induction n as [|n IH]; intros l; [done|]. destruct l as [|x l]; [done|]. simpl.
  case_decide; simpl; [by rewrite IH|]. destruct n as [|n]; [done|]. simpl.
  rewrite take_take. do 3 f_equal. lia.
Qed.

Lemma sinsert_last p l r : StronglySorted scan_le (l ++ [r]) -> scan_le r p -> sinsert p (l ++ [r]) = l ++ [r] ++ [p].
Proof.
  intros S Hr. induction l as [|x l IH]; simpl; [by rewrite decide_True|].
  apply StronglySorted_inv in S as [S F]. rewrite IH by done. rewrite decide_True; [done|].
  rewrite Forall_forall in F. apply (deadline_le_trans x r p); [|done]. apply F. set_solver.
Qed.

(** ** The pass keeps the first keys *)

Section Pass.
Context (cursor : option Z) (limit : nat) (Hl : 0 < limit).

(** The heap after a prefix of the collection. *)
Definition kept (done : list T) (st : list cand * bool) : Prop :=
  st.1.*1 = take limit (sorted_keys done cursor) /\
  st.2 = bool_decide (limit < length (sorted_keys done cursor)) /\
  st.1.*2 ⊆+ done /\
  Forall (fun c => c = cand_of c.2) st.1.

Lemma key_le_root (p r : Z * bytes) :
  bool_decide (r.1 < p.1)%Z || bool_decide (p.1 = r.1) && bool_decide (bytes_cmp p.2 r.2 = Gt) = negb (bool_decide (scan_le p r)).
Proof.
  destruct p as [m a], r as [n b]. unfold scan_le, deadline_le. cbn [fst snd].
  repeat case_bool_decide; simpl; try done; exfalso; naive_solver lia.
Qed.

Lemma step_kept done st item : kept done st ->
  exists st', select_step cursor limit st item = Some st' /\ kept (done ++ [item]) st'.
Proof using Hl.
  intros (Hk & Hm & Hs & Hc). destruct st as [heap more]. cbn [fst snd] in *. unfold select_step.
  set (p := (cand_of item).1). assert (Hsub : heap.*2 ⊆+ done ++ [item]) by (by apply submseteq_inserts_r).
  destruct (decide (past cursor p)) as [Hp|Hp].
  2: { replace (match cursor with Some c => bool_decide (scan_cursor_token (elem item) <= c)%Z | None => false end) with true.
       - eexists. split; [done|]. unfold kept. by rewrite sorted_keys_skip.
       - symmetry. unfold past in Hp. destruct cursor as [c|]; [|done]. apply bool_decide_eq_true. simpl in Hp. lia. }
  replace (match cursor with Some c => bool_decide (scan_cursor_token (elem item) <= c)%Z | None => false end) with false.
  2: { symmetry. unfold past in Hp. destruct cursor as [c|]; [|done]. apply bool_decide_eq_false. simpl in Hp. lia. }
  unfold kept. rewrite sorted_keys_snoc by done. fold p. set (S := sorted_keys done cursor) in *.
  assert (HS : StronglySorted scan_le S) by apply scan_sorted.
  assert (Hlen : length (sinsert p S) = Datatypes.S (length S)) by (by rewrite (Permutation_length (sinsert_perm p S))).
  assert (Hh : length heap = limit `min` length S) by (transitivity (length heap.*1); [by rewrite length_fmap|by rewrite Hk, length_take]).
  assert (Hpush : (heap_push (cand_of item) heap).*2 ⊆+ done ++ [item]).
  { rewrite (fmap_Permutation snd _ _ (heap_push_perm _ _)). simpl. rewrite Permutation_app_comm. simpl.
    by apply submseteq_skip. }
  assert (Hcs : Forall (fun c => c = cand_of c.2) (heap_push (cand_of item) heap)).
  { rewrite (heap_push_perm (cand_of item) heap). by constructor. }
  destruct (decide (length heap < limit)) as [Hfull|Hfull].
  - rewrite (bool_decide_eq_true_2 (length heap < limit)) by done.
    eexists. split; [done|]. cbn [fst snd]. rewrite heap_push_keys, Hk. fold p.
    rewrite (take_ge S) by lia. rewrite take_ge by lia. split_and!; [done| |done|done].
    rewrite Hm. apply bool_decide_ext. lia.
  - rewrite (bool_decide_eq_false_2 (length heap < limit)) by done.
    destruct (last heap) as [root|] eqn:Hroot; [|apply last_None in Hroot; subst heap; cbn [length] in Hfull; lia].
    unfold heap_peek. rewrite Hroot. mstep. apply last_Some in Hroot as [h' ->].
    assert (Hmore : true = bool_decide (limit < length (sinsert p S))) by (symmetry; apply bool_decide_eq_true; lia).
    assert (HT : take limit S = h'.*1 ++ [root.1]) by (by rewrite <- Hk, fmap_app).
    assert (HST : StronglySorted scan_le (h'.*1 ++ [root.1])).
    { rewrite <- HT. rewrite <- (take_drop limit S) in HS. by apply StronglySorted_app_1_l in HS. }
    pose proof (key_le_root p root.1) as E. cbn [p cand_of fst snd] in E. rewrite E. clear E. fold p.
    destruct (decide (scan_le p root.1)) as [Hr|Hr].
    + rewrite bool_decide_eq_true_2 by done. cbn [negb]. eexists. split; [done|]. cbn [fst snd].
      set (X := heap_push (cand_of item) (h' ++ [root])) in *. unfold heap_pop. rewrite removelast_firstn_len.
      assert (HX : Init.Nat.pred (length X) = limit).
      { unfold X. rewrite (Permutation_length (heap_push_perm _ _)). simpl. lia. }
      rewrite HX. split_and!; [|done| |by apply Forall_take].
      * rewrite fmap_take. unfold X. rewrite heap_push_keys, Hk. fold p. by rewrite <- take_sinsert.
      * etrans; [|exact Hpush]. apply sublist_submseteq. rewrite fmap_take. apply sublist_take.
    + rewrite bool_decide_eq_false_2 by done. cbn [negb]. eexists. split; [done|]. cbn [fst snd].
      split_and!; [|done|done|done]. rewrite take_sinsert, HT.
      assert (Hrp : scan_le root.1 p) by (destruct (total deadline_le p root.1); done).
      rewrite sinsert_last, app_assoc by done. rewrite take_app_length'; [by rewrite fmap_app|].
      rewrite <- HT, length_take. lia.
Qed.

Lemma loop_kept its : forall done st, kept done st ->
  exists st', select_loop cursor limit st its = Some st' /\ kept (done ++ its) st'.
Proof using Hl.
  induction its as [|item its IH]; intros done st Hk; [exists st; by rewrite app_nil_r|].
  destruct (step_kept done st item Hk) as (st1 & E1 & K1). destruct (IH _ _ K1) as (st2 & E2 & K2).
  exists st2. cbn [select_loop]. rewrite E1. mstep. split; [done|]. by rewrite <- app_assoc in K2.
Qed.
End Pass.

(** The one-pass selection behind HSCAN, SSCAN and ZSCAN returns what sorting
    the whole collection by (token, bytes) and slicing it returns: the elements of
    the page are the first [limit] past the cursor in that order, they are elements
    of the collection, and the cursor is the token of the last of them if any
    element is left and zero otherwise.  It never panics, and a page never holds
    more than 10000 elements. *)
Theorem select_page_is_sort_and_slice its cursor limit : 0 < limit ->
  let n := limit `min` MAX_SCAN_PAGE in
  let keys := sorted_keys its cursor in
  exists page, scan_select_page its cursor limit = Some page /\
    map elem (items page) = (take n keys).*2 /\ items page ⊆+ its /\
    next_cursor page = (if bool_decide (n < length keys) then from_option fst 0%Z (last (take n keys)) else 0%Z).
Proof.
  intros Hl n keys. assert (Hn : 0 < n) by (unfold n; pose proof max_scan_page_pos; lia).
  unfold scan_select_page. fold n. rewrite bool_decide_eq_false_2 by lia.
  destruct (loop_kept cursor n Hn its [] ([], false)) as ([heap more] & E & Hk & Hm & Hs & Hc).
  { unfold kept, sorted_keys. split_and!; [by destruct n|symmetry; apply bool_decide_eq_false; simpl; lia|done|done]. }
  rewrite E. mstep. cbn [fst snd app] in *. fold keys in Hk, Hm. unfold pop_all. rewrite rev_involutive.
  assert (Hlast : fst <$> last heap = last (take n keys)) by (by rewrite <- Hk, fmap_last).
  eexists. split; [done|]. cbn [items next_cursor]. split_and!; [|done|].
  - rewrite <- Hk, <- list_fmap_compose. change (map elem heap.*2) with (elem <$> heap.*2).
    rewrite <- list_fmap_compose. apply list_fmap_ext. intros i c Hi. cbn.
    rewrite Forall_lookup in Hc. specialize (Hc i c Hi). by rewrite Hc at 2.
  - rewrite <- Hm, <- Hlast. destruct (last heap); by destruct more.
Qed.
End Select.

(** ** A hash of four fields *)

Definition sample_fields : list bytes := [bstr "a"; bstr "b"; bstr "c"; bstr "d"].

Lemma select_page_is_sort_and_slice_witness :
  exists page, scan_select_page id sample_fields None 3 = Some page /\
    length (items page) = 3 /\ next_cursor page <> 0%Z /\ items page ⊆+ sample_fields.
Proof.
  destruct (select_page_is_sort_and_slice id sample_fields None 3) as (page & E & M & S & C); [lia|].
  exists page. split; [exact E|]. rewrite <- (length_map id (items page)), M, C.
  assert (Hn : 3 `min` MAX_SCAN_PAGE = 3) by (pose proof max_scan_page_pos; lia).
  rewrite Hn. split; [vm_compute; reflexivity|]. split; [vm_compute; discriminate|exact S].
Defined.
