(* ===== verification/Lcs.v ===== *)
(** * Lcs: the longest common subsequence of the LCS command ([command/string.rs])

    [compute_lcs] fills a table by rows, walks back from its last corner, and
    collapses the alignment into ranges.  The theorem says that the string is a
    longest common subsequence and that the ranges spell it. *)

From S2P Require Import Prelude.

(** ** The table *)

(** One row, from the row above: [left] is the value just written. *)
Fixpoint lcs_row (x : byte) (b : bytes) (prev : list nat) (left : nat) : list nat :=
  match b, prev with
  | y :: b, diag :: ((up :: _) as prev) =>
      let v := if bool_decide (x = y) then diag + 1 else up `max` left in
      v :: lcs_row x b prev v
  | _, _ => []
  end.

Fixpoint lcs_rows (a b : bytes) (prev : list nat) : list (list nat) :=
  prev :: match a with
          | [] => []
          | x :: a => lcs_rows a b (0 :: lcs_row x b prev 0)
          end.

Definition lcs_table (a b : bytes) : list (list nat) := lcs_rows a b (replicate (length b + 1) 0).

(** ** The way back

    Each turn of the loop lowers [i + j]; fuel above that sum is enough. *)

Fixpoint backtrack (fuel : nat) (a b : bytes) (dp : list (list nat)) (i j : nat) : may_panic (list (nat * nat)) :=
  match fuel with
  | 0 => None
  | S fuel =>
      if bool_decide (0 < i) && bool_decide (0 < j) then
        x ← a !! (i - 1);
        y ← b !! (j - 1);
        if bool_decide (x = y) then
          ps ← backtrack fuel a b dp (i - 1) (j - 1); Some ((i - 1, j - 1) :: ps)
        else
          up ← dp !! (i - 1) ≫= (.!! j);
          left ← dp !! i ≫= (.!! (j - 1));
          if bool_decide (left <= up) then backtrack fuel a b dp (i - 1) j else backtrack fuel a b dp i (j - 1)
      else Some []
  end.

(** ** The ranges *)

Definition LcsMatch : Type := nat * nat * nat * nat.

Fixpoint collapse (a0 a1 b0 b1 : nat) (pairs : list (nat * nat)) : list LcsMatch :=
  match pairs with
  | [] => [(a0, a1, b0, b1)]
  | (ai, bi) :: pairs =>
      if bool_decide (ai = a1) && bool_decide (bi = b1) then collapse a0 (a1 + 1) b0 (b1 + 1) pairs
      else (a0, a1, b0, b1) :: collapse ai (ai + 1) bi (bi + 1) pairs
  end.

Definition match_ranges (pairs : list (nat * nat)) : list LcsMatch :=
  match pairs with
  | [] => []
  | (a0, b0) :: pairs => collapse a0 (a0 + 1) b0 (b0 + 1) pairs
  end.

Definition compute_lcs (a b : bytes) : may_panic (bytes * list LcsMatch) :=
  let dp := lcs_table a b in
  pushed ← backtrack (S (length a + length b)) a b dp (length a) (length b);
  let pairs := rev pushed in
  lcs_bytes ← mapM (fun p => a !! p.1) pairs;
  Some (lcs_bytes, match_ranges pairs).

(** ** The recurrence *)

Fixpoint llen (xs ys : bytes) {struct xs} : nat :=
  match xs with
  | [] => 0
  | x :: xs' =>
      (fix go ys := match ys with
                    | [] => 0
                    | y :: ys' => if decide (x = y) then S (llen xs' ys') else llen xs' ys `max` go ys'
                    end) ys
  end.

Lemma llen_cons x xs y ys : llen (x :: xs) (y :: ys)
  = if decide (x = y) then S (llen xs ys) else llen xs (y :: ys) `max` llen (x :: xs) ys.
Proof. done. Qed.

Lemma llen_nil_r xs : llen xs [] = 0.
Proof. by destruct xs. Qed.

(** No common subsequence is longer. *)
Lemma llen_max xs : forall ys s, s `sublist_of` xs -> s `sublist_of` ys -> length s <= llen xs ys.
Proof.
  induction xs as [|x xs IHx]; intros ys s Hx; [apply sublist_nil_r in Hx as ->; simpl; lia|].
  revert s Hx. induction ys as [|y ys IHy]; intros s Hx Hy; [apply sublist_nil_r in Hy as ->; simpl; lia|].
  rewrite llen_cons. destruct (decide (x = y)) as [<-|Hne].
  - destruct s as [|c t]; [simpl; lia|]. simpl. apply le_n_S, IHx.
    + apply sublist_cons_r in Hx as [Hx|(? & [= <- <-] & Hx)]; [|done]. etrans; [|exact Hx]. by apply sublist_cons.
    + apply sublist_cons_r in Hy as [Hy|(? & [= <- <-] & Hy)]; [|done]. etrans; [|exact Hy]. by apply sublist_cons.
  - apply sublist_cons_r in Hx as [Hx|(t & -> & Hx)]; [pose proof (IHx (y :: ys) s Hx Hy); lia|].
    apply sublist_cons_r in Hy as [Hy|(? & [= -> _] & _)]; [|done].
    assert (length (x :: t) <= llen (x :: xs) ys); [|lia]. apply IHy; [by apply sublist_skip|done].
Qed.

(** ** The table holds the recurrence *)

(** The values for the prefixes of [bs], after [rb]. *)
Fixpoint vals (ra rb bs : bytes) : list nat :=
  llen ra rb :: match bs with [] => [] | y :: bs => vals ra (y :: rb) bs end.

Lemma lcs_row_vals x ra bs : forall rb,
  llen (x :: ra) rb :: lcs_row x bs (vals ra rb bs) (llen (x :: ra) rb) = vals (x :: ra) rb bs.
Proof.
  induction bs as [|y bs IH]; intros rb; [done|]. cbn [vals]. f_equal. rewrite <- IH. clear IH.
  destruct bs as [|z bs]; cbn [lcs_row vals];
    (rewrite llen_cons; destruct (decide (x = y)); [rewrite bool_decide_eq_true_2 by done|rewrite bool_decide_eq_false_2 by done]);
    rewrite ?Nat.add_1_r; done.
Qed.

Lemma lcs_rows_vals a b : forall ra i, i <= length a ->
  lcs_rows a b (vals ra [] b) !! i = Some (vals (rev (take i a) ++ ra) [] b).
Proof.
  induction a as [|x a IH]; intros ra i Hi; [destruct i; [done|simpl in Hi; lia]|].
  destruct i as [|i]; [done|]. cbn [lcs_rows lookup list_lookup].
  pose proof (lcs_row_vals x ra b []) as E. rewrite llen_nil_r in E. rewrite E.
  rewrite IH by (simpl in Hi; lia). simpl. by rewrite <- app_assoc.
Qed.

Lemma vals_lookup ra bs : forall rb j, j <= length bs -> vals ra rb bs !! j = Some (llen ra (rev (take j bs) ++ rb)).
Proof.
  induction bs as [|y bs IH]; intros rb j Hj; [destruct j; [done|simpl in Hj; lia]|].
  destruct j as [|j]; [done|]. cbn [vals lookup list_lookup]. rewrite IH by (simpl in Hj; lia). simpl.
  by rewrite <- app_assoc.
Qed.

Lemma vals_zero bs : forall rb, vals [] rb bs = replicate (length bs + 1) 0.
Proof. induction bs as [|y bs IH]; intros rb; [done|]. cbn [vals length Nat.add replicate]. by rewrite IH. Qed.

Definition prefix_lcs (a b : bytes) (i j : nat) : nat := llen (rev (take i a)) (rev (take j b)).

Lemma lcs_table_spec a b i j : i <= length a -> j <= length b ->
  lcs_table a b !! i ≫= (.!! j) = Some (prefix_lcs a b i j).
Proof.
  intros Hi Hj. unfold lcs_table. rewrite <- (vals_zero b []), lcs_rows_vals by done. simpl.
  rewrite vals_lookup by done. unfold prefix_lcs. by rewrite !app_nil_r.
Qed.

(** ** The way back spells a longest common subsequence *)

(** Every pair points at the same byte of both strings. *)
Definition spells (a b : bytes) : list (nat * nat) -> bytes -> Prop :=
  Forall2 (fun p c => a !! p.1 = Some c /\ b !! p.2 = Some c).

Lemma rev_take_S (l : bytes) i x : l !! i = Some x -> rev (take (S i) l) = x :: rev (take i l).
Proof. intros E. rewrite (take_S_r _ _ _ E), rev_app_distr. done. Qed.

Lemma prefix_lcs_step a b i j x y : a !! i = Some x -> b !! j = Some y ->
  prefix_lcs a b (S i) (S j)
  = if decide (x = y) then S (prefix_lcs a b i j) else prefix_lcs a b i (S j) `max` prefix_lcs a b (S i) j.
Proof. intros Ea Eb. unfold prefix_lcs. rewrite (rev_take_S a i x), (rev_take_S b j y) by done. apply llen_cons. Qed.

Lemma backtrack_spec a b fuel : forall i j, i <= length a -> j <= length b -> i + j < fuel ->
  exists ps s, backtrack fuel a b (lcs_table a b) i j = Some ps /\ spells a b ps s
    /\ s `sublist_of` rev (take i a) /\ s `sublist_of` rev (take j b) /\ length s = prefix_lcs a b i j.
Proof.
  induction fuel as [|fuel IH]; intros i j Hi Hj Hf; [lia|].
  destruct i as [|i]; [exists [], []; split_and!; try done; first [apply Forall2_nil_2|apply sublist_nil_l]|].
  destruct j as [|j].
  { exists [], []. split_and!; [done|apply Forall2_nil_2|apply sublist_nil_l..|].
    unfold prefix_lcs. by rewrite take_0, llen_nil_r. }
  destruct (lookup_lt_is_Some_2 a i ltac:(lia)) as [x Ex], (lookup_lt_is_Some_2 b j ltac:(lia)) as [y Ey].
  cbn [backtrack]. rewrite !bool_decide_eq_true_2 by lia. cbn [andb]. rewrite !Nat.sub_succ, !Nat.sub_0_r.
  rewrite Ex, Ey. cbn [mbind option_bind]. rewrite (prefix_lcs_step a b i j x y) by done.
  rewrite (rev_take_S a i x), (rev_take_S b j y) by done. destruct (decide (x = y)) as [<-|Hne].
  - rewrite bool_decide_eq_true_2 by done. destruct (IH i j) as (ps & s & -> & Hs & Ha & Hb & Hl); [lia..|].
    exists ((i, j) :: ps), (x :: s). split_and!; [done| |by apply sublist_skip..|simpl; lia].
    by apply Forall2_cons.
  - rewrite bool_decide_eq_false_2 by done. rewrite (lcs_table_spec a b i (S j)), (lcs_table_spec a b (S i) j) by lia.
    cbn [mbind option_bind]. case_bool_decide.
    + destruct (IH i (S j)) as (ps & s & -> & Hs & Ha & Hb & Hl); [lia..|]. rewrite (rev_take_S b j y) in Hb by done.
      exists ps, s. split_and!; [done..|by apply sublist_cons|done|lia].
    + destruct (IH (S i) j) as (ps & s & -> & Hs & Ha & Hb & Hl); [lia..|]. rewrite (rev_take_S a i x) in Ha by done.
      exists ps, s. split_and!; [done..|by apply sublist_cons|lia].
Qed.

(** ** The ranges cover the pairs *)

(** The pairs a range stands for. *)
Definition expand (m : LcsMatch) : list (nat * nat) :=
  let '(a0, a1, b0, b1) := m in zip (seq a0 (a1 - a0)) (seq b0 (b1 - b0)).

Lemma collapse_expand pairs : forall a0 b0 n,
  concat (expand <$> collapse a0 (a0 + S n) b0 (b0 + S n) pairs) = zip (seq a0 (S n)) (seq b0 (S n)) ++ pairs.
Proof.
  assert (E : forall a0 b0 n, expand (a0, a0 + n, b0, b0 + n) = zip (seq a0 n) (seq b0 n)).
  { intros. cbn [expand]. do 2 f_equal; f_equal; lia. }
  induction pairs as [|[ai bi] pairs IH]; intros a0 b0 n; [cbn [collapse fmap list_fmap concat]; by rewrite E|].
  cbn [collapse]. destruct (bool_decide (ai = a0 + S n) && bool_decide (bi = b0 + S n)) eqn:Eq.
  2: { cbn [fmap list_fmap concat]. rewrite E. f_equal. apply (IH ai bi 0). }
  apply andb_true_iff in Eq as [->%bool_decide_eq_true ->%bool_decide_eq_true].
  rewrite <- !Nat.add_assoc, Nat.add_1_r, (IH a0 b0 (S n)), (seq_S (S n) a0), (seq_S (S n) b0).
  rewrite zip_with_app by (by rewrite !length_seq). by rewrite <- app_assoc.
Qed.

Lemma match_ranges_expand pairs : concat (expand <$> match_ranges pairs) = pairs.
Proof. destruct pairs as [|[a0 b0] pairs]; [done|]. apply (collapse_expand pairs a0 b0 0). Qed.

Lemma collapse_len_eq pairs : forall a0 b0 n,
  Forall (fun m : LcsMatch => let '(a0, a1, b0, b1) := m in a0 < a1 /\ b0 < b1 /\ a1 - a0 = b1 - b0)
    (collapse a0 (a0 + S n) b0 (b0 + S n) pairs).
Proof.
  induction pairs as [|[ai bi] pairs IH]; intros a0 b0 n; cbn [collapse]; [constructor; [lia|done]|].
  do 2 case_bool_decide; cbn [andb]; [|constructor; [lia|]; by apply (IH ai bi 0)..].
  rewrite <- !Nat.add_assoc, Nat.add_1_r. apply IH.
Qed.

Lemma match_ranges_len_eq pairs :
  Forall (fun m : LcsMatch => let '(a0, a1, b0, b1) := m in a0 < a1 /\ b0 < b1 /\ a1 - a0 = b1 - b0) (match_ranges pairs).
Proof. destruct pairs as [|[a0 b0] pairs]; [constructor|]. apply (collapse_len_eq pairs a0 b0 0). Qed.

Lemma sublist_rev (s l : bytes) : s `sublist_of` l -> rev s `sublist_of` rev l.
Proof.
  induction 1 as [|x s l H IH|x s l H IH]; [done|..]; simpl; [by apply sublist_app|].
  by apply sublist_inserts_r.
Qed.

Lemma spells_rev a b ps s : spells a b ps s -> spells a b (rev ps) (rev s).
Proof. intros H. rewrite !rev_alt. by apply (Forall2_reverse _ ps s). Qed.

Lemma spells_bytes a b ps s : spells a b ps s -> mapM (fun p => a !! p.1) ps = Some s.
Proof. intros H. apply mapM_Some_2. eapply Forall2_impl; [exact H|]. intros p c. by intros [Hc _]. Qed.

(** [compute_lcs] never indexes out of bounds and always returns.  The
    string it returns is a subsequence of both inputs, and no common
    subsequence of them is longer.  Expanded, the ranges it returns point, byte
    for byte, at that string in the first input and in the second; every range
    is non-empty and as long in the one as in the other. *)
Theorem compute_lcs_is_longest (a b : bytes) :
  exists lcs ranges, compute_lcs a b = Some (lcs, ranges)
    /\ lcs `sublist_of` a /\ lcs `sublist_of` b
    /\ (forall s, s `sublist_of` a -> s `sublist_of` b -> length s <= length lcs)
    /\ spells a b (concat (expand <$> ranges)) lcs
    /\ Forall (fun m : LcsMatch => let '(a0, a1, b0, b1) := m in a0 < a1 /\ b0 < b1 /\ a1 - a0 = b1 - b0) ranges.
Proof.
  destruct (backtrack_spec a b (S (length a + length b)) (length a) (length b)) as (ps & s & E & Hs & Ha & Hb & Hl); [lia..|].
  rewrite firstn_all in Ha, Hb. unfold prefix_lcs in Hl. rewrite !firstn_all in Hl.
  exists (rev s), (match_ranges (rev ps)). unfold compute_lcs. rewrite E. cbn [mbind option_bind].
  rewrite (spells_bytes a b _ (rev s)) by (by apply spells_rev). rewrite match_ranges_expand.
  split_and!; [done|..].
  - rewrite <- (rev_involutive a). by apply sublist_rev.
  - rewrite <- (rev_involutive b). by apply sublist_rev.
  - intros t Ht1 Ht2. rewrite length_rev, Hl, <- (length_rev t). apply llen_max; by apply sublist_rev.
  - by apply spells_rev.
  - apply match_ranges_len_eq.
Qed.
