(* ===== verification/CommandArgs.v ===== *)
(** * CommandArgs: reading the arguments of a command ([command/mod.rs])

    A handler returns [Result<Resp>] and changes the database it is given, so it
    is a function to a reply and a state; [let?] is the [?] of the source, which
    leaves the state as it is at that point. *)

From S2P Require Import Prelude Text Types Keyspace Resp.

Definition Result (A : Type) : Type := NexradeError + A.

Definition bindr {A B} (r : Result A) (k : A -> Result B) : Result B :=
  match r with inl e => inl e | inr x => k x end.

Definition try_at {A B S} (r : Result A) (s : S) (k : A -> may_panic (Result B * S)) : may_panic (Result B * S) :=
  match r with inl e => Some (inl e, s) | inr x => k x end.

Definition ok_or {A} (o : option A) (e : NexradeError) : Result A := match o with Some x => inr x | None => inl e end.

Declare Scope result_scope.
Delimit Scope result_scope with result.
Notation "'let!' x := r 'in' k" := (bindr r (fun x => k))
  (at level 200, x pattern, right associativity) : result_scope.
Notation "'let?' x := r 'at' s 'in' k" := (try_at r s (fun x => k))
  (at level 200, x pattern, s at level 0, right associativity) : result_scope.
Open Scope result_scope.

(** ** Arguments *)

Definition parse_cmd_name_into (args : list Resp) : Result bytes :=
  let! arg0 := ok_or (head args ≫= as_str) (ProtocolError (bstr "empty command")) in
  inr (to_ascii_uppercase arg0).

Definition parse_cmd_name (args : list Resp) : Result bytes := parse_cmd_name_into args.

Definition wrong_arity (cmd : string) : NexradeError := WrongArity (to_ascii_lowercase (bstr cmd)).

Definition get_str (args : list Resp) (idx : nat) (cmd : string) : Result bytes :=
  ok_or (args !! idx ≫= as_str) (wrong_arity cmd).

Definition get_bytes (args : list Resp) (idx : nat) (cmd : string) : Result bytes :=
  ok_or (args !! idx ≫= as_bytes) (wrong_arity cmd).

Definition get_bytes_vec (args : list Resp) (idx : nat) (cmd : string) : Result bytes :=
  ok_or (args !! idx ≫= fun a => match a with
                                 | BulkString (Some b) => Some b
                                 | SimpleString s => Some s
                                 | _ => None
                                 end) (wrong_arity cmd).

Definition get_i64 (args : list Resp) (idx : nat) (cmd : string) : Result Z :=
  let! s := get_str args idx cmd in ok_or (parse_i64 s) NotInteger.

(** A cursor of the SCAN family; [None] starts afresh. *)
Definition decode_scan_cursor (token : bytes) : option Z :=
  match parse_usize (trim token) with
  | Some n => if bool_decide (n = 0)%Z then None else Some n
  | None => None
  end.

(** [a as i64] after release arithmetic. *)
Definition wrap_i64 (z : Z) : Z := ((z + 2 ^ 63) mod 2 ^ 64 - 2 ^ 63)%Z.

(** The rest of the arguments after one more; the loops over options walk on it. *)
Definition skip1 {A} (l : list A) : list A := match l with [] => l | _ :: l' => l' end.

(** ** What is read is in range *)

Lemma wrap_i64_range z : in_i64 (wrap_i64 z).
Proof. unfold in_i64, i64_min, i64_max, wrap_i64. pose proof (Z.mod_pos_bound (z + 2 ^ 63) (2 ^ 64)). lia. Qed.

Lemma wrap_i64_id z : in_i64 z -> wrap_i64 z = z.
Proof. unfold in_i64, i64_min, i64_max, wrap_i64. intros. rewrite Z.mod_small; lia. Qed.

Lemma get_i64_range args i cmd n : get_i64 args i cmd = inr n -> in_i64 n.
Proof.
  unfold get_i64. destruct (get_str args i cmd) as [|b]; [done|]. simpl. unfold parse_i64.
  destruct (match b with [] => None | _ => _ end) as [m|]; [|done]. simpl. case_bool_decide; [|done]. by intros [= <-].
Qed.
