(* ===== verification/StringCommands.v ===== *)
(** * StringCommands: the handlers of the string commands ([command/string.rs])

    Every handler reads its arguments, takes the guard of its key's shard and
    works on that shard.  INCRBYFLOAT, which adds and prints doubles, is left out. *)

From S2P Require Import Prelude Text Doubles Types Keyspace Shards Resp Lcs CommandArgs.
From S2P Require SetData.

Import ShardedDatabase.

Section StringCommands.
Context `{SetData.IndexSet} `{Itoa} `{F64Text} `{UnicodeCase}.

(** The reply to a value read as a string. *)
Definition string_of (e : Entry.t) : Result bytes := ok_or (as_string_bytes (Entry.value e)) WrongType.

(** ** SET *)

Record SetOptions := mkSetOptions {
  expiry : option Expiry.t;
  nx : bool;
  xx : bool;
  get : bool;
  keepttl : bool;
  ifeq : option bytes;
  ifgt : option bytes;
  iflt : option bytes;
}.

Definition no_options : SetOptions := mkSetOptions None false false false false None None None.

Definition with_expiry (x : Expiry.t) (o : SetOptions) : SetOptions :=
  mkSetOptions (Some x) (nx o) (xx o) (get o) (keepttl o) (ifeq o) (ifgt o) (iflt o).
Definition with_nx (o : SetOptions) : SetOptions :=
  mkSetOptions (expiry o) true (xx o) (get o) (keepttl o) (ifeq o) (ifgt o) (iflt o).
Definition with_xx (o : SetOptions) : SetOptions :=
  mkSetOptions (expiry o) (nx o) true (get o) (keepttl o) (ifeq o) (ifgt o) (iflt o).
Definition with_get (o : SetOptions) : SetOptions :=
  mkSetOptions (expiry o) (nx o) (xx o) true (keepttl o) (ifeq o) (ifgt o) (iflt o).
Definition with_keepttl (o : SetOptions) : SetOptions :=
  mkSetOptions (expiry o) (nx o) (xx o) (get o) true (ifeq o) (ifgt o) (iflt o).
Definition with_ifeq (v : bytes) (o : SetOptions) : SetOptions :=
  mkSetOptions (expiry o) (nx o) (xx o) (get o) (keepttl o) (Some v) (ifgt o) (iflt o).
Definition with_ifgt (v : bytes) (o : SetOptions) : SetOptions :=
  mkSetOptions (expiry o) (nx o) (xx o) (get o) (keepttl o) (ifeq o) (Some v) (iflt o).
Definition with_iflt (v : bytes) (o : SetOptions) : SetOptions :=
  mkSetOptions (expiry o) (nx o) (xx o) (get o) (keepttl o) (ifeq o) (ifgt o) (Some v).

Definition invalid_expire (cmd : string) : NexradeError := Generic (bstr "invalid expire time in " ++ bstr cmd).

(** The four ways to give a deadline, shared by SET and GETEX: relative ones are
    positive, absolute ones are not negative; [as u64] is the identity there. *)
Definition deadline_option (now : Z) (opt : bytes) (n : Z) (cmd : string) : Result Expiry.t :=
  if bool_decide (opt = bstr "EX") then
    if bool_decide (n <= 0)%Z then inl (invalid_expire cmd) else inr (Expiry.from_duration now (n * 1000))
  else if bool_decide (opt = bstr "PX") then
    if bool_decide (n <= 0)%Z then inl (invalid_expire cmd) else inr (Expiry.from_duration now n)
  else if bool_decide (opt = bstr "EXAT") then
    if bool_decide (n < 0)%Z then inl (invalid_expire cmd) else inr (Expiry.from_secs n)
  else
    if bool_decide (n < 0)%Z then inl (invalid_expire cmd) else inr (Expiry.from_ms n).

Definition is_deadline_option (opt : bytes) : bool :=
  bool_decide (opt ∈ [bstr "EX"; bstr "PX"; bstr "EXAT"; bstr "PXAT"]).

(** The loop over the options: [rest] is [args[i..]]. *)
Fixpoint set_options (now : Z) (rest : list Resp) (o : SetOptions) : Result SetOptions :=
  match rest with
  | [] => inr o
  | opt :: rest =>
      let! opt := get_str [opt] 0 "SET" in
      let opt := to_uppercase opt in
      if is_deadline_option opt then
        let! n := get_i64 rest 0 "SET" in
        let! x := deadline_option now opt n "SET" in
        set_options now (skip1 rest) (with_expiry x o)
      else if bool_decide (opt = bstr "NX") then set_options now rest (with_nx o)
      else if bool_decide (opt = bstr "XX") then set_options now rest (with_xx o)
      else if bool_decide (opt = bstr "GET") then set_options now rest (with_get o)
      else if bool_decide (opt = bstr "KEEPTTL") then set_options now rest (with_keepttl o)
      else if bool_decide (opt = bstr "IFEQ") then
        let! v := get_bytes_vec rest 0 "SET" in set_options now (skip1 rest) (with_ifeq v o)
      else if bool_decide (opt = bstr "IFGT") then
        let! v := get_bytes_vec rest 0 "SET" in set_options now (skip1 rest) (with_ifgt v o)
      else if bool_decide (opt = bstr "IFLT") then
        let! v := get_bytes_vec rest 0 "SET" in set_options now (skip1 rest) (with_iflt v o)
      else inl SyntaxError
  end.

Definition is_some {A} (o : option A) : bool := bool_decide (is_Some o).

Definition cond_count (o : SetOptions) : nat :=
  Nat.b2n (is_some (ifeq o)) + Nat.b2n (is_some (ifgt o)) + Nat.b2n (is_some (iflt o)).

Definition plain (o : SetOptions) : bool :=
  negb (nx o) && negb (xx o) && negb (get o) && negb (keepttl o) && negb (is_some (expiry o))
  && negb (is_some (ifeq o)) && negb (is_some (ifgt o)) && negb (is_some (iflt o)).

Definition as_f64 (a : bytes) : option f64 := s ← from_utf8 a; f64_parse s.

Definition compare_gt (a b : bytes) : bool :=
  match as_f64 a, as_f64 b with
  | Some an, Some bn => f64_ltb bn an
  | _, _ => bool_decide (bytes_cmp a b = Gt)
  end.

Definition compare_lt (a b : bytes) : bool :=
  match as_f64 a, as_f64 b with
  | Some an, Some bn => f64_ltb an bn
  | _, _ => bool_decide (bytes_cmp a b = Lt)
  end.

(** The comparison of IFEQ, IFGT and IFLT with the current value. *)
Definition condition (o : SetOptions) (cur : bytes) : bool :=
  match ifeq o, ifgt o, iflt o with
  | Some target, _, _ => bool_decide (cur = target)
  | None, Some target, _ => compare_gt cur target
  | None, None, Some target => compare_lt cur target
  | None, None, None => false
  end.

(** ** The part of SET under the write guard when there are options *)

(** GET: the value before. *)
Definition old_value (now : Z) (o : SetOptions) (key : bytes) (d : Database.t) : Result (option Resp) * Database.t :=
  if get o then
    match Database.get now key d with
    | (Some e, d) => (let! v := string_of e in inr (Some (bulk v)), d)
    | (None, d) => (inr (Some null), d)
    end
  else (inr None, d).

(** NX and XX. *)
Definition blocked (now : Z) (o : SetOptions) (key : bytes) (d : Database.t) : bool * Database.t :=
  if nx o || xx o then
    let '(exists_, d) := Database.contains_key now key d in
    (nx o && exists_ || xx o && negb exists_, d)
  else (false, d).

(** IFEQ, IFGT and IFLT. *)
Definition passes (now : Z) (o : SetOptions) (key : bytes) (d : Database.t) : Result bool * Database.t :=
  if is_some (ifeq o) || is_some (ifgt o) || is_some (iflt o) then
    match Database.get now key d with
    | (Some e, d) => (let! cur := string_of e in inr (condition o cur), d)
    | (None, d) => (inr false, d)
    end
  else (inr true, d).

(** KEEPTTL. *)
Definition effective_expiry (now : Z) (o : SetOptions) (key : bytes) (d : Database.t) : option Expiry.t * Database.t :=
  if keepttl o then let '(r, d) := Database.get now key d in (r ≫= Entry.expiry, d)
  else (expiry o, d).

(** [old_value] is [None] without GET, and [unwrap] is then not reached. *)
Definition set_flagged (now : Z) (o : SetOptions) (key value : bytes) (d : Database.t) :
    may_panic (Result Resp * Database.t) :=
  let '(old, d) := old_value now o key d in
  let? old := old at d in
  let reply := fun r => if get o then old else Some r in
  let '(stop, d) := blocked now o key d in
  if (stop : bool) then r ← reply null; Some (inr r, d)
  else
    let '(pass, d) := passes now o key d in
    let? pass := pass at d in
    if negb pass then r ← reply null; Some (inr r, d)
    else
      let '(exp, d) := effective_expiry now o key d in
      let entry := match exp with
                   | Some x => Entry.with_expiry (TString value) x
                   | None => Entry.new (TString value)
                   end in
      r ← reply ok;
      Some (inr r, Database.insert key entry d).

Definition cmd_set (now : Z) (args : list Resp) (s : t) : may_panic (Result Resp * t) :=
  if bool_decide (length args < 3) then Some (inl (WrongArity (bstr "set")), s)
  else
    let? key := ok_or (args !! 1 ≫= as_bytes) (WrongArity (bstr "set")) at s in
    let? value := ok_or (args !! 2 ≫= as_bytes) (WrongArity (bstr "set")) at s in
    let? o := set_options now (drop 3 args) no_options at s in
    if bool_decide (1 < cond_count o) then Some (inl SyntaxError, s)
    else if bool_decide (cond_count o = 1) && (nx o || xx o) then Some (inl SyntaxError, s)
    else if plain o then
      on_shard (shard_idx s key) (fun d => Some (inr ok, Database.set_plain now key value d)) s
    else on_shard (shard_idx s key) (set_flagged now o key value) s.

(** ** Reads *)

Definition cmd_get (now : Z) (args : list Resp) (s : t) : may_panic (Result Resp * t) :=
  if bool_decide (length args <> 2) then Some (inl (WrongArity (bstr "get")), s)
  else
    let? key := ok_or (args !! 1 ≫= as_bytes) (WrongArity (bstr "get")) at s in
    found ← read_for key (Database.get_ro now key) s;
    Some (match found with
          | None => inr null
          | Some e => let! v := string_of e in inr (bulk v)
          end, s).

Definition cmd_strlen (now : Z) (args : list Resp) (s : t) : may_panic (Result Resp * t) :=
  if bool_decide (length args <> 2) then Some (inl (WrongArity (bstr "strlen")), s)
  else
    let? key := get_bytes_vec args 1 "STRLEN" at s in
    found ← read_for key (Database.get_ro now key) s;
    Some (match found with
          | None => inr (int 0)
          | Some e => let! v := string_of e in inr (int (Z.of_nat (length v)))
          end, s).

Definition normalize_range_idx (idx len : Z) : Z := if bool_decide (idx < 0)%Z then Z.max (len + idx) 0 else idx.

(** [bytes[start..=end]] of the two indices. *)
Definition range_of (bs : bytes) (start end_ : Z) : may_panic bytes :=
  let len := Z.of_nat (length bs) in
  let start := normalize_range_idx start len in
  let end_ := normalize_range_idx end_ len in
  if bool_decide (end_ < start)%Z || bool_decide (len <= start)%Z then Some []
  else
    let end_ := Z.min end_ (len - 1) in
    slice bs (Z.to_nat start) (Z.to_nat end_ + 1).

Definition cmd_getrange (now : Z) (args : list Resp) (s : t) : may_panic (Result Resp * t) :=
  if bool_decide (length args <> 4) then Some (inl (WrongArity (bstr "getrange")), s)
  else
    let? key := get_bytes_vec args 1 "GETRANGE" at s in
    let? start := get_i64 args 2 "GETRANGE" at s in
    let? end_ := get_i64 args 3 "GETRANGE" at s in
    found ← read_for key (Database.get_ro now key) s;
    match found with
    | None => Some (inr (bulk_str []), s)
    | Some e =>
        let? bs := string_of e at s in
        r ← range_of bs start end_;
        Some (inr (bulk r), s)
    end.

Fixpoint mget_loop (now : Z) (keys : list Resp) (s : t) : may_panic (Result (list Resp)) :=
  match keys with
  | [] => Some (inr [])
  | a :: keys =>
      match get_bytes_vec [a] 0 "MGET" with
      | inl e => Some (inl e)
      | inr key =>
          found ← read_for key (Database.get_ro now key) s;
          let val := match found ≫= fun e => as_string_bytes (Entry.value e) with
                     | Some v => bulk v
                     | None => null
                     end in
          rest ← mget_loop now keys s;
          Some (let! rest := rest in inr (val :: rest))
      end
  end.

Definition cmd_mget (now : Z) (args : list Resp) (s : t) : may_panic (Result Resp * t) :=
  if bool_decide (length args < 2) then Some (inl (WrongArity (bstr "mget")), s)
  else
    results ← mget_loop now (drop 1 args) s;
    let? results := results at s in
    Some (inr (array results), s).

(** ** Reads that write *)

Definition cmd_getset (now : Z) (args : list Resp) (s : t) : may_panic (Result Resp * t) :=
  if bool_decide (length args <> 3) then Some (inl (WrongArity (bstr "getset")), s)
  else
    let? key := get_bytes_vec args 1 "GETSET" at s in
    let? value := get_bytes args 2 "GETSET" at s in
    on_shard (shard_idx s key) (fun d =>
      let '(found, d) := Database.get now key d in
      let? old := match found with
                  | None => inr null
                  | Some e => let! v := string_of e in inr (bulk v)
                  end at d in
      Some (inr old, Database.insert key (Entry.new (TString value)) d)) s.

(** Removes before it looks at the type and without looking at the deadline. *)
Definition cmd_getdel (args : list Resp) (s : t) : may_panic (Result Resp * t) :=
  if bool_decide (length args <> 2) then Some (inl (WrongArity (bstr "getdel")), s)
  else
    let? key := get_bytes_vec args 1 "GETDEL" at s in
    on_shard (shard_idx s key) (fun d =>
      let '(removed, d) := Database.remove key d in
      Some (match removed with
            | None => inr null
            | Some e => let! v := string_of e in inr (bulk v)
            end, d)) s.

(** The deadline GETEX asks for. *)
Definition getex_option (now : Z) (args : list Resp) : Result (option Expiry.t) :=
  let! opt := get_str args 2 "GETEX" in
  let opt := to_uppercase opt in
  if is_deadline_option opt then
    if bool_decide (length args <> 4) then inl SyntaxError
    else
      let! n := get_i64 args 3 "GETEX" in
      let! x := deadline_option now opt n "GETEX" in
      inr (Some x)
  else if bool_decide (opt = bstr "PERSIST") then
    if bool_decide (length args <> 3) then inl SyntaxError else inr None
  else inl SyntaxError.

Definition cmd_getex (now : Z) (args : list Resp) (s : t) : may_panic (Result Resp * t) :=
  if bool_decide (length args < 2) then Some (inl (WrongArity (bstr "getex")), s)
  else
    let? key := get_bytes_vec args 1 "GETEX" at s in
    on_shard (shard_idx s key) (fun d =>
      match Database.get now key d with
      | (None, d) => Some (inr null, d)
      | (Some e, d) =>
          let? old := string_of e at d in
          if bool_decide (2 < length args) then
            let? x := getex_option now args at d in
            Some (inr (bulk old), Database.set_expiry key x d)
          else Some (inr (bulk old), d)
      end) s.

(** ** Writes *)

Fixpoint mset_pairs (cmd : string) (rest : list Resp) : Result (list (bytes * Entry.t)) :=
  match rest with
  | k :: v :: rest =>
      let! key := ok_or (as_bytes k) (WrongArity (bstr cmd)) in
      let! val := ok_or (as_bytes v) (WrongArity (bstr cmd)) in
      let! pairs := mset_pairs cmd rest in
      inr ((key, Entry.new (TString val)) :: pairs)
  | _ => inr []
  end.

Definition bad_mset_arity (args : list Resp) : bool :=
  bool_decide (length args < 3) || Nat.even (length args).

Definition cmd_mset `{UnstableSort} (args : list Resp) (s : t) : may_panic (Result Resp * t) :=
  if bad_mset_arity args then Some (inl (WrongArity (bstr "mset")), s)
  else
    let? pairs := mset_pairs "mset" (drop 1 args) at s in
    s ← mset pairs s;
    Some (inr ok, s).

Definition cmd_msetnx `{UnstableSort} (now : Z) (args : list Resp) (s : t) : may_panic (Result Resp * t) :=
  if bad_mset_arity args then Some (inl (WrongArity (bstr "msetnx")), s)
  else
    let? pairs := mset_pairs "msetnx" (drop 1 args) at s in
    '(ok, s) ← msetnx now pairs s;
    Some (inr (int (if (ok : bool) then 1 else 0)), s).

Definition cmd_setnx (now : Z) (args : list Resp) (s : t) : may_panic (Result Resp * t) :=
  if bool_decide (length args <> 3) then Some (inl (WrongArity (bstr "setnx")), s)
  else
    let? key := get_bytes_vec args 1 "SETNX" at s in
    let? val := get_bytes_vec args 2 "SETNX" at s in
    on_shard (shard_idx s key) (fun d =>
      let '(present, d) := Database.contains_key now key d in
      if (present : bool) then Some (inr (int 0), d)
      else Some (inr (int 1), Database.insert key (Entry.new (TString val)) d)) s.

Definition cmd_setex (now : Z) (args : list Resp) (s : t) : may_panic (Result Resp * t) :=
  if bool_decide (length args <> 4) then Some (inl (WrongArity (bstr "setex")), s)
  else
    let? key := get_bytes_vec args 1 "SETEX" at s in
    let? secs := get_i64 args 2 "SETEX" at s in
    let? val := get_bytes_vec args 3 "SETEX" at s in
    if bool_decide (secs <= 0)%Z then Some (inl (invalid_expire "SETEX"), s)
    else on_shard (shard_idx s key) (fun d =>
      Some (inr ok, Database.insert key (Entry.with_expiry (TString val) (Expiry.from_duration now (secs * 1000))) d)) s.

Definition cmd_psetex (now : Z) (args : list Resp) (s : t) : may_panic (Result Resp * t) :=
  if bool_decide (length args <> 4) then Some (inl (WrongArity (bstr "psetex")), s)
  else
    let? key := get_bytes_vec args 1 "PSETEX" at s in
    let? ms := get_i64 args 2 "PSETEX" at s in
    let? val := get_bytes_vec args 3 "PSETEX" at s in
    if bool_decide (ms <= 0)%Z then Some (inl (invalid_expire "PSETEX"), s)
    else on_shard (shard_idx s key) (fun d =>
      Some (inr ok, Database.insert key (Entry.with_expiry (TString val) (Expiry.from_duration now ms)) d)) s.

(** ** Counters *)

Definition incr_by (now : Z) (args : list Resp) (delta : Z) (cmd : string) (s : t) : may_panic (Result Resp * t) :=
  if bool_decide (length args < 2) then Some (inl (WrongArity (bstr cmd)), s)
  else
    let? key := get_bytes_vec args 1 cmd at s in
    '(r, s) ← incr_int now key delta s;
    Some (let! new_val := r in inr (int new_val), s).

Definition cmd_incr (now : Z) (args : list Resp) (s : t) : may_panic (Result Resp * t) := incr_by now args 1 "INCR" s.

Definition cmd_decr (now : Z) (args : list Resp) (s : t) : may_panic (Result Resp * t) := incr_by now args (-1) "DECR" s.

Definition cmd_incrby (now : Z) (args : list Resp) (s : t) : may_panic (Result Resp * t) :=
  if bool_decide (length args <> 3) then Some (inl (WrongArity (bstr "incrby")), s)
  else let? delta := get_i64 args 2 "INCRBY" at s in incr_by now args delta "INCRBY" s.

(** The negation wraps at [i64::MIN]. *)
Definition cmd_decrby (now : Z) (args : list Resp) (s : t) : may_panic (Result Resp * t) :=
  if bool_decide (length args <> 3) then Some (inl (WrongArity (bstr "decrby")), s)
  else let? delta := get_i64 args 2 "DECRBY" at s in incr_by now args (wrap_i64 (- delta)) "DECRBY" s.

(** ** In place *)

(** The old bytes and their counted size, when the value can be appended to. *)
Definition appendable (v : DataType) : option (bytes * nat) :=
  match v with
  | TString v => Some (v, length v)
  | TInt cell => Some (itoa_format (AtomicIntCell.load cell), 8)
  | TBitmap v => Some (v, length v)
  | _ => None
  end.

Definition append_body (now : Z) (key val : bytes) (d : Database.t) : may_panic (Result Resp * Database.t) :=
  let '(resp, delta, d) :=
    match Database.get_mut now key d with
    | (Some e, d) =>
        match appendable (Entry.value e) with
        | Some (old, old_len) =>
            let owned := old ++ val in
            (inr (int (Z.of_nat (length owned))), (Z.of_nat (length owned) - Z.of_nat old_len)%Z,
             Database.write_back key (Entry.set_value (TString owned) e) d)
        | None => (inl WrongType, 0%Z, d)
        end
    | (None, d) =>
        (inr (int (Z.of_nat (length val))), 0%Z, Database.insert key (Entry.new (TString val)) d)
    end in
  Some (resp, Database.adjust_live_bytes delta d).

Definition cmd_append (now : Z) (args : list Resp) (s : t) : may_panic (Result Resp * t) :=
  if bool_decide (length args <> 3) then Some (inl (WrongArity (bstr "append")), s)
  else
    let? key := get_bytes_vec args 1 "APPEND" at s in
    let? val := get_bytes_vec args 2 "APPEND" at s in
    on_shard (shard_idx s key) (append_body now key val) s.

Definition MAX_SETRANGE_OFFSET : Z := 512 * 1024 * 1024 - 1.

Definition too_long : NexradeError := Generic (bstr "string exceeds maximum allowed size (512MB)").

(** [resize] to the end of the patch, then [copy_from_slice]. *)
Definition patched (bs : bytes) (offset : nat) (patch : bytes) : bytes :=
  let end_ := offset + length patch in
  let bs := bs ++ replicate (end_ - length bs) (byte_of 0) in
  take offset bs ++ patch ++ drop end_ bs.

Definition setrange_body (now : Z) (key : bytes) (offset : Z) (patch : bytes) (d : Database.t) :
    may_panic (Result Resp * Database.t) :=
  let '(found, d) := Database.get now key d in
  let? bs := match found with None => inr [] | Some e => string_of e end at d in
  if bool_decide (patch = []) then Some (inr (int (Z.of_nat (length bs))), d)
  else
    let end_ := (offset + Z.of_nat (length patch))%Z in
    if bool_decide (2 ^ 64 <= end_)%Z || bool_decide (MAX_SETRANGE_OFFSET < end_)%Z then Some (inl too_long, d)
    else
      let bs := patched bs (Z.to_nat offset) patch in
      let '(found, d) := Database.get now key d in
      let prev_expiry := found ≫= Entry.expiry in
      let d := Database.insert key (Entry.new (TString bs)) d in
      let d := match prev_expiry with
               | Some x => Database.set_expiry key (Some x) d
               | None => d
               end in
      Some (inr (int (Z.of_nat (length bs))), d).

Definition cmd_setrange (now : Z) (args : list Resp) (s : t) : may_panic (Result Resp * t) :=
  if bool_decide (length args <> 4) then Some (inl (WrongArity (bstr "setrange")), s)
  else
    let? key := get_bytes_vec args 1 "SETRANGE" at s in
    let? offset := get_i64 args 2 "SETRANGE" at s in
    let? patch := get_bytes_vec args 3 "SETRANGE" at s in
    if bool_decide (offset < 0)%Z then Some (inl (Generic (bstr "offset is out of range")), s)
    else if bool_decide (MAX_SETRANGE_OFFSET < offset)%Z then Some (inl too_long, s)
    else on_shard (shard_idx s key) (setrange_body now key offset patch) s.

(** ** LCS *)

Record LcsOptions := mkLcsOptions { want_len : bool; want_idx : bool; min_match_len : Z; with_match_len : bool }.

Fixpoint lcs_options (rest : list Resp) (o : LcsOptions) : Result LcsOptions :=
  match rest with
  | [] => inr o
  | opt :: rest =>
      let! opt := get_str [opt] 0 "LCS" in
      let opt := to_uppercase opt in
      if bool_decide (opt = bstr "LEN") then
        lcs_options rest (mkLcsOptions true (want_idx o) (min_match_len o) (with_match_len o))
      else if bool_decide (opt = bstr "IDX") then
        lcs_options rest (mkLcsOptions (want_len o) true (min_match_len o) (with_match_len o))
      else if bool_decide (opt = bstr "MINMATCHLEN") then
        let! n := get_i64 rest 0 "LCS" in
        if bool_decide (n < 0)%Z then inl (Generic (bstr "value is not an integer or out of range"))
        else lcs_options (skip1 rest) (mkLcsOptions (want_len o) (want_idx o) n (with_match_len o))
      else if bool_decide (opt = bstr "WITHMATCHLEN") then
        lcs_options rest (mkLcsOptions (want_len o) (want_idx o) (min_match_len o) true)
      else inl SyntaxError
  end.

(** One range of the IDX reply; short ones are skipped. *)
Definition match_item (o : LcsOptions) (m : LcsMatch) : option Resp :=
  let '(a_start, a_end, b_start, b_end) := m in
  let len := a_end - a_start in
  if bool_decide (Z.of_nat len < min_match_len o)%Z then None
  else
    let pair := fun x y : nat => array [int (Z.of_nat x); int (Z.of_nat (y - 1))] in
    Some (array ([pair a_start a_end; pair b_start b_end]
                 ++ if with_match_len o then [int (Z.of_nat len)] else [])).

Definition lcs_operand (now : Z) (key : bytes) (s : t) : may_panic (Result bytes) :=
  found ← read_for key (Database.get_ro now key) s;
  Some (match found with None => inr [] | Some e => string_of e end).

Definition cmd_lcs (now : Z) (args : list Resp) (s : t) : may_panic (Result Resp * t) :=
  if bool_decide (length args < 3) then Some (inl (WrongArity (bstr "lcs")), s)
  else
    let? key1 := get_bytes_vec args 1 "LCS" at s in
    let? key2 := get_bytes_vec args 2 "LCS" at s in
    let? o := lcs_options (drop 3 args) (mkLcsOptions false false 0 false) at s in
    a ← lcs_operand now key1 s;
    let? a := a at s in
    b ← lcs_operand now key2 s;
    let? b := b at s in
    '(lcs_bytes, matches) ← compute_lcs a b;
    let len := int (Z.of_nat (length lcs_bytes)) in
    Some (inr (if want_len o && negb (want_idx o) then len
               else if want_idx o then
                 array [bulk_str (bstr "matches"); array (omap (match_item o) (rev matches)); bulk_str (bstr "len"); len]
               else bulk lcs_bytes), s).

(** ** The dispatcher's string commands *)

Inductive StringCommand :=
  | SET | GET | GETSET | GETDEL | GETEX | MSET | MSETNX | MGET | SETNX | SETEX | PSETEX
  | INCR | INCRBY | DECR | DECRBY | APPEND | STRLEN | GETRANGE | SETRANGE | LCS.

Definition exec_string `{UnstableSort} (now : Z) (c : StringCommand) (args : list Resp) (s : t) :
    may_panic (Result Resp * t) :=
  match c with
  | SET => cmd_set now args s
  | GET => cmd_get now args s
  | GETSET => cmd_getset now args s
  | GETDEL => cmd_getdel args s
  | GETEX => cmd_getex now args s
  | MSET => cmd_mset args s
  | MSETNX => cmd_msetnx now args s
  | MGET => cmd_mget now args s
  | SETNX => cmd_setnx now args s
  | SETEX => cmd_setex now args s
  | PSETEX => cmd_psetex now args s
  | INCR => cmd_incr now args s
  | INCRBY => cmd_incrby now args s
  | DECR => cmd_decr now args s
  | DECRBY => cmd_decrby now args s
  | APPEND => cmd_append now args s
  | STRLEN => cmd_strlen now args s
  | GETRANGE => cmd_getrange now args s
  | SETRANGE => cmd_setrange now args s
  | LCS => cmd_lcs now args s
  end.

End StringCommands.
