(* ===== verification/StringSpec.v ===== *)
(** * StringSpec: what the string commands mean

    Clients see a key as a cell: a string, a bitmap, or a value of another type,
    with its deadline.  Each string command is a request: a key, and a function
    from the cell to the answer and the new cell.  The theorems say that the
    handlers, which work on integer cells, shards, the deadline index and the byte
    counter, implement these functions. *)

From S2P Require Import Prelude Text Doubles Types Keyspace KeyspaceInvariant KeyspaceSpec.
From S2P Require Import Shards ShardsSpec ShardsMoves Resp Lcs CommandArgs StringCommands.
From S2P Require SetData.

Import ShardedDatabase.

#[local] Arguments Database.remove : simpl never.
#[local] Arguments Database.insert : simpl never.
#[local] Arguments Database.get : simpl never.
#[local] Arguments Database.set_expiry : simpl never.
#[local] Arguments Database.set_plain : simpl never.
#[local] Arguments Database.adjust_live_bytes : simpl never.

Section Spec.
Context `{SetData.IndexSet} `{Itoa} `{F64Text} `{UnicodeCase}.
Implicit Types (s : t) (d : Database.t) (k key : bytes) (e : Entry.t) (o : option Entry.t).

(** ** Cells *)

Inductive Value := Text (b : bytes) | Bits (b : bytes) | Opaque (v : DataType).

(** An integer cell is the string of its digits. *)
Definition abs_value (v : DataType) : Value :=
  match v with
  | TString b => Text b
  | TInt cell => Text (show_int (AtomicIntCell.value cell))
  | TBitmap b => Bits b
  | v => Opaque v
  end.

#[local] Notation Cell := (option (Value * option Z)).


Definition abs (c : option (DataType * option Z)) : Cell := fmap (M := option) (fun p : DataType * option Z => (abs_value p.1, p.2)) c.

Definition look (now : Z) o : Cell := abs (seen now o).

Definition text (v : Value) : option bytes := match v with Text b | Bits b => Some b | Opaque _ => None end.

Definition cell_text (c : Cell) : option bytes := '(v, _) ← c; text v.

Definition cell_deadline (c : Cell) : option Z := c ≫= snd.

(** A cell just written: gone at once if its deadline has passed. *)
Definition put (now : Z) (b : bytes) (x : option Z) : Cell :=
  if bool_decide (alive now (TString b, x)) then Some (Text b, x) else None.

(** ** Requests *)

(** [writes] is the size of the value left behind, for the byte counter. *)
Record Request := mkRequest { key : bytes; writes : Cell -> nat; answer : Cell -> Result Resp * Cell }.

(** Commands that want a string or nothing at the key. *)
Definition on_string (f : option (bytes * option Z) -> Result Resp * Cell) (c : Cell) : Result Resp * Cell :=
  match c with
  | None => f None
  | Some (v, x) => match text v with
                   | Some b => f (Some (b, x))
                   | None => (inl WrongType, c)
                   end
  end.

Definition reading (key : bytes) (none : Resp) (f : bytes -> Resp) : Request :=
  mkRequest key (fun _ => 0)
    (fun c => on_string (fun old => (inr (from_option (fun p => f p.1) none old), c)) c).

Definition set_answer (now : Z) (opts : SetOptions) (value : bytes) (c : Cell) : Result Resp * Cell :=
  let conditional := is_some (ifeq opts) || is_some (ifgt opts) || is_some (iflt opts) in
  if (get opts || conditional) && is_some c && negb (is_some (cell_text c)) then (inl WrongType, c)
  else
    let refused := nx opts && is_some c || xx opts && negb (is_some c)
                   || conditional && negb (from_option (condition opts) false (cell_text c)) in
    (inr (if get opts then from_option bulk null (cell_text c) else if refused then null else ok),
     if refused then c
     else put now value (if keepttl opts then cell_deadline c else Expiry.expires_at_ms <$> expiry opts)).

Definition incr_answer (delta : Z) (c : Cell) : Result Resp * Cell :=
  match c with
  | None => (inr (int delta), Some (Text (show_int delta), None))
  | Some (Text b, x) =>
      match s ← from_utf8 b; parse_i64 s with
      | None => (inl NotInteger, c)
      | Some n => if bool_decide (in_i64 (n + delta)) then (inr (int (n + delta)), Some (Text (show_int (n + delta)), x))
                  else (inl Overflow, c)
      end
  | Some _ => (inl WrongType, c)
  end.

Definition append_answer (val : bytes) : Cell -> Result Resp * Cell :=
  on_string (fun old =>
    let b := from_option fst [] old ++ val in
    (inr (int (Z.of_nat (length b))), Some (Text b, old ≫= snd))).

(** The bytes between two positions, both included, counted from the end when
    negative. *)
Definition sub_range (b : bytes) (start end_ : Z) : bytes :=
  let pos := fun i => if bool_decide (i < 0)%Z then Z.max (Z.of_nat (length b) + i) 0 else i in
  take (Z.to_nat (pos end_ + 1) - Z.to_nat (pos start)) (drop (Z.to_nat (pos start)) b).

Definition setrange_answer (offset : nat) (patch : bytes) (c : Cell) : Result Resp * Cell :=
  on_string (fun old =>
    let b := from_option fst [] old in
    if bool_decide (patch = []) then (inr (int (Z.of_nat (length b))), c)
    else if bool_decide (MAX_SETRANGE_OFFSET < Z.of_nat (offset + length patch))%Z then (inl too_long, c)
    else (inr (int (Z.of_nat (length (patched b offset patch)))), Some (Text (patched b offset patch), old ≫= snd))) c.

Definition getex_answer (now : Z) (args : list Resp) (c : Cell) : Result Resp * Cell :=
  on_string (fun old =>
    match old with
    | None => (inr null, c)
    | Some (b, _) =>
        if bool_decide (2 < length args) then
          match getex_option now args with
          | inl e => (inl e, c)
          | inr x => (inr (bulk b), '(v, _) ← c; if bool_decide (alive now (TString b, Expiry.expires_at_ms <$> x))
                                               then Some (v, Expiry.expires_at_ms <$> x) else None)
          end
        else (inr (bulk b), c)
    end) c.

Definition arity (bad : Prop) `{!Decision bad} (name : string) (r : Result Request) : Result Request :=
  if bool_decide bad then inl (WrongArity (bstr name)) else r.

(** ** The request a command makes *)

Definition set_request (now : Z) (args : list Resp) : Result Request :=
  arity (length args < 3) "set"
    (let! key := ok_or (args !! 1 ≫= as_bytes) (WrongArity (bstr "set")) in
     let! value := ok_or (args !! 2 ≫= as_bytes) (WrongArity (bstr "set")) in
     let! opts := set_options now (drop 3 args) no_options in
     if bool_decide (1 < cond_count opts) then inl SyntaxError
     else if bool_decide (cond_count opts = 1) && (nx opts || xx opts) then inl SyntaxError
     else inr (mkRequest key (fun _ => length value) (set_answer now opts value))).

Definition incr_request (args : list Resp) (delta : Z) (cmd : string) : Result Request :=
  arity (length args < 2) cmd
    (let! key := get_bytes_vec args 1 cmd in inr (mkRequest key (fun _ => 8) (incr_answer delta))).

(** SETEX and PSETEX: [unit] milliseconds. *)
Definition setex_request (now : Z) (args : list Resp) (unit : Z) (name cmd : string) : Result Request :=
  arity (length args <> 4) name
    (let! key := get_bytes_vec args 1 cmd in
     let! n := get_i64 args 2 cmd in
     let! val := get_bytes_vec args 3 cmd in
     if bool_decide (n <= 0)%Z then inl (invalid_expire cmd)
     else inr (mkRequest key (fun _ => length val) (fun _ => (inr ok, put now val (Some (now + n * unit)%Z))))).

Definition request (now : Z) (c : StringCommand) (args : list Resp) : option (Result Request) :=
  match c with
  | SET => Some (set_request now args)
  | GET => Some (arity (length args <> 2) "get"
      (let! key := ok_or (args !! 1 ≫= as_bytes) (WrongArity (bstr "get")) in inr (reading key null bulk)))
  | STRLEN => Some (arity (length args <> 2) "strlen"
      (let! key := get_bytes_vec args 1 "STRLEN" in inr (reading key (int 0) (fun b => int (Z.of_nat (length b))))))
  | GETRANGE => Some (arity (length args <> 4) "getrange"
      (let! key := get_bytes_vec args 1 "GETRANGE" in
       let! start := get_i64 args 2 "GETRANGE" in
       let! end_ := get_i64 args 3 "GETRANGE" in
       inr (reading key (bulk []) (fun b => bulk (sub_range b start end_)))))
  | GETSET => Some (arity (length args <> 3) "getset"
      (let! key := get_bytes_vec args 1 "GETSET" in
       let! value := get_bytes args 2 "GETSET" in
       inr (mkRequest key (fun _ => length value)
         (on_string (fun old => (inr (from_option (fun p => bulk p.1) null old), Some (Text value, None)))))))
  | GETEX => Some (arity (length args < 2) "getex"
      (let! key := get_bytes_vec args 1 "GETEX" in inr (mkRequest key (fun _ => 0) (getex_answer now args))))
  | SETNX => Some (arity (length args <> 3) "setnx"
      (let! key := get_bytes_vec args 1 "SETNX" in
       let! val := get_bytes_vec args 2 "SETNX" in
       inr (mkRequest key (fun _ => length val)
         (fun c => match c with Some _ => (inr (int 0), c) | None => (inr (int 1), Some (Text val, None)) end))))
  | SETEX => Some (setex_request now args 1000 "setex" "SETEX")
  | PSETEX => Some (setex_request now args 1 "psetex" "PSETEX")
  | INCR => Some (incr_request args 1 "INCR")
  | DECR => Some (incr_request args (-1) "DECR")
  | INCRBY => Some (arity (length args <> 3) "incrby"
      (let! delta := get_i64 args 2 "INCRBY" in incr_request args delta "INCRBY"))
  | DECRBY => Some (arity (length args <> 3) "decrby"
      (let! delta := get_i64 args 2 "DECRBY" in incr_request args (wrap_i64 (- delta)) "DECRBY"))
  | APPEND => Some (arity (length args <> 3) "append"
      (let! key := get_bytes_vec args 1 "APPEND" in
       let! val := get_bytes_vec args 2 "APPEND" in
       inr (mkRequest key (fun c => length (default [] (cell_text c) ++ val)) (append_answer val))))
  | SETRANGE => Some (arity (length args <> 4) "setrange"
      (let! key := get_bytes_vec args 1 "SETRANGE" in
       let! offset := get_i64 args 2 "SETRANGE" in
       let! patch := get_bytes_vec args 3 "SETRANGE" in
       if bool_decide (offset < 0)%Z then inl (Generic (bstr "offset is out of range"))
       else if bool_decide (MAX_SETRANGE_OFFSET < offset)%Z then inl too_long
       else inr (mkRequest key (fun c => length (patched (default [] (cell_text c)) (Z.to_nat offset) patch))
                   (setrange_answer (Z.to_nat offset) patch))))
  | GETDEL | MSET | MSETNX | MGET | LCS => None
  end.

(** ** Refinement *)

(** Integer cells hold an [i64]. *)
Definition typed_slot o : Prop :=
  match Entry.value <$> o with
  | Some (TInt cell) => in_i64 (AtomicIntCell.value cell)
  | _ => True
  end.

Definition typed s : Prop := forall k, typed_slot (slot s k).

(** The counter has room for the value a request writes. *)
Definition fits (now : Z) (q : Request) s : Prop :=
  room s (key q) (64 + length (key q) + writes q (look now (slot s (key q)))).

Definition refines (now : Z) (h : t -> may_panic (Result Resp * t)) (r : Result Request) : Prop :=
  forall s, swf s -> typed s ->
  match r with
  | inl e => h s = Some (inl e, s)
  | inr q =>
      fits now q s ->
      let c := look now (slot s (key q)) in
      exists s', h s = Some ((answer q c).1, s') /\ swf s' /\ typed s' /\
        look now (slot s' (key q)) = (answer q c).2 /\
        forall j, j <> key q -> slot s' j = slot s j
  end.

Lemma refines_if now (b : bool) err h r : refines now h r ->
  refines now (fun s => if b then Some (inl err, s) else h s) (if b then inl err else r).
Proof. intros Hr s W T. destruct b; [done|]. by apply Hr. Qed.

Lemma refines_arity now (bad : Prop) `{!Decision bad} name h r : refines now h r ->
  refines now (fun s => if bool_decide bad then Some (inl (WrongArity (bstr name)), s) else h s) (arity bad name r).
Proof. apply refines_if. Qed.

Lemma refines_try now {A} (r : Result A) h g : (forall x, r = inr x -> refines now (h x) (g x)) ->
  refines now (fun s => try_at r s (fun x => h x s)) (bindr r g).
Proof. intros Hr s W T. destruct r as [e|x]; [done|]. by apply (Hr x). Qed.

(** The same on one shard. *)
Definition serves (now : Z) (q : Request) (body : Database.t -> may_panic (Result Resp * Database.t)) : Prop :=
  forall d, wf d -> typed_slot (Database.entries d !! key q) ->
  let c := look now (Database.entries d !! key q) in
  (Z.of_nat (total_bytes d + (64 + length (key q) + writes q c)) < 2 ^ 64)%Z ->
  exists d' o, body d = Some ((answer q c).1, d') /\ dstep d d' (key q) o /\ typed_slot o /\
    look now o = (answer q c).2.

Lemma serves_refines now q body : serves now q body ->
  refines now (fun s => on_shard (shard_idx s (key q)) body s) (inr q).
Proof.
  intros S s W T R. destruct (shard_of s (key q) W) as (d & Hd & Wd & Hs).
  pose proof (T (key q)) as Tk. unfold fits in R. rewrite Hs in Tk, R |- *.
  destruct (S d Wd Tk (R d Hd)) as (d' & o & E & [Wd' St] & To & L).
  destruct (on_shard_step s (key q) d _ d' o body W Hd E St Wd') as (s' & E' & W' & [_ A] & _).
  exists s'. split_and!; [done|done| |by rewrite A, decide_True|intros j Hj; by rewrite A, decide_False].
  intros j. rewrite A. case_decide; [done|apply T].
Qed.

(** ** Steps on one shard *)

Lemma look_visible now e : Entry.is_expired now e = false ->
  look now (Some e) = Some (abs_value (Entry.value e), Expiry.expires_at_ms <$> Entry.expiry e).
Proof. intros X. unfold look, seen. simpl. by rewrite X. Qed.

Lemma look_dead now e : Entry.is_expired now e = true -> look now (Some e) = None.
Proof. intros X. unfold look, seen. simpl. by rewrite X. Qed.

(** A lookup: the entry found is the one the client sees, whose text is the
    text of the cell. *)
Lemma get_serve now k d : wf d -> typed_slot (Database.entries d !! k) ->
  exists r d', Database.get now k d = (r, d') /\ dstep d d' k r /\ typed_slot r /\ total_bytes d' <= total_bytes d /\
    look now r = look now (Database.entries d !! k) /\
    match r with
    | Some e => Entry.is_expired now e = false /\ look now r = Some (abs_value (Entry.value e), Expiry.expires_at_ms <$> Entry.expiry e)
    | None => look now (Database.entries d !! k) = None
    end.
Proof.
  intros W T. pose proof (get_changes now k d) as C. pose proof (get_fits now d W k) as F.
  assert (Ht : total_bytes (Database.get now k d).2 <= total_bytes d).
  { pose proof (stores_total _ _ _ _ (ch_entries _ _ _ _ C)) as St. unfold Database.get in *.
    destruct (Database.entries d !! k) as [e|]; [|done].
    destruct (Entry.is_expired now e); cbn [fst snd slot_size from_option] in *; [lia|].
    unfold Database.estimate_entry_size in *. simpl in *. lia. }
  pose proof (wf_update _ _ _ _ W C F) as W'.
  exists (Database.get now k d).1, (Database.get now k d).2.
  split_and!; [apply surjective_pairing|by split; [|apply C]| |done| |]; clear -T;
    unfold Database.get; destruct (Database.entries d !! k) as [e|]; try done;
    destruct (Entry.is_expired now e) eqn:X; cbn [fst]; try done; try by rewrite look_dead.
  by rewrite !look_visible.
Qed.

Lemma string_of_look e : typed_slot (Some e) -> string_of e = ok_or (text (abs_value (Entry.value e))) WrongType.
Proof.
  unfold typed_slot, string_of. simpl. destruct (Entry.value e) as [|cell| | | | | | | |]; try done. simpl. intros T.
  rewrite itoa_decimal; [done|]. unfold in_i64, i64_min, i64_max, AtomicIntCell.load in *. lia.
Qed.

Lemma insert_serve k e d : wf d -> (Z.of_nat (total_bytes d + Database.estimate_entry_size k e) < 2 ^ 64)%Z ->
  dstep d (Database.insert k e d) k (Some e).
Proof. intros W F. apply dstep_changes; [done|apply insert_changes|simpl; lia]. Qed.

Lemma look_put now b x lru : look now (Some (Entry.mk (TString b) x lru)) = put now b (Expiry.expires_at_ms <$> x).
Proof.
  unfold look, seen, put, Entry.is_expired, alive. destruct x as [[ms]|]; simpl; [|done].
  unfold Expiry.is_expired. simpl. repeat case_bool_decide; simpl in *; try done; lia.
Qed.

(** ** Reads *)

Lemma read_ro now k s : swf s -> read_for k (Database.get_ro now k) s = Some (live now (slot s k)).
Proof. intros W. destruct (shard_of s k W) as (d & Hd & _ & ->). unfold read_for. by rewrite Hd. Qed.

Lemma look_live now o :
  look now o = (fun e => (abs_value (Entry.value e), Expiry.expires_at_ms <$> Entry.expiry e)) <$> live now o.
Proof. unfold look, seen, live. destruct o as [e|]; [|done]. simpl. by destruct (Entry.is_expired now e). Qed.

Lemma live_typed now o e : typed_slot o -> live now o = Some e -> typed_slot (Some e).
Proof. unfold live. destruct o as [x|]; [|done]. simpl. destruct (Entry.is_expired now x); [done|]. by intros T [= ->]. Qed.

Lemma reading_refines now k none f h :
  (forall s, swf s -> h s = Some (match live now (slot s k) with
                                  | None => inr none
                                  | Some e => bindr (string_of e) (fun b => inr (f b))
                                  end, s)) ->
  refines now h (inr (reading k none f)).
Proof.
  intros Hh s W T _. cbn [key reading answer]. exists s. rewrite (Hh s W), look_live. clear Hh.
  destruct (live now (slot s k)) as [e|] eqn:E; [|done]. cbn [fmap option_fmap option_map on_string].
  rewrite string_of_look by (eapply live_typed; [apply T|exact E]).
  by destruct (text (abs_value (Entry.value e))).
Qed.

Lemma range_of_sub_range b start end_ : range_of b start end_ = Some (sub_range b start end_).
Proof.
  unfold range_of, sub_range, normalize_range_idx. cbv beta zeta.
  assert (P : forall i, (0 <= if bool_decide (i < 0)%Z then Z.max (Z.of_nat (length b) + i) 0 else i)%Z).
  { intros i. case_bool_decide; lia. }
  generalize (P start), (P end_).
  generalize (if bool_decide (start < 0)%Z then Z.max (Z.of_nat (length b) + start) 0 else start).
  generalize (if bool_decide (end_ < 0)%Z then Z.max (Z.of_nat (length b) + end_) 0 else end_).
  clear. intros e st Hst He. repeat case_bool_decide; cbn [orb].
  1,2: replace (Z.to_nat (e + 1) - Z.to_nat st) with 0 by lia; by rewrite take_0.
  - by rewrite drop_ge, take_nil by lia.
  - unfold slice. rewrite bool_decide_eq_true_2 by lia. f_equal. destruct (Z.le_gt_cases e (Z.of_nat (length b) - 1)).
    + f_equal. lia.
    + rewrite !take_ge by (rewrite length_drop; lia). done.
Qed.

Lemma get_refines now args : forall r, request now GET args = Some r -> refines now (cmd_get now args) r.
Proof.
  intros r [= <-]. apply refines_arity, refines_try. intros k _. apply reading_refines. intros s W.
  rewrite read_ro by done. by destruct (live now (slot s k)).
Qed.

Lemma strlen_refines now args : forall r, request now STRLEN args = Some r -> refines now (cmd_strlen now args) r.
Proof.
  intros r [= <-]. apply refines_arity, refines_try. intros k _. apply reading_refines. intros s W.
  rewrite read_ro by done. by destruct (live now (slot s k)).
Qed.

Lemma getrange_refines now args : forall r, request now GETRANGE args = Some r -> refines now (cmd_getrange now args) r.
Proof.
  intros r [= <-]. apply refines_arity, refines_try. intros k _. apply refines_try. intros start _.
  apply refines_try. intros end_ _. apply reading_refines. intros s W.
  rewrite read_ro by done. mstep. destruct (live now (slot s k)) as [e|]; [|done].
  destruct (string_of e) as [|b]; [done|]. cbn [try_at bindr]. by rewrite range_of_sub_range.
Qed.

(** ** Writes *)

Lemma live_seen now o : typed_slot o -> typed_slot (live now o).
Proof. unfold live. destruct o as [x|]; [|done]. simpl. by destruct (Entry.is_expired now x). Qed.

Lemma put_forever now b : put now b None = Some (Text b, None).
Proof. done. Qed.

(** A string inserted after a lookup. *)
Lemma insert_after now d d' k o b x lru (reply : Result Resp) : dstep d d' k o -> total_bytes d' <= total_bytes d ->
  (Z.of_nat (total_bytes d + (64 + length k + length b)) < 2 ^ 64)%Z ->
  exists d2 o2, Some (reply, Database.insert k (Entry.mk (TString b) x lru) d') = Some (reply, d2) /\
    dstep d d2 k o2 /\ typed_slot o2 /\ look now o2 = put now b (Expiry.expires_at_ms <$> x).
Proof.
  intros St Ht F. eexists _, (Some (Entry.mk (TString b) x lru)). split; [done|]. split; [|split; [done|apply look_put]].
  eapply dstep_trans; [exact St|apply insert_serve; [apply St|]]. unfold Database.estimate_entry_size. simpl. lia.
Qed.

Lemma same_step d k : wf d -> dstep d d k (Database.entries d !! k).
Proof. intros W. split; [done|]. unfold stores. symmetry. apply partial_alter_self. Qed.

Lemma getset_refines now args : forall r, request now GETSET args = Some r -> refines now (cmd_getset now args) r.
Proof.
  intros r [= <-]. apply refines_arity, refines_try. intros k _. apply refines_try. intros value _.
  apply serves_refines. intros d W T c F. subst c. cbn [key writes answer] in *.
  destruct (get_serve now k d W T) as (r & d' & -> & St & Tr & Ht & Hl & Hr). cbv beta iota.
  rewrite <- Hl. destruct r as [e|].
  - destruct Hr as [X Hr]. rewrite Hr, (string_of_look e Tr). cbn [on_string].
    destruct (text (abs_value (Entry.value e))) as [b|]; cbn [bindr ok_or try_at fst snd].
    + by eapply (insert_after now _ _ _ _ value None).
    + exists d', (Some e). by rewrite Hr.
  - change (look now None) with (@None (Value * option Z)). cbn [on_string try_at fst snd].
    by eapply (insert_after now _ _ _ _ value None).
Qed.

Lemma setnx_refines now args : forall r, request now SETNX args = Some r -> refines now (cmd_setnx now args) r.
Proof.
  intros r [= <-]. apply refines_arity, refines_try. intros k _. apply refines_try. intros value _.
  apply serves_refines. intros d W T c F. subst c. cbn [key writes answer] in *. unfold Database.contains_key.
  destruct (get_serve now k d W T) as (r & d' & -> & St & Tr & Ht & Hl & Hr). cbv beta iota.
  destruct r as [e|]; cbn [is_Some bool_decide].
  - rewrite bool_decide_eq_true_2 by eauto. destruct Hr as [X Hr]. rewrite <- Hl, Hr. exists d', (Some e). by rewrite Hr.
  - rewrite bool_decide_eq_false_2 by (by intros []). rewrite Hr. by eapply (insert_after now _ _ _ _ value None).
Qed.

Lemma setex_serves now k n unit val : 
  serves now (mkRequest k (fun _ => length val) (fun _ => (inr ok, put now val (Some (now + n * unit)%Z))))
    (fun d => Some (inr ok, Database.insert k (Entry.with_expiry (TString val) (Expiry.from_duration now (n * unit))) d)).
Proof.
  intros d W T c F. cbn [key writes answer fst snd] in *.
  by apply (insert_after now d d k _ val (Some (Expiry.from_duration now (n * unit))) 0 (inr ok) (same_step d k W)).
Qed.

Lemma setex_refines now args : forall r, request now SETEX args = Some r -> refines now (cmd_setex now args) r.
Proof.
  intros r [= <-]. apply refines_arity, refines_try. intros k _. apply refines_try. intros n _.
  apply refines_try. intros val _. apply refines_if, serves_refines, setex_serves.
Qed.

Lemma psetex_refines now args : forall r, request now PSETEX args = Some r -> refines now (cmd_psetex now args) r.
Proof.
  intros r [= <-]. apply refines_arity, refines_try. intros k _. apply refines_try. intros n _.
  apply refines_try. intros val _. apply refines_if. pose proof (serves_refines _ _ _ (setex_serves now k n 1 val)) as S.
  by rewrite Z.mul_1_r in S |- *.
Qed.

(** A new deadline for an entry that is there. *)
Lemma set_expiry_step d d' k e x : dstep d d' k (Some e) ->
  dstep d (Database.set_expiry k x d') k (Some (Entry.set_expiry x e)).
Proof.
  intros St. eapply dstep_trans; [exact St|]. pose proof (set_expiry_changes k x d') as C.
  rewrite (dstep_slot _ _ _ _ St) in C. apply dstep_changes; [apply St|exact C|].
  rewrite (dstep_slot _ _ _ _ St). pose proof (wf_fits _ (proj1 St)). simpl. unfold Database.estimate_entry_size. simpl. lia.
Qed.

Lemma look_set_expiry now e x b :
  look now (Some (Entry.set_expiry x e))
  = if bool_decide (alive now (TString b, Expiry.expires_at_ms <$> x))
    then Some (abs_value (Entry.value e), Expiry.expires_at_ms <$> x) else None.
Proof.
  unfold look, seen, Entry.is_expired, alive. cbn [mbind option_bind Entry.expiry Entry.set_expiry].
  destruct x as [[ms]|]; simpl; [|done]. unfold Expiry.is_expired. simpl. repeat case_bool_decide; simpl in *; try done; lia.
Qed.

Lemma getex_refines now args : forall r, request now GETEX args = Some r -> refines now (cmd_getex now args) r.
Proof.
  intros r [= <-]. apply refines_arity, refines_try. intros k _.
  apply serves_refines. intros d W T c F. subst c. cbn [key writes answer] in *. unfold getex_answer.
  destruct (get_serve now k d W T) as (r & d' & -> & St & Tr & Ht & Hl & Hr). cbv beta iota.
  rewrite <- Hl. destruct r as [e|]; [|by exists d', None].
  destruct Hr as [X Hr]. rewrite Hr, (string_of_look e Tr). cbn [on_string].
  destruct (text (abs_value (Entry.value e))) as [b|]; cbn [ok_or try_at]; [|exists d', (Some e); by rewrite Hr].
  case_bool_decide; [|exists d', (Some e); by rewrite Hr].
  destruct (getex_option now args) as [err|x]; cbn [try_at]; [exists d', (Some e); by rewrite Hr|].
  exists (Database.set_expiry k x d'), (Some (Entry.set_expiry x e)). cbn [fst snd]. split_and!; [done|by apply set_expiry_step|done|apply look_set_expiry].
Qed.

(** ** APPEND and SETRANGE *)

Lemma appendable_look v : typed_slot (Some (Entry.new v)) ->
  match appendable v with
  | Some (b, n) => text (abs_value v) = Some b /\ n = Database.value_size v
  | None => text (abs_value v) = None
  end.
Proof.
  unfold typed_slot. simpl. destruct v as [|cell| | | | | | | |]; try done. simpl. intros T. split; [|done].
  rewrite itoa_decimal; [done|]. unfold in_i64, i64_min, i64_max, AtomicIntCell.load in *. lia.
Qed.

Lemma append_refines now args : forall r, request now APPEND args = Some r -> refines now (cmd_append now args) r.
Proof.
  intros r [= <-]. apply refines_arity, refines_try. intros k _. apply refines_try. intros val _.
  apply serves_refines. intros d W T c F. subst c. cbn [key writes answer] in *. unfold append_body, append_answer.
  destruct (get_mut_step now k d W) as [St E]. destruct (Database.get_mut now k d) as [r d'] eqn:G. cbn [fst snd] in St, E.
  subst r. rewrite look_live in F |- *. pose proof (dstep_total _ _ _ _ St) as Ht.
  pose proof (live_seen now _ T) as Tl. assert (Hs : slot_size Database.estimate_entry_size k (live now (Database.entries d !! k))
    <= slot_size Database.estimate_entry_size k (Database.entries d !! k)).
  { unfold live. destruct (Database.entries d !! k) as [x|]; [|done]. simpl. destruct (Entry.is_expired now x); simpl; lia. }
  pose proof (look_live now (live now (Database.entries d !! k))) as L.
  destruct (live now (Database.entries d !! k)) as [e|] eqn:El; cbn [fmap option_fmap option_map on_string].
  2: { cbn [from_option fst snd app mbind option_bind]. eapply (insert_after now _ _ _ _ val None 0); [exact St|lia|]. cbn in F. lia. }
  assert (X : live now (Some e) = Some e).
  { unfold live in El. destruct (Database.entries d !! k) as [x|]; [|done]. simpl in El.
    destruct (Entry.is_expired now x) eqn:Ex; [done|]. injection El as <-. simpl. by rewrite Ex. }
  rewrite X in L. cbn [fmap option_fmap option_map] in L, F. cbn [cell_text mbind option_bind] in F.
  pose proof (appendable_look (Entry.value e) Tl) as A.
  destruct (appendable (Entry.value e)) as [[b n]|].
  2: { rewrite A. exists d', (Some e). by rewrite L. }
  destruct A as [A ->]. rewrite A in F |- *. cbn [from_option fst snd default mbind option_bind] in *.
  eexists _, (Some (Entry.set_value (TString (b ++ val)) e)). split_and!; [done| |done|].
  - eapply dstep_trans; [exact St|]. eapply modify_step; [apply St|apply (dstep_slot _ _ _ _ St)|done| |];
      unfold Database.estimate_entry_size in *; simpl in *; lia.
  - rewrite look_live. unfold live in X |- *. simpl in *. unfold Entry.is_expired in *. simpl in *.
    by destruct (match Entry.expiry e with Some x => Expiry.is_expired now x | None => false end).
Qed.

Lemma put_live now e b : Entry.is_expired now e = false ->
  put now b (Expiry.expires_at_ms <$> Entry.expiry e) = Some (Text b, Expiry.expires_at_ms <$> Entry.expiry e).
Proof. intros X. by rewrite <- (look_put now b (Entry.expiry e) 0), look_visible. Qed.

(** INSERT and then the deadline that was there before. *)
Lemma insert_keep now d d' k o b (x : option Expiry.t) (reply : Result Resp) :
  dstep d d' k o -> total_bytes d' <= total_bytes d ->
  (Z.of_nat (total_bytes d + (64 + length k + length b)) < 2 ^ 64)%Z ->
  exists d2 o2, Some (reply, match x with
                             | Some x => Database.set_expiry k (Some x) (Database.insert k (Entry.new (TString b)) d')
                             | None => Database.insert k (Entry.new (TString b)) d'
                             end) = Some (reply, d2) /\
    dstep d d2 k o2 /\ typed_slot o2 /\ look now o2 = put now b (Expiry.expires_at_ms <$> x).
Proof.
  intros St Ht F. destruct (insert_after now d d' k o b None 0 reply St Ht F) as (d2 & o2 & E & St2 & T2 & L2).
  destruct x as [x|]; [|by exists d2, o2].
  eexists _, (Some (Entry.set_expiry (Some x) (Entry.new (TString b)))). split; [done|].
  split; [|split; [done|apply look_put]]. eapply dstep_trans; [exact St|].
  assert (St3 : dstep d' (Database.insert k (Entry.new (TString b)) d') k (Some (Entry.new (TString b)))).
  { apply insert_serve; [apply St|]. unfold Database.estimate_entry_size. simpl. lia. }
  eapply dstep_trans; [exact St3|]. apply (set_expiry_step _ _ _ (Entry.new (TString b))).
  pose proof (same_step _ k (proj1 St3)) as Sm. by rewrite (dstep_slot _ _ _ _ St3) in Sm.
Qed.

(** Looking twice finds the same. *)
Lemma get_again now k d r d' : wf d -> typed_slot (Database.entries d !! k) -> Database.get now k d = (r, d') ->
  dstep d d' k r -> match r with Some e => Entry.is_expired now e = false | None => True end ->
  exists r2 d2, Database.get now k d' = (r2, d2) /\ dstep d d2 k r2 /\ total_bytes d2 <= total_bytes d' /\
    typed_slot r2 /\ Entry.expiry <$> r2 = Entry.expiry <$> r /\ look now r2 = look now r.
Proof.
  intros W T E St X. destruct (get_serve now k d W T) as (r0 & d0 & E0 & _ & T0 & _). rewrite E in E0. injection E0 as <- <-.
  rewrite <- (dstep_slot _ _ _ _ St) in T0.
  destruct (get_serve now k d' (proj1 St) T0) as (r2 & d2 & E2 & St2 & T2 & Ht2 & Hl & _). exists r2, d2.
  rewrite (dstep_slot _ _ _ _ St) in Hl. split_and!; [done|by eapply dstep_trans|done|done| |done].
  unfold Database.get in E2. rewrite (dstep_slot _ _ _ _ St) in E2. destruct r as [e|]; [|by injection E2 as <- _].
  rewrite X in E2. by injection E2 as <- _.
Qed.

Lemma setrange_serves now k offset patch : (0 <= offset <= MAX_SETRANGE_OFFSET)%Z ->
  serves now (mkRequest k (fun c => length (patched (default [] (cell_text c)) (Z.to_nat offset) patch))
                (setrange_answer (Z.to_nat offset) patch)) (setrange_body now k offset patch).
Proof.
  intros Ho d W T c F. subst c. cbn [key writes answer] in *. unfold setrange_body, setrange_answer.
  destruct (get_serve now k d W T) as (r & d' & G & St & Tr & Ht & Hl & Hr). rewrite G. cbv beta iota.
  destruct (get_again now k d r d' W T G St) as (r2 & d2 & G2 & St2 & Ht2 & _ & Hx & _); [by destruct r as [e|]; [apply Hr|]|].
  assert (P : bool_decide (2 ^ 64 <= offset + Z.of_nat (length patch))%Z
    || bool_decide (MAX_SETRANGE_OFFSET < offset + Z.of_nat (length patch))%Z
    = bool_decide (MAX_SETRANGE_OFFSET < Z.of_nat (Z.to_nat offset + length patch))%Z).
  { unfold MAX_SETRANGE_OFFSET in *. rewrite Nat2Z.inj_add, Z2Nat.id by lia. repeat case_bool_decide; simpl; lia || done. }
  rewrite <- Hl in F |- *. destruct r as [e|].
  - destruct Hr as [X Hr]. rewrite Hr, (string_of_look e Tr) in *. cbn [on_string cell_text mbind option_bind] in *.
    destruct (text (abs_value (Entry.value e))) as [b|]; cbn [ok_or try_at default from_option fst snd] in *;
      [|exists d', (Some e); by rewrite Hr].
    destruct (bool_decide (patch = [])); [exists d', (Some e); by rewrite Hr|]. rewrite P. clear P.
    case_bool_decide; [exists d', (Some e); by rewrite Hr|].
    rewrite G2. cbv beta iota. cbn [fst snd option_bind mbind]. destruct r2 as [e2|]; [|done]. injection Hx as Hx.
    cbn [option_bind]. rewrite <- (put_live now e _ X), <- Hx.
    unfold Datatypes.id in F. eapply insert_keep; [exact St2|lia|lia].
  - change (look now None) with (@None (Value * option Z)) in *. cbn [on_string try_at from_option fst snd cell_text mbind option_bind] in *.
    destruct (bool_decide (patch = [])); [by exists d', None|]. rewrite P. clear P. case_bool_decide; [by exists d', None|].
    rewrite G2. cbv beta iota. cbn [fst snd]. destruct r2 as [e2|]; [done|]. eapply (insert_keep now _ _ _ _ _ None); [exact St2|lia|].
    cbn in F. lia.
Qed.

Lemma setrange_refines now args : forall r, request now SETRANGE args = Some r -> refines now (cmd_setrange now args) r.
Proof.
  intros r [= <-]. apply refines_arity, refines_try. intros k _. apply refines_try. intros offset _.
  apply refines_try. intros patch _. intros s W T. case_bool_decide; [done|]. case_bool_decide; [done|].
  apply (serves_refines now _ _ (setrange_serves now k offset patch ltac:(lia)) s W T).
Qed.

(** ** Counters *)

(** Both paths of the increment, on the shard of the key. *)
Definition incr_body (now : Z) (k : bytes) (delta : Z) (d : Database.t) : may_panic (Result Resp * Database.t) :=
  let '(r, d) :=
    match Database.get_ro now k d with
    | Some (Entry.mk (TInt cell) x lru) =>
        let '(r, cell) := AtomicIntCell.checked_add cell delta in
        (match r with Some n => inr n | None => inl Overflow end, Database.write_back k (Entry.mk (TInt cell) x lru) d)
    | _ => Database.incr_int now k delta d
    end in
  Some (let! n := r in inr (int n), d).

Lemma incr_int_body now k delta s :
  ('(r, s) ← incr_int now k delta s; Some (let! n := r in inr (int n), s))
  = on_shard (shard_idx s k) (incr_body now k delta) s.
Proof.
  unfold incr_int, on_shard, incr_body, write_for. destruct (shards s !! shard_idx s k) as [d|] eqn:E; [|done]. mstep.
  destruct (Database.get_ro now k d) as [[[|cell| | | | | | | |] x lru]|];
    try (unfold on_shard; rewrite E; mstep; by destruct (Database.incr_int now k delta d)).
  by destruct (AtomicIntCell.checked_add cell delta).
Qed.

Lemma show_int_utf8 n : from_utf8 (show_int n) = Some (show_int n).
Proof.
  assert (A : forall m, (0 <= m)%Z -> Forall ascii (dec m)).
  { intros m Hm. destruct (dec_spec m Hm) as (_ & Hd & _). eapply Forall_impl; [exact Hd|]. intros b Hb. by apply is_digit_ascii. }
  unfold from_utf8. rewrite utf8_valid_ascii; [done|]. unfold show_int. destruct (Z.ltb_spec n 0); [|by apply A].
  apply Forall_app. split; [repeat constructor|apply A; lia].
Qed.

Lemma counter_slot now k v x lru : in_i64 (AtomicIntCell.value v) ->
  Entry.is_expired now (Entry.mk (TInt v) x lru) = false ->
  typed_slot (Some (Entry.mk (TInt v) x lru)) /\
  look now (Some (Entry.mk (TInt v) x lru)) = Some (Text (show_int (AtomicIntCell.value v)), Expiry.expires_at_ms <$> x).
Proof. intros T X. split; [done|]. by rewrite look_visible. Qed.

(** The slow path: an error changes nothing, a success leaves a counter. *)
Lemma incr_slow now k delta d : wf d -> in_i64 delta ->
  (Z.of_nat (total_bytes d + (64 + length k + 8)) < 2 ^ 64)%Z ->
  match (Database.incr_int now k delta d).1 with
  | inl _ => (Database.incr_int now k delta d).2 = d
  | inr _ => exists e, dstep d (Database.incr_int now k delta d).2 k (Some e) /\
      Database.entries (Database.incr_int now k delta d).2 !! k = Some e
  end.
Proof.
  intros W D F. pose proof (incr_int_changes now k delta d) as C.
  destruct (Database.incr_int now k delta d).1 eqn:R; [done|]. destruct C as [e C]. exists e.
  assert (E : Database.entries (Database.incr_int now k delta d).2 !! k = Some e).
  { rewrite (ch_entries _ _ _ _ C). apply lookup_partial_alter_eq. }
  split; [|done]. apply dstep_changes; [done|exact C|]. simpl.
  assert (Hv : Database.value_size (Entry.value e) = 8); [|unfold Database.estimate_entry_size; lia].
  revert R E. clear. unfold Database.incr_int.
  destruct (Database.entries d !! k) as [old|]; [destruct (Entry.is_expired now old)|]; cbn [fst snd].
  - fields. rewrite lookup_insert_eq. by intros _ [= <-].
  - destruct (Entry.value old); try done.
    + destruct (_ ≫= _) as [cur|]; [|done]. destruct (checked_add_i64 cur delta) as [n|]; [|done]. cbn [fst snd].
      fields. rewrite lookup_insert_eq. by intros _ [= <-].
    + destruct (checked_add_i64 _ delta) as [n|]; [|done]. cbn [fst snd]. fields. rewrite lookup_insert_eq. by intros _ [= <-].
  - fields. rewrite lookup_insert_eq. by intros _ [= <-].
Qed.

(** The fast path keeps the size. *)
Lemma count_step d k cell cell' x lru : wf d -> Database.entries d !! k = Some (Entry.mk (TInt cell) x lru) ->
  dstep d (Database.write_back k (Entry.mk (TInt cell') x lru) d) k (Some (Entry.mk (TInt cell') x lru)).
Proof.
  intros W E. apply (modify_step d k _ _ 0 W E); [done|unfold Database.estimate_entry_size; simpl; lia|]. pose proof (wf_fits _ W). lia.
Qed.

(** Ends a branch in which the slow path left a counter, or nothing happened. *)
Ltac counter S :=
  let e := fresh "e" in let St := fresh "St" in let L := fresh "L" in
  destruct S as (e & St & L); eexists _, _; split; [done|]; split; [exact St|];
  revert L; fields; rewrite lookup_insert_eq; intros [= <-]; by apply counter_slot.

Ltac unchanged E :=
  eexists _, _; split; [done|]; split; [by apply same_step|]; rewrite E; split; [done|by rewrite look_visible].

Lemma incr_serves now k delta : in_i64 delta ->
  serves now (mkRequest k (fun _ => 8) (incr_answer delta)) (incr_body now k delta).
Proof.
  intros D d W T c F. subst c. cbn [key writes answer] in *. unfold incr_body.
  pose proof (incr_slow now k delta d W D F) as S. unfold Database.get_ro.
  destruct (Database.entries d !! k) as [e|] eqn:E; [destruct (Entry.is_expired now e) eqn:X|].
  - rewrite (look_dead _ _ X). unfold Database.incr_int in S |- *. rewrite E, X in S |- *. cbn [fst snd incr_answer] in *.
    counter S.
  - rewrite (look_visible _ _ X). destruct e as [v x lru]. cbn [Entry.value Entry.expiry] in *.
    destruct v as [b|cell|?|?|?|?|b|?|?|?]; cbn [abs_value incr_answer].
    2: { cbn in T. rewrite show_int_utf8. cbn [mbind option_bind]. rewrite parse_i64_show by done.
      unfold AtomicIntCell.checked_add, checked_add_i64. case_bool_decide; cbn [bindr fst snd];
        (eexists _, _; split; [done|]; split; [by apply (count_step d k cell)|by apply counter_slot]). }
    2-9: unfold Database.incr_int; rewrite E, X; cbn [Entry.value bindr fst snd];
      unchanged E.
    unfold Database.incr_int in S |- *. rewrite E, X in S |- *. cbn [Entry.value Entry.expiry bindr fst snd] in *.
    destruct (from_utf8 b ≫= parse_i64) as [cur|]; cbn [bindr fst snd] in *.
    2: unchanged E.
    unfold checked_add_i64 in *. case_bool_decide; cbn [bindr fst snd] in *.
    2: unchanged E.
    counter S.
  - unfold Database.incr_int in S |- *. rewrite E in S |- *. cbn [fst snd incr_answer] in *.
    counter S.
Qed.

Lemma incr_by_refines now args delta cmd : in_i64 delta -> refines now (incr_by now args delta cmd) (incr_request args delta cmd).
Proof.
  intros D. apply refines_arity, refines_try. intros k _ s. rewrite incr_int_body.
  apply (serves_refines now _ _ (incr_serves now k delta D)).
Qed.

Lemma incr_refines now args : forall r, request now INCR args = Some r -> refines now (cmd_incr now args) r.
Proof. intros r [= <-]. by apply incr_by_refines. Qed.

Lemma decr_refines now args : forall r, request now DECR args = Some r -> refines now (cmd_decr now args) r.
Proof. intros r [= <-]. by apply incr_by_refines. Qed.

Lemma incrby_refines now args : forall r, request now INCRBY args = Some r -> refines now (cmd_incrby now args) r.
Proof.
  intros r [= <-]. apply refines_arity, refines_try. intros delta Hd. apply incr_by_refines. by eapply get_i64_range.
Qed.

Lemma decrby_refines now args : forall r, request now DECRBY args = Some r -> refines now (cmd_decrby now args) r.
Proof. intros r [= <-]. apply refines_arity, refines_try. intros delta _. apply incr_by_refines, wrap_i64_range. Qed.

(** ** SET *)

(** Lookups have happened; clients see the key as before. *)
Definition looked (now : Z) (k : bytes) d d' : Prop :=
  exists o, dstep d d' k o /\ typed_slot o /\ look now o = look now (Database.entries d !! k) /\ total_bytes d' <= total_bytes d.

Lemma looked_refl now k d : wf d -> typed_slot (Database.entries d !! k) -> looked now k d d.
Proof. intros W T. eexists. split; [by apply same_step|done]. Qed.

Lemma looked_get now k d d1 : looked now k d d1 ->
  exists r d2, Database.get now k d1 = (r, d2) /\ looked now k d d2 /\
    look now (Database.entries d !! k)
      = (fun e => (abs_value (Entry.value e), Expiry.expires_at_ms <$> Entry.expiry e)) <$> r /\
    forall e, r = Some e -> string_of e = ok_or (text (abs_value (Entry.value e))) WrongType.
Proof.
  intros (o & St & T & L & Ht). rewrite <- (dstep_slot _ _ _ _ St) in T, L.
  destruct (get_serve now k d1 (proj1 St) T) as (r & d2 & E & St2 & T2 & Ht2 & L2 & Hr). exists r, d2.
  split_and!; [done|exists r; split_and!; [by eapply dstep_trans|done|congruence|lia]| |].
  - rewrite <- L. destruct r as [e|]; [|done]. destruct Hr as [_ Hr]. by rewrite <- L2, Hr.
  - intros e ->. by apply string_of_look.
Qed.

Lemma plain_answer now opts value c : plain opts = true -> set_answer now opts value c = (inr ok, put now value None).
Proof.
  destruct opts as [x n xx g kt eq gt lt]. unfold plain, set_answer. simpl.
  destruct n, xx, g, kt, x, eq, gt, lt; done.
Qed.

Lemma set_plain_serves now k opts value : plain opts = true ->
  serves now (mkRequest k (fun _ => length value) (set_answer now opts value))
    (fun d => Some (inr ok, Database.set_plain now k value d)).
Proof.
  intros P d W T c F. cbn [key writes answer] in *. rewrite plain_answer by done.
  destruct (set_plain_changes now k value d) as [lru C].
  eexists _, (Some (Entry.mk (TString value) None lru)). split; [done|].
  split; [|split; [done|apply look_put]]. apply dstep_changes; [done|exact C|].
  unfold Database.estimate_entry_size. simpl. lia.
Qed.

Lemma looked_insert now k d d' b x lru (reply : Result Resp) : looked now k d d' ->
  (Z.of_nat (total_bytes d + (64 + length k + length b)) < 2 ^ 64)%Z ->
  exists d2 o2, Some (reply, Database.insert k (Entry.mk (TString b) x lru) d') = Some (reply, d2) /\
    dstep d d2 k o2 /\ typed_slot o2 /\ look now o2 = put now b (Expiry.expires_at_ms <$> x).
Proof. intros (o & St & _ & _ & Ht) F. by eapply insert_after. Qed.

Lemma looked_done now k d d' (reply : Result Resp) : looked now k d d' ->
  exists d2 o2, Some (reply, d') = Some (reply, d2) /\ dstep d d2 k o2 /\ typed_slot o2 /\
    look now o2 = look now (Database.entries d !! k).
Proof. intros (o & St & T & L & _). by exists d', o. Qed.

Definition conditional (opts : SetOptions) : bool := is_some (ifeq opts) || is_some (ifgt opts) || is_some (iflt opts).

(** The four lookups, in terms of the cell. *)
Section Stages.
Context (now : Z) (k : bytes) (opts : SetOptions) (d d1 : Database.t) (L : looked now k d d1).
#[local] Notation c := (look now (Database.entries d !! k)).

Lemma old_value_look : exists d2, looked now k d d2 /\
  old_value now opts k d1
  = (if get opts then if is_some c && negb (is_some (cell_text c)) then inl WrongType
                      else inr (Some (from_option bulk null (cell_text c)))
     else inr None, d2).
Proof.
  unfold old_value. destruct (get opts); [|by exists d1].
  destruct (looked_get now k d d1 L) as (r & d2 & -> & L2 & Hc & Hs). exists d2. split; [done|]. rewrite Hc.
  destruct r as [e|]; [|done]. rewrite (Hs e eq_refl). simpl. by destruct (text (abs_value (Entry.value e))).
Qed.

Lemma blocked_look : exists d2, looked now k d d2 /\
  blocked now opts k d1 = (nx opts && is_some c || xx opts && negb (is_some c), d2).
Proof.
  unfold blocked. destruct (nx opts || xx opts) eqn:E; [|exists d1; by destruct (nx opts), (xx opts)].
  unfold Database.contains_key. destruct (looked_get now k d d1 L) as (r & d2 & -> & L2 & Hc & _). exists d2.
  split; [done|]. rewrite Hc. unfold is_some. by rewrite is_Some_fmap.
Qed.

Lemma passes_look : exists d2, looked now k d d2 /\
  passes now opts k d1
  = (if conditional opts then if is_some c && negb (is_some (cell_text c)) then inl WrongType
                              else inr (from_option (condition opts) false (cell_text c))
     else inr true, d2).
Proof.
  unfold passes. fold (conditional opts). destruct (conditional opts); [|by exists d1].
  destruct (looked_get now k d d1 L) as (r & d2 & -> & L2 & Hc & Hs). exists d2. split; [done|]. rewrite Hc.
  destruct r as [e|]; [|done]. rewrite (Hs e eq_refl). simpl. by destruct (text (abs_value (Entry.value e))).
Qed.

Lemma effective_expiry_look : exists x d2, looked now k d d2 /\ effective_expiry now opts k d1 = (x, d2) /\
  Expiry.expires_at_ms <$> x = if keepttl opts then cell_deadline c else Expiry.expires_at_ms <$> expiry opts.
Proof.
  unfold effective_expiry. destruct (keepttl opts); [|by exists (expiry opts), d1].
  destruct (looked_get now k d d1 L) as (r & d2 & -> & L2 & Hc & _). exists (r ≫= Entry.expiry), d2.
  split_and!; [done..|]. rewrite Hc. by destruct r.
Qed.
End Stages.

Lemma set_flagged_serves now k opts value : (conditional opts = true -> nx opts || xx opts = false) ->
  serves now (mkRequest k (fun _ => length value) (set_answer now opts value)) (set_flagged now opts k value).
Proof.
  intros Hex d W T c F. cbn [key writes answer] in *. unfold set_flagged, set_answer. fold (conditional opts).
  pose proof (looked_refl now k d W T) as L0.
  destruct (old_value_look now k opts d d L0) as (d1 & L1 & ->).
  destruct (blocked_look now k opts d d1 L1) as (d2 & L2 & E2).
  destruct (passes_look now k opts d d2 L2) as (d3 & L3 & E3).
  destruct (effective_expiry_look now k opts d d3 L3) as (x & d4 & L4 & E4 & Hx).
  fold c in E2, E3, Hx |- *.
  assert (I : forall reply : Result Resp, exists d5 o, Some (reply, Database.insert k
      match x with Some x => Entry.with_expiry (TString value) x | None => Entry.new (TString value) end d4) = Some (reply, d5)
    /\ dstep d d5 k o /\ typed_slot o
    /\ look now o = put now value (if keepttl opts then cell_deadline c else Expiry.expires_at_ms <$> expiry opts)).
  { intros reply. rewrite <- Hx. destruct x; by eapply looked_insert. }
  rewrite <- (andb_assoc (get opts || conditional opts)).
  destruct (is_some c && negb (is_some (cell_text c))) eqn:Ew.
  - rewrite andb_true_r.
    destruct (get opts) eqn:Eg; cbn [orb andb try_at fst snd]; [by apply (looked_done now k d d1)|].
    rewrite E2. destruct (conditional opts) eqn:Ec; cbn [orb andb].
    + specialize (Hex eq_refl). apply orb_false_iff in Hex as [-> ->]. cbn [orb andb]. rewrite E3. cbn [try_at].
      by apply (looked_done now k d d3).
    + destruct (nx opts && is_some c || xx opts && negb (is_some c)) eqn:Eb; cbn [orb andb mbind option_bind fst snd];
        [by apply (looked_done now k d d2)|]. rewrite E3. cbn [try_at negb]. rewrite E4. apply I.
  - rewrite andb_false_r. cbn [fst snd]. destruct (get opts) eqn:Eg; cbn [try_at]; rewrite E2;
      (destruct (nx opts && is_some c || xx opts && negb (is_some c)) eqn:Eb; cbn [orb mbind option_bind];
        [by apply (looked_done now k d d2)|]); rewrite E3;
      (destruct (conditional opts) eqn:Ec; cbn [try_at andb];
        [destruct (from_option (condition opts) false (cell_text c)); cbn [negb]; [rewrite E4; apply I|by apply (looked_done now k d d3)]
        |cbn [negb]; rewrite E4; apply I]).
Qed.

Lemma conditional_count opts : conditional opts = true -> cond_count opts <> 0.
Proof. unfold conditional, cond_count. by destruct (is_some (ifeq opts)), (is_some (ifgt opts)), (is_some (iflt opts)). Qed.

Lemma cmd_set_refines now args : forall r, request now SET args = Some r -> refines now (cmd_set now args) r.
Proof.
  intros r [= <-]. apply refines_arity, refines_try. intros k _. apply refines_try. intros value _.
  apply refines_try. intros opts _. intros s W T. case_bool_decide as Hn; [done|].
  destruct (bool_decide (cond_count opts = 1) && (nx opts || xx opts)) eqn:E; [done|].
  destruct (plain opts) eqn:P.
  - by apply (serves_refines now _ _ (set_plain_serves now k opts value P) s).
  - apply (serves_refines now (mkRequest k (fun _ => length value) (set_answer now opts value))); [|done..].
    apply set_flagged_serves. intros Hc%conditional_count. rewrite bool_decide_eq_true_2 in E by lia. done.
Qed.

(** ** All commands on one key *)

Lemma exec_string_refines `{UnstableSort} now c args r : request now c args = Some r -> refines now (exec_string now c args) r.
Proof.
  destruct c; intros Hr; try discriminate Hr;
    eauto using cmd_set_refines, get_refines, getset_refines, getex_refines, setnx_refines, setex_refines, psetex_refines,
      incr_refines, incrby_refines, decr_refines, decrby_refines, append_refines, strlen_refines, getrange_refines,
      setrange_refines.
Qed.

(** An answer that is an error leaves the cell. *)
Definition polite (r : Result Request) : Prop :=
  forall q, r = inr q -> forall c err, (answer q c).1 = inl err -> (answer q c).2 = c.

Lemma polite_if (b : bool) err r : polite r -> polite (if b then inl err else r).
Proof. intros Hr. by destruct b. Qed.

Lemma polite_bind {A} (r : Result A) g : (forall x, polite (g x)) -> polite (bindr r g).
Proof. intros Hr. destruct r; [done|]. apply Hr. Qed.

Lemma polite_request k w f : (forall c err, (f c).1 = inl err -> (f c).2 = c) -> polite (inr (mkRequest k w f)).
Proof. intros Hf q [= <-]. exact Hf. Qed.

Lemma on_string_polite f c err : (forall old, (f old).1 = inl err -> (f old).2 = c) -> (on_string f c).1 = inl err -> (on_string f c).2 = c.
Proof. intros Hf. unfold on_string. destruct c as [[v x]|]; [|apply Hf]. destruct (text v); [apply Hf|done]. Qed.

Lemma incr_polite delta c err : (incr_answer delta c).1 = inl err -> (incr_answer delta c).2 = c.
Proof.
  unfold incr_answer. destruct c as [[[b|b|v] x]|]; try done. destruct (_ ≫= _); [|done]. by case_bool_decide.
Qed.

Lemma request_polite now c args r : request now c args = Some r -> polite r.
Proof.
  destruct c; intros [= <-]; unfold set_request, setex_request, incr_request, arity, reading;
    repeat first [apply polite_if | apply polite_bind; intros ?]; apply polite_request; intros c err;
    try (apply on_string_polite; intros [[b y]|]; simpl; done).
  - unfold set_answer. destruct (_ && negb _); done.
  - unfold getex_answer. apply on_string_polite. intros [[b y]|]; [|done]. case_bool_decide; [|done].
    by destruct (getex_option now args).
  - by destruct c.
  - done.
  - done.
  - apply incr_polite.
  - apply incr_polite.
  - apply incr_polite.
  - apply incr_polite.
  - unfold setrange_answer. apply on_string_polite. intros old. case_bool_decide; [done|]. by case_bool_decide.
Qed.

(** C2: every single-key string command but GETDEL (SET with all its options, GET,
    GETSET, GETEX, SETNX, SETEX, PSETEX, the four counters, APPEND, STRLEN,
    GETRANGE, SETRANGE) does what its request says: on a well-formed keyspace with
    room for the value it writes it does not panic, its reply is the answer to the
    cell of its key, that cell becomes the one the request says, no other slot
    changes, and the keyspace stays well formed with every integer cell an [i64].
    Integer encoding, shards, the deadline index and the byte counter do not show. *)
Theorem string_commands_refine_cells `{UnstableSort} now c args q s :
  request now c args = Some (inr q) -> swf s -> typed s -> fits now q s ->
  let cell := look now (slot s (key q)) in
  exists s', exec_string now c args s = Some ((answer q cell).1, s') /\ swf s' /\ typed s' /\
    look now (slot s' (key q)) = (answer q cell).2 /\
    forall j, j <> key q -> slot s' j = slot s j.
Proof. intros Hr W T F. exact (exec_string_refines now c args _ Hr s W T F). Qed.

(** C7: a string command that answers an error changes nothing clients see: bad
    arity, bad options, a bad number, a value of the wrong type, an overflow, a
    string too long.  GETDEL is excepted: it removes the key before it looks at
    its type. *)
Theorem string_errors_change_nothing `{UnstableSort} now c args s err s' : c <> GETDEL ->
  swf s -> typed s -> (forall q, request now c args = Some (inr q) -> fits now q s) ->
  exec_string now c args s = Some (inl err, s') ->
  forall j, look now (slot s' j) = look now (slot s j).
Proof.
  intros Hc W T F E j. destruct (request now c args) as [r|] eqn:Hr.
  - pose proof (exec_string_refines now c args r Hr s W T) as R. pose proof (request_polite now c args r Hr) as P.
    destruct r as [e|q]; [rewrite R in E; by injection E as _ <-|].
    destruct (R (F q eq_refl)) as (s2 & E2 & _ & _ & L & O). rewrite E2 in E. injection E as He <-.
    destruct (decide (j = key q)) as [->|Hj]; [|by rewrite O]. rewrite L. by eapply P.
  - destruct c; try discriminate Hr; [done|..]; revert E; cbn [exec_string].
    + unfold cmd_mset. destruct (bad_mset_arity args); [by intros [= _ <-]|].
      destruct (mset_pairs "mset" (drop 1 args)); cbn [try_at]; [by intros [= _ <-]|]. by destruct (mset _ s).
    + unfold cmd_msetnx. destruct (bad_mset_arity args); [by intros [= _ <-]|].
      destruct (mset_pairs "msetnx" (drop 1 args)); cbn [try_at]; [by intros [= _ <-]|]. by destruct (msetnx _ _ s) as [[]|].
    + unfold cmd_mget. case_bool_decide; [by intros [= _ <-]|]. destruct (mget_loop now (drop 1 args) s) as [[]|]; [by intros [= _ <-]|done..].
    + unfold cmd_lcs. case_bool_decide; [by intros [= _ <-]|].
      destruct (get_bytes_vec args 1 "LCS") as [|k1]; cbn [try_at]; [by intros [= _ <-]|].
      destruct (get_bytes_vec args 2 "LCS") as [|k2]; cbn [try_at]; [by intros [= _ <-]|].
      destruct (lcs_options (drop 3 args) _); cbn [try_at]; [by intros [= _ <-]|].
      destruct (lcs_operand now k1 s) as [[|l0]|]; cbn [try_at mbind option_bind]; [by intros [= _ <-]| |done].
      destruct (lcs_operand now k2 s) as [[|l1]|]; cbn [try_at mbind option_bind]; [by intros [= _ <-]| |done].
      by destruct (compute_lcs l0 l1) as [[]|].
Qed.

(** ** GETDEL *)

(** GETDEL of a key of another type answers WRONGTYPE and the key is gone. *)
Lemma getdel_destroys_other_types s k e : swf s -> slot s k = Some e -> string_of e = inl WrongType ->
  exists s', cmd_getdel [bulk (bstr "GETDEL"); bulk k] s = Some (inl WrongType, s') /\ slot s' k = None.
Proof.
  intros W E Hs. destruct (remove_step s k W) as (s' & R & _ & [_ A] & _). exists s'.
  split; [|by rewrite A, decide_True]. revert R.
  change (cmd_getdel [bulk (bstr "GETDEL"); bulk k] s) with (on_shard (shard_idx s k) (fun d =>
    let '(removed, d) := Database.remove k d in
    Some (match removed with
          | None => inr null
          | Some e => let! v := string_of e in inr (bulk v)
          end, d)) s). unfold on_shard.
  destruct (shards s !! shard_idx s k) as [d|]; [|done]. mstep. destruct (Database.remove k d) as [r d']. mstep.
  intros [= -> <-]. rewrite E, Hs. done.
Qed.
End Spec.

(** ** Witnesses *)

Section Witness.
#[local] Existing Instance SetData.vec_index_set.
#[local] Existing Instance plain_itoa.
#[local] Existing Instance pattern_text.
#[local] Existing Instance ascii_case.

Lemma sample_typed : typed sample_keyspace.
Proof.
  intros k. unfold sample_keyspace. destruct (mset_spec (new (2 ^ 2)) sample_pairs) as (s' & -> & _ & Hs).
  - apply swf_new. lia.
  - by apply (bool_decide_unpack _).
  - intros j. apply room_all. vm_compute. reflexivity.
  - simpl. rewrite Hs, slot_new. destruct (list_to_map sample_pairs !! k) as [e|] eqn:E; [|done].
    apply elem_of_list_to_map_2 in E. unfold sample_pairs in E. 
    repeat (apply elem_of_cons in E as [[= -> ->]|E]; [done|]). by apply elem_of_nil in E.
Qed.

Lemma abs_text o b x : text_of o = Some (b, x) -> abs o = Some (Text b, x).
Proof. destruct o as [[[] y]|]; try done. by intros [= -> ->]. Qed.

Definition set_args : list Resp :=
  bulk <$> [bstr "SET"; bstr "b"; bstr "9"; bstr "xx"; bstr "Get"; bstr "KEEPTTL"].

Definition set_opts : SetOptions := with_keepttl (with_get (with_xx no_options)).

(** [SET b 9 xx Get KEEPTTL] at time 100, where [b] holds [2] until 150. *)
Lemma string_commands_refine_cells_witness :
  exists s', exec_string 100 SET set_args sample_keyspace = Some (inr (bulk (bstr "2")), s') /\ swf s' /\
    look 100 (slot s' (bstr "b")) = Some (Text (bstr "9"), Some 150%Z).
Proof.
  assert (V : look 100 (slot sample_keyspace (bstr "b")) = Some (Text (bstr "2"), Some 150%Z)).
  { apply abs_text. vm_compute. reflexivity. }
  assert (R : room sample_keyspace (bstr "b") 66) by (apply room_all; vm_compute; reflexivity).
  pose proof (string_commands_refine_cells 100 SET set_args
    (mkRequest (bstr "b") (fun _ => length (bstr "9")) (set_answer 100 set_opts (bstr "9"))) sample_keyspace
    eq_refl sample_keyspace_wf sample_typed R) as B.
  cbn [key answer] in B. rewrite V in B. destruct B as (s' & E & W & _ & L & _).
  exists s'. split_and!; [exact E|exact W|exact L].
Defined.

Definition incrby_args : list Resp := bulk <$> [bstr "INCRBY"; bstr "a"; bstr "9223372036854775807"].

(** INCRBY past [i64::MAX]. *)
Lemma string_errors_change_nothing_witness :
  exists s', exec_string 100 INCRBY incrby_args sample_keyspace = Some (inl Overflow, s') /\
    look 100 (slot s' (bstr "a")) = Some (Text (bstr "1"), None).
Proof.
  assert (V : look 100 (slot sample_keyspace (bstr "a")) = Some (Text (bstr "1"), None)).
  { apply abs_text. vm_compute. reflexivity. }
  set (q := mkRequest (bstr "a") (fun _ => 8) (incr_answer i64_max)).
  assert (Hq : request 100 INCRBY incrby_args = Some (inr q)) by reflexivity.
  assert (R : room sample_keyspace (bstr "a") 73) by (apply room_all; vm_compute; reflexivity).
  destruct (exec_string_refines 100 INCRBY incrby_args _ Hq sample_keyspace sample_keyspace_wf sample_typed R)
    as (s' & E & _). exists s'. cbn [q key answer] in E. rewrite V in E. split; [exact E|].
  rewrite <- V. apply (string_errors_change_nothing 100 INCRBY incrby_args sample_keyspace Overflow);
    [discriminate|exact sample_keyspace_wf|exact sample_typed| |exact E].
  intros q' Hq'. rewrite Hq in Hq'. injection Hq' as <-. exact R.
Defined.

(** At 200 the key [b] no longer exists, and GETDEL returns its value. *)
Lemma getdel_returns_expired_value :
  look 200 (slot sample_keyspace (bstr "b")) = None /\
  fst <$> cmd_getdel (bulk <$> [bstr "GETDEL"; bstr "b"]) sample_keyspace = Some (inr (bulk (bstr "2"))).
Proof.
  split; [|vm_compute; reflexivity].
  assert (B : bool_decide (is_Some (seen 200 (slot sample_keyspace (bstr "b")))) = false) by (vm_compute; reflexivity).
  apply bool_decide_eq_false, eq_None_not_Some in B. unfold look. rewrite B. reflexivity.
Qed.
End Witness.
