(* ===== verification/GenericCommands.v ===== *)
(** * GenericCommands: the handlers of the key commands ([command/generic.rs])

    Deletion, deadlines, renaming, iteration.  A handler reads the clock once.
    DUMP, RESTORE (a serde payload) and SORT are left out. *)

From S2P Require Import Prelude Text Glob Types Keyspace Shards Store Resp CommandArgs.
From S2P Require SetData.

Import ShardedDatabase.

Section GenericCommands.
Context `{SetData.IndexSet} `{UnicodeCase}.

(** ** Existence *)

Fixpoint del_loop (cmd : string) (keys : list Resp) (deleted : Z) (s : t) : may_panic (Result Z * t) :=
  match keys with
  | [] => Some (inr deleted, s)
  | a :: keys =>
      match get_bytes_vec [a] 0 cmd with
      | inl e => Some (inl e, s)
      | inr key =>
          '(removed, s) ← write_for key (Database.remove key) s;
          del_loop cmd keys (if bool_decide (is_Some removed) then deleted + 1 else deleted)%Z s
      end
  end.

(** Keys before a bad argument stay deleted. *)
Definition cmd_del (args : list Resp) (s : t) : may_panic (Result Resp * t) :=
  if bool_decide (length args < 2) then Some (inl (WrongArity (bstr "del")), s)
  else
    '(r, s) ← del_loop "DEL" (drop 1 args) 0 s;
    Some (let! deleted := r in inr (int deleted), s).

(** The values are dropped on another thread. *)
Definition cmd_unlink (args : list Resp) (s : t) : may_panic (Result Resp * t) :=
  if bool_decide (length args < 2) then Some (inl (WrongArity (bstr "unlink")), s)
  else
    '(r, s) ← del_loop "UNLINK" (drop 1 args) 0 s;
    Some (let! count := r in inr (int count), s).

Fixpoint exists_loop (now : Z) (cmd : string) (keys : list Resp) (count : Z) (s : t) : may_panic (Result Z) :=
  match keys with
  | [] => Some (inr count)
  | a :: keys =>
      match get_bytes_vec [a] 0 cmd with
      | inl e => Some (inl e)
      | inr key =>
          found ← read_for key (Database.get_ro now key) s;
          exists_loop now cmd keys (if bool_decide (is_Some found) then count + 1 else count)%Z s
      end
  end.

Definition cmd_exists (now : Z) (args : list Resp) (s : t) : may_panic (Result Resp * t) :=
  if bool_decide (length args < 2) then Some (inl (WrongArity (bstr "exists")), s)
  else
    r ← exists_loop now "EXISTS" (drop 1 args) 0 s;
    Some (let! count := r in inr (int count), s).

Definition cmd_touch (now : Z) (args : list Resp) (s : t) : may_panic (Result Resp * t) :=
  if bool_decide (length args < 2) then Some (inl (WrongArity (bstr "touch")), s)
  else
    r ← exists_loop now "TOUCH" (drop 1 args) 0 s;
    Some (let! touched := r in inr (int touched), s).

(** ** Deadlines *)

Record ExpireOptions := mkExpireOptions { nx : bool; xx : bool; gt : bool; lt : bool }.

Fixpoint expire_options (cmd : string) (rest : list Resp) (o : ExpireOptions) : Result ExpireOptions :=
  match rest with
  | [] => inr o
  | opt :: rest =>
      let! opt := get_str [opt] 0 cmd in
      let opt := to_uppercase opt in
      if bool_decide (opt = bstr "NX") then expire_options cmd rest (mkExpireOptions true (xx o) (gt o) (lt o))
      else if bool_decide (opt = bstr "XX") then expire_options cmd rest (mkExpireOptions (nx o) true (gt o) (lt o))
      else if bool_decide (opt = bstr "GT") then expire_options cmd rest (mkExpireOptions (nx o) (xx o) true (lt o))
      else if bool_decide (opt = bstr "LT") then expire_options cmd rest (mkExpireOptions (nx o) (xx o) (gt o) true)
      else inl SyntaxError
  end.

Definition cond_count (o : ExpireOptions) : nat :=
  Nat.b2n (nx o) + Nat.b2n (xx o) + Nat.b2n (gt o) + Nat.b2n (lt o).

(** The deadline asked for, signed ([i128]). *)
Definition target_ms (now val : Z) (millis absolute : bool) : Z :=
  let unit_ms := if millis then 1%Z else 1000%Z in
  if absolute then (val * unit_ms)%Z else (now + val * unit_ms)%Z.

(** NX, XX, GT and LT against the current deadline; [None] is no deadline. *)
Definition refused (o : ExpireOptions) (target : Z) (current : option Z) : bool :=
  nx o && bool_decide (is_Some current)
  || xx o && negb (bool_decide (is_Some current))
  || gt o && match current with None => true | Some cur => bool_decide (target <= cur)%Z end
  || lt o && match current with None => false | Some cur => bool_decide (cur <= target)%Z end.

(** Under the write guard. *)
Definition expire_body (now : Z) (o : ExpireOptions) (target : Z) (key : bytes) (d : Database.t) :
    may_panic (Result Resp * Database.t) :=
  match Database.get now key d with
  | (None, d) => Some (inr (int 0), d)
  | (Some e, d) =>
      let current := Z.min (2 ^ 127 - 1) <$> (Expiry.expires_at_ms <$> Entry.expiry e) in
      if refused o target current then Some (inr (int 0), d)
      else if bool_decide (target <= now)%Z then Some (inr (int 1), (Database.remove key d).2)
      else Some (inr (int 1), Database.set_expiry key (Some (Expiry.from_ms (Z.min target (2 ^ 64 - 1)))) d)
  end.

Definition set_expire (now : Z) (args : list Resp) (millis absolute : bool) (cmd : string) (s : t) :
    may_panic (Result Resp * t) :=
  if bool_decide (length args < 3) then Some (inl (WrongArity (bstr cmd)), s)
  else
    let? key := get_bytes_vec args 1 cmd at s in
    let? val := get_i64 args 2 cmd at s in
    let? o := expire_options cmd (drop 3 args) (mkExpireOptions false false false false) at s in
    if bool_decide (1 < cond_count o) then Some (inl SyntaxError, s)
    else on_shard (shard_idx s key) (expire_body now o (target_ms now val millis absolute) key) s.

Definition cmd_expire (now : Z) (args : list Resp) (s : t) : may_panic (Result Resp * t) :=
  set_expire now args false false "EXPIRE" s.
Definition cmd_pexpire (now : Z) (args : list Resp) (s : t) : may_panic (Result Resp * t) :=
  set_expire now args true false "PEXPIRE" s.
Definition cmd_expireat (now : Z) (args : list Resp) (s : t) : may_panic (Result Resp * t) :=
  set_expire now args false true "EXPIREAT" s.
Definition cmd_pexpireat (now : Z) (args : list Resp) (s : t) : may_panic (Result Resp * t) :=
  set_expire now args true true "PEXPIREAT" s.

(** A read of the deadline: -2 without the key, -1 without a deadline. *)
Definition deadline_reply (f : Expiry.t -> Z) (found : option Entry.t) : Resp :=
  match found with
  | None => int (-2)
  | Some e => match Entry.expiry e with
              | None => int (-1)
              | Some x => int (f x)
              end
  end.

Definition expire_time (millis : bool) (x : Expiry.t) : Z :=
  if millis then Z.min (Expiry.expires_at_ms x) i64_max else Z.min (Expiry.expires_at_ms x / 1000) i64_max.

Definition get_expire_time (now : Z) (args : list Resp) (millis : bool) (cmd : string) (s : t) :
    may_panic (Result Resp * t) :=
  if bool_decide (length args <> 2) then Some (inl (WrongArity (bstr cmd)), s)
  else
    let? key := get_bytes_vec args 1 cmd at s in
    found ← read_for key (Database.get_ro now key) s;
    Some (inr (deadline_reply (expire_time millis) found), s).

Definition cmd_expiretime (now : Z) (args : list Resp) (s : t) : may_panic (Result Resp * t) :=
  get_expire_time now args false "EXPIRETIME" s.
Definition cmd_pexpiretime (now : Z) (args : list Resp) (s : t) : may_panic (Result Resp * t) :=
  get_expire_time now args true "PEXPIRETIME" s.

(** The [u64] is cast to [i64]. *)
Definition remaining (now : Z) (millis : bool) (x : Expiry.t) : Z :=
  wrap_i64 (if millis then Expiry.remaining_ms now x else Expiry.remaining_secs now x).

Definition get_ttl (now : Z) (args : list Resp) (millis : bool) (cmd : string) (s : t) : may_panic (Result Resp * t) :=
  if bool_decide (length args <> 2) then Some (inl (WrongArity (bstr cmd)), s)
  else
    let? key := get_bytes_vec args 1 cmd at s in
    found ← read_for key (Database.get_ro now key) s;
    Some (inr (deadline_reply (remaining now millis) found), s).

Definition cmd_ttl (now : Z) (args : list Resp) (s : t) : may_panic (Result Resp * t) := get_ttl now args false "TTL" s.
Definition cmd_pttl (now : Z) (args : list Resp) (s : t) : may_panic (Result Resp * t) := get_ttl now args true "PTTL" s.

Definition cmd_persist (now : Z) (args : list Resp) (s : t) : may_panic (Result Resp * t) :=
  if bool_decide (length args <> 2) then Some (inl (WrongArity (bstr "persist")), s)
  else
    let? key := get_bytes_vec args 1 "PERSIST" at s in
    on_shard (shard_idx s key) (fun d =>
      let '(found, d) := Database.get now key d in
      if bool_decide (is_Some (found ≫= Entry.expiry)) then Some (inr (int 1), Database.set_expiry key None d)
      else Some (inr (int 0), d)) s.

(** ** Types and names *)

Definition cmd_type (now : Z) (args : list Resp) (s : t) : may_panic (Result Resp * t) :=
  if bool_decide (length args <> 2) then Some (inl (WrongArity (bstr "type")), s)
  else
    let? key := get_bytes_vec args 1 "TYPE" at s in
    found ← read_for key (Database.get_ro now key) s;
    Some (inr (SimpleString (match found with
                             | None => bstr "none"
                             | Some e => bstr (type_name (Entry.value e))
                             end)), s).

Definition cmd_rename (args : list Resp) (s : t) : may_panic (Result Resp * t) :=
  if bool_decide (length args <> 3) then Some (inl (WrongArity (bstr "rename")), s)
  else
    let? src := get_bytes_vec args 1 "RENAME" at s in
    let? dst := get_bytes_vec args 2 "RENAME" at s in
    '(r, s) ← rename src dst s;
    Some (let! _ := ok_or r NoKey in inr ok, s).

Definition cmd_renamenx (now : Z) (args : list Resp) (s : t) : may_panic (Result Resp * t) :=
  if bool_decide (length args <> 3) then Some (inl (WrongArity (bstr "renamenx")), s)
  else
    let? src := get_bytes_vec args 1 "RENAMENX" at s in
    let? dst := get_bytes_vec args 2 "RENAMENX" at s in
    '(r, s) ← renamenx now src dst s;
    Some (let! v := ok_or r NoKey in inr (int v), s).

(** REPLACE is looked for among all arguments, the keys included. *)
Definition cmd_copy (now : Z) (args : list Resp) (s : t) : may_panic (Result Resp * t) :=
  if bool_decide (length args < 3) then Some (inl (WrongArity (bstr "copy")), s)
  else
    let? src := get_bytes_vec args 1 "COPY" at s in
    let? dst := get_bytes_vec args 2 "COPY" at s in
    let replace := existsb (fun a => match as_str a with
                                     | Some w => eq_ignore_ascii_case w (bstr "REPLACE")
                                     | None => false
                                     end) args in
    '(copied, s) ← copy_entry now src dst replace s;
    Some (inr (int (if (copied : bool) then 1 else 0)), s).

Definition cmd_object (now : Z) (args : list Resp) (s : t) : may_panic (Result Resp * t) :=
  if bool_decide (length args < 3) then Some (inl (WrongArity (bstr "object")), s)
  else
    let? sub := get_str args 1 "OBJECT" at s in
    let sub := to_uppercase sub in
    let? key := get_bytes_vec args 2 "OBJECT" at s in
    on_shard (shard_idx s key) (fun d =>
      if bool_decide (sub = bstr "ENCODING") then
        match Database.get now key d with
        | (None, d) => Some (inl NoKey, d)
        | (Some e, d) => Some (inr (bulk_str (bstr (encoding (Entry.value e)))), d)
        end
      else if bool_decide (sub = bstr "REFCOUNT") then Some (inr (int 1), d)
      else if bool_decide (sub = bstr "IDLETIME") then Some (inr (int 0), d)
      else if bool_decide (sub = bstr "FREQ") then Some (inr (int 0), d)
      else if bool_decide (sub = bstr "HELP") then
        Some (inr (array (map (fun l => bulk_str (bstr l))
          ["OBJECT <subcommand> [<arg> [value] [opt] ...]. Subcommands are:"; "ENCODING <key>"; "REFCOUNT <key>";
           "IDLETIME <key>"; "FREQ <key>"])), d)
      else Some (inl (Generic (bstr "unknown subcommand '" ++ sub ++ bstr "' for OBJECT")), d)) s.
End GenericCommands.

(** ** Iteration *)

Section Iteration.
Context `{SetData.IndexSet} `{HashOrder} `{UnicodeCase}.

Definition cmd_keys (now : Z) (args : list Resp) (s : t) : may_panic (Result Resp * t) :=
  if bool_decide (length args <> 2) then Some (inl (WrongArity (bstr "keys")), s)
  else
    let? pattern := get_bytes_vec args 1 "KEYS" at s in
    let '(keys, s) := keys_matching now pattern s in
    Some (inr (array (map bulk keys)), s).

Record ScanOptions := mkScanOptions { pattern : option bytes; count : Z; type_filter : option bytes }.

(** An unknown word is skipped. *)
Fixpoint scan_options (rest : list Resp) (o : ScanOptions) : Result ScanOptions :=
  match rest with
  | [] => inr o
  | opt :: rest =>
      let! opt := get_str [opt] 0 "SCAN" in
      let opt := to_uppercase opt in
      if bool_decide (opt = bstr "MATCH") then
        let! p := get_bytes_vec rest 0 "SCAN" in
        scan_options (skip1 rest) (mkScanOptions (Some p) (count o) (type_filter o))
      else if bool_decide (opt = bstr "COUNT") then
        let! n := get_i64 rest 0 "SCAN" in
        if bool_decide (n <= 0)%Z then inl (Generic (bstr "syntax error"))
        else scan_options (skip1 rest) (mkScanOptions (pattern o) n (type_filter o))
      else if bool_decide (opt = bstr "TYPE") then
        let! ty := get_str rest 0 "SCAN" in
        scan_options (skip1 rest) (mkScanOptions (pattern o) (count o) (Some (to_lowercase ty)))
      else scan_options rest o
  end.

Definition scan_keep (o : ScanOptions) (_ : bytes) (e : Entry.t) : bool :=
  match type_filter o with
  | Some ty => bool_decide (bstr (type_name (Entry.value e)) = ty)
  | None => true
  end.

Definition cmd_scan (now : Z) (args : list Resp) (s : t) : may_panic (Result Resp * t) :=
  if bool_decide (length args < 2) then Some (inl (WrongArity (bstr "scan")), s)
  else
    let cursor := match get_str args 1 "SCAN" with inr w => decode_scan_cursor w | inl _ => None end in
    let? o := scan_options (drop 2 args) (mkScanOptions None 10 None) at s in
    let pat := default (bstr "*") (pattern o) in
    '(keys, next) ← scan_page now pat scan_order_key (scan_keep o) (default 0%Z cursor) (Z.to_nat (count o)) s;
    Some (inr (array [bulk_str (dec next); array (map bulk keys)]), s).

Definition cmd_randomkey (s : t) : may_panic (Result Resp * t) :=
  Some (inr (match random_key s with Some k => bulk k | None => null end), s).
End Iteration.

(** ** MOVE, between databases *)

Section Move.
Context `{SetData.IndexSet}.

Definition on_db {A} (i : nat) (f : t -> may_panic (A * t)) (st : Store.t) : may_panic (A * Store.t) :=
  d ← Store.db i st;
  '(r, d) ← f d;
  Some (r, Store.set_dbs (<[i mod Store.db_count st := d]> (Store.dbs st)) st).

Definition cmd_move (now : Z) (args : list Resp) (db_index : nat) (st : Store.t) : may_panic (Result Resp * Store.t) :=
  if bool_decide (length args <> 3) then Some (inl (WrongArity (bstr "move")), st)
  else
    let? key := get_bytes_vec args 1 "MOVE" at st in
    let? target_db_i := get_i64 args 2 "MOVE" at st in
    if bool_decide (target_db_i < 0)%Z || bool_decide (Z.of_nat (Store.db_count st) <= target_db_i)%Z
    then Some (inl (Generic (bstr "DB index is out of range")), st)
    else
      let target_db := Z.to_nat target_db_i in
      if bool_decide (target_db = db_index) then Some (inr (int 0), st)
      else
        '(entry, st) ← on_db db_index (write_for key (Database.remove key)) st;
        match entry with
        | None => Some (inr (int 0), st)
        | Some e =>
            '(present, st) ← on_db target_db (write_for key (Database.contains_key now key)) st;
            if (present : bool) then
              '(_, st) ← on_db db_index (write_for key (fun d => ((), Database.insert key e d))) st;
              Some (inr (int 0), st)
            else
              '(_, st) ← on_db target_db (write_for key (fun d => ((), Database.insert key e d))) st;
              Some (inr (int 1), st)
        end.
End Move.
