(* ===== verification/GenericSpec.v ===== *)
(** * GenericSpec: what the key commands mean

    The deadline commands as requests on the cells of [StringSpec], and the
    deletion of several keys. *)

From S2P Require Import Prelude Text Types Keyspace KeyspaceInvariant KeyspaceSpec.
From S2P Require Import Shards ShardsSpec ShardsMoves Resp CommandArgs StringSpec GenericCommands.
From S2P Require SetData.

Import ShardedDatabase.

#[local] Arguments Database.remove : simpl never.
#[local] Arguments Database.get : simpl never.
#[local] Arguments Database.set_expiry : simpl never.

(** The dispatcher's commands on one key. *)
Inductive KeyCommand :=
  | EXPIRE | PEXPIRE | EXPIREAT | PEXPIREAT | TTL | PTTL | EXPIRETIME | PEXPIRETIME | PERSIST | TYPE.

Section Spec.
Context `{SetData.IndexSet} `{UnicodeCase}.
Implicit Types (s : t) (d : Database.t) (k : bytes) (e : Entry.t) (o : option Entry.t).
#[local] Notation Cell := (option (Value * option Z)).

Definition exec_key (now : Z) (c : KeyCommand) (args : list Resp) (s : t) : may_panic (Result Resp * t) :=
  match c with
  | EXPIRE => cmd_expire now args s
  | PEXPIRE => cmd_pexpire now args s
  | EXPIREAT => cmd_expireat now args s
  | PEXPIREAT => cmd_pexpireat now args s
  | TTL => cmd_ttl now args s
  | PTTL => cmd_pttl now args s
  | EXPIRETIME => cmd_expiretime now args s
  | PEXPIRETIME => cmd_pexpiretime now args s
  | PERSIST => cmd_persist now args s
  | TYPE => cmd_type now args s
  end.

(** ** Requests *)

(** The order of deadlines; a key without one outlives all others. *)
Definition sooner (x y : option Z) : Prop :=
  match x, y with
  | None, _ => False
  | Some _, None => True
  | Some a, Some b => (a < b)%Z
  end.

#[local] Instance sooner_dec x y : Decision (sooner x y).
Proof. destruct x, y; simpl; apply _. Defined.

Definition applies (o : ExpireOptions) (target : Z) (x : option Z) : Prop :=
  (nx o = true -> x = None) /\ (xx o = true -> x <> None) /\
  (gt o = true -> sooner x (Some target)) /\ (lt o = true -> sooner (Some target) x).

#[local] Instance applies_dec (o : ExpireOptions) target x : Decision (applies o target x).
Proof. unfold applies. apply _. Defined.

#[local] Typeclasses Opaque applies sooner.

(** A deadline that is not later than now deletes the key. *)
Definition expire_answer (now : Z) (opts : ExpireOptions) (target : Z) (c : Cell) : Result Resp * Cell :=
  match c with
  | None => (inr (int 0), None)
  | Some (v, x) =>
      if decide (applies opts target x) then
        (inr (int 1), if bool_decide (target <= now)%Z then None else Some (v, Some (Z.min target (2 ^ 64 - 1))%Z))
      else (inr (int 0), c)
  end.

Definition expire_request (now : Z) (args : list Resp) (millis absolute : bool) (cmd : string) : Result Request :=
  arity (length args < 3) cmd
    (let! key := get_bytes_vec args 1 cmd in
     let! val := get_i64 args 2 cmd in
     let! opts := expire_options cmd (drop 3 args) (mkExpireOptions false false false false) in
     if bool_decide (1 < cond_count opts) then inl SyntaxError
     else inr (mkRequest key (fun _ => 0) (expire_answer now opts (target_ms now val millis absolute)))).

(** A command that only looks. *)
Definition observe (args : list Resp) (name cmd : string) (f : Cell -> Resp) : Result Request :=
  arity (length args <> 2) name
    (let! key := get_bytes_vec args 1 cmd in inr (mkRequest key (fun _ => 0) (fun c => (inr (f c), c)))).

Definition on_deadline (f : Z -> Z) (c : Cell) : Resp :=
  match c with
  | None => int (-2)
  | Some (_, None) => int (-1)
  | Some (_, Some ms) => int (f ms)
  end.

Definition value_type (v : Value) : string :=
  match v with Text _ | Bits _ => "string" | Opaque v => type_name v end.

(** Seconds are rounded up; the difference is a [u64]. *)
Definition key_request (now : Z) (c : KeyCommand) (args : list Resp) : Result Request :=
  match c with
  | EXPIRE => expire_request now args false false "EXPIRE"
  | PEXPIRE => expire_request now args true false "PEXPIRE"
  | EXPIREAT => expire_request now args false true "EXPIREAT"
  | PEXPIREAT => expire_request now args true true "PEXPIREAT"
  | TTL => observe args "TTL" "TTL" (on_deadline (fun ms => (wrap64 (ms - now) + 999) / 1000)%Z)
  | PTTL => observe args "PTTL" "PTTL" (on_deadline (fun ms => wrap_i64 (ms - now)))
  | EXPIRETIME => observe args "EXPIRETIME" "EXPIRETIME" (on_deadline (fun ms => Z.min (ms / 1000) i64_max))
  | PEXPIRETIME => observe args "PEXPIRETIME" "PEXPIRETIME" (on_deadline (fun ms => Z.min ms i64_max))
  | PERSIST => arity (length args <> 2) "persist"
      (let! key := get_bytes_vec args 1 "PERSIST" in
       inr (mkRequest key (fun _ => 0) (fun c => match c with
                                                 | Some (v, Some _) => (inr (int 1), Some (v, None))
                                                 | _ => (inr (int 0), c)
                                                 end)))
  | TYPE => observe args "type" "TYPE" (fun c => SimpleString (bstr (from_option (fun p => value_type p.1) "none"%string c)))
  end.

(** ** Reads *)

Lemma observe_refines now args name cmd f (g : option Entry.t -> Resp) h :
  (forall o, g (live now o) = f (look now o)) ->
  (forall k s, swf s -> h k s = Some (inr (g (live now (slot s k))), s)) ->
  refines now (fun s => if bool_decide (length args <> 2) then Some (inl (WrongArity (bstr name)), s)
                        else try_at (get_bytes_vec args 1 cmd) s (fun k => h k s)) (observe args name cmd f).
Proof.
  intros G Hh. apply refines_arity, refines_try. intros k _ s W T _. exists s. cbn [key answer fst snd].
  by rewrite (Hh k s W), G.
Qed.

Lemma wrap_i64_wrap64 z : wrap_i64 (wrap64 z) = wrap_i64 z.
Proof. unfold wrap_i64, wrap64. by rewrite Zplus_mod_idemp_l. Qed.

(** What a reader of the deadline answers, on the cell. *)
Lemma deadline_reply_look now f g o : (forall x, (now < Expiry.expires_at_ms x)%Z -> f x = g (Expiry.expires_at_ms x)) ->
  deadline_reply f (live now o) = on_deadline g (look now o).
Proof.
  intros Hf. rewrite look_live. unfold live. destruct o as [e|]; [|done]. simpl. unfold Entry.is_expired.
  destruct (Entry.expiry e) as [x|] eqn:E; simpl; [|by rewrite E]. unfold Expiry.is_expired. case_bool_decide; simpl; [done|].
  rewrite E. simpl. by rewrite Hf by lia.
Qed.

Lemma remaining_ms_value now x : (now < Expiry.expires_at_ms x)%Z ->
  remaining now true x = wrap_i64 (Expiry.expires_at_ms x - now).
Proof.
  intros Hx. unfold remaining, Expiry.remaining_ms. rewrite bool_decide_eq_false_2 by lia. apply wrap_i64_wrap64.
Qed.

Lemma remaining_secs_value now x : (now < Expiry.expires_at_ms x)%Z ->
  remaining now false x = ((wrap64 (Expiry.expires_at_ms x - now) + 999) / 1000)%Z.
Proof.
  intros Hx. unfold remaining, Expiry.remaining_secs, Expiry.remaining_ms. rewrite bool_decide_eq_false_2 by lia.
  apply wrap_i64_id. pose proof (wrap64_range (Expiry.expires_at_ms x - now)). unfold in_i64, i64_min, i64_max.
  split; [transitivity 0%Z; [lia|apply Z.div_pos; lia]|]. apply Z.lt_le_pred, Z.div_lt_upper_bound; lia.
Qed.

(** ** Writes *)

(** One condition of the command. *)
Lemma flag_refuses (b c : bool) P `{Decision P} : (c = true <-> ~ P) -> b && c = negb (bool_decide (b = true -> P)).
Proof.
  intros Hc. destruct b; simpl.
  - rewrite (bool_decide_ext (true = true -> P) P) by tauto. case_bool_decide; destruct c; tauto.
  - done.
Qed.

(** The bound the code puts on the current deadline does not show. *)
Lemma refused_spec (o : ExpireOptions) target x : (target < 2 ^ 127 - 1)%Z ->
  refused o target (Z.min (2 ^ 127 - 1) <$> x) = negb (bool_decide (applies o target x)).
Proof.
  intros Ht. unfold refused. rewrite (bool_decide_ext (applies o target x) ((nx o = true -> x = None) /\ (xx o = true -> x <> None) /\
    (gt o = true -> sooner x (Some target)) /\ (lt o = true -> sooner (Some target) x))) by done. rewrite !bool_decide_and, !negb_andb, !orb_assoc.
  f_equal; [f_equal; [f_equal|]|]; apply flag_refuses; destruct x as [cur|]; simpl; rewrite ?negb_true_iff, ?bool_decide_eq_true, ?bool_decide_eq_false.
  all: first [lia|split; [by intros []|done]|naive_solver].
Qed.

Lemma expire_serves now k opts target : (now < 2 ^ 64 - 1)%Z -> (target < 2 ^ 127 - 1)%Z ->
  serves now (mkRequest k (fun _ => 0) (expire_answer now opts target)) (expire_body now opts target k).
Proof.
  intros Hn Ht d W T c F. subst c. cbn [key writes answer] in *. unfold expire_body, expire_answer.
  destruct (get_serve now k d W T) as (r & d' & -> & St & Tr & _ & Hl & Hr). cbv beta iota.
  rewrite <- Hl. destruct r as [e|]; [|by exists d', None].
  destruct Hr as [X Hr]. rewrite Hr. rewrite (refused_spec opts target _ Ht).
  destruct (decide (applies opts target _)) as [Ha|Ha]; [rewrite bool_decide_eq_true_2 by done|rewrite bool_decide_eq_false_2 by done];
    cbn [negb]; [|exists d', (Some e); by rewrite Hr].
  case_bool_decide as Hp; cbn [fst snd].
  - eexists _, None. split; [done|]. split; [|done]. eapply dstep_trans; [exact St|]. apply remove_step_db, St.
  - eexists _, _. split; [done|]. split; [apply set_expiry_step, St|]. split; [exact Tr|].
    rewrite (look_set_expiry now _ _ []). cbn [fmap option_fmap option_map Expiry.from_ms Expiry.expires_at_ms].
    rewrite bool_decide_eq_true_2; [done|]. unfold alive. simpl. lia.
Qed.

Lemma target_small now val millis absolute : (0 <= now < 2 ^ 63)%Z -> in_i64 val -> (target_ms now val millis absolute < 2 ^ 127 - 1)%Z.
Proof. unfold in_i64, i64_min, i64_max, target_ms. destruct millis, absolute; lia. Qed.

Lemma set_expire_refines now args millis absolute cmd : (0 <= now < 2 ^ 63)%Z ->
  refines now (set_expire now args millis absolute cmd) (expire_request now args millis absolute cmd).
Proof.
  intros Hn. apply refines_arity, refines_try. intros k _. apply refines_try. intros val Hv%get_i64_range.
  apply refines_try. intros opts _. apply refines_if.
  pose proof (target_small now val millis absolute Hn Hv). apply (serves_refines now _ _ (expire_serves now k opts _ ltac:(lia) ltac:(done))).
Qed.

Lemma persist_refines now args : refines now (cmd_persist now args) (key_request now PERSIST args).
Proof.
  apply refines_arity, refines_try. intros k _. apply serves_refines. intros d W T c F. subst c. cbn [key writes answer] in *.
  destruct (get_serve now k d W T) as (r & d' & -> & St & Tr & _ & Hl & Hr). cbv beta iota.
  rewrite <- Hl. destruct r as [e|]; [|by exists d', None]. destruct Hr as [X Hr]. rewrite Hr. cbn [mbind option_bind].
  destruct (Entry.expiry e) as [x|] eqn:E; cbn [fmap option_fmap option_map].
  - rewrite bool_decide_eq_true_2 by eauto. eexists _, _. split; [done|]. split; [apply set_expiry_step, St|]. split; [exact Tr|].
    by rewrite (look_set_expiry now _ _ []).
  - rewrite bool_decide_eq_false_2 by (by intros []). exists d', (Some e). split_and!; [done|done|done|]. rewrite Hr. done.
Qed.

Lemma type_look now o :
  SimpleString (match live now o with None => bstr "none" | Some e => bstr (type_name (Entry.value e)) end)
  = SimpleString (bstr (from_option (fun p => value_type p.1) "none"%string (look now o))).
Proof. rewrite look_live. destruct (live now o) as [e|]; [|done]. simpl. by destruct (Entry.value e). Qed.

(** C8: the commands that set, read and drop deadlines (EXPIRE, PEXPIRE, EXPIREAT,
    PEXPIREAT with NX, XX, GT and LT; TTL, PTTL, EXPIRETIME, PEXPIRETIME; PERSIST)
    and TYPE do what their requests say on the cell of their key, for every type of
    value: a bad request answers its error and leaves the keyspace alone; otherwise
    there is no panic, the reply and the new cell are those of the request, no other
    slot changes, and the keyspace stays well formed.  A deadline that is not in the
    future deletes the key; a key without a deadline is later than any under GT and
    LT. *)
Theorem key_commands_refine_cells now c args s : (0 <= now < 2 ^ 63)%Z -> swf s -> typed s ->
  match key_request now c args with
  | inl e => exec_key now c args s = Some (inl e, s)
  | inr q =>
      fits now q s ->
      let cell := look now (slot s (key q)) in
      exists s', exec_key now c args s = Some ((answer q cell).1, s') /\ swf s' /\ typed s' /\
        look now (slot s' (key q)) = (answer q cell).2 /\
        forall j, j <> key q -> slot s' j = slot s j
  end.
Proof.
  intros Hn W T. assert (R : refines now (exec_key now c args) (key_request now c args)).
  { destruct c; try (by apply set_expire_refines); try apply persist_refines.
    - eapply observe_refines; [intros o; apply deadline_reply_look, remaining_secs_value|]. intros k s' W'. by rewrite read_ro.
    - eapply observe_refines; [intros o; apply deadline_reply_look, remaining_ms_value|]. intros k s' W'. by rewrite read_ro.
    - eapply observe_refines; [intros o; by apply deadline_reply_look|]. intros k s' W'. by rewrite read_ro.
    - eapply observe_refines; [intros o; by apply deadline_reply_look|]. intros k s' W'. by rewrite read_ro.
    - apply (observe_refines now args _ _ _ (fun r => SimpleString match r with None => bstr "none" | Some e => bstr (type_name (Entry.value e)) end));
        [apply type_look|]. intros k s' W'. by rewrite read_ro. }
  exact (R s W T).
Qed.

(** ** DEL *)

Definition args_of (name : string) (keys : list bytes) : list Resp := bulk (bstr name) :: (bulk <$> keys).

(** The keys of a set that exist, before and after one is removed. *)
Lemma count_removed s s1 k (K : gset bytes) : (forall j, slot s1 j = if decide (j = k) then None else slot s j) ->
  size (filter (fun j => is_Some (slot s j)) ({[k]} ∪ K))
  = (if bool_decide (is_Some (slot s k)) then 1 else 0) + size (filter (fun j => is_Some (slot s1 j)) K).
Proof.
  intros A. assert (Hk : forall j, j ∈ filter (fun j => is_Some (slot s1 j)) K <-> j <> k /\ is_Some (slot s j) /\ j ∈ K).
  { intros j. rewrite elem_of_filter, A. case_decide; [subst; split; [intros [[? ?] _]; done|tauto]|naive_solver]. }
  case_bool_decide as P.
  - rewrite <- (size_singleton (C := gset bytes) k), <- size_union by (intros j; rewrite Hk; set_solver). f_equal. apply set_eq. intros j.
    rewrite elem_of_union, Hk, elem_of_filter, elem_of_union, elem_of_singleton. destruct (decide (j = k)); naive_solver.
  - simpl. f_equal. apply set_eq. intros j. rewrite Hk, elem_of_filter, elem_of_union, elem_of_singleton. naive_solver.
Qed.

(** One removal at a time. *)
Lemma del_loop_spec cmd keys : forall n s, swf s -> exists s',
  del_loop cmd (bulk <$> keys) n s
    = Some (inr (n + Z.of_nat (size (filter (fun k => is_Some (slot s k)) (list_to_set keys : gset bytes))))%Z, s') /\
  swf s' /\ forall j, slot s' j = if decide (j ∈ keys) then None else slot s j.
Proof.
  induction keys as [|k keys IH]; intros n s W.
  - exists s. split_and!; [|done|done]. simpl.
    rewrite (filter_empty_L (C := gset bytes)), size_empty by apply _. by replace (n + Z.of_nat 0)%Z with n by lia.
  - destruct (remove_step s k W) as (s1 & E1 & W1 & [N1 A1] & _).
    destruct (IH (if bool_decide (is_Some (slot s k)) then n + 1 else n)%Z s1 W1) as (s' & E & W' & A).
    exists s'. cbn [fmap list_fmap del_loop]. change (get_bytes_vec [bulk k] 0 cmd) with (@inr NexradeError bytes k). cbv iota.
    unfold write_for. rewrite E1. mstep. rewrite E. split_and!; [|done|].
    + cbn [list_to_set]. rewrite (count_removed s s1 k _ A1). do 3 f_equal. case_bool_decide; lia.
    + intros j. rewrite A, A1. repeat case_decide; set_solver.
Qed.

(** DEL and UNLINK of any keys, repeated or not, remove exactly those keys,
    answer how many different ones were there, and leave every other key and the
    bookkeeping of the shards intact. *)
Theorem del_removes_the_keys (unlink : bool) keys s : keys <> [] -> swf s ->
  let there := filter (fun k => is_Some (slot s k)) (list_to_set keys : gset bytes) in
  exists s', (if unlink then cmd_unlink (args_of "UNLINK" keys) s else cmd_del (args_of "DEL" keys) s)
      = Some (inr (int (Z.of_nat (size there))), s') /\
    swf s' /\ forall j, slot s' j = if decide (j ∈ keys) then None else slot s j.
Proof.
  intros Hk W there. destruct keys as [|k keys]; [done|].
  destruct (del_loop_spec (if unlink then "UNLINK" else "DEL") (k :: keys) 0 s W) as (s' & E & W' & A).
  exists s'. split; [|done]. destruct unlink; [unfold cmd_unlink|unfold cmd_del];
    (rewrite bool_decide_eq_false_2 by (simpl; lia)); change (drop 1 (args_of _ (k :: keys))) with (bulk <$> (k :: keys));
    rewrite E; mstep; by rewrite Z.add_0_l.
Qed.
End Spec.

(** ** Runs *)

Section Witness.
#[local] Existing Instance SetData.vec_index_set.
#[local] Existing Instance ascii_case.

Definition expire_args : list Resp := bulk <$> [bstr "EXPIRE"; bstr "b"; bstr "7"; bstr "gt"].

(** [EXPIRE b 7 gt] at time 100, where [b] lives until 150. *)
Lemma key_commands_refine_cells_witness :
  exists s', exec_key 100 EXPIRE expire_args sample_keyspace = Some (inr (int 1), s') /\ swf s' /\
    look 100 (slot s' (bstr "b")) = Some (Text (bstr "2"), Some 7100%Z).
Proof.
  assert (V : look 100 (slot sample_keyspace (bstr "b")) = Some (Text (bstr "2"), Some 150%Z)).
  { apply abs_text. vm_compute. reflexivity. }
  assert (R : room sample_keyspace (bstr "b") 65) by (apply room_all; vm_compute; reflexivity).
  pose proof (key_commands_refine_cells 100 EXPIRE expire_args sample_keyspace ltac:(lia) sample_keyspace_wf sample_typed) as B.
  change (key_request 100 EXPIRE expire_args) with (@inr NexradeError Request
    (mkRequest (bstr "b") (fun _ => 0) (expire_answer 100 (mkExpireOptions false false true false) 7100))) in B.
  cbv iota in B. specialize (B R). cbn [key answer] in B. rewrite V in B. destruct B as (s' & E & W & _ & L & _).
  exists s'. split_and!; [exact E|exact W|exact L].
Defined.

Lemma del_removes_the_keys_witness :
  exists n s', cmd_del (args_of "DEL" [bstr "a"; bstr "x"; bstr "a"]) sample_keyspace = Some (inr (int n), s') /\ swf s' /\
    slot s' (bstr "a") = None.
Proof.
  destruct (del_removes_the_keys false [bstr "a"; bstr "x"; bstr "a"] sample_keyspace ltac:(discriminate) sample_keyspace_wf)
    as (s' & E & W & A). eexists _, s'. split_and!; [exact E|exact W|]. rewrite A. reflexivity.
Defined.

(** DEL counts a key that has expired. *)
Lemma del_counts_expired_key :
  look 200 (slot sample_keyspace (bstr "b")) = None /\
  fst <$> cmd_exists 200 (args_of "EXISTS" [bstr "b"]) sample_keyspace = Some (inr (int 0)) /\
  fst <$> cmd_del (args_of "DEL" [bstr "b"]) sample_keyspace = Some (inr (int 1)).
Proof.
  split; [exact (proj1 getdel_returns_expired_value)|]. split; vm_compute; reflexivity.
Qed.
End Witness.
