(* ===== verification/ValueCells.v ===== *)
(** * ValueCells: the keys clients see, when one type of value matters

    A command on lists, hashes, sets or sorted sets works on one kind of value and
    reports any other.  Here a cell is what clients see of a key then: contents of
    the kind, or a foreign value, with a deadline, or nothing.  The lemmas are the
    steps the handlers of [command/*.rs] are made of; a kind is a record of
    operations with its laws, so they are proved once for all value types. *)

From S2P Require Import Prelude Text Types Keyspace KeyspaceInvariant KeyspaceSpec.
From S2P Require Import Shards ShardsSpec ShardsMoves Resp CommandArgs.
From S2P Require SetData.

Import ShardedDatabase.

#[local] Arguments Database.remove : simpl never.
#[local] Arguments Database.adjust_live_bytes : simpl never.
#[local] Arguments Database.get_or_insert_with : simpl never.

(** A kind of value: its encodings [V] and its contents [A]. *)
Record Kind `{SetData.IndexSet} (V A : Type) := mkKind {
  wrap : V -> DataType;
  unwrap : DataType -> option V;
  fresh : V;
  repr : V -> A -> Prop;
  nothing : A;
  weight : A -> nat;
}.

Arguments wrap {_ _ _}. Arguments unwrap {_ _ _}. Arguments fresh {_ _ _}. Arguments repr {_ _ _}.
Arguments nothing {_ _ _}. Arguments weight {_ _ _}.

Class KindLaws `{SetData.IndexSet} {V A} (K : Kind V A) : Prop := {
  unwrap_wrap : forall v, unwrap K (wrap K v) = Some v;
  unwrap_inv : forall x v, unwrap K x = Some v -> x = wrap K v;
  fresh_repr : repr K (fresh K) (nothing K);
  fresh_weight : weight K (nothing K) = 0;
  repr_weight : forall v a, repr K v a -> Database.value_size (wrap K v) = weight K a;
}.

Inductive Content `{SetData.IndexSet} (A : Type) := Own (a : A) | Foreign (v : DataType).
Arguments Own {_ _}. Arguments Foreign {_ _}.

Section Cells.
Context `{SetData.IndexSet} {V A : Type} `{EqDecision A} (K : Kind V A) `{!KindLaws K}.
Implicit Types (s : t) (d : Database.t) (k : bytes) (e : Entry.t) (o : option Entry.t) (a : A).

#[local] Notation Cell := (option (Content A * option Z)).
Implicit Types (c : Cell).

(** What clients see of a value. *)
Definition holds (x : DataType) (y : Content A) : Prop :=
  match unwrap K x with
  | Some v => exists a, y = Own a /\ repr K v a
  | None => y = Foreign x
  end.

Definition sees (now : Z) o c : Prop :=
  match live now o with
  | None => c = None
  | Some e => exists y, c = Some (y, Expiry.expires_at_ms <$> Entry.expiry e) /\ holds (Entry.value e) y
  end.

(** The contents of a cell; a missing key has none of them, a foreign value is no kind. *)
Definition contents c : option A :=
  match c with
  | None => Some (nothing K)
  | Some (Own a, _) => Some a
  | Some (Foreign _, _) => None
  end.

(** The cell after new contents are written: a key with nothing in it is no key. *)
Definition refill c a : Cell := if bool_decide (a = nothing K) then None else Some (Own a, c ≫= snd).

Lemma refill_nothing c : refill c (nothing K) = None.
Proof. unfold refill. by rewrite bool_decide_eq_true_2. Qed.

(** ** Seeing *)

Lemma sees_live now o e c : live now o = Some e -> sees now o c ->
  exists y, c = Some (y, Expiry.expires_at_ms <$> Entry.expiry e) /\ holds (Entry.value e) y.
Proof. unfold sees. by intros ->. Qed.

Lemma sees_none now o c : live now o = None -> sees now o c -> c = None.
Proof. unfold sees. by intros ->. Qed.

Lemma live_not_expired now o e : live now o = Some e -> Entry.is_expired now e = false.
Proof. unfold live. destruct o as [x|]; [|done]. simpl. destruct (Entry.is_expired now x) eqn:E; [done|]. by intros [= <-]. Qed.

Lemma sees_entry now e y : Entry.is_expired now e = false -> holds (Entry.value e) y ->
  sees now (Some e) (Some (y, Expiry.expires_at_ms <$> Entry.expiry e)).
Proof. intros X Hy. unfold sees, live. simpl. rewrite X. by exists y. Qed.

Lemma sees_get now o c : sees now o c -> sees now (live now o) c.
Proof.
  unfold sees. destruct (live now o) as [e|] eqn:L; [|done]. unfold live at 1. simpl.
  by rewrite (live_not_expired _ _ _ L).
Qed.

Lemma own_size k e v a : Entry.value e = wrap K v -> repr K v a -> Database.estimate_entry_size k e = 64 + length k + weight K a.
Proof. intros E R. unfold Database.estimate_entry_size. rewrite E. by rewrite (repr_weight _ _ R). Qed.

(** A live value of the kind, or another one. *)
Lemma live_cases now o e c : live now o = Some e -> sees now o c ->
  match unwrap K (Entry.value e) with
  | Some v => exists a, Entry.value e = wrap K v /\ contents c = Some a /\ repr K v a /\ c = Some (Own a, c ≫= snd)
  | None => contents c = None
  end /\ Expiry.expires_at_ms <$> Entry.expiry e = c ≫= snd /\ Entry.is_expired now e = false /\ sees now (Some e) c.
Proof.
  intros L S. destruct (sees_live now o e c L S) as (y & -> & Hy). pose proof (live_not_expired _ _ _ L) as X.
  pose proof (sees_entry now e y X Hy) as Se. split_and!; [|done..].
  unfold holds in Hy. destruct (unwrap K (Entry.value e)) as [v|] eqn:U; [|by subst y].
  destruct Hy as (a & -> & R). exists a. split_and!; [by apply unwrap_inv|done..].
Qed.

(** ** Steps on one shard *)

(** The value of a key, created when it is not there. *)
Lemma create_step now k d c : wf d -> sees now (Database.entries d !! k) c ->
  (Z.of_nat (total_bytes d + (64 + length k)) < 2 ^ 64)%Z ->
  exists e d1, Database.get_or_insert_with now k (Entry.new (wrap K (fresh K))) d = (e, d1) /\
    dstep d d1 k (Some e) /\ Entry.is_expired now e = false /\ Expiry.expires_at_ms <$> Entry.expiry e = c ≫= snd /\
    match contents c with
    | Some a => exists v, Entry.value e = wrap K v /\ repr K v a
    | None => unwrap K (Entry.value e) = None /\ sees now (Some e) c
    end.
Proof.
  intros W S F.
  destruct (get_or_insert_step now k (Entry.new (wrap K (fresh K))) d W eq_refl) as (e & d1 & -> & D1 & Ev & Ex).
  { rewrite (own_size k (Entry.new (wrap K (fresh K))) (fresh K) (nothing K) eq_refl fresh_repr), fresh_weight. lia. }
  exists e, d1. split; [done|]. split; [done|]. destruct (live now (Database.entries d !! k)) as [e0|] eqn:L.
  - simpl in Ev, Ex. assert (X : Entry.is_expired now e = false).
    { pose proof (live_not_expired _ _ _ L) as X. unfold Entry.is_expired in *. by rewrite Ex. }
    destruct (sees_live now _ e0 c L S) as (y & -> & Hy). rewrite <- Ev in Hy. rewrite <- Ex.
    pose proof (sees_entry now e y X Hy) as Se. split; [done|]. split; [done|]. unfold holds in Hy.
    destruct (unwrap K (Entry.value e)) as [v|] eqn:U; [|subst y; by split].
    destruct Hy as (a & -> & R). exists v. split; [by apply unwrap_inv|done].
  - rewrite (sees_none now _ c L S). simpl in Ev, Ex. split; [unfold Entry.is_expired; by rewrite Ex|].
    rewrite Ex. split; [done|]. rewrite Ev. exists (fresh K). split; [done|apply fresh_repr].
Qed.

Definition weight_change a a' : Z := Z.of_nat (weight K a') - Z.of_nat (weight K a).

(** The write through the reference, counted. *)
Lemma write_step now d d1 k e v a v' a' : dstep d d1 k (Some e) -> Entry.is_expired now e = false ->
  Entry.value e = wrap K v -> repr K v a -> repr K v' a' ->
  (Z.of_nat (total_bytes d + (64 + length k + weight K a')) < 2 ^ 64)%Z ->
  let e' := Entry.set_value (wrap K v') e in
  dstep d (Database.adjust_live_bytes (weight_change a a') (Database.write_back k e' d1)) k (Some e') /\
  sees now (Some e') (Some (Own a', Expiry.expires_at_ms <$> Entry.expiry e)).
Proof.
  intros D1 X E R R' F e'. split.
  - eapply dstep_trans; [exact D1|]. pose proof (dstep_total _ _ _ _ D1) as T. simpl in T.
    rewrite (own_size k e v a E R) in T. eapply modify_step; [apply D1|by eapply dstep_slot|done| |];
      unfold weight_change; [rewrite (own_size k e v a E R), (own_size k e' v' a' eq_refl R')|]; lia.
  - apply (sees_entry now e' (Own a') X). unfold holds, e'. cbn [Entry.value Entry.set_value]. rewrite unwrap_wrap. by exists a'.
Qed.

(** The write of a command that leaves something. *)
Lemma write_refill now k d d1 c a a' v v' e : a' <> nothing K ->
  dstep d d1 k (Some e) -> Entry.is_expired now e = false -> Expiry.expires_at_ms <$> Entry.expiry e = c ≫= snd ->
  Entry.value e = wrap K v -> repr K v a -> repr K v' a' ->
  (Z.of_nat (total_bytes d + (64 + length k + weight K a')) < 2 ^ 64)%Z ->
  exists o, dstep d (Database.adjust_live_bytes (weight_change a a') (Database.write_back k (Entry.set_value (wrap K v') e) d1)) k o /\
    sees now o (refill c a').
Proof.
  intros Ha D1 X Ex Ev R R' F. unfold refill. rewrite bool_decide_eq_false_2, <- Ex by done.
  destruct (write_step now d d1 k e v a v' a' D1 X Ev R R' F) as [D2 S2]. eauto.
Qed.

(** The write of a command that removes the key when nothing is left. *)
Lemma write_or_drop now k d d1 c a a' v v' e (emptied : bool) : emptied = bool_decide (a' = nothing K) ->
  dstep d d1 k (Some e) -> Entry.is_expired now e = false -> Expiry.expires_at_ms <$> Entry.expiry e = c ≫= snd ->
  Entry.value e = wrap K v -> repr K v a -> repr K v' a' ->
  (Z.of_nat (total_bytes d + (64 + length k + weight K a')) < 2 ^ 64)%Z ->
  let d2 := Database.adjust_live_bytes (weight_change a a') (Database.write_back k (Entry.set_value (wrap K v') e) d1) in
  exists o, dstep d (if emptied then (Database.remove_empty_key k d2).2 else d2) k o /\ sees now o (refill c a').
Proof.
  intros -> D1 X Ex Ev R R' F d2. destruct (write_step now d d1 k e v a v' a' D1 X Ev R R' F) as [D2 S2].
  unfold refill. case_bool_decide as Ha.
  - exists None. split; [|done]. eapply dstep_trans; [exact D2|]. exact (remove_step_db _ k (proj1 D2)).
  - rewrite <- Ex. eauto.
Qed.

(** A created or found value that is not written. *)
Lemma unwritten now k d d1 c a v e : contents c = Some a -> a <> nothing K ->
  dstep d d1 k (Some e) -> Entry.is_expired now e = false -> Expiry.expires_at_ms <$> Entry.expiry e = c ≫= snd ->
  Entry.value e = wrap K v -> repr K v a -> exists o, dstep d d1 k o /\ sees now o c.
Proof.
  intros Ef Ha D1 X Ex Ev R. exists (Some e). split; [done|].
  destruct c as [[[a0|x] y]|]; simpl in *; [|done|by injection Ef as <-]. injection Ef as ->. subst y.
  apply (sees_entry now e (Own a) X). unfold holds. rewrite Ev, unwrap_wrap. by exists a.
Qed.

Lemma sees_seen now o o' c : seen now o' = seen now o -> sees now o c -> sees now o' c.
Proof.
  assert (L : forall o, seen now o = visible <$> live now o).
  { intros [e|]; [|done]. unfold seen, live. simpl. by destruct (Entry.is_expired now e). }
  unfold sees. rewrite !L. destruct (live now o') as [e'|], (live now o) as [e|]; simpl; try done.
  unfold visible. intros [= Ev Ex]. by rewrite Ev, Ex.
Qed.

(** [get(key)], and an empty value when the key is not there. *)

Definition fresh_entry : Entry.t := Entry.new (wrap K (fresh K)).

Lemma open_step now k d c : wf d -> sees now (Database.entries d !! k) c ->
  (Z.of_nat (total_bytes d + (64 + length k)) < 2 ^ 64)%Z ->
  exists found d1, Database.get now k d = (found, d1) /\ dstep d d1 k found /\
    match found with
    | None => c = None /\ dstep d (Database.insert k fresh_entry d1) k (Some fresh_entry)
    | Some e => sees now (Some e) c /\ c <> None
    end.
Proof.
  intros W S F. destruct (get_on_shard now k d W) as (W1 & St & Hv & Hx & Hb). destruct (Database.get now k d) as [found d1]. cbn [fst snd] in *.
  exists found, d1. split; [done|]. split; [done|]. pose proof (sees_seen now _ found c Hx S) as S1. destruct found as [e|].
  - split; [done|]. intros ->. unfold sees in S1. destruct (live now (Some e)) as [e'|] eqn:L; [by destruct S1 as (? & ? & _)|].
    unfold live in L. simpl in L. destruct (Entry.is_expired now e) eqn:X; [|done]. rewrite <- Hx in Hv. unfold seen in Hv. simpl in Hv. by rewrite X in Hv.
  - split; [by apply (sees_none now None)|]. eapply dstep_trans; [exact (conj W1 St)|].
    apply dstep_changes; [done|apply insert_changes|].
    assert (Es : slot_size Database.estimate_entry_size k (Some fresh_entry) = 64 + length k + weight K (nothing K)).
    { apply (own_size k fresh_entry (fresh K) (nothing K) eq_refl fresh_repr). } rewrite Es, fresh_weight. lia.
Qed.

(** [get], [insert] of an empty value and [get_mut], as the macros [get_*_mut!] do it. *)
Definition get_or_insert_mut (now : Z) k d : may_panic (Result V * Entry.t * Database.t) :=
  let '(found, d) := Database.get now k d in
  let d := match found with None => Database.insert k fresh_entry d | Some _ => d end in
  match Database.get_mut now k d with
  | (Some e, d) => Some (match unwrap K (Entry.value e) with Some v => inr v | None => inl WrongType end, e, d)
  | (None, _) => None
  end.

Lemma get_or_insert_mut_step now k d c : wf d -> sees now (Database.entries d !! k) c ->
  (Z.of_nat (total_bytes d + (64 + length k)) < 2 ^ 64)%Z ->
  exists r e d1, get_or_insert_mut now k d = Some (r, e, d1) /\ dstep d d1 k (Some e) /\ Entry.is_expired now e = false /\
    Expiry.expires_at_ms <$> Entry.expiry e = c ≫= snd /\
    match contents c with
    | Some a => exists v, r = inr v /\ Entry.value e = wrap K v /\ repr K v a
    | None => r = inl WrongType /\ sees now (Some e) c
    end.
Proof.
  intros W S F. destruct (open_step now k d c W S F) as (found & d1 & E & D1 & Hfound). unfold get_or_insert_mut. rewrite E.
  set (d2 := match found with None => _ | Some _ => d1 end).
  assert (Hd2 : exists e, dstep d d2 k (Some e) /\ match c with Some _ => sees now (Some e) c | None => e = fresh_entry end).
  { subst d2. destruct found as [e|].
    - destruct Hfound as [Se Hne]. exists e. split; [done|]. by destruct c.
    - destruct Hfound as [-> D2]. eauto. }
  clearbody d2. destruct Hd2 as (e & D2 & Se). destruct (get_mut_step now k d2 (proj1 D2)) as [D3 E3].
  rewrite (dstep_slot _ _ _ _ D2) in D3, E3. destruct (Database.get_mut now k d2) as [got d3]. cbn [fst snd] in D3, E3.
  destruct c as [[y x]|]; cbn [mbind option_bind snd contents].
  - unfold sees in Se. destruct (live now (Some e)) as [e'|] eqn:L; [|done].
    assert (e' = e) as -> by (unfold live in L; simpl in L; destruct (Entry.is_expired now e); congruence).
    subst got. pose proof (live_not_expired _ _ _ L) as X. destruct Se as (y' & [= -> ->] & Hy).
    eexists _, e, d3. split; [done|]. split; [by eapply dstep_trans|]. split; [done|]. split; [done|].
    pose proof (sees_entry now e y' X Hy) as Se. unfold holds in Hy.
    destruct (unwrap K (Entry.value e)) as [v|] eqn:U; [|by subst y'].
    destruct Hy as (a & -> & R). exists v. split_and!; [done|by apply unwrap_inv|done].
  - subst e. simpl in D3, E3. subst got. eexists _, fresh_entry, d3. split; [done|]. split; [by eapply dstep_trans|]. split; [done|].
    split; [done|]. exists (fresh K). simpl. rewrite unwrap_wrap. split_and!; [done|done|apply fresh_repr].
Qed.

(** ** Commands *)

(** What a command may do to the cell of its key, with its reply. *)
#[local] Notation Post := (Cell -> Result Resp -> Cell -> Prop).

(** A command on the shard of its key; [need] is the weight of what it writes. *)
Definition serves (now : Z) k (need : Cell -> nat) (post : Post) (body : Database.t -> may_panic (Result Resp * Database.t)) : Prop :=
  forall d c, wf d -> sees now (Database.entries d !! k) c ->
  (Z.of_nat (total_bytes d + (64 + length k + need c)) < 2 ^ 64)%Z ->
  exists r d' o c', body d = Some (r, d') /\ post c r c' /\ dstep d d' k o /\ sees now o c'.

(** A command on the whole keyspace. *)
Definition acts (now : Z) k (need : Cell -> nat) (post : Post) (h : t -> may_panic (Result Resp * t)) : Prop :=
  forall s (M : bytes -> Cell), swf s -> (forall j, sees now (slot s j) (M j)) ->
  room s k (64 + length k + need (M k)) ->
  exists r s' c', h s = Some (r, s') /\ post (M k) r c' /\ swf s' /\
    forall j, sees now (slot s' j) (if decide (j = k) then c' else M j).

Lemma acts_ext now k need post h h' : (forall s, h' s = h s) -> acts now k need post h -> acts now k need post h'.
Proof. intros E B s M W S F. rewrite E. by apply B. Qed.

Lemma serves_acts now k need post body : serves now k need post body ->
  acts now k need post (fun s => on_shard (shard_idx s k) body s).
Proof.
  intros B s M W S F. destruct (shard_of s k W) as (d & Hd & Wd & Hs). pose proof (S k) as Sk. rewrite Hs in Sk.
  destruct (B d (M k) Wd Sk (F d Hd)) as (r & d' & o & c' & E & Hr & [Wd' St] & So).
  destruct (on_shard_step s k d _ d' o body W Hd E St Wd') as (s' & E' & W' & [_ Ha] & _).
  exists r, s', c'. split_and!; [done..|]. intros j. rewrite Ha. by case_decide; subst.
Qed.

(** A command on the keyspace; [ready] is what it needs of the cell of its key. *)
Definition fulfils (now : Z) k (ready : Cell -> Prop) (need : Cell -> nat) (post : Post) (h : t -> may_panic (Result Resp * t)) : Prop :=
  forall s (M : bytes -> Cell), swf s -> (forall j, sees now (slot s j) (M j)) -> ready (M k) ->
  room s k (64 + length k + need (M k)) ->
  exists r s' c', h s = Some (r, s') /\ post (M k) r c' /\ swf s' /\
    forall j, sees now (slot s' j) (if decide (j = k) then c' else M j).

Lemma on_shard_fulfils now k ready need (post : Post) body :
  (forall d (cell : Cell), wf d -> sees now (Database.entries d !! k) cell -> ready cell ->
     (Z.of_nat (total_bytes d + (64 + length k + need cell)) < 2 ^ 64)%Z ->
     exists r d' o c', body d = Some (r, d') /\ post cell r c' /\ dstep d d' k o /\ sees now o c') ->
  fulfils now k ready need post (fun s : t => on_shard (shard_idx s k) body s).
Proof.
  intros B s M W S Rd F. destruct (shard_of s k W) as (d & Hd & Wd & Hs). pose proof (S k) as Sk. rewrite Hs in Sk.
  destruct (B d (M k) Wd Sk Rd (F d Hd)) as (r & d' & o & c' & E & Hr & [Wd' St] & So).
  destruct (on_shard_step s k d _ d' o body W Hd E St Wd') as (s' & E' & W' & [_ Ha] & _).
  exists r, s', c'. split_and!; [done..|]. intros j. rewrite Ha. by case_decide; subst.
Qed.

Lemma fulfils_ext now k ready need post h h' : (forall s : t, h' s = h s) -> fulfils now k ready need post h -> fulfils now k ready need post h'.
Proof. intros E B s M W S R F. rewrite E. by apply B. Qed.

Lemma fulfils_post now k ready need (post post' : Post) h : (forall cell r cell', post cell r cell' -> post' cell r cell') ->
  fulfils now k ready need post h -> fulfils now k ready need post' h.
Proof. intros E B s M W S R F. destruct (B s M W S R F) as (r & s' & c' & Eh & P & Q). exists r, s', c'. auto. Qed.
(** The read guard of a key. *)
Lemma read_live {B} now k s (f : option Entry.t -> may_panic B) : swf s ->
  (found ← read_for k (Database.get_ro now k) s; f found) = f (live now (slot s k)).
Proof.
  intros W. destruct (shard_of s k W) as (d & Hd & _ & Hs). unfold read_for. rewrite Hd. mstep.
  change (Database.get_ro now k d) with (live now (Database.entries d !! k)). by rewrite <- Hs.
Qed.

Lemma read_only_acts now k need post h : (forall s c, swf s -> sees now (slot s k) c ->
  exists r, h s = Some (r, s) /\ post c r c) -> acts now k need post h.
Proof.
  intros B s M W S F. destruct (B s (M k) W (S k)) as (r & E & Hr). exists r, s, (M k).
  split_and!; [done..|]. intros j. case_decide; [subst|]; apply S.
Qed.

(** ** Keys looked up under the write guard *)

(** [write_for(key).get(key)]: what is seen stays, and the entry is what is seen. *)
Lemma get_keeps now s k (M : bytes -> Cell) : swf s -> (forall j, sees now (slot s j) (M j)) ->
  exists r s', on_shard (shard_idx s k) (fun d => Some (Database.get now k d)) s = Some (r, s') /\
    swf s' /\ (forall j, sees now (slot s' j) (M j)) /\ no_bigger s s' /\
    match r with
    | None => M k = None
    | Some e =>
        match unwrap K (Entry.value e) with
        | Some v => exists a x, M k = Some (Own a, x) /\ Entry.value e = wrap K v /\ repr K v a
        | None => contents (M k) = None
        end
    end.
Proof.
  intros W S. destruct (get_step now s k W) as (r & s' & E & W' & Hv & [_ Ha] & Hb & Hs). exists r, s'.
  split_and!; [done|done|intros j; exact (sees_seen now _ _ _ (Hs j) (S j))|done|]. pose proof (S k) as Sk. unfold sees in Sk.
  unfold seen in Hv. unfold live in Sk. destruct (slot s k) as [e0|]; simpl in *; [|by destruct r].
  destruct (Entry.is_expired now e0); [by destruct r|]. destruct r as [e|]; [|done]. simpl in Hv.
  injection Hv as Ev Ex. destruct Sk as (y & -> & Hy). unfold holds in Hy. rewrite <- Ev in Hy.
  destruct (unwrap K (Entry.value e)) as [v|] eqn:U; [|by subst y]. destruct Hy as (a & -> & R).
  eexists _, _. split; [done|]. split; [by apply unwrap_inv|done].
Qed.

(** ** A keyspace to start from: values of the kind, without deadlines. *)

Definition stocked `{UnstableSort} (stock : list (bytes * (V * A))) : t :=
  default (new (2 ^ 2)) (mset ((fun p => (p.1, Entry.new (wrap K p.2.1))) <$> stock) (new (2 ^ 2))).

Definition stock_cells (stock : list (bytes * (V * A))) (j : bytes) : Cell :=
  (fun p => (Own p.2, None)) <$> (list_to_map stock : gmap bytes (V * A)) !! j.

Lemma stocked_ok `{UnstableSort} now stock : NoDup stock.*1 -> Forall (fun p => repr K p.2.1 p.2.2) stock ->
  (forall k, room (new (2 ^ 2)) k (batch_bytes ((fun p => (p.1, Entry.new (wrap K p.2.1))) <$> stock))) ->
  swf (stocked stock) /\ forall j, sees now (slot (stocked stock) j) (stock_cells stock j).
Proof.
  intros N F R. unfold stocked. set (pairs := (fun p => (p.1, Entry.new (wrap K p.2.1))) <$> stock) in *.
  destruct (mset_spec (new (2 ^ 2)) pairs) as (s' & -> & W & V').
  - apply swf_new. lia.
  - unfold pairs. by rewrite <- list_fmap_compose.
  - done.
  - split; [exact W|]. intros j. simpl. rewrite V', slot_new. unfold stock_cells.
    assert (E : (list_to_map pairs : gmap bytes Entry.t) = (fun p => Entry.new (wrap K p.1)) <$> (list_to_map stock : gmap bytes (V * A))).
    { unfold pairs. by rewrite <- list_to_map_fmap. }
    rewrite E, lookup_fmap. destruct ((list_to_map stock : gmap bytes (V * A)) !! j) as [[v a]|] eqn:L; [|done]. simpl.
    apply (sees_entry now (Entry.new (wrap K v)) (Own a)); [done|]. unfold holds. cbn [Entry.value Entry.new]. rewrite unwrap_wrap.
    exists a. split; [done|]. apply elem_of_list_to_map_2 in L. rewrite Forall_forall in F. by apply (F (j, (v, a))).
Qed.
End Cells.
