(* ===== verification/HashCommands.v ===== *)
(** * HashCommands: the handlers of the hash commands ([command/hash.rs])

    The handlers hold the guard of the key's shard, change the hash through a
    reference to its entry, and adjust the byte counter by the delta the value
    reports.  The thresholds of the encoding are read once per command.
    HINCRBYFLOAT, which adds and prints doubles, is in [FloatCommands]. *)

From S2P Require Import Prelude Text Glob Types Keyspace Shards Resp CommandArgs ScanSelect.
From S2P Require HashData SetData.

Import ShardedDatabase.

Section HashCommands.
Context `{SetData.IndexSet} `{HashOrder} `{UnicodeCase} (thr : HashData.HashThresholds).

(** The entry the reference points into; the error is the caller's [?]. *)
Definition get_or_create_hash (now : Z) (key : bytes) (d : Database.t) :
    Result HashData.HashData * Entry.t * Database.t :=
  let '(entry, d) := Database.get_or_insert_with now key (Entry.new (THash HashData.new)) d in
  (match Entry.value entry with THash h => inr h | _ => inl WrongType end, entry, d).

Definition put_hash (key : bytes) (e : Entry.t) (h : HashData.HashData) (d : Database.t) : Database.t :=
  Database.write_back key (Entry.set_value (THash h) e) d.

(** The loop of HSET and HMSET: an error leaves the pairs before it in the hash. *)
Fixpoint hset_loop (cmd : string) (rest : list Resp) (added delta : Z) (h : HashData.HashData) :
    may_panic (Result (Z * Z) * HashData.HashData) :=
  match rest with
  | a :: b :: rest =>
      match get_bytes_vec [a] 0 cmd, get_bytes_vec [b] 0 cmd with
      | inr field, inr val =>
          '(is_new, dl, h) ← HashData.insert thr h field val;
          hset_loop cmd rest (if (is_new : bool) then added + 1 else added)%Z (delta + dl)%Z h
      | inl e, _ => Some (inl e, h)
      | inr _, inl e => Some (inl e, h)
      end
  | _ => Some (inr (added, delta), h)
  end.

Definition hset_body (now : Z) (cmd : string) (key : bytes) (rest : list Resp) (reply : Z -> Resp) (d : Database.t) :
    may_panic (Result Resp * Database.t) :=
  let '(r, e, d) := get_or_create_hash now key d in
  let? h := r at d in
  '(r, h) ← hset_loop cmd rest 0 0 h;
  let d := put_hash key e h d in
  let? p := r at d in
  Some (inr (reply p.1), Database.adjust_live_bytes p.2 d).

Definition bad_hset_arity (args : list Resp) : bool := bool_decide (length args < 4) || negb (Nat.even (length args)).

Definition cmd_hset (now : Z) (args : list Resp) (s : t) : may_panic (Result Resp * t) :=
  if bad_hset_arity args then Some (inl (WrongArity (bstr "hset")), s)
  else
    let? key := get_bytes_vec args 1 "HSET" at s in
    on_shard (shard_idx s key) (hset_body now "HSET" key (drop 2 args) int) s.

Definition cmd_hmset (now : Z) (args : list Resp) (s : t) : may_panic (Result Resp * t) :=
  if bad_hset_arity args then Some (inl (WrongArity (bstr "hmset")), s)
  else
    let? key := get_bytes_vec args 1 "HMSET" at s in
    on_shard (shard_idx s key) (hset_body now "HMSET" key (drop 2 args) (fun _ => ok)) s.

(** ** Reads *)

(** A read of the hash, with the reply for a missing key. *)
Definition read_hash (now : Z) (key : bytes) (none : Resp) (f : HashData.HashData -> may_panic Resp) (s : t) :
    may_panic (Result Resp * t) :=
  found ← read_for key (Database.get_ro now key) s;
  match found with
  | None => Some (inr none, s)
  | Some e =>
      match Entry.value e with
      | THash h => r ← f h; Some (inr r, s)
      | _ => Some (inl WrongType, s)
      end
  end.

Definition bulk_or_null (v : option bytes) : Resp := match v with Some v => bulk v | None => null end.

Definition cmd_hget (now : Z) (args : list Resp) (s : t) : may_panic (Result Resp * t) :=
  if bool_decide (length args <> 3) then Some (inl (WrongArity (bstr "hget")), s)
  else
    let? key := get_bytes_vec args 1 "HGET" at s in
    let? field := get_bytes_vec args 2 "HGET" at s in
    read_hash now key null (fun h => v ← HashData.get h field; Some (bulk_or_null v)) s.

(** Nothing here is an error: a bad field or another type reads as null. *)
Fixpoint hmget_loop (found : option Entry.t) (fields : list Resp) : may_panic (list Resp) :=
  match fields with
  | [] => Some []
  | a :: fields =>
      v ← match get_bytes_vec [a] 0 "HMGET", found with
          | inr field, Some e => match Entry.value e with THash h => HashData.get h field | _ => Some None end
          | _, _ => Some None
          end;
      rest ← hmget_loop found fields;
      Some (bulk_or_null v :: rest)
  end.

Definition cmd_hmget (now : Z) (args : list Resp) (s : t) : may_panic (Result Resp * t) :=
  if bool_decide (length args < 3) then Some (inl (WrongArity (bstr "hmget")), s)
  else
    let? key := get_bytes_vec args 1 "HMGET" at s in
    found ← read_for key (Database.get_ro now key) s;
    results ← hmget_loop found (drop 2 args);
    Some (inr (array results), s).

Definition cmd_hexists (now : Z) (args : list Resp) (s : t) : may_panic (Result Resp * t) :=
  if bool_decide (length args <> 3) then Some (inl (WrongArity (bstr "hexists")), s)
  else
    let? key := get_bytes_vec args 1 "HEXISTS" at s in
    let? field := get_bytes_vec args 2 "HEXISTS" at s in
    read_hash now key (int 0) (fun h => b ← HashData.contains_key h field; Some (int (if (b : bool) then 1 else 0))) s.

(** The snapshot is decoded after the lock is released. *)
Definition hgetall_items (h : HashData.HashData) : may_panic Resp :=
  if HashData.is_empty h then Some (array [])
  else match HashData.hgetall_snap h with
       | HashData.SnapCompact buf count _ => bs ← HashData.bulk_iter buf count; Some (array (map bulk bs))
       | HashData.SnapHashtable pairs => Some (array (concat (map (fun p => [bulk p.1; bulk p.2]) pairs)))
       end.

Definition cmd_hgetall (now : Z) (args : list Resp) (s : t) : may_panic (Result Resp * t) :=
  if bool_decide (length args <> 2) then Some (inl (WrongArity (bstr "hgetall")), s)
  else
    let? key := get_bytes_vec args 1 "HGETALL" at s in
    read_hash now key (array []) hgetall_items s.

Definition cmd_hkeys (now : Z) (args : list Resp) (s : t) : may_panic (Result Resp * t) :=
  if bool_decide (length args <> 2) then Some (inl (WrongArity (bstr "hkeys")), s)
  else
    let? key := get_bytes_vec args 1 "HKEYS" at s in
    read_hash now key (array []) (fun h => ks ← HashData.keys h; Some (array (map bulk ks))) s.

Definition cmd_hvals (now : Z) (args : list Resp) (s : t) : may_panic (Result Resp * t) :=
  if bool_decide (length args <> 2) then Some (inl (WrongArity (bstr "hvals")), s)
  else
    let? key := get_bytes_vec args 1 "HVALS" at s in
    read_hash now key (array []) (fun h => vs ← HashData.values h; Some (array (map bulk vs))) s.

Definition cmd_hlen (now : Z) (args : list Resp) (s : t) : may_panic (Result Resp * t) :=
  if bool_decide (length args <> 2) then Some (inl (WrongArity (bstr "hlen")), s)
  else
    let? key := get_bytes_vec args 1 "HLEN" at s in
    read_hash now key (int 0) (fun h => Some (int (Z.of_nat (HashData.len h)))) s.

(** ** Writes *)

(** A field that cannot be read is skipped. *)
Fixpoint hdel_loop (fields : list Resp) (removed delta : Z) (h : HashData.HashData) :
    may_panic (Z * Z * HashData.HashData) :=
  match fields with
  | [] => Some (removed, delta, h)
  | a :: fields =>
      match get_bytes_vec [a] 0 "HDEL" with
      | inl _ => hdel_loop fields removed delta h
      | inr f =>
          '(r, h) ← HashData.remove thr h f;
          match r with
          | Some (_, dl) => hdel_loop fields (removed + 1)%Z (delta + dl)%Z h
          | None => hdel_loop fields removed delta h
          end
      end
  end.

Definition hdel_body (now : Z) (key : bytes) (fields : list Resp) (d : Database.t) : may_panic (Result Resp * Database.t) :=
  '(result, payload_delta, emptied, d) ←
    match Database.get_mut now key d with
    | (None, d) => Some (inr (int 0), 0%Z, false, d)
    | (Some e, d) =>
        match Entry.value e with
        | THash h =>
            '(removed, delta, h) ← hdel_loop fields 0 0 h;
            Some (inr (int removed), delta, HashData.is_empty h, put_hash key e h d)
        | _ => Some (inl WrongType, 0%Z, false, d)
        end
    end;
  let d := Database.adjust_live_bytes payload_delta d in
  let d := if (emptied : bool) then (Database.remove_empty_key key d).2 else d in
  Some (result, d).

Definition cmd_hdel (now : Z) (args : list Resp) (s : t) : may_panic (Result Resp * t) :=
  if bool_decide (length args < 3) then Some (inl (WrongArity (bstr "hdel")), s)
  else
    let? key := get_bytes_vec args 1 "HDEL" at s in
    on_shard (shard_idx s key) (hdel_body now key (drop 2 args)) s.

Definition hsetnx_body (now : Z) (key field val : bytes) (d : Database.t) : may_panic (Result Resp * Database.t) :=
  let '(r, e, d) := get_or_create_hash now key d in
  let? h := r at d in
  present ← HashData.contains_key h field;
  if (present : bool) then Some (inr (int 0), d)
  else
    '(_, dl, h) ← HashData.insert thr h field val;
    Some (inr (int 1), Database.adjust_live_bytes dl (put_hash key e h d)).

Definition cmd_hsetnx (now : Z) (args : list Resp) (s : t) : may_panic (Result Resp * t) :=
  if bool_decide (length args <> 4) then Some (inl (WrongArity (bstr "hsetnx")), s)
  else
    let? key := get_bytes_vec args 1 "HSETNX" at s in
    let? field := get_bytes_vec args 2 "HSETNX" at s in
    let? val := get_bytes_vec args 3 "HSETNX" at s in
    on_shard (shard_idx s key) (hsetnx_body now key field val) s.

Definition hincrby_body (now : Z) (key field : bytes) (delta : Z) (d : Database.t) : may_panic (Result Resp * Database.t) :=
  let '(r, e, d) := get_or_create_hash now key d in
  let? h := r at d in
  v ← HashData.get h field;
  let? current := match v with None => inr 0%Z | Some v => ok_or (s ← from_utf8 v; parse_i64 s) NotInteger end at d in
  let? new_val := ok_or (checked_add_i64 current delta) Overflow at d in
  '(_, dl, h) ← HashData.insert thr h field (show_int new_val);
  Some (inr (int new_val), Database.adjust_live_bytes dl (put_hash key e h d)).

Definition cmd_hincrby (now : Z) (args : list Resp) (s : t) : may_panic (Result Resp * t) :=
  if bool_decide (length args <> 4) then Some (inl (WrongArity (bstr "hincrby")), s)
  else
    let? key := get_bytes_vec args 1 "HINCRBY" at s in
    let? field := get_bytes_vec args 2 "HINCRBY" at s in
    let? delta := get_i64 args 3 "HINCRBY" at s in
    on_shard (shard_idx s key) (hincrby_body now key field delta) s.

(** ** Iteration and sampling *)

(** The option loop is the same in SSCAN and ZSCAN. *)

Record HscanOptions := mkHscanOptions { pattern : option bytes; count : Z }.

Fixpoint hscan_options (cmd : string) (rest : list Resp) (o : HscanOptions) : Result HscanOptions :=
  match rest with
  | [] => inr o
  | opt :: rest =>
      let! opt := get_str [opt] 0 cmd in
      let opt := to_uppercase opt in
      if bool_decide (opt = bstr "MATCH") then
        let! p := get_bytes_vec rest 0 cmd in hscan_options cmd (skip1 rest) (mkHscanOptions (Some p) (count o))
      else if bool_decide (opt = bstr "COUNT") then
        let! n := get_i64 rest 0 cmd in
        if bool_decide (n <= 0)%Z then inl (Generic (bstr "syntax error"))
        else hscan_options cmd (skip1 rest) (mkHscanOptions (pattern o) n)
      else hscan_options cmd rest o
  end.

Definition cmd_hscan (now : Z) (args : list Resp) (s : t) : may_panic (Result Resp * t) :=
  if bool_decide (length args < 3) then Some (inl (WrongArity (bstr "hscan")), s)
  else
    let? key := get_bytes_vec args 1 "HSCAN" at s in
    let cursor := match get_str args 2 "HSCAN" with inr w => decode_scan_cursor w | inl _ => None end in
    let? o := hscan_options "HSCAN" (drop 3 args) (mkHscanOptions None 10) at s in
    read_hash now key (array [bulk_str (bstr "0"); array []]) (fun h =>
      pairs ← HashData.to_pairs h;
      let pat := default (bstr "*") (pattern o) in
      page ← scan_select_page fst (filter (fun p => glob_match pat p.1) pairs) cursor (Z.to_nat (count o));
      Some (array [bulk_str (dec (next_cursor page));
                   array (concat (map (fun p => [bulk p.1; bulk p.2]) (items page)))])) s.

(** The nanoseconds the [i]-th call reads. *)
Definition pseudo_rand_idx (nanos : Z) (len : nat) : nat :=
  if bool_decide (len = 0) then 0 else Z.to_nat (nanos mod Z.of_nat len).

Definition rand_field (nanos : Z) (fields : list bytes) : Resp :=
  bulk_or_null (fields !! pseudo_rand_idx nanos (length fields)).

Definition cmd_hrandfield (now : Z) (nanos : nat -> Z) (args : list Resp) (s : t) : may_panic (Result Resp * t) :=
  if bool_decide (length args < 2) then Some (inl (WrongArity (bstr "hrandfield")), s)
  else
    let? key := get_bytes_vec args 1 "HRANDFIELD" at s in
    let? count := (if bool_decide (3 <= length args) then let! n := get_i64 args 2 "HRANDFIELD" in inr (Some n) else inr None) at s in
    on_shard (shard_idx s key) (fun d =>
      match Database.get now key d with
      | (None, d) => Some (inr null, d)
      | (Some e, d) =>
          match Entry.value e with
          | THash h =>
              fields ← HashData.keys h;
              Some (inr (match count with
                         | None => rand_field (nanos 0) fields
                         | Some n =>
                             if bool_decide (n < 0)%Z then
                               array (map (fun i => rand_field (nanos i) fields)
                                        (seq 0 (Z.to_nat (- n) `min` MAX_RANDOM_SAMPLE)))
                             else array (map bulk (take (Z.to_nat n) fields))
                         end), d)
          | _ => Some (inl WrongType, d)
          end
      end) s.
End HashCommands.
