(* ===== verification/HashSpec.v ===== *)
(** * HashSpec: the hash commands on finite maps

    An abstract keyspace gives every key a finite map, a value of another type, or
    nothing, with a deadline.  The handlers of [HashCommands] simulate the
    functions on it, whatever the encodings of the hashes. *)

From S2P Require Import Prelude Text Types Keyspace KeyspaceInvariant KeyspaceSpec.
From S2P Require Import Shards ShardsSpec ShardsMoves Resp CommandArgs HashCommands ValueCells.
From S2P Require HashData SetData.

Import ShardedDatabase.

#[local] Arguments Database.remove : simpl never.
#[local] Arguments Database.adjust_live_bytes : simpl never.
#[local] Arguments Database.get_or_insert_with : simpl never.

Inductive HashCommand := HSET | HMSET | HGET | HMGET | HDEL | HEXISTS | HGETALL | HKEYS | HVALS | HLEN | HSETNX | HINCRBY.

Section Spec.
Context `{SetData.IndexSet} `{HashOrder} (thr : HashData.HashThresholds) (Hthr : HashData.thr_sane thr).
Implicit Types (now : Z) (s : t) (d : Database.t) (k : bytes) (ws : list bytes) (e : Entry.t) (o : option Entry.t) (m : gmap bytes bytes).

Definition exec_hash (now : Z) (c : HashCommand) (args : list Resp) (s : t) : may_panic (Result Resp * t) :=
  match c with
  | HSET => cmd_hset thr now args s
  | HMSET => cmd_hmset thr now args s
  | HGET => cmd_hget now args s
  | HMGET => cmd_hmget now args s
  | HDEL => cmd_hdel thr now args s
  | HEXISTS => cmd_hexists now args s
  | HGETALL => cmd_hgetall now args s
  | HKEYS => cmd_hkeys now args s
  | HVALS => cmd_hvals now args s
  | HLEN => cmd_hlen now args s
  | HSETNX => cmd_hsetnx thr now args s
  | HINCRBY => cmd_hincrby thr now args s
  end.

(** ** Cells *)

Definition hash_kind : Kind HashData.HashData (gmap bytes bytes) :=
  mkKind _ _ _ THash (fun v => match v with THash h => Some h | _ => None end) HashData.new HashData.repr ∅ HashData.psize.

#[export] Instance hash_kind_laws : KindLaws hash_kind.
Proof.
  split; try done; simpl.
  - intros x v Hx. destruct x; try done. by injection Hx as ->.
  - apply HashData.hash_repr_new.
  - intros v m R. by apply HashData.hash_repr_payload.
Qed.

#[local] Notation Cell := (option (Content (gmap bytes bytes) * option Z)).
#[local] Notation fields := (contents hash_kind).

(** ** The functions *)

Fixpoint set_pairs (ws : list bytes) m : gmap bytes bytes :=
  match ws with
  | f :: v :: ws => set_pairs ws (<[f := v]> m)
  | _ => m
  end.

Definition number (m : gmap bytes bytes) (field : bytes) : option Z :=
  match m !! field with
  | None => Some 0%Z
  | Some v => s ← from_utf8 v; parse_i64 s
  end.

(** Everything but the key is a word. *)
Definition hash_args (name : string) (key : bytes) (ws : list bytes) : list Resp :=
  bulk (bstr name) :: bulk key :: (bulk <$> ws).

Definition hash_name (c : HashCommand) : string :=
  match c with
  | HSET => "HSET" | HMSET => "HMSET" | HGET => "HGET" | HMGET => "HMGET" | HDEL => "HDEL" | HEXISTS => "HEXISTS"
  | HGETALL => "HGETALL" | HKEYS => "HKEYS" | HVALS => "HVALS" | HLEN => "HLEN" | HSETNX => "HSETNX" | HINCRBY => "HINCRBY"
  end.

Definition arity_ok (c : HashCommand) (ws : list bytes) : bool :=
  match c with
  | HSET | HMSET => negb (bool_decide (ws = [])) && Nat.even (length ws)
  | HMGET | HDEL => negb (bool_decide (ws = []))
  | HGET | HEXISTS => bool_decide (length ws = 1)
  | HGETALL | HKEYS | HVALS | HLEN => bool_decide (length ws = 0)
  | HSETNX | HINCRBY => bool_decide (length ws = 2)
  end.

(** The last word of HINCRBY. *)
Definition increment (w : bytes) : Result Z := get_i64 [bulk w] 0 "HINCRBY".

(** The new map, when the command writes one. *)
Definition new_map (c : HashCommand) (ws : list bytes) m : option (gmap bytes bytes) :=
  match c, ws with
  | HSET, _ | HMSET, _ => Some (set_pairs ws m)
  | HDEL, _ => Some (foldr delete m ws)
  | HSETNX, [f; v] => if bool_decide (m !! f = None) then Some (<[f := v]> m) else None
  | HINCRBY, [f; w] =>
      match increment w, number m f with
      | inr delta, Some n => if bool_decide (in_i64 (n + delta)) then Some (<[f := show_int (n + delta)]> m) else None
      | _, _ => None
      end
  | _, _ => None
  end.

Definition hash_next (c : HashCommand) (ws : list bytes) (cell : Cell) : Cell :=
  match fields cell ≫= new_map c ws with
  | None => cell
  | Some m' => refill hash_kind cell m'
  end.

Definition growth m m' : Z := Z.of_nat (size m') - Z.of_nat (size m).

Definition hash_reply (c : HashCommand) (ws : list bytes) (cell : Cell) (r : Result Resp) : Prop :=
  match c, ws, fields cell with
  | HINCRBY, [f; w], o =>
      r = (let! delta := increment w in
           let! m := ok_or o WrongType in
           let! n := ok_or (number m f) NotInteger in
           if bool_decide (in_i64 (n + delta)) then inr (int (n + delta)) else inl Overflow)
  | HMGET, _, o => r = inr (array (map (fun f => bulk_or_null (m ← o; m !! f)) ws))
  | _, _, None => r = inl WrongType
  | HSET, _, Some m => r = inr (int (growth m (set_pairs ws m)))
  | HMSET, _, Some _ => r = inr ok
  | HGET, [f], Some m => r = inr (bulk_or_null (m !! f))
  | HDEL, _, Some m => r = inr (int (- growth m (foldr delete m ws)))
  | HEXISTS, [f], Some m => r = inr (int (if bool_decide (is_Some (m !! f)) then 1 else 0))
  | HGETALL, _, Some m => exists ps, ps ≡ₚ map_to_list m /\ r = inr (array (map bulk (HashData.flat ps)))
  | HKEYS, _, Some m => exists ps, ps ≡ₚ map_to_list m /\ r = inr (array (map bulk ps.*1))
  | HVALS, _, Some m => exists ps, ps ≡ₚ map_to_list m /\ r = inr (array (map bulk ps.*2))
  | HLEN, _, Some m => r = inr (int (Z.of_nat (size m)))
  | HSETNX, [f; _], Some m => r = inr (int (if bool_decide (m !! f = None) then 1 else 0))
  | _, _, _ => False
  end.

Definition hash_bytes (c : HashCommand) (ws : list bytes) (cell : Cell) : nat :=
  from_option HashData.psize 0 (fields cell ≫= new_map c ws).

Definition hash_post (c : HashCommand) (ws : list bytes) (cell : Cell) (r : Result Resp) (cell' : Cell) : Prop :=
  hash_reply c ws cell r /\ cell' = hash_next c ws cell.

#[local] Notation hserves now k c ws := (serves hash_kind now k (hash_bytes c ws) (hash_post c ws)).
#[local] Notation hacts now k c ws := (acts hash_kind now k (hash_bytes c ws) (hash_post c ws)).

(** The shape of an answer: the reply, and where the command leaves its cell. *)
Lemma hash_answer now k c ws d d1 cell (body : may_panic (Result Resp * Database.t)) r :
  body = Some (r, d1) -> hash_reply c ws cell r ->
  (exists o, dstep d d1 k o /\ sees hash_kind now o (hash_next c ws cell)) ->
  exists r d' o c', body = Some (r, d') /\ hash_post c ws cell r c' /\ dstep d d' k o /\ sees hash_kind now o c'.
Proof. intros -> Hr (o & D & S). by exists r, d1, o, (hash_next c ws cell). Qed.

(** ** HSET and HMSET *)

Lemma growth_insert m f v m' :
  ((if bool_decide (m !! f = None) then 1 else 0) + growth (<[f := v]> m) m' = growth m m')%Z.
Proof.
  unfold growth. case_bool_decide as E; [rewrite map_size_insert_None by done; lia|].
  destruct (m !! f) as [w|] eqn:Ef; [|done]. rewrite map_size_insert, Ef. simpl. lia.
Qed.

Lemma hset_loop_spec cmd n : forall ws added delta h m, length ws <= n -> Nat.even (length ws) = true -> HashData.repr h m ->
  exists h', hset_loop thr cmd (bulk <$> ws) added delta h
      = Some (inr (added + growth m (set_pairs ws m), delta + HashData.delta_of m (set_pairs ws m))%Z, h') /\
    HashData.repr h' (set_pairs ws m).
Proof.
  induction n as [|n IH]; intros ws added delta h m Hn Ev R.
  - destruct ws; [|simpl in Hn; lia]. exists h. split; [|done]. simpl. unfold growth, HashData.delta_of. by rewrite !Z.sub_diag, !Z.add_0_r.
  - destruct ws as [|f [|v ws]]; [|done|].
    { exists h. split; [|done]. simpl. unfold growth, HashData.delta_of. by rewrite !Z.sub_diag, !Z.add_0_r. }
    destruct (HashData.hash_insert_refines thr h m f v Hthr R) as (h1 & E & R1). simpl in Hn.
    destruct (IH ws (if bool_decide (m !! f = None) then added + 1 else added)%Z
      (delta + HashData.delta_of m (<[f := v]> m))%Z h1 (<[f := v]> m) ltac:(lia) Ev R1) as (h' & E' & R').
    exists h'. split; [|done]. cbn [fmap list_fmap hset_loop]. change (get_bytes_vec [bulk f] 0 cmd) with (@inr NexradeError bytes f).
    change (get_bytes_vec [bulk v] 0 cmd) with (@inr NexradeError bytes v). cbv iota. rewrite E. mstep. rewrite E'.
    pose proof (growth_insert m f v (set_pairs ws (<[f := v]> m))) as G. cbn [set_pairs]. unfold HashData.delta_of.
    do 3 f_equal. f_equal; [case_bool_decide; lia|lia].
Qed.

Lemma set_pairs_nonempty ws m : ws <> [] -> Nat.even (length ws) = true -> set_pairs ws m <> ∅.
Proof.
  assert (G : forall n ws m, length ws <= n -> m <> ∅ -> set_pairs ws m <> ∅).
  { clear. induction n as [|n IH]; intros [|f [|v ws]] m Hn Hm; simpl in *; try done; try lia.
    apply IH; [lia|apply insert_non_empty]. }
  destruct ws as [|f [|v ws]]; [done|done|]. intros _ _. simpl. eapply G; [done|apply insert_non_empty].
Qed.

(** Where a cell is left. *)
Lemma next_written c ws cell m m' : fields cell = Some m -> new_map c ws m = Some m' -> hash_next c ws cell = refill hash_kind cell m'.
Proof. intros Ef En. unfold hash_next. rewrite Ef. simpl. by rewrite En. Qed.

Lemma next_kept c ws cell m : fields cell = Some m -> new_map c ws m = None -> hash_next c ws cell = cell.
Proof. intros Ef En. unfold hash_next. rewrite Ef. simpl. by rewrite En. Qed.

Lemma next_foreign c ws cell : fields cell = None -> hash_next c ws cell = cell.
Proof. intros Ef. unfold hash_next. by rewrite Ef. Qed.

Lemma bytes_written c ws cell m m' : fields cell = Some m -> new_map c ws m = Some m' -> hash_bytes c ws cell = HashData.psize m'.
Proof. intros Ef En. unfold hash_bytes. rewrite Ef. simpl. by rewrite En. Qed.

(** A hash of a key, as the handlers get it. *)
Lemma get_or_create now k d cell : wf d -> sees hash_kind now (Database.entries d !! k) cell ->
  (Z.of_nat (total_bytes d + (64 + length k)) < 2 ^ 64)%Z ->
  exists r e d1, get_or_create_hash now k d = (r, e, d1) /\ dstep d d1 k (Some e) /\ Entry.is_expired now e = false /\
    Expiry.expires_at_ms <$> Entry.expiry e = cell ≫= snd /\
    match fields cell with
    | Some m => exists h, r = inr h /\ Entry.value e = THash h /\ HashData.repr h m
    | None => r = inl WrongType /\ sees hash_kind now (Some e) cell
    end.
Proof.
  intros W S F. unfold get_or_create_hash.
  destruct (create_step hash_kind now k d cell W S F) as (e & d1 & E & D1 & X & Ex & M). simpl in E. rewrite E.
  eexists _, e, d1. split_and!; [done..|]. destruct (fields cell) as [m|].
  - destruct M as (h & Ev & R). exists h. by rewrite Ev.
  - destruct M as [U Se]. split; [|done]. simpl in U. by destruct (Entry.value e).
Qed.

(** A hash that is written. *)
Lemma hash_wrote now k c ws d d1 cell m m' h h' e : fields cell = Some m -> new_map c ws m = Some m' -> m' <> ∅ ->
  dstep d d1 k (Some e) -> Entry.is_expired now e = false -> Expiry.expires_at_ms <$> Entry.expiry e = cell ≫= snd ->
  Entry.value e = THash h -> HashData.repr h m -> HashData.repr h' m' ->
  (Z.of_nat (total_bytes d + (64 + length k + hash_bytes c ws cell)) < 2 ^ 64)%Z ->
  exists o, dstep d (Database.adjust_live_bytes (HashData.delta_of m m') (put_hash k e h' d1)) k o /\
    sees hash_kind now o (hash_next c ws cell).
Proof.
  intros Ef En Hm D1 X Ex Ev R R' F. rewrite (bytes_written c ws cell m m' Ef En) in F. rewrite (next_written c ws cell m m' Ef En).
  by apply (write_refill hash_kind now k d d1 cell m m' h h' e).
Qed.

(** A hash that is there and not written. *)
Lemma hash_kept now k c ws d d1 cell m h e : fields cell = Some m -> m <> ∅ -> new_map c ws m = None ->
  dstep d d1 k (Some e) -> Entry.is_expired now e = false -> Expiry.expires_at_ms <$> Entry.expiry e = cell ≫= snd ->
  Entry.value e = THash h -> HashData.repr h m ->
  exists o, dstep d d1 k o /\ sees hash_kind now o (hash_next c ws cell).
Proof. intros Ef Hm En. rewrite (next_kept c ws cell m Ef En). intros. by eapply (unwritten hash_kind). Qed.

(** A wrong type is reported and nothing is seen to change. *)
Lemma wrong_type now k c ws d d1 cell e : dstep d d1 k (Some e) -> fields cell = None -> sees hash_kind now (Some e) cell ->
  exists o, dstep d d1 k o /\ sees hash_kind now o (hash_next c ws cell).
Proof. intros D Ef S. exists (Some e). split; [done|]. by rewrite next_foreign. Qed.

Lemma hset_serves now k cmd ws (reply : Z -> Resp) c : arity_ok HSET ws = true -> c = HSET /\ reply = int \/ c = HMSET /\ reply = (fun _ => ok) ->
  hserves now k c ws (hset_body thr now cmd k (bulk <$> ws) reply).
Proof.
  intros A Hc d cell W S F. apply andb_true_iff in A as [A Ev]. apply negb_true_iff, bool_decide_eq_false in A.
  destruct (get_or_create now k d cell W S ltac:(lia)) as (r & e & d1 & E & D1 & X & Ex & M). unfold hset_body. rewrite E.
  assert (Nm : forall m, new_map c ws m = Some (set_pairs ws m)) by (intros m; by destruct Hc as [[-> _]|[-> _]]).
  destruct (fields cell) as [m|] eqn:Ef.
  - destruct M as (h & -> & Eh & R). cbn [try_at].
    destruct (hset_loop_spec cmd (length ws) ws 0 0 h m ltac:(lia) Ev R) as (h' & -> & R'). mstep. cbn [try_at fst snd].
    rewrite !Z.add_0_l. eapply hash_answer; [done| |].
    + unfold hash_reply. rewrite Ef. by destruct Hc as [[-> ->]|[-> ->]].
    + by apply (hash_wrote now k c ws d d1 cell m _ h h' e Ef (Nm m) (set_pairs_nonempty ws m A Ev)).
  - destruct M as [-> Se]. cbn [try_at]. eapply hash_answer; [done| |by eapply wrong_type].
    unfold hash_reply. rewrite Ef. by destruct Hc as [[-> _]|[-> _]].
Qed.

(** ** HSETNX and HINCRBY *)

Lemma hsetnx_serves now k f v : hserves now k HSETNX [f; v] (hsetnx_body thr now k f v).
Proof.
  intros d cell W S F. destruct (get_or_create now k d cell W S ltac:(lia)) as (r & e & d1 & E & D1 & X & Ex & M).
  unfold hsetnx_body. rewrite E. destruct (fields cell) as [m|] eqn:Ef.
  - destruct M as (h & -> & Eh & R). cbn [try_at]. rewrite (HashData.contains_refines h m f R). mstep.
    destruct (m !! f) as [w|] eqn:Em.
    + rewrite bool_decide_eq_true_2 by eauto. eapply hash_answer; [done|unfold hash_reply; by rewrite Ef, Em|].
      eapply hash_kept; [done| | |done..]; [intros ->; by rewrite lookup_empty in Em|simpl; by rewrite Em].
    + rewrite bool_decide_eq_false_2 by (by intros []). destruct (HashData.hash_insert_refines thr h m f v Hthr R) as (h' & -> & R'). mstep.
      eapply hash_answer; [done|unfold hash_reply; by rewrite Ef, Em|].
      eapply hash_wrote; [done| |apply (insert_non_empty m f v)|done..]. simpl. by rewrite Em.
  - destruct M as [-> Se]. cbn [try_at]. eapply hash_answer; [done| |by eapply wrong_type]. unfold hash_reply. by rewrite Ef.
Qed.

Lemma number_kept m f delta n : in_i64 delta -> number m f = Some n -> ~ in_i64 (n + delta) -> m <> ∅.
Proof. intros D Hn Ho ->. unfold number in Hn. rewrite lookup_empty in Hn. injection Hn as <-. by rewrite Z.add_0_l in Ho. Qed.

Lemma hincrby_serves now k f w delta : increment w = inr delta -> in_i64 delta ->
  hserves now k HINCRBY [f; w] (hincrby_body thr now k f delta).
Proof.
  intros Hw D d cell W S F. destruct (get_or_create now k d cell W S ltac:(lia)) as (r & e & d1 & E & D1 & X & Ex & M).
  unfold hincrby_body. rewrite E.
  assert (Rp : forall r, r = match fields cell with None => inl WrongType | Some m =>
      match number m f with None => inl NotInteger | Some n =>
        if bool_decide (in_i64 (n + delta)) then inr (int (n + delta)) else inl Overflow end end -> hash_reply HINCRBY [f; w] cell r).
  { intros x ->. unfold hash_reply. rewrite Hw. destruct (fields cell) as [m|]; [|done]. simpl. by destruct (number m f). }
  destruct (fields cell) as [m|] eqn:Ef.
  2: { destruct M as [-> Se]. cbn [try_at]. eapply hash_answer; [done|by apply Rp|by eapply wrong_type]. }
  destruct M as (h & -> & Eh & R). cbn [try_at]. rewrite (HashData.hash_get_refines h m f R). mstep.
  assert (N : match m !! f with None => inr 0%Z | Some v => ok_or (s ← from_utf8 v; parse_i64 s) NotInteger end = ok_or (number m f) NotInteger)
    by (unfold number; by destruct (m !! f)). rewrite N. clear N.
  destruct (number m f) as [n|] eqn:Hn; cbn [ok_or try_at].
  2: { eapply hash_answer; [done|by apply Rp|]. eapply hash_kept; [done| | |done..].
    - intros ->. unfold number in Hn. by rewrite lookup_empty in Hn.
    - simpl. by rewrite Hw, Hn. }
  unfold checked_add_i64. case_bool_decide as Hr; cbn [ok_or try_at].
  - destruct (HashData.hash_insert_refines thr h m f (show_int (n + delta)) Hthr R) as (h' & -> & R'). mstep.
    eapply hash_answer; [done|by apply Rp|].
    eapply hash_wrote; [done| |apply (insert_non_empty m f)|done..]. simpl. rewrite Hw, Hn. by rewrite bool_decide_eq_true_2.
  - eapply hash_answer; [done|by apply Rp|]. eapply hash_kept; [done|by eapply number_kept| |done..].
    simpl. rewrite Hw, Hn. by rewrite bool_decide_eq_false_2.
Qed.

(** ** HDEL *)

Lemma delete_all_empty (ws : list bytes) : foldr delete (∅ : gmap bytes bytes) ws = ∅.
Proof. induction ws as [|w ws IH]; [done|]. simpl. by rewrite IH, delete_empty. Qed.

Lemma delete_comm_list ws f m : delete f (foldr delete m ws) = foldr delete (delete f m) ws.
Proof. induction ws as [|w ws IH]; [done|]. simpl. by rewrite delete_delete, IH. Qed.

Lemma hdel_loop_spec ws : forall removed delta h m, HashData.repr h m ->
  exists h', hdel_loop thr (bulk <$> ws) removed delta h
      = Some ((removed - growth m (foldr delete m ws))%Z, (delta + HashData.delta_of m (foldr delete m ws))%Z, h') /\
    HashData.repr h' (foldr delete m ws).
Proof.
  induction ws as [|f ws IH]; intros removed delta h m R.
  - exists h. split; [|done]. simpl. unfold growth, HashData.delta_of. by rewrite !Z.sub_diag, Z.sub_0_r, Z.add_0_r.
  - destruct (HashData.remove_refines thr h m f Hthr R) as (h1 & E & R1). cbn [fmap list_fmap hdel_loop foldr].
    change (get_bytes_vec [bulk f] 0 "HDEL") with (@inr NexradeError bytes f). cbv iota. rewrite E. mstep.
    rewrite delete_comm_list. destruct (m !! f) as [v|] eqn:Em; cbn [mbind option_bind].
    + destruct (IH (removed + 1)%Z (delta + HashData.delta_of m (delete f m))%Z h1 (delete f m) R1) as (h' & -> & R').
      exists h'. split; [|done]. unfold growth, HashData.delta_of. rewrite (map_size_delete_Some f m) by eauto.
      assert (size m <> 0) by (intros ->%map_size_empty_inv; by rewrite lookup_empty in Em).
      do 2 f_equal. f_equal; lia.
    + destruct (IH removed delta h1 (delete f m) R1) as (h' & -> & R'). rewrite delete_id in * by done. by exists h'.
Qed.

Lemma hdel_serves now k ws : hserves now k HDEL ws (hdel_body thr now k (bulk <$> ws)).
Proof.
  intros d cell W S F. unfold hdel_body. destruct (get_mut_step now k d W) as [D1 E1].
  destruct (Database.get_mut now k d) as [r d1]. cbn [fst snd] in *. subst r.
  destruct (live now (Database.entries d !! k)) as [e|] eqn:L.
  2: { rewrite (sees_none hash_kind now _ cell L S). mstep. eapply hash_answer; [done|simpl; unfold growth; by rewrite delete_all_empty|].
    exists None. split; [done|]. unfold hash_next, refill. simpl. rewrite delete_all_empty. by rewrite bool_decide_eq_true_2. }
  destruct (live_cases hash_kind now _ e cell L S) as (Hc & Ex & X & Se). simpl in Hc.
  destruct (Entry.value e) eqn:Ev; try (mstep; eapply hash_answer; [done|unfold hash_reply; by rewrite Hc|by eapply wrong_type]).
  destruct Hc as (m & _ & Ef & R & _). destruct (hdel_loop_spec ws 0 0 v m R) as (h' & -> & R'). mstep.
  rewrite !Z.add_0_l. unfold HashData.is_empty. rewrite (HashData.hash_repr_len _ _ R').
  eapply hash_answer; [done|unfold hash_reply; by rewrite Ef|]. rewrite (next_written HDEL ws cell m _ Ef eq_refl).
  rewrite (bytes_written HDEL ws cell m _ Ef eq_refl) in F. eapply (write_or_drop hash_kind); [|done..].
  apply bool_decide_ext, map_size_empty_iff.
Qed.

(** ** Reads *)

Lemma read_acts now k none f c ws : new_map c ws = (fun _ => None) -> hash_reply c ws None (inr none) ->
  (forall cell, fields cell = None -> hash_reply c ws cell (inl WrongType)) ->
  (forall cell h m, fields cell = Some m -> HashData.repr h m -> exists r, f h = Some r /\ hash_reply c ws cell (inr r)) ->
  hacts now k c ws (read_hash now k none f).
Proof.
  intros N Hn Hw Hf. apply read_only_acts. intros s cell W S. unfold read_hash. rewrite read_live by done.
  assert (Nx : cell = hash_next c ws cell) by (unfold hash_next; rewrite N; by destruct (fields cell)).
  destruct (live now (slot s k)) as [e|] eqn:L; [|rewrite (sees_none hash_kind now _ cell L S) in *; by eexists].
  destruct (live_cases hash_kind now _ e cell L S) as (Hc & _). simpl in Hc.
  destruct (Entry.value e); try (eexists; split; [done|]; split; [by apply Hw|done]).
  destruct Hc as (m & _ & Ef & R & _). destruct (Hf cell v m Ef R) as (r & -> & Hr). mstep. by eexists.
Qed.

Lemma flat_bulks (ps : list (bytes * bytes)) :
  concat (map (fun p => [bulk p.1; bulk p.2]) ps) = map bulk (HashData.flat ps).
Proof. induction ps as [|[f v] ps IH]; [done|]. simpl. by rewrite IH. Qed.

Lemma hgetall_refines h m : HashData.repr h m ->
  exists ps, ps ≡ₚ map_to_list m /\ hgetall_items h = Some (array (map bulk (HashData.flat ps))).
Proof.
  intros R. unfold hgetall_items, HashData.is_empty. rewrite (HashData.hash_repr_len _ _ R). case_bool_decide as Hz.
  - apply map_size_empty_inv in Hz as ->. exists []. by rewrite map_to_list_empty.
  - destruct (HashData.hgetall_snap_enumerates h m R) as (ps & Hp & E). exists ps. split; [done|].
    destruct (HashData.hgetall_snap h) as [b n need|qs]; [by destruct E as [-> _]|subst qs; by rewrite flat_bulks].
Qed.

(** The reads that only look at the hash. *)
Ltac read_command := apply read_acts; [done|..];
  [unfold hash_reply; cbn [contents hash_kind nothing]|intros cell Ef; unfold hash_reply; by rewrite Ef|intros cell h m Ef R; unfold hash_reply; rewrite Ef].

Lemma hget_acts now k f : hacts now k HGET [f] (read_hash now k null (fun h => v ← HashData.get h f; Some (bulk_or_null v))).
Proof. read_command; [done|]. rewrite (HashData.hash_get_refines h m f R). mstep. eauto. Qed.

Lemma hexists_acts now k f : hacts now k HEXISTS [f]
  (read_hash now k (int 0) (fun h => b ← HashData.contains_key h f; Some (int (if (b : bool) then 1 else 0)))).
Proof. read_command; [done|]. rewrite (HashData.contains_refines h m f R). mstep. eauto. Qed.

Lemma hgetall_acts now k : hacts now k HGETALL [] (read_hash now k (array []) hgetall_items).
Proof.
  read_command; [by exists []; rewrite map_to_list_empty|].
  destruct (hgetall_refines h m R) as (ps & Hp & ->). eauto 6.
Qed.

Lemma hkeys_acts now k : hacts now k HKEYS []
  (read_hash now k (array []) (fun h => ks ← HashData.keys h; Some (array (map bulk ks)))).
Proof.
  read_command; [by exists []; rewrite map_to_list_empty|].
  destruct (HashData.to_pairs_refines h m R) as (ps & _ & Hp & -> & _). mstep. eauto 6.
Qed.

Lemma hvals_acts now k : hacts now k HVALS []
  (read_hash now k (array []) (fun h => vs ← HashData.values h; Some (array (map bulk vs)))).
Proof.
  read_command; [by exists []; rewrite map_to_list_empty|].
  destruct (HashData.to_pairs_refines h m R) as (ps & _ & Hp & _ & ->). mstep. eauto 6.
Qed.

Lemma hlen_acts now k : hacts now k HLEN [] (read_hash now k (int 0) (fun h => Some (int (Z.of_nat (HashData.len h))))).
Proof. read_command; [done|]. rewrite (HashData.hash_repr_len _ _ R). eauto. Qed.

(** HMGET reads a value of another type as no fields. *)
Lemma hmget_loop_spec now o cell ws : sees hash_kind now o cell ->
  hmget_loop (live now o) (bulk <$> ws) = Some (map (fun f => bulk_or_null (m ← fields cell; m !! f)) ws).
Proof.
  intros S. induction ws as [|f ws IH]; [done|]. cbn [fmap list_fmap hmget_loop map].
  change (list_fmap _ _ bulk ws) with (bulk <$> ws). rewrite IH.
  change (get_bytes_vec [bulk f] 0 "HMGET") with (@inr NexradeError bytes f). cbv iota. destruct (live now o) as [e|] eqn:L.
  - destruct (live_cases hash_kind now _ e cell L S) as (Hc & _). simpl in Hc.
    destruct (Entry.value e); try by rewrite Hc. destruct Hc as (m & _ & -> & R & _).
    by rewrite (HashData.hash_get_refines v m f R).
  - by rewrite (sees_none hash_kind now _ cell L S).
Qed.

Lemma hmget_acts now k ws : hacts now k HMGET ws (fun s =>
  found ← read_for k (Database.get_ro now k) s;
  results ← hmget_loop found (bulk <$> ws); Some (inr (array results), s)).
Proof.
  apply read_only_acts. intros s cell W S. rewrite read_live by done.
  rewrite (hmget_loop_spec now _ cell ws S). mstep. eexists. split; [done|]. split; [done|].
  unfold hash_next. by destruct (fields cell).
Qed.

(** ** The handlers *)

(** An increment that is no number is reported before the store is touched. *)
Lemma hincrby_acts now k f w : hacts now k HINCRBY [f; w] (cmd_hincrby thr now (hash_args "HINCRBY" k [f; w])).
Proof.
  assert (E : forall s, cmd_hincrby thr now (hash_args "HINCRBY" k [f; w]) s
    = (let? delta := increment w at s in on_shard (shard_idx s k) (hincrby_body thr now k f delta) s)) by reflexivity.
  destruct (increment w) as [e|delta] eqn:Hw.
  - apply read_only_acts. intros s cell W S. exists (inl e). split; [by rewrite E|]. split; [unfold hash_reply; by rewrite Hw|].
    unfold hash_next. destruct (fields cell); simpl; [by rewrite Hw|done].
  - eapply acts_ext; [|apply serves_acts, (hincrby_serves now k f w delta Hw), (get_i64_range _ _ _ _ Hw)].
    intros s. apply E.
Qed.

Lemma exec_hash_acts now c k ws : arity_ok c ws = true -> hacts now k c ws (exec_hash now c (hash_args (hash_name c) k ws)).
Proof.
  intros A. assert (L2 : forall name, length (hash_args name k ws) = 2 + length ws) by (intros; cbn; by rewrite length_fmap).
  assert (Hset : forall name, arity_ok HSET ws = true -> bad_hset_arity (hash_args name k ws) = false).
  { intros name [N Ev]%andb_true_iff. unfold bad_hset_arity. rewrite L2. cbn [Nat.even plus]. rewrite Ev, orb_false_r.
    apply bool_decide_eq_false. apply negb_true_iff, bool_decide_eq_false in N. destruct ws as [|a [|b ws]]; simpl in *; try done; lia. }
  destruct c; cbn [arity_ok] in A.
  - eapply acts_ext; [|apply serves_acts, (hset_serves now k "HSET" ws int HSET A); by left].
    intros s. cbn [exec_hash hash_name]. unfold cmd_hset. by rewrite (Hset _ A).
  - eapply acts_ext; [|apply serves_acts, (hset_serves now k "HMSET" ws (fun _ => ok) HMSET A); by right].
    intros s. cbn [exec_hash hash_name]. unfold cmd_hmset. by rewrite (Hset _ A).
  - apply bool_decide_eq_true in A. destruct ws as [|f [|]]; try done. by apply hget_acts.
  - destruct ws as [|f ws]; [done|]. by apply hmget_acts.
  - destruct ws as [|f ws]; [done|]. by apply (serves_acts hash_kind now k (hash_bytes HDEL (f :: ws))), hdel_serves.
  - apply bool_decide_eq_true in A. destruct ws as [|f [|]]; try done. by apply hexists_acts.
  - apply bool_decide_eq_true in A. destruct ws; [|done]. by apply hgetall_acts.
  - apply bool_decide_eq_true in A. destruct ws; [|done]. by apply hkeys_acts.
  - apply bool_decide_eq_true in A. destruct ws; [|done]. by apply hvals_acts.
  - apply bool_decide_eq_true in A. destruct ws; [|done]. by apply hlen_acts.
  - apply bool_decide_eq_true in A. destruct ws as [|f [|v [|]]]; try done. by apply (serves_acts hash_kind now k (hash_bytes HSETNX [f; v])), hsetnx_serves.
  - apply bool_decide_eq_true in A. destruct ws as [|f [|w [|]]]; try done. apply hincrby_acts.
Qed.

Lemma bad_arity now c k ws s : arity_ok c ws = false ->
  exec_hash now c (hash_args (hash_name c) k ws) s = Some (inl (wrong_arity (hash_name c)), s).
Proof.
  intros A. assert (Hset : forall name, arity_ok HSET ws = false -> bad_hset_arity (hash_args name k ws) = true).
  { intros name A'. unfold bad_hset_arity. cbn [hash_args length Nat.even]. rewrite length_fmap.
    apply andb_false_iff in A' as [N|Ev]; [|by rewrite Ev, orb_true_r].
    apply negb_false_iff, bool_decide_eq_true in N as ->. done. }
  destruct c; cbn [arity_ok] in A; try (apply bool_decide_eq_false in A);
    try (cbn [exec_hash hash_name]; unfold cmd_hset, cmd_hmset; by rewrite (Hset _ A));
    destruct ws as [|a [|b [|]]]; try done; by cbn in A.
Qed.

(** C9: HSET, HMSET, HGET, HMGET, HDEL, HEXISTS, HGETALL, HKEYS, HVALS, HLEN,
    HSETNX and HINCRBY, with any words, act on the keys as on finite maps with a
    deadline, whatever the encodings: they never panic, answer what the maps say
    (the three enumerations in some order), report another type (HMGET reads
    null), a bad number or an overflow, remove the key with its last field, keep
    its deadline, and change nothing that clients see of other keys. A wrong
    number of words is reported and the store is left as it is. *)
Theorem hash_commands_refine_maps (now : Z) (c : HashCommand) (key : bytes) (ws : list bytes) s (M : bytes -> Cell) :
  swf s -> (forall j, sees hash_kind now (slot s j) (M j)) -> room s key (64 + length key + hash_bytes c ws (M key)) ->
  if arity_ok c ws then
    exists r s', exec_hash now c (hash_args (hash_name c) key ws) s = Some (r, s') /\ hash_reply c ws (M key) r /\
      swf s' /\ forall j, sees hash_kind now (slot s' j) (if decide (j = key) then hash_next c ws (M key) else M j)
  else exec_hash now c (hash_args (hash_name c) key ws) s = Some (inl (wrong_arity (hash_name c)), s).
Proof. intros W S F. destruct (arity_ok c ws) eqn:A; [|by apply bad_arity].
  destruct (exec_hash_acts now c key ws A s M W S F) as (r & s' & c' & E & [Hr ->] & W' & S'). by exists r, s'. Qed.
End Spec.

(** ** A run *)

Section Witness.
#[local] Existing Instance SetData.vec_index_set.
#[local] Existing Instance canonical_order.

Definition hset_words : list bytes := [bstr "f"; bstr "v"; bstr "g"; bstr "1"; bstr "f"; bstr "w"].

(** [HSET h f v g 1 f w] on an empty store. *)
Lemma hash_commands_refine_maps_witness :
  exists s', exec_hash HashData.default_thresholds 100 HSET (hash_args "HSET" (bstr "h") hset_words) (new (2 ^ 2))
      = Some (inr (int 2), s') /\ swf s' /\
    sees hash_kind 100 (slot s' (bstr "h")) (Some (Own {[ bstr "f" := bstr "w"; bstr "g" := bstr "1" ]}, None)).
Proof.
  destruct (hash_commands_refine_maps HashData.default_thresholds eq_refl 100 HSET (bstr "h") hset_words
    (new (2 ^ 2)) (fun _ => None)) as (r & s' & E & Hr & W & S).
  - apply swf_new. lia.
  - intros j. rewrite slot_new. reflexivity.
  - apply room_all. vm_compute. reflexivity.
  - exists s'. split; [|split; [exact W|exact (S (bstr "h"))]]. change (hash_args "HSET") with (hash_args (hash_name HSET)). rewrite E. do 2 f_equal. rewrite Hr. vm_compute. reflexivity.
Defined.
End Witness.
