(* ===== verification/FloatCommands.v ===== *)
(** * FloatCommands: INCRBYFLOAT and HINCRBYFLOAT

    The handlers of [command/string.rs] and [command/hash.rs] that add doubles, with
    the specifications of their neighbours in [StringSpec] and [HashSpec]: the sum
    is stored as text under the deadline that was there, or nothing changes. *)

From S2P Require Import Prelude Text Doubles DoubleArith Types Keyspace KeyspaceInvariant KeyspaceSpec.
From S2P Require Import Shards ShardsSpec ShardsMoves Resp CommandArgs StringCommands StringSpec HashCommands HashSpec ValueCells.
From S2P Require HashData SetData.

Import ShardedDatabase.

#[local] Arguments Database.adjust_live_bytes : simpl never.
#[local] Arguments Database.get_or_insert_with : simpl never.

Section FloatCommands.
Context `{SetData.IndexSet} `{Itoa} `{F64Format} `{HashOrder} `{UnicodeCase} (thr : HashData.HashThresholds).

Definition get_f64 (args : list Resp) (idx : nat) (cmd : string) : Result f64 :=
  let! w := get_str args idx cmd in ok_or (f64_parse w) NotFloat.

(** [f64::is_infinite]. *)
Definition is_infinite (d : f64) : bool := bool_decide (f64_magnitude d = F64_INF).

Definition no_number : NexradeError := Generic (bstr "increment would produce NaN or Infinity").

(** The text of a sum that is a number. *)
Definition sum_text (current delta : f64) : Result bytes :=
  let new_val := f64_add current delta in
  if is_nan new_val || is_infinite new_val then inl no_number else inr (format_float new_val).

Definition incrbyfloat_body (now : Z) (key : bytes) (delta : f64) (d : Database.t) : may_panic (Result Resp * Database.t) :=
  let '(found, d) := Database.get now key d in
  let? current := match found with
                  | None => inr ZERO
                  | Some e => let! v := string_of e in ok_or (w ← from_utf8 v; f64_parse w) NotFloat
                  end at d in
  let? text := sum_text current delta at d in
  let '(found, d) := Database.get now key d in
  let prev_expiry := found ≫= Entry.expiry in
  let d := Database.insert key (Entry.new (TString text)) d in
  Some (inr (bulk_str text), match prev_expiry with Some x => Database.set_expiry key (Some x) d | None => d end).

Definition cmd_incrbyfloat (now : Z) (args : list Resp) (s : t) : may_panic (Result Resp * t) :=
  if bool_decide (length args <> 3) then Some (inl (WrongArity (bstr "incrbyfloat")), s)
  else
    let? key := get_bytes_vec args 1 "INCRBYFLOAT" at s in
    let? delta := get_f64 args 2 "INCRBYFLOAT" at s in
    on_shard (shard_idx s key) (incrbyfloat_body now key delta) s.

Definition field_number (h : HashData.HashData) (field : bytes) : may_panic (Result f64) :=
  v ← HashData.get h field;
  Some (match v with None => inr ZERO | Some v => ok_or (w ← from_utf8 v; f64_parse w) NotFloat end).

Definition hincrbyfloat_body (now : Z) (key field : bytes) (delta : f64) (d : Database.t) : may_panic (Result Resp * Database.t) :=
  let '(found, d) := Database.get now key d in
  r ← match found with
      | None => Some (inr ZERO)
      | Some e => match Entry.value e with THash h => field_number h field | _ => Some (inl WrongType) end
      end;
  let? current := r at d in
  let? text := sum_text current delta at d in
  let '(r, e, d) := get_or_create_hash now key d in
  let? h := r at d in
  '(_, dl, h) ← HashData.insert thr h field text;
  Some (inr (bulk_str text), Database.adjust_live_bytes dl (put_hash key e h d)).

Definition cmd_hincrbyfloat (now : Z) (args : list Resp) (s : t) : may_panic (Result Resp * t) :=
  if bool_decide (length args <> 4) then Some (inl (WrongArity (bstr "hincrbyfloat")), s)
  else
    let? key := get_bytes_vec args 1 "HINCRBYFLOAT" at s in
    let? field := get_bytes_vec args 2 "HINCRBYFLOAT" at s in
    let? delta := get_f64 args 3 "HINCRBYFLOAT" at s in
    on_shard (shard_idx s key) (hincrbyfloat_body now key field delta) s.

(** ** INCRBYFLOAT on the cell of its key *)

#[local] Notation SCell := (option (Value * option Z)).

Definition number_of (old : option bytes) : Result f64 :=
  match old with None => inr ZERO | Some v => ok_or (w ← from_utf8 v; f64_parse w) NotFloat end.

Definition float_answer (delta : f64) (c : SCell) : Result Resp * SCell :=
  on_string (fun old =>
    match (let! x := number_of (fst <$> old) in sum_text x delta) with
    | inl e => (inl e, c)
    | inr w => (inr (bulk_str w), Some (Text w, old ≫= snd))
    end) c.

(** The length of what is written, if anything. *)
Definition float_length (delta : f64) (old : option bytes) : nat :=
  match (let! x := number_of old in sum_text x delta) with inr w => length w | inl _ => 0 end.

Definition float_request (key : bytes) (delta : f64) : Request :=
  mkRequest key (fun c => float_length delta (cell_text c)) (float_answer delta).

Lemma incrbyfloat_serves now k delta : StringSpec.serves now (float_request k delta) (incrbyfloat_body now k delta).
Proof.
  intros d W T c F. subst c. cbn [key writes answer float_request] in *. unfold incrbyfloat_body, float_answer, float_length in *.
  destruct (get_serve now k d W T) as (r & d' & G & St & Tr & Ht & Hl & Hr). rewrite G. cbv beta iota.
  destruct (get_again now k d r d' W T G St) as (r2 & d2 & G2 & St2 & Ht2 & _ & Hx & _); [by destruct r as [e|]; [apply Hr|]|].
  rewrite <- Hl in F |- *. destruct r as [e|].
  - destruct Hr as [X Hr]. rewrite Hr, (string_of_look e Tr) in *. cbn [on_string cell_text mbind option_bind] in *.
    destruct (text (abs_value (Entry.value e))) as [b|]; cbn [ok_or bindr try_at]; [|exists d', (Some e); by rewrite Hr].
    cbn [fmap option_fmap option_map fst number_of] in *.
    destruct (ok_or (w ← from_utf8 b; f64_parse w) NotFloat) as [er|x]; cbn [bindr try_at] in *; [exists d', (Some e); by rewrite Hr|].
    destruct (sum_text x delta) as [er|w]; cbn [try_at] in *; [exists d', (Some e); by rewrite Hr|].
    rewrite G2. cbv beta iota. destruct r2 as [e2|]; [|done]. injection Hx as Hx. cbn [mbind option_bind snd fst] in *.
    rewrite <- (put_live now e w X), <- Hx. eapply insert_keep; [exact St2|lia|lia].
  - change (look now None) with (@None (Value * option Z)) in *. cbn [on_string cell_text mbind option_bind number_of fmap option_fmap option_map bindr try_at] in *.
    destruct (sum_text ZERO delta) as [er|w]; cbn [try_at] in *; [by exists d', None|].
    rewrite G2. cbv beta iota. destruct r2 as [e2|]; [done|]. cbn [mbind option_bind snd fst] in *.
    rewrite <- (put_forever now w). eapply (insert_keep now _ _ _ _ _ None); [exact St2|lia|lia].
Qed.

(** INCRBYFLOAT answers the sum as text and stores it under the deadline that was
    there; a value or an argument that is no number, a wrong type, and a sum that is
    no finite number are errors that change nothing. *)
Theorem incrbyfloat_refines now args :
  refines now (cmd_incrbyfloat now args)
    (arity (length args <> 3) "incrbyfloat"
      (let! k := get_bytes_vec args 1 "INCRBYFLOAT" in let! delta := get_f64 args 2 "INCRBYFLOAT" in inr (float_request k delta))).
Proof.
  apply refines_arity, refines_try. intros k _. apply refines_try. intros delta _.
  exact (serves_refines now (float_request k delta) _ (incrbyfloat_serves now k delta)).
Qed.

(** ** HINCRBYFLOAT on the map of its key *)

#[local] Notation fields := (contents hash_kind).
#[local] Notation HCell := (option (Content (gmap bytes bytes) * option Z)).

Definition hfloat_post (field : bytes) (delta : f64) (cell : HCell) (r : Result Resp) (cell' : HCell) : Prop :=
  match fields cell with
  | None => r = inl WrongType /\ cell' = cell
  | Some m =>
      match (let! x := number_of (m !! field) in sum_text x delta) with
      | inl e => r = inl e /\ cell' = cell
      | inr w => r = inr (bulk_str w) /\ cell' = refill hash_kind cell (<[field := w]> m)
      end
  end.

Definition hfloat_need (field : bytes) (delta : f64) (cell : HCell) : nat :=
  match fields cell with
  | None => 0
  | Some m =>
      match (let! x := number_of (m !! field) in sum_text x delta) with
      | inl _ => 0
      | inr w => HashData.psize (<[field := w]> m)
      end
  end.

(** A lookup under the write guard, as the kind sees it. *)
Lemma get_sees (now : Z) (k : bytes) (d : Database.t) (cell : HCell) : wf d -> sees hash_kind now (Database.entries d !! k) cell ->
  exists r d0, Database.get now k d = (r, d0) /\ dstep d d0 k r /\ sees hash_kind now r cell /\ total_bytes d0 <= total_bytes d /\
    live now r = r.
Proof.
  intros W S. destruct (get_on_shard now k d W) as (W' & St & Hv & Hx & Ht). destruct (Database.get now k d) as [r d0] eqn:E. cbn [fst snd] in *.
  exists r, d0. split_and!; [done|by split|exact (sees_seen hash_kind now _ _ _ Hx S)|done|].
  unfold Database.get in E. destruct (Database.entries d !! k) as [e|]; [|by injection E as <- _].
  destruct (Entry.is_expired now e) eqn:Ee; [by injection E as <- _|]. injection E as <- _. unfold live. simpl.
  unfold Entry.is_expired in *. simpl in *. by rewrite Ee.
Qed.

Lemma hincrbyfloat_serves (Hthr : HashData.thr_sane thr) now k field delta :
  ValueCells.serves hash_kind now k (hfloat_need field delta) (hfloat_post field delta) (hincrbyfloat_body now k field delta).
Proof.
  intros d cell W S F. unfold hincrbyfloat_body. destruct (get_sees now k d cell W S) as (r & d0 & -> & D0 & S0 & Ht & Hl).
  set (read := match r with None => _ | Some e => _ end).
  assert (N : read = Some (match fields cell with None => inl WrongType | Some m => number_of (m !! field) end)).
  { unfold read. destruct r as [e|].
    - destruct (live_cases hash_kind now _ e cell Hl S0) as (Hc & _). simpl in Hc.
      destruct (Entry.value e); try by rewrite Hc. destruct Hc as (m & _ & -> & R & _). unfold field_number.
      by rewrite (HashData.hash_get_refines v m field R).
    - by rewrite (sees_none hash_kind now _ cell Hl S0). }
  rewrite N. clear N read. mstep. unfold hfloat_post, hfloat_need in *.
  destruct (fields cell) as [m|] eqn:Ef; [|by eexists _, d0, r, cell].
  destruct (number_of (m !! field)) as [e|x]; cbn [try_at bindr] in *; [by eexists _, d0, r, cell|].
  destruct (sum_text x delta) as [e|w]; cbn [try_at] in *; [by eexists _, d0, r, cell|].
  rewrite <- (dstep_slot _ _ _ _ D0) in S0.
  destruct (get_or_create now k d0 cell (proj1 D0) S0 ltac:(lia)) as (r1 & e & d1 & E & D1 & X & Ex & M). rewrite E, Ef in *.
  destruct M as (h & -> & Ev & R). cbn [try_at].
  destruct (HashData.hash_insert_refines thr h m field w Hthr R) as (h' & -> & R'). mstep.
  edestruct (write_refill hash_kind now k d0 d1 cell m (<[field := w]> m)) as (o & D2 & S2); [apply insert_non_empty|done..| |].
  { simpl. lia. }
  eexists _, _, o, _. split; [done|]. split; [done|]. split; [by eapply dstep_trans|done].
Qed.

(** HINCRBYFLOAT stores the sum as text in the field of the map, created when it is
    not there, under the deadline of the key; every error leaves the keyspace as
    clients see it, no empty hash included. *)
Theorem hincrbyfloat_refines (Hthr : HashData.thr_sane thr) now k field delta :
  ValueCells.acts hash_kind now k (hfloat_need field delta) (hfloat_post field delta)
    (fun s => on_shard (shard_idx s k) (hincrbyfloat_body now k field delta) s).
Proof. by apply serves_acts, hincrbyfloat_serves. Qed.
End FloatCommands.
