(* ===== verification/SetCommands.v ===== *)
(** * SetCommands: the handlers of the set commands ([command/set.rs])

    Like the hash handlers: the guard of the key's shard, the set through a
    reference to its entry, the byte counter adjusted by the delta the value
    reports.  A [HashSet] is a finite set; its iteration order is the one of the
    class [HashOrder].  The commands on several keys lock one shard after the
    other. *)

From S2P Require Import Prelude Text Glob Types Keyspace Shards Resp CommandArgs ScanSelect HashCommands.
From S2P Require SetData.

Import ShardedDatabase.

Section SetCommands.
Context `{SetData.IndexSet} `{HashOrder} `{UnicodeCase} (thr : SetData.SetThresholds).

Definition get_or_create_set (now : Z) (key : bytes) (d : Database.t) : Result SetData.SetData * Entry.t * Database.t :=
  let '(entry, d) := Database.get_or_insert_with now key (Entry.new (TSet SetData.new)) d in
  (match Entry.value entry with TSet v => inr v | _ => inl WrongType end, entry, d).

Definition put_set (key : bytes) (e : Entry.t) (v : SetData.SetData) (d : Database.t) : Database.t :=
  Database.write_back key (Entry.set_value (TSet v) e) d.

(** ** Members of one key *)

(** An error leaves the members before it in the set. *)
Fixpoint sadd_loop (members : list Resp) (added delta : Z) (v : SetData.SetData) :
    may_panic (Result (Z * Z) * SetData.SetData) :=
  match members with
  | [] => Some (inr (added, delta), v)
  | a :: members =>
      match get_bytes_vec [a] 0 "SADD" with
      | inl e => Some (inl e, v)
      | inr member =>
          '(is_new, dl, v) ← SetData.insert thr v member;
          sadd_loop members (if (is_new : bool) then added + 1 else added)%Z (delta + dl)%Z v
      end
  end.

Definition sadd_body (now : Z) (key : bytes) (members : list Resp) (d : Database.t) : may_panic (Result Resp * Database.t) :=
  let '(r, e, d) := get_or_create_set now key d in
  let? v := r at d in
  '(r, v) ← sadd_loop members 0 0 v;
  let d := put_set key e v d in
  let? p := r at d in
  Some (inr (int p.1), Database.adjust_live_bytes p.2 d).

Definition cmd_sadd (now : Z) (args : list Resp) (s : t) : may_panic (Result Resp * t) :=
  if bool_decide (length args < 3) then Some (inl (WrongArity (bstr "sadd")), s)
  else
    let? key := get_bytes_vec args 1 "SADD" at s in
    on_shard (shard_idx s key) (sadd_body now key (drop 2 args)) s.

(** A member that cannot be read is skipped. *)
Fixpoint srem_loop (members : list Resp) (removed delta : Z) (v : SetData.SetData) :
    may_panic (Z * Z * SetData.SetData) :=
  match members with
  | [] => Some (removed, delta, v)
  | a :: members =>
      match get_bytes_vec [a] 0 "SREM" with
      | inl _ => srem_loop members removed delta v
      | inr m =>
          '(ok, dl, v) ← SetData.remove thr v m;
          if (ok : bool) then srem_loop members (removed + 1)%Z (delta + dl)%Z v
          else srem_loop members removed delta v
      end
  end.

(** The end of the handlers that take members out: the counter, and the key when
    its set is empty. *)
Definition settle (key : bytes) (result : Result Resp) (payload_delta : Z) (emptied : bool) (d : Database.t) :
    Result Resp * Database.t :=
  let d := Database.adjust_live_bytes payload_delta d in
  (result, if emptied then (Database.remove_empty_key key d).2 else d).

Definition srem_body (now : Z) (key : bytes) (members : list Resp) (d : Database.t) : may_panic (Result Resp * Database.t) :=
  match Database.get_mut now key d with
  | (None, d) => Some (settle key (inr (int 0)) 0 false d)
  | (Some e, d) =>
      match Entry.value e with
      | TSet v =>
          '(removed, delta, v) ← srem_loop members 0 0 v;
          Some (settle key (inr (int removed)) delta (SetData.is_empty v) (put_set key e v d))
      | _ => Some (settle key (inl WrongType) 0 false d)
      end
  end.

Definition cmd_srem (now : Z) (args : list Resp) (s : t) : may_panic (Result Resp * t) :=
  if bool_decide (length args < 3) then Some (inl (WrongArity (bstr "srem")), s)
  else
    let? key := get_bytes_vec args 1 "SREM" at s in
    on_shard (shard_idx s key) (srem_body now key (drop 2 args)) s.

(** ** Reads of one key *)

Definition read_set (now : Z) (key : bytes) (none : Resp) (f : SetData.SetData -> may_panic Resp) (s : t) :
    may_panic (Result Resp * t) :=
  found ← read_for key (Database.get_ro now key) s;
  match found with
  | None => Some (inr none, s)
  | Some e =>
      match Entry.value e with
      | TSet v => r ← f v; Some (inr r, s)
      | _ => Some (inl WrongType, s)
      end
  end.

Definition of_bool (b : bool) : Resp := int (if b then 1 else 0).

Definition cmd_sismember (now : Z) (args : list Resp) (s : t) : may_panic (Result Resp * t) :=
  if bool_decide (length args <> 3) then Some (inl (WrongArity (bstr "sismember")), s)
  else
    let? key := get_bytes_vec args 1 "SISMEMBER" at s in
    let? member := get_bytes_vec args 2 "SISMEMBER" at s in
    read_set now key (int 0) (fun v => b ← SetData.contains v member; Some (of_bool b)) s.

(** Nothing is an error here: a bad member or another type reads as 0. *)
Fixpoint smismember_loop (found : option Entry.t) (members : list Resp) : may_panic (list Resp) :=
  match members with
  | [] => Some []
  | a :: members =>
      b ← match get_bytes_vec [a] 0 "SMISMEMBER", found with
          | inr member, Some e => match Entry.value e with TSet v => SetData.contains v member | _ => Some false end
          | _, _ => Some false
          end;
      rest ← smismember_loop found members;
      Some (of_bool b :: rest)
  end.

Definition cmd_smismember (now : Z) (args : list Resp) (s : t) : may_panic (Result Resp * t) :=
  if bool_decide (length args < 3) then Some (inl (WrongArity (bstr "smismember")), s)
  else
    let? key := get_bytes_vec args 1 "SMISMEMBER" at s in
    found ← read_for key (Database.get_ro now key) s;
    results ← smismember_loop found (drop 2 args);
    Some (inr (array results), s).

Definition cmd_smembers (now : Z) (args : list Resp) (s : t) : may_panic (Result Resp * t) :=
  if bool_decide (length args <> 2) then Some (inl (WrongArity (bstr "smembers")), s)
  else
    let? key := get_bytes_vec args 1 "SMEMBERS" at s in
    read_set now key (array []) (fun v => ms ← SetData.to_vec v; Some (array (map bulk ms))) s.

Definition cmd_scard (now : Z) (args : list Resp) (s : t) : may_panic (Result Resp * t) :=
  if bool_decide (length args <> 2) then Some (inl (WrongArity (bstr "scard")), s)
  else
    let? key := get_bytes_vec args 1 "SCARD" at s in
    read_set now key (int 0) (fun v => Some (int (Z.of_nat (SetData.len v)))) s.

(** ** Random members *)

Definition rand_member (nanos : Z) (v : SetData.SetData) : may_panic Resp :=
  m ← SetData.get_at v (pseudo_rand_idx nanos (SetData.len v)); Some (bulk_or_null m).

(** [nanos] are the clock readings of the successive draws. *)
Definition cmd_srandmember (now : Z) (nanos : nat -> Z) (args : list Resp) (s : t) : may_panic (Result Resp * t) :=
  if bool_decide (length args < 2) then Some (inl (WrongArity (bstr "srandmember")), s)
  else
    let? key := get_bytes_vec args 1 "SRANDMEMBER" at s in
    let? count := (if bool_decide (3 <= length args) then let! n := get_i64 args 2 "SRANDMEMBER" in inr (Some n) else inr None) at s in
    read_set now key (match count with Some _ => array [] | None => null end) (fun v =>
      match count with
      | None => rand_member (nanos 0) v
      | Some n =>
          if bool_decide (n < 0)%Z then
            ms ← mapM (fun i => rand_member (nanos i) v) (seq 0 (Z.to_nat (- n) `min` MAX_RANDOM_SAMPLE));
            Some (array ms)
          else ms ← SetData.to_vec v; Some (array (map bulk (take (Z.to_nat n) ms)))
      end) s.

(** The loop of SPOP with a count. *)
Fixpoint spop_loop (nanos : nat -> Z) (n : nat) (v : SetData.SetData) (delta : Z) (popped : list bytes) :
    may_panic (list bytes * Z * SetData.SetData) :=
  match n with
  | 0 => Some (popped, delta, v)
  | S n =>
      if SetData.is_empty v then Some (popped, delta, v)
      else
        '(m, v) ← SetData.remove_at thr v (pseudo_rand_idx (nanos 0) (SetData.len v));
        match m with
        | Some m => spop_loop (fun i => nanos (S i)) n v (delta - Z.of_nat (length m))%Z (popped ++ [m])
        | None => spop_loop (fun i => nanos (S i)) n v delta popped
        end
  end.

(** A pass over an empty set ends the loop, so no more passes than members matter. *)
Definition spop_members (nanos : nat -> Z) (count : option Z) (v : SetData.SetData) :
    may_panic (Resp * Z * SetData.SetData) :=
  match count with
  | Some n =>
      '(popped, delta, v) ← spop_loop nanos (Z.to_nat (Z.min n (Z.of_nat (SetData.len v)))) v 0 [];
      Some (array (map bulk popped), delta, v)
  | None =>
      if SetData.is_empty v then Some (null, 0%Z, v)
      else
        '(m, v) ← SetData.remove_at thr v (pseudo_rand_idx (nanos 0) (SetData.len v));
        match m with
        | Some m => Some (bulk m, (- Z.of_nat (length m))%Z, v)
        | None => Some (null, 0%Z, v)
        end
  end.

Definition spop_body (now : Z) (nanos : nat -> Z) (key : bytes) (count : option Z) (d : Database.t) :
    may_panic (Result Resp * Database.t) :=
  match Database.get_mut now key d with
  | (None, d) => Some (settle key (inr (match count with Some _ => array [] | None => null end)) 0 false d)
  | (Some e, d) =>
      match Entry.value e with
      | TSet v =>
          '(resp, delta, v) ← spop_members nanos count v;
          Some (settle key (inr resp) delta (SetData.is_empty v) (put_set key e v d))
      | _ => Some (settle key (inl WrongType) 0 false d)
      end
  end.

Definition spop_count (args : list Resp) : Result (option Z) :=
  if bool_decide (3 <= length args) then
    let! n := get_i64 args 2 "SPOP" in
    if bool_decide (n < 0)%Z then inl (Generic (bstr "value is out of range, must be positive")) else inr (Some n)
  else inr None.

Definition cmd_spop (now : Z) (nanos : nat -> Z) (args : list Resp) (s : t) : may_panic (Result Resp * t) :=
  if bool_decide (length args < 2) then Some (inl (WrongArity (bstr "spop")), s)
  else
    let? key := get_bytes_vec args 1 "SPOP" at s in
    let? count := spop_count args at s in
    on_shard (shard_idx s key) (spop_body now nanos key count) s.

(** ** Pages *)

Definition cmd_sscan (now : Z) (args : list Resp) (s : t) : may_panic (Result Resp * t) :=
  if bool_decide (length args < 3) then Some (inl (WrongArity (bstr "sscan")), s)
  else
    let? key := get_bytes_vec args 1 "SSCAN" at s in
    let cursor := match get_str args 2 "SSCAN" with inr w => decode_scan_cursor w | inl _ => None end in
    let? o := hscan_options "SSCAN" (drop 3 args) (mkHscanOptions None 10) at s in
    read_set now key (array [bulk_str (bstr "0"); array []]) (fun v =>
      ms ← SetData.to_vec v;
      let pat := default (bstr "*") (pattern o) in
      page ← scan_select_page (fun m : bytes => m) (filter (fun m : bytes => glob_match pat m) ms) cursor (Z.to_nat (count o));
      Some (array [bulk_str (dec (next_cursor page)); array (map bulk (items page))])) s.

(** ** Several keys *)

(** [write_for(key).get(key)]: an expired key is dropped on the way. *)
Definition fetch (now : Z) (key : bytes) (s : t) : may_panic (option Entry.t * t) :=
  on_shard (shard_idx s key) (fun d => Some (Database.get now key d)) s.

Fixpoint collect_union (now : Z) (keys : list Resp) (result : gset bytes) (s : t) : may_panic (Result (gset bytes) * t) :=
  match keys with
  | [] => Some (inr result, s)
  | a :: keys =>
      let? key := get_bytes_vec [a] 0 "SUNION" at s in
      '(found, s) ← fetch now key s;
      match found with
      | None => collect_union now keys result s
      | Some e =>
          match Entry.value e with
          | TSet v => ms ← SetData.to_vec v; collect_union now keys (result ∪ list_to_set ms) s
          | _ => Some (inl WrongType, s)
          end
      end
  end.

(** The sets of the keys; [None] when a key is missing, which ends the loop. *)
Fixpoint collect_sets (now : Z) (keys : list Resp) (sets : list (gset bytes)) (s : t) :
    may_panic (Result (option (list (gset bytes))) * t) :=
  match keys with
  | [] => Some (inr (Some sets), s)
  | a :: keys =>
      let? key := get_bytes_vec [a] 0 "SINTER" at s in
      '(found, s) ← fetch now key s;
      match found with
      | None => Some (inr None, s)
      | Some e =>
          match Entry.value e with
          | TSet v => x ← SetData.to_hashset v; collect_sets now keys (sets ++ [x]) s
          | _ => Some (inl WrongType, s)
          end
      end
  end.

Definition collect_inter (now : Z) (keys : list Resp) (s : t) : may_panic (Result (gset bytes) * t) :=
  '(r, s) ← collect_sets now keys [] s;
  let? sets := r at s in
  Some (inr (match sets with
             | Some (x :: sets) => fold_left (∩) sets x
             | _ => ∅
             end), s).

Fixpoint diff_loop (now : Z) (keys : list Resp) (result : gset bytes) (s : t) : may_panic (Result (gset bytes) * t) :=
  match keys with
  | [] => Some (inr result, s)
  | a :: keys =>
      let? key := get_bytes_vec [a] 0 "SDIFF" at s in
      '(found, s) ← fetch now key s;
      match found with
      | None => diff_loop now keys result s
      | Some e =>
          match Entry.value e with
          | TSet v => ms ← SetData.to_vec v; diff_loop now keys (fold_left (fun x m => x ∖ {[m]}) ms result) s
          | _ => Some (inl WrongType, s)
          end
      end
  end.

Definition collect_diff (now : Z) (keys : list Resp) (s : t) : may_panic (Result (gset bytes) * t) :=
  let? first_key := get_bytes_vec keys 0 "SDIFF" at s in
  '(found, s) ← fetch now first_key s;
  match found with
  | None => diff_loop now (drop 1 keys) ∅ s
  | Some e =>
      match Entry.value e with
      | TSet v => x ← SetData.to_hashset v; diff_loop now (drop 1 keys) x s
      | _ => Some (inl WrongType, s)
      end
  end.

(** What SUNION, SINTER and SDIFF answer. *)
Definition set_reply (collect : list Resp -> t -> may_panic (Result (gset bytes) * t)) (cmd : string)
    (args : list Resp) (s : t) : may_panic (Result Resp * t) :=
  if bool_decide (length args < 2) then Some (inl (WrongArity (bstr cmd)), s)
  else
    '(r, s) ← collect (drop 1 args) s;
    let? result := r at s in
    Some (inr (array (map bulk (SetData.hs_iter result))), s).

(** What the STORE variants do; the result is stored even when it is empty. *)
Definition set_store (collect : list Resp -> t -> may_panic (Result (gset bytes) * t)) (name cmd : string)
    (args : list Resp) (s : t) : may_panic (Result Resp * t) :=
  if bool_decide (length args < 3) then Some (inl (WrongArity (bstr name)), s)
  else
    let? dst := get_bytes_vec args 1 cmd at s in
    '(r, s) ← collect (drop 2 args) s;
    let? result := r at s in
    '(_, s) ← on_shard (shard_idx s dst) (fun d =>
      Some ((), Database.insert dst (Entry.new (TSet (SetData.from_hashset thr result))) d)) s;
    Some (inr (int (Z.of_nat (size result))), s).

Definition cmd_sunion (now : Z) := set_reply (fun keys => collect_union now keys ∅) "sunion".
Definition cmd_sinter (now : Z) := set_reply (collect_inter now) "sinter".
Definition cmd_sdiff (now : Z) := set_reply (collect_diff now) "sdiff".
Definition cmd_sunionstore (now : Z) := set_store (fun keys => collect_union now keys ∅) "sunionstore" "SUNIONSTORE".
Definition cmd_sinterstore (now : Z) := set_store (collect_inter now) "sinterstore" "SINTERSTORE".
Definition cmd_sdiffstore (now : Z) := set_store (collect_diff now) "sdiffstore" "SDIFFSTORE".

Definition cmd_smove (now : Z) (args : list Resp) (s : t) : may_panic (Result Resp * t) :=
  if bool_decide (length args <> 4) then Some (inl (WrongArity (bstr "smove")), s)
  else
    let? src := get_bytes_vec args 1 "SMOVE" at s in
    let? dst := get_bytes_vec args 2 "SMOVE" at s in
    let? member := get_bytes_vec args 3 "SMOVE" at s in
    '(r, s) ← smove_atomic thr now src dst member s;
    let? result := r at s in
    Some (inr (int result), s).

(** ** SINTERCARD *)

Fixpoint all_bytes (args : list Resp) (cmd : string) : Result (list bytes) :=
  match args with
  | [] => inr []
  | a :: args => let! k := get_bytes_vec [a] 0 cmd in let! ks := all_bytes args cmd in inr (k :: ks)
  end.

(** [as usize]: a negative limit is a huge one, and 0 is none. *)
Definition card_limit (args : list Resp) (num_keys : nat) : Result (option Z) :=
  if bool_decide (2 + num_keys < length args) then
    let! opt := get_str args (2 + num_keys) "SINTERCARD" in
    if bool_decide (to_uppercase opt <> bstr "LIMIT") then inl (Generic (bstr "syntax error"))
    else
      let! raw := get_i64 args (3 + num_keys) "SINTERCARD" in
      let raw_limit := wrap64 raw in
      if bool_decide (length args <> 4 + num_keys) then inl (Generic (bstr "syntax error"))
      else inr (if bool_decide (0 < raw_limit)%Z then Some raw_limit else None)
  else if bool_decide (length args <> 2 + num_keys) then inl (Generic (bstr "syntax error"))
  else inr None.

(** The sets with the index of the smallest one so far. *)
Fixpoint card_sets (now : Z) (keys : list bytes) (i : nat) (smallest : option nat) (smallest_idx : nat)
    (sets : list (gset bytes)) (s : t) : may_panic (Result (option (nat * list (gset bytes)))) :=
  match keys with
  | [] => Some (inr (Some (smallest_idx, sets)))
  | key :: keys =>
      found ← read_for key (Database.get_ro now key) s;
      match found with
      | None => Some (inr None)
      | Some e =>
          match Entry.value e with
          | TSet v =>
              let less := match smallest with None => true | Some n => bool_decide (SetData.len v < n) end in
              x ← SetData.to_hashset v;
              card_sets now keys (S i) (if less then Some (SetData.len v) else smallest) (if less then i else smallest_idx)
                (sets ++ [x]) s
          | _ => Some (inl WrongType)
          end
      end
  end.

Fixpoint card_loop (others : list (gset bytes)) (limit : option Z) (members : list bytes) (count : Z) : Z :=
  match members with
  | [] => count
  | m :: members =>
      if forallb (fun x => bool_decide (m ∈ x)) others then
        let count := (count + 1)%Z in
        if match limit with Some lim => bool_decide (lim <= count)%Z | None => false end then count
        else card_loop others limit members count
      else card_loop others limit members count
  end.

Definition cmd_sintercard (now : Z) (args : list Resp) (s : t) : may_panic (Result Resp * t) :=
  if bool_decide (length args < 3) then Some (inl (WrongArity (bstr "sintercard")), s)
  else
    let? num_keys := get_i64 args 1 "SINTERCARD" at s in
    if bool_decide (num_keys <= 0)%Z then Some (inl (Generic (bstr "numkeys should be greater than 0")), s)
    else if bool_decide (Z.of_nat (length args) < 2 + num_keys)%Z then Some (inl (WrongArity (bstr "sintercard")), s)
    else
      let num_keys := Z.to_nat num_keys in
      let? keys := all_bytes (take num_keys (drop 2 args)) "SINTERCARD" at s in
      let? limit := card_limit args num_keys at s in
      r ← card_sets now keys 0 None 0 [] s;
      let? found := r at s in
      match found with
      | None => Some (inr (int 0), s)
      | Some (idx, sets) =>
          match sets !! idx with
          | None => Some (inr (int 0), s)
          | Some x => Some (inr (int (card_loop (delete idx sets) limit (SetData.hs_iter x) 0)), s)
          end
      end.
End SetCommands.
