(* ===== verification/SetSpec.v ===== *)
(** * SetSpec: the set commands on finite sets

    An abstract keyspace gives every key a finite set of byte strings, a value of
    another type, or nothing.  The handlers of [SetCommands] refine relations on
    it; the random ones may answer any member, whatever the clock shows. *)

From S2P Require Import Prelude Text Types Keyspace KeyspaceInvariant KeyspaceSpec.
From S2P Require Import Shards ShardsSpec ShardsMoves Resp CommandArgs ScanSelect HashCommands SetCommands ValueCells.
From S2P Require SetData.

Import ShardedDatabase.

#[local] Arguments Database.remove : simpl never.
#[local] Arguments Database.adjust_live_bytes : simpl never.
#[local] Arguments Database.get_or_insert_with : simpl never.

Inductive SetCommand := SADD | SREM | SISMEMBER | SMISMEMBER | SMEMBERS | SCARD | SPOP | SRANDMEMBER.

Section Spec.
Context `{SetData.IndexSet} `{HashOrder} `{UnicodeCase} (thr : SetData.SetThresholds) (Hthr : SetData.thr_sane thr).
Implicit Types (now : Z) (s : t) (d : Database.t) (k : bytes) (ws : list bytes) (e : Entry.t) (o : option Entry.t) (X Y : gset bytes).

Definition exec_set (now : Z) (nanos : nat -> Z) (c : SetCommand) (args : list Resp) (s : t) : may_panic (Result Resp * t) :=
  match c with
  | SADD => cmd_sadd thr now args s
  | SREM => cmd_srem thr now args s
  | SISMEMBER => cmd_sismember now args s
  | SMISMEMBER => cmd_smismember now args s
  | SMEMBERS => cmd_smembers now args s
  | SCARD => cmd_scard now args s
  | SPOP => cmd_spop thr now nanos args s
  | SRANDMEMBER => cmd_srandmember now nanos args s
  end.

(** ** Cells *)

Definition set_kind : Kind SetData.SetData (gset bytes) :=
  mkKind _ _ _ TSet (fun v => match v with TSet x => Some x | _ => None end) SetData.new SetData.repr ∅ SetData.ssize.

#[export] Instance set_kind_laws : KindLaws set_kind.
Proof.
  split; try done; simpl.
  - intros x v Hx. destruct x; try done. by injection Hx as ->.
  - apply SetData.set_repr_new.
  - intros v X R. by apply SetData.repr_sizes.
Qed.

Definition Cell : Type := option (Content (gset bytes) * option Z).
#[local] Notation members := (contents set_kind).

(** ** The relations *)

Definition set_args (name : string) (key : bytes) (ws : list bytes) : list Resp :=
  bulk (bstr name) :: bulk key :: (bulk <$> ws).

Definition set_name (c : SetCommand) : string :=
  match c with
  | SADD => "SADD" | SREM => "SREM" | SISMEMBER => "SISMEMBER" | SMISMEMBER => "SMISMEMBER"
  | SMEMBERS => "SMEMBERS" | SCARD => "SCARD" | SPOP => "SPOP" | SRANDMEMBER => "SRANDMEMBER"
  end.

Definition set_arity_ok (c : SetCommand) (ws : list bytes) : bool :=
  match c with
  | SADD | SREM | SMISMEMBER => negb (bool_decide (ws = []))
  | SISMEMBER => bool_decide (length ws = 1)
  | SMEMBERS | SCARD => bool_decide (length ws = 0)
  | SPOP | SRANDMEMBER => true
  end.

(** The optional count; further words are ignored. *)
Definition count_word (cmd : string) (ws : list bytes) : Result (option Z) :=
  match ws with
  | [] => inr None
  | w :: _ => let! n := get_i64 [bulk w] 0 cmd in inr (Some n)
  end.

(** One draw. *)
Definition drawn X (r : Resp) : Prop := X = ∅ /\ r = null \/ exists m, m ∈ X /\ r = bulk m.

(** [n] different members, or all of them. *)
Definition sample X (n : Z) (ms : list bytes) : Prop :=
  NoDup ms /\ list_to_set ms ⊆ X /\ Z.of_nat (length ms) = Z.min n (Z.of_nat (size X)).

Definition pops (count : option Z) X (r : Resp) Y : Prop :=
  match count with
  | Some n => exists ms, sample X n ms /\ r = array (map bulk ms) /\ Y = X ∖ list_to_set ms
  | None => X = ∅ /\ r = null /\ Y = ∅ \/ exists m, m ∈ X /\ r = bulk m /\ Y = X ∖ {[m]}
  end.

Definition draws (count : option Z) (cell : Cell) X (r : Resp) : Prop :=
  match count with
  | None => drawn X r
  | Some n =>
      if bool_decide (0 <= n)%Z then exists ms, sample X n ms /\ r = array (map bulk ms)
      else exists rs, r = array rs /\
        match cell with
        | None => rs = []
        | Some _ => Forall (drawn X) rs /\ length rs = Z.to_nat (- n) `min` MAX_RANDOM_SAMPLE
        end
  end.

Definition set_post (c : SetCommand) (ws : list bytes) (cell : Cell) (r : Result Resp) (cell' : Cell) : Prop :=
  match c, ws, members cell with
  | SMISMEMBER, _, o => cell' = cell /\
      r = inr (array (map (fun w => of_bool (match o with Some X => bool_decide (w ∈ X) | None => false end)) ws))
  | SPOP, _, o =>
      match count_word "SPOP" ws with
      | inl e => r = inl e /\ cell' = cell
      | inr count =>
          if match count with Some n => bool_decide (n < 0)%Z | None => false end
          then r = inl (Generic (bstr "value is out of range, must be positive")) /\ cell' = cell
          else match o with
               | None => r = inl WrongType /\ cell' = cell
               | Some X => exists x Y, pops count X x Y /\ r = inr x /\ cell' = refill set_kind cell Y
               end
      end
  | SRANDMEMBER, _, o => cell' = cell /\
      match count_word "SRANDMEMBER" ws with
      | inl e => r = inl e
      | inr count =>
          match o with
          | None => r = inl WrongType
          | Some X => exists x, draws count cell X x /\ r = inr x
          end
      end
  | _, _, None => r = inl WrongType /\ cell' = cell
  | SADD, _, Some X =>
      let Y := X ∪ list_to_set ws in
      r = inr (int (Z.of_nat (size Y) - Z.of_nat (size X))) /\ cell' = refill set_kind cell Y
  | SREM, _, Some X =>
      let Y := X ∖ list_to_set ws in
      r = inr (int (Z.of_nat (size X) - Z.of_nat (size Y))) /\ cell' = refill set_kind cell Y
  | SISMEMBER, [w], Some X => r = inr (of_bool (bool_decide (w ∈ X))) /\ cell' = cell
  | SMEMBERS, _, Some X => (exists ms, ms ≡ₚ elements X /\ r = inr (array (map bulk ms))) /\ cell' = cell
  | SCARD, _, Some X => r = inr (int (Z.of_nat (size X))) /\ cell' = cell
  | _, _, _ => False
  end.

(** The bytes a command may come to store under its key. *)
Definition set_need (c : SetCommand) (ws : list bytes) (cell : Cell) : nat :=
  match members cell with
  | None => 0
  | Some X => match c with SADD => SetData.ssize (X ∪ list_to_set ws) | _ => SetData.ssize X end
  end.

#[local] Notation sserves now k c ws := (serves set_kind now k (set_need c ws) (set_post c ws)).
#[local] Notation sacts now k c ws := (acts set_kind now k (set_need c ws) (set_post c ws)).

Lemma set_size_0 X : size X = 0 <-> X = ∅.
Proof. rewrite size_empty_iff. by rewrite leibniz_equiv_iff. Qed.

(** ** SADD *)

Lemma sadd_loop_spec ws : forall added delta v X, SetData.repr v X ->
  exists v', sadd_loop thr (bulk <$> ws) added delta v
      = Some (inr (added + (Z.of_nat (size (X ∪ list_to_set ws)) - Z.of_nat (size X)),
                   delta + SetData.delta_of X (X ∪ list_to_set ws))%Z, v') /\
    SetData.repr v' (X ∪ list_to_set ws).
Proof.
  induction ws as [|w ws IH]; intros added delta v X R.
  - exists v. simpl. rewrite union_empty_r_L. split; [|done]. unfold SetData.delta_of. by rewrite !Z.sub_diag, !Z.add_0_r.
  - destruct (SetData.set_insert_repr thr v X w Hthr R) as (v1 & E & R1).
    destruct (IH (if bool_decide (w ∉ X) then added + 1 else added)%Z (delta + SetData.delta_of X ({[w]} ∪ X))%Z v1 _ R1) as (v' & E' & R').
    assert (U : {[w]} ∪ X ∪ list_to_set ws = X ∪ list_to_set (w :: ws)) by set_solver. rewrite U in *.
    exists v'. split; [|done]. cbn [fmap list_fmap sadd_loop].
    change (get_bytes_vec [bulk w] 0 "SADD") with (@inr NexradeError bytes w). cbv iota. rewrite E. mstep. rewrite E'.
    do 3 f_equal. unfold SetData.delta_of. f_equal; [|lia]. case_bool_decide as Hw.
    + rewrite (size_union {[w]} X), size_singleton by set_solver. lia.
    + replace ({[w]} ∪ X) with X by set_solver. lia.
Qed.

Lemma get_or_create_of_set now k d cell : wf d -> sees set_kind now (Database.entries d !! k) cell ->
  (Z.of_nat (total_bytes d + (64 + length k)) < 2 ^ 64)%Z ->
  exists r e d1, get_or_create_set now k d = (r, e, d1) /\ dstep d d1 k (Some e) /\ Entry.is_expired now e = false /\
    Expiry.expires_at_ms <$> Entry.expiry e = cell ≫= snd /\
    match members cell with
    | Some X => exists v, r = inr v /\ Entry.value e = TSet v /\ SetData.repr v X
    | None => r = inl WrongType /\ sees set_kind now (Some e) cell
    end.
Proof.
  intros W S F. unfold get_or_create_set.
  destruct (create_step set_kind now k d cell W S F) as (e & d1 & E & D1 & X & Ex & M). simpl in E. rewrite E.
  eexists _, e, d1. split_and!; [done..|]. destruct (members cell) as [Y|].
  - destruct M as (v & Ev & R). exists v. by rewrite Ev.
  - destruct M as [U Se]. split; [|done]. simpl in U. by destruct (Entry.value e).
Qed.

Lemma sadd_serves now k ws : ws <> [] -> sserves now k SADD ws (sadd_body thr now k (bulk <$> ws)).
Proof.
  intros Hw d cell W S F.
  destruct (get_or_create_of_set now k d cell W S ltac:(lia)) as (r & e & d1 & E & D1 & X & Ex & M). unfold sadd_body. rewrite E.
  unfold set_post, set_need in *. destruct (members cell) as [Y|].
  - destruct M as (v & -> & Ev & R). cbn [try_at].
    destruct (sadd_loop_spec ws 0 0 v Y R) as (v' & -> & R'). mstep. cbn [try_at fst snd]. rewrite !Z.add_0_l.
    edestruct (write_refill set_kind now k d d1 cell Y) as (o & D2 & S2); [|done..|].
    { destruct ws as [|w ws]; [done|]. simpl. set_solver. }
    eexists _, _, o, _. split; [done|]. split; [done|]. by split.
  - destruct M as [-> Se]. cbn [try_at]. by eexists _, _, (Some e), cell.
Qed.

(** ** SREM and SPOP *)

Lemma srem_loop_spec ws : forall removed delta v X, SetData.repr v X ->
  exists v', srem_loop thr (bulk <$> ws) removed delta v
      = Some ((removed + (Z.of_nat (size X) - Z.of_nat (size (X ∖ list_to_set ws))))%Z,
              (delta + SetData.delta_of X (X ∖ list_to_set ws))%Z, v') /\
    SetData.repr v' (X ∖ list_to_set ws).
Proof.
  induction ws as [|w ws IH]; intros removed delta v X R.
  - exists v. simpl. rewrite difference_empty_L. split; [|done]. unfold SetData.delta_of. by rewrite !Z.sub_diag, !Z.add_0_r.
  - destruct (SetData.set_remove_repr thr v X w Hthr R) as (v1 & E & R1).
    assert (U : X ∖ {[w]} ∖ list_to_set ws = X ∖ list_to_set (w :: ws)) by set_solver.
    cbn [fmap list_fmap srem_loop].
    change (get_bytes_vec [bulk w] 0 "SREM") with (@inr NexradeError bytes w). cbv iota. rewrite E. mstep.
    case_bool_decide as Hw.
    + destruct (IH (removed + 1)%Z (delta + SetData.delta_of X (X ∖ {[w]}))%Z v1 _ R1) as (v' & -> & R').
      rewrite U in *. exists v'. split; [|done]. do 2 f_equal. unfold SetData.delta_of. f_equal; [|lia].
      rewrite (size_difference X {[w]}), size_singleton by set_solver.
      assert (size X <> 0) by (rewrite set_size_0; set_solver). lia.
    + destruct (IH removed delta v1 _ R1) as (v' & -> & R'). replace (X ∖ {[w]}) with X in * by set_solver. rewrite U in *. eauto.
Qed.

(** A command that takes members out. *)
Lemma takes_out now k (c : SetCommand) (ws : list bytes) d (cell : Cell) (none : Resp) (f : SetData.SetData -> may_panic (Resp * Z * SetData.SetData)) (post : gset bytes -> Resp -> gset bytes -> Prop) : wf d -> sees set_kind now (Database.entries d !! k) cell ->
  (Z.of_nat (total_bytes d + (64 + length k + set_need c ws cell)) < 2 ^ 64)%Z -> c <> SADD ->
  (members cell = None -> set_post c ws cell (inl WrongType) cell) ->
  (forall X r Y, members cell = Some X -> post X r Y -> set_post c ws cell (inr r) (refill set_kind cell Y)) ->
  post ∅ none ∅ ->
  (forall v X, SetData.repr v X -> exists r Y v', f v = Some (r, SetData.delta_of X Y, v') /\ SetData.repr v' Y /\ post X r Y /\ Y ⊆ X) ->
  exists r d' o c',
    match Database.get_mut now k d with
    | (None, d) => Some (settle k (inr none) 0 false d)
    | (Some e, d) =>
        match Entry.value e with
        | TSet v => '(r, delta, v) ← f v; Some (settle k (inr r) delta (SetData.is_empty v) (put_set k e v d))
        | _ => Some (settle k (inl WrongType) 0 false d)
        end
    end = Some (r, d') /\ set_post c ws cell r c' /\ dstep d d' k o /\ sees set_kind now o c'.
Proof.
  intros W S F Hc Pf Pw Pn Hf. destruct (get_mut_step now k d W) as [D1 E1].
  destruct (Database.get_mut now k d) as [r d1]. cbn [fst snd] in *. subst r.
  destruct (live now (Database.entries d !! k)) as [e|] eqn:L.
  2: { rewrite (sees_none set_kind now _ cell L S) in *. eexists _, _, None, _. split; [done|]. split; [by apply (Pw ∅ none ∅)|].
    split; [done|]. by rewrite (refill_nothing set_kind None : refill set_kind None ∅ = None). }
  destruct (live_cases set_kind now _ e cell L S) as (Hl & Ex & X & Se). simpl in Hl.
  destruct (Entry.value e) eqn:Ev; try (eexists _, _, (Some e), cell; split; [done|]; split; [by apply Pf|by split]).
  destruct Hl as (Y & _ & Em & R & _). destruct (Hf v Y R) as (r & Y' & v' & -> & R' & Hp & Hs). mstep.
  destruct (SetData.repr_sizes _ _ R') as [Hlen _].
  edestruct (write_or_drop set_kind now k d d1 cell Y Y' v v' e (SetData.is_empty v')) as (o & D2 & S2); [|done..| |].
  { unfold SetData.is_empty. rewrite Hlen. apply bool_decide_ext, set_size_0. }
  - assert (SetData.ssize Y' <= SetData.ssize Y).
    { by apply SetData.ssize_mono. }
    unfold set_need in F. rewrite Em in F. simpl. destruct c; try done; lia.
  - eexists _, _, o, _. split; [done|]. split; [by apply (Pw Y r Y')|]. by split.
Qed.

Lemma srem_serves now k ws : sserves now k SREM ws (srem_body thr now k (bulk <$> ws)).
Proof.
  intros d cell W S F.
  edestruct (takes_out now k SREM ws d cell (int 0)
    (fun v => '(removed, delta, v) ← srem_loop thr (bulk <$> ws) 0 0 v; Some (int removed, delta, v))
    (fun X r Y => r = int (Z.of_nat (size X) - Z.of_nat (size Y)) /\ Y = X ∖ list_to_set ws)) as (r & d' & o & c' & E & P); [done..| | | | |].
  - intros Em. unfold set_post. by rewrite Em.
  - intros X r Y Em [-> ->]. unfold set_post. by rewrite Em.
  - split; [done|set_solver].
  - intros v X R. destruct (srem_loop_spec ws 0 0 v X R) as (v' & -> & R'). mstep. rewrite !Z.add_0_l. eexists _, _, v'.
    split_and!; [done..|set_solver].
  - exists r, d', o, c'. split; [|done]. rewrite <- E. unfold srem_body.
    destruct (Database.get_mut now k d) as [[e|] d1]; [|done]. destruct (Entry.value e); try done.
    by destruct (srem_loop thr (bulk <$> ws) 0 0 v) as [[[??]?]|].
Qed.

Lemma pseudo_rand_idx_lt nanos n : n <> 0 -> pseudo_rand_idx nanos n < n.
Proof.
  intros Hn. unfold pseudo_rand_idx. rewrite bool_decide_eq_false_2 by done.
  pose proof (Z.mod_pos_bound nanos (Z.of_nat n)). lia.
Qed.

(** A pop from a set that is not empty. *)
Lemma pop_random v X nanos : SetData.repr v X -> X <> ∅ ->
  exists m v', SetData.remove_at thr v (pseudo_rand_idx nanos (SetData.len v)) = Some (Some m, v') /\
    m ∈ X /\ SetData.repr v' (X ∖ {[m]}) /\ SetData.delta_of X (X ∖ {[m]}) = (- Z.of_nat (length m))%Z /\
    size X = S (size (X ∖ {[m]})).
Proof.
  intros R Hx. destruct (SetData.repr_sizes _ _ R) as [-> _]. assert (Hn : size X <> 0) by (by rewrite set_size_0).
  destruct (SetData.set_remove_at_repr thr v X _ Hthr R (pseudo_rand_idx_lt nanos _ Hn)) as (m & v' & E & Hm & R').
  exists m, v'. split_and!; [done..|by apply SetData.remove_weight|].
  rewrite (size_difference X {[m]}), size_singleton by set_solver. lia.
Qed.

Lemma is_empty_repr v X : SetData.repr v X -> SetData.is_empty v = bool_decide (X = ∅).
Proof.
  intros R. destruct (SetData.repr_sizes _ _ R) as [E _]. unfold SetData.is_empty. rewrite E. apply bool_decide_ext, set_size_0.
Qed.

Lemma spop_loop_spec n : forall nanos v X delta popped, SetData.repr v X ->
  exists ms v', spop_loop thr nanos n v delta popped
      = Some (popped ++ ms, (delta + SetData.delta_of X (X ∖ list_to_set ms))%Z, v') /\
    SetData.repr v' (X ∖ list_to_set ms) /\ NoDup ms /\ list_to_set ms ⊆ X /\ length ms = n `min` size X.
Proof.
  induction n as [|n IH]; intros nanos v X delta popped R.
  - exists [], v. simpl. rewrite difference_empty_L, app_nil_r. unfold SetData.delta_of. rewrite Z.sub_diag, Z.add_0_r.
    split_and!; [done|done|constructor|set_solver|done].
  - cbn [spop_loop]. rewrite (is_empty_repr v X R). case_bool_decide as Hx.
    + subst X. exists [], v. change (list_to_set []) with (∅ : gset bytes). rewrite difference_empty_L, app_nil_r. unfold SetData.delta_of. rewrite Z.sub_diag, Z.add_0_r.
      split_and!; [done|done|constructor|set_solver|rewrite size_empty; simpl; lia].
    + destruct (pop_random v X (nanos 0) R Hx) as (m & v1 & -> & Hm & R1 & Hd & Hs). mstep.
      destruct (IH (fun i => nanos (S i)) v1 _ (delta - Z.of_nat (length m))%Z (popped ++ [m]) R1)
        as (ms & v' & -> & R' & Hn & Hsub & Hl).
      assert (U : X ∖ {[m]} ∖ list_to_set ms = X ∖ list_to_set (m :: ms)) by set_solver. rewrite U in *.
      exists (m :: ms), v'. split_and!; [|done|constructor; [set_solver|done]|set_solver|rewrite Hs; cbn [length Nat.min]; lia].
      rewrite <- app_assoc. do 3 f_equal. unfold SetData.delta_of in *. lia.
Qed.

(** Passes after the set is empty change nothing. *)
Lemma spop_loop_short nanos n v X delta popped : SetData.repr v X ->
  spop_loop thr nanos n v delta popped = spop_loop thr nanos (n `min` SetData.len v) v delta popped.
Proof.
  revert nanos v X delta popped. induction n as [|n IH]; intros nanos v X delta popped R; [done|].
  destruct (SetData.repr_sizes _ _ R) as [Hl _]. cbn [spop_loop]. rewrite (is_empty_repr v X R). case_bool_decide as Hx.
  - subst X. rewrite Hl, size_empty. by rewrite Nat.min_0_r.
  - assert (Hs : exists j, SetData.len v = S j).
    { rewrite Hl. destruct (size X) eqn:E; [by apply set_size_0 in E|eauto]. }
    destruct Hs as [j Hj]. rewrite Hj. cbn [Nat.min spop_loop]. rewrite (is_empty_repr v X R), bool_decide_eq_false_2 by done.
    destruct (pop_random v X (nanos 0) R Hx) as (m & v1 & E & Hm & R1 & Hd & Hsz). pose proof E as E'. rewrite Hj in E'. rewrite E', E. mstep.
    rewrite (IH _ _ _ _ _ R1). destruct (SetData.repr_sizes _ _ R1) as [-> _]. by replace (size (X ∖ {[m]})) with j by lia.
Qed.

Lemma spop_members_spec nanos count v X : match count with Some n => (0 <= n)%Z | None => True end -> SetData.repr v X ->
  exists r Y v', spop_members thr nanos count v = Some (r, SetData.delta_of X Y, v') /\ SetData.repr v' Y /\ pops count X r Y /\ Y ⊆ X.
Proof.
  intros Hc R. destruct count as [n|]; cbn [spop_members pops].
  - destruct (SetData.repr_sizes _ _ R) as [-> _].
    destruct (spop_loop_spec (Z.to_nat (Z.min n (Z.of_nat (size X)))) nanos v X 0 [] R) as (ms & v' & -> & R' & Hn & Hs & Hl). mstep.
    eexists _, _, v'. split_and!; [done|done| |set_solver]. exists ms. split_and!; [|done..]. split_and!; [done..|lia].
  - rewrite (is_empty_repr v X R). case_bool_decide as Hx.
    + exists null, X, v. unfold SetData.delta_of. rewrite Z.sub_diag. split_and!; [done..|by left|done].
    + destruct (pop_random v X (nanos 0) R Hx) as (m & v1 & -> & Hm & R1 & Hd & _). mstep. rewrite <- Hd.
      eexists _, _, v1. split_and!; [done|done| |set_solver]. right. eauto.
Qed.

Lemma pops_empty count : match count with Some n => (0 <= n)%Z | None => True end ->
  pops count ∅ (match count with Some _ => array [] | None => null end) ∅.
Proof.
  destruct count as [n|]; [|by left]. intros Hn. exists []. split_and!; [|done|set_solver].
  split_and!; [constructor|set_solver|rewrite size_empty; simpl; lia].
Qed.

Lemma spop_serves now nanos k ws count : count_word "SPOP" ws = inr count -> match count with Some n => (0 <= n)%Z | None => True end ->
  sserves now k SPOP ws (spop_body thr now nanos k count).
Proof.
  intros Hw Hc d cell W S F.
  assert (Hneg : match count with Some n => bool_decide (n < 0)%Z | None => false end = false)
    by (destruct count; [apply bool_decide_eq_false; lia|done]).
  apply (takes_out now k SPOP ws d cell _ (spop_members thr nanos count) (pops count)); [done..| | | |].
  - intros Em. unfold set_post. by rewrite Em, Hw, Hneg.
  - intros X r Y Em Hp. unfold set_post. rewrite Em, Hw, Hneg. eauto.
  - by apply pops_empty.
  - intros v X. by apply spop_members_spec.
Qed.
(** ** Reads *)

Lemma read_set_acts now k none f c ws : set_post c ws None (inr none) None ->
  (forall cell : Cell, members cell = None -> set_post c ws cell (inl WrongType) cell) ->
  (forall (cell : Cell) v X, cell <> None -> members cell = Some X -> SetData.repr v X ->
    exists r, f v = Some r /\ set_post c ws cell (inr r) cell) ->
  sacts now k c ws (read_set now k none f).
Proof.
  intros Hn Hw Hf. apply read_only_acts. intros s cell W S. unfold read_set. rewrite read_live by done.
  destruct (live now (slot s k)) as [e|] eqn:L; [|rewrite (sees_none set_kind now _ cell L S) in *; by eexists].
  destruct (live_cases set_kind now _ e cell L S) as (Hc & _). simpl in Hc.
  destruct (Entry.value e); try (eexists; split; [done|]; by apply Hw).
  destruct Hc as (X & _ & Em & R & Ec). destruct (Hf cell v X ltac:(by rewrite Ec) Em R) as (r & -> & Hr). mstep. by eexists.
Qed.

Ltac read_set_command := apply read_set_acts;
  [unfold set_post; cbn [contents set_kind nothing]|intros cell Em; unfold set_post; by rewrite Em
  |intros cell v X Hsome Em R; unfold set_post; rewrite Em].

Lemma sismember_acts now k w : sacts now k SISMEMBER [w]
  (read_set now k (int 0) (fun v => b ← SetData.contains v w; Some (of_bool b))).
Proof. read_set_command; [done|]. rewrite (SetData.set_contains_repr v X w R). mstep. eauto. Qed.

Lemma smembers_acts now k : sacts now k SMEMBERS []
  (read_set now k (array []) (fun v => ms ← SetData.to_vec v; Some (array (map bulk ms)))).
Proof.
  read_set_command; [split; [|done]; exists []; by rewrite elements_empty|].
  destruct (SetData.set_to_vec_repr v X R) as (xs & -> & Hn & ->). mstep. eexists. split; [done|]. split; [|done].
  exists xs. split; [by rewrite elements_list_to_set|done].
Qed.

Lemma scard_acts now k : sacts now k SCARD [] (read_set now k (int 0) (fun v => Some (int (Z.of_nat (SetData.len v))))).
Proof. read_set_command; [by rewrite size_empty|]. destruct (SetData.repr_sizes _ _ R) as [-> _]. eauto. Qed.

Lemma rand_member_spec nanos v X : SetData.repr v X -> exists r, rand_member nanos v = Some r /\ drawn X r.
Proof.
  intros R. unfold rand_member. destruct (decide (X = ∅)) as [->|Hx].
  - rewrite (SetData.set_get_at_empty v _ R). mstep. eexists. split; [done|]. by left.
  - destruct (SetData.repr_sizes _ _ R) as [-> _]. assert (Hn : size X <> 0) by (by rewrite set_size_0).
    destruct (SetData.set_get_at_repr v X _ R (pseudo_rand_idx_lt nanos _ Hn)) as (m & -> & Hm). mstep.
    eexists. split; [done|]. right. eauto.
Qed.

Lemma rand_members_spec (nanos : nat -> Z) v X (idxs : list nat) : SetData.repr v X ->
  exists rs, mapM (fun i => rand_member (nanos i) v) idxs = Some rs /\ Forall (drawn X) rs /\ length rs = length idxs.
Proof.
  intros R. induction idxs as [|i idxs (rs & E & F & L)]; [by exists []|].
  destruct (rand_member_spec (nanos i) v X R) as (r & Er & Hr). exists (r :: rs). simpl. rewrite Er. simpl. rewrite E. simpl.
  split_and!; [done|by constructor|by f_equal].
Qed.

Lemma sample_all X n xs : NoDup xs -> X = list_to_set xs -> (0 <= n)%Z -> sample X n (take (Z.to_nat n) xs).
Proof.
  intros Hn -> Hz. split_and!.
  - eapply sublist_NoDup; [done|apply sublist_take].
  - intros m. rewrite !elem_of_list_to_set. apply subseteq_take.
  - rewrite SetData.size_list, length_take by done. lia.
Qed.

Lemma srandmember_acts now nanos k ws count : count_word "SRANDMEMBER" ws = inr count ->
  sacts now k SRANDMEMBER ws (read_set now k (match count with Some _ => array [] | None => null end) (fun v =>
      match count with
      | None => rand_member (nanos 0) v
      | Some n =>
          if bool_decide (n < 0)%Z then
            ms ← mapM (fun i => rand_member (nanos i) v) (seq 0 (Z.to_nat (- n) `min` MAX_RANDOM_SAMPLE));
            Some (array ms)
          else ms ← SetData.to_vec v; Some (array (map bulk (take (Z.to_nat n) ms)))
      end)).
Proof.
  intros Hw. apply read_set_acts; unfold set_post; rewrite Hw.
  - cbn [contents set_kind nothing]. split; [done|]. eexists. split; [|done]. destruct count as [n|]; [|by left]. simpl.
    case_bool_decide; [|by exists []]. exists []. split; [|done].
    split_and!; [constructor|set_solver|rewrite size_empty; simpl; lia].
  - intros cell ->. done.
  - intros cell v X Hsome -> R. destruct count as [n|].
    + unfold draws. case_bool_decide as Hn.
      * rewrite (bool_decide_eq_false_2 (0 <= n)%Z) by lia.
        destruct (rand_members_spec nanos v X (seq 0 (Z.to_nat (- n) `min` MAX_RANDOM_SAMPLE)) R) as (rs & -> & F & Hl). mstep.
        eexists. split; [done|]. split; [done|]. eexists. split; [|done]. exists rs. split; [done|].
        destruct cell; [|done]. by rewrite Hl, length_seq.
      * rewrite (bool_decide_eq_true_2 (0 <= n)%Z) by lia.
        destruct (SetData.set_to_vec_repr v X R) as (xs & -> & Hx & HX). mstep. eexists. split; [done|]. split; [done|].
        eexists. split; [|done]. eexists. split; [|done]. apply sample_all; [done..|lia].
    + destruct (rand_member_spec (nanos 0) v X R) as (r & -> & Hr). eexists. split; [done|]. split; [done|]. eauto.
Qed.

Lemma smismember_loop_spec now o (cell : Cell) ws : sees set_kind now o cell ->
  smismember_loop (live now o) (bulk <$> ws)
  = Some (map (fun w => of_bool (match members cell with Some X => bool_decide (w ∈ X) | None => false end)) ws).
Proof.
  intros S. induction ws as [|w ws IH]; [done|]. cbn [fmap list_fmap smismember_loop map].
  change (list_fmap _ _ bulk ws) with (bulk <$> ws). rewrite IH.
  change (get_bytes_vec [bulk w] 0 "SMISMEMBER") with (@inr NexradeError bytes w). cbv iota. destruct (live now o) as [e|] eqn:L.
  - destruct (live_cases set_kind now _ e cell L S) as (Hc & _). simpl in Hc.
    destruct (Entry.value e); try by rewrite Hc. destruct Hc as (X & _ & -> & R & _).
    by rewrite (SetData.set_contains_repr v X w R).
  - rewrite (sees_none set_kind now _ cell L S). simpl. by rewrite bool_decide_eq_false_2 by set_solver.
Qed.

Lemma smismember_acts now k ws : sacts now k SMISMEMBER ws (fun s =>
  found ← read_for k (Database.get_ro now k) s;
  results ← smismember_loop found (bulk <$> ws); Some (inr (array results), s)).
Proof.
  apply read_only_acts. intros s cell W S. rewrite read_live by done.
  rewrite (smismember_loop_spec now _ cell ws S). mstep. by eexists.
Qed.

(** ** The handlers *)

(** An error in the count is reported before the store is touched. *)
Lemma spop_acts now nanos k ws : sacts now k SPOP ws (cmd_spop thr now nanos (set_args "SPOP" k ws)).
Proof.
  assert (E : forall s, cmd_spop thr now nanos (set_args "SPOP" k ws) s
    = (let? count := (let! c := count_word "SPOP" ws in
         if match c with Some n => bool_decide (n < 0)%Z | None => false end
         then inl (Generic (bstr "value is out of range, must be positive")) else inr c) at s in
       on_shard (shard_idx s k) (spop_body thr now nanos k count) s)).
  { intros s. unfold cmd_spop, spop_count. destruct ws as [|w ws]; [done|]. cbn [count_word].
    change (get_i64 (set_args "SPOP" k (w :: ws)) 2 "SPOP") with (get_i64 [bulk w] 0 "SPOP").
    destruct (get_i64 [bulk w] 0 "SPOP") as [e|n]; [done|]. simpl. by case_bool_decide. }
  destruct (count_word "SPOP" ws) as [e|count] eqn:Hw.
  - apply read_only_acts. intros s cell W S. rewrite E. eexists. split; [done|]. unfold set_post. by rewrite Hw.
  - destruct (match count with Some n => bool_decide (n < 0)%Z | None => false end) eqn:Hn.
    + apply read_only_acts. intros s cell W S. rewrite E. simpl. rewrite Hn. eexists. split; [done|]. unfold set_post. by rewrite Hw, Hn.
    + eapply acts_ext; [|apply serves_acts, (spop_serves now nanos k ws count Hw)].
      * intros s. rewrite E. simpl. by rewrite Hn.
      * destruct count; [|done]. apply bool_decide_eq_false in Hn. lia.
Qed.

Lemma srandmember_handler_acts now nanos k ws : sacts now k SRANDMEMBER ws (cmd_srandmember now nanos (set_args "SRANDMEMBER" k ws)).
Proof.
  destruct (count_word "SRANDMEMBER" ws) as [e|count] eqn:Hw.
  - apply read_only_acts. intros s cell W S. exists (inl e). split; [|unfold set_post; by rewrite Hw].
    destruct ws as [|w ws]; [done|]. unfold cmd_srandmember. cbn [count_word] in Hw.
    change (get_i64 (set_args "SRANDMEMBER" k (w :: ws)) 2 "SRANDMEMBER") with (get_i64 [bulk w] 0 "SRANDMEMBER").
    destruct (get_i64 [bulk w] 0 "SRANDMEMBER"); [|done]. by injection Hw as ->.
  - eapply acts_ext; [|by apply (srandmember_acts now nanos k ws count)]. intros s. unfold cmd_srandmember.
    destruct ws as [|w ws]; [by injection Hw as <-|]. cbn [count_word] in Hw.
    change (get_i64 (set_args "SRANDMEMBER" k (w :: ws)) 2 "SRANDMEMBER") with (get_i64 [bulk w] 0 "SRANDMEMBER").
    destruct (get_i64 [bulk w] 0 "SRANDMEMBER"); [done|]. by injection Hw as <-.
Qed.

Lemma exec_set_acts now nanos c k ws : set_arity_ok c ws = true ->
  sacts now k c ws (exec_set now nanos c (set_args (set_name c) k ws)).
Proof.
  intros A. destruct c; cbn [set_arity_ok] in A;
    try (apply negb_true_iff, bool_decide_eq_false in A; destruct ws as [|w ws]; [done|]);
    try (apply bool_decide_eq_true in A; destruct ws as [|w [|]]; try done).
  - by apply (serves_acts set_kind now k (set_need SADD (w :: ws))), sadd_serves.
  - by apply (serves_acts set_kind now k (set_need SREM (w :: ws))), srem_serves.
  - by apply sismember_acts.
  - by apply smismember_acts.
  - by apply smembers_acts.
  - by apply scard_acts.
  - apply spop_acts.
  - apply srandmember_handler_acts.
Qed.

Lemma set_bad_arity now nanos c k ws s : set_arity_ok c ws = false ->
  exec_set now nanos c (set_args (set_name c) k ws) s = Some (inl (wrong_arity (set_name c)), s).
Proof.
  intros A. destruct c; cbn [set_arity_ok] in A; try done; try (apply bool_decide_eq_false in A);
    try (apply negb_false_iff, bool_decide_eq_true in A as ->; done); destruct ws as [|a [|b ws]]; try done; by cbn in A.
Qed.

(** C10: SADD, SREM, SISMEMBER, SMISMEMBER, SMEMBERS, SCARD, SPOP and SRANDMEMBER,
    with any words and any clock, act on the keys as on finite sets with a
    deadline, whatever the encodings: no panic, the counts of members that were
    new or there, an enumeration in some order, as many different members as asked
    for or all of them (SPOP takes exactly those out), wrong types and bad counts
    reported; the key goes with its last member and no other key is touched. *)
Theorem set_commands_refine_sets now nanos c key ws s (M : bytes -> Cell) :
  swf s -> (forall j, sees set_kind now (slot s j) (M j)) -> room s key (64 + length key + set_need c ws (M key)) ->
  if set_arity_ok c ws then
    exists r s' c', exec_set now nanos c (set_args (set_name c) key ws) s = Some (r, s') /\ set_post c ws (M key) r c' /\
      swf s' /\ forall j, sees set_kind now (slot s' j) (if decide (j = key) then c' else M j)
  else exec_set now nanos c (set_args (set_name c) key ws) s = Some (inl (wrong_arity (set_name c)), s).
Proof. intros W S F. destruct (set_arity_ok c ws) eqn:A; [by apply exec_set_acts|by apply set_bad_arity]. Qed.
End Spec.

(** ** Runs *)

Section Witness.
#[local] Existing Instance SetData.vec_index_set.
#[local] Existing Instance canonical_order.
#[local] Existing Instance ascii_case.
#[local] Existing Instance merge_sort_by_fst.

Definition set_of (X : gset bytes) : SetData.SetData * gset bytes := (SetData.from_hashset SetData.default_thresholds X, X).

Definition set_stock : list (bytes * (SetData.SetData * gset bytes)) :=
  [(bstr "a", set_of {[bstr "x"; bstr "y"]}); (bstr "b", set_of {[bstr "y"; bstr "z"]})].

Lemma set_stock_ok now : swf (stocked set_kind set_stock) /\
  forall j, sees set_kind now (slot (stocked set_kind set_stock) j) (stock_cells (A := gset bytes) set_stock j).
Proof.
  apply (stocked_ok set_kind).
  - by apply (bool_decide_unpack _).
  - repeat constructor; apply SetData.from_hashset_roundtrip; reflexivity.
  - intros k. apply room_all. vm_compute. reflexivity.
Qed.

(** [SADD a x z]. *)
Lemma set_commands_refine_sets_witness :
  exists s' c', exec_set SetData.default_thresholds 100 (fun _ => 0%Z) SADD (set_args "SADD" (bstr "a") [bstr "x"; bstr "z"])
      (stocked set_kind set_stock) = Some (inr (int 1), s') /\ swf s' /\
    sees set_kind 100 (slot s' (bstr "a")) c' /\ c' = Some (Own {[bstr "x"; bstr "y"; bstr "z"]}, None).
Proof.
  destruct (set_stock_ok 100) as [W S].
  destruct (set_commands_refine_sets SetData.default_thresholds eq_refl 100 (fun _ => 0%Z) SADD (bstr "a") [bstr "x"; bstr "z"]
    (stocked set_kind set_stock) (stock_cells (A := gset bytes) set_stock) W S) as (r & s' & c' & E & [Hr Hc] & W' & S').
  - apply room_all. vm_compute. reflexivity.
  - exists s', c'. change (set_name SADD) with "SADD"%string in E. rewrite E, Hr. specialize (S' (bstr "a")).
    split; [|split; [exact W'|split; [exact S'|rewrite Hc]]]; vm_compute; reflexivity.
Defined.
End Witness.

