(* ===== verification/SetAlgebra.v ===== *)
(** * SetAlgebra: union, intersection and difference of the sets of several keys

    SUNION, SINTER, SDIFF, their STORE variants and SINTERCARD against the algebra
    of finite sets. *)

From S2P Require Import Prelude Text Types Keyspace KeyspaceInvariant KeyspaceSpec.
From S2P Require Import Shards ShardsSpec ShardsMoves Resp CommandArgs SetCommands ValueCells SetSpec.
From S2P Require SetData.

Import ShardedDatabase.

#[local] Arguments Database.insert : simpl never.

Inductive Operation := Union | Inter | Diff.

Section Algebra.
Context `{SetData.IndexSet} `{HashOrder} `{UnicodeCase} (thr : SetData.SetThresholds) (Hthr : SetData.thr_sane thr).
Implicit Types (now : Z) (s : t) (k : bytes) (ks : list bytes) (X Y : gset bytes).

#[local] Notation seen_by now M s := (forall j, sees set_kind now (slot s j) (M j)).

Definition exec_algebra (now : Z) (op : Operation) (dst : option bytes) (keys : list bytes) (s : t) : may_panic (Result Resp * t) :=
  match op, dst with
  | Union, None => cmd_sunion now (bulk <$> bstr "SUNION" :: keys) s
  | Inter, None => cmd_sinter now (bulk <$> bstr "SINTER" :: keys) s
  | Diff, None => cmd_sdiff now (bulk <$> bstr "SDIFF" :: keys) s
  | Union, Some dst => cmd_sunionstore thr now (bulk <$> bstr "SUNIONSTORE" :: dst :: keys) s
  | Inter, Some dst => cmd_sinterstore thr now (bulk <$> bstr "SINTERSTORE" :: dst :: keys) s
  | Diff, Some dst => cmd_sdiffstore thr now (bulk <$> bstr "SDIFFSTORE" :: dst :: keys) s
  end.

(** ** The algebra *)

Section Combine.
Context (M : bytes -> Cell).

Definition is_foreign (k : bytes) : bool := match M k with Some (Foreign _, _) => true | _ => false end.

Definition members_of (k : bytes) : gset bytes := match M k with Some (Own X, _) => X | _ => ∅ end.

(** The first key that holds no set, when there is one. *)
Definition is_odd (k : bytes) : bool := match M k with Some (Own _, _) => false | _ => true end.
Definition first_odd (ks : list bytes) : option bytes := List.find is_odd ks.

Definition combine (op : Operation) (ks : list bytes) : Result (gset bytes) :=
  match op with
  | Union => if existsb is_foreign ks then inl WrongType else inr (⋃ (members_of <$> ks))
  | Diff =>
      if existsb is_foreign ks then inl WrongType
      else inr (match ks with k :: ks => members_of k ∖ ⋃ (members_of <$> ks) | [] => ∅ end)
  | Inter =>
      match first_odd ks with
      | Some k => if is_foreign k then inl WrongType else inr ∅
      | None => inr (match ks with k :: ks => foldr (fun k X => members_of k ∩ X) (members_of k) ks | [] => ∅ end)
      end
  end.
End Combine.

(** ** Looking a key up *)

Lemma fetch_spec now s k (M : bytes -> Cell) : swf s -> seen_by now M s ->
  exists r s', fetch now k s = Some (r, s') /\ swf s' /\ seen_by now M s' /\ no_bigger s s' /\
    match r with
    | None => M k = None
    | Some e =>
        match Entry.value e with
        | TSet v => is_foreign M k = false /\ M k <> None /\ SetData.repr v (members_of M k)
        | _ => is_foreign M k = true
        end
    end.
Proof.
  intros W S. destruct (get_keeps set_kind now s k M W S) as (r & s' & E & W' & S' & B & Hr). exists r, s'.
  split_and!; [done..|]. destruct r as [e|]; [|done]. simpl in Hr. unfold is_foreign, members_of.
  destruct (Entry.value e); try (destruct (M k) as [[[]]|]; done). destruct Hr as (X & x & -> & _ & R). done.
Qed.

Lemma no_bigger_trans s s1 s2 : no_bigger s s1 -> no_bigger s1 s2 -> no_bigger s s2.
Proof. intros [N1 R1] [N2 R2]. split; [congruence|]. auto. Qed.

Lemma no_bigger_refl s : no_bigger s s.
Proof. by split. Qed.

(** What collecting members leaves behind. *)
Definition collected now (M : bytes -> Cell) s (x : may_panic (Result (gset bytes) * t)) (r : Result (gset bytes)) : Prop :=
  exists s', x = Some (r, s') /\ swf s' /\ seen_by now M s' /\ no_bigger s s'.

Lemma collected_after now M s s1 x r : no_bigger s s1 -> collected now M s1 x r -> collected now M s x r.
Proof. intros B (s' & E & W & S & B'). exists s'. split_and!; [done..|by eapply no_bigger_trans]. Qed.

Lemma union_spec now (M : bytes -> Cell) ks : forall X s, swf s -> seen_by now M s ->
  collected now M s (collect_union now (bulk <$> ks) X s)
    (if existsb (is_foreign M) ks then inl WrongType else inr (X ∪ ⋃ (members_of M <$> ks))).
Proof.
  induction ks as [|k ks IH]; intros X s W S.
  { exists s. simpl. rewrite union_empty_r_L. split_and!; [done..|apply no_bigger_refl]. }
  cbn [fmap list_fmap collect_union existsb]. change (get_bytes_vec [bulk k] 0 "SUNION") with (@inr NexradeError bytes k).
  cbn [try_at]. destruct (fetch_spec now s k M W S) as (r & s1 & -> & W1 & S1 & B & Hr). mstep.
  change (list_fmap _ _ bulk ks) with (bulk <$> ks). destruct r as [e|].
  2: { assert (is_foreign M k = false) as -> by (unfold is_foreign; by rewrite Hr).
    assert (members_of M k = ∅) as Em by (unfold members_of; by rewrite Hr).
    eapply collected_after; [exact B|]. pose proof (IH X s1 W1 S1) as C. simpl. change (list_fmap _ _ (members_of M) ks) with (members_of M <$> ks).
    rewrite Em, union_empty_l_L. exact C. }
  destruct (Entry.value e); try (rewrite Hr; exists s1; by split_and!). destruct Hr as (-> & _ & R).
  destruct (SetData.set_to_vec_repr _ _ R) as (xs & -> & _ & Hx). mstep. eapply collected_after; [exact B|].
  rewrite <- Hx. pose proof (IH (X ∪ members_of M k) s1 W1 S1) as C. simpl.
  change (list_fmap _ _ (members_of M) ks) with (members_of M <$> ks). rewrite union_assoc_L. exact C.
Qed.

Lemma remove_all xs X : fold_left (fun x (m : bytes) => x ∖ {[m]}) xs X = X ∖ list_to_set xs.
Proof.
  revert X. induction xs as [|x xs IH]; intros X; simpl; [by rewrite difference_empty_L|]. rewrite IH. set_solver.
Qed.

Lemma diff_spec now (M : bytes -> Cell) ks : forall X s, swf s -> seen_by now M s ->
  collected now M s (diff_loop now (bulk <$> ks) X s)
    (if existsb (is_foreign M) ks then inl WrongType else inr (X ∖ ⋃ (members_of M <$> ks))).
Proof.
  induction ks as [|k ks IH]; intros X s W S.
  { exists s. simpl. rewrite difference_empty_L. split_and!; [done..|apply no_bigger_refl]. }
  cbn [fmap list_fmap diff_loop existsb]. change (get_bytes_vec [bulk k] 0 "SDIFF") with (@inr NexradeError bytes k).
  cbn [try_at]. destruct (fetch_spec now s k M W S) as (r & s1 & -> & W1 & S1 & B & Hr). mstep.
  change (list_fmap _ _ bulk ks) with (bulk <$> ks). change (list_fmap _ _ (members_of M) ks) with (members_of M <$> ks).
  rewrite union_list_cons, <- difference_difference_l_L. destruct r as [e|].
  2: { assert (is_foreign M k = false) as -> by (unfold is_foreign; by rewrite Hr).
    assert (members_of M k = ∅) as -> by (unfold members_of; by rewrite Hr).
    eapply collected_after; [exact B|]. rewrite difference_empty_L. by apply IH. }
  destruct (Entry.value e); try (rewrite Hr; exists s1; by split_and!). destruct Hr as (-> & _ & R).
  destruct (SetData.set_to_vec_repr _ _ R) as (xs & -> & _ & Hx). mstep. eapply collected_after; [exact B|].
  rewrite remove_all, <- Hx. by apply IH.
Qed.

Lemma collect_diff_spec now (M : bytes -> Cell) ks s : ks <> [] -> swf s -> seen_by now M s ->
  collected now M s (collect_diff now (bulk <$> ks) s) (combine M Diff ks).
Proof.
  intros Hk W S. destruct ks as [|k ks]; [done|]. unfold collect_diff.
  change (get_bytes_vec (bulk <$> k :: ks) 0 "SDIFF") with (@inr NexradeError bytes k). cbn [try_at].
  destruct (fetch_spec now s k M W S) as (r & s1 & -> & W1 & S1 & B & Hr). mstep.
  change (drop 1 (bulk <$> k :: ks)) with (bulk <$> ks). cbn [combine existsb]. eapply collected_after; [exact B|].
  destruct r as [e|].
  2: { assert (is_foreign M k = false) as -> by (unfold is_foreign; by rewrite Hr).
    assert (members_of M k = ∅) as -> by (unfold members_of; by rewrite Hr). by apply diff_spec. }
  destruct (Entry.value e); try (rewrite Hr; exists s1; split_and!; [done..|apply no_bigger_refl]). destruct Hr as (-> & _ & R).
  rewrite (SetData.set_to_hashset_repr _ _ R). mstep. by apply diff_spec.
Qed.

(** The sets in order, up to the first key that holds none. *)
Lemma sets_spec now (M : bytes -> Cell) ks : forall acc s, swf s -> seen_by now M s ->
  exists s', collect_sets now (bulk <$> ks) acc s
    = Some (match first_odd M ks with
            | Some k => if is_foreign M k then inl WrongType else inr None
            | None => inr (Some (acc ++ (members_of M <$> ks)))
            end, s') /\ swf s' /\ seen_by now M s' /\ no_bigger s s'.
Proof.
  induction ks as [|k ks IH]; intros acc s W S.
  { exists s. simpl. rewrite app_nil_r. split_and!; [done..|apply no_bigger_refl]. }
  cbn [fmap list_fmap collect_sets]. unfold first_odd. cbn [List.find]. change (get_bytes_vec [bulk k] 0 "SINTER") with (@inr NexradeError bytes k).
  cbn [try_at]. destruct (fetch_spec now s k M W S) as (r & s1 & -> & W1 & S1 & B & Hr). mstep.
  change (list_fmap _ _ bulk ks) with (bulk <$> ks). change (list_fmap _ _ (members_of M) ks) with (members_of M <$> ks).
  assert (F : is_foreign M k = true -> is_odd M k = true) by (unfold is_foreign, is_odd; by destruct (M k) as [[[]]|]).
  destruct r as [e|].
  2: { assert (is_odd M k = true) as -> by (unfold is_odd; by rewrite Hr). assert (is_foreign M k = false) as -> by (unfold is_foreign; by rewrite Hr).
    exists s1. by split_and!. }
  destruct (Entry.value e); try (rewrite (F Hr), Hr; exists s1; by split_and!).
  destruct Hr as (Hf & Hn & R). 
  assert (is_odd M k = false) as -> by (unfold is_foreign, is_odd in *; by destruct (M k) as [[[]]|]).
  rewrite (SetData.set_to_hashset_repr _ _ R). mstep. destruct (IH (acc ++ [members_of M k]) s1 W1 S1) as (s' & -> & W' & S' & B').
  exists s'. split_and!; [|done..|by eapply no_bigger_trans]. by rewrite <- app_assoc.
Qed.

Lemma inter_fold ks (f : bytes -> gset bytes) X : fold_left (∩) (f <$> ks) X = foldr (fun k Y => f k ∩ Y) X ks.
Proof.
  revert X. induction ks as [|k ks IH]; intros X; [done|]. simpl. change (list_fmap _ _ f ks) with (f <$> ks). rewrite IH.
  clear IH. induction ks as [|j ks IH]; simpl; [set_solver|]. rewrite IH. set_solver.
Qed.

Lemma collect_inter_spec now (M : bytes -> Cell) ks s : ks <> [] -> swf s -> seen_by now M s ->
  collected now M s (collect_inter now (bulk <$> ks) s) (combine M Inter ks).
Proof.
  intros Hk W S. unfold collect_inter. destruct (sets_spec now M ks [] s W S) as (s' & -> & W' & S' & B). mstep.
  exists s'. split_and!; [|done..]. cbn [combine app]. destruct (first_odd M ks) as [k|]; [by destruct (is_foreign M k)|].
  destruct ks as [|k ks]; [done|]. simpl. change (list_fmap _ _ (members_of M) ks) with (members_of M <$> ks). by rewrite inter_fold.
Qed.

Lemma collect_spec now (M : bytes -> Cell) op ks s : ks <> [] -> swf s -> seen_by now M s ->
  collected now M s
    (match op with
     | Union => collect_union now (bulk <$> ks) ∅ s
     | Inter => collect_inter now (bulk <$> ks) s
     | Diff => collect_diff now (bulk <$> ks) s
     end) (combine M op ks).
Proof.
  intros Hk W S. destruct op; [|by apply collect_inter_spec|by apply collect_diff_spec].
  pose proof (union_spec now M ks ∅ s W S) as C. by rewrite union_empty_l_L in C.
Qed.

(** Writing the result under the destination. *)
Lemma store_result now (M : bytes -> Cell) s dst X : swf s -> seen_by now M s -> room s dst (64 + length dst + SetData.ssize X) ->
  exists s', on_shard (shard_idx s dst) (fun d =>
      Some ((), Database.insert dst (Entry.new (TSet (SetData.from_hashset thr X))) d)) s = Some ((), s') /\ swf s' /\
    forall j, sees set_kind now (slot s' j) (if decide (j = dst) then Some (Own X, None) else M j).
Proof.
  intros W S F. destruct (SetData.from_hashset_roundtrip thr X Hthr) as (R & _ & P).
  destruct (insert_step s dst (Entry.new (TSet (SetData.from_hashset thr X))) W) as (s' & E & W' & [_ Ha] & _).
  { unfold Database.estimate_entry_size. simpl. by rewrite P. }
  exists s'. split_and!; [done..|]. intros j. rewrite Ha. case_decide; [|apply S].
  apply (sees_entry set_kind now (Entry.new (TSet (SetData.from_hashset thr X))) (Own X)); [done|]. by exists X.
Qed.

(** C22: SUNION, SINTER and SDIFF of any keys answer the members of the union, the
    intersection or the difference of the sets the keys hold, in some order, a
    missing key counting as the empty set; the STORE variants put that set, also
    when it is empty, under the destination without a deadline and answer its size.
    A key of another type is reported, except by SINTER after a missing key, and
    then nothing is seen to change. *)
Theorem set_algebra now op dst keys s (M : bytes -> Cell) : keys <> [] -> swf s -> seen_by now M s ->
  (forall k X, dst = Some k -> combine M op keys = inr X -> room s k (64 + length k + SetData.ssize X)) ->
  exists r s', exec_algebra now op dst keys s = Some (r, s') /\ swf s' /\
    match combine M op keys with
    | inl e => r = inl e /\ seen_by now M s'
    | inr X =>
        match dst with
        | None => (exists ms, ms ≡ₚ elements X /\ r = inr (array (map bulk ms))) /\ seen_by now M s'
        | Some k => r = inr (int (Z.of_nat (size X))) /\ seen_by now (fun j => if decide (j = k) then Some (Own X, None) else M j) s'
        end
    end.
Proof.
  intros Hk W S F. destruct (collect_spec now M op keys s Hk W S) as (s1 & E & W1 & S1 & [_ B]).
  destruct keys as [|k0 keys]; [done|]. destruct dst as [k|].
  - assert (Eq : exec_algebra now op (Some k) (k0 :: keys) s = (let? result := combine M op (k0 :: keys) at s1 in
      '(_, s) ← on_shard (shard_idx s1 k) (fun d => Some ((), Database.insert k (Entry.new (TSet (SetData.from_hashset thr result))) d)) s1;
      Some (inr (int (Z.of_nat (size result))), s))).
    { destruct op; cbn [exec_algebra]; unfold cmd_sunionstore, cmd_sinterstore, cmd_sdiffstore, set_store;
        (rewrite bool_decide_eq_false_2 by (simpl; lia)); cbn [try_at get_bytes_vec];
        change (drop 2 (bulk <$> _ :: k :: k0 :: keys)) with (bulk <$> k0 :: keys); rewrite E; done. }
    rewrite Eq. destruct (combine M op (k0 :: keys)) as [e|X]; cbn [try_at].
    + eexists _, s1. by split_and!.
    + destruct (store_result now M s1 k X W1 S1) as (s' & -> & W' & S'); [apply B; by apply F|]. mstep. eexists _, s'. by split_and!.
  - assert (Eq : exec_algebra now op None (k0 :: keys) s = (let? result := combine M op (k0 :: keys) at s1 in
      Some (inr (array (map bulk (SetData.hs_iter result))), s1))).
    { destruct op; cbn [exec_algebra]; unfold cmd_sunion, cmd_sinter, cmd_sdiff, set_reply;
        (rewrite bool_decide_eq_false_2 by (simpl; lia));
        change (drop 1 (bulk <$> _ :: k0 :: keys)) with (bulk <$> k0 :: keys); rewrite E; done. }
    rewrite Eq. destruct (combine M op (k0 :: keys)) as [e|X]; cbn [try_at]; eexists _, s1; [by split_and!|].
    split_and!; [done..| |done]. eexists. split; [apply SetData.hs_iter_perm|done].
Qed.
End Algebra.

(** ** A run *)

Section Witness.
#[local] Existing Instance SetData.vec_index_set.
#[local] Existing Instance canonical_order.
#[local] Existing Instance merge_sort_by_fst.

(** [SINTERSTORE c a b]. *)
Lemma set_algebra_witness :
  exists s', exec_algebra SetData.default_thresholds 100 Inter (Some (bstr "c")) [bstr "a"; bstr "b"] (stocked set_kind set_stock)
      = Some (inr (int 1), s') /\ swf s' /\
    sees set_kind 100 (slot s' (bstr "c")) (Some (Own {[bstr "y"]}, None)).
Proof.
  destruct (set_stock_ok 100) as [W S].
  assert (C : combine (stock_cells (A := gset bytes) set_stock) Inter [bstr "a"; bstr "b"] = inr {[bstr "y"]}) by (vm_compute; reflexivity).
  destruct (set_algebra SetData.default_thresholds eq_refl 100 Inter (Some (bstr "c")) [bstr "a"; bstr "b"]
    (stocked set_kind set_stock) (stock_cells (A := gset bytes) set_stock)) as (r & s' & E & W' & P).
  - discriminate.
  - exact W.
  - exact S.
  - intros k X Hk HX. rewrite C in HX. injection HX as <-. injection Hk as <-. apply room_all. vm_compute. reflexivity.
  - rewrite C in P. destruct P as [-> P]. exists s'. split; [exact E|]. split; [exact W'|exact (P (bstr "c"))].
Defined.
End Witness.

