(* ===== verification/ListCommands.v ===== *)
(** * ListCommands: the handlers of the list commands ([command/list.rs])

    LPUSH and its relatives, the pops, reads, in-place changes, moves between lists
    and pops from the first of several lists.  Of the blocking commands the attempt
    is modelled that runs before a client parks and after every wake-up; parking
    itself, the time-out and the permit of the persistence layer are left out. *)

From S2P Require Import Prelude Packing Text Types Keyspace Shards Resp CommandArgs SetCommands.
From S2P Require ListData SetData.

Import ShardedDatabase.

Section ListCommands.
Context `{SetData.IndexSet} `{UnicodeCase} `{Itoa} (thr : ListData.ListThresholds).

Definition get_or_create_list (now : Z) (key : bytes) (d : Database.t) : Result ListData.ListData * Entry.t * Database.t :=
  let '(entry, d) := Database.get_or_insert_with now key (Entry.new (TList ListData.new)) d in
  (match Entry.value entry with TList l => inr l | _ => inl WrongType end, entry, d).

Definition put_list (key : bytes) (e : Entry.t) (l : ListData.ListData) (d : Database.t) : Database.t :=
  Database.write_back key (Entry.set_value (TList l) e) d.

(** ** Pushes *)

(** An argument that is no string ends the loop with the elements before it in the list. *)
Fixpoint push_loop (cmd : string) (left : bool) (vals : list Resp) (delta : Z) (l : ListData.ListData) :
    may_panic (Result Z * ListData.ListData) :=
  match vals with
  | [] => Some (inr delta, l)
  | a :: vals =>
      match get_bytes [a] 0 cmd with
      | inl e => Some (inl e, l)
      | inr v =>
          l ← (if left then ListData.push_front thr l v else ListData.push_back thr l v);
          push_loop cmd left vals (delta + Z.of_nat (length v))%Z l
      end
  end.

Definition push_body (now : Z) (cmd : string) (left only_if_exists : bool) (key : bytes) (vals : list Resp) (d : Database.t) :
    may_panic (Result Resp * Database.t) :=
  let '(absent, d) :=
    if only_if_exists then let '(b, d) := Database.contains_key now key d in (negb b, d) else (false, d) in
  if (absent : bool) then Some (inr (int 0), d)
  else
    let '(r, e, d) := get_or_create_list now key d in
    let? l := r at d in
    '(r, l) ← push_loop cmd left vals 0 l;
    let d := put_list key e l d in
    let? delta := r at d in
    Some (inr (int (Z.of_nat (ListData.len l))), Database.adjust_live_bytes delta d).

Definition push (now : Z) (args : list Resp) (left only_if_exists : bool) (cmd : string) (s : t) : may_panic (Result Resp * t) :=
  if bool_decide (length args < 3) then Some (inl (WrongArity (bstr cmd)), s)
  else
    let? key := get_bytes args 1 cmd at s in
    on_shard (shard_idx s key) (push_body now cmd left only_if_exists key (drop 2 args)) s.

Definition cmd_lpush (now : Z) (args : list Resp) (s : t) := push now args true false "LPUSH" s.
Definition cmd_rpush (now : Z) (args : list Resp) (s : t) := push now args false false "RPUSH" s.
Definition cmd_lpushx (now : Z) (args : list Resp) (s : t) := push now args true true "LPUSHX" s.
Definition cmd_rpushx (now : Z) (args : list Resp) (s : t) := push now args false true "RPUSHX" s.

(** ** Pops *)

Definition pop_one (left : bool) (l : ListData.ListData) : may_panic (option bytes * ListData.ListData) :=
  if left then ListData.pop_front thr l else ListData.pop_back thr l.

Fixpoint pop_loop (left : bool) (n : nat) (l : ListData.ListData) (delta : Z) (popped : list bytes) :
    may_panic (list bytes * Z * ListData.ListData) :=
  match n with
  | 0 => Some (popped, delta, l)
  | S n =>
      '(v, l) ← pop_one left l;
      match v with
      | Some v => pop_loop left n l (delta - Z.of_nat (length v))%Z (popped ++ [v])
      | None => Some (popped, delta, l)
      end
  end.

(** The loop breaks on an empty list, so no more passes than elements matter. *)
Definition pop_many (left : bool) (n : Z) (l : ListData.ListData) : may_panic (list bytes * Z * ListData.ListData) :=
  pop_loop left (Z.to_nat (Z.min n (Z.of_nat (ListData.len l)))) l 0 [].

Definition pop_members (left : bool) (count : option Z) (l : ListData.ListData) :
    may_panic (Resp * Z * ListData.ListData) :=
  match count with
  | Some n => '(popped, delta, l) ← pop_many left n l; Some (array (map bulk popped), delta, l)
  | None =>
      '(v, l) ← pop_one left l;
      match v with
      | Some v => Some (bulk v, (- Z.of_nat (length v))%Z, l)
      | None => Some (null, 0%Z, l)
      end
  end.

Definition pop_body (now : Z) (key : bytes) (left : bool) (count : option Z) (d : Database.t) :
    may_panic (Result Resp * Database.t) :=
  match Database.get_mut now key d with
  | (None, d) => Some (settle key (inr null) 0 false d)
  | (Some e, d) =>
      match Entry.value e with
      | TList l =>
          '(resp, delta, l) ← pop_members left count l;
          Some (settle key (inr resp) delta (ListData.is_empty l) (put_list key e l d))
      | _ => Some (settle key (inl WrongType) 0 false d)
      end
  end.

Definition pop_count (args : list Resp) (cmd : string) : Result (option Z) :=
  if bool_decide (3 <= length args) then
    let! n := get_i64 args 2 cmd in
    if bool_decide (n < 0)%Z then inl (Generic (bstr "value is not an integer or out of range")) else inr (Some n)
  else inr None.

Definition pop (now : Z) (args : list Resp) (left : bool) (cmd : string) (s : t) : may_panic (Result Resp * t) :=
  if bool_decide (length args < 2) then Some (inl (WrongArity (bstr cmd)), s)
  else
    let? key := get_bytes_vec args 1 cmd at s in
    let? count := pop_count args cmd at s in
    on_shard (shard_idx s key) (pop_body now key left count) s.

Definition cmd_lpop (now : Z) (args : list Resp) (s : t) := pop now args true "LPOP" s.
Definition cmd_rpop (now : Z) (args : list Resp) (s : t) := pop now args false "RPOP" s.

(** ** Reads *)

Definition read_list (now : Z) (key : bytes) (none : Resp) (f : ListData.ListData -> may_panic Resp) (s : t) :
    may_panic (Result Resp * t) :=
  found ← read_for key (Database.get_ro now key) s;
  match found with
  | None => Some (inr none, s)
  | Some e =>
      match Entry.value e with
      | TList l => r ← f l; Some (inr r, s)
      | _ => Some (inl WrongType, s)
      end
  end.

Definition cmd_llen (now : Z) (args : list Resp) (s : t) : may_panic (Result Resp * t) :=
  if bool_decide (length args <> 2) then Some (inl (WrongArity (bstr "llen")), s)
  else
    let? key := get_bytes_vec args 1 "LLEN" at s in
    read_list now key (int 0) (fun l => Some (int (Z.of_nat (ListData.len l)))) s.

(** A negative index counts from the end; one before the start is 0. *)
Definition normalize_idx (idx len : Z) : Z := if bool_decide (idx < 0)%Z then Z.max (len + idx) 0 else idx.

Definition EMPTY_ARRAY : bytes := bstr "*0" ++ CRLF.

(** The bounds of LRANGE and LTRIM on a list: [None] is an empty range. *)
Definition clip (start stop : Z) (len : nat) : option (nat * nat) :=
  let start := normalize_idx start (Z.of_nat len) in
  let stop := normalize_idx stop (Z.of_nat len) in
  if bool_decide (Z.of_nat len <= start)%Z || bool_decide (stop < start)%Z then None
  else Some (Z.to_nat start, Z.to_nat (Z.min stop (Z.of_nat len - 1))).

(** The elements framed outside the lock, from the snapshot taken under it. *)
Definition lrange_elems (start stop : nat) (l : ListData.ListData) : may_panic (list bytes) :=
  match l with
  | ListData.Compact c =>
      s ← ListData.CompactList.range_snap c start stop;
      region ← slice (ListData.CompactList.s_buf s) (ListData.CompactList.s_begin s) (ListData.CompactList.s_end s);
      walk region 0 (ListData.CompactList.s_count s)
  | ListData.Linked d => slice (ListData.LinkedList.items d) start (S stop)
  end.

Definition cmd_lrange (now : Z) (args : list Resp) (s : t) : may_panic (Result Resp * t) :=
  if bool_decide (length args <> 4) then Some (inl (WrongArity (bstr "lrange")), s)
  else
    let? key := get_bytes args 1 "LRANGE" at s in
    let? start := get_i64 args 2 "LRANGE" at s in
    let? stop := get_i64 args 3 "LRANGE" at s in
    read_list now key (Raw EMPTY_ARRAY) (fun l =>
      match clip start stop (ListData.len l) with
      | None => Some (Raw EMPTY_ARRAY)
      | Some (start, stop) => elems ← lrange_elems start stop l; Some (Raw (write_bulk_array_into [] elems))
      end) s.

Definition cmd_lindex (now : Z) (args : list Resp) (s : t) : may_panic (Result Resp * t) :=
  if bool_decide (length args <> 3) then Some (inl (WrongArity (bstr "lindex")), s)
  else
    let? key := get_bytes_vec args 1 "LINDEX" at s in
    let? idx := get_i64 args 2 "LINDEX" at s in
    read_list now key null (fun l =>
      v ← ListData.get l (Z.to_nat (normalize_idx idx (Z.of_nat (ListData.len l))));
      Some (match v with Some v => bulk v | None => null end)) s.

(** ** Changes in place *)

(** An index out of range returns early, before the counter is adjusted. *)
Definition lset_body (now : Z) (key : bytes) (idx : Z) (val : bytes) (d : Database.t) : may_panic (Result Resp * Database.t) :=
  match Database.get_mut now key d with
  | (None, d) => Some (settle key (inl (Generic (bstr "no such key"))) 0 false d)
  | (Some e, d) =>
      match Entry.value e with
      | TList l =>
          '(ok, dl, l) ← ListData.set l (Z.to_nat (normalize_idx idx (Z.of_nat (ListData.len l)))) val;
          let d := put_list key e l d in
          if negb ok then Some (inl IndexOutOfRange, d) else Some (settle key (inr Resp.ok) dl false d)
      | _ => Some (settle key (inl WrongType) 0 false d)
      end
  end.

Definition cmd_lset (now : Z) (args : list Resp) (s : t) : may_panic (Result Resp * t) :=
  if bool_decide (length args <> 4) then Some (inl (WrongArity (bstr "lset")), s)
  else
    let? key := get_bytes_vec args 1 "LSET" at s in
    let? idx := get_i64 args 2 "LSET" at s in
    let? val := get_bytes args 3 "LSET" at s in
    on_shard (shard_idx s key) (lset_body now key idx val) s.

Definition linsert_body (now : Z) (key : bytes) (before : bool) (pivot element : bytes) (d : Database.t) :
    may_panic (Result Resp * Database.t) :=
  match Database.get_mut now key d with
  | (None, d) => Some (settle key (inr (int (-1))) 0 false d)
  | (Some e, d) =>
      match Entry.value e with
      | TList l =>
          '(n, l) ← (if before then ListData.insert_before l pivot element else ListData.insert_after l pivot element);
          let payload_delta := match n with Some _ => Z.of_nat (length element) | None => 0%Z end in
          let reply := match n with Some len => int (Z.of_nat len) | None => int (-1) end in
          Some (settle key (inr reply) payload_delta false (put_list key e l d))
      | _ => Some (settle key (inl WrongType) 0 false d)
      end
  end.

Definition insert_where (w : bytes) : Result bool :=
  let w := to_uppercase w in
  if bool_decide (w = bstr "BEFORE") then inr true
  else if bool_decide (w = bstr "AFTER") then inr false
  else inl SyntaxError.

Definition cmd_linsert (now : Z) (args : list Resp) (s : t) : may_panic (Result Resp * t) :=
  if bool_decide (length args <> 5) then Some (inl (WrongArity (bstr "linsert")), s)
  else
    let? key := get_bytes_vec args 1 "LINSERT" at s in
    let? where_opt := get_str args 2 "LINSERT" at s in
    let? pivot := get_bytes args 3 "LINSERT" at s in
    let? element := get_bytes args 4 "LINSERT" at s in
    let? before := insert_where where_opt at s in
    on_shard (shard_idx s key) (linsert_body now key before pivot element) s.

Definition lrem_body (now : Z) (key : bytes) (count : Z) (element : bytes) (d : Database.t) : may_panic (Result Resp * Database.t) :=
  match Database.get_mut now key d with
  | (None, d) => Some (settle key (inr (int 0)) 0 false d)
  | (Some e, d) =>
      match Entry.value e with
      | TList l =>
          '(removed, dl, l) ← ListData.rem thr l count element;
          Some (settle key (inr (int (Z.of_nat removed))) dl (ListData.is_empty l) (put_list key e l d))
      | _ => Some (settle key (inl WrongType) 0 false d)
      end
  end.

Definition cmd_lrem (now : Z) (args : list Resp) (s : t) : may_panic (Result Resp * t) :=
  if bool_decide (length args <> 4) then Some (inl (WrongArity (bstr "lrem")), s)
  else
    let? key := get_bytes_vec args 1 "LREM" at s in
    let? count := get_i64 args 2 "LREM" at s in
    let? element := get_bytes args 3 "LREM" at s in
    on_shard (shard_idx s key) (lrem_body now key count element) s.

Definition ltrim_body (now : Z) (key : bytes) (start stop : Z) (d : Database.t) : may_panic (Result Resp * Database.t) :=
  match Database.get_mut now key d with
  | (None, d) => Some (settle key (inr ok) 0 false d)
  | (Some e, d) =>
      match Entry.value e with
      | TList l =>
          '(dl, l) ← (match clip start stop (ListData.len l) with
                      | None => ListData.trim thr l 1 0
                      | Some (start, stop) => ListData.trim thr l start stop
                      end);
          Some (settle key (inr ok) dl (ListData.is_empty l) (put_list key e l d))
      | _ => Some (settle key (inl WrongType) 0 false d)
      end
  end.

Definition cmd_ltrim (now : Z) (args : list Resp) (s : t) : may_panic (Result Resp * t) :=
  if bool_decide (length args <> 4) then Some (inl (WrongArity (bstr "ltrim")), s)
  else
    let? key := get_bytes_vec args 1 "LTRIM" at s in
    let? start := get_i64 args 2 "LTRIM" at s in
    let? stop := get_i64 args 3 "LTRIM" at s in
    on_shard (shard_idx s key) (ltrim_body now key start stop) s.

(** ** Moves *)

Definition move_reply (r : NexradeError + option bytes) : Result Resp :=
  match r with
  | inl e => inl e
  | inr (Some val) => inr (bulk val)
  | inr None => inr null
  end.

(** Any direction but LEFT is RIGHT. *)
Definition cmd_lmove (now : Z) (args : list Resp) (s : t) : may_panic (Result Resp * t) :=
  if bool_decide (length args <> 5) then Some (inl (WrongArity (bstr "lmove")), s)
  else
    let? src := get_bytes_vec args 1 "LMOVE" at s in
    let? dst := get_bytes_vec args 2 "LMOVE" at s in
    let? wherefrom := get_str args 3 "LMOVE" at s in
    let? whereto := get_str args 4 "LMOVE" at s in
    '(r, s) ← lmove_atomic thr now src dst (bool_decide (to_uppercase wherefrom = bstr "LEFT"))
                (bool_decide (to_uppercase whereto = bstr "LEFT")) s;
    Some (move_reply r, s).

Definition cmd_rpoplpush (now : Z) (args : list Resp) (s : t) : may_panic (Result Resp * t) :=
  if bool_decide (length args <> 3) then Some (inl (WrongArity (bstr "rpoplpush")), s)
  else
    let? src := get_bytes_vec args 1 "RPOPLPUSH" at s in
    let? dst := get_bytes_vec args 2 "RPOPLPUSH" at s in
    '(r, s) ← lmove_atomic thr now src dst false true s;
    Some (move_reply r, s).

(** ** Positions *)

Record LposOptions := mkLposOptions { rank : Z; count : option Z; maxlen : Z }.

Fixpoint lpos_options (rest : list Resp) (o : LposOptions) : Result LposOptions :=
  match rest with
  | [] => inr o
  | a :: rest =>
      match to_uppercase <$> as_str a with
      | Some w =>
          if bool_decide (w = bstr "RANK") then
            let! r := get_i64 rest 0 "LPOS" in
            if bool_decide (r = 0)%Z then
              inl (Generic (bstr "RANK can't be zero: use 1 to start from the first match, 2 from the second, ..."))
            else lpos_options (skip1 rest) (mkLposOptions r (count o) (maxlen o))
          else if bool_decide (w = bstr "COUNT") then
            let! n := get_i64 rest 0 "LPOS" in
            if bool_decide (n < 0)%Z then inl (Generic (bstr "value is not an integer or out of range"))
            else lpos_options (skip1 rest) (mkLposOptions (rank o) (Some n) (maxlen o))
          else if bool_decide (w = bstr "MAXLEN") then
            let! n := get_i64 rest 0 "LPOS" in
            if bool_decide (n < 0)%Z then inl (Generic (bstr "value is not an integer or out of range"))
            else lpos_options (skip1 rest) (mkLposOptions (rank o) (count o) n)
          else inl SyntaxError
      | None => inl SyntaxError
      end
  end.

(** The matches from the [rank]-th on, until [want] are found; at least one is taken. *)
Fixpoint lpos_scan (element : bytes) (rank want : Z) (elems : list (nat * bytes)) (seen : Z) (results : list nat) : list nat :=
  match elems with
  | [] => results
  | (idx, v) :: elems =>
      if bool_decide (v = element) then
        let seen := (seen + 1)%Z in
        if bool_decide (rank <= seen)%Z then
          let results := results ++ [idx] in
          if bool_decide (want <= Z.of_nat (length results))%Z then results
          else lpos_scan element rank want elems seen results
        else lpos_scan element rank want elems seen results
      else lpos_scan element rank want elems seen results
  end.

Definition lpos_positions (o : LposOptions) (element : bytes) (elems : list bytes) : list nat :=
  let len := Z.of_nat (length elems) in
  let limit := Z.to_nat (if bool_decide (maxlen o = 0)%Z then len else Z.min (maxlen o) len) in
  let want := default 1%Z (count o) in
  let numbered := imap (fun i v => (i, v)) elems in
  if bool_decide (0 <= rank o)%Z then lpos_scan element (rank o) want (take limit numbered) 0 []
  else reverse (lpos_scan element (- rank o) want (take limit (reverse numbered)) 0 []).

Definition cmd_lpos (now : Z) (args : list Resp) (s : t) : may_panic (Result Resp * t) :=
  if bool_decide (length args < 3) then Some (inl (WrongArity (bstr "lpos")), s)
  else
    let? key := get_bytes_vec args 1 "LPOS" at s in
    let? element := get_bytes args 2 "LPOS" at s in
    let? o := lpos_options (drop 3 args) (mkLposOptions 1 None 0) at s in
    read_list now key (match count o with Some _ => array [] | None => null end) (fun l =>
      elems ← ListData.to_vec_bytes l;
      let results := map (fun i => int (Z.of_nat i)) (lpos_positions o element elems) in
      Some (match count o with
            | Some _ => array results
            | None => match results with r :: _ => r | [] => null end
            end)) s.

(** ** The first of several lists *)

Definition parse_numkeys (args : list Resp) (idx : nat) (cmd : string) : Result Z :=
  let! n := get_i64 args idx cmd in
  if bool_decide (n <= 0)%Z then inl (Generic (bstr "numkeys should be greater than 0")) else inr n.

Definition parse_keys (args : list Resp) (idx : nat) (n : Z) (cmd : string) : Result (list bytes * nat) :=
  if bool_decide (Z.of_nat (length args) < Z.of_nat idx + n)%Z then inl (WrongArity (bstr cmd))
  else
    let! keys := all_bytes (take (Z.to_nat n) (drop idx args)) cmd in
    inr (keys, idx + Z.to_nat n).

Definition parse_lmpop_tail (args : list Resp) (cmd : string) : Result (bool * Z) :=
  if bool_decide (args = []) then inl (WrongArity (bstr cmd))
  else
    let! dir := get_str args 0 cmd in
    let dir := to_ascii_uppercase dir in
    let! is_left := (if bool_decide (dir = bstr "LEFT") then inr true
                  else if bool_decide (dir = bstr "RIGHT") then inr false
                  else inl (Generic (bstr "syntax error"))) in
    let! has_count := (if bool_decide (1 < length args) then
                         let! w := get_str args 1 cmd in inr (eq_ignore_ascii_case w (bstr "COUNT"))
                       else inr false) in
    if (has_count : bool) then
      if bool_decide (length args <= 2) then inl (WrongArity (bstr cmd))
      else
        let! n := get_i64 args 2 cmd in
        if bool_decide (n < 0)%Z then inl (Generic (bstr "value is out of range"))
        else if bool_decide (length args <> 3) then inl (Generic (bstr "syntax error"))
        else inr (is_left, n)
    else if bool_decide (length args <> 1) then inl (Generic (bstr "syntax error"))
    else inr (is_left, 1%Z).

(** The pop from one key of LMPOP: [None] tries the next key. *)
Definition lmpop_key (now : Z) (key : bytes) (left : bool) (n : Z) (d : Database.t) : may_panic (option (list bytes) * Database.t) :=
  match Database.get_mut now key d with
  | (None, d) => Some (None, d)
  | (Some e, d) =>
      match Entry.value e with
      | TList l =>
          if ListData.is_empty l then Some (None, d)
          else
            '(popped, delta, l) ← pop_many left n l;
            let d := Database.adjust_live_bytes delta (put_list key e l d) in
            Some (Some popped, if ListData.is_empty l then (Database.remove_empty_key key d).2 else d)
      | _ => Some (None, d)
      end
  end.

Fixpoint lmpop_attempt (now : Z) (keys : list bytes) (left : bool) (n : Z) (s : t) : may_panic (option Resp * t) :=
  match keys with
  | [] => Some (None, s)
  | key :: keys =>
      '(r, s) ← on_shard (shard_idx s key) (lmpop_key now key left n) s;
      match r with
      | Some popped => Some (Some (array [bulk key; array (map bulk popped)]), s)
      | None => lmpop_attempt now keys left n s
      end
  end.

Definition cmd_lmpop (now : Z) (args : list Resp) (s : t) : may_panic (Result Resp * t) :=
  if bool_decide (length args < 4) then Some (inl (WrongArity (bstr "lmpop")), s)
  else
    let? numkeys := parse_numkeys args 1 "LMPOP" at s in
    let? p := parse_keys args 2 numkeys "LMPOP" at s in
    let? q := parse_lmpop_tail (drop p.2 args) "LMPOP" at s in
    '(r, s) ← lmpop_attempt now p.1 q.1 q.2 s;
    Some (inr (default null_array r), s).

(** One pass of BLPOP and BRPOP over their keys. *)
Definition bpop_key (now : Z) (key : bytes) (left : bool) (d : Database.t) : may_panic (option bytes * Database.t) :=
  match Database.get_mut now key d with
  | (None, d) => Some (None, d)
  | (Some e, d) =>
      match Entry.value e with
      | TList l =>
          if ListData.is_empty l then Some (None, d)
          else
            '(v, l) ← pop_one left l;
            let d := put_list key e l d in
            match v with
            | Some v =>
                let d := Database.adjust_live_bytes (- Z.of_nat (length v)) d in
                Some (Some v, if ListData.is_empty l then (Database.remove_empty_key key d).2 else d)
            | None => Some (None, d)
            end
      | _ => Some (None, d)
      end
  end.

Fixpoint bpop_pass (now : Z) (keys : list bytes) (left : bool) (s : t) : may_panic (option Resp * t) :=
  match keys with
  | [] => Some (None, s)
  | key :: keys =>
      '(r, s) ← on_shard (shard_idx s key) (bpop_key now key left) s;
      match r with
      | Some v => Some (Some (array [bulk key; bulk v]), s)
      | None => bpop_pass now keys left s
      end
  end.
End ListCommands.
