(* ===== verification/ListSpec.v ===== *)
(** * ListSpec: the list commands on sequences

    An abstract keyspace gives every key a sequence of byte strings, a value of
    another type, or nothing.  The handlers of [ListCommands] on one key compute
    the functions given here on it. *)

From S2P Require Import Prelude Packing Text Types Keyspace KeyspaceInvariant KeyspaceSpec.
From S2P Require Import Shards ShardsSpec ShardsMoves Resp CommandArgs SetCommands ListCommands ValueCells.
From S2P Require ListData SetData.

Import ShardedDatabase.

#[local] Arguments Database.remove : simpl never.
#[local] Arguments Database.adjust_live_bytes : simpl never.
#[local] Arguments Database.get_or_insert_with : simpl never.

Inductive ListCommand :=
  | LPUSH | RPUSH | LPUSHX | RPUSHX | LPOP | RPOP | LLEN | LRANGE | LINDEX | LSET | LINSERT | LREM | LTRIM.

Section Spec.
Context `{SetData.IndexSet} `{UnicodeCase} `{Itoa} (thr : ListData.ListThresholds) (Hthr : ListData.thr_sane thr).
Implicit Types (now : Z) (s : t) (d : Database.t) (k : bytes) (ws xs ys : list bytes) (e : Entry.t) (o : option Entry.t).

Definition exec_list (now : Z) (c : ListCommand) (args : list Resp) (s : t) : may_panic (Result Resp * t) :=
  match c with
  | LPUSH => cmd_lpush thr now args s
  | RPUSH => cmd_rpush thr now args s
  | LPUSHX => cmd_lpushx thr now args s
  | RPUSHX => cmd_rpushx thr now args s
  | LPOP => cmd_lpop thr now args s
  | RPOP => cmd_rpop thr now args s
  | LLEN => cmd_llen now args s
  | LRANGE => cmd_lrange now args s
  | LINDEX => cmd_lindex now args s
  | LSET => cmd_lset now args s
  | LINSERT => cmd_linsert now args s
  | LREM => cmd_lrem thr now args s
  | LTRIM => cmd_ltrim thr now args s
  end.

(** ** Cells *)

Definition list_kind : Kind ListData.ListData (list bytes) :=
  mkKind _ _ _ TList (fun v => match v with TList x => Some x | _ => None end) ListData.new ListData.repr [] total_len.

#[export] Instance list_kind_laws : KindLaws list_kind.
Proof.
  split; try done; simpl.
  - intros x v Hx. destruct x; try done. by injection Hx as ->.
  - intros v xs R. by apply ListData.list_repr_payload.
Qed.

Definition Cell : Type := option (Content (list bytes) * option Z).
Implicit Types (cell : Cell).
#[local] Notation elems := (contents list_kind).

(** ** The functions *)

Definition list_args (name : string) (key : bytes) (ws : list bytes) : list Resp :=
  bulk (bstr name) :: bulk key :: (bulk <$> ws).

Definition list_name (c : ListCommand) : string :=
  match c with
  | LPUSH => "LPUSH" | RPUSH => "RPUSH" | LPUSHX => "LPUSHX" | RPUSHX => "RPUSHX" | LPOP => "LPOP" | RPOP => "RPOP"
  | LLEN => "LLEN" | LRANGE => "LRANGE" | LINDEX => "LINDEX" | LSET => "LSET" | LINSERT => "LINSERT" | LREM => "LREM"
  | LTRIM => "LTRIM"
  end.

(** The number a word is, with the error the command answers otherwise. *)
Definition num (c : ListCommand) (w : bytes) : Result Z := get_i64 [bulk w] 0 (list_name c).

(** Position [i], counted from the end when negative; before the start is the start. *)
Definition at_index (i : Z) (len : nat) : nat := Z.to_nat (if bool_decide (i < 0)%Z then Z.of_nat len + i else i).

Definition between (start stop : Z) (xs : list bytes) : list bytes :=
  ListData.spec_range (at_index start (length xs)) (at_index stop (length xs)) xs.

Definition framed (xs : list bytes) : Resp := Raw (write_bulk_array_into [] xs).

Definition size_reply (xs : list bytes) : Result Resp := inr (int (Z.of_nat (length xs))).

Definition popped (left : bool) (count : option Z) (xs : list bytes) : Resp * list bytes :=
  let xs := if left then xs else reverse xs in
  let n := match count with Some n => Z.to_nat (Z.min n (Z.of_nat (length xs))) | None => 1 end in
  let rest := if left then drop n xs else reverse (drop n xs) in
  (match count with
   | Some _ => array (map bulk (take n xs))
   | None => match head xs with Some x => bulk x | None => null end
   end, rest).

(** What a command asks for, once its words are read. *)
Inductive ListOp :=
  | Push (left only_if_exists : bool) (vs : list bytes)
  | Pop (left : bool) (count : option Z)
  | Len
  | Range (start stop : Z)
  | Index (i : Z)
  | Store (i : Z) (v : bytes)
  | Insert (before : bool) (pivot v : bytes)
  | Rem (count : Z) (v : bytes)
  | Trim (start stop : Z).

(** The new contents, when something is written. *)
Definition op_change (op : ListOp) (xs : list bytes) : Result Resp * option (list bytes) :=
  match op with
  | Push l _ vs => let ys := if l then reverse vs ++ xs else xs ++ vs in (size_reply ys, Some ys)
  | Pop l count => let '(r, ys) := popped l count xs in (inr r, Some ys)
  | Len => (size_reply xs, None)
  | Range start stop => (inr (framed (between start stop xs)), None)
  | Index i => (inr (match xs !! at_index i (length xs) with Some v => bulk v | None => null end), None)
  | Store i v =>
      let i := at_index i (length xs) in
      if bool_decide (i < length xs) then (inr ok, Some (<[i := v]> xs)) else (inl IndexOutOfRange, None)
  | Insert before pivot v =>
      match ListData.spec_insert (if before then 0 else 1) pivot v xs with
      | (Some n, ys) => (inr (int (Z.of_nat n)), Some ys)
      | (None, _) => (inr (int (-1)), None)
      end
  | Rem n v => let ys := ListData.spec_rem n v xs in (inr (int (Z.of_nat (length xs - length ys))), Some ys)
  | Trim start stop => (inr ok, Some (between start stop xs))
  end.

(** What a missing key answers; a push makes it. *)
Definition op_missing (op : ListOp) : option (Result Resp) :=
  match op with
  | Push _ only_if_exists _ => if only_if_exists then Some (inr (int 0)) else None
  | Pop _ _ | Index _ => Some (inr null)
  | Len | Rem _ _ => Some (inr (int 0))
  | Range _ _ => Some (inr (framed []))
  | Store _ _ => Some (inl (Generic (bstr "no such key")))
  | Insert _ _ _ => Some (inr (int (-1)))
  | Trim _ _ => Some (inr ok)
  end.

Definition op_answer (op : ListOp) (cell : Cell) : Result Resp * Cell :=
  match cell, op_missing op with
  | None, Some r => (r, cell)
  | _, _ =>
      match elems cell with
      | None => (inl WrongType, cell)
      | Some xs =>
          let '(r, w) := op_change op xs in
          (r, match w with Some ys => refill list_kind cell ys | None => cell end)
      end
  end.

(** The words of a command, in the order they are read. *)
Definition list_words (c : ListCommand) (ws : list bytes) : Result ListOp :=
  match c, ws with
  | LPUSH, _ => inr (Push true false ws)
  | RPUSH, _ => inr (Push false false ws)
  | LPUSHX, _ => inr (Push true true ws)
  | RPUSHX, _ => inr (Push false true ws)
  | LPOP, [] => inr (Pop true None)
  | RPOP, [] => inr (Pop false None)
  | LPOP, w :: _ | RPOP, w :: _ =>
      let! n := num c w in
      if bool_decide (n < 0)%Z then inl (Generic (bstr "value is not an integer or out of range"))
      else inr (Pop (match c with LPOP => true | _ => false end) (Some n))
  | LLEN, _ => inr Len
  | LRANGE, [a; b] => let! a := num c a in let! b := num c b in inr (Range a b)
  | LTRIM, [a; b] => let! a := num c a in let! b := num c b in inr (Trim a b)
  | LINDEX, [i] => let! i := num c i in inr (Index i)
  | LSET, [i; v] => let! i := num c i in inr (Store i v)
  | LINSERT, [w; pivot; v] =>
      let! w := get_str [bulk w] 0 "LINSERT" in let! before := insert_where w in inr (Insert before pivot v)
  | LREM, [n; v] => let! n := num c n in inr (Rem n v)
  | _, _ => inl (wrong_arity (list_name c))
  end.

Definition list_arity_ok (c : ListCommand) (ws : list bytes) : bool :=
  match c with
  | LPUSH | RPUSH | LPUSHX | RPUSHX => negb (bool_decide (ws = []))
  | LPOP | RPOP => true
  | LLEN => bool_decide (length ws = 0)
  | LINDEX => bool_decide (length ws = 1)
  | LRANGE | LSET | LREM | LTRIM => bool_decide (length ws = 2)
  | LINSERT => bool_decide (length ws = 3)
  end.

(** The pushes and pops name themselves in capitals when words are missing. *)
Definition list_arity_error (c : ListCommand) : NexradeError :=
  match c with
  | LPUSH | RPUSH | LPUSHX | RPUSHX | LPOP | RPOP => WrongArity (bstr (list_name c))
  | _ => wrong_arity (list_name c)
  end.

Definition op_post (op : ListOp) (cell : Cell) (r : Result Resp) (cell' : Cell) : Prop := (r, cell') = op_answer op cell.

(** The bytes of what is left under the key. *)
Definition op_need (op : ListOp) (cell : Cell) : nat :=
  match (op_answer op cell).2 with Some (Own ys, _) => total_len ys | _ => 0 end.

#[local] Notation lserves now k op := (serves list_kind now k (op_need op) (op_post op)).
#[local] Notation lacts now k op := (acts list_kind now k (op_need op) (op_post op)).

(** ** Steps *)

Lemma answer_found op cell xs : cell <> None -> elems cell = Some xs ->
  op_answer op cell = let '(r, w) := op_change op xs in (r, match w with Some ys => refill list_kind cell ys | None => cell end).
Proof. intros Hc Ex. unfold op_answer. destruct cell as [p|]; [|done]. by rewrite Ex. Qed.

Lemma answer_foreign op cell : elems cell = None -> op_answer op cell = (inl WrongType, cell).
Proof. intros Ex. unfold op_answer. destruct cell as [p|]; [|done]. by rewrite Ex. Qed.

Lemma need_written op cell r ys : op_answer op cell = (r, refill list_kind cell ys) -> op_need op cell = total_len ys.
Proof.
  intros E. unfold op_need. rewrite E. unfold refill. simpl. case_bool_decide as Hy; [by subst ys|done].
Qed.

(** A handler that changes the list it finds.  [gc] says whether an emptied list is removed. *)
Lemma mut_serves now k op none (gc : bool) (f : ListData.ListData -> may_panic (Result Resp * Z * ListData.ListData)) :
  op_missing op = Some none ->
  (forall l xs, ListData.repr l xs -> exists l' ys,
    f l = Some ((op_change op xs).1, ListData.delta_of xs ys, l') /\ ListData.repr l' ys /\
    match (op_change op xs).2 with Some zs => zs = ys /\ (gc = false -> ys <> []) | None => ys = xs /\ gc = false end) ->
  lserves now k op (fun d =>
    match Database.get_mut now k d with
    | (None, d) => Some (settle k none 0 false d)
    | (Some e, d) =>
        match Entry.value e with
        | TList l => '(r, delta, l) ← f l; Some (settle k r delta (gc && ListData.is_empty l) (put_list k e l d))
        | _ => Some (settle k (inl WrongType) 0 false d)
        end
    end).
Proof.
  intros Hm Hf d cell W S F. destruct (get_mut_step now k d W) as [D1 E1].
  destruct (Database.get_mut now k d) as [r d1]. cbn [fst snd] in *. subst r. unfold op_post.
  destruct (live now (Database.entries d !! k)) as [e|] eqn:L.
  2: { rewrite (sees_none list_kind now _ cell L S) in *. eexists _, _, None, None. split; [done|].
    split; [unfold op_answer; by rewrite Hm|]. by split. }
  destruct (live_cases list_kind now _ e cell L S) as (Hl & Ex & X & Se). simpl in Hl.
  destruct (Entry.value e) eqn:Ev;
    try (eexists _, _, (Some e), cell; split; [done|]; split; [by rewrite answer_foreign|by split]).
  destruct Hl as (xs & _ & Em & R & Ec). destruct (Hf v xs R) as (l' & ys & -> & R' & Hw). mstep.
  assert (Hsome : cell <> None) by (by rewrite Ec). pose proof (answer_found op cell xs Hsome Em) as A.
  destruct (op_change op xs) as [r [zs|]]; cbn [fst snd] in *.
  - destruct Hw as [-> Hgc]. rewrite (need_written op cell r ys A) in F.
    destruct (write_or_drop list_kind now k d d1 cell xs ys v l' e (gc && ListData.is_empty l')) as (o & D2 & S2); try done.
    { rewrite (ListData.repr_is_empty _ _ R'). destruct gc; [by apply bool_decide_ext|]. simpl. symmetry. apply bool_decide_eq_false. by apply Hgc. }
    eexists _, _, o, _. split; [done|]. split; [by rewrite A|]. by split.
  - destruct Hw as [-> ->]. unfold settle. rewrite andb_false_l.
    edestruct (write_step list_kind now d d1 k e v xs l' xs) as [D2 S2]; try done.
    { unfold op_need in F. rewrite A, Ec in F. simpl in F. done. }
    eexists _, _, _, _. split; [done|]. split; [by rewrite A|]. split; [exact D2|]. rewrite Ec. rewrite Ex in S2. exact S2.
Qed.

(** ** The pops *)

Lemma pop_one_spec (left : bool) l xs : ListData.repr l xs ->
  exists l', pop_one thr left l = Some (head (if left then xs else reverse xs), l') /\
    ListData.repr l' (if left then tail xs else reverse (tail (reverse xs))).
Proof.
  intros R. unfold pop_one. destruct left.
  - apply (ListData.pop_front_refines _ Hthr _ _ R).
  - destruct (ListData.pop_back_refines _ Hthr _ _ R) as (l' & -> & R'). exists l'.
    destruct xs as [|x xs _] using rev_ind; [done|]. rewrite last_snoc, reverse_snoc. split; [done|]. simpl.
    by rewrite reverse_involutive, <- (removelast_last xs x).
Qed.

Lemma pop_loop_spec (left : bool) n : forall l xs delta acc, ListData.repr l xs ->
  let zs := if left then xs else reverse xs in
  let ys := if left then drop n xs else reverse (drop n (reverse xs)) in
  exists l', pop_loop thr left n l delta acc = Some (acc ++ take n zs, (delta + ListData.delta_of xs ys)%Z, l') /\
    ListData.repr l' ys.
Proof.
  induction n as [|n IH]; intros l xs delta acc R zs ys.
  - exists l. unfold ys, zs, ListData.delta_of. rewrite !drop_0, reverse_involutive, take_0, app_nil_r. destruct left;
      rewrite Z.sub_diag, Z.add_0_r; by split.
  - destruct (pop_one_spec left l xs R) as (l1 & E & R1). cbn [pop_loop]. rewrite E. mstep. fold zs.
    destruct zs as [|z zs'] eqn:Ez; unfold zs in Ez; cbn [head].
    + exists l1. assert (xs = []) as -> by (destruct left; [done|]; by apply (f_equal reverse) in Ez; rewrite reverse_involutive in Ez).
      unfold ys, ListData.delta_of. rewrite take_nil, app_nil_r. destruct left; rewrite Z.sub_diag, Z.add_0_r; by split.
    + destruct (IH l1 _ (delta - Z.of_nat (length z))%Z (acc ++ [z]) R1) as (l' & E' & R'). rewrite E'. exists l'.
      destruct left; subst; simpl in *.
      * split; [|done]. rewrite <- app_assoc. unfold ys, ListData.delta_of. rewrite !total_len_cons. do 3 f_equal. lia.
      * unfold ys. rewrite Ez in *. simpl in *. rewrite reverse_involutive in *. split; [|done]. rewrite <- app_assoc.
        unfold ListData.delta_of. assert (xs = reverse (z :: zs')) as -> by (by rewrite <- Ez, reverse_involutive).
        rewrite !ListData.total_len_reverse, total_len_cons. do 3 f_equal. lia.
Qed.

(** Passes over an empty list pop nothing. *)
Lemma pop_loop_short (left : bool) n l xs delta acc : ListData.repr l xs -> exists r l1 l2 ys,
  pop_loop thr left n l delta acc = Some (r, l1) /\ pop_loop thr left (n `min` ListData.len l) l delta acc = Some (r, l2) /\
  ListData.repr l1 ys /\ ListData.repr l2 ys.
Proof.
  intros R. rewrite (ListData.list_repr_len _ _ R).
  assert (T : forall zs : list bytes, take (n `min` length zs) zs = take n zs /\ drop (n `min` length zs) zs = drop n zs).
  { intros zs. destruct (Nat.le_gt_cases n (length zs)); [by rewrite Nat.min_l by lia|].
    rewrite Nat.min_r, !take_ge, !drop_ge by lia. done. }
  destruct (pop_loop_spec left n l xs delta acc R) as (l1 & -> & R1).
  destruct (pop_loop_spec left (n `min` length xs) l xs delta acc R) as (l2 & -> & R2).
  destruct left; [destruct (T xs) as [E1 E2]|destruct (T (reverse xs)) as [E1 E2]; rewrite length_reverse in E1, E2];
    rewrite E1, E2 in *; by eexists _, l1, l2, _.
Qed.

Lemma pop_members_spec (left : bool) count l xs : ListData.repr l xs ->
  exists l' ys, pop_members thr left count l = Some ((popped left count xs).1, ListData.delta_of xs ys, l') /\
    ListData.repr l' ys /\ (popped left count xs).2 = ys.
Proof.
  intros R. destruct count as [n|]; cbn [pop_members popped].
  - unfold pop_many. rewrite (ListData.list_repr_len _ _ R).
    destruct (pop_loop_spec left (Z.to_nat (Z.min n (Z.of_nat (length xs)))) l xs 0 [] R) as (l' & -> & R'). mstep.
    rewrite Z.add_0_l. exists l'. unfold popped. destruct left; cbn [fst snd]; rewrite ?length_reverse; eexists; by split_and!.
  - destruct (pop_one_spec left l xs R) as (l1 & -> & R1). mstep. unfold popped. cbn [fst snd].
    destruct left.
    + destruct xs as [|x xs]; simpl in *; (eexists _, _; split; [|split; [exact R1|done]]); [done|].
      unfold ListData.delta_of. rewrite total_len_cons. do 3 f_equal. lia.
    + destruct (reverse xs) as [|x zs] eqn:Ez; simpl in *.
      * assert (xs = []) as -> by (apply (f_equal reverse) in Ez; by rewrite reverse_involutive in Ez). exists l1, []. by split_and!.
      * eexists _, _. split; [|split; [exact R1|done]].
        assert (xs = reverse (x :: zs)) as -> by (by rewrite <- Ez, reverse_involutive).
        unfold ListData.delta_of. rewrite !ListData.total_len_reverse, total_len_cons. do 3 f_equal. lia.
Qed.

Lemma pop_serves now k (left : bool) count : lserves now k (Pop left count) (pop_body thr now k left count).
Proof.
  assert (E : forall d, pop_body thr now k left count d =
    match Database.get_mut now k d with
    | (None, d) => Some (settle k (inr null) 0 false d)
    | (Some e, d) =>
        match Entry.value e with
        | TList l => '(r, delta, l) ← ('(r, delta, l) ← pop_members thr left count l; Some (inr r, delta, l));
                     Some (settle k r delta (true && ListData.is_empty l) (put_list k e l d))
        | _ => Some (settle k (inl WrongType) 0 false d)
        end
    end).
  { intros d. unfold pop_body. destruct (Database.get_mut now k d) as [[e|] d1]; [|done]. destruct (Entry.value e); try done.
    by destruct (pop_members thr left count v) as [[[??]?]|]. }
  intros d cell W S F. rewrite E. revert d cell W S F. apply mut_serves; [done|]. intros l xs R.
  destruct (pop_members_spec left count l xs R) as (l' & ys & -> & R' & Ey). mstep. exists l', ys. cbn [op_change].
  destruct (popped left count xs) as [r zs]. simpl in *. by split_and!.
Qed.

(** ** Changes in place *)

Lemma rem_serves now k n v : lserves now k (Rem n v) (lrem_body thr now k n v).
Proof.
  intros d cell W S F. destruct (mut_serves now k (Rem n v) (inr (int 0)) true
    (fun l => '(removed, dl, l) ← ListData.rem thr l n v; Some (inr (int (Z.of_nat removed)), dl, l)) eq_refl) with d cell as (r & d' & o & c' & E & P); try done.
  - intros l xs R. destruct (ListData.rem_refines _ Hthr _ _ R n v) as (l' & -> & R'). mstep. eexists _, _. by split_and!.
  - exists r, d', o, c'. split; [|done]. rewrite <- E. unfold lrem_body.
    destruct (Database.get_mut now k d) as [[e|] d1]; [|done]. destruct (Entry.value e); try done.
    by destruct (ListData.rem thr v0 n v) as [[[??]?]|].
Qed.

Lemma normalize_at i n : at_index i n = Z.to_nat (normalize_idx i (Z.of_nat n)) /\ (0 <= normalize_idx i (Z.of_nat n))%Z.
Proof. unfold at_index, normalize_idx. case_bool_decide; lia. Qed.

(** The bounds the code computes select what the indices say. *)
Lemma clip_between start stop xs : match clip start stop (length xs) with
  | None => between start stop xs = [] | Some (a, b) => between start stop xs = ListData.spec_range a b xs /\ a <= b /\ b < length xs end.
Proof.
  unfold clip, between, ListData.spec_range. set (n := length xs).
  destruct (normalize_at start n) as [-> Pa], (normalize_at stop n) as [-> Pb].
  generalize dependent (normalize_idx start (Z.of_nat n)). generalize dependent (normalize_idx stop (Z.of_nat n)). intros b Pb a Pa.
  destruct (bool_decide (Z.of_nat n <= a)%Z) eqn:H1'; simpl.
  - apply bool_decide_eq_true in H1'. rewrite drop_ge by (fold n; lia). apply take_nil.
  - apply bool_decide_eq_false in H1'. case_bool_decide as H2'.
    + by replace (S (Z.to_nat b) - Z.to_nat a) with 0 by lia.
    + split; [|lia]. destruct (decide (b < Z.of_nat n)%Z); [by rewrite Z.min_l by lia|].
      rewrite Z.min_r by lia. rewrite !take_ge; rewrite ?length_drop; fold n; [done|lia..].
Qed.

Lemma trim_serves now k start stop : lserves now k (Trim start stop) (ltrim_body thr now k start stop).
Proof.
  intros d cell W S F. destruct (mut_serves now k (Trim start stop) (inr ok) true
    (fun l => '(dl, l) ← (match clip start stop (ListData.len l) with
                      | None => ListData.trim thr l 1 0
                      | Some (start, stop) => ListData.trim thr l start stop
                      end); Some (inr ok, dl, l)) eq_refl) with d cell as (r & d' & o & c' & E & P); try done.
  - intros l xs R. rewrite (ListData.list_repr_len _ _ R). pose proof (clip_between start stop xs) as Hc.
    destruct (clip start stop (length xs)) as [[a b]|].
    + destruct Hc as [Hc _]. destruct (ListData.trim_refines _ Hthr _ _ R a b) as (l' & -> & R'). mstep.
      eexists _, _. cbn [op_change fst snd]. rewrite Hc. by split_and!.
    + destruct (ListData.trim_refines _ Hthr _ _ R 1 0) as (l' & -> & R'). mstep. eexists _, _. cbn [op_change fst snd].
      rewrite Hc. change (ListData.spec_range 1 0 xs) with (@nil bytes) in *. by split_and!.
  - exists r, d', o, c'. split; [|done]. rewrite <- E. unfold ltrim_body.
    destruct (Database.get_mut now k d) as [[e|] d1]; [|done]. destruct (Entry.value e); try done.
    destruct (clip start stop (ListData.len v)) as [[a b]|].
    + by destruct (ListData.trim thr v a b) as [[??]|].
    + by destruct (ListData.trim thr v 1 0) as [[??]|].
Qed.

Lemma store_serves now k i v : lserves now k (Store i v) (lset_body now k i v).
Proof.
  intros d cell W S F. destruct (mut_serves now k (Store i v) (inl (Generic (bstr "no such key"))) false
    (fun l => '(b, dl, l) ← ListData.set l (Z.to_nat (normalize_idx i (Z.of_nat (ListData.len l)))) v;
              Some (if (b : bool) then (inr ok, dl, l) else (inl IndexOutOfRange, 0%Z, l))) eq_refl) with d cell
    as (r & d' & o & c' & E & P); try done.
  - intros l xs R. rewrite (ListData.list_repr_len _ _ R). destruct (normalize_at i (length xs)) as [<- _].
    destruct (ListData.set_refines _ _ R (at_index i (length xs)) v) as (l' & -> & R'). mstep. cbn [op_change].
    case_bool_decide as Hi; cbn [fst snd].
    + eexists _, _. split_and!; [done..|]. intros _ Hn. apply (f_equal length) in Hn. rewrite length_insert in Hn. simpl in Hn. lia.
    + rewrite list_insert_ge in R' by lia. exists l', xs. unfold ListData.delta_of. rewrite Z.sub_diag. by split_and!.
  - exists r, d', o, c'. split; [|done]. rewrite <- E. unfold lset_body.
    destruct (Database.get_mut now k d) as [[e|] d1]; [|done]. destruct (Entry.value e); try done.
    by destruct (ListData.set v0 _ v) as [[[[] ?] ?]|].
Qed.

Lemma insert_serves now k (before : bool) pivot v : lserves now k (Insert before pivot v) (linsert_body now k before pivot v).
Proof.
  intros d cell W S F. destruct (mut_serves now k (Insert before pivot v) (inr (int (-1))) false
    (fun l => '(n, l) ← (if before then ListData.insert_before l pivot v else ListData.insert_after l pivot v);
              Some (inr (match n with Some len => int (Z.of_nat len) | None => int (-1) end),
                    match n with Some _ => Z.of_nat (length v) | None => 0%Z end, l)) eq_refl) with d cell
    as (r & d' & o & c' & E & P); try done.
  - intros l xs R. destruct (ListData.list_insert_refines _ _ R (if before then 0 else 1) pivot v) as (l' & E & R').
    assert (Eq : (if before then ListData.insert_before l pivot v else ListData.insert_after l pivot v)
      = Some ((ListData.spec_insert (if before then 0 else 1) pivot v xs).1, l')) by (destruct before; exact E).
    rewrite Eq. mstep. cbn [op_change]. unfold ListData.spec_insert in *.
    destruct (ListData.position pivot xs) as [i|]; cbn [fst snd] in *; (eexists l', _; split; [|split; [exact R'|]]).
    + do 3 f_equal. unfold ListData.delta_of. rewrite total_len_app, total_len_cons, (total_len_take_drop (i + (if before then 0 else 1)) xs). lia.
    + split; [done|]. intros _. by destruct (take (i + (if before then 0 else 1)) xs).
    + unfold ListData.delta_of. by rewrite Z.sub_diag.
    + done.
  - exists r, d', o, c'. split; [|done]. rewrite <- E. unfold linsert_body.
    destruct (Database.get_mut now k d) as [[e|] d1]; [|done]. destruct (Entry.value e); try done.
    by destruct (if before then ListData.insert_before v0 pivot v else ListData.insert_after v0 pivot v) as [[[?|] ?]|].
Qed.

(** ** The pushes *)

Lemma push_loop_spec cmd (left : bool) vs : forall delta l xs, ListData.repr l xs ->
  let ys := if left then reverse vs ++ xs else xs ++ vs in
  exists l', push_loop thr cmd left (bulk <$> vs) delta l = Some (inr (delta + ListData.delta_of xs ys)%Z, l') /\ ListData.repr l' ys.
Proof.
  induction vs as [|v vs IH]; intros delta l xs R ys.
  - exists l. unfold ys, ListData.delta_of. destruct left; simpl; rewrite ?app_nil_r, Z.sub_diag, Z.add_0_r; by split.
  - cbn [fmap list_fmap push_loop]. change (get_bytes [bulk v] 0 cmd) with (@inr NexradeError bytes v). cbv iota.
    change (list_fmap _ _ bulk vs) with (bulk <$> vs). unfold ys. destruct left.
    + destruct (ListData.push_front_refines _ Hthr _ _ R v) as (l1 & -> & R1). mstep.
      destruct (IH (delta + Z.of_nat (length v))%Z l1 _ R1) as (l' & -> & R'). exists l'.
      rewrite reverse_cons, <- app_assoc. simpl. split; [|done]. unfold ListData.delta_of. rewrite !total_len_app, !total_len_cons.
      do 3 f_equal. lia.
    + destruct (ListData.push_back_refines _ Hthr _ _ R v) as (l1 & -> & R1). mstep.
      destruct (IH (delta + Z.of_nat (length v))%Z l1 _ R1) as (l' & -> & R'). exists l'.
      rewrite <- app_assoc in *. simpl in *. split; [|done]. unfold ListData.delta_of. rewrite !total_len_app, !total_len_cons, total_len_nil.
      do 3 f_equal. lia.
Qed.

(** The push on a key of any state, present or not. *)
Lemma push_tail now cmd k (left ox : bool) vs d cell : vs <> [] -> wf d -> sees list_kind now (Database.entries d !! k) cell ->
  (ox = true -> cell <> None) ->
  (Z.of_nat (total_bytes d + (64 + length k + op_need (Push left ox vs) cell)) < 2 ^ 64)%Z ->
  exists r d' o c', (let '(r, e, d) := get_or_create_list now k d in
    let? l := r at d in
    '(r, l) ← push_loop thr cmd left (bulk <$> vs) 0 l;
    let d := put_list k e l d in
    let? delta := r at d in
    Some (inr (int (Z.of_nat (ListData.len l))), Database.adjust_live_bytes delta d)) = Some (r, d') /\
    op_post (Push left ox vs) cell r c' /\ dstep d d' k o /\ sees list_kind now o c'.
Proof.
  intros Hv W S Hox F. unfold get_or_create_list, op_post.
  destruct (create_step list_kind now k d cell W S ltac:(lia)) as (e & d1 & E & D1 & X & Ex & M). simpl in E. rewrite E.
  assert (A : op_answer (Push left ox vs) cell = match elems cell with None => (inl WrongType, cell) | Some xs =>
    let ys := if left then reverse vs ++ xs else xs ++ vs in (size_reply ys, refill list_kind cell ys) end).
  { unfold op_answer. destruct cell as [p|]; [by destruct (elems (Some p))|]. cbn [op_missing]. destruct ox; [by destruct Hox|done]. }
  destruct (elems cell) as [xs|] eqn:El.
  - destruct M as (l & Ev & R). simpl in Ev, R. rewrite Ev. cbn [try_at].
    destruct (push_loop_spec cmd left vs 0 l xs R) as (l' & -> & R'). mstep. cbn [try_at]. rewrite Z.add_0_l.
    rewrite (need_written _ _ _ _ A) in F.
    edestruct (write_refill list_kind now k d d1 cell xs) as (o & D2 & S2); [|done..|].
    { simpl. destruct left; intros Hn; [apply app_nil in Hn as [Hn _]; by rewrite reverse_nil_inv in Hn || (apply (f_equal reverse) in Hn; by rewrite reverse_involutive in Hn)
      |apply app_nil in Hn as [_ Hn]; done]. }
    eexists _, _, o, _. split; [done|]. rewrite A. split; [|by split]. unfold size_reply. by rewrite (ListData.list_repr_len _ _ R').
  - destruct M as [U Se]. rewrite A. simpl in U. destruct (Entry.value e); try done; by eexists _, _, (Some e), cell.
Qed.

Lemma push_serves now cmd k (left ox : bool) vs : vs <> [] ->
  lserves now k (Push left ox vs) (push_body thr now cmd left ox k (bulk <$> vs)).
Proof.
  intros Hv0 d cell W S F. unfold push_body. destruct ox; [|by apply push_tail].
  unfold Database.contains_key. destruct (get_on_shard now k d W) as (W1 & St & Hv & Hx & Ht).
  destruct (Database.get now k d) as [r d1]. cbn [fst snd] in *.
  assert (D1 : dstep d d1 k r) by done. pose proof (sees_seen list_kind now _ _ cell Hx S) as S1.
  destruct r as [e|]; cbn.
  - rewrite <- Hv in Hx. pose proof S1 as Se. rewrite <- (dstep_slot _ _ _ _ D1) in S1.
    destruct (push_tail now cmd k left true vs d1 cell Hv0 W1 S1) as (r' & d' & o & c' & E & P & D2 & S2).
    + intros _ ->. unfold seen in Hx. unfold sees, live in Se. simpl in *. destruct (Entry.is_expired now e); [done|].
      by destruct Se as (y & [=] & _).
    + lia.
    + exists r', d', o, c'. split_and!; [done..| |done]. by eapply dstep_trans.
  - rewrite (sees_none list_kind now None cell eq_refl S1). by eexists _, d1, None, None.
Qed.

(** ** Reads *)

Lemma list_read_acts now k op none f : op_missing op = Some (inr none) ->
  (forall l xs, ListData.repr l xs -> exists r, f l = Some r /\ op_change op xs = (inr r, None)) ->
  lacts now k op (read_list now k none f).
Proof.
  intros Hn Hf. apply read_only_acts. intros s cell W S. unfold read_list, op_post. rewrite read_live by done.
  destruct (live now (slot s k)) as [e|] eqn:L.
  2: { rewrite (sees_none list_kind now _ cell L S). eexists. split; [done|]. unfold op_answer. by rewrite Hn. }
  destruct (live_cases list_kind now _ e cell L S) as (Hc & _). simpl in Hc.
  destruct (Entry.value e); try (eexists; split; [done|]; by rewrite answer_foreign).
  destruct Hc as (xs & _ & Em & R & Ec). destruct (Hf v xs R) as (r & -> & Hr). mstep. eexists. split; [done|].
  rewrite (answer_found op cell xs ltac:(by rewrite Ec) Em). by rewrite Hr.
Qed.

Lemma len_acts now k : lacts now k Len (read_list now k (int 0) (fun l => Some (int (Z.of_nat (ListData.len l))))).
Proof. apply list_read_acts; [done|]. intros l xs R. rewrite (ListData.list_repr_len _ _ R). eauto. Qed.

Lemma index_acts now k i : lacts now k (Index i) (read_list now k null (fun l =>
  v ← ListData.get l (Z.to_nat (normalize_idx i (Z.of_nat (ListData.len l))));
  Some (match v with Some v => bulk v | None => null end))).
Proof.
  apply list_read_acts; [done|]. intros l xs R. rewrite (ListData.list_repr_len _ _ R). destruct (normalize_at i (length xs)) as [<- _].
  rewrite (ListData.list_get_refines _ _ R). mstep. eauto.
Qed.

Lemma lrange_elems_spec start stop l xs : ListData.repr l xs -> start <= stop -> stop < length xs ->
  lrange_elems start stop l = Some (ListData.spec_range start stop xs).
Proof.
  intros R Hle Hlt. unfold lrange_elems. destruct l as [c|dq].
  - destruct (ListData.range_snap_decodes c xs start stop R Hle Hlt) as (sn & -> & _ & Hs & _ & _ & _ & Hn). mstep. rewrite Hs. mstep.
    rewrite Hn. apply (walk_frames _ _ [] []); [by rewrite app_nil_r|].
    apply Forall_take, Forall_drop. by eapply ListData.crepr_sized.
  - destruct R as [-> _]. unfold slice. by rewrite bool_decide_eq_true_2 by lia.
Qed.

Lemma range_acts now k start stop : lacts now k (Range start stop) (read_list now k (Raw EMPTY_ARRAY) (fun l =>
  match clip start stop (ListData.len l) with
  | None => Some (Raw EMPTY_ARRAY)
  | Some (start, stop) => elems ← lrange_elems start stop l; Some (Raw (write_bulk_array_into [] elems))
  end)).
Proof.
  assert (E0 : Raw EMPTY_ARRAY = framed []).
  { unfold framed, write_bulk_array_into. simpl. rewrite header_count by done. reflexivity. }
  apply list_read_acts; [by rewrite E0|]. intros l xs R. rewrite (ListData.list_repr_len _ _ R).
  pose proof (clip_between start stop xs) as Hc. cbn [op_change]. destruct (clip start stop (length xs)) as [[a b]|].
  - destruct Hc as (-> & Ha & Hb). rewrite (lrange_elems_spec a b l xs R Ha Hb). mstep. eauto.
  - rewrite Hc, E0. eauto.
Qed.

(** ** The handlers *)

Definition list_post (c : ListCommand) (ws : list bytes) (cell : Cell) (r : Result Resp) (cell' : Cell) : Prop :=
  match list_words c ws with
  | inl e => r = inl e /\ cell' = cell
  | inr op => (r, cell') = op_answer op cell
  end.

Definition list_need (c : ListCommand) (ws : list bytes) (cell : Cell) : nat :=
  match list_words c ws with inl _ => 0 | inr op => op_need op cell end.

(** A handler reads its words and then runs. *)
Lemma words_act now c k ws h (run : ListOp -> t -> may_panic (Result Resp * t)) :
  (forall s, h s = (let? op := list_words c ws at s in run op s)) ->
  (forall op, list_words c ws = inr op -> lacts now k op (run op)) ->
  acts list_kind now k (list_need c ws) (list_post c ws) h.
Proof.
  intros E A s M W S F. rewrite E. unfold list_need, list_post in *. destruct (list_words c ws) as [e|op].
  - exists (inl e), s, (M k). split_and!; [done..|]. intros j. case_decide; [subst|]; apply S.
  - by apply (A op eq_refl s M W S F).
Qed.

Definition run_op (now : Z) (cmd : string) (k : bytes) (op : ListOp) (s : t) : may_panic (Result Resp * t) :=
  match op with
  | Push l ox vs => on_shard (shard_idx s k) (push_body thr now cmd l ox k (bulk <$> vs)) s
  | Pop l count => on_shard (shard_idx s k) (pop_body thr now k l count) s
  | Len => read_list now k (int 0) (fun l => Some (int (Z.of_nat (ListData.len l)))) s
  | Range start stop => read_list now k (Raw EMPTY_ARRAY) (fun l =>
      match clip start stop (ListData.len l) with
      | None => Some (Raw EMPTY_ARRAY)
      | Some (start, stop) => elems ← lrange_elems start stop l; Some (Raw (write_bulk_array_into [] elems))
      end) s
  | Index i => read_list now k null (fun l =>
      v ← ListData.get l (Z.to_nat (normalize_idx i (Z.of_nat (ListData.len l))));
      Some (match v with Some v => bulk v | None => null end)) s
  | Store i v => on_shard (shard_idx s k) (lset_body now k i v) s
  | Insert before pivot v => on_shard (shard_idx s k) (linsert_body now k before pivot v) s
  | Rem n v => on_shard (shard_idx s k) (lrem_body thr now k n v) s
  | Trim start stop => on_shard (shard_idx s k) (ltrim_body thr now k start stop) s
  end.

Lemma run_op_acts now cmd k op : (forall l ox vs, op = Push l ox vs -> vs <> []) -> lacts now k op (run_op now cmd k op).
Proof.
  intros Hv. destruct op; cbn [run_op]; try (apply (serves_acts list_kind)).
  - by apply push_serves, (Hv _ _ _ eq_refl).
  - apply pop_serves.
  - apply len_acts.
  - apply range_acts.
  - apply index_acts.
  - apply store_serves.
  - apply insert_serves.
  - apply rem_serves.
  - apply trim_serves.
Qed.

Lemma words_push c ws l ox vs : list_arity_ok c ws = true -> list_words c ws = inr (Push l ox vs) -> vs <> [].
Proof.
  intros A E. destruct c; cbn [list_arity_ok] in A;
    try (apply negb_true_iff, bool_decide_eq_false in A; simpl in E; injection E as <- <- <-; exact A);
    exfalso; destruct ws as [|w1 [|w2 [|w3 [|]]]]; simpl in *; try done; unfold bindr in E; repeat case_match; done.
Qed.

(** Reads the word [w] the handler takes as its argument [i]. *)
Ltac read_word f k ws i cmd w :=
  change (f (list_args cmd k ws) i cmd) with (f [bulk w] 0 cmd);
  destruct (f [bulk w] 0 cmd) as [?|?]; [done|].

Lemma exec_pop_words now c k ws s : c = LPOP \/ c = RPOP ->
  exec_list now c (list_args (list_name c) k ws) s = (let? op := list_words c ws at s in run_op now (list_name c) k op s).
Proof.
  intros [-> | ->]; (destruct ws as [|w ws]; [done|]); cbn [list_words list_name]; unfold num, exec_list, cmd_lpop, cmd_rpop, pop, pop_count;
    rewrite bool_decide_eq_false_2, bool_decide_eq_true_2 by (simpl; lia); cbn [list_name].
  - read_word get_i64 k (w :: ws) 2 "LPOP"%string w. cbn [bindr]. by case_bool_decide.
  - read_word get_i64 k (w :: ws) 2 "RPOP"%string w. cbn [bindr]. by case_bool_decide.
Qed.

Lemma exec_list_words now c k ws s : list_arity_ok c ws = true ->
  exec_list now c (list_args (list_name c) k ws) s = (let? op := list_words c ws at s in run_op now (list_name c) k op s).
Proof.
  intros A. destruct c; cbn [list_arity_ok] in A; try (apply exec_pop_words; by auto);
    try (apply negb_true_iff, bool_decide_eq_false in A; destruct ws as [|w ws]; [done|reflexivity]);
    apply bool_decide_eq_true in A; destruct ws as [|w1 [|w2 [|w3 [|]]]]; try done;
    cbn [list_words list_name exec_list]; unfold num; cbn [list_name].
  - unfold cmd_lrange. read_word get_i64 k [w1; w2] 2 "LRANGE"%string w1. by read_word get_i64 k [w1; w2] 3 "LRANGE"%string w2.
  - unfold cmd_lindex. by read_word get_i64 k [w1] 2 "LINDEX"%string w1.
  - unfold cmd_lset. by read_word get_i64 k [w1; w2] 2 "LSET"%string w1.
  - unfold cmd_linsert. read_word get_str k [w1; w2; w3] 2 "LINSERT"%string w1.
    transitivity (let? before := insert_where l at s in on_shard (shard_idx s k) (linsert_body now k before w2 w3) s); [done|].
    cbn [bindr]. by destruct (insert_where l).
  - unfold cmd_lrem. by read_word get_i64 k [w1; w2] 2 "LREM"%string w1.
  - unfold cmd_ltrim. read_word get_i64 k [w1; w2] 2 "LTRIM"%string w1. by read_word get_i64 k [w1; w2] 3 "LTRIM"%string w2.
Qed.

Lemma list_bad_arity now c k ws s : list_arity_ok c ws = false ->
  exec_list now c (list_args (list_name c) k ws) s = Some (inl (list_arity_error c), s).
Proof.
  intros A. destruct c; cbn [list_arity_ok] in A; try done; try (apply bool_decide_eq_false in A);
    try (apply negb_false_iff, bool_decide_eq_true in A as ->; done); destruct ws as [|w1 [|w2 [|w3 [|]]]]; try done; by cbn in A.
Qed.

(** C11: LPUSH, RPUSH, LPUSHX, RPUSHX, LPOP, RPOP, LLEN, LRANGE, LINDEX, LSET,
    LINSERT, LREM and LTRIM, with any words and any clock, act on the keys as on
    finite sequences with a deadline, whatever the encodings: no panic, the reply
    and the new sequence are the functions [list_words] and [op_answer] give, bad
    words and wrong types are reported, the key goes with its last element and no
    other key is touched. *)
Theorem list_commands_refine_sequences now c key ws s (M : bytes -> Cell) :
  swf s -> (forall j, sees list_kind now (slot s j) (M j)) -> room s key (64 + length key + list_need c ws (M key)) ->
  if list_arity_ok c ws then
    exists r s' c', exec_list now c (list_args (list_name c) key ws) s = Some (r, s') /\ list_post c ws (M key) r c' /\
      swf s' /\ forall j, sees list_kind now (slot s' j) (if decide (j = key) then c' else M j)
  else exec_list now c (list_args (list_name c) key ws) s = Some (inl (list_arity_error c), s).
Proof.
  intros W S F. destruct (list_arity_ok c ws) eqn:A; [|by apply list_bad_arity].
  apply (words_act now c key ws _ (run_op now (list_name c) key)); try done.
  - intros s0. by apply exec_list_words.
  - intros op E. apply run_op_acts. intros l ox vs ->. by eapply words_push.
Qed.
End Spec.

(** ** Runs *)

Section Witness.
#[local] Existing Instance SetData.vec_index_set.
#[local] Existing Instance ascii_case.
#[local] Existing Instance plain_itoa.
#[local] Existing Instance merge_sort_by_fst.

Definition list_of (xs : list bytes) : ListData.ListData * list bytes := (ListData.from_linked xs, xs).

Definition list_stock : list (bytes * (ListData.ListData * list bytes)) :=
  [(bstr "l", list_of [bstr "a"; bstr "b"; bstr "c"]); (bstr "m", list_of [bstr "x"])].

Lemma list_stock_ok now : swf (stocked list_kind list_stock) /\
  forall j, sees list_kind now (slot (stocked list_kind list_stock) j) (stock_cells (A := list bytes) list_stock j).
Proof.
  apply (stocked_ok list_kind).
  - by apply (bool_decide_unpack _).
  - repeat constructor; vm_compute; repeat constructor.
  - intros k. apply room_all. vm_compute. reflexivity.
Qed.

(** [LPUSH l y z] puts [z] first. *)
Lemma list_commands_refine_sequences_witness :
  exists s' c', exec_list ListData.default_thresholds 100 LPUSH (list_args "LPUSH" (bstr "l") [bstr "y"; bstr "z"])
      (stocked list_kind list_stock) = Some (inr (int 5), s') /\ swf s' /\
    sees list_kind 100 (slot s' (bstr "l")) c' /\ c' = Some (Own (bstr <$> ["z"; "y"; "a"; "b"; "c"]), None).
Proof.
  destruct (list_stock_ok 100) as [W S].
  destruct (list_commands_refine_sequences ListData.default_thresholds ListData.default_thresholds_sane 100 LPUSH (bstr "l")
    [bstr "y"; bstr "z"] (stocked list_kind list_stock) (stock_cells (A := list bytes) list_stock) W S)
    as (r & s' & c' & E & P & W' & S').
  - apply room_all. vm_compute. reflexivity.
  - exists s', c'. change (list_name LPUSH) with "LPUSH"%string in E. rewrite E. specialize (S' (bstr "l")).
    assert (Q : op_answer (Push true false [bstr "y"; bstr "z"]) (stock_cells (A := list bytes) list_stock (bstr "l")) =
      (inr (int 5), Some (Own (bstr <$> ["z"; "y"; "a"; "b"; "c"]), None))) by (vm_compute; reflexivity).
    change ((r, c') = op_answer (Push true false [bstr "y"; bstr "z"]) (stock_cells (A := list bytes) list_stock (bstr "l"))) in P.
    rewrite Q in P. apply pair_equal_spec in P as [-> Q'].
    split; [reflexivity|]. split; [exact W'|]. split; [exact S'|exact Q'].
Defined.

(** An index before the start is taken as the start. *)
Lemma lindex_before_the_start :
  fst <$> exec_list ListData.default_thresholds 100 LINDEX (list_args "LINDEX" (bstr "l") [bstr "-100"]) (stocked list_kind list_stock)
  = Some (inr (bulk (bstr "a"))).
Proof. vm_compute. reflexivity. Qed.

Lemma lrange_to_before_the_start :
  fst <$> exec_list ListData.default_thresholds 100 LRANGE (list_args "LRANGE" (bstr "l") [bstr "0"; bstr "-100"]) (stocked list_kind list_stock)
  = Some (inr (framed [bstr "a"])).
Proof. vm_compute. reflexivity. Qed.

(** Any direction but LEFT is RIGHT. *)
Lemma lmove_any_direction :
  fst <$> cmd_lmove ListData.default_thresholds 100 (bulk ∘ bstr <$> ["LMOVE"; "l"; "m"; "UP"; "DOWN"]) (stocked list_kind list_stock)
  = Some (inr (bulk (bstr "c"))).
Proof. vm_compute. reflexivity. Qed.

(** COUNT 0 finds one match and not all of them. *)
Lemma lpos_count_zero : lpos_positions (mkLposOptions 1 (Some 0%Z) 0) (bstr "a") [bstr "a"; bstr "b"; bstr "a"] = [0].
Proof. vm_compute. reflexivity. Qed.
End Witness.
