(* ===== verification/ZSetCommands.v ===== *)
(** * ZSetCommands: the handlers of the sorted-set commands ([command/zset.rs])

    Scores are the patterns of [Doubles], added and multiplied by [DoubleArith];
    members are in the dual-encoded value of [ZSetData].  The handlers take the
    guard of the key's shard, change the value through a reference to its entry and
    adjust the byte counter by the member bytes that came and went.  Waking blocked
    clients is not part of the state. *)

From S2P Require Import Prelude Text Doubles DoubleArith Glob Types Keyspace Shards Resp CommandArgs ScanSelect HashCommands SetCommands.
From S2P Require SetData ZSetData.

Import ShardedDatabase.

Record ZaddOptions := mkZaddOptions {
  zadd_nx : bool; zadd_xx : bool; zadd_gt : bool; zadd_lt : bool; zadd_ch : bool; zadd_incr : bool;
}.

Inductive ZRangeKind := Rank | Score | Lex.

#[export] Instance ZRangeKind_eq_dec : EqDecision ZRangeKind.
Proof. solve_decision. Defined.

Record ZRangeOptions := mkZRangeOptions {
  withscores : bool; rev_ : bool; kind : option ZRangeKind; offset : nat; limit : option nat;
}.

Inductive Aggregate := Sum | Min | Max.

Section ZSetCommands.
Context `{SetData.IndexSet} `{HashOrder} `{UnicodeCase} `{OrderedFloat} `{F64Format} (thr : ZSetData.ZSetThresholds).

Definition get_or_create_zset (now : Z) (key : bytes) (d : Database.t) : Result ZSetData.ZSetData * Entry.t * Database.t :=
  let '(entry, d) := Database.get_or_insert_with now key (Entry.new (TZSet ZSetData.new)) d in
  (match Entry.value entry with TZSet z => inr z | _ => inl WrongType end, entry, d).

Definition put_zset (key : bytes) (e : Entry.t) (z : ZSetData.ZSetData) (d : Database.t) : Database.t :=
  Database.write_back key (Entry.set_value (TZSet z) e) d.

(** ** Bounds *)

Definition strip_prefix (c : string) (s : bytes) : option bytes :=
  if starts_with (bstr c) s then Some (drop (length (bstr c)) s) else None.

Definition parse_score_bound (s : bytes) : Result (f64 * bool) :=
  let '(body, excl) :=
    match strip_prefix "(" s with
    | Some rest => (rest, true)
    | None => (default s (strip_prefix "[" s), false)
    end in
  let! v :=
    (if bool_decide (body = bstr "+inf") || bool_decide (body = bstr "+INF") then inr F64_INF
     else if bool_decide (body = bstr "-inf") || bool_decide (body = bstr "-INF") then inr (2 ^ 63 + F64_INF)%Z
     else ok_or (f64_parse body) NotFloat) in
  if is_nan v then inl NotFloat else inr (v, excl).

Definition strip_exclusive (s : bytes) : bytes :=
  match strip_prefix "(" s with
  | Some rest => rest
  | None => default s (strip_prefix "[" s)
  end.

Definition lex_bound (unbounded : string) (strip : bytes -> bytes) (s : bytes) : option bytes :=
  if bool_decide (s = bstr unbounded) then None else Some (strip s).

(** The bounds with their exclusion flags. *)
Definition parse_lex_bounds (min_s max_s : bytes) : option bytes * bool * option bytes * bool :=
  (lex_bound "-" strip_exclusive min_s, starts_with (bstr "(") min_s,
   lex_bound "+" strip_exclusive max_s, starts_with (bstr "(") max_s).

(** [trim_start_matches(['[', '('])]: any number of markers. *)
Fixpoint trim_markers (s : bytes) : bytes :=
  match s with
  | b :: s' => if bool_decide (b = byte_of 91 \/ b = byte_of 40) then trim_markers s' else s
  | [] => []
  end.

(** ** ZADD *)

(** The option words; the rest is what stopped the loop. *)
Fixpoint zadd_options (rest : list Resp) (o : ZaddOptions) : Result (ZaddOptions * list Resp) :=
  match rest with
  | [] => inr (o, [])
  | a :: rest' =>
      let! opt := get_str [a] 0 "ZADD" in
      let opt := to_uppercase opt in
      let '(mkZaddOptions nx xx gt lt ch incr) := o in
      if bool_decide (opt = bstr "NX") then zadd_options rest' (mkZaddOptions true xx gt lt ch incr)
      else if bool_decide (opt = bstr "XX") then zadd_options rest' (mkZaddOptions nx true gt lt ch incr)
      else if bool_decide (opt = bstr "GT") then zadd_options rest' (mkZaddOptions nx xx true lt ch incr)
      else if bool_decide (opt = bstr "LT") then zadd_options rest' (mkZaddOptions nx xx gt true ch incr)
      else if bool_decide (opt = bstr "CH") then zadd_options rest' (mkZaddOptions nx xx gt lt true incr)
      else if bool_decide (opt = bstr "INCR") then zadd_options rest' (mkZaddOptions nx xx gt lt ch true)
      else inr (o, rest)
  end.

Definition zadd_check (o : ZaddOptions) (rest : list Resp) : Result () :=
  if zadd_nx o && (zadd_gt o || zadd_lt o || zadd_incr o) then inl SyntaxError
  else if zadd_gt o && zadd_lt o then inl SyntaxError
  else if zadd_incr o then
    if bool_decide (length rest <> 2) then inl (Generic (bstr "INCR option supports a single increment-element pair"))
    else inr ()
  else if bool_decide (length rest <= 1) || negb (Nat.even (length rest)) then inl (WrongArity (bstr "zadd"))
  else inr ().

(** Whether NX, XX, GT or LT keep the pair out, given the score in the set. *)
Definition zadd_skips (o : ZaddOptions) (score : f64) (existing : option f64) : bool :=
  zadd_nx o && bool_decide (is_Some existing) ||
  zadd_xx o && bool_decide (existing = None) ||
  match existing with
  | Some old => zadd_gt o && f64_leb score old || zadd_lt o && f64_leb old score
  | None => false
  end.

Definition need_existing (o : ZaddOptions) : bool :=
  zadd_nx o || zadd_xx o || zadd_gt o || zadd_lt o || zadd_ch o.

Record Tally := mkTally { added : Z; changed : Z; payload_delta : Z }.

(** One pair of the loop. *)
Definition zadd_pair (o : ZaddOptions) (score : f64) (member : bytes) (st : Tally) (z : ZSetData.ZSetData) :
    may_panic (Tally * ZSetData.ZSetData) :=
  let mlen := Z.of_nat (length member) in
  if need_existing o then
    let existing := ZSetData.score z member in
    if zadd_skips o score existing then Some (st, z)
    else
      '(is_new, z) ← ZSetData.insert thr z member score;
      Some (if is_new : bool then mkTally (added st + 1) (changed st) (payload_delta st + mlen)
            else if match existing with Some old => negb (f64_eqb old score) | None => false end
            then mkTally (added st) (changed st + 1) (payload_delta st) else st, z)
  else
    '(is_new, z) ← ZSetData.insert thr z member score;
    Some (if is_new : bool then mkTally (added st + 1) (changed st) (payload_delta st + mlen) else st, z).

(** An error leaves the pairs before it in the set. *)
Fixpoint zadd_loop (o : ZaddOptions) (rest : list Resp) (st : Tally) (z : ZSetData.ZSetData) :
    may_panic (Result Tally * ZSetData.ZSetData) :=
  match rest with
  | a :: b :: rest =>
      match (let! w := get_str [a] 0 "ZADD" in
             let! (score, _) := parse_score_bound w in
             let! member := get_bytes_vec [b] 0 "ZADD" in inr (score, member)) with
      | inl e => Some (inl e, z)
      | inr (score, member) => '(st, z) ← zadd_pair o score member st z; zadd_loop o rest st z
      end
  | _ => Some (inr st, z)
  end.

(** A new score for a member: ZINCRBY and ZADD INCR. *)
Definition bump (member : bytes) (delta : f64) (z : ZSetData.ZSetData) : may_panic (f64 * Z * ZSetData.ZSetData) :=
  let old := default ZERO (ZSetData.score z member) in
  let new_score := f64_add old delta in
  '(is_new, z) ← ZSetData.insert thr z member new_score;
  Some (new_score, if is_new : bool then Z.of_nat (length member) else 0%Z, z).

Definition bump_body (key : bytes) (member : bytes) (delta : f64) (z : ZSetData.ZSetData) (e : Entry.t) (d : Database.t) :
    may_panic (Result Resp * Database.t) :=
  '(new_score, payload, z) ← bump member delta z;
  Some (inr (bulk_str (format_float new_score)), Database.adjust_live_bytes payload (put_zset key e z d)).

Definition zadd_body (now : Z) (key : bytes) (o : ZaddOptions) (rest : list Resp) (d : Database.t) :
    may_panic (Result Resp * Database.t) :=
  let '(stop, d) :=
    (if zadd_xx o then let '(found, d) := Database.get now key d in (bool_decide (found = None), d) else (false, d)) in
  if stop : bool then Some (inr (if zadd_incr o then null else int 0), d)
  else
    let '(r, e, d) := get_or_create_zset now key d in
    let? z := r at d in
    if zadd_incr o then
      let? w := get_str rest 0 "ZADD" at d in
      let? (delta, _) := parse_score_bound w at d in
      let? member := get_bytes_vec rest 1 "ZADD" at d in
      bump_body key member delta z e d
    else
      '(r, z) ← zadd_loop o rest (mkTally 0 0 0) z;
      let d := put_zset key e z d in
      let? st := r at d in
      Some (inr (int (if zadd_ch o then added st + changed st else added st)),
            Database.adjust_live_bytes (payload_delta st) d).

Definition cmd_zadd (now : Z) (args : list Resp) (s : t) : may_panic (Result Resp * t) :=
  if bool_decide (length args < 4) then Some (inl (WrongArity (bstr "zadd")), s)
  else
    let? key := get_bytes_vec args 1 "ZADD" at s in
    let? (o, rest) := zadd_options (drop 2 args) (mkZaddOptions false false false false false false) at s in
    let? _ := zadd_check o rest at s in
    on_shard (shard_idx s key) (zadd_body now key o rest) s.

Definition zincrby_body (now : Z) (key member : bytes) (delta : f64) (d : Database.t) : may_panic (Result Resp * Database.t) :=
  let '(r, e, d) := get_or_create_zset now key d in
  let? z := r at d in
  bump_body key member delta z e d.

Definition cmd_zincrby (now : Z) (args : list Resp) (s : t) : may_panic (Result Resp * t) :=
  if bool_decide (length args <> 4) then Some (inl (WrongArity (bstr "zincrby")), s)
  else
    let? key := get_bytes_vec args 1 "ZINCRBY" at s in
    let? w := get_str args 2 "ZINCRBY" at s in
    let? (delta, _) := parse_score_bound w at s in
    let? member := get_bytes_vec args 3 "ZINCRBY" at s in
    on_shard (shard_idx s key) (zincrby_body now key member delta) s.

(** ** Reads of one key *)

Definition read_zset (now : Z) (key : bytes) (none : Resp) (f : ZSetData.ZSetData -> may_panic (Result Resp)) (s : t) :
    may_panic (Result Resp * t) :=
  found ← read_for key (Database.get_ro now key) s;
  match found with
  | None => Some (inr none, s)
  | Some e =>
      match Entry.value e with
      | TZSet z => r ← f z; Some (r, s)
      | _ => Some (inl WrongType, s)
      end
  end.

Definition cmd_zcard (now : Z) (args : list Resp) (s : t) : may_panic (Result Resp * t) :=
  if bool_decide (length args <> 2) then Some (inl (WrongArity (bstr "zcard")), s)
  else
    let? key := get_bytes_vec args 1 "ZCARD" at s in
    read_zset now key (int 0) (fun z => Some (inr (int (Z.of_nat (ZSetData.len z))))) s.

Definition score_reply (o : option f64) : Resp := match o with Some sc => bulk_str (format_float sc) | None => null end.

Definition cmd_zscore (now : Z) (args : list Resp) (s : t) : may_panic (Result Resp * t) :=
  if bool_decide (length args <> 3) then Some (inl (WrongArity (bstr "zscore")), s)
  else
    let? key := get_bytes_vec args 1 "ZSCORE" at s in
    let? member := get_bytes_vec args 2 "ZSCORE" at s in
    read_zset now key null (fun z => Some (inr (score_reply (ZSetData.score z member)))) s.

(** Nothing is an error here: a bad member or another type reads as a null. *)
Definition cmd_zmscore (now : Z) (args : list Resp) (s : t) : may_panic (Result Resp * t) :=
  if bool_decide (length args < 3) then Some (inl (WrongArity (bstr "zmscore")), s)
  else
    let? key := get_bytes_vec args 1 "ZMSCORE" at s in
    found ← read_for key (Database.get_ro now key) s;
    Some (inr (array (map (fun a =>
      match get_bytes_vec [a] 0 "ZMSCORE", found with
      | inr member, Some e => match Entry.value e with TZSet z => score_reply (ZSetData.score z member) | _ => null end
      | _, _ => null
      end) (drop 2 args))), s).

Definition rank (now : Z) (rev : bool) (cmd : string) (args : list Resp) (s : t) : may_panic (Result Resp * t) :=
  if bool_decide (length args < 3) then Some (inl (WrongArity (bstr cmd)), s)
  else
    let? key := get_bytes_vec args 1 cmd at s in
    let? member := get_bytes_vec args 2 cmd at s in
    read_zset now key null (fun z =>
      r ← ZSetData.rank z member rev;
      Some (inr (match r with Some n => int (Z.of_nat n) | None => null end))) s.

Definition cmd_zrank (now : Z) := rank now false "ZRANK".
Definition cmd_zrevrank (now : Z) := rank now true "ZREVRANK".

(** ** Ranges *)

Definition format_zrange_result (entries : list (bytes * f64)) (with_scores : bool) : list Resp :=
  concat (map (fun p : bytes * f64 => bulk p.1 :: if with_scores then [bulk_str (format_float p.2)] else []) entries).

(** The two numbers after LIMIT. *)
Definition limit_words (rest : list Resp) (cmd : string) : Result (nat * nat) :=
  let! off := get_i64 rest 0 cmd in
  let! cnt := get_i64 rest 1 cmd in
  if bool_decide (off < 0)%Z || bool_decide (cnt < 0)%Z then inl (Generic (bstr "LIMIT can't be negative"))
  else inr (Z.to_nat off, Z.to_nat cnt).

(** The option words of ZRANGE; [by_] admits REV, BYSCORE and BYLEX. *)
Fixpoint zrange_options (fuel : nat) (by_ : bool) (cmd : string) (rest : list Resp) (o : ZRangeOptions) : Result ZRangeOptions :=
  match fuel, rest with
  | S fuel, a :: rest =>
      let! opt := get_str [a] 0 cmd in
      let opt := to_uppercase opt in
      let '(mkZRangeOptions ws rv kd off lim) := o in
      if bool_decide (opt = bstr "WITHSCORES") then zrange_options fuel by_ cmd rest (mkZRangeOptions true rv kd off lim)
      else if by_ && bool_decide (opt = bstr "REV") then zrange_options fuel by_ cmd rest (mkZRangeOptions ws true kd off lim)
      else if by_ && bool_decide (opt = bstr "BYSCORE") then zrange_options fuel by_ cmd rest (mkZRangeOptions ws rv (Some Score) off lim)
      else if by_ && bool_decide (opt = bstr "BYLEX") then zrange_options fuel by_ cmd rest (mkZRangeOptions ws rv (Some Lex) off lim)
      else if bool_decide (opt = bstr "LIMIT") then
        let! (off, cnt) := limit_words rest cmd in
        zrange_options fuel by_ cmd (drop 2 rest) (mkZRangeOptions ws rv kd off (Some cnt))
      else inl SyntaxError
  | _, _ => inr o
  end.

Definition no_options : ZRangeOptions := mkZRangeOptions false false None 0 None.

(** How the bounds are read. *)
Definition range_kind (o : ZRangeOptions) (first second : bytes) : ZRangeKind :=
  match kind o with
  | Some k => k
  | None =>
      if bool_decide (first = bstr "+") || bool_decide (first = bstr "-") || bool_decide (second = bstr "+") || bool_decide (second = bstr "-")
      then if bool_decide (is_Some (f64_parse (strip_exclusive first))) && bool_decide (is_Some (f64_parse (strip_exclusive second)))
           then Score else Lex
      else Rank
  end.

Definition page {A} (o : ZRangeOptions) (l : list A) : list A :=
  let l := drop (offset o) l in match limit o with Some n => take n l | None => l end.

(** The members by name: the score is pushed before its member. *)
Definition lex_items (z : ZSetData.ZSetData) (o : ZRangeOptions) (first second : bytes) : list Resp :=
  let '(min_b, min_excl, max_b, max_excl) := parse_lex_bounds first second in
  let members := ZSetData.range_by_lex_members z min_b min_excl max_b max_excl in
  let members := if rev_ o then reverse members else members in
  concat (map (fun m => (if withscores o then [bulk_str (format_float (default ZERO (ZSetData.score z m)))] else []) ++ [bulk m])
           (page o members)).

Definition zrange_items (z : ZSetData.ZSetData) (o : ZRangeOptions) (first second : bytes) : may_panic (Result (list Resp)) :=
  match range_kind o first second with
  | Rank =>
      match parse_i64 first, parse_i64 second with
      | Some start, Some stop =>
          l ← ZSetData.range_by_rank z start stop (rev_ o); Some (inr (format_zrange_result l (withscores o)))
      | _, _ => Some (inl NotInteger)
      end
  | Score =>
      Some (let! (min, min_excl) := parse_score_bound first in
            let! (max, max_excl) := parse_score_bound second in
            inr (format_zrange_result (ZSetData.range_by_score z min min_excl max max_excl (rev_ o) (offset o) (limit o)) (withscores o)))
  | Lex => Some (inr (lex_items z o first second))
  end.

Definition cmd_zrange (now : Z) (args : list Resp) (s : t) : may_panic (Result Resp * t) :=
  if bool_decide (length args < 4) then Some (inl (WrongArity (bstr "zrange")), s)
  else
    let? key := get_bytes_vec args 1 "ZRANGE" at s in
    let? first := get_str args 2 "ZRANGE" at s in
    let? second := get_str args 3 "ZRANGE" at s in
    let? o := zrange_options (length args) true "ZRANGE" (drop 4 args) no_options at s in
    if bool_decide (range_kind o first second = Rank) && bool_decide (is_Some (limit o)) then
      Some (inl (Generic (bstr "syntax error, LIMIT is only supported in combination with either BYSCORE or BYLEX")), s)
    else
      read_zset now key (array []) (fun z => r ← zrange_items z o first second; Some (let! out := r in inr (array out))) s.

Definition has_withscores (args : list Resp) (i : nat) : bool :=
  match args !! i ≫= as_str with Some w => eq_ignore_ascii_case w (bstr "WITHSCORES") | None => false end.

Definition cmd_zrevrange (now : Z) (args : list Resp) (s : t) : may_panic (Result Resp * t) :=
  if bool_decide (length args < 4) then Some (inl (WrongArity (bstr "zrevrange")), s)
  else
    let? key := get_bytes_vec args 1 "ZREVRANGE" at s in
    let? start := get_i64 args 2 "ZREVRANGE" at s in
    let? stop := get_i64 args 3 "ZREVRANGE" at s in
    read_zset now key (array []) (fun z =>
      l ← ZSetData.range_by_rank z start stop true; Some (inr (array (format_zrange_result l (has_withscores args 4))))) s.

Definition range_by_score (now : Z) (rev : bool) (cmd : string) (args : list Resp) (s : t) : may_panic (Result Resp * t) :=
  if bool_decide (length args < 4) then Some (inl (WrongArity (bstr cmd)), s)
  else
    let? key := get_bytes_vec args 1 cmd at s in
    let? min_str := get_str args (if rev then 3 else 2) cmd at s in
    let? max_str := get_str args (if rev then 2 else 3) cmd at s in
    let? (min, min_excl) := parse_score_bound min_str at s in
    let? (max, max_excl) := parse_score_bound max_str at s in
    let? o := zrange_options (length args) false cmd (drop 4 args) no_options at s in
    read_zset now key (array []) (fun z =>
      Some (inr (array (format_zrange_result
        (ZSetData.range_by_score z min min_excl max max_excl rev (offset o) (limit o)) (withscores o))))) s.

Definition cmd_zrangebyscore (now : Z) := range_by_score now false "ZRANGEBYSCORE".
Definition cmd_zrevrangebyscore (now : Z) := range_by_score now true "ZREVRANGEBYSCORE".

Definition cmd_zrangebylex (now : Z) (args : list Resp) (s : t) : may_panic (Result Resp * t) :=
  if bool_decide (length args < 4) then Some (inl (WrongArity (bstr "zrangebylex")), s)
  else
    let? key := get_bytes_vec args 1 "ZRANGEBYLEX" at s in
    let? min_s := get_str args 2 "ZRANGEBYLEX" at s in
    let? max_s := get_str args 3 "ZRANGEBYLEX" at s in
    let '(min_b, min_excl, max_b, max_excl) := parse_lex_bounds min_s max_s in
    read_zset now key (array []) (fun z =>
      Some (inr (array (map bulk (ZSetData.range_by_lex_members z min_b min_excl max_b max_excl))))) s.

Definition cmd_zcount (now : Z) (args : list Resp) (s : t) : may_panic (Result Resp * t) :=
  if bool_decide (length args <> 4) then Some (inl (WrongArity (bstr "zcount")), s)
  else
    let? key := get_bytes_vec args 1 "ZCOUNT" at s in
    let? min_s := get_str args 2 "ZCOUNT" at s in
    let? (min, min_excl) := parse_score_bound min_s at s in
    let? max_s := get_str args 3 "ZCOUNT" at s in
    let? (max, max_excl) := parse_score_bound max_s at s in
    read_zset now key (int 0) (fun z =>
      Some (inr (int (Z.of_nat (length (ZSetData.range_by_score z min min_excl max max_excl false 0 None)))))) s.

Definition cmd_zlexcount (now : Z) (args : list Resp) (s : t) : may_panic (Result Resp * t) :=
  if bool_decide (length args <> 4) then Some (inl (WrongArity (bstr "zlexcount")), s)
  else
    let? key := get_bytes_vec args 1 "ZLEXCOUNT" at s in
    let? min_s := get_str args 2 "ZLEXCOUNT" at s in
    let? max_s := get_str args 3 "ZLEXCOUNT" at s in
    read_zset now key (int 0) (fun z =>
      Some (inr (int (Z.of_nat (length (ZSetData.range_by_lex_members z
        (lex_bound "-" trim_markers min_s) (starts_with (bstr "(") min_s)
        (lex_bound "+" trim_markers max_s) (starts_with (bstr "(") max_s))))))) s.

(** ** Members taken out *)

(** A member that cannot be read is skipped. *)
Fixpoint zrem_loop (members : list Resp) (removed delta : Z) (z : ZSetData.ZSetData) : may_panic (Z * Z * ZSetData.ZSetData) :=
  match members with
  | [] => Some (removed, delta, z)
  | a :: members =>
      match get_bytes_vec [a] 0 "ZREM" with
      | inl _ => zrem_loop members removed delta z
      | inr m =>
          '(r, z) ← ZSetData.remove thr z m;
          match r with
          | Some _ => zrem_loop members (removed + 1)%Z (delta - Z.of_nat (length m))%Z z
          | None => zrem_loop members removed delta z
          end
      end
  end.

(** The members of a range, removed one by one. *)
Fixpoint remove_all (members : list bytes) (delta : Z) (z : ZSetData.ZSetData) : may_panic (Z * ZSetData.ZSetData) :=
  match members with
  | [] => Some (delta, z)
  | m :: members => '(_, z) ← ZSetData.remove thr z m; remove_all members (delta - Z.of_nat (length m))%Z z
  end.

(** The frame of the handlers that take members out of the set of a key. *)
Definition take_body (now : Z) (key : bytes) (none : Resp)
    (f : ZSetData.ZSetData -> may_panic (Resp * Z * ZSetData.ZSetData)) (d : Database.t) : may_panic (Result Resp * Database.t) :=
  match Database.get_mut now key d with
  | (None, d) => Some (settle key (inr none) 0 false d)
  | (Some e, d) =>
      match Entry.value e with
      | TZSet z =>
          '(r, delta, z) ← f z;
          Some (settle key (inr r) delta (ZSetData.is_empty z) (put_zset key e z d))
      | _ => Some (settle key (inl WrongType) 0 false d)
      end
  end.

Definition cmd_zrem (now : Z) (args : list Resp) (s : t) : may_panic (Result Resp * t) :=
  if bool_decide (length args < 3) then Some (inl (WrongArity (bstr "zrem")), s)
  else
    let? key := get_bytes_vec args 1 "ZREM" at s in
    on_shard (shard_idx s key) (take_body now key (int 0) (fun z =>
      '(removed, delta, z) ← zrem_loop (drop 2 args) 0 0 z; Some (int removed, delta, z))) s.

Definition remove_range (members : list bytes) (z : ZSetData.ZSetData) : may_panic (Resp * Z * ZSetData.ZSetData) :=
  '(delta, z) ← remove_all members 0 z; Some (int (Z.of_nat (length members)), delta, z).

Definition cmd_zremrangebyrank (now : Z) (args : list Resp) (s : t) : may_panic (Result Resp * t) :=
  if bool_decide (length args <> 4) then Some (inl (WrongArity (bstr "zremrangebyrank")), s)
  else
    let? key := get_bytes_vec args 1 "ZREMRANGEBYRANK" at s in
    let? start := get_i64 args 2 "ZREMRANGEBYRANK" at s in
    let? stop := get_i64 args 3 "ZREMRANGEBYRANK" at s in
    on_shard (shard_idx s key) (take_body now key (int 0) (fun z =>
      l ← ZSetData.range_by_rank z start stop false; remove_range l.*1 z)) s.

Definition cmd_zremrangebyscore (now : Z) (args : list Resp) (s : t) : may_panic (Result Resp * t) :=
  if bool_decide (length args <> 4) then Some (inl (WrongArity (bstr "zremrangebyscore")), s)
  else
    let? key := get_bytes_vec args 1 "ZREMRANGEBYSCORE" at s in
    let? min_s := get_str args 2 "ZREMRANGEBYSCORE" at s in
    let? (min, min_excl) := parse_score_bound min_s at s in
    let? max_s := get_str args 3 "ZREMRANGEBYSCORE" at s in
    let? (max, max_excl) := parse_score_bound max_s at s in
    on_shard (shard_idx s key) (take_body now key (int 0) (fun z =>
      remove_range (ZSetData.range_by_score z min min_excl max max_excl false 0 None).*1 z)) s.

Fixpoint zpop_loop (max : bool) (n : nat) (delta : Z) (popped : list (f64 * bytes)) (z : ZSetData.ZSetData) :
    may_panic (list (f64 * bytes) * Z * ZSetData.ZSetData) :=
  match n with
  | 0 => Some (popped, delta, z)
  | S n =>
      '(r, z) ← ZSetData.pop_extreme thr z max;
      match r with
      | None => Some (popped, delta, z)
      | Some p => zpop_loop max n (delta - Z.of_nat (length p.2))%Z (popped ++ [p]) z
      end
  end.

(** A pass over an empty set ends the loop, so no more passes than members matter. *)
Definition zpop_members (max : bool) (count : Z) (z : ZSetData.ZSetData) : may_panic (list (f64 * bytes) * Z * ZSetData.ZSetData) :=
  zpop_loop max (Z.to_nat (Z.min count (Z.of_nat (ZSetData.len z)))) 0 [] z.

Definition popped_flat (l : list (f64 * bytes)) : list Resp :=
  concat (map (fun p : f64 * bytes => [bulk p.2; bulk_str (format_float p.1)]) l).

Definition zpop_count (args : list Resp) (cmd : string) : Result Z :=
  if bool_decide (3 <= length args) then
    let! n := get_i64 args 2 cmd in
    if bool_decide (n < 0)%Z then inl (Generic (bstr "value is not an integer or out of range")) else inr n
  else inr 1%Z.

Definition zpop (now : Z) (max : bool) (cmd : string) (args : list Resp) (s : t) : may_panic (Result Resp * t) :=
  if bool_decide (length args < 2) then Some (inl (WrongArity (bstr cmd)), s)
  else
    let? key := get_bytes_vec args 1 cmd at s in
    let? count := zpop_count args cmd at s in
    on_shard (shard_idx s key) (take_body now key (array []) (fun z =>
      '(l, delta, z) ← zpop_members max count z; Some (array (popped_flat l), delta, z))) s.

Definition cmd_zpopmin (now : Z) := zpop now false "ZPOPMIN".
Definition cmd_zpopmax (now : Z) := zpop now true "ZPOPMAX".

(** ** Random members *)

(** The count and WITHSCORES. *)
Definition zrand_options (args : list Resp) : Result (option Z * bool) :=
  let! (count, rest) :=
    (match args with
     | _ :: _ :: (a :: rest) as tl =>
         match get_str [a] 0 "ZRANDMEMBER" with
         | inl _ => inr (None, a :: rest)
         | inr w =>
             if eq_ignore_ascii_case w (bstr "WITHSCORES") then inl SyntaxError
             else match parse_i64 w with Some n => inr (Some n, rest) | None => inl NotInteger end
         end
     | _ => inr (None, [])
     end) in
  match rest with
  | [] => inr (count, false)
  | a :: rest =>
      let! w := get_str [a] 0 "ZRANDMEMBER" in
      if eq_ignore_ascii_case w (bstr "WITHSCORES") then
        if bool_decide (rest = []) then inr (count, true) else inl SyntaxError
      else inl SyntaxError
  end.

Definition rand_pair (nanos : Z) (pairs : list (bytes * f64)) : may_panic (bytes * f64) :=
  pairs !! pseudo_rand_idx nanos (length pairs).

(** [nanos] are the clock readings of the successive draws. *)
Definition zrand_reply (nanos : nat -> Z) (count : option Z) (ws : bool) (pairs : list (bytes * f64)) : may_panic Resp :=
  if bool_decide (pairs = []) then Some (match count with Some _ => array [] | None => null end)
  else
    match count with
    | None => p ← rand_pair (nanos 0) pairs; Some (if ws then array [bulk p.1; bulk_str (format_float p.2)] else bulk p.1)
    | Some n =>
        if bool_decide (n < 0)%Z then
          l ← mapM (fun i => rand_pair (nanos i) pairs) (seq 0 (Z.to_nat (- n) `min` MAX_RANDOM_SAMPLE));
          Some (array (format_zrange_result l ws))
        else Some (array (format_zrange_result (take (Z.to_nat n) pairs) ws))
    end.

Definition cmd_zrandmember (now : Z) (nanos : nat -> Z) (args : list Resp) (s : t) : may_panic (Result Resp * t) :=
  if bool_decide (length args < 2) then Some (inl (WrongArity (bstr "zrandmember")), s)
  else
    let? key := get_bytes_vec args 1 "ZRANDMEMBER" at s in
    let? (count, ws) := zrand_options args at s in
    read_zset now key (match count with Some _ => array [] | None => null end)
      (fun z => r ← zrand_reply nanos count ws (ZSetData.to_pairs z); Some (inr r)) s.

Definition cmd_zscan (now : Z) (args : list Resp) (s : t) : may_panic (Result Resp * t) :=
  if bool_decide (length args < 3) then Some (inl (WrongArity (bstr "zscan")), s)
  else
    let? key := get_bytes_vec args 1 "ZSCAN" at s in
    let cursor := match get_str args 2 "ZSCAN" with inr w => decode_scan_cursor w | inl _ => None end in
    let? o := hscan_options "ZSCAN" (drop 3 args) (mkHscanOptions None 10) at s in
    read_zset now key (array [bulk_str (bstr "0"); array []]) (fun z =>
      let pat := default (bstr "*") (pattern o) in
      page ← scan_select_page fst (filter (fun p : bytes * f64 => glob_match pat p.1) (ZSetData.to_pairs z)) cursor (Z.to_nat (count o));
      Some (inr (array [bulk_str (dec (next_cursor page));
                        array (concat (map (fun p : bytes * f64 => [bulk p.1; bulk_str (format_float p.2)]) (items page)))]))) s.

(** ** Several keys *)

Definition parse_numkeys_for_set_op (args : list Resp) (idx : nat) (cmd : string) : Result Z :=
  let! n := get_i64 args idx cmd in
  if bool_decide (n <= 0)%Z then inl (Generic (bstr "ERR at least 1 input key is needed for " ++ bstr cmd)) else inr n.

(** The keys from an index on: one that is missing or no string is an error. *)
Definition keys_at (args : list Resp) (start : nat) (n : Z) (cmd : string) : Result (list bytes) :=
  let! ks := all_bytes (take (Z.to_nat (Z.min n (Z.of_nat (length args)))) (drop start args)) cmd in
  if bool_decide (Z.of_nat (length ks) < n)%Z then inl (wrong_arity cmd) else inr ks.

Fixpoint weight_words (n : nat) (rest : list Resp) (cmd : string) : Result (list f64 * list Resp) :=
  match n with
  | 0 => inr ([], rest)
  | S n =>
      let! w := get_str rest 0 cmd in
      let! (v, _) := parse_score_bound w in
      let! (vs, rest) := weight_words n (drop 1 rest) cmd in inr (v :: vs, rest)
  end.

Definition aggregate_word (w : bytes) : Result Aggregate :=
  if bool_decide (w = bstr "SUM") then inr Sum
  else if bool_decide (w = bstr "MIN") then inr Min
  else if bool_decide (w = bstr "MAX") then inr Max
  else inl SyntaxError.

(** WEIGHTS, AGGREGATE and, when [scores] admits it, WITHSCORES. *)
Fixpoint weights_loop (fuel : nat) (scores : bool) (rest : list Resp) (weights : list f64) (agg : Aggregate) (ws : bool)
    (cmd : string) : Result (list f64 * Aggregate * bool) :=
  match fuel, rest with
  | S fuel, a :: rest =>
      let! opt := get_str [a] 0 cmd in
      let opt := to_uppercase opt in
      if bool_decide (opt = bstr "WEIGHTS") then
        let! (weights, rest) := weight_words (length weights) rest cmd in weights_loop fuel scores rest weights agg ws cmd
      else if bool_decide (opt = bstr "AGGREGATE") then
        let! w := get_str rest 0 cmd in
        let! agg := aggregate_word (to_uppercase w) in weights_loop fuel scores (drop 1 rest) weights agg ws cmd
      else if scores && bool_decide (opt = bstr "WITHSCORES") then weights_loop fuel scores rest weights agg true cmd
      else inl SyntaxError
  | _, _ => inr (weights, agg, ws)
  end.

Definition parse_weights_agg_withscores (args : list Resp) (start num_keys : nat) (cmd : string) : Result (list f64 * Aggregate * bool) :=
  weights_loop (length args) true (drop start args) (replicate num_keys ONE) Sum false cmd.

Definition parse_aggregate_weights (args : list Resp) (start num_keys : nat) (cmd : string) : Result (list f64 * Aggregate) :=
  let! (weights, agg, _) := weights_loop (length args) false (drop start args) (replicate num_keys ONE) Sum false cmd in
  inr (weights, agg).

Definition zset_to_array (z : ZSetData.ZSetData) (ws : bool) : Resp := array (format_zrange_result (ZSetData.to_pairs_sorted z) ws).

Definition apply_aggregate (agg : Aggregate) (existing : option f64) (new : f64) : f64 :=
  match agg, existing with
  | _, None => new
  | Sum, Some e => f64_add e new
  | Min, Some e => f64_min e new
  | Max, Some e => f64_max e new
  end.

Fixpoint insert_pairs (f : option f64 -> f64 -> f64) (pairs : list (bytes * f64)) (result : ZSetData.ZSetData) : may_panic ZSetData.ZSetData :=
  match pairs with
  | [] => Some result
  | (member, score) :: pairs =>
      '(_, result) ← ZSetData.insert thr result member (f (ZSetData.score result member) score);
      insert_pairs f pairs result
  end.

(** Keys that hold another type are passed over. *)
Fixpoint compute_zunion_result (now : Z) (keys : list bytes) (weights : list f64) (agg : Aggregate) (result : ZSetData.ZSetData) (s : t) :
    may_panic (ZSetData.ZSetData * t) :=
  match keys with
  | [] => Some (result, s)
  | key :: keys =>
      '(found, s) ← fetch now key s;
      match found with
      | Some e =>
          match Entry.value e with
          | TZSet z =>
              let weight := default ONE (head weights) in
              result ← insert_pairs (fun old score => apply_aggregate agg old (f64_mul score weight)) (ZSetData.to_pairs z) result;
              compute_zunion_result now keys (drop 1 weights) agg result s
          | _ => compute_zunion_result now keys (drop 1 weights) agg result s
          end
      | None => compute_zunion_result now keys (drop 1 weights) agg result s
      end
  end.

(** The sets of the keys; [None] when a key is missing, which ends the loop. *)
Fixpoint fetch_zsets (now : Z) (keys : list bytes) (s : t) : may_panic (Result (option (list ZSetData.ZSetData)) * t) :=
  match keys with
  | [] => Some (inr (Some []), s)
  | key :: keys =>
      '(found, s) ← fetch now key s;
      match found with
      | None => Some (inr None, s)
      | Some e =>
          match Entry.value e with
          | TZSet z =>
              '(r, s) ← fetch_zsets now keys s;
              Some (let! sets := r in inr (option_map (cons z) sets), s)
          | _ => Some (inl WrongType, s)
          end
      end
  end.

(** The score of a member of the first set in all of them. *)
Fixpoint inter_score (member : bytes) (agg : Aggregate) (others : list ZSetData.ZSetData) (weights : list f64) (acc : f64) : option f64 :=
  match others with
  | [] => Some acc
  | z :: others =>
      sc ← ZSetData.score z member;
      inter_score member agg others (drop 1 weights) (apply_aggregate agg (Some acc) (f64_mul sc (default ONE (head weights))))
  end.

Fixpoint inter_loop (pairs : list (bytes * f64)) (others : list ZSetData.ZSetData) (weights : list f64) (agg : Aggregate)
    (result : ZSetData.ZSetData) : may_panic ZSetData.ZSetData :=
  match pairs with
  | [] => Some result
  | (member, score) :: pairs =>
      match inter_score member agg others (drop 1 weights) (f64_mul score (default ONE (head weights))) with
      | Some acc => '(_, result) ← ZSetData.insert thr result member acc; inter_loop pairs others weights agg result
      | None => inter_loop pairs others weights agg result
      end
  end.

Definition compute_zinter_result (now : Z) (keys : list bytes) (weights : list f64) (agg : Aggregate) (s : t) :
    may_panic (Result ZSetData.ZSetData * t) :=
  '(r, s) ← fetch_zsets now keys s;
  let? found := r at s in
  match found with
  | Some (z :: others) =>
      result ← inter_loop (ZSetData.to_pairs z) others weights agg ZSetData.new; Some (inr result, s)
  | _ => Some (inr ZSetData.new, s)
  end.

Fixpoint drop_members (members : list bytes) (result : ZSetData.ZSetData) : may_panic ZSetData.ZSetData :=
  match members with
  | [] => Some result
  | m :: members => '(_, result) ← ZSetData.remove thr result m; drop_members members result
  end.

Fixpoint zdiff_loop (now : Z) (keys : list bytes) (result : ZSetData.ZSetData) (s : t) : may_panic (ZSetData.ZSetData * t) :=
  match keys with
  | [] => Some (result, s)
  | key :: keys =>
      '(found, s) ← fetch now key s;
      match found with
      | Some e =>
          match Entry.value e with
          | TZSet z => result ← drop_members (ZSetData.member_keys z) result; zdiff_loop now keys result s
          | _ => zdiff_loop now keys result s
          end
      | None => zdiff_loop now keys result s
      end
  end.

Definition compute_zdiff_result (now : Z) (keys : list bytes) (s : t) : may_panic (Result ZSetData.ZSetData * t) :=
  match keys with
  | [] => Some (inr ZSetData.new, s)
  | first :: keys =>
      '(found, s) ← fetch now first s;
      match found with
      | None => Some (inr ZSetData.new, s)
      | Some e =>
          match Entry.value e with
          | TZSet z => '(result, s) ← zdiff_loop now keys z s; Some (inr result, s)
          | _ => Some (inl WrongType, s)
          end
      end
  end.

(** The destination is replaced, by an empty set too. *)
Definition store_result (dst : bytes) (result : ZSetData.ZSetData) (s : t) : may_panic (Result Resp * t) :=
  '(_, s) ← on_shard (shard_idx s dst) (fun d => Some ((), Database.insert dst (Entry.new (TZSet result)) d)) s;
  Some (inr (int (Z.of_nat (ZSetData.len result))), s).

Definition cmd_zunionstore (now : Z) (args : list Resp) (s : t) : may_panic (Result Resp * t) :=
  if bool_decide (length args < 4) then Some (inl (WrongArity (bstr "zunionstore")), s)
  else
    let? dst := get_bytes_vec args 1 "ZUNIONSTORE" at s in
    let? num_keys := parse_numkeys_for_set_op args 2 "ZUNIONSTORE" at s in
    let? keys := keys_at args 3 num_keys "ZUNIONSTORE" at s in
    let? (weights, agg) := parse_aggregate_weights args (3 + length keys) (length keys) "ZUNIONSTORE" at s in
    '(result, s) ← compute_zunion_result now keys weights agg ZSetData.new s;
    store_result dst result s.

Definition cmd_zunion (now : Z) (args : list Resp) (s : t) : may_panic (Result Resp * t) :=
  if bool_decide (length args < 3) then Some (inl (WrongArity (bstr "zunion")), s)
  else
    let? num_keys := parse_numkeys_for_set_op args 1 "ZUNION" at s in
    let? keys := keys_at args 2 num_keys "ZUNION" at s in
    let? (weights, agg, ws) := parse_weights_agg_withscores args (2 + length keys) (length keys) "ZUNION" at s in
    '(result, s) ← compute_zunion_result now keys weights agg ZSetData.new s;
    Some (inr (zset_to_array result ws), s).

Definition cmd_zinterstore (now : Z) (args : list Resp) (s : t) : may_panic (Result Resp * t) :=
  if bool_decide (length args < 4) then Some (inl (WrongArity (bstr "zinterstore")), s)
  else
    let? dst := get_bytes_vec args 1 "ZINTERSTORE" at s in
    let? num_keys := parse_numkeys_for_set_op args 2 "ZINTERSTORE" at s in
    let? keys := keys_at args 3 num_keys "ZINTERSTORE" at s in
    let? (weights, agg) := parse_aggregate_weights args (3 + length keys) (length keys) "ZINTERSTORE" at s in
    '(r, s) ← compute_zinter_result now keys weights agg s;
    let? result := r at s in
    store_result dst result s.

Definition cmd_zinter (now : Z) (args : list Resp) (s : t) : may_panic (Result Resp * t) :=
  if bool_decide (length args < 3) then Some (inl (WrongArity (bstr "zinter")), s)
  else
    let? num_keys := parse_numkeys_for_set_op args 1 "ZINTER" at s in
    let? keys := keys_at args 2 num_keys "ZINTER" at s in
    let? (weights, agg, ws) := parse_weights_agg_withscores args (2 + length keys) (length keys) "ZINTER" at s in
    '(r, s) ← compute_zinter_result now keys weights agg s;
    let? result := r at s in
    Some (inr (zset_to_array result ws), s).

Definition cmd_zdiffstore (now : Z) (args : list Resp) (s : t) : may_panic (Result Resp * t) :=
  if bool_decide (length args < 4) then Some (inl (WrongArity (bstr "zdiffstore")), s)
  else
    let? dst := get_bytes_vec args 1 "ZDIFFSTORE" at s in
    let? num_keys := parse_numkeys_for_set_op args 2 "ZDIFFSTORE" at s in
    let? keys := keys_at args 3 num_keys "ZDIFFSTORE" at s in
    if bool_decide (length args <> 3 + length keys) then Some (inl (Generic (bstr "syntax error")), s)
    else
      '(r, s) ← compute_zdiff_result now keys s;
      let? result := r at s in
      store_result dst result s.

Definition zdiff_scores (args : list Resp) (n : nat) : Result bool :=
  if bool_decide (2 + n < length args) then
    let! opt := get_str args (2 + n) "ZDIFF" in
    if bool_decide (to_uppercase opt <> bstr "WITHSCORES") || bool_decide (length args <> 3 + n)
    then inl (Generic (bstr "syntax error")) else inr true
  else if bool_decide (length args <> 2 + n) then inl (Generic (bstr "syntax error"))
  else inr false.

Definition cmd_zdiff (now : Z) (args : list Resp) (s : t) : may_panic (Result Resp * t) :=
  if bool_decide (length args < 3) then Some (inl (WrongArity (bstr "zdiff")), s)
  else
    let? num_keys := parse_numkeys_for_set_op args 1 "ZDIFF" at s in
    let? keys := keys_at args 2 num_keys "ZDIFF" at s in
    let? ws := zdiff_scores args (length keys) at s in
    '(r, s) ← compute_zdiff_result now keys s;
    let? result := r at s in
    Some (inr (zset_to_array result ws), s).

(** [as usize]: a negative limit is a huge one, and 0 is none. *)
Definition zcard_limit (args : list Resp) (n : nat) : Result (option Z) :=
  if bool_decide (2 + n < length args) then
    let! opt := get_str args (2 + n) "ZINTERCARD" in
    if bool_decide (to_uppercase opt <> bstr "LIMIT") then inl (Generic (bstr "syntax error"))
    else
      let! raw := get_i64 args (3 + n) "ZINTERCARD" in
      if bool_decide (length args <> 4 + n) then inl (Generic (bstr "syntax error"))
      else inr (if bool_decide (0 < wrap64 raw)%Z then Some (wrap64 raw) else None)
  else if bool_decide (length args <> 2 + n) then inl (Generic (bstr "syntax error"))
  else inr None.

(** The index of the first smallest set. *)
Fixpoint smallest_idx (sets : list ZSetData.ZSetData) (i : nat) (smallest : option nat) (idx : nat) : nat :=
  match sets with
  | [] => idx
  | z :: sets =>
      let less := match smallest with None => true | Some n => bool_decide (ZSetData.len z < n) end in
      smallest_idx sets (S i) (if less then Some (ZSetData.len z) else smallest) (if less then i else idx)
  end.

Fixpoint zcard_loop (others : list ZSetData.ZSetData) (lim : option Z) (members : list bytes) (cnt : Z) : Z :=
  match members with
  | [] => cnt
  | m :: members =>
      if forallb (fun z => bool_decide (is_Some (ZSetData.score z m))) others then
        let cnt := (cnt + 1)%Z in
        if match lim with Some n => bool_decide (n <= cnt)%Z | None => false end then cnt
        else zcard_loop others lim members cnt
      else zcard_loop others lim members cnt
  end.

Definition cmd_zintercard (now : Z) (args : list Resp) (s : t) : may_panic (Result Resp * t) :=
  if bool_decide (length args < 3) then Some (inl (WrongArity (bstr "zintercard")), s)
  else
    let? num_keys := parse_numkeys_for_set_op args 1 "ZINTERCARD" at s in
    let? keys := keys_at args 2 num_keys "ZINTERCARD" at s in
    let? lim := zcard_limit args (length keys) at s in
    '(r, s) ← fetch_zsets now keys s;
    let? found := r at s in
    match found with
    | None => Some (inr (int 0), s)
    | Some sets =>
        let idx := smallest_idx sets 0 None 0 in
        match sets !! idx with
        | None => Some (inr (int 0), s)
        | Some base => Some (inr (int (zcard_loop (delete idx sets) lim (ZSetData.member_keys base) 0)), s)
        end
    end.

(** ** ZRANGESTORE *)

Record ZRangeStoreOptions := mkZRangeStore { byscore : bool; bylex : bool; srev : bool; soffset : Z; scount : option Z }.

(** [as usize]: negative numbers are huge. *)
Fixpoint zrangestore_options (fuel : nat) (rest : list Resp) (o : ZRangeStoreOptions) : Result ZRangeStoreOptions :=
  match fuel, rest with
  | S fuel, a :: rest =>
      let! opt := get_str [a] 0 "ZRANGESTORE" in
      let opt := to_ascii_uppercase opt in
      let '(mkZRangeStore bs bl rv off cnt) := o in
      if bool_decide (opt = bstr "BYSCORE") then zrangestore_options fuel rest (mkZRangeStore true bl rv off cnt)
      else if bool_decide (opt = bstr "BYLEX") then zrangestore_options fuel rest (mkZRangeStore bs true rv off cnt)
      else if bool_decide (opt = bstr "REV") then zrangestore_options fuel rest (mkZRangeStore bs bl true off cnt)
      else if bool_decide (opt = bstr "LIMIT") then
        let! off := get_i64 rest 0 "ZRANGESTORE" in
        let! cnt := get_i64 rest 1 "ZRANGESTORE" in
        zrangestore_options fuel (drop 2 rest) (mkZRangeStore bs bl rv (wrap64 off) (Some (wrap64 cnt)))
      else inl (Generic (bstr "syntax error"))
  | _, _ => inr o
  end.

Definition range_by_lex (z : ZSetData.ZSetData) (min_s max_s : bytes) (rev : bool) (off : nat) (cnt : option nat) : list (bytes * f64) :=
  let members := ZSetData.range_by_lex_members z
    (lex_bound "-" trim_markers min_s) (starts_with (bstr "(") min_s)
    (lex_bound "+" trim_markers max_s) (starts_with (bstr "(") max_s) in
  let out := omap (fun m => (fun sc => (m, sc)) <$> ZSetData.score z m) members in
  let out := drop off (if rev then reverse out else out) in
  match cnt with Some n => take n out | None => out end.

Definition not_an_integer : NexradeError := Generic (bstr "value is not an integer or out of range").

(** No more than the entries there are can be skipped or taken. *)
Definition clamp (n : Z) (z : ZSetData.ZSetData) : nat := Z.to_nat (Z.min n (Z.of_nat (ZSetData.len z))).

Definition zrangestore_entries (z : ZSetData.ZSetData) (o : ZRangeStoreOptions) (start_str stop_str : bytes) :
    may_panic (Result (list (bytes * f64))) :=
  let off := clamp (soffset o) z in
  let cnt := (fun n => clamp n z) <$> scount o in
  if byscore o then
    Some (let! (min, min_excl) := parse_score_bound start_str in
          let! (max, max_excl) := parse_score_bound stop_str in
          inr (ZSetData.range_by_score z min min_excl max max_excl (srev o) off cnt))
  else if bylex o then Some (inr (range_by_lex z start_str stop_str (srev o) off cnt))
  else
    match parse_i64 start_str, parse_i64 stop_str with
    | Some start, Some stop => l ← ZSetData.range_by_rank z start stop (srev o); Some (inr l)
    | _, _ => Some (inl not_an_integer)
    end.

Definition cmd_zrangestore (now : Z) (args : list Resp) (s : t) : may_panic (Result Resp * t) :=
  if bool_decide (length args < 5) then Some (inl (WrongArity (bstr "zrangestore")), s)
  else
    let? dst := get_bytes_vec args 1 "ZRANGESTORE" at s in
    let? src := get_bytes_vec args 2 "ZRANGESTORE" at s in
    let? start_str := get_str args 3 "ZRANGESTORE" at s in
    let? stop_str := get_str args 4 "ZRANGESTORE" at s in
    let? o := zrangestore_options (length args) (drop 5 args) (mkZRangeStore false false false 0 None) at s in
    if byscore o && bylex o then Some (inl (Generic (bstr "syntax error")), s)
    else
      found ← read_for src (Database.get_ro now src) s;
      r ← match found with
          | None => Some (inr [])
          | Some e => match Entry.value e with TZSet z => zrangestore_entries z o start_str stop_str | _ => Some (inl WrongType) end
          end;
      let? entries := r at s in
      new_z ← insert_pairs (fun _ score => score) entries ZSetData.new;
      store_result dst new_z s.

(** ** Pops over several keys *)

(** One pass of BZPOPMIN and BZPOPMAX over their keys. *)
Definition bzpop_key (now : Z) (key : bytes) (max : bool) (d : Database.t) : may_panic (Result (option Resp) * Database.t) :=
  match Database.get_mut now key d with
  | (None, d) => Some (inr None, d)
  | (Some e, d) =>
      match Entry.value e with
      | TZSet z =>
          '(r, z) ← ZSetData.pop_extreme thr z max;
          let d := put_zset key e z d in
          match r with
          | Some (score, member) =>
              let d := Database.adjust_live_bytes (- Z.of_nat (length member)) d in
              Some (inr (Some (array [bulk key; bulk member; bulk_str (format_float score)])),
                    if ZSetData.is_empty z then (Database.remove_empty_key key d).2 else d)
          | None => Some (inr None, d)
          end
      | _ => Some (inl WrongType, d)
      end
  end.

Fixpoint bzpop_attempt (now : Z) (keys : list bytes) (max : bool) (s : t) : may_panic (Result (option Resp) * t) :=
  match keys with
  | [] => Some (inr None, s)
  | key :: keys =>
      '(r, s) ← on_shard (shard_idx s key) (bzpop_key now key max) s;
      let? found := r at s in
      match found with
      | Some resp => Some (inr (Some resp), s)
      | None => bzpop_attempt now keys max s
      end
  end.

(** Another type is passed over, as an empty set is. *)
Definition zmpop_key (now : Z) (key : bytes) (min : bool) (cnt : Z) (d : Database.t) : may_panic (option Resp * Database.t) :=
  match Database.get_mut now key d with
  | (None, d) => Some (None, d)
  | (Some e, d) =>
      match Entry.value e with
      | TZSet z =>
          if ZSetData.is_empty z then Some (None, d)
          else
            '(l, delta, z) ← zpop_members (negb min) cnt z;
            let d := put_zset key e z d in
            if bool_decide (l = []) then Some (None, d)
            else
              let d := Database.adjust_live_bytes delta d in
              Some (Some (array [bulk key; array (map (fun p : f64 * bytes => array [bulk p.2; bulk_str (format_float p.1)]) l)]),
                    if ZSetData.is_empty z then (Database.remove_empty_key key d).2 else d)
      | _ => Some (None, d)
      end
  end.

Fixpoint zmpop_attempt (now : Z) (keys : list bytes) (min : bool) (cnt : Z) (s : t) : may_panic (option Resp * t) :=
  match keys with
  | [] => Some (None, s)
  | key :: keys =>
      '(r, s) ← on_shard (shard_idx s key) (zmpop_key now key min cnt) s;
      match r with
      | Some resp => Some (Some resp, s)
      | None => zmpop_attempt now keys min cnt s
      end
  end.

Definition parse_numkeys_z (args : list Resp) (idx : nat) (cmd : string) : Result Z :=
  let! n := get_i64 args idx cmd in
  if bool_decide (n <= 0)%Z then inl (Generic (bstr "numkeys should be greater than 0")) else inr n.

Definition parse_keys_z (args : list Resp) (idx : nat) (n : Z) (cmd : string) : Result (list bytes * nat) :=
  if bool_decide (Z.of_nat (length args) < Z.of_nat idx + n)%Z then inl (WrongArity (bstr cmd))
  else let! keys := all_bytes (take (Z.to_nat n) (drop idx args)) cmd in inr (keys, idx + Z.to_nat n).

Definition parse_zmpop_tail (args : list Resp) (cmd : string) : Result (bool * Z) :=
  match args with
  | [] => inl (WrongArity (bstr cmd))
  | a :: rest =>
      let! dir := get_str [a] 0 cmd in
      let dir := to_ascii_uppercase dir in
      let! min := (if bool_decide (dir = bstr "MIN") then inr true else if bool_decide (dir = bstr "MAX") then inr false
                   else inl (Generic (bstr "syntax error"))) in
      match rest with
      | [] => inr (min, 1%Z)
      | b :: rest =>
          let! w := get_str [b] 0 cmd in
          if eq_ignore_ascii_case w (bstr "COUNT") then
            match rest with
            | [] => inl (WrongArity (bstr cmd))
            | _ :: rest' =>
                let! n := get_i64 rest 0 cmd in
                if bool_decide (n < 0)%Z then inl (Generic (bstr "value is out of range"))
                else if bool_decide (rest' = []) then inr (min, n) else inl (Generic (bstr "syntax error"))
            end
          else inl (Generic (bstr "syntax error"))
      end
  end.

Definition cmd_zmpop (now : Z) (args : list Resp) (s : t) : may_panic (Result Resp * t) :=
  if bool_decide (length args < 4) then Some (inl (WrongArity (bstr "zmpop")), s)
  else
    let? numkeys := parse_numkeys_z args 1 "ZMPOP" at s in
    let? (keys, rest_start) := parse_keys_z args 2 numkeys "ZMPOP" at s in
    let? (min, cnt) := parse_zmpop_tail (drop rest_start args) "ZMPOP" at s in
    '(r, s) ← zmpop_attempt now keys min cnt s;
    Some (inr (default null_array r), s).
End ZSetCommands.
