(* ===== verification/ZSetSpec.v ===== *)
(** * ZSetSpec: the sorted-set commands on finite maps of scores

    An abstract keyspace gives every key a finite map from members to score ranks
    (the order of scores; 0.0 and -0.0 rank alike), a value of another type, or
    nothing.  The words of a command are a request or an error; the handlers of
    [ZSetCommands] answer and act as the request on the cell of the key does. *)

From S2P Require Import Prelude Text Doubles DoubleArith Types Keyspace KeyspaceInvariant KeyspaceSpec.
From S2P Require Import Shards ShardsSpec ShardsMoves Resp CommandArgs ScanSelect HashCommands SetCommands ZSetCommands ValueCells.
From S2P Require SetData ZSetData.

Import ShardedDatabase.

#[local] Arguments Database.remove : simpl never.
#[local] Arguments Database.adjust_live_bytes : simpl never.
#[local] Arguments Database.get_or_insert_with : simpl never.

Inductive ZSetCommand :=
  | ZADD | ZINCRBY | ZCARD | ZSCORE | ZMSCORE | ZRANK | ZREVRANK
  | ZRANGE | ZREVRANGE | ZRANGEBYSCORE | ZREVRANGEBYSCORE | ZRANGEBYLEX | ZCOUNT | ZLEXCOUNT
  | ZREM | ZREMRANGEBYRANK | ZREMRANGEBYSCORE | ZPOPMIN | ZPOPMAX.

(** A range of scores with its exclusions. *)
Record Span := mkSpan { lo : f64; lo_excl : bool; hi : f64; hi_excl : bool }.

(** What the words ask for. *)
Inductive Request :=
  | QAdd (o : ZaddOptions) (pairs : list (f64 * bytes))
  | QIncr (xx : bool) (x : bytes) (delta : f64)
  | QCard
  | QScore (x : bytes)
  | QScores (xs : list bytes)
  | QRank (x : bytes) (rev : bool)
  | QRange (first second : bytes) (o : ZRangeOptions)
  | QByRank (start stop : Z) (with_scores : bool)
  | QByScore (sp : Span) (rev : bool) (o : ZRangeOptions)
  | QByLex (first second : bytes)
  | QCount (sp : Span)
  | QLexCount (first second : bytes)
  | QRemove (xs : list bytes)
  | QRemoveByRank (start stop : Z)
  | QRemoveByScore (sp : Span)
  | QPop (max : bool) (n : Z).

Section Spec.
Context `{SetData.IndexSet} `{HashOrder} `{UnicodeCase} `{OrderedFloat} `{F64Format}.
Context (thr : ZSetData.ZSetThresholds) (Hthr : ZSetData.thr_sane thr).
Implicit Types (now : Z) (s : t) (d : Database.t) (k : bytes) (ws : list bytes) (e : Entry.t) (m : gmap bytes Z).

Definition exec_zset (now : Z) (c : ZSetCommand) (args : list Resp) (s : t) : may_panic (Result Resp * t) :=
  match c with
  | ZADD => cmd_zadd thr now args s
  | ZINCRBY => cmd_zincrby thr now args s
  | ZCARD => cmd_zcard now args s
  | ZSCORE => cmd_zscore now args s
  | ZMSCORE => cmd_zmscore now args s
  | ZRANK => cmd_zrank now args s
  | ZREVRANK => cmd_zrevrank now args s
  | ZRANGE => cmd_zrange now args s
  | ZREVRANGE => cmd_zrevrange now args s
  | ZRANGEBYSCORE => cmd_zrangebyscore now args s
  | ZREVRANGEBYSCORE => cmd_zrevrangebyscore now args s
  | ZRANGEBYLEX => cmd_zrangebylex now args s
  | ZCOUNT => cmd_zcount now args s
  | ZLEXCOUNT => cmd_zlexcount now args s
  | ZREM => cmd_zrem thr now args s
  | ZREMRANGEBYRANK => cmd_zremrangebyrank thr now args s
  | ZREMRANGEBYSCORE => cmd_zremrangebyscore thr now args s
  | ZPOPMIN => cmd_zpopmin thr now args s
  | ZPOPMAX => cmd_zpopmax thr now args s
  end.

(** ** Cells *)

Definition zset_kind : Kind ZSetData.ZSetData (gmap bytes Z) :=
  mkKind _ _ _ TZSet (fun v => match v with TZSet z => Some z | _ => None end) ZSetData.new ZSetData.repr ∅ ZSetData.zsize.

#[export] Instance zset_kind_laws : KindLaws zset_kind.
Proof.
  split; try done; simpl.
  - intros x v Hx. destruct x; try done. by injection Hx as ->.
  - apply ZSetData.zset_repr_new.
  - intros v m R. by apply ZSetData.zset_repr_payload.
Qed.

Definition Cell : Type := option (Content (gmap bytes Z) * option Z).
#[local] Notation scores := (contents zset_kind).

(** The cell with new scores, which keeps its deadline. *)
Definition put (cell : Cell) (m : gmap bytes Z) : Cell := Some (Own m, cell ≫= snd).

(** ** Requests *)

Definition zset_args (name : string) (key : bytes) (ws : list bytes) : list Resp :=
  bulk (bstr name) :: bulk key :: (bulk <$> ws).

Definition zset_name (c : ZSetCommand) : string :=
  match c with
  | ZADD => "ZADD" | ZINCRBY => "ZINCRBY" | ZCARD => "ZCARD" | ZSCORE => "ZSCORE" | ZMSCORE => "ZMSCORE"
  | ZRANK => "ZRANK" | ZREVRANK => "ZREVRANK" | ZRANGE => "ZRANGE" | ZREVRANGE => "ZREVRANGE"
  | ZRANGEBYSCORE => "ZRANGEBYSCORE" | ZREVRANGEBYSCORE => "ZREVRANGEBYSCORE" | ZRANGEBYLEX => "ZRANGEBYLEX"
  | ZCOUNT => "ZCOUNT" | ZLEXCOUNT => "ZLEXCOUNT" | ZREM => "ZREM" | ZREMRANGEBYRANK => "ZREMRANGEBYRANK"
  | ZREMRANGEBYSCORE => "ZREMRANGEBYSCORE" | ZPOPMIN => "ZPOPMIN" | ZPOPMAX => "ZPOPMAX"
  end.

(** A word read as a score, and two as a range of them. *)
Definition score_word (cmd : string) (w : bytes) : Result (f64 * bool) :=
  let! w := get_str [bulk w] 0 cmd in parse_score_bound w.

Definition span (cmd : string) (a b : bytes) : Result Span :=
  let! (lo, lo_excl) := score_word cmd a in
  let! (hi, hi_excl) := score_word cmd b in inr (mkSpan lo lo_excl hi hi_excl).

(** The score-member pairs; [None] when a score is no number. *)
Fixpoint score_pairs (rest : list Resp) : option (list (f64 * bytes)) :=
  match rest with
  | a :: b :: rest =>
      match get_str [a] 0 "ZADD" with
      | inl _ => None
      | inr w =>
          match parse_score_bound w, get_bytes_vec [b] 0 "ZADD" with
          | inr (score, _), inr member => cons (score, member) <$> score_pairs rest
          | _, _ => None
          end
      end
  | _ => Some []
  end.

(** ZADD looks at the scores after it has created the key: [None] is a bad one. *)
Definition zadd_request (ws : list bytes) : Result (option Request) :=
  let! (o, rest) := zadd_options (bulk <$> ws) (mkZaddOptions false false false false false false) in
  let! _ := zadd_check o rest in
  inr (match score_pairs rest with
       | None => None
       | Some pairs => if zadd_incr o then match pairs with [(d, x)] => Some (QIncr (zadd_xx o) x d) | _ => None end
                       else Some (QAdd o pairs)
       end).

Definition asks (q : Request) : Result (option Request) := inr (Some q).

(** The words of a command. *)
Definition request (c : ZSetCommand) (ws : list bytes) : Result (option Request) :=
  let bad : Result (option Request) := inl (match c with
    | ZRANK | ZREVRANK | ZRANGEBYSCORE | ZREVRANGEBYSCORE => WrongArity (bstr (zset_name c))
    | _ => wrong_arity (zset_name c)
    end) in
  match c, ws with
  | ZADD, _ :: _ :: _ => zadd_request ws
  | ZINCRBY, [w; x] => let! (delta, _) := score_word "ZINCRBY" w in asks (QIncr false x delta)
  | ZCARD, [] => asks QCard
  | ZSCORE, [x] => asks (QScore x)
  | ZMSCORE, _ :: _ => asks (QScores ws)
  | ZRANK, x :: _ => asks (QRank x false)
  | ZREVRANK, x :: _ => asks (QRank x true)
  | ZRANGE, a :: b :: rest =>
      let! first := get_str [bulk a] 0 "ZRANGE" in
      let! second := get_str [bulk b] 0 "ZRANGE" in
      let! o := zrange_options (length ws + 2) true "ZRANGE" (bulk <$> rest) no_options in
      if bool_decide (range_kind o first second = Rank) && bool_decide (is_Some (limit o)) then
        inl (Generic (bstr "syntax error, LIMIT is only supported in combination with either BYSCORE or BYLEX"))
      else asks (QRange first second o)
  | ZREVRANGE, a :: b :: rest =>
      let! start := get_i64 [bulk a] 0 "ZREVRANGE" in
      let! stop := get_i64 [bulk b] 0 "ZREVRANGE" in
      asks (QByRank start stop (has_withscores (bulk <$> rest) 0))
  | ZRANGEBYSCORE, a :: b :: rest =>
      let! first := get_str [bulk a] 0 "ZRANGEBYSCORE" in
      let! second := get_str [bulk b] 0 "ZRANGEBYSCORE" in
      let! sp := span "ZRANGEBYSCORE" a b in
      let! o := zrange_options (length ws + 2) false "ZRANGEBYSCORE" (bulk <$> rest) no_options in asks (QByScore sp false o)
  | ZREVRANGEBYSCORE, a :: b :: rest =>
      let! first := get_str [bulk b] 0 "ZREVRANGEBYSCORE" in
      let! second := get_str [bulk a] 0 "ZREVRANGEBYSCORE" in
      let! sp := span "ZREVRANGEBYSCORE" b a in
      let! o := zrange_options (length ws + 2) false "ZREVRANGEBYSCORE" (bulk <$> rest) no_options in asks (QByScore sp true o)
  | ZRANGEBYLEX, a :: b :: _ =>
      let! first := get_str [bulk a] 0 "ZRANGEBYLEX" in
      let! second := get_str [bulk b] 0 "ZRANGEBYLEX" in asks (QByLex first second)
  | ZCOUNT, [a; b] => let! sp := span "ZCOUNT" a b in asks (QCount sp)
  | ZLEXCOUNT, [a; b] =>
      let! first := get_str [bulk a] 0 "ZLEXCOUNT" in
      let! second := get_str [bulk b] 0 "ZLEXCOUNT" in asks (QLexCount first second)
  | ZREM, _ :: _ => asks (QRemove ws)
  | ZREMRANGEBYRANK, [a; b] =>
      let! start := get_i64 [bulk a] 0 "ZREMRANGEBYRANK" in
      let! stop := get_i64 [bulk b] 0 "ZREMRANGEBYRANK" in asks (QRemoveByRank start stop)
  | ZREMRANGEBYSCORE, [a; b] => let! sp := span "ZREMRANGEBYSCORE" a b in asks (QRemoveByScore sp)
  | ZPOPMIN, [] => asks (QPop false 1)
  | ZPOPMAX, [] => asks (QPop true 1)
  | ZPOPMIN, w :: _ =>
      let! n := get_i64 [bulk w] 0 "ZPOPMIN" in
      if bool_decide (n < 0)%Z then inl (Generic (bstr "value is not an integer or out of range")) else asks (QPop false n)
  | ZPOPMAX, w :: _ =>
      let! n := get_i64 [bulk w] 0 "ZPOPMAX" in
      if bool_decide (n < 0)%Z then inl (Generic (bstr "value is not an integer or out of range")) else asks (QPop true n)
  | _, _ => bad
  end.

(** ** What a request does *)

Definition rank_leb (a b : Z) : bool := bool_decide (a <> NAN_KEY) && bool_decide (b <> NAN_KEY) && bool_decide (a <= b)%Z.

(** NX, XX, GT and LT, by rank. *)
Definition skips (op : ZaddOptions) (score : Z) (existing : option Z) : bool :=
  zadd_nx op && bool_decide (is_Some existing) || zadd_xx op && bool_decide (existing = None) ||
  match existing with
  | Some old => zadd_gt op && rank_leb score old || zadd_lt op && rank_leb old score
  | None => false
  end.

(** Pairs added in their order: how many members are new, how many got another score. *)
Fixpoint add_pairs (op : ZaddOptions) (pairs : list (f64 * bytes)) (m : gmap bytes Z) : Z * Z * gmap bytes Z :=
  match pairs with
  | [] => (0%Z, 0%Z, m)
  | (score, x) :: pairs =>
      if skips op (okey score) (m !! x) then add_pairs op pairs m
      else
        let '(a, c, m') := add_pairs op pairs (<[x := okey score]> m) in
        match m !! x with
        | None => (a + 1, c, m')%Z
        | Some old => (a, if bool_decide (old = okey score) then c else c + 1, m')%Z
        end
  end.

(** The reply of a score of that rank; 0 may be -0. *)
Definition says (o : option Z) (r : Resp) : Prop := exists sc, okey <$> sc = o /\ r = score_reply sc.

(** The reply of entries in this order. *)
Definition lists (l : list (Z * bytes)) (with_scores : bool) (r : Resp) : Prop :=
  exists pairs, ZSetData.rekey <$> pairs = l /\ r = array (format_zrange_result pairs with_scores).

Definition in_span (sp : Span) (m : gmap bytes Z) (rev : bool) (off : nat) (lim : option nat) : list (Z * bytes) :=
  ZSetData.spec_range_by_score m (lo sp) (lo_excl sp) (hi sp) (hi_excl sp) rev off lim.

Definition lex_members (first second : bytes) (m : gmap bytes Z) : list bytes :=
  let '(min_b, min_excl, max_b, max_excl) := parse_lex_bounds first second in
  ZSetData.spec_range_by_lex m min_b min_excl max_b max_excl.

(** The unified ZRANGE on a set that is there. *)
Definition range_answer (first second : bytes) (op : ZRangeOptions) (m : gmap bytes Z) (r : Result Resp) : Prop :=
  match range_kind op first second with
  | Rank =>
      match parse_i64 first, parse_i64 second with
      | Some a, Some b => exists x, r = inr x /\ lists (ZSetData.spec_range (ZSetData.zlist m) a b (rev_ op)) (withscores op) x
      | _, _ => r = inl NotInteger
      end
  | Score =>
      match (let! (lo, le) := parse_score_bound first in let! (hi, he) := parse_score_bound second in inr (mkSpan lo le hi he)) with
      | inl e => r = inl e
      | inr sp => exists x, r = inr x /\ lists (in_span sp m (rev_ op) (offset op) (limit op)) (withscores op) x
      end
  | Lex =>
      let xs := lex_members first second m in
      exists rs, r = inr (array (concat rs)) /\
        Forall2 (fun x items => if withscores op then exists sc, says (m !! x) sc /\ items = [sc; bulk x] else items = [bulk x])
          (page op (if rev_ op then reverse xs else xs)) rs
  end.

(** Members popped one after the other. *)
Fixpoint extremes (max : bool) (n : nat) (m : gmap bytes Z) : list (Z * bytes) * gmap bytes Z :=
  match n with
  | 0 => ([], m)
  | S n =>
      match ZSetData.spec_extreme m max with
      | None => ([], m)
      | Some p => let '(l, m') := extremes max n (delete p.2 m) in (p :: l, m')
      end
  end.

Definition without_members (xs : list bytes) (m : gmap bytes Z) : gmap bytes Z := foldr delete m xs.

(** The reply and the scores after a request that reads or takes members out. *)
Definition answer (q : Request) (m : gmap bytes Z) (r : Resp) (m' : gmap bytes Z) : Prop :=
  match q with
  | QCard => r = int (Z.of_nat (size m)) /\ m' = m
  | QScore x => says (m !! x) r /\ m' = m
  | QRank x rev => r = from_option (fun n => int (Z.of_nat n)) null (ZSetData.spec_rank m x rev) /\ m' = m
  | QByRank a b ws => lists (ZSetData.spec_range (ZSetData.zlist m) a b true) ws r /\ m' = m
  | QByScore sp rev op => lists (in_span sp m rev (offset op) (limit op)) (withscores op) r /\ m' = m
  | QByLex a b => r = array (map bulk (lex_members a b m)) /\ m' = m
  | QCount sp => r = int (Z.of_nat (length (in_span sp m false 0 None))) /\ m' = m
  | QLexCount a b =>
      r = int (Z.of_nat (length (ZSetData.spec_range_by_lex m (lex_bound "-" trim_markers a) (starts_with (bstr "(") a)
                                   (lex_bound "+" trim_markers b) (starts_with (bstr "(") b)))) /\ m' = m
  | QRemove xs => m' = without_members xs m /\ r = int (Z.of_nat (size m) - Z.of_nat (size m'))
  | QRemoveByRank a b =>
      let l := ZSetData.spec_range (ZSetData.zlist m) a b false in m' = without_members l.*2 m /\ r = int (Z.of_nat (length l))
  | QRemoveByScore sp =>
      let l := in_span sp m false 0 None in m' = without_members l.*2 m /\ r = int (Z.of_nat (length l))
  | QPop max n =>
      m' = (extremes max (Z.to_nat n) m).2 /\
      exists l, ZSetData.keyed <$> l = (extremes max (Z.to_nat n) m).1 /\ r = array (popped_flat l)
  | _ => False
  end.

Definition takes_members (q : Request) : bool :=
  match q with QRemove _ | QRemoveByRank _ _ | QRemoveByScore _ | QPop _ _ => true | _ => false end.

(** The request on the cell of its key. *)
Definition zset_post (q : Request) (cell : Cell) (r : Result Resp) (cell' : Cell) : Prop :=
  match q, scores cell with
  | QScores xs, o => cell' = cell /\
      exists rs, r = inr (array rs) /\ Forall2 (fun x r => says (o ≫= fun m => m !! x) r) xs rs
  | _, None => r = inl WrongType /\ cell' = cell
  | QAdd op pairs, Some m =>
      if zadd_xx op && bool_decide (cell = None) then r = inr (int 0) /\ cell' = cell
      else let '(a, c, m') := add_pairs op pairs m in
           r = inr (int (if zadd_ch op then a + c else a)) /\ cell' = put cell m'
  | QIncr xx x delta, Some m =>
      if xx && bool_decide (cell = None) then r = inr null /\ cell' = cell
      else exists old, (m !! x = Some (okey old) \/ m !! x = None /\ old = ZERO) /\
             r = inr (bulk_str (format_float (f64_add old delta))) /\ cell' = put cell (<[x := okey (f64_add old delta)]> m)
  | QRange first second op, Some m => cell' = cell /\
      match cell with None => r = inr (array []) | Some _ => range_answer first second op m r end
  | q, Some m =>
      exists x m', answer q m x m' /\ r = inr x /\ cell' = if takes_members q then refill zset_kind cell m' else cell
  end.

(** The bytes a request may come to store under its key. *)
Definition zset_need (q : Request) (cell : Cell) : nat :=
  match scores cell with
  | None => 0
  | Some m =>
      match q with
      | QAdd _ pairs => ZSetData.zsize m + total_len pairs.*2
      | QIncr _ x _ => ZSetData.zsize m + length x
      | _ => ZSetData.zsize m
      end
  end.

#[local] Notation zserves now k q := (serves zset_kind now k (zset_need q) (zset_post q)).
#[local] Notation zacts now k q := (acts zset_kind now k (zset_need q) (zset_post q)).

(** ** Scores *)

Lemma is_nan_key (a : f64) : is_nan a = bool_decide (okey a = NAN_KEY).
Proof. destruct (is_nan a) eqn:E; symmetry; [by apply bool_decide_eq_true, okey_nan|]. apply bool_decide_eq_false. rewrite <- okey_nan. congruence. Qed.

Lemma f64_leb_rank (a b : f64) : f64_leb a b = rank_leb (okey a) (okey b).
Proof. unfold f64_leb, rank_leb. rewrite !is_nan_key. by rewrite !bool_decide_not. Qed.

Lemma zadd_skips_rank op (score : f64) (old : option f64) : zadd_skips op score old = skips op (okey score) (okey <$> old).
Proof.
  unfold zadd_skips, skips. destruct old as [old|]; simpl; [|done].
  by rewrite !f64_leb_rank.
Qed.

Lemma parse_score_bound_ok (w : bytes) (v : f64) (ex : bool) : parse_score_bound w = inr (v, ex) -> f64_wf v /\ is_nan v = false.
Proof.
  unfold parse_score_bound. destruct (match strip_prefix "(" w with Some _ => _ | None => _ end) as [body excl].
  assert (P : forall v', ok_or (f64_parse body) NotFloat = inr v' -> f64_wf v').
  { intros v'. destruct (f64_parse body) eqn:E; simpl; [|done]. intros [= <-]. by eapply f64_parse_wf. }
  destruct (_ || _); [|destruct (_ || _)]; simpl.
  - intros [= <- <-]. by vm_compute.
  - intros [= <- <-]. by vm_compute.
  - destruct (ok_or (f64_parse body) NotFloat) as [|v'] eqn:E; simpl; [done|]. destruct (is_nan v') eqn:En; [done|].
    intros [= <- <-]. auto.
Qed.

#[local] Notation gain := (weight_change zset_kind).

Lemma gain_insert m x (r : Z) :
  gain m (<[x := r]> m) = if bool_decide (m !! x = None) then Z.of_nat (length x) else 0%Z.
Proof.
  unfold weight_change. simpl. destruct (m !! x) as [old|] eqn:E.
  - rewrite (ZSetData.zsize_insert_old m x old r E). simpl. lia.
  - rewrite (ZSetData.zsize_insert_new m x r E). simpl. lia.
Qed.

Lemma gain_trans m1 m2 m3 : (gain m1 m2 + gain m2 m3)%Z = gain m1 m3.
Proof. unfold weight_change. lia. Qed.

Lemma gain_same m : gain m m = 0%Z.
Proof. unfold weight_change. lia. Qed.

(** ** ZADD and ZINCRBY *)

(** One pair. *)
Lemma zadd_pair_spec op (score : f64) x st z m : f64_wf score -> is_nan score = false -> ZSetData.repr z m ->
  exists st' z', zadd_pair thr op score x st z = Some (st', z') /\
    if skips op (okey score) (m !! x) && need_existing op then st' = st /\ z' = z
    else ZSetData.repr z' (<[x := okey score]> m) /\
      added st' = (added st + (if bool_decide (m !! x = None) then 1 else 0))%Z /\
      (need_existing op = true ->
        changed st' = (changed st + match m !! x with Some old => if bool_decide (old = okey score) then 0 else 1 | None => 0 end)%Z) /\
      payload_delta st' = (payload_delta st + gain m (<[x := okey score]> m))%Z.
Proof.
  intros Hw Hn R. unfold zadd_pair. pose proof (ZSetData.repr_score z m x R) as Hs.
  destruct (ZSetData.repr_insert thr z m x score Hthr Hw R) as (z1 & E & R1). rewrite gain_insert.
  rewrite zadd_skips_rank, Hs. destruct (need_existing op) eqn:Hne; rewrite ?andb_false_r, ?andb_true_r.
  - destruct (skips op (okey score) (m !! x)); [by eexists _, _|]. rewrite E. mstep.
    eexists _, z1. split; [done|]. split; [done|]. destruct (ZSetData.score z x) as [old|]; simpl in Hs; rewrite <- Hs; simpl.
    + assert (Hq : f64_eqb old score = bool_decide (okey old = okey score)).
      { unfold f64_eqb. rewrite Hn, is_nan_key. destruct (bool_decide (okey old = NAN_KEY)) eqn:Ho; simpl; [|done].
        apply bool_decide_eq_true in Ho. symmetry. apply bool_decide_eq_false.
        rewrite Ho. intros Hk. symmetry in Hk. apply okey_nan in Hk. congruence. }
      rewrite Hq. case_bool_decide; simpl; split_and!; intros; lia.
    + split_and!; intros; lia.
  - rewrite E. mstep. eexists _, z1. split; [done|]. split; [done|]. case_bool_decide; simpl; split_and!; try done; lia.
Qed.

Lemma no_skips op r existing : need_existing op = false -> skips op r existing = false.
Proof.
  unfold need_existing, skips. destruct (zadd_nx op), (zadd_xx op), (zadd_gt op), (zadd_lt op); try done. simpl. by destruct existing.
Qed.

Lemma zadd_loop_spec op pairs : forall rest st z m, score_pairs rest = Some pairs -> ZSetData.repr z m ->
  let '(a, c, m') := add_pairs op pairs m in
  exists st' z', zadd_loop thr op rest st z = Some (inr st', z') /\ ZSetData.repr z' m' /\
    added st' = (added st + a)%Z /\ (need_existing op = true -> changed st' = (changed st + c)%Z) /\
    payload_delta st' = (payload_delta st + gain m m')%Z.
Proof.
  induction pairs as [|[score x] pairs IH]; intros rest st z m Hp R.
  - simpl. exists st, z. rewrite gain_same. split_and!; [|done|lia|lia|lia]. destruct rest as [|a [|b rest]]; [done..|]. simpl in Hp.
    destruct (get_str [a] 0 "ZADD") as [|w]; [done|]. destruct (parse_score_bound w) as [|[? ?]]; [done|].
    destruct (get_bytes_vec [b] 0 "ZADD"); [done|]. by destruct (score_pairs rest).
  - destruct rest as [|a [|b rest]]; [done..|]. simpl in Hp. cbn [zadd_loop].
    destruct (get_str [a] 0 "ZADD") as [|w]; [done|]. destruct (parse_score_bound w) as [|[sc ex]] eqn:Ew; [done|].
    destruct (get_bytes_vec [b] 0 "ZADD") as [|y]; [done|]. destruct (score_pairs rest) as [ps|] eqn:Er; [|done].
    simpl in Hp. injection Hp as -> -> ->. cbn [bindr]. rewrite Ew. cbn [bindr].
    destruct (parse_score_bound_ok w score ex Ew) as [Hw Hn].
    destruct (zadd_pair_spec op score x st z m Hw Hn R) as (st1 & z1 & -> & Hz). mstep. cbn [add_pairs].
    destruct (need_existing op) eqn:Hne; [rewrite andb_true_r in Hz|rewrite (no_skips op _ _ Hne) in *; simpl in Hz].
    + destruct (skips op (okey score) (m !! x)) eqn:Hs.
      * destruct Hz as [-> ->]. by apply IH.
      * destruct Hz as (R1 & Ha & Hc & Hd). specialize (IH rest st1 z1 _ Er R1).
        destruct (add_pairs op pairs (<[x := okey score]> m)) as [[a' c'] m'] eqn:Ep.
        destruct IH as (st' & z' & E' & R' & Ha' & Hc' & Hd').
        destruct (m !! x) as [old|]; exists st', z'; rewrite <- (gain_trans m (<[x := okey score]> m) m');
          (split_and!; [done|done|simpl in Ha; lia| |lia]); intros _; rewrite Hc', Hc by done; try case_bool_decide; lia.
    + destruct Hz as (R1 & Ha & Hc & Hd). specialize (IH rest st1 z1 _ Er R1).
      destruct (add_pairs op pairs (<[x := okey score]> m)) as [[a' c'] m'] eqn:Ep.
      destruct IH as (st' & z' & E' & R' & Ha' & _ & Hd').
      destruct (m !! x) as [old|]; exists st', z'; rewrite <- (gain_trans m (<[x := okey score]> m) m');
        (split_and!; [done|done|simpl in Ha; lia|done|lia]).
Qed.

Lemma add_pairs_weight op pairs : forall m a c m', add_pairs op pairs m = (a, c, m') ->
  ZSetData.zsize m' <= ZSetData.zsize m + total_len pairs.*2.
Proof.
  induction pairs as [|[score x] pairs IH]; intros m a c m' E; simpl in E; [injection E as <- <- <-; lia|].
  rewrite fmap_cons, total_len_cons. cbn [snd]. destruct (skips op (okey score) (m !! x)); [apply IH in E; lia|].
  destruct (add_pairs op pairs (<[x := okey score]> m)) as [[a1 c1] m1] eqn:Ep. apply IH in Ep.
  pose proof (gain_insert m x (okey score)) as G. unfold weight_change in G. simpl in G.
  assert (ZSetData.zsize (<[x := okey score]> m) <= ZSetData.zsize m + length x) by (revert G; case_bool_decide; lia).
  destruct (m !! x); injection E as <- <- <-; lia.
Qed.

Lemma get_or_create_of_zset now k d cell : wf d -> sees zset_kind now (Database.entries d !! k) cell ->
  (Z.of_nat (total_bytes d + (64 + length k)) < 2 ^ 64)%Z ->
  exists r e d1, get_or_create_zset now k d = (r, e, d1) /\ dstep d d1 k (Some e) /\ Entry.is_expired now e = false /\
    Expiry.expires_at_ms <$> Entry.expiry e = cell ≫= snd /\
    match scores cell with
    | Some m => exists z, r = inr z /\ Entry.value e = TZSet z /\ ZSetData.repr z m
    | None => r = inl WrongType /\ sees zset_kind now (Some e) cell
    end.
Proof.
  intros W S F. unfold get_or_create_zset.
  destruct (create_step zset_kind now k d cell W S F) as (e & d1 & E & D1 & X & Ex & M). simpl in E. rewrite E.
  eexists _, e, d1. split_and!; [done..|]. destruct (scores cell) as [Y|].
  - destruct M as (v & Ev & R). exists v. by rewrite Ev.
  - destruct M as [U Se]. split; [|done]. simpl in U. by destruct (Entry.value e).
Qed.

(** The write of a command that adds. *)
Lemma write_put now d d1 k e cell z z' m m' : dstep d d1 k (Some e) -> Entry.is_expired now e = false ->
  Expiry.expires_at_ms <$> Entry.expiry e = cell ≫= snd -> Entry.value e = TZSet z -> ZSetData.repr z m -> ZSetData.repr z' m' ->
  (Z.of_nat (total_bytes d + (64 + length k + ZSetData.zsize m')) < 2 ^ 64)%Z ->
  exists o, dstep d (Database.adjust_live_bytes (gain m m') (put_zset k e z' d1)) k o /\ sees zset_kind now o (put cell m').
Proof.
  intros D1 X Ex Ev R R' F. unfold put. rewrite <- Ex.
  destruct (write_step zset_kind now d d1 k e z m z' m' D1 X Ev R R' F) as [D2 S2]. eauto.
Qed.

Lemma bump_spec now d d1 k e cell z m x (delta : f64) : dstep d d1 k (Some e) -> Entry.is_expired now e = false ->
  Expiry.expires_at_ms <$> Entry.expiry e = cell ≫= snd -> Entry.value e = TZSet z -> ZSetData.repr z m ->
  (Z.of_nat (total_bytes d + (64 + length k + (ZSetData.zsize m + length x))) < 2 ^ 64)%Z ->
  exists old d' o, bump_body thr k x delta z e d1 = Some (inr (bulk_str (format_float (f64_add old delta))), d') /\
    (m !! x = Some (okey old) \/ m !! x = None /\ old = ZERO) /\ dstep d d' k o /\
    sees zset_kind now o (put cell (<[x := okey (f64_add old delta)]> m)).
Proof.
  intros D1 X Ex Ev R F. unfold bump_body, bump. pose proof (ZSetData.repr_score z m x R) as Hs.
  set (old := default ZERO (ZSetData.score z x)).
  destruct (ZSetData.repr_insert thr z m x (f64_add old delta) Hthr (f64_add_wf _ _) R) as (z' & -> & R'). mstep.
  pose proof (gain_insert m x (okey (f64_add old delta))) as G.
  edestruct (write_put now d d1 k e cell z z' m _ D1 X Ex Ev R R') as (o & D2 & S2).
  { unfold weight_change in G. simpl in G. revert G. case_bool_decide; lia. }
  exists old. eexists _, o. split; [by rewrite <- G|]. split; [|done]. unfold old.
  destruct (ZSetData.score z x) as [sc|]; simpl in Hs; rewrite <- Hs; auto.
Qed.

Lemma zincrby_serves now k x (delta : f64) : zserves now k (QIncr false x delta) (zincrby_body thr now k x delta).
Proof.
  intros d cell W S F. unfold zset_need in F.
  destruct (get_or_create_of_zset now k d cell W S ltac:(lia)) as (r & e & d1 & E & D1 & X & Ex & M).
  unfold zincrby_body. rewrite E. unfold zset_post. destruct (scores cell) as [m|].
  - destruct M as (z & -> & Ev & R). cbn [try_at].
    destruct (bump_spec now d d1 k e cell z m x delta D1 X Ex Ev R F) as (old & d' & o & -> & Ho & D2 & S2).
    eexists _, d', o, _. split; [done|]. simpl. split; [by exists old|]. by split.
  - destruct M as [-> Se]. cbn [try_at]. by eexists _, _, (Some e), cell.
Qed.

(** What ZADD does once the pairs are known. *)
Definition zadd_asked (op : ZaddOptions) (pairs : list (f64 * bytes)) : option Request :=
  if zadd_incr op then match pairs with [(d, x)] => Some (QIncr (zadd_xx op) x d) | _ => None end else Some (QAdd op pairs).

(** XX on a key that is not there stops before anything is created. *)
Lemma zadd_stops now k d (cell : Cell) (xx : bool) : wf d -> sees zset_kind now (Database.entries d !! k) cell ->
  exists d0, (if xx then let '(found, d) := Database.get now k d in (bool_decide (found = None), d) else (false, d))
      = (xx && bool_decide (cell = None), d0) /\
    wf d0 /\ (exists o, dstep d d0 k o) /\ sees zset_kind now (Database.entries d0 !! k) cell /\ total_bytes d0 <= total_bytes d.
Proof.
  intros W S. destruct xx; [|exists d; split_and!; [done|done| |done|lia]].
  - destruct (get_on_shard now k d W) as (W' & St & Hv & Hx & Ht). destruct (Database.get now k d) as [r d0]. cbn [fst snd] in *.
    exists d0. assert (D0 : dstep d d0 k r) by (by split).
    assert (S0 : sees zset_kind now r cell) by (exact (sees_seen zset_kind now _ _ _ Hx S)).
    split_and!; [|done|by exists r|by rewrite (dstep_slot _ _ _ _ D0)|done]. do 2 f_equal. apply bool_decide_ext.
    unfold sees in S0. split.
    + intros ->. done.
    + intros ->. destruct r as [e|]; [|done]. simpl in Hv, Hx, S0. destruct (Entry.is_expired now e) eqn:Ee; [|by destruct S0 as (? & ? & _)].
      exfalso. unfold seen in Hv. destruct (Database.entries d !! k) as [e0|]; [|done]. simpl in Hv.
      destruct (Entry.is_expired now e0) eqn:E0; [done|]. unfold seen in Hx. simpl in Hx. by rewrite E0 in Hx.
  - exists (Database.entries d !! k). split; [done|]. unfold stores. by rewrite partial_alter_self.
Qed.

Lemma serves_after now k q body d cell d0 o : dstep d d0 k o -> sees zset_kind now (Database.entries d0 !! k) cell ->
  total_bytes d0 <= total_bytes d -> zserves now k q body ->
  (Z.of_nat (total_bytes d + (64 + length k + zset_need q cell)) < 2 ^ 64)%Z ->
  exists r d' o' c', body d0 = Some (r, d') /\ zset_post q cell r c' /\ dstep d d' k o' /\ sees zset_kind now o' c'.
Proof.
  intros D0 S0 Ht B F. destruct (B d0 cell) as (r & d' & o' & c' & E & P & D1 & S1); [apply D0|done|lia|].
  exists r, d', o', c'. split_and!; [done|done|by eapply dstep_trans|done].
Qed.

Lemma zadd_pairs_serve now k op rest pairs : zadd_incr op = false -> score_pairs rest = Some pairs ->
  forall d (cell : Cell), wf d -> sees zset_kind now (Database.entries d !! k) cell ->
  (Z.of_nat (total_bytes d + (64 + length k + zset_need (QAdd op pairs) cell)) < 2 ^ 64)%Z ->
  zadd_xx op && bool_decide (cell = None) = false ->
  exists r d' o c', (let '(r, e, d) := get_or_create_zset now k d in
    let? z := r at d in
    '(r, z) ← zadd_loop thr op rest (mkTally 0 0 0) z;
    let d := put_zset k e z d in
    let? st := r at d in
    Some (inr (int (if zadd_ch op then added st + changed st else added st)), Database.adjust_live_bytes (payload_delta st) d))
    = Some (r, d') /\ zset_post (QAdd op pairs) cell r c' /\ dstep d d' k o /\ sees zset_kind now o c'.
Proof.
  intros Hi Hp d cell W S F Hx. unfold zset_need in F.
  destruct (get_or_create_of_zset now k d cell W S ltac:(lia)) as (r & e & d1 & E & D1 & X & Ex & M). rewrite E.
  unfold zset_post. destruct (scores cell) as [m|].
  - destruct M as (z & -> & Ev & R). cbn [try_at]. pose proof (zadd_loop_spec op pairs rest (mkTally 0 0 0) z m Hp R) as L.
    rewrite Hx. destruct (add_pairs op pairs m) as [[a c] m'] eqn:Ea. destruct L as (st & z' & -> & R' & Ha & Hc & Hd). mstep. cbn [try_at].
    pose proof (add_pairs_weight op pairs m a c m' Ea).
    edestruct (write_put now d d1 k e cell z z' m m' D1 X Ex Ev R R') as (o & D2 & S2); [lia|].
    simpl in Ha, Hd. rewrite Hd. eexists _, _, o, _. split; [done|]. split; [|by split]. split; [|done].
    do 2 f_equal. destruct (zadd_ch op) eqn:Hch; [|lia]. rewrite Ha, Hc; [simpl; lia|].
    unfold need_existing. by rewrite Hch, !orb_true_r.
  - destruct M as [-> Se]. cbn [try_at]. by eexists _, _, (Some e), cell.
Qed.

Lemma zadd_serves now k op rest pairs q : zadd_check op rest = inr () -> score_pairs rest = Some pairs -> zadd_asked op pairs = Some q ->
  zserves now k q (zadd_body thr now k op rest).
Proof.
  intros Hc Hp Hq d cell W S F. change (option _) with Cell in cell. unfold zadd_body.
  destruct (zadd_stops now k d cell (zadd_xx op) W S) as (d0 & -> & W0 & [o0 D0] & S0 & Ht).
  unfold zadd_asked in Hq. destruct (zadd_xx op && bool_decide (cell = None)) eqn:Hx.
  - apply andb_true_iff in Hx as [Hx1 Hx2]. apply bool_decide_eq_true in Hx2 as ->.
    eexists _, d0, o0, None. split; [done|]. rewrite (dstep_slot _ _ _ _ D0) in S0. split; [|by split].
    destruct (zadd_incr op) eqn:Hi; [|injection Hq as <-; simpl; by rewrite Hx1].
    destruct pairs as [|[dl x] [|]]; try done. injection Hq as <-. simpl. by rewrite Hx1.
  - destruct (zadd_incr op) eqn:Hi.
    + destruct pairs as [|[dl x] [|]]; try done. injection Hq as <-.
      unfold zadd_check in Hc. rewrite Hi, andb_true_r in Hc || rewrite Hi in Hc.
      destruct rest as [|a [|b [|]]]; try (by repeat case_match).
      simpl in Hp. change (get_str [a; b] 0 "ZADD") with (get_str [a] 0 "ZADD").
      change (get_bytes_vec [a; b] 1 "ZADD") with (get_bytes_vec [b] 0 "ZADD").
      destruct (get_str [a] 0 "ZADD") as [|w]; [done|]. destruct (parse_score_bound w) as [|[sc ex]] eqn:Ew; [done|].
      destruct (get_bytes_vec [b] 0 "ZADD") as [|y]; [done|]. injection Hp as -> ->. cbn [try_at]. rewrite Ew. cbn [try_at].
      destruct (serves_after now k (QIncr false x dl) (zincrby_body thr now k x dl) d cell d0 o0 D0 S0 Ht (zincrby_serves now k x dl) F)
        as (r & d' & o' & c' & E & P & D1 & S1).
      exists r, d', o', c'. split_and!; [exact E| |done|done]. revert P. unfold zset_post. rewrite Hx. done.
    + injection Hq as <-.
      destruct (zadd_pairs_serve now k op rest pairs Hi Hp d0 cell W0 S0 ltac:(lia) Hx) as (r & d' & o' & c' & E & P & D1 & S1).
      exists r, d', o', c'. split_and!; [done|done|by eapply dstep_trans|done].
Qed.

(** ** Members taken out *)

Lemma without_cons x xs m : without_members (x :: xs) m = without_members xs (delete x m).
Proof. induction xs as [|y xs IH]; [done|]. simpl in *. by rewrite delete_delete, IH. Qed.

Lemma without_weight xs m : ZSetData.zsize (without_members xs m) <= ZSetData.zsize m.
Proof.
  revert m. induction xs as [|x xs IH]; intros m; [done|]. rewrite without_cons. etrans; [apply IH|].
  destruct (m !! x) as [r|] eqn:E; [rewrite (ZSetData.zsize_delete m x r E); lia|by rewrite delete_id].
Qed.

Lemma gain_delete m x (r : Z) : m !! x = Some r -> gain m (delete x m) = (- Z.of_nat (length x))%Z.
Proof. intros E. unfold weight_change. simpl. rewrite (ZSetData.zsize_delete m x r E). lia. Qed.

Lemma zset_empty_repr z m : ZSetData.repr z m -> ZSetData.is_empty z = bool_decide (m = ∅).
Proof. intros R. unfold ZSetData.is_empty. rewrite (ZSetData.zset_repr_len z m R). apply bool_decide_ext, map_size_empty_iff. Qed.

Lemma zrem_loop_spec ws : forall removed delta z m, ZSetData.repr z m ->
  exists z', zrem_loop thr (bulk <$> ws) removed delta z
      = Some ((removed + (Z.of_nat (size m) - Z.of_nat (size (without_members ws m))))%Z,
              (delta + gain m (without_members ws m))%Z, z') /\
    ZSetData.repr z' (without_members ws m).
Proof.
  induction ws as [|w ws IH]; intros removed delta z m R.
  - exists z. simpl. rewrite gain_same. split; [|done]. do 3 f_equal; lia.
  - destruct (ZSetData.repr_remove thr z m w Hthr R) as (r & z1 & E & Hr & R1). rewrite without_cons.
    cbn [fmap list_fmap zrem_loop]. change (get_bytes_vec [bulk w] 0 "ZREM") with (@inr NexradeError bytes w). cbv iota. rewrite E. mstep.
    change (list_fmap _ _ bulk ws) with (bulk <$> ws). destruct r as [sc|].
    + destruct (IH (removed + 1)%Z (delta - Z.of_nat (length w))%Z z1 _ R1) as (z' & -> & R'). exists z'. split; [|done].
      simpl in Hr. symmetry in Hr. rewrite <- (gain_trans m (delete w m)), (gain_delete m w _ Hr).
      rewrite map_size_delete, Hr. assert (size m <> 0) by (intros ->%map_size_empty_iff; done). do 3 f_equal; simpl; lia.
    + destruct (IH removed delta z1 _ R1) as (z' & -> & R'). exists z'. split; [|done]. simpl in Hr. by rewrite delete_id.
Qed.

(** Distinct members of the set. *)
Definition drawn_from (m : gmap bytes Z) (l : list (Z * bytes)) : Prop := NoDup l.*2 /\ Forall (fun p : Z * bytes => m !! p.2 = Some p.1) l.

Lemma sublist_drawn m l : l `sublist_of` ZSetData.zlist m -> drawn_from m l.
Proof.
  intros Hs. split.
  - eapply sublist_NoDup; [apply ZSetData.zlist_NoDup|by apply fmap_sublist].
  - apply Forall_forall. intros [r x] Hp. apply ZSetData.elem_of_zlist. by eapply elem_of_sublist.
Qed.

Lemma remove_all_spec l : forall delta z m, drawn_from m l -> ZSetData.repr z m ->
  exists z', remove_all thr l.*2 delta z = Some ((delta + gain m (without_members l.*2 m))%Z, z') /\
    ZSetData.repr z' (without_members l.*2 m).
Proof.
  induction l as [|[r x] l IH]; intros delta z m [Hn Hf] R.
  - exists z. simpl. rewrite gain_same. split; [|done]. do 2 f_equal; lia.
  - rewrite fmap_cons in *. cbn [snd] in *. apply NoDup_cons in Hn as [Hx Hn]. apply Forall_cons in Hf as [Hm Hf]. simpl in Hm.
    destruct (ZSetData.repr_remove thr z m x Hthr R) as (sc & z1 & E & Hr & R1). rewrite without_cons.
    cbn [remove_all]. rewrite E. mstep. destruct (IH (delta - Z.of_nat (length x))%Z z1 (delete x m)) as (z' & -> & R'); [|done|].
    + split; [done|]. rewrite Forall_forall in *. intros p Hp. rewrite lookup_delete_ne; [by apply Hf|].
      intros ->. apply Hx. apply list_elem_of_fmap. by exists p.
    + exists z'. split; [|done]. rewrite <- (gain_trans m (delete x m)), (gain_delete m x _ Hm). do 2 f_equal. lia.
Qed.

Lemma rekey_members (pairs : list (bytes * f64)) l : ZSetData.rekey <$> pairs = l -> pairs.*1 = l.*2.
Proof. intros <-. rewrite <- list_fmap_compose. apply list_fmap_ext. by intros ? [? ?]. Qed.

(** The end of the handlers that take members out. *)
Lemma take_serves now k q none (f : ZSetData.ZSetData -> may_panic (Resp * Z * ZSetData.ZSetData)) : takes_members q = true ->
  answer q ∅ none ∅ ->
  (forall z m, ZSetData.repr z m -> exists r m' z', f z = Some (r, gain m m', z') /\ ZSetData.repr z' m' /\ answer q m r m' /\
     ZSetData.zsize m' <= ZSetData.zsize m) ->
  zserves now k q (take_body now k none f).
Proof.
  intros Hq Hn Hf d cell W S F. destruct (get_mut_step now k d W) as [D1 E1]. unfold take_body.
  destruct (Database.get_mut now k d) as [r d1]. cbn [fst snd] in *. subst r.
  destruct (live now (Database.entries d !! k)) as [e|] eqn:L.
  2: { rewrite (sees_none zset_kind now _ cell L S) in *. eexists _, _, None, _. split; [done|]. split; [|split; [exact D1|]].
    - destruct q; try discriminate Hq; cbn [zset_post contents takes_members]; exists none, ∅; (split; [exact Hn|]); (split; [done|]); reflexivity.
    - by rewrite (refill_nothing zset_kind None : refill zset_kind None ∅ = None). }
  destruct (live_cases zset_kind now _ e cell L S) as (Hl & Ex & X & Se). simpl in Hl.
  assert (Hw : scores cell = None -> zset_post q cell (inl WrongType) cell).
  { intros Em. unfold zset_post. rewrite Em. by destruct q. }
  destruct (Entry.value e) eqn:Ev; try (eexists _, _, (Some e), cell; split; [done|]; split; [by apply Hw|by split]).
  destruct Hl as (m & _ & Em & R & _). destruct (Hf v m R) as (r & m' & z' & -> & R' & Ha & Hs). mstep.
  edestruct (write_or_drop zset_kind now k d d1 cell m m' v z' e (ZSetData.is_empty z')) as (o & D2 & S2); [|done..| |].
  { by apply zset_empty_repr. }
  - unfold zset_need in F. rewrite Em in F. simpl. destruct q; try done; lia.
  - eexists _, _, o, _. split; [done|]. split; [|by split]. unfold zset_post. rewrite Em.
    destruct q; try done; exists r, m'; done.
Qed.

Lemma zrem_serves now k ws : zserves now k (QRemove ws) (take_body now k (int 0) (fun z =>
  '(removed, delta, z) ← zrem_loop thr (bulk <$> ws) 0 0 z; Some (int removed, delta, z))).
Proof.
  apply take_serves; [done| |].
  - assert (E : without_members ws ∅ = ∅) by (induction ws as [|w ws IH]; [done|]; simpl; rewrite IH; apply delete_empty).
    simpl. by rewrite E.
  - intros z m R. destruct (zrem_loop_spec ws 0 0 z m R) as (z' & -> & R'). mstep. rewrite !Z.add_0_l.
    eexists _, _, z'. split_and!; [done|done|done|apply without_weight].
Qed.

(** The members of a range given by its ranks. *)
Lemma remove_range_spec z m l pairs : ZSetData.repr z m -> drawn_from m l -> ZSetData.rekey <$> pairs = l ->
  exists z', remove_range thr pairs.*1 z = Some (int (Z.of_nat (length l)), gain m (without_members l.*2 m), z') /\
    ZSetData.repr z' (without_members l.*2 m).
Proof.
  intros R Hd Hp. unfold remove_range. rewrite (rekey_members pairs l Hp).
  destruct (remove_all_spec l 0 z m Hd R) as (z' & -> & R'). mstep. rewrite Z.add_0_l, length_fmap. eauto.
Qed.

Lemma zlist_empty : ZSetData.zlist ∅ = [].
Proof. apply length_zero_iff_nil. rewrite ZSetData.length_zlist. apply map_size_empty. Qed.

Lemma spec_range_nil {A} a b rev : ZSetData.spec_range ([] : list A) a b rev = [].
Proof. unfold ZSetData.spec_range. destruct rev; by rewrite ?reverse_nil, drop_nil, take_nil. Qed.

Lemma in_span_empty sp rev off lim : in_span sp ∅ rev off lim = [].
Proof.
  unfold in_span, ZSetData.spec_range_by_score. rewrite zlist_empty. change (filter _ []) with ([] : list (Z * bytes)).
  destruct rev, lim; by rewrite ?reverse_nil, drop_nil, ?take_nil.
Qed.

Lemma zremrangebyrank_serves now k start stop : zserves now k (QRemoveByRank start stop) (take_body now k (int 0) (fun z =>
  l ← ZSetData.range_by_rank z start stop false; remove_range thr l.*1 z)).
Proof.
  apply take_serves; [done| |].
  - simpl. by rewrite zlist_empty, spec_range_nil.
  - intros z m R. pose proof (ZSetData.range_by_rank_refines z m start stop false R) as E.
    destruct (ZSetData.range_by_rank z start stop false) as [pairs|]; [|done]. simpl in E. injection E as E. mstep.
    destruct (remove_range_spec z m (ZSetData.spec_range (ZSetData.zlist m) start stop false) pairs R) as (z' & -> & R'); [|exact E|].
    { apply sublist_drawn. unfold ZSetData.spec_range. etrans; [apply sublist_take|apply sublist_drop]. }
    eexists _, _, z'. split_and!; [done|done|done|apply without_weight].
Qed.

Lemma zremrangebyscore_serves now k sp : zserves now k (QRemoveByScore sp) (take_body now k (int 0) (fun z =>
  remove_range thr (ZSetData.range_by_score z (lo sp) (lo_excl sp) (hi sp) (hi_excl sp) false 0 None).*1 z)).
Proof.
  apply take_serves; [done| |].
  - cbn [answer]. by rewrite in_span_empty.
  - intros z m R. pose proof (ZSetData.range_by_score_refines z m (lo sp) (lo_excl sp) (hi sp) (hi_excl sp) false 0 None R) as E.
    destruct (remove_range_spec z m (in_span sp m false 0 None) (ZSetData.range_by_score z (lo sp) (lo_excl sp) (hi sp) (hi_excl sp) false 0 None) R)
      as (z' & -> & R'); [|exact E|].
    { apply sublist_drawn. unfold in_span, ZSetData.spec_range_by_score. rewrite drop_0. apply sublist_filter. }
    eexists _, _, z'. split_and!; [done|done|done|apply without_weight].
Qed.

(** ** Pops *)

Lemma no_extreme m max : ZSetData.spec_extreme m max = None <-> m = ∅.
Proof.
  rewrite <- map_size_empty_iff, <- ZSetData.length_zlist, length_zero_iff_nil. unfold ZSetData.spec_extreme.
  destruct max; [apply last_None|]. by destruct (ZSetData.zlist m).
Qed.

Lemma zpop_loop_spec max n : forall delta popped z m, ZSetData.repr z m ->
  exists l z', zpop_loop thr max n delta popped z = Some (popped ++ l, (delta + gain m (extremes max n m).2)%Z, z') /\
    ZSetData.keyed <$> l = (extremes max n m).1 /\ ZSetData.repr z' (extremes max n m).2.
Proof.
  induction n as [|n IH]; intros delta popped z m R.
  - exists [], z. simpl. rewrite gain_same, app_nil_r, Z.add_0_r. done.
  - cbn [zpop_loop extremes]. destruct (ZSetData.pop_extreme_refines thr z m max Hthr R) as (r & z1 & -> & Hr & R1). mstep.
    destruct r as [[sc x]|]; simpl in Hr; rewrite <- Hr in *.
    + change ((ZSetData.keyed (sc, x)).2) with x in *. destruct (IH (delta - Z.of_nat (length x))%Z (popped ++ [(sc, x)]) z1 _ R1) as (l & z' & E & Hl & R'). cbn [snd] in *. rewrite E.
      destruct (extremes max n (delete x m)) as [el m'] eqn:Ee. cbn [fst snd] in *. exists ((sc, x) :: l), z'. split_and!; [|by rewrite fmap_cons, Hl|done].
      pose proof (ZSetData.spec_extreme_member m max (okey sc) x (eq_sym Hr)) as Hm.
      rewrite <- (gain_trans m (delete x m)), (gain_delete m x _ Hm), <- app_assoc. do 3 f_equal. lia.
    + exists [], z1. simpl. rewrite gain_same, app_nil_r, Z.add_0_r. done.
Qed.

(** No more passes than members matter. *)
Lemma extremes_short max n m : extremes max (n `min` size m) m = extremes max n m.
Proof.
  revert m. induction n as [|n IH]; intros m; [done|]. cbn [extremes]. destruct (ZSetData.spec_extreme m max) as [[r x]|] eqn:E.
  - pose proof (ZSetData.spec_extreme_member m max r x E) as Hm. specialize (IH (delete x m)). rewrite map_size_delete, Hm in IH.
    assert (size m <> 0) by (intros Hz%map_size_empty_iff; by rewrite Hz in Hm).
    destruct (size m) as [|j]; [done|]. cbn [Nat.min extremes]. rewrite E. cbn [snd]. cbn [Nat.pred] in IH. by rewrite IH.
  - apply no_extreme in E as ->. by rewrite map_size_empty, Nat.min_0_r.
Qed.

Lemma extremes_weight max n m : ZSetData.zsize (extremes max n m).2 <= ZSetData.zsize m.
Proof.
  revert m. induction n as [|n IH]; intros m; [done|]. simpl. destruct (ZSetData.spec_extreme m max) as [[r x]|] eqn:E; [|done].
  pose proof (ZSetData.spec_extreme_member m max r x E) as Hm. specialize (IH (delete x m)). cbn [snd].
  destruct (extremes max n (delete x m)). cbn [snd] in *. rewrite (ZSetData.zsize_delete m x r Hm). lia.
Qed.

Lemma zpop_serves now k (max : bool) n : (0 <= n)%Z -> zserves now k (QPop max n) (take_body now k (array []) (fun z =>
  '(l, delta, z) ← zpop_members thr max n z; Some (array (popped_flat l), delta, z))).
Proof.
  intros Hn. apply take_serves; [done| |].
  - assert (E : extremes max (Z.to_nat n) ∅ = ([], ∅)).
    { destruct (Z.to_nat n); [done|]. cbn [extremes]. assert (ZSetData.spec_extreme ∅ max = None) as -> by (by apply no_extreme). done. }
    simpl. rewrite E. split; [done|]. by exists [].
  - intros z m R. unfold zpop_members. rewrite (ZSetData.zset_repr_len z m R).
    destruct (zpop_loop_spec max (Z.to_nat (Z.min n (Z.of_nat (size m)))) 0 [] z m R) as (l & z' & -> & Hl & R'). mstep.
    assert (E : extremes max (Z.to_nat (Z.min n (Z.of_nat (size m)))) m = extremes max (Z.to_nat n) m).
    { rewrite <- (extremes_short max (Z.to_nat n) m). f_equal. lia. }
    rewrite E, Z.add_0_l in *. eexists _, _, z'. split_and!; [done|done| |apply extremes_weight]. split; [done|]. by exists l.
Qed.

(** ** Reads *)

Lemma read_zset_acts now k none f q : zset_post q None (inr none) None ->
  (forall cell : Cell, scores cell = None -> zset_post q cell (inl WrongType) cell) ->
  (forall (cell : Cell) z m, cell <> None -> scores cell = Some m -> ZSetData.repr z m ->
    exists r, f z = Some r /\ zset_post q cell r cell) ->
  zacts now k q (read_zset now k none f).
Proof.
  intros Hn Hw Hf. apply read_only_acts. intros s cell W S. unfold read_zset. rewrite read_live by done.
  destruct (live now (slot s k)) as [e|] eqn:L; [|rewrite (sees_none zset_kind now _ cell L S) in *; by eexists].
  destruct (live_cases zset_kind now _ e cell L S) as (Hc & _). simpl in Hc.
  destruct (Entry.value e); try (eexists; split; [done|]; by apply Hw).
  destruct Hc as (m & _ & Em & R & Ec). destruct (Hf cell v m ltac:(by rewrite Ec) Em R) as (r & -> & Hr). mstep. by eexists.
Qed.

(** A read that answers the request on the scores, none for a missing key. *)
Definition plain_read (q : Request) : bool :=
  match q with
  | QCard | QScore _ | QRank _ _ | QByRank _ _ _ | QByScore _ _ _ | QByLex _ _ | QCount _ | QLexCount _ _ => true
  | _ => false
  end.

Lemma plain_read_acts now k none f q : plain_read q = true -> answer q ∅ none ∅ ->
  (forall z m, ZSetData.repr z m -> exists r, f z = Some (inr r) /\ answer q m r m) -> zacts now k q (read_zset now k none f).
Proof.
  intros Hq Hn Hf. apply read_zset_acts.
  - destruct q; try discriminate Hq; exists none, ∅; done.
  - intros cell Em. unfold zset_post. rewrite Em. by destruct q.
  - intros cell z m _ Em R. destruct (Hf z m R) as (r & -> & Ha). eexists. split; [done|]. unfold zset_post. rewrite Em.
    destruct q; try discriminate Hq; exists r, m; done.
Qed.

Lemma lists_nil (ws : bool) : lists [] ws (array []).
Proof. by exists []. Qed.

Lemma says_none : says None null.
Proof. by exists None. Qed.

Lemma score_says z m x : ZSetData.repr z m -> says (m !! x) (score_reply (ZSetData.score z x)).
Proof. intros R. exists (ZSetData.score z x). split; [by apply ZSetData.repr_score|done]. Qed.

Lemma zcard_acts now k : zacts now k QCard (read_zset now k (int 0) (fun z => Some (inr (int (Z.of_nat (ZSetData.len z)))))).
Proof. apply plain_read_acts; [done|done|]. intros z m R. rewrite (ZSetData.zset_repr_len z m R). eexists. split; [done|]. by split. Qed.

Lemma zscore_acts now k x : zacts now k (QScore x) (read_zset now k null (fun z => Some (inr (score_reply (ZSetData.score z x))))).
Proof.
  apply plain_read_acts; [done| |].
  - split; [|done]. rewrite lookup_empty. apply says_none.
  - intros z m R. eexists. split; [done|]. split; [by apply score_says|done].
Qed.

Lemma zrank_acts now k x rev : zacts now k (QRank x rev) (read_zset now k null (fun z =>
  r ← ZSetData.rank z x rev; Some (inr (match r with Some n => int (Z.of_nat n) | None => null end)))).
Proof.
  apply plain_read_acts; [done| |].
  - split; [|done]. unfold ZSetData.spec_rank. by rewrite lookup_empty.
  - intros z m R. rewrite (ZSetData.rank_refines z m x rev R). mstep. eexists. split; [done|]. split; [|done]. by destruct (ZSetData.spec_rank m x rev).
Qed.

Lemma zrevrange_acts now k start stop (ws : bool) : zacts now k (QByRank start stop ws) (read_zset now k (array []) (fun z =>
  l ← ZSetData.range_by_rank z start stop true; Some (inr (array (format_zrange_result l ws))))).
Proof.
  apply plain_read_acts; [done| |].
  - split; [|done]. rewrite zlist_empty, spec_range_nil. apply lists_nil.
  - intros z m R. pose proof (ZSetData.range_by_rank_refines z m start stop true R) as E.
    destruct (ZSetData.range_by_rank z start stop true) as [l|]; [|done]. simpl in E. injection E as E. mstep.
    eexists. split; [done|]. split; [|done]. by exists l.
Qed.

Lemma span_lists z m sp rev off lim (ws : bool) : ZSetData.repr z m -> lists (in_span sp m rev off lim) ws
  (array (format_zrange_result (ZSetData.range_by_score z (lo sp) (lo_excl sp) (hi sp) (hi_excl sp) rev off lim) ws)).
Proof. intros R. eexists. split; [|done]. by apply ZSetData.range_by_score_refines. Qed.

Lemma range_by_score_acts now k sp rev op : zacts now k (QByScore sp rev op) (read_zset now k (array []) (fun z =>
  Some (inr (array (format_zrange_result
    (ZSetData.range_by_score z (lo sp) (lo_excl sp) (hi sp) (hi_excl sp) rev (offset op) (limit op)) (withscores op)))))).
Proof.
  apply plain_read_acts; [done| |].
  - split; [|done]. rewrite in_span_empty. apply lists_nil.
  - intros z m R. eexists. split; [done|]. split; [by apply span_lists|done].
Qed.

Lemma lex_empty a ai b bi : ZSetData.spec_range_by_lex ∅ a ai b bi = [].
Proof. unfold ZSetData.spec_range_by_lex. by rewrite map_to_list_empty. Qed.

Lemma zrangebylex_acts now k first second : zacts now k (QByLex first second) (
  let '(min_b, min_excl, max_b, max_excl) := parse_lex_bounds first second in
  read_zset now k (array []) (fun z => Some (inr (array (map bulk (ZSetData.range_by_lex_members z min_b min_excl max_b max_excl)))))).
Proof.
  unfold parse_lex_bounds. apply plain_read_acts; [done| |].
  - split; [|done]. unfold lex_members, parse_lex_bounds. by rewrite lex_empty.
  - intros z m R. rewrite (ZSetData.range_by_lex_refines z m _ _ _ _ R). eexists. split; [done|]. by split.
Qed.

Lemma zcount_acts now k sp : zacts now k (QCount sp) (read_zset now k (int 0) (fun z => Some (inr (int (Z.of_nat (length
  (ZSetData.range_by_score z (lo sp) (lo_excl sp) (hi sp) (hi_excl sp) false 0 None))))))).
Proof.
  apply plain_read_acts; [done| |].
  - split; [|done]. by rewrite in_span_empty.
  - intros z m R. eexists. split; [done|]. split; [|done]. unfold in_span.
    rewrite <- (ZSetData.range_by_score_refines z m _ _ _ _ _ _ _ R). by rewrite length_fmap.
Qed.

Lemma zlexcount_acts now k a b : zacts now k (QLexCount a b) (read_zset now k (int 0) (fun z =>
  Some (inr (int (Z.of_nat (length (ZSetData.range_by_lex_members z (lex_bound "-" trim_markers a) (starts_with (bstr "(") a)
    (lex_bound "+" trim_markers b) (starts_with (bstr "(") b)))))))).
Proof.
  apply plain_read_acts; [done| |].
  - split; [|done]. by rewrite lex_empty.
  - intros z m R. rewrite (ZSetData.range_by_lex_refines z m _ _ _ _ R). eexists. split; [done|]. by split.
Qed.

Lemma zmscore_acts now k ws : zacts now k (QScores ws) (fun s =>
  found ← read_for k (Database.get_ro now k) s;
  Some (inr (array (map (fun a =>
    match get_bytes_vec [a] 0 "ZMSCORE", found with
    | inr member, Some e => match Entry.value e with TZSet z => score_reply (ZSetData.score z member) | _ => null end
    | _, _ => null
    end) (bulk <$> ws))), s)).
Proof.
  apply read_only_acts. intros s cell W S. rewrite read_live by done. eexists. split; [done|]. unfold zset_post.
  split; [done|]. eexists. split; [done|]. induction ws as [|w ws IH]; [constructor|]. cbn [fmap list_fmap map].
  constructor; [|exact IH]. change (get_bytes_vec [bulk w] 0 "ZMSCORE") with (@inr NexradeError bytes w). cbv iota. clear IH.
  destruct (live now (slot s k)) as [e|] eqn:L.
  - destruct (live_cases zset_kind now _ e cell L S) as (Hc & _). simpl in Hc.
    destruct (Entry.value e); try (rewrite Hc; apply says_none). destruct Hc as (m & _ & -> & R & _). by apply score_says.
  - rewrite (sees_none zset_kind now _ cell L S). cbn [contents mbind option_bind nothing zset_kind]. rewrite lookup_empty. apply says_none.
Qed.

Lemma page_elem {A} op (l : list A) x : x ∈ page op l -> x ∈ l.
Proof.
  unfold page. intros Hx. assert (x ∈ drop (offset op) l).
  { destruct (limit op); [|done]. by eapply elem_of_sublist, sublist_take. }
  by eapply elem_of_sublist, sublist_drop.
Qed.

Lemma lex_members_in a ai b bi m x : x ∈ ZSetData.spec_range_by_lex m a ai b bi -> is_Some (m !! x).
Proof.
  unfold ZSetData.spec_range_by_lex. intros [_ Hx]%list_elem_of_filter. rewrite merge_sort_Permutation in Hx.
  apply list_elem_of_fmap in Hx as ([y r] & -> & Hy). apply elem_of_map_to_list in Hy. by exists r.
Qed.

Lemma lex_items_answer z m first second op : ZSetData.repr z m -> range_kind op first second = Lex ->
  range_answer first second op m (inr (array (lex_items z op first second))).
Proof.
  intros R Hk. unfold range_answer. rewrite Hk. unfold lex_items, lex_members, parse_lex_bounds. rewrite (ZSetData.range_by_lex_refines z m _ _ _ _ R).
  set (xs := ZSetData.spec_range_by_lex m _ _ _ _). set (f := fun x => _ ++ [bulk x]).
  exists (map f (page op (if rev_ op then reverse xs else xs))). split; [done|]. apply Forall2_fmap_r, Forall_Forall2_diag, Forall_forall. intros x Hx%page_elem.
  assert (is_Some (m !! x)) as [r Hr].
  { apply (lex_members_in (lex_bound "-" strip_exclusive first) (starts_with (bstr "(") first)
      (lex_bound "+" strip_exclusive second) (starts_with (bstr "(") second)). destruct (rev_ op); [by rewrite elem_of_reverse in Hx|done]. }
  unfold f. destruct (withscores op); [|done]. pose proof (ZSetData.repr_score z m x R) as Hs. pose proof (score_says z m x R) as Hy. rewrite Hr in *.
  destruct (ZSetData.score z x) as [sc|] eqn:Es; [|done]. eexists. split; [exact Hy|]. simpl. by rewrite Es.
Qed.

Lemma zrange_acts now k first second op : zacts now k (QRange first second op) (read_zset now k (array []) (fun z =>
  r ← zrange_items z op first second; Some (let! out := r in inr (array out)))).
Proof.
  apply read_zset_acts; [done|intros cell Em; unfold zset_post; by rewrite Em|].
  intros cell z m Hc Em R. unfold zset_post. rewrite Em. unfold zrange_items.
  assert (P : forall r, range_answer first second op m r -> (cell : Cell) = cell /\ match cell with Some _ => range_answer first second op m r | None => r = inr (array []) end)
    by (intros r Hr; split; [done|by destruct cell]).
  destruct (range_kind op first second) eqn:Hk.
  - destruct (parse_i64 first) as [a|] eqn:E1, (parse_i64 second) as [b|] eqn:E2;
      try (eexists; split; [done|]; apply P; unfold range_answer; rewrite Hk, E1, ?E2; done).
    pose proof (ZSetData.range_by_rank_refines z m a b (rev_ op) R) as E.
    destruct (ZSetData.range_by_rank z a b (rev_ op)) as [l|]; [|done]. simpl in E. injection E as E. mstep.
    eexists. split; [done|]. apply P. unfold range_answer. rewrite Hk, E1, E2. eexists. split; [done|]. by exists l.
  - eexists. split; [done|]. apply P. unfold range_answer. rewrite Hk.
    destruct (parse_score_bound first) as [|[lo le]]; [done|]. simpl. destruct (parse_score_bound second) as [|[hi he]]; [done|]. simpl.
    eexists. split; [done|]. by apply (span_lists z m (mkSpan lo le hi he)).
  - eexists. split; [done|]. by apply P, lex_items_answer.
Qed.

(** ** The handlers *)

(** The words are refused, or the handler acts as their request does. *)
Definition meets now (c : ZSetCommand) k ws : Prop :=
  match request c ws with
  | inl e => forall s, exec_zset now c (zset_args (zset_name c) k ws) s = Some (inl e, s)
  | inr (Some q) => zacts now k q (exec_zset now c (zset_args (zset_name c) k ws))
  | inr None => c = ZADD
  end.

Lemma zadd_meets now k ws : meets now ZADD k ws.
Proof.
  unfold meets. destruct ws as [|a [|b ws]]; [done..|]. cbn [request]. unfold zadd_request. set (l := a :: b :: ws).
  assert (E : forall s, exec_zset now ZADD (zset_args "ZADD" k l) s =
    (let? (o, rest) := zadd_options (bulk <$> l) (mkZaddOptions false false false false false false) at s in
     let? _ := zadd_check o rest at s in on_shard (shard_idx s k) (zadd_body thr now k o rest) s)) by done.
  cbn [zset_name]. destruct (zadd_options (bulk <$> l) _) as [e|[op rest]]; [done|]. cbn [bindr].
  destruct (zadd_check op rest) as [e|[]] eqn:Hc; [intros s; rewrite E; cbn [try_at]; by rewrite Hc|]. cbn [bindr].
  destruct (score_pairs rest) as [pairs|] eqn:Hp; [|done].
  fold (zadd_asked op pairs). destruct (zadd_asked op pairs) as [q|] eqn:Hq; [|done].
  eapply acts_ext; [|by apply serves_acts, (zadd_serves now k op rest pairs q)]. intros s. rewrite E. cbn [try_at]. by rewrite Hc.
Qed.

Ltac words ws := destruct ws as [|? [|? [|? ?]]]; try done; cbn [request zset_name].

Lemma zincrby_meets now k ws : meets now ZINCRBY k ws.
Proof.
  unfold meets. destruct ws as [|w0 [|x [|? ?]]]; try done. cbn [request zset_name]. unfold score_word.
  assert (E : forall s, exec_zset now ZINCRBY (zset_args "ZINCRBY" k [w0; x]) s =
    (let? w := get_str [bulk w0] 0 "ZINCRBY" at s in
     let? (delta, _) := parse_score_bound w at s in on_shard (shard_idx s k) (zincrby_body thr now k x delta) s)) by done.
  destruct (get_str [bulk w0] 0 "ZINCRBY") as [e|w]; [done|]. cbn [bindr try_at] in *.
  destruct (parse_score_bound w) as [e|[delta ex]]; [done|]. cbn [bindr try_at] in *.
  eapply acts_ext; [exact E|]. apply serves_acts, (zincrby_serves now k x delta).
Qed.

Lemma simple_meets now c k ws : match c with ZCARD | ZSCORE | ZMSCORE | ZRANK | ZREVRANK | ZREM => True | _ => False end -> meets now c k ws.
Proof.
  intros Hc. unfold meets. destruct c; try done.
  - words ws. apply zcard_acts.
  - words ws. apply zscore_acts.
  - destruct ws as [|w ws]; [done|]. cbn [request asks zset_name]. apply (zmscore_acts now k (w :: ws)).
  - destruct ws as [|w ws]; [done|]. cbn [request asks zset_name]. apply zrank_acts.
  - destruct ws as [|w ws]; [done|]. cbn [request asks zset_name]. apply zrank_acts.
  - destruct ws as [|w ws]; [done|]. cbn [request asks zset_name].
    by apply (serves_acts zset_kind now k (zset_need (QRemove (w :: ws)))), zrem_serves.
Qed.

(** The handlers that read two scores. *)
Lemma span_meets now c k a b rest (q : Span -> Request) (h : Span -> t -> may_panic (Result Resp * t)) :
  request c (a :: b :: rest) = (let! sp := span (zset_name c) a b in asks (q sp)) ->
  (forall s, exec_zset now c (zset_args (zset_name c) k (a :: b :: rest)) s =
    (let? w := get_str [bulk a] 0 (zset_name c) at s in
     let? (l, le) := parse_score_bound w at s in
     let? w := get_str [bulk b] 0 (zset_name c) at s in
     let? (u, ue) := parse_score_bound w at s in h (mkSpan l le u ue) s)) ->
  (forall sp, zacts now k (q sp) (h sp)) -> meets now c k (a :: b :: rest).
Proof.
  intros Hr E Hq. unfold meets. rewrite Hr. unfold span, score_word.
  destruct (get_str [bulk a] 0 (zset_name c)) as [e|w1]; [done|]. cbn [bindr try_at] in *.
  destruct (parse_score_bound w1) as [e|[l le]]; [done|]. cbn [bindr try_at] in *.
  destruct (get_str [bulk b] 0 (zset_name c)) as [e|w2]; [done|]. cbn [bindr try_at] in *.
  destruct (parse_score_bound w2) as [e|[u ue]]; [done|]. cbn [bindr try_at asks] in *.
  eapply acts_ext; [exact E|]. apply Hq.
Qed.

Lemma zcount_meets now k ws : meets now ZCOUNT k ws.
Proof.
  destruct ws as [|a [|b [|? ?]]]; try done.
  apply (span_meets now ZCOUNT k a b [] QCount (fun sp => read_zset now k (int 0) (fun z => Some (inr (int (Z.of_nat (length
    (ZSetData.range_by_score z (lo sp) (lo_excl sp) (hi sp) (hi_excl sp) false 0 None)))))))); [done|done|].
  intros sp. apply zcount_acts.
Qed.

Lemma zremrangebyscore_meets now k ws : meets now ZREMRANGEBYSCORE k ws.
Proof.
  destruct ws as [|a [|b [|? ?]]]; try done.
  apply (span_meets now ZREMRANGEBYSCORE k a b [] QRemoveByScore (fun sp s => on_shard (shard_idx s k) (take_body now k (int 0) (fun z =>
    remove_range thr (ZSetData.range_by_score z (lo sp) (lo_excl sp) (hi sp) (hi_excl sp) false 0 None).*1 z)) s)); [done|done|].
  intros sp. apply serves_acts, zremrangebyscore_serves.
Qed.

(** The handlers that read two ranks. *)
Lemma ranks_meets now c k a b rest (q : Z -> Z -> Request) (h : Z -> Z -> t -> may_panic (Result Resp * t)) :
  request c (a :: b :: rest) =
    (let! x := get_i64 [bulk a] 0 (zset_name c) in let! y := get_i64 [bulk b] 0 (zset_name c) in asks (q x y)) ->
  (forall s, exec_zset now c (zset_args (zset_name c) k (a :: b :: rest)) s =
    (let? x := get_i64 [bulk a] 0 (zset_name c) at s in let? y := get_i64 [bulk b] 0 (zset_name c) at s in h x y s)) ->
  (forall x y, zacts now k (q x y) (h x y)) -> meets now c k (a :: b :: rest).
Proof.
  intros Hr E Hq. unfold meets. rewrite Hr. destruct (get_i64 [bulk a] 0 (zset_name c)) as [e|x]; [done|]. cbn [bindr try_at] in *.
  destruct (get_i64 [bulk b] 0 (zset_name c)) as [e|y]; [done|]. cbn [bindr try_at asks] in *.
  eapply acts_ext; [exact E|]. apply Hq.
Qed.

Lemma zrevrange_meets now k ws : meets now ZREVRANGE k ws.
Proof.
  destruct ws as [|a [|b rest]]; try done.
  apply (ranks_meets now ZREVRANGE k a b rest (fun x y => QByRank x y (has_withscores (bulk <$> rest) 0))
    (fun x y => read_zset now k (array []) (fun z =>
      l ← ZSetData.range_by_rank z x y true; Some (inr (array (format_zrange_result l (has_withscores (bulk <$> rest) 0))))))); [done|done|].
  intros x y. apply zrevrange_acts.
Qed.

Lemma zremrangebyrank_meets now k ws : meets now ZREMRANGEBYRANK k ws.
Proof.
  destruct ws as [|a [|b [|? ?]]]; try done.
  apply (ranks_meets now ZREMRANGEBYRANK k a b [] QRemoveByRank (fun x y s => on_shard (shard_idx s k) (take_body now k (int 0) (fun z =>
    l ← ZSetData.range_by_rank z x y false; remove_range thr l.*1 z)) s)); [done|done|].
  intros x y. apply serves_acts, zremrangebyrank_serves.
Qed.

(** The handlers that read two strings. *)
Lemma strings_meets now c k a b rest (q : bytes -> bytes -> Result (option Request))
    (h : bytes -> bytes -> t -> may_panic (Result Resp * t)) :
  request c (a :: b :: rest) = (let! x := get_str [bulk a] 0 (zset_name c) in let! y := get_str [bulk b] 0 (zset_name c) in q x y) ->
  (forall s, exec_zset now c (zset_args (zset_name c) k (a :: b :: rest)) s =
    (let? x := get_str [bulk a] 0 (zset_name c) at s in let? y := get_str [bulk b] 0 (zset_name c) at s in h x y s)) ->
  (forall x y, match q x y with
    | inl e => forall s, h x y s = Some (inl e, s)
    | inr (Some q) => zacts now k q (h x y)
    | inr None => False
    end) -> meets now c k (a :: b :: rest).
Proof.
  intros Hr E Hq. unfold meets. rewrite Hr. destruct (get_str [bulk a] 0 (zset_name c)) as [e|x]; [done|]. cbn [bindr try_at] in *.
  destruct (get_str [bulk b] 0 (zset_name c)) as [e|y]; [done|]. cbn [bindr try_at] in *.
  specialize (Hq x y). destruct (q x y) as [e|[q'|]]; [intros s; rewrite E; apply Hq| |done]. eapply acts_ext; [exact E|exact Hq].
Qed.

Lemma zrangebylex_meets now k ws : meets now ZRANGEBYLEX k ws.
Proof.
  destruct ws as [|a [|b rest]]; try done.
  apply (strings_meets now ZRANGEBYLEX k a b rest (fun x y => asks (QByLex x y)) (fun x y =>
    let '(min_b, min_excl, max_b, max_excl) := parse_lex_bounds x y in
    read_zset now k (array []) (fun z => Some (inr (array (map bulk (ZSetData.range_by_lex_members z min_b min_excl max_b max_excl))))))); [done|done|].
  intros x y. apply zrangebylex_acts.
Qed.

Lemma zlexcount_meets now k ws : meets now ZLEXCOUNT k ws.
Proof.
  destruct ws as [|a [|b [|? ?]]]; try done.
  apply (strings_meets now ZLEXCOUNT k a b [] (fun x y => asks (QLexCount x y)) (fun x y => read_zset now k (int 0) (fun z =>
    Some (inr (int (Z.of_nat (length (ZSetData.range_by_lex_members z (lex_bound "-" trim_markers x) (starts_with (bstr "(") x)
      (lex_bound "+" trim_markers y) (starts_with (bstr "(") y))))))))); [done|done|].
  intros x y. apply zlexcount_acts.
Qed.

Lemma zrange_meets now k ws : meets now ZRANGE k ws.
Proof.
  destruct ws as [|a [|b rest]]; try done.
  set (opts := zrange_options (S (S (S (S (length rest))))) true "ZRANGE" (bulk <$> rest) no_options).
  apply (strings_meets now ZRANGE k a b rest
    (fun x y => let! o := opts in
      if bool_decide (range_kind o x y = Rank) && bool_decide (is_Some (limit o)) then
        inl (Generic (bstr "syntax error, LIMIT is only supported in combination with either BYSCORE or BYLEX"))
      else asks (QRange x y o))
    (fun x y s => let? o := opts at s in
      if bool_decide (range_kind o x y = Rank) && bool_decide (is_Some (limit o)) then
        Some (inl (Generic (bstr "syntax error, LIMIT is only supported in combination with either BYSCORE or BYLEX")), s)
      else read_zset now k (array []) (fun z => r ← zrange_items z o x y; Some (let! out := r in inr (array out))) s)).
  - cbn [request]. unfold opts. cbn [length]. by rewrite Nat.add_comm.
  - intros s. cbn [exec_zset zset_name]. unfold cmd_zrange, opts, zset_args. rewrite bool_decide_eq_false_2 by (simpl; lia).
    cbn [length]. rewrite length_fmap. done.
  - intros x y. destruct opts as [e|o]; [done|]. cbn [bindr try_at]. destruct (_ && _); [done|]. apply zrange_acts.
Qed.

(** [lo] and [hi] are the words of the lower and the upper bound. *)
Lemma by_score_meets now c k (rev : bool) ws (wl wh : bytes) opts :
  request c ws = (let! _ := get_str [bulk wl] 0 (zset_name c) in let! _ := get_str [bulk wh] 0 (zset_name c) in
                  let! sp := span (zset_name c) wl wh in let! o := opts in asks (QByScore sp rev o)) ->
  (forall s, exec_zset now c (zset_args (zset_name c) k ws) s =
    (let? min_str := get_str [bulk wl] 0 (zset_name c) at s in
     let? max_str := get_str [bulk wh] 0 (zset_name c) at s in
     let? (min, min_excl) := parse_score_bound min_str at s in
     let? (max, max_excl) := parse_score_bound max_str at s in
     let? o := opts at s in
     read_zset now k (array []) (fun z => Some (inr (array (format_zrange_result
        (ZSetData.range_by_score z min min_excl max max_excl rev (offset o) (limit o)) (withscores o))))) s)) ->
  meets now c k ws.
Proof.
  intros Hr E. unfold meets. rewrite Hr. unfold span, score_word.
  destruct (get_str [bulk wl] 0 (zset_name c)) as [e|x]; [done|]. cbn [bindr try_at] in *.
  destruct (get_str [bulk wh] 0 (zset_name c)) as [e|y]; [done|]. cbn [bindr try_at] in *.
  destruct (parse_score_bound x) as [e|[l le]]; [done|]. cbn [bindr try_at] in *.
  destruct (parse_score_bound y) as [e|[u ue]]; [done|]. cbn [bindr try_at] in *.
  destruct opts as [e|o]; [done|]. cbn [bindr try_at asks] in *.
  eapply acts_ext; [exact E|]. apply (range_by_score_acts now k (mkSpan l le u ue) rev o).
Qed.

Lemma zrangebyscore_meets now k ws : meets now ZRANGEBYSCORE k ws.
Proof.
  destruct ws as [|a [|b rest]]; try done.
  apply (by_score_meets now ZRANGEBYSCORE k false (a :: b :: rest) a b
    (zrange_options (S (S (S (S (length rest))))) false "ZRANGEBYSCORE" (bulk <$> rest) no_options)).
  - cbn [request length]. by rewrite Nat.add_comm.
  - intros s. cbn [exec_zset zset_name]. unfold cmd_zrangebyscore, range_by_score, zset_args.
    rewrite bool_decide_eq_false_2 by (simpl; lia). cbn [length]. by rewrite length_fmap.
Qed.

Lemma zrevrangebyscore_meets now k ws : meets now ZREVRANGEBYSCORE k ws.
Proof.
  destruct ws as [|a [|b rest]]; try done.
  apply (by_score_meets now ZREVRANGEBYSCORE k true (a :: b :: rest) b a
    (zrange_options (S (S (S (S (length rest))))) false "ZREVRANGEBYSCORE" (bulk <$> rest) no_options)).
  - cbn [request length]. by rewrite Nat.add_comm.
  - intros s. cbn [exec_zset zset_name]. unfold cmd_zrevrangebyscore, range_by_score, zset_args.
    rewrite bool_decide_eq_false_2 by (simpl; lia). cbn [length]. by rewrite length_fmap.
Qed.

Lemma pop_meets now c k ws (max : bool) :
  match c with ZPOPMIN => max = false | ZPOPMAX => max = true | _ => False end -> meets now c k ws.
Proof.
  intros Hc. unfold meets.
  assert (E : forall s, exec_zset now c (zset_args (zset_name c) k ws) s =
    (let? n := zpop_count (zset_args (zset_name c) k ws) (zset_name c) at s in
     on_shard (shard_idx s k) (take_body now k (array []) (fun z =>
       '(l, delta, z) ← zpop_members thr max n z; Some (array (popped_flat l), delta, z))) s))
    by (intros s; destruct c; try done; subst max; done).
  assert (R : request c ws = (let! n := zpop_count (zset_args (zset_name c) k ws) (zset_name c) in asks (QPop max n))).
  { destruct c; try done; subst max; (destruct ws as [|w ws]; [done|]); unfold zpop_count;
      rewrite bool_decide_eq_true_2 by (simpl; lia); cbn [request zset_name];
      match goal with |- _ = bindr (bindr (get_i64 _ 2 ?n) _) _ => change (get_i64 _ 2 n) with (get_i64 [bulk w] 0 n); destruct (get_i64 [bulk w] 0 n) as [|x] end;
      [done|cbn [bindr]; by case_bool_decide|done|cbn [bindr]; by case_bool_decide]. }
  rewrite R. destruct (zpop_count _ _) as [e|n] eqn:En; [done|]. cbn [bindr try_at asks] in *.
  assert (Hn : (0 <= n)%Z).
  { unfold zpop_count in En. revert En. case_bool_decide; [|by intros [= <-]]. destruct (get_i64 _ _ _) as [|x]; [done|]. cbn [bindr].
    case_bool_decide; [done|]. intros [= <-]. lia. }
  eapply acts_ext; [exact E|]. by apply serves_acts, zpop_serves.
Qed.

Lemma zset_meets now c k ws : meets now c k ws.
Proof.
  destruct c; try (by apply simple_meets).
  - apply zadd_meets.
  - apply zincrby_meets.
  - apply zrange_meets.
  - apply zrevrange_meets.
  - apply zrangebyscore_meets.
  - apply zrevrangebyscore_meets.
  - apply zrangebylex_meets.
  - apply zcount_meets.
  - apply zlexcount_meets.
  - apply zremrangebyrank_meets.
  - apply zremrangebyscore_meets.
  - by apply (pop_meets now ZPOPMIN k ws false).
  - by apply (pop_meets now ZPOPMAX k ws true).
Qed.

End Spec.

(** ** Runs *)

Section Witness.
#[local] Existing Instance SetData.vec_index_set.
#[local] Existing Instance canonical_order.
#[local] Existing Instance ascii_case.
#[local] Existing Instance merge_sort_by_fst.
#[local] Existing Instance ieee_order.
#[local] Existing Instance pattern_text.
#[local] Existing Instance pattern_format.

Definition zset_of (ps : list (bytes * f64)) : ZSetData.ZSetData * gmap bytes Z :=
  (ZSetData.from_pairs ZSetData.default_thresholds ps, okey <$> fold_left (fun m p => <[p.1 := p.2]> m) ps (∅ : gmap bytes f64)).

Definition TWO : f64 := f64_add ONE ONE.

Definition zset_stock : list (bytes * (ZSetData.ZSetData * gmap bytes Z)) :=
  [(bstr "a", zset_of [(bstr "x", ONE); (bstr "y", TWO)])].

Lemma zset_stock_ok now : swf (stocked zset_kind zset_stock) /\
  forall j, sees zset_kind now (slot (stocked zset_kind zset_stock) j) (stock_cells (A := gmap bytes Z) zset_stock j).
Proof.
  apply (stocked_ok zset_kind).
  - by apply (bool_decide_unpack _).
  - repeat constructor. apply ZSetData.from_pairs_refines; [done|]. repeat constructor; by vm_compute.
  - intros k. apply room_all. vm_compute. reflexivity.
Qed.


Definition answer_of (o : may_panic (Result Resp * t)) : option (Result Resp) := fst <$> o.

Definition type_at (key : bytes) (o : may_panic (Result Resp * t)) : option (option nat) :=
  '(_, s) ← o; Some (e ← slot s key; match Entry.value e with TZSet z => Some (ZSetData.len z) | _ => None end).

(** A score that is no number is found after the key has been created: the empty
    sorted set stays. *)
Lemma zadd_bad_score_creates_key :
  let run := exec_zset ZSetData.default_thresholds 100 ZADD (zset_args "ZADD" (bstr "new") [bstr "abc"; bstr "m"]) (stocked zset_kind zset_stock) in
  answer_of run = Some (inl NotFloat) /\ type_at (bstr "new") run = Some (Some 0).
Proof. split; vm_compute; reflexivity. Qed.

(** [ZADD a XX INCR 1 new] adds the member XX should keep out. *)
Lemma zadd_incr_ignores_xx :
  type_at (bstr "a") (exec_zset ZSetData.default_thresholds 100 ZADD
    (zset_args "ZADD" (bstr "a") [bstr "XX"; bstr "INCR"; dec ONE; bstr "new"]) (stocked zset_kind zset_stock)) = Some (Some 3).
Proof. vm_compute. reflexivity. Qed.

(** [ZRANGE a - + BYLEX WITHSCORES] puts every score before its member. *)
Lemma zrange_lex_scores_first :
  answer_of (exec_zset ZSetData.default_thresholds 100 ZRANGE
    (zset_args "ZRANGE" (bstr "a") [bstr "-"; bstr "+"; bstr "BYLEX"; bstr "WITHSCORES"]) (stocked zset_kind zset_stock))
  = Some (inr (array [bulk (format_float ONE); bulk (bstr "x"); bulk (format_float TWO); bulk (bstr "y")])).
Proof. vm_compute. reflexivity. Qed.

(** ZLEXCOUNT strips every marker of a bound, ZRANGEBYLEX one. *)
Lemma lex_markers_differ :
  answer_of (exec_zset ZSetData.default_thresholds 100 ZLEXCOUNT (zset_args "ZLEXCOUNT" (bstr "a") [bstr "[[y"; bstr "+"]) (stocked zset_kind zset_stock))
    = Some (inr (int 1)) /\
  answer_of (exec_zset ZSetData.default_thresholds 100 ZRANGEBYLEX (zset_args "ZRANGEBYLEX" (bstr "a") [bstr "[[y"; bstr "+"]) (stocked zset_kind zset_stock))
    = Some (inr (array [bulk (bstr "x"); bulk (bstr "y")])).
Proof. split; vm_compute; reflexivity. Qed.

(** A union of nothing is stored as a key with an empty set. *)
Lemma zunionstore_stores_nothing :
  let run := cmd_zunionstore ZSetData.default_thresholds 100
    [bulk (bstr "ZUNIONSTORE"); bulk (bstr "d"); bulk (bstr "1"); bulk (bstr "none")] (stocked zset_kind zset_stock) in
  answer_of run = Some (inr (int 0)) /\ type_at (bstr "d") run = Some (Some 0).
Proof. split; vm_compute; reflexivity. Qed.

(** [ZRANGE a 2 1 BYSCORE REV], upper bound first as REV asks for, finds nothing. *)
Lemma zrange_rev_does_not_swap :
  answer_of (exec_zset ZSetData.default_thresholds 100 ZRANGE
    (zset_args "ZRANGE" (bstr "a") [dec TWO; dec ONE; bstr "BYSCORE"; bstr "REV"]) (stocked zset_kind zset_stock)) = Some (inr (array [])).
Proof. vm_compute. reflexivity. Qed.
End Witness.
