(* ===== verification/BitCommands.v ===== *)
(** * BitCommands: the handlers of the bitmap commands ([command/bit.rs])

    SETBIT, GETBIT, BITCOUNT, BITPOS, BITOP, BITFIELD and BITFIELD_RO.  A bitmap is
    the bytes of a string, the most significant bit of a byte first. *)

From S2P Require Import Prelude Text Types Keyspace Shards Resp CommandArgs SetCommands.
From S2P Require SetData.

Import ShardedDatabase.

(** ** Bits of bytes *)

(** [(byte >> pos) & 1]. *)
Definition bit_at (x : byte) (pos : nat) : Z := Z.land (Z.shiftr (byte_val x) (Z.of_nat pos)) 1.

(** [byte |= 1 << pos] and [byte &= !(1 << pos)] on a [u8]. *)
Definition with_bit (x : byte) (pos : nat) (v : bool) : byte :=
  let mask := Z.shiftl 1 (Z.of_nat pos) in
  byte_of (if v then Z.lor (byte_val x) mask else Z.land (byte_val x) (Z.lnot mask)).

(** [u8::count_ones]. *)
Definition count_ones (x : byte) : nat := length (filter (fun p => bit_at x p = 1%Z) (seq 0 8)).

(** [Vec::resize] with zeros, when the vector is shorter. *)
Definition grown (bits : bytes) (n : nat) : bytes := bits ++ replicate (n - length bits) (byte_of 0).

Definition ensure_bitmap (bits : bytes) (byte_idx : nat) : bytes :=
  if bool_decide (length bits <= byte_idx) then grown bits (S byte_idx) else bits.

Definition normalize_signed (idx len : Z) : Z := if bool_decide (idx < 0)%Z then Z.max (len + idx) 0 else idx.

(** ** Bit fields *)

Inductive OverflowMode := Wrap | Sat | Fail.

#[export] Instance overflow_mode_eq : EqDecision OverflowMode.
Proof. solve_decision. Defined.

Definition MAX_BIT_OFFSET : Z := 4294967295.

(** The loop of [read_bitfield]: a [u64] from the bits that are there. *)
Definition read_step (bs : bytes) (bit_offset bits : nat) (val : Z) (i : nat) : Z :=
  let global_bit := bit_offset + i in
  match bs !! (global_bit / 8) with
  | Some x => if bool_decide (bit_at x (7 - global_bit mod 8) = 1%Z) then Z.lor val (Z.shiftl 1 (Z.of_nat (bits - 1 - i))) else val
  | None => val
  end.

(** [val as i64]. *)
Definition read_bitfield (bs : bytes) (bit_offset bits : nat) (signed : bool) : Z :=
  let val := fold_left (read_step bs bit_offset bits) (seq 0 bits) 0%Z in
  let val := if signed && bool_decide (bits < 64) && bool_decide (Z.land (Z.shiftr val (Z.of_nat bits - 1)) 1 = 1%Z)
             then Z.lor val (wrap64 (Z.shiftl (2 ^ 64 - 1) (Z.of_nat bits))) else val in
  wrap_i64 val.

Definition write_step (bit_offset bits : nat) (v : Z) (bs : bytes) (i : nat) : bytes :=
  let global_bit := bit_offset + i in
  match bs !! (global_bit / 8) with
  | Some x => <[global_bit / 8 := with_bit x (7 - global_bit mod 8)
                (bool_decide (Z.land (Z.shiftr v (Z.of_nat (bits - 1 - i))) 1 = 1%Z))]> bs
  | None => bs
  end.

Definition write_bitfield (bs : bytes) (bit_offset bits : nat) (value : Z) : bytes :=
  fold_left (write_step bit_offset bits (wrap64 value)) (seq 0 bits) bs.

(** The sum wraps around at 64 bits before the mode is looked at. *)
Definition overflow_add (cur incr : Z) (bits : nat) (signed : bool) (mode : OverflowMode) : option Z :=
  let result := wrap_i64 (cur + incr) in
  if signed then
    let min := if bool_decide (bits = 64) then i64_min else (- Z.shiftl 1 (Z.of_nat bits - 1))%Z in
    let max := if bool_decide (bits = 64) then i64_max else (Z.shiftl 1 (Z.of_nat bits - 1) - 1)%Z in
    match mode with
    | Wrap => Some (wrap_i64 ((result - min) mod Z.shiftl 1 (Z.of_nat bits) + min))
    | Sat => Some (Z.min (Z.max result min) max)
    | Fail => if bool_decide (result < min)%Z || bool_decide (max < result)%Z then None else Some result
    end
  else
    let max := if bool_decide (bits = 64) then (-1)%Z else (Z.shiftl 1 (Z.of_nat bits) - 1)%Z in
    match mode with
    | Wrap => Some (wrap_i64 ((result mod 2 ^ 128) mod Z.shiftl 1 (Z.of_nat bits)))
    | Sat => Some (Z.min (Z.max result 0) max)
    | Fail => if bool_decide (result < 0)%Z || bool_decide (max < result)%Z then None else Some result
    end.

Section BitCommands.
Context `{SetData.IndexSet} `{UnicodeCase}.

Definition get_bitmap_bytes (e : Entry.t) : Result bytes :=
  match Entry.value e with
  | TString v => inr v
  | TBitmap v => inr v
  | TInt cell => inr (show_int (AtomicIntCell.load cell))
  | _ => inl WrongType
  end.

(** ** SETBIT and GETBIT *)

(** The integer cell becomes a string, and the change of its counted size. *)
Definition demote_int (now : Z) (key : bytes) (d : Database.t) : Z * Database.t :=
  match Database.get_mut now key d with
  | (Some e, d) =>
      match Entry.value e with
      | TInt cell =>
          let s := show_int (AtomicIntCell.load cell) in
          ((Z.of_nat (length s) - 8)%Z, Database.write_back key (Entry.set_value (TString s) e) d)
      | _ => (0%Z, d)
      end
  | (None, d) => (0%Z, d)
  end.

(** A byte string changed in place: the reply, and the change of the counter. *)
Definition in_place {A} (now : Z) (key : bytes) (f : bytes -> may_panic (A * bytes)) (demote_delta : Z) (e : Entry.t) (d : Database.t) :
    may_panic (Result A * Database.t) :=
  let finish wrap v :=
    '(r, bits) ← f v;
    let grow_delta := (Z.of_nat (length bits) - Z.of_nat (length v))%Z in
    Some (inr r, Database.adjust_live_bytes (demote_delta + grow_delta)
                   (Database.write_back key (Entry.set_value (wrap bits) e) d)) in
  match Entry.value e with
  | TString s => finish TString s
  | TBitmap v => finish TBitmap v
  | _ => Some (inl WrongType, d)
  end.

Definition set_one (byte_idx bit_pos : nat) (value : Z) (v : bytes) : may_panic (Z * bytes) :=
  let bits := ensure_bitmap v byte_idx in
  x ← bits !! byte_idx;
  Some (bit_at x bit_pos, <[byte_idx := with_bit x bit_pos (bool_decide (value = 1%Z))]> bits).

Definition setbit_body (now : Z) (key : bytes) (byte_idx bit_pos : nat) (value : Z) (d : Database.t) :
    may_panic (Result Resp * Database.t) :=
  let '(demote_delta, d) := demote_int now key d in
  match Database.get_mut now key d with
  | (Some e, d) =>
      '(r, d) ← in_place now key (set_one byte_idx bit_pos value) demote_delta e d;
      Some (let! old := r in inr (int old), d)
  | (None, d) =>
      let zeros := replicate (S byte_idx) (byte_of 0) in
      let bits := if bool_decide (value = 1%Z) then <[byte_idx := with_bit (byte_of 0) bit_pos true]> zeros else zeros in
      let d := Database.insert key (Entry.new (TBitmap bits)) d in
      Some (inr (int 0), Database.adjust_live_bytes demote_delta d)
  end.

Definition cmd_setbit (now : Z) (args : list Resp) (s : t) : may_panic (Result Resp * t) :=
  if bool_decide (length args <> 4) then Some (inl (WrongArity (bstr "setbit")), s)
  else
    let? key := get_bytes_vec args 1 "SETBIT" at s in
    let? offset := get_i64 args 2 "SETBIT" at s in
    let? value := get_i64 args 3 "SETBIT" at s in
    if negb (bool_decide (0 <= offset <= 4294967295)%Z) then Some (inl BitError, s)
    else if bool_decide (value <> 0%Z) && bool_decide (value <> 1%Z) then
      Some (inl (Generic (bstr "bit is not an integer or out of range")), s)
    else
      let byte_idx := Z.to_nat (offset / 8) in
      let bit_pos := 7 - Z.to_nat (offset mod 8) in
      on_shard (shard_idx s key) (setbit_body now key byte_idx bit_pos value) s.

(** The commands that only look, under the write guard all the same. *)
Definition read_bits (now : Z) (key : bytes) (none : Resp) (f : bytes -> may_panic (Result Resp)) (s : t) :
    may_panic (Result Resp * t) :=
  on_shard (shard_idx s key) (fun d =>
    match Database.get now key d with
    | (None, d) => Some (inr none, d)
    | (Some e, d) =>
        let? bs := get_bitmap_bytes e at d in
        r ← f bs; Some (r, d)
    end) s.

Definition cmd_getbit (now : Z) (args : list Resp) (s : t) : may_panic (Result Resp * t) :=
  if bool_decide (length args <> 3) then Some (inl (WrongArity (bstr "getbit")), s)
  else
    let? key := get_bytes_vec args 1 "GETBIT" at s in
    let? offset := get_i64 args 2 "GETBIT" at s in
    if bool_decide (offset < 0)%Z then Some (inl BitError, s)
    else
      let byte_idx := (offset / 8)%Z in
      let bit_pos := 7 - Z.to_nat (offset mod 8) in
      read_bits now key (int 0) (fun bs =>
        if bool_decide (Z.of_nat (length bs) <= byte_idx)%Z then Some (inr (int 0))
        else x ← bs !! Z.to_nat byte_idx; Some (inr (int (bit_at x bit_pos)))) s.

(** ** BITCOUNT *)

(** The bits [start..=end] of a bit range, both clamped to the last bit. *)
Definition count_bits (bs : bytes) (start end_ : Z) : may_panic Z :=
  let len := (Z.of_nat (length bs) * 8)%Z in
  let s := Z.to_nat (Z.min (normalize_signed start len) (len - 1)) in
  let e := Z.to_nat (Z.min (normalize_signed end_ len) (len - 1)) in
  fold_left (fun count bit_idx =>
    count ← count;
    x ← bs !! (bit_idx / 8);
    Some (if bool_decide (bit_at x (7 - bit_idx mod 8) = 1%Z) then count + 1 else count)%Z) (seq s (S e - s)) (Some 0%Z).

Definition sum_ones (bs : bytes) : Z := Z.of_nat (sum_list (map count_ones bs)).

(** The range and its unit, when there is one. *)
Definition count_range (args : list Resp) : Result (option (Z * Z * bytes)) :=
  if bool_decide (4 <= length args) then
    let! start := get_i64 args 2 "BITCOUNT" in
    let! end_ := get_i64 args 3 "BITCOUNT" in
    let! unit := (if bool_decide (5 <= length args) then
                    let! u := get_str args 4 "BITCOUNT" in inr (to_uppercase u)
                  else inr (bstr "BYTE")) in
    inr (Some (start, end_, unit))
  else inr None.

Definition bitcount (args : list Resp) (bs : bytes) : may_panic (Result Resp) :=
  match count_range args with
  | inl e => Some (inl e)
  | inr None => Some (inr (int (sum_ones bs)))
  | inr (Some (start, end_, unit)) =>
      if bool_decide (bs = []) then Some (inr (int 0))
      else if bool_decide (unit = bstr "BIT") then n ← count_bits bs start end_; Some (inr (int n))
      else
        let len := Z.of_nat (length bs) in
        let s := normalize_signed start len in
        let e := Z.min (normalize_signed end_ len) (len - 1) in
        if bool_decide (e < s)%Z then Some (inr (int 0))
        else bs ← slice bs (Z.to_nat s) (Z.to_nat (e + 1)); Some (inr (int (sum_ones bs)))
  end.

Definition cmd_bitcount (now : Z) (args : list Resp) (s : t) : may_panic (Result Resp * t) :=
  if bool_decide (length args < 2) then Some (inl (WrongArity (bstr "bitcount")), s)
  else
    let? key := get_bytes_vec args 1 "BITCOUNT" at s in
    read_bits now key (int 0) (bitcount args) s.

(** ** BITPOS *)

(** The first bit of [idxs] that is [target]. *)
Fixpoint scan_bits (bs : bytes) (target : bool) (idxs : list nat) : may_panic Z :=
  match idxs with
  | [] => Some (-1)%Z
  | i :: idxs =>
      x ← bs !! (i / 8);
      if bool_decide (bool_decide (bit_at x (7 - i mod 8) = 1%Z) = target) then Some (Z.of_nat i)
      else scan_bits bs target idxs
  end.

(** A byte is walked from its least significant bit, which is bit 7. *)
Definition scan_byte (x : byte) (target : bool) : option nat :=
  list_find (fun bit_i => bool_decide (bit_at x (7 - bit_i) = 1%Z) = target) (rev (seq 0 8)) ≫= fun p => Some p.2.

Fixpoint scan_bytes (target : bool) (byte_idx : nat) (bs : bytes) : Z :=
  match bs with
  | [] => (-1)%Z
  | x :: bs =>
      match scan_byte x target with
      | Some bit_i => Z.of_nat (byte_idx * 8 + bit_i)
      | None => scan_bytes target (S byte_idx) bs
      end
  end.

(** The start, the end and whether they count bits. *)
Definition bitpos_range (args : list Resp) (bs : bytes) : Result (Z * Z * bool) :=
  if bool_decide (4 <= length args) then
    let! s := get_i64 args 3 "BITPOS" in
    let! unit := (if bool_decide (6 <= length args) then
                    let! u := get_str args 5 "BITPOS" in inr (bool_decide (to_uppercase u = bstr "BIT"))
                  else inr false) in
    let len := if (unit : bool) then (Z.of_nat (length bs) * 8)%Z else Z.of_nat (length bs) in
    let! e := (if bool_decide (5 <= length args) then get_i64 args 4 "BITPOS" else inr (len - 1)%Z) in
    inr (normalize_signed s len, normalize_signed e len, unit)
  else inr (0%Z, (Z.max (Z.of_nat (length bs) - 1) 0)%Z, false).

Definition bitpos (args : list Resp) (target : bool) (bs : bytes) : may_panic (Result Resp) :=
  match bitpos_range args bs with
  | inl e => Some (inl e)
  | inr (start, end_, unit) =>
      if bool_decide (bs = []) then Some (inr (int (-1)))
      else
        let last := if (unit : bool) then (Z.of_nat (length bs) * 8 - 1)%Z else (Z.of_nat (length bs) - 1)%Z in
        let s := Z.to_nat (Z.min start last) in
        let e := Z.to_nat (Z.min end_ last) in
        if bool_decide (e < s) then Some (inr (int (-1)))
        else if unit then n ← scan_bits bs target (seq s (S e - s)); Some (inr (int n))
        else part ← slice bs s (S e); Some (inr (int (scan_bytes target s part)))
  end.

Definition cmd_bitpos (now : Z) (args : list Resp) (s : t) : may_panic (Result Resp * t) :=
  if bool_decide (length args < 3) then Some (inl (WrongArity (bstr "bitpos")), s)
  else
    let? key := get_bytes_vec args 1 "BITPOS" at s in
    let? bit := get_i64 args 2 "BITPOS" at s in
    if bool_decide (bit <> 0%Z) && bool_decide (bit <> 1%Z) then Some (inl (Generic (bstr "bit argument must be 0 or 1")), s)
    else
      let target := bool_decide (bit = 1%Z) in
      read_bits now key (int (if target then -1 else 0)) (bitpos args target) s.

(** ** BITOP *)

Fixpoint bitop_sources (now : Z) (keys : list bytes) (sources : list bytes) (s : t) : may_panic (Result (list bytes) * t) :=
  match keys with
  | [] => Some (inr sources, s)
  | key :: keys =>
      '(found, s) ← fetch now key s;
      match found with
      | None => bitop_sources now keys (sources ++ [[]]) s
      | Some e =>
          let? bs := get_bitmap_bytes e at s in
          bitop_sources now keys (sources ++ [bs]) s
      end
  end.

(** [for (i, b) in result.iter_mut().enumerate() { *b = f( *b, src[i] or 0) }]. *)
Definition zip_into (f : Z -> Z -> Z) (result src : bytes) : bytes :=
  imap (fun i b => byte_of (f (byte_val b) (byte_val (default (byte_of 0) (src !! i))))) result.

Definition bitop_result (op : bytes) (sources : list bytes) : may_panic (Result bytes) :=
  let max_len := max_list (length <$> sources) in
  let zeros := replicate max_len (byte_of 0) in
  if bool_decide (op = bstr "AND") then Some (inr (fold_left (zip_into Z.land) sources (replicate max_len (byte_of 255))))
  else if bool_decide (op = bstr "OR") then Some (inr (fold_left (zip_into Z.lor) sources zeros))
  else if bool_decide (op = bstr "XOR") then Some (inr (fold_left (zip_into Z.lxor) sources zeros))
  else if bool_decide (op = bstr "NOT") then
    if bool_decide (max_len = 0) then Some (inr zeros)
    else first ← sources !! 0; Some (inr (zip_into (fun _ x => Z.lnot x) zeros first))
  else Some (inl (Generic (bstr "unknown BITOP operation: " ++ op))).

Definition cmd_bitop (now : Z) (args : list Resp) (s : t) : may_panic (Result Resp * t) :=
  if bool_decide (length args < 4) then Some (inl (WrongArity (bstr "bitop")), s)
  else
    let? op := get_str args 1 "BITOP" at s in
    let op := to_uppercase op in
    let? destkey := get_bytes_vec args 2 "BITOP" at s in
    if bool_decide (op = bstr "NOT") && bool_decide (length args <> 4) then
      Some (inl (Generic (bstr "BITOP NOT must be called with a single source key")), s)
    else
      let? src_keys := all_bytes (drop 3 args) "BITOP" at s in
      '(r, s) ← bitop_sources now src_keys [] s;
      let? sources := r at s in
      r ← bitop_result op sources;
      let? result := r at s in
      '(_, s) ← on_shard (shard_idx s destkey) (fun d => Some ((), Database.insert destkey (Entry.new (TBitmap result)) d)) s;
      Some (inr (int (Z.of_nat (length result))), s).

(** ** BITFIELD *)

Definition parse_type_offset (args : list Resp) (start : nat) : Result (nat * bool * nat) :=
  let! type_str := ok_or (args !! start ≫= as_str) (WrongArity (bstr "bitfield")) in
  let! signed := (if starts_with (bstr "i") type_str || starts_with (bstr "I") type_str then inr true
                  else if starts_with (bstr "u") type_str || starts_with (bstr "U") type_str then inr false
                  else inl (Generic (bstr "invalid BITFIELD type: " ++ type_str))) in
  let! bits := ok_or (parse_usize (drop 1 type_str)) BitError in
  if bool_decide (bits = 0%Z) || bool_decide (64 < bits)%Z || (negb signed && bool_decide (63 < bits)%Z) then inl BitError
  else
    let! offset_str := ok_or (args !! S start ≫= as_str) (WrongArity (bstr "bitfield")) in
    let! offset := ok_or (parse_usize offset_str) BitError in
    if bool_decide (MAX_BIT_OFFSET < offset)%Z then inl BitError
    else if bool_decide (2 ^ 64 <= offset + bits)%Z then inl BitError
    else inr (Z.to_nat bits, signed, Z.to_nat offset).

(** The bytes a field reaches: [(bit_offset + bits).div_ceil(8)]. *)
Definition byte_len (bit_offset bits : nat) : nat := (bit_offset + bits + 7) / 8.

Definition field_set (bits : nat) (signed : bool) (bit_offset : nat) (new_val : Z) (v : bytes) : may_panic (Z * bytes) :=
  let v := grown v (byte_len bit_offset bits) in
  Some (read_bitfield v bit_offset bits signed, write_bitfield v bit_offset bits new_val).

Definition field_incr (bits : nat) (signed : bool) (bit_offset : nat) (incr : Z) (mode : OverflowMode) (v : bytes) :
    may_panic (option Z * bytes) :=
  let v := grown v (byte_len bit_offset bits) in
  let cur := read_bitfield v bit_offset bits signed in
  Some (match overflow_add cur incr bits signed mode with
        | Some r => (Some r, write_bitfield v bit_offset bits r)
        | None => (None, v)
        end).

Definition field_get_body (now : Z) (key : bytes) (bits : nat) (signed : bool) (bit_offset : nat) (d : Database.t) :
    may_panic (Result Resp * Database.t) :=
  match Database.get now key d with
  | (None, d) => Some (inr (int 0), d)
  | (Some e, d) =>
      let? bs := get_bitmap_bytes e at d in
      Some (inr (int (read_bitfield bs bit_offset bits signed)), d)
  end.

Definition field_set_body (now : Z) (key : bytes) (bits : nat) (signed : bool) (bit_offset : nat) (new_val : Z) (d : Database.t) :
    may_panic (Result Resp * Database.t) :=
  let '(demote_delta, d) := demote_int now key d in
  match Database.get_mut now key d with
  | (None, d) =>
      let v := write_bitfield (replicate (byte_len bit_offset bits) (byte_of 0)) bit_offset bits new_val in
      Some (inr (int 0), Database.adjust_live_bytes demote_delta (Database.insert key (Entry.new (TBitmap v)) d))
  | (Some e, d) =>
      '(r, d) ← in_place now key (field_set bits signed bit_offset new_val) demote_delta e d;
      Some (let! old := r in inr (int old), d)
  end.

(** A failed increment of a missing key leaves it missing. *)
Definition field_incr_body (now : Z) (key : bytes) (bits : nat) (signed : bool) (bit_offset : nat) (incr : Z) (mode : OverflowMode)
    (d : Database.t) : may_panic (Result Resp * Database.t) :=
  let '(demote_delta, d) := demote_int now key d in
  let reply := fun r => match r with Some v => int v | None => null end in
  match Database.get_mut now key d with
  | (None, d) =>
      let v := replicate (byte_len bit_offset bits) (byte_of 0) in
      let '(r, d) :=
        match overflow_add 0 incr bits signed mode with
        | Some r => (Some r, Database.insert key (Entry.new (TBitmap (write_bitfield v bit_offset bits r))) d)
        | None => (None, d)
        end in
      Some (inr (reply r), Database.adjust_live_bytes demote_delta d)
  | (Some e, d) =>
      '(r, d) ← in_place now key (field_incr bits signed bit_offset incr mode) demote_delta e d;
      Some (let! r := r in inr (reply r), d)
  end.

Definition overflow_word (w : bytes) : OverflowMode :=
  if bool_decide (to_uppercase w = bstr "SAT") then Sat
  else if bool_decide (to_uppercase w = bstr "FAIL") then Fail
  else Wrap.

(** The subcommands in order, each under a guard of its own; unknown words are skipped. *)
Fixpoint bitfield_loop (now : Z) (key : bytes) (rest : list Resp) (overflow : OverflowMode) (responses : list Resp) (s : t) :
    may_panic (Result Resp * t) :=
  match rest with
  | [] => Some (inr (array responses), s)
  | sub :: rest =>
      let? sub := get_str [sub] 0 "BITFIELD" at s in
      let sub := to_uppercase sub in
      if bool_decide (sub = bstr "OVERFLOW") then
        let? w := get_str rest 0 "BITFIELD" at s in
        bitfield_loop now key (skip1 rest) (overflow_word w) responses s
      else if bool_decide (sub = bstr "GET") then
        let? ty := parse_type_offset rest 0 at s in
        let '(bits, signed, bit_offset) := ty in
        '(r, s) ← on_shard (shard_idx s key) (field_get_body now key bits signed bit_offset) s;
        let? r := r at s in
        bitfield_loop now key (skip1 (skip1 rest)) overflow (responses ++ [r]) s
      else if bool_decide (sub = bstr "SET") then
        let? ty := parse_type_offset rest 0 at s in
        let '(bits, signed, bit_offset) := ty in
        let? new_val := get_i64 rest 2 "BITFIELD" at s in
        '(r, s) ← on_shard (shard_idx s key) (field_set_body now key bits signed bit_offset new_val) s;
        let? r := r at s in
        bitfield_loop now key (skip1 (skip1 (skip1 rest))) overflow (responses ++ [r]) s
      else if bool_decide (sub = bstr "INCRBY") then
        let? ty := parse_type_offset rest 0 at s in
        let '(bits, signed, bit_offset) := ty in
        let? incr := get_i64 rest 2 "BITFIELD" at s in
        '(r, s) ← on_shard (shard_idx s key) (field_incr_body now key bits signed bit_offset incr overflow) s;
        let? r := r at s in
        bitfield_loop now key (skip1 (skip1 (skip1 rest))) overflow (responses ++ [r]) s
      else bitfield_loop now key rest overflow responses s
  end.

Definition cmd_bitfield (now : Z) (args : list Resp) (s : t) : may_panic (Result Resp * t) :=
  if bool_decide (length args < 2) then Some (inl (WrongArity (bstr "bitfield")), s)
  else
    let? key := get_bytes_vec args 1 "BITFIELD" at s in
    bitfield_loop now key (drop 2 args) Wrap [] s.

(** Only GET, each with its two words, whatever is there of them. *)
Fixpoint only_gets (rest : list Resp) : Result unit :=
  match rest with
  | [] => inr ()
  | sub :: rest =>
      let! sub := get_str [sub] 0 "BITFIELD_RO" in
      let sub := to_uppercase sub in
      if bool_decide (sub = bstr "GET") then only_gets (skip1 (skip1 rest))
      else if bool_decide (sub = bstr "SET") || bool_decide (sub = bstr "INCRBY") || bool_decide (sub = bstr "OVERFLOW") then
        inl (Generic (bstr "BITFIELD_RO only supports the GET subcommand"))
      else inl (Generic (bstr "ERR unknown BITFIELD_RO subcommand '" ++ sub ++ bstr "'"))
  end.

Definition cmd_bitfield_ro (now : Z) (args : list Resp) (s : t) : may_panic (Result Resp * t) :=
  if bool_decide (length args < 2) then Some (inl (WrongArity (bstr "bitfield_ro")), s)
  else
    let? _ := only_gets (drop 2 args) at s in
    cmd_bitfield now args s.
End BitCommands.
