(* ===== verification/BitFields.v ===== *)
(** * BitFields: bitmaps as sequences of bits

    The commands of [command/bit.rs] shift and mask bytes.  Here a byte string is
    the list of its bits, a field is a run of them and a number is read from a field
    with the most significant bit first; the operations of [BitCommands] on bytes
    are shown to be the plain ones on bits, at every width and offset. *)

From S2P Require Import Prelude Text Types Keyspace CommandArgs BitCommands.

Implicit Types (bs : bytes) (x : byte) (i n off : nat) (l vs : list bool) (signed : bool).

(** Bit [i] of a byte string; past its end are zeros. *)
Definition bit (bs : bytes) (i : nat) : bool :=
  match bs !! (i / 8) with Some x => Z.testbit (byte_val x) (7 - Z.of_nat (i mod 8)) | None => false end.

Definition bits_of (bs : bytes) : list bool := bit bs <$> seq 0 (8 * length bs).

(** ** Numbers and fields *)

(** The number a field holds. *)
Definition number (l : list bool) : Z := fold_left (fun a b => 2 * a + Z.b2z b)%Z l 0%Z.

Definition typed_value (signed : bool) (l : list bool) : Z :=
  if signed && default false (head l) then (number l - 2 ^ Z.of_nat (length l))%Z else number l.

(** The [n] low bits of a number, most significant first. *)
Definition field_bits (n : nat) (v : Z) : list bool := (fun i => Z.testbit v (Z.of_nat (n - 1 - i))) <$> seq 0 n.

(** The least and the largest number of a type of [n] bits. *)
Definition type_min (n : nat) (signed : bool) : Z := if signed then (- 2 ^ (Z.of_nat n - 1))%Z else 0%Z.
Definition type_max (n : nat) (signed : bool) : Z := if signed then (2 ^ (Z.of_nat n - 1) - 1)%Z else (2 ^ Z.of_nat n - 1)%Z.
Definition in_type (n : nat) (signed : bool) (z : Z) : Prop := (type_min n signed <= z <= type_max n signed)%Z.

(** The number of the type that agrees with [z] modulo [2^n]. *)
Definition wrapped (n : nat) (signed : bool) (z : Z) : Z := ((z - type_min n signed) mod 2 ^ Z.of_nat n + type_min n signed)%Z.

(** The widths BITFIELD accepts. *)
Definition width_ok (n : nat) (signed : bool) : Prop := 1 <= n <= 64 /\ (signed = false -> n <= 63).

Lemma length_field_bits n v : length (field_bits n v) = n.
Proof. unfold field_bits. by rewrite length_fmap, length_seq. Qed.

Lemma field_bits_lookup n v i : i < n -> field_bits n v !! i = Some (Z.testbit v (Z.of_nat (n - 1 - i))).
Proof. intros Hi. unfold field_bits. rewrite list_lookup_fmap, lookup_seq_lt by lia. done. Qed.

Lemma number_app l b : number (l ++ [b]) = (2 * number l + Z.b2z b)%Z.
Proof. unfold number. by rewrite fold_left_app. Qed.

Lemma number_range l : (0 <= number l < 2 ^ Z.of_nat (length l))%Z.
Proof.
  induction l as [|b l IH] using rev_ind; [done|]. rewrite number_app, length_app. simpl length.
  rewrite Nat2Z.inj_add, Z.pow_add_r by lia. change (2 ^ Z.of_nat 1)%Z with 2%Z. destruct b; simpl Z.b2z; lia.
Qed.

(** A bit of a number is the bit of the field at that place. *)
Lemma number_testbit l j : Z.testbit (number l) (Z.of_nat j) = if bool_decide (j < length l) then default false (l !! (length l - 1 - j)) else false.
Proof.
  revert j. induction l as [|b l IH] using rev_ind; intros j; [by rewrite Z.bits_0|].
  rewrite number_app, length_app. simpl length. destruct j as [|j].
  - rewrite bool_decide_eq_true_2 by lia. rewrite lookup_app_r by lia. replace (_ - length l) with 0 by lia. simpl.
    exact (Z.testbit_0_r (number l) b).
  - rewrite Nat2Z.inj_succ, Z.testbit_succ_r, IH by lia.
    destruct (decide (j < length l)).
    + rewrite !bool_decide_eq_true_2 by lia. rewrite lookup_app_l by lia. do 2 f_equal. lia.
    + by rewrite !bool_decide_eq_false_2 by lia.
Qed.

Lemma number_field_bits n v : number (field_bits n v) = (v mod 2 ^ Z.of_nat n)%Z.
Proof.
  apply Z.bits_inj'. intros j Hj. rewrite <- (Z2Nat.id j Hj). rewrite number_testbit, length_field_bits.
  destruct (decide (Z.to_nat j < n)).
  - rewrite bool_decide_eq_true_2, field_bits_lookup by lia. rewrite Z.mod_pow2_bits_low by lia. simpl. f_equal. lia.
  - rewrite bool_decide_eq_false_2 by lia. by rewrite Z.mod_pow2_bits_high by lia.
Qed.

Lemma pow2_split n : 1 <= n -> (2 ^ Z.of_nat n = 2 * 2 ^ (Z.of_nat n - 1))%Z.
Proof. intros Hn. rewrite <- Z.pow_succ_r by lia. f_equal. lia. Qed.

Lemma head_top l : 1 <= length l -> default false (head l) = Z.testbit (number l) (Z.of_nat (length l) - 1).
Proof.
  intros Hl. replace (Z.of_nat (length l) - 1)%Z with (Z.of_nat (length l - 1)) by lia.
  rewrite number_testbit, bool_decide_eq_true_2 by lia. replace (length l - 1 - (length l - 1)) with 0 by lia. by destruct l.
Qed.

Lemma top_bit u n : 1 <= n -> (0 <= u < 2 ^ Z.of_nat n)%Z -> Z.testbit u (Z.of_nat n - 1) = bool_decide (2 ^ (Z.of_nat n - 1) <= u)%Z.
Proof.
  intros Hn Hu. pose proof (pow2_split n Hn) as Hp. assert (0 < 2 ^ (Z.of_nat n - 1))%Z by (apply Z.pow_pos_nonneg; lia).
  rewrite Z.testbit_eqb by lia. case_bool_decide as H1.
  - replace (u / 2 ^ (Z.of_nat n - 1))%Z with 1%Z; [done|]. apply (Z.div_unique u _ 1 (u - 2 ^ (Z.of_nat n - 1))); lia.
  - by rewrite Z.div_small by lia.
Qed.

(** A field read back is the number wrapped into the type. *)
Lemma typed_field_bits n signed v : 1 <= n -> typed_value signed (field_bits n v) = wrapped n signed v.
Proof.
  intros Hn. unfold typed_value, wrapped, type_min. pose proof (pow2_split n Hn) as Hp.
  assert (Hq : (0 < 2 ^ (Z.of_nat n - 1))%Z) by (apply Z.pow_pos_nonneg; lia).
  rewrite head_top, length_field_bits, number_field_bits by (rewrite length_field_bits; lia).
  pose proof (Z.mod_pos_bound v (2 ^ Z.of_nat n) ltac:(lia)) as Hm. rewrite top_bit by done.
  destruct signed; simpl; [|by rewrite Z.sub_0_r, Z.add_0_r].
  set (q := (2 ^ (Z.of_nat n - 1))%Z) in *. rewrite Hp in *. rewrite Z.sub_opp_r.
  pose proof (Z.div_mod v (2 * q) ltac:(lia)) as Hd. case_bool_decide as H1.
  - rewrite <- (Z.mod_unique (v + q) (2 * q) (v / (2 * q) + 1) (v mod (2 * q) - q)) by lia. lia.
  - rewrite <- (Z.mod_unique (v + q) (2 * q) (v / (2 * q)) (v mod (2 * q) + q)) by lia. lia.
Qed.

Lemma wrapped_in_type n signed z : 1 <= n -> in_type n signed (wrapped n signed z).
Proof.
  intros Hn. unfold in_type, wrapped, type_max. pose proof (pow2_split n Hn) as Hp.
  assert (Hq : (0 < 2 ^ (Z.of_nat n - 1))%Z) by (apply Z.pow_pos_nonneg; lia).
  pose proof (Z.mod_pos_bound (z - type_min n signed) (2 ^ Z.of_nat n) ltac:(lia)). destruct signed; simpl in *; lia.
Qed.

Lemma wrapped_id n signed z : 1 <= n -> in_type n signed z -> wrapped n signed z = z.
Proof.
  intros Hn. unfold in_type, wrapped, type_max. pose proof (pow2_split n Hn) as Hp.
  assert (Hq : (0 < 2 ^ (Z.of_nat n - 1))%Z) by (apply Z.pow_pos_nonneg; lia).
  intros Hz. rewrite Z.mod_small; [lia|]. destruct signed; simpl in *; lia.
Qed.

Lemma typed_value_in_type signed l : 1 <= length l -> in_type (length l) signed (typed_value signed l).
Proof.
  intros Hl. pose proof (number_range l) as Hr. pose proof (pow2_split _ Hl) as Hp. unfold typed_value, in_type, type_min, type_max.
  rewrite head_top, top_bit by done. destruct signed; simpl; [|lia]. case_bool_decide; lia.
Qed.

(** ** Bits of bytes *)

Lemma bit_at_testbit x p : bit_at x p = Z.b2z (Z.testbit (byte_val x) (Z.of_nat p)).
Proof. unfold bit_at. by rewrite Z.testbit_spec', Z.land_ones with (n := 1%Z), Z.shiftr_div_pow2 by lia. Qed.

Lemma bit_at_true x p : bool_decide (bit_at x p = 1%Z) = Z.testbit (byte_val x) (Z.of_nat p).
Proof. rewrite bit_at_testbit. by destruct (Z.testbit _ _). Qed.

Lemma with_bit_spec x p v q : p < 8 -> q < 8 ->
  Z.testbit (byte_val (with_bit x p v)) (Z.of_nat q) = if bool_decide (q = p) then v else Z.testbit (byte_val x) (Z.of_nat q).
Proof.
  intros Hp Hq. unfold with_bit. rewrite byte_val_of. change 256%Z with (2 ^ 8)%Z. rewrite Z.mod_pow2_bits_low by lia.
  rewrite Z.shiftl_1_l. destruct v.
  - rewrite Z.lor_spec, Z.pow2_bits_eqb by lia. case_bool_decide; [subst; by rewrite Z.eqb_refl, orb_true_r|].
    rewrite (proj2 (Z.eqb_neq _ _)) by lia. by rewrite orb_false_r.
  - rewrite Z.land_spec, Z.lnot_spec, Z.pow2_bits_eqb by lia. case_bool_decide; [subst; by rewrite Z.eqb_refl, andb_false_r|].
    rewrite (proj2 (Z.eqb_neq _ _)) by lia. by rewrite andb_true_r.
Qed.

Lemma byte_ext x y : (forall p, p < 8 -> Z.testbit (byte_val x) (Z.of_nat p) = Z.testbit (byte_val y) (Z.of_nat p)) -> x = y.
Proof.
  intros E. rewrite <- (byte_of_val x), <- (byte_of_val y). f_equal. apply Z.bits_inj'. intros j Hj.
  assert (B : forall z, Z.testbit (byte_val z) j = if (j <? 8)%Z then Z.testbit (byte_val z) j else false).
  { intros z. destruct (Z.ltb_spec j 8); [done|]. pose proof (byte_val_range z). apply Z.bits_above_log2; [lia|].
    destruct (decide (byte_val z = 0)%Z) as [->|]; [change (Z.log2 0) with 0%Z; lia|].
    apply Z.lt_le_trans with 8%Z; [apply (proj1 (Z.log2_lt_pow2 (byte_val z) 8 ltac:(lia))); lia|lia]. }
  rewrite B, (B y). destruct (Z.ltb_spec j 8); [|done]. rewrite <- (Z2Nat.id j Hj). apply E. lia.
Qed.

Lemma bit_index q r : r < 8 -> (8 * q + r) / 8 = q /\ (8 * q + r) mod 8 = r.
Proof.
  intros Hr. split.
  - symmetry. apply (Nat.div_unique _ 8 q r); lia.
  - symmetry. apply (Nat.mod_unique _ 8 q r); lia.
Qed.

Lemma bytes_ext bs bs' : length bs = length bs' -> (forall i, bit bs i = bit bs' i) -> bs = bs'.
Proof.
  intros El E. apply list_eq_same_length with (length bs); [done..|]. intros q x y Hq Hx Hy. apply byte_ext. intros p Hp.
  specialize (E (8 * q + (7 - p))). unfold bit in E. destruct (bit_index q (7 - p) ltac:(lia)) as [E1 E2].
  rewrite E1, E2, Hx, Hy in E. by replace (7 - Z.of_nat (7 - p))%Z with (Z.of_nat p) in E by lia.
Qed.

Lemma bit_past bs i : 8 * length bs <= i -> bit bs i = false.
Proof.
  intros Hi. unfold bit. rewrite lookup_ge_None_2; [done|]. apply Nat.div_le_lower_bound; lia.
Qed.

(** Writing one bit of a byte that is there. *)
Lemma bit_insert bs i v x j : bs !! (i / 8) = Some x ->
  bit (<[i / 8 := with_bit x (7 - i mod 8) v]> bs) j = if bool_decide (j = i) then v else bit bs j.
Proof.
  intros Hx. unfold bit. pose proof (Nat.mod_upper_bound i 8 ltac:(lia)) as Hi. pose proof (Nat.mod_upper_bound j 8 ltac:(lia)) as Hj.
  pose proof (Nat.div_mod i 8 ltac:(lia)) as Di. pose proof (Nat.div_mod j 8 ltac:(lia)) as Dj.
  destruct (decide (j / 8 = i / 8)) as [Eq|Eq].
  - rewrite Eq, list_lookup_insert_eq, Hx by (by eapply lookup_lt_Some).
    replace (7 - Z.of_nat (j mod 8))%Z with (Z.of_nat (7 - j mod 8)) by lia. rewrite with_bit_spec by lia.
    repeat case_bool_decide; try done; lia.
  - rewrite list_lookup_insert_ne by done. rewrite bool_decide_eq_false_2; [done|]. by intros ->.
Qed.

(** ** Writing a run of bits *)

(** The bits [l], of which the last byte is filled up with zeros. *)
Definition eight (l : list bool) (q : nat) : list bool := (fun r => default false (l !! (8 * q + r))) <$> seq 0 8.

Definition of_bits (l : list bool) : bytes := (fun q => byte_of (number (eight l q))) <$> seq 0 ((length l + 7) / 8).

(** [vs] written over [l] from [off] on. *)
Definition overlay (off : nat) (vs l : list bool) : list bool :=
  take off (l ++ replicate (off - length l) false) ++ vs ++ drop (off + length vs) l.

Definition write_bits (off : nat) (vs : list bool) (bs : bytes) : bytes := of_bits (overlay off vs (bits_of bs)).

Lemma length_bits_of bs : length (bits_of bs) = 8 * length bs.
Proof. unfold bits_of. by rewrite length_fmap, length_seq. Qed.

Lemma bits_of_lookup bs i : default false (bits_of bs !! i) = bit bs i.
Proof.
  unfold bits_of. rewrite list_lookup_fmap. destruct (decide (i < 8 * length bs)).
  - by rewrite lookup_seq_lt by lia.
  - rewrite lookup_seq_ge by lia. simpl. by rewrite bit_past by lia.
Qed.

Lemma bit_of_bits l i : bit (of_bits l) i = default false (l !! i).
Proof.
  unfold bit, of_bits. rewrite list_lookup_fmap. pose proof (Nat.mod_upper_bound i 8 ltac:(lia)) as Hr.
  pose proof (Nat.div_mod i 8 ltac:(lia)) as Di. destruct (decide (i / 8 < (length l + 7) / 8)) as [Hq|Hq].
  - rewrite lookup_seq_lt by lia. cbn [fmap option_fmap option_map Nat.add]. rewrite byte_val_of. change 256%Z with (2 ^ 8)%Z. rewrite Z.mod_pow2_bits_low by lia.
    replace (7 - Z.of_nat (i mod 8))%Z with (Z.of_nat (7 - i mod 8)) by lia.
    rewrite number_testbit. change (length (eight l (i / 8))) with 8. rewrite bool_decide_eq_true_2 by lia.
    unfold eight. rewrite list_lookup_fmap, lookup_seq_lt by lia. cbn [fmap option_fmap option_map default from_option].
    unfold Datatypes.id. do 2 f_equal. lia.
  - rewrite lookup_seq_ge by lia. simpl. rewrite lookup_ge_None_2; [done|].
    destruct (decide (length l <= i)); [done|]. exfalso. apply Hq. apply Nat.div_lt_upper_bound; [lia|].
    pose proof (Nat.div_mod (length l + 7) 8 ltac:(lia)). pose proof (Nat.mod_upper_bound (length l + 7) 8 ltac:(lia)).
    destruct (decide (8 * ((length l + 7) / 8) <= i)); [lia|lia].
Qed.

Lemma length_of_bits l : length (of_bits l) = (length l + 7) / 8.
Proof. unfold of_bits. by rewrite length_fmap, length_seq. Qed.

Lemma length_overlay off vs l : length (overlay off vs l) = length l `max` (off + length vs).
Proof. unfold overlay. rewrite !length_app, length_take, length_app, length_replicate, length_drop. lia. Qed.

Lemma overlay_lookup off vs l i :
  default false (overlay off vs l !! i) = if bool_decide (off <= i < off + length vs) then default false (vs !! (i - off)) else default false (l !! i).
Proof.
  assert (Hn : length (take off (l ++ replicate (off - length l) false)) = off) by (rewrite length_take, length_app, length_replicate; lia).
  unfold overlay. case_bool_decide as Hi.
  - rewrite lookup_app_r, Hn, lookup_app_l by lia. done.
  - destruct (decide (i < off)).
    + rewrite lookup_app_l, lookup_take_lt by lia. destruct (decide (i < length l)); [by rewrite lookup_app_l|].
      rewrite lookup_app_r, lookup_replicate_2, (lookup_ge_None_2 l) by lia. done.
    + rewrite lookup_app_r, Hn, lookup_app_r, lookup_drop by lia. do 2 f_equal. lia.
Qed.

Lemma bit_write_bits off vs bs i :
  bit (write_bits off vs bs) i = if bool_decide (off <= i < off + length vs) then default false (vs !! (i - off)) else bit bs i.
Proof. unfold write_bits. by rewrite bit_of_bits, overlay_lookup, bits_of_lookup. Qed.

Lemma length_write_bits off vs bs : length (write_bits off vs bs) = length bs `max` ((off + length vs + 7) / 8).
Proof.
  unfold write_bits. rewrite length_of_bits, length_overlay, length_bits_of.
  destruct (Nat.max_spec (8 * length bs) (off + length vs)) as [[Hm ->]|[Hm ->]].
  - symmetry. apply Nat.max_r. apply Nat.div_le_lower_bound; lia.
  - replace (8 * length bs + 7) with (7 + length bs * 8) by lia. rewrite Nat.div_add by lia. change (7 / 8) with 0.
    pose proof (Nat.div_lt_upper_bound (off + length vs + 7) 8 (S (length bs)) ltac:(lia) ltac:(lia)). lia.
Qed.

(** ** The operations on bytes *)

Lemma grown_bit bs n i : bit (grown bs n) i = bit bs i.
Proof.
  unfold bit, grown. destruct (decide (i / 8 < length bs)); [by rewrite lookup_app_l|].
  rewrite lookup_app_r, (lookup_ge_None_2 bs) by lia. destruct (_ !! _) as [x|] eqn:E; [|done].
  apply lookup_replicate in E as [-> _]. change (byte_val (byte_of 0)) with 0%Z. by rewrite Z.bits_0.
Qed.

Lemma length_grown bs n : length (grown bs n) = length bs `max` n.
Proof. unfold grown. rewrite length_app, length_replicate. lia. Qed.

Lemma grown_nil n : grown [] n = replicate n (byte_of 0).
Proof. unfold grown. simpl. by rewrite Nat.sub_0_r. Qed.

Lemma ensure_grown bs n : ensure_bitmap bs n = grown bs (S n).
Proof.
  unfold ensure_bitmap. case_bool_decide; [done|]. unfold grown. replace (S n - length bs) with 0 by lia. by rewrite app_nil_r.
Qed.

(** SETBIT on the bytes. *)
Lemma set_one_spec off (v : Z) bs :
  set_one (off / 8) (7 - off mod 8) v bs = Some (Z.b2z (bit bs off), write_bits off [bool_decide (v = 1%Z)] bs).
Proof.
  unfold set_one. rewrite ensure_grown. destruct (lookup_lt_is_Some_2 (grown bs (S (off / 8))) (off / 8)) as [x Hx].
  { rewrite length_grown. lia. }
  pose proof (Nat.mod_upper_bound off 8 ltac:(lia)) as Hm. rewrite Hx. mstep. do 2 f_equal.
  - rewrite bit_at_testbit, <- (grown_bit bs (S (off / 8)) off). unfold bit. rewrite Hx. do 2 f_equal. lia.
  - apply bytes_ext.
    + rewrite length_insert, length_grown, length_write_bits. f_equal. cbn [length]. replace (off + 1 + 7) with (off + 1 * 8) by lia.
      rewrite Nat.div_add by lia. lia.
    + intros i. rewrite bit_insert, grown_bit, bit_write_bits by done. cbn [length].
      repeat case_bool_decide; try done; try lia; subst; by rewrite Nat.sub_diag.
Qed.

Lemma write_step_length off n v bs i : length (write_step off n v bs i) = length bs.
Proof. unfold write_step. destruct (bs !! _); [by rewrite length_insert|done]. Qed.

Lemma shifted_bit v p : bool_decide (Z.land (Z.shiftr v (Z.of_nat p)) 1 = 1%Z) = Z.testbit v (Z.of_nat p).
Proof.
  rewrite Z.land_ones with (n := 1%Z), Z.shiftr_div_pow2 by lia. rewrite <- Z.testbit_spec' by lia. by destruct (Z.testbit _ _).
Qed.

Lemma write_loop_spec off n v bs m : m <= n -> off + n <= 8 * length bs ->
  let bs' := fold_left (write_step off n v) (seq 0 m) bs in
  length bs' = length bs /\
  forall i, bit bs' i = if bool_decide (off <= i < off + m) then Z.testbit v (Z.of_nat (n - 1 - (i - off))) else bit bs i.
Proof.
  intros Hm Hl. induction m as [|m IH]; [split; [done|]; intros i; by rewrite bool_decide_eq_false_2 by lia|].
  rewrite seq_S, fold_left_app. cbn [fold_left Nat.add]. destruct (IH ltac:(lia)) as [IHl IHb]. set (bs1 := fold_left _ (seq 0 m) bs) in *.
  split; [by rewrite write_step_length|]. intros i. unfold write_step.
  destruct (lookup_lt_is_Some_2 bs1 ((off + m) / 8)) as [x Hx].
  { rewrite IHl. apply Nat.div_lt_upper_bound; lia. }
  rewrite Hx, shifted_bit, bit_insert, IHb by done.
  repeat case_bool_decide; try done; try lia. do 2 f_equal. lia.
Qed.

(** BITFIELD SET on the bytes. *)
Lemma write_bitfield_spec off n (v : Z) bs : n <= 64 ->
  write_bitfield (grown bs (byte_len off n)) off n v = write_bits off (field_bits n v) bs.
Proof.
  intros Hn. unfold write_bitfield. assert (Hl : off + n <= 8 * length (grown bs (byte_len off n))).
  { rewrite length_grown. unfold byte_len. pose proof (Nat.div_mod (off + n + 7) 8 ltac:(lia)).
    pose proof (Nat.mod_upper_bound (off + n + 7) 8 ltac:(lia)). lia. }
  destruct (write_loop_spec off n (wrap64 v) _ n ltac:(lia) Hl) as [El Eb]. apply bytes_ext.
  - by rewrite El, length_grown, length_write_bits, length_field_bits.
  - intros i. rewrite Eb, bit_write_bits, length_field_bits, grown_bit. case_bool_decide; [|done].
    rewrite field_bits_lookup by lia. simpl. unfold wrap64. by rewrite Z.mod_pow2_bits_low by lia.
Qed.

Lemma read_loop_spec off n bs m : m <= n ->
  fold_left (read_step bs off n) (seq 0 m) 0%Z = (number (bit bs <$> seq off m) * 2 ^ Z.of_nat (n - m))%Z.
Proof.
  intros Hm. induction m as [|m IH]; [done|]. rewrite !seq_S, fold_left_app, fmap_app. cbn [fold_left fmap list_fmap Nat.add]. rewrite number_app, IH by lia.
  set (u := number _). assert (Eb : forall v, read_step bs off n v m = Z.lor v (Z.shiftl (Z.b2z (bit bs (off + m))) (Z.of_nat (n - 1 - m)))).
  { intros v. unfold read_step, bit. destruct (bs !! ((off + m) / 8)) as [x|]; [|by rewrite Z.shiftl_0_l, Z.lor_0_r].
    rewrite bit_at_true. pose proof (Nat.mod_upper_bound (off + m) 8 ltac:(lia)).
    replace (Z.of_nat (7 - (off + m) mod 8)) with (7 - Z.of_nat ((off + m) mod 8))%Z by lia.
    destruct (Z.testbit _ _); [done|]. by rewrite Z.shiftl_0_l, Z.lor_0_r. }
  rewrite Eb. replace (n - 1 - m) with (n - S m) by lia.
  replace (u * 2 ^ Z.of_nat (n - m))%Z with (Z.shiftl (2 * u) (Z.of_nat (n - S m))).
  2: { rewrite Z.shiftl_mul_pow2 by lia. replace (Z.of_nat (n - m)) with (Z.of_nat (n - S m) + 1)%Z by lia. rewrite Z.pow_add_r by lia. lia. }
  rewrite <- Z.shiftl_lor, Z.shiftl_mul_pow2 by lia. f_equal.
  destruct (bit bs (off + m)); simpl Z.b2z; [|by rewrite Z.lor_0_r, Z.add_0_r].
  apply Z.bits_inj'. intros j Hj. rewrite Z.lor_spec. destruct (decide (j = 0)%Z) as [->|].
  - by rewrite Z.testbit_even_0, Z.testbit_odd_0.
  - replace j with (Z.succ (Z.pred j)) by lia.
    rewrite Z.testbit_even_succ, Z.testbit_odd_succ by lia. rewrite (Z.bits_above_log2 1) by (simpl; lia). by rewrite orb_false_r.
Qed.

(** Sign extension: the bits above the field are set. *)
Lemma sign_extend u n : 1 <= n < 64 -> (0 <= u < 2 ^ Z.of_nat n)%Z ->
  Z.lor u (wrap64 (Z.shiftl (2 ^ 64 - 1) (Z.of_nat n))) = (u + (2 ^ 64 - 2 ^ Z.of_nat n))%Z.
Proof.
  intros Hn Hu. assert (Hp : (0 < 2 ^ Z.of_nat n < 2 ^ 64)%Z) by (split; [apply Z.pow_pos_nonneg|apply Z.pow_lt_mono_r]; lia).
  assert (E : wrap64 (Z.shiftl (2 ^ 64 - 1) (Z.of_nat n)) = Z.shiftl (2 ^ Z.of_nat (64 - n) - 1) (Z.of_nat n)).
  { unfold wrap64. rewrite !Z.shiftl_mul_pow2 by lia.
    replace (2 ^ 64)%Z with (2 ^ Z.of_nat (64 - n) * 2 ^ Z.of_nat n)%Z at 2 by (rewrite <- Z.pow_add_r by lia; f_equal; lia).
    rewrite Z.mul_mod_distr_r by (pose proof (Z.pow_pos_nonneg 2 (Z.of_nat (64 - n))); lia). f_equal.
    replace (2 ^ 64 - 1)%Z with (2 ^ Z.of_nat (64 - n) - 1 + (2 ^ Z.of_nat n - 1) * 2 ^ Z.of_nat (64 - n))%Z.
    2: { rewrite Z.mul_sub_distr_r, <- Z.pow_add_r by lia. replace (Z.of_nat n + Z.of_nat (64 - n))%Z with 64%Z by lia. lia. }
    rewrite Z.mod_add, Z.mod_small by (pose proof (Z.pow_pos_nonneg 2 (Z.of_nat (64 - n))); lia). done. }
  assert (L : Z.land u (Z.shiftl (2 ^ Z.of_nat (64 - n) - 1) (Z.of_nat n)) = 0%Z).
  { apply Z.bits_inj'. intros j Hj. rewrite Z.land_spec, Z.bits_0. destruct (Z.lt_ge_cases j (Z.of_nat n)).
    - by rewrite Z.shiftl_spec_low, andb_false_r by lia.
    - rewrite <- (Z.mod_small u (2 ^ Z.of_nat n)) by done. by rewrite Z.mod_pow2_bits_high by lia. }
  rewrite E, <- Z.lxor_lor, <- Z.add_nocarry_lxor by done. f_equal. rewrite Z.shiftl_mul_pow2, Z.mul_sub_distr_r, <- Z.pow_add_r by lia.
  replace (Z.of_nat (64 - n) + Z.of_nat n)%Z with 64%Z by lia. lia.
Qed.

(** BITFIELD GET on the bytes. *)
Lemma read_bitfield_spec off n signed bs : width_ok n signed ->
  read_bitfield bs off n signed = typed_value signed (bit bs <$> seq off n).
Proof.
  intros [Hn Hu]. unfold read_bitfield. rewrite read_loop_spec, Nat.sub_diag, Z.mul_1_r by lia.
  set (l := bit bs <$> seq off n). assert (Hl : length l = n) by (unfold l; by rewrite length_fmap, length_seq).
  pose proof (number_range l) as Hr. rewrite Hl in Hr. unfold typed_value. rewrite head_top, Hl, top_bit by (rewrite ?Hl; lia || done).
  replace (Z.of_nat n - 1)%Z with (Z.of_nat (n - 1)) by lia. rewrite shifted_bit.
  replace (Z.of_nat (n - 1)) with (Z.of_nat n - 1)%Z by lia. rewrite top_bit by (lia || done).
  set (u := number l) in *. pose proof (pow2_split n ltac:(lia)) as Hp.
  destruct signed; cbn [andb]; [destruct (decide (n = 64)) as [->|Hn64]|].
  - rewrite bool_decide_eq_false_2 by lia. cbn [andb]. unfold wrap_i64. change (2 ^ (Z.of_nat 64 - 1))%Z with (2 ^ 63)%Z in *.
    change (2 ^ Z.of_nat 64)%Z with (2 ^ 64)%Z in *. case_bool_decide as H1.
    + rewrite <- (Z.mod_unique (u + 2 ^ 63) (2 ^ 64) 1 (u - 2 ^ 63)) by lia. lia.
    + rewrite Z.mod_small by lia. lia.
  - rewrite bool_decide_eq_true_2 by lia. cbn [andb].
    assert (Hq : (2 ^ Z.of_nat n <= 2 ^ 63)%Z) by (apply Z.pow_le_mono_r; lia). case_bool_decide as H1.
    + rewrite sign_extend by (lia || done). unfold wrap_i64.
      rewrite <- (Z.mod_unique (u + (2 ^ 64 - 2 ^ Z.of_nat n) + 2 ^ 63) (2 ^ 64) 1 (u - 2 ^ Z.of_nat n + 2 ^ 63)) by lia. lia.
    + apply wrap_i64_id. unfold in_i64, i64_min, i64_max. lia.
  - apply wrap_i64_id. assert (Hq : (2 ^ Z.of_nat n <= 2 ^ 63)%Z) by (apply Z.pow_le_mono_r; lia).
    unfold in_i64, i64_min, i64_max. lia.
Qed.

(** ** Overflow *)

(** What BITFIELD INCRBY means, with unbounded numbers. *)
Definition add_in_type (mode : OverflowMode) (n : nat) (signed : bool) (z : Z) : option Z :=
  match mode with
  | Wrap => Some (wrapped n signed z)
  | Sat => Some (Z.min (Z.max z (type_min n signed)) (type_max n signed))
  | Fail => if bool_decide (in_type n signed z) then Some z else None
  end.

#[export] Instance in_type_dec n signed z : Decision (in_type n signed z).
Proof. unfold in_type. apply _. Defined.

(** The sum may wrap around at 64 bits first, which only the wrapping mode does not see. *)
Lemma overflow_add_spec cur incr n signed mode : width_ok n signed ->
  mode = Wrap \/ in_i64 (cur + incr) -> overflow_add cur incr n signed mode = add_in_type mode n signed (cur + incr).
Proof.
  intros [Hn Hu] Hm. unfold overflow_add, add_in_type. set (z := (cur + incr)%Z) in *.
  rewrite !Z.shiftl_1_l. pose proof (pow2_split n ltac:(lia)) as Hp.
  assert (Hq : (0 < 2 ^ (Z.of_nat n - 1) <= 2 ^ 63)%Z) by (split; [apply Z.pow_pos_nonneg|apply Z.pow_le_mono_r]; lia).
  assert (Hmin : (if bool_decide (n = 64) then i64_min else (- 2 ^ (Z.of_nat n - 1))%Z) = type_min n true).
  { case_bool_decide; [by subst|done]. }
  assert (Hmax : (if bool_decide (n = 64) then i64_max else (2 ^ (Z.of_nat n - 1) - 1)%Z) = type_max n true).
  { case_bool_decide; [by subst|done]. }
  assert (Hw : exists q, wrap_i64 z = (z + q * 2 ^ Z.of_nat n)%Z).
  { exists (- ((z + 2 ^ 63) / 2 ^ 64) * 2 ^ (64 - Z.of_nat n))%Z. unfold wrap_i64.
    rewrite <- Z.mul_assoc, <- Z.pow_add_r by lia. replace (64 - Z.of_nat n + Z.of_nat n)%Z with 64%Z by lia.
    pose proof (Z.div_mod (z + 2 ^ 63) (2 ^ 64)). lia. }
  destruct Hw as [q Hw].
  destruct signed.
  - rewrite Hmin, Hmax. destruct mode.
    + f_equal. unfold wrapped. rewrite Hw. replace (z + q * 2 ^ Z.of_nat n - type_min n true)%Z with (z - type_min n true + q * 2 ^ Z.of_nat n)%Z by lia.
      rewrite Z.mod_add by lia. apply wrap_i64_id. pose proof (wrapped_in_type n true z ltac:(lia)) as Ht.
      unfold in_type, wrapped, type_min, type_max, in_i64, i64_min, i64_max in *. lia.
    + destruct Hm as [|Hm]; [done|]. by rewrite wrap_i64_id.
    + destruct Hm as [|Hm]; [done|]. rewrite wrap_i64_id by done. unfold in_type. repeat case_bool_decide; simpl; try done; lia.
  - rewrite bool_decide_eq_false_2 by (specialize (Hu eq_refl); lia). destruct mode.
    + f_equal. unfold wrapped, type_min. rewrite Z.sub_0_r, Z.add_0_r.
      replace (wrap_i64 z mod 2 ^ 128)%Z with (z + (q - (wrap_i64 z / 2 ^ 128) * 2 ^ (128 - Z.of_nat n)) * 2 ^ Z.of_nat n)%Z.
      2: { rewrite Z.mul_sub_distr_r, <- Z.mul_assoc, <- Z.pow_add_r by lia. replace (128 - Z.of_nat n + Z.of_nat n)%Z with 128%Z by lia.
        pose proof (Z.div_mod (wrap_i64 z) (2 ^ 128)). lia. }
      rewrite Z.mod_add by lia. apply wrap_i64_id. pose proof (Z.mod_pos_bound z (2 ^ Z.of_nat n)).
      assert (2 ^ Z.of_nat n <= 2 ^ 63)%Z by (specialize (Hu eq_refl); apply Z.pow_le_mono_r; lia).
      unfold in_i64, i64_min, i64_max. lia.
    + destruct Hm as [|Hm]; [done|]. by rewrite wrap_i64_id.
    + destruct Hm as [|Hm]; [done|]. rewrite wrap_i64_id by done. unfold in_type, type_min, type_max.
      repeat case_bool_decide; simpl; try done; lia.
Qed.

(** ** Counting and searching *)

Definition ones (l : list bool) : nat := length (filter (fun b => b = true) l).

Lemma ones_app l l' : ones (l ++ l') = ones l + ones l'.
Proof. unfold ones. by rewrite filter_app, length_app. Qed.

Lemma bit_cons x bs i : bit (x :: bs) (8 + i) = bit bs i.
Proof.
  unfold bit. replace (8 + i) with (i + 1 * 8) by lia. rewrite Nat.div_add, Nat.Div0.mod_add by lia.
  rewrite Nat.add_1_r. done.
Qed.

Lemma bits_of_cons x bs : bits_of (x :: bs) = ((fun r => Z.testbit (byte_val x) (7 - Z.of_nat r)) <$> seq 0 8) ++ bits_of bs.
Proof.
  unfold bits_of. cbn [length]. replace (8 * S (length bs)) with (8 + 8 * length bs) by lia. rewrite seq_app, fmap_app. f_equal.
  change (0 + 8) with (8 + 0). rewrite <- fmap_add_seq, <- list_fmap_compose. apply list_fmap_ext. intros j i _. apply bit_cons.
Qed.

Lemma count_ones_spec x : count_ones x = ones ((fun r => Z.testbit (byte_val x) (7 - Z.of_nat r)) <$> seq 0 8).
Proof. by destruct x. Qed.

Lemma sum_ones_spec bs : sum_ones bs = Z.of_nat (ones (bits_of bs)).
Proof.
  unfold sum_ones. f_equal. induction bs as [|x bs IH]; [done|]. rewrite bits_of_cons, ones_app, <- count_ones_spec, <- IH. done.
Qed.

Lemma bit_here bs i x : bs !! (i / 8) = Some x -> Z.testbit (byte_val x) (Z.of_nat (7 - i mod 8)) = bit bs i.
Proof. intros Hx. unfold bit. rewrite Hx. pose proof (Nat.mod_upper_bound i 8 ltac:(lia)). f_equal. lia. Qed.

(** A run of bits counted one by one. *)
Lemma count_loop_spec bs start n : start + n <= 8 * length bs ->
  fold_left (fun count bit_idx =>
    count ← count;
    x ← bs !! (bit_idx / 8);
    Some (if bool_decide (bit_at x (7 - bit_idx mod 8) = 1%Z) then count + 1 else count)%Z) (seq start n) (Some 0%Z)
  = Some (Z.of_nat (ones (bit bs <$> seq start n))).
Proof.
  intros Hl. induction n as [|n IH]; [done|]. rewrite !seq_S, fold_left_app, fmap_app, ones_app, IH by lia. cbn [fold_left]. mstep.
  destruct (lookup_lt_is_Some_2 bs ((start + n) / 8)) as [x Hx]; [apply Nat.div_lt_upper_bound; lia|]. rewrite Hx. mstep.
  rewrite bit_at_true, (bit_here bs _ x Hx). cbn [fmap list_fmap]. f_equal. destruct (bit bs (start + n)); unfold ones at 3; simpl length; lia.
Qed.

(** The first of the places in [idxs] that holds [target]. *)
Definition first_bit (target : bool) (bs : bytes) (idxs : list nat) : Z :=
  match List.find (fun i => eqb (bit bs i) target) idxs with Some i => Z.of_nat i | None => (-1)%Z end.

Lemma scan_bits_spec bs target idxs : Forall (fun i => i < 8 * length bs) idxs ->
  scan_bits bs target idxs = Some (first_bit target bs idxs).
Proof.
  intros F. induction F as [|i idxs Hi F IH]; [done|]. unfold first_bit in *. cbn [scan_bits List.find].
  destruct (lookup_lt_is_Some_2 bs (i / 8)) as [x Hx]; [apply Nat.div_lt_upper_bound; lia|]. rewrite Hx. mstep.
  rewrite bit_at_true, (bit_here bs _ x Hx). by destruct (bit bs i), target.
Qed.

(** The places of byte [q], from its last bit to its first. *)
Definition backwards (q : nat) : list nat := rev (seq (8 * q) 8).

Lemma scan_byte_spec x target : scan_byte x target = List.find (fun r => eqb (Z.testbit (byte_val x) (7 - Z.of_nat r)) target) (rev (seq 0 8)).
Proof. by destruct x, target. Qed.

Lemma first_app target bs (l l' : list nat) : first_bit target bs (l ++ l')
  = match List.find (fun i => eqb (bit bs i) target) l with Some i => Z.of_nat i | None => first_bit target bs l' end.
Proof. unfold first_bit. induction l as [|i l IH]; [done|]. simpl. by destruct (eqb _ _). Qed.

Lemma find_fmap {A B} (f : A -> B) (p : B -> bool) (l0 : list A) : List.find p (f <$> l0) = f <$> List.find (fun a => p (f a)) l0.
Proof. induction l0 as [|a l0 IH]; [done|]. simpl. by destruct (p (f a)). Qed.

Lemma fmap_rev {A B} (f : A -> B) (l0 : list A) : f <$> rev l0 = rev (f <$> l0).
Proof. induction l0 as [|a l0 IH]; [done|]. simpl. by rewrite fmap_app, IH. Qed.

Lemma find_ext {A} (p p' : A -> bool) (l0 : list A) : Forall (fun a => p a = p' a) l0 -> List.find p l0 = List.find p' l0.
Proof. induction 1 as [|a l0 E F IH]; [done|]. simpl. by rewrite E, IH. Qed.

Lemma scan_bytes_spec target bs q n : q + n <= length bs ->
  scan_bytes target q (take n (drop q bs)) = first_bit target bs (concat (backwards <$> seq q n)).
Proof.
  revert q. induction n as [|n IH]; intros q Hl; [done|].
  destruct (lookup_lt_is_Some_2 bs q ltac:(lia)) as [x Hx]. rewrite (drop_S bs x q Hx). cbn [take scan_bytes seq fmap list_fmap concat].
  rewrite first_app, scan_byte_spec, <- IH by lia.
  assert (E : List.find (fun i => eqb (bit bs i) target) (backwards q)
    = (fun r => 8 * q + r) <$> List.find (fun r => eqb (Z.testbit (byte_val x) (7 - Z.of_nat r)) target) (rev (seq 0 8))).
  { unfold backwards. rewrite <- (Nat.add_0_r (8 * q)) at 1. rewrite <- fmap_add_seq, <- fmap_rev, find_fmap. f_equal. apply find_ext.
    apply Forall_rev, Forall_seq. intros r Hr. unfold bit. destruct (bit_index q r ltac:(lia)) as [-> ->]. by rewrite Hx. }
  rewrite E. clear E. destruct (List.find _ _) as [r|]; [|done]. cbn [fmap option_fmap option_map]. f_equal. lia.
Qed.
