(* ===== verification/BitSpec.v ===== *)
(** * BitSpec: the bitmap commands on the bits of strings

    SETBIT, GETBIT, BITCOUNT, BITPOS and BITFIELD as requests on the cells of
    [StringSpec]: what they read and write is a run of the bits of a string. *)

From S2P Require Import Prelude Text Doubles Types Keyspace KeyspaceInvariant KeyspaceSpec.
From S2P Require Import Shards ShardsSpec ShardsMoves Resp CommandArgs SetCommands StringCommands StringSpec BitCommands BitFields.
From S2P Require SetData.

Import ShardedDatabase.

#[local] Arguments Database.remove : simpl never.
#[local] Arguments Database.insert : simpl never.
#[local] Arguments Database.get : simpl never.
#[local] Arguments Database.adjust_live_bytes : simpl never.

Inductive BitCommand := SETBIT | GETBIT | BITCOUNT | BITPOS | BITFIELD | BITFIELD_RO.

Section Spec.
Context `{SetData.IndexSet} `{Itoa} `{F64Text} `{UnicodeCase}.
Implicit Types (now : Z) (s : t) (d : Database.t) (k : bytes) (b : bytes) (e : Entry.t) (o : option Entry.t) (args rest : list Resp).

#[local] Notation Cell := (option (Value * option Z)).
Implicit Types (c : Cell).

Definition exec_bit (now : Z) (cmd : BitCommand) (args : list Resp) (s : t) : may_panic (Result Resp * t) :=
  match cmd with
  | SETBIT => cmd_setbit now args s
  | GETBIT => cmd_getbit now args s
  | BITCOUNT => cmd_bitcount now args s
  | BITPOS => cmd_bitpos now args s
  | BITFIELD => cmd_bitfield now args s
  | BITFIELD_RO => cmd_bitfield_ro now args s
  end.

(** ** Requests *)

(** A look at the bytes under a key. *)
Definition looking (key : bytes) (none : Resp) (f : bytes -> Result Resp) : Request :=
  mkRequest key (fun _ => 0)
    (fun c => match c with
              | None => (inr none, c)
              | Some (v, _) => (match text v with Some b => f b | None => inl WrongType end, c)
              end).

(** A change of the bytes under a key, which stay the kind of string they are. *)
Definition changing (none : Resp * option bytes) (f : bytes -> Resp * bytes) (c : Cell) : Result Resp * Cell :=
  match c with
  | None => (inr none.1, (fun b => (Bits b, None)) <$> none.2)
  | Some (Text b, x) => (inr (f b).1, Some (Text (f b).2, x))
  | Some (Bits b, x) => (inr (f b).1, Some (Bits (f b).2, x))
  | Some (Opaque _, _) => (inl WrongType, c)
  end.

Definition cell_size (c : Cell) : nat := length (default [] (cell_text c)).

Definition setbit_answer (off : nat) (v : bool) : Cell -> Result Resp * Cell :=
  changing (int 0, Some (write_bits off [v] [])) (fun b => (int (Z.b2z (bit b off)), write_bits off [v] b)).

Definition count_answer (args : list Resp) (b : bytes) : Result Resp :=
  let! range := count_range args in
  inr (int (Z.of_nat (match range with
    | None => ones (bits_of b)
    | Some (start, end_, unit) =>
        if bool_decide (unit = bstr "BIT") then
          let len := (Z.of_nat (length b) * 8)%Z in
          let s := Z.to_nat (Z.min (normalize_signed start len) (len - 1)) in
          let e := Z.to_nat (Z.min (normalize_signed end_ len) (len - 1)) in
          ones (bit b <$> seq s (S e - s))
        else ones (bits_of (sub_range b start end_))
    end))).

(** The places BITPOS looks at, in its order: bits one by one, or byte by byte and
    each byte from its last bit. *)
Definition pos_places (args : list Resp) (b : bytes) : Result (list nat) :=
  let! range := bitpos_range args b in
  let '(start, end_, unit) := range in
  let last := if (unit : bool) then (Z.of_nat (length b) * 8 - 1)%Z else (Z.of_nat (length b) - 1)%Z in
  let s := Z.to_nat (Z.min start last) in
  let e := Z.to_nat (Z.min end_ last) in
  inr (if bool_decide (b = []) then []
       else if unit then seq s (S e - s) else concat (backwards <$> seq s (S e - s))).

Definition pos_answer (args : list Resp) (target : bool) (b : bytes) : Result Resp :=
  let! places := pos_places args b in inr (int (first_bit target b places)).

(** ** Fields *)

Inductive Action := Get | Put (v : Z) | Add (n : Z) (mode : OverflowMode).
Record FieldOp := mkFieldOp { width : nat; is_signed : bool; offset : nat; action : Action }.

Definition value_at (op : FieldOp) (b : bytes) : Z := typed_value (is_signed op) (bit b <$> seq (offset op) (width op)).

Definition write_at (op : FieldOp) (v : Z) (b : bytes) : bytes := write_bits (offset op) (field_bits (width op) v) b.

(** The bytes a field needs are there even if nothing is written. *)
Definition field_answer (op : FieldOp) (c : Cell) : Result Resp * Cell :=
  match action op with
  | Get => answer (looking [] (int 0) (fun b => inr (int (value_at op b)))) c
  | Put v => changing (int 0, Some (write_at op v [])) (fun b => (int (value_at op b), write_at op v b)) c
  | Add n mode =>
      let add cur := overflow_add cur n (width op) (is_signed op) mode in
      changing (match add 0%Z with Some r => (int r, Some (write_at op r [])) | None => (null, None) end)
        (fun b => match add (value_at op b) with
                  | Some r => (int r, write_at op r b)
                  | None => (null, grown b (byte_len (offset op) (width op)))
                  end) c
  end.

(** The words of BITFIELD: the operations, up to the first error. *)
Fixpoint fields_of (rest : list Resp) (mode : OverflowMode) : list FieldOp * option NexradeError :=
  let field := fun (rest : list Resp) (k : nat -> bool -> nat -> list FieldOp * option NexradeError) =>
    match parse_type_offset rest 0 with
    | inl e => ([], Some e)
    | inr (bits, signed, off) => k bits signed off
    end in
  match rest with
  | [] => ([], None)
  | sub :: rest =>
      match get_str [sub] 0 "BITFIELD" with
      | inl e => ([], Some e)
      | inr sub =>
          let sub := to_uppercase sub in
          if bool_decide (sub = bstr "OVERFLOW") then
            match get_str rest 0 "BITFIELD" with
            | inl e => ([], Some e)
            | inr w => fields_of (skip1 rest) (overflow_word w)
            end
          else if bool_decide (sub = bstr "GET") then
            field rest (fun bits signed off =>
              let r := fields_of (skip1 (skip1 rest)) mode in (mkFieldOp bits signed off Get :: r.1, r.2))
          else if bool_decide (sub = bstr "SET") then
            field rest (fun bits signed off =>
              match get_i64 rest 2 "BITFIELD" with
              | inl e => ([], Some e)
              | inr v => let r := fields_of (skip1 (skip1 (skip1 rest))) mode in (mkFieldOp bits signed off (Put v) :: r.1, r.2)
              end)
          else if bool_decide (sub = bstr "INCRBY") then
            field rest (fun bits signed off =>
              match get_i64 rest 2 "BITFIELD" with
              | inl e => ([], Some e)
              | inr n => let r := fields_of (skip1 (skip1 (skip1 rest))) mode in (mkFieldOp bits signed off (Add n mode) :: r.1, r.2)
              end)
          else fields_of rest mode
      end
  end.

(** The operations one after the other; an error ends the command where it is. *)
Fixpoint run_fields (ops : list FieldOp) (err : option NexradeError) (replies : list Resp) (c : Cell) : Result Resp * Cell :=
  match ops with
  | [] => (match err with Some e => inl e | None => inr (array replies) end, c)
  | op :: ops =>
      match field_answer op c with
      | (inl e, c) => (inl e, c)
      | (inr r, c) => run_fields ops err (replies ++ [r]) c
      end
  end.

(** The largest the value gets on the way. *)
Fixpoint peak (ops : list FieldOp) (c : Cell) : nat :=
  cell_size c `max` match ops with [] => 0 | op :: ops => peak ops (field_answer op c).2 end.

Definition fields_request (key : bytes) (p : list FieldOp * option NexradeError) : Request :=
  mkRequest key (fun c => 72 + length key + 2 * peak p.1 c) (run_fields p.1 p.2 []).

Definition bit_request (cmd : BitCommand) (args : list Resp) : Result Request :=
  match cmd with
  | SETBIT => arity (length args <> 4) "setbit"
      (let! key := get_bytes_vec args 1 "SETBIT" in
       let! offset := get_i64 args 2 "SETBIT" in
       let! value := get_i64 args 3 "SETBIT" in
       if negb (bool_decide (0 <= offset <= 4294967295)%Z) then inl BitError
       else if bool_decide (value <> 0%Z) && bool_decide (value <> 1%Z) then inl (Generic (bstr "bit is not an integer or out of range"))
       else let f := setbit_answer (Z.to_nat offset) (bool_decide (value = 1%Z)) in
            inr (mkRequest key (fun c => cell_size (f c).2) f))
  | GETBIT => arity (length args <> 3) "getbit"
      (let! key := get_bytes_vec args 1 "GETBIT" in
       let! offset := get_i64 args 2 "GETBIT" in
       if bool_decide (offset < 0)%Z then inl BitError
       else inr (looking key (int 0) (fun b => inr (int (Z.b2z (bit b (Z.to_nat offset)))))))
  | BITCOUNT => arity (length args < 2) "bitcount"
      (let! key := get_bytes_vec args 1 "BITCOUNT" in inr (looking key (int 0) (count_answer args)))
  | BITPOS => arity (length args < 3) "bitpos"
      (let! key := get_bytes_vec args 1 "BITPOS" in
       let! v := get_i64 args 2 "BITPOS" in
       if bool_decide (v <> 0%Z) && bool_decide (v <> 1%Z) then inl (Generic (bstr "bit argument must be 0 or 1"))
       else inr (looking key (int (if bool_decide (v = 1%Z) then -1 else 0)) (pos_answer args (bool_decide (v = 1%Z)))))
  | BITFIELD => arity (length args < 2) "bitfield"
      (let! key := get_bytes_vec args 1 "BITFIELD" in inr (fields_request key (fields_of (drop 2 args) Wrap)))
  | BITFIELD_RO => arity (length args < 2) "bitfield_ro"
      (let! _ := only_gets (drop 2 args) in
       let! key := get_bytes_vec args 1 "BITFIELD" in inr (fields_request key (fields_of (drop 2 args) Wrap)))
  end.

(** ** Looks *)

Lemma bitmap_text e : get_bitmap_bytes e = ok_or (text (abs_value (Entry.value e))) WrongType.
Proof. unfold get_bitmap_bytes. by destruct (Entry.value e). Qed.

(** A look on one shard; what is left is alive. *)
Lemma look_serves now k none f (g : bytes -> Result Resp) d : wf d -> typed_slot (Database.entries d !! k) -> (forall b, f b = Some (g b)) ->
  let c := look now (Database.entries d !! k) in
  exists d' o, match Database.get now k d with
    | (None, d) => Some (inr none, d)
    | (Some e, d) => let? bs := get_bitmap_bytes e at d in r ← f bs; Some (r, d)
    end = Some ((answer (looking k none g) c).1, d') /\
    dstep d d' k o /\ typed_slot o /\ look now o = c /\ live now o = o /\ total_bytes d' <= total_bytes d.
Proof.
  intros W T Hf c. destruct (get_serve now k d W T) as (r & d' & -> & St & Tr & Ht & Hl & Hr). subst c. rewrite <- Hl.
  exists d', r. destruct r as [e|].
  - destruct Hr as [X Hr]. rewrite Hr, bitmap_text. cbn [answer looking fst].
    split_and!; [|done..|unfold live; simpl; by rewrite X|done].
    destruct (text (abs_value (Entry.value e))) as [b|]; cbn [ok_or try_at]; [by rewrite Hf|done].
  - by split_and!.
Qed.

Lemma read_bits_refines now k none f g : (forall b, f b = Some (g b)) -> refines now (read_bits now k none f) (inr (looking k none g)).
Proof.
  intros Hf. apply (serves_refines now (looking k none g)). intros d W T c F.
  destruct (look_serves now k none f g d W T Hf) as (d' & o & E & St & To & L & _). exists d', o. split_and!; [exact E|done..|].
  cbn [answer looking key] in *. rewrite L. subst c. by destruct (look now (Database.entries d !! k)) as [[]|].
Qed.

Lemma byte_offset z : (0 <= z)%Z -> Z.to_nat (z / 8) = Z.to_nat z / 8 /\ Z.to_nat (z mod 8) = Z.to_nat z mod 8.
Proof. intros Hz. by rewrite Z2Nat.inj_div, Z2Nat.inj_mod by lia. Qed.

Lemma refines_guard now (g : bool) err h r : (g = false -> refines now h r) ->
  refines now (fun s => if g then Some (inl err, s) else h s) (if g then inl err else r).
Proof. intros Hr s W T. destruct g; [done|]. by apply Hr. Qed.

Lemma getbit_refines now args : refines now (cmd_getbit now args) (bit_request GETBIT args).
Proof.
  apply refines_arity, refines_try. intros k _. apply refines_try. intros z _. apply refines_guard. intros Hz.
  apply bool_decide_eq_false in Hz. apply read_bits_refines. intros b. destruct (byte_offset z ltac:(lia)) as [Eq Er].
  rewrite Eq, Er. pose proof (Z.div_pos z 8 ltac:(lia) ltac:(lia)). case_bool_decide as Hl.
  - do 3 f_equal. unfold bit. rewrite lookup_ge_None_2; [done|]. lia.
  - destruct (lookup_lt_is_Some_2 b (Z.to_nat z / 8)) as [x Hx]; [lia|]. rewrite Hx. mstep.
    by rewrite bit_at_testbit, (bit_here b _ x Hx).
Qed.

Lemma byte_range_spec b start end_ : b <> [] ->
  (let len := Z.of_nat (length b) in
   let s := normalize_signed start len in
   let e := Z.min (normalize_signed end_ len) (len - 1) in
   if bool_decide (e < s)%Z then Some [] else slice b (Z.to_nat s) (Z.to_nat (e + 1))) = Some (sub_range b start end_).
Proof.
  intros Hb. unfold sub_range, normalize_signed. cbv beta zeta.
  assert (P : forall i, (0 <= if bool_decide (i < 0)%Z then Z.max (Z.of_nat (length b) + i) 0 else i)%Z) by (intros i; case_bool_decide; lia).
  generalize (P start), (P end_).
  generalize (if bool_decide (start < 0)%Z then Z.max (Z.of_nat (length b) + start) 0 else start)%Z.
  generalize (if bool_decide (end_ < 0)%Z then Z.max (Z.of_nat (length b) + end_) 0 else end_)%Z. clear P. intros e s0 Hs He.
  assert (0 < length b) by (destruct b; simpl; [done|lia]). case_bool_decide as Hes.
  - destruct (decide (e < s0)%Z); [by replace (Z.to_nat (e + 1) - Z.to_nat s0) with 0 by lia|]. by rewrite drop_ge, take_nil by lia.
  - unfold slice. rewrite bool_decide_eq_true_2 by lia. f_equal. destruct (Z.le_gt_cases e (Z.of_nat (length b) - 1)).
    + f_equal. lia.
    + rewrite !take_ge by (rewrite length_drop; lia). done.
Qed.

Lemma bitcount_spec args b : bitcount args b = Some (count_answer args b).
Proof.
  unfold bitcount, count_answer. destruct (count_range args) as [err|[[[start end_] unit]|]]; cbn [bindr]; [done| |by rewrite sum_ones_spec].
  destruct (decide (b = [])) as [->|Hb].
  - rewrite bool_decide_eq_true_2 by done. case_bool_decide; do 3 f_equal.
    + simpl. rewrite !Z.min_r by (unfold normalize_signed; case_bool_decide; lia). done.
    + unfold sub_range. simpl. rewrite drop_nil, take_nil. done.
  - rewrite bool_decide_eq_false_2 by done. case_bool_decide.
    + unfold count_bits. assert (0 < length b) by (destruct b; simpl; [done|lia]).
      rewrite count_loop_spec; [done|]. unfold normalize_signed. lia.
    + pose proof (byte_range_spec b start end_ Hb) as E. cbv zeta in E. destruct (bool_decide _).
      * injection E as E. by rewrite <- E.
      * rewrite E. mstep. by rewrite sum_ones_spec.
Qed.

Lemma bitcount_refines now args : refines now (cmd_bitcount now args) (bit_request BITCOUNT args).
Proof. apply refines_arity, refines_try. intros k _. apply read_bits_refines. apply bitcount_spec. Qed.

Lemma bitpos_spec args target b : bitpos args target b = Some (pos_answer args target b).
Proof.
  unfold bitpos, pos_answer, pos_places. destruct (bitpos_range args b) as [err|[[start end_] unit]]; cbn [bindr]; [done|].
  destruct (decide (b = [])) as [->|Hb]; [by rewrite bool_decide_eq_true_2|]. rewrite (bool_decide_eq_false_2 (b = [])) by done.
  assert (0 < length b) by (destruct b; simpl; [done|lia]). case_bool_decide as Hes; destruct unit.
  - by rewrite (proj2 (Nat.sub_0_le _ _)) by lia.
  - by rewrite (proj2 (Nat.sub_0_le _ _)) by lia.
  - rewrite scan_bits_spec; [done|]. apply Forall_seq. lia.
  - unfold slice. rewrite bool_decide_eq_true_2 by lia. mstep. by rewrite scan_bytes_spec by lia.
Qed.

Lemma bitpos_refines now args : refines now (cmd_bitpos now args) (bit_request BITPOS args).
Proof.
  apply refines_arity, refines_try. intros k _. apply refines_try. intros v _. apply refines_guard. intros _.
  apply read_bits_refines. apply bitpos_spec.
Qed.

(** ** Changes *)

(** What a body on the shard of [k] leaves: the answer, the new cell, nothing expired. *)
Definition served (now : Z) (k : bytes) d (x : may_panic (Result Resp * Database.t)) (p : Result Resp * Cell) : Prop :=
  exists d' o, x = Some (p.1, d') /\ dstep d d' k o /\ typed_slot o /\ look now o = p.2 /\ live now o = o.

Lemma served_serves now q body :
  (forall d, wf d -> typed_slot (Database.entries d !! key q) ->
   (Z.of_nat (total_bytes d + (64 + length (key q) + writes q (look now (Database.entries d !! key q)))) < 2 ^ 64)%Z ->
   served now (key q) d (body d) (answer q (look now (Database.entries d !! key q)))) -> serves now q body.
Proof. intros B d W T c F. destruct (B d W T F) as (d' & o & E & St & To & L & _). by exists d', o. Qed.

Lemma get_mut_again now k e d : Entry.is_expired now e = false -> Database.entries d !! k = Some e ->
  Database.get_mut now k d = (Some e, Database.bump_version k d).
Proof. intros X E. unfold Database.get_mut. by rewrite E, X. Qed.

Lemma write_bump k e e' d :
  Database.write_back k e (Database.bump_version k (Database.write_back k e' d)) = Database.write_back k e (Database.bump_version k d).
Proof.
  unfold Database.bump_version, Database.write_back. fields. destruct (Database.key_versions d !! k); fields; by rewrite insert_insert_eq.
Qed.

(** The two lookups of a change: the integer cell is a string by the second one. *)
Lemma demote_spec now k d : wf d -> typed_slot (Database.entries d !! k) ->
  let '(delta, d1) := demote_int now k d in
  match live now (Database.entries d !! k) with
  | None => delta = 0%Z /\ exists d2, Database.get_mut now k d1 = (None, d2) /\ dstep d d2 k None
  | Some e =>
      let v := match Entry.value e with TInt cell => TString (show_int (AtomicIntCell.load cell)) | v => v end in
      exists d2, Database.get_mut now k d1 = (Some (Entry.set_value v e), d2) /\
        delta = (Z.of_nat (Database.value_size v) - Z.of_nat (Database.value_size (Entry.value e)))%Z /\
        exists d3, dstep d d3 k (Some e) /\ (forall e', Database.write_back k e' d2 = Database.write_back k e' d3) /\
          (v = Entry.value e -> d2 = d3)
  end.
Proof.
  intros W T. unfold demote_int. destruct (get_mut_step now k d W) as [D1 E1].
  destruct (Database.get_mut now k d) as [r d1]. cbn [fst snd] in *. subst r. pose proof (dstep_slot _ _ _ _ D1) as S1.
  destruct (live now (Database.entries d !! k)) as [e|] eqn:L.
  2: { split; [done|]. exists d1. unfold Database.get_mut. by rewrite S1. }
  assert (X : Entry.is_expired now e = false).
  { revert L. unfold live. destruct (Database.entries d !! k) as [e0|]; [|done]. simpl. destruct (Entry.is_expired now e0) eqn:E0; [done|]. by intros [= <-]. }
  assert (D3 : dstep d (Database.bump_version k d1) k (Some e)).
  { destruct (get_mut_step now k d1 (proj1 D1)) as [D _]. rewrite (get_mut_again now k e d1 X S1), S1 in D. cbn [fst snd] in D.
    eapply dstep_trans; [exact D1|]. unfold live in D. simpl in D. by rewrite X in D. }
  destruct (Entry.value e) as [b|cell|?|?|?|?|b|?|?|?] eqn:Ev.
  2: { set (e' := Entry.set_value _ e). exists (Database.bump_version k (Database.write_back k e' d1)). split_and!.
    - apply get_mut_again; [done|]. unfold Database.write_back. fields. apply lookup_insert_eq.
    - simpl. lia.
    - exists (Database.bump_version k d1). split_and!; [done|intros; apply write_bump|done]. }
  all: (exists (Database.bump_version k d1); split_and!;
    [rewrite <- Ev; destruct e; by apply get_mut_again|simpl; lia|exists (Database.bump_version k d1); by split_and!]).
Qed.

(** A string or bitmap of another length, counted. *)
Lemma rewrite_served now k d d3 e (v v' : DataType) delta : dstep d d3 k (Some e) -> Entry.is_expired now e = false ->
  delta = (Z.of_nat (Database.value_size v') - Z.of_nat (Database.value_size (Entry.value e)))%Z ->
  (Z.of_nat (total_bytes d + (64 + length k + Database.value_size v')) < 2 ^ 64)%Z ->
  typed_slot (Some (Entry.new v')) ->
  let e' := Entry.set_value v' e in
  let d' := Database.adjust_live_bytes delta (Database.write_back k e' d3) in
  dstep d d' k (Some e') /\ typed_slot (Some e') /\
  look now (Some e') = Some (abs_value v', Expiry.expires_at_ms <$> Entry.expiry e) /\ live now (Some e') = Some e'.
Proof.
  intros D X -> F T e' d'. assert (X' : Entry.is_expired now e' = false) by exact X.
  split_and!; [|done|by rewrite look_visible|unfold live; simpl; by rewrite X'].
  eapply dstep_trans; [exact D|]. pose proof (dstep_total _ _ _ _ D) as Ht. cbn [slot_size from_option] in Ht.
  eapply modify_step; [apply D|by eapply dstep_slot|done| |]; unfold Database.estimate_entry_size, e' in *; cbn [Entry.value Entry.set_value] in *; lia.
Qed.

Lemma change_serves {A} now k (f : bytes -> may_panic (A * bytes)) (g : bytes -> A * bytes) (reply : A -> Resp) none d :
  (forall b, f b = Some (g b)) -> wf d -> typed_slot (Database.entries d !! k) ->
  let p := changing none (fun b => (reply (g b).1, (g b).2)) (look now (Database.entries d !! k)) in
  (Z.of_nat (total_bytes d + (64 + length k + cell_size p.2)) < 2 ^ 64)%Z ->
  served now k d (let '(delta, d) := demote_int now k d in
    match Database.get_mut now k d with
    | (None, d) => Some (inr none.1, Database.adjust_live_bytes delta
                      (match none.2 with Some b => Database.insert k (Entry.new (TBitmap b)) d | None => d end))
    | (Some e, d) => '(r, d) ← in_place now k f delta e d; Some (let! a := r in inr (reply a), d)
    end) p.
Proof.
  intros Hf W T. cbv zeta. rewrite look_live. intros F. pose proof (demote_spec now k d W T) as Dm.
  destruct (demote_int now k d) as [delta d1].
  destruct (live now (Database.entries d !! k)) as [e|] eqn:L.
  2: { destruct Dm as (-> & d2 & -> & D2). unfold served. cbn [fmap option_fmap option_map changing fst snd] in F |- *.
    destruct none as [r0 [b|]]; cbn [fst snd fmap option_fmap option_map] in *; [|by exists d2, None].
    eexists _, (Some (Entry.new (TBitmap b))). split_and!; [done| |done..].
    eapply dstep_trans; [exact D2|]. apply insert_serve; [apply D2|]. pose proof (dstep_total _ _ _ _ D2) as Ht.
    unfold Database.estimate_entry_size. unfold cell_size in F. cbn in F, Ht |- *. lia. }
  destruct Dm as (d2 & -> & -> & d3 & D3 & Ew & Ed). cbn [fmap option_fmap option_map] in F |- *.
  assert (X : Entry.is_expired now e = false).
  { revert L. unfold live. destruct (Database.entries d !! k) as [e0|]; [|done]. simpl. destruct (Entry.is_expired now e0) eqn:E0; [done|]. by intros [= <-]. }
  unfold served, in_place. cbn [Entry.value Entry.set_value] in *.
  destruct (Entry.value e) as [b|cell|?|?|?|?|b|?|?|?] eqn:Ev; cbn [abs_value changing fst snd] in F |- *.
  3-6,8-10: (rewrite (Ed eq_refl); exists d3, (Some e); split_and!; [done|done|unfold typed_slot; simpl; by rewrite Ev
    |by rewrite look_visible, Ev|unfold live; simpl; by rewrite X]).
  all: unfold AtomicIntCell.load in *; rewrite Hf; mstep; destruct (g _) as [a b']; cbn [bindr fst snd] in F |- *; rewrite Ew;
    unfold cell_size in F; cbn [cell_text text mbind option_bind default from_option] in F; unfold Datatypes.id in F.
  1,2: pose proof (rewrite_served now k d d3 e (Entry.value e) (TString b') _ D3 X eq_refl F I) as (D4 & T4 & L4 & V4).
  3: pose proof (rewrite_served now k d d3 e (Entry.value e) (TBitmap b') _ D3 X eq_refl F I) as (D4 & T4 & L4 & V4).
  all: (eexists _, _; split_and!; [|exact D4|exact T4|exact L4|exact V4]; mstep; cbn [bindr]; do 4 f_equal; rewrite Ev; simpl; lia).
Qed.

(** ** SETBIT *)

Lemma setbit_none (z v : Z) : (0 <= z)%Z ->
  (let zeros := replicate (S (Z.to_nat (z / 8))) (byte_of 0) in
   if bool_decide (v = 1%Z) then <[Z.to_nat (z / 8) := with_bit (byte_of 0) (7 - Z.to_nat (z mod 8)) true]> zeros else zeros)
  = write_bits (Z.to_nat z) [bool_decide (v = 1%Z)] [].
Proof.
  intros Hz. cbv zeta. destruct (byte_offset z Hz) as [-> ->]. pose proof (set_one_spec (Z.to_nat z) v []) as E. unfold set_one in E.
  rewrite ensure_grown, grown_nil, lookup_replicate_2 in E by lia. cbn [mbind option_bind] in E. apply (inj Some), pair_eq in E as [_ <-].
  destruct (bool_decide (v = 1%Z)); [done|].
  replace (with_bit (byte_of 0) (7 - Z.to_nat z mod 8) false) with (byte_of 0) by (unfold with_bit; by rewrite Z.land_0_l).
  by rewrite list_insert_id by (apply lookup_replicate_2; lia).
Qed.

Lemma setbit_refines now args : refines now (cmd_setbit now args) (bit_request SETBIT args).
Proof.
  apply refines_arity, refines_try. intros k _. apply refines_try. intros z _. apply refines_try. intros v _.
  apply refines_guard. intros Hz. apply negb_false_iff, bool_decide_eq_true in Hz. apply refines_guard. intros _.
  apply (serves_refines now (mkRequest k (fun c => cell_size (setbit_answer (Z.to_nat z) (bool_decide (v = 1%Z)) c).2) _)), served_serves.
  cbn [key writes answer]. intros d W T F. unfold setbit_answer in *.
  pose proof (change_serves now k (set_one (Z.to_nat (z / 8)) (7 - Z.to_nat (z mod 8)) v)
    (fun b => (Z.b2z (bit b (Z.to_nat z)), write_bits (Z.to_nat z) [bool_decide (v = 1%Z)] b)) int
    (int 0, Some (write_bits (Z.to_nat z) [bool_decide (v = 1%Z)] [])) d) as C.
  unfold setbit_body. pose proof (setbit_none z v ltac:(lia)) as E. cbv zeta in E |- *. rewrite E. apply C; [|done..].
  intros b. destruct (byte_offset z ltac:(lia)) as [-> ->]. apply set_one_spec.
Qed.

(** ** BITFIELD *)

Definition field_ok (op : FieldOp) : Prop := width_ok (width op) (is_signed op).

Definition field_body (now : Z) (k : bytes) (op : FieldOp) (d : Database.t) : may_panic (Result Resp * Database.t) :=
  match action op with
  | Get => field_get_body now k (width op) (is_signed op) (offset op) d
  | Put v => field_set_body now k (width op) (is_signed op) (offset op) v d
  | Add n mode => field_incr_body now k (width op) (is_signed op) (offset op) n mode d
  end.

Lemma read_grown op b n : field_ok op -> read_bitfield (grown b n) (offset op) (width op) (is_signed op) = value_at op b.
Proof.
  intros Hw. rewrite read_bitfield_spec by done. unfold value_at. f_equal. apply list_fmap_ext. intros _ i _. apply grown_bit.
Qed.

Lemma write_grown op v b : field_ok op -> write_bitfield (grown b (byte_len (offset op) (width op))) (offset op) (width op) v = write_at op v b.
Proof. intros [Hw _]. apply write_bitfield_spec. lia. Qed.

Lemma field_serves now k op d : field_ok op -> wf d -> typed_slot (Database.entries d !! k) ->
  let p := field_answer op (look now (Database.entries d !! k)) in
  (Z.of_nat (total_bytes d + (64 + length k + cell_size p.2)) < 2 ^ 64)%Z -> served now k d (field_body now k op d) p.
Proof.
  intros Hw W T. cbv zeta. unfold field_answer, field_body. destruct (action op) as [|v|n mode].
  - intros _. destruct (look_serves now k (int 0) (fun b => Some (inr (int (value_at op b)))) (fun b => inr (int (value_at op b))) d W T)
      as (d' & o & E & St & To & L & V & _); [done|]. exists d', o. split_and!; [|done..| |done].
    + etransitivity; [|exact E]. unfold field_get_body. destruct (Database.get now k d) as [[e|] d1]; [|done].
      destruct (get_bitmap_bytes e) as [|b]; [done|]. cbn [try_at mbind option_bind]. by rewrite read_bitfield_spec.
    + rewrite L. by destruct (look now (Database.entries d !! k)) as [[]|].
  - pose proof (change_serves now k (field_set (width op) (is_signed op) (offset op) v) (fun b => (value_at op b, write_at op v b)) int
      (int 0, Some (write_at op v [])) d) as C. cbn [fst snd] in C. intros F.
    unfold field_set_body. rewrite <- grown_nil, (write_grown op v [] Hw). apply C; [|done..].
    intros b. unfold field_set. by rewrite read_grown, write_grown.
  - set (add := fun cur => overflow_add cur n (width op) (is_signed op) mode).
    pose proof (change_serves now k (field_incr (width op) (is_signed op) (offset op) n mode)
      (fun b => match add (value_at op b) with
                | Some r => (Some r, write_at op r b)
                | None => (None, grown b (byte_len (offset op) (width op))) end)
      (fun r => match r with Some v => int v | None => null end)
      (match add 0%Z with Some r => (int r, Some (write_at op r [])) | None => (null, None) end) d) as C.
    intros F. assert (Hf : forall b, field_incr (width op) (is_signed op) (offset op) n mode b = Some
      (match add (value_at op b) with
       | Some r => (Some r, write_at op r b)
       | None => (None, grown b (byte_len (offset op) (width op))) end)).
    { intros b. unfold field_incr. rewrite read_grown by done. fold (add (value_at op b)). destruct (add (value_at op b)); [|done].
      by rewrite write_grown. }
    specialize (C Hf W T). cbv zeta in C.
    assert (Ea : forall c, changing (match add 0%Z with Some r => (int r, Some (write_at op r [])) | None => (null, None) end)
      (fun b => (match (match add (value_at op b) with Some r => (Some r, write_at op r b)
          | None => (None, grown b (byte_len (offset op) (width op))) end).1 with Some v => int v | None => null end,
        (match add (value_at op b) with Some r => (Some r, write_at op r b)
          | None => (None, grown b (byte_len (offset op) (width op))) end).2)) c
      = changing (match add 0%Z with Some r => (int r, Some (write_at op r [])) | None => (null, None) end)
        (fun b => match add (value_at op b) with Some r => (int r, write_at op r b)
          | None => (null, grown b (byte_len (offset op) (width op))) end) c).
    { intros [[[b|b|?] x]|]; [| |done..]; simpl; by destruct (add (value_at op b)). }
    rewrite Ea in C. specialize (C F). unfold served in C |- *. destruct C as (d' & o & E & R). exists d', o. split; [|exact R].
    etransitivity; [|exact E]. unfold field_incr_body. destruct (demote_int now k d) as [delta d1].
    destruct (Database.get_mut now k d1) as [[e|] d2]; [done|]. fold (add 0%Z).
    destruct (add 0%Z) as [r|]; [|done]. cbn [fst snd]. by rewrite <- (write_grown op r [] Hw), grown_nil.
Qed.

(** The operations under one guard after the other are the operations under one guard. *)
Fixpoint fields_body (now : Z) (k : bytes) (ops : list FieldOp) (err : option NexradeError) (replies : list Resp) (d : Database.t) :
    may_panic (Result Resp * Database.t) :=
  match ops with
  | [] => Some (match err with Some e => inl e | None => inr (array replies) end, d)
  | op :: ops =>
      '(r, d) ← field_body now k op d;
      let? r := r at d in
      fields_body now k ops err (replies ++ [r]) d
  end.

Lemma on_shard_pure {A} i (r : A) s : is_Some (shards s !! i) -> on_shard i (fun d => Some (r, d)) s = Some (r, s).
Proof. intros [d Hd]. unfold on_shard. rewrite Hd. mstep. rewrite list_insert_id by done. by destruct s. Qed.

(** A step under the guard of a key, then the rest under the same. *)
Lemma on_shard_then k (f : Database.t -> may_panic (Result Resp * Database.t)) (h : Resp -> t -> may_panic (Result Resp * t)) g s :
  is_Some (shards s !! shard_idx s k) ->
  (forall r s', is_Some (shards s' !! shard_idx s' k) -> h r s' = on_shard (shard_idx s' k) (g r) s') ->
  ('(r, s) ← on_shard (shard_idx s k) f s; let? r := r at s in h r s)
  = on_shard (shard_idx s k) (fun d => '(r, d) ← f d; let? r := r at d in g r d) s.
Proof.
  intros Hs Hh. unfold on_shard at 1 2. destruct Hs as [d Hd]. rewrite Hd. mstep. destruct (f d) as [[[err|r] d1]|]; mstep; cbn [try_at]; [done| |done].
  pose proof (lookup_lt_Some _ _ _ Hd) as Hl. set (s' := set_shards _ s). assert (Hs' : shards s' !! shard_idx s' k = Some d1) by (by apply list_lookup_insert_eq).
  rewrite Hh by eauto. unfold on_shard. rewrite Hs'. mstep. destruct (g r d1) as [[r' d2]|]; mstep; [|done].
  unfold s', set_shards. cbn [shards num_shards]. by rewrite list_insert_insert_eq.
Qed.

Lemma skip_shorter rest : length (skip1 rest) <= length rest.
Proof. destruct rest; simpl; lia. Qed.

Lemma bitfield_loop_body now k n : forall rest mode replies s, length rest <= n -> is_Some (shards s !! shard_idx s k) ->
  bitfield_loop now k rest mode replies s
  = on_shard (shard_idx s k) (fields_body now k (fields_of rest mode).1 (fields_of rest mode).2 replies) s.
Proof.
  induction n as [|n IH]; intros rest mode replies s Hn Hs; (destruct rest as [|sub rest]; [exact (eq_sym (on_shard_pure _ _ _ Hs))|]); simpl in Hn; [lia|].
  cbn [bitfield_loop fields_of]. destruct (get_str [sub] 0 "BITFIELD") as [err|w]; cbn [try_at]; [exact (eq_sym (on_shard_pure _ _ _ Hs))|].
  pose proof (skip_shorter rest) as H1'. pose proof (skip_shorter (skip1 rest)) as H2'. pose proof (skip_shorter (skip1 (skip1 rest))) as H3'.
  case_bool_decide as C0. { destruct (get_str rest 0 "BITFIELD") as [err|o]; cbn [try_at]; [exact (eq_sym (on_shard_pure _ _ _ Hs))|]. apply IH; [lia|done]. }
  case_bool_decide as C1; [|case_bool_decide as C2; [|case_bool_decide as C3; [|apply IH; [lia|done]]]];
    (destruct (parse_type_offset rest 0) as [err|[[bits signed] off]]; cbn [try_at]; [exact (eq_sym (on_shard_pure _ _ _ Hs))|]).
  2,3: destruct (get_i64 rest 2 "BITFIELD") as [err|v]; cbn [try_at]; [exact (eq_sym (on_shard_pure _ _ _ Hs))|].
  all: cbn [fst snd fields_body]; erewrite on_shard_then; [reflexivity|done|]; intros r s' Hs'; apply IH; [lia|done].
Qed.

(** Widths come out of the parser in range. *)
Lemma parse_width rest i bits signed off : parse_type_offset rest i = inr (bits, signed, off) -> width_ok bits signed.
Proof.
  unfold parse_type_offset. destruct (rest !! i ≫= as_str) as [ty|]; [|done]. cbn [ok_or bindr].
  match goal with |- bindr ?r _ = _ -> _ => destruct r as [?|sg]; [done|] end. cbn [bindr].
  destruct (parse_usize (drop 1 ty)) as [n|] eqn:Ep; [|done]. cbn [ok_or bindr].
  destruct (bool_decide (n = 0)%Z || _ || _) eqn:Eg; [done|].
  destruct (rest !! S i ≫= as_str) as [os|]; [|done]. cbn [ok_or bindr]. destruct (parse_usize os) as [m|]; [|done]. cbn [ok_or bindr].
  do 2 (match goal with |- (if ?x then _ else _) = _ -> _ => destruct x; [done|] end). intros E. apply (inj inr), pair_eq in E as [E _]. apply pair_eq in E as [<- <-]. apply orb_false_iff in Eg as [Eg E3]. apply orb_false_iff in Eg as [E1 E2].
  apply bool_decide_eq_false in E1, E2. pose proof (parse_usize_nonneg _ _ Ep).
  split; [lia|]. intros ->. simpl in E3. apply bool_decide_eq_false in E3. lia.
Qed.

Lemma fields_of_ok n : forall rest mode, length rest <= n -> Forall field_ok (fields_of rest mode).1.
Proof.
  induction n as [|n IH]; intros rest mode Hn; (destruct rest as [|sub rest]; [constructor|]); simpl in Hn; [lia|].
  pose proof (skip_shorter rest) as H1'. pose proof (skip_shorter (skip1 rest)) as H2'. pose proof (skip_shorter (skip1 (skip1 rest))) as H3'.
  cbn [fields_of]. destruct (get_str [sub] 0 "BITFIELD"); [constructor|].
  case_bool_decide as C0. { destruct (get_str rest 0 "BITFIELD"); [constructor|]. apply IH. lia. }
  case_bool_decide as C1; [|case_bool_decide as C2; [|case_bool_decide as C3; [|apply IH; lia]]];
    (destruct (parse_type_offset rest 0) as [err|[[bits signed] off]] eqn:E; [constructor|]; apply parse_width in E).
  2,3: destruct (get_i64 rest 2 "BITFIELD"); [constructor|].
  all: constructor; [done|apply IH; lia].
Qed.

(** What an operation that answers leaves is a string, whose size the cell shows. *)
Lemma answered_size now k op c r o : field_answer op c = (inr r, look now o) -> live now o = o ->
  slot_size Database.estimate_entry_size k o <= 72 + length k + cell_size (look now o).
Proof.
  intros E V. assert (N : forall v x, look now o <> Some (Opaque v, x)).
  { intros v x Ho. rewrite Ho in E. unfold field_answer, looking, changing in E. destruct (action op), c as [[[] ?]|]; simpl in E; try done;
      repeat case_match; try done; by injection E as ?. }
  destruct o as [e|]; [|simpl; lia]. rewrite look_live, V in N |- *. cbn [fmap option_fmap option_map] in N |- *.
  unfold slot_size, Database.estimate_entry_size, cell_size. cbn [from_option cell_text mbind option_bind].
  destruct (Entry.value e) eqn:Ev; cbn [abs_value text default from_option Database.value_size] in N |- *; try (by edestruct N);
    unfold Datatypes.id; lia.
Qed.

Lemma peak_here ops c : cell_size c <= peak ops c.
Proof. destruct ops; simpl; lia. Qed.

(** A run of operations on a shard that has room for the value twice, at its largest. *)
Lemma fields_run now k err ops : Forall field_ok ops -> forall replies d P, wf d -> typed_slot (Database.entries d !! k) ->
  peak ops (look now (Database.entries d !! k)) <= P ->
  (Z.of_nat (total_bytes d + (64 + length k + P)) < 2 ^ 64)%Z ->
  (Z.of_nat (total_bytes d + (136 + 2 * length k + 2 * P)) < 2 ^ 64 + Z.of_nat (slot_size Database.estimate_entry_size k (Database.entries d !! k)))%Z ->
  let p := run_fields ops err replies (look now (Database.entries d !! k)) in
  exists d' o, fields_body now k ops err replies d = Some (p.1, d') /\ dstep d d' k o /\ typed_slot o /\ look now o = p.2.
Proof.
  induction 1 as [|op ops Ho Hops IH]; intros replies d P W T Hp F R.
  - exists d, (Database.entries d !! k). split; [done|]. split; [by apply same_step|done].
  - cbn [fields_body run_fields]. cbn [peak] in Hp. pose proof (peak_here ops (field_answer op (look now (Database.entries d !! k))).2) as Hk.
    destruct (field_serves now k op d Ho W T) as (d1 & o1 & -> & D1 & T1 & L1 & V1); [lia|].
    destruct (field_answer op (look now (Database.entries d !! k))) as [[e|r] c1] eqn:E; mstep; cbn [fst snd try_at] in *; [by exists d1, o1|].
    subst c1. pose proof (answered_size now k op _ r o1 E V1) as Hs. pose proof (dstep_total _ _ _ _ D1) as Ht.
    pose proof (dstep_slot _ _ _ _ D1) as S1.
    destruct (IH (replies ++ [r]) d1 P (proj1 D1)) as (d' & o & E' & D' & T' & L'); rewrite ?S1; [done|lia..|].
    rewrite S1 in E', L'. exists d', o. split_and!; [exact E'|by eapply dstep_trans|done..].
Qed.

Lemma bitfield_serves now k p : Forall field_ok p.1 -> serves now (fields_request k p) (fields_body now k p.1 p.2 []).
Proof.
  intros Hp d W T c F. cbn [key writes answer fields_request] in *.
  destruct (fields_run now k p.2 p.1 Hp [] d (peak p.1 c) W T) as (d' & o & E & R); [done|subst c; lia|subst c; lia|]. by exists d', o.
Qed.

Lemma bitfield_refines now args : refines now (cmd_bitfield now args) (bit_request BITFIELD args).
Proof.
  apply refines_arity, refines_try. intros k _ s W T F.
  pose proof (serves_refines now _ _ (bitfield_serves now k _ (fields_of_ok _ (drop 2 args) Wrap (Nat.le_refl _))) s W T F) as (s' & E & R).
  exists s'. split; [|exact R]. rewrite <- E. destruct (shard_of s k W) as (d & Hd & _). by apply (bitfield_loop_body now k (length (drop 2 args))).
Qed.

Lemma bitfield_ro_refines now args : refines now (cmd_bitfield_ro now args) (bit_request BITFIELD_RO args).
Proof.
  apply refines_guard. intros A. apply refines_try. intros _ _. pose proof (bitfield_refines now args) as R.
  unfold bit_request, arity in R. by rewrite A in R.
Qed.

(** C19: SETBIT, GETBIT, BITCOUNT, BITPOS, BITFIELD and BITFIELD_RO with any words,
    on a key of any type, act as their requests on the cell of the key say: what is
    read and written is a run of the bits of the string, zeros past its end, numbers
    have their most significant bit first, the operations of BITFIELD happen in order
    and an error ends them where they are; integer cells do not show, no other key is
    touched and nothing panics. *)
Theorem bit_commands_refine_bits now cmd args s : swf s -> typed s ->
  match bit_request cmd args with
  | inl e => exec_bit now cmd args s = Some (inl e, s)
  | inr q => fits now q s ->
      let cell := look now (slot s (key q)) in
      exists s', exec_bit now cmd args s = Some ((answer q cell).1, s') /\ swf s' /\ typed s' /\
        look now (slot s' (key q)) = (answer q cell).2 /\ forall j, j <> key q -> slot s' j = slot s j
  end.
Proof.
  destruct cmd; [apply setbit_refines|apply getbit_refines|apply bitcount_refines|apply bitpos_refines|apply bitfield_refines|apply bitfield_ro_refines].
Qed.

(** BITFIELD SET and then GET of a field, at any offset and width, gives the
    number wrapped into the type of the field, so any number of the type comes back
    as it was; no bit outside the field changes and the string grows to the end of
    the field and no further. *)
Theorem bitfield_set_get off n signed (v : Z) bs : width_ok n signed ->
  let bs' := write_bitfield (grown bs (byte_len off n)) off n v in
  read_bitfield bs' off n signed = wrapped n signed v /\
  (in_type n signed v -> read_bitfield bs' off n signed = v) /\
  (forall i, ~ (off <= i < off + n) -> bit bs' i = bit bs i) /\
  length bs' = length bs `max` byte_len off n.
Proof.
  intros Hw bs'. pose proof Hw as [Hn _]. assert (E : bs' = write_bits off (field_bits n v) bs) by (apply write_bitfield_spec; lia).
  assert (R : read_bitfield bs' off n signed = wrapped n signed v).
  { rewrite read_bitfield_spec, <- typed_field_bits by (done || lia). f_equal. rewrite E. apply list_eq. intros i.
    rewrite list_lookup_fmap. destruct (decide (i < n)).
    - rewrite lookup_seq_lt, field_bits_lookup by lia. simpl. rewrite bit_write_bits, length_field_bits, bool_decide_eq_true_2 by lia.
      replace (off + i - off) with i by lia. by rewrite field_bits_lookup.
    - rewrite lookup_seq_ge, lookup_ge_None_2 by (rewrite ?length_field_bits; lia). done. }
  split_and!; [done|intros Ht; rewrite R; apply wrapped_id; [lia|done]| |].
  - intros i Hi. by rewrite E, bit_write_bits, length_field_bits, bool_decide_eq_false_2.
  - by rewrite E, length_write_bits, length_field_bits.
Qed.

(** C20: the numbers BITFIELD answers have the type of their field: what GET reads,
    and what INCRBY computes in each of the three modes, lie between the least and the
    largest number of the type; INCRBY wraps around, saturates or fails exactly as the
    sum says as long as the sum is a 64-bit number, and wraps around right even when
    it is not. *)
Theorem bitfield_numbers_have_the_type cur incr off n signed mode bs : width_ok n signed ->
  in_type n signed (read_bitfield bs off n signed) /\
  (forall r, overflow_add cur incr n signed mode = Some r -> in_type n signed r) /\
  (mode = Wrap \/ in_i64 (cur + incr) -> overflow_add cur incr n signed mode = add_in_type mode n signed (cur + incr)).
Proof.
  intros Hw. pose proof Hw as [Hn _]. split_and!; [|intros r Hr|by apply overflow_add_spec].
  - rewrite read_bitfield_spec by done. pose proof (typed_value_in_type signed (bit bs <$> seq off n)) as Ht.
    rewrite length_fmap, length_seq in Ht. apply Ht. lia.
  - assert (E : exists z, add_in_type mode n signed z = Some r).
    { destruct (decide (mode = Wrap)) as [->|Hm]; [exists (cur + incr)%Z; rewrite <- Hr; symmetry; apply overflow_add_spec; auto|].
      exists (wrap_i64 (cur + incr) + 0)%Z. rewrite <- Hr. symmetry. rewrite <- overflow_add_spec; [|done|right; rewrite Z.add_0_r; apply wrap_i64_range].
      unfold overflow_add. by rewrite Z.add_0_r, (wrap_i64_id (wrap_i64 _)) by apply wrap_i64_range. }
    destruct E as [z E]. unfold add_in_type in E. assert (Hr' : (type_min n signed <= type_max n signed)%Z).
    { unfold type_min, type_max. pose proof (pow2_split n ltac:(lia)). assert (0 < 2 ^ (Z.of_nat n - 1))%Z by (apply Z.pow_pos_nonneg; lia).
      destruct signed; lia. }
    destruct mode; [injection E as <-; apply wrapped_in_type; lia|injection E as <-; unfold in_type; lia|].
    case_bool_decide; [|done]. by injection E as <-.
Qed.
End Spec.

(** ** Runs *)

Section Witness.
#[local] Existing Instance SetData.vec_index_set.
#[local] Existing Instance ascii_case.
#[local] Existing Instance plain_itoa.
#[local] Existing Instance pattern_text.
#[local] Existing Instance merge_sort_by_fst.

Definition setbit_args : list Resp := bulk <$> [bstr "SETBIT"; bstr "b"; bstr "1"; bstr "1"].

(** [SETBIT b 1 1], where [b] holds [2] until 150: 00110010 becomes 01110010. *)
Lemma bit_commands_refine_bits_witness :
  exists s', exec_bit 100 SETBIT setbit_args sample_keyspace = Some (inr (int 0), s') /\ swf s' /\
    look 100 (slot s' (bstr "b")) = Some (Text (bstr "r"), Some 150%Z).
Proof.
  assert (V : look 100 (slot sample_keyspace (bstr "b")) = Some (Text (bstr "2"), Some 150%Z)).
  { apply abs_text. vm_compute. reflexivity. }
  assert (R : room sample_keyspace (bstr "b") 66) by (apply room_all; vm_compute; reflexivity).
  pose proof (bit_commands_refine_bits 100 SETBIT setbit_args sample_keyspace sample_keyspace_wf sample_typed) as B.
  change (bit_request SETBIT setbit_args) with (@inr NexradeError Request
    (mkRequest (bstr "b") (fun c => cell_size (setbit_answer 1 true c).2) (setbit_answer 1 true))) in B.
  cbv iota beta in B. unfold fits in B. cbn [key writes answer] in B. rewrite V in B.
  destruct (B R) as (s' & E & W & _ & L & _). exists s'. split; [exact E|]. split; [exact W|]. exact L.
Defined.

Lemma bitfield_set_get_witness : width_ok 5 true /\
  read_bitfield (write_bitfield (grown (bstr "a") (byte_len 6 5)) 6 5 (-3)) 6 5 true = (-3)%Z.
Proof.
  assert (Hw : width_ok 5 true) by (split; [lia|done]). split; [exact Hw|].
  exact (proj1 (bitfield_set_get 6 5 true (-3) (bstr "a") Hw)).
Defined.

Lemma bitfield_numbers_have_the_type_witness : width_ok 8 false /\ overflow_add 250 10 8 false Sat = Some 255%Z.
Proof.
  assert (Hw : width_ok 8 false) by (split; [lia|intros; lia]). split; [exact Hw|].
  apply (proj2 (proj2 (bitfield_numbers_have_the_type 250 10 0 8 false Sat [] Hw))). right. by apply (bool_decide_unpack _).
Defined.

(** BITPOS answers the last matching bit of the first byte that has one. *)
Lemma bitpos_not_the_first : bitpos [] true (bstr "a") = Some (inr (int 7)) /\ bit (bstr "a") 1 = true.
Proof. by vm_compute. Qed.

(** The sum wraps around at 64 bits before saturation is considered. *)
Lemma saturation_wraps : overflow_add i64_max 1 64 true Sat = Some i64_min /\ overflow_add i64_max 1 64 true Fail = Some i64_min.
Proof. by vm_compute. Qed.

(** A bit range past the end counts the last bit. *)
Lemma count_past_the_end : count_bits (bstr "a") 100 200 = Some 1%Z.
Proof. by vm_compute. Qed.
End Witness.
