(* ===== verification/Tracking.v ===== *)
(** * Tracking: server-assisted client caches ([tracking.rs])

    The registry keeps the clients that track, an index from keys to the clients
    that have read them, and a counter that lets the common case skip the lock.  The
    handlers of CLIENT TRACKING and CLIENT CACHING are those of
    [nexrade-server/src/connection.rs].  A push on the channel of a client is an
    output: a client id and what is sent; a full channel drops it there.

    The specification is one cache per client, the keys the server owes it news
    about.  The registry with its inverted index and its counter implements it. *)

From S2P Require Import Prelude Text Types Keyspace Resp CommandArgs.

Inductive TrackingPush := Keys (ks : list bytes) | FlushAll.

Record TrackingOptions := mkOptions {
  bcast : bool; optin : bool; optout : bool; noloop : bool;
  redirect : option Z;
  prefixes : list bytes;
}.

Definition default_options : TrackingOptions := mkOptions false false false false None [].

Record ClientState := mkClient { enabled : bool; opts : TrackingOptions; caching_override : option bool }.

(** The iteration order of a [HashSet<u64>] or [HashMap<u64, _>], which is unspecified. *)
Class IdOrder := {
  ids : gset Z -> list Z;
  ids_perm : forall X, ids X ≡ₚ elements X;
}.

Definition sorted_ids : IdOrder := {| ids := elements; ids_perm := fun X => reflexivity _ |}.

Module TrackingRegistry.

Record t := mk { clients : gmap Z ClientState; key_index : gmap bytes (gset Z); enabled_count : Z }.

Definition new : t := mk ∅ ∅ 0.

Definition register (id : Z) (r : t) : t :=
  mk (<[id := mkClient false default_options None]> (clients r)) (key_index r) (enabled_count r).

(** [retain]: the client leaves every key, and keys nobody tracks leave the index. *)
Definition without (id : Z) (index : gmap bytes (gset Z)) : gmap bytes (gset Z) :=
  omap (fun X : gset Z => let X := X ∖ {[id]} in if decide (X = ∅) then None else Some X) index.

(** [fetch_sub] on the counter when the client was enabled. *)
Definition count_off (c : option ClientState) (n : Z) : Z :=
  match c with Some c => if enabled c then wrap64 (n - 1) else n | None => n end.

Definition unregister (id : Z) (r : t) : t :=
  mk (delete id (clients r)) (without id (key_index r)) (count_off (clients r !! id) (enabled_count r)).

Definition exists_ (id : Z) (r : t) : bool := bool_decide (is_Some (clients r !! id)).

Definition enable (id : Z) (o : TrackingOptions) (r : t) : option bytes * t :=
  match clients r !! id with
  | None => (Some (bstr "client not registered"), r)
  | Some state =>
      (None, mk (<[id := mkClient true o (caching_override state)]> (clients r)) (key_index r)
               (if enabled state then enabled_count r else wrap64 (enabled_count r + 1)))
  end.

Definition disable (id : Z) (r : t) : t :=
  mk (match clients r !! id with
      | Some state => <[id := mkClient false default_options (caching_override state)]> (clients r)
      | None => clients r
      end) (without id (key_index r)) (count_off (clients r !! id) (enabled_count r)).

Definition is_enabled (id : Z) (r : t) : bool := from_option enabled false (clients r !! id).

Definition options (id : Z) (r : t) : option TrackingOptions :=
  state ← clients r !! id; if enabled state then Some (opts state) else None.

Definition set_caching_override (id : Z) (yes : bool) (r : t) : t :=
  match clients r !! id with
  | Some state => mk (<[id := mkClient (enabled state) (opts state) (Some yes)]> (clients r)) (key_index r) (enabled_count r)
  | None => r
  end.

(** Whether a read counts, given the override it consumes. *)
Definition should_track (o : TrackingOptions) (override : option bool) : bool :=
  if optin o then default false override else if optout o then default true override else true.

Definition track_read (id : Z) (keys : list bytes) (r : t) : t :=
  if bool_decide (keys = []) || bool_decide (enabled_count r = 0%Z) then r
  else
    match clients r !! id with
    | None => r
    | Some state =>
        if negb (enabled state) || bcast (opts state) then r
        else
          let clients := <[id := mkClient (enabled state) (opts state) None]> (clients r) in
          if should_track (opts state) (caching_override state) then
            mk clients (fold_left (fun index k => <[k := default ∅ (index !! k) ∪ {[id]}]> index) keys (key_index r)) (enabled_count r)
          else mk clients (key_index r) (enabled_count r)
    end.

Definition prefix_match (o : TrackingOptions) (keys : list bytes) : bool :=
  bool_decide (prefixes o = []) || existsb (fun k => existsb (fun p => starts_with p k) (prefixes o)) keys.

(** One round of the loop that disarms the written keys. *)
Definition take_key (st : gset Z * gmap bytes (gset Z)) (k : bytes) : gset Z * gmap bytes (gset Z) :=
  let '(targets, index) := st in
  match index !! k with Some X => (targets ∪ X, delete k index) | None => (targets, index) end.

(** The first critical section of [on_write]: whom to tell, and the keys disarmed. *)
Definition collect (keys : list bytes) (r : t) : gset Z * t :=
  let '(targets, index) := fold_left take_key keys (∅, key_index r) in
  (targets ∪ dom (filter (fun p => enabled p.2 && bcast (opts p.2) && prefix_match (opts p.2) keys = true) (clients r)),
   mk (clients r) index (enabled_count r)).

(** The second one: the push of a target, if there is one. *)
Definition push_to (keys : list bytes) (writer : Z) (cs : gmap Z ClientState) (id : Z) : option (Z * TrackingPush) :=
  state ← cs !! id;
  if bool_decide (id = writer) && noloop (opts state) then None
  else
    let dest := default id (redirect (opts state)) in
    _ ← cs !! dest; Some (dest, Keys keys).

Definition deliver `{IdOrder} (keys : list bytes) (writer : Z) (targets : gset Z) (r : t) : list (Z * TrackingPush) :=
  omap (push_to keys writer (clients r)) (ids targets).

Definition on_write `{IdOrder} (keys : list bytes) (writer : Z) (r : t) : list (Z * TrackingPush) * t :=
  if bool_decide (keys = []) || bool_decide (enabled_count r = 0%Z) then ([], r)
  else let '(targets, r) := collect keys r in (deliver keys writer targets r, r).

(** The push of a client when everything is flushed. *)
Definition flush_to (cs : gmap Z ClientState) (id : Z) : option (Z * TrackingPush) :=
  state ← cs !! id;
  if negb (enabled state) then None
  else
    let dest := default 0%Z (redirect (opts state)) in
    if bool_decide (dest <> 0%Z) then _ ← cs !! dest; Some (dest, FlushAll) else Some (id, FlushAll).

Definition flush_all `{IdOrder} (r : t) : list (Z * TrackingPush) * t :=
  (omap (flush_to (clients r)) (ids (dom (clients r))), mk (clients r) ∅ (enabled_count r)).

End TrackingRegistry.

Import TrackingRegistry.

(** ** CLIENT TRACKING and CLIENT CACHING *)

Definition with_flag (w : bytes) (o : TrackingOptions) : option TrackingOptions :=
  if bool_decide (w = bstr "BCAST") then Some (mkOptions true (optin o) (optout o) (noloop o) (redirect o) (prefixes o))
  else if bool_decide (w = bstr "OPTIN") then Some (mkOptions (bcast o) true (optout o) (noloop o) (redirect o) (prefixes o))
  else if bool_decide (w = bstr "OPTOUT") then Some (mkOptions (bcast o) (optin o) true (noloop o) (redirect o) (prefixes o))
  else if bool_decide (w = bstr "NOLOOP") then Some (mkOptions (bcast o) (optin o) (optout o) true (redirect o) (prefixes o))
  else None.

Definition syntax_error : bytes := bstr "ERR syntax error".

Fixpoint tracking_options (r : t) (rest : list Resp) (o : TrackingOptions) : bytes + TrackingOptions :=
  match rest with
  | [] => inr o
  | a :: rest =>
      match as_str a with
      | None => inl syntax_error
      | Some w =>
          let w := to_ascii_uppercase w in
          match with_flag w o with
          | Some o => tracking_options r rest o
          | None =>
              match rest with
              | [] => inl syntax_error
              | v :: rest =>
                  if bool_decide (w = bstr "REDIRECT") then
                    match as_str v ≫= parse_usize with
                    | None => inl syntax_error
                    | Some id =>
                        if bool_decide (id <> 0%Z) && negb (exists_ id r) then
                          inl (bstr "ERR The client ID you want redirect to does not exist")
                        else tracking_options r rest
                          (if bool_decide (id <> 0%Z) then mkOptions (bcast o) (optin o) (optout o) (noloop o) (Some id) (prefixes o) else o)
                    end
                  else if bool_decide (w = bstr "PREFIX") then
                    match as_bytes v with
                    | None => inl syntax_error
                    | Some p => tracking_options r rest (mkOptions (bcast o) (optin o) (optout o) (noloop o) (redirect o) (prefixes o ++ [p]))
                    end
                  else inl syntax_error
              end
          end
      end
  end.

Definition handle_client_tracking (id : Z) (args : list Resp) (r : t) : Resp * t :=
  match args !! 2 ≫= as_str with
  | None => (Error (bstr "ERR wrong number of arguments for 'client|tracking'"), r)
  | Some mode =>
      let mode := to_ascii_uppercase mode in
      if bool_decide (mode = bstr "OFF") then (ok, disable id r)
      else if bool_decide (mode = bstr "ON") then
        match tracking_options r (drop 3 args) default_options with
        | inl e => (Error e, r)
        | inr o =>
            if optin o && optout o then (Error (bstr "ERR You can't specify both OPTIN mode and OPTOUT mode"), r)
            else if negb (bool_decide (prefixes o = [])) && negb (bcast o) then
              (Error (bstr "ERR PREFIX option requires BCAST mode to be enabled"), r)
            else match enable id o r with
                 | (None, r) => (ok, r)
                 | (Some e, r) => (Error (bstr "ERR " ++ e), r)
                 end
        end
      else (Error syntax_error, r)
  end.

Definition not_tracking : Resp :=
  Error (bstr "ERR CLIENT CACHING can be called only when the client is in tracking mode with OPTIN or OPTOUT mode enabled").

Definition handle_client_caching (id : Z) (args : list Resp) (r : t) : Resp * t :=
  match options id r with
  | None => (not_tracking, r)
  | Some o =>
      if negb (optin o) && negb (optout o) then (not_tracking, r)
      else
        match w ← args !! 2 ≫= as_str;
              if eq_ignore_ascii_case w (bstr "YES") then Some true
              else if eq_ignore_ascii_case w (bstr "NO") then Some false else None with
        | None => (Error syntax_error, r)
        | Some yes =>
            if optin o && negb yes || optout o && yes then
              (Error (bstr "ERR CLIENT CACHING YES is only valid when tracking is enabled in OPTIN mode."), r)
            else (ok, set_caching_override id yes r)
        end
  end.

Definition tracking_flags (o : option TrackingOptions) : list Resp :=
  match o with
  | None => [bulk_str (bstr "off")]
  | Some o =>
      (if bcast o then [bulk_str (bstr "bcast")] else []) ++ (if optin o then [bulk_str (bstr "optin")] else []) ++
      (if optout o then [bulk_str (bstr "optout")] else []) ++ (if noloop o then [bulk_str (bstr "noloop")] else [])
  end.

Definition client_trackinginfo (id : Z) (r : t) : Resp :=
  let o := options id r in
  array [bulk_str (bstr "flags"); array (tracking_flags o);
         bulk_str (bstr "redirect"); int (match o with Some o => from_option wrap_i64 0%Z (redirect o) | None => (-1)%Z end);
         bulk_str (bstr "prefixes"); array (from_option (fun o => bulk_str <$> prefixes o) [] o)].

(** The frame a connection writes for a push; one that speaks RESP2 writes nothing. *)
Definition write_tracking_push (resp_version : Z) (push : TrackingPush) : option Resp :=
  if bool_decide (resp_version < 3)%Z then None
  else Some (Push [bulk_str (bstr "invalidate");
                   match push with Keys ks => array (bulk <$> ks) | FlushAll => null end]).

(** ** The specification: a cache per client *)

Inductive Event :=
  | Register (id : Z) | Unregister (id : Z) | Enable (id : Z) (o : TrackingOptions) | Disable (id : Z) | Caching (id : Z) (yes : bool)
  | Read (id : Z) (keys : list bytes) | Write (keys : list bytes) (writer : Z) | Flush.

(** [held]: the keys the client has read and not heard of since. *)
Record Cache := mkCache { on : bool; settings : TrackingOptions; once : option bool; held : gset bytes }.

Section Spec.
Context `{IdOrder}.
Implicit Types (r : t) (m : gmap Z Cache) (id : Z) (k : bytes) (keys : list bytes) (c : Cache).

Definition step (ev : Event) (r : t) : list (Z * TrackingPush) * t :=
  match ev with
  | Register id => ([], register id r)
  | Unregister id => ([], unregister id r)
  | Enable id o => ([], (enable id o r).2)
  | Disable id => ([], disable id r)
  | Caching id yes => ([], set_caching_override id yes r)
  | Read id keys => ([], track_read id keys r)
  | Write keys writer => on_write keys writer r
  | Flush => flush_all r
  end.

(** The client hears of a write: it holds one of the keys, or broadcasts match. *)
Definition hears (keys : list bytes) (c : Cache) : bool :=
  bool_decide (held c ∩ list_to_set keys <> ∅) || on c && bcast (settings c) && prefix_match (settings c) keys.

Definition told (keys : list bytes) (writer : Z) (m : gmap Z Cache) (id : Z) (c : Cache) : option (Z * TrackingPush) :=
  if bool_decide (id = writer) && noloop (settings c) then None
  else _ ← m !! default id (redirect (settings c)); Some (default id (redirect (settings c)), Keys keys).

Definition cleared (m : gmap Z Cache) (id : Z) (c : Cache) : option (Z * TrackingPush) :=
  match redirect (settings c) with
  | None | Some 0%Z => Some (id, FlushAll)
  | Some dest => _ ← m !! dest; Some (dest, FlushAll)
  end.

Definition spec_step (ev : Event) (m : gmap Z Cache) : list (Z * TrackingPush) * gmap Z Cache :=
  match ev with
  | Register id => ([], <[id := mkCache false default_options None ∅]> m)
  | Unregister id => ([], delete id m)
  | Enable id o => ([], alter (fun c => mkCache true o (once c) (held c)) id m)
  | Disable id => ([], alter (fun c => mkCache false default_options (once c) ∅) id m)
  | Caching id yes => ([], alter (fun c => mkCache (on c) (settings c) (Some yes) (held c)) id m)
  | Read id keys =>
      ([], if bool_decide (keys = []) then m
           else alter (fun c => if on c && negb (bcast (settings c)) then
                                  mkCache true (settings c) None
                                    (if should_track (settings c) (once c) then held c ∪ list_to_set keys else held c)
                                else c) id m)
  | Write keys writer =>
      (omap (fun p => if hears keys p.2 then told keys writer m p.1 p.2 else None) (if bool_decide (keys = []) then [] else map_to_list m),
       (fun c => mkCache (on c) (settings c) (once c) (held c ∖ list_to_set keys)) <$> m)
  | Flush =>
      (omap (fun p => if on p.2 then cleared m p.1 p.2 else None) (map_to_list m),
       (fun c => mkCache (on c) (settings c) (once c) ∅) <$> m)
  end.

(** A connection registers once, under an id of its own. *)
Definition proper (ev : Event) (m : gmap Z Cache) : Prop :=
  match ev with
  | Register id => m !! id = None /\ (Z.of_nat (size m) + 1 < 2 ^ 64)%Z
  | _ => True
  end.

(** ** The representation *)

Definition state_of (c : Cache) : ClientState := mkClient (on c) (settings c) (once c).

Definition tracking (m : gmap Z Cache) : nat := size (filter (fun p : Z * Cache => on p.2 = true) m).

Record repr (r : t) (m : gmap Z Cache) : Prop := {
  repr_clients : clients r = state_of <$> m;
  repr_index : forall k id, id ∈ default ∅ (key_index r !! k) <-> exists c, m !! id = Some c /\ k ∈ held c;
  repr_tight : forall k, key_index r !! k <> Some ∅;
  repr_count : enabled_count r = Z.of_nat (tracking m);
  repr_off : forall id c, m !! id = Some c -> on c = false -> held c = ∅;
  repr_small : (Z.of_nat (size m) < 2 ^ 64)%Z;
}.

Definition counts (o : option Cache) : nat := match o with Some c => if on c then 1 else 0 | None => 0 end.

Lemma tracking_delete m id : tracking m = tracking (delete id m) + counts (m !! id).
Proof.
  unfold tracking. destruct (m !! id) as [c|] eqn:E.
  - rewrite <- (insert_delete_id m id c E) at 1. simpl. destruct (on c) eqn:Ho.
    + rewrite map_filter_insert_True by done. rewrite map_size_insert_None; [lia|]. apply map_lookup_filter_None_2. left. apply lookup_delete_eq.
    + rewrite map_filter_insert_False by (simpl; congruence). rewrite delete_delete_eq. lia.
  - rewrite delete_id by done. simpl. lia.
Qed.

Lemma tracking_insert m id c : tracking (<[id := c]> m) + counts (m !! id) = tracking m + counts (Some c).
Proof.
  rewrite (tracking_delete (<[id := c]> m) id), (tracking_delete m id). rewrite lookup_insert_eq, delete_insert_eq. lia.
Qed.

Lemma tracking_size m : tracking m <= size m.
Proof. unfold tracking. apply map_subseteq_size, map_filter_subseteq. Qed.

Lemma tracking_some m id c : m !! id = Some c -> on c = true -> 1 <= tracking m.
Proof. intros E Ho. pose proof (tracking_delete m id). rewrite E in *. simpl in *. rewrite Ho in *. lia. Qed.

Lemma tracking_none m : tracking m = 0 -> forall id c, m !! id = Some c -> on c = false.
Proof. intros E id c Hc. destruct (on c) eqn:Ho; [|done]. pose proof (tracking_some m id c Hc Ho). lia. Qed.

Lemma alter_some {A} (f : A -> A) (m : gmap Z A) id (c : A) : m !! id = Some c -> alter f id m = <[id := f c]> m.
Proof. intros E. apply map_eq. intros j. rewrite lookup_alter, lookup_insert. case_decide; subst; [by rewrite E|done]. Qed.

Lemma alter_none {A} (f : A -> A) (m : gmap Z A) id : m !! id = None -> alter f id m = m.
Proof. intros E. apply map_eq. intros j. rewrite lookup_alter. case_decide; subst; [by rewrite E|done]. Qed.

(** ** The index *)

Definition holders (index : gmap bytes (gset Z)) (k : bytes) : gset Z := default ∅ (index !! k).

Definition tight (index : gmap bytes (gset Z)) : Prop := forall k, index !! k <> Some ∅.

Lemma without_holders id index k : holders (without id index) k = holders index k ∖ {[id]}.
Proof.
  unfold holders, without. rewrite lookup_omap. destruct (index !! k) as [X|]; simpl; [|set_solver].
  case_decide as E; simpl; [by rewrite E|done].
Qed.

Lemma without_tight id index : tight (without id index).
Proof.
  intros k E. unfold without in E. rewrite lookup_omap in E. destruct (index !! k) as [X|]; simpl in E; [|done].
  case_decide; naive_solver.
Qed.

Lemma read_holders id keys index k :
  holders (fold_left (fun index k => <[k := default ∅ (index !! k) ∪ {[id]}]> index) keys index) k =
  holders index k ∪ (if bool_decide (k ∈ keys) then {[id]} else ∅).
Proof.
  revert index. induction keys as [|k' keys IH]; intros index; [set_solver|]. simpl. rewrite IH. unfold holders at 1.
  rewrite lookup_insert. destruct (decide (k' = k)) as [->|E]; simpl; fold (holders index k).
  - rewrite (bool_decide_eq_true_2 (_ ∈ _ :: keys)) by set_solver. destruct (bool_decide _); set_solver.
  - by rewrite (bool_decide_ext (k ∈ k' :: keys) (k ∈ keys)) by set_solver.
Qed.

Lemma read_tight id keys index : tight index ->
  tight (fold_left (fun index k => <[k := default ∅ (index !! k) ∪ {[id]}]> index) keys index).
Proof.
  revert index. induction keys as [|k' keys IH]; intros index Ht; [done|]. simpl. apply IH.
  intros k. rewrite lookup_insert. case_decide; [|apply Ht]. intros [= E]. set_solver.
Qed.

Lemma taken keys targets index T I :
  fold_left take_key keys (targets, index) = (T, I) ->
  (forall id, id ∈ T <-> id ∈ targets \/ exists k, k ∈ keys /\ id ∈ holders index k) /\
  (forall k, I !! k = if bool_decide (k ∈ keys) then None else index !! k).
Proof.
  revert targets index. induction keys as [|k' keys IH]; intros targets index E.
  - simpl in E. injection E as <- <-. split; [set_solver|]. intros k. by rewrite bool_decide_eq_false_2 by set_solver.
  - assert (Et : take_key (targets, index) k' = (targets ∪ holders index k', delete k' index)).
    { simpl. unfold holders. destruct (index !! k') eqn:Ek; simpl; [done|]. rewrite delete_id by done. f_equal. set_solver. }
    cbn [fold_left] in E. rewrite Et in E. destruct (IH _ _ E) as [HT HI]. split.
    + intros id. rewrite HT. split.
      * intros [Hid|(k & Hk & Hid)]; [set_solver|]. unfold holders in Hid. rewrite lookup_delete in Hid.
        case_decide; [set_solver|]. right. exists k. set_solver.
      * intros [Hid|(k & Hk & Hid)]; [set_solver|]. destruct (decide (k = k')) as [->|Hne]; [set_solver|].
        right. exists k. split; [set_solver|]. unfold holders. by rewrite lookup_delete_ne by done.
    + intros k. rewrite HI, lookup_delete. destruct (decide (k' = k)) as [->|E'].
      * rewrite (bool_decide_eq_true_2 (_ ∈ _ :: keys)) by set_solver. by destruct (bool_decide _).
      * by rewrite (bool_decide_ext (k ∈ k' :: keys) (k ∈ keys)) by set_solver.
Qed.

(** ** Every operation follows its event *)

Lemma repr_put r m id c index n : repr r m ->
  (forall k j, j ∈ holders index k <-> if decide (j = id) then k ∈ held c else j ∈ holders (key_index r) k) ->
  tight index -> (n + Z.of_nat (counts (m !! id)) = enabled_count r + Z.of_nat (counts (Some c)))%Z ->
  (on c = false -> held c = ∅) -> (Z.of_nat (size (<[id := c]> m)) < 2 ^ 64)%Z ->
  repr (mk (<[id := state_of c]> (clients r)) index n) (<[id := c]> m).
Proof.
  intros Hr Hi Ht Hn Ho Hs. split; simpl.
  - by rewrite (repr_clients r m Hr), fmap_insert.
  - intros k j. fold (holders index k). rewrite Hi. rewrite lookup_insert. case_decide as Ej.
    + subst. rewrite decide_True by done. naive_solver.
    + rewrite decide_False by congruence. apply (repr_index r m Hr).
  - done.
  - pose proof (tracking_insert m id c). pose proof (repr_count r m Hr). lia.
  - intros j c'. rewrite lookup_insert. case_decide; [by intros [= <-]|]. apply (repr_off r m Hr).
  - done.
Qed.

Lemma repr_lookup r m id : repr r m -> clients r !! id = state_of <$> m !! id.
Proof. intros Hr. by rewrite (repr_clients r m Hr), lookup_fmap. Qed.

(** The same client, the same keys, other flags. *)
Lemma repr_keep r m id c c' : repr r m -> m !! id = Some c -> held c' = held c -> (on c' = false -> on c = false) ->
  repr (mk (<[id := state_of c']> (clients r)) (key_index r) (if on c' && negb (on c) then wrap64 (enabled_count r + 1) else enabled_count r))
       (<[id := c']> m).
Proof.
  intros Hr E Hh Hon. pose proof (tracking_size m). pose proof (repr_small r m Hr). pose proof (repr_count r m Hr) as Hc.
  pose proof (tracking_insert m id c') as Hti. pose proof (tracking_size (<[id := c']> m)) as Hts.
  assert (size (<[id := c']> m) = size m) as Hsz by (rewrite map_size_insert_Some; naive_solver).
  apply repr_put; [done| | |..].
  - intros k j. case_decide; [|done]. subst. unfold holders. rewrite (repr_index r m Hr), Hh. naive_solver.
  - exact (repr_tight r m Hr).
  - rewrite E in *. simpl in *. destruct (on c), (on c'); simpl in *; try lia; try (by exfalso; naive_solver); rewrite wrap64_small; lia.
  - intros Ho. rewrite Hh. apply (repr_off r m Hr id c); auto.
  - by rewrite Hsz.
Qed.

Lemma repr_caching r m id yes : repr r m -> repr (set_caching_override id yes r) (spec_step (Caching id yes) m).2.
Proof.
  intros Hr. simpl. unfold set_caching_override. rewrite (repr_lookup r m id Hr). destruct (m !! id) as [c|] eqn:E; simpl.
  - rewrite (alter_some _ _ _ _ E). pose proof (repr_keep r m id c (mkCache (on c) (settings c) (Some yes) (held c)) Hr E) as H'.
    simpl in H'. rewrite andb_negb_r in H'. by apply H'.
  - by rewrite alter_none.
Qed.

Lemma repr_enable r m id o : repr r m -> repr (enable id o r).2 (spec_step (Enable id o) m).2.
Proof.
  intros Hr. simpl. unfold enable. rewrite (repr_lookup r m id Hr). destruct (m !! id) as [c|] eqn:E; simpl.
  - rewrite (alter_some _ _ _ _ E). pose proof (repr_keep r m id c (mkCache true o (once c) (held c)) Hr E) as H'.
    simpl in H'. destruct (on c); by apply H'.
  - by rewrite alter_none.
Qed.

Lemma held_only_if r m id k : repr r m -> m !! id = None -> id ∉ holders (key_index r) k.
Proof. intros Hr E Hin. apply (repr_index r m Hr) in Hin as (c & E' & _). congruence. Qed.

Lemma repr_register r m id : repr r m -> m !! id = None -> (Z.of_nat (size m) + 1 < 2 ^ 64)%Z ->
  repr (register id r) (spec_step (Register id) m).2.
Proof.
  intros Hr E Hs. apply (repr_put r m id (mkCache false default_options None ∅)); simpl; [done|..|done|].
  - intros k j. case_decide; [|done]. subst. pose proof (held_only_if r m id k Hr E). set_solver.
  - exact (repr_tight r m Hr).
  - rewrite E. simpl. lia.
  - rewrite map_size_insert_None by done. lia.
Qed.

Lemma count_off_repr r m id : repr r m -> (count_off (clients r !! id) (enabled_count r) + Z.of_nat (counts (m !! id)) = enabled_count r)%Z.
Proof.
  intros Hr. rewrite (repr_lookup r m id Hr). destruct (m !! id) as [c|] eqn:E; simpl; [|lia].
  destruct (on c) eqn:Ho; [|lia]. pose proof (tracking_some m id c E Ho). pose proof (tracking_size m).
  pose proof (repr_small r m Hr). rewrite (repr_count r m Hr), wrap64_small; lia.
Qed.

Lemma repr_disable r m id : repr r m -> repr (disable id r) (spec_step (Disable id) m).2.
Proof.
  intros Hr. simpl. unfold disable. pose proof (count_off_repr r m id Hr) as Hn. rewrite (repr_lookup r m id Hr) in *.
  destruct (m !! id) as [c|] eqn:E; simpl in *.
  - rewrite (alter_some _ _ _ _ E). apply (repr_put r m id (mkCache false default_options (once c) ∅)); simpl; [done|..|done|].
    + intros k j. rewrite without_holders. case_decide; set_solver.
    + apply without_tight.
    + rewrite E. simpl. lia.
    + rewrite map_size_insert_Some by naive_solver. apply (repr_small r m Hr).
  - rewrite alter_none by done. destruct Hr as [H1 H2 H3 H4 H5 H6]. split; simpl; auto.
    + intros k j. fold (holders (without id (key_index r)) k). rewrite without_holders, elem_of_difference.
      unfold holders. rewrite H2. set_solver.
    + apply without_tight.
Qed.

Lemma repr_unregister r m id : repr r m -> repr (unregister id r) (spec_step (Unregister id) m).2.
Proof.
  intros Hr. pose proof (count_off_repr r m id Hr) as Hn. destruct Hr as [H1 H2 H3 H4 H5 H6]. split; simpl.
  - by rewrite H1, fmap_delete.
  - intros k j. fold (holders (without id (key_index r)) k). rewrite without_holders, elem_of_difference, lookup_delete.
    unfold holders. rewrite H2. case_decide; set_solver.
  - apply without_tight.
  - pose proof (tracking_delete m id). lia.
  - intros j c. rewrite lookup_delete. case_decide; [done|]. apply H5.
  - rewrite map_size_delete. destruct (m !! id); simpl in *; lia.
Qed.

Lemma idle_off r m id c : repr r m -> enabled_count r = 0%Z -> m !! id = Some c -> on c = false /\ held c = ∅.
Proof.
  intros Hr E Hc. assert (on c = false) as Ho; [|by split; [|apply (repr_off r m Hr id)]].
  apply (tracking_none m) with id; [|done]. rewrite (repr_count r m Hr) in E. lia.
Qed.

Lemma repr_read r m id keys : repr r m -> repr (track_read id keys r) (spec_step (Read id keys) m).2.
Proof.
  intros Hr. simpl. unfold track_read. case_bool_decide as Ek; [done|]. simpl.
  rewrite (repr_lookup r m id Hr). destruct (m !! id) as [c|] eqn:E; simpl.
  2: { rewrite alter_none by done. by case_bool_decide. }
  rewrite (alter_some _ _ _ _ E). case_bool_decide as En.
  { destruct (idle_off r m id c Hr En E) as [-> _]. simpl. by rewrite insert_id. }
  destruct (on c) eqn:Ho, (bcast (settings c)) eqn:Hb; simpl; try by rewrite insert_id.
  destruct (should_track _ _).
  - apply (repr_put r m id (mkCache true (settings c) None (held c ∪ list_to_set keys))); simpl; [done|..|done|].
    + intros k j. rewrite read_holders, elem_of_union.
      assert (id ∈ holders (key_index r) k <-> k ∈ held c) by (unfold holders; rewrite (repr_index r m Hr); naive_solver).
      case_decide; subst; case_bool_decide; set_solver.
    + apply read_tight. exact (repr_tight r m Hr).
    + rewrite E. simpl. rewrite Ho. lia.
    + rewrite map_size_insert_Some by naive_solver. apply (repr_small r m Hr).
  - pose proof (repr_keep r m id c (mkCache true (settings c) None (held c)) Hr E) as H'. simpl in H'. rewrite Ho in H'. by apply H'.
Qed.

(** Pushes for a set of clients are pushes for the clients of that set. *)
Lemma omap_ids {B} (P : Cache -> bool) (f : Z -> option B) (g : Z -> Cache -> option B) m (X : gset Z) :
  (forall id, id ∈ X <-> exists c, m !! id = Some c /\ P c = true) ->
  (forall id c, m !! id = Some c -> P c = true -> f id = g id c) ->
  omap f (ids X) ≡ₚ omap (fun p => if P p.2 then g p.1 p.2 else None) (map_to_list m).
Proof.
  intros HX Hf. set (l := filter (fun p : Z * Cache => P p.2 = true) (map_to_list m)).
  assert (ids X ≡ₚ l.*1) as ->.
  { rewrite ids_perm. apply NoDup_Permutation; [apply NoDup_elements| |].
    - apply NoDup_fmap_fst; [|apply NoDup_filter, NoDup_map_to_list].
      intros x y1 y2 [_ H1]%list_elem_of_filter [_ H2]%list_elem_of_filter. apply elem_of_map_to_list in H1, H2. congruence.
    - intros id. rewrite elem_of_elements, HX, list_elem_of_fmap. split.
      + intros (c & Hc & HP). exists (id, c). split; [done|]. apply list_elem_of_filter. by rewrite elem_of_map_to_list.
      + intros ([id' c] & -> & [HP Hc]%list_elem_of_filter). apply elem_of_map_to_list in Hc. naive_solver. }
  assert (Forall (fun p : Z * Cache => m !! p.1 = Some p.2) (map_to_list m)) as Hall.
  { apply Forall_forall. intros [id c]. apply elem_of_map_to_list. }
  subst l. induction (map_to_list m) as [|[id c] l IH]; [done|]. apply Forall_cons in Hall as [Hc Hall]. simpl in *.
  rewrite filter_cons. case_decide as HP; simpl in *.
  - rewrite HP, <- (Hf id c Hc HP). destruct (f id); by rewrite IH.
  - destruct (P c) eqn:EP; [done|]. by apply IH.
Qed.

Lemma idle_quiet r m keys writer : repr r m -> enabled_count r = 0%Z ->
  omap (fun p => if hears keys p.2 then told keys writer m p.1 p.2 else None) (map_to_list m) = [] /\
  (spec_step (Write keys writer) m).2 = m.
Proof.
  intros Hr E. split.
  - assert (Forall (fun p : Z * Cache => m !! p.1 = Some p.2) (map_to_list m)) as Hall.
    { apply Forall_forall. intros [id c]. apply elem_of_map_to_list. }
    induction Hall as [|[id c] l Hc _ IH]; [done|]. simpl in *. destruct (idle_off r m id c Hr E Hc) as [Ho Hh].
    unfold hears. rewrite Ho, Hh. rewrite bool_decide_eq_false_2 by set_solver. done.
  - simpl. apply map_eq. intros id. rewrite lookup_fmap. destruct (m !! id) as [c|] eqn:Hc; [|done]. simpl.
    destruct (idle_off r m id c Hr E Hc) as [Ho Hh]. rewrite Hh, empty_difference_L, <- Hh. by destruct c.
Qed.

Lemma collect_repr r m keys T r' : repr r m -> collect keys r = (T, r') ->
  (forall id, id ∈ T <-> exists c, m !! id = Some c /\ hears keys c = true) /\
  clients r' = clients r /\ repr r' (spec_step (Write keys 0) m).2.
Proof.
  intros Hr. unfold collect. destruct (fold_left take_key keys (∅, key_index r)) as [T0 I] eqn:E.
  destruct (taken _ _ _ _ _ E) as [HT HI]. intros [= <- <-]. split; [|split; [done|]].
  - intros id. rewrite elem_of_union, HT, elem_of_dom. unfold hears.
    split.
    + intros [[Hid|(k & Hk & Hid)]|[cs Hcs]]; [set_solver|..].
      * apply (repr_index r m Hr) in Hid as (c & Hc & Hh). exists c. split; [done|].
        rewrite (bool_decide_eq_true_2 (held c ∩ _ <> ∅)); [done|]. set_solver.
      * apply map_lookup_filter_Some in Hcs as [Hcs HP]. rewrite (repr_lookup r m id Hr) in Hcs.
        destruct (m !! id) as [c|]; [|done]. injection Hcs as <-. simpl in HP. exists c. split; [done|]. by rewrite HP, orb_true_r.
    + intros (c & Hc & [Hh%bool_decide_eq_true|Hb]%orb_true_iff).
      * apply set_choose_L in Hh as [k Hk]. left. right. exists k. split; [set_solver|]. apply (repr_index r m Hr). set_solver.
      * right. exists (state_of c). apply map_lookup_filter_Some. by rewrite (repr_lookup r m id Hr), Hc.
  - destruct Hr as [H1 H2 H3 H4 H5 H6]. split; simpl.
    + rewrite H1, <- map_fmap_compose. apply map_fmap_ext. by intros.
    + intros k id. rewrite HI, lookup_fmap. specialize (H2 k id). case_bool_decide; simpl.
      * split; [set_solver|]. intros (c & Hc & Hk). destruct (m !! id); [|done]. injection Hc as <-. simpl in Hk. clear H2. set_solver.
      * rewrite H2. destruct (m !! id) as [c|]; simpl; [|by split; intros (? & ? & _)].
        split; intros (c' & [= <-] & Hk); simpl in *; (eexists; split; [done|simpl; set_solver]).
    + intros k. rewrite HI. case_bool_decide; [done|]. apply H3.
    + rewrite H4. f_equal. unfold tracking. rewrite map_filter_fmap. by rewrite map_size_fmap.
    + intros id c. rewrite lookup_fmap. destruct (m !! id) as [c'|] eqn:Hc; [|done]. intros [= <-] Ho. simpl in *. rewrite (H5 id c'); set_solver.
    + by rewrite map_size_fmap.
Qed.

Lemma push_told r m keys writer id c : repr r m -> m !! id = Some c ->
  push_to keys writer (clients r) id = told keys writer m id c.
Proof.
  intros Hr Hc. unfold push_to, told. rewrite (repr_lookup r m id Hr), Hc. cbn [fmap option_fmap option_map mbind option_bind opts state_of].
  destruct (_ && _); [done|]. rewrite (repr_lookup r m _ Hr). clear Hc. by destruct (m !! _).
Qed.

Lemma write_follows r m keys writer : repr r m ->
  (on_write keys writer r).1 ≡ₚ (spec_step (Write keys writer) m).1 /\
  repr (on_write keys writer r).2 (spec_step (Write keys writer) m).2.
Proof.
  intros Hr. unfold on_write. destruct (decide (keys = [])) as [->|Hk].
  { simpl. split; [done|]. replace (_ <$> m) with m; [done|]. apply map_eq. intros id. rewrite lookup_fmap.
    destruct (m !! id) as [[? ? ? h]|]; [|done]. simpl. do 2 f_equal. set_solver. }
  cbn [spec_step]. rewrite (bool_decide_eq_false_2 (keys = [])) by done. cbn [orb fst]. case_bool_decide as En.
  - destruct (idle_quiet r m keys writer Hr En) as [-> Hm]. cbn [spec_step snd] in *. by rewrite Hm.
  - destruct (collect keys r) as [T r'] eqn:E. destruct (collect_repr r m keys T r' Hr E) as (HT & Hc & Hr'). cbn [fst snd].
    split; [|done]. unfold deliver. rewrite Hc. apply omap_ids; [done|]. intros id c Hid _. by apply push_told.
Qed.

Lemma flush_follows r m : repr r m ->
  (flush_all r).1 ≡ₚ (spec_step Flush m).1 /\ repr (flush_all r).2 (spec_step Flush m).2.
Proof.
  intros Hr. split.
  - unfold flush_all. cbn [fst spec_step].
    rewrite (omap_ids (fun _ => true) (flush_to (clients r)) (fun id c => if on c then cleared m id c else None) m); [done|..].
    + intros id. rewrite elem_of_dom, (repr_lookup r m id Hr). destruct (m !! id); simpl; [|by split; [intros []|intros (? & ? & _)]].
      split; [by eexists|by intros _; eexists].
    + intros id c Hc _. unfold flush_to, cleared. rewrite (repr_lookup r m id Hr), Hc. simpl. destruct (on c); [|done]. simpl.
      destruct (redirect (settings c)) as [[|d|d]|]; simpl; try done; rewrite (repr_lookup r m _ Hr); clear Hc; by destruct (m !! _).
  - destruct Hr as [H1 H2 H3 H4 H5 H6]. split; simpl.
    + rewrite H1, <- map_fmap_compose. apply map_fmap_ext. by intros.
    + intros k id. rewrite lookup_empty, lookup_fmap. split; [set_solver|]. intros (c & Hc & Hk).
      destruct (m !! id); [|done]. injection Hc as <-. set_solver.
    + intros k. by rewrite lookup_empty.
    + rewrite H4. f_equal. unfold tracking. rewrite map_filter_fmap. by rewrite map_size_fmap.
    + intros id c. rewrite lookup_fmap. by destruct (m !! id) as [c'|]; intros [= <-].
    + by rewrite map_size_fmap.
Qed.

Lemma step_follows ev r m : proper ev m -> repr r m ->
  (step ev r).1 ≡ₚ (spec_step ev m).1 /\ repr (step ev r).2 (spec_step ev m).2.
Proof.
  intros Hp Hr. destruct ev; try (split; [done|]).
  - destruct Hp. by apply repr_register.
  - by apply repr_unregister.
  - by apply repr_enable.
  - by apply repr_disable.
  - by apply repr_caching.
  - by apply repr_read.
  - by apply write_follows.
  - by apply flush_follows.
Qed.

Lemma repr_new : repr new ∅.
Proof.
  split; simpl; [done|..|done| |by vm_compute].
  - intros k id. rewrite !lookup_empty. set_solver.
  - intros k. by rewrite lookup_empty.
  - intros id c. by rewrite lookup_empty.
Qed.

(** ** Histories *)

Fixpoint run (evs : list Event) (r : t) : list (list (Z * TrackingPush)) * t :=
  match evs with
  | [] => ([], r)
  | ev :: evs => let '(out, r) := step ev r in let '(outs, r) := run evs r in (out :: outs, r)
  end.

Fixpoint spec_run (evs : list Event) (m : gmap Z Cache) : list (list (Z * TrackingPush)) * gmap Z Cache :=
  match evs with
  | [] => ([], m)
  | ev :: evs => let '(out, m) := spec_step ev m in let '(outs, m) := spec_run evs m in (out :: outs, m)
  end.

Fixpoint proper_history (evs : list Event) (m : gmap Z Cache) : Prop :=
  match evs with [] => True | ev :: evs => proper ev m /\ proper_history evs (spec_step ev m).2 end.

Lemma run_follows evs r m : proper_history evs m -> repr r m ->
  Forall2 Permutation (run evs r).1 (spec_run evs m).1 /\ repr (run evs r).2 (spec_run evs m).2.
Proof.
  revert r m. induction evs as [|ev evs IH]; intros r m Hp Hr; [by split; [constructor|]|]. destruct Hp as [Hp Hps].
  destruct (step_follows ev r m Hp Hr) as [Ho Hr']. specialize (IH _ _ Hps Hr'). simpl.
  destruct (step ev r) as [out r1], (spec_step ev m) as [out' m1]. simpl in *. destruct (run evs r1), (spec_run evs m1).
  simpl in *. destruct IH. split; [by constructor|done].
Qed.
End Spec.



(** A write between the read of a value and its [track_read] is announced to nobody. *)
Lemma unannounced_write :
  exists r, run (H := sorted_ids) [Register 1; Enable 1 default_options; Write [bstr "a"] 9; Read 1 [bstr "a"]] new = ([[]; []; []; []], r) /\
    1%Z ∈ holders (key_index r) (bstr "a").
Proof. eexists. split; [by vm_compute|]. by vm_compute. Qed.
