(* ===== verification/StreamIds.v ===== *)
(** * StreamIds: the ids of stream entries ([StreamId] of [command/stream.rs])

    An id is a pair of [u64]s, milliseconds and a sequence number, in the order of
    pairs; on the wire it is [ms-seq] in decimal. *)

From S2P Require Import Prelude Text Types Keyspace Resp CommandArgs.

Record StreamId := mkStreamId { id_ms : Z; id_seq : Z }.

#[export] Instance StreamId_eq_dec : EqDecision StreamId.
Proof. solve_decision. Defined.

(** The derived [Ord] of the tuple. *)
Definition id_lt (a b : StreamId) : Prop := (id_ms a < id_ms b \/ id_ms a = id_ms b /\ id_seq a < id_seq b)%Z.
Definition id_le (a b : StreamId) : Prop := (id_ms a < id_ms b \/ id_ms a = id_ms b /\ id_seq a <= id_seq b)%Z.

#[export] Instance id_lt_dec a b : Decision (id_lt a b).
Proof. unfold id_lt. apply _. Defined.
#[export] Instance id_le_dec a b : Decision (id_le a b).
Proof. unfold id_le. apply _. Defined.

Definition u64_max : Z := 2 ^ 64 - 1.

Definition id_MIN : StreamId := mkStreamId 0 0.
Definition id_MAX : StreamId := mkStreamId u64_max u64_max.

(** [str::split_once]. *)
Fixpoint split_once (c : byte) (s : bytes) : option (bytes * bytes) :=
  match s with
  | [] => None
  | b :: s => if bool_decide (b = c) then Some ([], s) else (fun p : bytes * bytes => (b :: p.1, p.2)) <$> split_once c s
  end.

(** [s.parse::<u64>()] is that of [usize]. *)
Definition parse_id (s : bytes) : option StreamId :=
  p ← split_once MINUS s;
  ms ← parse_usize p.1;
  seq ← parse_usize p.2;
  Some (mkStreamId ms seq).

Definition to_wire (i : StreamId) : bytes := dec (id_ms i) ++ bstr "-" ++ dec (id_seq i).

Definition invalid_stream_id : NexradeError := Generic (bstr "Invalid stream ID specified as stream command argument").

(** A bound of a range: [-], [+] and [$], an id, or bare milliseconds. *)
Definition parse_id_bound (s : bytes) (is_start allow_dollar : bool) : Result StreamId :=
  if is_start && bool_decide (s = bstr "-") then inr id_MIN
  else if (is_start || allow_dollar) && bool_decide (s = bstr "$") then inr id_MAX
  else if negb is_start && bool_decide (s = bstr "+") then inr id_MAX
  else match parse_id s with
       | Some i => inr i
       | None => let! ms := ok_or (parse_usize s) invalid_stream_id in inr (mkStreamId ms 0)
       end.

(** [Ord::max]. *)
Definition id_max (a b : StreamId) : StreamId := if bool_decide (id_le a b) then b else a.

(** [Iterator::max]. *)
Definition ids_max (l : list StreamId) : option StreamId :=
  match l with
  | [] => None
  | i :: l => Some (fold_left id_max l i)
  end.

(** ** The order *)

Definition u64_id (i : StreamId) : Prop := (0 <= id_ms i < 2 ^ 64 /\ 0 <= id_seq i < 2 ^ 64)%Z.

#[export] Instance u64_id_dec i : Decision (u64_id i).
Proof. unfold u64_id. apply _. Defined.

(** Decides goals about ids in the order of pairs. *)
Ltac ids := unfold id_lt, id_le, u64_id, id_MIN, id_MAX, u64_max in *; simpl in *; try lia.

Lemma id_ext a b : id_ms a = id_ms b -> id_seq a = id_seq b -> a = b.
Proof. destruct a, b. simpl. congruence. Qed.

#[export] Instance id_lt_strict : StrictOrder id_lt.
Proof. split; [intros a|intros a b c]; unfold complement; ids. Qed.

#[export] Instance id_le_preorder : PreOrder id_le.
Proof. split; [intros a|intros a b c]; ids. Qed.

#[export] Instance id_le_total : Total id_le.
Proof. intros a b. ids. Qed.

Lemma id_lt_le a b : id_lt a b -> id_le a b.
Proof. ids. Qed.

Lemma id_le_lt a b c : id_le a b -> id_lt b c -> id_lt a c.
Proof. ids. Qed.

Lemma id_lt_le_trans a b c : id_lt a b -> id_le b c -> id_lt a c.
Proof. ids. Qed.

Lemma id_not_lt a b : ~ id_lt a b <-> id_le b a.
Proof. ids. Qed.

Lemma id_not_le a b : ~ id_le a b <-> id_lt b a.
Proof. ids. Qed.

Lemma id_le_cases a b : id_le a b -> a = b \/ id_lt a b.
Proof.
  intros Hle. destruct (decide (id_lt a b)); [by right|left]. apply id_ext; ids.
Qed.

Lemma id_le_antisym a b : id_le a b -> id_le b a -> a = b.
Proof. intros [->|Hl]%id_le_cases; [done|]. ids. Qed.

Lemma id_MIN_least i : u64_id i -> id_le id_MIN i.
Proof. ids. Qed.

Lemma id_MAX_greatest i : u64_id i -> id_le i id_MAX.
Proof. ids. Qed.

Lemma id_max_le a b : id_le a b -> id_max a b = b.
Proof. intros. unfold id_max. by rewrite bool_decide_eq_true_2. Qed.

Lemma id_max_cases a b : (id_max a b = a \/ id_max a b = b) /\ id_le a (id_max a b) /\ id_le b (id_max a b).
Proof. unfold id_max. case_bool_decide; split; auto; split; ids. Qed.

Lemma fold_id_max l : forall i,
  (fold_left id_max l i = i \/ fold_left id_max l i ∈ l) /\ id_le i (fold_left id_max l i) /\
  Forall (fun j => id_le j (fold_left id_max l i)) l.
Proof.
  induction l as [|j l IH]; intros i; simpl; [split_and!; [by left|ids|done]|].
  destruct (IH (id_max i j)) as (Hin & Hle & Hall). destruct (id_max_cases i j) as (C & C1 & C2).
  split_and!; [|by etrans|constructor; [by etrans|done]].
  destruct Hin as [->|Hin]; [|right; by right]. destruct C as [->| ->]; [by left|right; left].
Qed.

(** The greatest of some ids is the greatest. *)
Lemma ids_max_spec l i : i ∈ l -> Forall (fun j => id_le j i) l -> ids_max l = Some i.
Proof.
  destruct l as [|j l]; [by intros ?%elem_of_nil|]. intros Hi Hall. simpl.
  destruct (fold_id_max l j) as (Hin & Hle & Hl). rewrite Forall_cons in Hall. destruct Hall as [Hj Hall].
  f_equal. apply id_le_antisym.
  - destruct Hin as [->|Hin]; [done|]. rewrite Forall_forall in Hall. by apply Hall.
  - apply elem_of_cons in Hi as [->|Hi]; [done|]. rewrite Forall_forall in Hl. by apply Hl.
Qed.

(** ** The wire format *)

Lemma split_once_app c a b : c ∉ a -> split_once c (a ++ c :: b) = Some (a, b).
Proof.
  induction a as [|x a IH]; intros Hc; simpl.
  - by rewrite bool_decide_eq_true_2.
  - apply not_elem_of_cons in Hc as [Hx Hc]. rewrite bool_decide_eq_false_2 by done. by rewrite IH.
Qed.

Lemma dec_no_minus n : (0 <= n)%Z -> MINUS ∉ dec n.
Proof.
  intros Hn Hin. destruct (dec_spec n Hn) as (_ & Hd & _). rewrite Forall_forall in Hd.
  apply Hd, is_digit_val in Hin. change (byte_val MINUS) with 45%Z in Hin. lia.
Qed.

(** An id is read back from its text. *)
Lemma parse_to_wire i : u64_id i -> parse_id (to_wire i) = Some i.
Proof.
  intros [Hm Hs]. unfold parse_id, to_wire. change (bstr "-" ++ dec (id_seq i)) with (MINUS :: dec (id_seq i)).
  rewrite split_once_app by (apply dec_no_minus; lia). mstep. cbn [fst snd].
  rewrite parse_usize_dec by done. mstep. rewrite parse_usize_dec by done. mstep. by destruct i.
Qed.

Lemma parse_usize_range bs n : parse_usize bs = Some n -> (0 <= n < 2 ^ 64)%Z.
Proof.
  intros P. split; [by eapply parse_usize_nonneg|]. revert P. unfold parse_usize.
  destruct (match bs with [] => None | _ => _ end) as [m|]; [|done]. simpl. case_bool_decide; [|done]. by intros [= <-].
Qed.

Lemma parse_id_range s i : parse_id s = Some i -> u64_id i.
Proof.
  unfold parse_id. destruct (split_once MINUS s) as [p|]; [|done]. mstep.
  destruct (parse_usize p.1) as [m|] eqn:Em; [|done]. mstep. destruct (parse_usize p.2) as [n|] eqn:En; [|done]. mstep.
  intros [= <-]. split; simpl; by eapply parse_usize_range.
Qed.

Lemma to_wire_inj i j : u64_id i -> u64_id j -> to_wire i = to_wire j -> i = j.
Proof. intros Hi Hj E. apply parse_to_wire in Hi, Hj. rewrite E in Hi. congruence. Qed.

Lemma parse_id_bound_range s a b i : parse_id_bound s a b = inr i -> u64_id i.
Proof.
  unfold parse_id_bound. repeat case_match; try (intros [= <-]; ids; fail).
  - intros [= <-]. by eapply parse_id_range.
  - destruct (parse_usize s) as [m|] eqn:E; [|done]. cbn. intros [= <-]. apply parse_usize_range in E. ids.
Qed.
