(* ===== verification/StreamCommands.v ===== *)
(** * StreamCommands: the handlers of the stream commands ([command/stream.rs])

    A stream is a vector of entries with consumer groups; entries carry their ids
    as text.  XADD reads the last id under one lock and appends under another:
    [xadd_plan] and [xadd_commit].  A blocking read is a first attempt and, while
    nothing is found, one more after every wake-up; what other clients do in
    between is an argument. *)

From S2P Require Import Prelude Text Types Keyspace Shards Resp CommandArgs StreamIds.
From S2P Require SetData.

Import ShardedDatabase.

(** ** Pure parts *)

Definition parsed (e : StreamEntry) : option StreamId := parse_id (id e).

(** The last id in the sense of XADD and XSETID. *)
Definition last_parsed_id (s : StreamData) : option StreamId :=
  match parse_id (last_generated_id s), ids_max (omap parsed (entries s)) with
  | Some a, Some b => Some (id_max a b)
  | Some a, None => Some a
  | None, Some b => Some b
  | None, None => None
  end.

Definition format_stream_entry (e : StreamEntry) : Resp :=
  array [bulk_str (id e); array (concat (map (fun kv : bytes * bytes => [bulk kv.1; bulk kv.2]) (fields e)))].

(** Assignments to one field. *)
Definition set_entries (es : list StreamEntry) (s : StreamData) : StreamData :=
  mkStreamData es (groups s) (last_id s) (entries_added s).
Definition set_groups (gs : gmap bytes ConsumerGroup) (s : StreamData) : StreamData :=
  mkStreamData (entries s) gs (last_id s) (entries_added s).
Definition set_last_id (i : bytes) (s : StreamData) : StreamData :=
  mkStreamData (entries s) (groups s) i (entries_added s).
Definition set_entries_added (n : Z) (s : StreamData) : StreamData :=
  mkStreamData (entries s) (groups s) (last_id s) n.

Definition set_last_delivered (i : bytes) (g : ConsumerGroup) : ConsumerGroup :=
  mkConsumerGroup (group_name g) i (pending g) (consumers g).
Definition set_pending (m : gmap bytes PendingEntry) (g : ConsumerGroup) : ConsumerGroup :=
  mkConsumerGroup (group_name g) (last_delivered_id g) m (consumers g).
Definition set_consumers (m : gmap bytes Consumer) (g : ConsumerGroup) : ConsumerGroup :=
  mkConsumerGroup (group_name g) (last_delivered_id g) (pending g) m.
Definition set_pending_ids (ids : list bytes) (c : Consumer) : Consumer := mkConsumer (consumer_name c) ids.

(** [drain(..n)], with the payload of what is dropped. *)
Definition drop_oldest (n : nat) (s : StreamData) : Z * StreamData :=
  (Z.of_nat (sum_list_with payload_bytes (take n (entries s))), set_entries (drop n (entries s)) s).

(** How many entries are older than [min]. *)
Definition older (min : StreamId) (es : list StreamEntry) : nat :=
  length (take_while (fun e => match parsed e with Some i => bool_decide (id_lt i min) | None => false end) es).

(** [saturating_add] on [u64]. *)
Definition saturating_add_u64 (a b : Z) : Z := Z.min u64_max (a + b).

(** [Iterator::take(n)] for a [usize]. *)
Definition take_usize {A} (n : Z) (l : list A) : list A :=
  if bool_decide (Z.of_nat (length l) <= n)%Z then l else take (Z.to_nat n) l.

(** [take(count.unwrap_or(usize::MAX))]. *)
Definition take_count {A} (count : option Z) (l : list A) : list A := take_usize (default u64_max count) l.

Definition within (lo hi : StreamId) (e : StreamEntry) : bool :=
  match parsed e with Some i => bool_decide (id_le lo i) && bool_decide (id_le i hi) | None => false end.

Definition after (i : StreamId) (e : StreamEntry) : bool :=
  match parsed e with Some j => bool_decide (id_lt i j) | None => false end.

Section StreamCommands.
Context `{SetData.IndexSet} `{HashOrder} `{UnicodeCase}.

(** [get_stream_mut!]: the stream, created when the key is not there. *)
Definition get_stream_mut (now : Z) (key : bytes) (d : Database.t) : may_panic (Result StreamData * Entry.t * Database.t) :=
  let '(found, d) := Database.get now key d in
  let d := match found with
           | None => Database.insert key (Entry.new (TStream StreamData_new)) d
           | Some _ => d
           end in
  match Database.get_mut now key d with
  | (Some e, d) => Some (match Entry.value e with TStream s => inr s | _ => inl WrongType end, e, d)
  | (None, _) => None
  end.

Definition put_stream (key : bytes) (e : Entry.t) (s : StreamData) (d : Database.t) : Database.t :=
  Database.write_back key (Entry.set_value (TStream s) e) d.

(** [get_mut(key)] and a change to the stream; [none] answers for a missing key. *)
Definition with_stream_mut {A} (now : Z) (key : bytes) (none : Result A) (f : StreamData -> Result A * StreamData) (d : Database.t) :
    Result A * Database.t :=
  match Database.get_mut now key d with
  | (None, d) => (none, d)
  | (Some e, d) =>
      match Entry.value e with
      | TStream s => let '(r, s) := f s in (r, put_stream key e s d)
      | _ => (inl WrongType, d)
      end
  end.

(** [write_for(key).get(key)] and a look at the stream. *)
Definition with_stream {A} (now : Z) (key : bytes) (none : Result A) (f : StreamData -> Result A) (d : Database.t) :
    Result A * Database.t :=
  match Database.get now key d with
  | (None, d) => (none, d)
  | (Some e, d) => (match Entry.value e with TStream s => f s | _ => inl WrongType end, d)
  end.

(** [read_for(key).get_ro(key)] and a look at the stream. *)
Definition read_stream (now : Z) (key : bytes) (none : Result Resp) (f : StreamData -> Result Resp) (s : t) :
    may_panic (Result Resp * t) :=
  found ← read_for key (Database.get_ro now key) s;
  Some (match found with
        | None => none
        | Some e => match Entry.value e with TStream s => f s | _ => inl WrongType end
        end, s).

(** ** XADD *)

Definition skip_trim_hint (args : list Resp) : list Resp :=
  match args with
  | a :: rest =>
      match as_str a with
      | Some t => if bool_decide (t = bstr "~") || bool_decide (t = bstr "=") then rest else args
      | None => args
      end
  | [] => args
  end.

Record XaddOptions := mkXaddOptions { nomkstream : bool; maxlen : option Z; minid : option StreamId }.

Definition maxlen_negative : NexradeError := Generic (bstr "The MAXLEN argument must be >= 0.").

(** The modifiers between the key and the id; what is left starts with the id. *)
Fixpoint xadd_options (rest : list Resp) (o : XaddOptions) : Result (XaddOptions * list Resp) :=
  match rest with
  | [] => inl (WrongArity (bstr "xadd"))
  | a :: rest' =>
      match as_str a with
      | None => inl (WrongArity (bstr "xadd"))
      | Some tok =>
          let tok := to_uppercase tok in
          if bool_decide (tok = bstr "NOMKSTREAM") then xadd_options rest' (mkXaddOptions true (maxlen o) (minid o))
          else if bool_decide (tok = bstr "MAXLEN") then
            let! n := get_i64 (skip_trim_hint rest') 0 "XADD" in
            if bool_decide (n < 0)%Z then inl maxlen_negative
            else xadd_options (skip1 (skip_trim_hint rest')) (mkXaddOptions (nomkstream o) (Some n) (minid o))
          else if bool_decide (tok = bstr "MINID") then
            let! raw := get_str (skip_trim_hint rest') 0 "XADD" in
            let! min := ok_or (parse_id raw) invalid_stream_id in
            xadd_options (skip1 (skip_trim_hint rest')) (mkXaddOptions (nomkstream o) (maxlen o) (Some min))
          else inr (o, rest)
      end
  end.

Fixpoint xadd_fields (rest : list Resp) : Result (list (bytes * bytes)) :=
  match rest with
  | [] => inr []
  | [_] => inl SyntaxError
  | a :: b :: rest =>
      let! k := get_bytes_vec [a] 0 "XADD" in
      let! v := get_bytes_vec [b] 0 "XADD" in
      let! fs := xadd_fields rest in
      inr ((k, v) :: fs)
  end.

(** The id a specification stands for; [now] is the clock in milliseconds. *)
Definition resolve_xadd_id (now : Z) (spec : bytes) (last : option StreamId) : Result StreamId :=
  let! i :=
    match split_once MINUS spec with
    | Some (ms_part, seq_part) =>
        let! ms :=
          if bool_decide (ms_part = bstr "*") then
            inr (match last with
                 | Some l => if bool_decide (now <= id_ms l)%Z then id_ms l else now
                 | None => now
                 end)
          else ok_or (parse_usize ms_part) invalid_stream_id in
        let! seq :=
          if bool_decide (seq_part = bstr "*") then
            inr (match last with
                 | Some l => if bool_decide (id_ms l = ms) then wrap64 (id_seq l + 1) else 0%Z
                 | None => 0%Z
                 end)
          else ok_or (parse_usize seq_part) invalid_stream_id in
        inr (mkStreamId ms seq)
    | None => let! ms := ok_or (parse_usize spec) invalid_stream_id in inr (mkStreamId ms 0)
    end in
  match last with
  | Some prev =>
      if bool_decide (id_le i prev)
      then inl (Generic (bstr "The ID specified in XADD is equal or smaller than the target stream top item"))
      else inr i
  | None =>
      if bool_decide (i = mkStreamId 0 0) then inl (Generic (bstr "The ID specified in XADD must be greater than 0-0"))
      else inr i
  end.

(** [*] or an explicit id. *)
Definition xadd_id (now : Z) (id_str : bytes) (last : option StreamId) : Result StreamId :=
  if bool_decide (id_str = bstr "*") then
    inr (mkStreamId now (match last with
                         | Some l => if bool_decide (id_ms l = now) then wrap64 (id_seq l + 1) else 0%Z
                         | None => 0%Z
                         end))
  else resolve_xadd_id now id_str last.

(** What XADD knows before it takes the write lock. *)
Record XaddCall := mkXaddCall { xkey : bytes; xopts : XaddOptions; xid : bytes; xfields : list (bytes * bytes) }.

Definition xadd_call (args : list Resp) : Result XaddCall :=
  if bool_decide (length args < 5) then inl (WrongArity (bstr "xadd"))
  else
    let! key := get_bytes_vec args 1 "XADD" in
    let! (o, rest) := xadd_options (drop 2 args) (mkXaddOptions false None None) in
    let! id_str := get_str rest 0 "XADD" in
    let! fs := xadd_fields (drop 1 rest) in
    if bool_decide (fs = []) then inl (WrongArity (bstr "xadd"))
    else inr (mkXaddCall key o id_str fs).

(** Under the read lock: the id of the new entry, or [None] when NOMKSTREAM ends the command. *)
Definition xadd_plan (now : Z) (c : XaddCall) (s : t) : may_panic (Result (option StreamId)) :=
  found ← read_for (xkey c) (Database.get_ro now (xkey c)) s;
  let last := match found with
              | Some e => match Entry.value e with TStream st => last_parsed_id st | _ => None end
              | None => None
              end in
  if nomkstream (xopts c) && bool_decide (found = None) then Some (inr None)
  else Some (let! i := xadd_id now (xid c) last in inr (Some i)).

(** The entry goes to the end, then the modifiers trim the front. *)
Definition xadd_apply (o : XaddOptions) (entry : StreamEntry) (s : StreamData) : Z * StreamData :=
  let s := set_entries_added (saturating_add_u64 (entries_added s) 1)
             (set_last_id (id entry) (set_entries (entries s ++ [entry]) s)) in
  let delta := Z.of_nat (payload_bytes entry) in
  let '(delta, s) :=
    match maxlen o with
    | Some max =>
        if bool_decide (max < Z.of_nat (length (entries s)))%Z then
          let '(dropped, s) := drop_oldest (length (entries s) - Z.to_nat max) s in ((delta - dropped)%Z, s)
        else (delta, s)
    | None => (delta, s)
    end in
  match minid o with
  | Some min =>
      let to_remove := older min (entries s) in
      if bool_decide (0 < to_remove) then
        let '(dropped, s) := drop_oldest to_remove s in ((delta - dropped)%Z, s)
      else (delta, s)
  | None => (delta, s)
  end.

(** Under the write lock. *)
Definition xadd_commit (now : Z) (c : XaddCall) (i : StreamId) (d : Database.t) : may_panic (Result Resp * Database.t) :=
  let entry := mkStreamEntry (to_wire i) (xfields c) in
  '(r, e, d) ← get_stream_mut now (xkey c) d;
  let? st := r at d in
  let '(delta, st) := xadd_apply (xopts c) entry st in
  Some (inr (bulk_str (to_wire i)), Database.adjust_live_bytes delta (put_stream (xkey c) e st d)).

Definition cmd_xadd (now : Z) (args : list Resp) (s : t) : may_panic (Result Resp * t) :=
  let? c := xadd_call args at s in
  planned ← xadd_plan now c s;
  let? planned := planned at s in
  match planned with
  | None => Some (inr null, s)
  | Some i => on_shard (shard_idx s (xkey c)) (xadd_commit now c i) s
  end.

(** ** XSETID *)

Fixpoint xsetid_options (rest : list Resp) (added : option Z) : Result (option Z) :=
  match rest with
  | [] => inr added
  | a :: rest =>
      let! opt := get_str [a] 0 "XSETID" in
      let opt := to_uppercase opt in
      if bool_decide (opt = bstr "ENTRIESADDED") then
        let! n := get_i64 rest 0 "XSETID" in
        if bool_decide (n < 0)%Z then inl (Generic (bstr "ENTRIESADDED must be a non-negative integer"))
        else xsetid_options (skip1 rest) (Some n)
      else if bool_decide (opt = bstr "MAXDELETEDID") then
        let! _ := get_str rest 0 "XSETID" in xsetid_options (skip1 rest) added
      else inl SyntaxError
  end.

Definition no_such_key_err : NexradeError := Generic (bstr "no such key").

Definition xsetid_apply (new_id : StreamId) (added : option Z) (s : StreamData) : Result Resp * StreamData :=
  if match last_parsed_id s with Some cur => bool_decide (id_lt new_id cur) | None => false end
  then (inl (Generic (bstr "The ID specified in XSETID is smaller than the current top entry")), s)
  else
    let s := set_last_id (to_wire new_id) s in
    (inr ok, match added with Some n => set_entries_added n s | None => s end).

Definition cmd_xsetid (now : Z) (args : list Resp) (s : t) : may_panic (Result Resp * t) :=
  if bool_decide (length args < 3) then Some (inl (WrongArity (bstr "xsetid")), s)
  else
    let? key := get_bytes_vec args 1 "XSETID" at s in
    let? raw := get_str args 2 "XSETID" at s in
    let? new_id := ok_or (parse_id raw) invalid_stream_id at s in
    let? added := xsetid_options (drop 3 args) None at s in
    on_shard (shard_idx s key) (fun d => Some (with_stream_mut now key (inl no_such_key_err) (xsetid_apply new_id added) d)) s.

(** ** XLEN, XRANGE and XREVRANGE *)

Definition cmd_xlen (now : Z) (args : list Resp) (s : t) : may_panic (Result Resp * t) :=
  if bool_decide (length args <> 2) then Some (inl (WrongArity (bstr "xlen")), s)
  else
    let? key := get_bytes_vec args 1 "XLEN" at s in
    on_shard (shard_idx s key) (fun d => Some (with_stream now key (inr (int 0))
      (fun st => inr (int (Z.of_nat (length (entries st))))) d)) s.

Definition not_in_range : NexradeError := Generic (bstr "value is not an integer or out of range").

(** An optional [COUNT n] at the end of a range. *)
Definition range_count (args : list Resp) (cmd : string) : Result (option Z) :=
  if bool_decide (6 <= length args) then
    let! w := get_str args 4 cmd in
    if bool_decide (to_uppercase w = bstr "COUNT") then
      let! n := get_i64 args 5 cmd in
      if bool_decide (n < 0)%Z then inl not_in_range else inr (Some n)
    else inr None
  else inr None.

Definition range_of (start stop : StreamId) (count : option Z) (s : StreamData) : list StreamEntry :=
  take_count count (filter (within start stop) (entries s)).

Definition cmd_xrange (now : Z) (args : list Resp) (s : t) : may_panic (Result Resp * t) :=
  if bool_decide (length args < 4) then Some (inl (WrongArity (bstr "xrange")), s)
  else
    let? key := get_bytes_vec args 1 "XRANGE" at s in
    let? start_raw := get_str args 2 "XRANGE" at s in
    let? end_raw := get_str args 3 "XRANGE" at s in
    let? count := range_count args "XRANGE" at s in
    let? start := parse_id_bound start_raw true false at s in
    let? stop := parse_id_bound end_raw false false at s in
    on_shard (shard_idx s key) (fun d => Some (with_stream now key (inr (array []))
      (fun st => inr (array (map format_stream_entry (range_of start stop count st)))) d)) s.

(** The count is taken from the front, before the order is reversed. *)
Definition cmd_xrevrange (now : Z) (args : list Resp) (s : t) : may_panic (Result Resp * t) :=
  if bool_decide (length args < 4) then Some (inl (WrongArity (bstr "xrevrange")), s)
  else
    let? key := get_bytes_vec args 1 "XREVRANGE" at s in
    let? end_raw := get_str args 2 "XREVRANGE" at s in
    let? start_raw := get_str args 3 "XREVRANGE" at s in
    let? count := range_count args "XREVRANGE" at s in
    let? start := parse_id_bound start_raw true false at s in
    let? stop := parse_id_bound end_raw false false at s in
    on_shard (shard_idx s key) (fun d => Some (with_stream now key (inr (array []))
      (fun st => inr (array (rev (map format_stream_entry (range_of start stop count st))))) d)) s.

(** ** XREAD *)

(** The options before STREAMS; anything else is skipped. *)
Record ReadOptions := mkReadOptions { rcount : option Z; block_ms : option Z; noack : bool }.

Fixpoint xread_options (rest : list Resp) (o : ReadOptions) : Result (ReadOptions * list Resp) :=
  match rest with
  | [] => inr (o, [])
  | a :: rest =>
      let! opt := get_str [a] 0 "XREAD" in
      let opt := to_uppercase opt in
      if bool_decide (opt = bstr "COUNT") then
        let! n := get_i64 rest 0 "XREAD" in
        if bool_decide (n < 0)%Z then inl not_in_range
        else xread_options (skip1 rest) (mkReadOptions (Some n) (block_ms o) (noack o))
      else if bool_decide (opt = bstr "BLOCK") then
        let! ms := get_i64 rest 0 "XREAD" in
        if bool_decide (ms < 0)%Z then inl (Generic (bstr "value is out of range"))
        else xread_options (skip1 rest)
               (mkReadOptions (rcount o) (Some (if bool_decide (ms = 0)%Z then u64_max else ms)) (noack o))
      else if bool_decide (opt = bstr "STREAMS") then inr (o, rest)
      else xread_options rest o
  end.

(** The keys and the ids after STREAMS. *)
Definition split_streams (rest : list Resp) (cmd : string) : Result (list Resp * list Resp) :=
  if bool_decide (length rest = 0) || negb (Nat.even (length rest)) then inl (WrongArity (bstr cmd))
  else inr (take (length rest / 2) rest, drop (length rest / 2) rest).

Fixpoint xread_specs (keys ids : list Resp) : Result (list (bytes * StreamId)) :=
  match keys, ids with
  | k :: keys, i :: ids =>
      let! key := get_bytes_vec [k] 0 "XREAD" in
      let! raw := get_str [i] 0 "XREAD" in
      let! last_id := parse_id_bound raw true true in
      let! specs := xread_specs keys ids in
      inr ((key, last_id) :: specs)
  | _, _ => inr []
  end.

Definition read_after (count : option Z) (last_id : StreamId) (s : StreamData) : list StreamEntry :=
  take_count count (filter (after last_id) (entries s)).

(** The rows of a reply, one per key; the guard of each key is taken in turn. *)
Fixpoint snapshot_rows (now : Z) (count : option Z) (specs : list (bytes * StreamId)) (s : t) :
    may_panic (Result (list Resp) * t) :=
  match specs with
  | [] => Some (inr [], s)
  | (key, last_id) :: specs =>
      '(r, s) ← on_shard (shard_idx s key) (fun d => Some (with_stream now key (inr [])
        (fun st => inr (map format_stream_entry (read_after count last_id st))) d)) s;
      let? es := r at s in
      '(r, s) ← snapshot_rows now count specs s;
      let? rows := r at s in
      Some (inr (array [bulk key; array es] :: rows), s)
  end.

Definition xread_snapshot (now : Z) (count : option Z) (specs : list (bytes * StreamId)) (s : t) : may_panic (Result Resp * t) :=
  '(r, s) ← snapshot_rows now count specs s;
  let? rows := r at s in
  Some (inr (array rows), s).

Definition has_entries (reply : Resp) : bool :=
  match reply with
  | Array (Some streams) =>
      existsb (fun stream => match stream with
                             | Array (Some (_ :: Array (Some (_ :: _)) :: _)) => true
                             | _ => false
                             end) streams
  | _ => false
  end.

(** A wake-up: the clock, the store other clients leave, and whether writes are admitted then. *)
Record Wake := mkWake { wake_now : Z; meanwhile : t -> t; admitted : bool }.

(** The loop of XREAD BLOCK; the timeout comes when the wake-ups are used up. *)
Fixpoint xread_wait (count : option Z) (specs : list (bytes * StreamId)) (wakes : list Wake) (s : t) : may_panic (Result Resp * t) :=
  match wakes with
  | [] => Some (inr null_array, s)
  | w :: wakes =>
      '(r, s) ← xread_snapshot (wake_now w) count specs (meanwhile w s);
      let? snap := r at s in
      if has_entries snap then Some (inr snap, s) else xread_wait count specs wakes s
  end.

Definition cmd_xread (now : Z) (wakes : list Wake) (args : list Resp) (s : t) : may_panic (Result Resp * t) :=
  if bool_decide (length args < 4) then Some (inl (WrongArity (bstr "xread")), s)
  else
    let? (o, rest) := xread_options (drop 1 args) (mkReadOptions None None false) at s in
    let? (keys, ids) := split_streams rest "xread" at s in
    let? specs := xread_specs keys ids at s in
    '(r, s) ← xread_snapshot now (rcount o) specs s;
    let? initial := r at s in
    if bool_decide (block_ms o = None) || has_entries initial then Some (inr initial, s)
    else xread_wait (rcount o) specs wakes s.

(** ** XTRIM and XDEL *)

Definition xtrim_apply (max : option Z) (min : option StreamId) (s : StreamData) : Result (Resp * Z) * StreamData :=
  let to_remove :=
    match max, min with
    | Some max, _ => length (entries s) - Z.to_nat (Z.min max (Z.of_nat (length (entries s))))
    | None, Some min => older min (entries s)
    | None, None => 0
    end in
  let '(dropped, s') := if bool_decide (0 < to_remove) then drop_oldest to_remove s else (0%Z, s) in
  (inr (int (Z.of_nat (length (entries s)) - Z.of_nat (length (entries s'))), (- dropped)%Z), s').

(** The byte counter moves by what the change reports. *)
Definition counted (key : bytes) (f : Database.t -> Result (Resp * Z) * Database.t) (d : Database.t) :
    may_panic (Result Resp * Database.t) :=
  match f d with
  | (inl e, d) => Some (inl e, Database.adjust_live_bytes 0 d)
  | (inr (r, delta), d) => Some (inr r, Database.adjust_live_bytes delta d)
  end.

Definition xtrim_args (args : list Resp) : Result (bytes * option Z * option StreamId) :=
  if bool_decide (length args < 4) then inl (WrongArity (bstr "xtrim"))
  else
    let! key := get_bytes_vec args 1 "XTRIM" in
    let! strategy := get_str args 2 "XTRIM" in
    let strategy := to_uppercase strategy in
    let! token := get_str (skip_trim_hint (drop 3 args)) 0 "XTRIM" in
    if bool_decide (strategy = bstr "MAXLEN") then
      let! n := ok_or (parse_i64 token) NotInteger in
      if bool_decide (n < 0)%Z then inl maxlen_negative else inr (key, Some n, None)
    else if bool_decide (strategy = bstr "MINID") then
      let! min := ok_or (parse_id token) invalid_stream_id in inr (key, None, Some min)
    else inl SyntaxError.

Definition cmd_xtrim (now : Z) (args : list Resp) (s : t) : may_panic (Result Resp * t) :=
  let? (key, max, min) := xtrim_args args at s in
  on_shard (shard_idx s key) (counted key (with_stream_mut now key (inr (int 0, 0%Z)) (xtrim_apply max min))) s.

(** Every entry with the text goes; an argument that is no text is skipped. *)
Fixpoint xdel_loop (args : list Resp) (deleted delta : Z) (s : StreamData) : Z * Z * StreamData :=
  match args with
  | [] => (deleted, delta, s)
  | a :: args =>
      match get_str [a] 0 "XDEL" with
      | inl _ => xdel_loop args deleted delta s
      | inr i =>
          let gone := filter (fun e => id e = i) (entries s) in
          let kept := filter (fun e => id e <> i) (entries s) in
          xdel_loop args (deleted + Z.of_nat (length gone))%Z (delta - Z.of_nat (sum_list_with payload_bytes gone))%Z
            (set_entries kept s)
      end
  end.

Definition xdel_apply (ids : list Resp) (s : StreamData) : Result (Resp * Z) * StreamData :=
  let '(deleted, delta, s) := xdel_loop ids 0 0 s in (inr (int deleted, delta), s).

Definition cmd_xdel (now : Z) (args : list Resp) (s : t) : may_panic (Result Resp * t) :=
  if bool_decide (length args < 3) then Some (inl (WrongArity (bstr "xdel")), s)
  else
    let? key := get_bytes_vec args 1 "XDEL" at s in
    on_shard (shard_idx s key) (counted key (with_stream_mut now key (inr (int 0, 0%Z)) (xdel_apply (drop 2 args)))) s.

(** ** XGROUP *)

(** [$] is the last entry that is there. *)
Definition resolve_group_id (raw : bytes) (s : StreamData) : bytes :=
  if bool_decide (raw = bstr "$") then match last (entries s) with Some e => id e | None => bstr "0-0" end
  else raw.

Definition nogroup_generic : NexradeError := Generic (bstr "-NOGROUP No such consumer group").

Definition create_apply (group raw : bytes) (s : StreamData) : Result Resp * StreamData :=
  match groups s !! group with
  | Some _ => (inl (Generic (bstr "BUSYGROUP Consumer Group name already exists")), s)
  | None => (inr ok, set_groups (<[group := ConsumerGroup_new group (resolve_group_id raw s)]> (groups s)) s)
  end.

Definition create_body (now : Z) (key group raw : bytes) (mkstream : bool) (d : Database.t) : may_panic (Result Resp * Database.t) :=
  let '(found, d) := Database.get now key d in
  match found, mkstream with
  | None, false => Some (inl (Generic (bstr "The XGROUP subcommand requires the key to exist")), d)
  | None, true =>
      Some (with_stream_mut now key (inl NoKey) (create_apply group raw)
              (Database.insert key (Entry.new (TStream StreamData_new)) d))
  | Some _, _ => Some (with_stream_mut now key (inl NoKey) (create_apply group raw) d)
  end.

Definition xgroup_create (now : Z) (args : list Resp) (s : t) : may_panic (Result Resp * t) :=
  if bool_decide (length args < 5) then Some (inl (WrongArity (bstr "XGROUP CREATE")), s)
  else
    let? key := get_bytes_vec args 2 "XGROUP CREATE" at s in
    let? group := get_bytes_vec args 3 "XGROUP CREATE" at s in
    let? raw := get_str args 4 "XGROUP CREATE" at s in
    let mkstream := existsb (fun a => match as_str a with
                                      | Some w => eq_ignore_ascii_case w (bstr "MKSTREAM")
                                      | None => false
                                      end) args in
    on_shard (shard_idx s key) (create_body now key group raw mkstream) s.

(** A change to one group of the stream. *)
Definition in_group {A} (group : bytes) (none : Result A) (f : ConsumerGroup -> Result A * ConsumerGroup) (s : StreamData) :
    Result A * StreamData :=
  match groups s !! group with
  | None => (none, s)
  | Some g => let '(r, g) := f g in (r, set_groups (<[group := g]> (groups s)) s)
  end.

Definition xgroup_setid (now : Z) (args : list Resp) (s : t) : may_panic (Result Resp * t) :=
  if bool_decide (length args < 5) then Some (inl (WrongArity (bstr "XGROUP SETID")), s)
  else
    let? key := get_bytes_vec args 2 "XGROUP SETID" at s in
    let? group := get_bytes_vec args 3 "XGROUP SETID" at s in
    let? raw := get_str args 4 "XGROUP SETID" at s in
    on_shard (shard_idx s key) (fun d => Some (with_stream_mut now key (inl NoKey) (fun st =>
      in_group group (inl nogroup_generic) (fun g => (inr ok, set_last_delivered (resolve_group_id raw st) g)) st) d)) s.

Definition destroy_apply (group : bytes) (s : StreamData) : Result Resp * StreamData :=
  (inr (int (if bool_decide (groups s !! group = None) then 0 else 1)), set_groups (delete group (groups s)) s).

Definition xgroup_destroy (now : Z) (args : list Resp) (s : t) : may_panic (Result Resp * t) :=
  if bool_decide (length args < 4) then Some (inl (WrongArity (bstr "XGROUP DESTROY")), s)
  else
    let? key := get_bytes_vec args 2 "XGROUP DESTROY" at s in
    let? group := get_bytes_vec args 3 "XGROUP DESTROY" at s in
    on_shard (shard_idx s key) (fun d => Some (with_stream_mut now key (inr (int 0)) (destroy_apply group) d)) s.

(** [entry(consumer).or_insert_with(..)]. *)
Definition ensure_consumer (c : bytes) (g : ConsumerGroup) : ConsumerGroup :=
  match consumers g !! c with
  | Some _ => g
  | None => set_consumers (<[c := mkConsumer c []]> (consumers g)) g
  end.

Definition createconsumer_apply (c : bytes) (g : ConsumerGroup) : Result Resp * ConsumerGroup :=
  (inr (int (if bool_decide (consumers g !! c = None) then 1 else 0)), ensure_consumer c g).

Definition xgroup_createconsumer (now : Z) (args : list Resp) (s : t) : may_panic (Result Resp * t) :=
  if bool_decide (length args < 5) then Some (inl (WrongArity (bstr "XGROUP CREATECONSUMER")), s)
  else
    let? key := get_bytes_vec args 2 "XGROUP CREATECONSUMER" at s in
    let? group := get_bytes_vec args 3 "XGROUP CREATECONSUMER" at s in
    let? c := get_bytes_vec args 4 "XGROUP CREATECONSUMER" at s in
    on_shard (shard_idx s key) (fun d => Some (with_stream_mut now key (inl NoKey)
      (in_group group (inl nogroup_generic) (createconsumer_apply c)) d)) s.

Definition delconsumer_apply (c : bytes) (g : ConsumerGroup) : Result Resp * ConsumerGroup :=
  match consumers g !! c with
  | None => (inr (int 0), g)
  | Some x =>
      (inr (int (Z.of_nat (length (pending_ids x)))),
       set_pending (foldl (fun m i => delete i m) (pending g) (pending_ids x)) (set_consumers (delete c (consumers g)) g))
  end.

Definition xgroup_delconsumer (now : Z) (args : list Resp) (s : t) : may_panic (Result Resp * t) :=
  if bool_decide (length args < 5) then Some (inl (WrongArity (bstr "XGROUP DELCONSUMER")), s)
  else
    let? key := get_bytes_vec args 2 "XGROUP DELCONSUMER" at s in
    let? group := get_bytes_vec args 3 "XGROUP DELCONSUMER" at s in
    let? c := get_bytes_vec args 4 "XGROUP DELCONSUMER" at s in
    on_shard (shard_idx s key) (fun d => Some (with_stream_mut now key (inr (int 0))
      (in_group group (inl nogroup_generic) (delconsumer_apply c)) d)) s.

Definition cmd_xgroup (now : Z) (args : list Resp) (s : t) : may_panic (Result Resp * t) :=
  if bool_decide (length args < 2) then Some (inl (WrongArity (bstr "xgroup")), s)
  else
    let? sub := get_str args 1 "XGROUP" at s in
    let sub := to_uppercase sub in
    if bool_decide (sub = bstr "CREATE") then xgroup_create now args s
    else if bool_decide (sub = bstr "SETID") then xgroup_setid now args s
    else if bool_decide (sub = bstr "DESTROY") then xgroup_destroy now args s
    else if bool_decide (sub = bstr "CREATECONSUMER") then xgroup_createconsumer now args s
    else if bool_decide (sub = bstr "DELCONSUMER") then xgroup_delconsumer now args s
    else Some (inl (Generic (bstr "unknown XGROUP subcommand '" ++ sub ++ bstr "'")), s).

(** ** XREADGROUP *)

Fixpoint xreadgroup_options (rest : list Resp) (o : ReadOptions) : Result (ReadOptions * list Resp) :=
  match rest with
  | [] => inr (o, [])
  | a :: rest =>
      let! opt := get_str [a] 0 "XREADGROUP" in
      let opt := to_uppercase opt in
      if bool_decide (opt = bstr "COUNT") then
        let! n := get_i64 rest 0 "XREADGROUP" in
        xreadgroup_options (skip1 rest) (mkReadOptions (Some (wrap64 n)) (block_ms o) (noack o))
      else if bool_decide (opt = bstr "BLOCK") then
        let! ms := get_i64 rest 0 "XREADGROUP" in
        if bool_decide (ms < 0)%Z then inl (Generic (bstr "value is out of range"))
        else xreadgroup_options (skip1 rest)
               (mkReadOptions (rcount o) (Some (if bool_decide (ms = 0)%Z then u64_max else ms)) (noack o))
      else if bool_decide (opt = bstr "NOACK") then xreadgroup_options rest (mkReadOptions (rcount o) (block_ms o) true)
      else if bool_decide (opt = bstr "STREAMS") then inr (o, rest)
      else xreadgroup_options rest o
  end.

Fixpoint xreadgroup_specs (keys ids : list Resp) : Result (list (bytes * bytes)) :=
  match keys, ids with
  | k :: keys, i :: ids =>
      let! key := get_bytes_vec [k] 0 "XREADGROUP" in
      let! raw := get_str [i] 0 "XREADGROUP" in
      let! specs := xreadgroup_specs keys ids in
      inr ((key, raw) :: specs)
  | _, _ => inr []
  end.

(** A text that is no id counts as the least id. *)
Definition id_or_min (raw : bytes) : StreamId := default id_MIN (parse_id raw).

Definition beyond (cursor : StreamId) (p : bytes) : bool :=
  match parse_id p with Some i => bool_decide (id_lt cursor i) | None => false end.

(** The entries to deliver and the group with its cursor moved. *)
Definition to_deliver (c raw : bytes) (count : option Z) (es : list StreamEntry) (g : ConsumerGroup) :
    list StreamEntry * ConsumerGroup :=
  if bool_decide (raw = bstr ">") then
    let new := take_count count (filter (after (id_or_min (last_delivered_id g))) es) in
    (new, match last new with Some e => set_last_delivered (id e) g | None => g end)
  else
    let mine := match consumers g !! c with
                | Some x => filter (beyond (id_or_min raw)) (pending_ids x)
                | None => []
                end in
    (take_count count (filter (fun e => id e ∈ mine) es), g).

(** [if !c.pending_ids.contains(id) { c.pending_ids.push(id) }]. *)
Definition list_id (i : bytes) (x : Consumer) : Consumer :=
  if bool_decide (i ∈ pending_ids x) then x else set_pending_ids (pending_ids x ++ [i]) x.

(** One entry becomes pending for the consumer. *)
Definition record_pending (now : Z) (c : bytes) (g : ConsumerGroup) (e : StreamEntry) : ConsumerGroup :=
  let count := match pending g !! id e with Some p => wrap64 (delivery_count p + 1) | None => 1%Z end in
  let g := set_pending (<[id e := mkPendingEntry c now count]> (pending g)) g in
  set_consumers (alter (list_id (id e)) c (consumers g)) g.

Definition readgroup_apply (now : Z) (c raw : bytes) (o : ReadOptions) (es : list StreamEntry) (g : ConsumerGroup) :
    Result (list StreamEntry) * ConsumerGroup :=
  let g := ensure_consumer c g in
  let '(out, g) := to_deliver c raw (rcount o) es g in
  (inr out, if noack o then g else fold_left (record_pending now c) out g).

Definition nogroup_prefixed : NexradeError := Prefixed (bstr "NOGROUP No such consumer group").

Fixpoint read_once_rows (now : Z) (group c : bytes) (o : ReadOptions) (specs : list (bytes * bytes)) (s : t) :
    may_panic (Result (list Resp) * t) :=
  match specs with
  | [] => Some (inr [], s)
  | (key, raw) :: specs =>
      '(r, s) ← on_shard (shard_idx s key) (fun d => Some (with_stream_mut now key (inr [])
        (fun st => in_group group (inl nogroup_prefixed) (readgroup_apply now c raw o (entries st)) st) d)) s;
      let? es := r at s in
      '(r, s) ← read_once_rows now group c o specs s;
      let? rows := r at s in
      Some (inr (array [bulk key; array (map format_stream_entry es)] :: rows), s)
  end.

Definition read_once (now : Z) (group c : bytes) (o : ReadOptions) (specs : list (bytes * bytes)) (s : t) : may_panic (Result Resp * t) :=
  '(r, s) ← read_once_rows now group c o specs s;
  let? rows := r at s in
  Some (inr (array rows), s).

Fixpoint xreadgroup_wait (group c : bytes) (o : ReadOptions) (specs : list (bytes * bytes)) (wakes : list Wake) (s : t) :
    may_panic (Result Resp * t) :=
  match wakes with
  | [] => Some (inr null_array, s)
  | w :: wakes =>
      if admitted w then
        '(r, s) ← read_once (wake_now w) group c o specs (meanwhile w s);
        let? snap := r at s in
        if has_entries snap then Some (inr snap, s) else xreadgroup_wait group c o specs wakes s
      else Some (inl (Generic (bstr "MISCONF persistence is quiescing; writes are temporarily disabled")), meanwhile w s)
  end.

Definition cmd_xreadgroup (now : Z) (wakes : list Wake) (args : list Resp) (s : t) : may_panic (Result Resp * t) :=
  if bool_decide (length args < 7) then Some (inl (WrongArity (bstr "xreadgroup")), s)
  else
    let? w := get_str args 1 "XREADGROUP" at s in
    if negb (bool_decide (to_uppercase w = bstr "GROUP")) then Some (inl SyntaxError, s)
    else
      let? group := get_bytes_vec args 2 "XREADGROUP" at s in
      let? c := get_bytes_vec args 3 "XREADGROUP" at s in
      let? (o, rest) := xreadgroup_options (drop 4 args) (mkReadOptions None None false) at s in
      let? (keys, ids) := split_streams rest "xreadgroup" at s in
      let? specs := xreadgroup_specs keys ids at s in
      let needs_blocking := negb (bool_decide (block_ms o = None)) && existsb (fun p => bool_decide (p.2 = bstr ">")) specs in
      '(r, s) ← read_once now group c o specs s;
      let? initial := r at s in
      if negb needs_blocking || has_entries initial then Some (inr initial, s)
      else xreadgroup_wait group c o specs wakes s.

(** ** XACK *)

(** [c.pending_ids.retain(|pid| pid != id)] for the consumer named [c]. *)
Definition unlist (i c : bytes) (g : ConsumerGroup) : ConsumerGroup :=
  set_consumers (alter (fun x => set_pending_ids (filter (fun p => p <> i) (pending_ids x)) x) c (consumers g)) g.

Fixpoint xack_loop (ids : list bytes) (acked : Z) (g : ConsumerGroup) : Z * ConsumerGroup :=
  match ids with
  | [] => (acked, g)
  | i :: ids =>
      match pending g !! i with
      | Some p => xack_loop ids (acked + 1)%Z (unlist i (consumer p) (set_pending (delete i (pending g)) g))
      | None => xack_loop ids acked g
      end
  end.

Definition cmd_xack (now : Z) (args : list Resp) (s : t) : may_panic (Result Resp * t) :=
  if bool_decide (length args < 4) then Some (inl (WrongArity (bstr "xack")), s)
  else
    let? key := get_bytes_vec args 1 "XACK" at s in
    let? group := get_bytes_vec args 2 "XACK" at s in
    let ids := omap (fun a => match get_str [a] 0 "XACK" with inr i => Some i | inl _ => None end) (drop 3 args) in
    on_shard (shard_idx s key) (fun d => Some (with_stream_mut now key (inr (int 0))
      (in_group group (inr (int 0)) (fun g => let '(n, g) := xack_loop ids 0 g in (inr (int n), g))) d)) s.

(** ** XPENDING *)

Definition key_le {V} (a b : bytes * V) : Prop := bytes_cmp a.1 b.1 <> Gt.

#[local] Instance key_le_dec {V} (a b : bytes * V) : Decision (key_le a b).
Proof. unfold key_le. apply _. Defined.

(** A [BTreeMap<String, _>] iterates in the order of the texts. *)
Definition btree_pairs {V} (m : gmap bytes V) : list (bytes * V) := merge_sort key_le (map_to_list m).

Definition consumer_counts (ps : list (bytes * PendingEntry)) : gmap bytes Z :=
  fold_left (fun m p => <[consumer p.2 := (default 0 (m !! consumer p.2) + 1)%Z]> m) ps ∅.

Definition text_or_null (o : option bytes) : Resp :=
  match o with
  | None => null
  | Some [] => null
  | Some i => bulk_str i
  end.

Definition pending_summary (g : ConsumerGroup) : Resp :=
  let ps := btree_pairs (pending g) in
  array [int (Z.of_nat (size (pending g))); text_or_null (fst <$> head ps); text_or_null (fst <$> last ps);
         array (map (fun p => array [bulk p.1; bulk_str (show_int p.2)]) (hm_iter (consumer_counts ps)))].

Definition pending_in (start stop : bytes) (p : bytes * PendingEntry) : bool :=
  let lo := if bool_decide (start = bstr "-") then id_MIN else default id_MIN (parse_id start) in
  let hi := if bool_decide (stop = bstr "+") then id_MAX else default id_MAX (parse_id stop) in
  match parse_id p.1 with Some i => bool_decide (id_le lo i) && bool_decide (id_le i hi) | None => false end.

Definition owned (c : option bytes) (p : bytes * PendingEntry) : bool :=
  match c with Some c => bool_decide (consumer p.2 = c) | None => true end.

Definition pending_rows (start stop : bytes) (count : Z) (c : option bytes) (g : ConsumerGroup) : list (bytes * PendingEntry) :=
  take_usize count (filter (owned c) (filter (pending_in start stop) (btree_pairs (pending g)))).

Definition pending_row (p : bytes * PendingEntry) : Resp :=
  array [bulk_str p.1; bulk (consumer p.2); int (wrap_i64 (delivery_time_ms p.2)); int (wrap_i64 (delivery_count p.2))].

Definition xpending_range (args : list Resp) (g : ConsumerGroup) : Result Resp :=
  let! start := get_str args 3 "XPENDING" in
  let! stop := get_str args 4 "XPENDING" in
  let! count := get_i64 args 5 "XPENDING" in
  let! c := if bool_decide (7 <= length args) then let! c := get_bytes_vec args 6 "XPENDING" in inr (Some c) else inr None in
  inr (array (map pending_row (pending_rows start stop (wrap64 count) c g))).

Definition cmd_xpending (now : Z) (args : list Resp) (s : t) : may_panic (Result Resp * t) :=
  if bool_decide (length args < 3) then Some (inl (WrongArity (bstr "xpending")), s)
  else
    let? key := get_bytes_vec args 1 "XPENDING" at s in
    let? group := get_bytes_vec args 2 "XPENDING" at s in
    on_shard (shard_idx s key) (fun d => Some (with_stream now key (inr (array [])) (fun st =>
      match groups st !! group with
      | None => inl nogroup_generic
      | Some g => if bool_decide (length args = 3) then inr (pending_summary g) else xpending_range args g
      end) d)) s.

(** ** XINFO *)

Definition nogroup_err (key group : bytes) : NexradeError :=
  Generic (bstr "NOGROUP No such consumer group '" ++ from_utf8_lossy group ++ bstr "' for key name '"
           ++ from_utf8_lossy key ++ bstr "'").

Definition label (w : string) : Resp := bulk_str (bstr w).

Definition stream_info (s : StreamData) : Resp :=
  let added := if bool_decide (0 < entries_added s)%Z then entries_added s else Z.of_nat (length (entries s)) in
  array [label "length"; int (Z.of_nat (length (entries s)));
         label "last-generated-id"; bulk_str (last_generated_id s);
         label "max-deleted-entry-id"; label "0-0";
         label "entries-added"; int (wrap_i64 added);
         label "groups"; int (Z.of_nat (size (groups s)));
         label "first-entry"; from_option format_stream_entry null (head (entries s));
         label "last-entry"; from_option format_stream_entry null (last (entries s))].

Definition xinfo_stream (now : Z) (args : list Resp) (s : t) : may_panic (Result Resp * t) :=
  if bool_decide (length args < 3) then Some (inl (WrongArity (bstr "XINFO STREAM")), s)
  else
    let? key := get_bytes_vec args 2 "XINFO STREAM" at s in
    read_stream now key (inl no_such_key_err) (fun st => inr (stream_info st)) s.

Definition group_info (g : ConsumerGroup) : Resp :=
  array [label "name"; bulk (group_name g);
         label "consumers"; int (Z.of_nat (size (consumers g)));
         label "pending"; int (Z.of_nat (size (pending g)));
         label "last-delivered-id"; bulk_str (last_delivered_id g);
         label "entries-read"; null; label "lag"; null].

Definition xinfo_groups (now : Z) (args : list Resp) (s : t) : may_panic (Result Resp * t) :=
  if bool_decide (length args < 3) then Some (inl (WrongArity (bstr "XINFO GROUPS")), s)
  else
    let? key := get_bytes_vec args 2 "XINFO GROUPS" at s in
    read_stream now key (inl no_such_key_err) (fun st => inr (array (map group_info (hm_iter (groups st)).*2))) s.

(** The time since the last delivery to the consumer, of what is pending. *)
Definition idle_time (now : Z) (c : Consumer) (g : ConsumerGroup) : Z :=
  match (filter (fun p => consumer p = consumer_name c) (btree_pairs (pending g)).*2 : list PendingEntry) with
  | [] => 0%Z
  | p :: ps => saturating_sub now (fold_left Z.max (map delivery_time_ms ps) (delivery_time_ms p))
  end.

Definition consumer_info (now : Z) (g : ConsumerGroup) (c : Consumer) : Resp :=
  let idle := wrap_i64 (idle_time now c g) in
  array [label "name"; bulk (consumer_name c);
         label "pending"; int (Z.of_nat (length (pending_ids c)));
         label "idle"; int idle; label "inactive"; int idle].

Definition xinfo_consumers (now : Z) (args : list Resp) (s : t) : may_panic (Result Resp * t) :=
  if bool_decide (length args < 4) then Some (inl (WrongArity (bstr "XINFO CONSUMERS")), s)
  else
    let? key := get_bytes_vec args 2 "XINFO CONSUMERS" at s in
    let? group := get_bytes_vec args 3 "XINFO CONSUMERS" at s in
    read_stream now key (inl no_such_key_err) (fun st =>
      match groups st !! group with
      | None => inl (nogroup_err key group)
      | Some g => inr (array (map (consumer_info now g) (hm_iter (consumers g)).*2))
      end) s.

Definition cmd_xinfo (now : Z) (args : list Resp) (s : t) : may_panic (Result Resp * t) :=
  if bool_decide (length args < 2) then Some (inl (WrongArity (bstr "xinfo")), s)
  else
    let? sub := get_str args 1 "XINFO" at s in
    let sub := to_uppercase sub in
    if bool_decide (sub = bstr "STREAM") then xinfo_stream now args s
    else if bool_decide (sub = bstr "GROUPS") then xinfo_groups now args s
    else if bool_decide (sub = bstr "CONSUMERS") then xinfo_consumers now args s
    else if bool_decide (sub = bstr "HELP") then
      Some (inr (array [label "XINFO <subcommand> [<arg> ...]. Subcommands are:"; label "STREAM <key>";
                        label "GROUPS <key>"; label "CONSUMERS <key> <group>"]), s)
    else Some (inl (Generic (bstr "ERR unknown XINFO subcommand or wrong number of arguments for '" ++ sub ++ bstr "'")), s).

(** ** XCLAIM and XAUTOCLAIM *)

(** The ids at the front of the arguments. *)
Fixpoint claim_ids (rest : list Resp) : Result (list bytes * list Resp) :=
  match rest with
  | [] => inr ([], [])
  | a :: rest' =>
      let! w := get_str [a] 0 "XCLAIM" in
      match parse_id w with
      | Some _ => let! (ids, tl) := claim_ids rest' in inr (w :: ids, tl)
      | None => inr ([], rest)
      end
  end.

Record ClaimOptions := mkClaimOptions {
  set_idle : option Z; set_time : option Z; set_retry : option Z; force : bool; justid : bool }.

Fixpoint claim_options (rest : list Resp) (o : ClaimOptions) : Result ClaimOptions :=
  match rest with
  | [] => inr o
  | a :: rest =>
      let! opt := get_str [a] 0 "XCLAIM" in
      let opt := to_uppercase opt in
      if bool_decide (opt = bstr "IDLE") then
        let! n := get_i64 rest 0 "XCLAIM" in
        claim_options (skip1 rest) (mkClaimOptions (Some (Z.max n 0)) (set_time o) (set_retry o) (force o) (justid o))
      else if bool_decide (opt = bstr "TIME") then
        let! n := get_i64 rest 0 "XCLAIM" in
        claim_options (skip1 rest) (mkClaimOptions (set_idle o) (Some (Z.max n 0)) (set_retry o) (force o) (justid o))
      else if bool_decide (opt = bstr "RETRYCOUNT") then
        let! n := get_i64 rest 0 "XCLAIM" in
        claim_options (skip1 rest) (mkClaimOptions (set_idle o) (set_time o) (Some (Z.max n 0)) (force o) (justid o))
      else if bool_decide (opt = bstr "FORCE") then
        claim_options rest (mkClaimOptions (set_idle o) (set_time o) (set_retry o) true (justid o))
      else if bool_decide (opt = bstr "JUSTID") then
        claim_options rest (mkClaimOptions (set_idle o) (set_time o) (set_retry o) (force o) true)
      else if bool_decide (opt = bstr "LASTID") then claim_options (skip1 rest) o
      else inl SyntaxError
  end.

Definition exists_id (es : list StreamEntry) (i : bytes) : bool := existsb (fun e => bool_decide (id e = i)) es.

(** Collected into a map, the last entry with an id stays. *)
Definition entry_by_id (es : list StreamEntry) (i : bytes) : option StreamEntry := last (filter (fun e => id e = i) es).

Definition claimed_reply (just : bool) (es : list StreamEntry) (i : bytes) : list Resp :=
  if just then [bulk_str i] else match entry_by_id es i with Some e => [format_stream_entry e] | None => [] end.

(** The id leaves its owner and becomes pending for the consumer. *)
Definition reassign (c i : bytes) (old : option PendingEntry) (time count : Z) (g : ConsumerGroup) : ConsumerGroup :=
  let g := match old with Some p => unlist i (consumer p) g | None => g end in
  let g := set_pending (<[i := mkPendingEntry c time count]> (pending g)) g in
  set_consumers (alter (list_id i) c (consumers g)) g.

(** The id is no longer pending. *)
Definition forget (i : bytes) (p : PendingEntry) (g : ConsumerGroup) : ConsumerGroup :=
  unlist i (consumer p) (set_pending (delete i (pending g)) g).

Definition claim_one (now min_idle : Z) (c : bytes) (o : ClaimOptions) (es : list StreamEntry) (i : bytes) (g : ConsumerGroup) :
    list Resp * ConsumerGroup :=
  let old := pending g !! i in
  match old, exists_id es i with
  | None, false => ([], g)
  | None, true =>
      if force o then
        (claimed_reply (justid o) es i,
         reassign c i None (match set_time o, set_idle o with
                            | Some t, _ => t
                            | None, Some n => saturating_sub now n
                            | None, None => now
                            end)
           (match set_retry o with Some r => r | None => if justid o then 0 else 1 end)%Z g)
      else ([], g)
  | Some p, false => ([], forget i p g)
  | Some p, true =>
      if bool_decide (saturating_sub now (delivery_time_ms p) < min_idle)%Z then ([], g)
      else
        (claimed_reply (justid o) es i,
         reassign c i (Some p) (match set_time o, set_idle o with
                                | Some t, _ => t
                                | None, Some n => saturating_sub now n
                                | None, None => now
                                end)
           (match set_retry o with
            | Some r => r
            | None => if justid o then delivery_count p else wrap64 (delivery_count p + 1)
            end)%Z g)
  end.

Fixpoint claim_loop (now min_idle : Z) (c : bytes) (o : ClaimOptions) (es : list StreamEntry) (ids : list bytes)
    (claimed : list Resp) (g : ConsumerGroup) : list Resp * ConsumerGroup :=
  match ids with
  | [] => (claimed, g)
  | i :: ids =>
      let '(out, g) := claim_one now min_idle c o es i g in
      claim_loop now min_idle c o es ids (claimed ++ out) g
  end.

Definition claim_apply (now min_idle : Z) (c : bytes) (o : ClaimOptions) (es : list StreamEntry) (ids : list bytes) (g : ConsumerGroup) :
    Result Resp * ConsumerGroup :=
  let '(claimed, g) := claim_loop now min_idle c o es ids [] (ensure_consumer c g) in (inr (array claimed), g).

Definition cmd_xclaim (now : Z) (args : list Resp) (s : t) : may_panic (Result Resp * t) :=
  if bool_decide (length args < 6) then Some (inl (WrongArity (bstr "xclaim")), s)
  else
    let? key := get_bytes_vec args 1 "XCLAIM" at s in
    let? group := get_bytes_vec args 2 "XCLAIM" at s in
    let? c := get_bytes_vec args 3 "XCLAIM" at s in
    let? min_idle := get_i64 args 4 "XCLAIM" at s in
    let? (ids, rest) := claim_ids (drop 5 args) at s in
    let? o := claim_options rest (mkClaimOptions None None None false false) at s in
    on_shard (shard_idx s key) (fun d => Some (with_stream_mut now key (inl (nogroup_err key group)) (fun st =>
      in_group group (inl (nogroup_err key group)) (claim_apply now (Z.max min_idle 0) c o (entries st) ids) st) d)) s.

Record AutoclaimOptions := mkAutoclaimOptions { acount : Z; ajustid : bool }.

Fixpoint autoclaim_options (rest : list Resp) (o : AutoclaimOptions) : Result AutoclaimOptions :=
  match rest with
  | [] => inr o
  | a :: rest =>
      let! opt := get_str [a] 0 "XAUTOCLAIM" in
      let opt := to_uppercase opt in
      if bool_decide (opt = bstr "COUNT") then
        let! n := get_i64 rest 0 "XAUTOCLAIM" in
        autoclaim_options (skip1 rest) (mkAutoclaimOptions (Z.max n 1) (ajustid o))
      else if bool_decide (opt = bstr "JUSTID") then autoclaim_options rest (mkAutoclaimOptions (acount o) true)
      else inl SyntaxError
  end.

Definition by_id_le (a b : bytes) : Prop := id_le (id_or_min a) (id_or_min b).

#[local] Instance by_id_le_dec a b : Decision (by_id_le a b).
Proof. unfold by_id_le. apply _. Defined.

Definition from_start (start : StreamId) (i : bytes) : bool :=
  match parse_id i with Some p => bool_decide (id_le start p) | None => false end.

(** The pending ids from [start], in the order of ids. *)
Definition pel_ids (start : StreamId) (g : ConsumerGroup) : list bytes :=
  merge_sort by_id_le (filter (from_start start) (btree_pairs (pending g)).*1).

(** The cursor, the claimed entries and the deleted ids. *)
Fixpoint autoclaim_loop (now min_idle : Z) (c : bytes) (o : AutoclaimOptions) (es : list StreamEntry) (ids : list bytes)
    (claimed deleted : list Resp) (g : ConsumerGroup) : bytes * list Resp * list Resp * ConsumerGroup :=
  match ids with
  | [] => (to_wire id_MIN, claimed, deleted, g)
  | i :: ids =>
      if bool_decide (acount o <= Z.of_nat (length claimed))%Z then (i, claimed, deleted, g)
      else
        match pending g !! i with
        | None => autoclaim_loop now min_idle c o es ids claimed deleted g
        | Some p =>
            if negb (exists_id es i) then
              autoclaim_loop now min_idle c o es ids claimed (deleted ++ [bulk_str i]) (forget i p g)
            else if bool_decide (saturating_sub now (delivery_time_ms p) < min_idle)%Z then
              autoclaim_loop now min_idle c o es ids claimed deleted g
            else
              autoclaim_loop now min_idle c o es ids (claimed ++ claimed_reply (ajustid o) es i) deleted
                (reassign c i (Some p) now (if ajustid o then delivery_count p else wrap64 (delivery_count p + 1))%Z g)
        end
  end.

Definition autoclaim_apply (now min_idle : Z) (c : bytes) (start : StreamId) (o : AutoclaimOptions) (es : list StreamEntry)
    (g : ConsumerGroup) : Result Resp * ConsumerGroup :=
  let g := ensure_consumer c g in
  let '(cursor, claimed, deleted, g) := autoclaim_loop now min_idle c o es (pel_ids start g) [] [] g in
  (inr (array [bulk_str cursor; array claimed; array deleted]), g).

Definition cmd_xautoclaim (now : Z) (args : list Resp) (s : t) : may_panic (Result Resp * t) :=
  if bool_decide (length args < 6) then Some (inl (WrongArity (bstr "xautoclaim")), s)
  else
    let? key := get_bytes_vec args 1 "XAUTOCLAIM" at s in
    let? group := get_bytes_vec args 2 "XAUTOCLAIM" at s in
    let? c := get_bytes_vec args 3 "XAUTOCLAIM" at s in
    let? min_idle := get_i64 args 4 "XAUTOCLAIM" at s in
    let? raw := get_str args 5 "XAUTOCLAIM" at s in
    let? start := (if bool_decide (raw = bstr "-") || bool_decide (raw = bstr "0") then inr id_MIN
                   else ok_or (parse_id raw) invalid_stream_id) at s in
    let? o := autoclaim_options (drop 6 args) (mkAutoclaimOptions 100 false) at s in
    on_shard (shard_idx s key) (fun d => Some (with_stream_mut now key (inl (nogroup_err key group)) (fun st =>
      in_group group (inl (nogroup_err key group))
        (autoclaim_apply now (Z.max min_idle 0) c start o (entries st)) st) d)) s.
End StreamCommands.
