(* ===== verification/StreamLogs.v ===== *)
(** * StreamLogs: streams as sorted logs with consumer groups

    An abstract stream is a log of (id, fields) in strictly ascending order of ids,
    the last generated id, the number of entries added and the groups; a group is a
    cursor, the pending entries and the names of its consumers.  [stream_repr] relates
    the data of the code to it; here are the lemmas about the log. *)

From S2P Require Import Prelude Text Types Keyspace Resp CommandArgs StreamIds StreamCommands.

(** ** Abstract streams *)

#[export] Instance PendingEntry_eq_dec : EqDecision PendingEntry.
Proof. solve_decision. Defined.

Record Group := mkGroup { cursor : bytes; pel : gmap bytes PendingEntry; names : gset bytes }.

#[export] Instance Group_eq_dec : EqDecision Group.
Proof. solve_decision. Defined.

Definition Item : Type := StreamId * list (bytes * bytes).

Record Stream := mkStream { log : list Item; top : StreamId; added : Z; cgs : gmap bytes Group }.

#[export] Instance Stream_eq_dec : EqDecision Stream.
Proof. solve_decision. Defined.

Definition no_stream : Stream := mkStream [] id_MIN 0 ∅.

Definition set_log (l : list Item) (a : Stream) : Stream := mkStream l (top a) (added a) (cgs a).
Definition set_top (i : StreamId) (a : Stream) : Stream := mkStream (log a) i (added a) (cgs a).
Definition set_added (n : Z) (a : Stream) : Stream := mkStream (log a) (top a) n (cgs a).
Definition set_cgs (gs : gmap bytes Group) (a : Stream) : Stream := mkStream (log a) (top a) (added a) gs.

(** The entry of an item. *)
Definition wire (p : Item) : StreamEntry := mkStreamEntry (to_wire p.1) p.2.

Definition item_bytes (p : Item) : nat := payload_bytes (wire p).

Definition ascending (l : list Item) : Prop := StronglySorted id_lt l.*1.

Record log_ok (a : Stream) : Prop := {
  log_sorted : ascending (log a);
  log_u64 : Forall (fun p : Item => u64_id p.1) (log a);
  log_top : Forall (fun p : Item => id_le p.1 (top a)) (log a);
  top_u64 : u64_id (top a);
}.

(** A consumer lists what is pending for it, once each. *)
Definition lists_own (m : gmap bytes PendingEntry) (c : bytes) (x : Consumer) : Prop :=
  consumer_name x = c /\ NoDup (pending_ids x) /\
  forall i, i ∈ pending_ids x <-> exists p, m !! i = Some p /\ consumer p = c.

Record group_repr (name : bytes) (g : ConsumerGroup) (b : Group) : Prop := {
  gr_name : group_name g = name;
  gr_cursor : last_delivered_id g = cursor b;
  gr_pending : pending g = pel b;
  gr_names : dom (consumers g) = names b;
  gr_lists : forall c x, consumers g !! c = Some x -> lists_own (pel b) c x;
  gr_owners : forall i p, pel b !! i = Some p -> consumer p ∈ names b;
}.

Record stream_repr (s : StreamData) (a : Stream) : Prop := {
  sr_ok : log_ok a;
  sr_entries : entries s = wire <$> log a;
  sr_last : last_id s = to_wire (top a) \/ last_id s = [] /\ log a = [] /\ top a = id_MIN;
  sr_added : entries_added s = added a;
  sr_groups : forall name, option_Forall2 (group_repr name) (groups s !! name) (cgs a !! name);
}.

Lemma stream_repr_new : stream_repr StreamData_new no_stream.
Proof.
  split; try done; [|by right|intros; constructor].
  split; [constructor|constructor|constructor|]. simpl. ids.
Qed.

(** ** Items *)

Lemma parsed_wire p : u64_id p.1 -> parsed (wire p) = Some p.1.
Proof. intros. unfold parsed. by apply parse_to_wire. Qed.

Lemma omap_parsed l : Forall (fun p : Item => u64_id p.1) l -> omap parsed (wire <$> l) = l.*1.
Proof. induction 1 as [|p l Hp _ IH]; [done|]. rewrite !fmap_cons. cbn [omap list_omap]. rewrite parsed_wire by done. by f_equal. Qed.

Lemma within_wire lo hi p : u64_id p.1 -> within lo hi (wire p) = bool_decide (id_le lo p.1 /\ id_le p.1 hi).
Proof. intros. unfold within. rewrite parsed_wire by done. symmetry. apply bool_decide_and. Qed.

Lemma after_wire i p : u64_id p.1 -> after i (wire p) = bool_decide (id_lt i p.1).
Proof. intros. unfold after. by rewrite parsed_wire. Qed.

(** Filtering the entries is filtering the items. *)
Lemma filter_wire (f : StreamEntry -> bool) (P : Item -> Prop) `{forall p, Decision (P p)} (l : list Item) :
  (forall p, p ∈ l -> f (wire p) = bool_decide (P p)) -> filter f (wire <$> l) = wire <$> filter P l.
Proof.
  induction l as [|p l IH]; intros Hf; [done|]. rewrite fmap_cons, !filter_cons, IH by (intros; apply Hf; by right).
  specialize (Hf p ltac:(by left)). case_decide as D; rewrite Hf in D; case_decide as D'; try done; exfalso; eauto using bool_decide_pack.
  by apply bool_decide_unpack in D.
Qed.

Lemma ascending_cons p l : ascending (p :: l) <-> ascending l /\ Forall (fun q : Item => id_lt p.1 q.1) l.
Proof.
  unfold ascending. rewrite fmap_cons. split.
  - intros [Hs Hall]%StronglySorted_inv. split; [done|]. by rewrite Forall_fmap in Hall.
  - intros [Hs Hall]. constructor; [done|]. by rewrite Forall_fmap.
Qed.

Lemma ascending_app l1 l2 : ascending (l1 ++ l2) <->
  ascending l1 /\ ascending l2 /\ forall p q, p ∈ l1 -> q ∈ l2 -> id_lt p.1 q.1.
Proof.
  induction l1 as [|p l1 IH]; cbn [app].
  - split; [|naive_solver]. intros Hs. split_and!; [constructor|done|]. by intros ?? ?%elem_of_nil.
  - rewrite !ascending_cons, IH, Forall_app, !Forall_forall. setoid_rewrite elem_of_cons. naive_solver.
Qed.

Lemma Forall_kept {A} (Q P : A -> Prop) `{forall x, Decision (P x)} (l : list A) : Forall Q l -> Forall Q (filter P l).
Proof. rewrite !Forall_forall. intros HQ x [_ Hx]%list_elem_of_filter. by apply HQ. Qed.

Lemma ascending_filter (P : Item -> Prop) `{forall p, Decision (P p)} (l : list Item) : ascending l -> ascending (filter P l).
Proof.
  induction l as [|p l IH]; [done|]. intros [Hs Hall]%ascending_cons. rewrite filter_cons.
  specialize (IH Hs). case_decide; [|done]. apply ascending_cons. split; [done|by apply Forall_kept].
Qed.

Lemma ascending_drop n l : ascending l -> ascending (drop n l).
Proof. intros Hs. rewrite <- (take_drop n l) in Hs. by apply ascending_app in Hs as (_ & ? & _). Qed.

(** Entries older than [min] are the front of the log. *)
Lemma older_log min l : ascending l -> Forall (fun p : Item => u64_id p.1) l ->
  drop (older min (wire <$> l)) l = filter (fun p : Item => id_le min p.1) l /\
  older min (wire <$> l) = length l - length (filter (fun p : Item => id_le min p.1) l).
Proof.
  intros Hs Hu. unfold older. induction l as [|p l IH]; [done|]. apply ascending_cons in Hs as [Hs Hall].
  apply Forall_cons in Hu as [Hp Hu]. destruct (IH Hs Hu) as [IH1 IH2]. rewrite fmap_cons. cbn [take_while].
  rewrite parsed_wire by done. rewrite filter_cons. destruct (decide (id_lt p.1 min)) as [L|L].
  - rewrite bool_decide_eq_true_2 by done. rewrite (decide_False (P := id_le min p.1)) by ids. simpl. split; [done|].
    pose proof (length_filter (fun p : Item => id_le min p.1) l). lia.
  - rewrite bool_decide_eq_false_2 by done. apply id_not_lt in L. rewrite (decide_True (P := id_le min p.1)) by done.
    rewrite list_filter_all; [split; [done|simpl; lia]|]. eapply Forall_impl; [exact Hall|].
    simpl. intros q Hq. ids.
Qed.

(** ** The last id *)

Lemma parse_last_generated s a : stream_repr s a -> parse_id (last_generated_id s) = Some (top a).
Proof.
  intros R. unfold last_generated_id. destruct (sr_last _ _ R) as [->|(-> & El & ->)].
  - rewrite (bool_decide_eq_false_2 (to_wire (top a) = [])). { apply parse_to_wire, R. }
    unfold to_wire. by destruct (dec (id_ms (top a))).
  - rewrite (sr_entries _ _ R), El. reflexivity.
Qed.

Lemma last_parsed_top s a : stream_repr s a -> last_parsed_id s = Some (top a).
Proof.
  intros R. unfold last_parsed_id. rewrite (parse_last_generated s a R), (sr_entries _ _ R), omap_parsed by apply R.
  destruct (log a).*1 as [|i js] eqn:El; [done|]. simpl. destruct (fold_id_max js i) as (Hin & _ & _).
  assert (Hle : id_le (fold_left id_max js i) (top a)).
  { assert (Ht : Forall (fun j => id_le j (top a)) (log a).*1) by (apply Forall_fmap, (log_top _ (sr_ok _ _ R))).
    rewrite El, Forall_forall in Ht.
    apply Ht. destruct Hin as [->|Hin]; [by left|by right]. }
  unfold id_max. case_bool_decide as D; [|done]. f_equal. by apply id_le_antisym.
Qed.

(** ** Operations on logs *)

Definition log_bytes (l : list Item) : nat := sum_list_with item_bytes l.
Definition stream_bytes (a : Stream) : nat := log_bytes (log a).

(** The newest [m] items. *)
Definition newest (m : Z) (l : list Item) : list Item := drop (Z.to_nat (Z.of_nat (length l) - m)) l.

(** The items from [min] on. *)
Definition since (min : StreamId) (l : list Item) : list Item := filter (fun p : Item => id_le min p.1) l.

Definition keep (max : option Z) (min : option StreamId) (l : list Item) : list Item :=
  let l := match max with Some m => newest m l | None => l end in
  match min with Some i => since i l | None => l end.

(** A new item, with the modifiers of XADD. *)
Definition append (o : XaddOptions) (i : StreamId) (fs : list (bytes * bytes)) (a : Stream) : Stream :=
  mkStream (keep (maxlen o) (minid o) (log a ++ [(i, fs)])) i (saturating_add_u64 (added a) 1) (cgs a).

(** The items whose text is not given. *)
Definition without_ids (ids : list bytes) (l : list Item) : list Item := filter (fun p : Item => to_wire p.1 ∉ ids) l.

Lemma stream_repr_size s a : stream_repr s a -> estimated_size s = stream_bytes a.
Proof.
  intros R. unfold estimated_size, stream_bytes, log_bytes. rewrite (sr_entries _ _ R).
  induction (log a) as [|p l IH]; [done|]. rewrite fmap_cons. cbn [sum_list_with]. by rewrite IH.
Qed.

Lemma log_bytes_app l1 l2 : log_bytes (l1 ++ l2) = log_bytes l1 + log_bytes l2.
Proof. apply sum_list_with_app. Qed.

Lemma sum_wire l : sum_list_with payload_bytes (wire <$> l) = log_bytes l.
Proof. unfold log_bytes. induction l as [|p l IH]; [done|]. rewrite fmap_cons. cbn [sum_list_with]. by rewrite IH. Qed.

(** Some of the items stay. *)
Lemma repr_set_log s a l : stream_repr s a -> ascending l -> (forall p, p ∈ l -> p ∈ log a) ->
  stream_repr (set_entries (wire <$> l) s) (set_log l a).
Proof.
  intros R Hs Hl. destruct (sr_ok _ _ R) as [A1 A2 A3 A4]. split; try apply R; try done.
  - split; simpl; [done| | |done]; rewrite Forall_forall in *; eauto.
  - simpl. destruct (sr_last _ _ R) as [|(? & El & ?)]; [by left|]. right. split_and!; [done| |done].
    destruct l as [|p l]; [done|]. specialize (Hl p ltac:(by left)). rewrite El in Hl. by apply elem_of_nil in Hl.
Qed.

Lemma drop_oldest_repr n s a : stream_repr s a ->
  drop_oldest n s = (Z.of_nat (log_bytes (log a)) - Z.of_nat (log_bytes (drop n (log a))), set_entries (wire <$> drop n (log a)) s)%Z /\
  stream_repr (set_entries (wire <$> drop n (log a)) s) (set_log (drop n (log a)) a).
Proof.
  intros R. split; [|apply repr_set_log; [done|apply ascending_drop, R|intros p Hp; rewrite <- (take_drop n (log a)); by apply elem_of_app; right]].
  unfold drop_oldest. rewrite (sr_entries _ _ R), <- fmap_take, <- fmap_drop, sum_wire. f_equal.
  rewrite <- (take_drop n (log a)) at 2. rewrite log_bytes_app. lia.
Qed.

(** Both trims are the removal of the oldest entries. *)
Lemma max_trim_repr m s a : (0 <= m)%Z -> stream_repr s a ->
  newest m (log a) = drop (length (entries s) - Z.to_nat (Z.min m (Z.of_nat (length (entries s))))) (log a).
Proof. intros Hm R. unfold newest. rewrite (sr_entries _ _ R), length_fmap. f_equal. lia. Qed.

Lemma min_trim_repr i s a : stream_repr s a -> since i (log a) = drop (older i (entries s)) (log a).
Proof. intros R. rewrite (sr_entries _ _ R). symmetry. apply older_log; apply R. Qed.

(** A trim that drops nothing changes nothing. *)
Lemma trim_step n s a : stream_repr s a ->
  exists s', (if bool_decide (0 < n) then drop_oldest n s else (0%Z, s))
      = (Z.of_nat (log_bytes (log a)) - Z.of_nat (log_bytes (drop n (log a))), s')%Z /\
    stream_repr s' (set_log (drop n (log a)) a).
Proof.
  intros R. case_bool_decide.
  - destruct (drop_oldest_repr n s a R) as [-> R']. eauto.
  - replace n with 0 by lia. rewrite drop_0. exists s. split; [f_equal; lia|by destruct a].
Qed.

Lemma push_repr s a i fs : stream_repr s a -> u64_id i -> Forall (fun p : Item => id_lt p.1 i) (log a) ->
  stream_repr (set_entries_added (saturating_add_u64 (entries_added s) 1)
      (set_last_id (to_wire i) (set_entries (entries s ++ [wire (i, fs)]) s)))
    (mkStream (log a ++ [(i, fs)]) i (saturating_add_u64 (added a) 1) (cgs a)).
Proof.
  intros R Hi Hl. destruct (sr_ok _ _ R) as [A1 A2 A3 A4]. split; simpl.
  - split; simpl; [| | |done].
    + apply ascending_app. split_and!; [done|by repeat constructor|]. rewrite Forall_forall in Hl.
      intros p q Hp ->%list_elem_of_singleton. by apply Hl.
    + rewrite Forall_app. auto.
    + rewrite Forall_app. split; [|repeat constructor; by simpl; ids]. eapply Forall_impl; [exact Hl|]. intros p. apply id_lt_le.
  - by rewrite (sr_entries _ _ R), fmap_app.
  - by left.
  - by rewrite (sr_added _ _ R).
  - apply R.
Qed.

(** XADD puts its item at the end and trims the front. *)
Lemma xadd_apply_repr o s a i fs : stream_repr s a -> u64_id i -> Forall (fun p : Item => id_lt p.1 i) (log a) ->
  (forall m, maxlen o = Some m -> (0 <= m)%Z) ->
  exists s', xadd_apply o (wire (i, fs)) s
      = (Z.of_nat (stream_bytes (append o i fs a)) - Z.of_nat (stream_bytes a), s')%Z /\ stream_repr s' (append o i fs a).
Proof.
  intros R Hi Hl Hm. pose proof (push_repr s a i fs R Hi Hl) as R1. unfold xadd_apply. cbn [id wire fst].
  set (s1 := set_entries_added _ _) in *. set (a1 := mkStream (log a ++ [(i, fs)]) _ _ _) in *.
  assert (B1 : log_bytes (log a1) = log_bytes (log a) + payload_bytes (wire (i, fs))).
  { subst a1. cbn [log]. rewrite log_bytes_app. unfold log_bytes, item_bytes. simpl. lia. }
  set (a2 := set_log (keep (maxlen o) None (log a1)) a1).
  assert (S2 : exists s2, (match maxlen o with
      | Some max => if bool_decide (max < Z.of_nat (length (entries s1)))%Z
          then let '(dropped, s) := drop_oldest (length (entries s1) - Z.to_nat max) s1 in ((Z.of_nat (payload_bytes (wire (i, fs))) - dropped)%Z, s)
          else (Z.of_nat (payload_bytes (wire (i, fs))), s1)
      | None => (Z.of_nat (payload_bytes (wire (i, fs))), s1)
      end) = (Z.of_nat (log_bytes (log a2)) - Z.of_nat (log_bytes (log a)), s2)%Z /\ stream_repr s2 a2).
  { subst a2. unfold keep. destruct (maxlen o) as [m|] eqn:Em; [|exists s1; cbn [set_log log]; split; [f_equal; lia|by destruct a1]].
    specialize (Hm m eq_refl). rewrite (max_trim_repr m s1 a1 Hm R1). cbn [set_log log]. case_bool_decide as L.
    - rewrite Z.min_l by lia. destruct (drop_oldest_repr (length (entries s1) - Z.to_nat m) s1 a1 R1) as [-> R2].
      eexists. split; [|exact R2]. f_equal. lia.
    - rewrite Z.min_r, Nat2Z.id, Nat.sub_diag, drop_0 by lia. exists s1. split; [f_equal; lia|by destruct a1]. }
  destruct S2 as (s2 & -> & R2). assert (Ea : forall l, set_log l a2 = mkStream l i (added a1) (cgs a)) by done.
  unfold append. destruct (minid o) as [min|] eqn:En; [|exists s2; by split].
  destruct (trim_step (older min (entries s2)) s2 a2 R2) as (s3 & E3 & R3). rewrite <- (min_trim_repr min s2 a2 R2) in E3, R3.
  exists s3. split; [|by rewrite Ea in R3]. case_bool_decide.
  - rewrite E3. f_equal. unfold stream_bytes, keep. cbn [log]. change (log a2) with (keep (maxlen o) None (log a1)) in *. unfold keep in *. subst a1. cbn [log] in *. lia.
  - injection E3 as E3 <-. f_equal. unfold stream_bytes, keep. cbn [log]. change (log a2) with (keep (maxlen o) None (log a1)) in *. unfold keep in *. subst a1. cbn [log] in *. lia.
Qed.

Lemma xtrim_apply_repr max min s a : stream_repr s a ->
  match max, min with Some m, None => (0 <= m)%Z | None, Some _ => True | _, _ => False end ->
  let l := keep max min (log a) in
  exists s', xtrim_apply max min s = (inr (int (Z.of_nat (length (log a)) - Z.of_nat (length l)),
      Z.of_nat (log_bytes l) - Z.of_nat (log_bytes (log a)))%Z, s') /\ stream_repr s' (set_log l a).
Proof.
  intros R Hm l.
  assert (S : exists n, drop n (log a) = l /\ xtrim_apply max min s =
    (let '(dropped, s') := if bool_decide (0 < n) then drop_oldest n s else (0%Z, s) in
     (inr (int (Z.of_nat (length (entries s)) - Z.of_nat (length (entries s'))), (- dropped)%Z), s'))).
  { subst l. unfold keep. destruct max as [m|], min as [i|]; try done; eexists; (split; [|reflexivity]).
    - by rewrite (max_trim_repr m s a Hm R).
    - by rewrite (min_trim_repr i s a R). }
  destruct S as (n & El & ->). destruct (trim_step n s a R) as (s' & -> & R'). rewrite El in *. exists s'.
  split; [|done]. rewrite (sr_entries _ _ R), (sr_entries _ _ R'), !length_fmap. cbn [set_log log]. do 3 f_equal. lia.
Qed.

(** The texts among the arguments of XDEL. *)
Definition del_ids (args : list Resp) : list bytes := omap as_str args.

Lemma without_ids_cons i ids l : without_ids (i :: ids) l = without_ids ids (filter (fun p : Item => to_wire p.1 <> i) l).
Proof. unfold without_ids. rewrite list_filter_filter. apply list_filter_iff. intros p. rewrite not_elem_of_cons. naive_solver. Qed.

Lemma without_nil l : without_ids [] l = l.
Proof. apply list_filter_all, Forall_true. intros p. apply not_elem_of_nil. Qed.

Lemma filter_split i l : length l = length (filter (fun p : Item => to_wire p.1 = i) l) + length (filter (fun p : Item => to_wire p.1 <> i) l) /\
  log_bytes l = log_bytes (filter (fun p : Item => to_wire p.1 = i) l) + log_bytes (filter (fun p : Item => to_wire p.1 <> i) l).
Proof.
  induction l as [|p l [IH1 IH2]]; [done|]. rewrite !filter_cons. unfold log_bytes in *.
  destruct (decide (to_wire p.1 = i)), (decide (to_wire p.1 <> i)); try done; cbn [sum_list_with length] in *; lia.
Qed.

Lemma xdel_loop_repr args : forall n delta s a, stream_repr s a ->
  let l := without_ids (del_ids args) (log a) in
  exists s', xdel_loop args n delta s
      = (n + (Z.of_nat (length (log a)) - Z.of_nat (length l)), delta + (Z.of_nat (log_bytes l) - Z.of_nat (log_bytes (log a))), s')%Z /\
    stream_repr s' (set_log l a).
Proof.
  induction args as [|x args IH]; intros n delta s a R l.
  - exists s. subst l. cbn [del_ids omap list_omap]. rewrite without_nil. cbn [xdel_loop]. split; [do 2 f_equal; lia|by destruct a].
  - subst l. cbn [del_ids omap list_omap xdel_loop]. unfold get_str at 1. cbn [lookup list_lookup]. mstep.
    destruct (as_str x) as [i|]; cbn [ok_or]; [|by apply IH].
    rewrite (sr_entries _ _ R), !list_filter_fmap. cbn [wire id fst].
    assert (R1 : stream_repr (set_entries (wire <$> filter (fun p : Item => to_wire p.1 <> i) (log a)) s)
      (set_log (filter (fun p : Item => to_wire p.1 <> i) (log a)) a)).
    { apply repr_set_log; [done|apply ascending_filter, R|]. intros p [_ Hp]%list_elem_of_filter. done. }
    destruct (IH (n + Z.of_nat (length (wire <$> filter (fun p : Item => to_wire p.1 = i) (log a))))%Z
      (delta - Z.of_nat (sum_list_with payload_bytes (wire <$> filter (fun p : Item => to_wire p.1 = i) (log a))))%Z
      _ _ R1) as (s' & E & R').
    change (omap as_str args) with (del_ids args). rewrite without_ids_cons.
    exists s'. cbn [set_log log] in E, R'. split; [|exact R']. etrans; [exact E|].
    rewrite length_fmap, sum_wire. destruct (filter_split i (log a)) as [F1 F2]. do 2 f_equal; lia.
Qed.

Lemma xsetid_apply_repr i n s a : stream_repr s a -> u64_id i ->
  if bool_decide (id_lt i (top a)) then exists e, xsetid_apply i n s = (inl (Generic e), s)
  else exists s', xsetid_apply i n s = (inr ok, s') /\ stream_repr s' (set_added (default (added a) n) (set_top i a)).
Proof.
  intros R Hi. unfold xsetid_apply. rewrite (last_parsed_top s a R). case_bool_decide as L; [eauto|].
  eexists. split; [done|]. apply id_not_lt in L. destruct (sr_ok _ _ R) as [A1 A2 A3 A4].
  assert (R' : stream_repr (set_last_id (to_wire i) s) (set_top i a)).
  { split; try apply R; [split; simpl; try done|by left]. eapply Forall_impl; [exact A3|]. simpl. intros p Hp. by etrans. }
  destruct n as [n|]; [|by destruct a]. split; try apply R'; try done. split; simpl; apply R'.
Qed.

(** ** The id of a new entry *)

(** The clock is not behind the last id of the stream. *)
Definition clock_ok (now : Z) (i : StreamId) : Prop := (id_ms i < now \/ id_ms i = now /\ id_seq i < u64_max)%Z.

#[export] Instance clock_ok_dec now i : Decision (clock_ok now i).
Proof. unfold clock_ok. apply _. Defined.

Lemma next_seq_range last (b : bool) : u64_id last -> (0 <= (if b then wrap64 (id_seq last + 1) else 0) < 2 ^ 64)%Z.
Proof. intros Hl. destruct b; [apply wrap64_range|lia]. Qed.

Lemma resolve_above now spec last i : (0 <= now < 2 ^ 64)%Z -> (forall l, last = Some l -> u64_id l) ->
  resolve_xadd_id now spec last = inr i -> u64_id i /\ forall l, last = Some l -> id_lt l i.
Proof.
  intros Hn Hl. unfold resolve_xadd_id. set (r := match split_once MINUS spec with Some _ => _ | None => _ end).
  assert (Hr : forall j, r = inr j -> u64_id j).
  { intros j. unfold r. destruct (split_once MINUS spec) as [[a b]|].
    - assert (Hs : forall l ms, last = Some l -> (0 <= (if bool_decide (id_ms l = ms) then wrap64 (id_seq l + 1) else 0) < 2 ^ 64)%Z).
      { intros l ms E. apply next_seq_range. by apply Hl. }
      set (m := if bool_decide (a = bstr "*") then _ else _).
      assert (Hm : forall z, m = inr z -> (0 <= z < 2 ^ 64)%Z).
      { intros z. unfold m. case_bool_decide.
        - intros [= <-]. destruct last as [l|]; [|lia]. destruct (Hl l eq_refl). case_bool_decide; lia.
        - destruct (parse_usize a) as [x|] eqn:E; [|done]. intros [= <-]. by eapply parse_usize_range. }
      destruct m as [|ms]; [done|]. cbn [bindr]. specialize (Hm ms eq_refl). case_bool_decide.
      + cbn [bindr]. intros [= <-]. split; [done|]. simpl. destruct last as [l|]; [by apply (Hs l)|lia].
      + destruct (parse_usize b) as [x|] eqn:E; [|done]. cbn. intros [= <-]. split; [done|]. by eapply parse_usize_range.
    - destruct (parse_usize spec) as [x|] eqn:E; [|done]. cbn. intros [= <-]. apply parse_usize_range in E. by split. }
  destruct r as [|j]; [done|]. cbn [bindr]. specialize (Hr j eq_refl). destruct last as [l|].
  - case_bool_decide as L; [done|]. intros [= <-]. split; [done|]. intros ? [= <-]. by apply id_not_le.
  - case_bool_decide; [done|]. by intros [= <-].
Qed.

(** A new id is above the last one; [*] needs a clock that did not go back. *)
Lemma xadd_id_above now spec last i : (0 <= now < 2 ^ 64)%Z -> (forall l, last = Some l -> u64_id l) ->
  (spec = bstr "*" -> forall l, last = Some l -> clock_ok now l) ->
  xadd_id now spec last = inr i -> u64_id i /\ forall l, last = Some l -> id_lt l i.
Proof.
  intros Hn Hl Hc. unfold xadd_id. case_bool_decide as E; [|by apply resolve_above]. specialize (Hc E). intros [= <-].
  destruct last as [l|]; [|split; [split; simpl; lia|done]]. specialize (Hl l eq_refl). specialize (Hc l eq_refl).
  split; [split; [done|simpl; by apply (next_seq_range l)]|]. intros ? [= <-]. unfold clock_ok, u64_max in Hc. destruct Hl as [? Hs].
  case_bool_decide; [rewrite wrap64_small by lia|]; ids.
Qed.
