(* ===== verification/StreamGroups.v ===== *)
(** * StreamGroups: consumer groups as pending maps

    The code keeps what is pending twice, in a map of the group and in a list per
    consumer.  The abstract group has the map and the names of the consumers only;
    the lemmas say that the operations of [StreamCommands] on both copies are
    operations on the map, as long as an entry that is delivered as new is not
    pending for another consumer. *)

From S2P Require Import Prelude Text Types Keyspace Resp CommandArgs StreamIds StreamCommands StreamLogs.

(** ** Operations on abstract groups *)

Definition set_pel (m : gmap bytes PendingEntry) (b : Group) : Group := mkGroup (cursor b) m (names b).
Definition set_cursor (i : bytes) (b : Group) : Group := mkGroup i (pel b) (names b).

Definition g_new (raw : bytes) : Group := mkGroup raw ∅ ∅.

Definition g_join (c : bytes) (b : Group) : Group := mkGroup (cursor b) (pel b) ({[ c ]} ∪ names b).

(** What is pending for a consumer. *)
Definition owned_by (c : bytes) (m : gmap bytes PendingEntry) : gmap bytes PendingEntry := filter (fun p => consumer p.2 = c) m.

Definition g_leave (c : bytes) (b : Group) : Group :=
  mkGroup (cursor b) (filter (fun p => consumer p.2 <> c) (pel b)) (names b ∖ {[ c ]}).

Definition g_assign (c i : bytes) (time count : Z) (b : Group) : Group := set_pel (<[i := mkPendingEntry c time count]> (pel b)) b.

Definition g_forget (i : bytes) (b : Group) : Group := set_pel (delete i (pel b)) b.

(** The code's step that makes an id pending. *)
Definition assign (c i : bytes) (time count : Z) (g : ConsumerGroup) : ConsumerGroup :=
  let g := set_pending (<[i := mkPendingEntry c time count]> (pending g)) g in
  set_consumers (alter (list_id i) c (consumers g)) g.

Section Repr.
Context (name : bytes).
Implicit Types (g : ConsumerGroup) (b : Group) (c i : bytes) (x : Consumer) (m : gmap bytes PendingEntry).
#[local] Notation grepr := (group_repr name).

Lemma group_repr_new raw : grepr (ConsumerGroup_new name raw) (g_new raw).
Proof. split; simpl; try done. Qed.

Lemma set_cursor_repr g b i : grepr g b -> grepr (set_last_delivered i g) (set_cursor i b).
Proof. intros R. split; try apply R. done. Qed.

Lemma ensure_consumer_repr g b c : grepr g b -> grepr (ensure_consumer c g) (g_join c b).
Proof.
  intros R. unfold ensure_consumer. destruct (consumers g !! c) as [x|] eqn:Ex.
  - assert (Hc : c ∈ names b) by (rewrite <- (gr_names _ _ _ R); by apply elem_of_dom_2 in Ex).
    assert (E : g_join c b = b) by (unfold g_join; destruct b; simpl in *; f_equal; set_solver). by rewrite E.
  - split; try apply R; simpl.
    + rewrite dom_insert_L. by rewrite (gr_names _ _ _ R).
    + intros c' x. rewrite lookup_insert. case_decide as Hc; [|apply R]. intros [= <-]. subst c'. split_and!; [done|constructor|].
      intros i. split; [by intros ?%elem_of_nil|]. intros (p & Hp & Eo). apply (gr_owners _ _ _ R) in Hp as Hn.
      rewrite Eo, <- (gr_names _ _ _ R) in Hn. by apply not_elem_of_dom in Ex.
    + intros i p Hp. apply (gr_owners _ _ _ R) in Hp. set_solver.
Qed.

(** ** Lists of pending ids *)

Lemma lists_own_forget m c x i p : m !! i = Some p -> lists_own m c x ->
  lists_own (delete i m) c (if decide (c = consumer p) then set_pending_ids (filter (fun j => j <> i) (pending_ids x)) x else x).
Proof.
  intros Hp (Hn & Hd & Hl). case_decide as Hc; (split; [done|]).
  - split; [by apply NoDup_filter|]. intros j. cbn [set_pending_ids pending_ids]. rewrite list_elem_of_filter, Hl.
    split; [intros (Hj & q & Hq & Eq); exists q; by rewrite lookup_delete_ne|].
    intros (q & Hq & Eq). apply lookup_delete_Some in Hq as [Hj Hq]. split; [done|eauto].
  - split; [done|]. intros j. rewrite Hl. split; intros (q & Hq & Eq).
    + exists q. split; [|done]. apply lookup_delete_Some. split; [|done]. intros <-. naive_solver.
    + apply lookup_delete_Some in Hq as [_ Hq]. eauto.
Qed.

Lemma lists_own_assign m c x i p : (forall q, m !! i = Some q -> consumer q = consumer p) -> lists_own m c x ->
  lists_own (<[i := p]> m) c (if decide (c = consumer p) then list_id i x else x).
Proof.
  intros Ho (Hn & Hd & Hl). case_decide as Hc.
  - unfold list_id. case_bool_decide as Hi; (split; [done|]).
    + split; [done|]. intros j. rewrite Hl. destruct (decide (j = i)) as [->|Hj].
      * rewrite lookup_insert_eq. apply Hl in Hi as (q & Hq & Eq). split; intros _; eauto.
      * by rewrite lookup_insert_ne.
    + cbn [set_pending_ids pending_ids]. split.
      * apply NoDup_app. split_and!; [done| |apply NoDup_singleton]. by intros j Hj ->%list_elem_of_singleton.
      * intros j. rewrite elem_of_app, list_elem_of_singleton, Hl. destruct (decide (j = i)) as [->|Hj].
        -- rewrite lookup_insert_eq. split; [eauto|by right].
        -- rewrite lookup_insert_ne by done. naive_solver.
  - split; [done|]. split; [done|]. intros j. rewrite Hl. destruct (decide (j = i)) as [->|Hj].
    + rewrite lookup_insert_eq. split; [|naive_solver]. intros (q & Hq & Eq). specialize (Ho q Hq). congruence.
    + by rewrite lookup_insert_ne.
Qed.

Lemma forget_repr g b i p : grepr g b -> pel b !! i = Some p -> grepr (forget i p g) (g_forget i b).
Proof.
  intros R Hp. split; try apply R; simpl.
  - by rewrite (gr_pending _ _ _ R).
  - by rewrite dom_alter_L, (gr_names _ _ _ R).
  - intros c x Hx. rewrite lookup_alter in Hx. case_decide as Hc.
    + subst c. destruct (consumers g !! consumer p) as [y|] eqn:Ey; [|done]. injection Hx as <-.
      pose proof (lists_own_forget _ _ _ i p Hp (gr_lists _ _ _ R _ _ Ey)) as L. by rewrite decide_True in L.
    + pose proof (lists_own_forget _ _ _ i p Hp (gr_lists _ _ _ R _ _ Hx)) as L. by rewrite decide_False in L.
  - intros j q [_ Hq]%lookup_delete_Some. by eapply (gr_owners _ _ _ R).
Qed.

Lemma assign_repr g b c i time count : grepr g b -> c ∈ names b -> (forall q, pel b !! i = Some q -> consumer q = c) ->
  grepr (assign c i time count g) (g_assign c i time count b).
Proof.
  intros R Hc Ho. split; try apply R; simpl.
  - by rewrite (gr_pending _ _ _ R).
  - by rewrite dom_alter_L, (gr_names _ _ _ R).
  - intros c' x Hx. set (p := mkPendingEntry c time count). rewrite lookup_alter in Hx. case_decide as E.
    + subst c'. destruct (consumers g !! c) as [y|] eqn:Ey; [|done]. injection Hx as <-.
      pose proof (lists_own_assign _ c y i p Ho (gr_lists _ _ _ R _ _ Ey)) as L. by rewrite decide_True in L.
    + pose proof (lists_own_assign _ c' x i p Ho (gr_lists _ _ _ R _ _ Hx)) as L. by rewrite decide_False in L.
  - intros j q [[<- <-]|[_ Hq]]%lookup_insert_Some; [done|by eapply (gr_owners _ _ _ R)].
Qed.

(** The id goes from its owner, if it has one, to the consumer. *)
Lemma reassign_repr g b c i time count : grepr g b -> c ∈ names b ->
  grepr (reassign c i (pel b !! i) time count g) (g_assign c i time count b).
Proof.
  intros R Hc. destruct (pel b !! i) as [p|] eqn:Hp.
  - pose proof (assign_repr _ _ c i time count (forget_repr g b i p R Hp) Hc) as R'.
    simpl in R'. specialize (R' ltac:(intros q; by rewrite lookup_delete_eq)).
    assert (Eb : g_assign c i time count (g_forget i b) = g_assign c i time count b).
    { unfold g_assign, g_forget, set_pel. simpl. by rewrite insert_delete_eq. }
    assert (Eg : reassign c i (Some p) time count g = assign c i time count (forget i p g)).
    { unfold reassign, assign, forget, unlist, set_consumers, set_pending. simpl. by rewrite insert_delete_eq. }
    by rewrite Eg, <- Eb.
  - apply assign_repr; [done|done|]. intros q. by rewrite Hp.
Qed.

(** ** XGROUP DELCONSUMER and XACK *)

Lemma foldl_delete_lookup (ids : list bytes) m j : foldl (fun m i => delete i m) m ids !! j = if decide (j ∈ ids) then None else m !! j.
Proof.
  revert m. induction ids as [|i ids IH]; intros m; cbn [foldl]; [by rewrite decide_False by apply not_elem_of_nil|].
  rewrite IH. destruct (decide (j ∈ ids)); [by rewrite decide_True by (by right)|].
  destruct (decide (j = i)) as [->|Hj]; [rewrite decide_True by (by left); apply lookup_delete_eq|].
  rewrite decide_False by (intros [|]%elem_of_cons; done). by rewrite lookup_delete_ne.
Qed.

Lemma own_ids_size m c x : lists_own m c x -> length (pending_ids x) = size (owned_by c m).
Proof.
  intros (_ & Hd & Hl). rewrite <- size_dom, <- (size_list_to_set (C := gset bytes)) by done. f_equal.
  apply set_eq. intros i. rewrite elem_of_list_to_set, Hl, elem_of_dom. unfold is_Some, owned_by.
  setoid_rewrite map_lookup_filter_Some. naive_solver.
Qed.

Lemma delconsumer_repr g b c : grepr g b -> exists g', delconsumer_apply c g = (inr (int (Z.of_nat (size (owned_by c (pel b))))), g') /\ grepr g' (g_leave c b).
Proof.
  intros R. unfold delconsumer_apply. destruct (consumers g !! c) as [x|] eqn:Ex.
  - pose proof (gr_lists _ _ _ R _ _ Ex) as L. rewrite (own_ids_size _ _ _ L). eexists. split; [done|].
    assert (Ep : foldl (fun m i => delete i m) (pending g) (pending_ids x) = filter (fun p => consumer p.2 <> c) (pel b)).
    { rewrite (gr_pending _ _ _ R). apply map_eq. intros j. rewrite foldl_delete_lookup. destruct L as (_ & _ & L). case_decide as Hj.
      - apply L in Hj as (p & Hp & Eo). symmetry. apply map_lookup_filter_None. right. intros q Hq. simpl. naive_solver.
      - destruct (pel b !! j) as [p|] eqn:Hp; symmetry.
        + apply map_lookup_filter_Some. split; [done|]. simpl. intros Eo. apply Hj, L. eauto.
        + apply map_lookup_filter_None. by left. }
    split; try apply R; simpl; [done|by rewrite dom_delete_L, (gr_names _ _ _ R)| |].
    + intros c' y [Hc Hy]%lookup_delete_Some. destruct (gr_lists _ _ _ R _ _ Hy) as (Hn & Hd & Hl). split_and!; [done..|].
      intros j. rewrite Hl. setoid_rewrite map_lookup_filter_Some. simpl. naive_solver.
    + intros j p [Hp Ho]%map_lookup_filter_Some. apply (gr_owners _ _ _ R) in Hp. set_solver.
  - assert (Hc : c ∉ names b) by (rewrite <- (gr_names _ _ _ R); by apply not_elem_of_dom).
    assert (Ho : forall i p, pel b !! i = Some p -> consumer p <> c).
    { intros i p Hp <-. by apply (gr_owners _ _ _ R) in Hp. }
    assert (Ef : filter (fun p => consumer p.2 <> c) (pel b) = pel b) by (apply map_filter_id; eauto).
    assert (Ew : owned_by c (pel b) = ∅).
    { unfold owned_by. apply map_eq. intros j. rewrite lookup_empty. apply map_lookup_filter_None. right. intros p Hp. by eapply Ho. }
    exists g. rewrite Ew, map_size_empty. split; [done|]. assert (Eb : g_leave c b = b); [|by rewrite Eb].
    unfold g_leave. rewrite Ef. destruct b as [cu m ns]. simpl in *. f_equal. set_solver.
Qed.

(** The pending entries that are acknowledged, each once. *)
Definition g_ack (ids : list bytes) (b : Group) : Group := set_pel (foldl (fun m i => delete i m) (pel b) ids) b.

Lemma xack_loop_repr ids : forall n g b, grepr g b ->
  exists g', xack_loop ids n g = (n + (Z.of_nat (size (pel b)) - Z.of_nat (size (pel (g_ack ids b)))), g')%Z /\ grepr g' (g_ack ids b).
Proof.
  induction ids as [|i ids IH]; intros n g b R; cbn [xack_loop].
  - exists g. split; [f_equal; simpl; lia|by destruct b].
  - rewrite (gr_pending _ _ _ R). destruct (pel b !! i) as [p|] eqn:Hp.
    + pose proof (forget_repr g b i p R Hp) as R1. unfold forget in R1. rewrite (gr_pending _ _ _ R) in R1.
      destruct (IH (n + 1)%Z _ _ R1) as (g' & -> & R'). exists g'. split; [|exact R']. f_equal.
      cbn [g_ack set_pel pel g_forget foldl]. rewrite map_size_delete, Hp. assert (size (pel b) <> 0).
      { intros E. apply map_size_empty_iff in E. by rewrite E, lookup_empty in Hp. } lia.
    + assert (E : g_ack (i :: ids) b = g_ack ids b) by (unfold g_ack; simpl; by rewrite delete_id).
      rewrite E. destruct (IH n g b R) as (g' & -> & R'). by exists g'.
Qed.

(** ** XREADGROUP *)

(** Items after an id, or whose text is in a list, up to a count. *)
Definition items_after (i : StreamId) (count : option Z) (l : list Item) : list Item :=
  take_count count (filter (fun p : Item => id_lt i p.1) l).

(** The items from the history of a consumer. *)
Definition own_items (c : bytes) (from : StreamId) (count : option Z) (b : Group) (l : list Item) : list Item :=
  take_count count (filter (fun p : Item => id_lt from p.1 /\ to_wire p.1 ∈ dom (owned_by c (pel b))) l).

Definition out_items (c raw : bytes) (count : option Z) (b : Group) (l : list Item) : list Item :=
  if bool_decide (raw = bstr ">") then items_after (id_or_min (cursor b)) count l
  else own_items c (id_or_min raw) count b l.

(** The cursor goes to the last item that is delivered as new. *)
Definition g_advance (raw : bytes) (out : list Item) (b : Group) : Group :=
  if bool_decide (raw = bstr ">") then match last out with Some p => set_cursor (to_wire p.1) b | None => b end else b.

Definition g_record (now : Z) (c : bytes) (b : Group) (p : Item) : Group :=
  g_assign c (to_wire p.1) now (match pel b !! to_wire p.1 with Some q => wrap64 (delivery_count q + 1) | None => 1%Z end) b.

Definition g_read (now : Z) (c raw : bytes) (o : ReadOptions) (l : list Item) (b : Group) : list Item * Group :=
  let b := g_join c b in
  let out := out_items c raw (rcount o) b l in
  let b := g_advance raw out b in
  (out, if noack o then b else fold_left (g_record now c) out b).

(** Nothing that is delivered is pending for another consumer. *)
Definition undisputed (c : bytes) (out : list Item) (b : Group) : Prop :=
  Forall (fun p : Item => forall q, pel b !! to_wire p.1 = Some q -> consumer q = c) out.

Lemma filter_ext_in {A} (P Q : A -> Prop) `{forall y, Decision (P y)} `{forall y, Decision (Q y)} (l : list A) :
  (forall x : A, x ∈ l -> (P x <-> Q x)) -> filter P l = filter Q l.
Proof.
  induction l as [|x l IH]; intros E; [done|]. rewrite !filter_cons, IH by (intros; apply E; by right).
  specialize (E x ltac:(by left)). repeat case_decide; naive_solver.
Qed.

Lemma take_count_fmap {A B} (f : A -> B) count (l : list A) : take_count count (f <$> l) = f <$> take_count count l.
Proof. unfold take_count, take_usize. rewrite length_fmap. case_bool_decide; [done|by rewrite fmap_take]. Qed.

Lemma take_count_subset {A} count (l : list A) (x : A) : x ∈ take_count count l -> x ∈ l.
Proof.
  unfold take_count, take_usize. case_bool_decide; [done|]. intros Hx. rewrite <- (take_drop (Z.to_nat (default u64_max count)) l).
  apply elem_of_app. by left.
Qed.

Lemma record_repr now c out : forall g b, grepr g b -> c ∈ names b -> undisputed c out b ->
  grepr (fold_left (record_pending now c) (wire <$> out) g) (fold_left (g_record now c) out b).
Proof.
  induction out as [|p out IH]; intros g b R Hc Hu; [done|]. apply Forall_cons in Hu as [Hp Hu].
  rewrite fmap_cons. cbn [fold_left]. apply IH; [|done|].
  - change (record_pending now c g (wire p)) with (assign c (to_wire p.1) now
      (match pending g !! to_wire p.1 with Some q => wrap64 (delivery_count q + 1) | None => 1%Z end) g).
    rewrite (gr_pending _ _ _ R). by apply assign_repr.
  - eapply Forall_impl; [exact Hu|]. cbn beta. intros q Hq r. unfold g_record, g_assign, set_pel. cbn [pel].
    rewrite lookup_insert. case_decide; [by intros [= <-]|apply Hq].
Qed.

Lemma to_deliver_repr c raw count l g b : grepr g b -> Forall (fun p : Item => u64_id p.1) l -> c ∈ names b ->
  exists g', to_deliver c raw count (wire <$> l) g = (wire <$> out_items c raw count b l, g') /\
    grepr g' (g_advance raw (out_items c raw count b l) b).
Proof.
  intros R Hu Hc. unfold to_deliver, out_items, g_advance. case_bool_decide as Hr.
  - rewrite (gr_cursor _ _ _ R), (filter_wire _ (fun p : Item => id_lt (id_or_min (cursor b)) p.1)), take_count_fmap.
    2: { intros p Hp. rewrite after_wire; [done|]. rewrite Forall_forall in Hu. by apply Hu. }
    eexists. split; [done|]. fold (items_after (id_or_min (cursor b)) count l). rewrite fmap_last.
    destruct (last (items_after _ _ _)) as [p|]; simpl; [by apply set_cursor_repr|done].
  - exists g. split; [|done]. f_equal. unfold own_items. rewrite <- take_count_fmap. f_equal. rewrite list_filter_fmap. f_equal.
    apply filter_ext_in. intros p Hp. cbn [wire id fst]. rewrite Forall_forall in Hu.
    rewrite <- (gr_names _ _ _ R) in Hc. apply elem_of_dom in Hc as [x Ex]. rewrite Ex.
    destruct (gr_lists _ _ _ R _ _ Ex) as (_ & _ & Hl). rewrite list_elem_of_filter, Hl. unfold beyond. rewrite parse_to_wire by auto.
    rewrite bool_decide_spec. unfold owned_by. rewrite elem_of_dom. unfold is_Some. setoid_rewrite map_lookup_filter_Some. naive_solver.
Qed.

(** XREADGROUP delivers, moves the cursor and records what it delivered. *)
Lemma readgroup_repr now c raw o l g b : grepr g b -> Forall (fun p : Item => u64_id p.1) l ->
  (noack o = false -> undisputed c (g_read now c raw o l b).1 b) ->
  exists g', readgroup_apply now c raw o (wire <$> l) g = (inr (wire <$> (g_read now c raw o l b).1), g') /\
    grepr g' (g_read now c raw o l b).2.
Proof.
  intros R Hu Hn. pose proof (ensure_consumer_repr g b c R) as R1. assert (Hc : c ∈ names (g_join c b)) by (simpl; set_solver).
  unfold readgroup_apply. destruct (to_deliver_repr c raw (rcount o) l _ _ R1 Hu Hc) as (g' & -> & R2).
  eexists. split; [done|]. unfold g_read in *. cbn [fst snd] in *. destruct (noack o); [done|]. apply record_repr; [done| |].
  - unfold g_advance. repeat case_match; done.
  - specialize (Hn eq_refl). unfold undisputed in *. unfold g_advance. repeat case_match; done.
Qed.

(** ** XCLAIM and XAUTOCLAIM *)

Definition has_id (l : list Item) (i : bytes) : bool := bool_decide (i ∈ (to_wire ∘ fst) <$> l).

(** The times and the count of a claim. *)
Definition claim_time (now : Z) (o : ClaimOptions) : Z :=
  match set_time o, set_idle o with Some t, _ => t | None, Some n => saturating_sub now n | None, None => now end.

Definition claim_count (o : ClaimOptions) (old : option PendingEntry) : Z :=
  match set_retry o, old with
  | Some r, _ => r
  | None, Some p => if justid o then delivery_count p else wrap64 (delivery_count p + 1)
  | None, None => if justid o then 0 else 1
  end%Z.

(** An entry that is there changes hands when it is pending for long enough, or by
    force; one that is gone is forgotten. *)
Definition g_claim_one (now min_idle : Z) (c : bytes) (o : ClaimOptions) (l : list Item) (i : bytes) (b : Group) : bool * Group :=
  let old := pel b !! i in
  if has_id l i then
    if match old with Some p => bool_decide (min_idle <= saturating_sub now (delivery_time_ms p))%Z | None => force o end
    then (true, g_assign c i (claim_time now o) (claim_count o old) b)
    else (false, b)
  else (false, g_forget i b).

Fixpoint g_claim (now min_idle : Z) (c : bytes) (o : ClaimOptions) (l : list Item) (ids : list bytes) (b : Group) : list bytes * Group :=
  match ids with
  | [] => ([], b)
  | i :: ids =>
      let '(taken, b) := g_claim_one now min_idle c o l i b in
      let '(out, b) := g_claim now min_idle c o l ids b in
      (if (taken : bool) then i :: out else out, b)
  end.

Lemma exists_id_wire l i : exists_id (wire <$> l) i = has_id l i.
Proof.
  unfold exists_id, has_id. apply eq_true_iff_eq. rewrite existsb_exists, bool_decide_eq_true, list_elem_of_fmap. split.
  - intros (e & He & E). apply bool_decide_eq_true in E. apply list_elem_of_In, list_elem_of_fmap in He as (p & -> & Hp). by exists p.
  - intros (p & -> & Hp). exists (wire p). split; [|by apply bool_decide_eq_true]. apply list_elem_of_In. by apply list_elem_of_fmap_2.
Qed.

(** The reply of a claim: the ids, or their entries. *)
Definition claim_reply (just : bool) (l : list Item) (ids : list bytes) : list Resp :=
  concat (map (claimed_reply just (wire <$> l)) ids).

Lemma claim_one_repr now min_idle c o l i g b : grepr g b -> c ∈ names b ->
  exists g', claim_one now min_idle c o (wire <$> l) i g
      = (if (g_claim_one now min_idle c o l i b).1 then claimed_reply (justid o) (wire <$> l) i else [], g') /\
    grepr g' (g_claim_one now min_idle c o l i b).2.
Proof.
  intros R Hc. unfold claim_one, g_claim_one. rewrite exists_id_wire, (gr_pending _ _ _ R).
  pose proof (reassign_repr g b c i (claim_time now o) (claim_count o (pel b !! i)) R Hc) as Ra.
  destruct (pel b !! i) as [p|] eqn:Hp; destruct (has_id l i).
  - destruct (decide (min_idle <= saturating_sub now (delivery_time_ms p))%Z) as [D|D].
    + rewrite bool_decide_eq_false_2 by lia. rewrite bool_decide_eq_true_2 by done. eexists. split; [done|]. exact Ra.
    + rewrite bool_decide_eq_true_2 by lia. rewrite bool_decide_eq_false_2 by done. eexists. by split.
  - eexists. split; [done|]. by apply forget_repr.
  - destruct (force o); eexists; (split; [done|]); [exact Ra|done].
  - exists g. split; [done|]. assert (E : g_forget i b = b); [|by rewrite E]. unfold g_forget, set_pel. rewrite delete_id by done. by destruct b.
Qed.

Lemma g_claim_one_names now min_idle c o l i b : names (g_claim_one now min_idle c o l i b).2 = names b.
Proof. unfold g_claim_one. repeat case_match; done. Qed.

Lemma claim_loop_repr now min_idle c o l ids : forall claimed g b, grepr g b -> c ∈ names b ->
  exists g', claim_loop now min_idle c o (wire <$> l) ids claimed g
      = (claimed ++ claim_reply (justid o) l (g_claim now min_idle c o l ids b).1, g') /\
    grepr g' (g_claim now min_idle c o l ids b).2.
Proof.
  induction ids as [|i ids IH]; intros claimed g b R Hc; cbn [claim_loop g_claim].
  - exists g. by rewrite app_nil_r.
  - destruct (claim_one_repr now min_idle c o l i g b R Hc) as (g1 & -> & R1).
    pose proof (g_claim_one_names now min_idle c o l i b) as Hn. destruct (g_claim_one _ _ _ _ _ _ _) as [taken b1]. simpl in *.
    rewrite <- Hn in Hc. destruct (IH (claimed ++ if taken then claimed_reply (justid o) (wire <$> l) i else []) g1 b1 R1 Hc) as (g' & -> & R').
    destruct (g_claim _ _ _ _ _ _ _) as [out b']. simpl in *. exists g'. split; [|done]. f_equal.
    destruct taken; unfold claim_reply; simpl; by rewrite <- ?app_assoc, ?app_nil_r.
Qed.

(** An entry that is still there and idle for long enough. *)
Definition claimable (now min_idle : Z) (l : list Item) (m : gmap bytes PendingEntry) (i : bytes) : bool :=
  has_id l i && match m !! i with Some p => bool_decide (min_idle <= saturating_sub now (delivery_time_ms p))%Z | None => false end.

Definition auto_count (just : bool) (old : option PendingEntry) : Z :=
  match old with Some p => if just then delivery_count p else wrap64 (delivery_count p + 1) | None => 0 end%Z.

(** One id of the sweep: claimed, left alone, or forgotten with its entry. *)
Definition auto_step (now min_idle : Z) (c : bytes) (just : bool) (l : list Item) (b : Group) (i : bytes) : Group :=
  if claimable now min_idle l (pel b) i then g_assign c i now (auto_count just (pel b !! i)) b
  else if has_id l i then b else g_forget i b.

(** The sweep over ids until [n] are claimed: what is left, claimed and deleted. *)
Fixpoint g_autoclaim (now min_idle : Z) (c : bytes) (just : bool) (l : list Item) (n : Z) (ids : list bytes) (b : Group) :
    list bytes * list bytes * list bytes * Group :=
  match ids with
  | [] => ([], [], [], b)
  | i :: ids' =>
      if bool_decide (n <= 0)%Z then (ids, [], [], b)
      else
        let ok := claimable now min_idle l (pel b) i in
        let '(rest, taken, lost, b) :=
          g_autoclaim now min_idle c just l (if ok then n - 1 else n)%Z ids' (auto_step now min_idle c just l b i) in
        (rest, if ok then i :: taken else taken, if has_id l i then lost else i :: lost, b)
  end.

Lemma claimed_reply_one just l i : has_id l i = true -> exists r, claimed_reply just (wire <$> l) i = [r].
Proof.
  intros Hi. unfold claimed_reply. destruct just; [by eexists|]. unfold entry_by_id.
  destruct (last (filter (fun e => id e = i) (wire <$> l))) as [e|] eqn:E; [by eexists|].
  apply last_None in E. unfold has_id in Hi. apply bool_decide_eq_true, list_elem_of_fmap in Hi as (p & -> & Hp).
  assert (Hw : wire p ∈ filter (fun e => id e = to_wire p.1) (wire <$> l)).
  { apply list_elem_of_filter. split; [done|]. by apply list_elem_of_fmap_2. }
  change ((to_wire ∘ fst) p) with (to_wire p.1) in E. rewrite E in Hw. by apply elem_of_nil in Hw.
Qed.

Lemma auto_step_other now min_idle c just l b i j : j <> i -> pel (auto_step now min_idle c just l b i) !! j = pel b !! j.
Proof.
  intros Hj. unfold auto_step. destruct (claimable _ _ _ _ _); [|destruct (has_id l i); [done|]]; simpl;
    [by rewrite lookup_insert_ne|by rewrite lookup_delete_ne].
Qed.

Lemma auto_step_names now min_idle c just l b i : names (auto_step now min_idle c just l b i) = names b.
Proof. unfold auto_step. destruct (claimable _ _ _ _ _); [done|]. by destruct (has_id l i). Qed.

Lemma app_one {A} (l k : list A) (x : A) : (l ++ [x]) ++ k = l ++ x :: k.
Proof. by rewrite <- app_assoc. Qed.

Lemma autoclaim_loop_repr now min_idle c o l ids : forall claimed deleted g b, grepr g b -> c ∈ names b -> NoDup ids ->
  Forall (fun i => is_Some (pel b !! i)) ids ->
  let '(rest, taken, lost, b') := g_autoclaim now min_idle c (ajustid o) l (acount o - Z.of_nat (length claimed)) ids b in
  exists g', autoclaim_loop now min_idle c o (wire <$> l) ids claimed deleted g
      = (default (to_wire id_MIN) (head rest), claimed ++ claim_reply (ajustid o) l taken, deleted ++ (bulk_str <$> lost), g') /\ grepr g' b'.
Proof.
  induction ids as [|i ids IH]; intros claimed deleted g b R Hc Hd Hp; cbn [g_autoclaim autoclaim_loop].
  { exists g. unfold claim_reply. simpl. by rewrite !app_nil_r. }
  apply NoDup_cons in Hd as [Hi Hd]. apply Forall_cons in Hp as [[p Hpi] Hp].
  destruct (decide (acount o <= Z.of_nat (length claimed))%Z) as [D|D].
  { rewrite !bool_decide_eq_true_2 by lia. exists g. unfold claim_reply. simpl. by rewrite !app_nil_r. }
  rewrite !bool_decide_eq_false_2 by lia. rewrite (gr_pending _ _ _ R), Hpi, exists_id_wire.
  assert (Hp1 : Forall (fun j => is_Some (pel (auto_step now min_idle c (ajustid o) l b i) !! j)) ids).
  { rewrite Forall_forall in *. intros j Hj. rewrite auto_step_other by (by intros ->). by apply Hp. }
  assert (Hc1 : c ∈ names (auto_step now min_idle c (ajustid o) l b i)) by (by rewrite auto_step_names).
  assert (Hs : auto_step now min_idle c (ajustid o) l b i = if claimable now min_idle l (pel b) i
    then g_assign c i now (auto_count (ajustid o) (Some p)) b else if has_id l i then b else g_forget i b) by (unfold auto_step; by rewrite Hpi).
  assert (Hk : claimable now min_idle l (pel b) i = has_id l i && bool_decide (min_idle <= saturating_sub now (delivery_time_ms p))%Z)
    by (unfold claimable; by rewrite Hpi). rewrite Hk in *.
  destruct (has_id l i) eqn:Ei; cbn [negb andb] in *; [destruct (decide (min_idle <= saturating_sub now (delivery_time_ms p))%Z) as [D'|D']|].
  - rewrite bool_decide_eq_true_2 in * by done. rewrite bool_decide_eq_false_2 by lia.
    pose proof (reassign_repr g b c i now (auto_count (ajustid o) (Some p)) R Hc) as R1. rewrite Hpi, <- Hs in R1.
    destruct (claimed_reply_one (ajustid o) l i Ei) as [r Er].
    specialize (IH (claimed ++ claimed_reply (ajustid o) (wire <$> l) i) deleted _ _ R1 Hc1 Hd Hp1).
    replace (acount o - Z.of_nat (length (claimed ++ claimed_reply (ajustid o) (wire <$> l) i)))%Z
      with (acount o - Z.of_nat (length claimed) - 1)%Z in IH by (rewrite Er, length_app; simpl; lia).
    destruct (g_autoclaim _ _ _ _ _ _ _ _) as [[[rest taken] lost] b']. destruct IH as (g' & E & R'). exists g'. split; [|done].
    etrans; [exact E|]. unfold claim_reply. simpl. by rewrite Er, app_one.
  - rewrite bool_decide_eq_false_2 in * by done. rewrite bool_decide_eq_true_2 by lia. rewrite Hs in *.
    specialize (IH claimed deleted g b R Hc Hd Hp). by destruct (g_autoclaim _ _ _ _ _ _ _ _) as [[[rest taken] lost] b'].
  - pose proof (forget_repr g b i p R Hpi) as R1. rewrite <- Hs in R1. specialize (IH claimed (deleted ++ [bulk_str i]) _ _ R1 Hc1 Hd Hp1).
    destruct (g_autoclaim _ _ _ _ _ _ _ _) as [[[rest taken] lost] b']. destruct IH as (g' & E & R'). exists g'. split; [|done].
    etrans; [exact E|]. by rewrite app_one.
Qed.
End Repr.
