(* ===== verification/StreamSpec.v ===== *)
(** * StreamSpec: the stream commands on logs and groups

    A cell of the keyspace holds an abstract stream ([StreamLogs]), a value of
    another type, or nothing.  The arguments of a command are a request or an
    error; the handlers of [StreamCommands] answer and act as the request does on
    the cell of its key. *)

From S2P Require Import Prelude Text Types Keyspace KeyspaceInvariant KeyspaceSpec.
From S2P Require Import Shards ShardsSpec ShardsMoves Resp CommandArgs ValueCells.
From S2P Require Import StreamIds StreamCommands StreamLogs StreamGroups.
From S2P Require SetData.

Import ShardedDatabase.

#[local] Arguments Database.remove : simpl never.
#[local] Arguments Database.adjust_live_bytes : simpl never.
#[local] Arguments Database.get : simpl never.
#[local] Arguments Database.get_mut : simpl never.
#[local] Arguments Database.insert : simpl never.

Section Steps.
Context `{SetData.IndexSet}.
Implicit Types (now : Z) (s : StreamData) (a : Stream) (d : Database.t) (k : bytes) (e : Entry.t).

Definition stream_kind : Kind StreamData Stream :=
  mkKind _ _ _ TStream (fun v => match v with TStream s => Some s | _ => None end) StreamData_new stream_repr no_stream stream_bytes.

#[export] Instance stream_kind_laws : KindLaws stream_kind.
Proof.
  split; try done; simpl.
  - intros x v Hx. destruct x; try done. by injection Hx as ->.
  - apply stream_repr_new.
  - intros v a R. by apply stream_repr_size.
Qed.

#[local] Notation Cell := (option (Content Stream * option Z)).
#[local] Notation stream_of := (contents stream_kind).
#[local] Notation sees now := (sees stream_kind now).

(** ** Steps *)

(** A stream is written through the reference and counted. *)
Lemma put_step now d d1 k e s a s' a' x : dstep d d1 k (Some e) -> Entry.is_expired now e = false ->
  Expiry.expires_at_ms <$> Entry.expiry e = x -> Entry.value e = TStream s -> stream_repr s a -> stream_repr s' a' ->
  (Z.of_nat (total_bytes d1) + (Z.of_nat (stream_bytes a') - Z.of_nat (stream_bytes a)) < 2 ^ 64)%Z ->
  exists o, dstep d (Database.adjust_live_bytes (Z.of_nat (stream_bytes a') - Z.of_nat (stream_bytes a)) (put_stream k e s' d1)) k o /\
    sees now o (Some (Own a', x)).
Proof.
  intros D1 X Ex Ev R R' F. exists (Some (Entry.set_value (TStream s') e)). split.
  - eapply dstep_trans; [exact D1|]. eapply modify_step; [apply D1|by eapply dstep_slot|done| |done].
    rewrite (own_size stream_kind k e s a Ev R), (own_size stream_kind k (Entry.set_value (TStream s') e) s' a' eq_refl R'). simpl. lia.
  - subst x. apply (sees_entry stream_kind now (Entry.set_value (TStream s') e) (Own a') X). by exists a'.
Qed.

(** [get_mut(key)] and a change that does not make the stream bigger. *)
Lemma mut_step {A} now k (none : Result A) (f : StreamData -> Result A * StreamData) (delta : Result A -> Z) (P : Stream -> Result A -> Stream -> Prop) d (cell : Cell) :
  wf d -> sees now (Database.entries d !! k) cell -> delta none = 0%Z -> delta (inl WrongType) = 0%Z ->
  (forall s a, stream_repr s a -> (exists x, cell = Some (Own a, x)) ->
     exists r s' a', f s = (r, s') /\ stream_repr s' a' /\ stream_bytes a' <= stream_bytes a /\
     delta r = (Z.of_nat (stream_bytes a') - Z.of_nat (stream_bytes a))%Z /\ P a r a') ->
  exists r d1 o cell', with_stream_mut now k none f d = (r, d1) /\ dstep d (Database.adjust_live_bytes (delta r) d1) k o /\ sees now o cell' /\
    match cell with
    | None => r = none /\ cell' = None
    | Some (Own a, x) => exists a', P a r a' /\ cell' = Some (Own a', x)
    | Some (Foreign _, _) => r = inl WrongType /\ cell' = cell
    end.
Proof.
  intros W S Dn Dw Hf. destruct (get_mut_step now k d W) as [D1 E1]. unfold with_stream_mut.
  destruct (Database.get_mut now k d) as [found d1]. simpl in D1, E1. subst found. destruct (live now (Database.entries d !! k)) as [e|] eqn:L.
  - destruct (live_cases stream_kind now _ e cell L S) as (Hc & Ex & X & Se). simpl in Hc.
    destruct (Entry.value e) as [| | | | | | | |s|] eqn:Ev; cycle 8.
    { destruct Hc as (a & _ & _ & R & Ec). destruct (Hf s a R (ex_intro _ _ Ec)) as (r & s' & a' & Ef & R' & Hb & Hd & HP). rewrite Ef.
      pose proof (wf_fits _ (proj1 D1)) as Fit.
      destruct (put_step now d d1 k e s a s' a' _ D1 X Ex Ev R R' ltac:(lia)) as (o & D2 & So). rewrite <- Hd in D2.
      exists r, (put_stream k e s' d1), o, (Some (Own a', cell ≫= snd)). split_and!; [done..|]. rewrite Ec. by exists a'. }
    all: destruct cell as [[[a|u] x]|]; try done; exists (inl WrongType), d1, (Some e), (Some (Foreign u, x)); rewrite Dw; by split_and!.
  - rewrite (sees_none stream_kind now _ cell L S). exists none, d1, None, None. rewrite Dn. by split_and!.
Qed.

(** [get(key)] and a look at the stream. *)
Lemma look_step {A} now k (none : Result A) (f : StreamData -> Result A) d (cell : Cell) :
  wf d -> sees now (Database.entries d !! k) cell ->
  exists r d1 o, with_stream now k none f d = (r, d1) /\ dstep d d1 k o /\ sees now o cell /\
    match cell with
    | None => r = none
    | Some (Own a, _) => exists s, stream_repr s a /\ r = f s
    | Some (Foreign _, _) => r = inl WrongType
    end.
Proof.
  intros W S. destruct (get_on_shard now k d W) as (W1 & St & Hv & Hx & _). unfold with_stream.
  destruct (Database.get now k d) as [found d1]. simpl in *. pose proof (sees_seen stream_kind now _ found cell Hx S) as S1.
  destruct found as [e|].
  - eexists _, d1, (Some e). split; [done|]. split; [done|]. split; [done|]. unfold ValueCells.sees in S1. destruct (live now (Some e)) as [e'|] eqn:L.
    + assert (e' = e) as -> by (unfold live in L; simpl in L; destruct (Entry.is_expired now e); congruence).
      destruct S1 as (y & -> & Hy). unfold holds in Hy. simpl in Hy.
      destruct (Entry.value e) as [| | | | | | | |s|]; cycle 8; [destruct Hy as (a & -> & R); eauto|by subst y..].
    + exfalso. unfold live in L. simpl in L. destruct (Entry.is_expired now e) eqn:X; [|done]. rewrite <- Hx in Hv. unfold seen in Hv. simpl in Hv. by rewrite X in Hv.
  - exists none, d1, None. split; [done|]. split; [done|]. rewrite (sees_none stream_kind now None cell eq_refl S1). by split.
Qed.

Lemma sees_own_repr now o a x : sees now o (Some (Own a, x)) -> exists s, stream_repr s a.
Proof.
  unfold ValueCells.sees. destruct (live now o) as [e|]; [|done]. intros (y & [= <- _] & Hy). unfold holds in Hy. simpl in Hy.
  destruct (Entry.value e) as [| | | | | | | |s|]; try done. destruct Hy as (? & [= <-] & R). eauto.
Qed.

Lemma get_stream_mut_open now k d : get_stream_mut now k d = get_or_insert_mut stream_kind now k d.
Proof.
  unfold get_stream_mut, get_or_insert_mut. destruct (Database.get now k d) as [found d1].
  change (fresh_entry stream_kind) with (Entry.new (TStream StreamData_new)).
  set (d2 := match found with None => _ | Some _ => d1 end). clearbody d2.
  destruct (Database.get_mut now k d2) as [[e|] d3]; [|done]. simpl. by destruct (Entry.value e).
Qed.

(** ** XADD *)

(** What XADD knows of the last id. *)
Definition last_of (cell : Cell) : option StreamId :=
  match cell with Some (Own a, _) => Some (top a) | _ => None end.

Lemma plan_spec now (c : XaddCall) (s : t) (cell : Cell) : swf s -> sees now (slot s (xkey c)) cell ->
  xadd_plan now c s = Some (if nomkstream (xopts c) && bool_decide (cell = None) then inr None
    else let! i := xadd_id now (xid c) (last_of cell) in inr (Some i)).
Proof.
  intros W S. unfold xadd_plan. rewrite read_live by done. unfold ValueCells.sees in S.
  destruct (live now (slot s (xkey c))) as [e|].
  2: { subst cell. rewrite !bool_decide_eq_true_2 by done. by destruct (nomkstream (xopts c)). }
  destruct S as (y & -> & Hy). rewrite !(bool_decide_eq_false_2 (Some _ = None)) by done. rewrite !andb_false_r. do 2 f_equal. f_equal.
  unfold holds in Hy. simpl in Hy. destruct (Entry.value e); try by subst y. destruct Hy as (a & -> & R). by apply last_parsed_top.
Qed.

Lemma commit_serves now (c : XaddCall) i d (cell : Cell) : wf d -> sees now (Database.entries d !! xkey c) cell ->
  u64_id i -> (forall a, stream_of cell = Some a -> Forall (fun p : Item => id_lt p.1 i) (log a)) ->
  (forall m, maxlen (xopts c) = Some m -> (0 <= m)%Z) ->
  (Z.of_nat (total_bytes d + (64 + length (xkey c) +
     from_option (fun a => stream_bytes (append (xopts c) i (xfields c) a)) O (stream_of cell))) < 2 ^ 64)%Z ->
  exists r d' o cell', xadd_commit now c i d = Some (r, d') /\ dstep d d' (xkey c) o /\ sees now o cell' /\
    match stream_of cell with
    | Some a => r = inr (bulk_str (to_wire i)) /\ cell' = Some (Own (append (xopts c) i (xfields c) a), cell ≫= snd)
    | None => r = inl WrongType /\ cell' = cell
    end.
Proof.
  intros W S Hi Hl Hm F. destruct (get_or_insert_mut_step stream_kind now (xkey c) d cell W S ltac:(lia)) as (r & e & d1 & E & D1 & X & Ex & M).
  unfold xadd_commit. rewrite get_stream_mut_open, E. mstep. destruct (stream_of cell) as [a|] eqn:Ea.
  - destruct M as (s & -> & Ev & R). cbn [try_at].
    destruct (xadd_apply_repr (xopts c) s a i (xfields c) R Hi (Hl a eq_refl) Hm) as (s' & Ep & R').
    change (wire (i, xfields c)) with (mkStreamEntry (to_wire i) (xfields c)) in Ep. rewrite Ep. simpl in F.
    pose proof (dstep_total _ _ _ _ D1) as T. simpl in T. rewrite (own_size stream_kind (xkey c) e s a Ev R) in T. simpl in T.
    destruct (put_step now d d1 (xkey c) e s a s' _ _ D1 X Ex Ev R R' ltac:(lia)) as (o & D2 & So).
    eexists _, _, o, _. split_and!; [done|exact D2|exact So|done|done].
  - destruct M as [-> Se]. cbn [try_at]. eexists _, d1, (Some e), cell. by split_and!.
Qed.

(** ** Commands on one key *)

#[local] Notation Post := (Cell -> Result Resp -> Cell -> Prop).

#[local] Notation fulfils := (fulfils stream_kind).

(** What a change of the stream is to the cell. *)
Definition on_own (none : Result Resp) (P : Stream -> Result Resp -> Stream -> Prop) : Post := fun cell r cell' =>
  match cell with
  | None => r = none /\ cell' = None
  | Some (Own a, x) => exists a', P a r a' /\ cell' = Some (Own a', x)
  | Some (Foreign _, _) => r = inl WrongType /\ cell' = cell
  end.

Lemma mut_fulfils now k ready need none f P : (forall s a, stream_repr s a -> exists r s' a',
    f s = (r, s') /\ stream_repr s' a' /\ stream_bytes a' = stream_bytes a /\ P a r a') ->
  fulfils now k ready need (on_own none P) (fun s : t => on_shard (shard_idx s k) (fun d => Some (with_stream_mut now k none f d)) s).
Proof.
  intros Hf. apply on_shard_fulfils. intros d cell W S _ _.
  destruct (mut_step now k none f (fun _ => 0%Z) P d cell W S eq_refl eq_refl) as (r & d1 & o & cell' & -> & D & So & Hp).
  { intros s a R _. destruct (Hf s a R) as (r & s' & a' & E & R' & B & HP). exists r, s', a'. split_and!; [done..| | |done]; lia. }
  by exists r, d1, o, cell'.
Qed.

Definition delta_of (r : Result (Resp * Z)) : Z := match r with inr (_, n) => n | inl _ => 0 end.
Definition reply_of (r : Result (Resp * Z)) : Result Resp := match r with inr (r, _) => inr r | inl e => inl e end.

Lemma counted_fulfils now k ready need n f P : (forall s a, stream_repr s a -> exists r s' a',
    f s = (r, s') /\ stream_repr s' a' /\ stream_bytes a' <= stream_bytes a /\
    delta_of r = (Z.of_nat (stream_bytes a') - Z.of_nat (stream_bytes a))%Z /\ P a (reply_of r) a') ->
  fulfils now k ready need (on_own (inr n) P)
    (fun s : t => on_shard (shard_idx s k) (counted k (with_stream_mut now k (inr (n, 0%Z)) f)) s).
Proof.
  intros Hf. apply on_shard_fulfils. intros d cell W S _ _.
  destruct (mut_step now k (inr (n, 0%Z)) f delta_of (fun a r a' => P a (reply_of r) a') d cell W S eq_refl eq_refl (fun s a R _ => Hf s a R))
    as (r & d1 & o & cell' & E & D & So & Hp).
  exists (reply_of r), (Database.adjust_live_bytes (delta_of r) d1), o, cell'. unfold counted. rewrite E. split_and!; [by destruct r as [|[]]| |done|done].
  destruct cell as [[[a|u] x]|]; [done|destruct Hp as [-> ->]; done|destruct Hp as [-> ->]; done].
Qed.

(** What a look at the stream is to the cell. *)
Definition look_at (none : Result Resp) (P : Stream -> Result Resp -> Prop) : Post := fun cell r cell' =>
  match cell with
  | None => r = none
  | Some (Own a, _) => P a r
  | Some (Foreign _, _) => r = inl WrongType
  end /\ cell' = cell.

Lemma look_fulfils now k ready need none f (P : Stream -> Result Resp -> Prop) : (forall s a, stream_repr s a -> P a (f s)) ->
  fulfils now k ready need (look_at none P) (fun s : t => on_shard (shard_idx s k) (fun d => Some (with_stream now k none f d)) s).
Proof.
  intros Hf. apply on_shard_fulfils. intros d cell W S _ _.
  destruct (look_step now k none f d cell W S) as (r & d1 & o & -> & D & So & Hr). exists r, d1, o, cell. split_and!; [done| |done|done].
  split; [|done]. destruct cell as [[[a|u] x]|]; [|done|done]. destruct Hr as (s & R & ->). by apply Hf.
Qed.

End Steps.

(** * The log *)

Inductive LogCommand := XADD | XSETID | XLEN | XRANGE | XREVRANGE | XTRIM | XDEL.

Inductive LogRequest :=
  | QAdd (o : XaddOptions) (spec : bytes) (fs : list (bytes * bytes))
  | QSetId (i : StreamId) (n : option Z)
  | QLen
  | QRange (lo hi : StreamId) (count : option Z) (reversed : bool)
  | QTrim (max : option Z) (min : option StreamId)
  | QDel (ids : list bytes).

Section LogSpec.
Context `{SetData.IndexSet} `{UnicodeCase}.
Implicit Types (now : Z) (s : t) (a : Stream) (k : bytes) (args : list Resp).

#[local] Notation Cell := (option (Content Stream * option Z)).
#[local] Notation sees now := (sees stream_kind now).

Definition exec_log now (c : LogCommand) args s : may_panic (Result Resp * t) :=
  match c with
  | XADD => cmd_xadd now args s
  | XSETID => cmd_xsetid now args s
  | XLEN => cmd_xlen now args s
  | XRANGE => cmd_xrange now args s
  | XREVRANGE => cmd_xrevrange now args s
  | XTRIM => cmd_xtrim now args s
  | XDEL => cmd_xdel now args s
  end.

(** The key and the request of the arguments, or their error. *)
Definition range_request (name : string) (lo hi : nat) (reversed : bool) args : Result (bytes * LogRequest) :=
  if bool_decide (length args < 4) then inl (wrong_arity name)
  else
    let! key := get_bytes_vec args 1 name in
    let! _ := get_str args 2 name in
    let! _ := get_str args 3 name in
    let! count := range_count args name in
    let! lo := get_str args lo name in
    let! lo := parse_id_bound lo true false in
    let! hi := get_str args hi name in
    let! hi := parse_id_bound hi false false in
    inr (key, QRange lo hi count reversed).

Definition log_request (c : LogCommand) args : Result (bytes * LogRequest) :=
  match c with
  | XADD => let! c := xadd_call args in inr (xkey c, QAdd (xopts c) (xid c) (xfields c))
  | XSETID =>
      if bool_decide (length args < 3) then inl (wrong_arity "XSETID")
      else
        let! key := get_bytes_vec args 1 "XSETID" in
        let! raw := get_str args 2 "XSETID" in
        let! i := ok_or (parse_id raw) invalid_stream_id in
        let! n := xsetid_options (drop 3 args) None in
        inr (key, QSetId i n)
  | XLEN =>
      if bool_decide (length args <> 2) then inl (wrong_arity "XLEN")
      else let! key := get_bytes_vec args 1 "XLEN" in inr (key, QLen)
  | XRANGE => range_request "XRANGE" 2 3 false args
  | XREVRANGE => range_request "XREVRANGE" 3 2 true args
  | XTRIM => let! (key, max, min) := xtrim_args args in inr (key, QTrim max min)
  | XDEL =>
      if bool_decide (length args < 3) then inl (wrong_arity "XDEL")
      else let! key := get_bytes_vec args 1 "XDEL" in inr (key, QDel (del_ids (drop 2 args)))
  end.

(** The items of a range: a count keeps the oldest ones, in both directions. *)
Definition range_items (lo hi : StreamId) (count : option Z) (reversed : bool) (l : list Item) : list Item :=
  let l := take_count count (filter (fun p : Item => id_le lo p.1 /\ id_le p.1 hi) l) in
  if reversed then rev l else l.

Definition item_reply (p : Item) : Resp := format_stream_entry (wire p).

Definition removed_count (l l' : list Item) : Resp := int (Z.of_nat (length l) - Z.of_nat (length l')).

(** A request on a stream. *)
Definition log_own now (q : LogRequest) a (r : Result Resp) (a' : Stream) : Prop :=
  match q with
  | QAdd o spec fs =>
      match xadd_id now spec (Some (top a)) with
      | inl e => r = inl e /\ a' = a
      | inr i => r = inr (bulk_str (to_wire i)) /\ a' = append o i fs a
      end
  | QSetId i n =>
      if bool_decide (id_lt i (top a)) then (exists e, r = inl (Generic e)) /\ a' = a
      else r = inr ok /\ a' = set_added (default (added a) n) (set_top i a)
  | QLen => r = inr (int (Z.of_nat (length (log a)))) /\ a' = a
  | QRange lo hi count reversed => r = inr (array (map item_reply (range_items lo hi count reversed (log a)))) /\ a' = a
  | QTrim max min => r = inr (removed_count (log a) (keep max min (log a))) /\ a' = set_log (keep max min (log a)) a
  | QDel ids => r = inr (removed_count (log a) (without_ids ids (log a))) /\ a' = set_log (without_ids ids (log a)) a
  end.

(** A request on the cell of its key. *)
Definition log_post now (q : LogRequest) (cell : Cell) (r : Result Resp) (cell' : Cell) : Prop :=
  match cell, q with
  | Some (Own a, x), _ => exists a', log_own now q a r a' /\ cell' = Some (Own a', x)
  | None, QAdd o spec fs =>
      if nomkstream o then r = inr null /\ cell' = None
      else match xadd_id now spec None with
           | inl e => r = inl e /\ cell' = None
           | inr i => r = inr (bulk_str (to_wire i)) /\ cell' = Some (Own (append o i fs no_stream), None)
           end
  | None, QSetId _ _ => r = inl no_such_key_err /\ cell' = None
  | None, QRange _ _ _ _ => r = inr (array []) /\ cell' = None
  | None, _ => r = inr (int 0) /\ cell' = None
  | Some (Foreign _, _), QAdd _ spec _ => r = (let! _ := xadd_id now spec None in inl WrongType) /\ cell' = cell
  | Some (Foreign _, _), _ => r = inl WrongType /\ cell' = cell
  end.

(** The clock fits its [u64] and, for an id of [*], is not behind the stream. *)
Definition log_ready now (q : LogRequest) (cell : Cell) : Prop :=
  match q with
  | QAdd _ spec _ => (0 <= now < 2 ^ 64)%Z /\ (spec = bstr "*" -> forall i, last_of cell = Some i -> clock_ok now i)
  | _ => True
  end.

Definition log_need now (q : LogRequest) (cell : Cell) : nat :=
  match q with
  | QAdd o spec fs =>
      match xadd_id now spec (last_of cell), contents stream_kind cell with
      | inr i, Some a => stream_bytes (append o i fs a)
      | _, _ => 0
      end
  | _ => 0
  end.

#[local] Notation ldoes now k q := (fulfils stream_kind now k (log_ready now q) (log_need now q) (log_post now q)).

(** ** The handlers *)

Lemma xadd_options_maxlen rest : forall o o' tl, (forall m, maxlen o = Some m -> (0 <= m)%Z) ->
  xadd_options rest o = inr (o', tl) -> forall m, maxlen o' = Some m -> (0 <= m)%Z.
Proof.
  induction rest as [rest IH] using (induction_ltof1 _ (@length Resp)). intros o o' tl Ho. destruct rest as [|x rest]; [done|].
  cbn [xadd_options]. destruct (as_str x) as [tok|]; [|done].
  assert (L : length (skip1 (skip_trim_hint rest)) <= length rest /\ length rest < length (x :: rest)).
  { split; [|simpl; lia]. unfold skip_trim_hint. destruct rest as [|y rest]; [done|]. destruct (as_str y); [|simpl; lia].
    destruct (_ || _); [|simpl; lia]. destruct rest; simpl; lia. }
  repeat case_bool_decide.
  - apply IH; [unfold ltof; lia|done].
  - destruct (get_i64 _ 0 "XADD") as [|n]; [done|]. cbn [bindr]. case_bool_decide; [done|].
    apply IH; [unfold ltof; lia|]. simpl. intros m [= <-]. lia.
  - destruct (get_str _ 0 "XADD") as [|raw]; [done|]. cbn [bindr]. destruct (parse_id raw); [|done]. cbn [ok_or bindr].
    apply IH; [unfold ltof; lia|done].
  - by intros [= <- <-].
Qed.

Lemma xadd_call_maxlen args c : xadd_call args = inr c -> forall m, maxlen (xopts c) = Some m -> (0 <= m)%Z.
Proof.
  unfold xadd_call. case_bool_decide; [done|]. destruct (get_bytes_vec args 1 "XADD") as [|key]; [done|]. cbn [bindr].
  destruct (xadd_options _ _) as [|[o rest]] eqn:E; [done|]. cbn [bindr]. destruct (get_str rest 0 "XADD"); [done|]. cbn [bindr].
  destruct (xadd_fields _) as [|fs]; [done|]. cbn [bindr]. case_bool_decide; [done|]. intros [= <-]. simpl.
  eapply xadd_options_maxlen; [|exact E]. done.
Qed.

Lemma xadd_does now args c : xadd_call args = inr c -> ldoes now (xkey c) (QAdd (xopts c) (xid c) (xfields c)) (cmd_xadd now args).
Proof.
  intros Ec s M W S [Hn Hck] F. pose proof (S (xkey c)) as Sk. unfold cmd_xadd. rewrite Ec. cbn [try_at].
  rewrite (plan_spec now c s _ W Sk). mstep. set (cell := M (xkey c)) in *.
  assert (Same : forall j, sees now (slot s j) (if decide (j = xkey c) then cell else M j)).
  { intros j. case_decide; [subst j|]; apply S. }
  destruct (nomkstream (xopts c) && bool_decide (cell = None)) eqn:En.
  { apply andb_true_iff in En as [En Hc%bool_decide_eq_true]. exists (inr null), s, cell. split_and!; [done| |done|done].
    unfold log_post. by rewrite Hc, En. }
  assert (Hl : forall l, last_of cell = Some l -> u64_id l).
  { intros l. destruct cell as [[[a|u] x]|] eqn:Hc; try done. intros [= <-]. destruct (sees_own_repr now _ _ _ Sk) as [st R]. apply R. }
  destruct (xadd_id now (xid c) (last_of cell)) as [err|i] eqn:Ei; cbn [bindr try_at].
  { exists (inl err), s, cell. split_and!; [done| |done|done]. unfold log_post, log_own. destruct cell as [[[a|u] x]|] eqn:Hc; simpl in Ei.
    - exists a. by rewrite Ei.
    - by rewrite Ei.
    - destruct (nomkstream (xopts c)); [done|]. by rewrite Ei. }
  destruct (xadd_id_above now (xid c) (last_of cell) i Hn Hl Hck Ei) as [Hi Habove].
  assert (B : fulfils stream_kind now (xkey c) (fun x => x = cell) (log_need now (QAdd (xopts c) (xid c) (xfields c)))
    (log_post now (QAdd (xopts c) (xid c) (xfields c))) (fun s => on_shard (shard_idx s (xkey c)) (xadd_commit now c i) s)).
  { apply on_shard_fulfils. intros d cell0 Wd Sd -> Fd. unfold log_need in Fd. rewrite Ei in Fd.
    destruct (commit_serves now c i d cell Wd Sd Hi) as (r & d' & o & cell' & E & D & So & Hr).
    - intros a Ha. destruct cell as [[[a0|u] x]|]; try done; injection Ha as <-; [|done].
      specialize (Habove _ eq_refl). destruct (sees_own_repr now _ _ _ Sk) as [st R]. eapply Forall_impl; [apply (log_top _ (sr_ok _ _ R))|]. simpl. intros p Hp. by eapply id_le_lt.
    - by eapply xadd_call_maxlen.
    - by destruct (contents stream_kind cell).
    - exists r, d', o, cell'. split_and!; [done| |done|done]. unfold log_post, log_own. destruct cell as [[[a|u] x]|] eqn:Hc; simpl in Hr, Ei.
      + destruct Hr as [-> ->]. eexists. split; [|done]. by rewrite Ei.
      + destruct Hr as [-> ->]. by rewrite Ei.
      + destruct Hr as [-> ->]. destruct (nomkstream (xopts c)) eqn:Eo; [done|]. by rewrite Ei. }
  apply (B s M W S eq_refl F).
Qed.

Lemma on_own_log now q none : (forall c, q <> QAdd c.1.1 c.1.2 c.2) -> (forall r c', r = none /\ c' = None -> log_post now q None r c') ->
  forall cell r cell', on_own none (log_own now q) cell r cell' -> log_post now q cell r cell'.
Proof.
  intros Hq Hn [[[a|u] x]|] r cell'; simpl; [done| |apply Hn]. intros [-> ->].
  destruct q; try done. by destruct (Hq (o, spec, fs)).
Qed.

Lemma look_at_log now q none (P : Stream -> Result Resp -> Prop) : (forall c, q <> QAdd c.1.1 c.1.2 c.2) ->
  (forall r c', r = none /\ c' = None -> log_post now q None r c') -> (forall a r, P a r -> log_own now q a r a) ->
  forall cell r cell', look_at none P cell r cell' -> log_post now q cell r cell'.
Proof.
  intros Hq Hn HP [[[a|u] x]|] r cell' [Hr ->]; [|destruct q; try done; by destruct (Hq (o, spec, fs))|by apply Hn].
  exists a. auto.
Qed.

Lemma parse_ok_range raw i : ok_or (parse_id raw) invalid_stream_id = inr i -> u64_id i.
Proof. destruct (parse_id raw) as [j|] eqn:E; [|done]. intros [= <-]. by eapply parse_id_range. Qed.

Lemma xsetid_does now k i n : u64_id i -> ldoes now k (QSetId i n) (fun s => on_shard (shard_idx s k)
  (fun d => Some (with_stream_mut now k (inl no_such_key_err) (xsetid_apply i n) d)) s).
Proof.
  intros Hi. eapply fulfils_post, mut_fulfils; [by apply on_own_log|]. intros st a R. cbn [log_own].
  pose proof (xsetid_apply_repr i n st a R Hi) as X. case_bool_decide.
  - destruct X as [e E]. exists (inl (Generic e)), st, a. eauto 10.
  - destruct X as (st' & E & R'). exists (inr ok), st'. eexists. split; [done|]. split; [exact R'|]. by split_and!.
Qed.

Lemma xlen_does now k : ldoes now k QLen (fun s => on_shard (shard_idx s k) (fun d => Some (with_stream now k (inr (int 0))
  (fun st => inr (int (Z.of_nat (length (entries st))))) d)) s).
Proof.
  eapply fulfils_post, (look_fulfils now k _ _ _ _ (fun a r => r = inr (int (Z.of_nat (length (log a)))))); [by apply look_at_log|].
  intros st a R. by rewrite (sr_entries _ _ R), length_fmap.
Qed.

Lemma range_of_items lo hi count st a : stream_repr st a -> range_of lo hi count st = wire <$> range_items lo hi count false (log a).
Proof.
  intros R. unfold range_of, range_items. rewrite <- take_count_fmap. f_equal. rewrite (sr_entries _ _ R).
  apply filter_wire. intros p Hp. apply within_wire. pose proof (log_u64 _ (sr_ok _ _ R)) as Hu. rewrite Forall_forall in Hu. by apply Hu.
Qed.

Lemma xrange_does now k lo hi count (reversed : bool) : ldoes now k (QRange lo hi count reversed) (fun s => on_shard (shard_idx s k)
  (fun d => Some (with_stream now k (inr (array [])) (fun st => let rows := map format_stream_entry (range_of lo hi count st) in
     inr (array (if reversed then rev rows else rows))) d)) s).
Proof.
  eapply fulfils_post, (look_fulfils now k _ _ _ _ (fun a r => r = inr (array (map item_reply (range_items lo hi count reversed (log a))))));
    [by apply look_at_log|].
  intros st a R. cbv zeta. rewrite (range_of_items lo hi count st a R). do 2 f_equal.
  unfold range_items, item_reply. rewrite map_map. destruct reversed; [|done]. by rewrite <- map_rev.
Qed.

Lemma filter_bytes (P : Item -> Prop) `{forall p, Decision (P p)} (l : list Item) : log_bytes (filter P l) <= log_bytes l.
Proof. unfold log_bytes. induction l as [|p l IH]; [done|]. rewrite filter_cons. case_decide; cbn [sum_list_with]; lia. Qed.

Lemma drop_bytes n l : log_bytes (drop n l) <= log_bytes l.
Proof. rewrite <- (take_drop n l) at 2. rewrite log_bytes_app. lia. Qed.

Lemma keep_subset max min l : log_bytes (keep max min l) <= log_bytes l.
Proof.
  unfold keep, newest, since. destruct max as [m|], min as [i|]; [|apply drop_bytes|apply filter_bytes|done].
  etrans; [apply filter_bytes|apply drop_bytes].
Qed.

Lemma xtrim_does now k max min : match max, min with Some m, None => (0 <= m)%Z | None, Some _ => True | _, _ => False end ->
  ldoes now k (QTrim max min) (fun s => on_shard (shard_idx s k) (counted k (with_stream_mut now k (inr (int 0, 0%Z)) (xtrim_apply max min))) s).
Proof.
  intros Hm. eapply fulfils_post, counted_fulfils; [by apply on_own_log|]. intros st a R. cbn [log_own].
  destruct (xtrim_apply_repr max min st a R Hm) as (st' & E & R'). eexists _, st', _.
  split; [exact E|]. split; [exact R'|]. split; [apply keep_subset|]. by split.
Qed.

Lemma xdel_does now k args : ldoes now k (QDel (del_ids args)) (fun s =>
  on_shard (shard_idx s k) (counted k (with_stream_mut now k (inr (int 0, 0%Z)) (xdel_apply args))) s).
Proof.
  eapply fulfils_post, counted_fulfils; [by apply on_own_log|]. intros st a R. cbn [log_own].
  destruct (xdel_loop_repr args 0 0 st a R) as (st' & E & R'). eexists _, st', _. unfold xdel_apply. rewrite E.
  split; [done|]. split; [exact R'|]. split; [apply filter_bytes|]. by split.
Qed.

(** The arguments are refused, or the handler does what their request says. *)
Definition lmeets now (c : LogCommand) args : Prop :=
  match log_request c args with
  | inl e => forall s, exec_log now c args s = Some (inl e, s)
  | inr (k, q) => ldoes now k q (fun s => exec_log now c args s)
  end.

Lemma range_meets now (c : LogCommand) name lo hi (reversed : bool) args :
  log_request c args = range_request name lo hi reversed args -> (lo = 2 /\ hi = 3 \/ lo = 3 /\ hi = 2) ->
  (forall s, exec_log now c args s =
    if bool_decide (length args < 4) then Some (inl (wrong_arity name), s)
    else
      let? key := get_bytes_vec args 1 name at s in
      let? w2 := get_str args 2 name at s in
      let? w3 := get_str args 3 name at s in
      let? count := range_count args name at s in
      let? from := parse_id_bound (if bool_decide (lo = 2) then w2 else w3) true false at s in
      let? to := parse_id_bound (if bool_decide (lo = 2) then w3 else w2) false false at s in
      on_shard (shard_idx s key) (fun d => Some (with_stream now key (inr (array [])) (fun st =>
        let rows := map format_stream_entry (range_of from to count st) in inr (array (if reversed then rev rows else rows))) d)) s) ->
  lmeets now c args.
Proof.
  intros Hq Hlh Hx. unfold lmeets. rewrite Hq. unfold range_request in *. case_bool_decide; [done|].
  destruct (get_bytes_vec args 1 name) as [|key]; [done|]. cbn [bindr try_at] in *.
  destruct (get_str args 2 name) as [|w2] eqn:E2; [done|]. cbn [bindr try_at] in *.
  destruct (get_str args 3 name) as [|w3] eqn:E3; [done|]. cbn [bindr try_at] in *.
  destruct (range_count args name) as [|count]; [done|]. cbn [bindr try_at] in *.
  destruct Hlh as [[-> ->]|[-> ->]]; cbn [bool_decide] in Hx; rewrite E2, E3; cbn [bindr];
    destruct (parse_id_bound _ true false) as [|a]; try done; cbn [bindr try_at] in *;
    destruct (parse_id_bound _ false false) as [|b]; try done; cbn [bindr try_at] in *;
    (eapply fulfils_ext; [exact Hx|apply xrange_does]).
Qed.

Lemma log_meets now c args : lmeets now c args.
Proof.
  destruct c.
  - unfold lmeets. cbn [log_request exec_log]. destruct (xadd_call args) as [e|c] eqn:E; cbn [bindr]; [|by apply xadd_does].
    intros s. unfold cmd_xadd. by rewrite E.
  - unfold lmeets. cbn [log_request exec_log]. unfold cmd_xsetid. case_bool_decide; [done|].
    destruct (get_bytes_vec args 1 "XSETID") as [|key]; [done|]. destruct (get_str args 2 "XSETID") as [|raw]; [done|]. cbn [bindr try_at].
    destruct (ok_or (parse_id raw) invalid_stream_id) as [|i] eqn:Ei; [done|]. cbn [bindr try_at].
    destruct (xsetid_options (drop 3 args) None) as [|n]; [done|]. cbn [bindr try_at]. apply xsetid_does. by eapply parse_ok_range.
  - unfold lmeets. cbn [log_request exec_log]. unfold cmd_xlen. case_bool_decide; [done|].
    destruct (get_bytes_vec args 1 "XLEN") as [|key]; [done|]. apply xlen_does.
  - apply (range_meets now XRANGE "XRANGE" 2 3 false); [done|by left|done].
  - apply (range_meets now XREVRANGE "XREVRANGE" 3 2 true); [done|by right|done].
  - unfold lmeets. cbn [log_request exec_log]. unfold cmd_xtrim. destruct (xtrim_args args) as [e|[[key max] min]] eqn:E; [done|].
    cbn [bindr try_at]. apply xtrim_does. revert E. unfold xtrim_args. case_bool_decide; [done|].
    destruct (get_bytes_vec args 1 "XTRIM"); [done|]. cbn [bindr]. destruct (get_str args 2 "XTRIM"); [done|]. cbn [bindr].
    destruct (get_str _ 0 "XTRIM") as [|tok]; [done|]. cbn [bindr]. repeat case_bool_decide; [..|done].
    + destruct (parse_i64 tok) as [n|]; [|done]. cbn [ok_or bindr]. case_bool_decide; [done|]. intros [= <- <- <-]. lia.
    + destruct (parse_id tok) as [n|]; [|done]. cbn [ok_or bindr]. by intros [= <- <- <-].
  - unfold lmeets. cbn [log_request exec_log]. unfold cmd_xdel. case_bool_decide; [done|].
    destruct (get_bytes_vec args 1 "XDEL") as [|key]; [done|]. cbn [bindr try_at]. apply xdel_does.
Qed.

End LogSpec.

(** ** Runs *)

Section Runs.
#[local] Existing Instance SetData.vec_index_set.
#[local] Existing Instance ascii_case.
#[local] Existing Instance merge_sort_by_fst.

Definition item (ms seq : Z) (v : string) : Item := (mkStreamId ms seq, [(bstr "f", bstr v)]).

(** A stream with entries 1-1 and 2-0 and a group in which 1-1 is pending for alice. *)
Definition sample_pel : gmap bytes PendingEntry := {[ bstr "1-1" := mkPendingEntry (bstr "alice") 50 1 ]}.

Definition sample_stream : Stream :=
  mkStream [item 1 1 "a"; item 2 0 "b"] (mkStreamId 2 0) 2
    {[ bstr "g" := mkGroup (bstr "1-1") sample_pel {[ bstr "alice"; bstr "bob" ]} ]}.

Definition sample_group : ConsumerGroup :=
  mkConsumerGroup (bstr "g") (bstr "1-1") sample_pel
    {[ bstr "alice" := mkConsumer (bstr "alice") [bstr "1-1"]; bstr "bob" := mkConsumer (bstr "bob") [] ]}.

Definition sample_data : StreamData :=
  mkStreamData (wire <$> log sample_stream) {[ bstr "g" := sample_group ]} (to_wire (top sample_stream)) 2.

Lemma sample_group_repr : group_repr (bstr "g") sample_group (mkGroup (bstr "1-1") sample_pel {[ bstr "alice"; bstr "bob" ]}).
Proof.
  assert (Hp : forall i p, sample_pel !! i = Some p <-> i = bstr "1-1" /\ p = mkPendingEntry (bstr "alice") 50 1).
  { intros i p. unfold sample_pel. rewrite lookup_singleton_Some. naive_solver. }
  split; try done.
  - intros c x. cbn [sample_group consumers pel]. rewrite lookup_insert_Some, lookup_singleton_Some. intros [[<- <-]|[Hne [<- <-]]].
    + split; [done|]. split; [apply NoDup_singleton|]. intros i. setoid_rewrite Hp. simpl. rewrite list_elem_of_singleton. naive_solver.
    + split; [done|]. split; [constructor|]. intros i. setoid_rewrite Hp. simpl. split; [by intros ?%elem_of_nil|]. intros (p & [_ ->] & E). by vm_compute in E.
  - intros i p [_ ->]%Hp. cbn [names consumer]. set_solver.
Qed.

Lemma sample_repr : stream_repr sample_data sample_stream.
Proof.
  split; try done.
  - split; simpl; [|repeat constructor; by simpl; ids..|by ids].
    unfold ascending. simpl. repeat constructor; ids.
  - by left.
  - intros name. cbn [sample_data sample_stream groups cgs]. rewrite !lookup_singleton. case_decide; [subst name|constructor].
    constructor. apply sample_group_repr.
Qed.

Definition sample_stock : list (bytes * (StreamData * Stream)) := [(bstr "s", (sample_data, sample_stream))].

Definition sample_store : t := stocked stream_kind sample_stock.
Definition sample_cells : bytes -> option (Content Stream * option Z) := stock_cells sample_stock.

Lemma sample_store_ok now : swf sample_store /\ forall j, sees stream_kind now (slot sample_store j) (sample_cells j).
Proof.
  apply (stocked_ok stream_kind).
  - by apply (bool_decide_unpack _).
  - constructor; [exact sample_repr|constructor].
  - intros k. apply room_all. vm_compute. reflexivity.
Qed.

Definition words (ws : list string) : list Resp := map (fun w => bulk (bstr w)) ws.


Definition ids_at (key : bytes) (s : t) : list bytes :=
  match slot s key with
  | Some e => match Entry.value e with TStream st => map id (entries st) | _ => [] end
  | None => []
  end.

Definition reply_at (o : may_panic (Result Resp * t)) : option (Result Resp) := fst <$> o.

(** With [*] the id is not compared with the last one: a clock behind the stream
    appends a smaller id. *)
Lemma xadd_star_goes_back :
  option_map (fun p => ids_at (bstr "s") p.2) (exec_log 1 XADD (words ["XADD"; "s"; "*"; "f"; "c"]) sample_store)
  = Some [bstr "1-1"; bstr "2-0"; bstr "1-0"].
Proof. vm_compute. reflexivity. Qed.

(** Two XADDs that read the last id before either appends get the same id. *)
Lemma xadd_interleaved_same_id :
  let c := mkXaddCall (bstr "s") (mkXaddOptions false None None) (bstr "*") [(bstr "f", bstr "c")] in
  (p1 ← xadd_plan 7 c sample_store; p2 ← xadd_plan 7 c sample_store;
   match p1, p2 with
   | inr (Some i1), inr (Some i2) =>
       '(_, s) ← on_shard (shard_idx sample_store (bstr "s")) (xadd_commit 7 c i1) sample_store;
       '(_, s) ← on_shard (shard_idx s (bstr "s")) (xadd_commit 7 c i2) s;
       Some (ids_at (bstr "s") s)
   | _, _ => None
   end) = Some [bstr "1-1"; bstr "2-0"; bstr "7-0"; bstr "7-0"].
Proof. vm_compute. reflexivity. Qed.

(** [XREVRANGE s + - COUNT 1] answers with the oldest entry. *)
Lemma xrevrange_counts_from_the_front :
  reply_at (exec_log 5 XREVRANGE (words ["XREVRANGE"; "s"; "+"; "-"; "COUNT"; "1"]) sample_store)
  = Some (inr (array [item_reply (item 1 1 "a")])).
Proof. vm_compute. reflexivity. Qed.

(** XADD reads [2] as 2-0; XDEL does not find the entry under that name. *)
Lemma xdel_wants_the_whole_id :
  reply_at (exec_log 5 XDEL (words ["XDEL"; "s"; "2"]) sample_store) = Some (inr (int 0)).
Proof. vm_compute. reflexivity. Qed.
End Runs.
