(* ===== verification/StreamGroupSpec.v ===== *)
(** * StreamGroupSpec: the consumer-group commands on pending maps

    XGROUP, XACK, XPENDING, XCLAIM, XAUTOCLAIM and the reads of groups, on the cells
    of [StreamSpec] and the groups of [StreamGroups]. *)

From S2P Require Import Prelude Text Types Keyspace KeyspaceInvariant KeyspaceSpec.
From S2P Require Import Shards ShardsSpec ShardsMoves Resp CommandArgs ValueCells.
From S2P Require Import StreamIds StreamCommands StreamLogs StreamGroups StreamSpec.
From S2P Require SetData.

Import ShardedDatabase.

(** ** Listings of pending entries *)

#[local] Instance key_le_trans {V} : Transitive (@key_le V).
Proof.
  intros [a u] [b v] [c w]. unfold key_le. simpl. intros Hab Hbc.
  destruct (bytes_cmp a b) eqn:Eab; [| |done]; destruct (bytes_cmp b c) eqn:Ebc; try done.
  - apply bytes_cmp_eq in Eab, Ebc. subst. by rewrite (proj2 (bytes_cmp_eq c c)).
  - apply bytes_cmp_eq in Eab. subst. by rewrite Ebc.
  - apply bytes_cmp_eq in Ebc. subst. by rewrite Eab.
  - by rewrite (bytes_cmp_trans _ _ _ Eab Ebc).
Qed.

#[local] Instance key_le_total {V} : Total (@key_le V).
Proof. intros [a u] [b v]. unfold key_le. simpl. rewrite (bytes_cmp_antisym a b). destruct (bytes_cmp a b); simpl; auto. Qed.

Lemma btree_pairs_perm {V} (m : gmap bytes V) : btree_pairs m ≡ₚ map_to_list m.
Proof. apply merge_sort_Permutation. Qed.

Lemma btree_pairs_sorted {V} (m : gmap bytes V) : StronglySorted key_le (btree_pairs m).
Proof. apply StronglySorted_merge_sort; apply _. Qed.

#[local] Instance by_id_trans : Transitive by_id_le.
Proof. intros a b c. unfold by_id_le. apply transitivity. Qed.

#[local] Instance by_id_total : Total by_id_le.
Proof. intros a b. unfold by_id_le. apply total. apply _. Qed.

(** The pending ids of a sweep: those from [start] on, once each, in the order of ids. *)
Definition sweep (start : StreamId) (m : gmap bytes PendingEntry) (ids : list bytes) : Prop :=
  NoDup ids /\ (forall i, i ∈ ids <-> is_Some (m !! i) /\ from_start start i) /\ StronglySorted by_id_le ids.

Lemma pel_ids_sweep start g : sweep start (pending g) (pel_ids start g).
Proof.
  assert (P : pel_ids start g ≡ₚ filter (from_start start) (btree_pairs (pending g)).*1) by apply merge_sort_Permutation.
  assert (K : (btree_pairs (pending g)).*1 ≡ₚ (map_to_list (pending g)).*1) by (apply fmap_Permutation, btree_pairs_perm).
  split_and!.
  - rewrite P. apply NoDup_filter. rewrite K. apply NoDup_fst_map_to_list.
  - intros i. rewrite P, list_elem_of_filter, K, list_elem_of_fmap. split.
    + intros (Hs & [j p] & -> & Hp). apply elem_of_map_to_list in Hp. simpl in *. eauto.
    + intros [[p Hp] Hs]. split; [done|]. exists (i, p). split; [done|]. by apply elem_of_map_to_list.
  - apply StronglySorted_merge_sort; apply _.
Qed.

(** The rows of XPENDING are in the order of the texts of the ids. *)
Definition listing (f : bytes * PendingEntry -> bool) (m : gmap bytes PendingEntry) (ps : list (bytes * PendingEntry)) : Prop :=
  StronglySorted key_le ps /\ ps ≡ₚ filter f (map_to_list m).

Lemma StronglySorted_kept {A} (R : relation A) (P : A -> Prop) `{forall x, Decision (P x)} (l : list A) :
  StronglySorted R l -> StronglySorted R (filter P l).
Proof. induction 1 as [|x l _ IH Hx]; [constructor|]. rewrite filter_cons. case_decide; [|done]. constructor; [done|]. by apply Forall_kept. Qed.

Lemma pending_listing start stop c m : listing (fun p => owned c p && pending_in start stop p) m
  (filter (owned c) (filter (pending_in start stop) (btree_pairs m))).
Proof.
  split; [apply StronglySorted_kept, StronglySorted_kept, btree_pairs_sorted|].
  rewrite btree_pairs_perm, list_filter_filter. apply reflexive_eq, list_filter_iff. intros p. rewrite andb_True. tauto.
Qed.

(** How many entries are pending for each consumer that has some. *)
Definition tally (m : gmap bytes PendingEntry) (rows : list (bytes * Z)) : Prop :=
  NoDup rows.*1 /\ forall c n, (c, n) ∈ rows <-> n = Z.of_nat (size (owned_by c m)) /\ owned_by c m <> ∅.

Lemma counts_lookup ps : forall (acc : gmap bytes Z) c,
  fold_left (fun m p => <[consumer p.2 := (default 0 (m !! consumer p.2) + 1)%Z]> m) ps acc !! c =
  match length (filter (fun p : bytes * PendingEntry => consumer p.2 = c) ps) with
  | 0 => acc !! c
  | n => Some (default 0 (acc !! c) + Z.of_nat n)%Z
  end.
Proof.
  induction ps as [|p ps IH]; intros acc c; [done|]. cbn [fold_left]. rewrite IH, filter_cons. case_decide as E.
  - rewrite E, lookup_insert_eq. cbn [default from_option length]. destruct (length _); f_equal; simpl; lia.
  - by rewrite lookup_insert_ne.
Qed.

Lemma owned_size c m : size (owned_by c m) = length (filter (fun p : bytes * PendingEntry => consumer p.2 = c) (map_to_list m)).
Proof.
  unfold owned_by. rewrite map_filter_alt, <- length_map_to_list. apply Permutation_length, map_to_list_to_map.
  apply (NoDup_fmap_fst (filter _ (map_to_list m))); [|apply NoDup_filter, NoDup_map_to_list].
  intros i p q [_ Hp]%list_elem_of_filter [_ Hq]%list_elem_of_filter. apply elem_of_map_to_list in Hp, Hq. congruence.
Qed.

Lemma counts_tally `{HashOrder} m : tally m (hm_iter (consumer_counts (btree_pairs m))).
Proof.
  split.
  - rewrite (fmap_Permutation fst _ _ (hm_iter_perm _ _)). apply NoDup_fst_map_to_list.
  - intros c n. rewrite (hm_iter_perm _ _). rewrite elem_of_map_to_list. unfold consumer_counts. rewrite counts_lookup, lookup_empty.
    rewrite (Permutation_length (filter_Permutation _ _ _ (btree_pairs_perm m))), <- owned_size. cbn [default from_option].
    destruct (size (owned_by c m)) as [|k] eqn:Es.
    + apply map_size_empty_inv in Es. naive_solver.
    + assert (owned_by c m <> ∅) by (intros E; by rewrite E, map_size_empty in Es). rewrite Z.add_0_l. naive_solver.
Qed.

(** ** Requests *)

Inductive GroupCommand := XGROUP | XACK | XPENDING | XCLAIM | XAUTOCLAIM.

Inductive GroupRequest :=
  | QCreate (group raw : bytes) (mkstream : bool)
  | QSetGroup (group raw : bytes)
  | QDestroy (group : bytes)
  | QJoin (group c : bytes)
  | QLeave (group c : bytes)
  | QAck (group : bytes) (ids : list bytes)
  | QSummary (group : bytes)
  | QPending (group : bytes) (args : list Resp)
  | QClaim (group c : bytes) (min_idle : Z) (ids : list bytes) (o : ClaimOptions)
  | QAutoclaim (group c : bytes) (min_idle : Z) (start : StreamId) (o : AutoclaimOptions).

Section GroupSpec.
Context `{SetData.IndexSet} `{HashOrder} `{UnicodeCase}.
Implicit Types (now : Z) (s : t) (a : Stream) (k : bytes) (args : list Resp) (g : ConsumerGroup) (b : Group).

#[local] Notation Cell := (option (Content Stream * option Z)).
#[local] Notation sees now := (sees stream_kind now).

Definition exec_group now (c : GroupCommand) args s : may_panic (Result Resp * t) :=
  match c with
  | XGROUP => cmd_xgroup now args s
  | XACK => cmd_xack now args s
  | XPENDING => cmd_xpending now args s
  | XCLAIM => cmd_xclaim now args s
  | XAUTOCLAIM => cmd_xautoclaim now args s
  end.

(** The text a group starts from: [$] is the last entry that is there. *)
Definition group_start (raw : bytes) a : bytes :=
  if bool_decide (raw = bstr "$") then match last (log a) with Some p => to_wire p.1 | None => bstr "0-0" end else raw.

(** A change to one group of a stream. *)
Definition cg_own (group : bytes) (none : Result Resp) (P : Group -> Result Resp -> Group -> Prop) a (r : Result Resp) (a' : Stream) : Prop :=
  match cgs a !! group with
  | None => r = none /\ a' = a
  | Some b => exists b', P b r b' /\ a' = set_cgs (<[group := b']> (cgs a)) a
  end.

Definition group_own now k (q : GroupRequest) a (r : Result Resp) (a' : Stream) : Prop :=
  match q with
  | QCreate group raw _ =>
      if decide (is_Some (cgs a !! group))
      then r = inl (Generic (bstr "BUSYGROUP Consumer Group name already exists")) /\ a' = a
      else r = inr ok /\ a' = set_cgs (<[group := g_new (group_start raw a)]> (cgs a)) a
  | QSetGroup group raw => cg_own group (inl nogroup_generic) (fun b r b' => r = inr ok /\ b' = set_cursor (group_start raw a) b) a r a'
  | QDestroy group =>
      r = inr (int (if bool_decide (cgs a !! group = None) then 0 else 1)) /\ a' = set_cgs (delete group (cgs a)) a
  | QJoin group c =>
      cg_own group (inl nogroup_generic) (fun b r b' =>
        r = inr (int (if bool_decide (c ∈ names b) then 0 else 1)) /\ b' = g_join c b) a r a'
  | QLeave group c =>
      cg_own group (inl nogroup_generic) (fun b r b' =>
        r = inr (int (Z.of_nat (size (owned_by c (pel b))))) /\ b' = g_leave c b) a r a'
  | QAck group ids =>
      cg_own group (inr (int 0)) (fun b r b' =>
        r = inr (int (Z.of_nat (size (pel b)) - Z.of_nat (size (pel b')))) /\ b' = g_ack ids b) a r a'
  | QSummary group =>
      cg_own group (inl nogroup_generic) (fun b r b' => b' = b /\ exists ps rows, listing (fun _ => true) (pel b) ps /\ tally (pel b) rows /\
        r = inr (array [int (Z.of_nat (size (pel b))); text_or_null (fst <$> head ps); text_or_null (fst <$> last ps);
                        array (map (fun p => array [bulk p.1; bulk_str (show_int p.2)]) rows)])) a r a'
  | QPending group args =>
      cg_own group (inl nogroup_generic) (fun b r b' => b' = b /\
        match (let! start := get_str args 3 "XPENDING" in
               let! stop := get_str args 4 "XPENDING" in
               let! count := get_i64 args 5 "XPENDING" in
               let! c := if bool_decide (7 <= length args) then let! c := get_bytes_vec args 6 "XPENDING" in inr (Some c) else inr None in
               inr (start, stop, count, c)) with
        | inl e => r = inl e
        | inr (start, stop, count, c) => exists ps, listing (fun p => owned c p && pending_in start stop p) (pel b) ps /\
            r = inr (array (map pending_row (take_usize (wrap64 count) ps)))
        end) a r a'
  | QClaim group c min_idle ids o =>
      cg_own group (inl (nogroup_err k group)) (fun b r b' => exists out,
        g_claim now min_idle c o (log a) ids (g_join c b) = (out, b') /\ r = inr (array (claim_reply (justid o) (log a) out))) a r a'
  | QAutoclaim group c min_idle start o =>
      cg_own group (inl (nogroup_err k group)) (fun b r b' => exists ids rest taken lost, sweep start (pel b) ids /\
        g_autoclaim now min_idle c (ajustid o) (log a) (acount o) ids (g_join c b) = (rest, taken, lost, b') /\
        r = inr (array [bulk_str (default (to_wire id_MIN) (head rest)); array (claim_reply (ajustid o) (log a) taken);
                        array (map bulk_str lost)])) a r a'
  end.

(** A request on a key that is not there. *)
Definition group_none k (q : GroupRequest) : Result Resp * Cell :=
  match q with
  | QCreate group raw mkstream =>
      if mkstream then (inr ok, Some (Own (set_cgs (<[group := g_new (group_start raw no_stream)]> ∅) no_stream), None))
      else (inl (Generic (bstr "The XGROUP subcommand requires the key to exist")), None)
  | QSetGroup _ _ | QJoin _ _ => (inl NoKey, None)
  | QDestroy _ | QLeave _ _ | QAck _ _ => (inr (int 0), None)
  | QSummary _ | QPending _ _ => (inr (array []), None)
  | QClaim group _ _ _ _ | QAutoclaim group _ _ _ _ => (inl (nogroup_err k group), None)
  end.

Definition group_post now k (q : GroupRequest) (cell : Cell) (r : Result Resp) (cell' : Cell) : Prop :=
  match cell with
  | None => (r, cell') = group_none k q
  | Some (Own a, x) => exists a', group_own now k q a r a' /\ cell' = Some (Own a', x)
  | Some (Foreign _, _) => r = inl WrongType /\ cell' = cell
  end.

#[local] Notation gdoes now k q := (fulfils stream_kind now k (fun _ => True) (fun _ => 0) (group_post now k q)).

(** ** Changes to groups *)

Lemma repr_set_group st a group g b : stream_repr st a -> group_repr group g b ->
  stream_repr (set_groups (<[group := g]> (groups st)) st) (set_cgs (<[group := b]> (cgs a)) a).
Proof.
  intros R G. split; try apply R; [split; simpl; apply R|]. intros name. simpl. rewrite !lookup_insert. case_decide; [|apply R].
  subst. by constructor.
Qed.

Lemma in_group_repr st a group none f P : stream_repr st a ->
  (forall g b, group_repr group g b -> exists r g' b', f g = (r, g') /\ group_repr group g' b' /\ P b r b') ->
  exists r st' a', in_group group none f st = (r, st') /\ stream_repr st' a' /\ stream_bytes a' = stream_bytes a /\ cg_own group none P a r a'.
Proof.
  intros R Hf. unfold in_group, cg_own. pose proof (sr_groups _ _ R group) as G. destruct G as [g b G|].
  - destruct (Hf g b G) as (r & g' & b' & -> & G' & HP). eexists r, _, _. split; [done|]. split; [by apply repr_set_group|]. split; [done|eauto].
  - eexists none, st, a. by split_and!.
Qed.

Lemma resolve_start raw st a : stream_repr st a -> resolve_group_id raw st = group_start raw a.
Proof. intros R. unfold resolve_group_id, group_start. rewrite (sr_entries _ _ R), fmap_last. by destruct (last (log a)). Qed.

Lemma on_own_group now k q none : group_none k q = (none, None) ->
  forall cell r cell', on_own none (group_own now k q) cell r cell' -> group_post now k q cell r cell'.
Proof. intros Hn [[[a|u] x]|] r cell'; simpl; [done..|]. rewrite Hn. by intros [-> ->]. Qed.

(** A command that changes one group. *)
Lemma group_does now k q none f : group_none k q = (none, None) ->
  (forall st a, stream_repr st a -> exists r st' a', f st = (r, st') /\ stream_repr st' a' /\ stream_bytes a' = stream_bytes a /\ group_own now k q a r a') ->
  gdoes now k q (fun s => on_shard (shard_idx s k) (fun d => Some (with_stream_mut now k none f d)) s).
Proof. intros Hn Hf. eapply fulfils_post, mut_fulfils; [by apply on_own_group|done]. Qed.

Lemma create_apply_repr now k group raw mk st a : stream_repr st a ->
  exists r st' a', create_apply group raw st = (r, st') /\ stream_repr st' a' /\ stream_bytes a' = stream_bytes a /\
    group_own now k (QCreate group raw mk) a r a'.
Proof.
  intros R. unfold create_apply, group_own. pose proof (sr_groups _ _ R group) as G.
  destruct (groups st !! group) as [g|], (cgs a !! group) as [b|]; try by inversion G.
  - eexists _, st, a. rewrite decide_True by eauto. by split_and!.
  - eexists _, _, _. split; [done|]. rewrite decide_False by (by intros []). rewrite (resolve_start raw st a R).
    split; [apply repr_set_group; [done|apply group_repr_new]|by split].
Qed.

Lemma create_does now k group raw mk : gdoes now k (QCreate group raw mk)
  (fun s => on_shard (shard_idx s k) (create_body now k group raw mk) s).
Proof.
  apply on_shard_fulfils. intros d cell W S _ F.
  destruct (open_step stream_kind now k d cell W S ltac:(lia)) as (found & d1 & E & D1 & Hfound). unfold create_body. rewrite E.
  assert (Go : forall d2 (cell2 : Cell) o2, dstep d d2 k o2 -> sees now (Database.entries d2 !! k) cell2 -> cell2 <> None ->
    (forall r c', group_post now k (QCreate group raw mk) cell2 r c' -> group_post now k (QCreate group raw mk) cell r c') ->
    exists r d' o c', Some (with_stream_mut now k (inl NoKey) (create_apply group raw) d2) = Some (r, d') /\
      group_post now k (QCreate group raw mk) cell r c' /\ dstep d d' k o /\ sees now o c').
  { intros d2 cell2 o2 D2 S2 Hne Hpost.
    destruct (mut_step now k (inl NoKey) (create_apply group raw) (fun _ => 0%Z) (group_own now k (QCreate group raw mk)) d2 cell2
      (proj1 D2) S2 eq_refl eq_refl) as (r & d3 & o & cell' & -> & D3 & So & Hp).
    { intros st a R _. destruct (create_apply_repr now k group raw mk st a R) as (r & st' & a' & E' & R' & B & HP).
      exists r, st', a'. split_and!; [done..| | |done]; lia. }
    exists r, d3, o, cell'. split_and!; [done| |by eapply dstep_trans|done]. apply Hpost. by destruct cell2 as [[[a|u] x]|]. }
  destruct found as [e|].
  - destruct Hfound as [Se Hne]. apply (Go d1 cell (Some e)); [done| |done|done]. by rewrite (dstep_slot _ _ _ _ D1).
  - destruct Hfound as [-> D2]. destruct mk; [|by eexists _, d1, None, None; split_and!].
    apply (Go (Database.insert k (fresh_entry stream_kind) d1) (Some (Own no_stream, None)) (Some (fresh_entry stream_kind))); [exact D2| |done|].
    + rewrite (dstep_slot _ _ _ _ D2). exists (Own no_stream). split; [done|]. exists no_stream. split; [done|apply stream_repr_new].
    + intros r c' (a' & [-> ->] & ->). reflexivity.
Qed.

Lemma setgroup_does now k group raw : gdoes now k (QSetGroup group raw) (fun s => on_shard (shard_idx s k)
  (fun d => Some (with_stream_mut now k (inl NoKey) (fun st =>
     in_group group (inl nogroup_generic) (fun g => (inr ok, set_last_delivered (resolve_group_id raw st) g)) st) d)) s).
Proof.
  apply group_does; [done|]. intros st a R. rewrite (resolve_start raw st a R). apply in_group_repr; [done|].
  intros g b G. eexists _, _, _. split; [done|]. split; [by apply set_cursor_repr|done].
Qed.

Lemma destroy_does now k group : gdoes now k (QDestroy group) (fun s => on_shard (shard_idx s k)
  (fun d => Some (with_stream_mut now k (inr (int 0)) (destroy_apply group) d)) s).
Proof.
  apply group_does; [done|]. intros st a R. eexists _, _, (set_cgs (delete group (cgs a)) a). split; [done|]. split; [|split; [done|split; [|done]]].
  - split; try apply R; [split; simpl; apply R|]. intros name. simpl. rewrite !lookup_delete. case_decide; [constructor|apply R].
  - pose proof (sr_groups _ _ R group) as G. by destruct G.
Qed.

Lemma join_does now k group c : gdoes now k (QJoin group c) (fun s => on_shard (shard_idx s k)
  (fun d => Some (with_stream_mut now k (inl NoKey) (in_group group (inl nogroup_generic) (createconsumer_apply c)) d)) s).
Proof.
  apply group_does; [done|]. intros st a R. apply in_group_repr; [done|]. intros g b G. eexists _, _, _. split; [done|].
  split; [by apply ensure_consumer_repr|]. split; [|done]. do 2 f_equal. rewrite <- (gr_names _ _ _ G).
  case_bool_decide as E; case_bool_decide as E'; try done; [|by apply not_elem_of_dom in E'].
  apply not_elem_of_dom in E. done.
Qed.

Lemma leave_does now k group c : gdoes now k (QLeave group c) (fun s => on_shard (shard_idx s k)
  (fun d => Some (with_stream_mut now k (inr (int 0)) (in_group group (inl nogroup_generic) (delconsumer_apply c)) d)) s).
Proof.
  apply group_does; [done|]. intros st a R. apply in_group_repr; [done|]. intros g b G.
  destruct (delconsumer_repr group g b c G) as (g' & E & G'). eexists _, g', _. by split_and!.
Qed.

Lemma ack_does now k group ids : gdoes now k (QAck group ids) (fun s => on_shard (shard_idx s k)
  (fun d => Some (with_stream_mut now k (inr (int 0)) (in_group group (inr (int 0)) (fun g =>
     let '(n, g) := xack_loop ids 0 g in (inr (int n), g))) d)) s).
Proof.
  apply group_does; [done|]. intros st a R. apply in_group_repr; [done|]. intros g b G.
  destruct (xack_loop_repr group ids 0 g b G) as (g' & E & G'). rewrite E. eexists _, g', _. by split_and!.
Qed.

Lemma claim_does now k group c min_idle ids o : gdoes now k (QClaim group c min_idle ids o) (fun s => on_shard (shard_idx s k)
  (fun d => Some (with_stream_mut now k (inl (nogroup_err k group)) (fun st =>
     in_group group (inl (nogroup_err k group)) (claim_apply now min_idle c o (entries st) ids) st) d)) s).
Proof.
  apply group_does; [done|]. intros st a R. apply in_group_repr; [done|]. intros g b G. rewrite (sr_entries _ _ R). unfold claim_apply.
  destruct (claim_loop_repr group now min_idle c o (log a) ids [] _ _ (ensure_consumer_repr group g b c G) ltac:(simpl; set_solver)) as (g' & -> & G').
  eexists _, g', _. split; [done|]. split; [exact G'|]. eexists. split; [apply surjective_pairing|done].
Qed.

Lemma autoclaim_does now k group c min_idle start o : gdoes now k (QAutoclaim group c min_idle start o) (fun s => on_shard (shard_idx s k)
  (fun d => Some (with_stream_mut now k (inl (nogroup_err k group)) (fun st =>
     in_group group (inl (nogroup_err k group)) (autoclaim_apply now min_idle c start o (entries st)) st) d)) s).
Proof.
  apply group_does; [done|]. intros st a R. apply in_group_repr; [done|]. intros g b G. rewrite (sr_entries _ _ R). unfold autoclaim_apply.
  pose proof (ensure_consumer_repr group g b c G) as G1. pose proof (pel_ids_sweep start (ensure_consumer c g)) as Sw.
  rewrite (gr_pending _ _ _ G1) in Sw. cbn [g_join pel] in Sw. set (ids := pel_ids start (ensure_consumer c g)) in *. pose proof Sw as (Nd & Hin & _).
  pose proof (autoclaim_loop_repr group now min_idle c o (log a) ids [] [] _ _ G1 ltac:(simpl; set_solver) Nd) as L.
  rewrite Z.sub_0_r in L. destruct (g_autoclaim _ _ _ _ _ _ _ _) as [[[rest taken] lost] b'] eqn:Eb.
  destruct L as (g' & E & G'). { apply Forall_forall. intros i Hi. by apply Hin in Hi as [? _]. }
  rewrite E. eexists _, g', b'. split; [done|]. split; [done|]. by exists ids, rest, taken, lost.
Qed.

Lemma look_at_group now k q none (P : Stream -> Result Resp -> Prop) : group_none k q = (none, None) ->
  (forall a r, P a r -> group_own now k q a r a) ->
  forall cell r cell', look_at none P cell r cell' -> group_post now k q cell r cell'.
Proof. intros Hn HP [[[a|u] x]|] r cell' [Hr ->]; simpl; [eauto|done|]. by rewrite Hn, Hr. Qed.

Lemma cg_look group none P a r : match cgs a !! group with None => r = none | Some b => P b r b end -> cg_own group none P a r a.
Proof.
  unfold cg_own. destruct (cgs a !! group) as [b|] eqn:E; [|done]. intros HP. exists b. split; [done|].
  rewrite insert_id by done. by destruct a.
Qed.

Lemma pending_does now k group args : 3 <= length args ->
  gdoes now k (if bool_decide (length args = 3) then QSummary group else QPending group args) (fun s => on_shard (shard_idx s k)
    (fun d => Some (with_stream now k (inr (array [])) (fun st =>
       match groups st !! group with
       | None => inl nogroup_generic
       | Some g => if bool_decide (length args = 3) then inr (pending_summary g) else xpending_range args g
       end) d)) s).
Proof.
  intros _. set (q := if bool_decide _ then QSummary group else _).
  eapply fulfils_post, (look_fulfils now k _ _ _ _ (fun a r => group_own now k q a r a)).
  { apply look_at_group; [|done]. unfold q. by case_bool_decide. }
  intros st a R. pose proof (sr_groups _ _ R group) as G. subst q. case_bool_decide; apply cg_look; destruct G as [g b G|]; try done.
  - split; [done|]. exists (btree_pairs (pel b)), (hm_iter (consumer_counts (btree_pairs (pel b)))). unfold pending_summary. rewrite (gr_pending _ _ _ G).
    split; [|split; [apply counts_tally|done]]. split; [apply btree_pairs_sorted|]. rewrite list_filter_all by (by apply Forall_true). apply btree_pairs_perm.
  - split; [done|]. unfold xpending_range. destruct (get_str args 3 _) as [|start]; [done|]. destruct (get_str args 4 _) as [|stop]; [done|].
    destruct (get_i64 args 5 _) as [|count]; [done|]. cbn [bindr].
    destruct (if bool_decide (7 <= length args) then _ else _) as [|c]; [done|]. cbn [bindr].
    exists (filter (owned c) (filter (pending_in start stop) (btree_pairs (pel b)))). split; [apply pending_listing|].
    unfold pending_rows. by rewrite (gr_pending _ _ _ G).
Qed.

(** ** Arguments *)

(** A subcommand of XGROUP: its words, and the request of its key. *)
Definition sub_request (name : string) (arity : nat) (f : bytes -> Result GroupRequest) args : Result (bytes * GroupRequest) :=
  if bool_decide (length args < arity) then inl (WrongArity (bstr name))
  else
    let! key := get_bytes_vec args 2 name in
    let! group := get_bytes_vec args 3 name in
    let! q := f group in inr (key, q).

Definition mkstream_given args : bool :=
  existsb (fun x => match as_str x with Some w => eq_ignore_ascii_case w (bstr "MKSTREAM") | None => false end) args.

Definition xgroup_request args : Result (bytes * GroupRequest) :=
  if bool_decide (length args < 2) then inl (WrongArity (bstr "xgroup"))
  else
    let! sub := get_str args 1 "XGROUP" in
    let sub := to_uppercase sub in
    if bool_decide (sub = bstr "CREATE") then
      sub_request "XGROUP CREATE" 5 (fun grp => let! raw := get_str args 4 "XGROUP CREATE" in inr (QCreate grp raw (mkstream_given args))) args
    else if bool_decide (sub = bstr "SETID") then
      sub_request "XGROUP SETID" 5 (fun grp => let! raw := get_str args 4 "XGROUP SETID" in inr (QSetGroup grp raw)) args
    else if bool_decide (sub = bstr "DESTROY") then sub_request "XGROUP DESTROY" 4 (fun grp => inr (QDestroy grp)) args
    else if bool_decide (sub = bstr "CREATECONSUMER") then
      sub_request "XGROUP CREATECONSUMER" 5 (fun grp => let! c := get_bytes_vec args 4 "XGROUP CREATECONSUMER" in inr (QJoin grp c)) args
    else if bool_decide (sub = bstr "DELCONSUMER") then
      sub_request "XGROUP DELCONSUMER" 5 (fun grp => let! c := get_bytes_vec args 4 "XGROUP DELCONSUMER" in inr (QLeave grp c)) args
    else inl (Generic (bstr "unknown XGROUP subcommand '" ++ sub ++ bstr "'")).

Definition group_request (c : GroupCommand) args : Result (bytes * GroupRequest) :=
  match c with
  | XGROUP => xgroup_request args
  | XACK =>
      if bool_decide (length args < 4) then inl (wrong_arity "XACK")
      else
        let! key := get_bytes_vec args 1 "XACK" in
        let! group := get_bytes_vec args 2 "XACK" in
        inr (key, QAck group (omap as_str (drop 3 args)))
  | XPENDING =>
      if bool_decide (length args < 3) then inl (wrong_arity "XPENDING")
      else
        let! key := get_bytes_vec args 1 "XPENDING" in
        let! group := get_bytes_vec args 2 "XPENDING" in
        inr (key, if bool_decide (length args = 3) then QSummary group else QPending group args)
  | XCLAIM =>
      if bool_decide (length args < 6) then inl (wrong_arity "XCLAIM")
      else
        let! key := get_bytes_vec args 1 "XCLAIM" in
        let! group := get_bytes_vec args 2 "XCLAIM" in
        let! c := get_bytes_vec args 3 "XCLAIM" in
        let! min_idle := get_i64 args 4 "XCLAIM" in
        let! (ids, rest) := claim_ids (drop 5 args) in
        let! o := claim_options rest (mkClaimOptions None None None false false) in
        inr (key, QClaim group c (Z.max min_idle 0) ids o)
  | XAUTOCLAIM =>
      if bool_decide (length args < 6) then inl (wrong_arity "XAUTOCLAIM")
      else
        let! key := get_bytes_vec args 1 "XAUTOCLAIM" in
        let! group := get_bytes_vec args 2 "XAUTOCLAIM" in
        let! c := get_bytes_vec args 3 "XAUTOCLAIM" in
        let! min_idle := get_i64 args 4 "XAUTOCLAIM" in
        let! raw := get_str args 5 "XAUTOCLAIM" in
        let! start := (if bool_decide (raw = bstr "-") || bool_decide (raw = bstr "0") then inr id_MIN
                       else ok_or (parse_id raw) invalid_stream_id) in
        let! o := autoclaim_options (drop 6 args) (mkAutoclaimOptions 100 false) in
        inr (key, QAutoclaim group c (Z.max min_idle 0) start o)
  end.

Definition gmeets now (c : GroupCommand) args : Prop :=
  match group_request c args with
  | inl e => forall s, exec_group now c args s = Some (inl e, s)
  | inr (k, q) => gdoes now k q (fun s => exec_group now c args s)
  end.

(** Opens the next argument of a request and of its handler. *)
Ltac next_arg :=
  match goal with
  | |- context [bindr ?r _] => destruct r; [done|]; cbn [bindr try_at]
  end.

Lemma xgroup_meets now args : gmeets now XGROUP args.
Proof.
  unfold gmeets. cbn [group_request exec_group]. unfold xgroup_request, cmd_xgroup. case_bool_decide; [done|]. next_arg.
  unfold sub_request. case_bool_decide; [|case_bool_decide; [|case_bool_decide; [|case_bool_decide; [|case_bool_decide; [|done]]]]].
  - unfold xgroup_create. case_bool_decide; [done|]. do 3 next_arg. apply create_does.
  - unfold xgroup_setid. case_bool_decide; [done|]. do 3 next_arg. apply setgroup_does.
  - unfold xgroup_destroy. case_bool_decide; [done|]. do 2 next_arg. apply destroy_does.
  - unfold xgroup_createconsumer. case_bool_decide; [done|]. do 3 next_arg. apply join_does.
  - unfold xgroup_delconsumer. case_bool_decide; [done|]. do 3 next_arg. apply leave_does.
Qed.

Lemma ack_ids (l : list Resp) : omap (fun x => match get_str [x] 0 "XACK" with inr i => Some i | inl _ => None end) l = omap as_str l.
Proof. induction l as [|x l IH]; [done|]. cbn [omap list_omap]. unfold get_str at 1. simpl. destruct (as_str x); simpl; by rewrite IH. Qed.

Lemma group_meets now c args : gmeets now c args.
Proof.
  destruct c; [apply xgroup_meets| | | |]; unfold gmeets; cbn [group_request exec_group].
  - unfold cmd_xack. case_bool_decide; [done|]. do 2 next_arg. rewrite ack_ids. apply ack_does.
  - unfold cmd_xpending. case_bool_decide; [done|]. do 2 next_arg. apply pending_does. lia.
  - unfold cmd_xclaim. case_bool_decide; [done|]. do 4 next_arg. destruct (claim_ids (drop 5 args)) as [|[ids rest]]; [done|]. cbn [bindr try_at].
    next_arg. apply claim_does.
  - unfold cmd_xautoclaim. case_bool_decide; [done|]. do 7 next_arg. apply autoclaim_does.
Qed.

End GroupSpec.

(** ** Runs *)

Section GroupRuns.
#[local] Existing Instance SetData.vec_index_set.
#[local] Existing Instance canonical_order.
#[local] Existing Instance ascii_case.
#[local] Existing Instance merge_sort_by_fst.


Definition group_at (s : t) : option ConsumerGroup :=
  e ← slot s (bstr "s"); match Entry.value e with TStream st => groups st !! bstr "g" | _ => None end.

(** The commands one after the other. *)
Fixpoint play (now : Z) (cmds : list (Z -> list Resp -> t -> may_panic (Result Resp * t))) (args : list (list string)) (s : t) : may_panic t :=
  match cmds, args with
  | f :: cmds, ws :: args => '(_, s) ← f now (words ws) s; play now cmds args s
  | _, _ => Some s
  end.

(** After the group is set back, bob is given what is pending for alice: both list it, and
    deleting alice makes bob's pending entry disappear. *)
Lemma reset_group_disputes_ownership :
  let go := play 100 [cmd_xgroup; fun now => cmd_xreadgroup now []] [["XGROUP"; "SETID"; "s"; "g"; "0"];
    ["XREADGROUP"; "GROUP"; "g"; "bob"; "COUNT"; "1"; "STREAMS"; "s"; ">"]] sample_store in
  (s ← go; g ← group_at s; Some (consumer <$> pending g !! bstr "1-1", pending_ids <$> consumers g !! bstr "alice", pending_ids <$> consumers g !! bstr "bob"))
    = Some (Some (bstr "bob"), Some [bstr "1-1"], Some [bstr "1-1"]) /\
  (s ← go; s ← play 100 [cmd_xgroup] [["XGROUP"; "DELCONSUMER"; "s"; "g"; "alice"]] s; g ← group_at s;
   Some (pending g !! bstr "1-1", pending_ids <$> consumers g !! bstr "bob")) = Some (None, Some [bstr "1-1"]).
Proof. split; vm_compute; reflexivity. Qed.

(** The least pending id of 9-0 and 10-0 is reported as 10-0. *)
Lemma xpending_orders_texts :
  pending_summary (mkConsumerGroup (bstr "g") (bstr "0") {[ bstr "9-0" := mkPendingEntry (bstr "c") 0 1; bstr "10-0" := mkPendingEntry (bstr "c") 0 1 ]} ∅)
  = array [int 2; bulk_str (bstr "10-0"); bulk_str (bstr "9-0"); array [array [bulk (bstr "c"); bulk_str (bstr "2")]]].
Proof. vm_compute. reflexivity. Qed.
End GroupRuns.
