(* ===== verification/StreamReads.v ===== *)
(** * StreamReads: XREAD and XREADGROUP over several streams, and their waits

    A read goes through its keys one after the other, each under its own lock; a
    blocking read repeats the whole read after every wake-up, with whatever other
    clients made of the store in between, until it finds something or time is up. *)

From S2P Require Import Prelude Text Types Keyspace KeyspaceInvariant KeyspaceSpec.
From S2P Require Import Shards ShardsSpec ShardsMoves Resp CommandArgs ValueCells.
From S2P Require Import StreamIds StreamCommands StreamLogs StreamGroups StreamSpec StreamGroupSpec.
From S2P Require SetData.

Import ShardedDatabase.

Section Reads.
Context `{SetData.IndexSet} `{UnicodeCase}.
Implicit Types (now : Z) (s : t) (a : Stream) (k : bytes) (args : list Resp).

#[local] Notation Cell := (option (Content Stream * option Z)).
#[local] Notation sees now := (sees stream_kind now).
#[local] Notation Cells := (bytes -> Cell).

(** The store shows the cells. *)
Definition shows now s (M : Cells) : Prop := swf s /\ forall j, sees now (slot s j) (M j).

Definition set_cell (M : Cells) k (c : Cell) : Cells := fun j => if decide (j = k) then c else M j.

(** What other clients do before a wake-up makes cells of cells. *)
Fixpoint wakes_ok now (M : Cells) (ws : list (Wake * (Cells -> Cells))) : Prop :=
  match ws with
  | [] => True
  | (w, F) :: ws =>
      (forall s, shows now s M -> shows (wake_now w) (meanwhile w s) (F M)) /\ wakes_ok (wake_now w) (F M) ws
  end.

Definition row k (items : list Item) : Resp := array [bulk k; array (map item_reply items)].

(** ** XREAD *)

Definition cell_items (count : option Z) (i : StreamId) (cell : Cell) : Result (list Item) :=
  match cell with
  | None => inr []
  | Some (Own a, _) => inr (items_after i count (log a))
  | Some (Foreign _, _) => inl WrongType
  end.

Fixpoint read_rows (count : option Z) (specs : list (bytes * StreamId)) (M : Cells) : Result (list Resp) :=
  match specs with
  | [] => inr []
  | (k, i) :: specs =>
      let! items := cell_items count i (M k) in
      let! rows := read_rows count specs M in
      inr (row k items :: rows)
  end.

Definition read_reply (count : option Z) (specs : list (bytes * StreamId)) (M : Cells) : Result Resp :=
  let! rows := read_rows count specs M in inr (array rows).

(** What a call answers, the clock at its end and the cells it leaves. *)
#[local] Notation Outcome := (Result Resp * (Z * Cells))%type.

(** The first of the states that has something to read, or an error; else the timeout. *)
Fixpoint first_reply (count : option Z) (specs : list (bytes * StreamId)) now (M : Cells) (ws : list (Wake * (Cells -> Cells))) : Outcome :=
  match ws with
  | [] => (inr null_array, (now, M))
  | (w, F) :: ws =>
      match read_reply count specs (F M) with
      | inr reply => if has_entries reply then (inr reply, (wake_now w, F M)) else first_reply count specs (wake_now w) (F M) ws
      | inl e => (inl e, (wake_now w, F M))
      end
  end.

(** A run of a handler ends with the outcome. *)
Definition ends_with (run : may_panic (Result Resp * t)) (out : Outcome) : Prop :=
  exists s', run = Some (out.1, s') /\ shows out.2.1 s' out.2.2.

Lemma ends_now r now s (M : Cells) : shows now s M -> ends_with (Some (r, s)) (r, (now, M)).
Proof. intros Sh. by exists s. Qed.

Lemma read_after_items count i st a : stream_repr st a -> map format_stream_entry (read_after count i st) = map item_reply (items_after i count (log a)).
Proof.
  intros R. unfold read_after, items_after. rewrite (sr_entries _ _ R), (filter_wire _ (fun p : Item => id_lt i p.1)), take_count_fmap.
  - unfold item_reply. by rewrite map_map.
  - intros p Hp. apply after_wire. pose proof (log_u64 _ (sr_ok _ _ R)) as Hu. rewrite Forall_forall in Hu. by apply Hu.
Qed.

(** A look at one key under its lock. *)
Lemma look_shows {A} now k (none : Result A) f (P : Result A -> Prop) s (M : Cells) : shows now s M ->
  match M k with
  | None => P none
  | Some (Own a, _) => forall st, stream_repr st a -> P (f st)
  | Some (Foreign _, _) => P (inl WrongType)
  end ->
  exists r s', on_shard (shard_idx s k) (fun d => Some (with_stream now k none f d)) s = Some (r, s') /\ P r /\ shows now s' M.
Proof.
  intros [W S] HP. destruct (shard_of s k W) as (d & Hd & Wd & Hs). pose proof (S k) as Sk. rewrite Hs in Sk.
  destruct (look_step now k none f d (M k) Wd Sk) as (r & d' & o & E & [Wd' St] & So & Hr).
  destruct (on_shard_step s k d r d' o (fun d => Some (with_stream now k none f d)) W Hd (f_equal Some E) St Wd') as (s' & E' & W' & [_ Ha] & _).
  exists r, s'. split; [done|]. split.
  - destruct (M k) as [[[a|u] x]|]; [destruct Hr as (st & R & ->); by apply HP|by subst r..].
  - split; [done|]. intros j. rewrite Ha. case_decide; [by subst|apply S].
Qed.

Lemma snapshot_rows_spec now count specs : forall s (M : Cells), shows now s M ->
  exists s', snapshot_rows now count specs s = Some (read_rows count specs M, s') /\ shows now s' M.
Proof.
  induction specs as [|[k i] specs IH]; intros s M Sh; [by exists s|]. cbn [snapshot_rows read_rows].
  destruct (look_shows now k (inr []) (fun st => inr (map format_stream_entry (read_after count i st)))
    (fun r => r = (let! items := cell_items count i (M k) in inr (map item_reply items))) s M Sh) as (r & s1 & -> & -> & Sh1).
  { unfold cell_items. destruct (M k) as [[[a|u] x]|]; [|done|done]. intros st R. by rewrite (read_after_items count i st a R). }
  mstep. destruct (cell_items count i (M k)) as [e|items]; cbn [bindr try_at]; [by exists s1|].
  destruct (IH s1 M Sh1) as (s2 & -> & Sh2). mstep. exists s2. split; [|done]. by destruct (read_rows count specs M).
Qed.

Lemma xread_snapshot_spec now count specs s (M : Cells) : shows now s M ->
  exists s', xread_snapshot now count specs s = Some (read_reply count specs M, s') /\ shows now s' M.
Proof.
  intros Sh. unfold xread_snapshot. destruct (snapshot_rows_spec now count specs s M Sh) as (s' & -> & Sh'). mstep.
  exists s'. split; [|done]. unfold read_reply. by destruct (read_rows count specs M).
Qed.

Lemma xread_wait_spec count specs ws : forall now s (M : Cells), shows now s M -> wakes_ok now M ws ->
  ends_with (xread_wait count specs ws.*1 s) (first_reply count specs now M ws).
Proof.
  induction ws as [|[w F] ws IH]; intros now s M Sh Hw; [by apply ends_now|]. destruct Hw as [Hs Hws].
  rewrite fmap_cons. cbn [xread_wait first_reply fst].
  destruct (xread_snapshot_spec (wake_now w) count specs (meanwhile w s) (F M) (Hs s Sh)) as (s' & -> & Sh'). mstep.
  destruct (read_reply count specs (F M)) as [e|reply]; cbn [try_at]; [by apply ends_now|]. destruct (has_entries reply); [by apply ends_now|].
  by apply IH.
Qed.

(** The count, the block option and the keys of a call. *)
Definition xread_request args : Result (ReadOptions * list (bytes * StreamId)) :=
  if bool_decide (length args < 4) then inl (wrong_arity "XREAD")
  else
    let! (o, rest) := xread_options (drop 1 args) (mkReadOptions None None false) in
    let! (keys, ids) := split_streams rest "xread" in
    let! specs := xread_specs keys ids in
    inr (o, specs).

(** What XREAD answers. *)
Definition xread_outcome now args (M : Cells) (ws : list (Wake * (Cells -> Cells))) : Outcome :=
  match xread_request args with
  | inl e => (inl e, (now, M))
  | inr (o, specs) =>
      match read_reply (rcount o) specs M with
      | inl e => (inl e, (now, M))
      | inr initial =>
          if bool_decide (block_ms o = None) || has_entries initial then (inr initial, (now, M)) else first_reply (rcount o) specs now M ws
      end
  end.

(** XREAD over any number of streams answers with the entries after the given ids of
    the streams as they are, in order and up to COUNT per stream, a key of another type
    being an error; with BLOCK and nothing to read it answers with the first state after
    a wake-up that has something, whatever other clients did in between, and with a null
    array when the time is up first. It always returns, bad arguments are refused, and it
    leaves the keys as the other clients left them. *)
Theorem xread_reads_the_logs now args (ws : list (Wake * (Cells -> Cells))) s (M : Cells) : shows now s M -> wakes_ok now M ws ->
  ends_with (cmd_xread now ws.*1 args s) (xread_outcome now args M ws).
Proof.
  intros Sh Hw. unfold cmd_xread, xread_outcome, xread_request. case_bool_decide; [by apply ends_now|].
  destruct (xread_options _ _) as [|[o rest]]; cbn [bindr try_at]; [by apply ends_now|].
  destruct (split_streams rest "xread") as [|[keys ids]]; cbn [bindr try_at]; [by apply ends_now|].
  destruct (xread_specs keys ids) as [|specs]; cbn [bindr try_at]; [by apply ends_now|].
  destruct (xread_snapshot_spec now (rcount o) specs s M Sh) as (s1 & -> & Sh1). mstep.
  destruct (read_reply (rcount o) specs M) as [e|initial]; cbn [bindr try_at]; [by apply ends_now|].
  destruct (_ || _); [by apply ends_now|]. by apply xread_wait_spec.
Qed.

(** ** XREADGROUP *)

(** One key: what is delivered, and the cells after it. *)
Definition group_read now (group c : bytes) (o : ReadOptions) k (raw : bytes) (M : Cells) : Result (list Item) * Cells :=
  match M k with
  | None => (inr [], M)
  | Some (Foreign _, _) => (inl WrongType, M)
  | Some (Own a, x) =>
      match cgs a !! group with
      | None => (inl nogroup_prefixed, M)
      | Some b =>
          let '(out, b') := g_read now c raw o (log a) b in
          (inr out, set_cell M k (Some (Own (set_cgs (<[group := b']> (cgs a)) a), x)))
      end
  end.

(** All keys in turn; an error leaves what was delivered before it delivered. *)
Fixpoint group_rows now (group c : bytes) (o : ReadOptions) (specs : list (bytes * bytes)) (M : Cells) : Result (list Resp) * Cells :=
  match specs with
  | [] => (inr [], M)
  | (k, raw) :: specs =>
      match group_read now group c o k raw M with
      | (inl e, M) => (inl e, M)
      | (inr items, M) =>
          let '(r, M) := group_rows now group c o specs M in
          (let! rows := r in inr (row k items :: rows), M)
      end
  end.

Definition group_reply now (group c : bytes) (o : ReadOptions) (specs : list (bytes * bytes)) (M : Cells) : Result Resp * Cells :=
  let '(r, M) := group_rows now group c o specs M in (let! rows := r in inr (array rows), M).

(** Nothing that is to be recorded as delivered is pending for another consumer. *)
Definition read_ready now (group c : bytes) (o : ReadOptions) k (raw : bytes) (M : Cells) : Prop :=
  forall a x b, M k = Some (Own a, x) -> cgs a !! group = Some b -> noack o = false -> undisputed c (g_read now c raw o (log a) b).1 b.

Fixpoint rows_ready now (group c : bytes) (o : ReadOptions) (specs : list (bytes * bytes)) (M : Cells) : Prop :=
  match specs with
  | [] => True
  | (k, raw) :: specs =>
      read_ready now group c o k raw M /\ rows_ready now group c o specs (group_read now group c o k raw M).2
  end.

Definition misconf : NexradeError := Generic (bstr "MISCONF persistence is quiescing; writes are temporarily disabled").

Fixpoint first_group (group c : bytes) (o : ReadOptions) (specs : list (bytes * bytes)) now (M : Cells) (ws : list (Wake * (Cells -> Cells))) : Outcome :=
  match ws with
  | [] => (inr null_array, (now, M))
  | (w, F) :: ws =>
      if admitted w then
        match group_reply (wake_now w) group c o specs (F M) with
        | (inl e, M) => (inl e, (wake_now w, M))
        | (inr reply, M) => if has_entries reply then (inr reply, (wake_now w, M)) else first_group group c o specs (wake_now w) M ws
        end
      else (inl misconf, (wake_now w, F M))
  end.

(** Each wake-up makes cells of cells, and the attempt after it is ready. *)
Fixpoint gwakes_ok now (group c : bytes) (o : ReadOptions) (specs : list (bytes * bytes)) (M : Cells) (ws : list (Wake * (Cells -> Cells))) : Prop :=
  match ws with
  | [] => True
  | (w, F) :: ws =>
      (forall s, shows now s M -> shows (wake_now w) (meanwhile w s) (F M)) /\ rows_ready (wake_now w) group c o specs (F M) /\
      gwakes_ok (wake_now w) group c o specs (group_reply (wake_now w) group c o specs (F M)).2 ws
  end.

Lemma shows_unset now s k (M : Cells) : shows now s (set_cell M k (M k)) -> shows now s M.
Proof. intros [W S]. split; [done|]. intros j. specialize (S j). unfold set_cell in S. case_decide; by subst. Qed.

(** A change of one key under its lock that leaves the entries alone. *)
Lemma mut_shows {A} now k (none : Result A) f (P : Stream -> Result A -> Stream -> Prop) s (M : Cells) : shows now s M ->
  (forall st a x, M k = Some (Own a, x) -> stream_repr st a ->
     exists r st' a', f st = (r, st') /\ stream_repr st' a' /\ stream_bytes a' = stream_bytes a /\ P a r a') ->
  exists r s' c', on_shard (shard_idx s k) (fun d => Some (with_stream_mut now k none f d)) s = Some (r, s') /\ shows now s' (set_cell M k c') /\
    match M k with
    | None => r = none /\ c' = None
    | Some (Own a, x) => exists a', P a r a' /\ c' = Some (Own a', x)
    | Some (Foreign _, _) => r = inl WrongType /\ c' = M k
    end.
Proof.
  intros [W S] Hf. destruct (shard_of s k W) as (d & Hd & Wd & Hs). pose proof (S k) as Sk. rewrite Hs in Sk.
  destruct (mut_step now k none f (fun _ => 0%Z) P d (M k) Wd Sk eq_refl eq_refl) as (r & d' & o & c' & E & [Wd' St] & So & HP).
  { intros st a R [x Hx]. destruct (Hf st a x Hx R) as (r & st' & a' & ? & ? & B & ?). exists r, st', a'. split_and!; [done..| | |done]; lia. }
  destruct (on_shard_step s k d r d' o (fun d => Some (with_stream_mut now k none f d)) W Hd (f_equal Some E) St Wd') as (s' & E' & W' & [_ Ha] & _).
  exists r, s', c'. split; [done|]. split; [|done]. split; [done|]. intros j. rewrite Ha. unfold set_cell. by case_decide; subst.
Qed.

Lemma group_read_spec now group c o k raw s (M : Cells) : shows now s M -> read_ready now group c o k raw M ->
  exists r s', on_shard (shard_idx s k) (fun d => Some (with_stream_mut now k (inr [])
      (fun st => in_group group (inl nogroup_prefixed) (readgroup_apply now c raw o (entries st)) st) d)) s = Some (r, s') /\
    r = (let! items := (group_read now group c o k raw M).1 in inr (wire <$> items)) /\ shows now s' (group_read now group c o k raw M).2.
Proof.
  intros Sh Hr. destruct (mut_shows now k (inr []) (fun st => in_group group (inl nogroup_prefixed) (readgroup_apply now c raw o (entries st)) st)
    (fun a r a' => match cgs a !! group with
       | None => r = inl nogroup_prefixed /\ a' = a
       | Some b => r = inr (wire <$> (g_read now c raw o (log a) b).1) /\ a' = set_cgs (<[group := (g_read now c raw o (log a) b).2]> (cgs a)) a
       end) s M Sh) as (r & s' & c' & -> & Sh' & Hc).
  { intros st a x Hx R. unfold in_group. pose proof (sr_groups _ _ R group) as G. rewrite (sr_entries _ _ R).
    destruct (groups st !! group) as [g|], (cgs a !! group) as [b|] eqn:Eb; try by inversion G.
    - inversion G as [? ? G'|]; subst. destruct (readgroup_repr group now c raw o (log a) g b G') as (g' & -> & Gg).
      + apply R.
      + by apply (Hr a x b).
      + eexists _, _, _. split; [done|]. split; [by apply repr_set_group|]. by split.
    - eexists _, st, a. by split_and!. }
  exists r, s'. split; [done|]. unfold group_read. destruct (M k) as [[[a|u] x]|] eqn:EM.
  - destruct Hc as (a' & Ha & ->). destruct (cgs a !! group) as [b|].
    + destruct Ha as [-> ->]. by destruct (g_read now c raw o (log a) b).
    + destruct Ha as [-> ->]. split; [done|]. cbn [snd]. apply (shows_unset now s' k). by rewrite EM.
  - destruct Hc as [-> ->]. split; [done|]. cbn [snd]. apply (shows_unset now s' k). by rewrite EM.
  - destruct Hc as [-> ->]. split; [done|]. cbn [snd]. apply (shows_unset now s' k). by rewrite EM.
Qed.

Lemma read_once_rows_spec now group c o specs : forall s (M : Cells), shows now s M -> rows_ready now group c o specs M ->
  exists s', read_once_rows now group c o specs s = Some ((group_rows now group c o specs M).1, s') /\ shows now s' (group_rows now group c o specs M).2.
Proof.
  induction specs as [|[k raw] specs IH]; intros s M Sh Hr; [by exists s|]. destruct Hr as [Hr Hrs]. cbn [read_once_rows group_rows].
  destruct (group_read_spec now group c o k raw s M Sh Hr) as (r & s1 & -> & -> & Sh1). mstep.
  destruct (group_read now group c o k raw M) as [[e|items] M1]; cbn [bindr try_at fst snd] in *; [by exists s1|].
  destruct (IH s1 M1 Sh1 Hrs) as (s2 & -> & Sh2). mstep. exists s2. destruct (group_rows now group c o specs M1) as [[e|rows] M2]; [done|].
  split; [|done]. cbn [try_at bindr fst]. unfold row, item_reply. do 3 f_equal. by rewrite map_map.
Qed.

Lemma read_once_spec now group c o specs s (M : Cells) : shows now s M -> rows_ready now group c o specs M ->
  exists s', read_once now group c o specs s = Some ((group_reply now group c o specs M).1, s') /\ shows now s' (group_reply now group c o specs M).2.
Proof.
  intros Sh Hr. unfold read_once. destruct (read_once_rows_spec now group c o specs s M Sh Hr) as (s' & -> & Sh'). mstep.
  exists s'. unfold group_reply. by destruct (group_rows now group c o specs M) as [[e|rows] M'].
Qed.

Lemma xreadgroup_wait_spec group c o specs ws : forall now s (M : Cells), shows now s M -> gwakes_ok now group c o specs M ws ->
  ends_with (xreadgroup_wait group c o specs ws.*1 s) (first_group group c o specs now M ws).
Proof.
  induction ws as [|[w F] ws IH]; intros now s M Sh Hw; [by apply ends_now|]. destruct Hw as (Hs & Hr & Hws).
  rewrite fmap_cons. cbn [xreadgroup_wait first_group fst]. destruct (admitted w); [|by apply ends_now, Hs].
  destruct (read_once_spec (wake_now w) group c o specs _ _ (Hs s Sh) Hr) as (s' & -> & Sh'). mstep.
  destruct (group_reply (wake_now w) group c o specs (F M)) as [[e|reply] M']; cbn [try_at fst snd] in *; [by apply ends_now|].
  destruct (has_entries reply); [by apply ends_now|]. by apply IH.
Qed.

Definition xreadgroup_request args : Result (bytes * bytes * ReadOptions * list (bytes * bytes)) :=
  if bool_decide (length args < 7) then inl (wrong_arity "XREADGROUP")
  else
    let! w := get_str args 1 "XREADGROUP" in
    if negb (bool_decide (to_uppercase w = bstr "GROUP")) then inl SyntaxError
    else
      let! group := get_bytes_vec args 2 "XREADGROUP" in
      let! c := get_bytes_vec args 3 "XREADGROUP" in
      let! (o, rest) := xreadgroup_options (drop 4 args) (mkReadOptions None None false) in
      let! (keys, ids) := split_streams rest "xreadgroup" in
      let! specs := xreadgroup_specs keys ids in
      inr (group, c, o, specs).

(** A call waits when it may block and asks for new entries. *)
Definition may_wait (o : ReadOptions) (specs : list (bytes * bytes)) : bool :=
  negb (bool_decide (block_ms o = None)) && existsb (fun p => bool_decide (p.2 = bstr ">")) specs.

(** What XREADGROUP does. *)
Definition xreadgroup_outcome now args (M : Cells) (ws : list (Wake * (Cells -> Cells))) : Outcome :=
  match xreadgroup_request args with
  | inl e => (inl e, (now, M))
  | inr (group, c, o, specs) =>
      match group_reply now group c o specs M with
      | (inl e, M) => (inl e, (now, M))
      | (inr initial, M) =>
          if negb (may_wait o specs) || has_entries initial then (inr initial, (now, M)) else first_group group c o specs now M ws
      end
  end.

(** The attempts of a call are ready. *)
Definition xreadgroup_ready now args (M : Cells) (ws : list (Wake * (Cells -> Cells))) : Prop :=
  match xreadgroup_request args with
  | inl _ => True
  | inr (group, c, o, specs) => rows_ready now group c o specs M /\ gwakes_ok now group c o specs (group_reply now group c o specs M).2 ws
  end.

End Reads.

(** ** Every entry is delivered once *)

(** Reads of new entries by any consumers, with entries appended in between: all that
    is delivered, in order, and the log at the end. *)
Fixpoint run_reads (now : Z) (l : list Item) (g : ConsumerGroup) (reads : list (list Item * bytes * ReadOptions)) : list StreamEntry * list Item :=
  match reads with
  | [] => ([], l)
  | (new, c, o) :: reads =>
      let '(r, g) := readgroup_apply now c (bstr ">") o (wire <$> (l ++ new)) g in
      let '(outs, l) := run_reads now (l ++ new) g reads in
      (match r with inr out => out | inl _ => [] end ++ outs, l)
  end.

Definition newer (i : StreamId) (l : list Item) : list Item := filter (fun p : Item => id_lt i p.1) l.

Lemma newer_app i l1 l2 : newer i (l1 ++ l2) = newer i l1 ++ newer i l2.
Proof. apply filter_app. Qed.

(** Past an item of the log, what is newer is what follows it. *)
Lemma newer_past i l F1 p F2 : ascending l -> newer i l = F1 ++ p :: F2 -> newer p.1 l = F2.
Proof.
  intros Hs E. assert (Hp : p ∈ newer i l) by (rewrite E; set_solver). apply list_elem_of_filter in Hp as [Hip _].
  transitivity (newer p.1 (newer i l)).
  { unfold newer. rewrite list_filter_filter. apply list_filter_iff. intros q. split; [|tauto]. intros Hq. split; [done|]. by etrans. }
  pose proof (ascending_filter (fun p : Item => id_lt i p.1) l Hs) as Hf. fold (newer i l) in Hf. rewrite E in Hf |- *.
  apply ascending_app in Hf as (_ & H2 & H12). apply ascending_cons in H2 as [_ H2]. rewrite newer_app. unfold newer.
  rewrite list_filter_none, filter_cons, decide_False, list_filter_all; [done| |ids|].
  - done.
  - apply Forall_forall. intros q Hq. specialize (H12 q p Hq ltac:(by left)). ids.
Qed.

Lemma take_count_take {A} count (l : list A) :
  exists n, n <= length l /\ take_count count l = take n l /\ (count = None -> (Z.of_nat (length l) <= u64_max)%Z -> n = length l).
Proof.
  unfold take_count, take_usize. case_bool_decide.
  - exists (length l). split; [done|]. by rewrite firstn_all.
  - eexists. split; [|split; [done|intros ->; simpl in *; lia]]. lia.
Qed.

Lemma run_reads_grows now reads : forall l g outs l', run_reads now l g reads = (outs, l') -> exists k, l' = l ++ k.
Proof.
  induction reads as [|[[new c] o] reads IH]; intros l g outs l' E; cbn [run_reads] in E; [injection E as <- <-; exists []; by rewrite app_nil_r|].
  destruct (readgroup_apply _ _ _ _ _ _) as [r g']. destruct (run_reads now (l ++ new) g' reads) as [outs' l1] eqn:E1. injection E as <- <-.
  destruct (IH _ _ _ _ E1) as [k ->]. exists (new ++ k). by rewrite app_assoc.
Qed.

(** After some items are given out, the rest is what is newer than the cursor. *)
Lemma newer_rest cur l q raw : ascending l -> Forall (fun p : Item => u64_id p.1) l -> q <= length (newer cur l) -> cur = id_or_min raw ->
  newer (id_or_min (match last (take q (newer cur l)) with Some p => to_wire p.1 | None => raw end)) l = drop q (newer cur l).
Proof.
  intros Hs Hu Hq ->. set (cur := id_or_min raw) in *. destruct (last (take q (newer cur l))) as [p|] eqn:Ep.
  - apply last_Some in Ep as [F1 EF]. assert (Hp : p ∈ newer cur l).
    { rewrite <- (take_drop q (newer cur l)), EF. set_solver. }
    apply list_elem_of_filter in Hp as [_ Hp]. rewrite Forall_forall in Hu. unfold id_or_min. rewrite parse_to_wire by auto. simpl.
    apply (newer_past cur l F1 p); [done|]. rewrite <- (take_drop q (newer cur l)) at 1. by rewrite EF, <- app_assoc.
  - apply last_None in Ep. destruct q as [|q]; [by rewrite drop_0|]. destruct (newer cur l) eqn:En; [by rewrite drop_nil|done].
Qed.

Lemma readgroup_new now c o l g : Forall (fun p : Item => u64_id p.1) l ->
  let out := take_count (rcount o) (newer (id_or_min (last_delivered_id g)) l) in
  exists g', readgroup_apply now c (bstr ">") o (wire <$> l) g = (inr (wire <$> out), g') /\
    last_delivered_id g' = match last out with Some p => to_wire p.1 | None => last_delivered_id g end.
Proof.
  intros Hu out. unfold readgroup_apply, to_deliver. rewrite bool_decide_eq_true_2 by done.
  assert (Ec : last_delivered_id (ensure_consumer c g) = last_delivered_id g) by (unfold ensure_consumer; by destruct (consumers g !! c)).
  rewrite Ec, (filter_wire _ (fun p : Item => id_lt (id_or_min (last_delivered_id g)) p.1)), take_count_fmap.
  2: { intros p Hp. apply after_wire. rewrite Forall_forall in Hu. by apply Hu. }
  fold (newer (id_or_min (last_delivered_id g)) l). fold out. rewrite fmap_last.
  assert (Er : forall es g, last_delivered_id (fold_left (record_pending now c) es g) = last_delivered_id g).
  { induction es as [|e es IH]; intros g0; [done|]. simpl. by rewrite IH. }
  destruct (last out) as [p|]; simpl; destruct (noack o); eexists; (split; [done|]); by rewrite ?Er.
Qed.


(** ** Runs *)

Section ReadRuns.
#[local] Existing Instance SetData.vec_index_set.
#[local] Existing Instance ascii_case.
#[local] Existing Instance merge_sort_by_fst.

Lemma sample_shows now : shows now sample_store sample_cells.
Proof. apply sample_store_ok. Qed.

(** Nothing is after the id [$] stands for in XREAD, so a read from it never finds anything. *)
Lemma xread_dollar_finds_nothing count l : Forall (fun p : Item => u64_id p.1) l ->
  parse_id_bound (bstr "$") true true = inr id_MAX /\ items_after id_MAX count l = [].
Proof.
  intros Hu. split; [done|]. unfold items_after. rewrite list_filter_none; [unfold take_count, take_usize; by case_bool_decide; rewrite ?take_nil|].
  eapply Forall_impl; [exact Hu|]. intros p Hp. ids.
Qed.

(** [XREAD COUNT 1 BLOCK 5 STREAMS s 1-1], with a wake-up that is not needed. *)
Lemma xread_reads_the_logs_witness :
  exists s', cmd_xread 100 [mkWake 100 (fun s => s) true] (words ["XREAD"; "COUNT"; "1"; "BLOCK"; "5"; "STREAMS"; "s"; "1-1"]) sample_store
    = Some (inr (array [array [bulk (bstr "s"); array [item_reply (item 2 0 "b")]]]), s') /\ shows 100 s' sample_cells.
Proof.
  destruct (xread_reads_the_logs 100 (words ["XREAD"; "COUNT"; "1"; "BLOCK"; "5"; "STREAMS"; "s"; "1-1"])
    [(mkWake 100 (fun s => s) true, fun M => M)] sample_store sample_cells (sample_shows 100)) as (s' & E & Sh).
  - split; [intros s Hs; exact Hs|exact I].
  - exists s'. split; [|exact Sh]. cbn [fmap list_fmap fst] in E. rewrite E. do 2 f_equal.
Defined.


Definition sample_reads : list (list Item * bytes * ReadOptions) :=
  [([], bstr "bob", mkReadOptions (Some 1%Z) None false); ([item 3 0 "c"; item 4 0 "d"], bstr "alice", mkReadOptions (Some 1%Z) None true);
   ([item 5 0 "e"], bstr "carol", mkReadOptions None None false)].

Definition sample_end : list Item := log sample_stream ++ [item 3 0 "c"; item 4 0 "d"; item 5 0 "e"].

Lemma sample_end_ok : ascending sample_end /\ Forall (fun p : Item => u64_id p.1) sample_end.
Proof. split; [unfold ascending; simpl; repeat constructor; ids|repeat constructor; by simpl; ids]. Qed.

End ReadRuns.
