(* ===== verification/GeoCommands.v ===== *)
(** * GeoCommands: the handlers of the geospatial commands ([command/geo.rs])

    A geo value is a map from members to coordinates.  Coordinates and distances
    are doubles ([Doubles], [DoubleArith]); the trigonometric functions, whose
    precision the standard library leaves open, are parameters. *)

From S2P Require Import Prelude Text Doubles DoubleArith Types Keyspace Shards Resp CommandArgs.
From S2P Require SetData ZSetData.
From Stdlib Require Floats.SpecFloat.

Import ShardedDatabase.

(** ** Arithmetic *)

Definition f64_sub (a b : f64) : f64 := of_spec (SpecFloat.SFsub 53 1024 (to_spec a) (to_spec b)).
Definition f64_div (a b : f64) : f64 := of_spec (SpecFloat.SFdiv 53 1024 (to_spec a) (to_spec b)).
Definition f64_sqrt (a : f64) : f64 := of_spec (SpecFloat.SFsqrt 53 1024 (to_spec a)).

(** An integer, and the literal [n / 10 ^ e]: both numbers are exact below 2^53, so
    the quotient is the literal rounded once. *)
Definition f64_int (n : Z) : f64 := of_spec (SpecFloat.binary_normalize 53 1024 n 0 false).
Definition literal (n e : Z) : f64 := f64_div (f64_int n) (f64_int (10 ^ e)).

(** The functions of [f64] whose precision is not specified, and [{:.4}]. *)
Class GeoMath := {
  f64_sin : f64 -> f64;
  f64_cos : f64 -> f64;
  f64_atan2 : f64 -> f64 -> f64;
  f64_powi : f64 -> Z -> f64;
  f64_fixed4 : f64 -> bytes;
}.

Definition EARTH_RADIUS_M : f64 := Eval vm_compute in literal 6372797560856 6.
Definition THOUSAND : f64 := Eval vm_compute in f64_int 1000.
Definition METERS_PER_MILE : f64 := Eval vm_compute in literal 1609344 3.
Definition METERS_PER_FOOT : f64 := Eval vm_compute in literal 3048 4.
Definition TWO : f64 := Eval vm_compute in f64_int 2.
Definition LON_LIMIT : f64 := Eval vm_compute in f64_int 180.
Definition LON_LOW : f64 := Eval vm_compute in f64_int (-180).
Definition LAT_LIMIT : f64 := Eval vm_compute in f64_int 90.
Definition LAT_LOW : f64 := Eval vm_compute in f64_int (-90).
Definition MERCATOR_LIMIT : f64 := Eval vm_compute in literal 85051129 6.
Definition MERCATOR_LOW : f64 := Eval vm_compute in literal (-85051129) 6.

(** [consts::PI], and [to_radians]: a product with [PI / 180]. *)
Definition PI : f64 := 4614256656552045848.
Definition to_radians (d : f64) : f64 := f64_mul d (f64_div PI LON_LIMIT).

Definition BASE32 : bytes := bstr "0123456789bcdefghjkmnpqrstuvwxyz".

(** ** Geohash *)

(** One step: the interval, and the bit for the coordinate. *)
Definition geohash_step (x lo hi : f64) : f64 * f64 * Z :=
  let m := f64_div (f64_add lo hi) TWO in
  if f64_leb m x then (lo, m, 1%Z) else (m, hi, 0%Z).

Record GeohashState := mkGeohash {
  min_lon : f64; max_lon : f64; min_lat : f64; max_lat : f64;
  result : bytes; bits : Z; bit_count : nat; is_lon : bool;
}.

(** The loop; it leaves when eleven characters are there. *)
Fixpoint geohash_loop (lon lat : f64) (n : nat) (st : GeohashState) : may_panic bytes :=
  match n with
  | 0 => Some (result st)
  | S n =>
      let '(lo, la, bit) :=
        if is_lon st then let '(a, b, bit) := geohash_step lon (min_lon st) (max_lon st) in ((a, b), (min_lat st, max_lat st), bit)
        else let '(a, b, bit) := geohash_step lat (min_lat st) (max_lat st) in ((min_lon st, max_lon st), (a, b), bit) in
      let bits := Z.lor (Z.shiftl (bits st) 1 mod 2 ^ 8) bit in
      if bool_decide (bit_count st + 1 = 5) then
        c ← BASE32 !! Z.to_nat bits;
        let out := result st ++ [c] in
        if bool_decide (length out = 11) then Some out
        else geohash_loop lon lat n (mkGeohash lo.1 lo.2 la.1 la.2 out 0 0 (negb (is_lon st)))
      else geohash_loop lon lat n (mkGeohash lo.1 lo.2 la.1 la.2 (result st) bits (bit_count st + 1) (negb (is_lon st)))
  end.

Definition geohash_encode (lon lat : f64) : may_panic bytes :=
  geohash_loop lon lat 55 (mkGeohash LON_LOW LON_LIMIT LAT_LOW LAT_LIMIT [] 0 0 true).

(** ** Shared parts *)

(** [arg.as_bytes()], or the text, or nothing. *)
Definition member_of (arg : Resp) : bytes :=
  match as_bytes arg with Some b => b | None => default [] (as_str arg) end.

Record GeoFlags := mkGeoFlags { geo_nx : bool; geo_xx : bool; geo_ch : bool }.

(** A match: the member, its distance and its coordinates. *)
Record Hit := mkHit { hit_member : bytes; hit_dist : f64; hit_lon : f64; hit_lat : f64 }.

Record GeoOptions := mkGeoOptions { withcoord : bool; withdist : bool; asc : bool; desc : bool; gcount : option Z }.

Definition no_options : GeoOptions := mkGeoOptions false false false false None.

(** [sort_by], which is stable: an element goes behind those that are strictly before it. *)
Fixpoint place {A} (before : A -> A -> bool) (x : A) (l : list A) : list A :=
  match l with
  | [] => [x]
  | y :: l' => if before y x then y :: place before x l' else x :: l
  end.

Definition sort_by {A} (before : A -> A -> bool) (l : list A) : list A := foldr (place before) [] l.

(** [partial_cmp] of the distances is [Less]; equal and incomparable ones stay in order. *)
Definition nearer (a b : Hit) : bool := f64_ltb (hit_dist a) (hit_dist b).

(** [Vec::truncate]. *)
Definition truncate {A} (n : Z) (l : list A) : list A :=
  if bool_decide (Z.of_nat (length l) <= n)%Z then l else take (Z.to_nat n) l.

(** The order and the number asked for. *)
Definition arranged (o : GeoOptions) (hits : list Hit) : list Hit :=
  let hits := if asc o then sort_by nearer hits else if desc o then sort_by (fun a b => nearer b a) hits else hits in
  match gcount o with Some n => truncate n hits | None => hits end.

Section GeoCommands.
Context `{SetData.IndexSet} `{HashOrder} `{UnicodeCase} `{OrderedFloat} `{F64Format} `{GeoMath} (thr : ZSetData.ZSetThresholds).

Definition to_meters (value : f64) (unit : bytes) : Result f64 :=
  let u := to_uppercase unit in
  if bool_decide (u = bstr "M") then inr value
  else if bool_decide (u = bstr "KM") then inr (f64_mul value THOUSAND)
  else if bool_decide (u = bstr "MI") then inr (f64_mul value METERS_PER_MILE)
  else if bool_decide (u = bstr "FT") then inr (f64_mul value METERS_PER_FOOT)
  else inl (Generic (bstr "unsupported unit: " ++ unit)).

Definition from_meters (meters : f64) (unit : bytes) : f64 :=
  let u := to_uppercase unit in
  if bool_decide (u = bstr "KM") then f64_div meters THOUSAND
  else if bool_decide (u = bstr "MI") then f64_div meters METERS_PER_MILE
  else if bool_decide (u = bstr "FT") then f64_div meters METERS_PER_FOOT
  else meters.

Definition haversine_m (lon1 lat1 lon2 lat2 : f64) : f64 :=
  let dlat := to_radians (f64_sub lat2 lat1) in
  let dlon := to_radians (f64_sub lon2 lon1) in
  let lat1r := to_radians lat1 in
  let lat2r := to_radians lat2 in
  let a := f64_add (f64_powi (f64_sin (f64_div dlat TWO)) 2)
             (f64_mul (f64_mul (f64_cos lat1r) (f64_cos lat2r)) (f64_powi (f64_sin (f64_div dlon TWO)) 2)) in
  let c := f64_mul TWO (f64_atan2 (f64_sqrt a) (f64_sqrt (f64_sub ONE a))) in
  f64_mul EARTH_RADIUS_M c.

(** [arg.as_str().and_then(|s| s.parse().ok()).ok_or(NotFloat)]. *)
Definition number (arg : option Resp) : Result f64 := ok_or ((arg ≫= as_str) ≫= f64_parse) NotFloat.

(** [arg.as_str().map(|s| s.to_uppercase())]. *)
Definition word (arg : option Resp) : option bytes := to_uppercase <$> (arg ≫= as_str).

(** [arg.as_str().unwrap_or("").to_uppercase()]. *)
Definition option_word (arg : Resp) : bytes := to_uppercase (default [] (as_str arg)).

Definition get_geo_ro (e : Entry.t) : Result GeoData :=
  match Entry.value e with TGeo g => inr g | _ => inl WrongType end.

(** [get_geo_mut!]. *)
Definition get_geo_mut (now : Z) (key : bytes) (d : Database.t) : may_panic (Result GeoData * Entry.t * Database.t) :=
  let '(found, d) := Database.get now key d in
  let d := match found with
           | None => Database.insert key (Entry.new (TGeo GeoData_new)) d
           | Some _ => d
           end in
  match Database.get_mut now key d with
  | (Some e, d) => Some (match Entry.value e with TGeo g => inr g | _ => inl WrongType end, e, d)
  | (None, _) => None
  end.

(** ** GEOADD *)

Fixpoint geo_flags (rest : list Resp) (o : GeoFlags) : GeoFlags * list Resp :=
  match rest with
  | [] => (o, [])
  | arg :: rest' =>
      match word (Some arg) with
      | None => (o, rest)
      | Some w =>
          if bool_decide (w = bstr "NX") then geo_flags rest' (mkGeoFlags true (geo_xx o) (geo_ch o))
          else if bool_decide (w = bstr "XX") then geo_flags rest' (mkGeoFlags (geo_nx o) true (geo_ch o))
          else if bool_decide (w = bstr "CH") then geo_flags rest' (mkGeoFlags (geo_nx o) (geo_xx o) true)
          else (o, rest)
      end
  end.

Definition bad_pair : NexradeError := Generic (bstr "invalid longitude,latitude pair").

(** The coordinates of a triple. *)
Definition read_point (lon lat : Resp) : Result GeoPoint :=
  let! lon := number (Some lon) in
  let! lat := number (Some lat) in
  if negb (f64_leb LON_LOW lon && f64_leb lon LON_LIMIT) || negb (f64_leb MERCATOR_LOW lat && f64_leb lat MERCATOR_LIMIT)
  then inl bad_pair
  else inr (mkGeoPoint lon lat).

(** The triples: members added, members changed, bytes added; an error leaves the
    triples before it done. *)
Fixpoint geoadd_loop (o : GeoFlags) (rest : list Resp) (acc : Z * Z * Z) (g : GeoData) : Result (Z * Z * Z) * GeoData :=
  match rest with
  | lon :: lat :: m :: rest =>
      match read_point lon lat with
      | inl e => (inl e, g)
      | inr pt =>
          let member := member_of m in
          let exists_ := bool_decide (is_Some (geo_members g !! member)) in
          if (geo_xx o && negb exists_) || (geo_nx o && exists_) then geoadd_loop o rest acc g
          else
            let '(added, changed, delta) := acc in
            let acc := if exists_ then (added, changed + 1, delta)%Z else (added + 1, changed, delta + 24)%Z in
            geoadd_loop o rest acc (mkGeoData (<[member := pt]> (geo_members g)))
      end
  | _ => (inr acc, g)
  end.

Definition put_geo (key : bytes) (e : Entry.t) (g : GeoData) (d : Database.t) : Database.t :=
  Database.write_back key (Entry.set_value (TGeo g) e) d.

Definition geoadd_write (now : Z) (key : bytes) (o : GeoFlags) (rest : list Resp) (d : Database.t) : may_panic (Result Resp * Database.t) :=
  '(r, e, d) ← get_geo_mut now key d;
  let? g := r at d in
  let '(r, g) := geoadd_loop o rest (0, 0, 0)%Z g in
  let d := put_geo key e g d in
  match r with
  | inl err => Some (inl err, d)
  | inr (added, changed, delta) =>
      Some (inr (int (if geo_ch o then added + changed else added)%Z), Database.adjust_live_bytes delta d)
  end.

Definition geoadd_body (now : Z) (key : bytes) (o : GeoFlags) (rest : list Resp) (d : Database.t) : may_panic (Result Resp * Database.t) :=
  if geo_xx o then
    let '(found, d) := Database.get now key d in
    match found with
    | None => Some (inr (int 0), d)
    | Some _ => geoadd_write now key o rest d
    end
  else geoadd_write now key o rest d.

Definition cmd_geoadd (now : Z) (args : list Resp) (s : t) : may_panic (Result Resp * t) :=
  if bool_decide (length args < 5) then Some (inl (WrongArity (bstr "geoadd")), s)
  else
    let? key := get_str args 1 "GEOADD" at s in
    let '(o, rest) := geo_flags (drop 2 args) (mkGeoFlags false false false) in
    if bool_decide (length rest mod 3 <> 0) then Some (inl SyntaxError, s)
    else on_shard (shard_idx s key) (geoadd_body now key o rest) s.

(** ** GEOPOS, GEODIST and GEOHASH *)

(** The point of a member; a key of another type has none. *)
Definition point_of (found : option Entry.t) (member : bytes) : option GeoPoint :=
  e ← found; match Entry.value e with TGeo g => geo_members g !! member | _ => None end.

Definition point_reply (lon lat : f64) : Resp := array [bulk_str (f64_fixed17 lon); bulk_str (f64_fixed17 lat)].

Definition cmd_geopos (now : Z) (args : list Resp) (s : t) : may_panic (Result Resp * t) :=
  if bool_decide (length args < 3) then Some (inl (WrongArity (bstr "geopos")), s)
  else
    let? key := get_str args 1 "GEOPOS" at s in
    found ← read_for key (Database.get_ro now key) s;
    Some (inr (array (map (fun arg =>
      match point_of found (member_of arg) with
      | Some pt => point_reply (longitude pt) (latitude pt)
      | None => Array None
      end) (drop 2 args))), s).

Definition cmd_geodist (now : Z) (args : list Resp) (s : t) : may_panic (Result Resp * t) :=
  if bool_decide (length args < 4) then Some (inl (WrongArity (bstr "geodist")), s)
  else
    let? key := get_str args 1 "GEODIST" at s in
    m1 ← member_of <$> args !! 2;
    m2 ← member_of <$> args !! 3;
    let unit := default (bstr "m") (args !! 4 ≫= as_str) in
    found ← read_for key (Database.get_ro now key) s;
    match found with
    | None => Some (inr (Array None), s)
    | Some e =>
        let? g := get_geo_ro e at s in
        Some (inr (match geo_members g !! m1, geo_members g !! m2 with
                   | Some p1, Some p2 =>
                       let dist_m := haversine_m (longitude p1) (latitude p1) (longitude p2) (latitude p2) in
                       bulk_str (f64_fixed4 (from_meters dist_m unit))
                   | _, _ => Array None
                   end), s)
    end.

(** The replies of GEOHASH, one after the other. *)
Fixpoint geohash_rows (found : option Entry.t) (args : list Resp) : may_panic (list Resp) :=
  match args with
  | [] => Some []
  | arg :: args =>
      r ← match point_of found (member_of arg) with
          | Some pt => bulk_str <$> geohash_encode (longitude pt) (latitude pt)
          | None => Some (Array None)
          end;
      rows ← geohash_rows found args;
      Some (r :: rows)
  end.

Definition cmd_geohash (now : Z) (args : list Resp) (s : t) : may_panic (Result Resp * t) :=
  if bool_decide (length args < 3) then Some (inl (WrongArity (bstr "geohash")), s)
  else
    let? key := get_str args 1 "GEOHASH" at s in
    found ← read_for key (Database.get_ro now key) s;
    rows ← geohash_rows found (drop 2 args);
    Some (inr (array rows), s).

(** ** Searches *)

(** A member within the radius. *)
Definition hit_of (lon lat radius_m : f64) (p : bytes * GeoPoint) : option Hit :=
  let dist := haversine_m lon lat (longitude p.2) (latitude p.2) in
  if f64_leb dist radius_m then Some (mkHit p.1 dist (longitude p.2) (latitude p.2)) else None.

Definition hits_in (lon lat radius_m : f64) (g : GeoData) : list Hit :=
  omap (hit_of lon lat radius_m) (hm_iter (geo_members g)).

Definition hit_reply (o : GeoOptions) (unit : bytes) (h : Hit) : Resp :=
  if withdist o || withcoord o then
    array ([bulk (hit_member h)]
           ++ (if withdist o then [bulk_str (f64_fixed4 (from_meters (hit_dist h) unit))] else [])
           ++ (if withcoord o then [point_reply (hit_lon h) (hit_lat h)] else []))
  else bulk (hit_member h).

Definition geo_search_results (g : GeoData) (lon lat radius_m : f64) (o : GeoOptions) (unit : bytes) : list Resp :=
  map (hit_reply o unit) (arranged o (hits_in lon lat radius_m g)).

(** [COUNT n]; a number that does not parse is no count. *)
Definition count_arg (rest : list Resp) : option Z := (head rest ≫= as_str) ≫= parse_usize.

Fixpoint geo_options (rest : list Resp) (o : GeoOptions) : GeoOptions :=
  match rest with
  | [] => o
  | arg :: rest =>
      let w := option_word arg in
      let '(mkGeoOptions wc wd a d n) := o in
      if bool_decide (w = bstr "WITHCOORD") then geo_options rest (mkGeoOptions true wd a d n)
      else if bool_decide (w = bstr "WITHDIST") then geo_options rest (mkGeoOptions wc true a d n)
      else if bool_decide (w = bstr "ASC") then geo_options rest (mkGeoOptions wc wd true d n)
      else if bool_decide (w = bstr "DESC") then geo_options rest (mkGeoOptions wc wd a true n)
      else if bool_decide (w = bstr "COUNT") then
        let o := mkGeoOptions wc wd a d (count_arg rest) in
        match rest with [] => o | _ :: rest => geo_options rest o end
      else geo_options rest o
  end.

Definition no_such_member : NexradeError := Generic (bstr "could not hget key").

(** The last step of the searches: the key is read, and a missing one is empty. *)
Definition search_key (now : Z) (key : bytes) (f : GeoData -> Result Resp) (s : t) : may_panic (Result Resp * t) :=
  found ← read_for key (Database.get_ro now key) s;
  match found with
  | None => Some (inr (array []), s)
  | Some e => let? g := get_geo_ro e at s in Some (f g, s)
  end.

Definition cmd_georadius (now : Z) (args : list Resp) (s : t) : may_panic (Result Resp * t) :=
  if bool_decide (length args < 6) then Some (inl (WrongArity (bstr "georadius")), s)
  else
    let? key := get_str args 1 "GEORADIUS" at s in
    let? lon := number (args !! 2) at s in
    let? lat := number (args !! 3) at s in
    let? radius_val := number (args !! 4) at s in
    let? unit := ok_or (args !! 5 ≫= as_str) SyntaxError at s in
    let? radius_m := to_meters radius_val unit at s in
    let o := geo_options (drop 6 args) no_options in
    search_key now key (fun g => inr (array (geo_search_results g lon lat radius_m o unit))) s.

Definition cmd_georadiusbymember (now : Z) (args : list Resp) (s : t) : may_panic (Result Resp * t) :=
  if bool_decide (length args < 5) then Some (inl (WrongArity (bstr "georadiusbymember")), s)
  else
    let? key := get_str args 1 "GEORADIUSBYMEMBER" at s in
    member ← member_of <$> args !! 2;
    let? radius_val := number (args !! 3) at s in
    let? unit := ok_or (args !! 4 ≫= as_str) SyntaxError at s in
    let? radius_m := to_meters radius_val unit at s in
    let o := geo_options (drop 5 args) no_options in
    search_key now key (fun g =>
      let! center := ok_or (geo_members g !! member) no_such_member in
      inr (array (geo_search_results g (longitude center) (latitude center) radius_m o unit))) s.

(** The center of GEOSEARCH and GEOSEARCHSTORE, and where the arguments go on. *)
Definition search_center (now : Z) (key : bytes) (no_member : NexradeError) (args : list Resp) (i : nat) (s : t) :
    may_panic (Result (f64 * f64 * nat)) :=
  let w := word (args !! i) in
  if bool_decide (w = Some (bstr "FROMLONLAT")) then
    Some (let! lon := number (args !! (i + 1)) in
          let! lat := number (args !! (i + 2)) in
          inr (lon, lat, i + 3))
  else if bool_decide (w = Some (bstr "FROMMEMBER")) then
    member ← member_of <$> args !! (i + 1);
    found ← read_for key (Database.get_ro now key) s;
    Some (let! e := ok_or found (Generic (bstr "no such key")) in
          let! g := get_geo_ro e in
          let! pt := ok_or (geo_members g !! member) no_member in
          inr (longitude pt, latitude pt, i + 2))
  else Some (inl SyntaxError).

(** BYRADIUS, or BYBOX with half of the diagonal; the unit, and where the options are. *)
Definition search_area (args : list Resp) (i : nat) : Result (f64 * bytes * nat) :=
  let w := word (args !! i) in
  if bool_decide (w = Some (bstr "BYRADIUS")) then
    let! r := number (args !! (i + 1)) in
    let! u := ok_or (args !! (i + 2) ≫= as_str) SyntaxError in
    let! rm := to_meters r u in
    inr (rm, u, i + 3)
  else if bool_decide (w = Some (bstr "BYBOX")) then
    let! w := number (args !! (i + 1)) in
    let! h := number (args !! (i + 2)) in
    let! u := ok_or (args !! (i + 3) ≫= as_str) SyntaxError in
    let! wm := to_meters w u in
    let! hm := to_meters h u in
    inr (f64_sqrt (f64_add (f64_powi (f64_div wm TWO) 2) (f64_powi (f64_div hm TWO) 2)), u, i + 4)
  else inl SyntaxError.

Definition cmd_geosearch (now : Z) (args : list Resp) (s : t) : may_panic (Result Resp * t) :=
  if bool_decide (length args < 6) then Some (inl (WrongArity (bstr "geosearch")), s)
  else
    let? key := get_str args 1 "GEOSEARCH" at s in
    r ← search_center now key no_such_member args 2 s;
    let? (lon, lat, idx) := r at s in
    let? (radius_m, unit, idx) := search_area args idx at s in
    let o := geo_options (drop idx args) no_options in
    search_key now key (fun g => inr (array (geo_search_results g lon lat radius_m o unit))) s.

(** ** GEOSEARCHSTORE *)

Definition no_with : NexradeError := Generic (bstr "GEOSEARCHSTORE does not support WITHDIST/WITHCOORD/WITHHASH").

Fixpoint store_options (rest : list Resp) (o : GeoOptions) (storedist : bool) : Result (GeoOptions * bool) :=
  match rest with
  | [] => inr (o, storedist)
  | arg :: rest =>
      let w := option_word arg in
      let '(mkGeoOptions wc wd a d n) := o in
      if bool_decide (w = bstr "ASC") then store_options rest (mkGeoOptions wc wd true d n) storedist
      else if bool_decide (w = bstr "DESC") then store_options rest (mkGeoOptions wc wd a true n) storedist
      else if bool_decide (w = bstr "STOREDIST") then store_options rest o true
      else if bool_decide (w = bstr "COUNT") then
        let o := mkGeoOptions wc wd a d (count_arg rest) in
        match rest with [] => inr (o, storedist) | _ :: rest => store_options rest o storedist end
      else if bool_decide (w = bstr "WITHCOORD") || bool_decide (w = bstr "WITHDIST") || bool_decide (w = bstr "WITHHASH")
      then inl no_with
      else store_options rest o storedist
  end.

(** The distances as a sorted set. *)
Fixpoint dist_zset (unit : bytes) (hits : list Hit) (z : ZSetData.ZSetData) : may_panic ZSetData.ZSetData :=
  match hits with
  | [] => Some z
  | h :: hits => '(_, z) ← ZSetData.insert thr z (hit_member h) (from_meters (hit_dist h) unit); dist_zset unit hits z
  end.

Definition hits_geo (hits : list Hit) : GeoData :=
  mkGeoData (fold_left (fun m h => <[hit_member h := mkGeoPoint (hit_lon h) (hit_lat h)]> m) hits ∅).

(** What is stored for the hits. *)
Definition stored_value (storedist : bool) (unit : bytes) (hits : list Hit) : may_panic DataType :=
  if storedist then TZSet <$> dist_zset unit hits ZSetData.new else Some (TGeo (hits_geo hits)).

Definition cmd_geosearchstore (now : Z) (args : list Resp) (s : t) : may_panic (Result Resp * t) :=
  if bool_decide (length args < 7) then Some (inl (WrongArity (bstr "geosearchstore")), s)
  else
    let? dest := get_str args 1 "GEOSEARCHSTORE" at s in
    let? key := get_str args 2 "GEOSEARCHSTORE" at s in
    r ← search_center now key (Generic (bstr "could not decode requested zset member")) args 3 s;
    let? (lon, lat, idx) := r at s in
    let? (radius_m, unit, idx) := search_area args idx at s in
    let? (o, storedist) := store_options (drop idx args) no_options false at s in
    found ← read_for key (Database.get_ro now key) s;
    match found with
    | None =>
        '(_, s) ← on_shard (shard_idx s dest) (fun d => Some (Database.remove dest d)) s;
        Some (inr (int 0), s)
    | Some e =>
        let? g := get_geo_ro e at s in
        let hits := arranged o (hits_in lon lat radius_m g) in
        v ← stored_value storedist unit hits;
        '(_, s) ← on_shard (shard_idx s dest) (fun d => Some ((), Database.insert dest (Entry.new v) d)) s;
        Some (inr (int (Z.of_nat (length hits))), s)
    end.
End GeoCommands.
