(* ===== verification/GeoSpec.v ===== *)
(** * GeoSpec: the geospatial commands on maps of points

    What clients see of a geo key is a finite map from members to points.  GEOADD
    joins the points of its triples to it, searches answer with the members whose
    distance is at most the radius, ordered and counted as asked.  The distance
    itself is whatever the trigonometric functions make it. *)

From S2P Require Import Prelude Text Doubles DoubleArith Types Keyspace KeyspaceInvariant KeyspaceSpec.
From S2P Require Import Shards ShardsSpec ShardsMoves Resp CommandArgs ValueCells GeoCommands.
From S2P Require SetData ZSetData.

Import ShardedDatabase.

#[local] Arguments Database.remove : simpl never.
#[local] Arguments Database.adjust_live_bytes : simpl never.
#[local] Arguments Database.get : simpl never.
#[local] Arguments Database.get_mut : simpl never.
#[local] Arguments Database.insert : simpl never.
#[local] Arguments haversine_m : simpl never.
#[local] Arguments from_meters : simpl never.
#[local] Arguments f64_leb : simpl never.

#[export] Instance GeoPoint_eq_dec : EqDecision GeoPoint.
Proof. solve_decision. Defined.

(** ** The points after a GEOADD *)

Abbreviation Points := (gmap bytes GeoPoint).
Abbreviation Triple := (bytes * GeoPoint)%type.

(** Without flags the last triple of a member counts and replaces the point that was
    there; NX keeps the points that are there and takes the first triple of a new
    member; XX replaces only; both flags leave everything. *)
Definition placed (o : GeoFlags) (ts : list Triple) (m : Points) : Points :=
  if geo_nx o then if geo_xx o then m else m ∪ list_to_map ts
  else if geo_xx o then filter (fun p => is_Some (m !! p.1)) (list_to_map (reverse ts)) ∪ m
  else list_to_map (reverse ts) ∪ m.

(** How many triples write a point. *)
Definition written (o : GeoFlags) (ts : list Triple) (m : Points) : nat :=
  if geo_nx o then if geo_xx o then 0 else size (placed o ts m) - size m
  else if geo_xx o then length (filter (fun p : Triple => is_Some (m !! p.1)) ts)
  else length ts.

(** One triple. *)
Definition writes (o : GeoFlags) (x : bytes) (m : Points) : bool :=
  negb ((geo_xx o && negb (bool_decide (is_Some (m !! x)))) || (geo_nx o && bool_decide (is_Some (m !! x)))).

Lemma placed_cons o x p ts m : placed o ((x, p) :: ts) m = placed o ts (if writes o x m then <[x := p]> m else m).
Proof.
  unfold placed, writes. apply map_eq. intros j. rewrite reverse_cons, list_to_map_app.
  set (L := list_to_map (reverse ts) : Points). set (L' := list_to_map ts : Points).
  assert (Hs : forall q : GeoPoint, is_Some (Some q)) by eauto.
  destruct (geo_nx o), (geo_xx o); simpl; rewrite ?orb_false_r, ?negb_involutive.
  - by repeat case_bool_decide.
  - fold L'. case_bool_decide as Hx; simpl; rewrite !lookup_union; (destruct (decide (j = x)) as [->|Hj]; [|by rewrite ?lookup_insert_ne]);
      rewrite ?lookup_insert_eq; destruct (m !! x); (by destruct (L' !! x)) || (by destruct Hx).
  - case_bool_decide as Hx; rewrite !lookup_union, !map_lookup_filter, lookup_union;
      (destruct (decide (j = x)) as [->|Hj]; [rewrite ?lookup_insert_eq; destruct (L !! x)|
        rewrite ?(lookup_insert_ne ∅), lookup_empty, (right_id_L None _) by done; destruct (L !! j)]);
      simpl; repeat case_guard as Hg; rewrite ?lookup_insert_eq, ?lookup_insert_ne in * by done; simpl in *; try done;
      repeat case_guard; try done; try (by destruct Hx); by destruct (m !! x).
  - rewrite !lookup_union. destruct (decide (j = x)) as [->|Hj].
    + rewrite !lookup_insert_eq. by destruct (L !! x), (m !! x).
    + rewrite !lookup_insert_ne, lookup_empty by done. by rewrite (right_id_L None _).
Qed.

Lemma placed_grows o ts m : size m <= size (placed o ts m).
Proof.
  rewrite <- !size_dom. apply subseteq_size. intros x Hx. apply elem_of_dom in Hx as [p Hp]. apply elem_of_dom. unfold placed.
  destruct (geo_nx o), (geo_xx o); rewrite ?lookup_union_is_Some, Hp; eauto.
Qed.

Lemma written_cons o x p ts m : written o ((x, p) :: ts) m =
  (if writes o x m then 1 else 0) + written o ts (if writes o x m then <[x := p]> m else m).
Proof.
  unfold written. rewrite placed_cons. pose proof (placed_grows o ts (if writes o x m then <[x := p]> m else m)) as G.
  unfold writes in *. destruct (geo_nx o), (geo_xx o); simpl in *; rewrite ?orb_false_r, ?negb_involutive in *.
  - by case_bool_decide.
  - case_bool_decide as Hx; simpl in *; [done|]. rewrite map_size_insert_None in * by (by apply eq_None_not_Some). lia.
  - rewrite filter_cons. case_bool_decide as Hx; simpl.
    + rewrite decide_True by done. simpl. f_equal. f_equal. apply list_filter_iff. intros [j q]. simpl.
      destruct (decide (j = x)) as [->|]; [rewrite lookup_insert_eq; split; eauto|by rewrite lookup_insert_ne].
    + by rewrite decide_False.
  - done.
Qed.

Lemma placed_nil o m : placed o [] m = m.
Proof.
  unfold placed. destruct (geo_nx o), (geo_xx o); [done|by rewrite list_to_map_nil, (right_id_L ∅ _)|..];
    rewrite reverse_nil, list_to_map_nil, ?map_filter_empty; by rewrite (left_id_L ∅ _).
Qed.

Lemma written_nil o m : written o [] m = 0.
Proof. unfold written. rewrite placed_nil. destruct (geo_nx o), (geo_xx o); simpl; lia. Qed.

(** ** Geohash *)

(** The middles the loop compares with, and of which axis they are. *)
Definition middle (lo hi : f64) : f64 := f64_div (f64_add lo hi) TWO.

Fixpoint visited (lon lat : f64) (n : nat) (a b c d : f64) (on_lon : bool) : list (bool * f64) :=
  match n with
  | 0 => []
  | S n =>
      if on_lon then let '(a', b', _) := geohash_step lon a b in (true, middle a b) :: visited lon lat n a' b' c d false
      else let '(c', d', _) := geohash_step lat c d in (false, middle c d) :: visited lon lat n a b c' d' true
  end.

(** Coordinates that compare alike with the middles have one hash. *)
Lemma geohash_agree lon lat lon' lat' n : forall st,
  Forall (fun q : bool * f64 => f64_leb q.2 (if q.1 then lon else lat) = f64_leb q.2 (if q.1 then lon' else lat'))
    (visited lon' lat' n (min_lon st) (max_lon st) (min_lat st) (max_lat st) (is_lon st)) ->
  geohash_loop lon lat n st = geohash_loop lon' lat' n st.
Proof.
  induction n as [|n IH]; intros [a b c d out bs k []] Hv; [done..| |]; cbn [visited min_lon max_lon min_lat max_lat is_lon] in Hv;
    cbn [geohash_loop min_lon max_lon min_lat max_lat is_lon result bits bit_count]; unfold geohash_step in *; cbv zeta in *;
    fold (middle a b) (middle c d) in *.
  - assert (E : f64_leb (middle a b) lon = f64_leb (middle a b) lon').
    { destruct (f64_leb (middle a b) lon') eqn:E0; apply Forall_cons in Hv as [Hq _]; cbn [fst snd] in Hq; congruence. }
    rewrite E. destruct (f64_leb (middle a b) lon'); apply Forall_cons in Hv as [_ Hv]; cbn [negb fst snd];
      (case_bool_decide; [destruct (BASE32 !! _); cbn [mbind option_bind]; [case_bool_decide; [done|]|done]|]; by apply IH).
  - assert (E : f64_leb (middle c d) lat = f64_leb (middle c d) lat').
    { destruct (f64_leb (middle c d) lat') eqn:E0; apply Forall_cons in Hv as [Hq _]; cbn [fst snd] in Hq; congruence. }
    rewrite E. destruct (f64_leb (middle c d) lat'); apply Forall_cons in Hv as [_ Hv]; cbn [negb fst snd];
      (case_bool_decide; [destruct (BASE32 !! _); cbn [mbind option_bind]; [case_bool_decide; [done|]|done]|]; by apply IH).
Qed.

(** A coordinate, and one that stands for its side of zero. *)
Definition side (low x : f64) : f64 := if f64_leb ZERO x then ZERO else low.

Lemma same_side low x m : is_nan x = false -> f64_ltb low ZERO = true ->
  (if f64_leb ZERO x then f64_leb m ZERO else f64_leb ZERO m) = true -> f64_leb m x = f64_leb m (side low x).
Proof.
  intros Hx Hl Hm. unfold side. unfold f64_leb, f64_ltb in *. rewrite Hx in *. assert (is_nan ZERO = false) as Hz by done. rewrite Hz in *.
  destruct (is_nan m) eqn:Em, (is_nan low) eqn:El; simpl in *; try done; try (by destruct (bool_decide (okey ZERO <= okey x)%Z)).
  apply bool_decide_eq_true in Hl. destruct (bool_decide (okey ZERO <= okey x)%Z) eqn:E0; simpl in Hm; apply bool_decide_eq_true in Hm.
  - apply bool_decide_eq_true in E0. rewrite Hz. simpl. rewrite !bool_decide_eq_true_2; [done|lia..].
  - apply bool_decide_eq_false in E0. rewrite El. simpl. rewrite !bool_decide_eq_false_2; [done|lia..].
Qed.

(** The hashes of the four quadrants. *)
Definition quadrant (east north : bool) : bytes :=
  bstr (if east then if north then "zzzzzzzzzzz" else "pbpbpbpbpbp" else if north then "bpbpbpbpbpb" else "00000000000").

(** The hash of a point tells the signs of its coordinates and nothing else, because the
    loop goes on in the half the coordinate is not in. *)
Lemma geohash_tells_the_quadrant lon lat : is_nan lon = false -> is_nan lat = false ->
  geohash_encode lon lat = Some (quadrant (f64_leb ZERO lon) (f64_leb ZERO lat)).
Proof.
  intros Hlon Hlat. unfold geohash_encode. rewrite (geohash_agree lon lat (side LON_LOW lon) (side LAT_LOW lat)).
  - unfold side. destruct (f64_leb ZERO lon), (f64_leb ZERO lat); by vm_compute.
  - assert (V : Forall (fun q : bool * f64 => (if f64_leb ZERO (if q.1 then lon else lat) then f64_leb q.2 ZERO else f64_leb ZERO q.2) = true)
      (visited (side LON_LOW lon) (side LAT_LOW lat) 55 LON_LOW LON_LIMIT LAT_LOW LAT_LIMIT true)).
    { unfold side. assert (D : forall e n : bool, forallb (fun q : bool * f64 => if (if q.1 then e else n) then f64_leb q.2 ZERO else f64_leb ZERO q.2)
        (visited (if e then ZERO else LON_LOW) (if n then ZERO else LAT_LOW) 55 LON_LOW LON_LIMIT LAT_LOW LAT_LIMIT true) = true)
        by (intros [] []; by vm_compute).
      specialize (D (f64_leb ZERO lon) (f64_leb ZERO lat)). rewrite forallb_forall in D. apply Forall_forall. intros q Hq.
      apply list_elem_of_In, D in Hq. by destruct q as [[] m]. }
    eapply Forall_impl; [exact V|]. intros [[] m] Hm; by apply same_side.
Qed.

(** ** Order and number of the hits *)

Lemma place_perm {A} before (x : A) l : place before x l ≡ₚ x :: l.
Proof. induction l as [|y l IH]; simpl; [done|]. destruct (before y x); [|done]. rewrite IH. by rewrite Permutation_swap. Qed.

Lemma sort_by_perm {A} before (l : list A) : sort_by before l ≡ₚ l.
Proof. induction l as [|x l IH]; simpl; [done|]. by rewrite place_perm, IH. Qed.

(** A comparison by a key sorts by it. *)
Lemma sort_by_sorted {A} before (key : A -> Z) (l : list A) :
  (forall x y, x ∈ l -> y ∈ l -> before x y = bool_decide (key x < key y)%Z) ->
  StronglySorted (fun x y => (key x <= key y)%Z) (sort_by before l).
Proof.
  induction l as [|x l IH]; intros Hb; simpl; [constructor|].
  assert (IH' : StronglySorted (fun x y => (key x <= key y)%Z) (sort_by before l)) by (apply IH; intros; apply Hb; set_solver).
  assert (Hin : forall y, y ∈ sort_by before l -> before y x = bool_decide (key y < key x)%Z).
  { intros y Hy. rewrite sort_by_perm in Hy. apply Hb; set_solver. }
  clear IH Hb. induction IH' as [|y l' Hs IH Hy]; simpl; [by repeat constructor|].
  rewrite (Hin y) by set_solver. case_bool_decide as E.
  - constructor; [apply IH; set_solver|]. rewrite place_perm. constructor; [lia|done].
  - constructor; [by constructor|]. constructor; [lia|]. eapply Forall_impl; [exact Hy|]. simpl. lia.
Qed.

Lemma truncate_take {A} n (l : list A) : truncate n l = take (Z.to_nat n) l.
Proof. unfold truncate. case_bool_decide; [|done]. rewrite take_ge; [done|lia]. Qed.

Definition first_hits (o : GeoOptions) (hits : list Hit) : list Hit :=
  match gcount o with Some n => take (Z.to_nat n) hits | None => hits end.

(** ASC and DESC; without them the order is open, with both it is that of ASC. *)
Definition ordered (o : GeoOptions) (hits : list Hit) : Prop :=
  if asc o then StronglySorted (fun a b => f64_leb (hit_dist a) (hit_dist b) = true) hits
  else if desc o then StronglySorted (fun a b => f64_leb (hit_dist b) (hit_dist a) = true) hits
  else True.

Lemma StronglySorted_impl_in {A} (R R' : A -> A -> Prop) l : (forall x y, x ∈ l -> y ∈ l -> R x y -> R' x y) ->
  StronglySorted R l -> StronglySorted R' l.
Proof.
  intros H S. induction S as [|x l S IH Hx]; constructor; [apply IH; intros; apply H; set_solver|].
  apply Forall_forall. intros y Hy. rewrite Forall_forall in Hx. apply H; [set_solver..|by apply Hx].
Qed.

(** Distances that are numbers are arranged as asked. *)
Lemma arranged_spec o hits : Forall (fun h => is_nan (hit_dist h) = false) hits ->
  exists l, l ≡ₚ hits /\ ordered o l /\ arranged o hits = first_hits o l.
Proof.
  intros Hn. unfold arranged, ordered, first_hits.
  exists (if asc o then sort_by nearer hits else if desc o then sort_by (fun a b => nearer b a) hits else hits).
  split; [destruct (asc o), (desc o); by rewrite ?sort_by_perm|]. split.
  - rewrite Forall_forall in Hn. destruct (asc o); [|destruct (desc o); [|done]].
    + eapply StronglySorted_impl_in, (sort_by_sorted _ (fun h => okey (hit_dist h))).
      * intros x y Hx Hy Hxy. rewrite sort_by_perm in Hx, Hy. unfold f64_leb. rewrite !Hn by done. by apply bool_decide_eq_true.
      * intros x y Hx Hy. unfold nearer, f64_ltb. by rewrite !Hn.
    + eapply StronglySorted_impl_in, (sort_by_sorted _ (fun h => (- okey (hit_dist h))%Z)).
      * intros x y Hx Hy Hxy. rewrite sort_by_perm in Hx, Hy. unfold f64_leb. rewrite !Hn by done. apply bool_decide_eq_true. simpl in Hxy. lia.
      * intros x y Hx Hy. unfold nearer, f64_ltb. rewrite !Hn by done. simpl. apply bool_decide_ext. lia.
  - destruct (gcount o); [|done]. apply truncate_take.
Qed.

Section Geo.
Context `{SetData.IndexSet} `{HashOrder} `{UnicodeCase} `{OrderedFloat} `{F64Format} `{GeoMath} (thr : ZSetData.ZSetThresholds).
Implicit Types (now : Z) (s : t) (d : Database.t) (k : bytes) (m : Points) (args : list Resp).

(** ** Geo values *)

(** The coordinates GEOADD accepts. *)
Definition valid_point (p : GeoPoint) : Prop :=
  f64_leb LON_LOW (longitude p) && f64_leb (longitude p) LON_LIMIT && (f64_leb MERCATOR_LOW (latitude p) && f64_leb (latitude p) MERCATOR_LIMIT) = true.

Definition geo_repr (g : GeoData) (m : Points) : Prop := geo_members g = m /\ map_Forall (fun _ p => valid_point p) m.

Definition geo_kind : Kind GeoData Points :=
  mkKind _ _ _ TGeo (fun v => match v with TGeo g => Some g | _ => None end) GeoData_new geo_repr ∅ (fun m => size m * 24).

#[export] Instance geo_kind_laws : KindLaws geo_kind.
Proof.
  split; try done; simpl.
  - intros x v Hx. destruct x; try done. by injection Hx as ->.
  - by intros v a [<- _].
Qed.

#[local] Notation Cell := (option (Content Points * option Z)).
#[local] Notation points_of := (contents geo_kind).
#[local] Notation sees now := (sees geo_kind now).

Lemma geo_open now k d : get_geo_mut now k d = get_or_insert_mut geo_kind now k d.
Proof.
  unfold get_geo_mut, get_or_insert_mut. destruct (Database.get now k d) as [found d1].
  change (fresh_entry geo_kind) with (Entry.new (TGeo GeoData_new)).
  set (d2 := match found with None => _ | Some _ => d1 end). clearbody d2.
  destruct (Database.get_mut now k d2) as [[e|] d3]; [|done]. simpl. by destruct (Entry.value e).
Qed.

Lemma valid_numbers p : valid_point p -> is_nan (longitude p) = false /\ is_nan (latitude p) = false.
Proof. unfold valid_point, f64_leb. destruct (is_nan (longitude p)), (is_nan (latitude p)); simpl; rewrite ?andb_false_r; by intros ?. Qed.

(** ** GEOADD *)

(** The triples before the first bad one, and its error. *)
Fixpoint triples (rest : list Resp) : list Triple * option NexradeError :=
  match rest with
  | lon :: lat :: m :: rest =>
      match read_point lon lat with
      | inl e => ([], Some e)
      | inr pt => let '(ts, bad) := triples rest in ((member_of m, pt) :: ts, bad)
      end
  | _ => ([], None)
  end.

Lemma read_point_valid lon lat p : read_point lon lat = inr p -> valid_point p.
Proof.
  unfold read_point. destruct (number (Some lon)) as [|x]; [done|]. destruct (number (Some lat)) as [|y]; [done|]. cbn [bindr].
  destruct (negb _ || negb _) eqn:E; [done|]. intros [= <-]. unfold valid_point. simpl. apply orb_false_iff in E as [E1 E2].
  by rewrite (proj1 (negb_false_iff _) E1), (proj1 (negb_false_iff _) E2).
Qed.

Lemma loop_spec (fl : GeoFlags) ts bad : forall rest, triples rest = (ts, bad) -> forall a c x g,
  let m := geo_members g in
  let grown := (Z.of_nat (size (placed fl ts m)) - Z.of_nat (size m))%Z in
  geoadd_loop fl rest (a, c, x) g =
    (match bad with
     | None => inr (a + grown, c + (Z.of_nat (written fl ts m) - grown), x + 24 * grown)%Z
     | Some e => inl e
     end, mkGeoData (placed fl ts m)).
Proof.
  induction ts as [|[y p] ts IH]; intros rest Ht a c x [m]; cbn [geo_members]; cbv zeta.
  - rewrite placed_nil, written_nil. destruct rest as [|lon [|lat [|m0 rest]]]; simpl in Ht |- *;
      [injection Ht as <-; repeat (lia || f_equal)..|].
    destruct (read_point lon lat) as [e|pt]; [by injection Ht as <-|]. by destruct (triples rest).
  - destruct rest as [|lon [|lat [|m0 rest]]]; try done. cbn [triples geoadd_loop] in *.
    destruct (read_point lon lat) as [e|pt]; [done|]. destruct (triples rest) as [ts' bad'] eqn:Et. injection Ht as <- <- -> ->.
    rewrite placed_cons, written_cons. cbn [geo_members]. unfold writes. set (y := member_of m0).
    destruct (geo_xx fl && _ || _) eqn:Ew; cbn [negb].
    + by rewrite (IH rest Et a c x (mkGeoData m)).
    + case_bool_decide as Hy; rewrite (IH rest Et); cbn [geo_members]; (destruct bad as [|]; [done|]); do 2 f_equal.
      * rewrite map_size_insert_Some by done. apply (f_equal2 pair); [apply (f_equal2 pair)|]; lia.
      * rewrite map_size_insert_None by (by apply eq_None_not_Some). apply (f_equal2 pair); [apply (f_equal2 pair)|]; lia.
Qed.

Lemma triples_valid ts bad : forall rest, triples rest = (ts, bad) -> Forall (fun p : Triple => valid_point p.2) ts.
Proof.
  induction ts as [|[y p] ts IH]; intros rest Ht; [done|]. destruct rest as [|lon [|lat [|m0 rest]]]; try done. cbn [triples] in Ht.
  destruct (read_point lon lat) as [e|pt] eqn:Er; [done|]. destruct (triples rest) as [ts' bad'] eqn:Et. injection Ht as <- <- -> ->.
  constructor; [by eapply read_point_valid|by eapply IH].
Qed.

Lemma placed_valid (fl : GeoFlags) ts m : Forall (fun p : Triple => valid_point p.2) ts -> map_Forall (fun _ p => valid_point p) m ->
  map_Forall (fun _ p => valid_point p) (placed fl ts m).
Proof.
  revert m. induction ts as [|[y p] ts IH]; intros m Ht Hm; [by rewrite placed_nil|]. rewrite placed_cons. apply Forall_cons in Ht as [Hp Ht].
  apply IH; [done|]. destruct (writes fl y m); [|done]. by apply map_Forall_insert_2.
Qed.
(** ** Requests *)

Inductive GeoCommand := GEOADD | GEOPOS | GEODIST | GEOHASH | GEORADIUS | GEORADIUSBYMEMBER | GEOSEARCH.

Inductive Center := At (lon lat : f64) | Of (member : bytes).

(** A search in a circle, with the reply for a missing key; the arguments after the
    center are read after it is found. *)
Inductive GeoRequest :=
  | QGeoAdd (fl : GeoFlags) (ts : list Triple) (bad : option NexradeError)
  | QGeoPos (members : list bytes)
  | QGeoDist (m1 m2 unit : bytes)
  | QGeoHash (members : list bytes)
  | QNear (c : Center) (nokey : Result Resp) (area : Result (f64 * bytes * GeoOptions)).

Definition exec_geo now (c : GeoCommand) args s : may_panic (Result Resp * t) :=
  match c with
  | GEOADD => cmd_geoadd now args s
  | GEOPOS => cmd_geopos now args s
  | GEODIST => cmd_geodist now args s
  | GEOHASH => cmd_geohash now args s
  | GEORADIUS => cmd_georadius now args s
  | GEORADIUSBYMEMBER => cmd_georadiusbymember now args s
  | GEOSEARCH => cmd_geosearch now args s
  end.

Definition arg_member args (i : nat) : bytes := default [] (member_of <$> args !! i).

(** The circle and the options of GEOSEARCH. *)
Definition area_request args (i : nat) : Result (f64 * bytes * GeoOptions) :=
  let! (radius, unit, i) := search_area args i in inr (radius, unit, geo_options (drop i args) no_options).

Definition no_members : Result Resp := inr (array []).
Definition no_key : Result Resp := inl (Generic (bstr "no such key")).

Definition geo_request (c : GeoCommand) args : Result (bytes * GeoRequest) :=
  match c with
  | GEOADD =>
      if bool_decide (length args < 5) then inl (wrong_arity "GEOADD")
      else
        let! key := get_str args 1 "GEOADD" in
        let '(fl, rest) := geo_flags (drop 2 args) (mkGeoFlags false false false) in
        if bool_decide (length rest mod 3 <> 0) then inl SyntaxError
        else let '(ts, bad) := triples rest in inr (key, QGeoAdd fl ts bad)
  | GEOPOS =>
      if bool_decide (length args < 3) then inl (wrong_arity "GEOPOS")
      else let! key := get_str args 1 "GEOPOS" in inr (key, QGeoPos (map member_of (drop 2 args)))
  | GEODIST =>
      if bool_decide (length args < 4) then inl (wrong_arity "GEODIST")
      else
        let! key := get_str args 1 "GEODIST" in
        inr (key, QGeoDist (arg_member args 2) (arg_member args 3) (default (bstr "m") (args !! 4 ≫= as_str)))
  | GEOHASH =>
      if bool_decide (length args < 3) then inl (wrong_arity "GEOHASH")
      else let! key := get_str args 1 "GEOHASH" in inr (key, QGeoHash (map member_of (drop 2 args)))
  | GEORADIUS =>
      if bool_decide (length args < 6) then inl (wrong_arity "GEORADIUS")
      else
        let! key := get_str args 1 "GEORADIUS" in
        let! lon := number (args !! 2) in
        let! lat := number (args !! 3) in
        let! radius := number (args !! 4) in
        let! unit := ok_or (args !! 5 ≫= as_str) SyntaxError in
        let! radius := to_meters radius unit in
        inr (key, QNear (At lon lat) no_members (inr (radius, unit, geo_options (drop 6 args) no_options)))
  | GEORADIUSBYMEMBER =>
      if bool_decide (length args < 5) then inl (wrong_arity "GEORADIUSBYMEMBER")
      else
        let! key := get_str args 1 "GEORADIUSBYMEMBER" in
        let! radius := number (args !! 3) in
        let! unit := ok_or (args !! 4 ≫= as_str) SyntaxError in
        let! radius := to_meters radius unit in
        inr (key, QNear (Of (arg_member args 2)) no_members (inr (radius, unit, geo_options (drop 5 args) no_options)))
  | GEOSEARCH =>
      if bool_decide (length args < 6) then inl (wrong_arity "GEOSEARCH")
      else
        let! key := get_str args 1 "GEOSEARCH" in
        if bool_decide (word (args !! 2) = Some (bstr "FROMLONLAT")) then
          let! lon := number (args !! 3) in
          let! lat := number (args !! 4) in
          let! area := area_request args 5 in
          inr (key, QNear (At lon lat) no_members (inr area))
        else if bool_decide (word (args !! 2) = Some (bstr "FROMMEMBER")) then
          inr (key, QNear (Of (arg_member args 3)) no_key (area_request args 4))
        else inl SyntaxError
  end.

(** ** What the commands do *)

(** The members at most [radius] meters away, arranged as asked. *)
Definition near (lon lat radius : f64) (o : GeoOptions) m (hits : list Hit) : Prop :=
  exists l, l ≡ₚ omap (hit_of lon lat radius) (map_to_list m) /\ ordered o l /\ hits = first_hits o l.

Definition near_reply (lon lat : f64) (area : Result (f64 * bytes * GeoOptions)) m (r : Result Resp) : Prop :=
  match area with
  | inl e => r = inl e
  | inr (radius, unit, o) => exists hits, near lon lat radius o m hits /\ r = inr (array (map (hit_reply o unit) hits))
  end.

Definition pos_reply m (x : bytes) : Resp :=
  match m !! x with Some p => point_reply (longitude p) (latitude p) | None => Array None end.

Definition hash_reply m (x : bytes) : Resp :=
  match m !! x with
  | Some p => bulk_str (quadrant (f64_leb ZERO (longitude p)) (f64_leb ZERO (latitude p)))
  | None => Array None
  end.

Definition dist_reply m (m1 m2 unit : bytes) : Resp :=
  match m !! m1, m !! m2 with
  | Some p1, Some p2 => bulk_str (f64_fixed4 (from_meters (haversine_m (longitude p1) (latitude p1) (longitude p2) (latitude p2)) unit))
  | _, _ => Array None
  end.

(** A value of another type has no points for GEOPOS and GEOHASH. *)
Definition points_or_none (cell : Cell) : Points := default ∅ (points_of cell).

Definition geo_post (q : GeoRequest) (cell : Cell) (r : Result Resp) (cell' : Cell) : Prop :=
  match q with
  | QGeoAdd fl ts bad =>
      match points_of cell with
      | None => r = inl WrongType /\ cell' = cell
      | Some m =>
          if geo_xx fl && bool_decide (cell = None) then r = inr (int 0) /\ cell' = None
          else
            cell' = Some (Own (placed fl ts m), cell ≫= snd) /\
            r = match bad with
                | None => inr (int (if geo_ch fl then Z.of_nat (written fl ts m) else Z.of_nat (size (placed fl ts m)) - Z.of_nat (size m)))
                | Some e => inl e
                end
      end
  | QGeoPos ms => r = inr (array (map (pos_reply (points_or_none cell)) ms)) /\ cell' = cell
  | QGeoHash ms => r = inr (array (map (hash_reply (points_or_none cell)) ms)) /\ cell' = cell
  | QGeoDist m1 m2 unit =>
      r = match points_of cell with Some m => inr (dist_reply m m1 m2 unit) | None => inl WrongType end /\ cell' = cell
  | QNear c nokey area =>
      match cell with
      | None => r = nokey
      | Some (Foreign _, _) => r = inl WrongType
      | Some (Own m, _) =>
          match c with
          | At lon lat => near_reply lon lat area m r
          | Of x =>
              match m !! x with
              | None => r = inl no_such_member
              | Some p => near_reply (longitude p) (latitude p) area m r
              end
          end
      end /\ cell' = cell
  end.

(** Before a bad triple no member is added. *)
Definition geo_ready (q : GeoRequest) (cell : Cell) : Prop :=
  match q with
  | QGeoAdd fl ts (Some _) => forall m, points_of cell = Some m -> size (placed fl ts m) = size m
  | _ => True
  end.

Definition geo_need (q : GeoRequest) (cell : Cell) : nat :=
  match q with
  | QGeoAdd fl ts _ => from_option (fun m => size (placed fl ts m) * 24) 0 (points_of cell)
  | _ => 0
  end.

#[local] Notation does now k q := (fulfils geo_kind now k (geo_ready q) (geo_need q) (geo_post q)).

(** ** GEOADD *)

Lemma write_does now k (fl : GeoFlags) (rest : list Resp) (ts : list Triple) (bad : option NexradeError) d (cell : Cell) : triples rest = (ts, bad) ->
  wf d -> sees now (Database.entries d !! k) cell -> geo_ready (QGeoAdd fl ts bad) cell ->
  (geo_xx fl = true -> cell <> None) ->
  (Z.of_nat (total_bytes d + (64 + length k + geo_need (QGeoAdd fl ts bad) cell)) < 2 ^ 64)%Z ->
  exists r d' o c', geoadd_write now k fl rest d = Some (r, d') /\ geo_post (QGeoAdd fl ts bad) cell r c' /\ dstep d d' k o /\ sees now o c'.
Proof.
  intros Ht W S Hr Hxx F. cbn [geo_ready geo_need geo_post] in *.
  destruct (get_or_insert_mut_step geo_kind now k d cell W S ltac:(lia)) as (r & e & d1 & E & D1 & X & Ex & P).
  unfold geoadd_write. rewrite geo_open, E. mstep. destruct (points_of cell) as [m|] eqn:Em.
  2: { destruct P as [-> Se]. cbn [try_at]. eexists _, d1, (Some e), cell. by split_and!. }
  destruct P as (g & -> & Ev & Rg). pose proof Rg as [Hg Hv]. cbn [try_at]. simpl in F.
  rewrite (loop_spec fl ts bad rest Ht 0 0 0 g). cbv zeta. rewrite Hg.
  assert (R' : geo_repr (mkGeoData (placed fl ts m)) (placed fl ts m)).
  { split; [done|]. apply placed_valid; [by eapply triples_valid|done]. }
  destruct (write_step geo_kind now d d1 k e g m (mkGeoData (placed fl ts m)) (placed fl ts m) D1 X Ev Rg R' F) as [D2 S2].
  rewrite Ex in S2. unfold weight_change in D2. simpl in D2.
  replace (geo_xx fl && bool_decide (cell = None)) with false.
  2: { destruct (geo_xx fl); [|done]. simpl. symmetry. by apply bool_decide_eq_false_2, Hxx. }
  destruct bad as [err|].
  - eexists _, _, _, _. split; [done|]. split; [by split|]. split; [|exact S2].
    rewrite (Hr m eq_refl), Z.sub_diag in D2. exact D2.
  - eexists _, _, _, _. split; [done|]. split; [split; [done|]|split; [|exact S2]].
    + do 2 f_equal. destruct (geo_ch fl); lia.
    + replace (0 + 24 * (Z.of_nat (size (placed fl ts m)) - Z.of_nat (size m)))%Z
        with (Z.of_nat (size (placed fl ts m) * 24) - Z.of_nat (size m * 24))%Z by lia. exact D2.
Qed.

Lemma add_does now k (fl : GeoFlags) (rest : list Resp) (ts : list Triple) (bad : option NexradeError) : triples rest = (ts, bad) ->
  does now k (QGeoAdd fl ts bad) (fun s => on_shard (shard_idx s k) (geoadd_body now k fl rest) s).
Proof.
  intros Ht. apply on_shard_fulfils. intros d cell W S Hr F. unfold geoadd_body. destruct (geo_xx fl) eqn:Exx.
  2: { apply write_does; try done. congruence. }
  destruct (open_step geo_kind now k d cell W S ltac:(lia)) as (found & d1 & E & D1 & Hf). rewrite E.
  destruct found as [e|].
  - destruct Hf as [Se Hne]. rewrite <- (dstep_slot _ _ _ _ D1) in Se. pose proof (dstep_total _ _ _ _ D1) as T.
    destruct (write_does now k fl rest ts bad d1 cell Ht (proj1 D1) Se Hr (fun _ => Hne)) as (r & d' & o & c' & E' & P & D' & S').
    { pose proof (get_on_shard now k d W) as (_ & _ & _ & _ & Hb). rewrite E in Hb. simpl in Hb. lia. }
    exists r, d', o, c'. split_and!; [done|done|by eapply dstep_trans|done].
  - destruct Hf as [-> _]. eexists _, d1, None, None. split; [done|]. split; [|by split]. simpl. rewrite Exx. by split.
Qed.
(** ** Reads *)

Lemma read_only_does now k (q : GeoRequest) (h : t -> may_panic (Result Resp * t)) : (forall s (cell : Cell), swf s -> sees now (slot s k) cell ->
  exists r, h s = Some (r, s) /\ geo_post q cell r cell) -> does now k q h.
Proof.
  intros B s M W S _ F. destruct (B s (M k) W (S k)) as (r & E & Hr). exists r, s, (M k).
  split_and!; [done..|]. intros j. case_decide; [subst|]; apply S.
Qed.

(** What the read guard shows of a cell. *)
Lemma look_geo now k s (cell : Cell) : sees now (slot s k) cell ->
  match live now (slot s k) with
  | None => cell = None
  | Some e =>
      match get_geo_ro e with
      | inr g => exists m x, cell = Some (Own m, x) /\ geo_repr g m /\ Entry.value e = TGeo g
      | inl err => err = WrongType /\ (exists u x, cell = Some (Foreign u, x)) /\ forall y, point_of (Some e) y = None
      end
  end.
Proof.
  unfold ValueCells.sees. destruct (live now (slot s k)) as [e|]; [|done]. intros (y & -> & Hy). unfold holds, get_geo_ro, point_of in *. simpl in *.
  destruct (Entry.value e); try (split_and!; [done|subst y; by eauto|done]). destruct Hy as (m & -> & R). eauto.
Qed.

Lemma point_of_cell now k s (cell : Cell) y : sees now (slot s k) cell -> point_of (live now (slot s k)) y = points_or_none cell !! y.
Proof.
  intros S. pose proof (look_geo now k s cell S) as L. destruct (live now (slot s k)) as [e|]; [|by subst cell].
  destruct (get_geo_ro e) as [err|g].
  - destruct L as (_ & (u & x & ->) & Hp). by rewrite Hp.
  - destruct L as (m & x & -> & [<- _] & Ev). unfold point_of. simpl. by rewrite Ev.
Qed.

Lemma cell_valid now k s (cell : Cell) : sees now (slot s k) cell -> map_Forall (fun _ p => valid_point p) (points_or_none cell).
Proof.
  intros S. pose proof (look_geo now k s cell S) as L. destruct (live now (slot s k)) as [e|]; [|by subst cell].
  destruct (get_geo_ro e) as [err|g].
  - by destruct L as (_ & (u & x & ->) & Hp).
  - by destruct L as (m & x & -> & [_ Hv] & Ev).
Qed.

Lemma pos_does now k args : does now k (QGeoPos (map member_of args)) (fun s =>
  found ← read_for k (Database.get_ro now k) s;
  Some (inr (array (map (fun arg => match point_of found (member_of arg) with
    | Some pt => point_reply (longitude pt) (latitude pt) | None => Array None end) args)), s)).
Proof.
  apply read_only_does. intros s cell W S. rewrite read_live by done. eexists. split; [done|]. split; [|done].
  do 2 f_equal. rewrite map_map. apply map_ext. intros a. by rewrite (point_of_cell now k s cell).
Qed.

Lemma hash_rows_spec now k s (cell : Cell) args : sees now (slot s k) cell ->
  geohash_rows (live now (slot s k)) args = Some (map (hash_reply (points_or_none cell)) (map member_of args)).
Proof.
  intros S. pose proof (cell_valid now k s cell S) as V. induction args as [|a args IH]; [done|]. cbn [geohash_rows map].
  rewrite (point_of_cell now k s cell (member_of a) S), IH. unfold hash_reply at 2.
  destruct (points_or_none cell !! member_of a) as [p|] eqn:Ep; [|done].
  destruct (valid_numbers p (V _ p Ep)) as [Hx Hy]. by rewrite (geohash_tells_the_quadrant _ _ Hx Hy).
Qed.

Lemma hash_does now k args : does now k (QGeoHash (map member_of args)) (fun s =>
  found ← read_for k (Database.get_ro now k) s;
  rows ← geohash_rows found args; Some (inr (array rows), s)).
Proof.
  apply read_only_does. intros s cell W S. rewrite read_live by done. rewrite (hash_rows_spec now k s cell args S). eexists. by split.
Qed.

Lemma dist_does now k (m1 m2 unit : bytes) : does now k (QGeoDist m1 m2 unit) (fun s =>
  found ← read_for k (Database.get_ro now k) s;
  match found with
  | None => Some (inr (Array None), s)
  | Some e =>
      let? g := get_geo_ro e at s in
      Some (inr (match geo_members g !! m1, geo_members g !! m2 with
                 | Some p1, Some p2 =>
                     let dist_m := haversine_m (longitude p1) (latitude p1) (longitude p2) (latitude p2) in
                     bulk_str (f64_fixed4 (from_meters dist_m unit))
                 | _, _ => Array None
                 end), s)
  end).
Proof.
  apply read_only_does. intros s cell W S. rewrite read_live by done. pose proof (look_geo now k s cell S) as L.
  destruct (live now (slot s k)) as [e|]; [|subst cell; eexists; split; [done|]; split; [by unfold dist_reply; simpl; rewrite lookup_empty|done]].
  destruct (get_geo_ro e) as [err|g]; cbn [try_at].
  - destruct L as (-> & (u & x & ->) & _). eexists. by split.
  - destruct L as (m & x & -> & [<- _] & _). eexists. by split.
Qed.

(** ** Searches *)

Lemma hits_near (lon lat radius : f64) (o : GeoOptions) (g : GeoData) m : geo_members g = m -> near lon lat radius o m (arranged o (hits_in lon lat radius g)).
Proof.
  intros <-. destruct (arranged_spec o (hits_in lon lat radius g)) as (l & P & O & ->).
  - apply Forall_forall. intros h Hh. apply list_elem_of_omap in Hh as (p & _ & Hp). unfold hit_of in Hp.
    destruct (f64_leb _ radius) eqn:E; [|done]. injection Hp as <-. simpl. unfold f64_leb in E. by destruct (is_nan (haversine_m _ _ _ _)).
  - exists l. split_and!; [|done..]. rewrite P. unfold hits_in. by rewrite hm_iter_perm.
Qed.

(** The key is looked at after the arguments. *)
Lemma circle_does now k (c : Center) (nokey : Result Resp) (area : Result (f64 * bytes * GeoOptions)) (f : GeoData -> Result Resp) :
  (forall g m, geo_repr g m -> match c with
     | At lon lat => near_reply lon lat area m (f g)
     | Of x => match m !! x with None => f g = inl no_such_member | Some p => near_reply (longitude p) (latitude p) area m (f g) end
     end) ->
  does now k (QNear c nokey area) (fun s =>
    found ← read_for k (Database.get_ro now k) s;
    match found with None => Some (nokey, s) | Some e => let? g := get_geo_ro e at s in Some (f g, s) end).
Proof.
  intros Hf. apply read_only_does. intros s cell W S. rewrite read_live by done. pose proof (look_geo now k s cell S) as L.
  destruct (live now (slot s k)) as [e|]; [|subst cell; eexists; by split].
  destruct (get_geo_ro e) as [err|g]; cbn [try_at].
  - destruct L as (-> & (u & x & ->) & _). eexists. by split.
  - destruct L as (m & x & -> & R & _). eexists. split; [done|]. split; [by apply Hf|done].
Qed.

Lemma results_near (lon lat radius : f64) (unit : bytes) (o : GeoOptions) (g : GeoData) m : geo_members g = m ->
  near_reply lon lat (inr (radius, unit, o)) m (inr (array (geo_search_results g lon lat radius o unit))).
Proof. intros E. eexists. split; [by apply hits_near|done]. Qed.

Lemma at_does now k (lon lat radius : f64) (unit : bytes) (o : GeoOptions) : does now k (QNear (At lon lat) no_members (inr (radius, unit, o)))
  (search_key now k (fun g => inr (array (geo_search_results g lon lat radius o unit)))).
Proof. unfold search_key. apply circle_does. intros g m [E _]. by apply results_near. Qed.

Lemma of_does now k (x : bytes) (radius : f64) (unit : bytes) (o : GeoOptions) : does now k (QNear (Of x) no_members (inr (radius, unit, o)))
  (search_key now k (fun g =>
     let! center := ok_or (geo_members g !! x) no_such_member in
     inr (array (geo_search_results g (longitude center) (latitude center) radius o unit)))).
Proof.
  unfold search_key. apply circle_does. intros g m [<- _]. destruct (geo_members g !! x) as [p|]; [|done]. by apply results_near.
Qed.
(** GEOSEARCH from a member looks at the key, goes on with the arguments and looks again. *)
Lemma from_member_does now k args (x : bytes) : does now k (QNear (Of x) no_key (area_request args 4)) (fun s =>
  found ← read_for k (Database.get_ro now k) s;
  let? (lon, lat, idx) := (let! e := ok_or found (Generic (bstr "no such key")) in
    let! g := get_geo_ro e in
    let! pt := ok_or (geo_members g !! x) no_such_member in
    inr (longitude pt, latitude pt, 4)) at s in
  let? (radius_m, unit, idx) := search_area args idx at s in
  search_key now k (fun g => inr (array (geo_search_results g lon lat radius_m (geo_options (drop idx args) no_options) unit))) s).
Proof.
  apply read_only_does. intros s cell W S. rewrite read_live by done. unfold search_key. pose proof (look_geo now k s cell S) as L.
  destruct (live now (slot s k)) as [e|] eqn:El; cbn [ok_or bindr try_at]; [|subst cell; eexists; by split].
  destruct (get_geo_ro e) as [err|g] eqn:Eg; cbn [bindr try_at].
  - destruct L as (-> & (u & y & ->) & _). eexists. by split.
  - destruct L as (m & y & -> & [<- _] & _). cbn [geo_post]. destruct (geo_members g !! x) as [p|]; cbn [ok_or bindr try_at]; [|eexists; by split].
    unfold area_request. destruct (search_area args 4) as [err|[[radius unit] idx]]; cbn [bindr try_at]; [eexists; by split|].
    rewrite read_live, El, Eg by done. cbn [try_at]. eexists. split; [done|]. split; [by apply results_near|done].
Qed.

Definition gmeets now (c : GeoCommand) args : Prop :=
  match geo_request c args with
  | inl e => forall s, exec_geo now c args s = Some (inl e, s)
  | inr (key, q) => does now key q (exec_geo now c args)
  end.

Lemma arg_lookup args (i : nat) : ~ length args < S i -> member_of <$> args !! i = Some (arg_member args i).
Proof. intros Hl. unfold arg_member. destruct (args !! i) as [a|] eqn:E; [done|]. apply lookup_ge_None in E. lia. Qed.

Lemma geoadd_meets now args : gmeets now GEOADD args.
Proof.
  unfold gmeets, geo_request, exec_geo, cmd_geoadd. case_bool_decide; [done|].
  destruct (get_str args 1 "GEOADD") as [|key]; cbn [bindr try_at]; [done|].
  destruct (geo_flags _ _) as [fl rest]. case_bool_decide; [done|]. destruct (triples rest) as [ts bad] eqn:Et. by apply add_does.
Qed.

Lemma geopos_meets now args : gmeets now GEOPOS args.
Proof.
  unfold gmeets, geo_request, exec_geo, cmd_geopos. case_bool_decide; [done|].
  destruct (get_str args 1 "GEOPOS") as [|key]; cbn [bindr try_at]; [done|]. apply pos_does.
Qed.

Lemma geohash_meets now args : gmeets now GEOHASH args.
Proof.
  unfold gmeets, geo_request, exec_geo, cmd_geohash. case_bool_decide; [done|].
  destruct (get_str args 1 "GEOHASH") as [|key]; cbn [bindr try_at]; [done|]. apply hash_does.
Qed.

Lemma geodist_meets now args : gmeets now GEODIST args.
Proof.
  unfold gmeets, geo_request, exec_geo, cmd_geodist. case_bool_decide as Hl; [done|].
  destruct (get_str args 1 "GEODIST") as [|key]; cbn [bindr try_at]; [done|].
  rewrite !arg_lookup by lia. cbn [mbind option_bind]. apply dist_does.
Qed.

Lemma georadius_meets now args : gmeets now GEORADIUS args.
Proof.
  unfold gmeets, geo_request, exec_geo, cmd_georadius. case_bool_decide; [done|].
  destruct (get_str args 1 "GEORADIUS") as [|key]; cbn [bindr try_at]; [done|].
  destruct (number (args !! 2)); cbn [bindr try_at]; [done|]. destruct (number (args !! 3)); cbn [bindr try_at]; [done|].
  destruct (number (args !! 4)) as [|radius]; cbn [bindr try_at]; [done|]. destruct (ok_or _ _) as [|unit]; cbn [bindr try_at]; [done|].
  destruct (to_meters radius unit); cbn [bindr try_at]; [done|]. apply at_does.
Qed.

Lemma georadiusbymember_meets now args : gmeets now GEORADIUSBYMEMBER args.
Proof.
  unfold gmeets, geo_request, exec_geo, cmd_georadiusbymember. case_bool_decide as Hl; [done|].
  destruct (get_str args 1 "GEORADIUSBYMEMBER") as [|key]; cbn [bindr try_at]; [done|]. rewrite arg_lookup by lia. cbn [mbind option_bind].
  destruct (number (args !! 3)) as [|radius]; cbn [bindr try_at]; [done|]. destruct (ok_or _ _) as [|unit]; cbn [bindr try_at]; [done|].
  destruct (to_meters radius unit); cbn [bindr try_at]; [done|]. apply of_does.
Qed.

Lemma geosearch_meets now args : gmeets now GEOSEARCH args.
Proof.
  unfold gmeets, geo_request, exec_geo, cmd_geosearch, search_center. case_bool_decide as Hl; [done|].
  destruct (get_str args 1 "GEOSEARCH") as [|key]; cbn [bindr try_at]; [done|]. cbv zeta. change (2 + 1) with 3. change (2 + 2) with 4. change (2 + 3) with 5.
  case_bool_decide.
  - destruct (number (args !! 3)) as [|lon]; cbn [bindr try_at mbind option_bind]; [done|]. destruct (number (args !! 4)) as [|lat]; cbn [bindr try_at]; [done|].
    unfold area_request. destruct (search_area args 5) as [|[[radius unit] idx]]; cbn [bindr try_at]; [done|]. apply at_does.
  - case_bool_decide; [|done]. rewrite arg_lookup by lia. eapply fulfils_ext; [|apply (from_member_does now key args (arg_member args 3))].
    intros s. cbn [mbind option_bind]. by destruct (read_for key (Database.get_ro now key) s).
Qed.

Lemma geo_meets now (c : GeoCommand) args : gmeets now c args.
Proof.
  destruct c; [apply geoadd_meets|apply geopos_meets|apply geodist_meets|apply geohash_meets|apply georadius_meets|
    apply georadiusbymember_meets|apply geosearch_meets].
Qed.

(** ** GEOSEARCHSTORE *)

Hypothesis Hthr : ZSetData.thr_sane thr.

Lemma hit_of_inv lon lat radius p h : hit_of lon lat radius p = Some h ->
  h = mkHit p.1 (haversine_m lon lat (longitude p.2) (latitude p.2)) (longitude p.2) (latitude p.2).
Proof. unfold hit_of. cbv zeta. by destruct (f64_leb _ radius); [intros [= <-]|]. Qed.

Lemma near_hits lon lat radius (o : GeoOptions) m hits : near lon lat radius o m hits ->
  NoDup (hit_member <$> hits) /\
  Forall (fun h => m !! hit_member h = Some (mkGeoPoint (hit_lon h) (hit_lat h)) /\
                   hit_dist h = haversine_m lon lat (hit_lon h) (hit_lat h)) hits.
Proof.
  intros (l & P & _ & ->).
  assert (A : NoDup (hit_member <$> l) /\ Forall (fun h => m !! hit_member h = Some (mkGeoPoint (hit_lon h) (hit_lat h)) /\
                   hit_dist h = haversine_m lon lat (hit_lon h) (hit_lat h)) l).
  { rewrite P. split.
    - pose proof (NoDup_fst_map_to_list m) as N. revert N. generalize (map_to_list m) as ps. induction ps as [|p ps IH]; intros N; [constructor|].
      rewrite fmap_cons in N. apply NoDup_cons in N as [Nx N]. specialize (IH N). cbn [omap list_omap].
      destruct (hit_of lon lat radius p) as [h|] eqn:Eh; [|done]. rewrite fmap_cons. constructor; [|done]. intros Hx. apply Nx.
      apply hit_of_inv in Eh as ->. cbn [hit_member] in Hx. apply list_elem_of_fmap in Hx as (h & Hp & Hh).
      apply list_elem_of_omap in Hh as (q & Hq & Eh). apply hit_of_inv in Eh as ->. cbn [hit_member] in Hp. rewrite Hp. by apply list_elem_of_fmap_2.
    - apply Forall_forall. intros h Hh. apply list_elem_of_omap in Hh as ([y [a b]] & Hq & Eh). apply hit_of_inv in Eh as ->.
      cbn [hit_member hit_lon hit_lat hit_dist fst snd longitude latitude]. split; [by apply elem_of_map_to_list|done]. }
  unfold first_hits. destruct (gcount o) as [n|]; [|done]. destruct A as [N F]. split; [|by apply Forall_take].
  rewrite fmap_take. by eapply sublist_NoDup, sublist_take.
Qed.

(** The points of the members that were hit. *)
Definition hit_points (hits : list Hit) m : Points := filter (fun p => p.1 ∈ hit_member <$> hits) m.

Lemma hits_geo_points (hits : list Hit) m : NoDup (hit_member <$> hits) ->
  Forall (fun h => m !! hit_member h = Some (mkGeoPoint (hit_lon h) (hit_lat h))) hits -> geo_members (hits_geo hits) = hit_points hits m.
Proof.
  intros N F. set (pair_of := fun h => (hit_member h, mkGeoPoint (hit_lon h) (hit_lat h))).
  assert (Ek : (pair_of <$> hits).*1 = hit_member <$> hits) by (by rewrite <- list_fmap_compose).
  assert (E : geo_members (hits_geo hits) = list_to_map (pair_of <$> hits)).
  { unfold hits_geo. simpl. rewrite <- (map_union_empty (list_to_map _)), <- fold_insert_list_to_map by (by rewrite Ek).
    generalize (∅ : Points). induction hits as [|h hits IH]; intros acc; [done|]. simpl. apply Forall_cons in F as [_ F].
    apply NoDup_cons in N as [_ N]. apply IH; [done..|]. by rewrite <- list_fmap_compose. }
  rewrite E. apply map_eq. intros j. unfold hit_points. rewrite map_lookup_filter. rewrite Forall_forall in F.
  destruct (decide (j ∈ hit_member <$> hits)) as [Hj|Hj].
  - apply list_elem_of_fmap in Hj as (h & -> & Hh). rewrite (F h Hh). simpl. rewrite option_guard_True by (by apply list_elem_of_fmap_2).
    apply elem_of_list_to_map; [by rewrite Ek|]. apply list_elem_of_fmap. by exists h.
  - rewrite not_elem_of_list_to_map_1 by (by rewrite Ek). destruct (m !! j); simpl; [by rewrite option_guard_False|done].
Qed.

(** The distances of the hits, ranked. *)
Definition hit_ranks (unit : bytes) (hits : list Hit) (acc : gmap bytes Z) : gmap bytes Z :=
  fold_left (fun acc h => <[hit_member h := okey (from_meters (hit_dist h) unit)]> acc) hits acc.

Lemma from_meters_wf x unit : f64_wf x -> f64_wf (from_meters x unit).
Proof. intros Hx. unfold from_meters. repeat case_bool_decide; [apply of_spec_wf..|done]. Qed.

Lemma dist_zset_repr (unit : bytes) (hits : list Hit) : Forall (fun h => f64_wf (hit_dist h)) hits -> forall z acc, ZSetData.repr z acc ->
  exists z', dist_zset thr unit hits z = Some z' /\ ZSetData.repr z' (hit_ranks unit hits acc).
Proof.
  intros F. induction F as [|h hits Hh F IH]; intros z acc R; [by exists z|]. cbn [dist_zset hit_ranks fold_left].
  destruct (ZSetData.repr_insert thr z acc (hit_member h) (from_meters (hit_dist h) unit) Hthr (from_meters_wf _ _ Hh) R) as (z1 & -> & R1).
  mstep. by apply IH.
Qed.

(** What is stored, as clients see it. *)
Definition stored_as (storedist : bool) (unit : bytes) (hits : list Hit) m (v : DataType) : Prop :=
  if storedist then exists z, v = TZSet z /\ ZSetData.repr z (hit_ranks unit hits ∅) else v = TGeo (mkGeoData (hit_points hits m)).

Lemma stored_value_spec lon lat radius (o : GeoOptions) (storedist : bool) (unit : bytes) m hits : near lon lat radius o m hits ->
  exists v, stored_value thr storedist unit hits = Some v /\ stored_as storedist unit hits m v.
Proof.
  intros Hn. destruct (near_hits _ _ _ _ _ _ Hn) as [N F]. unfold stored_value, stored_as. destruct storedist.
  - destruct (dist_zset_repr unit hits) with (z := ZSetData.new) (acc := ∅ : gmap bytes Z) as (z & -> & R).
    + eapply Forall_impl; [exact F|]. intros h [_ ->]. apply f64_mul_wf.
    + apply ZSetData.zset_repr_new.
    + by eexists; split; [|eexists].
  - eexists. split; [done|]. f_equal. rewrite <- (hits_geo_points hits m N); [by destruct (hits_geo hits)|].
    eapply Forall_impl; [exact F|]. by intros h [? _].
Qed.
Definition undecodable : NexradeError := Generic (bstr "could not decode requested zset member").

(** Destination, source, center, and the rest of the arguments. *)
Definition store_request args : Result (bytes * bytes * Center * Result (f64 * bytes * GeoOptions * bool)) :=
  if bool_decide (length args < 7) then inl (wrong_arity "GEOSEARCHSTORE")
  else
    let! dest := get_str args 1 "GEOSEARCHSTORE" in
    let! key := get_str args 2 "GEOSEARCHSTORE" in
    let area i :=
      let! (radius, unit, i) := search_area args i in
      let! (o, storedist) := store_options (drop i args) no_options false in
      inr (radius, unit, o, storedist) in
    if bool_decide (word (args !! 3) = Some (bstr "FROMLONLAT")) then
      let! lon := number (args !! 4) in
      let! lat := number (args !! 5) in
      let! area := area 6 in
      inr (dest, key, At lon lat, inr area)
    else if bool_decide (word (args !! 3) = Some (bstr "FROMMEMBER")) then inr (dest, key, Of (arg_member args 4), area 5)
    else inl SyntaxError.

(** The center in the source; a missing key is an error only when it is needed. *)
Definition center_of (c : Center) (cell : Cell) : Result (f64 * f64) :=
  match c with
  | At lon lat => inr (lon, lat)
  | Of x =>
      match cell with
      | None => inl (Generic (bstr "no such key"))
      | Some (Foreign _, _) => inl WrongType
      | Some (Own m, _) => let! p := ok_or (m !! x) undecodable in inr (longitude p, latitude p)
      end
  end.

(** The reply, and the cell of the destination afterwards ([cell] is that of the source). *)
Definition store_post (c : Center) (area : Result (f64 * bytes * GeoOptions * bool)) (cell old : Cell) (r : Result Resp) (cell' : Cell) : Prop :=
  match center_of c cell, area with
  | inl e, _ => r = inl e /\ cell' = old
  | inr _, inl e => r = inl e /\ cell' = old
  | inr (lon, lat), inr (radius, unit, o, storedist) =>
      match cell with
      | None => r = inr (int 0) /\ cell' = None
      | Some (Foreign _, _) => r = inl WrongType /\ cell' = old
      | Some (Own m, _) => exists hits, near lon lat radius o m hits /\ r = inr (int (Z.of_nat (length hits))) /\
          if storedist then exists z, cell' = Some (Foreign (TZSet z), None) /\ ZSetData.repr z (hit_ranks unit hits ∅)
          else cell' = Some (Own (hit_points hits m), None)
      end
  end.

(** There is room for what may be stored. *)
Definition store_room (c : Center) (area : Result (f64 * bytes * GeoOptions * bool)) (cell : Cell) s (dest : bytes) : Prop :=
  forall lon lat radius unit o storedist m x hits v, center_of c cell = inr (lon, lat) -> area = inr (radius, unit, o, storedist) ->
  cell = Some (Own m, x) -> near lon lat radius o m hits -> stored_as storedist unit hits m v ->
  room s dest (64 + length dest + Database.value_size v).

#[local] Notation Shown now s M := (swf s /\ forall j, sees now (slot s j) (M j)).

Lemma shown_same now s k (M : bytes -> Cell) : Shown now s M -> Shown now s (fun j => if decide (j = k) then M k else M j).
Proof. intros [W S]. split; [done|]. intros j. case_decide; [subst|]; apply S. Qed.

Lemma stored_shows now (storedist : bool) (unit : bytes) (hits : list Hit) m (v : DataType) : map_Forall (fun _ p => valid_point p) m -> stored_as storedist unit hits m v ->
  exists c', sees now (Some (Entry.new v)) c' /\
    if storedist then exists z, c' = Some (Foreign (TZSet z), None) /\ ZSetData.repr z (hit_ranks unit hits ∅) else c' = Some (Own (hit_points hits m), None).
Proof.
  intros V Hs. unfold stored_as in Hs. destruct storedist.
  - destruct Hs as (z & -> & R). exists (Some (Foreign (TZSet z), None)). split; [|eauto].
    by apply (sees_entry geo_kind now (Entry.new (TZSet z))).
  - subst v. eexists. split; [|done]. apply (sees_entry geo_kind now (Entry.new (TGeo _)) (Own (hit_points hits m))); [done|].
    eexists. split; [done|]. split; [done|]. intros j p Hp. apply map_lookup_filter_Some in Hp as [Hp _]. by apply (V j).
Qed.

(** The search and the write, after the arguments. *)
Lemma store_does now (dest key : bytes) (lon lat radius : f64) (unit : bytes) (o : GeoOptions) (storedist : bool) s (M : bytes -> Cell) : Shown now s M ->
  store_room (At lon lat) (inr (radius, unit, o, storedist)) (M key) s dest ->
  exists r s' c', (found ← read_for key (Database.get_ro now key) s;
    match found with
    | None => '(_, s) ← on_shard (shard_idx s dest) (fun d => Some (Database.remove dest d)) s; Some (inr (int 0), s)
    | Some e =>
        let? g := get_geo_ro e at s in
        let hits := arranged o (hits_in lon lat radius g) in
        v ← stored_value thr storedist unit hits;
        '(_, s) ← on_shard (shard_idx s dest) (fun d => Some ((), Database.insert dest (Entry.new v) d)) s;
        Some (inr (int (Z.of_nat (length hits))), s)
    end) = Some (r, s') /\ store_post (At lon lat) (inr (radius, unit, o, storedist)) (M key) (M dest) r c' /\
    Shown now s' (fun j => if decide (j = dest) then c' else M j).
Proof.
  intros [W S] F. rewrite read_live by done. pose proof (look_geo now key s (M key) (S key)) as L.
  destruct (live now (slot s key)) as [e|]; [destruct (get_geo_ro e) as [err|g]|]; cbn [try_at].
  - destruct L as (-> & (u & x & E) & _). exists (inl WrongType), s, (M dest). split; [done|]. split; [rewrite E; by split|].
    by apply shown_same.
  - destruct L as (m & x & E & [Eg V] & _). pose proof (hits_near lon lat radius o g m Eg) as Hn. cbv zeta.
    destruct (stored_value_spec _ _ _ _ storedist unit _ _ Hn) as (v & -> & Hv). mstep.
    assert (R : room s dest (Database.estimate_entry_size dest (Entry.new v))) by (by eapply F).
    destruct (insert_step s dest (Entry.new v) W R) as (s' & -> & W' & [_ Ha] & _). mstep.
    destruct (stored_shows now storedist unit _ m v V Hv) as (c' & Sc & Hc). eexists _, s', c'. split; [done|]. split.
    + rewrite E. eexists. by split_and!.
    + split; [done|]. intros j. rewrite Ha. case_decide; [done|apply S].
  - destruct (shard_of s dest W) as (d & Hd & Wd & _). destruct (remove_step_db d dest Wd) as [Wd' St].
    destruct (Database.remove dest d) as [removed d'] eqn:Er. cbn [snd] in *.
    destruct (on_shard_step s dest d removed d' None (fun d => Some (Database.remove dest d)) W Hd (f_equal Some Er) St Wd') as (s' & -> & W' & [_ Ha] & _).
    mstep. eexists _, s', None. split; [done|]. split; [rewrite L; by split|]. split; [done|]. intros j. rewrite Ha. case_decide; [done|apply S].
Qed.

(** GEOSEARCHSTORE makes the destination the points the search finds, or a sorted set of
    their distances, without a deadline; without a source it removes it; errors change
    nothing. *)
Theorem geosearchstore_stores_the_hits now args s (M : bytes -> Cell) : swf s -> (forall j, sees now (slot s j) (M j)) ->
  match store_request args with
  | inl e => cmd_geosearchstore thr now args s = Some (inl e, s)
  | inr (dest, key, c, area) =>
      store_room c area (M key) s dest ->
      exists r s' c', cmd_geosearchstore thr now args s = Some (r, s') /\ store_post c area (M key) (M dest) r c' /\
        swf s' /\ forall j, sees now (slot s' j) (if decide (j = dest) then c' else M j)
  end.
Proof.
  intros W S. unfold cmd_geosearchstore, store_request. case_bool_decide as Hl; [done|].
  destruct (get_str args 1 "GEOSEARCHSTORE") as [|dest]; cbn [bindr try_at]; [done|].
  destruct (get_str args 2 "GEOSEARCHSTORE") as [|key]; cbn [bindr try_at]; [done|]. cbv zeta. unfold search_center.
  change (3 + 1) with 4. change (3 + 2) with 5. change (3 + 3) with 6. fold undecodable. case_bool_decide.
  - destruct (number (args !! 4)) as [|lon]; cbn [bindr try_at mbind option_bind]; [done|]. destruct (number (args !! 5)) as [|lat]; cbn [bindr try_at]; [done|].
    destruct (search_area args 6) as [|[[radius unit] idx]]; cbn [bindr try_at]; [done|].
    destruct (store_options _ _ _) as [|[o storedist]]; cbn [bindr try_at]; [done|]. intros F. by apply store_does.
  - case_bool_decide; [|done]. rewrite arg_lookup by lia. cbn [mbind option_bind]. set (x := arg_member args 4).
    intros F. rewrite read_live by done. pose proof (look_geo now key s (M key) (S key)) as L. unfold store_post.
    assert (Stay : forall e, exists (r : Result Resp) s' c', Some (inl e, s) = Some (r, s') /\ (r = inl e /\ c' = M dest) /\
      swf s' /\ forall j, sees now (slot s' j) (if decide (j = dest) then c' else M j)).
    { intros e. exists (inl e), s, (M dest). split_and!; [done..|]. by apply shown_same. }
    destruct (live now (slot s key)) as [e|] eqn:El; cbn [ok_or bindr try_at]; [|rewrite L; apply Stay].
    destruct (get_geo_ro e) as [err|g] eqn:Eg; cbn [bindr try_at]; [destruct L as (-> & (u & y & ->) & _); apply Stay|].
    destruct L as (m & y & E & [<- V] & _). rewrite E in *. cbn [center_of] in *.
    destruct (geo_members g !! x) as [p|] eqn:Ep; cbn [ok_or bindr try_at mbind option_bind]; [|apply Stay].
    destruct (search_area args 5) as [|[[radius unit] idx]]; cbn [bindr try_at] in *; [apply Stay|].
    destruct (store_options _ _ _) as [|[o storedist]]; cbn [bindr try_at] in *; [apply Stay|].
    destruct (store_does now dest key (longitude p) (latitude p) radius unit o storedist s M (conj W S)) as (r & s' & c' & Ec & P & Sh).
    { rewrite E. intros lon lat ? ? ? ? ? ? ? ? [= <- <-] Ha Hc. eapply (F (longitude p) (latitude p)); [|exact Ha|exact Hc].
      cbn [center_of]. by rewrite Ep. }
    unfold read_for in Ec |- *. exists r, s', c'. split; [exact Ec|]. split; [|done]. unfold store_post in P. by rewrite E in P.
Qed.
End Geo.

(** ** Runs *)

Section GeoRuns.
#[local] Existing Instance SetData.vec_index_set.
#[local] Existing Instance canonical_order.
#[local] Existing Instance ascii_case.
#[local] Existing Instance merge_sort_by_fst.
#[local] Existing Instance ieee_order.
#[local] Existing Instance pattern_text.
#[local] Existing Instance pattern_format.

(** Functions to run the model with: small angles, and numbers shown as patterns. *)
#[local] Instance small_angles : GeoMath :=
  {| f64_sin := fun x => x; f64_cos := fun _ => ONE; f64_atan2 := fun y _ => y; f64_powi := fun x _ => f64_mul x x; f64_fixed4 := f64_display |}.

Definition origin : GeoPoint := mkGeoPoint ZERO ZERO.

(** Longitude 13 and latitude 38; numbers are written as their patterns. *)
Definition sicily : GeoPoint := mkGeoPoint 4623507967449235456 4630544841867001856.

Definition geo_words (ws : list string) : list Resp := map (fun w => bulk (bstr w)) ws.
Definition geo_stock : list (bytes * (GeoData * Points)) :=
  [(bstr "g", (mkGeoData {[ bstr "a" := origin ]}, {[ bstr "a" := origin ]}))].
Definition geo_store : t := stocked geo_kind geo_stock.
Definition geo_cells : bytes -> option (Content Points * option Z) := stock_cells geo_stock.

Lemma geo_store_ok now : swf geo_store /\ forall j, sees geo_kind now (slot geo_store j) (geo_cells j).
Proof.
  apply (stocked_ok geo_kind).
  - by apply (bool_decide_unpack _).
  - constructor; [|constructor]. split; [reflexivity|]. apply map_Forall_singleton. by vm_compute.
  - intros k. apply room_all. vm_compute. reflexivity.
Qed.

Definition geoadd_words : list Resp := geo_words ["GEOADD"; "g"; "NX"; "CH"; "4623507967449235456"; "4630544841867001856"; "b"].


(** A bad coordinate after a new member leaves the member and its bytes uncounted. *)
Lemma geoadd_error_is_not_counted :
  match exec_geo 5 GEOADD (geo_words ["GEOADD"; "g"; "4623507967449235456"; "4630544841867001856"; "b"; "x"; "0"; "c"]) geo_store with
  | Some (r, s') => r = inl NotFloat /\ point_of (slot s' (bstr "g")) (bstr "b") = Some sicily /\
      Database.live_bytes <$> shards s' = Database.live_bytes <$> shards geo_store
  | None => False
  end.
Proof. vm_compute. split; [|split]; reflexivity. Qed.
End GeoRuns.
