(* ===== verification/HllCommands.v ===== *)
(** * HllCommands: the HyperLogLog commands ([command/hll.rs]) and the estimate ([types.rs])

    A sketch is an array of 16384 registers, kept as one byte each; a string of that
    length counts as one, and so does the dense form of Redis, 6 bits per register
    behind a header.  The registers are those of [Types]; the logarithm and the powers
    of the estimate, whose precision the standard library leaves open, are parameters. *)

From S2P Require Import Prelude Packing Text Doubles DoubleArith Types Keyspace Shards Resp CommandArgs GeoCommands.
From S2P Require SetData.
From Stdlib Require Floats.SpecFloat.

Import ShardedDatabase.

(** ** The estimate *)

Class HllMath := { f64_ln : f64 -> f64; pow2 : Z -> f64 }.

(** [2f64.powi(n)] is [pow2 n]; [u32 as f64] and [usize as f64] are exact here. *)

Definition u64_limit : Z := 2 ^ 64 - 1.

(** [x.round() as u64] for a number that is not negative: halves go up, and the cast
    saturates. *)
Definition round_u64 (x : f64) : Z :=
  match to_spec x with
  | SpecFloat.S754_finite false m e =>
      Z.min u64_limit (if bool_decide (0 <= e)%Z then Z.shiftl (Zpos m) e else Z.shiftr (Zpos m + Z.shiftl 1 (- e - 1)) (- e))
  | SpecFloat.S754_infinity false => u64_limit
  | _ => 0
  end.

Definition f64_neg (x : f64) : f64 := Z.lxor x (2 ^ 63).

Definition hll_count `{HllMath} (registers : list Z) : Z :=
  let m := f64_int (Z.of_nat (length registers)) in
  let sum := fold_left (fun acc r => f64_add acc (pow2 (- r))) registers ZERO in
  let zeros := Z.of_nat (length (filter (fun r => r = 0%Z) registers)) in
  let alpha := f64_div (literal 7213 4) (f64_add ONE (f64_div (literal 1079 3) m)) in
  let estimate := f64_div (f64_mul (f64_mul alpha m) m) sum in
  let estimate :=
    if f64_leb estimate (f64_mul (f64_int 5) m) && bool_decide (0 < zeros)%Z then f64_mul m (f64_ln (f64_div m (f64_int zeros)))
    else if f64_ltb (f64_div (pow2 32) (f64_int 30)) estimate then
      f64_mul (f64_neg (pow2 32)) (f64_ln (f64_sub ONE (f64_div estimate (pow2 32))))
    else estimate in
  round_u64 (f64_max estimate ZERO).

(** ** Registers in values *)

Definition REDIS_HLL_MAGIC : bytes := bstr "HYLL".
Definition REDIS_HLL_HEADER : nat := 16.
Definition REDIS_HLL_ENC_DENSE : Z := 0.
Definition REDIS_HLL_ENC_SPARSE : Z := 1.
Definition REDIS_HLL_DENSE_BYTES : nat := HLL_REGISTERS * 6 / 8.

(** One register of the 6-bit form; indexing past the payload panics. *)
Definition unpack_one (payload : bytes) (i : nat) : may_panic Z :=
  let start := i * 6 in
  let byte := start / 8 in
  let off := start mod 8 in
  b0 ← payload !! byte;
  let v := Z.shiftr (byte_val b0) (Z.of_nat off) in
  if bool_decide (2 < off) then
    b1 ← payload !! (byte + 1);
    Some (Z.land (Z.lor v (Z.shiftl (byte_val b1) (8 - Z.of_nat off))) 63)
  else Some (Z.land v 63).

Fixpoint unpack_from (payload : bytes) (idxs : list nat) : may_panic (list Z) :=
  match idxs with
  | [] => Some []
  | i :: idxs => v ← unpack_one payload i; vs ← unpack_from payload idxs; Some (v :: vs)
  end.

Definition unpack_redis_dense (payload : bytes) : may_panic (list Z) := unpack_from payload (seq 0 HLL_REGISTERS).

Definition not_hll (what : bytes) : NexradeError := Generic (bstr "WRONGTYPE Key is not a valid HyperLogLog value" ++ what).

Definition decode_redis_hll (bs : bytes) : may_panic (Result (list Z)) :=
  if bool_decide (length bs < REDIS_HLL_HEADER) || negb (bool_decide (take 4 bs = REDIS_HLL_MAGIC)) then
    Some (inl (not_hll (bstr " (expected " ++ dec (Z.of_nat HLL_REGISTERS) ++ bstr " bytes, got " ++ dec (Z.of_nat (length bs)) ++ bstr ")")))
  else
    enc ← byte_val <$> bs !! 4;
    if bool_decide (enc = REDIS_HLL_ENC_DENSE) then
      let payload := drop REDIS_HLL_HEADER bs in
      if bool_decide (length payload <> REDIS_HLL_DENSE_BYTES) then
        Some (inl (not_hll (bstr " (Redis dense header with " ++ dec (Z.of_nat (length payload)) ++ bstr " register bytes, expected "
                            ++ dec (Z.of_nat REDIS_HLL_DENSE_BYTES) ++ bstr ")")))
      else inr <$> unpack_redis_dense payload
    else if bool_decide (enc = REDIS_HLL_ENC_SPARSE) then
      Some (inl (not_hll (bstr " (Redis sparse encoding). Migrate it with scripts/migrate_from_redis.py, or rebuild the key with PFADD.")))
    else Some (inl (not_hll (bstr " (unknown Redis encoding " ++ dec enc ++ bstr ")"))).

Section HllCommands.
Context `{SetData.IndexSet}.

Definition hll_registers_from (v : DataType) : may_panic (Result (list Z)) :=
  match v with
  | THyperLogLog bs | TString bs =>
      if bool_decide (length bs <> HLL_REGISTERS) then decode_redis_hll bs
      else Some (if forallb (fun b => bool_decide (byte_val b <= HLL_REGISTER_MAX)%Z) bs then inr (map byte_val bs) else inl (not_hll []))
  | _ => Some (inl WrongType)
  end.

(** [registers.to_vec()]. *)
Definition register_bytes (registers : list Z) : bytes := map byte_of registers.

(** ** PFADD *)

Fixpoint pfadd_loop (elements : list bytes) (changed : Z) (registers : list Z) : may_panic (Z * list Z) :=
  match elements with
  | [] => Some (changed, registers)
  | el :: elements =>
      '(new, registers) ← hll_add registers el;
      pfadd_loop elements (if new : bool then changed + 1 else changed)%Z registers
  end.

(** [(i..args.len()).map(|i| get_bytes_vec(args, i, cmd)).collect()]. *)
Fixpoint bytes_from (args : list Resp) (cmd : string) : Result (list bytes) :=
  match args with
  | [] => inr []
  | _ :: rest => let! b := get_bytes_vec args 0 cmd in let! bs := bytes_from rest cmd in inr (b :: bs)
  end.

Definition pfadd_body (now : Z) (key : bytes) (elements : list bytes) (d : Database.t) : may_panic (Result Resp * Database.t) :=
  let '(found, d) := Database.get now key d in
  r ← match found with None => Some (inr hll_empty) | Some e => hll_registers_from (Entry.value e) end;
  let? registers := r at d in
  '(changed, registers) ← pfadd_loop elements 0 registers;
  let '(write, d) :=
    if bool_decide (0 < changed)%Z then (true, d)
    else let '(found, d) := Database.get now key d in (bool_decide (found = None), d) in
  if write : bool then
    let '(found, d) := Database.get now key d in
    let d := Database.insert key (Entry.new (THyperLogLog (register_bytes registers))) d in
    let d := match found ≫= Entry.expiry with Some x => Database.set_expiry key (Some x) d | None => d end in
    Some (inr (int 1), d)
  else Some (inr (int 0), d).

Definition cmd_pfadd (now : Z) (args : list Resp) (s : t) : may_panic (Result Resp * t) :=
  if bool_decide (length args < 2) then Some (inl (WrongArity (bstr "pfadd")), s)
  else
    let? key := get_bytes_vec args 1 "PFADD" at s in
    let? elements := bytes_from (drop 2 args) "PFADD" at s in
    on_shard (shard_idx s key) (pfadd_body now key elements) s.

(** ** PFCOUNT *)

(** The union of the sketches of some keys, and whether there is any. *)
Fixpoint merge_keys (now : Z) (keys : list bytes) (accum : list Z) (any : bool) (s : t) : may_panic (Result (list Z * bool)) :=
  match keys with
  | [] => Some (inr (accum, any))
  | key :: keys =>
      found ← read_for key (Database.get_ro now key) s;
      match found with
      | None => merge_keys now keys accum any s
      | Some e =>
          r ← hll_registers_from (Entry.value e);
          match r with
          | inl err => Some (inl err)
          | inr regs => merge_keys now keys (hll_merge_into accum regs) true s
          end
      end
  end.

Definition cmd_pfcount `{HllMath} (now : Z) (args : list Resp) (s : t) : may_panic (Result Resp * t) :=
  if bool_decide (length args < 2) then Some (inl (WrongArity (bstr "pfcount")), s)
  else
    let? keys := bytes_from (drop 1 args) "PFCOUNT" at s in
    match keys with
    | [key] =>
        found ← read_for key (Database.get_ro now key) s;
        match found with
        | None => Some (inr (int 0), s)
        | Some e =>
            r ← hll_registers_from (Entry.value e);
            let? regs := r at s in Some (inr (int (wrap_i64 (hll_count regs))), s)
        end
    | _ =>
        r ← merge_keys now keys hll_empty false s;
        let? (accum, any) := r at s in
        Some (inr (int (if any : bool then wrap_i64 (hll_count accum) else 0)), s)
    end.

(** ** PFMERGE *)

Definition not_hll_string : NexradeError := Generic (bstr "Key is not a valid HyperLogLog string value.").

(** The registers the destination has. *)
Definition dest_registers (v : DataType) : Result bytes :=
  match v with
  | THyperLogLog bs | TString bs => if bool_decide (length bs = HLL_REGISTERS) then inr bs else inl not_hll_string
  | TBitmap _ => inl not_hll_string
  | _ => inl WrongType
  end.

Definition pfmerge_body (now : Z) (dest : bytes) (accum : list Z) (d : Database.t) : may_panic (Result Resp * Database.t) :=
  match Database.get_mut now dest d with
  | (Some e, d) =>
      let? existing := dest_registers (Entry.value e) at d in
      let merged := zip_with (fun b o => if bool_decide (byte_val b < o)%Z then byte_of o else b) existing accum in
      Some (inr ok, Database.write_back dest (Entry.set_value (THyperLogLog merged) e) d)
  | (None, d) => Some (inr ok, Database.insert dest (Entry.new (THyperLogLog (register_bytes accum))) d)
  end.

Definition cmd_pfmerge (now : Z) (args : list Resp) (s : t) : may_panic (Result Resp * t) :=
  if bool_decide (length args < 2) then Some (inl (WrongArity (bstr "pfmerge")), s)
  else
    let? dest := get_bytes_vec args 1 "PFMERGE" at s in
    let? sources := bytes_from (drop 2 args) "PFMERGE" at s in
    r ← merge_keys now sources hll_empty false s;
    let? (accum, _) := r at s in
    on_shard (shard_idx s dest) (pfmerge_body now dest accum) s.
End HllCommands.
