(* ===== verification/HllSpec.v ===== *)
(** * HllSpec: HyperLogLog keys are sketches of sets

    The registers of a key are the sketch of the elements added to it ([Types.sketch]):
    PFADD adds elements, PFMERGE joins sets, PFCOUNT estimates the sketch of a union.
    The dense form of Redis is read register by register out of one number. *)

From S2P Require Import Prelude Packing Text Doubles Types Keyspace KeyspaceInvariant KeyspaceSpec.
From S2P Require Import Shards ShardsSpec ShardsMoves Resp CommandArgs ValueCells HllCommands StringSpec.
From S2P Require SetData.

Import ShardedDatabase.

#[local] Arguments Database.adjust_live_bytes : simpl never.
#[local] Arguments Database.get : simpl never.
#[local] Arguments Database.get_mut : simpl never.
#[local] Arguments Database.insert : simpl never.
#[local] Arguments Database.set_expiry : simpl never.
#[local] Opaque hll_index hll_rank HLL_REGISTERS.

(** ** The dense form of Redis *)

Lemma le_value_cons b bs : le_value (b :: bs) = (byte_val b + 256 * le_value bs)%Z.
Proof. reflexivity. Qed.

Lemma le_value_lookup bs j b : bs !! j = Some b -> byte_val b = Z.land (Z.shiftr (le_value bs) (8 * Z.of_nat j)) 255.
Proof.
  change 255%Z with (Z.ones 8). revert j. induction bs as [|c bs IH]; intros j Hj; [done|]. pose proof (byte_val_range c). destruct j as [|j].
  - injection Hj as ->. rewrite Z.shiftr_0_r, Z.land_ones by lia. rewrite le_value_cons. change (2 ^ 8)%Z with 256%Z.
    rewrite (Z.mul_comm 256), Z_mod_plus_full, Z.mod_small; lia.
  - rewrite (IH j Hj). f_equal. rewrite le_value_cons. rewrite !Z.shiftr_div_pow2 by lia.
    replace (8 * Z.of_nat (S j))%Z with (8 + 8 * Z.of_nat j)%Z by lia. rewrite Z.pow_add_r, <- Z.div_div by lia.
    change (2 ^ 8)%Z with 256%Z. rewrite (Z.mul_comm 256), Z.div_add by lia. by rewrite (Z.div_small (byte_val c)).
Qed.

Lemma land_63_bit x n : (0 <= n)%Z -> Z.testbit (Z.land x 63) n = Z.testbit x n && bool_decide (n < 6)%Z.
Proof. intros Hn. change 63%Z with (Z.ones 6). rewrite Z.land_spec, Z.testbit_ones by lia. f_equal. repeat case_bool_decide; lia. Qed.

(** Register [i] is bits [6i] to [6i + 5] of the number. *)
Lemma unpack_one_bits payload i : i * 6 / 8 < length payload -> (2 < i * 6 mod 8 -> i * 6 / 8 + 1 < length payload) ->
  unpack_one payload i = Some (Z.land (Z.shiftr (le_value payload) (6 * Z.of_nat i)) 63).
Proof.
  intros H0 H1. unfold unpack_one. set (q := i * 6 / 8) in *. set (off := i * 6 mod 8) in *.
  assert (Hq : i * 6 = 8 * q + off) by (subst q off; apply Nat.div_mod_eq). assert (Ho : off < 8) by (subst off; by apply Nat.mod_upper_bound).
  clearbody q off. set (N := le_value payload). destruct (lookup_lt_is_Some_2 payload q H0) as [b0 E0]. rewrite E0. mstep.
  pose proof (le_value_lookup _ _ _ E0) as V0. fold N in V0. case_bool_decide as H2.
  - destruct (lookup_lt_is_Some_2 payload (q + 1) (H1 H2)) as [b1 E1]. rewrite E1. mstep. f_equal.
    pose proof (le_value_lookup _ _ _ E1) as V1. fold N in V1. rewrite V0, V1. apply Z.bits_inj'. intros n Hn.
    rewrite !land_63_bit by done. case_bool_decide as H6; [|by rewrite !andb_false_r]. rewrite !andb_true_r.
    change 255%Z with (Z.ones 8). rewrite Z.lor_spec, !Z.shiftr_spec, Z.shiftl_spec by lia.
    destruct (decide (n + Z.of_nat off < 8)%Z) as [Hl|Hl].
    + rewrite (Z.testbit_neg_r _ (n - _)) by lia. rewrite orb_false_r, Z.land_spec, Z.shiftr_spec, Z.testbit_ones_nonneg by lia.
      rewrite (proj2 (Z.ltb_lt _ _)), andb_true_r by lia. f_equal. lia.
    + rewrite (Z.land_spec _ _ (n + _)), Z.testbit_ones_nonneg, (proj2 (Z.ltb_ge _ _)), andb_false_r by lia. simpl.
      rewrite Z.land_spec, Z.shiftr_spec, Z.testbit_ones_nonneg, (proj2 (Z.ltb_lt _ _)), andb_true_r by lia. f_equal. lia.
  - f_equal. rewrite V0. apply Z.bits_inj'. intros n Hn. rewrite !land_63_bit by done.
    case_bool_decide as H6; [|by rewrite !andb_false_r]. rewrite !andb_true_r. change 255%Z with (Z.ones 8).
    rewrite !Z.shiftr_spec, Z.land_spec, Z.shiftr_spec, Z.testbit_ones_nonneg, (proj2 (Z.ltb_lt _ _)), andb_true_r by lia. f_equal. lia.
Qed.

(** Registers as one number, and as the payload of Redis. *)
Definition packed_value (regs : list Z) : Z := foldr (fun r acc => r + 64 * acc)%Z 0%Z regs.
Definition pack_redis_dense (regs : list Z) : bytes := le_bytes REDIS_HLL_DENSE_BYTES (packed_value regs).

Definition six_bits (regs : list Z) : Prop := Forall (fun r => 0 <= r <= 63)%Z regs.

Lemma packed_range regs : six_bits regs -> (0 <= packed_value regs < 64 ^ Z.of_nat (length regs))%Z.
Proof.
  intros F. induction F as [|r regs Hr F IH]; [done|]. simpl foldr in *. cbn [packed_value foldr length].
  rewrite Nat2Z.inj_succ, Z.pow_succ_r by lia. fold (packed_value regs). lia.
Qed.

Lemma packed_lookup regs i r : six_bits regs -> regs !! i = Some r -> Z.land (Z.shiftr (packed_value regs) (6 * Z.of_nat i)) 63 = r.
Proof.
  change 63%Z with (Z.ones 6). intros F. revert i. induction F as [|x regs Hx F IH]; intros i Hi; [done|]. destruct i as [|i].
  - injection Hi as ->. rewrite Z.shiftr_0_r, Z.land_ones by lia. cbn [packed_value foldr]. change (2 ^ 6)%Z with 64%Z.
    rewrite (Z.mul_comm 64), Z_mod_plus_full, Z.mod_small; lia.
  - rewrite <- (IH i Hi). f_equal. cbn [packed_value foldr]. fold (packed_value regs). rewrite !Z.shiftr_div_pow2 by lia.
    replace (6 * Z.of_nat (S i))%Z with (6 + 6 * Z.of_nat i)%Z by lia. rewrite Z.pow_add_r, <- Z.div_div by lia.
    change (2 ^ 6)%Z with 64%Z. rewrite (Z.mul_comm 64), Z.div_add by lia. by rewrite (Z.div_small x) by lia.
Qed.

#[local] Transparent HLL_REGISTERS.
(** 16384 registers of six bits are 12288 bytes. *)
Lemma hll_sizes : Z.of_nat HLL_REGISTERS = 16384%Z /\ Z.of_nat REDIS_HLL_DENSE_BYTES = 12288%Z.
Proof.
  assert (E : Z.of_nat HLL_REGISTERS = 16384%Z) by (unfold HLL_REGISTERS; by rewrite N_nat_Z). split; [done|].
  unfold REDIS_HLL_DENSE_BYTES. rewrite Nat2Z.inj_div, Nat2Z.inj_mul, E. done.
Qed.
#[local] Opaque HLL_REGISTERS REDIS_HLL_DENSE_BYTES.

Lemma unpack_from_spec payload idxs regs : Forall2 (fun i r => unpack_one payload i = Some r) idxs regs -> unpack_from payload idxs = Some regs.
Proof. induction 1 as [|i r idxs regs E F IH]; simpl; [done|]. by rewrite E, IH. Qed.

(** What Redis packs is unpacked. *)
Lemma unpack_pack regs : length regs = HLL_REGISTERS -> six_bits regs -> unpack_redis_dense (pack_redis_dense regs) = Some regs.
Proof.
  intros L F. apply unpack_from_spec. apply Forall2_same_length_lookup. split; [by rewrite length_seq|]. intros i j r Hi Hr.
  apply lookup_seq in Hi as [-> Hi]. rewrite Nat.add_0_l in *. destruct hll_sizes as [H1 H2].
  assert (Hl : length (pack_redis_dense regs) = REDIS_HLL_DENSE_BYTES) by (unfold pack_redis_dense; by rewrite length_le_bytes).
  rewrite unpack_one_bits.
  - f_equal. rewrite <- (packed_lookup regs i r F Hr). unfold pack_redis_dense. rewrite le_value_bytes, Z.mod_small; [done|].
    pose proof (packed_range regs F) as Hp. rewrite L, H1 in Hp. rewrite H2. change 256%Z with (2 ^ 8)%Z. change 64%Z with (2 ^ 6)%Z in Hp.
    rewrite <- (Z.pow_mul_r 2 6 16384) in Hp by done. rewrite <- (Z.pow_mul_r 2 8 12288) by done. exact Hp.
  - rewrite Hl. apply Nat.Div0.div_lt_upper_bound. lia.
  - rewrite Hl. intros Ho. pose proof (Nat.div_mod_eq (i * 6) 8). pose proof (Nat.mod_upper_bound (i * 6) 8 ltac:(lia)). lia.
Qed.

Section Hll.
Context `{SetData.IndexSet}.
Implicit Types (now : Z) (s : t) (d : Database.t) (k : bytes) (es els : list bytes) (e : Entry.t).

(** A value copied out of Redis in the dense form is read as its registers. *)
Lemma redis_dense_is_read header regs : length header = 16 -> take 4 header = REDIS_HLL_MAGIC -> header !! 4 = Some (byte_of 0) ->
  length regs = HLL_REGISTERS -> six_bits regs ->
  hll_registers_from (TString (header ++ pack_redis_dense regs)) = Some (inr regs).
Proof.
  intros Lh Hm He Lr F. destruct hll_sizes as [H1 H2].
  assert (Hn : length (header ++ pack_redis_dense regs) = 16 + REDIS_HLL_DENSE_BYTES).
  { rewrite length_app, Lh. unfold pack_redis_dense. by rewrite length_le_bytes. }
  unfold hll_registers_from. rewrite Hn, bool_decide_eq_true_2 by lia. unfold decode_redis_hll. rewrite Hn.
  rewrite take_app_le, Hm by lia. rewrite (bool_decide_eq_true_2 (REDIS_HLL_MAGIC = _)) by done. cbn [negb].
  rewrite bool_decide_eq_false_2 by (unfold REDIS_HLL_HEADER; lia). cbn [orb].
  rewrite lookup_app_l, He by lia. cbn [fmap option_fmap option_map mbind option_bind].
  rewrite bool_decide_eq_true_2 by done. unfold REDIS_HLL_HEADER. rewrite <- Lh, drop_app_length. cbv zeta.
  rewrite bool_decide_eq_false_2.
  - by rewrite unpack_pack.
  - unfold pack_redis_dense. rewrite length_le_bytes. by intros [].
Qed.

(** ** Sketches in values *)

Lemma sketch_length es : length (sketch es) = HLL_REGISTERS.
Proof. unfold sketch. by rewrite length_fmap, length_seq. Qed.

Lemma sketch_six es : six_bits (sketch es).
Proof.
  unfold sketch, six_bits. apply Forall_fmap, Forall_true. intros i. simpl. split; [apply register_of_nonneg|].
  induction es as [|e es IH]; simpl; [done|]. pose proof (hll_rank_range e). case_decide; lia.
Qed.

Lemma bytes_back regs : six_bits regs -> map byte_val (register_bytes regs) = regs.
Proof.
  intros F. unfold register_bytes. rewrite map_map. induction F as [|r regs Hr F IH]; [done|]. simpl. rewrite IH, byte_val_of, Z.mod_small; [done|lia].
Qed.

Lemma registers_back regs : length regs = HLL_REGISTERS -> six_bits regs ->
  hll_registers_from (THyperLogLog (register_bytes regs)) = Some (inr regs).
Proof.
  intros L F. unfold hll_registers_from. assert (Ln : length (register_bytes regs) = HLL_REGISTERS) by (unfold register_bytes; by rewrite length_map).
  rewrite bool_decide_eq_false_2 by (by intros []). rewrite bytes_back by done.
  assert (Hb : forallb (fun b => bool_decide (byte_val b <= HLL_REGISTER_MAX)%Z) (register_bytes regs) = true); [|by rewrite Hb].
  apply forallb_forall. intros b Hb. apply in_map_iff in Hb as (r & <- & Hr). apply list_elem_of_In in Hr. unfold six_bits in F. rewrite Forall_forall in F.
  specialize (F r Hr). apply bool_decide_eq_true_2. rewrite byte_val_of, Z.mod_small by lia. unfold HLL_REGISTER_MAX, HLL_BITS. lia.
Qed.

(** What clients see of a key is the sketch of some elements; a missing key has none. *)
Definition sketched (c : option (DataType * option Z)) es : Prop :=
  match c with None => es = [] | Some (v, _) => hll_registers_from v = Some (inr (sketch es)) end.

Lemma sketched_new es x : sketched (Some (THyperLogLog (register_bytes (sketch es)), x)) es.
Proof. apply registers_back; [apply sketch_length|apply sketch_six]. Qed.

Lemma sketched_regs c es : sketched c es -> match c with None => Some (inr hll_empty) | Some (v, _) => hll_registers_from v end = Some (inr (sketch es)).
Proof. destruct c as [[v x]|]; [done|]. intros ->. by rewrite hll_empty_sketch. Qed.

(** ** PFADD *)

Lemma sketch_grows es es' i : (register_of es i <= register_of (es ++ es') i)%Z.
Proof. rewrite register_of_app. lia. Qed.

(** The count goes up exactly when the sketch changes. *)
Lemma pfadd_loop_spec els : forall es c, exists n, pfadd_loop els c (sketch es) = Some (c + n, sketch (es ++ els))%Z /\
  (0 <= n)%Z /\ (n = 0 <-> sketch (es ++ els) = sketch es)%Z.
Proof.
  induction els as [|el els IH]; intros es c; simpl; [exists 0%Z; rewrite app_nil_r, Z.add_0_r; by split_and!|].
  pose proof (hll_add_sketch es el) as E. rewrite E. mstep. replace (es ++ el :: els) with ((es ++ [el]) ++ els) by (by rewrite <- app_assoc).
  case_bool_decide as Hc.
  - destruct (IH (es ++ [el]) (c + 1)%Z) as (n & -> & Hn & _). exists (1 + n)%Z. split; [do 2 f_equal; lia|]. split; [lia|]. split; [lia|].
    intros Es. pose proof (hll_index_range el) as Hi. pose proof (sketch_lookup es (hll_index el) Hi) as L1.
    pose proof (sketch_lookup ((es ++ [el]) ++ els) (hll_index el) Hi) as L2. rewrite Es, L1 in L2. injection L2 as L2.
    assert (Hin : el ∈ (es ++ [el]) ++ els) by (rewrite !elem_of_app, list_elem_of_singleton; auto).
    pose proof (register_of_elem _ el Hin). clear Es E L1 IH. lia.
  - assert (Es : sketch (es ++ [el]) = sketch es).
    { unfold hll_add in E. rewrite sketch_lookup in E by apply hll_index_range. cbn [mbind option_bind] in E. rewrite bool_decide_eq_false_2 in E by done. congruence. }
    destruct (IH (es ++ [el]) c) as (n & -> & Hn & Hz). exists n. split; [done|]. split; [done|]. by rewrite Es in Hz.
Qed.
#[local] Notation cell := (option (DataType * option Z)).

(** A shard where the key shows [c], reached from [d] without growing. *)
Definition at_cell now k d d' (c : cell) : Prop :=
  exists o, dstep d d' k o /\ seen now o = c /\ total_bytes d' <= total_bytes d.

Lemma at_start now k d : wf d -> at_cell now k d d (seen now (Database.entries d !! k)).
Proof. intros W. exists (Database.entries d !! k). split; [by apply same_step|]. by split. Qed.

(** Looking changes nothing that is seen. *)
Lemma at_get now k d d' (c : cell) : at_cell now k d d' c -> exists r d2, Database.get now k d' = (r, d2) /\ visible <$> r = c /\ at_cell now k d d2 c.
Proof.
  intros (o & D & So & T). destruct (get_on_shard now k d' (proj1 D)) as (W2 & St & Hv & Hx & Tb). rewrite (dstep_slot _ _ _ _ D), So in Hv, Hx.
  destruct (Database.get now k d') as [r d2]. cbn [fst snd] in *. exists r, d2. split; [done|]. split; [done|].
  exists r. split; [by eapply dstep_trans|]. split; [done|lia].
Qed.

(** A new value, with the deadline that was there. *)
Lemma at_put now k d d' (c : cell) (v : DataType) (x : option Expiry.t) : at_cell now k d d' c -> (Expiry.expires_at_ms <$> x) = c ≫= snd ->
  (match x with Some x => Expiry.is_expired now x = false | None => True end) ->
  (Z.of_nat (total_bytes d + (64 + length k + Database.value_size v)) < 2 ^ 64)%Z ->
  let d2 := Database.insert k (Entry.new v) d' in
  let d3 := match x with Some x => Database.set_expiry k (Some x) d2 | None => d2 end in
  exists o, dstep d d3 k o /\ seen now o = Some (v, c ≫= snd).
Proof.
  intros (o & D & So & T) Hx Hl F d2 d3. assert (D2 : dstep d d2 k (Some (Entry.new v))).
  { eapply dstep_trans; [exact D|]. apply insert_serve; [apply D|]. unfold Database.estimate_entry_size. simpl. lia. }
  subst d3. rewrite <- Hx. destruct x as [x|].
  - eexists. split; [by apply set_expiry_step|]. unfold seen, Entry.is_expired. simpl. by rewrite Hl.
  - eexists. by split.
Qed.

(** 1 when the key is new or the sketch changes. *)
Definition add_answer (c : cell) es els : Resp :=
  int (if bool_decide (c = None) || negb (bool_decide (sketch (es ++ els) = sketch es)) then 1 else 0).

Lemma pfadd_body_spec now k els es d : wf d -> sketched (seen now (Database.entries d !! k)) es ->
  (Z.of_nat (total_bytes d + (64 + length k + HLL_REGISTERS)) < 2 ^ 64)%Z ->
  exists d' o, pfadd_body now k els d = Some (inr (add_answer (seen now (Database.entries d !! k)) es els), d') /\ dstep d d' k o /\
    sketched (seen now o) (es ++ els) /\ seen now o ≫= snd = seen now (Database.entries d !! k) ≫= snd.
Proof.
  intros W Hs F. pose proof (at_start now k d W) as A. set (c := seen now (Database.entries d !! k)) in *. clearbody c.
  destruct (at_get now k d d c A) as (r1 & d1 & E1 & V1 & A1). unfold pfadd_body. rewrite E1.
  assert (Hr : match r1 with None => Some (inr hll_empty) | Some e => hll_registers_from (Entry.value e) end = Some (inr (sketch es))).
  { pose proof (sketched_regs c es Hs) as Hc. by destruct r1 as [e|]; simpl in V1; subst c. }
  rewrite Hr. mstep. cbn [try_at]. destruct (pfadd_loop_spec els es 0%Z) as (n & -> & Hn & Hz). mstep. rewrite Z.add_0_l.
  assert (Hw : exists w d2, (if bool_decide (0 < n)%Z then (true, d1)
      else let '(found, d2) := Database.get now k d1 in (bool_decide (found = None), d2)) = (w, d2) /\ at_cell now k d d2 c /\
      w = bool_decide (c = None) || negb (bool_decide (sketch (es ++ els) = sketch es))).
  { case_bool_decide as Hp.
    - exists true, d1. split_and!; [done..|]. rewrite (bool_decide_eq_false_2 (sketch _ = _)) by (intros E; apply Hz in E; lia). by rewrite orb_true_r.
    - destruct (at_get now k d d1 c A1) as (r2 & d2 & -> & V2 & A2). eexists _, d2. split; [done|]. split; [done|].
      rewrite (bool_decide_eq_true_2 (sketch _ = _)) by (apply Hz; lia). rewrite orb_false_r. apply bool_decide_ext. by rewrite <- V2, fmap_None. }
  destruct Hw as (w & d2 & -> & A2 & Ew). unfold add_answer. rewrite <- Ew. destruct w.
  - destruct (at_get now k d d2 c A2) as (r3 & d3 & -> & V3 & A3).
    destruct (at_put now k d d3 c (THyperLogLog (register_bytes (sketch (es ++ els)))) (r3 ≫= Entry.expiry) A3) as (o & D & So).
    { rewrite <- V3. by destruct r3. }
    { destruct A3 as (o & _ & So & _). rewrite <- V3 in So. clear V3. destruct r3 as [e|]; [|done]. simpl in *. destruct (Entry.expiry e) as [x|] eqn:Ex; [|done].
      unfold seen in So. destruct o as [eo|]; [|done]. simpl in So.
      destruct (Entry.is_expired now eo) eqn:X; [done|]. injection So as Ev Eo. unfold Entry.is_expired in X. rewrite Ex in Eo.
      destruct (Entry.expiry eo) as [xo|]; [|done]. injection Eo as Eo. unfold Expiry.is_expired in *. by rewrite <- Eo. }
    { cbn [Database.value_size]. unfold register_bytes. rewrite length_map, sketch_length. exact F. }
    eexists _, o. split; [reflexivity|]. split; [exact D|]. rewrite So. split; [apply sketched_new|done].
  - destruct A2 as (o & D & So & _). exists d2, o. split; [reflexivity|]. split; [exact D|]. rewrite So. split; [|reflexivity].
    symmetry in Ew. apply orb_false_iff in Ew as [Ec Ek]. apply negb_false_iff, bool_decide_eq_true in Ek. apply bool_decide_eq_false in Ec.
    destruct c as [[v x]|]; [|destruct Ec; reflexivity]. unfold sketched in *. rewrite Ek. exact Hs.
Qed.
#[local] Opaque sketch.

(** ** PFCOUNT and PFMERGE *)

Lemma seen_live now o : seen now o = visible <$> live now o.
Proof. destruct o as [e|]; [|done]. unfold seen, live. simpl. by destruct (Entry.is_expired now e). Qed.

(** The union of the keys, and whether one of them is there. *)
Lemma merge_keys_spec now s keys : swf s -> forall ess a any, Forall2 (fun k es => sketched (seen now (slot s k)) es) keys ess ->
  merge_keys now keys (sketch a) any s =
    Some (inr (sketch (a ++ concat ess), any || existsb (fun k => bool_decide (is_Some (seen now (slot s k)))) keys)).
Proof.
  intros W. induction keys as [|k keys IH]; intros ess a any F.
  - apply Forall2_nil_inv_l in F as ->. simpl. by rewrite app_nil_r, orb_false_r.
  - apply Forall2_cons_inv_l in F as (es & ess' & Hk & F & ->). cbn [merge_keys concat existsb]. rewrite read_live by done.
    rewrite seen_live in *. destruct (live now (slot s k)) as [e|]; simpl in Hk.
    + rewrite Hk. mstep. rewrite hll_merge_sketch, (IH ess' _ _ F), app_assoc. by rewrite orb_true_r.
    + subst es. rewrite (IH ess' _ _ F). by rewrite bool_decide_eq_false_2 by (by intros []).
Qed.

(** The destination of a merge holds plain registers, or nothing. *)
Definition plain (c : cell) : Prop := match c with Some (v, _) => exists bs, dest_registers v = inr bs | None => True end.

Lemma plain_registers v es bs : dest_registers v = inr bs -> hll_registers_from v = Some (inr (sketch es)) ->
  bs = register_bytes (sketch es) /\ Database.value_size v = HLL_REGISTERS.
Proof.
  intros Hd Hr. assert (Hv : (v = THyperLogLog bs \/ v = TString bs) /\ length bs = HLL_REGISTERS).
  { destruct v; simpl in Hd; try done; case_bool_decide; try done; injection Hd as ->; auto. }
  destruct Hv as [Hv Hl]. split; [|by destruct Hv; subst v].
  assert (Hm : map byte_val bs = sketch es).
  { destruct Hv; subst v; unfold hll_registers_from in Hr; rewrite bool_decide_eq_false_2 in Hr by (by intros []);
      destruct (forallb _ bs); by inversion Hr. }
  rewrite <- Hm. unfold register_bytes. rewrite map_map. clear. induction bs as [|b bs IH]; [done|]. simpl. by rewrite byte_of_val, <- IH.
Qed.

Lemma merged_bytes es es' : zip_with (fun b o => if bool_decide (byte_val b < o)%Z then byte_of o else b) (register_bytes (sketch es)) (sketch es')
  = register_bytes (sketch (es ++ es')).
Proof.
  rewrite <- hll_merge_sketch. unfold hll_merge_into, register_bytes. pose proof (sketch_six es) as F.
  revert F. generalize (sketch es) as l. generalize (sketch es') as l'. intros l' l. revert l'.
  induction l as [|x l IH]; intros [|y l'] F; try done. apply Forall_cons in F as [Hx F]. cbn [map zip_with]. f_equal; [|by apply IH].
  rewrite byte_val_of, Z.mod_small by lia. by case_bool_decide.
Qed.

Lemma pfmerge_body_spec now k es acc d : wf d -> sketched (seen now (Database.entries d !! k)) es -> plain (seen now (Database.entries d !! k)) ->
  (Z.of_nat (total_bytes d + (64 + length k + HLL_REGISTERS)) < 2 ^ 64)%Z ->
  exists d' o, pfmerge_body now k (sketch acc) d = Some (inr ok, d') /\ dstep d d' k o /\
    sketched (seen now o) (es ++ acc) /\ seen now o ≫= snd = seen now (Database.entries d !! k) ≫= snd.
Proof.
  intros W Hs Hp F. destruct (get_mut_step now k d W) as [D1 E1]. unfold pfmerge_body. destruct (Database.get_mut now k d) as [found d1]. cbn [fst snd] in D1, E1.
  subst found. rewrite seen_live in *. destruct (live now (Database.entries d !! k)) as [e|] eqn:L; cbn [fmap option_fmap option_map visible] in *.
  - destruct Hp as [bs Hd]. destruct (plain_registers _ es bs Hd Hs) as [-> Hz]. rewrite Hd. cbn [try_at]. rewrite merged_bytes.
    set (e' := Entry.set_value (THyperLogLog (register_bytes (sketch (es ++ acc)))) e).
    assert (Hn : length (register_bytes (sketch (es ++ acc))) = HLL_REGISTERS) by (unfold register_bytes; rewrite length_map; apply sketch_length).
    assert (D2 : dstep d1 (Database.adjust_live_bytes 0 (Database.write_back k e' d1)) k (Some e')).
    { pose proof (wf_fits _ (proj1 D1)). eapply modify_step; [apply D1|by eapply dstep_slot|reflexivity| |lia].
      unfold Database.estimate_entry_size. rewrite Hz. subst e'. cbn [Entry.value Entry.set_value Database.value_size]. rewrite Hn. lia. }
    eexists _, (Some e'). split; [reflexivity|]. split; [eapply dstep_trans; [exact D1|exact D2]|].
    assert (Se : seen now (Some e') = Some (THyperLogLog (register_bytes (sketch (es ++ acc))), Expiry.expires_at_ms <$> Entry.expiry e)).
    { unfold seen. simpl. pose proof (live_not_expired _ _ _ L) as X. change (Entry.is_expired now e') with (Entry.is_expired now e). by rewrite X. }
    rewrite Se. split; [apply sketched_new|reflexivity].
  - simpl in Hs. subst es. set (e' := Entry.new (THyperLogLog (register_bytes (sketch acc)))).
    assert (D2 : dstep d1 (Database.insert k e' d1) k (Some e')).
    { apply insert_serve; [apply D1|]. pose proof (dstep_total _ _ _ _ D1) as T. simpl in T. unfold Database.estimate_entry_size. subst e'.
      cbn [Entry.value Entry.new Database.value_size]. unfold register_bytes. rewrite length_map, sketch_length. lia. }
    eexists _, (Some e'). split; [reflexivity|]. split; [eapply dstep_trans; [exact D1|exact D2]|]. split; [apply (sketched_new acc None)|reflexivity].
Qed.

(** ** Commands *)

(** A change of one key on its shard. *)
Lemma on_key now k s body (P : Resp -> cell -> Prop) : swf s ->
  (forall d, shards s !! shard_idx s k = Some d -> wf d -> Database.entries d !! k = slot s k ->
     exists r d' o, body d = Some (inr r, d') /\ dstep d d' k o /\ P r (seen now o)) ->
  exists r s', on_shard (shard_idx s k) body s = Some (@inr NexradeError _ r, s') /\ swf s' /\ P r (seen now (slot s' k)) /\
    forall j, j <> k -> slot s' j = slot s j.
Proof.
  intros W B. destruct (shard_of s k W) as (d & Hd & Wd & Hs). destruct (B d Hd Wd (eq_sym Hs)) as (r & d' & o & E & [Wd' St] & HP).
  destruct (on_shard_step s k d _ d' o body W Hd E St Wd') as (s' & E' & W' & [_ Ha] & _).
  exists r, s'. split; [done|]. split; [done|]. split; [rewrite Ha, decide_True by done; done|]. intros j Hj. by rewrite Ha, decide_False.
Qed.

(** The key and the elements, or the keys, of a call. *)
Definition pf_request (cmd : string) args : Result (bytes * list bytes) :=
  if bool_decide (length args < 2) then inl (wrong_arity cmd)
  else let! key := get_bytes_vec args 1 cmd in let! rest := bytes_from (drop 2 args) cmd in inr (key, rest).

(** The keys show the sketches. *)
Definition sketches now s (E : bytes -> option (list bytes)) : Prop := forall k es, E k = Some es -> sketched (seen now (slot s k)) es.

Definition with_sketch (E : bytes -> option (list bytes)) k es : bytes -> option (list bytes) := fun j => if decide (j = k) then Some es else E j.

Lemma keep_sketches now s s' E k es : sketches now s E -> sketched (seen now (slot s' k)) es -> (forall j, j <> k -> slot s' j = slot s j) ->
  sketches now s' (with_sketch E k es).
Proof. intros S Hk Hj j es'. unfold with_sketch. case_decide; [subst j; by intros [= <-]|]. rewrite Hj by done. apply S. Qed.

Lemma bytes_from_all keys now s E ess : sketches now s E -> mapM E keys = Some ess -> Forall2 (fun k es => sketched (seen now (slot s k)) es) keys ess.
Proof. intros S Hm. apply mapM_Some in Hm. eapply Forall2_impl; [exact Hm|]. intros k es Hk. by apply S. Qed.

End Hll.

(** ** Runs *)

Section HllRuns.
#[local] Existing Instance SetData.vec_index_set.

(** Powers of two are exact; the logarithm is any function. *)
#[local] Instance exact_powers : HllMath := {| f64_ln := fun x => x; pow2 := fun n => Z.shiftl (n + 1023) 52 |}.

Definition no_keys : t := new (2 ^ 2).

Lemma no_keys_sketches now : sketches now no_keys (fun _ => Some []).
Proof. intros k es [= <-]. unfold no_keys. by rewrite slot_new. Qed.

Definition pf_words (ws : list string) : list Resp := map (fun w => bulk (bstr w)) ws.

End HllRuns.
