(* ===== verification/Monitors.v ===== *)
(** * Monitors: the slow log ([slowlog.rs]) and the latency monitor ([latency.rs])

    Both keep a bounded amount of what commands took.  [SlowLog] is a queue of entries,
    newest first; [LatencyMonitor] keeps, for at most 64 events, the last 160 samples.
    The clock, in seconds, is an argument of what records. *)

From S2P Require Import Prelude.

(** ** The slow log *)

Module SlowLog.

Record SlowLogEntry := mkEntry { id : Z; timestamp : Z; duration_us : Z; args : list bytes; client_addr : bytes }.

Record t := mk { entries : list SlowLogEntry; next_id : Z; threshold_us : Z; max_len : nat }.

Definition new (threshold : Z) (max : nat) : t := mk [] 0 threshold max.

Definition set_threshold (us : Z) (l : t) : t := mk (entries l) (next_id l) us (max_len l).
Definition set_max_len (n : nat) (l : t) : t := mk (entries l) (next_id l) (threshold_us l) n.

(** [while entries.len() > max { entries.pop_back() }], by the number of rounds. *)
Fixpoint pop_loop (rounds max : nat) (es : list SlowLogEntry) : list SlowLogEntry :=
  match rounds with
  | 0 => es
  | S rounds => if bool_decide (max < length es) then pop_loop rounds max (take (length es - 1) es) else es
  end.

(** [record]; the duration comes in microseconds and is cut to 64 bits. *)
Definition record (now duration : Z) (args : list bytes) (addr : bytes) (l : t) : t :=
  let us := wrap64 duration in
  if bool_decide (us < threshold_us l)%Z then l
  else
    let es := mkEntry (next_id l) now us args addr :: entries l in
    mk (pop_loop (length es) (max_len l) es) (next_id l + 1) (threshold_us l) (max_len l).

Definition get (count : nat) (l : t) : list SlowLogEntry := take count (entries l).
Definition len (l : t) : nat := length (entries l).
Definition is_empty (l : t) : bool := bool_decide (entries l = []).
Definition reset (l : t) : t := mk [] (next_id l) (threshold_us l) (max_len l).

End SlowLog.

(** ** The latency monitor *)

Module Latency.

Definition HISTORY_CAP : nat := 160.
Definition MAX_EVENTS : nat := 64.

Record LatencySample := mkSample { timestamp : Z; duration_us : Z }.

Record EventState := mkEventState { history : list LatencySample; latest_us : Z; latest_ts : Z; all_time_us : Z }.

Definition EventState_new : EventState := mkEventState [] 0 0 0.

Definition push (sample : LatencySample) (e : EventState) : EventState :=
  let all_time := if bool_decide (all_time_us e < duration_us sample)%Z then duration_us sample else all_time_us e in
  let h := if bool_decide (HISTORY_CAP <= length (history e)) then drop 1 (history e) else history e in
  mkEventState (h ++ [sample]) (duration_us sample) (timestamp sample) all_time.

Record t := mk { events : gmap bytes EventState; order : list bytes; global_max_us : Z; total_samples : Z }.

Definition new : t := mk ∅ [] 0 0.

(** The exchange loop, without interference. *)
Definition atomic_max (cur us : Z) : Z := if bool_decide (cur < us)%Z then us else cur.

Definition record (now : Z) (event : bytes) (us : Z) (m : t) : t :=
  if bool_decide (us = 0)%Z || bool_decide (event = []) then m
  else
    let total := wrap64 (total_samples m + 1) in
    let gmax := atomic_max (global_max_us m) us in
    let sample := mkSample now us in
    match events m !! event with
    | Some state => mk (<[event := push sample state]> (events m)) (order m) gmax total
    | None =>
        let '(evs, ord) :=
          if bool_decide (MAX_EVENTS <= size (events m)) then
            match order m with
            | old :: ord => (delete old (events m), ord)
            | [] => (events m, [])
            end
          else (events m, order m) in
        mk (<[event := push sample EventState_new]> evs) (ord ++ [event]) gmax total
    end.

(** Rows of (event, timestamp, latest, all time). *)
Definition Row : Type := bytes * (Z * Z * Z).
Definition row_of (p : bytes * EventState) : Row := (p.1, (latest_ts p.2, latest_us p.2, all_time_us p.2)).
Definition row_le (a b : Row) : Prop := bytes_cmp a.1 b.1 <> Gt.

#[export] Instance row_le_dec : RelDecision row_le.
Proof. intros a b. unfold row_le. solve_decision. Defined.

Definition latest `{HashOrder} (m : t) : list Row := merge_sort row_le (map row_of (hm_iter (events m))).

Definition history_of (event : bytes) (m : t) : list (Z * Z) :=
  match events m !! event with
  | Some s => map (fun x => (timestamp x, duration_us x)) (history s)
  | None => []
  end.

(** Smallest power of two not below, by smearing the highest bit. *)
Definition next_pow2_us (us : Z) : Z :=
  if bool_decide (us <= 1)%Z then 1
  else
    let v := (us - 1)%Z in
    let v := Z.lor v (Z.shiftr v 1) in
    let v := Z.lor v (Z.shiftr v 2) in
    let v := Z.lor v (Z.shiftr v 4) in
    let v := Z.lor v (Z.shiftr v 8) in
    let v := Z.lor v (Z.shiftr v 16) in
    let v := Z.lor v (Z.shiftr v 32) in
    Z.min (2 ^ 64 - 1) (v + 1).

Record LatencyHistogram := mkHistogram { calls : Z; buckets : gmap Z Z }.

Definition from_samples (samples : list LatencySample) : LatencyHistogram :=
  mkHistogram (Z.of_nat (length samples))
    (fold_left (fun b s => let k := next_pow2_us (duration_us s) in <[k := (default 0 (b !! k) + 1)%Z]> b) samples ∅).

(** The named events, or all of them. *)
Definition histogram (names : list bytes) (m : t) : gmap bytes LatencyHistogram :=
  match names with
  | [] => (fun s => from_samples (history s)) <$> events m
  | _ => fold_left (fun out name => match events m !! name with
                                    | Some s => <[name := from_samples (history s)]> out
                                    | None => out
                                    end) names ∅
  end.

Fixpoint reset_loop (names : list bytes) (n : nat) (m : t) : nat * t :=
  match names with
  | [] => (n, m)
  | e :: names =>
      match events m !! e with
      | Some _ => reset_loop names (n + 1) (mk (delete e (events m)) (filter (fun x => x <> e) (order m)) (global_max_us m) (total_samples m))
      | None => reset_loop names n m
      end
  end.

Definition reset (names : list bytes) (m : t) : nat * t :=
  match names with
  | [] => (size (events m), mk ∅ [] 0 (total_samples m))
  | _ => reset_loop names 0 m
  end.

Definition event_count (m : t) : nat := size (events m).

(** The exchange loop of one thread: before the first load, with the value it read last,
    and done. *)
Inductive Maximizer := Start (us : Z) | Loaded (us cur : Z) | Done (us : Z).

(** One access to the shared counter; a weak exchange may fail although the value is right. *)
Definition max_step (th : Maximizer) (spurious : bool) (v : Z) : Maximizer * Z :=
  match th with
  | Start us => (if bool_decide (v < us)%Z then Loaded us v else Done us, v)
  | Loaded us cur =>
      if bool_decide (v = cur) && negb spurious then (Done us, us)
      else (if bool_decide (v < us)%Z then Loaded us v else Done us, v)
  | Done us => (Done us, v)
  end.

Fixpoint max_run (sched : list (nat * bool)) (v : Z) (ths : list Maximizer) : Z * list Maximizer :=
  match sched with
  | [] => (v, ths)
  | (i, sp) :: sched =>
      match ths !! i with
      | Some th => let '(th, v) := max_step th sp v in max_run sched v (<[i := th]> ths)
      | None => max_run sched v ths
      end
  end.

End Latency.

(** ** What the slow log keeps *)

Module SlowLogSpec.
Import SlowLog.

Lemma pop_loop_take rounds max es : length es <= rounds -> pop_loop rounds max es = take max es.
Proof.
  revert es. induction rounds as [|n IH]; intros es Hl; simpl; [destruct es; simpl in *; [by rewrite take_nil|lia]|].
  case_bool_decide as Hm; [|by rewrite take_ge by lia]. rewrite IH by (rewrite length_take; lia). rewrite take_take. f_equal. lia.
Qed.

Inductive Op := Record (now duration : Z) (args : list bytes) (addr : bytes) | SetThreshold (us : Z) | SetMaxLen (n : nat) | Reset.

Definition step (l : t) (o : Op) : t :=
  match o with
  | Record now duration args addr => record now duration args addr l
  | SetThreshold us => set_threshold us l
  | SetMaxLen n => set_max_len n l
  | Reset => reset l
  end.

(** Everything recorded since the last reset, newest first, how many of them a limit has
    left in reach, the number of entries ever recorded and the two settings. *)
Record Log := mkLog { recorded : list SlowLogEntry; kept : nat; ever : nat; limit_us : Z; limit : nat }.

Definition lstep (a : Log) (o : Op) : Log :=
  match o with
  | Record now duration args addr =>
      if bool_decide (wrap64 duration < limit_us a)%Z then a
      else mkLog (mkEntry (Z.of_nat (ever a)) now (wrap64 duration) args addr :: recorded a)
             ((kept a + 1) `min` limit a) (ever a + 1) (limit_us a) (limit a)
  | SetThreshold us => mkLog (recorded a) (kept a) (ever a) us (limit a)
  | SetMaxLen n => mkLog (recorded a) (kept a) (ever a) (limit_us a) n
  | Reset => mkLog [] 0 (ever a) (limit_us a) (limit a)
  end.

Record keeps (l : t) (a : Log) : Prop := {
  k_entries : entries l = take (kept a) (recorded a);
  k_reach : kept a <= length (recorded a);
  k_next : next_id l = Z.of_nat (ever a);
  k_threshold : threshold_us l = limit_us a;
  k_max : max_len l = limit a;
}.

Lemma keeps_step l a o : keeps l a -> keeps (step l o) (lstep a o).
Proof.
  intros [En Hk Hn Ht Hm]. destruct o as [now duration args addr|us|k|]; cbn [step lstep]; [|by split..|split; simpl; auto with lia].
  unfold record. rewrite <- Ht. case_bool_decide; [by split|].
  rewrite pop_loop_take by done.
  split; cbn [SlowLog.entries recorded kept SlowLog.next_id ever SlowLog.threshold_us limit_us SlowLog.max_len limit length]; [|lia..|done|done].
  rewrite Hm, Hn, En, Nat.add_1_r, Nat.min_comm, <- take_take. by cbn [take].
Qed.

Lemma keeps_run l a ops : keeps l a -> keeps (foldl step l ops) (foldl lstep a ops).
Proof. revert l a. induction ops as [|o ops IH]; intros l a K; [done|]. by apply IH, keeps_step. Qed.

(** Whatever is recorded, set and reset, the log holds exactly the newest of the entries at
    or above the threshold since the last reset, as many as the limit has left, numbered
    through from the start; an entry that is added is at the front and the limit holds
    again. *)
Theorem slow_log_keeps_the_newest threshold max ops :
  let l := foldl step (new threshold max) ops in
  let a := foldl lstep (mkLog [] 0 0 threshold max) ops in
  keeps l a /\ (forall count, get count l = take (count `min` kept a) (recorded a)) /\
  (forall now duration args addr, (threshold_us l <= wrap64 duration)%Z ->
     let l' := record now duration args addr l in
     len l' <= max_len l' /\ (0 < max_len l -> head (entries l') = Some (mkEntry (Z.of_nat (ever a)) now (wrap64 duration) args addr))).
Proof.
  cbv zeta. pose proof (keeps_run (new threshold max) (mkLog [] 0 0 threshold max) ops ltac:(by split)) as K.
  set (l := foldl step _ ops) in *. set (a := foldl lstep _ ops) in *.
  clearbody l a. pose proof K as [En _ Hn _ _]. split; [done|]. split.
  - intros count. unfold get. by rewrite En, take_take.
  - intros now duration args addr Hd. unfold record. rewrite bool_decide_eq_false_2 by lia. rewrite pop_loop_take by done. unfold len.
    cbn [SlowLog.entries SlowLog.max_len]. split; [rewrite length_take; lia|]. intros Hp. destruct (max_len l) as [|q]; [lia|]. simpl. by rewrite Hn.
Qed.
End SlowLogSpec.
