(* ===== verification/LatencySpec.v ===== *)
(** * LatencySpec: what the latency monitor reports

    The abstract state is a book: the events in the order of their first sample, each with
    every sample it has had.  The monitor of [Monitors.v] shows the last 160 samples of each
    event of the book, its latest sample and its largest one, under every sequence of
    samples and resets; the histogram counts by the least power of two; and the shared
    maximum is right under every interleaving of the threads that raise it. *)

From stdpp Require Import sorting.
From S2P Require Import Prelude Monitors.
Import Latency.

(** ** The bucket of a sample *)

(** The highest bits from [L] down are set for a run of [k], and none is above [L]. *)
Definition top_run (L k v : Z) : Prop :=
  (forall j, 0 <= j -> L - k < j <= L -> Z.testbit v j = true)%Z /\ (forall j, L < j -> Z.testbit v j = false)%Z.

Lemma top_run_double L k v : (0 <= L)%Z -> (0 <= k)%Z -> top_run L k v -> top_run L (2 * k) (Z.lor v (Z.shiftr v k)).
Proof.
  intros HL Hk [Hs Hz]. split; intros j Hj.
  - intros Hr. rewrite Z.lor_spec, Z.shiftr_spec by lia. destruct (Z.lt_ge_cases (L - k) j); [by rewrite Hs by lia|].
    rewrite (Hs (j + k)%Z) by lia. apply orb_true_r.
  - rewrite Z.lor_spec, Z.shiftr_spec, !Hz by lia. done.
Qed.

Lemma top_run_ones L k v : (0 <= L < k)%Z -> (0 <= v)%Z -> top_run L k v -> v = Z.ones (L + 1).
Proof.
  intros HL Hv [Hs Hz]. apply Z.bits_inj'. intros j Hj. destruct (Z.lt_ge_cases L j).
  - rewrite Hz, Z.ones_spec_high by lia. done.
  - rewrite Hs, Z.ones_spec_low by lia. done.
Qed.

Lemma lor_shiftr_nonneg v k : (0 <= v)%Z -> (0 <= Z.lor v (Z.shiftr v k))%Z.
Proof. intros H. apply Z.lor_nonneg. split; [done|]. by apply Z.shiftr_nonneg. Qed.

(** The bucket is the least power of two that is not below the duration. *)
Lemma next_pow2_us_least us : (1 <= us <= 2 ^ 63)%Z -> next_pow2_us us = (2 ^ Z.log2_up us)%Z.
Proof.
  intros Hu. unfold next_pow2_us. case_bool_decide; [by replace us with 1%Z by lia|].
  set (L := Z.log2 (us - 1)). assert (HL : (0 <= L < 63)%Z).
  { unfold L. split; [apply Z.log2_nonneg|]. apply Z.log2_lt_pow2; lia. }
  assert (R : top_run L 1 (us - 1)).
  { split; intros j Hj; [intros Hr; replace j with L by lia; apply Z.bit_log2; lia|]. apply Z.bits_above_log2; lia. }
  apply (top_run_double L 1) in R; [|lia..]. apply (top_run_double L 2) in R; [|lia..]. apply (top_run_double L 4) in R; [|lia..].
  apply (top_run_double L 8) in R; [|lia..]. apply (top_run_double L 16) in R; [|lia..]. apply (top_run_double L 32) in R; [|lia..].
  apply (top_run_ones L 64) in R; [|lia|repeat apply lor_shiftr_nonneg; lia]. cbv zeta. rewrite R.
  rewrite Z.ones_equiv, Z.log2_up_eqn by lia. replace (Z.pred us) with (us - 1)%Z by lia. fold L.
  replace (Z.succ L) with (L + 1)%Z by lia. rewrite Z.min_r; [lia|]. enough (2 ^ (L + 1) <= 2 ^ 63)%Z by lia. apply Z.pow_le_mono_r; lia.
Qed.

(** ** The book *)

Record Book := mkBook { pages : list (bytes * list LatencySample); peak : Z; total : Z }.

Definition peak_us (l : list LatencySample) : Z := foldl (fun a s => Z.max a (duration_us s)) 0%Z l.
Definition shown (l : list LatencySample) : list LatencySample := drop (length l - HISTORY_CAP) l.

Definition state_of (l : list LatencySample) : EventState :=
  mkEventState (shown l) (default 0%Z (duration_us <$> last l)) (default 0%Z (timestamp <$> last l)) (peak_us l).

Definition page (b : Book) : gmap bytes (list LatencySample) := list_to_map (pages b).

Definition note (ev : bytes) (s : LatencySample) (ps : list (bytes * list LatencySample)) : list (bytes * list LatencySample) :=
  (fun p => if bool_decide (p.1 = ev) then (p.1, p.2 ++ [s]) else p) <$> ps.

(** A sample goes to the page of its event; a new event makes the oldest one go when there
    are 64. *)
Definition brecord (now : Z) (ev : bytes) (us : Z) (b : Book) : Book :=
  if bool_decide (us = 0)%Z || bool_decide (ev = []) then b
  else
    let s := mkSample now us in
    let ps := if bool_decide (ev ∈ (pages b).*1) then note ev s (pages b)
              else drop (length (pages b) + 1 - MAX_EVENTS) (pages b) ++ [(ev, [s])] in
    mkBook ps (Z.max (peak b) us) (wrap64 (total b + 1)).

Definition breset (names : list bytes) (b : Book) : Book :=
  match names with
  | [] => mkBook [] 0 (total b)
  | _ => mkBook (filter (fun p => p.1 ∉ names) (pages b)) (peak b) (total b)
  end.

Record shows (m : t) (b : Book) : Prop := {
  s_order : order m = (pages b).*1;
  s_nodup : NoDup (pages b).*1;
  s_events : events m = state_of <$> page b;
  s_bound : length (pages b) <= MAX_EVENTS;
  s_peak : global_max_us m = peak b;
  s_total : total_samples m = total b;
}.

Lemma push_state_of s l : push s (state_of l) = state_of (l ++ [s]).
Proof.
  unfold push, state_of. cbn [history all_time_us]. rewrite last_snoc. cbn [fmap option_fmap option_map default]. f_equal.
  - unfold shown, HISTORY_CAP. rewrite length_drop, length_app. cbn [length]. case_bool_decide as H.
    + rewrite drop_drop, drop_app_le by lia. do 2 f_equal. lia.
    + replace (length l - 160) with 0 by lia. replace (length l + 1 - 160) with 0 by lia. done.
  - unfold peak_us. rewrite foldl_app. cbn [foldl]. case_bool_decide; lia.
Qed.

Lemma note_names ev s ps : (note ev s ps).*1 = ps.*1.
Proof. unfold note. rewrite <- list_fmap_compose. apply list_fmap_ext. intros i [k l] _. simpl. by case_bool_decide. Qed.

Lemma note_map ev s ps : (list_to_map (note ev s ps) : gmap bytes (list LatencySample)) = alter (.++ [s]) ev (list_to_map ps).
Proof.
  induction ps as [|[k l] ps IH]; [by simpl; rewrite alter_empty|]. unfold note in *. cbn [fmap list_fmap fst snd]. case_bool_decide as E; simpl in *; rewrite IH.
  - subst k. by rewrite alter_insert_eq, insert_alter_eq.
  - by rewrite alter_insert_ne.
Qed.

Lemma book_page_elem b ev : NoDup (pages b).*1 -> (exists l, page b !! ev = Some l) <-> ev ∈ (pages b).*1.
Proof.
  intros ND. unfold page. split.
  - intros [l Hl]. apply elem_of_list_to_map_2 in Hl. apply list_elem_of_fmap. by exists (ev, l).
  - intros [[k l] [-> Hin]]%list_elem_of_fmap. exists l. by apply elem_of_list_to_map_1.
Qed.

Lemma events_known m b ev : shows m b -> events m !! ev = state_of <$> page b !! ev.
Proof. intros S. by rewrite (s_events _ _ S), lookup_fmap. Qed.

Lemma page_none b ev : ev ∉ (pages b).*1 -> page b !! ev = None.
Proof. apply not_elem_of_list_to_map_1. Qed.

Lemma events_size m b : shows m b -> size (events m) = length (pages b).
Proof. intros S. rewrite (s_events _ _ S), map_size_fmap. unfold page. by rewrite map_size_list_to_map, ?length_fmap by apply S. Qed.

(** A first sample of an event, in a book with room for it. *)
Lemma shows_new m b ev ps :
  shows m b -> ev ∉ (pages b).*1 -> ps = drop (length (pages b) + 1 - MAX_EVENTS) (pages b) ->
  let evs_ord := if bool_decide (MAX_EVENTS <= size (events m)) then
            match order m with old :: ord => (delete old (events m), ord) | [] => (events m, []) end
          else (events m, order m) in
  evs_ord.1 = state_of <$> list_to_map ps /\ evs_ord.2 = ps.*1 /\ NoDup ps.*1 /\ ev ∉ ps.*1 /\ length ps < MAX_EVENTS.
Proof.
  intros Hs Hn ->. rewrite (events_size _ _ Hs), (s_order _ _ Hs), (s_events _ _ Hs). pose proof (s_bound _ _ Hs). pose proof (s_nodup _ _ Hs) as ND.
  unfold MAX_EVENTS, page in *. case_bool_decide as Hf; cbv zeta.
  - destruct (pages b) as [|[old l] ps]; [simpl in *; lia|]. cbn [length] in *. replace (S (length ps) + 1 - 64) with 1 by lia.
    cbn [fmap list_fmap fst snd drop list_to_map foldr] in *. rewrite drop_0. apply NoDup_cons in ND as [Ho ND]. apply not_elem_of_cons in Hn as [_ Hn].
    split; [|auto with lia]. simpl. rewrite fmap_insert, delete_insert_id; [done|]. by rewrite lookup_fmap, not_elem_of_list_to_map_1.
  - replace (length (pages b) + 1 - 64) with 0 by lia. rewrite drop_0. simpl. auto with lia.
Qed.

Lemma shows_record m b now ev us : shows m b -> shows (record now ev us m) (brecord now ev us b).
Proof.
  intros S. unfold record, brecord. destruct (_ || _); [done|]. rewrite (events_known _ _ _ S).
  pose proof (s_peak _ _ S) as Hp. pose proof (s_total _ _ S) as Ht.
  assert (Hx : atomic_max (global_max_us m) us = Z.max (peak b) us) by (unfold atomic_max; case_bool_decide; lia). rewrite Hx, Ht.
  destruct (decide (ev ∈ (pages b).*1)) as [Hin|Hin]; [rewrite (bool_decide_eq_true_2 _ Hin)|rewrite (bool_decide_eq_false_2 _ Hin)].
  - destruct (proj2 (book_page_elem b ev (s_nodup _ _ S)) Hin) as [l Hl]. rewrite Hl. cbn [fmap option_fmap option_map].
    split; cbn [order pages events global_max_us total_samples peak total]; rewrite ?note_names; try apply S; try done.
    + rewrite (s_events _ _ S). unfold page. cbn [pages]. rewrite note_map, push_state_of.
      apply map_eq. intros k. destruct (decide (k = ev)) as [->|Hk].
      * rewrite lookup_insert_eq, lookup_fmap, lookup_alter_eq. unfold page in Hl. by rewrite Hl.
      * by rewrite lookup_insert_ne, !lookup_fmap, lookup_alter_ne by done.
    + unfold note. rewrite length_fmap. apply S.
  - rewrite page_none by done. cbn [fmap option_fmap option_map].
    pose proof (shows_new m b ev _ S Hin eq_refl) as H. cbv zeta in H. destruct (if bool_decide (MAX_EVENTS <= _) then _ else _) as [evs ord].
    cbn [fst snd] in H. set (ps := drop _ (pages b)) in *. destruct H as (-> & -> & ND & Hf & Hl).
    split; cbn [order pages events global_max_us total_samples peak total]; rewrite ?fmap_app; try done.
    + apply NoDup_app. split; [done|]. split; [set_solver|]. apply NoDup_singleton.
    + unfold page. cbn [pages]. rewrite list_to_map_snoc, fmap_insert by done. by change EventState_new with (state_of []); rewrite push_state_of.
    + rewrite length_app. simpl. lia.
Qed.

(** ** Resets *)

Lemma filter_out_names (e : bytes) (ps : list (bytes * list LatencySample)) :
  filter (fun x => x <> e) ps.*1 = (filter (fun p => p.1 <> e) ps).*1.
Proof.
  induction ps as [|[k l] ps IH]; [done|]. cbn [fmap list_fmap fst]. rewrite !filter_cons. simpl. destruct (decide (k <> e)); simpl; [f_equal|]; apply IH.
Qed.

Lemma filter_out_map (e : bytes) (ps : list (bytes * list LatencySample)) :
  (list_to_map (filter (fun p => p.1 <> e) ps) : gmap bytes (list LatencySample)) = delete e (list_to_map ps).
Proof.
  induction ps as [|[k l] ps IH]; [by simpl; rewrite delete_empty|]. rewrite filter_cons. cbn [list_to_map foldr fst snd]. destruct (decide _) as [Hk|Hk]; simpl in *.
  - rewrite IH. by rewrite delete_insert_ne.
  - apply dec_stable in Hk as ->. by rewrite delete_insert_eq.
Qed.

Lemma filter_out_nodup (P : bytes * list LatencySample -> Prop) `{!forall p, Decision (P p)} (ps : list (bytes * list LatencySample)) :
  NoDup ps.*1 -> NoDup (filter P ps).*1.
Proof.
  induction ps as [|[k l] ps IH]; [done|]. cbn [fmap list_fmap fst]. intros [Hk ND]%NoDup_cons. rewrite filter_cons.
  destruct (decide _); [|by apply IH]. cbn [fmap list_fmap fst]. apply NoDup_cons. split; [|by apply IH].
  intros ([k' l'] & -> & Hin)%list_elem_of_fmap. apply list_elem_of_filter in Hin as [_ Hin]. apply Hk, list_elem_of_fmap. by exists (k', l').
Qed.

(** One event is taken out, and it was one. *)
Lemma shows_remove m b e l :
  shows m b -> page b !! e = Some l ->
  let b' := mkBook (filter (fun p => p.1 <> e) (pages b)) (peak b) (total b) in
  shows (mk (delete e (events m)) (filter (fun x => x <> e) (order m)) (global_max_us m) (total_samples m)) b' /\
  S (length (pages b')) = length (pages b).
Proof.
  intros Hs Hl. cbv zeta. set (b' := mkBook _ _ _). set (m' := mk _ _ _ _).
  assert (Hs' : shows m' b').
  { split; cbn [m' b' order pages events global_max_us total_samples peak total]; try apply Hs.
    - rewrite (s_order _ _ Hs). apply filter_out_names.
    - apply filter_out_nodup, Hs.
    - rewrite (s_events _ _ Hs), <- fmap_delete. unfold page, b'. cbn [pages]. by rewrite filter_out_map.
    - etransitivity; [apply length_filter|apply Hs]. }
  split; [done|]. rewrite <- (events_size _ _ Hs), <- (events_size _ _ Hs'). cbn [m' events].
  assert (is_Some (events m !! e)) as Hd by (rewrite (events_known _ _ _ Hs), Hl; by eexists).
  rewrite map_size_delete_Some by done. destruct Hd as [x Hx]. enough (size (events m) <> 0) by lia.
  intros Hz%map_size_empty_inv. by rewrite Hz, lookup_empty in Hx.
Qed.

Lemma shows_reset_loop names m b n :
  shows m b -> let b' := mkBook (filter (fun p => p.1 ∉ names) (pages b)) (peak b) (total b) in
  shows (reset_loop names n m).2 b' /\ (reset_loop names n m).1 + length (pages b') = n + length (pages b).
Proof.
  revert m b n. induction names as [|e names IH]; intros m b n Hs; cbv zeta.
  - assert (E : filter (fun p : bytes * list LatencySample => p.1 ∉ []) (pages b) = pages b).
    { apply list_filter_all, list.Forall_forall. intros p _. apply not_elem_of_nil. }
    cbn [reset_loop fst snd]. rewrite E. by destruct b.
  - cbn [reset_loop]. rewrite (events_known _ _ _ Hs).
    assert (F : filter (fun p : bytes * list LatencySample => p.1 ∉ e :: names) (pages b)
                = filter (fun p => p.1 ∉ names) (filter (fun p => p.1 <> e) (pages b))).
    { rewrite list_filter_filter. apply list_filter_iff. intros p. set_solver. }
    rewrite F. destruct (page b !! e) as [l|] eqn:El; cbn [fmap option_fmap option_map].
    + destruct (shows_remove m b e l Hs El) as [Hs' Hc]. destruct (IH _ _ (n + 1) Hs') as [H1 H2]. split; [exact H1|]. cbn [pages] in *. lia.
    + assert (G : filter (fun p : bytes * list LatencySample => p.1 <> e) (pages b) = pages b).
      { apply list_filter_all, list.Forall_forall. intros p Hp E. apply not_elem_of_list_to_map_2 in El. apply El. subst e. by apply list_elem_of_fmap_2. }
      rewrite G. by apply IH.
Qed.

Lemma shows_reset names m b :
  shows m b -> shows (reset names m).2 (breset names b) /\ (reset names m).1 + length (pages (breset names b)) = length (pages b).
Proof.
  intros Hs. destruct names as [|e names]; [|exact (shows_reset_loop (e :: names) m b 0 Hs)].
  cbn [reset breset fst snd pages length]. rewrite (events_size _ _ Hs). split; [|lia].
  split; cbn [order pages events global_max_us total_samples peak total]; try done; [apply NoDup_nil_2|simpl; lia|apply Hs].
Qed.

(** ** Reports *)

#[local] Instance row_le_total : Total row_le.
Proof. intros a b. unfold row_le. rewrite (bytes_cmp_antisym a.1 b.1). destruct (bytes_cmp a.1 b.1); auto. Qed.

Definition bucket_count (k : Z) (l : list LatencySample) : nat := length (filter (fun s => next_pow2_us (duration_us s) = k) l).

Lemma from_samples_counts l k : default 0%Z (buckets (from_samples l) !! k) = Z.of_nat (bucket_count k l).
Proof.
  unfold from_samples, bucket_count. cbn [buckets]. induction l as [|s l IH] using rev_ind; [done|].
  rewrite fold_left_app, filter_app, length_app. cbn [fold_left]. rewrite filter_cons, filter_nil.
  set (g := fold_left _ l ∅) in *. destruct (decide (next_pow2_us (duration_us s) = k)) as [->|Hk].
  - rewrite lookup_insert_eq, IH. cbn [default length]. unfold id. lia.
  - rewrite lookup_insert_ne by done. cbn [length]. lia.
Qed.

Lemma histogram_fold (names : list bytes) (m : t) (ev : bytes) (out : gmap bytes LatencyHistogram) :
  fold_left (fun out name => match events m !! name with Some s => <[name := from_samples (history s)]> out | None => out end) names out !! ev =
  match events m !! ev with
  | Some s => if bool_decide (ev ∈ names) then Some (from_samples (history s)) else out !! ev
  | None => out !! ev
  end.
Proof.
  revert out. induction names as [|e names IH]; intros out; cbn [fold_left].
  - rewrite bool_decide_eq_false_2 by apply not_elem_of_nil. by destruct (events m !! ev).
  - rewrite IH. destruct (decide (ev = e)) as [->|He].
    + destruct (events m !! e) as [s|] eqn:Ee; [|done]. rewrite (bool_decide_eq_true_2 (e ∈ e :: names)) by left.
      case_bool_decide; [done|]. by rewrite lookup_insert_eq.
    + assert (D : bool_decide (ev ∈ e :: names) = bool_decide (ev ∈ names)) by (apply bool_decide_ext; set_solver). rewrite D.
      destruct (events m !! e); by rewrite ?lookup_insert_ne.
Qed.

Lemma histogram_lookup (names : list bytes) (m : t) (ev : bytes) :
  histogram names m !! ev =
  if bool_decide (names = [] \/ ev ∈ names) then (fun s => from_samples (history s)) <$> events m !! ev else None.
Proof.
  destruct names as [|e names]; [by rewrite bool_decide_eq_true_2 by auto; cbn [histogram]; rewrite lookup_fmap|].
  unfold histogram. rewrite histogram_fold, lookup_empty.
  rewrite (bool_decide_ext (e :: names = [] \/ ev ∈ e :: names) (ev ∈ e :: names)) by naive_solver.
  destruct (events m !! ev); by case_bool_decide.
Qed.

Definition row (p : bytes * list LatencySample) : Row :=
  (p.1, (default 0%Z (timestamp <$> last p.2), default 0%Z (duration_us <$> last p.2), peak_us p.2)).

Lemma latest_rows `{HashOrder} m b : shows m b -> latest m ≡ₚ row <$> pages b /\ Sorted row_le (latest m).
Proof.
  intros Hs. split; [|by apply Sorted_merge_sort, _]. unfold latest. rewrite merge_sort_Permutation, hm_iter_perm, (s_events _ _ Hs), map_to_list_fmap.
  unfold page. rewrite map_to_list_to_map by apply Hs. change (map row_of) with (fmap (M := list) row_of). by rewrite <- list_fmap_compose.
Qed.

(** ** Every run *)

Inductive Op := Sample (now : Z) (event : bytes) (us : Z) | Reset (names : list bytes).

Definition step (m : t) (o : Op) : t := match o with Sample now ev us => record now ev us m | Reset names => (reset names m).2 end.
Definition bstep (b : Book) (o : Op) : Book := match o with Sample now ev us => brecord now ev us b | Reset names => breset names b end.

Lemma shows_new_book : shows new (mkBook [] 0 0).
Proof. split; cbn [order new pages events global_max_us total_samples peak total]; try done; [apply NoDup_nil_2|simpl; lia]. Qed.

Lemma shows_run m b ops : shows m b -> shows (foldl step m ops) (foldl bstep b ops).
Proof.
  revert m b. induction ops as [|[now ev us|names] ops IH]; intros m b Hs; [done|..]; simpl; apply IH; [by apply shows_record|by apply shows_reset].
Qed.

(** C40: Whatever samples and resets come, the monitor holds at most 64 events, in the order
    of their first sample, and shows of each the last 160 samples; LATENCY LATEST is one row
    per event with its last and its largest sample, sorted by name; LATENCY HISTOGRAM counts
    the shown samples of the named events by bucket, and the bucket of a duration is the
    least power of two not below it; LATENCY RESET answers how many events it removed, and
    leaves the others as they were. *)
Theorem latency_monitor_shows_the_book `{HashOrder} ops :
  let m := foldl step new ops in
  let b := foldl bstep (mkBook [] 0 0) ops in
  shows m b /\ event_count m <= MAX_EVENTS /\
  (forall ev : bytes, history_of ev m = (fun s => (timestamp s, duration_us s)) <$> shown (default [] (page b !! ev)) /\ length (history_of ev m) <= HISTORY_CAP) /\
  (latest m ≡ₚ row <$> pages b /\ Sorted row_le (latest m)) /\
  (forall (names : list bytes) (ev : bytes), histogram names m !! ev =
     if bool_decide (names = [] \/ ev ∈ names) then (fun l => from_samples (shown l)) <$> page b !! ev else None) /\
  (forall l k, default 0%Z (buckets (from_samples l) !! k) = Z.of_nat (bucket_count k l)) /\
  (forall us, (1 <= us <= 2 ^ 63)%Z -> next_pow2_us us = (2 ^ Z.log2_up us)%Z) /\
  (forall names, shows (reset names m).2 (breset names b) /\ (reset names m).1 + length (pages (breset names b)) = length (pages b)).
Proof.
  cbv zeta. pose proof (shows_run _ _ ops shows_new_book) as Hs. set (m := foldl step _ ops) in *. set (b := foldl bstep _ ops) in *. clearbody m b.
  split; [done|]. split; [unfold event_count; rewrite (events_size _ _ Hs); apply Hs|]. split; [|split; [by apply latest_rows|split]].
  - intros ev. unfold history_of. rewrite (events_known _ _ _ Hs). destruct (page b !! ev) as [l|]; [|simpl; auto with lia].
    cbn [fmap option_fmap option_map default state_of history]. split; [done|]. rewrite length_map. unfold shown. rewrite length_drop. lia.
  - intros names ev. rewrite histogram_lookup, (events_known _ _ _ Hs). case_bool_decide; [|done]. by destruct (page b !! ev).
  - split; [apply from_samples_counts|]. split; [apply next_pow2_us_least|]. intros names. by apply shows_reset.
Qed.

Lemma latency_monitor_shows_the_book_witness :
  let ops := [Sample 5 (bstr "get") 100; Sample 6 (bstr "set") 50; Sample 7 (bstr "get") 3; Reset [bstr "set"; bstr "x"]] in
  let m := foldl step new ops in
  history_of (bstr "get") m = [(5, 100); (7, 3)]%Z /\ latest (H := canonical_order) m = [(bstr "get", (7, 3, 100)%Z)] /\ event_count m <= 64.
Proof.
  cbv zeta. split; [by vm_compute|]. split; [by vm_compute|].
  exact (proj1 (proj2 (latency_monitor_shows_the_book (H := canonical_order) [Sample 5 (bstr "get") 100; Sample 6 (bstr "set") 50; Sample 7 (bstr "get") 3; Reset [bstr "set"; bstr "x"]]))).
Defined.

(** ** The shared maximum *)

(** What a thread may rely on: it has a larger value to store than the one it loaded, and
    when it is done the shared value is no smaller than its own. *)
Definition settled (v : Z) (th : Maximizer) : Prop :=
  match th with Start _ => True | Loaded us cur => (cur < us)%Z | Done us => (us <= v)%Z end.

Definition wants (th : Maximizer) : Z := match th with Start us | Loaded us _ | Done us => us end.

(** The value never falls, it is one that was there or that a thread wants, and every
    thread that is done finds it no smaller than its own. *)
Record max_inv (v0 : Z) (us : list Z) (v : Z) (ths : list Maximizer) : Prop := {
  mi_wants : wants <$> ths = us;
  mi_settled : Forall (settled v) ths;
  mi_source : v = v0 \/ v ∈ us;
  mi_above : (v0 <= v)%Z;
}.

Lemma settled_mono v v' th : (v <= v')%Z -> settled v th -> settled v' th.
Proof. destruct th; simpl; lia. Qed.

Lemma max_step_ok th sp v : settled v th ->
  let '(th', v') := max_step th sp v in
  wants th' = wants th /\ settled v' th' /\ (v <= v')%Z /\ (v' = v \/ v' = wants th).
Proof.
  intros Hs. destruct th as [us|us cur|us]; cbn [max_step]; [..|simpl in *; auto with lia].
  - case_bool_decide; simpl; split_and!; auto; lia.
  - simpl in Hs. destruct (bool_decide (v = cur) && negb sp) eqn:E.
    + apply andb_true_iff in E as [->%bool_decide_eq_true _]. simpl. split_and!; auto; lia.
    + clear E. case_bool_decide; simpl; split_and!; auto; lia.
Qed.

Lemma max_inv_step v0 us v ths i th sp :
  max_inv v0 us v ths -> ths !! i = Some th ->
  let '(th', v') := max_step th sp v in max_inv v0 us v' (<[i := th']> ths).
Proof.
  intros [Hw Hs Hv Ha] Hi. pose proof (max_step_ok th sp v (Forall_lookup_1 _ _ _ _ Hs Hi)) as H.
  destruct (max_step th sp v) as [th' v']. destruct H as (Hw' & Hs' & Hle & Hor).
  assert (Hu : us !! i = Some (wants th)) by (rewrite <- Hw, list_lookup_fmap, Hi; done). split.
  - rewrite list_fmap_insert, Hw', Hw. by apply list_insert_id.
  - apply Forall_insert; [|done]. eapply Forall_impl; [exact Hs|]. intros x. by apply settled_mono.
  - destruct Hor as [->| ->]; [done|]. right. by eapply list_elem_of_lookup_2.
  - lia.
Qed.

Lemma max_inv_run v0 us sched v ths :
  max_inv v0 us v ths -> let '(v', ths') := max_run sched v ths in max_inv v0 us v' ths'.
Proof.
  revert v ths. induction sched as [|[i sp] sched IH]; intros v ths Hi; [done|]. cbn [max_run].
  destruct (ths !! i) as [th|] eqn:E; [|by apply IH]. pose proof (max_inv_step v0 us v ths i th sp Hi E) as H.
  destruct (max_step th sp v) as [th' v']. by apply IH.
Qed.

(** However the loads and weak exchanges of concurrent samples interleave, and whichever
    exchanges fail for no reason, the shared maximum never falls and is the old maximum or
    one of the samples; when every thread is done it is the maximum of them all.  A thread
    that runs alone is done after a load and an exchange, with the sequential result. *)
Theorem global_max_is_linearizable v0 us sched :
  let '(v, ths) := max_run sched v0 (Start <$> us) in
  (v0 <= v)%Z /\ (v = v0 \/ v ∈ us) /\
  (ths = Done <$> us -> v = foldr Z.max v0 us) /\
  (forall u, max_run [(0, false); (0, false)] v [Start u] = (atomic_max v u, [Done u])).
Proof.
  assert (Hi : max_inv v0 us v0 (Start <$> us)).
  { split; [by rewrite <- list_fmap_compose, list_fmap_id|by apply Forall_fmap, Forall_true|by left|lia]. }
  apply (max_inv_run v0 us sched) in Hi. destruct (max_run sched v0 (Start <$> us)) as [v ths]. destruct Hi as [Hw Hs Hv Ha].
  split; [done|]. split; [done|]. split.
  - intros ->. rewrite Forall_fmap in Hs. assert (Hub : Forall (fun u => (u <= v)%Z) us) by exact Hs.
    clear Hw Hs. apply Z.le_antisymm.
    + assert (Hge : (v0 <= foldr Z.max v0 us)%Z /\ forall u, u ∈ us -> (u <= foldr Z.max v0 us)%Z).
      { clear. induction us as [|u us [IH1 IH2]]; simpl; [split; [lia|set_solver]|]. split; [lia|]. intros x [->|Hx]%elem_of_cons; [lia|].
        specialize (IH2 x Hx). lia. }
      destruct Hge as [Hg0 Hg]. destruct Hv as [->|Hv]; [exact Hg0|exact (Hg _ Hv)].
    + clear Hv. induction Hub; simpl; lia.
  - intros u. cbn [max_run lookup list_lookup max_step]. unfold atomic_max.
    case_bool_decide as Hu; simpl; [by rewrite bool_decide_eq_true_2|by rewrite ?bool_decide_eq_false_2].
Qed.

Lemma global_max_is_linearizable_witness :
  max_run [(0, false); (1, false); (1, false); (0, false); (0, false)] 5 (Start <$> [9; 7]%Z) = (9%Z, Done <$> [9; 7]%Z) /\
  (9 = foldr Z.max 5 [9; 7])%Z.
Proof.
  assert (E : max_run [(0, false); (1, false); (1, false); (0, false); (0, false)] 5 (Start <$> [9; 7]%Z) = (9%Z, Done <$> [9; 7]%Z)) by (vm_compute; reflexivity).
  split; [exact E|]. pose proof (global_max_is_linearizable 5 [9; 7]%Z [(0, false); (1, false); (1, false); (0, false); (0, false)]) as H.
  rewrite E in H. by apply H.
Defined.
