(* ===== verification/Gate.v ===== *)
(** * Gate: admission of writers around a snapshot ([PersistenceCoordinator] of [db.rs])

    Writers enter without a lock: they look at the state, count themselves in and look
    again.  [quiesce] closes the gate, waits until nobody is counted in and hands out a
    guard; dropping the guard opens the gate again.  Both sides sleep on one [Notify].

    One step of a thread is one access to the shared words, in any order of the threads.
    The theorems are about every such interleaving of any number of writers and of callers
    of [quiesce]; [StoreBuffer] shows what a processor adds that may delay a store. *)

From S2P Require Import Prelude.

(** ** The machine *)

Definition PERSISTENCE_RUNNING : Z := 0.
Definition PERSISTENCE_QUIESCING : Z := 1.

(** [PersistenceCoordinator]; the holders of the permits are threads of the machine, and
    [exclusive] says whether the mutex is taken. *)
Record Coordinator := mkCoordinator { state : Z; active_mutations : nat; exclusive : bool }.

Definition new : Coordinator := mkCoordinator PERSISTENCE_RUNNING 0 false.

Definition set_state (v : Z) (c : Coordinator) : Coordinator := mkCoordinator v (active_mutations c) (exclusive c).
Definition set_active (n : nat) (c : Coordinator) : Coordinator := mkCoordinator (state c) n (exclusive c).
Definition set_exclusive (b : bool) (c : Coordinator) : Coordinator := mkCoordinator (state c) (active_mutations c) b.

(** Which call of [enter_mutation] it is: the one before the wait, one in the loop with the
    notification armed (and perhaps fired), or the last one. *)
Inductive Attempt := Fast | Armed (woken : bool) | Last.

(** Where a thread is: before the access its name tells. *)
Inductive Pc :=
  | Idle
  (* enter_mutation *)
  | LoadFirst (a : Attempt) | Increment (a : Attempt) | LoadSecond (a : Attempt) | Withdraw (a : Attempt) | WithdrawWake (a : Attempt)
  (* enter_mutation_waiting *)
  | Arm | Await (woken : bool) | Refused
  (* the permit, and its drop *)
  | Entered | Decrement | DecrementWake
  (* quiesce *)
  | Lock | Close | LoadActive | QArm | LoadActiveAgain (woken : bool) | QAwait (woken : bool)
  (* the guard, and its drop *)
  | Quiet | Open | OpenWake | Unlock.

(** What is left to the outside: which call an idle thread makes, and time-outs. *)
Inductive Choice := Go | Enter | TryEnter | Quiesce | TimeOut.

(** [enter_mutation] returns [None]. *)
Definition refused (a : Attempt) : Pc := match a with Fast => Arm | Armed w => Await w | Last => Refused end.

(** [fetch_sub(1) == 1]. *)
Definition decrement (c : Coordinator) : bool * Coordinator :=
  (bool_decide (active_mutations c = 1), set_active (active_mutations c - 1) c).

(** One access, what follows it, and whether it is [notify_waiters]; [None] when the thread
    has to wait. *)
Definition thread_step (ch : Choice) (c : Coordinator) (pc : Pc) : option (Coordinator * Pc * bool) :=
  match pc, ch with
  | Idle, Enter => Some (c, LoadFirst Fast, false)
  | Idle, TryEnter => Some (c, LoadFirst Last, false)
  | Idle, Quiesce => Some (c, Lock, false)
  | Idle, _ => None
  | LoadFirst a, Go => Some (c, if bool_decide (state c = PERSISTENCE_RUNNING) then Increment a else refused a, false)
  | Increment a, Go => Some (set_active (active_mutations c + 1) c, LoadSecond a, false)
  | LoadSecond a, Go => Some (c, if bool_decide (state c = PERSISTENCE_RUNNING) then Entered else Withdraw a, false)
  | Withdraw a, Go => let '(last, c) := decrement c in Some (c, if last then WithdrawWake a else refused a, false)
  | WithdrawWake a, Go => Some (c, refused a, true)
  | Arm, Go => Some (c, LoadFirst (Armed false), false)
  | Await true, Go => Some (c, Arm, false)
  | Await _, TimeOut => Some (c, LoadFirst Last, false)
  | Refused, Go => Some (c, Idle, false)
  | Entered, Go => Some (c, Decrement, false)
  | Decrement, Go => let '(last, c) := decrement c in Some (c, if last then DecrementWake else Idle, false)
  | DecrementWake, Go => Some (c, Idle, true)
  | Lock, Go => if exclusive c then None else Some (set_exclusive true c, Close, false)
  | Close, Go => Some (set_state PERSISTENCE_QUIESCING c, LoadActive, false)
  | LoadActive, Go => Some (c, if bool_decide (active_mutations c = 0) then Quiet else QArm, false)
  | QArm, Go => Some (c, LoadActiveAgain false, false)
  | LoadActiveAgain w, Go => Some (c, if bool_decide (active_mutations c = 0) then Quiet else QAwait w, false)
  | QAwait true, Go => Some (c, LoadActive, false)
  | Quiet, Go => Some (c, Open, false)
  | Open, Go => Some (set_state PERSISTENCE_RUNNING c, OpenWake, false)
  | OpenWake, Go => Some (c, Unlock, true)
  | Unlock, Go => Some (set_exclusive false c, Idle, false)
  | _, _ => None
  end.

Definition wake_attempt (a : Attempt) : Attempt := match a with Armed _ => Armed true | _ => a end.

(** What [notify_waiters] does to a thread that has armed its notification. *)
Definition wake (pc : Pc) : Pc :=
  match pc with
  | LoadFirst a => LoadFirst (wake_attempt a)
  | Increment a => Increment (wake_attempt a)
  | LoadSecond a => LoadSecond (wake_attempt a)
  | Withdraw a => Withdraw (wake_attempt a)
  | WithdrawWake a => WithdrawWake (wake_attempt a)
  | Await _ => Await true
  | LoadActiveAgain _ => LoadActiveAgain true
  | QAwait _ => QAwait true
  | _ => pc
  end.

Record Machine := mkMachine { coordinator : Coordinator; threads : list Pc }.

Definition step (m : Machine) (i : nat) (ch : Choice) : option Machine :=
  match threads m !! i with
  | Some pc =>
      match thread_step ch (coordinator m) pc with
      | Some (c, pc, notifies) =>
          let ths := <[i := pc]> (threads m) in
          Some (mkMachine c (if notifies then map wake ths else ths))
      | None => None
      end
  | None => None
  end.

Definition start (n : nat) : Machine := mkMachine new (repeat Idle n).

Inductive reachable (n : nat) : Machine -> Prop :=
  | reach_start : reachable n (start n)
  | reach_step m i ch m' : reachable n m -> step m i ch = Some m' -> reachable n m'.

(** A schedule, for running the machine. *)
Fixpoint run (sched : list (nat * Choice)) (m : Machine) : option Machine :=
  match sched with
  | [] => Some m
  | (i, ch) :: sched => match step m i ch with Some m => run sched m | None => None end
  end.

(** ** Counting threads *)

Fixpoint count {A} (p : A -> bool) (l : list A) : nat :=
  match l with [] => 0 | x :: l => (if p x then 1 else 0) + count p l end.

Lemma count_insert {A} (p : A -> bool) (l : list A) i x y :
  l !! i = Some x -> count p (<[i := y]> l) + (if p x then 1 else 0) = count p l + (if p y then 1 else 0).
Proof.
  revert i. induction l as [|z l IH]; intros [|i] H; simpl in *; try discriminate; [injection H as ->; lia|]. specialize (IH i H). lia.
Qed.

Lemma count_map {A B} (p : B -> bool) (f : A -> B) (l : list A) : count p (map f l) = count (fun x => p (f x)) l.
Proof. induction l as [|x l IH]; simpl; lia. Qed.

Lemma count_ext {A} (p q : A -> bool) (l : list A) : (forall x, p x = q x) -> count p l = count q l.
Proof. intros H. induction l as [|x l IH]; simpl; [done|]. rewrite H. lia. Qed.

Lemma count_false {A} (l : list A) : count (fun _ => false) l = 0.
Proof. by induction l. Qed.

Lemma count_lookup {A} (p : A -> bool) (l : list A) i x : l !! i = Some x -> p x = true -> 0 < count p l.
Proof.
  revert i. induction l as [|z l IH]; intros [|i] H E; simpl in *; try discriminate; [injection H as ->; rewrite E; lia|].
  specialize (IH i H E). lia.
Qed.

Lemma count_witness {A} (p : A -> bool) (l : list A) : 0 < count p l -> exists i x, l !! i = Some x /\ p x = true.
Proof.
  induction l as [|z l IH]; simpl; [lia|]. destruct (p z) eqn:E; intros H; [by exists 0, z|].
  destruct (IH H) as (i & x & Hi & Hp). by exists (S i), x.
Qed.

(** ** The invariant *)

(** Counted in; inside with a permit. *)
Definition counted (pc : Pc) : bool := match pc with LoadSecond _ | Withdraw _ | Entered | Decrement => true | _ => false end.
Definition inside (pc : Pc) : bool := match pc with Entered | Decrement => true | _ => false end.

(** Holding the mutex; between the two stores of the state; with the guard. *)
Definition locked (pc : Pc) : bool :=
  match pc with Close | LoadActive | QArm | LoadActiveAgain _ | QAwait _ | Quiet | Open | OpenWake | Unlock => true | _ => false end.
Definition closing (pc : Pc) : bool :=
  match pc with LoadActive | QArm | LoadActiveAgain _ | QAwait _ | Quiet | Open => true | _ => false end.
Definition guarded (pc : Pc) : bool := match pc with Quiet | Open => true | _ => false end.

(** About to call [notify_waiters]; the one of them that opened the gate. *)
Definition waking (pc : Pc) : bool := match pc with WithdrawWake _ | DecrementWake | OpenWake => true | _ => false end.
Definition opened (pc : Pc) : bool := match pc with OpenWake => true | _ => false end.

(** Waiting, or going to wait, with nothing having woken it. *)
Definition parked_writer (pc : Pc) : bool :=
  match pc with Withdraw (Armed false) | WithdrawWake (Armed false) | Await false => true | _ => false end.
Definition parked_quiesce (pc : Pc) : bool := match pc with QAwait false => true | _ => false end.

Record gate_ok (m : Machine) : Prop := {
  g_active : active_mutations (coordinator m) = count counted (threads m);
  g_lock : count locked (threads m) = if exclusive (coordinator m) then 1 else 0;
  g_state : state (coordinator m) = Z.of_nat (count closing (threads m));
  g_exclusion : count guarded (threads m) = 0 \/ count inside (threads m) = 0;
  g_quiesce : count parked_quiesce (threads m) = 0 \/ 0 < active_mutations (coordinator m) \/ 0 < count waking (threads m);
  g_writer : count parked_writer (threads m) = 0 \/ state (coordinator m) = 1%Z \/ 0 < count opened (threads m);
}.

Lemma wake_counted pc : counted (wake pc) = counted pc. Proof. by destruct pc. Qed.
Lemma wake_inside pc : inside (wake pc) = inside pc. Proof. by destruct pc. Qed.
Lemma wake_locked pc : locked (wake pc) = locked pc. Proof. by destruct pc. Qed.
Lemma wake_closing pc : closing (wake pc) = closing pc. Proof. by destruct pc. Qed.
Lemma wake_guarded pc : guarded (wake pc) = guarded pc. Proof. by destruct pc. Qed.
Lemma wake_parked_writer pc : parked_writer (wake pc) = false. Proof. destruct pc as [|[]|[]|[]|[]|[]| | | | | | | | | | | | | | | | ]; done. Qed.
Lemma wake_parked_quiesce pc : parked_quiesce (wake pc) = false. Proof. by destruct pc. Qed.

(** After [notify_waiters] nobody is asleep. *)
Lemma gate_ok_notify c ths :
  (active_mutations c = count counted ths) -> (count locked ths = if exclusive c then 1 else 0) -> state c = Z.of_nat (count closing ths) ->
  (count guarded ths = 0 \/ count inside ths = 0) -> gate_ok (mkMachine c (map wake ths)).
Proof.
  intros H1 H2 H3 H4. split; cbn [coordinator threads]; rewrite !count_map.
  - rewrite H1. apply count_ext. intros x. by rewrite wake_counted.
  - rewrite <- H2. apply count_ext, wake_locked.
  - rewrite H3. f_equal. apply count_ext. intros x. by rewrite wake_closing.
  - rewrite (count_ext _ guarded), (count_ext (fun x => inside (wake x)) inside); [done|apply wake_inside|apply wake_guarded].
  - left. rewrite (count_ext _ (fun _ => false)); [apply count_false|apply wake_parked_quiesce].
  - left. rewrite (count_ext _ (fun _ => false)); [apply count_false|apply wake_parked_writer].
Qed.

(** Those that are guarded are closing, those that are closing hold the mutex, and those
    that are inside are counted. *)
Lemma count_le {A} (p q : A -> bool) (l : list A) : (forall x, p x = true -> q x = true) -> count p l <= count q l.
Proof. intros H. induction l as [|x l IH]; simpl; [lia|]. specialize (H x). destruct (p x), (q x); lia. Qed.

Lemma guarded_closing ths : count guarded ths <= count closing ths.
Proof. apply count_le. by intros []. Qed.
Lemma closing_locked ths : count closing ths <= count locked ths.
Proof. apply count_le. by intros []. Qed.
Lemma inside_counted ths : count inside ths <= count counted ths.
Proof. apply count_le. by intros []. Qed.

(** How a step of one thread changes the counts the invariant speaks of. *)
Ltac count_all l i pc pc' H :=
  pose proof (count_insert counted l i pc pc' H); pose proof (count_insert locked l i pc pc' H);
  pose proof (count_insert closing l i pc pc' H); pose proof (count_insert guarded l i pc pc' H);
  pose proof (count_insert inside l i pc pc' H); pose proof (count_insert waking l i pc pc' H);
  pose proof (count_insert opened l i pc pc' H); pose proof (count_insert parked_quiesce l i pc pc' H);
  pose proof (count_insert parked_writer l i pc pc' H).

Lemma gate_ok_step m i ch m' : gate_ok m -> step m i ch = Some m' -> gate_ok m'.
Proof.
  destruct m as [[st act ex] ths]. intros [Ha Hl Hs He Hq Hw] E. unfold step in E. cbn [coordinator threads state active_mutations exclusive] in *.
  destruct (ths !! i) as [pc|] eqn:Hi; [|discriminate].
  destruct (thread_step ch _ pc) as [[[c pc'] n]|] eqn:T; [|discriminate]. injection E as <-.
  pose proof (guarded_closing ths). pose proof (closing_locked ths). pose proof (inside_counted ths).
  pose proof (guarded_closing (<[i := pc']> ths)). pose proof (closing_locked (<[i := pc']> ths)). pose proof (inside_counted (<[i := pc']> ths)).
  count_all ths i pc pc' Hi.
  destruct pc as [|[|[]|]|[|[]|]|[|[]|]|[|[]|]|[|[]|]| |[]| | | | | | | | |[]|[]| | | | ], ch; try discriminate T;
    cbn [thread_step decrement state active_mutations exclusive] in T;
    unfold PERSISTENCE_RUNNING, PERSISTENCE_QUIESCING in *;
    repeat (case_bool_decide || destruct ex); try discriminate T; injection T as <- <- <-;
    cbn [refused counted locked closing guarded inside waking opened parked_quiesce parked_writer] in *;
    first [apply gate_ok_notify | split]; cbn [coordinator threads state active_mutations exclusive set_state set_active set_exclusive]; try lia.
Qed.

Lemma gate_ok_start n : gate_ok (start n).
Proof.
  assert (C : forall p, p Idle = false -> count p (repeat Idle n) = 0).
  { intros p Hp. induction n as [|n IH]; simpl; [done|]. by rewrite Hp, IH. }
  split; cbn [start coordinator threads new active_mutations exclusive state]; rewrite ?(C _ eq_refl); auto.
Qed.

Lemma reachable_ok n m : reachable n m -> gate_ok m.
Proof. induction 1; [apply gate_ok_start|by eapply gate_ok_step]. Qed.

Lemma run_reachable n sched m m' : reachable n m -> run sched m = Some m' -> reachable n m'.
Proof.
  revert m. induction sched as [|[i ch] sched IH]; intros m R E; simpl in E; [by injection E as <-|].
  destruct (step m i ch) as [m1|] eqn:S1; [|discriminate]. by eapply IH, E; eapply reach_step.
Qed.

(** ** Exclusion *)

Lemma count_two {A} (p : A -> bool) (l : list A) i j x y :
  l !! i = Some x -> l !! j = Some y -> p x = true -> p y = true -> i <> j -> 1 < count p l.
Proof.
  revert i j. induction l as [|z l IH]; intros [|i] [|j] Hi Hj Hx Hy Hn; simpl in *; try discriminate; try done.
  - injection Hi as ->. rewrite Hx. pose proof (count_lookup p l j y Hj Hy). lia.
  - injection Hj as ->. rewrite Hy. pose proof (count_lookup p l i x Hi Hx). lia.
  - pose proof (IH i j Hi Hj Hx Hy ltac:(congruence)). lia.
Qed.

(** C4: However writers and callers of quiesce interleave, while one has the guard the gate
    is closed, no writer has a permit, nobody else has a guard, and every writer that looks
    at the state is turned away: the state that is captured is one between two writes.  The
    counter is the number of writers counted in throughout. *)
Theorem quiesce_excludes_writers n m i :
  reachable n m -> threads m !! i = Some Quiet ->
  state (coordinator m) = PERSISTENCE_QUIESCING /\
  (forall j pc, threads m !! j = Some pc -> inside pc = false) /\
  (forall j pc, threads m !! j = Some pc -> guarded pc = true -> j = i) /\
  (forall j a m', threads m !! j = Some (LoadSecond a) -> step m j Go = Some m' -> threads m' !! j = Some (Withdraw a)) /\
  active_mutations (coordinator m) = count counted (threads m).
Proof.
  intros R Hi. pose proof (reachable_ok _ _ R) as [Ha Hl Hs He _ _].
  pose proof (count_lookup guarded _ _ _ Hi eq_refl) as Hg.
  pose proof (guarded_closing (threads m)). pose proof (closing_locked (threads m)).
  assert (Hst : state (coordinator m) = PERSISTENCE_QUIESCING) by (unfold PERSISTENCE_QUIESCING; destruct (exclusive _); lia).
  split; [done|]. split; [|split; [|split; [|done]]].
  - intros j pc Hj. destruct (inside pc) eqn:E; [|done]. pose proof (count_lookup inside _ _ _ Hj E). lia.
  - intros j pc Hj E. destruct (decide (j = i)) as [|Hn]; [done|].
    pose proof (count_two guarded _ _ _ _ _ Hj Hi E eq_refl Hn). destruct (exclusive _); lia.
  - intros j a m' Hj E. unfold step in E. rewrite Hj in E. cbn [thread_step] in E. rewrite Hst in E. rewrite bool_decide_eq_false_2 in E by done.
    injection E as <-. cbn [threads]. apply list_lookup_insert_eq. by eapply lookup_lt_Some.
Qed.

Lemma quiesce_excludes_writers_witness :
  exists m, reachable 2 m /\ threads m = [Quiet; LoadSecond Fast] /\ state (coordinator m) = PERSISTENCE_QUIESCING.
Proof.
  pose (sched := [(1, Enter); (1, Go); (0, Quiesce); (0, Go); (0, Go); (0, Go); (1, Go)]).
  assert (E : run sched (start 2) = Some (mkMachine (mkCoordinator 1 1 true) [Quiet; LoadSecond Fast])) by reflexivity.
  eexists. split; [exact (run_reachable 2 sched _ _ (reach_start 2) E)|]. split; [done|].
  eapply (quiesce_excludes_writers 2 _ 0); [exact (run_reachable 2 sched _ _ (reach_start 2) E)|reflexivity].
Defined.

(** ** Progress *)

(** A call is under way and the thread cannot go on by itself. *)
Definition blocked (c : Coordinator) (pc : Pc) : bool :=
  match pc with Idle => false | _ => match thread_step Go c pc with None => true | Some _ => false end end.

Lemma thread_steps m j pc : threads m !! j = Some pc -> pc <> Idle -> blocked (coordinator m) pc = false -> exists m', step m j Go = Some m'.
Proof.
  intros Hj Hi Hb. unfold step, blocked in *. rewrite Hj. destruct pc; try done;
    (destruct (thread_step _ _ _) as [[[c pc'] w]|]; [by eexists|discriminate]).
Qed.

(** Those that answer for a sleeper can go on. *)
Lemma counted_goes c pc : counted pc = true \/ waking pc = true -> pc <> Idle /\ blocked c pc = false.
Proof. intros [H|H]; destruct pc; try discriminate H; split; done. Qed.

Lemma parked_quiesce_progress m j : gate_ok m -> threads m !! j = Some (QAwait false) ->
  exists k pc m', threads m !! k = Some pc /\ (counted pc = true \/ waking pc = true) /\ step m k Go = Some m'.
Proof.
  intros [Ha _ _ _ Hq _] Hj. pose proof (count_lookup parked_quiesce _ _ _ Hj eq_refl).
  assert (W : exists k pc, threads m !! k = Some pc /\ (counted pc = true \/ waking pc = true)).
  { destruct Hq as [Hq|[Hq|Hq]]; [lia|rewrite Ha in Hq|]; apply count_witness in Hq as (k & pc & Hk & Hp); eauto. }
  destruct W as (k & pc & Hk & Hp). destruct (counted_goes (coordinator m) pc Hp) as [H1 H2].
  destruct (thread_steps m k pc Hk H1 H2) as [m' Hs]. by exists k, pc, m'.
Qed.

(** A thread with the mutex goes on, or waits for writers that do. *)
Lemma locked_progress m j pc : gate_ok m -> threads m !! j = Some pc -> locked pc = true -> exists k m', step m k Go = Some m'.
Proof.
  intros G Hj Hl. destruct (blocked (coordinator m) pc) eqn:Hb.
  - assert (E : pc = QAwait false) by (destruct pc as [| | | | | | | | | | | | | | | | |[]| | | |]; done). subst pc.
    destruct (parked_quiesce_progress m j G Hj) as (k & ? & m' & _ & _ & Hs). by exists k, m'.
  - destruct (thread_steps m j pc Hj) as [m' Hs]; [by destruct pc|done|]. by exists j, m'.
Qed.

(** C5: No wake-up is lost and nothing deadlocks.  A caller of quiesce that sleeps, unwoken,
    sleeps only while a writer is counted in or a thread is about to notify, and that
    thread can go on; a writer that sleeps, unwoken, does so only while the gate is closed
    or the thread that opened it is about to notify; and whenever a call waits, some thread
    can take a step without any time-out or new call. *)
Theorem gate_wakes_its_sleepers n m i pc :
  reachable n m -> threads m !! i = Some pc -> blocked (coordinator m) pc = true ->
  (exists j m', step m j Go = Some m') /\
  (pc = QAwait false -> exists k pck m', threads m !! k = Some pck /\ (counted pck = true \/ waking pck = true) /\ step m k Go = Some m') /\
  (pc = Await false -> state (coordinator m) = PERSISTENCE_QUIESCING \/ exists k m', threads m !! k = Some OpenWake /\ step m k Go = Some m').
Proof.
  intros R Hi Hb. pose proof (reachable_ok _ _ R) as G. pose proof G as [_ Hl Hs _ _ Hw].
  assert (P : pc = Await false -> state (coordinator m) = PERSISTENCE_QUIESCING \/ exists k m', threads m !! k = Some OpenWake /\ step m k Go = Some m').
  { intros ->. pose proof (count_lookup parked_writer _ _ _ Hi eq_refl). destruct Hw as [Hw|[Hw|Hw]]; [lia|by left|right].
    apply count_witness in Hw as (k & pck & Hk & Hp). destruct pck; try discriminate Hp.
    destruct (thread_steps m k OpenWake Hk) as [m' Hst]; [done..|]. by exists k, m'. }
  split; [|split; [intros ->; by eapply parked_quiesce_progress|done]].
  destruct pc as [| | | | | | |[]| | | | | | | | | |[]| | | |]; try discriminate Hb.
  - destruct (P eq_refl) as [Hst|(k & m' & _ & Hst)]; [|by exists k, m'].
    assert (0 < count closing (threads m)) as Hc by (unfold PERSISTENCE_QUIESCING in *; lia).
    apply count_witness in Hc as (k & pck & Hk & Hp). eapply locked_progress; [done|exact Hk|by destruct pck].
  - unfold blocked in Hb. cbn [thread_step] in Hb. destruct (exclusive (coordinator m)); [|discriminate].
    assert (0 < count locked (threads m)) as Hc by lia.
    apply count_witness in Hc as (k & pck & Hk & Hp). by eapply locked_progress.
  - destruct (parked_quiesce_progress m i G Hi) as (k & ? & m' & _ & _ & Hst). by exists k, m'.
Qed.

Lemma gate_wakes_its_sleepers_witness :
  exists m, reachable 2 m /\ threads m = [QAwait false; Entered] /\ exists j m', step m j Go = Some m'.
Proof.
  pose (sched := [(1, Enter); (1, Go); (1, Go); (1, Go); (0, Quiesce); (0, Go); (0, Go); (0, Go); (0, Go); (0, Go)]).
  assert (E : run sched (start 2) = Some (mkMachine (mkCoordinator 1 1 true) [QAwait false; Entered])) by reflexivity.
  eexists. split; [exact (run_reachable 2 sched _ _ (reach_start 2) E)|]. split; [done|].
  eapply (gate_wakes_its_sleepers 2 _ 0 (QAwait false)); [exact (run_reachable 2 sched _ _ (reach_start 2) E)|reflexivity|reflexivity].
Defined.

(** ** A delayed store *)

Module StoreBuffer.

(** The closing store is [Release] and the load after it [Acquire], so the store may still
    be in the buffer of its processor when the counter is read.  [pending] is the thread
    whose closing store is there; it is flushed at any time, at the latest before the
    thread stores again or gives the mutex back. *)
Record BMachine := mkBMachine { memory : Machine; pending : option nat }.

Inductive Action := Run (i : nat) (ch : Choice) | Flush.

Definition bstep (b : BMachine) (a : Action) : option BMachine :=
  match a with
  | Flush =>
      match pending b with
      | Some _ => Some (mkBMachine (mkMachine (set_state PERSISTENCE_QUIESCING (coordinator (memory b))) (threads (memory b))) None)
      | None => None
      end
  | Run i ch =>
      match threads (memory b) !! i, ch with
      | Some Close, Go => Some (mkBMachine (mkMachine (coordinator (memory b)) (<[i := LoadActive]> (threads (memory b)))) (Some i))
      | Some (Open | Unlock), _ => match pending b with Some _ => None | None => (fun m => mkBMachine m None) <$> step (memory b) i ch end
      | _, _ => (fun m => mkBMachine m (pending b)) <$> step (memory b) i ch
      end
  end.

Fixpoint brun (acts : list Action) (b : BMachine) : option BMachine :=
  match acts with [] => Some b | a :: acts => bstep b a ≫= brun acts end.

(** With the store delayed a writer gets its permit while the guard is out: the order that
    the two accesses need is that of [SeqCst], which the code does not ask for. *)
Lemma delayed_close_admits_a_writer :
  brun [Run 0 Quiesce; Run 0 Go; Run 0 Go; Run 0 Go; Run 1 Enter; Run 1 Go; Run 1 Go; Run 1 Go; Flush] (mkBMachine (start 2) None)
  = Some (mkBMachine (mkMachine (mkCoordinator PERSISTENCE_QUIESCING 1 true) [Quiet; Entered]) None).
Proof. reflexivity. Qed.

End StoreBuffer.
