(* ===== verification/Aof.v ===== *)
(** * Aof: the append-only file ([persistence.rs]) and its replay ([listener.rs])

    [AofReader] cuts the file into commands, [rewrite] writes the commands that rebuild the
    databases, [replay] runs the commands of a file.  The bytes a [read] returns are an
    argument: any pieces of the file, up to its end or to an error of the device. *)

From S2P Require Import Prelude Text Doubles DoubleArith Types Keyspace Shards Resp RespParser CommandArgs StreamCommands Transaction.
From S2P Require ListData HashData SetData ZSetData.

Import ShardedDatabase.

(** ** Reading *)

(** The device with what its next reads return, the parser's buffer, the raw bytes that
    mirror it, the offset of the first of them, and whether the end was seen. *)
Record AofReader := mkReader { reads : list (Result bytes); parser : bytes; raw : bytes; consumed : nat; eof : bool }.

Definition open (reads : list (Result bytes)) : AofReader := mkReader reads [] [] 0 false.

(** [File::read]; no bytes at the end of the file. *)
Definition read (r : AofReader) : Result bytes * list (Result bytes) :=
  match reads r with [] => (inr [], []) | x :: rest => (x, rest) end.

Section Reader.
Context `{F64Text}.

Definition parse_failed (r : AofReader) (msg : bytes) : NexradeError :=
  Generic (bstr "AOF parse error at byte " ++ dec (Z.of_nat (consumed r)) ++ bstr ": " ++ to_string (Keyspace.ProtocolError msg)).

Definition truncated (r : AofReader) : NexradeError :=
  Generic (bstr "AOF is truncated at byte " ++ dec (Z.of_nat (consumed r)) ++ bstr ": incomplete RESP command").

(** The loop of [next_command]; every round that comes back has done one [read]. *)
Fixpoint next_loop (rounds : nat) (r : AofReader) : may_panic (Result (option bytes) * AofReader) :=
  match rounds with
  | 0 => None
  | S rounds =>
      let more :=
        if eof r then Some (if bool_decide (raw r = []) then inr None else inl (truncated r), r)
        else match read r with
             | (inl e, rest) => Some (inl e, mkReader rest (parser r) (raw r) (consumed r) (eof r))
             | (inr [], rest) => next_loop rounds (mkReader rest (parser r) (raw r) (consumed r) true)
             | (inr chunk, rest) => next_loop rounds (mkReader rest (feed (parser r) chunk) (raw r ++ chunk) (consumed r) (eof r))
             end in
      if bool_decide (raw r = []) then more
      else
        match parse_one (parser r) with
        | (ParsedValue _, p) =>
            let len := buffered_len (parser r) - buffered_len p in
            if bool_decide (len <= length (raw r)) then
              Some (inr (Some (take len (raw r))), mkReader (reads r) p (drop len (raw r)) (consumed r + len) (eof r))
            else None
        | (NeedMore, _) => more
        | (RespParser.ProtocolError msg, _) => Some (inl (parse_failed r msg), r)
        | (NoOutcome, _) => None
        end
  end.

Definition next_command (r : AofReader) : may_panic (Result (option bytes) * AofReader) := next_loop (length (reads r) + 2) r.

(** [scan_to_eof]. *)
Fixpoint scan_to_eof (rounds : nat) (r : AofReader) : may_panic (Result unit * AofReader) :=
  match rounds with
  | 0 => None
  | S rounds =>
      '(res, r) ← next_command r;
      match res with
      | inl e => Some (inl e, r)
      | inr None => Some (inr (), r)
      | inr (Some _) => scan_to_eof rounds r
      end
  end.

End Reader.

(** ** Rewriting *)

(** [str::split_whitespace]. *)
Class Whitespace := { split_whitespace : bytes -> list bytes }.

Definition words (name : string) (key : bytes) (rest : list Resp) : Resp := array (bulk_str (bstr name) :: bulk key :: rest).

Definition acl_command `{Whitespace} (line : bytes) : option Resp :=
  match split_whitespace line with
  | u :: name :: toks =>
      if bool_decide (u = bstr "user") then Some (array (bulk_str (bstr "ACL") :: bulk_str (bstr "SETUSER") :: bulk_str name :: (bulk_str <$> toks))) else None
  | _ => None
  end.

Section Rewrite.
Context `{SetData.IndexSet} `{HashOrder} `{Itoa} `{F64Format}.

Definition pair_words (ps : list (bytes * bytes)) : list Resp := concat (map (fun '(f, v) => [bulk f; bulk v]) ps).

Definition xadd_command (key : bytes) (se : StreamEntry) : Resp := words "XADD" key (bulk_str (id se) :: pair_words (fields se)).

(** The last id, when the entries do not tell it. *)
Definition xsetid_command (key : bytes) (s : StreamData) : list Resp :=
  let last_gen := last_generated_id s in
  if bool_decide (id <$> last (entries s) = Some last_gen) || bool_decide (last_gen = bstr "0-0") then []
  else
    [words "XSETID" key (bulk_str last_gen ::
       (if bool_decide (0 < entries_added s)%Z then [bulk_str (bstr "ENTRIESADDED"); bulk_str (show_int (entries_added s))] else []))].

Definition claim_command (key group : bytes) (p : bytes * PendingEntry) : Resp :=
  words "XCLAIM" key [bulk group; bulk (consumer p.2); bulk_str (bstr "0"); bulk_str p.1;
    bulk_str (bstr "TIME"); bulk_str (show_int (delivery_time_ms p.2));
    bulk_str (bstr "RETRYCOUNT"); bulk_str (show_int (delivery_count p.2)); bulk_str (bstr "FORCE"); bulk_str (bstr "JUSTID")].

Definition group_commands (key : bytes) (g : bytes * ConsumerGroup) : list Resp :=
  let create := array [bulk_str (bstr "XGROUP"); bulk_str (bstr "CREATE"); bulk key; bulk g.1; bulk_str (last_delivered_id g.2)] in
  let consumer c := array [bulk_str (bstr "XGROUP"); bulk_str (bstr "CREATECONSUMER"); bulk key; bulk g.1; bulk c] in
  create :: (consumer <$> (hm_iter (consumers g.2)).*1) ++ (claim_command key g.1 <$> btree_pairs (pending g.2)).

(** The commands that give a key its value. *)
Definition value_commands (key : bytes) (v : DataType) : may_panic (list Resp) :=
  match v with
  | TString b => Some [words "SET" key [bulk b]]
  | TInt cell => Some [words "SET" key [bulk_str (show_int (AtomicIntCell.load cell))]]
  | TList l =>
      if ListData.is_empty l then Some [] else xs ← ListData.to_vec_bytes l; Some [words "RPUSH" key (bulk <$> xs)]
  | TSet s =>
      if SetData.is_empty s then Some [] else xs ← SetData.to_vec s; Some [words "SADD" key (bulk <$> xs)]
  | THash h =>
      if HashData.is_empty h then Some [] else ps ← HashData.to_pairs h; Some [words "HSET" key (pair_words ps)]
  | TZSet z =>
      if ZSetData.is_empty z then Some []
      else Some [words "ZADD" key (concat (map (fun '(m, x) => [bulk_str (f64_display x); bulk m]) (ZSetData.to_pairs z)))]
  | TStream s =>
      if bool_decide (entries s = []) && bool_decide (last_id s = []) then Some []
      else Some ((xadd_command key <$> entries s) ++ xsetid_command key s ++ concat (map (group_commands key) (hm_iter (groups s))))
  | TBitmap b | THyperLogLog b => Some (if bool_decide (b = []) then [] else [words "SET" key [bulk b]])
  | TGeo g =>
      Some (if bool_decide (geo_members g = ∅) then []
            else [words "GEOADD" key (concat (map (fun '(m, p) => [bulk_str (f64_fixed17 (longitude p)); bulk_str (f64_fixed17 (latitude p)); bulk m]) (hm_iter (geo_members g))))])
  end.

(** And its deadline. *)
Definition entry_commands (now : Z) (p : bytes * Entry.t) : may_panic (list Resp) :=
  if Entry.is_expired now p.2 then Some []
  else
    cmds ← value_commands p.1 (Entry.value p.2);
    Some (cmds ++ match Entry.expiry p.2 with
                  | Some x => [words "PEXPIREAT" p.1 [bulk_str (show_int (Expiry.expires_at_ms x))]]
                  | None => []
                  end).

Fixpoint all_commands {A} (f : A -> may_panic (list Resp)) (l : list A) : may_panic (list Resp) :=
  match l with
  | [] => Some []
  | x :: l => cmds ← f x; rest ← all_commands f l; Some (cmds ++ rest)
  end.

Definition select_command (db_index : nat) : Resp := array [bulk_str (bstr "SELECT"); bulk_str (dec (Z.of_nat db_index))].

Definition database_commands (now : Z) (p : nat * Database.t) : may_panic (list Resp) :=
  cmds ← all_commands (entry_commands now) (hm_iter (Database.entries p.2)); Some (select_command p.1 :: cmds).

(** The file that takes the place of the old one: the ACL users, then the databases. *)
Definition rewrite_commands `{Whitespace} (now : Z) (databases : list (nat * Database.t)) (acl_lines : list bytes) : may_panic (list Resp) :=
  cmds ← all_commands (database_commands now) databases; Some (omap acl_command acl_lines ++ cmds).

Definition rewrite `{Whitespace} (now : Z) (databases : list (nat * Database.t)) (acl_lines : list bytes) : may_panic bytes :=
  cmds ← rewrite_commands now databases acl_lines; Some (concat (serialize <$> cmds)).

End Rewrite.

(** ** Replaying *)

Inductive ReplayError :=
  | ReadFailed (e : NexradeError) | ParserInconsistency (msg : bytes) | NotAnArray (command : nat)
  | InvalidSelect (command : nat) | ReplayFailed (command : nat) (msg : bytes).

(** The start-up loop of [listener.rs]; [dispatch] runs a command on a database. *)
Section Replay.
Context `{F64Text} {D : Type} (dispatch : nat -> list Resp -> nat -> D -> may_panic (Resp * D)).

(** A command with these arguments, after the database was selected and so many commands
    were applied. *)
Definition replay_args (args : list Resp) (current_db count : nat) (s : D) : may_panic (ReplayError + nat * nat * D) :=
  if bool_decide (match parse_cmd_name args with inr c => c | inl _ => [] end = bstr "SELECT") then
    match (args !! 1 ≫= as_str) ≫= parse_usize with
    | Some i => Some (inr (Z.to_nat i, count, s))
    | None => Some (inl (InvalidSelect (count + 1)))
    end
  else
    '(reply, s) ← dispatch count args current_db s;
    match reply with
    | Error e => Some (inl (ReplayFailed (count + 1) e))
    | _ => Some (inr (current_db, count + 1, s))
    end.

Definition replay_command (cmd_bytes : bytes) (current_db count : nat) (s : D) : may_panic (ReplayError + nat * nat * D) :=
  match (parse_one (feed [] cmd_bytes)).1 with
  | RespParser.ProtocolError msg => Some (inl (ParserInconsistency msg))
  | ParsedValue (Array (Some args)) => replay_args args current_db count s
  | NoOutcome => None
  | _ => Some (inl (NotAnArray (count + 1)))
  end.

Fixpoint replay (rounds : nat) (r : AofReader) (current_db count : nat) (s : D) : may_panic (ReplayError + nat * D) :=
  match rounds with
  | 0 => None
  | S rounds =>
      '(res, r) ← next_command r;
      match res with
      | inl e => Some (inl (ReadFailed e))
      | inr None => Some (inr (count, s))
      | inr (Some cmd_bytes) =>
          res ← replay_command cmd_bytes current_db count s;
          match res with
          | inl e => Some (inl e)
          | inr (current_db, count, s) => replay rounds r current_db count s
          end
      end
  end.

End Replay.
