(* ===== verification/AofSpec.v ===== *)
(** * AofSpec: what is written is read back

    The reader returns exactly the commands of a file, however the device cuts it into
    reads, ends cleanly at the end of the last one, and reports a file that stops within a
    command. *)

From S2P Require Import Prelude Text Doubles DoubleArith Types Keyspace Resp RespParser CommandArgs Transaction Aof.

(** ** Reading *)

Section Reading.
Context `{F64Text}.

(** The commands of a file, and the error at its end if there is one. *)
Fixpoint read_all (rounds : nat) (r : AofReader) : may_panic (list bytes * option NexradeError) :=
  match rounds with
  | 0 => None
  | S rounds =>
      '(res, r) ← next_command r;
      match res with
      | inl e => Some ([], Some e)
      | inr None => Some ([], None)
      | inr (Some b) => '(bs, e) ← read_all rounds r; Some (b :: bs, e)
      end
  end.

Lemma read_all_step n r : read_all (S n) r =
  ('(res, r) ← next_command r;
   match res with
   | inl e => Some ([], Some e)
   | inr None => Some ([], None)
   | inr (Some b) => '(bs, e) ← read_all n r; Some (b :: bs, e)
   end).
Proof. done. Qed.

(** The raw bytes mirror the parser, and the end is seen only when nothing is left. *)
Definition reader_at (chunks : list bytes) (p : bytes) (c : nat) (e : bool) : AofReader := mkReader (inr <$> chunks) p p c e.

(** A frame, whatever follows it. *)
Definition frame (b : bytes) : Prop := exists v, forall rest, parse_resp (b ++ rest) = POk (v, length b).

Lemma encode_frame r : wire_safe r -> frame (encode 2 r).
Proof. intros Hr. exists (degrade 2 r). intros rest. by apply parse_encode. Qed.

Lemma frame_nonempty b : frame b -> b <> [].
Proof. intros [v Hb] ->. specialize (Hb []). apply parse_resp_positive in Hb. simpl in Hb. lia. Qed.

(** What the parser says of a buffer that starts a frame. *)
Lemma parse_one_frame b p : frame b -> b `prefix_of` p -> exists v, parse_one p = (ParsedValue v, drop (length b) p).
Proof. intros [v Hb] [rest ->]. exists v. apply parse_one_ok, Hb. Qed.

Lemma parse_one_partial b p : frame b -> p `prefix_of` b -> p <> b -> parse_one p = (NeedMore, p).
Proof.
  intros [v Hb] [rest ->] Hne. specialize (Hb []). rewrite app_nil_r in Hb.
  pose proof (proper_prefix_asks_for_more _ v _ (length p) Hb) as E. rewrite length_app in E. rewrite take_app_length in E. apply E.
  destruct rest; [by rewrite app_nil_r in Hne|]. simpl. lia.
Qed.

Lemma prefix_compare (p b x y : bytes) : p ++ x = b ++ y -> b `prefix_of` p \/ (p `prefix_of` b /\ p <> b).
Proof.
  intros E. destruct (decide (length b <= length p)) as [Hl|Hl].
  - left. exists (drop (length b) p). apply (f_equal (take (length b))) in E. rewrite take_app_le, take_app_length in E by done.
    rewrite <- E at 1. by rewrite take_drop.
  - right. split; [|intros ->; lia]. exists (drop (length p) b). apply (f_equal (take (length p))) in E. rewrite take_app_length, take_app_le in E by lia.
    rewrite E at 1. by rewrite take_drop.
Qed.

(** The reader returns the frame that comes next. *)
Lemma next_loop_frame b rest : frame b -> forall chunks rounds p c (e : bool),
  length chunks + 1 < rounds -> Forall (fun x => x <> []) chunks -> (e = true -> chunks = []) -> p ++ concat chunks = b ++ rest ->
  exists chunks' p', next_loop rounds (reader_at chunks p c e) = Some (inr (Some b), reader_at chunks' p' (c + length b) e) /\
    p' ++ concat chunks' = rest /\ Forall (fun x => x <> []) chunks' /\ length chunks' <= length chunks /\ (e = true -> chunks' = []).
Proof.
  intros Hb chunks. induction chunks as [|ch chunks IH]; intros [|rounds] p c e Hr Hne He E; try lia; cbn [next_loop reader_at Aof.raw parser eof reads fmap list_fmap read].
  - simpl in E. rewrite app_nil_r in E. subst p. rewrite bool_decide_eq_false_2 by (intros [H1 _]%app_nil; by apply (frame_nonempty b)).
    destruct (parse_one_frame b (b ++ rest) Hb) as [v ->]; [by exists rest|]. unfold buffered_len. rewrite drop_app_length, !length_app.
    replace (length b + length rest - length rest) with (length b) by lia. rewrite bool_decide_eq_true_2, take_app_length, drop_app_length by lia.
    exists [], rest. simpl. by rewrite app_nil_r.
  - assert (e = false) as -> by (destruct e; [by specialize (He eq_refl)|done]). apply Forall_cons in Hne as [Hc Hne]. simpl in Hr.
    set (more := match ch with [] => _ | _ :: _ => _ end). cbn [concat] in E.
    assert (M : exists chunks' p', next_loop rounds (reader_at chunks (p ++ ch) c false) = Some (inr (Some b), reader_at chunks' p' (c + length b) false) /\
      p' ++ concat chunks' = rest /\ Forall (fun x => x <> []) chunks' /\ length chunks' <= S (length chunks) /\ (false = true -> chunks' = [])).
    { destruct (IH rounds (p ++ ch) c false) as (cs & p' & -> & H1 & H2 & H3 & H4); [lia|done|done|by rewrite <- app_assoc|]. eauto 10 with lia. }
    assert (Em : more = next_loop rounds (reader_at chunks (p ++ ch) c false)) by (by destruct ch). rewrite Em.
    case_bool_decide as Hp; [exact M|].
    destruct (prefix_compare p b _ _ E) as [Hpre|[Hpre Hpb]].
    + destruct (parse_one_frame b p Hb Hpre) as [v ->]. destruct Hpre as [p' ->]. unfold buffered_len. rewrite drop_app_length, !length_app.
      replace (length b + length p' - length p') with (length b) by lia. rewrite bool_decide_eq_true_2, take_app_length, drop_app_length by lia.
      rewrite <- app_assoc in E. apply app_inv_head in E. exists (ch :: chunks), p'. simpl. by split_and!; [|rewrite <- E|constructor|lia|].
    + rewrite (parse_one_partial b p Hb Hpre Hpb). exact M.
Qed.

(** At the end: nothing, or a piece of a command. *)
Definition tail_outcome (t : bytes) (c : nat) : Result (option bytes) :=
  if bool_decide (t = []) then inr None else inl (truncated (reader_at [] t c true)).

Lemma next_loop_tail b t : frame b -> t `prefix_of` b -> t <> b -> forall chunks rounds p c (e : bool),
  length chunks + 1 < rounds -> Forall (fun x => x <> []) chunks -> (e = true -> chunks = []) -> p ++ concat chunks = t ->
  exists r, next_loop rounds (reader_at chunks p c e) = Some (tail_outcome t c, r).
Proof.
  intros Hb Ht Hn chunks. induction chunks as [|ch chunks IH]; intros [|rounds] p c e Hr Hne He E; try lia.
  - simpl in E. rewrite app_nil_r in E. subst p. destruct rounds as [|rounds]; [simpl in Hr; lia|].
    assert (P : t <> [] -> parse_one t = (NeedMore, t)) by (intros _; by eapply parse_one_partial).
    unfold tail_outcome. cbn [next_loop reader_at Aof.raw parser eof reads fmap list_fmap read].
    destruct (decide (t = [])) as [Ht0|Ht0]; [rewrite !(bool_decide_eq_true_2 _ Ht0)|rewrite !(bool_decide_eq_false_2 _ Ht0), (P Ht0)];
      destruct e; by eexists.
  - assert (e = false) as -> by (destruct e; [by specialize (He eq_refl)|done]). apply Forall_cons in Hne as [Hc Hne]. simpl in Hr. cbn [concat] in E.
    cbn [next_loop reader_at Aof.raw parser eof reads fmap list_fmap read]. set (more := match ch with [] => _ | _ :: _ => _ end).
    destruct (IH rounds (p ++ ch) c false) as [r M]; [lia|done|done|by rewrite <- app_assoc|].
    assert (Em : more = next_loop rounds (reader_at chunks (p ++ ch) c false)) by (by destruct ch). rewrite Em, M.
    case_bool_decide as Hp; [by exists r|]. rewrite (parse_one_partial b p Hb); [by exists r| |].
    + etransitivity; [|exact Ht]. by exists (ch ++ concat chunks).
    + intros ->. apply Hn. destruct Ht as [z Hz]. rewrite <- E in *. destruct (ch ++ concat chunks) eqn:Ec; [by rewrite app_nil_r|].
      apply (f_equal length) in Hz. rewrite !length_app in Hz. simpl in Hz. lia.
Qed.

Lemma read_all_commands cmds b t : Forall wire_safe cmds -> frame b -> t `prefix_of` b -> t <> b -> forall chunks p c (e : bool),
  Forall (fun x => x <> []) chunks -> (e = true -> chunks = []) -> p ++ concat chunks = concat (map (encode 2) cmds) ++ t ->
  read_all (S (length cmds)) (reader_at chunks p c e) =
    Some (encode 2 <$> cmds, if bool_decide (t = []) then None else Some (truncated (reader_at [] t (c + length (concat (map (encode 2) cmds))) true))).
Proof.
  intros Hc Hb Ht Hn. induction Hc as [|r cmds Hr Hc IH]; intros chunks p c e Hne He E.
  - cbn [map concat app length read_all] in *. unfold next_command. cbn [reader_at reads]. rewrite length_fmap.
    destruct (next_loop_tail b t Hb Ht Hn chunks (length chunks + 2) p c e) as [r ->]; [lia|done..|]. simpl. rewrite Nat.add_0_r.
    unfold tail_outcome. by case_bool_decide.
  - cbn [map concat length] in *. rewrite <- app_assoc in E. rewrite read_all_step. unfold next_command. cbn [reader_at reads]. rewrite length_fmap.
    destruct (next_loop_frame (encode 2 r) (concat (map (encode 2) cmds) ++ t) (encode_frame r Hr) chunks (length chunks + 2) p c e) as (cs & p' & -> & H1 & H2 & _ & H4); [lia|done..|].
    cbn [mbind option_bind]. cbv beta iota. rewrite (IH cs p' _ e H2 H4 H1). cbn [mbind option_bind fmap list_fmap]. rewrite length_app, Nat.add_assoc. done.
Qed.

(** ** Replaying *)

(** A command a file may have: byte strings, none of them too long and not too many. *)
Definition sendable (args : list Resp) : Prop :=
  Forall (fun r => exists b, r = bulk b /\ (Z.of_nat (length b) <= MAX_BULK_LEN)%Z) args /\ (Z.of_nat (length args) <= MAX_ARRAY_LEN)%Z.

Lemma sendable_safe args : sendable args -> wire_safe (array args).
Proof.
  intros [Hb Hn]. cbn [array wire_safe]. split; [exact Hn|]. clear Hn. induction Hb as [|r args (b & -> & Hb) _ IH]; [done|]. cbn [fold_right]. split; [exact Hb|exact IH].
Qed.

Lemma sendable_representable args : sendable args -> representable (array args).
Proof.
  intros [Hb Hn]. cbn [array representable]. unfold usize_len, MAX_ARRAY_LEN, MAX_BULK_LEN in *. split; [lia|]. clear Hn.
  induction Hb as [|r args (b & -> & Hb) _ IH]; [done|]. cbn [fold_right]. split; [|exact IH]. cbn [bulk representable]. unfold usize_len. lia.
Qed.

Lemma sendable_degrade args : sendable args -> degrade 2 (array args) = array args.
Proof.
  intros [Hb _]. assert (M : map (degrade 2) args = args).
  { induction Hb as [|r args (b & -> & _) _ IH]; [done|]. cbn [map]. by rewrite IH. }
  unfold array. cbn [degrade]. by rewrite M.
Qed.

Section Commands.
Context {D : Type} (dispatch : nat -> list Resp -> nat -> D -> may_panic (Resp * D)).

(** The commands one after the other. *)
Fixpoint replay_list (argss : list (list Resp)) (current_db count : nat) (s : D) : may_panic (ReplayError + nat * nat * D) :=
  match argss with
  | [] => Some (inr (current_db, count, s))
  | args :: argss =>
      res ← replay_args dispatch args current_db count s;
      match res with
      | inl e => Some (inl e)
      | inr (current_db, count, s) => replay_list argss current_db count s
      end
  end.

Lemma replay_list_app a1 a2 db n s db' n' s' : replay_list a1 db n s = Some (inr (db', n', s')) ->
  replay_list (a1 ++ a2) db n s = replay_list a2 db' n' s'.
Proof.
  revert db n s. induction a1 as [|args a1 IH]; intros db n s E; cbn [replay_list app] in *; [by injection E as -> -> ->|].
  destruct (replay_args dispatch args db n s) as [[e|[[db1 n1] s1]]|]; cbn [mbind option_bind] in *; [done| |done]. by apply IH.
Qed.

Lemma replay_step n r db k s : replay dispatch (S n) r db k s =
  ('(res, r) ← next_command r;
   match res with
   | inl e => Some (inl (ReadFailed e))
   | inr None => Some (inr (k, s))
   | inr (Some cmd_bytes) =>
       res ← replay_command dispatch cmd_bytes db k s;
       match res with inl e => Some (inl e) | inr (db, k, s) => replay dispatch n r db k s end
   end).
Proof. done. Qed.

(** The replay of a file is that of its commands. *)
Lemma replay_commands argss : Forall sendable argss -> forall chunks p c (e : bool) db n s,
  Forall (fun x => x <> []) chunks -> (e = true -> chunks = []) -> p ++ concat chunks = concat (map (fun a => encode 2 (array a)) argss) ->
  replay dispatch (S (length argss)) (reader_at chunks p c e) db n s =
    (res ← replay_list argss db n s; Some (match res with inl err => inl err | inr (_, n, s) => inr (n, s) end)).
Proof.
  induction 1 as [|args argss Ha Hs IH]; intros chunks p c e db n s Hne He E.
  - cbn [map concat replay length] in *. unfold next_command. cbn [reader_at reads]. rewrite length_fmap.
    assert (Hf : frame (encode 2 (array []))) by (apply encode_frame; cbn; unfold count_safe, MAX_ARRAY_LEN; simpl; lia).
    destruct (next_loop_tail _ [] Hf ltac:(by eexists) ltac:(intros Hx; by apply (frame_nonempty _ Hf)) chunks (length chunks + 2) p c e) as [r ->]; [lia|done..].
  - cbn [map concat length] in *. rewrite replay_step.
    unfold next_command. cbn [reader_at reads]. rewrite length_fmap.
    pose proof (encode_frame _ (sendable_safe _ Ha)) as Hf.
    destruct (next_loop_frame _ _ Hf chunks (length chunks + 2) p c e ltac:(lia) Hne He E) as (cs & p' & -> & H1 & H2 & _ & H4).
    cbn [mbind option_bind]. cbv beta iota.
    assert (R : replay_command dispatch (encode 2 (array args)) db n s = replay_args dispatch args db n s).
    { unfold replay_command, feed. rewrite app_nil_l. pose proof (parse_encode 2 _ (sendable_safe _ Ha) []) as P. rewrite app_nil_r in P.
      rewrite (parse_one_ok _ _ _ P). cbn [fst]. by rewrite sendable_degrade. }
    rewrite R. cbn [replay_list]. destruct (replay_args dispatch args db n s) as [[err|[[db1 n1] s1]]|]; cbn [mbind option_bind]; [done| |done].
    by apply IH.
Qed.

End Commands.
End Reading.

(** A command with more arguments than the parser takes can be written and is not read: a
    list of a million elements is rewritten as one such command. *)
Lemma long_command_is_refused `{F64Text} args rest : (MAX_ARRAY_LEN < Z.of_nat (length args) < 2 ^ 62)%Z ->
  parse_resp (encode 2 (array args) ++ rest) = PInvalid (bstr "invalid multibulk length: " ++ show_int (Z.of_nat (length args))).
Proof.
  intros Hn. unfold MAX_ARRAY_LEN in Hn. cbn [array encode]. unfold count_line. rewrite <- app_assoc, (frame_line_cons "*" (byte_of 42)) by done.
  rewrite parse_resp_eq, parse_with_type, (proj2 array_type). unfold line_then. rewrite no_crlf_line; [|done|apply dec_safe]. cbn [pbind].
  unfold array_gram, array_line, length_line. rewrite from_utf8_safe by apply dec_safe. cbn [or_invalid pbind].
  rewrite <- (show_int_nonneg (Z.of_nat (length args))), parse_i64_show by (unfold in_i64, i64_min, i64_max; lia || lia). cbn [or_invalid pbind].
  assert (E1 : (Z.of_nat (length args) =? -1)%Z = false) by lia. assert (E2 : (Z.of_nat (length args) <? 0)%Z = false) by lia.
  assert (E3 : (MAX_ARRAY_LEN <? Z.of_nat (length args))%Z = true) by (unfold MAX_ARRAY_LEN; lia). by rewrite E1, E2, E3.
Qed.


