(* ===== verification/AofRestore.v ===== *)
(** * AofRestore: replaying a rewritten file rebuilds the databases

    A rewritten file goes through the serialiser, the reader, the parser and the handlers
    of the commands.  Replayed into an empty store it gives back every key with its value
    and its deadline, for strings, integers, lists, sets and hashes. *)

From S2P Require Import Prelude Packing Text Doubles DoubleArith Types Keyspace KeyspaceInvariant KeyspaceSpec Shards ShardsSpec ShardsMoves.
From S2P Require Import Resp RespParser CommandArgs StringCommands StringSpec GenericCommands ValueCells HashCommands HashSpec SetCommands SetSpec.
From S2P Require Import ListCommands ListSpec StreamCommands Transaction Aof AofSpec.
From S2P Require ListData HashData SetData ZSetData.

Import ShardedDatabase.

#[local] Arguments Database.set_expiry : simpl never.
#[local] Arguments Database.get : simpl never.
#[local] Arguments Database.set_plain : simpl never.

Section Restore.
Context `{SetData.IndexSet} `{HashOrder} `{Itoa} `{F64Format} `{UnicodeCase}.
Context (lthr : ListData.ListThresholds) (Hl : ListData.thr_sane lthr).
Context (hthr : HashData.HashThresholds) (Hh : HashData.thr_sane hthr).
Context (sthr : SetData.SetThresholds) (Hs : SetData.thr_sane sthr).
Implicit Types (s : t) (d : Database.t) (k : bytes) (e : Entry.t).

(** ** The commands of a file *)

(** The dispatcher's arms for the commands on strings, lists, sets, hashes and deadlines
    that a rewritten file has; [other] is the rest of the dispatcher. *)
Context (other : Z -> bytes -> list Resp -> t -> may_panic (Result Resp * t)).

Definition dispatch_arm (now : Z) (cmd : bytes) (args : list Resp) s : may_panic (Result Resp * t) :=
  if bool_decide (cmd = bstr "SET") then cmd_set now args s
  else if bool_decide (cmd = bstr "RPUSH") then cmd_rpush lthr now args s
  else if bool_decide (cmd = bstr "SADD") then cmd_sadd sthr now args s
  else if bool_decide (cmd = bstr "HSET") then cmd_hset hthr now args s
  else if bool_decide (cmd = bstr "PEXPIREAT") then cmd_pexpireat now args s
  else other now cmd args s.

(** [dispatch] while nothing is in its way: no pause, no failed log, no ACL rule, no memory
    limit.  [clock] gives the time of each command. *)
Definition dispatch (clock : nat -> Z) (count : nat) (args : list Resp) (db_index : nat) (dbs : list t) : may_panic (Resp * list t) :=
  match parse_cmd_name args with
  | inl e => Some (Error (to_string e), dbs)
  | inr cmd =>
      s ← dbs !! db_index;
      '(r, s) ← dispatch_arm (clock count) cmd args s;
      Some (match r with inr reply => reply | inl e => Error (to_string e) end, <[db_index := s]> dbs)
  end.

(** ** Values *)

(** Values the theorem is about: what is stored is well formed, and not empty. *)
Definition restorable (v : DataType) : Prop :=
  match v with
  | TString _ => True
  | TInt cell => in_i64 (AtomicIntCell.value cell)
  | TList l => exists xs, ListData.repr l xs /\ xs <> []
  | TSet x => exists X, SetData.repr x X /\ X <> ∅
  | THash h => exists m, HashData.repr h m /\ m <> ∅
  | _ => False
  end.

(** The same contents; an integer comes back as its text. *)
Definition same_value (v w : DataType) : Prop :=
  match v with
  | TString b => w = TString b
  | TInt cell => w = TString (show_int (AtomicIntCell.value cell))
  | TList l => exists l' xs, w = TList l' /\ ListData.repr l xs /\ ListData.repr l' xs
  | TSet x => exists x' X, w = TSet x' /\ SetData.repr x X /\ SetData.repr x' X
  | THash h => exists h' m, w = THash h' /\ HashData.repr h m /\ HashData.repr h' m
  | _ => False
  end.

(** What the value weighs when it is back. *)
Definition value_weight (v : DataType) : nat :=
  match v with TInt cell => length (show_int (AtomicIntCell.value cell)) | _ => Database.value_size v end.

Lemma same_value_weight v w : same_value v w -> Database.value_size w = value_weight v.
Proof.
  destruct v as [b|c|l|x|z|h|b|b|s|g]; simpl; try done; [by intros ->|by intros ->| | |].
  - intros (l' & xs & -> & R & R'). exact (eq_trans (repr_weight (K := list_kind) _ _ R') (eq_sym (repr_weight (K := list_kind) _ _ R))).
  - intros (x' & X & -> & R & R'). exact (eq_trans (repr_weight (K := set_kind) _ _ R') (eq_sym (repr_weight (K := set_kind) _ _ R))).
  - intros (h' & m & -> & R & R'). exact (eq_trans (repr_weight (K := hash_kind) _ _ R') (eq_sym (repr_weight (K := hash_kind) _ _ R))).
Qed.

(** ** Writing a new key *)

Definition no_error (r : Resp) : Prop := match r with Error _ => False | _ => True end.

(** On a shard without the key, the command stores a value and no deadline. *)
Definition fills k (w : nat) (P : DataType -> Prop) (body : Database.t -> may_panic (Result Resp * Database.t)) : Prop :=
  forall d, wf d -> Database.entries d !! k = None -> (Z.of_nat (total_bytes d + (64 + length k + w)) < 2 ^ 64)%Z ->
  exists r d' e, body d = Some (inr r, d') /\ no_error r /\ dstep d d' k (Some e) /\ P (Entry.value e) /\ Entry.expiry e = None.

(** The same of a handler. *)
Definition makes k (w : nat) (P : DataType -> Prop) (h : t -> may_panic (Result Resp * t)) : Prop :=
  forall s, swf s -> slot s k = None -> room s k (64 + length k + w) ->
  exists r s' e, h s = Some (inr r, s') /\ no_error r /\ swf s' /\ assigns s s' k (Some e) /\ P (Entry.value e) /\ Entry.expiry e = None.

Lemma fills_makes k w P body : fills k w P body -> makes k w P (fun s => on_shard (shard_idx s k) body s).
Proof.
  intros B s W Sk F. destruct (shard_of s k W) as (d & Hd & Wd & Hs'). rewrite Hs' in Sk.
  destruct (B d Wd Sk (F d Hd)) as (r & d' & e & E & Hr & [Wd' St] & Hv & Hx).
  destruct (on_shard_step s k d _ d' (Some e) body W Hd E St Wd') as (s' & E' & W' & A & _).
  by exists r, s', e.
Qed.

Lemma makes_ext k w P h h' : (forall s, h' s = h s) -> makes k w P h -> makes k w P h'.
Proof. intros E B s W Sk F. rewrite E. by apply B. Qed.

(** From what a command does to the cell of a key that is not there. *)
Lemma serves_fills {V A} `{EqDecision A} (K : Kind V A) `{!KindLaws K} now k need post body a w P :
  serves K now k need post body -> need None = w ->
  (forall r c', post None r c' -> (exists x, r = inr x /\ no_error x) /\ c' = Some (Own a, None)) ->
  (forall v, repr K v a -> P (wrap K v)) -> fills k w P body.
Proof.
  intros B <- Hp HP d W Hk F. destruct (B d None W) as (r & d' & o & c' & E & Hr & D & So); [by rewrite Hk|done|].
  destruct (Hp r c' Hr) as [(x & -> & Hx) ->]. unfold sees in So. destruct (live now o) as [e|] eqn:L; [|done].
  destruct So as (y & [= <- Ex] & Hy). unfold holds in Hy. destruct (unwrap K (Entry.value e)) as [v|] eqn:U; [|done].
  destruct Hy as (a' & [= <-] & R). apply unwrap_inv in U.
  assert (o = Some e) as -> by (unfold live in L; destruct o as [e0|]; [|done]; simpl in L; destruct (Entry.is_expired now e0); congruence).
  exists x, d', e. split_and!; try done; [rewrite U; by apply HP|]. by destruct (Entry.expiry e).
Qed.

(** ** One value *)

Lemma arm_set now args s : dispatch_arm now (bstr "SET") args s = cmd_set now args s.
Proof. reflexivity. Qed.
Lemma arm_rpush now args s : dispatch_arm now (bstr "RPUSH") args s = cmd_rpush lthr now args s.
Proof. reflexivity. Qed.
Lemma arm_sadd now args s : dispatch_arm now (bstr "SADD") args s = cmd_sadd sthr now args s.
Proof. reflexivity. Qed.
Lemma arm_hset now args s : dispatch_arm now (bstr "HSET") args s = cmd_hset hthr now args s.
Proof. reflexivity. Qed.
Lemma arm_pexpireat now args s : dispatch_arm now (bstr "PEXPIREAT") args s = cmd_pexpireat now args s.
Proof. reflexivity. Qed.

Lemma set_makes now k b : makes k (length b) (fun w => w = TString b) (dispatch_arm now (bstr "SET") [bulk_str (bstr "SET"); bulk k; bulk b]).
Proof.
  apply (fills_makes k (length b) _ (fun d => Some (inr ok, Database.set_plain now k b d))).
  intros d W Hk F. destruct (set_plain_changes now k b d) as [lru C]. eexists _, _, (Entry.mk (TString b) None lru). split_and!; try done.
  apply dstep_changes; [done|exact C|]. unfold slot_size, Database.estimate_entry_size. simpl. lia.
Qed.

Lemma rpush_makes now k l xs : ListData.repr l xs -> xs <> [] ->
  makes k (value_weight (TList l)) (same_value (TList l)) (dispatch_arm now (bstr "RPUSH") (bulk_str (bstr "RPUSH") :: bulk k :: (bulk <$> xs))).
Proof.
  intros R Hx. assert (A : op_answer (Push false false xs) None = (size_reply xs, refill list_kind None xs)) by done.
  unfold refill in A. rewrite bool_decide_eq_false_2 in A by done. eapply makes_ext; [|eapply fills_makes, (serves_fills list_kind now k _ _ _ xs); [by apply (push_serves lthr Hl now "RPUSH" k false false xs)|..]].
  - intros s. rewrite arm_rpush. unfold cmd_rpush, push. rewrite bool_decide_eq_false_2; [done|].
    destruct xs; [done|]. simpl. lia.
  - unfold op_need. rewrite A. symmetry. exact (repr_weight (K := list_kind) _ _ R).
  - intros r c' E. unfold op_post in E. rewrite A in E. apply pair_equal_spec in E as [-> ->]. split; [by eexists|done].
  - intros v R'. by exists v, xs.
Qed.

Lemma sadd_makes now k x xs X : SetData.repr x X -> X = list_to_set xs -> xs <> [] ->
  makes k (value_weight (TSet x)) (same_value (TSet x)) (dispatch_arm now (bstr "SADD") (bulk_str (bstr "SADD") :: bulk k :: (bulk <$> xs))).
Proof.
  intros R EX Hx. eapply makes_ext; [|eapply fills_makes, (serves_fills set_kind now k _ _ _ X); [by apply (sadd_serves sthr Hs now k xs)|..]].
  - intros s. rewrite arm_sadd. unfold cmd_sadd. rewrite bool_decide_eq_false_2; [done|].
    destruct xs; [done|]. simpl. lia.
  - unfold set_need. cbn [contents nothing set_kind]. rewrite union_empty_l_L, <- EX. symmetry. exact (repr_weight (K := set_kind) _ _ R).
  - intros r c' E. unfold set_post in E. cbn [contents nothing set_kind] in E. cbv zeta in E. rewrite union_empty_l_L, <- EX in E. destruct E as [-> ->].
    split; [by eexists|]. unfold refill. rewrite bool_decide_eq_false_2; [done|]. simpl. intros ->. destruct xs as [|y xs]; [done|]. set_solver.
  - intros v R'. by exists v, X.
Qed.

Lemma pair_words_flat (ps : list (bytes * bytes)) : pair_words ps = bulk <$> HashData.flat ps.
Proof. unfold pair_words, HashData.flat. induction ps as [|[f v] ps IH]; [done|]. simpl in *. by rewrite IH. Qed.

Lemma set_pairs_flat (ps : list (bytes * bytes)) (m : gmap bytes bytes) : NoDup ps.*1 -> set_pairs (HashData.flat ps) m = list_to_map ps ∪ m.
Proof.
  revert m. induction ps as [|[f v] ps IH]; intros m ND; [simpl; by rewrite (left_id_L ∅ (∪))|]. cbn [fmap list_fmap fst] in ND. apply NoDup_cons in ND as [Hf ND].
  change (HashData.flat ((f, v) :: ps)) with (f :: v :: HashData.flat ps). cbn [set_pairs list_to_map foldr fst snd]. rewrite IH by done.
  rewrite <- insert_union_l. symmetry. apply insert_union_r. by apply not_elem_of_list_to_map_1.
Qed.

Lemma hset_makes (now : Z) k (h : HashData.HashData) (m : gmap bytes bytes) (ps : list (bytes * bytes)) : HashData.repr h m -> ps ≡ₚ map_to_list m -> m <> ∅ ->
  makes k (value_weight (THash h)) (same_value (THash h)) (dispatch_arm now (bstr "HSET") (bulk_str (bstr "HSET") :: bulk k :: pair_words ps)).
Proof.
  intros R Hps Hm.
  assert (ND : NoDup ps.*1) by (rewrite Hps; apply NoDup_fst_map_to_list).
  assert (Em : set_pairs (HashData.flat ps) ∅ = m).
  { rewrite set_pairs_flat, (right_id_L ∅ (∪)) by done. rewrite (list_to_map_proper ps (map_to_list m)) by done. apply list_to_map_to_list. }
  assert (Hne : ps <> []) by (intros ->; by rewrite <- Em in Hm).
  assert (Hlen : length (HashData.flat ps) = length ps * 2) by (unfold HashData.flat; clear; induction ps as [|[f v] ps IH]; simpl in *; lia).
  assert (Ha : arity_ok HSET (HashData.flat ps) = true).
  { cbn [arity_ok]. rewrite Hlen. destruct ps as [|[f v] ps]; [done|]. change (HashData.flat ((f, v) :: ps)) with (f :: v :: HashData.flat ps).
    rewrite Nat.mul_comm, Nat.even_mul. done. }
  eapply makes_ext; [|eapply fills_makes, (serves_fills hash_kind now k _ _ _ m);
    [apply (hset_serves hthr Hh now k "HSET" (HashData.flat ps) int HSET Ha); by left|..]].
  - intros s. rewrite arm_hset. unfold cmd_hset. rewrite pair_words_flat.
    assert (B : bad_hset_arity (bulk_str (bstr "HSET") :: bulk k :: (bulk <$> HashData.flat ps)) = false).
    { unfold bad_hset_arity. cbn [length]. rewrite length_fmap, Hlen. rewrite bool_decide_eq_false_2 by (destruct ps; [done|simpl; lia]).
      cbn [orb Nat.even]. by rewrite Nat.mul_comm, Nat.even_mul. }
    rewrite B. done.
  - unfold hash_bytes. cbn [contents nothing hash_kind mbind option_bind new_map from_option]. rewrite Em. symmetry. exact (repr_weight (K := hash_kind) _ _ R).
  - intros r c' [E ->]. unfold hash_reply in E. cbn [contents nothing hash_kind] in E. subst r. split; [by eexists|].
    unfold hash_next. cbn [contents nothing hash_kind mbind option_bind new_map]. rewrite Em. unfold refill. by rewrite bool_decide_eq_false_2.
  - intros v R'. by exists v, m.
Qed.

(** ** Deadlines *)

Lemma pexpireat_keeps now k e x s : (now < x)%Z -> (0 <= x < 2 ^ 63)%Z -> swf s -> slot s k = Some e -> Entry.expiry e = None ->
  exists r s' e', dispatch_arm now (bstr "PEXPIREAT") [bulk_str (bstr "PEXPIREAT"); bulk k; bulk_str (show_int x)] s = Some (inr r, s') /\ no_error r /\
    swf s' /\ assigns s s' k (Some e') /\ Entry.value e' = Entry.value e /\ Entry.expiry e' = Some (Expiry.from_ms x).
Proof.
  intros Hn Hx W Sk Ex. rewrite arm_pexpireat. unfold cmd_pexpireat, set_expire. cbn [length]. rewrite bool_decide_eq_false_2 by lia.
  assert (G : get_i64 [bulk_str (bstr "PEXPIREAT"); bulk k; bulk_str (show_int x)] 2 "PEXPIREAT" = inr x).
  { unfold get_i64, get_str. cbn [lookup list_lookup bulk_str mbind option_bind as_str]. rewrite show_int_utf8. cbn [ok_or bindr].
    rewrite parse_i64_show; [done|]. unfold in_i64, i64_min, i64_max. lia. }
  rewrite G. cbn [try_at get_bytes_vec lookup list_lookup bulk mbind option_bind ok_or drop expire_options].
  rewrite bool_decide_eq_false_2 by (vm_compute; lia).
  destruct (shard_of s k W) as (d & Hd & Wd & Hsl). rewrite Hsl in Sk.
  destruct (get_on_shard now k d Wd) as (W1 & St & Hv & _ & _). unfold seen in Hv. rewrite Sk in Hv. cbn [mbind option_bind] in Hv.
  assert (X : Entry.is_expired now e = false) by (unfold Entry.is_expired; by rewrite Ex). rewrite X in Hv.
  destruct (Database.get now k d) as [r d1] eqn:E1. cbn [fst snd] in *. destruct r as [e1|]; [|done]. injection Hv as Hv1 Hv2. rewrite Ex in Hv2.
  assert (D1 : dstep d d1 k (Some e1)) by done.
  pose proof (set_expiry_step d d1 k e1 (Some (Expiry.from_ms x)) D1) as D2.
  assert (B : expire_body now (mkExpireOptions false false false false) (target_ms now x true true) k d =
    Some (inr (int 1), Database.set_expiry k (Some (Expiry.from_ms x)) d1)).
  { unfold expire_body. rewrite E1. unfold target_ms. rewrite Z.mul_1_r. cbn [refused andb orb]. rewrite bool_decide_eq_false_2 by lia.
    do 5 f_equal. lia. }
  destruct (on_shard_step s k d _ _ _ _ W Hd B (proj2 D2) (proj1 D2)) as (s' & E' & W' & A & _).
  eexists _, s', _. split; [exact E'|]. split_and!; [done|done|exact A|done|done].
Qed.

(** ** One entry *)

Definition restored e e' : Prop :=
  same_value (Entry.value e) (Entry.value e') /\ Expiry.expires_at_ms <$> Entry.expiry e' = Expiry.expires_at_ms <$> Entry.expiry e.

(** The command of a value, and that it works. *)
Lemma value_restored k v : restorable v -> exists name rest,
  value_commands k v = Some [words name k rest] /\ parse_cmd_name (bulk_str (bstr name) :: bulk k :: rest) = inr (bstr name) /\ bstr name <> bstr "SELECT" /\
  Forall (fun r => exists b, r = bulk b) rest /\
  forall now, makes k (value_weight v) (same_value v) (dispatch_arm now (bstr name) (bulk_str (bstr name) :: bulk k :: rest)).
Proof.
  intros Hr. destruct v as [b|c|l|x|z|h|b|b|st|g]; try done; simpl in Hr.
  - exists "SET"%string, [bulk b]. split_and!; try done; [repeat econstructor|]. intros now. apply set_makes.
  - exists "SET"%string, [bulk (show_int (AtomicIntCell.value c))]. split_and!; try done; [repeat econstructor|]. intros now. apply set_makes.
  - destruct Hr as (xs & R & Hx). exists "RPUSH"%string, (bulk <$> xs). cbn [value_commands]. rewrite (ListData.repr_is_empty _ _ R), bool_decide_eq_false_2 by done.
    rewrite (ListData.to_vec_refines _ _ R). split_and!; try done; [apply Forall_fmap, Forall_true; by eexists|]. intros now. by apply (rpush_makes now k l xs).
  - destruct Hr as (X & R & Hx). destruct (SetData.set_to_vec_repr _ _ R) as (xs & E & _ & EX). exists "SADD"%string, (bulk <$> xs). cbn [value_commands].
    assert (Hxs : xs <> []) by (intros ->; by apply Hx).
    assert (Em : SetData.is_empty x = false).
    { destruct R as (ys & Hy & EY). unfold SetData.is_empty. rewrite (SetData.members_len _ _ Hy). apply bool_decide_eq_false. intros Hz%nil_length_inv. subst ys. by apply Hx. }
    rewrite Em, E. split_and!; try done; [apply Forall_fmap, Forall_true; by eexists|]. intros now. by apply (sadd_makes now k x xs X).
  - destruct Hr as (m & R & Hm). destruct (HashData.to_pairs_refines _ _ R) as (ps & E & Hps & _). exists "HSET"%string, (pair_words ps). cbn [value_commands].
    assert (Em : HashData.is_empty h = false).
    { unfold HashData.is_empty. rewrite (HashData.hash_repr_len _ _ R). apply bool_decide_eq_false. by intros Hz%map_size_empty_inv. }
    rewrite Em, E. split_and!; try done; [rewrite pair_words_flat; apply Forall_fmap, Forall_true; by eexists|]. intros now. by apply (hset_makes now k h m ps).
Qed.

Section File.
Context (clock : nat -> Z).

(** A command of a file on the database it has selected. *)
Lemma replay_one name k rest idx count dbs s r s' : parse_cmd_name (bulk_str (bstr name) :: bulk k :: rest) = inr (bstr name) ->
  bstr name <> bstr "SELECT" -> dbs !! idx = Some s ->
  dispatch_arm (clock count) (bstr name) (bulk_str (bstr name) :: bulk k :: rest) s = Some (inr r, s') -> no_error r ->
  replay_args (dispatch clock) (bulk_str (bstr name) :: bulk k :: rest) idx count dbs = Some (inr (idx, count + 1, <[idx := s']> dbs)).
Proof.
  intros Hp Hn Hd E Hr. unfold replay_args. rewrite Hp, bool_decide_eq_false_2 by done. unfold dispatch. rewrite Hp, Hd. cbn [mbind option_bind].
  rewrite E. cbn [mbind option_bind]. by destruct r.
Qed.

(** What an entry must be like, and the bytes it takes. *)
Definition entry_ok e : Prop :=
  restorable (Entry.value e) /\ match Entry.expiry e with Some x => (0 <= Expiry.expires_at_ms x < 2 ^ 63)%Z /\ forall i, (clock i < Expiry.expires_at_ms x)%Z | None => True end.

Definition cost (p : bytes * Entry.t) : nat := 64 + length p.1 + value_weight (Entry.value p.2).

Lemma entry_restored now k e idx count dbs s : entry_ok e -> Entry.is_expired now e = false -> dbs !! idx = Some s -> swf s -> slot s k = None ->
  room s k (cost (k, e)) ->
  exists argss s' e' n, entry_commands now (k, e) = Some (array <$> argss) /\ Forall (Forall (fun r => exists b, r = bulk b)) argss /\
    replay_list (dispatch clock) argss idx count dbs = Some (inr (idx, n, <[idx := s']> dbs)) /\ swf s' /\ assigns s s' k (Some e') /\ restored e e'.
Proof.
  intros [Hv Hx] Hne Hd W Sk Hroom. destruct (value_restored k _ Hv) as (name & rest & Ec & Hp & Hn & Hb & Hm).
  destruct (Hm (clock count) s W Sk Hroom) as (r & s1 & e1 & E1 & Hr & W1 & A1 & V1 & X1).
  pose proof (replay_one name k rest idx count dbs s r s1 Hp Hn Hd E1 Hr) as R1.
  unfold entry_commands. cbn [fst snd]. rewrite Hne, Ec. cbn [mbind option_bind].
  assert (Hb1 : Forall (fun r => exists b, r = bulk b) (bulk_str (bstr name) :: bulk k :: rest)) by (constructor; [by eexists|constructor; [by eexists|done]]).
  destruct (Entry.expiry e) as [x|] eqn:Ex.
  - destruct Hx as [Hxr Hxc]. set (ms := Expiry.expires_at_ms x) in *.
    assert (S1 : slot s1 k = Some e1) by (rewrite (proj2 A1); by rewrite decide_True).
    destruct (pexpireat_keeps (clock (count + 1)) k e1 ms s1 (Hxc _) Hxr W1 S1 X1) as (r2 & s2 & e2 & E2 & Hr2 & W2 & A2 & V2 & X2).
    assert (Hd1 : <[idx := s1]> dbs !! idx = Some s1) by (apply list_lookup_insert_eq; by eapply lookup_lt_Some).
    pose proof (replay_one "PEXPIREAT" k [bulk_str (show_int ms)] idx (count + 1) _ s1 r2 s2 eq_refl ltac:(done) Hd1 E2 Hr2) as R2.
    exists [bulk_str (bstr name) :: bulk k :: rest; [bulk_str (bstr "PEXPIREAT"); bulk k; bulk_str (show_int ms)]], s2, e2, (count + 1 + 1). split; [done|].
    split; [constructor; [done|constructor; [|constructor]]; repeat (constructor; [by eexists|]); constructor|].
    split; [cbn [replay_list]; rewrite R1; cbn [mbind option_bind]; rewrite R2; cbn [mbind option_bind]; by rewrite list_insert_insert_eq|].
    split; [done|]. split.
    + split; [rewrite (proj1 A2); apply A1|]. intros j. rewrite (proj2 A2), (proj2 A1). by case_decide.
    + split; [by rewrite V2|]. rewrite X2, Ex. done.
  - exists [bulk_str (bstr name) :: bulk k :: rest], s1, e1, (count + 1). split; [done|]. split; [by constructor|].
    split; [cbn [replay_list]; by rewrite R1|]. split; [done|]. split; [done|]. split; [done|]. by rewrite X1, Ex.
Qed.

(** ** One database *)

(** The keyspace has exactly these entries, restored. *)
Definition rebuilt (done : list (bytes * Entry.t)) s : Prop :=
  forall k, match (list_to_map done : gmap bytes Entry.t) !! k with
            | Some e => exists e', slot s k = Some e' /\ restored e e'
            | None => slot s k = None
            end.

Lemma map_total_bound (f : bytes -> Entry.t -> nat) (L : list (bytes * Entry.t)) (c : bytes * Entry.t -> nat) : forall m : gmap bytes Entry.t,
  (forall k x, m !! k = Some x -> exists e, (k, e) ∈ L /\ f k x <= c (k, e)) -> map_total f m <= sum_list_with c L.
Proof.
  induction L as [|[k e] L IH]; intros m Hm.
  - assert (m = ∅) as ->; [|by rewrite map_total_empty]. apply map_empty. intros k. destruct (m !! k) as [x|] eqn:E; [|done].
    destruct (Hm k x E) as (? & Hin & _). by apply not_elem_of_nil in Hin.
  - cbn [sum_list_with]. destruct (m !! k) as [x|] eqn:E.
    + destruct (decide (f k x <= c (k, e))) as [Hf|Hf].
      * rewrite (map_total_delete f m k x) by done. enough (map_total f (delete k m) <= sum_list_with c L) by lia. apply IH.
        intros j y Hj. destruct (decide (j = k)) as [->|Hne]; [by rewrite lookup_delete_eq in Hj|]. rewrite lookup_delete_ne in Hj by done.
        destruct (Hm j y Hj) as (e' & [[= -> ->]|Hin]%elem_of_cons & Hl'); [done|eauto].
      * enough (map_total f m <= sum_list_with c L) by lia. apply IH. intros j y Hj. destruct (Hm j y Hj) as (e' & [[= -> ->]|Hin]%elem_of_cons & Hl'); [|eauto].
        rewrite E in Hj. by injection Hj as ->.
    + enough (map_total f m <= sum_list_with c L) by lia. apply IH. intros j y Hj.
      destruct (Hm j y Hj) as (e' & [[= -> ->]|Hin]%elem_of_cons & Hl'); [by rewrite E in Hj|eauto].
Qed.

Lemma rebuilt_room done s k n : swf s -> rebuilt done s -> (Z.of_nat (sum_list_with cost done + n) < 2 ^ 64)%Z -> room s k n.
Proof.
  intros W R F d Hd. enough (total_bytes d <= sum_list_with cost done) by lia. apply map_total_bound.
  intros j x Hj. pose proof (slot_found s _ d j x W Hd Hj) as Sj. specialize (R j). destruct (list_to_map done !! j) as [e|] eqn:E; [|congruence].
  destruct R as (e' & Se & [Hv _]). assert (x = e') as -> by congruence. exists e. split; [by apply elem_of_list_to_map_2|].
  unfold cost, Database.estimate_entry_size. cbn [fst snd]. by rewrite (same_value_weight _ _ Hv).
Qed.

(** The entries that are alive when the file is written. *)
Definition live_entries (now : Z) (L : list (bytes * Entry.t)) : list (bytes * Entry.t) := filter (fun p => Entry.is_expired now p.2 = false) L.

Lemma entries_restored now idx L : forall done count dbs s,
  dbs !! idx = Some s -> swf s -> rebuilt done s -> NoDup (done ++ live_entries now L).*1 ->
  Forall (fun p => entry_ok p.2) (live_entries now L) -> (Z.of_nat (sum_list_with cost (done ++ live_entries now L)) < 2 ^ 64)%Z ->
  exists argss s' n, all_commands (entry_commands now) L = Some (array <$> argss) /\ Forall (Forall (fun r => exists b, r = bulk b)) argss /\
    replay_list (dispatch clock) argss idx count dbs = Some (inr (idx, n, <[idx := s']> dbs)) /\ swf s' /\ rebuilt (done ++ live_entries now L) s'.
Proof.
  induction L as [|[k e] L IH]; intros done count dbs s Hd W R ND Hok F.
  - exists [], s, count. unfold live_entries in *. rewrite filter_nil, app_nil_r in *. split_and!; try done. cbn [replay_list]. by rewrite list_insert_id.
  - unfold live_entries in *. rewrite filter_cons in *. cbn [snd] in *. cbn [all_commands]. destruct (Entry.is_expired now e) eqn:Hx.
    + rewrite decide_False in * by done. destruct (IH done count dbs s Hd W R ND Hok F) as (argss & s' & n & E & Hrest). exists argss, s', n.
      assert (E0 : entry_commands now (k, e) = Some []) by (unfold entry_commands; cbn [snd]; by rewrite Hx).
      rewrite E0. cbn [mbind option_bind]. rewrite E. done.
    + rewrite decide_True in * by done. apply Forall_cons in Hok as [He Hok].
      assert (Hk : k ∉ done.*1).
      { rewrite fmap_app in ND. apply NoDup_app in ND as (_ & Hdis & _). intros Hin. apply (Hdis k Hin). cbn [fmap list_fmap fst]. apply elem_of_cons. by left. }
      assert (Sk : slot s k = None) by (specialize (R k); by rewrite not_elem_of_list_to_map_1 in R).
      rewrite sum_list_with_app in F. cbn [sum_list_with] in F.
      destruct (entry_restored now k e idx count dbs s He Hx Hd W Sk) as (a1 & s1 & e1 & n1 & E1 & B1 & R1 & W1 & A1 & V1).
      { eapply rebuilt_room; [done..|]. unfold cost in *. cbn [fst snd] in *. lia. }
      assert (Hd1 : <[idx := s1]> dbs !! idx = Some s1) by (apply list_lookup_insert_eq; by eapply lookup_lt_Some).
      assert (Hr1 : rebuilt (done ++ [(k, e)]) s1).
      { intros j. rewrite list_to_map_snoc by done. rewrite (proj2 A1). destruct (decide (j = k)) as [->|Hj].
        - rewrite lookup_insert_eq. by exists e1.
        - rewrite lookup_insert_ne by done. apply R. }
      destruct (IH (done ++ [(k, e)]) n1 _ s1 Hd1 W1 Hr1) as (a2 & s2 & n2 & E2 & B2 & R2 & W2 & V2).
      { by rewrite <- app_assoc. }
      { done. }
      { rewrite <- app_assoc, sum_list_with_app. cbn [app sum_list_with]. lia. }
      exists (a1 ++ a2), s2, n2. rewrite E1. cbn [mbind option_bind]. rewrite E2. cbn [mbind option_bind]. rewrite fmap_app. split; [done|].
      split; [by apply Forall_app|]. split; [|split; [done|by rewrite <- app_assoc in V2]].
      rewrite (replay_list_app _ _ _ _ _ _ _ _ _ R1), R2. by rewrite list_insert_insert_eq.
Qed.

(** ** The file *)

Definition entries_of (now : Z) (d : Database.t) : list (bytes * Entry.t) := live_entries now (hm_iter (Database.entries d)).

Lemma entries_of_nodup now d : NoDup (entries_of now d).*1.
Proof.
  assert (ND : NoDup (hm_iter (Database.entries d)).*1) by (rewrite (hm_iter_perm _ (Database.entries d)); apply NoDup_fst_map_to_list).
  unfold entries_of, live_entries. revert ND. generalize (hm_iter (Database.entries d)). intros L ND.
  induction L as [|[k e] L IH]; [done|]. cbn [fmap list_fmap fst] in ND. apply NoDup_cons in ND as [Hk ND]. rewrite filter_cons.
  destruct (decide _); [|by apply IH]. cbn [fmap list_fmap fst]. apply NoDup_cons. split; [|by apply IH].
  intros ([k' e'] & -> & Hin)%list_elem_of_fmap. apply list_elem_of_filter in Hin as [_ Hin]. apply Hk, list_elem_of_fmap. by exists (k', e').
Qed.

Lemma select_replays idx cur count (dbs : list t) : (Z.of_nat idx < 2 ^ 64)%Z ->
  replay_args (dispatch clock) [bulk_str (bstr "SELECT"); bulk_str (dec (Z.of_nat idx))] cur count dbs = Some (inr (idx, count, dbs)).
Proof.
  intros Hi. unfold replay_args. rewrite bool_decide_eq_true_2 by done. cbn [lookup list_lookup mbind option_bind bulk_str as_str].
  assert (U : from_utf8 (dec (Z.of_nat idx)) = Some (dec (Z.of_nat idx))).
  { pose proof (show_int_utf8 (Z.of_nat idx)) as U. unfold show_int in U. assert (E : (Z.of_nat idx <? 0)%Z = false) by lia. by rewrite E in U. }
  rewrite U. cbn [mbind option_bind]. rewrite parse_usize_dec by lia. cbv iota beta. by rewrite Nat2Z.id.
Qed.

Definition database_ok (now : Z) (d : Database.t) : Prop :=
  Forall (fun p => entry_ok p.2) (entries_of now d) /\ (Z.of_nat (sum_list_with cost (entries_of now d)) < 2 ^ 64)%Z.

Lemma databases_restored now databases : forall cur count (dbs : list t),
  NoDup databases.*1 -> (Z.of_nat (length dbs) < 2 ^ 64)%Z -> Forall (fun p => database_ok now p.2) databases ->
  Forall (fun p => exists s, dbs !! p.1 = Some s /\ swf s /\ rebuilt [] s) databases ->
  exists argss dbs' cur' n, all_commands (database_commands now) databases = Some (array <$> argss) /\ Forall (Forall (fun r => exists b, r = bulk b)) argss /\
    replay_list (dispatch clock) argss cur count dbs = Some (inr (cur', n, dbs')) /\ length dbs' = length dbs /\
    Forall (fun p => exists s, dbs' !! p.1 = Some s /\ swf s /\ rebuilt (entries_of now p.2) s) databases /\
    (forall i, i ∉ databases.*1 -> dbs' !! i = dbs !! i).
Proof.
  induction databases as [|[idx d] databases IH]; intros cur count dbs ND Hlen Hok He; [by exists [], dbs, cur, count|].
  cbn [fmap list_fmap fst] in ND. apply NoDup_cons in ND as [Hi ND]. apply Forall_cons in Hok as [[Hok Hc] Hoks]. apply Forall_cons in He as [(s & Hd & W & R) He].
  cbn [fst snd] in *. destruct (entries_restored now idx (hm_iter (Database.entries d)) [] count dbs s Hd W R) as (a1 & s1 & n1 & E1 & B1 & R1 & W1 & V1);
    [apply (entries_of_nodup now d)|done|done|].
  set (dbs1 := <[idx := s1]> dbs) in *.
  assert (Ho : forall j, j <> idx -> dbs1 !! j = dbs !! j) by (intros j Hj; by apply list_lookup_insert_ne).
  destruct (IH idx n1 dbs1 ND) as (a2 & dbs' & cur' & n2 & E2 & B2 & R2 & L2 & V2 & O2); [unfold dbs1; by rewrite length_insert|done| |].
  { rewrite list.Forall_forall in He |- *. intros [j dj] Hin. destruct (He _ Hin) as (s' & Hs' & Hrest). exists s'. split; [|exact Hrest]. cbn [fst] in *. rewrite Ho; [done|].
    intros ->. apply Hi, list_elem_of_fmap. by exists (idx, dj). }
  assert (Hidx : idx < length dbs) by (by eapply lookup_lt_Some).
  assert (Ed : database_commands now (idx, d) = Some (select_command idx :: (array <$> a1))) by (unfold database_commands; cbn [snd]; rewrite E1; done).
  exists ([bulk_str (bstr "SELECT"); bulk_str (dec (Z.of_nat idx))] :: a1 ++ a2), dbs', cur', n2.
  split; [cbn [all_commands]; rewrite Ed; cbn [mbind option_bind]; rewrite E2; cbn [mbind option_bind fmap list_fmap app]; by rewrite fmap_app|].
  split; [constructor; [repeat (constructor; [by eexists|]); constructor|by apply Forall_app]|].
  split; [cbn [replay_list]; rewrite select_replays by lia; cbn [mbind option_bind]; by rewrite (replay_list_app _ _ _ _ _ _ _ _ _ R1)|].
  split; [rewrite L2; unfold dbs1; by rewrite length_insert|]. split.
  - constructor; [|done]. exists s1. cbn [fst snd]. split; [|done]. rewrite O2 by done. by apply list_lookup_insert_eq.
  - intros j Hj. cbn [fmap list_fmap fst] in Hj. apply not_elem_of_cons in Hj as [Hj1 Hj2]. rewrite O2 by done. by apply Ho.
Qed.

Lemma entries_of_lookup now d k : (list_to_map (entries_of now d) : gmap bytes Entry.t) !! k = live now (Database.entries d !! k).
Proof.
  assert (Hin : forall e, (k, e) ∈ entries_of now d <-> Entry.is_expired now e = false /\ Database.entries d !! k = Some e).
  { intros e. unfold entries_of, live_entries. rewrite list_elem_of_filter, (hm_iter_perm _ (Database.entries d)), elem_of_map_to_list. done. }
  unfold live. destruct (Database.entries d !! k) as [e|] eqn:E; cbn [mbind option_bind].
  - destruct (Entry.is_expired now e) eqn:X; [|apply elem_of_list_to_map_1, Hin; [apply entries_of_nodup|done]].
    apply not_elem_of_list_to_map_1. intros ([k' e'] & -> & Hx)%list_elem_of_fmap. apply Hin in Hx as [X' E']. cbn [fst] in *. congruence.
  - apply not_elem_of_list_to_map_1. intros ([k' e'] & -> & Hx)%list_elem_of_fmap. apply Hin in Hx as [_ E']. cbn [fst] in *. congruence.
Qed.

End File.

End Restore.

Section Witness.
#[local] Existing Instance SetData.vec_index_set.
#[local] Existing Instance canonical_order.
#[local] Existing Instance ascii_case.
#[local] Existing Instance plain_itoa.
#[local] Existing Instance pattern_text.
#[local] Existing Instance pattern_format.
#[local] Instance no_whitespace : Whitespace := {| split_whitespace := fun b => [b] |}.

(** A list with a deadline, an integer, and a key that has expired when the file is written. *)
Definition sample_database : Database.t :=
  Database.insert (bstr "gone") (Entry.mk (TString (bstr "x")) (Some (Expiry.from_ms 40)) 0)
   (Database.insert (bstr "n") (Entry.mk (TInt (AtomicIntCell.mk 7 0)) None 0)
     (Database.insert (bstr "l") (Entry.mk (TList (ListData.from_linked [bstr "a"; bstr "b"])) (Some (Expiry.from_ms 900)) 0) Database.new)).

Definition no_other (now : Z) (cmd : bytes) (args : list Resp) (s : t) : may_panic (Result Resp * t) := Some (inl SyntaxError, s).

Definition sample_clock (i : nat) : Z := (100 + Z.of_nat (i `min` 5))%Z.

Definition sample_live : list (bytes * Entry.t) :=
  [(bstr "n", Entry.mk (TInt (AtomicIntCell.mk 7 0)) None 0);
   (bstr "l", Entry.mk (TList (ListData.from_linked [bstr "a"; bstr "b"])) (Some (Expiry.from_ms 900)) 0)].

Lemma sample_database_ok : database_ok sample_clock 50 sample_database.
Proof.
  assert (E : entries_of 50 sample_database = sample_live) by (vm_cast_no_check (eq_refl sample_live)). unfold database_ok. rewrite E. split; [|by vm_compute].
  constructor; [by split; [vm_compute; split; discriminate|]|]. constructor; [|constructor]. split.
  - exists [bstr "a"; bstr "b"]. split; [vm_compute; repeat constructor|done].
  - split; [vm_compute; split; [discriminate|reflexivity]|]. intros i. unfold sample_clock. simpl. lia.
Qed.

Definition sample_file : bytes := default [] (rewrite 50 [(1, sample_database)] []).

Lemma sample_words (a b : list (list Resp)) : Some (array <$> a) = Some (array <$> b) -> a = b.
Proof. intros [= E]. revert b E. induction a as [|x a IH]; intros [|y b] E; try discriminate; [done|]. cbn in E. injection E as -> E. f_equal. by apply IH. Qed.


(** A stream whose entries were all deleted is rewritten as one XSETID, which fails on the
    missing key: the file cannot be replayed. *)
Definition emptied_stream : StreamData := mkStreamData [] ∅ (bstr "5-0") 1.

Lemma emptied_stream_is_not_restored :
  exists args, value_commands (bstr "s") (TStream emptied_stream) = Some [array args] /\
    forall now s, swf s -> slot s (bstr "s") = None -> exists s', cmd_xsetid now args s = Some (inl no_such_key_err, s').
Proof.
  set (args := [bulk_str (bstr "XSETID"); bulk (bstr "s"); bulk_str (bstr "5-0"); bulk_str (bstr "ENTRIESADDED"); bulk_str (bstr "1")]).
  exists args. split; [vm_cast_no_check (eq_refl (Some [array args]))|]. intros now s W Sk. destruct (shard_of s (bstr "s") W) as (d & Hd & Wd & Hsl). rewrite Hsl in Sk.
  assert (A2 : get_str args 2 "XSETID" = inr (bstr "5-0")) by (vm_compute; reflexivity).
  assert (A3 : StreamIds.parse_id (bstr "5-0") = Some (StreamIds.mkStreamId 5 0)) by (vm_compute; reflexivity).
  assert (A4 : xsetid_options (drop 3 args) None = inr (Some 1%Z)) by (vm_compute; reflexivity).
  unfold cmd_xsetid. change (length args) with 5. rewrite bool_decide_eq_false_2 by lia. change (get_bytes_vec args 1 "XSETID") with (@inr NexradeError bytes (bstr "s")).
  rewrite A2. cbn [try_at]. rewrite A3. cbn [ok_or try_at]. rewrite A4. cbn [try_at].
  unfold on_shard. rewrite Hd. cbn [mbind option_bind]. unfold with_stream_mut, Database.get_mut. rewrite Sk. by eexists.
Qed.
End Witness.
